(* ===== verification/_CoqProject ===== *)
-Q . S2P
Prelude.v
GuestMemory.v
GuestCPU.v
DarwinMemory.v
CPUProbe.v
GuestImage.v
ExportTrie.v
FixupFormat.v
GuestFixups.v
GuestLink.v
GuestProbe.v
GuestVMBudget.v
SignedImage.v
SparseRegions.v
SparseTable.v
GuestSparseMemory.v
SparseInterface.v
GuestMemoryInstruction.v
GuestExclusive.v
SoftwareBuffers.v
GuestSoftwareVM.v
DebugWire.v
ArenaControl.v
LocalRoute.v
LegacyCrypto.v
CodeMemory.v
SignedFileProbe.v
HostProbes.v
GuestPaths.v
LaunchPolicy.v
GuestTLS.v
GuestUnwind.v
GuestWrap.v
GuestWaitTrace.v
GuestWait.v
DisplayTables.v
