(* ===== verification/Prelude.v ===== *)
(** * Tolkara: a verification development for its runtime core

    Tolkara runs unmodified arm64 macOS applications on an iPad: it loads the
    original Mach-O files as data, places them, and gives the code the memory
    and system-call behaviour it was compiled for. This library models the C
    code that decides what an application's memory holds and what its
    instructions and system calls do, and proves that code correct. A
    definition bears the name of the C function or loop it follows.

    ** Parts

    - Prelude: this file. Machine integers ([w64], [w32], [w8] write out the
      wrap-around), byte buffers ([splice], [slice], [le_bytes]), sorted arrays
      searched by bisection ([lower_bound], [key_map], [replace_range]), the
      early returns of fallible code ([bad c ; k]), the tactics [bool_props] and
      [returned], and the hint database [tolkara].
    - GuestMemory (runtime/GuestMemory.c): the paged address space, an array of
      pages sorted by address. Its specification is [cell], a partial function
      from addresses to a byte and its permissions.
    - GuestCPU (runtime/GuestCPU.c): decoder, register instructions and run loop
      of the AArch64 interpreter with its decode cache, over GuestMemory.
    - DarwinMemory (runtime/DarwinMemory.c): mmap, mprotect and munmap with
      Darwin's rounding and errno values, over GuestMemory.
    - CPUProbe (runtime/CPUProbe.c, runtime/CPUProbeProgram.S,
      runtime/MemoryProbe.c): the two assembly programs of the CPU probe as
      instruction words, run by GuestCPU in a GuestMemory, and the memory probe
      over DarwinMemory.
    - GuestImage and ExportTrie (runtime/GuestImage.c): the Mach-O loader, which
      fills a GuestMemory, and the lookup in a loaded image's export trie.
    - GuestFixups (runtime/GuestFixups.c): the rebase, bind and chained-fixup
      programs of a loaded image. FixupFormat is their specification: relations
      that say what the bytes of such a program mean.
    - GuestLink (runtime/GuestLink.c): the libraries an application carries:
      where a name leads, what is loaded, who answers a bind, and the order of
      initialization. It calls GuestImage's loader and ExportTrie's lookup.
    - GuestProbe (tools/guest_probe.c): the command that puts the four together,
      from its arguments to the fixed memory of every image.
    - GuestVMBudget (runtime/GuestVMBudget.c): reservations counted against a
      budget and mapped shorter than asked, over a kernel that is the class
      [Kernel] of system calls.
    - SignedImage (runtime/SignedImage.c): the checks of a signed container of
      an application's code pages against the loaded GuestImage, over the host's
      memory as a function from addresses to bytes.
    - SparseRegions, SparseTable and GuestSparseMemory
      (runtime/GuestSparseMemory.c): the bounded software address space: its
      list of mapped regions, its open-addressing page table, and the operations
      on both. SparseInterface states what it promises as two classes,
      [SparseMemory] (the operations) and its laws, and proves the instances.
    - GuestMemoryInstruction (runtime/GuestMemoryInstruction.c): emulated loads,
      stores, structure and atomic instructions, proved against the interface.
    - GuestExclusive (runtime/GuestExclusive.c): load-exclusive to
      store-exclusive sequences as one operation, with GuestCPU's register
      instructions and GuestMemoryInstruction's accesses.
    - GuestSoftwareVM and SoftwareBuffers (runtime/GuestSoftwareVM.c): software
      memory for native code. GuestSoftwareVM is the fault handler that performs
      an instruction with GuestMemoryInstruction or GuestExclusive, the signal
      dispositions it hides, the mappings and the code alias; SoftwareBuffers is
      the calls of the C library and the kernel whose buffers lie in software
      memory, proved against SparseInterface.
    - CodeMemory (runtime/NativeCodeMemory.c, runtime/DebuggerArena.c): pages of
      translated code with an executable and a writable view, and who may enter
      them. HostProbes (runtime/HostExecutionProbe.c, runtime/HostDiagnostics.c)
      tries over the same kernel what may be executed, and reports it.
      SignedFileProbe (launcher/App/SignedFileProbe.c) tries the same with a
      signed file, whose load commands and signature it parses.
    - GuestTLS, GuestUnwind and GuestWrap (runtime/, the same names): what each
      placed image registers: its thread-local storage, its unwind sections, and
      the trampolines that log a call. GuestUnwind takes the image GuestImage
      loaded.
    - GuestWaitTrace and GuestWait (runtime/, the same names): what each thread
      waits for, as an interleaving of atomic accesses, and the main thread's
      waits.
    - GuestPaths (runtime/GuestPaths.c) and LaunchPolicy
      (runtime/NativeGuestPolicy.h): paths whose case differs, and the decisions
      of a launch.
    - LegacyCrypto (translation/Security/LegacyCrypto.c): the CDSA entry points:
      handles, contexts, key derivation, encryption. DisplayTables
      (translation/CoreGraphics/Gamma.c, translation/CoreServices/Errors.c): the
      gamma ramp and the texts of errors.
    - DebugWire, LocalRoute (authorization/) and ArenaControl
      (authorization/Control/): the GDB packet codec, the packet reflector and
      the messages of the arena provider.

    ** How the C is modelled

    State is explicit: an operation takes the record of the C structure and
    returns the new one with the result. An array and its count are a list. A
    pointer that may be null is an option where the code tests it; buffers are
    lists of byte values. Unsigned integers are [Z] kept in range, with the
    wrap-around where the C has it. Whether an allocation succeeds is an
    argument, so every failure path is covered. Code that is not in the
    repository is a parameter: the file system and strdup in GuestLink, the
    mapped bytes of the host in SignedImage, the caller's resolver in GuestFixups
    and fetch function in GuestExclusive, directories in GuestPaths ([GPFiles]),
    the system's wait in GuestWait. A larger one is a class of operations on an
    abstract state, and what the code relies on is a second class of laws that
    state its documented behaviour: [Kernel] and [KernelLaws] (GuestVMBudget: a
    mapping is page aligned and inside the user address space), [Host] and
    [HostLaws] (GuestSoftwareVM), [HostFiles] and [FileLaws] (SoftwareBuffers),
    [CodeKernel] and [CodeKernelLaws] (CodeMemory), [ProbeKernel] and
    [ProbeKernelLaws] (HostProbes), [ProbeHost] and [ProbeHostLaws]
    (SignedFileProbe), [CommonCrypto] and [CommonCryptoLaws] (LegacyCrypto). Each
    has an instance at which a witness evaluates the code.
    Texts written for diagnostics are left out. Where C holds a lock from the
    first access of an operation to its last, the operation is one transition.

    Loops that are not structural have fuel. The theorems show that it is never
    used up: the probe and copy loops visit each slot or page once; the fixup
    streams shrink at every opcode; a search through libraries marks one of at
    most 64 at every turn ([search_fuel]); the pieces of a range end at one of
    [4 n + 2] boundaries of [n] regions ([turns]); a reservation is halved at
    most 64 times ([RESERVE_FUEL]); 4096 steps of [free_span] are the C's own
    bound. The loops over software buffers have [TURNS], more than a 64-bit count
    can ask for, as a binary number that costs nothing to carry; paths,
    expansions and parsed commands have the length of their input. [gw_wait] may
    wait forever: its theorem says after which turn it answers.

    ** What the theorems show

    - Address spaces: each operation changes exactly the cells of its range or
      nothing; a store is all or nothing; a page is never writable and
      executable at once for a thread; the one-page path equals the general
      one; every reachable state is well formed. The same for the sparse space,
      down to its hash table, with prepared writes that cannot fail and
      store-exclusives that succeed only when nothing came between.
    - Execution: a run with the decode cache equals a run without, whatever
      stores, remaps and protection changes came before; comparisons and
      logical immediates are what the architecture says; an instruction that
      does not retire changes nothing; the loops of the CPU probe, run from their
      words in memory, compute their C reference for every count.
    - Loading: the memory of a loaded image is what its load commands describe;
      its entry and its list of initializers can be fetched; fixups end, and
      store exactly the pointers that the file's opcodes or chains say, with the
      slide or the symbol's answer and addend ([FixupFormat.fixups_follow]);
      export lookup is the trie's finite map, empty edges included, safe on any
      bytes; the carried libraries are closed under linking, inside the
      application's folder, and each is linked by its recorded loader or was
      asked for; every library is
      initialized once, after what it needs; bind lookups end, and do not depend
      on what the images' memory holds; the command that loads, links and fixes up
      an application always ends, and leaves every image with its fixups applied
      ([GuestProbe.guest_probe_spec] composes the loader's theorems).
    - Containers: one that is accepted is a section of a signed, executable
      __TEXT, has the application's own header and load commands, and equals the
      application's original code after the end of the range it may rewrite.
    - Kernel reservations: requested ranges never overlap, the account is exact,
      and memory the application was not given is never handed to the kernel.
    - Software memory of native code: the handler performs exactly the instruction
      that accessed the window or leaves the fault to the application, whose
      signal dispositions it reads back as it set them; each call on a software buffer
      does to the guest's bytes what the C library's or the kernel's does.
    - Code and probes: a view is never left mapped behind an error, code whose
      preparation is uncertain is kept aside, and the guest is entered only when
      the debugger is detached; the probes leave no mapping or file open and
      never read outside the file they parse.
    - Images and threads: a loaded image that fits its place is always registered
      with the unwinder, which is told the sections that the file's own headers
      name ([GuestUnwind.loaded_image_unwinds] joins the loader's checks with the
      registration's); a wait of the main thread takes the pending events after
      each turn; each thread has one address for a
      thread-local variable; a reader never reports a torn wait record.
    - Cryptography: decryption inverts encryption through the padding, handles
      never dangle in any run of calls, and memory with secrets is wiped before
      it is given back.
    - Paths: the answer is the path as it exists, or the only one that differs in
      case.
    - Messages: encoders and decoders are inverse, malformed input is refused,
      buffers are never exceeded.

    Four theorems record behaviour that differs from its documentation:
    [GuestExclusive.gm_exclusive_sequence_leaves_write] (a CASAL of the zero
    register is taken for a load), [GuestVMBudget.gv_unmap_tail_missing] (the
    unmapped tail of a whole reservation cannot be mapped again),
    [LegacyCrypto.refused_key_not_wiped] (a context refused for its module is
    freed with its key) and [SignedFileProbe.last_section_found] (the last
    __text section is taken, not the first).

    ** Not modelled

    SparseMemoryProbe, SignedCodeProbe and vm_capacity run fixed samples through
    the modelled components, or time them, and print the result. USKeyMap is a constant table read by Objective-C. The
    functions that name a result ([gm_result_string] and its like) and what is
    written to logs are texts. The start of a process (NativeGuest, GuestModule,
    GuestStubs), the launcher, the translation frameworks and the transport are
    Objective-C and Swift. *)
From Stdlib Require Export ZArith Lia.
From stdpp Require Export sorting.
From stdpp Require Export base numbers list gmap tactics.
Export list_basics.list list_relations.list list_monad.list list_misc.list list_numbers.list.

#[global] Open Scope Z_scope.
#[export] Set Default Goal Selector "!".

(** ** Automation *)

(** Splits hypotheses about [&&], [||] and [negb], the shape a C condition
    leaves behind. *)
Ltac bool_hyps :=
  repeat match goal with
  | H : (_ || _) = true |- _ => apply orb_true_iff in H
  | H : (_ || _) = false |- _ => apply orb_false_iff in H as [? ?]
  | H : (_ && _) = true |- _ => apply andb_true_iff in H as [? ?]
  | H : negb _ = true |- _ => apply negb_true_iff in H
  | H : negb _ = false |- _ => apply negb_false_iff in H
  end.
(** The same, with integer comparisons turned into propositions for [lia]. *)
Ltac bool_props :=
  bool_hyps;
  repeat match goal with
  | H : (_ =? _) = true |- _ => apply Z.eqb_eq in H
  | H : (_ =? _) = false |- _ => apply Z.eqb_neq in H
  | H : (_ <? _) = true |- _ => apply Z.ltb_lt in H
  | H : (_ <? _) = false |- _ => apply Z.ltb_ge in H
  | H : (_ <=? _) = true |- _ => apply Z.leb_le in H
  | H : (_ <=? _) = false |- _ => apply Z.leb_gt in H
  end.

Create HintDb tolkara.

(** ** Early returns

    C code that validates its input leaves at the first failed test. [bad c ; k]
    is the statement [if (c) BAD(...); k], with [None] for the failure and the
    error text left out; results are bound with [x ← e; k]. *)
Declare Scope tolkara_scope.
Delimit Scope tolkara_scope with tolkara.
Notation "'bad' c ; k" := (if c then None else k)
  (at level 20, c at level 100, k at level 200, right associativity, only parsing) : tolkara_scope.
#[global] Open Scope tolkara_scope.

Lemma bad_Some {A} (c : bool) (k : option A) x : (bad c ; k) = Some x <-> c = false /\ k = Some x.
Proof. destruct c; [split; [done|by intros [? _]]|split; [done|by intros [_ ?]]]. Qed.
(** Takes the first test or binding off a hypothesis that such code returned. *)
Ltac returned H :=
  match type of H with
  | (if ?c then None else ?k) = Some ?x =>
      let Hc := fresh "Hok" in apply bad_Some in H as [Hc H]
  | (_ ≫= _) = Some ?x =>
      let y := fresh "v" in let Hy := fresh "Hget" in apply bind_Some in H as (y & Hy & H)
  end.

(** ** Machine integers

    A C unsigned integer is a [Z] kept in range; the wrap-around of an
    operation is written with [w64], [w32] or [w8]. *)

Definition U64 : Z := 2 ^ 64.
Definition UINT64_MAX : Z := 2 ^ 64 - 1.
Definition UINT32_MAX : Z := 2 ^ 32 - 1.
Definition w64 (x : Z) : Z := x mod 2 ^ 64.
Definition w32 (x : Z) : Z := x mod 2 ^ 32.
Definition w8 (x : Z) : Z := x mod 2 ^ 8.

Definition u64_ok (x : Z) : Prop := 0 <= x < 2 ^ 64.
Definition byte_ok (x : Z) : Prop := 0 <= x < 256.

(** [x & ~y] and [x & y] tests of C flag words. *)
Definition none_outside (x y : Z) : bool := Z.ldiff x y =? 0.
Definition has_all (x y : Z) : bool := Z.land x y =? y.
Definition bit (x i : Z) : bool := Z.testbit x i.
Definition field (x lo width : Z) : Z := Z.land (Z.shiftr x lo) (Z.ones width).

Lemma w64_range x : u64_ok (w64 x).
Proof. apply Z.mod_pos_bound. lia. Qed.
Lemma w64_small x : u64_ok x -> w64 x = x.
Proof. apply Z.mod_small. Qed.
Lemma w32_range x : 0 <= w32 x < 2 ^ 32.
Proof. apply Z.mod_pos_bound. lia. Qed.
Lemma w8_range x : byte_ok (w8 x).
Proof. apply Z.mod_pos_bound. lia. Qed.

(** [a & ~(2^k - 1)] rounds down to a multiple of [2^k]. *)
Lemma land_lnot_mask a k :
  0 <= k -> Z.land a (Z.lnot (2 ^ k - 1)) = a - a mod 2 ^ k.
Proof.
  intros Hk. replace (2 ^ k - 1) with (Z.ones k) by (rewrite Z.ones_equiv; lia).
  pose proof (Z.div_mod a (2 ^ k)). rewrite <- Z.ldiff_land.
  rewrite Z.ldiff_ones_r by lia. rewrite Z.shiftr_div_pow2, Z.shiftl_mul_pow2 by lia. lia.
Qed.
Lemma land_mask a k : 0 <= k -> Z.land a (2 ^ k - 1) = a mod 2 ^ k.
Proof.
  intros Hk. replace (2 ^ k - 1) with (Z.ones k) by (rewrite Z.ones_equiv; lia).
  by apply Z.land_ones.
Qed.
(** Multiples of a size are at least one size apart. *)
Lemma align_step page a b : 0 < page -> a mod page = 0 -> b mod page = 0 -> a < b -> a + page <= b.
Proof.
  intros Hpage Ha Hb Hlt. apply Z.mod_divide in Ha as [q ->]; [|lia]. apply Z.mod_divide in Hb as [q' ->]; [|lia].
  assert (q < q') by nia. nia.
Qed.
Lemma has_all_0 x : has_all x 0 = true.
Proof. unfold has_all. by rewrite Z.land_0_r. Qed.

(** ** Byte buffers *)

(** Replace the bytes of [l] from index [i] by [bs]. *)
Definition splice {A} (i : nat) (bs l : list A) : list A :=
  take i l ++ bs ++ drop (i + length bs) l.

Lemma length_splice {A} i (bs l : list A) :
  (i + length bs <= length l)%nat -> length (splice i bs l) = length l.
Proof. intros. unfold splice. rewrite !length_app, length_take, length_drop. lia. Qed.

Lemma lookup_splice {A} i (bs l : list A) j :
  (i + length bs <= length l)%nat ->
  splice i bs l !! j =
    if decide (i <= j < i + length bs)%nat then bs !! (j - i)%nat else l !! j.
Proof.
  intros. unfold splice. destruct (decide (j < i)%nat).
  { rewrite lookup_app_l by (rewrite length_take; lia).
    rewrite lookup_take_lt by lia. case_decide; [lia|done]. }
  rewrite lookup_app_r by (rewrite length_take; lia). rewrite length_take_le by lia.
  case_decide.
  - by rewrite lookup_app_l by lia.
  - rewrite lookup_app_r by lia. rewrite lookup_drop. f_equal. lia.
Qed.

Lemma Forall_splice {A} (P : A -> Prop) i bs l :
  Forall P bs -> Forall P l -> Forall P (splice i bs l).
Proof. intros. unfold splice. rewrite !Forall_app. auto using Forall_take, Forall_drop. Qed.

(** The bytes [l[i .. i+n)]. *)
Definition slice {A} (i n : nat) (l : list A) : list A := take n (drop i l).

Lemma length_slice {A} i n (l : list A) :
  (i + n <= length l)%nat -> length (slice i n l) = n.
Proof. intros. unfold slice. rewrite length_take, length_drop. lia. Qed.
Lemma lookup_slice {A} i n (l : list A) j :
  (j < n)%nat -> slice i n l !! j = l !! (i + j)%nat.
Proof. intros. unfold slice. by rewrite lookup_take_lt, lookup_drop by lia. Qed.
Lemma Forall_slice {A} (P : A -> Prop) i n l : Forall P l -> Forall P (slice i n l).
Proof. intros. unfold slice. by apply Forall_take, Forall_drop. Qed.

(** Little-endian encoding, as the loops
    [bytes[i] = (unsigned char)(value >> (i * 8))] and
    [value |= (uint64_t)bytes[i] << (i * 8)] compute it. *)
Fixpoint le_bytes (n : nat) (v : Z) : list Z :=
  match n with
  | O => []
  | S n => w8 v :: le_bytes n (Z.shiftr v 8)
  end.
Fixpoint le_value (bs : list Z) : Z :=
  match bs with
  | [] => 0
  | b :: bs => Z.lor b (Z.shiftl (le_value bs) 8)
  end.

Lemma length_le_bytes n v : length (le_bytes n v) = n.
Proof. revert v. induction n; intros; cbn; auto. Qed.
Lemma le_bytes_ok n v : Forall byte_ok (le_bytes n v).
Proof. revert v. induction n; intros; cbn; constructor; auto using w8_range. Qed.

Lemma lor_high a b k : 0 <= k -> 0 <= a < 2 ^ k -> Z.lor a (b * 2 ^ k) = a + b * 2 ^ k.
Proof.
  intros Hk Ha. symmetry. rewrite <- Z.lxor_lor, <- Z.add_nocarry_lxor; [done| |].
  all: apply Z.bits_inj'; intros i Hi; rewrite Z.land_spec, Z.bits_0; destruct (decide (i < k));
    [by rewrite Z.mul_pow2_bits_low, andb_false_r by lia|].
  all: rewrite <- (Z.mod_small a (2 ^ k)) by lia; by rewrite Z.mod_pow2_bits_high by lia.
Qed.
Lemma lor_shiftl_add b v : byte_ok b -> Z.lor b (Z.shiftl v 8) = b + 256 * v.
Proof.
  intros [Hb1 Hb2]. rewrite Z.shiftl_mul_pow2 by lia.
  rewrite <- Z.lxor_lor, <- Z.add_nocarry_lxor; [lia| |].
  all: apply Z.bits_inj'; intros i Hi; rewrite Z.land_spec, Z.bits_0;
    destruct (decide (i < 8));
    [ rewrite Z.mul_pow2_bits_low by lia; by rewrite andb_false_r
    | rewrite <- (Z.mod_small b (2 ^ 8)) by lia; by rewrite Z.mod_pow2_bits_high by lia ].
Qed.

Lemma le_value_cons b bs :
  byte_ok b -> le_value (b :: bs) = b + 256 * le_value bs.
Proof. intros. cbn. by apply lor_shiftl_add. Qed.

Lemma le_value_le_bytes n v : le_value (le_bytes n v) = v mod 2 ^ (8 * Z.of_nat n).
Proof.
  revert v. induction n as [|n IH]; intros v; cbn [le_bytes].
  { by rewrite Z.mod_1_r. }
  rewrite le_value_cons by apply w8_range. rewrite IH. unfold w8.
  rewrite Z.shiftr_div_pow2 by lia.
  replace (2 ^ (8 * Z.of_nat (S n))) with (2 ^ 8 * 2 ^ (8 * Z.of_nat n))
    by (rewrite <- Z.pow_add_r by lia; f_equal; lia).
  rewrite Z.rem_mul_r by lia. lia.
Qed.

Lemma le_value_range bs :
  Forall byte_ok bs -> 0 <= le_value bs < 2 ^ (8 * Z.of_nat (length bs)).
Proof.
  induction 1 as [|b bs Hb _ IH]; [cbn; lia|].
  rewrite le_value_cons by done. unfold byte_ok in Hb. cbn [length].
  replace (2 ^ (8 * Z.of_nat (S (length bs)))) with (2 ^ 8 * 2 ^ (8 * Z.of_nat (length bs)))
    by (rewrite <- Z.pow_add_r by lia; f_equal; lia). lia.
Qed.

Lemma le_bytes_le_value bs :
  Forall byte_ok bs -> le_bytes (length bs) (le_value bs) = bs.
Proof.
  induction 1 as [|b bs Hb _ IH]; [done|].
  rewrite le_value_cons by done. cbn [length le_bytes]. unfold byte_ok in Hb.
  rewrite Z.shiftr_div_pow2 by lia. unfold w8. change (2 ^ 8) with 256.
  rewrite (Z.mul_comm 256), Z.div_add, Z.div_small, Z.mod_add, Z.mod_small by lia.
  by rewrite Z.add_0_l, IH.
Qed.

Lemma filter_none {A} (P : A -> Prop) `{!forall x, Decision (P x)} (l : list A) :
  (forall x, x ∈ l -> ~ P x) -> filter P l = [].
Proof.
  intros Hall. induction l as [|x l IH]; [done|].
  rewrite filter_cons_False by (apply Hall; by left). apply IH. intros y Hy. apply Hall. by right.
Qed.
Lemma filter_every {A} (P : A -> Prop) `{!forall x, Decision (P x)} (l : list A) :
  (forall x, x ∈ l -> P x) -> filter P l = l.
Proof.
  intros Hall. induction l as [|x l IH]; [done|].
  rewrite filter_cons_True by (apply Hall; by left). f_equal. apply IH. intros y Hy. apply Hall. by right.
Qed.

(** ** Constants of the system's headers *)

Definition PROT_NONE : Z := 0.
Definition PROT_READ : Z := 1.
Definition PROT_WRITE : Z := 2.
Definition MAP_PRIVATE : Z := 0x2.
Definition MAP_FIXED : Z := 0x10.
Definition MAP_NORESERVE : Z := 0x40.
Definition MAP_ANON : Z := 0x1000.
Definition ENOMEM : Z := 12.
Definition EACCES : Z := 13.
Definition EFAULT : Z := 14.
Definition EINVAL : Z := 22.
Definition ENAMETOOLONG : Z := 63.

(** ** The host process's memory: a byte at each address *)

Definition host_bytes (host : Z -> Z) (address size : Z) : list Z := (fun i => host (address + i)) <$> seqZ 0 size.
Definition host_store (host : Z -> Z) (address : Z) (bs : list Z) (x : Z) : Z :=
  if (address <=? x) && (x <? address + Z.of_nat (length bs)) then default 0 (bs !! Z.to_nat (x - address)) else host x.

Lemma lookup_host_bytes host a n i : 0 <= i < n -> host_bytes host a n !! Z.to_nat i = Some (host (a + i)).
Proof.
  intros Hi. unfold host_bytes. rewrite list_lookup_fmap, lookup_seqZ_lt by lia. cbn. by rewrite Z2Nat.id by lia.
Qed.
Lemma length_host_bytes host a n : length (host_bytes host a n) = Z.to_nat n.
Proof. unfold host_bytes. by rewrite length_fmap, length_seqZ. Qed.
Lemma host_bytes_ok host a n : (forall x, byte_ok (host x)) -> Forall byte_ok (host_bytes host a n).
Proof. intros Hok. unfold host_bytes. apply Forall_fmap, Forall_true. intros i. apply Hok. Qed.
Lemma host_store_spec host a bs x :
  host_store host a bs x =
    if decide (a <= x < a + Z.of_nat (length bs)) then default 0 (bs !! Z.to_nat (x - a)) else host x.
Proof.
  unfold host_store. destruct (Z.leb_spec a x), (Z.ltb_spec x (a + Z.of_nat (length bs))); cbn [andb]; case_decide; try done; lia.
Qed.

(** ** Loops that end by a measure

    At most [fuel] turns of a loop, whose step goes on with a new state or ends
    with a result. The fuel is a binary number, so that a bound of [2^64] turns
    can be evaluated when few of them are needed. *)
Fixpoint until {S R} (fuel : positive) (step : S -> S + R) (s : S) : S + R :=
  match fuel with
  | xH => step s
  | xO fuel =>
    match until fuel step s with
    | inl s => until fuel step s
    | inr r => inr r
    end
  | xI fuel =>
    match step s with
    | inl s =>
      match until fuel step s with
      | inl s => until fuel step s
      | inr r => inr r
      end
    | inr r => inr r
    end
  end.

Section until.
Context {S R : Type} (step : S -> S + R) (I : S -> Prop) (Q : R -> Prop) (measure : S -> Z).
Hypothesis turn : forall s, I s ->
  match step s with inl s' => I s' /\ measure s' < measure s | inr r => Q r end.
Hypothesis bounded : forall s, I s -> 0 <= measure s.

Lemma until_step fuel s :
  I s -> match until fuel step s with inl s' => I s' /\ measure s' + Zpos fuel <= measure s | inr r => Q r end.
Proof.
  revert s. induction fuel as [fuel IH|fuel IH|]; intros s Hs; cbn [until].
  - pose proof (turn s Hs) as H1. destruct (step s) as [s1|r]; [|done]. destruct H1 as [H1 Hm1].
    pose proof (IH s1 H1) as H2. destruct (until fuel step s1) as [s2|r]; [|done]. destruct H2 as [H2 Hm2].
    pose proof (IH s2 H2) as H3. destruct (until fuel step s2) as [s3|r]; [|done]. destruct H3. split; [done|lia].
  - pose proof (IH s Hs) as H2. destruct (until fuel step s) as [s2|r]; [|done]. destruct H2 as [H2 Hm2].
    pose proof (IH s2 H2) as H3. destruct (until fuel step s2) as [s3|r]; [|done]. destruct H3. split; [done|lia].
  - pose proof (turn s Hs) as H1. destruct (step s); [|done]. destruct H1. split; [done|lia].
Qed.
(** With more fuel than the measure the loop ends. *)
Lemma until_ends fuel s : I s -> measure s < Zpos fuel -> exists r, until fuel step s = inr r /\ Q r.
Proof.
  intros Hs Hfuel. pose proof (until_step fuel s Hs) as H. destruct (until fuel step s) as [s'|r]; [|by exists r].
  destruct H as [Hs' Hm]. pose proof (bounded s' Hs'). lia.
Qed.
End until.

(** ** Binary search in a table sorted by a key

    The runtime keeps its page tables as arrays sorted by address and searches
    them with the same half-interval loop ([lower] of GuestMemory.c and
    [original_page] of SignedImage.c). *)
Section lower_bound.
Context {A : Type} (key : A -> Z).

Fixpoint lower_bound_loop (fuel : nat) (l : list A) (a : Z) (lo hi : nat) : nat :=
  match fuel with
  | O => lo
  | S fuel =>
    if (lo <? hi)%nat then
      let mid := (lo + (hi - lo) / 2)%nat in
      match l !! mid with
      | Some p => if key p <? a then lower_bound_loop fuel l a (S mid) hi
                  else lower_bound_loop fuel l a lo mid
      | None => lo
      end
    else lo
  end.
Definition lower_bound (l : list A) (a : Z) : nat :=
  lower_bound_loop (length l) l a 0 (length l).

Definition key_sorted (l : list A) : Prop :=
  StronglySorted (fun p q => key p < key q) l.
Definition key_map (l : list A) : gmap Z A := list_to_map ((fun p => (key p, p)) <$> l).

Lemma key_sorted_lookup l i j p q :
  key_sorted l -> l !! i = Some p -> l !! j = Some q -> (i < j)%nat -> key p < key q.
Proof.
  intros Hs Hp Hq Hij. rewrite <- (take_drop j l) in Hs.
  refine (StronglySorted_app_1_elem_of _ _ _ _ _ Hs _ _).
  - apply list_elem_of_lookup. exists i. by rewrite lookup_take_lt.
  - apply list_elem_of_lookup. exists 0%nat. by rewrite lookup_drop, Nat.add_0_r.
Qed.

Lemma key_sorted_inj l i j p q :
  key_sorted l -> l !! i = Some p -> l !! j = Some q -> key p = key q -> i = j.
Proof.
  intros Hs Hp Hq E. destruct (lt_eq_lt_dec i j) as [[H|H]|H]; [|done|].
  - pose proof (key_sorted_lookup l i j p q Hs Hp Hq H). lia.
  - pose proof (key_sorted_lookup l j i q p Hs Hq Hp H). lia.
Qed.

Lemma lower_bound_loop_spec fuel l a lo hi :
  key_sorted l -> (hi - lo <= fuel)%nat -> (lo <= hi <= length l)%nat ->
  (forall i p, l !! i = Some p -> (i < lo)%nat -> key p < a) ->
  (forall i p, l !! i = Some p -> (hi <= i)%nat -> a <= key p) ->
  let k := lower_bound_loop fuel l a lo hi in
  (k <= length l)%nat /\
  (forall i p, l !! i = Some p -> ((i < k)%nat <-> key p < a)).
Proof.
  intros Hs. revert lo hi. induction fuel as [|fuel IH]; intros lo hi Hf Hb Hlo Hhi.
  { cbn. split; [lia|]. intros i p Hi. split; [by eapply Hlo|].
    intros Hk. destruct (decide (i < lo)%nat); [done|].
    assert (a <= key p) by (eapply Hhi; [done|lia]). lia. }
  cbn [lower_bound_loop]. destruct (Nat.ltb_spec lo hi) as [Hlt|Hge].
  2: { split; [lia|]. intros i p Hi. split; [by eapply Hlo|].
       intros Hk. destruct (decide (i < lo)%nat); [done|].
       assert (a <= key p) by (eapply Hhi; [done|lia]). lia. }
  assert ((hi - lo) / 2 < hi - lo)%nat by (apply Nat.div_lt; lia).
  set (mid := (lo + (hi - lo) / 2)%nat) in *.
  destruct (lookup_lt_is_Some_2 l mid) as [p Hp]; [lia|]. rewrite Hp.
  destruct (Z.ltb_spec (key p) a) as [Hk|Hk].
  - apply IH; [lia|lia| |done]. intros i q Hq Hi.
    destruct (decide (i = mid)) as [->|]; [assert (q = p) by congruence; by subst|].
    assert (key q < key p) by (eapply key_sorted_lookup; [done..|lia]). lia.
  - apply IH; [lia|lia|done|]. intros i q Hq Hi.
    destruct (decide (i = mid)) as [->|]; [assert (q = p) by congruence; by subst|].
    assert (key p < key q) by (eapply key_sorted_lookup; [done..|lia]). lia.
Qed.

(** On a sorted table the loop finds the first index whose key is at least [a]. *)
Lemma lower_bound_spec l a :
  key_sorted l ->
  (lower_bound l a <= length l)%nat /\
  (forall i p, l !! i = Some p -> ((i < lower_bound l a)%nat <-> key p < a)).
Proof.
  intros Hs. apply lower_bound_loop_spec; [done|lia|lia|lia|].
  intros i p Hi%lookup_lt_Some. lia.
Qed.

Lemma lower_bound_mono l a b :
  key_sorted l -> a <= b -> (lower_bound l a <= lower_bound l b)%nat.
Proof.
  intros Hs Hab. destruct (lower_bound_spec l a Hs) as [Ha1 Ha2].
  destruct (lower_bound_spec l b Hs) as [Hb1 Hb2].
  destruct (decide (lower_bound l a <= lower_bound l b)%nat); [done|].
  destruct (lookup_lt_is_Some_2 l (lower_bound l b)) as [p Hp]; [lia|].
  assert (key p < a) by (apply (Ha2 _ _ Hp); lia).
  assert (lower_bound l b < lower_bound l b)%nat by (apply (Hb2 _ _ Hp); lia). lia.
Qed.

Lemma lower_bound_eq l a i p :
  key_sorted l -> l !! i = Some p -> key p = a -> lower_bound l a = i.
Proof.
  intros Hs Hp Hk. destruct (lower_bound_spec l a Hs) as [Ha1 Ha2].
  pose proof (Ha2 i p Hp). destruct (decide (lower_bound l a < i)%nat) as [Hlt|]; [|lia].
  destruct (lookup_lt_is_Some_2 l (lower_bound l a)) as [q Hq].
  { apply lookup_lt_Some in Hp. lia. }
  pose proof (key_sorted_lookup l _ _ q p Hs Hq Hp Hlt).
  assert (lower_bound l a < lower_bound l a)%nat by (apply (Ha2 _ _ Hq); lia). lia.
Qed.

(** ** The table as a finite map *)

Lemma key_sorted_NoDup l : key_sorted l -> NoDup (((fun p => (key p, p)) <$> l).*1).
Proof.
  intros Hs. rewrite <- list_fmap_compose. apply NoDup_alt. intros i j x Hi Hj.
  apply list_lookup_fmap_Some in Hi as (p & -> & Hp).
  apply list_lookup_fmap_Some in Hj as (q & E & Hq). cbn in E.
  eapply key_sorted_inj; eauto.
Qed.

Lemma key_map_Some l k p :
  key_sorted l -> key_map l !! k = Some p <-> exists i, l !! i = Some p /\ key p = k.
Proof.
  intros Hs. unfold key_map. rewrite <- elem_of_list_to_map by by apply key_sorted_NoDup.
  rewrite list_elem_of_fmap. split.
  - intros (q & E & Hq). simplify_eq. apply list_elem_of_lookup in Hq as [i Hi]. eauto.
  - intros (i & Hi & <-). exists p. split; [done|]. by eapply list_elem_of_lookup_2.
Qed.

Lemma key_map_None l k :
  key_sorted l -> key_map l !! k = None <-> forall i p, l !! i = Some p -> key p <> k.
Proof.
  intros Hs. rewrite eq_None_not_Some. split.
  - intros H i p Hi Hk. apply H. exists p. apply key_map_Some; eauto.
  - intros H [p Hp]. apply key_map_Some in Hp as (i & Hi & Hk); [|done]. by eapply H.
Qed.

(** The search of the code: the element at the lower bound, if it has the key. *)
Lemma lower_bound_lookup l a :
  key_sorted l ->
  key_map l !! a =
    match l !! lower_bound l a with
    | Some p => if key p =? a then Some p else None
    | None => None
    end.
Proof.
  intros Hs. destruct (key_map l !! a) as [p|] eqn:E.
  - apply key_map_Some in E as (i & Hi & Hk); [|done].
    rewrite (lower_bound_eq l a i p), Hi by done. by rewrite Hk, Z.eqb_refl.
  - destruct (l !! lower_bound l a) as [p|] eqn:Hl; [|done].
    destruct (Z.eqb_spec (key p) a); [|done].
    rewrite key_map_None in E by done. by destruct (E _ _ Hl).
Qed.

Lemma key_sorted_app l1 l2 :
  key_sorted (l1 ++ l2) <->
  (forall p q, p ∈ l1 -> q ∈ l2 -> key p < key q) /\ key_sorted l1 /\ key_sorted l2.
Proof. unfold key_sorted. rewrite StronglySorted_app. naive_solver. Qed.
Lemma key_sorted_take n l : key_sorted l -> key_sorted (take n l).
Proof. intros Hs. rewrite <- (take_drop n l) in Hs. by apply key_sorted_app in Hs as (_ & ? & _). Qed.
Lemma key_sorted_drop n l : key_sorted l -> key_sorted (drop n l).
Proof. intros Hs. rewrite <- (take_drop n l) in Hs. by apply key_sorted_app in Hs as (_ & _ & ?). Qed.

(** Replacing the entries with keys in [[a, b)] by [new]. *)
Definition replace_range (l new : list A) (a b : Z) : list A :=
  take (lower_bound l a) l ++ new ++ drop (lower_bound l b) l.

Lemma elem_of_take_lower l a p :
  key_sorted l -> p ∈ take (lower_bound l a) l <-> p ∈ l /\ key p < a.
Proof.
  intros Hs. destruct (lower_bound_spec l a Hs) as [_ Ha]. rewrite !list_elem_of_lookup. split.
  - intros [i Hi]. apply lookup_take_Some in Hi as [Hi ?]. split; [by eauto|]. by eapply Ha.
  - intros [[i Hi] Hk]. exists i. rewrite lookup_take_lt; [done|]. by eapply Ha.
Qed.
Lemma elem_of_drop_lower l b p :
  key_sorted l -> p ∈ drop (lower_bound l b) l <-> p ∈ l /\ b <= key p.
Proof.
  intros Hs. destruct (lower_bound_spec l b Hs) as [_ Hb]. rewrite !list_elem_of_lookup. split.
  - intros [i Hi]. rewrite lookup_drop in Hi. split; [by eauto|].
    pose proof (Hb _ _ Hi). lia.
  - intros [[i Hi] Hk]. pose proof (Hb _ _ Hi). exists (i - lower_bound l b)%nat.
    rewrite lookup_drop. rewrite <- Hi. f_equal. lia.
Qed.

Lemma elem_of_replace_range l new a b p :
  key_sorted l ->
  p ∈ replace_range l new a b <-> (p ∈ l /\ key p < a) \/ p ∈ new \/ (p ∈ l /\ b <= key p).
Proof.
  intros Hs. unfold replace_range. rewrite !elem_of_app.
  by rewrite elem_of_take_lower, elem_of_drop_lower.
Qed.

Lemma replace_range_sorted l new a b :
  key_sorted l -> a <= b -> key_sorted new -> (forall p, p ∈ new -> a <= key p < b) ->
  key_sorted (replace_range l new a b).
Proof.
  intros Hs Hab Hn Hin. unfold replace_range. rewrite !key_sorted_app.
  split_and!; auto using key_sorted_take, key_sorted_drop.
  - intros p q Hp%elem_of_take_lower Hq; [|done]. rewrite elem_of_app in Hq.
    rewrite elem_of_drop_lower in Hq by done. destruct Hq as [Hq|[_ Hq]]; [|lia].
    apply Hin in Hq. lia.
  - intros p q Hp%Hin Hq%elem_of_drop_lower; [|done]. lia.
Qed.

Lemma key_map_elem l k p : key_sorted l -> key_map l !! k = Some p <-> p ∈ l /\ key p = k.
Proof. intros. rewrite key_map_Some, list_elem_of_lookup by done. split; [intros (i & ? & ?)|intros [[i ?] ?]]; eauto. Qed.

Lemma key_map_replace_range l new a b k :
  key_sorted l -> a <= b -> key_sorted new -> (forall p, p ∈ new -> a <= key p < b) ->
  key_map (replace_range l new a b) !! k =
    if decide (a <= k < b) then key_map new !! k else key_map l !! k.
Proof.
  intros Hs Hab Hn Hin. pose proof (replace_range_sorted l new a b Hs Hab Hn Hin) as Hr.
  apply option_eq. intros p. rewrite key_map_elem, elem_of_replace_range by done.
  case_decide as Hk; rewrite key_map_elem by done.
  - split; [intros [[[_ ?]|[?|[_ ?]]] ?]; [lia|done|lia]|]. intros [? ?]. auto.
  - split.
    + intros [[[? ?]|[?|[? ?]]] <-]; [done| |done]. exfalso. apply Hk. by apply Hin.
    + intros [Hp Hpk]. split; [|done]. destruct (Z.lt_ge_cases (key p) a); [by left|].
      right; right. split; [done|]. lia.
Qed.

(** How many entries lie in [[a, b)]. *)
Lemma lower_bound_diff l a b :
  key_sorted l -> a <= b ->
  slice (lower_bound l a) (lower_bound l b - lower_bound l a) l =
    filter (fun p => a <= key p < b) l.
Proof.
  intros Hs Hab. pose proof (lower_bound_mono l a b Hs Hab) as Hm.
  pose proof (take_drop (lower_bound l b - lower_bound l a) (drop (lower_bound l a) l)) as E2.
  rewrite drop_drop in E2.
  replace (lower_bound l a + (lower_bound l b - lower_bound l a))%nat
    with (lower_bound l b) in E2 by lia.
  unfold slice.
  trans (filter (fun p => a <= key p < b) (take (lower_bound l a) l ++
    take (lower_bound l b - lower_bound l a) (drop (lower_bound l a) l) ++
    drop (lower_bound l b) l)).
  2: { by rewrite E2, take_drop. }
  rewrite !filter_app.
  rewrite (filter_none _ (take (lower_bound l a) l)).
  2: { intros p Hp%elem_of_take_lower; [|done]. lia. }
  rewrite (filter_none _ (drop (lower_bound l b) l)).
  2: { intros p Hp%elem_of_drop_lower; [|done]. lia. }
  rewrite app_nil_r. cbn. symmetry. apply filter_every. intros p Hp. split.
  - assert (p ∈ drop (lower_bound l a) l) as Hd.
    { rewrite <- E2. apply elem_of_app. by left. }
    apply elem_of_drop_lower in Hd; [lia|done].
  - assert (p ∈ take (lower_bound l b) l) as Hd.
    { replace (lower_bound l b) with
        (lower_bound l a + (lower_bound l b - lower_bound l a))%nat by lia.
      rewrite <- take_take_drop. apply elem_of_app. by right. }
    apply elem_of_take_lower in Hd; [lia|done].
Qed.
End lower_bound.
#[global] Arguments key_map : simpl never.
#[global] Arguments lower_bound : simpl never.
#[global] Arguments splice : simpl never.
#[global] Arguments slice : simpl never.

#[export] Hint Resolve w64_range w32_range w8_range le_bytes_ok : tolkara.
#[export] Hint Resolve Forall_splice Forall_slice key_sorted_take key_sorted_drop : tolkara.
