(* ===== verification/GuestMemory.v ===== *)
(** * GuestMemory: the paged guest address space (runtime/GuestMemory.c)

    The state is the record [GuestMemory]: the page table as the C keeps it,
    an array sorted by address, and its generation counters. The operations
    follow the C one for one. The abstract specification is [cell]: an address
    space as a partial function from addresses to a byte with its permissions. *)
From S2P Require Import Prelude.

(** ** Data (GuestMemory.h) *)

Definition GM_READ : Z := 1.
Definition GM_WRITE : Z := 2.
Definition GM_EXEC : Z := 4.
Definition GM_PAGE_SIZE : Z := 16384.

Inductive GMResult :=
  GM_OK | GM_INVALID | GM_OVERLAP | GM_UNMAPPED | GM_PROTECTION | GM_NOMEM.
#[export] Instance GMResult_eq_dec : EqDecision GMResult.
Proof. solve_decision. Defined.

(** [gp_bytes] is [None] for a demand-zero page. *)
Record GMPage := mkGMPage {
  gp_address : Z;
  gp_bytes : option (list Z);
  gp_prot : Z;
  gp_maxprot : Z;
  gp_jit : bool
}.
(** The field [count] of the C is the length of [gm_pages]. *)
Record GuestMemory := mkGuestMemory {
  gm_pages : list GMPage;
  gm_generation : Z;
  gm_code_generation : Z;
  gm_fault_address : Z
}.
Record GMThread := mkGMThread { jit_write_protected : bool }.

Definition gm_empty : GuestMemory := mkGuestMemory [] 0 0 0.
Definition sizeof_GMPage : Z := 24.

Definition set_pages (m : GuestMemory) (ps : list GMPage) : GuestMemory :=
  mkGuestMemory ps (gm_generation m) (gm_code_generation m) (gm_fault_address m).
Definition set_fault (m : GuestMemory) (a : Z) : GuestMemory :=
  mkGuestMemory (gm_pages m) (gm_generation m) (gm_code_generation m) a.
Definition bump_generation (m : GuestMemory) : GuestMemory :=
  mkGuestMemory (gm_pages m) (w64 (gm_generation m + 1)) (gm_code_generation m)
    (gm_fault_address m).
Definition bump_code_generation (m : GuestMemory) : GuestMemory :=
  mkGuestMemory (gm_pages m) (gm_generation m) (w64 (gm_code_generation m + 1))
    (gm_fault_address m).
Definition set_bytes (p : GMPage) (bs : list Z) : GMPage :=
  mkGMPage (gp_address p) (Some bs) (gp_prot p) (gp_maxprot p) (gp_jit p).
Definition set_prot (prot : Z) (p : GMPage) : GMPage :=
  mkGMPage (gp_address p) (gp_bytes p) prot (gp_maxprot p) (gp_jit p).

Definition zero_bytes : list Z := replicate (Z.to_nat GM_PAGE_SIZE) 0.

(** ** Operations (GuestMemory.c) *)

Definition range (a n : Z) : bool :=
  negb (n =? 0) && (a mod GM_PAGE_SIZE =? 0) && (n mod GM_PAGE_SIZE =? 0) &&
  (n <=? UINT64_MAX - a).

Definition lower (m : GuestMemory) (a : Z) : nat := lower_bound gp_address (gm_pages m) a.

Definition gm_destroy (m : GuestMemory) : GuestMemory := gm_empty.

(** [pages_ok] is whether [calloc] gave the new page array. [range] keeps
    [a + n] and the new page addresses inside 64 bits. *)
Definition gm_map (pages_ok : bool) (m : GuestMemory) (a n prot maxprot : Z)
    (jit replace : bool) : GMResult * GuestMemory :=
  if negb (range a n) || negb (none_outside maxprot 7) || negb (none_outside prot maxprot)
  then (GM_INVALID, m) else
  let first := lower m a in
  let last := lower m (a + n) in
  if negb replace && negb (first =? last)%nat then (GM_OVERLAP, m) else
  let newpages := n / GM_PAGE_SIZE in
  let kept := Z.of_nat (length (gm_pages m)) - Z.of_nat (last - first) in
  if w64 (UINT64_MAX / sizeof_GMPage - kept) <? newpages then (GM_NOMEM, m) else
  if negb pages_ok then (GM_NOMEM, m) else
  let fresh := (fun i => mkGMPage (a + Z.of_nat i * GM_PAGE_SIZE) None prot maxprot jit)
                 <$> seq 0 (Z.to_nat newpages) in
  let pages := take first (gm_pages m) ++ fresh ++ drop last (gm_pages m) in
  (GM_OK, bump_code_generation (bump_generation (set_pages m pages))).

Definition gm_unmap (m : GuestMemory) (a n : Z) : GMResult * GuestMemory :=
  if negb (range a n) then (GM_INVALID, m) else
  let first := lower m a in
  let last := lower m (a + n) in
  let pages := take first (gm_pages m) ++ drop last (gm_pages m) in
  (GM_OK, bump_code_generation (bump_generation (set_pages m pages))).

Definition gm_protect (m : GuestMemory) (a n prot : Z) : GMResult * GuestMemory :=
  if negb (range a n) || negb (none_outside prot 7) then (GM_INVALID, m) else
  let first := lower m a in
  let last := lower m (a + n) in
  if negb (Z.of_nat (last - first) =? n / GM_PAGE_SIZE) then (GM_UNMAPPED, m) else
  let affected := slice first (last - first) (gm_pages m) in
  if existsb (fun p => negb (none_outside prot (gp_maxprot p))) affected
  then (GM_PROTECTION, m) else
  let pages := take first (gm_pages m) ++ (set_prot prot <$> affected) ++
               drop last (gm_pages m) in
  (GM_OK, bump_code_generation (bump_generation (set_pages m pages))).

(** The permission test that [access_range] and [copy] make on a page. *)
Definition page_denies (p : GMPage) (t : option GMThread) (permission : Z) : bool :=
  negb (has_all (gp_prot p) permission) ||
  match t with
  | Some t => gp_jit p &&
      (((permission =? GM_WRITE) && jit_write_protected t) ||
       ((permission =? GM_EXEC) && negb (jit_write_protected t)))
  | None => false
  end.

Definition page_floor (a : Z) : Z := Z.land a (Z.lnot (GM_PAGE_SIZE - 1)).

(** One turn of the loop per page: [n] bytes touch at most [n / page + 2] pages,
    and one more turn ends the loop. *)
Definition access_fuel (n : Z) : nat := Z.to_nat (n / GM_PAGE_SIZE + 3).

Fixpoint access_loop (fuel : nat) (m : GuestMemory) (t : option GMThread) (a stop permission : Z)
    : GMResult * GuestMemory :=
  match fuel with
  | O => (GM_INVALID, m)
  | S fuel =>
    if a <? stop then
      let base := page_floor a in
      let i := lower m base in
      let m := set_fault m a in
      match gm_pages m !! i with
      | None => (GM_UNMAPPED, m)
      | Some p =>
        if negb (gp_address p =? base) then (GM_UNMAPPED, m) else
        if page_denies p t permission then (GM_PROTECTION, m) else
        let chunk := GM_PAGE_SIZE - (a - base) in
        access_loop fuel m t (a + Z.min chunk (stop - a)) stop permission
      end
    else (GM_OK, set_fault m 0)
  end.
Definition access_range (m : GuestMemory) (t : option GMThread) (a n permission : Z)
    : GMResult * GuestMemory :=
  if UINT64_MAX - a <? n then (GM_INVALID, set_fault m a)
  else access_loop (access_fuel n) m t a (a + n) permission.

(** [calloc] of the page at an address succeeds when [alloc] says so. *)
Section copy.
Variable alloc : Z -> bool.

(** Backing for the pages from index [i] that begin below [stop]. *)
Fixpoint back_loop (fuel : nat) (ps : list GMPage) (i : nat) (stop : Z)
    : bool * list GMPage :=
  match fuel with
  | O => (true, ps)
  | S fuel =>
    match ps !! i with
    | Some p =>
      if gp_address p <? stop then
        match gp_bytes p with
        | Some _ => back_loop fuel ps (S i) stop
        | None =>
          if alloc (gp_address p)
          then back_loop fuel (<[i := set_bytes p zero_bytes]> ps) (S i) stop
          else (false, ps)
        end
      else (true, ps)
    | None => (true, ps)
    end
  end.

Definition page_bytes (p : GMPage) : list Z := default zero_bytes (gp_bytes p).

(** [done] is how far [b] has moved into the buffer. *)
Fixpoint copy_loop (fuel : nat) (m : GuestMemory) (a : Z) (buffer : list Z) (done : nat)
    (n : Z) (write executable_write : bool) : GuestMemory * list Z * bool :=
  match fuel with
  | O => (m, buffer, executable_write)
  | S fuel =>
    if n =? 0 then (m, buffer, executable_write) else
    let base := page_floor a in
    let i := lower m base in
    match gm_pages m !! i with
    | None => (m, buffer, executable_write)
    | Some p =>
      let executable_write :=
        executable_write || (write && negb (Z.land (gp_prot p) GM_EXEC =? 0)) in
      let offset := a - base in
      let chunk := Z.min (GM_PAGE_SIZE - offset) n in
      let k := Z.to_nat chunk in
      if write then
        let p' := set_bytes p (splice (Z.to_nat offset) (slice done k buffer) (page_bytes p)) in
        copy_loop fuel (set_pages m (<[i := p']> (gm_pages m))) (a + chunk) buffer
          (done + k) (n - chunk) write executable_write
      else
        copy_loop fuel m (a + chunk)
          (splice done (slice (Z.to_nat offset) k (page_bytes p)) buffer)
          (done + k) (n - chunk) write executable_write
    end
  end.

(** An access within one page: the page is resolved once. *)
Definition copy_one_page (m : GuestMemory) (t : option GMThread) (a : Z)
    (buffer : option (list Z)) (n permission : Z) (write : bool)
    : GMResult * GuestMemory * option (list Z) :=
  let offset := Z.land a (GM_PAGE_SIZE - 1) in
  let base := a - offset in
  let i := lower m base in
  let m := set_fault m a in
  match gm_pages m !! i with
  | None => (GM_UNMAPPED, m, buffer)
  | Some p =>
    if negb (gp_address p =? base) then (GM_UNMAPPED, m, buffer) else
    if page_denies p t permission then (GM_PROTECTION, m, buffer) else
    let m := set_fault m 0 in
    match buffer with
    | None => (GM_INVALID, m, buffer)
    | Some b =>
      if write then
        if negb (bool_decide (is_Some (gp_bytes p))) && negb (alloc (gp_address p))
        then (GM_NOMEM, m, buffer) else
        let p' := set_bytes p (splice (Z.to_nat offset) b (page_bytes p)) in
        let m := bump_generation (set_pages m (<[i := p']> (gm_pages m))) in
        (GM_OK, if Z.land (gp_prot p) GM_EXEC =? 0 then m else bump_code_generation m, buffer)
      else (GM_OK, m, Some (slice (Z.to_nat offset) (Z.to_nat n) (page_bytes p)))
    end
  end.

(** The full path: check every page, allocate, then copy. *)
Definition copy_pages (m : GuestMemory) (t : option GMThread) (a : Z)
    (buffer : option (list Z)) (n permission : Z) (write : bool)
    : GMResult * GuestMemory * option (list Z) :=
  let '(r, m) := access_range m t a n permission in
  if negb (bool_decide (r = GM_OK)) || (n =? 0) then (r, m, buffer) else
  match buffer with
  | None => (GM_INVALID, m, buffer)
  | Some b =>
    let '(backed, ps) :=
      if write then back_loop (length (gm_pages m)) (gm_pages m) (lower m (page_floor a)) (a + n)
      else (true, gm_pages m) in
    let m := set_pages m ps in
    if negb backed then (GM_NOMEM, m, buffer) else
    let '(m, b, executable_write) := copy_loop (access_fuel n) m a b 0 n write false in
    let m := if write then bump_generation m else m in
    let m := if executable_write then bump_code_generation m else m in
    (GM_OK, m, Some b)
  end.

Definition copy (m : GuestMemory) (t : option GMThread) (a : Z)
    (buffer : option (list Z)) (n permission : Z) (write : bool)
    : GMResult * GuestMemory * option (list Z) :=
  let offset := Z.land a (GM_PAGE_SIZE - 1) in
  if negb (n =? 0) && (n <=? GM_PAGE_SIZE - offset) && (n <=? UINT64_MAX - a)
  then copy_one_page m t a buffer n permission write
  else copy_pages m t a buffer n permission write.

Definition gm_write (m : GuestMemory) (t : option GMThread) (a : Z) (b : option (list Z)) (n : Z)
    : GMResult * GuestMemory :=
  (copy m t a b n GM_WRITE true).1.
Definition gm_populate (m : GuestMemory) (a : Z) (b : option (list Z)) (n : Z)
    : GMResult * GuestMemory :=
  (copy m None a b n 0 true).1.
Definition gm_read (m : GuestMemory) (a : Z) (b : option (list Z)) (n : Z)
    : GMResult * GuestMemory * option (list Z) :=
  copy m None a b n GM_READ false.

(** [instruction] is the word behind the out pointer, [None] for NULL; the
    stack buffer of the C starts with unspecified bytes, here zeros. *)
Definition gm_fetch (m : GuestMemory) (t : option GMThread) (a : Z) (instruction : option Z)
    : GMResult * GuestMemory * option Z :=
  match instruction with
  | None => (GM_INVALID, m, None)
  | Some old =>
    if negb (Z.land a 3 =? 0) then (GM_INVALID, set_fault m a, Some old) else
    let '(r, m, bytes) := copy m t a (Some (replicate 4 0)) 4 GM_EXEC false in
    if bool_decide (r = GM_OK)
    then (r, m, Some (le_value (default [] bytes)))
    else (r, m, Some old)
  end.
End copy.

Fixpoint find_free_loop (ps : list GMPage) (candidate n : Z) : GMResult * Z :=
  match ps with
  | [] => (GM_OK, candidate)
  | p :: ps =>
    if candidate + n <=? gp_address p then (GM_OK, candidate) else
    let candidate := gp_address p + GM_PAGE_SIZE in
    if UINT64_MAX - candidate <? n then (GM_NOMEM, candidate)
    else find_free_loop ps candidate n
  end.
(** On success the second component is stored through the out pointer. *)
Definition gm_find_free (m : GuestMemory) (hint n : Z) : GMResult * option Z :=
  if negb (range hint n) then (GM_INVALID, None) else
  let '(r, candidate) := find_free_loop (drop (lower m hint) (gm_pages m)) hint n in
  if bool_decide (r = GM_OK) then (GM_OK, Some candidate) else (r, None).

(** ** Specification: an address space of cells *)

Record Cell := mkCell { c_byte : Z; c_prot : Z; c_maxprot : Z; c_jit : bool }.

Definition page_cell (p : GMPage) (x : Z) : Cell :=
  mkCell (default 0 (page_bytes p !! Z.to_nat (x mod GM_PAGE_SIZE)))
    (gp_prot p) (gp_maxprot p) (gp_jit p).
Definition page_of (m : GuestMemory) (base : Z) : option GMPage :=
  key_map gp_address (gm_pages m) !! base.
(** What the guest sees at address [x]. *)
Definition cell (m : GuestMemory) (x : Z) : option Cell :=
  (fun p => page_cell p x) <$> page_of m (x - x mod GM_PAGE_SIZE).
Definition cell_with_byte (b : Z) (c : Cell) : Cell :=
  mkCell b (c_prot c) (c_maxprot c) (c_jit c).
Definition cell_with_prot (prot : Z) (c : Cell) : Cell :=
  mkCell (c_byte c) prot (c_maxprot c) (c_jit c).

(** The answer of the permission test on one cell. *)
Definition cell_check (c : option Cell) (t : option GMThread) (permission : Z) : GMResult :=
  match c with
  | None => GM_UNMAPPED
  | Some c =>
    if page_denies (mkGMPage 0 None (c_prot c) (c_maxprot c) (c_jit c)) t permission
    then GM_PROTECTION else GM_OK
  end.

(** ** Invariant *)

Record page_wf (p : GMPage) : Prop := {
  page_wf_aligned : gp_address p mod GM_PAGE_SIZE = 0;
  page_wf_range : 0 <= gp_address p /\ gp_address p + GM_PAGE_SIZE <= UINT64_MAX;
  page_wf_prot : none_outside (gp_prot p) (gp_maxprot p) = true;
  page_wf_maxprot : none_outside (gp_maxprot p) 7 = true;
  page_wf_bytes : forall bs, gp_bytes p = Some bs ->
    length bs = Z.to_nat GM_PAGE_SIZE /\ Forall byte_ok bs
}.
Record memory_wf (m : GuestMemory) : Prop := {
  memory_wf_sorted : key_sorted gp_address (gm_pages m);
  memory_wf_pages : Forall page_wf (gm_pages m)
}.

(** ** Page arithmetic *)

Lemma page_size_pow : GM_PAGE_SIZE = 2 ^ 14.
Proof. reflexivity. Qed.
Lemma page_floor_eq a : page_floor a = a - a mod GM_PAGE_SIZE.
Proof. unfold page_floor. rewrite page_size_pow. by apply land_lnot_mask. Qed.
Lemma page_offset_eq a : Z.land a (GM_PAGE_SIZE - 1) = a mod GM_PAGE_SIZE.
Proof. rewrite page_size_pow. by apply land_mask. Qed.
Lemma page_mod_bound a : 0 <= a mod GM_PAGE_SIZE < GM_PAGE_SIZE.
Proof. apply Z.mod_pos_bound. reflexivity. Qed.
Lemma page_floor_aligned a : (a - a mod GM_PAGE_SIZE) mod GM_PAGE_SIZE = 0.
Proof. rewrite Zminus_mod_idemp_r, Z.sub_diag. reflexivity. Qed.

(** The page of [x] for an aligned [base]. *)
Lemma page_unique base x :
  base mod GM_PAGE_SIZE = 0 -> base <= x < base + GM_PAGE_SIZE ->
  x mod GM_PAGE_SIZE = x - base.
Proof.
  intros Hb Hx. unfold GM_PAGE_SIZE in *.
  pose proof (Z.div_mod base 16384). symmetry. apply (Z.mod_unique _ _ (base / 16384)); lia.
Qed.
Lemma aligned_range_page a n x :
  a mod GM_PAGE_SIZE = 0 -> n mod GM_PAGE_SIZE = 0 ->
  a <= x - x mod GM_PAGE_SIZE < a + n <-> a <= x < a + n.
Proof.
  intros Ha Hn. unfold GM_PAGE_SIZE in *.
  pose proof (Z.div_mod x 16384). pose proof (Z.div_mod a 16384).
  pose proof (Z.div_mod n 16384). pose proof (Z.mod_pos_bound x 16384). lia.
Qed.

Lemma range_spec a n :
  range a n = true <->
  n <> 0 /\ a mod GM_PAGE_SIZE = 0 /\ n mod GM_PAGE_SIZE = 0 /\ a + n <= UINT64_MAX.
Proof. unfold range. lia. Qed.

Lemma length_zero_bytes : length zero_bytes = Z.to_nat GM_PAGE_SIZE.
Proof. apply length_replicate. Qed.
Lemma zero_bytes_ok : Forall byte_ok zero_bytes.
Proof. apply Forall_replicate. unfold byte_ok. lia. Qed.
#[global] Opaque zero_bytes.

Lemma lookup_zero_bytes i : default 0 (zero_bytes !! i) = 0.
Proof.
  with_strategy transparent [zero_bytes] unfold zero_bytes.
  destruct (replicate _ 0 !! i) eqn:E; [|done]. by apply lookup_replicate in E as [-> _].
Qed.

Lemma page_bytes_wf p :
  page_wf p -> length (page_bytes p) = Z.to_nat GM_PAGE_SIZE /\ Forall byte_ok (page_bytes p).
Proof.
  intros Hp. unfold page_bytes. destruct (gp_bytes p) as [bs|] eqn:E; cbn.
  - by apply Hp.
  - split; [apply length_zero_bytes|apply zero_bytes_ok].
Qed.
Lemma set_bytes_wf p bs :
  page_wf p -> length bs = Z.to_nat GM_PAGE_SIZE -> Forall byte_ok bs -> page_wf (set_bytes p bs).
Proof. intros []. split; cbn; auto. intros ? [= <-]. auto. Qed.
Lemma set_prot_wf p prot :
  page_wf p -> none_outside prot (gp_maxprot p) = true -> page_wf (set_prot prot p).
Proof. intros []. split; cbn; auto. Qed.

(** ** Lookup *)

Lemma page_of_lower m base :
  memory_wf m ->
  page_of m base =
    match gm_pages m !! lower m base with
    | Some p => if gp_address p =? base then Some p else None
    | None => None
    end.
Proof. intros [Hs _]. by apply lower_bound_lookup. Qed.

Lemma page_of_Some m base p :
  memory_wf m ->
  page_of m base = Some p ->
  gm_pages m !! lower m base = Some p /\ gp_address p = base /\ page_wf p.
Proof.
  intros Hm H. rewrite page_of_lower in H by done.
  destruct (gm_pages m !! lower m base) as [q|] eqn:E; [|done].
  destruct (Z.eqb_spec (gp_address q) base); [|done]. simplify_eq.
  split_and!; [done..|]. eapply Forall_lookup_1; [apply Hm|done].
Qed.

Lemma cell_None m x : cell m x = None <-> page_of m (x - x mod GM_PAGE_SIZE) = None.
Proof. unfold cell. by rewrite fmap_None. Qed.

Lemma cell_check_page m t permission x p :
  page_of m (x - x mod GM_PAGE_SIZE) = Some p ->
  cell_check (cell m x) t permission = if page_denies p t permission then GM_PROTECTION else GM_OK.
Proof. intros Hp. unfold cell. by rewrite Hp. Qed.

(** Replacing one page of the table by a page at the same address. *)
Lemma insert_page_sorted (ps : list GMPage) i p p' :
  key_sorted gp_address ps -> ps !! i = Some p -> gp_address p' = gp_address p ->
  key_sorted gp_address (<[i := p']> ps).
Proof.
  intros Hs Hi Ha. rewrite insert_take_drop by by eapply lookup_lt_Some.
  rewrite <- (take_drop_middle ps i p Hi) in Hs.
  revert Hs. rewrite !key_sorted_app. unfold key_sorted. rewrite !StronglySorted_cons.
  intros (H1 & H2 & H3 & H4). split_and!; [|done| |done].
  - intros q r Hq Hr. apply elem_of_cons in Hr as [->|Hr].
    + rewrite Ha. apply H1; [done|by left].
    + apply H1; [done|by right].
  - rewrite Ha. exact H3.
Qed.

Lemma insert_page_of m i p p' :
  memory_wf m -> gm_pages m !! i = Some p -> gp_address p' = gp_address p ->
  forall base, page_of (set_pages m (<[i := p']> (gm_pages m))) base =
    if decide (base = gp_address p) then Some p' else page_of m base.
Proof.
  intros [Hs _] Hi Ha base. unfold page_of. cbn.
  pose proof (insert_page_sorted _ _ _ _ Hs Hi Ha) as Hs'.
  pose proof (lookup_lt_Some _ _ _ Hi). apply option_eq. intros q.
  rewrite key_map_Some by done. case_decide as Hb.
  - subst base. split.
    + intros (j & Hj & E). destruct (decide (i = j)) as [->|Hij].
      * rewrite list_lookup_insert_eq in Hj by done. done.
      * rewrite list_lookup_insert_ne in Hj by done. exfalso. apply Hij.
        exact (key_sorted_inj gp_address _ i j p q Hs Hi Hj (eq_sym E)).
    + intros [= ->]. exists i. by rewrite list_lookup_insert_eq.
  - rewrite key_map_Some by done. split; intros (j & Hj & E); exists j.
    + destruct (decide (i = j)) as [->|Hij].
      * rewrite list_lookup_insert_eq in Hj by done. simplify_eq.
      * rewrite list_lookup_insert_ne in Hj by done. done.
    + destruct (decide (i = j)) as [->|Hij]; [simplify_eq|].
      by rewrite list_lookup_insert_ne by done.
Qed.

Lemma insert_page_wf m i p p' :
  memory_wf m -> gm_pages m !! i = Some p -> gp_address p' = gp_address p -> page_wf p' ->
  memory_wf (set_pages m (<[i := p']> (gm_pages m))).
Proof.
  intros [Hs Hp] Hi Ha Hw. split; cbn; [by eapply insert_page_sorted|].
  by apply Forall_insert.
Qed.

(** The cells after a page's bytes were replaced. *)
Lemma cell_set_bytes m i p bs :
  memory_wf m -> gm_pages m !! i = Some p ->
  forall x, cell (set_pages m (<[i := set_bytes p bs]> (gm_pages m))) x =
    if decide (gp_address p <= x < gp_address p + GM_PAGE_SIZE)
    then Some (mkCell (default 0 (bs !! Z.to_nat (x - gp_address p)))
                (gp_prot p) (gp_maxprot p) (gp_jit p))
    else cell m x.
Proof.
  intros Hm Hi x. unfold cell. rewrite (insert_page_of m i p) by done.
  assert (page_wf p) as Hp by (eapply Forall_lookup_1; [apply Hm|done]).
  pose proof (page_wf_aligned _ Hp). pose proof (page_mod_bound x).
  case_decide as H1; case_decide as H2.
  - cbn. unfold page_cell, page_bytes. cbn. by rewrite (page_unique (gp_address p) x) by done.
  - exfalso. lia.
  - exfalso. apply H1. rewrite (page_unique (gp_address p) x) by done. lia.
  - done.
Qed.

(** Bookkeeping fields do not change what is mapped. *)
Lemma page_of_pages m m' : gm_pages m' = gm_pages m -> forall base, page_of m' base = page_of m base.
Proof. intros E base. unfold page_of. by rewrite E. Qed.
Lemma cell_pages m m' : gm_pages m' = gm_pages m -> forall x, cell m' x = cell m x.
Proof. intros E x. unfold cell. by rewrite (page_of_pages m m'). Qed.
Lemma memory_wf_pages_eq m m' : gm_pages m' = gm_pages m -> memory_wf m -> memory_wf m'.
Proof. intros E []. split; by rewrite E. Qed.

(** ** Mapping, unmapping and protecting *)

Definition fresh_pages (a n prot maxprot : Z) (jit : bool) : list GMPage :=
  (fun i => mkGMPage (a + Z.of_nat i * GM_PAGE_SIZE) None prot maxprot jit)
    <$> seq 0 (Z.to_nat (n / GM_PAGE_SIZE)).

Lemma elem_of_fresh_pages a n prot maxprot jit p :
  a mod GM_PAGE_SIZE = 0 -> n mod GM_PAGE_SIZE = 0 ->
  p ∈ fresh_pages a n prot maxprot jit <->
  p = mkGMPage (gp_address p) None prot maxprot jit /\
  gp_address p mod GM_PAGE_SIZE = 0 /\ a <= gp_address p < a + n.
Proof.
  intros Ha Hn. unfold fresh_pages. rewrite list_elem_of_fmap. unfold GM_PAGE_SIZE in *.
  pose proof (Z.div_mod n 16384) as Hd. split.
  - intros (i & -> & Hi%elem_of_seq). cbn. split_and!; [done| |lia|lia].
    rewrite Z.mod_add by lia. done.
  - intros (-> & Hp & Hr). cbn in *. exists (Z.to_nat ((gp_address p - a) / 16384)).
    pose proof (Z.div_mod (gp_address p - a) 16384) as Hq.
    assert ((gp_address p - a) mod 16384 = 0) as Hz.
    { rewrite Zminus_mod, Ha, Hp. done. }
    rewrite elem_of_seq. split; [f_equal; lia|lia].
Qed.

Lemma fresh_pages_sorted a n prot maxprot jit :
  key_sorted gp_address (fresh_pages a n prot maxprot jit).
Proof.
  unfold fresh_pages. generalize 0%nat as k.
  induction (Z.to_nat (n / GM_PAGE_SIZE)) as [|c IH]; intros k; [constructor|].
  cbn. constructor; [apply IH|]. apply Forall_forall. intros p Hp.
  apply list_elem_of_fmap in Hp as (i & -> & Hi%elem_of_seq). cbn. unfold GM_PAGE_SIZE. lia.
Qed.

Lemma fresh_pages_lookup a n prot maxprot jit k :
  a mod GM_PAGE_SIZE = 0 -> n mod GM_PAGE_SIZE = 0 -> k mod GM_PAGE_SIZE = 0 ->
  a <= k < a + n ->
  key_map gp_address (fresh_pages a n prot maxprot jit) !! k =
    Some (mkGMPage k None prot maxprot jit).
Proof.
  intros. apply key_map_elem; [apply fresh_pages_sorted|]. split; [|done].
  by apply elem_of_fresh_pages.
Qed.

Lemma fresh_page_wf a n prot maxprot jit p :
  0 <= a -> range a n = true -> none_outside maxprot 7 = true ->
  none_outside prot maxprot = true ->
  p ∈ fresh_pages a n prot maxprot jit -> page_wf p.
Proof.
  intros H0 (Hn & Ha & Hm & Hr)%range_spec Hmax Hprot Hp.
  apply elem_of_fresh_pages in Hp as (E & Hal & Hin); [|done..].
  destruct p as [k bs pr mx j]; cbn in *. simplify_eq.
  split; cbn; auto; [|done]. split; [lia|].
  assert (GM_PAGE_SIZE <= a + n - k); [|lia].
  assert ((a + n - k) mod GM_PAGE_SIZE = 0) as Hd.
  { rewrite Zminus_mod, Zplus_mod, Ha, Hm, Hal. done. }
  unfold GM_PAGE_SIZE in *. pose proof (Z.div_mod (a + n - k) 16384). lia.
Qed.

(** Replacing the pages of an aligned range replaces exactly its cells. *)
Lemma replace_pages_spec m new a n :
  memory_wf m -> a mod GM_PAGE_SIZE = 0 -> n mod GM_PAGE_SIZE = 0 -> 0 <= n ->
  key_sorted gp_address new ->
  (forall p, p ∈ new -> page_wf p /\ a <= gp_address p < a + n) ->
  let m' := set_pages m (replace_range gp_address (gm_pages m) new a (a + n)) in
  memory_wf m' /\
  forall x, cell m' x =
    if decide (a <= x < a + n)
    then (fun p => page_cell p x) <$> key_map gp_address new !! (x - x mod GM_PAGE_SIZE)
    else cell m x.
Proof.
  intros [Hs Hp] Ha Hn H0 Hns Hnew m'.
  assert (key_sorted gp_address (gm_pages m')) as Hs'.
  { apply replace_range_sorted; [done|lia|done|]. intros p ?. by apply Hnew. }
  split; [split; [done|]|].
  - apply Forall_forall. intros p Hel. apply elem_of_replace_range in Hel; [|done].
    rewrite Forall_forall in Hp. destruct Hel as [[? _]|[?|[? _]]]; [by apply Hp| |by apply Hp].
    by apply Hnew.
  - intros x. unfold cell, page_of, m'. cbn.
    rewrite key_map_replace_range; [|done|lia|done|intros p ?; by apply Hnew].
    pose proof (aligned_range_page a n x Ha Hn).
    repeat case_decide; try done; exfalso; tauto.
Qed.

(** Whether two lower bounds meet says whether the range is free of pages. *)
Lemma lower_range_empty m a b :
  memory_wf m -> a <= b ->
  lower m a = lower m b <-> forall p, p ∈ gm_pages m -> ~ (a <= gp_address p < b).
Proof.
  intros [Hs _] Hab. unfold lower.
  pose proof (lower_bound_mono gp_address (gm_pages m) a b Hs Hab) as Hm.
  pose proof (lower_bound_diff gp_address (gm_pages m) a b Hs Hab) as Hd.
  pose proof (lower_bound_spec gp_address (gm_pages m) b Hs) as [Hle _]. split.
  - intros E p Hp Hin. rewrite E, Nat.sub_diag in Hd. unfold slice in Hd. rewrite take_0 in Hd.
    apply (not_elem_of_nil p). rewrite Hd. by apply list_elem_of_filter.
  - intros Hno. rewrite (filter_none _ (gm_pages m)) in Hd by done.
    apply (f_equal length) in Hd. rewrite length_slice in Hd by lia. cbn in Hd. lia.
Qed.

Lemma page_cell_mapped m p x :
  memory_wf m -> p ∈ gm_pages m -> x - x mod GM_PAGE_SIZE = gp_address p ->
  cell m x = Some (page_cell p x).
Proof.
  intros [Hs Hw] Hp Hx. unfold cell.
  assert (page_of m (x - x mod GM_PAGE_SIZE) = Some p) as ->; [|done].
  apply key_map_elem; [done|]. by rewrite Hx.
Qed.

(** A range has no pages exactly when none of its cells is mapped. *)
Lemma range_free_cells m a n :
  memory_wf m -> a mod GM_PAGE_SIZE = 0 -> n mod GM_PAGE_SIZE = 0 ->
  (forall p, p ∈ gm_pages m -> ~ (a <= gp_address p < a + n)) <->
  (forall x, a <= x < a + n -> cell m x = None).
Proof.
  intros Hm Ha Hn. split.
  - intros Hno x Hx. apply cell_None. unfold page_of. destruct Hm as [Hs Hp].
    destruct (key_map _ _ !! _) as [p|] eqn:E; [|done].
    apply key_map_elem in E as [Hel Hk]; [|done]. destruct (Hno p Hel).
    rewrite Hk. by apply aligned_range_page.
  - intros Hno p Hp Hin. destruct Hm as [Hs Hw].
    assert (page_wf p) as Hpw by (rewrite Forall_forall in Hw; by apply Hw).
    pose proof (page_wf_aligned _ Hpw) as Hal.
    assert (cell m (gp_address p) = Some (page_cell p (gp_address p))) as E.
    { apply page_cell_mapped; [done..|]. lia. }
    rewrite Hno in E by done. done.
Qed.

Lemma lower_range_mapped m a n :
  memory_wf m -> a mod GM_PAGE_SIZE = 0 -> n mod GM_PAGE_SIZE = 0 -> 0 <= n ->
  lower m a <> lower m (a + n) -> exists x, a <= x < a + n /\ cell m x <> None.
Proof.
  intros Hm Ha Hn H0 Hl. destruct (Hm) as [Hs Hw]. unfold lower in Hl.
  pose proof (lower_bound_mono gp_address (gm_pages m) a (a + n) Hs ltac:(lia)) as Hmono.
  destruct (lower_bound_spec gp_address (gm_pages m) a Hs) as [_ Hla].
  destruct (lower_bound_spec gp_address (gm_pages m) (a + n) Hs) as [Hle Hlb].
  destruct (lookup_lt_is_Some_2 (gm_pages m) (lower_bound gp_address (gm_pages m) a)) as [p Hp];
    [lia|].
  pose proof (Hla _ _ Hp). pose proof (Hlb _ _ Hp).
  exists (gp_address p). split; [lia|].
  rewrite (page_cell_mapped m p); [done|done|by eapply list_elem_of_lookup_2|].
  assert (page_wf p) as Hpw by (by eapply Forall_lookup_1).
  rewrite (page_wf_aligned _ Hpw). lia.
Qed.

Lemma lower_le m a : memory_wf m -> (lower m a <= length (gm_pages m))%nat.
Proof. intros [Hs _]. by apply lower_bound_spec. Qed.
(** The unsigned subtraction in the size check of [gm_map]. *)
Lemma room_bound q len gone new :
  u64_ok q -> 0 <= gone <= len -> 0 <= new -> w64 (q - (len - gone)) < new -> q < len + new.
Proof.
  unfold u64_ok, w64. intros Hq Hg H0 Hlt.
  destruct (Z.le_gt_cases (len - gone) q); [rewrite Z.mod_small in Hlt by lia|]; lia.
Qed.

Definition map_args_ok (a n prot maxprot : Z) : Prop :=
  range a n = true /\ none_outside maxprot 7 = true /\ none_outside prot maxprot = true.
Definition same_generations (m m' : GuestMemory) : Prop :=
  gm_generation m' = gm_generation m /\ gm_code_generation m' = gm_code_generation m.
Definition next_generations (m m' : GuestMemory) : Prop :=
  gm_generation m' = w64 (gm_generation m + 1) /\
  gm_code_generation m' = w64 (gm_code_generation m + 1).

Lemma gm_map_correct pages_ok m a n prot maxprot jit replace :
  memory_wf m -> 0 <= a -> 0 <= n ->
  match gm_map pages_ok m a n prot maxprot jit replace with
  | (GM_OK, m') =>
      memory_wf m' /\ next_generations m m' /\ map_args_ok a n prot maxprot /\
      (replace = true \/ forall x, a <= x < a + n -> cell m x = None) /\
      forall x, cell m' x =
        if decide (a <= x < a + n) then Some (mkCell 0 prot maxprot jit) else cell m x
  | (GM_INVALID, m') => m' = m /\ ~ map_args_ok a n prot maxprot
  | (GM_OVERLAP, m') =>
      m' = m /\ map_args_ok a n prot maxprot /\ replace = false /\
      exists x, a <= x < a + n /\ cell m x <> None
  | (GM_NOMEM, m') =>
      m' = m /\ map_args_ok a n prot maxprot /\
      (pages_ok = false \/
       UINT64_MAX / sizeof_GMPage <
         Z.of_nat (length (gm_pages m)) + n / GM_PAGE_SIZE)
  | _ => False
  end.
Proof.
  intros Hm Ha0 Hn0. unfold gm_map, map_args_ok.
  destruct (range a n) eqn:Hr; [|cbn; split; [done|intuition congruence]].
  destruct (none_outside maxprot 7) eqn:Hmx; [|cbn; split; [done|intuition congruence]].
  destruct (none_outside prot maxprot) eqn:Hpr; [|cbn; split; [done|intuition congruence]].
  cbn [negb orb]. pose proof (proj1 (range_spec a n) Hr) as (Hnz & Ha & Hn & Hend).
  destruct (negb replace && _) eqn:Hov.
  { bool_hyps. split_and!; [done..|]. apply lower_range_mapped; [done..|].
    by apply Nat.eqb_neq. }
  destruct (w64 _ <? _) eqn:Hroom.
  { split_and!; [done..|]. right. apply Z.ltb_lt in Hroom. eapply room_bound, Hroom; [by split; vm_compute| |].
    - pose proof (lower_le m (a + n) Hm). lia.
    - by apply Z.div_pos. }
  destruct pages_ok; cbn [negb]; [|by auto].
  destruct (replace_pages_spec m (fresh_pages a n prot maxprot jit) a n) as [Hwf Hcell];
    [done..| | |].
  { apply fresh_pages_sorted. }
  { intros p Hp. split; [by apply (fresh_page_wf a n prot maxprot jit)|].
    by apply elem_of_fresh_pages in Hp as (_ & _ & ?). }
  split_and!; [by refine (memory_wf_pages_eq _ _ _ Hwf)|done..| |].
  - apply andb_false_iff in Hov as [?%negb_false_iff|Hl%negb_false_iff]; [by left|right].
    apply Nat.eqb_eq in Hl. apply range_free_cells; [done..|]. by apply lower_range_empty; [done|lia|].
  - intros x. etrans; [etrans; [|apply Hcell]; by apply cell_pages|].
    case_decide as Hx; [|done].
    rewrite fresh_pages_lookup by (auto using page_floor_aligned; by apply aligned_range_page).
    unfold page_cell, page_bytes. cbn. by rewrite lookup_zero_bytes.
Qed.

(** [gm_map] implements mapping a range of an address space. On success
    every address of the range reads as zero with the requested permissions,
    every other address is as before, and both generations advance. It reports
    an overlap exactly when a replacement was not asked for and some address of
    the range is mapped, rejects misaligned, empty, wrapping or
    over-permissive requests, and on any failure leaves the memory unchanged. *)
Theorem gm_map_spec pages_ok m a n prot maxprot jit replace :
  memory_wf m -> 0 <= a -> 0 <= n ->
  match gm_map pages_ok m a n prot maxprot jit replace with
  | (GM_OK, m') =>
      memory_wf m' /\ next_generations m m' /\ map_args_ok a n prot maxprot /\
      (replace = true \/ forall x, a <= x < a + n -> cell m x = None) /\
      forall x, cell m' x =
        if decide (a <= x < a + n) then Some (mkCell 0 prot maxprot jit) else cell m x
  | (GM_INVALID, m') => m' = m /\ ~ map_args_ok a n prot maxprot
  | (GM_OVERLAP, m') =>
      m' = m /\ map_args_ok a n prot maxprot /\ replace = false /\
      exists x, a <= x < a + n /\ cell m x <> None
  | (GM_NOMEM, m') =>
      m' = m /\ map_args_ok a n prot maxprot /\
      (pages_ok = false \/
       UINT64_MAX / sizeof_GMPage <
         Z.of_nat (length (gm_pages m)) + n / GM_PAGE_SIZE)
  | _ => False
  end.
Proof. apply gm_map_correct. Qed.

Lemma memory_wf_bump m : memory_wf m -> memory_wf (bump_code_generation (bump_generation m)).
Proof. by apply memory_wf_pages_eq. Qed.

Lemma gm_unmap_correct m a n :
  memory_wf m -> 0 <= n ->
  match gm_unmap m a n with
  | (GM_OK, m') =>
      range a n = true /\ memory_wf m' /\ next_generations m m' /\
      forall x, cell m' x = if decide (a <= x < a + n) then None else cell m x
  | (GM_INVALID, m') => range a n = false /\ m' = m
  | _ => False
  end.
Proof.
  intros Hm H0. unfold gm_unmap. destruct (range a n) eqn:Hr; [|done]. cbn [negb].
  pose proof (proj1 (range_spec a n) Hr) as (_ & Ha & Hn & _).
  destruct (replace_pages_spec m [] a n) as [Hwf Hcell]; [done..| | |].
  { constructor. }
  { intros p Hp%elem_of_nil. done. }
  split_and!; [done|by apply memory_wf_bump|done..|]. intros x.
  etrans; [etrans; [|apply Hcell]; by apply cell_pages|]. by case_decide.
Qed.

(** [gm_unmap] removes exactly the cells of the range and never fails on a
    well-formed range; a malformed one is rejected without effect. *)
Theorem gm_unmap_spec m a n :
  memory_wf m -> 0 <= n ->
  match gm_unmap m a n with
  | (GM_OK, m') =>
      range a n = true /\ memory_wf m' /\ next_generations m m' /\
      forall x, cell m' x = if decide (a <= x < a + n) then None else cell m x
  | (GM_INVALID, m') => range a n = false /\ m' = m
  | _ => False
  end.
Proof. apply gm_unmap_correct. Qed.

(** The page addresses of a range. *)
Definition range_bases (a n : Z) : list Z :=
  (fun i => a + Z.of_nat i * GM_PAGE_SIZE) <$> seq 0 (Z.to_nat (n / GM_PAGE_SIZE)).

Lemma elem_of_range_bases a n k :
  a mod GM_PAGE_SIZE = 0 -> n mod GM_PAGE_SIZE = 0 ->
  k ∈ range_bases a n <-> k mod GM_PAGE_SIZE = 0 /\ a <= k < a + n.
Proof.
  intros Ha Hn. assert (range_bases a n = gp_address <$> fresh_pages a n 0 0 false) as ->.
  { unfold range_bases, fresh_pages. by rewrite <- list_fmap_compose. }
  rewrite list_elem_of_fmap. split.
  - intros (p & -> & Hp). by apply elem_of_fresh_pages in Hp as (_ & ? & ?).
  - intros [? ?]. exists (mkGMPage k None 0 0 false). split; [done|].
    by apply elem_of_fresh_pages.
Qed.
Lemma NoDup_range_bases a n : NoDup (range_bases a n).
Proof.
  apply NoDup_fmap_2; [|apply NoDup_seq]. intros i j. unfold GM_PAGE_SIZE. lia.
Qed.

(** As many pages as the range has, exactly when all of it is mapped. *)
Lemma lower_range_full m a n :
  memory_wf m -> a mod GM_PAGE_SIZE = 0 -> n mod GM_PAGE_SIZE = 0 -> 0 <= n ->
  Z.of_nat (lower m (a + n) - lower m a) = n / GM_PAGE_SIZE <->
  forall x, a <= x < a + n -> cell m x <> None.
Proof.
  intros [Hs Hw] Ha Hn H0.
  set (l := filter (fun p => a <= gp_address p < a + n) (gm_pages m)).
  assert (Z.of_nat (lower m (a + n) - lower m a) = Z.of_nat (length (gp_address <$> l))) as ->.
  { f_equal. rewrite length_fmap. unfold l, lower.
    rewrite <- (lower_bound_diff gp_address) by (done || lia).
    pose proof (lower_bound_spec gp_address (gm_pages m) (a + n) Hs).
    rewrite length_slice; [done|]. 
    pose proof (lower_bound_mono gp_address (gm_pages m) a (a + n) Hs ltac:(lia)). lia. }
  assert (length (range_bases a n) = Z.to_nat (n / GM_PAGE_SIZE)) as Hlen.
  { unfold range_bases. by rewrite length_fmap, length_seq. }
  assert (NoDup (gp_address <$> l)) as Hnd.
  { assert (key_sorted gp_address l) as Hsl.
    { unfold l. rewrite <- lower_bound_diff by (done || lia).
      by apply key_sorted_take, key_sorted_drop. }
    apply key_sorted_NoDup in Hsl. by rewrite <- list_fmap_compose in Hsl. }
  assert (forall k, k ∈ gp_address <$> l <->
    exists p, p ∈ gm_pages m /\ gp_address p = k /\ a <= k < a + n) as Hel.
  { intros k. rewrite list_elem_of_fmap. unfold l. split.
    - intros (p & -> & [? ?]%list_elem_of_filter). by exists p.
    - intros (p & ? & <- & ?). exists p. split; [done|]. by apply list_elem_of_filter. }
  pose proof (Z.div_pos n GM_PAGE_SIZE H0 ltac:(done)).
  trans (length (gp_address <$> l) = length (range_bases a n)); [lia|]. split.
  - intros El x Hx Hc. apply cell_None in Hc.
    assert (gp_address <$> l ⊆+ range_bases a n) as Hsub.
    { apply NoDup_submseteq; [done|]. intros k (p & Hp & <- & Hk)%Hel.
      apply elem_of_range_bases; [done..|]. split; [|done].
      rewrite Forall_forall in Hw. by apply page_wf_aligned, Hw. }
    apply submseteq_length_Permutation in Hsub; [|lia].
    assert (x - x mod GM_PAGE_SIZE ∈ gp_address <$> l) as Hin.
    { rewrite Hsub. apply elem_of_range_bases; [done..|].
      split; [apply page_floor_aligned|by apply aligned_range_page]. }
    apply Hel in Hin as (p & Hp & E & _). unfold page_of in Hc.
    assert (key_map gp_address (gm_pages m) !! (x - x mod GM_PAGE_SIZE) = Some p) as Hk
      by (by apply key_map_elem). by rewrite Hk in Hc.
  - intros Hall. apply (anti_symm le).
    + apply submseteq_length, NoDup_submseteq; [done|]. intros k (p & Hp & <- & Hk)%Hel.
      apply elem_of_range_bases; [done..|]. split; [|done].
      rewrite Forall_forall in Hw. by apply page_wf_aligned, Hw.
    + apply submseteq_length, NoDup_submseteq; [apply NoDup_range_bases|].
      intros k (Hk & Hr)%elem_of_range_bases; [|done..]. apply Hel.
      destruct (cell m k) as [c|] eqn:Hc; [|by apply Hall in Hc].
      unfold cell in Hc. rewrite Hk, Z.sub_0_r in Hc.
      destruct (page_of m k) as [p|] eqn:Hp; [|done].
      apply key_map_elem in Hp as [? ?]; [|done]. by exists p.
Qed.

Lemma slice_lower m a n :
  memory_wf m -> 0 <= n ->
  slice (lower m a) (lower m (a + n) - lower m a) (gm_pages m) =
    filter (fun p => a <= gp_address p < a + n) (gm_pages m).
Proof. intros [Hs _] Hn. unfold lower. apply lower_bound_diff; [done|lia]. Qed.

Lemma key_sorted_set_prot prot l :
  key_sorted gp_address l -> key_sorted gp_address (set_prot prot <$> l).
Proof. intros Hs. unfold key_sorted in *. eapply StronglySorted_fmap, Hs. done. Qed.

Lemma key_map_set_prot prot l k :
  key_sorted gp_address l ->
  key_map gp_address (set_prot prot <$> l) !! k = set_prot prot <$> key_map gp_address l !! k.
Proof.
  intros Hs. apply option_eq. intros p.
  rewrite key_map_elem by by apply key_sorted_set_prot. rewrite fmap_Some, list_elem_of_fmap.
  split.
  - intros [(q & -> & Hq) Hk]. exists q. split; [|done]. by apply key_map_elem.
  - intros (q & Hq & ->). apply key_map_elem in Hq as [? ?]; [|done]. split; [by exists q|done].
Qed.

Lemma key_map_filter m a n k :
  memory_wf m -> 0 <= n -> a <= k < a + n ->
  key_map gp_address (filter (fun p => a <= gp_address p < a + n) (gm_pages m)) !! k =
    page_of m k.
Proof.
  intros Hm Hn Hk. destruct (Hm) as [Hs _]. unfold page_of. apply option_eq. intros p.
  rewrite <- slice_lower by done.
  rewrite !key_map_elem; [|done|by apply key_sorted_take, key_sorted_drop].
  rewrite slice_lower, list_elem_of_filter by done.
  split; [by intros [[_ ?] ?]|intros [? <-]; split; [split|]; done].
Qed.

Lemma gm_protect_correct m a n prot :
  memory_wf m -> 0 <= n ->
  let args_ok := range a n = true /\ none_outside prot 7 = true in
  let all_mapped := forall x, a <= x < a + n -> cell m x <> None in
  match gm_protect m a n prot with
  | (GM_OK, m') =>
      args_ok /\ all_mapped /\ memory_wf m' /\ next_generations m m' /\
      (forall x c, a <= x < a + n -> cell m x = Some c ->
        none_outside prot (c_maxprot c) = true) /\
      forall x, cell m' x =
        if decide (a <= x < a + n) then cell_with_prot prot <$> cell m x else cell m x
  | (GM_INVALID, m') => m' = m /\ ~ args_ok
  | (GM_UNMAPPED, m') => m' = m /\ args_ok /\ ~ all_mapped
  | (GM_PROTECTION, m') =>
      m' = m /\ args_ok /\ all_mapped /\
      exists x c, a <= x < a + n /\ cell m x = Some c /\
        none_outside prot (c_maxprot c) = false
  | _ => False
  end.
Proof.
  intros Hm H0 args_ok all_mapped. unfold gm_protect, args_ok.
  destruct (range a n) eqn:Hr; [|cbn; split; [done|intuition congruence]].
  destruct (none_outside prot 7) eqn:Hpr; [|cbn; split; [done|intuition congruence]].
  cbn [negb orb]. pose proof (proj1 (range_spec a n) Hr) as (_ & Ha & Hn & _).
  pose proof (lower_range_full m a n Hm Ha Hn H0) as Hfull.
  destruct (Z.eqb_spec (Z.of_nat (lower m (a + n) - lower m a)) (n / GM_PAGE_SIZE)) as [El|El];
    cbn [negb]; [|by rewrite Hfull in El].
  assert all_mapped as Hmap by (unfold all_mapped; by apply Hfull). clear Hfull El. rewrite slice_lower by done.
  set (l := filter _ (gm_pages m)).
  assert (forall p, p ∈ l <-> p ∈ gm_pages m /\ a <= gp_address p < a + n) as Hl.
  { intros p. unfold l. rewrite list_elem_of_filter. tauto. }
  assert (forall p, p ∈ gm_pages m -> page_wf p) as Hw.
  { destruct Hm as [_ Hw]. by rewrite Forall_forall in Hw. }
  destruct (existsb _ l) eqn:Hex.
  - apply existsb_exists in Hex as (p & Hp%list_elem_of_In & Hpm).
    apply negb_true_iff in Hpm. apply Hl in Hp as [Hp Hin]. split_and!; [done..|].
    exists (gp_address p), (page_cell p (gp_address p)). split_and!; [lia|lia| |done].
    apply page_cell_mapped; [done..|]. rewrite page_wf_aligned by auto. lia.
  - assert (forall p, p ∈ l -> none_outside prot (gp_maxprot p) = true) as Hmax.
    { intros p Hp. destruct (none_outside prot (gp_maxprot p)) eqn:E; [done|].
      assert (existsb (fun p => negb (none_outside prot (gp_maxprot p))) l = true); [|congruence].
      apply existsb_exists. exists p. rewrite <- list_elem_of_In. by rewrite E. }
    assert (key_sorted gp_address l) as Hsl.
    { unfold l. rewrite <- slice_lower by done. apply key_sorted_take, key_sorted_drop, Hm. }
    destruct (replace_pages_spec m (set_prot prot <$> l) a n) as [Hwf Hcell];
      [done..|by apply key_sorted_set_prot| |].
    { intros p Hp. apply list_elem_of_fmap in Hp as (q & -> & Hq). split.
      - apply set_prot_wf; [|by apply Hmax]. apply Hw. by apply Hl.
      - by apply Hl in Hq as [_ ?]. }
    do 2 (split; [done|]). split; [by apply memory_wf_bump|]. split; [done|]. split.
    + intros x c Hx Hc. unfold cell in Hc. destruct (page_of m _) as [p|] eqn:Hp; [|done].
      apply key_map_elem in Hp as [Hp Hk]; [|apply Hm]. cbn in Hc. simplify_eq. cbn.
      apply Hmax, Hl. split; [done|]. rewrite Hk. by apply aligned_range_page.
    + intros x. etrans; [etrans; [|apply Hcell]; by apply cell_pages|].
      case_decide as Hx; [|done]. rewrite key_map_set_prot by done.
      unfold l. rewrite key_map_filter by (done || by apply aligned_range_page).
      unfold cell. by destruct (page_of m _).
Qed.

(** [gm_protect] changes the permissions of exactly the range, only when
    all of it is mapped and the new permissions are within every page's
    maximum; otherwise it reports which and changes nothing. *)
Theorem gm_protect_spec m a n prot :
  memory_wf m -> 0 <= n ->
  let args_ok := range a n = true /\ none_outside prot 7 = true in
  let all_mapped := forall x, a <= x < a + n -> cell m x <> None in
  match gm_protect m a n prot with
  | (GM_OK, m') =>
      args_ok /\ all_mapped /\ memory_wf m' /\ next_generations m m' /\
      (forall x c, a <= x < a + n -> cell m x = Some c ->
        none_outside prot (c_maxprot c) = true) /\
      forall x, cell m' x =
        if decide (a <= x < a + n) then cell_with_prot prot <$> cell m x else cell m x
  | (GM_INVALID, m') => m' = m /\ ~ args_ok
  | (GM_UNMAPPED, m') => m' = m /\ args_ok /\ ~ all_mapped
  | (GM_PROTECTION, m') =>
      m' = m /\ args_ok /\ all_mapped /\
      exists x c, a <= x < a + n /\ cell m x = Some c /\
        none_outside prot (c_maxprot c) = false
  | _ => False
  end.
Proof. apply gm_protect_correct. Qed.

(** ** Finding a free range *)

Lemma find_free_loop_spec ps candidate n :
  key_sorted gp_address ps -> Forall page_wf ps ->
  candidate mod GM_PAGE_SIZE = 0 -> 0 < n -> candidate + n <= UINT64_MAX ->
  (forall p, p ∈ ps -> candidate <= gp_address p) ->
  match find_free_loop ps candidate n with
  | (GM_OK, c) =>
      candidate <= c /\ c mod GM_PAGE_SIZE = 0 /\ c + n <= UINT64_MAX /\
      (forall p, p ∈ ps -> ~ (c <= gp_address p < c + n)) /\
      forall c', c' mod GM_PAGE_SIZE = 0 -> candidate <= c' < c ->
        exists p, p ∈ ps /\ c' <= gp_address p < c' + n
  | (GM_NOMEM, _) =>
      forall c', c' mod GM_PAGE_SIZE = 0 -> candidate <= c' -> c' + n <= UINT64_MAX ->
        exists p, p ∈ ps /\ c' <= gp_address p < c' + n
  | _ => False
  end.
Proof.
  intros Hs Hw. revert candidate. induction ps as [|p ps IH]; intros candidate Hc Hn Hend Hge.
  { cbn. split_and!; [lia|done|done| |lia]. intros p Hp%elem_of_nil. done. }
  apply StronglySorted_cons in Hs as [Hp Hs]. apply Forall_cons in Hw as [Hpw Hw].
  rewrite Forall_forall in Hp. pose proof (Hge p ltac:(by left)) as Hpc.
  pose proof (page_wf_aligned _ Hpw) as Hpa.
  assert (forall c', c' mod GM_PAGE_SIZE = 0 -> candidate <= c' < gp_address p + GM_PAGE_SIZE ->
    gp_address p < candidate + n -> c' <= gp_address p < c' + n) as Hhit.
  { intros c' Ha Hr Hlt. split; [|lia]. pose proof (page_unique _ c' Hpa) as Hu.
    destruct (Z.le_gt_cases c' (gp_address p)); [done|]. rewrite Ha in Hu. lia. }
  cbn [find_free_loop].
  destruct (Z.leb_spec (candidate + n) (gp_address p)) as [Hfit|Hfit].
  { split_and!; [lia|done|done| |lia]. intros q [->|Hq]%elem_of_cons; [lia|].
    pose proof (Hp q Hq). cbn in *. lia. }
  destruct (Z.ltb_spec (UINT64_MAX - (gp_address p + GM_PAGE_SIZE)) n) as [Hbig|Hbig].
  { intros c' Ha Hge' Hfit'. exists p. split; [by left|]. apply Hhit; [done| |done].
    split; [done|lia]. }
  assert ((gp_address p + GM_PAGE_SIZE) mod GM_PAGE_SIZE = 0) as Hna.
  { by rewrite <- Zplus_mod_idemp_r, Z_mod_same_full, Z.add_0_r. }
  assert (0 < GM_PAGE_SIZE) as Hps by done.
  specialize (IH Hs Hw (gp_address p + GM_PAGE_SIZE) Hna Hn ltac:(lia)).
  assert (forall q, q ∈ ps -> gp_address p + GM_PAGE_SIZE <= gp_address q) as Hge'.
  { intros q Hq. pose proof (Hp q Hq) as Hlt. cbn in Hlt.
    rewrite Forall_forall in Hw. pose proof (page_wf_aligned _ (Hw q Hq)) as Hqa.
    destruct (Z.le_gt_cases (gp_address p + GM_PAGE_SIZE) (gp_address q)); [done|].
    pose proof (page_unique (gp_address p) (gp_address q) Hpa ltac:(lia)). lia. }
  specialize (IH Hge'). destruct (find_free_loop ps _ n) as [[] c]; try done.
  - destruct IH as (Hle & Hca & Hcn & Hfree & Hmin). split_and!; [lia|done|done| |].
    + intros q [->|Hq]%elem_of_cons; [lia|by apply Hfree].
    + intros c' Ha Hr. destruct (Z.lt_ge_cases c' (gp_address p + GM_PAGE_SIZE)).
      * exists p. split; [by left|]. apply Hhit; [done|lia|done].
      * destruct (Hmin c' Ha ltac:(lia)) as (q & Hq & Hin). exists q. split; [by right|done].
  - intros c' Ha Hge2 Hfit2. destruct (Z.lt_ge_cases c' (gp_address p + GM_PAGE_SIZE)).
    + exists p. split; [by left|]. apply Hhit; [done|lia|done].
    + destruct (IH c' Ha ltac:(lia) Hfit2) as (q & Hq & Hin). exists q. split; [by right|done].
Qed.

Definition range_free (m : GuestMemory) (a n : Z) : Prop :=
  forall x, a <= x < a + n -> cell m x = None.

Lemma gm_find_free_correct m hint n :
  memory_wf m -> 0 <= n ->
  match gm_find_free m hint n with
  | (GM_OK, Some c) =>
      hint <= c /\ c mod GM_PAGE_SIZE = 0 /\ c + n <= UINT64_MAX /\ range_free m c n /\
      forall c', c' mod GM_PAGE_SIZE = 0 -> hint <= c' < c -> ~ range_free m c' n
  | (GM_INVALID, None) => range hint n = false
  | (GM_NOMEM, None) =>
      forall c', c' mod GM_PAGE_SIZE = 0 -> hint <= c' -> c' + n <= UINT64_MAX ->
        ~ range_free m c' n
  | _ => False
  end.
Proof.
  intros Hm H0. unfold gm_find_free. destruct (range hint n) eqn:Hr; [|done]. cbn [negb].
  pose proof (proj1 (range_spec hint n) Hr) as (Hnz & Ha & Hn & Hend).
  destruct (Hm) as [Hs Hw].
  pose proof (find_free_loop_spec (drop (lower m hint) (gm_pages m)) hint n
    (key_sorted_drop _ _ _ Hs) (Forall_drop _ _ _ Hw) Ha ltac:(lia) Hend) as Hspec.
  assert (forall p, p ∈ drop (lower m hint) (gm_pages m) <-> p ∈ gm_pages m /\ hint <= gp_address p)
    as Hd by (intros p; by apply elem_of_drop_lower).
  assert (forall c', c' mod GM_PAGE_SIZE = 0 -> hint <= c' ->
    (exists p, p ∈ drop (lower m hint) (gm_pages m) /\ c' <= gp_address p < c' + n) ->
    ~ range_free m c' n) as Hnf.
  { intros c' Hca Hge (p & Hp & Hin) Hfree. apply Hd in Hp as [Hp _].
    by apply (proj2 (range_free_cells m c' n Hm Hca Hn) Hfree p). }
  specialize (Hspec ltac:(intros p Hp; by apply Hd in Hp as [_ ?])).
  destruct (find_free_loop _ hint n) as [[] c]; try done; cbn.
  - destruct Hspec as (Hle & Hca & Hcn & Hfree & Hmin). split_and!; [done..| |].
    + refine (proj1 (range_free_cells m c n Hm Hca Hn) _). intros p Hp Hin. apply (Hfree p); [|done].
      apply Hd. split; [done|lia].
    + intros c' Hca' Hr'. apply Hnf; [done|lia|]. by apply Hmin.
  - intros c' Hca' Hge Hfit. apply Hnf; [done..|]. by apply Hspec.
Qed.

(** [gm_find_free] finds the lowest page-aligned free range of the size at
    or above the hint, and reports no memory only when there is none below the
    end of the address space. *)
Theorem gm_find_free_spec m hint n :
  memory_wf m -> 0 <= n ->
  match gm_find_free m hint n with
  | (GM_OK, Some c) =>
      hint <= c /\ c mod GM_PAGE_SIZE = 0 /\ c + n <= UINT64_MAX /\ range_free m c n /\
      forall c', c' mod GM_PAGE_SIZE = 0 -> hint <= c' < c -> ~ range_free m c' n
  | (GM_INVALID, None) => range hint n = false
  | (GM_NOMEM, None) =>
      forall c', c' mod GM_PAGE_SIZE = 0 -> hint <= c' -> c' + n <= UINT64_MAX ->
        ~ range_free m c' n
  | _ => False
  end.
Proof. apply gm_find_free_correct. Qed.

(** ** Accesses *)

(** The page the loops of [access_range] and [copy] find for an address. *)
Lemma lower_page_floor m a :
  memory_wf m ->
  match gm_pages m !! lower m (page_floor a) with
  | Some p => if gp_address p =? page_floor a then page_of m (a - a mod GM_PAGE_SIZE) = Some p
              else page_of m (a - a mod GM_PAGE_SIZE) = None
  | None => page_of m (a - a mod GM_PAGE_SIZE) = None
  end.
Proof.
  intros Hm. rewrite <- page_floor_eq. rewrite page_of_lower by done.
  by destruct (gm_pages m !! _) as [p|]; [destruct (_ =? _)|].
Qed.

(** How far the first page of an access reaches. *)
Lemma chunk_next a stop :
  a < stop ->
  let next := a + Z.min (GM_PAGE_SIZE - (a - page_floor a)) (stop - a) in
  a < next <= stop /\
  (forall x, a <= x < next -> x - x mod GM_PAGE_SIZE = a - a mod GM_PAGE_SIZE) /\
  (next = stop \/ next / GM_PAGE_SIZE = a / GM_PAGE_SIZE + 1).
Proof.
  intros Hlt. rewrite page_floor_eq. cbn zeta. pose proof (page_mod_bound a) as Hb.
  unfold GM_PAGE_SIZE in *. split_and!; [lia|lia| |].
  - intros x Hx. pose proof (Z.div_mod x 16384). pose proof (Z.div_mod a 16384).
    pose proof (Z.mod_pos_bound x 16384). lia.
  - destruct (Z.le_gt_cases (stop - a) (16384 - (a - (a - a mod 16384)))); [left; lia|right].
    rewrite Z.min_l by lia. pose proof (Z.div_mod a 16384).
    symmetry. apply (Z.div_unique _ _ _ 0); lia.
Qed.

Lemma access_loop_spec fuel m t a stop permission :
  memory_wf m -> (0 < fuel)%nat -> a <= stop ->
  a = stop \/ stop <= (a / GM_PAGE_SIZE + (Z.of_nat fuel - 1)) * GM_PAGE_SIZE ->
  let '(r, m') := access_loop fuel m t a stop permission in
  exists f, m' = set_fault m f /\
  ((r = GM_OK /\ f = 0 /\ forall x, a <= x < stop -> cell_check (cell m x) t permission = GM_OK) \/
   (r <> GM_OK /\ a <= f < stop /\ cell_check (cell m f) t permission = r /\
    forall x, a <= x < f -> cell_check (cell m x) t permission = GM_OK)).
Proof.
  revert m a. induction fuel as [|fuel IH]; intros m a Hm Hf Hle Hfuel; [lia|].
  cbn [access_loop]. destruct (Z.ltb_spec a stop) as [Hlt|Hge].
  2: { exists 0. split; [done|]. left. split_and!; [done..|]. lia. }
  destruct (chunk_next a stop Hlt) as (Hnext & Hsame & Hprog).
  set (next := a + Z.min _ _) in *.
  pose proof (lower_page_floor m a Hm) as Hpage. cbn [gm_pages set_fault].
  change (lower (set_fault m a) (page_floor a)) with (lower m (page_floor a)).
  assert (forall (r : GMResult), r <> GM_OK -> cell_check (cell m a) t permission = r ->
    exists f, set_fault m a = set_fault m f /\
    ((r = GM_OK /\ f = 0 /\ forall x, a <= x < stop -> cell_check (cell m x) t permission = GM_OK) \/
     (r <> GM_OK /\ a <= f < stop /\ cell_check (cell m f) t permission = r /\
      forall x, a <= x < f -> cell_check (cell m x) t permission = GM_OK))) as Hstop.
  { intros r Hr Hc. exists a. split; [done|]. right. split_and!; [done|lia|lia|done|lia]. }
  assert (page_of m (a - a mod GM_PAGE_SIZE) = None ->
    cell_check (cell m a) t permission = GM_UNMAPPED) as Hun.
  { intros Hp. unfold cell. by rewrite Hp. }
  destruct (gm_pages m !! lower m (page_floor a)) as [p|]; [|by apply Hstop; auto].
  destruct (gp_address p =? page_floor a); cbn [negb]; [|by apply Hstop; auto].
  pose proof (cell_check_page m t permission a p Hpage) as Hca.
  destruct (page_denies p t permission) eqn:Hden; [by apply Hstop|].
  assert (forall x, a <= x < next -> cell_check (cell m x) t permission = GM_OK) as Hok.
  { intros x Hx. rewrite (cell_check_page m t permission x p), Hden; [done|].
    by rewrite Hsame. }
  specialize (IH (set_fault m a) next). 
  destruct (access_loop fuel (set_fault m a) t next stop permission) as [r m'].
  assert (memory_wf (set_fault m a)) as Hm' by (by apply (memory_wf_pages_eq m)).
  destruct IH as (f & -> & Hcases); [done| |lia| |].
  { clear -Hfuel Hlt. unfold GM_PAGE_SIZE in Hfuel. pose proof (Z.div_mod a 16384).
    pose proof (Z.mod_pos_bound a 16384). lia. }
  { destruct Hprog as [Hp|Hp]; [by left|right]. rewrite Hp. lia. }
  exists f. split; [done|]. change (cell (set_fault m a)) with (cell m) in Hcases.
  destruct Hcases as [(-> & -> & Hall)|(Hr & Hf' & Hc & Hall)].
  - left. split_and!; [done..|]. intros x Hx.
    destruct (Z.lt_ge_cases x next); [by apply Hok; lia|apply Hall; lia].
  - right. split_and!; [done|lia|lia|done|]. intros x Hx.
    destruct (Z.lt_ge_cases x next); [by apply Hok; lia|apply Hall; lia].
Qed.

(** [access_range] accepts exactly when every byte of the range may be
    accessed; otherwise it answers for the first byte that may not. *)
Lemma access_range_spec m t a n permission :
  memory_wf m -> 0 <= a -> 0 <= n ->
  let '(r, m') := access_range m t a n permission in
  exists f, m' = set_fault m f /\
  ((r = GM_INVALID /\ f = a /\ UINT64_MAX < a + n) \/
   (a + n <= UINT64_MAX /\
    ((r = GM_OK /\ f = 0 /\
      forall x, a <= x < a + n -> cell_check (cell m x) t permission = GM_OK) \/
     (r <> GM_OK /\ a <= f < a + n /\ cell_check (cell m f) t permission = r /\
      forall x, a <= x < f -> cell_check (cell m x) t permission = GM_OK)))).
Proof.
  intros Hm Ha Hn. unfold access_range.
  destruct (Z.ltb_spec (UINT64_MAX - a) n) as [Hbig|Hfit].
  { exists a. split; [done|]. left. split_and!; [done..|lia]. }
  pose proof (access_loop_spec (access_fuel n) m t a (a + n) permission Hm) as Hspec.
  destruct (access_loop _ m t a (a + n) permission) as [r m'].
  assert (0 <= n / GM_PAGE_SIZE) by (by apply Z.div_pos).
  destruct Hspec as (f & -> & Hc); [unfold access_fuel; lia|lia| |].
  { right. unfold access_fuel. unfold GM_PAGE_SIZE in *.
    pose proof (Z.div_mod a 16384). pose proof (Z.div_mod n 16384).
    pose proof (Z.mod_pos_bound a 16384). pose proof (Z.mod_pos_bound n 16384). lia. }
  exists f. split; [done|]. right. split; [lia|done].
Qed.

(** Storing bytes inside one page. *)
Lemma write_page_wf m i p off bs :
  memory_wf m -> gm_pages m !! i = Some p -> Forall byte_ok bs ->
  Z.of_nat off + Z.of_nat (length bs) <= GM_PAGE_SIZE ->
  memory_wf (set_pages m (<[i := set_bytes p (splice off bs (page_bytes p))]> (gm_pages m))).
Proof.
  intros Hm Hi Hbs Hoff.
  assert (page_wf p) as Hp by (eapply Forall_lookup_1; [apply Hm|done]).
  destruct (page_bytes_wf p Hp) as [Hlen Hok].
  apply (insert_page_wf m i p); [done..|]. apply set_bytes_wf; [done| |].
  - rewrite length_splice by lia. done.
  - by apply Forall_splice.
Qed.
Lemma cell_write_page m i p off bs :
  memory_wf m -> gm_pages m !! i = Some p ->
  Z.of_nat off + Z.of_nat (length bs) <= GM_PAGE_SIZE ->
  forall x, cell (set_pages m (<[i := set_bytes p (splice off bs (page_bytes p))]> (gm_pages m))) x =
    let lo := gp_address p + Z.of_nat off in
    if decide (lo <= x < lo + Z.of_nat (length bs))
    then cell_with_byte (default 0 (bs !! Z.to_nat (x - lo))) <$> cell m x
    else cell m x.
Proof.
  intros Hm Hi Hoff x. cbn zeta.
  assert (page_wf p) as Hp by (eapply Forall_lookup_1; [apply Hm|done]).
  destruct (page_bytes_wf p Hp) as [Hlen _]. pose proof (page_wf_aligned _ Hp) as Hal.
  rewrite (cell_set_bytes m i p) by done.
  destruct (decide (gp_address p <= x < gp_address p + GM_PAGE_SIZE)) as [Hin|Hout].
  2: { case_decide; [exfalso; lia|done]. }
  pose proof (page_unique _ _ Hal Hin) as Hmod.
  assert (cell m x = Some (page_cell p x)) as Hc.
  { apply page_cell_mapped; [done|by eapply list_elem_of_lookup_2|lia]. }
  rewrite Hc, lookup_splice by lia. unfold page_cell, cell_with_byte. rewrite Hmod. cbn.
  repeat case_decide; try (exfalso; lia); [|done].
  do 3 f_equal. f_equal. lia.
Qed.

(** The turns [copy_loop] needs. *)
Definition enough_turns (a n : Z) (fuel : nat) : Prop :=
  n = 0 \/ a + n <= (a / GM_PAGE_SIZE + Z.of_nat fuel) * GM_PAGE_SIZE.

Lemma access_fuel_enough a n : 0 <= n -> enough_turns a n (access_fuel n).
Proof.
  intros Hn. right. assert (0 <= n / GM_PAGE_SIZE) by (by apply Z.div_pos).
  unfold access_fuel, GM_PAGE_SIZE in *.
  pose proof (Z.div_mod a 16384). pose proof (Z.div_mod n 16384).
  pose proof (Z.mod_pos_bound a 16384). pose proof (Z.mod_pos_bound n 16384). lia.
Qed.
Lemma enough_turns_step a n fuel :
  0 < n -> enough_turns a n (S fuel) ->
  let chunk := Z.min (GM_PAGE_SIZE - (a - page_floor a)) n in
  enough_turns (a + chunk) (n - chunk) fuel.
Proof.
  intros Hn He chunk. destruct (chunk_next a (a + n)) as (_ & _ & Hp); [lia|].
  replace (a + n - a) with n in Hp by lia. fold chunk in Hp.
  unfold enough_turns. destruct He as [->|He]; [lia|]. destruct Hp as [Hp|Hp]; [left; lia|].
  right. rewrite Hp. lia.
Qed.
Lemma enough_turns_S a n : 0 < n -> enough_turns a n 0 -> False.
Proof.
  intros Hn [->|He]; [lia|]. unfold GM_PAGE_SIZE in *.
  pose proof (Z.div_mod a 16384). pose proof (Z.mod_pos_bound a 16384). lia.
Qed.

Definition range_mapped (m : GuestMemory) (a n : Z) : Prop :=
  forall x, a <= x < a + n -> cell m x <> None.
Definition cell_exec (c : option Cell) : bool :=
  match c with Some c => negb (Z.land (c_prot c) GM_EXEC =? 0) | None => false end.

(** The page a turn of [copy_loop] works on. *)
Lemma copy_page_at m a n :
  memory_wf m -> 0 < n -> range_mapped m a n ->
  exists p, gm_pages m !! lower m (page_floor a) = Some p /\ gp_address p = page_floor a /\
    forall x, a <= x < a + Z.min (GM_PAGE_SIZE - (a - page_floor a)) n ->
      cell m x = Some (page_cell p x).
Proof.
  intros Hm Hn Hmap. pose proof (Hmap a ltac:(lia)) as Ha.
  pose proof (lower_page_floor m a Hm) as Hl.
  destruct (gm_pages m !! lower m (page_floor a)) as [p|] eqn:Hi;
    [|apply cell_None in Hl; by rewrite Hl in Ha].
  destruct (Z.eqb_spec (gp_address p) (page_floor a)) as [E|E];
    [|apply cell_None in Hl; by rewrite Hl in Ha].
  exists p. split_and!; [done..|]. intros x Hx.
  destruct (chunk_next a (a + n)) as (_ & Hsame & _); [lia|].
  replace (a + n - a) with n in Hsame by lia.
  apply page_cell_mapped; [done|by eapply list_elem_of_lookup_2|].
  rewrite Hsame by done. by rewrite E, page_floor_eq.
Qed.

Lemma copy_loop_write fuel m a buffer k n e :
  memory_wf m -> 0 <= a -> 0 <= n -> enough_turns a n fuel -> range_mapped m a n ->
  Forall byte_ok buffer -> Z.of_nat k + n <= Z.of_nat (length buffer) ->
  let '(m', buffer', e') := copy_loop fuel m a buffer k n true e in
  buffer' = buffer /\ memory_wf m' /\ same_generations m m' /\
  gm_fault_address m' = gm_fault_address m /\
  (forall x, cell m' x =
    if decide (a <= x < a + n)
    then cell_with_byte (default 0 (buffer !! (k + Z.to_nat (x - a))%nat)) <$> cell m x
    else cell m x) /\
  (e' = true <-> e = true \/ exists x, a <= x < a + n /\ cell_exec (cell m x) = true).
Proof.
  revert m a k n e. induction fuel as [|fuel IH]; intros m a k n e Hm Ha Hn Hf Hmap Hbuf Hlen.
  { destruct (Z.eq_dec n 0) as [->|]; [|exfalso; eapply enough_turns_S, Hf; lia]. cbn.
    split_and!; try done; [intros x; case_decide; [lia|done]|].
    split; [auto|]. intros [?|(x & ? & ?)]; [done|lia]. }
  cbn [copy_loop]. destruct (Z.eqb_spec n 0) as [->|Hnz].
  { split_and!; try done; [intros x; case_decide; [lia|done]|].
    split; [auto|]. intros [?|(x & ? & ?)]; [done|lia]. }
  destruct (copy_page_at m a n Hm ltac:(lia) Hmap) as (p & Hi & Haddr & Hcells).
  destruct (chunk_next a (a + n)) as (Hnext & _ & _); [lia|].
  replace (a + n - a) with n in Hnext by lia.
  assert (0 <= a - page_floor a < GM_PAGE_SIZE) as Hoff.
  { rewrite page_floor_eq. pose proof (page_mod_bound a). lia. }
  rewrite Hi. pose proof (enough_turns_step a n fuel ltac:(lia) Hf) as Hf'. cbn zeta in Hf'.
  set (chunk := Z.min (GM_PAGE_SIZE - (a - page_floor a)) n) in *.
  set (bs := slice k (Z.to_nat chunk) buffer).
  assert (length bs = Z.to_nat chunk) as Hbs by (apply length_slice; lia).
  assert (Forall byte_ok bs) as Hbok by (by apply Forall_slice).
  pose proof (write_page_wf m _ p (Z.to_nat (a - page_floor a)) bs Hm Hi Hbok ltac:(lia)) as Hwf1.
  pose proof (cell_write_page m _ p (Z.to_nat (a - page_floor a)) bs Hm Hi ltac:(lia)) as Hc1.
  cbn zeta in Hc1. rewrite Hbs in Hc1.
  replace (gp_address p + Z.of_nat (Z.to_nat (a - page_floor a))) with a in Hc1 by lia.
  rewrite Z2Nat.id in Hc1 by lia.
  set (m1 := set_pages m _) in *.
  specialize (IH m1 (a + chunk) (k + Z.to_nat chunk)%nat (n - chunk)
    (e || true && negb (Z.land (gp_prot p) GM_EXEC =? 0)) Hwf1 ltac:(lia) ltac:(lia) Hf').
  destruct (copy_loop fuel m1 _ buffer _ _ true _) as [[m' buffer'] e'].
  destruct IH as (-> & Hwf' & Hgen & Hfault & Hc' & He'); [|done|lia|].
  { intros x Hx. rewrite Hc1. case_decide; [lia|]. apply Hmap. lia. }
  split_and!; [done|done|done|done| |].
  - intros x. rewrite Hc', Hc1. repeat case_decide; try lia; [..|done].
    + do 3 f_equal. f_equal. lia.
    + unfold bs. rewrite lookup_slice by lia. done.
  - rewrite He', andb_true_l, orb_true_iff. split.
    + intros [[?|Hx]|(x & Hx & Hex)]; [by left|right|right].
      * exists a. split; [lia|]. rewrite Hcells by lia. done.
      * exists x. split; [lia|]. rewrite Hc1 in Hex. by rewrite decide_False in Hex by lia.
    + intros [?|(x & Hx & Hex)]; [by left; left|].
      destruct (Z.lt_ge_cases x (a + chunk)) as [Hlt|Hge].
      * left; right. rewrite Hcells in Hex by lia. done.
      * right. exists x. split; [lia|]. rewrite Hc1. by rewrite decide_False by lia.
Qed.

Lemma copy_loop_read fuel m a buffer k n e :
  memory_wf m -> 0 <= a -> 0 <= n -> enough_turns a n fuel -> range_mapped m a n ->
  Z.of_nat k + n <= Z.of_nat (length buffer) ->
  let '(m', buffer', e') := copy_loop fuel m a buffer k n false e in
  m' = m /\ e' = e /\ length buffer' = length buffer /\
  forall j, buffer' !! j =
    if decide (k <= j < k + Z.to_nat n)%nat then c_byte <$> cell m (a + Z.of_nat (j - k))
    else buffer !! j.
Proof.
  revert a buffer k n. induction fuel as [|fuel IH]; intros a buffer k n Hm Ha Hn Hf Hmap Hlen.
  { destruct (Z.eq_dec n 0) as [->|]; [|exfalso; eapply enough_turns_S, Hf; lia]. cbn.
    split_and!; try done. intros j. case_decide; [lia|done]. }
  cbn [copy_loop]. destruct (Z.eqb_spec n 0) as [->|Hnz].
  { split_and!; try done. intros j. case_decide; [lia|done]. }
  destruct (copy_page_at m a n Hm ltac:(lia) Hmap) as (p & Hi & Haddr & Hcells).
  destruct (chunk_next a (a + n)) as (Hnext & _ & _); [lia|].
  replace (a + n - a) with n in Hnext by lia.
  assert (0 <= a - page_floor a < GM_PAGE_SIZE) as Hoff.
  { rewrite page_floor_eq. pose proof (page_mod_bound a). lia. }
  rewrite Hi. pose proof (enough_turns_step a n fuel ltac:(lia) Hf) as Hf'. cbn zeta in Hf'.
  set (chunk := Z.min (GM_PAGE_SIZE - (a - page_floor a)) n) in *.
  assert (page_wf p) as Hp by (eapply Forall_lookup_1; [apply Hm|done]).
  destruct (page_bytes_wf p Hp) as [Hplen _].
  set (bs := slice (Z.to_nat (a - page_floor a)) (Z.to_nat chunk) (page_bytes p)).
  assert (length bs = Z.to_nat chunk) as Hbs by (apply length_slice; lia).
  rewrite orb_false_r.
  specialize (IH (a + chunk) (splice k bs buffer) (k + Z.to_nat chunk)%nat (n - chunk) Hm
    ltac:(lia) ltac:(lia) Hf').
  destruct (copy_loop fuel m _ _ _ _ false e) as [[m' buffer'] e'].
  destruct IH as (-> & -> & Hl & Hb).
  { intros x Hx. apply Hmap. lia. }
  { rewrite length_splice by lia. lia. }
  split_and!; [done|done|by rewrite Hl, length_splice by lia|].
  intros j. rewrite Hb, lookup_splice, Hbs by lia.
  repeat case_decide; try lia; [| |done].
  - do 2 f_equal. lia.
  - unfold bs. rewrite lookup_slice by lia. rewrite Hcells by lia. cbn.
    assert ((a + Z.of_nat (j - k)) mod GM_PAGE_SIZE = a - page_floor a + Z.of_nat (j - k)) as ->.
    { rewrite (page_unique (page_floor a)); [lia| |lia].
      rewrite page_floor_eq. apply page_floor_aligned. }
    replace (Z.to_nat (a - page_floor a + Z.of_nat (j - k)))
      with (Z.to_nat (a - page_floor a) + (j - k))%nat by lia.
    destruct (page_bytes p !! _) eqn:El; [done|]. apply lookup_ge_None in El. lia.
Qed.

(** ** Backing *)

(** A page after [back_loop]: untouched, or backed with zeros. *)
Definition backed (p p' : GMPage) : Prop :=
  p' = p \/ (gp_bytes p = None /\ p' = set_bytes p zero_bytes).

#[export] Instance backed_refl : Reflexive backed.
Proof. intros p. by left. Qed.

Lemma backed_trans ps ps' ps'' :
  Forall2 backed ps ps' -> Forall2 backed ps' ps'' -> Forall2 backed ps ps''.
Proof.
  intros H. revert ps''. induction H as [|p p' ps ps' Hp _ IH]; intros ps'' H'.
  { by inversion H'. }
  inversion H' as [|? q ? ps3 Hq Hr]; subst. constructor; [|by apply IH].
  destruct Hp as [->|[Hn ->]]; [done|]. destruct Hq as [->|[Hn' _]]; [by right|done].
Qed.

Lemma backed_insert ps i p :
  ps !! i = Some p -> gp_bytes p = None ->
  Forall2 backed ps (<[i := set_bytes p zero_bytes]> ps).
Proof.
  intros Hi Hn. rewrite <- (list_insert_id ps i p Hi) at 1.
  apply Forall2_insert; [reflexivity|by right].
Qed.

Lemma back_loop_spec alloc fuel ps i stop :
  let '(ok, ps') := back_loop alloc fuel ps i stop in
  Forall2 backed ps ps' /\
  (ok = false -> exists p, p ∈ ps' /\ gp_address p < stop /\ alloc (gp_address p) = false).
Proof.
  revert ps i. induction fuel as [|fuel IH]; intros ps i; cbn [back_loop].
  { split; [reflexivity|done]. }
  destruct (ps !! i) as [p|] eqn:Hi; [|split; [reflexivity|done]].
  destruct (Z.ltb_spec (gp_address p) stop); [|split; [reflexivity|done]].
  destruct (gp_bytes p) as [bs|] eqn:Hb; [apply IH|].
  destruct (alloc (gp_address p)) eqn:Hal.
  2: { split; [reflexivity|]. intros _. exists p. split_and!; [|done..].
       by eapply list_elem_of_lookup_2. }
  specialize (IH (<[i := set_bytes p zero_bytes]> ps) (S i)).
  destruct (back_loop alloc fuel _ (S i) stop) as [ok ps'].
  destruct IH as [Hbk Hok]. split; [|done]. eapply backed_trans, Hbk. by apply backed_insert.
Qed.

Lemma backed_address p p' : backed p p' -> gp_address p' = gp_address p.
Proof. by intros [->|[_ ->]]. Qed.

Lemma backed_key_map ps ps' k :
  key_sorted gp_address ps -> Forall2 backed ps ps' ->
  key_sorted gp_address ps' /\
  option_Forall2 backed (key_map gp_address ps !! k) (key_map gp_address ps' !! k).
Proof.
  intros Hs Hb. assert (key_sorted gp_address ps') as Hs'.
  { clear k. induction Hb as [|p p' ps ps' Hp Hb IH]; [done|].
    apply StronglySorted_cons in Hs as [Hlt Hs]. constructor; [by apply IH|].
    rewrite (backed_address _ _ Hp). rewrite Forall_forall in Hlt |- *. intros q' Hq'.
    apply list_elem_of_lookup in Hq' as [j Hj].
    destruct (Forall2_lookup_r _ _ _ _ _ Hb Hj) as (q & Hq & Hqq).
    rewrite (backed_address _ _ Hqq). apply Hlt. by eapply list_elem_of_lookup_2. }
  split; [done|]. destruct (key_map gp_address ps !! k) as [p|] eqn:E.
  - apply key_map_Some in E as (i & Hi & Hk); [|done].
    destruct (Forall2_lookup_l _ _ _ _ _ Hb Hi) as (p' & Hi' & Hpp).
    assert (key_map gp_address ps' !! k = Some p') as ->; [|by constructor].
    apply key_map_Some; [done|]. exists i. by rewrite (backed_address _ _ Hpp).
  - assert (key_map gp_address ps' !! k = None) as ->; [|constructor].
    rewrite key_map_None in E |- * by done. intros i p' Hi' Hk.
    destruct (Forall2_lookup_r _ _ _ _ _ Hb Hi') as (p & Hi & Hpp).
    rewrite (backed_address _ _ Hpp) in Hk. by eapply E.
Qed.

Lemma back_pages_spec m ps' :
  memory_wf m -> Forall2 backed (gm_pages m) ps' ->
  memory_wf (set_pages m ps') /\ forall x, cell (set_pages m ps') x = cell m x.
Proof.
  intros [Hs Hw] Hb. split.
  - split; [by apply (backed_key_map _ _ 0 Hs Hb)|]. cbn. clear Hs.
    induction Hb as [|p p' ps ps'' Hp _ IH]; [done|]. apply Forall_cons in Hw as [Hpw Hw].
    constructor; [|by apply IH]. destruct Hp as [->|[_ ->]]; [done|].
    apply set_bytes_wf; [done|apply length_zero_bytes|apply zero_bytes_ok].
  - intros x. unfold cell, page_of. cbn.
    destruct (backed_key_map _ _ (x - x mod GM_PAGE_SIZE) Hs Hb) as [_ Hk].
    destruct Hk as [p p' [->|[Hn ->]]|]; [done| |done]. cbn. unfold page_cell, page_bytes.
    by rewrite Hn.
Qed.

(** ** The full path of [copy] *)

Definition buffer_ok (buffer : option (list Z)) (n : Z) : Prop :=
  forall b, buffer = Some b -> Z.of_nat (length b) = n /\ Forall byte_ok b.
Definition same_cells (m m' : GuestMemory) : Prop := forall x, cell m' x = cell m x.

(** The bytes of [a .. a+n) as the guest sees them. *)
Definition reads_as (m : GuestMemory) (a n : Z) (bs : list Z) : Prop :=
  Z.of_nat (length bs) = n /\
  forall i, (i < length bs)%nat -> bs !! i = c_byte <$> cell m (a + Z.of_nat i).

(** [m'] is [m] with [bs] stored at [a]. *)
Definition stored (m m' : GuestMemory) (a : Z) (bs : list Z) : Prop :=
  forall x, cell m' x =
    if decide (a <= x < a + Z.of_nat (length bs))
    then cell_with_byte (default 0 (bs !! Z.to_nat (x - a))) <$> cell m x
    else cell m x.
Definition range_exec (m : GuestMemory) (a n : Z) : Prop :=
  exists x, a <= x < a + n /\ cell_exec (cell m x) = true.

(** Why an access of [n] bytes fails, and with which [fault_address]. *)
Inductive access_error (m : GuestMemory) (t : option GMThread) (a n permission : Z)
    : GMResult -> Z -> Prop :=
| error_wraps : UINT64_MAX < a + n -> access_error m t a n permission GM_INVALID a
| error_denied r f :
    r <> GM_OK -> a <= f < a + n -> a + n <= UINT64_MAX ->
    cell_check (cell m f) t permission = r ->
    (forall x, a <= x < f -> cell_check (cell m x) t permission = GM_OK) ->
    access_error m t a n permission r f.
Definition access_ok (m : GuestMemory) (t : option GMThread) (a n permission : Z) : Prop :=
  a + n <= UINT64_MAX /\ forall x, a <= x < a + n -> cell_check (cell m x) t permission = GM_OK.

(** What [copy] promises of its result. *)
Definition copy_post (alloc : Z -> bool) (m : GuestMemory) (t : option GMThread) (a : Z)
    (buffer : option (list Z)) (n permission : Z) (write : bool)
    (out : GMResult * GuestMemory * option (list Z)) : Prop :=
  let '(r, m', buffer') := out in
  memory_wf m' /\
  match r with
  | GM_OK =>
      access_ok m t a n permission /\ gm_fault_address m' = 0 /\
      if decide (n = 0) then m' = set_fault m 0 /\ buffer' = buffer
      else exists b, buffer = Some b /\
        if write then
          buffer' = buffer /\ stored m m' a b /\
          gm_generation m' = w64 (gm_generation m + 1) /\
          (range_exec m a n /\ gm_code_generation m' = w64 (gm_code_generation m + 1) \/
           ~ range_exec m a n /\ gm_code_generation m' = gm_code_generation m)
        else
          m' = set_fault m 0 /\ exists b', buffer' = Some b' /\ reads_as m a n b'
  | _ =>
      buffer' = buffer /\ same_cells m m' /\ same_generations m m' /\
      (access_error m t a n permission r (gm_fault_address m') \/
       (access_ok m t a n permission /\ n <> 0 /\ gm_fault_address m' = 0 /\
        ((r = GM_INVALID /\ buffer = None) \/
         (r = GM_NOMEM /\ write = true /\ exists k, alloc k = false))))
  end.

Lemma cell_check_mapped m t a n permission :
  access_ok m t a n permission -> range_mapped m a n.
Proof. intros [_ H] x Hx Hc. specialize (H x Hx). by rewrite Hc in H. Qed.

Lemma access_range_cases m t a n permission :
  memory_wf m -> 0 <= a -> 0 <= n ->
  let '(r, m') := access_range m t a n permission in
  (r = GM_OK /\ m' = set_fault m 0 /\ access_ok m t a n permission) \/
  (exists f, r <> GM_OK /\ m' = set_fault m f /\ access_error m t a n permission r f).
Proof.
  intros Hm Ha Hn. pose proof (access_range_spec m t a n permission Hm Ha Hn) as Hs.
  destruct (access_range m t a n permission) as [r m'].
  destruct Hs as (f & -> & [(-> & -> & Hbig)|(Hfit & [(-> & -> & Hall)|(Hr & Hf & Hc & Hall)])]).
  - right. exists a. split_and!; [done..|]. by constructor.
  - left. done.
  - right. exists f. split_and!; [done..|]. by econstructor.
Qed.

Lemma memory_wf_fault m f : memory_wf m -> memory_wf (set_fault m f).
Proof. by apply memory_wf_pages_eq. Qed.
#[local] Hint Resolve memory_wf_fault : core.

(** The storing half of the full path, once the access is known to be allowed. *)
Lemma copy_pages_write alloc m t a b n permission :
  memory_wf m -> 0 <= a -> 0 < n -> Z.of_nat (length b) = n -> Forall byte_ok b ->
  access_ok m t a n permission ->
  let m0 := set_fault m 0 in
  copy_post alloc m t a (Some b) n permission true
    (let '(backed, ps) :=
       back_loop alloc (length (gm_pages m0)) (gm_pages m0) (lower m0 (page_floor a)) (a + n) in
     let m1 := set_pages m0 ps in
     if negb backed then (GM_NOMEM, m1, Some b) else
     let '(m2, b2, e) := copy_loop (access_fuel n) m1 a b 0 n true false in
     let m3 := bump_generation m2 in
     (GM_OK, if e then bump_code_generation m3 else m3, Some b2)).
Proof.
  intros Hm Ha Hn Hlen Hbytes Hok m0.
  pose proof (back_loop_spec alloc (length (gm_pages m0)) (gm_pages m0)
    (lower m0 (page_floor a)) (a + n)) as Hback.
  destruct (back_loop alloc _ _ _ _) as [ok ps]. destruct Hback as [Hb Hfail].
  destruct (back_pages_spec m0 ps ltac:(unfold m0; auto) Hb) as [Hwf Hcells].
  destruct ok; cbn [negb].
  2: { split; [done|]. split_and!; [done|done|done|]. right.
       split; [done|]. split; [lia|]. split; [done|].
       right. destruct (Hfail eq_refl) as (p & _ & _ & Hp). eauto. }
  pose proof (copy_loop_write (access_fuel n) (set_pages m0 ps) a b 0 n false Hwf Ha ltac:(lia)
    (access_fuel_enough a n ltac:(lia))) as Hw.
  destruct (copy_loop _ _ a b 0 n true false) as [[m2 b2] e].
  destruct Hw as (-> & Hwf2 & [Hg Hcg] & Hf2 & Hc2 & He); [|done|lia|].
  { intros x Hx. rewrite Hcells. by apply (cell_check_mapped m t a n permission). }
  assert (e = true <-> range_exec m a n) as He'.
  { rewrite He. split; [intros [?|(x & ? & Hx)]; [done|]|intros (x & ? & Hx); right];
      exists x; (split; [done|]); by rewrite ?Hcells in *. }
  cbn [copy_post]. split; [by destruct e; apply (memory_wf_pages_eq m2)|].
  split; [done|]. split; [by destruct e|]. rewrite decide_False by lia.
  exists b. split; [done|]. split_and!; [done| |by destruct e; cbn; rewrite Hg|].
  - intros x. etrans; [apply (cell_pages m2); by destruct e|]. rewrite Hc2, Hcells, Hlen. done.
  - destruct e; cbn.
    + left. split; [by apply He'|by rewrite Hcg].
    + right. split; [intros ?%He'; done|by rewrite Hcg].
Qed.

Lemma copy_pages_post alloc m t a buffer n permission write :
  memory_wf m -> 0 <= a -> 0 <= n -> buffer_ok buffer n ->
  copy_post alloc m t a buffer n permission write
    (copy_pages alloc m t a buffer n permission write).
Proof.
  intros Hm Ha Hn Hbuf. unfold copy_pages.
  pose proof (access_range_cases m t a n permission Hm Ha Hn) as Hacc.
  destruct (access_range m t a n permission) as [r m1].
  destruct Hacc as [(-> & -> & Hok)|(f & Hr & -> & Herr)].
  2: { rewrite bool_decide_false by done. cbn [negb orb copy_post].
       split; [auto|]. destruct r; [done|..]; (split_and!; [done..|]; by left). }
  rewrite bool_decide_true by done. cbn [negb orb].
  destruct (Z.eqb_spec n 0) as [Hz|Hnz]; cbn [copy_post].
  { split; [auto|]. by rewrite decide_True by done. }
  destruct buffer as [b|]; cbn [copy_post].
  2: { split; [auto|]. split_and!; [done..|]. right. split_and!; [done..|]. by left. }
  destruct (Hbuf b eq_refl) as [Hlen Hbytes].
  destruct write.
  { pose proof (copy_pages_write alloc m t a b n permission Hm Ha ltac:(lia) Hlen Hbytes Hok) as Hw.
    cbn zeta in Hw. destruct (back_loop _ _ _ _ _) as [[] ps]; cbn [negb] in *; [|done].
    by destruct (copy_loop _ _ _ _ _ _ _ _) as [[m2 b2] []]. }
  cbn [negb]. change (set_pages (set_fault m 0) (gm_pages (set_fault m 0))) with (set_fault m 0).
  pose proof (copy_loop_read (access_fuel n) (set_fault m 0)
    a b 0 n false ltac:(by apply memory_wf_fault) Ha Hn (access_fuel_enough a n Hn)) as Hrd.
  destruct (copy_loop _ _ a b 0 n false false) as [[m2 b2] e].
  destruct Hrd as (-> & -> & Hl2 & Hb2);
    [by apply (cell_check_mapped m t a n permission)|lia|]. cbn [copy_post].
  split; [by apply memory_wf_fault|]. split; [done|]. split; [done|]. rewrite decide_False by done.
  exists b. split; [done|]. split; [done|]. exists b2. split; [done|]. split; [lia|].
  intros i Hi. rewrite Hb2. rewrite decide_True by lia. by rewrite Nat.sub_0_r.
Qed.

(** ** The one-page path *)

Lemma one_page_bounds a n :
  0 < n -> n <= GM_PAGE_SIZE - Z.land a (GM_PAGE_SIZE - 1) ->
  page_floor a = a - Z.land a (GM_PAGE_SIZE - 1) /\
  page_floor a <= a /\ a + n <= page_floor a + GM_PAGE_SIZE /\
  Z.min (GM_PAGE_SIZE - (a - page_floor a)) (a + n - a) = n.
Proof.
  rewrite page_offset_eq, page_floor_eq. pose proof (page_mod_bound a). intros. lia.
Qed.

(** The check of the full path sees one page only. *)
Lemma access_one_page m t a n permission :
  0 < n -> n <= GM_PAGE_SIZE - Z.land a (GM_PAGE_SIZE - 1) -> a + n <= UINT64_MAX ->
  access_range m t a n permission =
    match gm_pages m !! lower m (page_floor a) with
    | None => (GM_UNMAPPED, set_fault m a)
    | Some p =>
      if negb (gp_address p =? page_floor a) then (GM_UNMAPPED, set_fault m a) else
      if page_denies p t permission then (GM_PROTECTION, set_fault m a) else
      (GM_OK, set_fault m 0)
    end.
Proof.
  intros Hn Hoff Hend. destruct (one_page_bounds a n Hn Hoff) as (_ & _ & _ & Hmin).
  unfold access_range. destruct (Z.ltb_spec (UINT64_MAX - a) n); [lia|].
  assert (0 <= n / GM_PAGE_SIZE) by (apply Z.div_pos; [lia|done]).
  destruct (access_fuel n) as [|[|fuel]] eqn:Hf; [unfold access_fuel in Hf; lia..|].
  cbn [access_loop]. destruct (Z.ltb_spec a (a + n)); [|lia]. cbn [gm_pages set_fault].
  change (lower (set_fault m a) (page_floor a)) with (lower m (page_floor a)).
  destruct (gm_pages m !! _) as [p|]; [|done].
  destruct (gp_address p =? _); [|done]. destruct (page_denies p t permission); [done|].
  cbn [negb]. rewrite Hmin. by rewrite Z.ltb_irrefl.
Qed.

(** Backing one page: the scan stops at the next page. *)
Lemma back_one_page alloc m p i stop :
  memory_wf m -> gm_pages m !! i = Some p ->
  gp_address p < stop <= gp_address p + GM_PAGE_SIZE ->
  back_loop alloc (length (gm_pages m)) (gm_pages m) i stop =
    if bool_decide (is_Some (gp_bytes p)) || alloc (gp_address p)
    then (true, <[i := set_bytes p (page_bytes p)]> (gm_pages m))
    else (false, gm_pages m).
Proof.
  intros [Hs Hw] Hi Hstop.
  assert (forall ps fuel, (forall q, ps !! S i = Some q -> stop <= gp_address q) ->
    back_loop alloc fuel ps (S i) stop = (true, ps)) as Hrest.
  { intros ps [|fuel] Hnext; cbn; [done|]. destruct (ps !! S i) as [q|]; [|done].
    specialize (Hnext q eq_refl). destruct (Z.ltb_spec (gp_address q) stop); [lia|done]. }
  assert (forall q, gm_pages m !! S i = Some q -> stop <= gp_address q) as Hnext.
  { intros q Hq. pose proof (key_sorted_lookup _ _ _ _ _ _ Hs Hi Hq ltac:(lia)) as Hlt.
    cbn in Hlt. pose proof (page_wf_aligned _ (Forall_lookup_1 _ _ _ _ Hw Hi)) as Hpa.
    pose proof (page_wf_aligned _ (Forall_lookup_1 _ _ _ _ Hw Hq)) as Hqa.
    destruct (Z.le_gt_cases stop (gp_address q)); [done|].
    pose proof (page_unique (gp_address p) (gp_address q) Hpa ltac:(lia)). lia. }
  destruct (length (gm_pages m)) as [|len] eqn:Hl; [apply lookup_lt_Some in Hi; lia|].
  cbn [back_loop]. rewrite Hi. destruct (Z.ltb_spec (gp_address p) stop); [|lia].
  unfold page_bytes. destruct (gp_bytes p) as [bs|] eqn:Hb; cbn.
  - rewrite list_insert_id; [by apply Hrest|]. rewrite Hi. destruct p; cbn in *. by rewrite Hb.
  - destruct (alloc (gp_address p)); [|done]. apply Hrest. intros q Hq. apply Hnext.
    by rewrite list_lookup_insert_ne in Hq by lia.
Qed.

Lemma splice_0_full {A} (bs l : list A) : length bs = length l -> splice 0 bs l = bs.
Proof.
  intros Hl. unfold splice. cbn. rewrite drop_ge by lia. by rewrite app_nil_r.
Qed.
Lemma slice_0_full {A} n (l : list A) : n = length l -> slice 0 n l = l.
Proof. intros ->. unfold slice. rewrite drop_0. by apply firstn_all. Qed.

(** On the accesses it is taken for, the one-page path gives the same answer,
    memory and buffer as the full path. *)
Lemma copy_one_page_eq alloc m t a buffer n permission write :
  memory_wf m -> 0 <= a -> 0 < n -> n <= GM_PAGE_SIZE - Z.land a (GM_PAGE_SIZE - 1) ->
  a + n <= UINT64_MAX -> buffer_ok buffer n ->
  copy_one_page alloc m t a buffer n permission write =
  copy_pages alloc m t a buffer n permission write.
Proof.
  intros Hm Ha Hn Hoff Hend Hbuf.
  destruct (one_page_bounds a n Hn Hoff) as (Hfloor & Hle & Htop & Hmin).
  unfold copy_one_page, copy_pages. rewrite <- Hfloor.
  rewrite (access_one_page m t a n permission Hn Hoff Hend). cbn [gm_pages set_fault].
  change (lower (set_fault m 0) (page_floor a)) with (lower m (page_floor a)).
  destruct (gm_pages m !! lower m (page_floor a)) as [p|] eqn:Hi; [|done].
  destruct (Z.eqb_spec (gp_address p) (page_floor a)) as [Haddr|]; cbn [negb]; [|done].
  destruct (page_denies p t permission); [done|].
  rewrite (bool_decide_true (GM_OK = GM_OK)) by done. cbn [negb orb].
  destruct (Z.eqb_spec n 0) as [|Hnz]; [lia|].
  destruct buffer as [b|]; [|done]. destruct (Hbuf b eq_refl) as [Hlen _].
  replace (a + n - a) with n in Hmin by lia.
  assert (0 <= n / GM_PAGE_SIZE) by (apply Z.div_pos; [lia|done]).
  destruct (access_fuel n) as [|[|fuel]] eqn:Hf; [unfold access_fuel in Hf; lia..|].
  replace (Z.land a (GM_PAGE_SIZE - 1)) with (a - page_floor a) by lia.
  destruct write; cbn [negb].
  - change (lower (set_fault m 0) (page_floor a)) with (lower m (page_floor a)).
    change (gm_pages (set_fault m 0)) with (gm_pages m).
    rewrite (back_one_page alloc m p) by (done || lia). cbn [gm_pages set_pages].
    assert (gp_address (set_bytes p (page_bytes p)) = gp_address p) as Ha' by done.
    rewrite <- negb_orb. destruct (_ || _); cbn [negb]. 2: { done. }
    set (m1 := set_pages _ (<[_ := set_bytes p (page_bytes p)]> _)).
    assert (lower m1 (page_floor a) = lower m (page_floor a)) as Hl1.
    { apply (lower_bound_eq gp_address _ _ _ (set_bytes p (page_bytes p))); [|by apply list_lookup_insert_eq; eapply lookup_lt_Some|done].
      by apply (insert_page_sorted _ _ p); [apply Hm| |]. }
    cbn [copy_loop]. destruct (Z.eqb_spec n 0); [lia|]. rewrite Hl1.
    assert (gm_pages m1 !! lower m (page_floor a) = Some (set_bytes p (page_bytes p))) as ->
      by (apply list_lookup_insert_eq; by eapply lookup_lt_Some).
    rewrite Hmin, Z.sub_diag. cbn [Z.eqb].
    rewrite slice_0_full by lia. unfold m1. cbn [gm_pages set_pages set_fault].
    rewrite list_insert_insert_eq. 
    by destruct (Z.land (gp_prot p) GM_EXEC =? 0) eqn:He; cbn; rewrite He.
  - change (set_pages (set_fault m 0) (gm_pages (set_fault m 0))) with (set_fault m 0).
    cbn [copy_loop]. destruct (Z.eqb_spec n 0); [lia|].
    change (lower (set_fault m 0) (page_floor a)) with (lower m (page_floor a)).
    change (gm_pages (set_fault m 0)) with (gm_pages m). rewrite Hi, Hmin, Z.sub_diag. cbn [Z.eqb].
    assert (page_wf p) as Hp by (eapply Forall_lookup_1; [apply Hm|done]).
    destruct (page_bytes_wf p Hp) as [Hpl _].
    rewrite splice_0_full by (rewrite length_slice; lia). done.
Qed.

(** C1: the one-page path of [copy] is an optimisation: every access has the
    answer, the memory and the buffer that the full preflight path gives. *)
Theorem copy_full_path alloc m t a buffer n permission write :
  memory_wf m -> 0 <= a -> 0 <= n -> buffer_ok buffer n ->
  copy alloc m t a buffer n permission write = copy_pages alloc m t a buffer n permission write.
Proof.
  intros Hm Ha Hn Hbuf. unfold copy. destruct (_ && _) eqn:E; [|done].
  bool_hyps. apply copy_one_page_eq; [done|done|lia|lia|lia|done].
Qed.

Lemma copy_spec alloc m t a buffer n permission write :
  memory_wf m -> 0 <= a -> 0 <= n -> buffer_ok buffer n ->
  copy_post alloc m t a buffer n permission write
    (copy alloc m t a buffer n permission write).
Proof.
  intros Hm Ha Hn Hbuf. unfold copy. destruct (_ && _) eqn:E; [|by apply copy_pages_post].
  bool_hyps. rewrite copy_one_page_eq by (done || lia). by apply copy_pages_post.
Qed.

Lemma buffer_ok_Some b : Forall byte_ok b -> buffer_ok (Some b) (Z.of_nat (length b)).
Proof. by intros Hb ? [= <-]. Qed.

(** a store is all or nothing. It succeeds only if every byte of the range
    may be written, and then the range holds the stored bytes and nothing else
    changed; on any failure, allocation failure included, the guest sees no
    change at all and no generation advances. *)
Theorem gm_write_spec alloc m t a b :
  memory_wf m -> 0 <= a -> Forall byte_ok b ->
  let n := Z.of_nat (length b) in
  let '(r, m') := gm_write alloc m t a (Some b) n in
  memory_wf m' /\
  if decide (r = GM_OK) then
    access_ok m t a n GM_WRITE /\ stored m m' a b /\
    (b <> [] -> gm_generation m' = w64 (gm_generation m + 1) /\
      (range_exec m a n -> gm_code_generation m' = w64 (gm_code_generation m + 1)) /\
      (~ range_exec m a n -> gm_code_generation m' = gm_code_generation m))
  else same_cells m m' /\ same_generations m m' /\
    (access_error m t a n GM_WRITE r (gm_fault_address m') \/
     r = GM_NOMEM /\ exists k, alloc k = false).
Proof.
  intros Hm Ha Hb n. unfold gm_write.
  pose proof (copy_spec alloc m t a (Some b) n GM_WRITE true Hm Ha ltac:(lia)
    (buffer_ok_Some b Hb)) as Hc.
  destruct (copy _ _ _ _ _ _ _ _) as [[r m'] b']. destruct Hc as [Hwf Hr]. cbn.
  split; [done|]. destruct (decide (r = GM_OK)) as [->|Hne].
  - destruct Hr as (Hok & Hf & Hr). split; [done|]. destruct (decide (n = 0)) as [Hz|Hnz].
    + destruct Hr as [-> _]. assert (b = []) as -> by (destruct b; [done|cbn in *; lia]).
      split; [|done]. intros x. case_decide; [cbn in *; lia|done].
    + destruct Hr as (b0 & [= <-] & _ & Hst & Hg & Hcg). split; [done|]. intros _.
      split; [done|]. destruct Hcg as [[? ?]|[? ?]]; split; by intros.
  - assert (same_cells m m' /\ same_generations m m' /\
      (access_error m t a n GM_WRITE r (gm_fault_address m') \/
       (access_ok m t a n GM_WRITE /\ n <> 0 /\ gm_fault_address m' = 0 /\
        ((r = GM_INVALID /\ Some b = None) \/
         (r = GM_NOMEM /\ true = true /\ exists k, alloc k = false))))) as (Hs & Hg & Hcase)
      by (destruct r; [done|..]; destruct Hr as (_ & ? & ? & ?); auto).
    split_and!; [done..|].
    destruct Hcase as [?|(_ & _ & _ & [[_ ?]|(? & _ & ?)])]; [by left|done|by right].
Qed.

(** a load changes nothing but [fault_address]; when it succeeds it may read
    the whole range and returns the range's bytes. *)
Theorem gm_read_spec alloc m a b :
  memory_wf m -> 0 <= a -> Forall byte_ok b ->
  let n := Z.of_nat (length b) in
  let '(r, m', b') := gm_read alloc m a (Some b) n in
  memory_wf m' /\ same_cells m m' /\ same_generations m m' /\
  if decide (r = GM_OK) then
    access_ok m None a n GM_READ /\ gm_fault_address m' = 0 /\
    exists bs, b' = Some bs /\ reads_as m a n bs
  else b' = Some b /\ access_error m None a n GM_READ r (gm_fault_address m').
Proof.
  intros Hm Ha Hb n. unfold gm_read.
  pose proof (copy_spec alloc m None a (Some b) n GM_READ false Hm Ha ltac:(lia)
    (buffer_ok_Some b Hb)) as Hc.
  destruct (copy _ _ _ _ _ _ _ _) as [[r m'] b']. destruct Hc as [Hwf Hr].
  split; [done|]. destruct (decide (r = GM_OK)) as [->|Hne].
  - destruct Hr as (Hok & Hf & Hr). destruct (decide (n = 0)) as [Hz|Hnz].
    + destruct Hr as [-> ->]. assert (b = []) as -> by (destruct b; [done|cbn in *; lia]).
      split; [done|]. split; [done|]. split; [done|]. split; [done|].
      exists []. split; [done|]. split; [done|]. intros i Hi. cbn in Hi. lia.
    + destruct Hr as (b0 & [= <-] & -> & b1 & -> & Hrd).
      do 4 (split; [done|]). by exists b1.
  - assert (b' = Some b /\ same_cells m m' /\ same_generations m m' /\
      (access_error m None a n GM_READ r (gm_fault_address m') \/
       (access_ok m None a n GM_READ /\ n <> 0 /\ gm_fault_address m' = 0 /\
        ((r = GM_INVALID /\ Some b = None) \/
         (r = GM_NOMEM /\ false = true /\ exists k, alloc k = false))))) as (Hb' & Hs & Hg & Hcase)
      by (destruct r; [done|..]; destruct Hr as (? & ? & ? & ?); auto).
    destruct Hcase as [?|(_ & _ & _ & [[_ ?]|(? & ? & ?)])]; [|done|done].
    done.
Qed.

Lemma access_error_not_ok m t a n permission r f :
  access_error m t a n permission r f -> ~ access_ok m t a n permission.
Proof.
  intros [Hw|r' f' Hr Hf _ Hc _] [Hend Hall]; [lia|]. rewrite Hall in Hc by done. by subst.
Qed.
Lemma reads_as_functional m a n bs bs' : reads_as m a n bs -> reads_as m a n bs' -> bs = bs'.
Proof.
  intros [Hl Hb] [Hl' Hb']. apply list_eq. intros i.
  destruct (decide (i < length bs)%nat); [rewrite Hb, Hb' by lia; done|].
  by rewrite !lookup_ge_None_2 by lia.
Qed.
Lemma stored_reads_as m m' a b :
  range_mapped m a (Z.of_nat (length b)) -> stored m m' a b ->
  reads_as m' a (Z.of_nat (length b)) b.
Proof.
  intros Hmap Hst. split; [done|]. intros i Hi. rewrite Hst, decide_True by lia.
  replace (Z.to_nat (a + Z.of_nat i - a)) with i by lia.
  destruct (cell m (a + Z.of_nat i)) eqn:Hc; [cbn|destruct (Hmap (a + Z.of_nat i) ltac:(lia) Hc)].
  destruct (lookup_lt_is_Some_2 b i Hi) as [v Hv]. by rewrite Hv.
Qed.

(** what a successful store wrote, a successful load of the same range
    returns, whatever pages the range crosses. *)
Theorem gm_write_read alloc m t a b junk m1 r2 m2 out :
  memory_wf m -> 0 <= a -> Forall byte_ok b -> Forall byte_ok junk -> length junk = length b ->
  gm_write alloc m t a (Some b) (Z.of_nat (length b)) = (GM_OK, m1) ->
  gm_read alloc m1 a (Some junk) (Z.of_nat (length b)) = (r2, m2, out) ->
  r2 = GM_OK -> out = Some b.
Proof.
  intros Hm Ha Hb Hj Hl Hw Hr ->. unfold gm_write, gm_read in *.
  pose proof (copy_spec alloc m t a (Some b) (Z.of_nat (length b)) GM_WRITE true Hm Ha ltac:(lia)
    (buffer_ok_Some b Hb)) as Hc.
  destruct (copy alloc m t _ _ _ _ _) as [[r m1'] b1]. cbn in Hw. simplify_eq.
  destruct Hc as (Hwf & Hok & _ & Hst).
  pose proof (copy_spec alloc m1 None a (Some junk) (Z.of_nat (length junk)) GM_READ false Hwf Ha ltac:(lia)
    (buffer_ok_Some junk Hj)) as Hc.
  rewrite Hl, Hr in Hc. destruct Hc as (_ & _ & _ & Hrd).
  destruct (decide (Z.of_nat (length b) = 0)) as [Hz|Hnz].
  - destruct Hrd as [_ ->]. destruct b; [by destruct junk|done].
  - destruct Hst as (b0 & [= <-] & _ & Hst & _). destruct Hrd as (b2 & _ & _ & bs & -> & Hrd).
    f_equal. eapply reads_as_functional; [done|]. apply (stored_reads_as m); [|done].
    by eapply cell_check_mapped.
Qed.

Lemma mapped_access_ok m a n : a + n <= UINT64_MAX -> range_mapped m a n -> access_ok m None a n 0.
Proof.
  intros Hend Hmap. split; [done|]. intros x Hx. destruct (cell m x) as [c|] eqn:Hc;
    [|by destruct (Hmap x Hx)]. unfold cell_check, page_denies. by rewrite has_all_0.
Qed.

(** [gm_populate], the loader's copy, ignores guest protection but never
    creates a mapping: with memory to back pages it succeeds exactly on mapped
    ranges, and then stores exactly the bytes. *)
Theorem gm_populate_spec alloc m a b :
  memory_wf m -> 0 <= a -> Forall byte_ok b -> (forall k, alloc k = true) ->
  let n := Z.of_nat (length b) in
  let '(r, m') := gm_populate alloc m a (Some b) n in
  (r = GM_OK <-> a + n <= UINT64_MAX /\ range_mapped m a n) /\
  (r = GM_OK -> stored m m' a b) /\ (r <> GM_OK -> same_cells m m').
Proof.
  intros Hm Ha Hb Halloc n. unfold gm_populate.
  pose proof (copy_spec alloc m None a (Some b) n 0 true Hm Ha ltac:(lia)
    (buffer_ok_Some b Hb)) as Hc.
  destruct (copy _ _ _ _ _ _ _ _) as [[r m'] b']. destruct Hc as [Hwf Hr]. cbn.
  destruct (decide (r = GM_OK)) as [->|Hne].
  - destruct Hr as (Hok & _ & Hr). split_and!; [|intros _|done].
    { split; [intros _|done]. split; [by apply Hok|by eapply cell_check_mapped]. }
    destruct (decide (n = 0)) as [Hz|Hnz]; [|by destruct Hr as (? & [= <-] & _ & ? & _)].
    destruct Hr as [-> _]. intros x. case_decide; [lia|done].
  - assert (same_cells m m' /\ (access_error m None a n 0 r (gm_fault_address m') \/
      (r = GM_INVALID /\ Some b = None) \/ exists k, alloc k = false)) as [Hs Hcase].
    { destruct r; [done|..]; destruct Hr as (_ & Hs & _ & Hcase); (split; [done|]);
        (destruct Hcase as [?|(_ & _ & _ & [?|(_ & _ & ?)])]; by auto). }
    split_and!; [|done|done]. split; [done|]. intros [Hend Hmap].
    destruct Hcase as [Herr|[[_ ?]|[k Hk]]]; [|done|by rewrite Halloc in Hk].
    by destruct (access_error_not_ok _ _ _ _ _ _ _ Herr (mapped_access_ok _ _ _ Hend Hmap)).
Qed.

Lemma copy_ok_access alloc m t a b n permission write r m' b' :
  memory_wf m -> 0 <= a -> 0 <= n -> buffer_ok (Some b) n ->
  copy alloc m t a (Some b) n permission write = (r, m', b') -> r = GM_OK ->
  access_ok m t a n permission.
Proof.
  intros Hm Ha Hn Hb E ->. pose proof (copy_spec alloc m t a (Some b) n permission write Hm Ha Hn Hb) as Hc.
  rewrite E in Hc. by destruct Hc as (_ & ? & _).
Qed.

(** C2: code in a JIT page is never writable and executable at once: while a
    thread may store to an address of such a page, it cannot fetch from it. *)
Theorem jit_write_xor_execute alloc m t a b w c :
  memory_wf m -> 0 <= a -> Forall byte_ok b -> b <> [] ->
  cell m a = Some c -> c_jit c = true ->
  (gm_write alloc m (Some t) a (Some b) (Z.of_nat (length b))).1 = GM_OK ->
  (gm_fetch alloc m (Some t) a w).1.1 <> GM_OK.
Proof.
  intros Hm Ha Hb Hne Hc Hjit Hw Hf. unfold gm_write, gm_fetch in *.
  destruct (copy alloc m (Some t) a (Some b) _ _ _) as [[r1 m1] b1] eqn:E1. cbn in Hw.
  destruct w as [w|]; [|done]. destruct (negb _); [done|].
  destruct (copy alloc m (Some t) a _ 4 _ _) as [[r2 m2] b2] eqn:E2.
  assert (r2 = GM_OK) as Hr2 by (revert Hf; case_bool_decide; [done|by intros]).
  apply copy_ok_access in E1; [|done|done|lia|by apply buffer_ok_Some|done].
  apply copy_ok_access in E2; [|done|done|lia| |done].
  2: { apply (buffer_ok_Some (replicate 4 0)). by repeat constructor. }
  assert (0 < Z.of_nat (length b)) by (destruct b; [done|cbn; lia]).
  pose proof (proj2 E1 a ltac:(lia)) as H1. pose proof (proj2 E2 a ltac:(lia)) as H2.
  rewrite Hc in H1, H2. unfold cell_check, page_denies in H1, H2. cbn in H1, H2.
  rewrite Hjit in H1, H2. destruct (jit_write_protected t), (has_all _ _), (has_all _ _); done.
Qed.

(** ** Every reachable memory is well formed *)

Inductive gm_operation (m : GuestMemory) : GuestMemory -> Prop :=
| step_map pages_ok a n prot maxprot jit replace :
    0 <= a -> 0 <= n -> gm_operation m (gm_map pages_ok m a n prot maxprot jit replace).2
| step_unmap a n : 0 <= a -> 0 <= n -> gm_operation m (gm_unmap m a n).2
| step_protect a n prot : 0 <= a -> 0 <= n -> gm_operation m (gm_protect m a n prot).2
| step_read alloc a b n : 0 <= a -> 0 <= n -> buffer_ok b n -> gm_operation m (gm_read alloc m a b n).1.2
| step_write alloc t a b n :
    0 <= a -> 0 <= n -> buffer_ok b n -> gm_operation m (gm_write alloc m t a b n).2
| step_populate alloc a b n :
    0 <= a -> 0 <= n -> buffer_ok b n -> gm_operation m (gm_populate alloc m a b n).2
| step_fetch alloc t a w : 0 <= a -> gm_operation m (gm_fetch alloc m t a w).1.2.
(** The operations, and giving the whole memory back. *)
Inductive gm_step (m : GuestMemory) : GuestMemory -> Prop :=
| step_operation m' : gm_operation m m' -> gm_step m m'
| step_destroy : gm_step m (gm_destroy m).

Lemma memory_wf_empty : memory_wf gm_empty.
Proof. split; constructor. Qed.

Lemma copy_wf alloc m t a b n permission write :
  memory_wf m -> 0 <= a -> 0 <= n -> buffer_ok b n ->
  memory_wf (copy alloc m t a b n permission write).1.2.
Proof.
  intros Hm Ha Hn Hb. pose proof (copy_spec alloc m t a b n permission write Hm Ha Hn Hb) as Hc.
  by destruct (copy _ _ _ _ _ _ _ _) as [[r m'] b']; destruct Hc as [? _].
Qed.

Lemma map_wf pages_ok m a n prot maxprot jit replace :
  memory_wf m -> 0 <= a -> 0 <= n ->
  memory_wf (gm_map pages_ok m a n prot maxprot jit replace).2.
Proof.
  intros Hm Ha Hn. unfold gm_map. destruct (_ || _) eqn:E; [done|]. bool_hyps.
  destruct (negb replace && _); [done|]. destruct (_ <? _); [done|].
  destruct pages_ok; [|done]. apply memory_wf_bump.
  pose proof (proj1 (range_spec a n) ltac:(done)) as (_ & Hal & Hnal & _).
  refine (proj1 (replace_pages_spec m (fresh_pages a n prot maxprot jit) a n _ _ _ _ _ _));
    [done..|by apply fresh_pages_sorted|].
  intros p Hp. split; [by apply (fresh_page_wf a n prot maxprot jit)|].
  by apply elem_of_fresh_pages in Hp as (_ & _ & ?).
Qed.
Lemma unmap_wf m a n : memory_wf m -> 0 <= n -> memory_wf (gm_unmap m a n).2.
Proof.
  intros Hm Hn. unfold gm_unmap. destruct (range a n) eqn:Hr; [|done].
  pose proof (proj1 (range_spec a n) Hr) as (_ & Hal & Hnal & _). apply memory_wf_bump.
  refine (proj1 (replace_pages_spec m [] a n _ _ _ _ _ _)); [done..|constructor|].
  intros p Hp%elem_of_nil. done.
Qed.
Lemma protect_wf m a n prot : memory_wf m -> 0 <= n -> memory_wf (gm_protect m a n prot).2.
Proof.
  intros Hm Hn. unfold gm_protect. destruct (_ || _) eqn:E; [done|]. bool_hyps.
  destruct (negb _); [done|]. destruct (existsb _ _) eqn:Hex; [done|].
  pose proof (proj1 (range_spec a n) ltac:(done)) as (_ & Hal & Hnal & _).
  apply memory_wf_bump. rewrite slice_lower in * by done.
  refine (proj1 (replace_pages_spec m _ a n _ _ _ _ _ _)); [done..| |].
  { apply key_sorted_set_prot. rewrite <- slice_lower by done.
    apply key_sorted_take, key_sorted_drop, Hm. }
  intros p Hp. apply list_elem_of_fmap in Hp as (q & -> & Hq).
  pose proof (proj1 (list_elem_of_filter _ _ _) Hq) as [Hin Hel]. split; [|done].
  apply set_prot_wf; [destruct Hm as [_ Hw]; rewrite Forall_forall in Hw; by apply Hw|].
  destruct (none_outside prot (gp_maxprot q)) eqn:Hq'; [done|]. exfalso.
  assert (existsb (fun p => negb (none_outside prot (gp_maxprot p)))
    (filter (fun p => a <= gp_address p < a + n) (gm_pages m)) = true) as Ht; [|congruence].
  apply existsb_exists. exists q. rewrite <- list_elem_of_In. by rewrite Hq'.
Qed.

Lemma gm_operation_wf m m' : memory_wf m -> gm_operation m m' -> memory_wf m'.
Proof.
  intros Hm [].
  - by apply map_wf.
  - by apply unmap_wf.
  - by apply protect_wf.
  - by apply copy_wf.
  - apply copy_wf with (permission := GM_WRITE) (write := true) (t := t) (alloc := alloc) (m := m); done.
  - apply copy_wf with (permission := 0) (write := true) (t := None) (alloc := alloc) (m := m); done.
  - unfold gm_fetch. destruct w as [w|]; [|done].
    destruct (negb _); [by apply memory_wf_fault|].
    pose proof (copy_wf alloc m t a (Some (replicate 4 0)) 4 GM_EXEC false Hm ltac:(done) ltac:(lia)
      (buffer_ok_Some (replicate 4 0) ltac:(by repeat constructor))) as Hw.
    destruct (copy _ _ _ _ _ _ _ _) as [[r m1] b1]. by case_bool_decide.
Qed.
Lemma gm_step_wf m m' : memory_wf m -> gm_step m m' -> memory_wf m'.
Proof. intros Hm []; [by eapply gm_operation_wf|apply memory_wf_empty]. Qed.

(** C3: whatever sequence of operations the runtime performs on a fresh
    memory, the page table stays sorted and page aligned, every page's
    permissions stay within its maximum, and every backing is one whole page. *)
Theorem gm_reachable_wf m : rtc gm_step gm_empty m -> memory_wf m.
Proof.
  intros Hr. remember gm_empty as m0 eqn:E0.
  assert (memory_wf m0) as Hw by (subst; apply memory_wf_empty). clear E0.
  induction Hr as [|m1 m2 m3 Hs _ IH]; [done|]. apply IH. by eapply gm_step_wf.
Qed.

(** ** Witnesses *)

(** Two read/write pages at 0x4000 and an executable JIT page at 0xc000. *)
Definition example_memory : GuestMemory :=
  (gm_map true (gm_map true gm_empty 16384 32768 3 7 false false).2 49152 16384 7 7 true false).2.
Lemma example_memory_wf : memory_wf example_memory.
Proof. apply map_wf; [apply map_wf; [apply memory_wf_empty| |]| |]; lia. Qed.
Definition example_bytes : list Z := [1; 2; 3].
Lemma example_bytes_ok : Forall byte_ok example_bytes.
Proof. by repeat constructor. Qed.

Lemma gm_map_spec_witness :
  exists m', gm_map true gm_empty 16384 32768 3 7 false false = (GM_OK, m') /\
    cell m' 20000 = Some (mkCell 0 3 7 false) /\ cell m' 60000 = None.
Proof.
  pose proof (gm_map_spec true gm_empty 16384 32768 3 7 false false memory_wf_empty
    ltac:(lia) ltac:(lia)) as H.
  destruct (gm_map _ _ _ _ _ _ _ _) as [r m'] eqn:E. exists m'.
  assert (r = GM_OK) as -> by (injection E; by intros _ <-).
  destruct H as (_ & _ & _ & _ & Hc). rewrite !Hc. by split_and!.
Defined.

Lemma gm_unmap_spec_witness :
  (gm_unmap example_memory 16384 16384).1 = GM_OK /\
  cell (gm_unmap example_memory 16384 16384).2 20000 = None /\
  cell (gm_unmap example_memory 16384 16384).2 33000 = Some (mkCell 0 3 7 false).
Proof.
  pose proof (gm_unmap_spec example_memory 16384 16384 example_memory_wf ltac:(lia)) as H.
  assert ((gm_unmap example_memory 16384 16384).1 = GM_OK) as E by (vm_compute; reflexivity).
  destruct (gm_unmap _ _ _) as [r m']. cbn in E. subst r.
  destruct H as (_ & _ & _ & Hc). cbn [fst snd]. split; [done|]. rewrite !Hc.
  by split; vm_compute.
Defined.

Lemma gm_protect_spec_witness :
  (gm_protect example_memory 32768 16384 1).1 = GM_OK /\
  cell (gm_protect example_memory 32768 16384 1).2 33000 = Some (mkCell 0 1 7 false) /\
  cell (gm_protect example_memory 32768 16384 1).2 16384 = Some (mkCell 0 3 7 false).
Proof.
  pose proof (gm_protect_spec example_memory 32768 16384 1 example_memory_wf ltac:(lia)) as H.
  assert ((gm_protect example_memory 32768 16384 1).1 = GM_OK) as E by (vm_compute; reflexivity).
  cbn zeta in H. destruct (gm_protect _ _ _ _) as [r m']. cbn in E. subst r.
  destruct H as (_ & _ & _ & _ & _ & Hc). cbn [fst snd]. split; [done|]. rewrite !Hc.
  by split; vm_compute.
Defined.

Lemma gm_find_free_spec_witness :
  gm_find_free example_memory 16384 16384 = (GM_OK, Some 65536) /\
  range_free example_memory 65536 16384.
Proof.
  pose proof (gm_find_free_spec example_memory 16384 16384 example_memory_wf ltac:(lia)) as H.
  assert (gm_find_free example_memory 16384 16384 = (GM_OK, Some 65536)) as E by reflexivity.
  rewrite E in H. split; [done|]. by destruct H as (_ & _ & _ & ? & _).
Defined.

Lemma example_buffer_ok : buffer_ok (Some example_bytes) 3.
Proof. by apply (buffer_ok_Some example_bytes), example_bytes_ok. Qed.

Lemma copy_full_path_witness :
  copy (fun _ => true) example_memory None 32766 (Some example_bytes) 3 GM_WRITE true =
  copy_pages (fun _ => true) example_memory None 32766 (Some example_bytes) 3 GM_WRITE true.
Proof.
  apply (copy_full_path (fun _ => true) example_memory None 32766 (Some example_bytes) 3
    GM_WRITE true example_memory_wf); [lia|lia|apply example_buffer_ok].
Defined.

(** Three bytes stored across the boundary of the two pages. *)
Lemma gm_write_spec_witness :
  exists m', gm_write (fun _ => true) example_memory None 32766 (Some example_bytes) 3
    = (GM_OK, m') /\ stored example_memory m' 32766 example_bytes.
Proof.
  pose proof (gm_write_spec (fun _ => true) example_memory None 32766 example_bytes
    example_memory_wf ltac:(lia) example_bytes_ok) as H. cbn zeta in H.
  change (Z.of_nat (length example_bytes)) with 3 in H.
  destruct (gm_write _ _ _ _ _ _) as [r m'] eqn:E. exists m'.
  assert (r = GM_OK) as ->.
  { assert ((gm_write (fun _ => true) example_memory None 32766 (Some example_bytes) 3).1 = GM_OK)
      as E' by (vm_compute; reflexivity). by rewrite E in E'. }
  split; [done|]. by destruct H as (_ & _ & ? & _).
Defined.

Lemma gm_read_spec_witness :
  (gm_read (fun _ => true) example_memory 65535 (Some example_bytes) 3).1.1 = GM_UNMAPPED /\
  (gm_read (fun _ => true) example_memory 65535 (Some example_bytes) 3).2 = Some example_bytes.
Proof.
  pose proof (gm_read_spec (fun _ => true) example_memory 65535 example_bytes
    example_memory_wf ltac:(lia) example_bytes_ok) as H. cbn zeta in H.
  change (Z.of_nat (length example_bytes)) with 3 in H.
  assert ((gm_read (fun _ => true) example_memory 65535 (Some example_bytes) 3).1.1 = GM_UNMAPPED)
    as E by (vm_compute; reflexivity).
  destruct (gm_read _ _ _ _ _) as [[r m'] b'] eqn:Er. cbn in E. subst r.
  split; [done|]. by destruct H as (_ & _ & _ & ? & _).
Defined.

Lemma gm_write_read_witness :
  exists m1 m2,
    gm_write (fun _ => true) example_memory None 32766 (Some example_bytes) 3 = (GM_OK, m1) /\
    gm_read (fun _ => true) m1 32766 (Some [0; 0; 0]) 3 = (GM_OK, m2, Some example_bytes).
Proof.
  destruct (gm_write (fun _ => true) example_memory None 32766 (Some example_bytes) 3)
    as [r m1] eqn:E. exists m1.
  assert ((gm_write (fun _ => true) example_memory None 32766 (Some example_bytes) 3).1 = GM_OK)
    as E' by (vm_compute; reflexivity).
  assert ((gm_read (fun _ => true)
    (gm_write (fun _ => true) example_memory None 32766 (Some example_bytes) 3).2
    32766 (Some [0; 0; 0]) 3).1.1 = GM_OK) as F' by (vm_compute; reflexivity).
  rewrite E in E', F'. cbn in E', F'. subst r.
  destruct (gm_read (fun _ => true) m1 32766 (Some [0; 0; 0]) 3) as [[r m2] out] eqn:F.
  cbn in F'. subst r. exists m2. split; [done|].
  assert (Forall byte_ok [0; 0; 0]) as Hz by by repeat constructor.
  by rewrite (gm_write_read (fun _ => true) example_memory None 32766 example_bytes [0; 0; 0]
    m1 GM_OK m2 out example_memory_wf ltac:(lia) example_bytes_ok Hz eq_refl E F eq_refl).
Defined.

Lemma gm_populate_spec_witness :
  (gm_populate (fun _ => true) example_memory 65535 (Some example_bytes) 3).1 <> GM_OK /\
  same_cells example_memory
    (gm_populate (fun _ => true) example_memory 65535 (Some example_bytes) 3).2.
Proof.
  pose proof (gm_populate_spec (fun _ => true) example_memory 65535 example_bytes
    example_memory_wf ltac:(lia) example_bytes_ok (fun _ => eq_refl)) as H. cbn zeta in H.
  change (Z.of_nat (length example_bytes)) with 3 in H.
  assert ((gm_populate (fun _ => true) example_memory 65535 (Some example_bytes) 3).1 = GM_UNMAPPED)
    as E by (vm_compute; reflexivity).
  destruct (gm_populate _ _ _ _ _) as [r m']. cbn in E. subst r. cbn [fst snd].
  split; [done|]. by apply H.
Defined.

Lemma jit_write_xor_execute_witness :
  (gm_fetch (fun _ => true) example_memory (Some (mkGMThread false)) 49152 (Some 0)).1.1 <> GM_OK.
Proof.
  apply (jit_write_xor_execute (fun _ => true) example_memory (mkGMThread false) 49152
    example_bytes (Some 0) (mkCell 0 7 7 true) example_memory_wf ltac:(lia) example_bytes_ok);
    by vm_compute.
Defined.

Lemma gm_reachable_wf_witness : memory_wf example_memory.
Proof.
  apply gm_reachable_wf.
  eapply rtc_l; [apply step_operation, (step_map gm_empty true 16384 32768 3 7 false false); lia|].
  eapply rtc_l; [apply step_operation, (step_map _ true 49152 16384 7 7 true false); lia|]. apply rtc_refl.
Defined.
