(* ===== verification/GuestCPU.v ===== *)
(** * GuestCPU: the AArch64 interpreter (runtime/GuestCPU.c)

    The decoder, the register instructions and the run loop with its decode
    cache, over the paged memory of GuestMemory. The contract of the cache is
    the same loop without one. *)
From S2P Require Import Prelude GuestMemory.

(** ** Data (GuestCPU.h) *)

Inductive GCResult := GC_BUDGET | GC_RETURNED | GC_UNSUPPORTED | GC_MEMORY.
#[export] Instance GCResult_eq_dec : EqDecision GCResult.
Proof. solve_decision. Defined.

Inductive Op :=
  INVALID | NOP | WIDE | ADD_IMM | ADD_REG | LOGIC | MADD | BRANCH | BRANCH_REG
| COND | CBZ | ADDRESS | LOAD | STORE | LOGIC_IMM | TBZ | SELECT.
#[export] Instance Op_eq_dec : EqDecision Op.
Proof. solve_decision. Defined.

Record GCDecoded := mkDecoded {
  d_pc : Z; d_immediate : Z; d_instruction : Z;
  d_op : Op; d_rd : Z; d_rn : Z; d_rm : Z; d_ra : Z;
  d_width : Z; d_shift : Z; d_amount : Z; d_flags : Z;
  d_valid : bool
}.
Definition GC_CACHE_SIZE : Z := 4096.

(** [r_x] is the array of the 31 general registers. *)
Record GCRegisters := mkRegisters { r_x : list Z; r_sp : Z; r_pc : Z; r_nzcv : Z }.

(** The cache array as a map from slots; a slot that is not there is zeroed. *)
Record GuestCPU := mkCPU {
  c_registers : GCRegisters;
  c_retired : Z;
  c_thread : GMThread;
  c_memory_result : GMResult;
  c_fault_instruction : Z;
  c_cache_generation : Z;
  c_cache_write_protected : bool;
  c_cache : gmap Z GCDecoded
}.

Definition zeroed : GCDecoded := mkDecoded 0 0 0 INVALID 0 0 0 0 0 0 0 0 false.
Definition set_pc (r : GCRegisters) (pc : Z) : GCRegisters :=
  mkRegisters (r_x r) (r_sp r) pc (r_nzcv r).
Definition set_nzcv (r : GCRegisters) (nzcv : Z) : GCRegisters :=
  mkRegisters (r_x r) (r_sp r) (r_pc r) nzcv.
Definition set_x (r : GCRegisters) (n : Z) (v : Z) : GCRegisters :=
  mkRegisters (<[Z.to_nat n := v]> (r_x r)) (r_sp r) (r_pc r) (r_nzcv r).
Definition set_sp (r : GCRegisters) (v : Z) : GCRegisters :=
  mkRegisters (r_x r) v (r_pc r) (r_nzcv r).

(** ** Operations (GuestCPU.c) *)

Definition sign_extend (x bits : Z) : Z :=
  let sign := Z.shiftl 1 (bits - 1) in w64 (Z.lxor x sign - sign).
Definition mask (width : Z) : Z := if width =? 64 then UINT64_MAX else UINT32_MAX.
Definition xreg (r : GCRegisters) (n : Z) : Z := default 0 (r_x r !! Z.to_nat n).
Definition reg (c : GCRegisters) (r : Z) (sp : bool) : Z :=
  if r <? 31 then xreg c r else if sp then r_sp c else 0.
Definition put (c : GCRegisters) (r value width : Z) (sp : bool) : GCRegisters :=
  let value := Z.land value (mask width) in
  if r <? 31 then set_x c r value else if sp then set_sp c value else c.

Definition shifted (value type amount width : Z) : Z :=
  let value := Z.land value (mask width) in
  if amount =? 0 then value else
  if type =? 0 then Z.land (w64 (Z.shiftl value amount)) (mask width) else
  if type =? 1 then Z.shiftr value amount else
  if type =? 2 then
    Z.lor (Z.shiftr value amount)
      (if negb (Z.shiftr value (width - 1) =? 0)
       then Z.land (w64 (Z.shiftl (mask width) (width - amount))) (mask width) else 0)
  else Z.land (Z.lor (Z.shiftr value amount) (w64 (Z.shiftl value (width - amount)))) (mask width).

Definition condition (flags cond : Z) : bool :=
  let n := bit flags 3 in let z := bit flags 2 in let c := bit flags 1 in let v := bit flags 0 in
  let select (result : bool) := if bit cond 0 then negb result else result in
  match Z.shiftr cond 1 with
  | 0 => select z
  | 1 => select c
  | 2 => select n
  | 3 => select v
  | 4 => select (c && negb z)
  | 5 => select (eqb n v)
  | 6 => select (negb z && eqb n v)
  | _ => true
  end.

(** The result, and the flags it leaves in [nzcv]. *)
Definition arithmetic (nzcv a b : Z) (sub flags : bool) (width : Z) : Z * Z :=
  let m := mask width in
  let sign := Z.shiftl 1 (width - 1) in
  let a := Z.land a m in
  let b := Z.land b m in
  let result := Z.land (w64 (if sub then a - b else a + b)) m in
  let nzcv :=
    if flags then
      let carry := if sub then b <=? a else result <? a in
      let overflow := negb (Z.land (Z.land
        (if sub then Z.lxor a b else w64 (Z.lnot (Z.lxor a b))) (Z.lxor a result)) sign =? 0) in
      Z.lor (Z.lor (Z.lor (if negb (Z.land result sign =? 0) then 8 else 0)
        (if result =? 0 then 4 else 0)) (if carry then 2 else 0)) (if overflow then 1 else 0)
    else nzcv in
  (result, nzcv).

(** The highest of the bits 1 to 6 that is set; 0 when there is none. *)
Definition element_length (encoded : Z) : Z :=
  fold_left (fun length i => if bit encoded i then i else length) [1; 2; 3; 4; 5; 6] 0.
(** The loop [at=0; at<width; at+=bits]. *)
Definition repeat_element (element bits width : Z) : Z :=
  fold_left (fun v k => Z.lor v (w64 (Z.shiftl element (Z.of_nat k * bits))))
    (seq 0 (Z.to_nat (width / bits))) 0.
Definition bitmask (n immr imms width : Z) : option Z :=
  let encoded := Z.lor (Z.shiftl n 6) (Z.land (Z.lnot imms) 63) in
  let length := element_length encoded in
  if (length =? 0) || ((width =? 32) && negb (n =? 0)) then None else
  let bits := Z.shiftl 1 length in
  let s := Z.land imms (bits - 1) in
  let r := Z.land immr (bits - 1) in
  if (width <? bits) || (s =? bits - 1) then None else
  let element := Z.shiftl 1 (s + 1) - 1 in
  let element := if negb (r =? 0)
    then Z.lor (Z.shiftr element r) (w64 (Z.shiftl element (bits - r))) else element in
  let element := if bits <? 64 then Z.land element (Z.shiftl 1 bits - 1) else element in
  Some (repeat_element element bits width).
Definition logical_immediate (i width : Z) : option Z :=
  bitmask (field i 22 1) (field i 16 6) (field i 10 6) width.

(** The fields every decoded instruction carries, with its operation's own. *)
Definition decoded (pc i : Z) (op : Op) (width shift amount flags immediate : Z) : GCDecoded :=
  mkDecoded pc immediate i op (field i 0 5) (field i 5 5) (field i 16 5) (field i 10 5)
    width shift amount flags true.

Definition decode (pc i : Z) : GCDecoded :=
  let width := if bit i 31 then 64 else 32 in
  if i =? 0xd503201f then decoded pc i NOP width 0 0 0 0
  else if Z.land i 0x1f800000 =? 0x12800000 then
    let flags := field i 29 2 in
    let amount := field i 21 2 * 16 in
    if negb (flags =? 1) && (amount <? width)
    then decoded pc i WIDE width 0 amount flags (Z.shiftl (field i 5 16) amount)
    else decoded pc i INVALID width 0 amount flags 0
  else if Z.land i 0x1f800000 =? 0x11000000 then
    decoded pc i ADD_IMM width 0 0 (field i 29 2) (Z.shiftl (field i 10 12) (field i 22 1 * 12))
  else if Z.land i 0x1f200000 =? 0x0b000000 then
    let shift := field i 22 2 in
    let amount := field i 10 6 in
    decoded pc i (if negb (shift =? 3) && (amount <? width) then ADD_REG else INVALID)
      width shift amount (field i 29 2) 0
  else if Z.land i 0x1f000000 =? 0x0a000000 then
    let amount := field i 10 6 in
    decoded pc i (if amount <? width then LOGIC else INVALID)
      width (field i 22 2) amount (Z.lor (field i 29 2) (Z.shiftl (field i 21 1) 2)) 0
  else if Z.land i 0x1f800000 =? 0x12000000 then
    let flags := field i 29 2 in
    match logical_immediate i width with
    | Some immediate => decoded pc i LOGIC_IMM width 0 0 flags immediate
    | None => decoded pc i INVALID width 0 0 flags 0
    end
  else if Z.land i 0x3fe00800 =? 0x1a800000 then
    decoded pc i SELECT width (field i 12 4) 0 (Z.lor (Z.shiftl (field i 30 1) 1) (field i 10 1)) 0
  else if Z.land i 0x7fe00000 =? 0x1b000000 then decoded pc i MADD width 0 0 (field i 15 1) 0
  else if Z.land i 0x7c000000 =? 0x14000000 then
    decoded pc i BRANCH width 0 0 (Z.shiftr i 31)
      (w64 (pc + w64 (sign_extend (Z.land i 0x3ffffff) 26 * 4)))
  else if (Z.land i 0xfffffc1f =? 0xd61f0000) || (Z.land i 0xfffffc1f =? 0xd63f0000) ||
          (Z.land i 0xfffffc1f =? 0xd65f0000) then
    decoded pc i BRANCH_REG width 0 0 (if Z.land i 0xfffffc1f =? 0xd63f0000 then 1 else 0) 0
  else if Z.land i 0xff000010 =? 0x54000000 then
    decoded pc i COND width 0 0 (Z.land i 15) (w64 (pc + w64 (sign_extend (field i 5 19) 19 * 4)))
  else if Z.land i 0x7e000000 =? 0x34000000 then
    decoded pc i CBZ width 0 0 (field i 24 1) (w64 (pc + w64 (sign_extend (field i 5 19) 19 * 4)))
  else if Z.land i 0x7e000000 =? 0x36000000 then
    decoded pc i TBZ width 0 (Z.lor (Z.shiftl (Z.shiftr i 31) 5) (field i 19 5)) (field i 24 1)
      (w64 (pc + w64 (sign_extend (field i 5 14) 14 * 4)))
  else if Z.land i 0x1f000000 =? 0x10000000 then
    let offset := sign_extend (field i 5 19 * 4 + field i 29 2) 21 in
    decoded pc i ADDRESS 64 0 0 0
      (if bit i 31 then w64 (Z.ldiff pc 4095 + w64 (offset * 4096)) else w64 (pc + offset))
  else if (Z.land i 0x3b000000 =? 0x39000000) && negb (bit i 26) then
    let opc := field i 22 2 in
    if opc <=? 1 then
      let amount := Z.shiftl 1 (Z.shiftr i 30) in
      decoded pc i (if opc =? 0 then STORE else LOAD) (if amount =? 8 then 64 else 32) 0 amount 0
        (field i 10 12 * amount)
    else decoded pc i INVALID width 0 0 0 0
  else decoded pc i INVALID width 0 0 0 0.

(** The value an operation writes, whether to [sp] when its register is 31, and
    the flags; [None] for an operation that writes no register. *)
Definition operation_value (c : GCRegisters) (d : GCDecoded) : option (Z * bool * Z) :=
  let nzcv := r_nzcv c in
  let second (immediate : bool) :=
    if immediate then d_immediate d
    else shifted (reg c (d_rm d) false) (d_shift d) (d_amount d) (d_width d) in
  let add (immediate : bool) :=
    let a := reg c (d_rn d) immediate in
    let '(value, nzcv) :=
      arithmetic nzcv a (second immediate) (bit (d_flags d) 1) (bit (d_flags d) 0) (d_width d) in
    Some (value, immediate && negb (bit (d_flags d) 0), nzcv) in
  let logic (immediate : bool) :=
    let a := reg c (d_rn d) false in
    let b := second immediate in
    let b := if negb immediate && bit (d_flags d) 2 then w64 (Z.lnot b) else b in
    let kind := Z.land (d_flags d) 3 in
    let value := Z.land (if kind =? 1 then Z.lor a b else if kind =? 2 then Z.lxor a b
                         else Z.land a b) (mask (d_width d)) in
    let nzcv := if kind =? 3
      then Z.lor (if negb (Z.shiftr value (d_width d - 1) =? 0) then 8 else 0)
                 (if value =? 0 then 4 else 0) else nzcv in
    Some (value, immediate && negb (kind =? 3), nzcv) in
  match d_op d with
  | WIDE =>
      Some (if d_flags d =? 0 then w64 (Z.lnot (d_immediate d))
            else if d_flags d =? 2 then d_immediate d
            else Z.lor (Z.ldiff (reg c (d_rd d) false) (Z.shiftl 65535 (d_amount d))) (d_immediate d),
            false, nzcv)
  | ADD_IMM => add true
  | ADD_REG => add false
  | LOGIC => logic false
  | LOGIC_IMM => logic true
  | SELECT =>
      let b := reg c (d_rm d) false in
      Some (if condition nzcv (d_shift d) then reg c (d_rn d) false
            else if d_flags d =? 0 then b else if d_flags d =? 1 then w64 (b + 1)
            else if d_flags d =? 2 then w64 (Z.lnot b) else w64 (0 - b), false, nzcv)
  | MADD =>
      let value := w64 (reg c (d_rn d) false * reg c (d_rm d) false) in
      Some (if negb (d_flags d =? 0) then w64 (reg c (d_ra d) false - value)
            else w64 (reg c (d_ra d) false + value), false, nzcv)
  | ADDRESS => Some (d_immediate d, false, nzcv)
  | _ => None
  end.

(** The address execution goes on at; [None] for an operation this CPU does not
    execute on registers alone. *)
Definition next_pc (c : GCRegisters) (d : GCDecoded) : option Z :=
  let next := w64 (r_pc c + 4) in
  match d_op d with
  | INVALID | LOAD | STORE => None
  | BRANCH => Some (d_immediate d)
  | BRANCH_REG => Some (reg c (d_rn d) false)
  | COND => Some (if condition (r_nzcv c) (d_flags d) then d_immediate d else next)
  | CBZ => Some (if eqb (negb (Z.land (reg c (d_rd d) false) (mask (d_width d)) =? 0))
                        (negb (d_flags d =? 0)) then d_immediate d else next)
  | TBZ => Some (if Z.land (Z.shiftr (reg c (d_rd d) false) (d_amount d)) 1 =? d_flags d
                 then d_immediate d else next)
  | _ => Some next
  end.
Definition links (d : GCDecoded) : bool :=
  match d_op d with BRANCH | BRANCH_REG => negb (d_flags d =? 0) | _ => false end.

Definition register_decoded (c : GCRegisters) (d : GCDecoded) : bool * GCRegisters :=
  match next_pc c d with
  | None => (false, c)
  | Some next =>
    let c := if links d then set_x c 30 (w64 (r_pc c + 4)) else c in
    let c := match operation_value c d with
             | Some (value, sp, nzcv) => put (set_nzcv c nzcv) (d_rd d) value (d_width d) sp
             | None => c
             end in
    (true, set_pc c next)
  end.

(** The argument is [None] for a null pointer. *)
Definition gc_register_step (r : option GCRegisters) (instruction : Z) : bool * option GCRegisters :=
  match r with
  | None => (false, None)
  | Some r =>
    if negb (Z.land (r_pc r) 3 =? 0) || (UINT64_MAX - 4 <? r_pc r) then (false, Some r) else
    let '(done, r) := register_decoded r (decode (r_pc r) instruction) in (done, Some r)
  end.

Definition gc_reset (entry stack : Z) : GuestCPU :=
  mkCPU (mkRegisters (replicate 31 0) stack entry 0) 0 (mkGMThread true) GM_OK 0 0 false empty.

(** ** The run loop *)

Definition set_registers (c : GuestCPU) (r : GCRegisters) : GuestCPU :=
  mkCPU r (c_retired c) (c_thread c) (c_memory_result c) (c_fault_instruction c)
    (c_cache_generation c) (c_cache_write_protected c) (c_cache c).
Definition retire (c : GuestCPU) : GuestCPU :=
  mkCPU (c_registers c) (w64 (c_retired c + 1)) (c_thread c) (c_memory_result c)
    (c_fault_instruction c) (c_cache_generation c) (c_cache_write_protected c) (c_cache c).
Definition set_memory_result (c : GuestCPU) (r : GMResult) : GuestCPU :=
  mkCPU (c_registers c) (c_retired c) (c_thread c) r (c_fault_instruction c)
    (c_cache_generation c) (c_cache_write_protected c) (c_cache c).
Definition set_fault_instruction (c : GuestCPU) (i : Z) : GuestCPU :=
  mkCPU (c_registers c) (c_retired c) (c_thread c) (c_memory_result c) i
    (c_cache_generation c) (c_cache_write_protected c) (c_cache c).
Definition set_cache (c : GuestCPU) (generation : Z) (protected : bool) (cache : gmap Z GCDecoded)
    : GuestCPU :=
  mkCPU (c_registers c) (c_retired c) (c_thread c) (c_memory_result c) (c_fault_instruction c)
    generation protected cache.

Definition c_pc (c : GuestCPU) : Z := r_pc (c_registers c).
Definition cache_slot (pc : Z) : Z := Z.land (Z.shiftr pc 2) (GC_CACHE_SIZE - 1).
Definition cached (c : GuestCPU) (slot : Z) : GCDecoded := default zeroed (c_cache c !! slot).

(** The cache is emptied when the code or the thread's view of it changed. *)
Definition refresh (c : GuestCPU) (m : GuestMemory) : GuestCPU :=
  if negb (c_cache_generation c =? gm_code_generation m) ||
     negb (eqb (c_cache_write_protected c) (jit_write_protected (c_thread c)))
  then set_cache c (gm_code_generation m) (jit_write_protected (c_thread c)) empty
  else c.

Section run.
Variable alloc : Z -> bool.

(** The instruction at the program counter, fetched and decoded; [None] when the
    fetch failed. *)
Definition fetch_decode (c : GuestCPU) (m : GuestMemory)
    : option GCDecoded * GuestCPU * GuestMemory :=
  let '(r, m, i) := gm_fetch alloc m (Some (c_thread c)) (c_pc c) (Some 0) in
  let c := set_memory_result c r in
  if bool_decide (r = GM_OK) then (Some (decode (c_pc c) (default 0 i)), c, m) else (None, c, m).
(** The same through the decode cache. *)
Definition cache_decode (c : GuestCPU) (m : GuestMemory)
    : option GCDecoded * GuestCPU * GuestMemory :=
  let c := refresh c m in
  let slot := cache_slot (c_pc c) in
  let d := cached c slot in
  if negb (d_valid d) || negb (d_pc d =? c_pc c) then
    let '(d, c, m) := fetch_decode c m in
    match d with
    | Some d => (Some d, set_cache c (c_cache_generation c) (c_cache_write_protected c)
                           (<[slot := d]> (c_cache c)), m)
    | None => (None, c, m)
    end
  else (Some d, c, m).

(** [None] is an instruction that retires. *)
Definition execute (d : GCDecoded) (c : GuestCPU) (m : GuestMemory)
    : option GCResult * GuestCPU * GuestMemory :=
  let r := c_registers c in
  let n := Z.to_nat (d_amount d) in
  let a := w64 (reg r (d_rn d) true + d_immediate d) in
  match d_op d with
  | STORE =>
    let '(result, m) :=
      gm_write alloc m (Some (c_thread c)) a (Some (le_bytes n (reg r (d_rd d) false))) (d_amount d) in
    let c := set_memory_result c result in
    if bool_decide (result = GM_OK)
    then (None, retire (set_registers c (set_pc r (w64 (r_pc r + 4)))), m)
    else (Some GC_MEMORY, c, m)
  | LOAD =>
    let '(result, m, bytes) := gm_read alloc m a (Some (replicate n 0)) (d_amount d) in
    let c := set_memory_result c result in
    if bool_decide (result = GM_OK) then
      let r := put r (d_rd d) (le_value (default [] bytes)) (d_width d) false in
      (None, retire (set_registers c (set_pc r (w64 (r_pc r + 4)))), m)
    else (Some GC_MEMORY, c, m)
  | _ =>
    let '(done, r) := register_decoded r d in
    if done then (None, retire (set_registers c r), m)
    else (Some GC_UNSUPPORTED, set_fault_instruction c (d_instruction d), m)
  end.

Section loop.
Variable find : GuestCPU -> GuestMemory -> option GCDecoded * GuestCPU * GuestMemory.

Fixpoint run_loop (budget : nat) (c : GuestCPU) (m : GuestMemory) (return_pc : Z)
    : GCResult * GuestCPU * GuestMemory :=
  match budget with
  | O => (if c_pc c =? return_pc then GC_RETURNED else GC_BUDGET, c, m)
  | S budget =>
    if c_pc c =? return_pc then (GC_RETURNED, c, m) else
    let '(d, c, m) := find c m in
    match d with
    | None => (GC_MEMORY, c, m)
    | Some d =>
      let '(result, c, m) := execute d c m in
      match result with
      | Some result => (result, c, m)
      | None => run_loop budget c m return_pc
      end
    end
  end.
End loop.

Definition gc_run (c : GuestCPU) (m : GuestMemory) (budget return_pc : Z)
    : GCResult * GuestCPU * GuestMemory :=
  run_loop cache_decode (Z.to_nat budget) c m return_pc.
(** ** Specification: the same loop that fetches and decodes every instruction *)
Definition plain_run (c : GuestCPU) (m : GuestMemory) (budget return_pc : Z)
    : GCResult * GuestCPU * GuestMemory :=
  run_loop fetch_decode (Z.to_nat budget) c m return_pc.
End run.

(** Two CPUs that differ in their caches and their last memory result only, and
    two memories that differ in the fault address only. *)
Record same_machine (c c' : GuestCPU) (m m' : GuestMemory) : Prop := {
  sm_registers : c_registers c' = c_registers c;
  sm_retired : c_retired c' = c_retired c;
  sm_thread : c_thread c' = c_thread c;
  sm_fault_instruction : c_fault_instruction c' = c_fault_instruction c;
  sm_memory : set_fault m' 0 = set_fault m 0
}.

(** What a fetch finds, told by the guest's view of memory. *)
Definition fetches (m : GuestMemory) (t : GMThread) (pc i : Z) : Prop :=
  Z.land pc 3 = 0 /\ access_ok m (Some t) pc 4 GM_EXEC /\
  exists bs, reads_as m pc 4 bs /\ le_value bs = i.
Definition entry_ok (m : GuestMemory) (t : GMThread) (d : GCDecoded) : Prop :=
  d_valid d = true -> fetches m t (d_pc d) (d_instruction d) /\ d = decode (d_pc d) (d_instruction d).
(** The entries of the cache are of the view [c_cache_write_protected] records. *)
Definition cache_ok (c : GuestCPU) (m : GuestMemory) : Prop :=
  forall slot, entry_ok m (mkGMThread (c_cache_write_protected c)) (cached c slot).

(** ** Lemmas *)

Lemma copy_ignores_fault alloc m f t a buffer n permission write :
  0 <= n ->
  copy alloc (set_fault m f) t a buffer n permission write = copy alloc m t a buffer n permission write.
Proof.
  intros Hn. unfold copy. destruct (_ && _); [done|]. unfold copy_pages, access_range.
  destruct (UINT64_MAX - a <? n); [done|].
  assert (access_loop (access_fuel n) (set_fault m f) t a (a + n) permission =
    access_loop (access_fuel n) m t a (a + n) permission) as ->; [|done].
  assert (exists k, access_fuel n = S k) as [k ->]; [|done].
  assert (0 <= n / GM_PAGE_SIZE) by (by apply Z.div_pos).
  unfold access_fuel. exists (Z.to_nat (n / GM_PAGE_SIZE + 2)). lia.
Qed.
Lemma same_memory_fault m m' : set_fault m' 0 = set_fault m 0 -> m' = set_fault m (gm_fault_address m').
Proof. destruct m, m'. unfold set_fault. cbn. congruence. Qed.
Lemma fetch_ignores_fault alloc m f t a w :
  gm_fetch alloc (set_fault m f) t a (Some w) = gm_fetch alloc m t a (Some w).
Proof. unfold gm_fetch. destruct (negb _); [done|]. by rewrite copy_ignores_fault. Qed.

Lemma cell_fault m f x : cell (set_fault m f) x = cell m x.
Proof. by apply cell_pages. Qed.
Lemma fetches_same_cells m m' t pc i : same_cells m m' -> fetches m t pc i -> fetches m' t pc i.
Proof.
  intros Hc (Hal & [Hend Hok] & bs & [Hl Hb] & Hv). split; [done|].
  split; [split; [done|]; intros x Hx; rewrite Hc; by apply Hok|].
  exists bs. split; [|done]. split; [done|]. intros k Hk. rewrite Hb by done. by rewrite Hc.
Qed.
Lemma check_exec m t x : cell_check (cell m x) (Some t) GM_EXEC = GM_OK -> cell_exec (cell m x) = true.
Proof.
  destruct (cell m x) as [c|]; [|done]. unfold cell_check, cell_exec, page_denies, has_all. cbn [gp_prot].
  destruct (Z.land (c_prot c) GM_EXEC =? GM_EXEC) eqn:E; [|done]. apply Z.eqb_eq in E. by rewrite E.
Qed.
(** A store outside executable pages changes no fetch. *)
Lemma fetches_stored m m' t a b pc i :
  stored m m' a b -> ~ range_exec m a (Z.of_nat (length b)) -> fetches m t pc i -> fetches m' t pc i.
Proof.
  intros Hst Hne (Hal & [Hend Hok] & bs & [Hl Hb] & Hv).
  assert (forall x, pc <= x < pc + 4 -> cell m' x = cell m x) as Hsame.
  { intros x Hx. rewrite Hst. case_decide as Hd; [|done]. exfalso. apply Hne. exists x.
    split; [done|]. by apply (check_exec m t), Hok. }
  split; [done|]. split; [split; [done|]; intros x Hx; rewrite Hsame by done; by apply Hok|].
  exists bs. split; [|done]. split; [done|]. intros k Hk. rewrite Hb by done. by rewrite Hsame by lia.
Qed.

Lemma fetch_fetches alloc m t pc :
  memory_wf m -> 0 <= pc ->
  let '(r, m', i) := gm_fetch alloc m (Some t) pc (Some 0) in
  memory_wf m' /\ same_cells m m' /\ same_generations m m' /\
  (r = GM_OK -> m' = set_fault m 0 /\ exists w, i = Some w /\ fetches m t pc w) /\
  (forall w, fetches m t pc w -> r = GM_OK /\ i = Some w).
Proof.
  intros Hm Hpc. unfold gm_fetch. destruct (negb _) eqn:Eal.
  { split; [by apply memory_wf_fault|]. split; [by intros x; rewrite cell_fault|].
    split; [done|]. split; [done|]. intros w (Hal & _). by rewrite Hal in Eal. }
  apply negb_false_iff, Z.eqb_eq in Eal.
  pose proof (copy_spec alloc m (Some t) pc (Some (replicate 4 0)) 4 GM_EXEC false Hm Hpc ltac:(lia)
    (buffer_ok_Some (replicate 4 0) ltac:(by repeat constructor))) as Hc.
  destruct (copy _ _ _ _ _ _ _ _) as [[r m1] b1]. destruct Hc as [Hwf Hr].
  case_bool_decide as Er.
  - subst r. destruct Hr as (Hok & _ & b0 & [= <-] & -> & b' & -> & Hrd). cbn [default from_option id].
    split; [done|]. split; [by intros x; rewrite cell_fault|]. split; [done|].
    split; [intros _; split; [done|]; eexists; split; [done|]; split; [done|]; split; [done|by eauto]|].
    intros w (_ & _ & bs & Hbs & <-). by rewrite (reads_as_functional m pc 4 b' bs).
  - assert (same_cells m m1 /\ same_generations m m1 /\ ~ access_ok m (Some t) pc 4 GM_EXEC)
      as (? & ? & Hno).
    { assert (same_cells m m1 /\ same_generations m m1 /\
        (access_error m (Some t) pc 4 GM_EXEC r (gm_fault_address m1) \/
         (access_ok m (Some t) pc 4 GM_EXEC /\ 4 <> 0 /\ gm_fault_address m1 = 0 /\
          ((r = GM_INVALID /\ Some (replicate 4 0) = None) \/
           (r = GM_NOMEM /\ false = true /\ exists k, alloc k = false))))) as (? & ? & Hcase)
        by (destruct r; [done|..]; destruct Hr as (_ & ? & ? & ?); auto).
      split; [done|]. split; [done|].
      destruct Hcase as [He|(_ & _ & _ & [[_ ?]|(_ & ? & _)])]; [by eapply access_error_not_ok|done..]. }
    split; [done|]. split; [done|]. split; [done|]. split; [done|]. intros w (_ & ? & _). done.
Qed.

(** *** Registers stay in range *)

Record regs_ok (r : GCRegisters) : Prop := {
  ro_length : length (r_x r) = 31%nat;
  ro_x : Forall u64_ok (r_x r);
  ro_sp : u64_ok (r_sp r);
  ro_pc : u64_ok (r_pc r)
}.

Lemma mask_range v width : u64_ok (Z.land v (mask width)).
Proof.
  unfold mask, UINT64_MAX, UINT32_MAX. destruct (_ =? _); rewrite land_mask by lia.
  - apply Z.mod_pos_bound. lia.
  - pose proof (Z.mod_pos_bound v (2 ^ 32) ltac:(lia)). unfold u64_ok. lia.
Qed.
Lemma reg_range r n sp : regs_ok r -> u64_ok (reg r n sp).
Proof.
  intros [_ Hx Hsp _]. assert (u64_ok 0) by (unfold u64_ok; lia). unfold reg, xreg.
  destruct (n <? 31); [|by destruct sp]. destruct (r_x r !! _) eqn:E; [|done].
  rewrite Forall_lookup in Hx. by eapply Hx.
Qed.
Lemma set_x_ok r n v : regs_ok r -> u64_ok v -> regs_ok (set_x r n v).
Proof.
  intros [Hl Hx Hsp Hpc] Hv. split; cbn; [by rewrite length_insert| |done|done].
  by apply Forall_insert.
Qed.
Lemma put_ok r n v width sp : regs_ok r -> regs_ok (put r n v width sp).
Proof.
  intros Hr. unfold put. pose proof (mask_range v width).
  destruct (n <? 31); [by apply set_x_ok|]. destruct sp; [|done]. by destruct Hr; split.
Qed.
Lemma set_pc_ok r pc : regs_ok r -> u64_ok pc -> regs_ok (set_pc r pc).
Proof. intros []. by split. Qed.
Lemma set_nzcv_ok r nzcv : regs_ok r -> regs_ok (set_nzcv r nzcv).
Proof. intros []. by split. Qed.

(** The targets the decoder computes are 64-bit addresses, the accesses it
    decodes have a size. *)
Lemma decode_facts pc i :
  let d := decode pc i in
  (d_op d ∈ [BRANCH; COND; CBZ; TBZ] -> u64_ok (d_immediate d)) /\
  (d_op d ∈ [LOAD; STORE] -> 0 <= d_amount d) /\
  d_pc d = pc /\ d_instruction d = i /\ d_valid d = true.
Proof.
  cbv zeta. unfold decode. cbv zeta.
  repeat match goal with
  | |- context [if ?b then decoded _ _ _ _ _ _ _ _ else _] => destruct b
  | |- context [if ?b then (if _ then _ else _) else _] => destruct b
  | |- context [if ?b then match logical_immediate i ?w with _ => _ end else _] => destruct b
  | |- context [match logical_immediate i ?w with _ => _ end] => destruct (logical_immediate i w)
  end; cbn [decoded d_op d_immediate d_amount d_pc d_instruction d_valid];
  (split; [|split; [|done]]).
  all: try (intros _; apply w64_range).
  all: try (intros _; apply Z.shiftl_nonneg; lia).
  all: try (rewrite !elem_of_cons, elem_of_nil;
    repeat match goal with |- context [if ?b then _ else _] => destruct b end; intuition congruence).
Qed.

Lemma next_pc_range r pc i next :
  regs_ok r -> next_pc r (decode pc i) = Some next -> u64_ok next.
Proof.
  intros Hr. destruct (decode_facts pc i) as (Himm & _). unfold next_pc.
  pose proof (w64_range (r_pc r + 4)) as Hn.
  destruct (d_op _); intros [= <-]; try done; try (apply Himm; set_solver).
  - by apply reg_range.
  - destruct (condition _ _); [apply Himm; set_solver|done].
  - destruct (eqb _ _); [apply Himm; set_solver|done].
  - destruct (_ =? _); [apply Himm; set_solver|done].
Qed.
Lemma register_decoded_ok r pc i : regs_ok r -> regs_ok (register_decoded r (decode pc i)).2.
Proof.
  intros Hr. unfold register_decoded. destruct (next_pc r _) as [next|] eqn:En; [|done].
  apply set_pc_ok; [|by eapply next_pc_range].
  assert (regs_ok (if links (decode pc i) then set_x r 30 (w64 (r_pc r + 4)) else r)) as Hr1.
  { destruct (links _); [|done]. apply set_x_ok; [done|]. apply w64_range. }
  destruct (operation_value _ _) as [[[v sp] nzcv]|]; [|done].
  by apply put_ok, set_nzcv_ok.
Qed.

(** *** The cached loop simulates the plain one *)

(** The cache is current. *)
Record fresh (c : GuestCPU) (m : GuestMemory) : Prop := {
  fr_generation : c_cache_generation c = gm_code_generation m;
  fr_view : c_cache_write_protected c = jit_write_protected (c_thread c);
  fr_cache : cache_ok c m
}.
(** It was current at most [n] changes of code ago. *)
Inductive within (n : Z) (c : GuestCPU) (m : GuestMemory) : Prop :=
| within_empty : c_cache c = empty -> within n c m
| within_current : c_cache_generation c = gm_code_generation m -> cache_ok c m -> within n c m
| within_stale k : 0 < k <= n -> gm_code_generation m = w64 (c_cache_generation c + k) -> within n c m.
Definition machine_ok (c : GuestCPU) (m : GuestMemory) : Prop :=
  memory_wf m /\ regs_ok (c_registers c).

Lemma w64_later_neq g k : 0 < k < 2 ^ 64 -> w64 (g + k) <> g.
Proof.
  intros Hk H. pose proof (w64_range (g + k)) as Hr. rewrite H in Hr. unfold u64_ok in Hr.
  unfold w64 in H. destruct (Z.lt_ge_cases (g + k) (2 ^ 64)).
  - rewrite Z.mod_small in H by lia. lia.
  - replace (g + k) with (g + k - 2 ^ 64 + 1 * 2 ^ 64) in H by lia.
    rewrite Z.mod_add, Z.mod_small in H by lia. lia.
Qed.
Lemma w64_add_w64 g k : w64 (w64 g + k) = w64 (g + k).
Proof. unfold w64. apply Zplus_mod_idemp_l. Qed.

Lemma cache_ok_empty c m : c_cache c = empty -> cache_ok c m.
Proof. intros E slot. unfold cached, entry_ok. by rewrite E, lookup_empty. Qed.
Lemma refresh_fresh n c m : n < 2 ^ 64 -> within n c m -> fresh (refresh c m) m.
Proof.
  intros Hn Hw. unfold refresh. destruct (_ || _) eqn:E.
  - split; [done..|]. by apply cache_ok_empty.
  - bool_props. apply eqb_prop in H0. split; [done..|]. destruct Hw as [He|_ Hc|k Hk Hg]; [|done|].
    + by apply cache_ok_empty.
    + exfalso. by apply (w64_later_neq (c_cache_generation c) k); [lia|congruence].
Qed.
Lemma refresh_same c m :
  c_registers (refresh c m) = c_registers c /\ c_retired (refresh c m) = c_retired c /\
  c_thread (refresh c m) = c_thread c /\ c_fault_instruction (refresh c m) = c_fault_instruction c.
Proof. unfold refresh. by destruct (_ || _). Qed.

Lemma fresh_within n c m : fresh c m -> within n c m.
Proof. intros [Hg _ Hc]. by apply within_current. Qed.
Lemma cache_ok_cells c m m' : cache_ok c m -> same_cells m m' -> cache_ok c m'.
Proof.
  intros Hc Hcells slot Hv. destruct (Hc slot Hv) as [Hf Hd]. split; [|done].
  by eapply fetches_same_cells.
Qed.
Lemma fresh_cells c m m' :
  fresh c m -> same_cells m m' -> gm_code_generation m' = gm_code_generation m -> fresh c m'.
Proof. intros [Hg Hp Hc] Hcells Hgen. split; [congruence|done|by eapply cache_ok_cells]. Qed.
Lemma fresh_view c c' m :
  fresh c m -> c_cache c' = c_cache c -> c_cache_generation c' = c_cache_generation c ->
  c_cache_write_protected c' = c_cache_write_protected c -> c_thread c' = c_thread c -> fresh c' m.
Proof.
  intros [Hg Hp Hc] E1 E2 E3 E4. split; [congruence|congruence|].
  intros slot. unfold cached. rewrite E1, E3. apply Hc.
Qed.
Lemma fresh_insert c m slot d g p :
  fresh c m -> entry_ok m (c_thread c) d -> g = c_cache_generation c -> p = c_cache_write_protected c ->
  fresh (set_cache c g p (<[slot := d]> (c_cache c))) m.
Proof.
  intros [Hg Hp Hc] Hd -> ->. split; [done..|]. intros slot'. unfold cached.
  cbn [c_cache set_cache c_thread c_cache_write_protected].
  destruct (decide (slot' = slot)) as [->|].
  - rewrite lookup_insert_eq, Hp. by destruct (c_thread c).
  - rewrite lookup_insert_ne by done. apply Hc.
Qed.

(** The same instruction is found, with the same effect, cache or not. *)
Lemma cache_decode_sim alloc n c c' m m' :
  n < 2 ^ 64 -> machine_ok c m -> within n c m -> same_machine c c' m m' ->
  let '(d1, c1, m1) := cache_decode alloc c m in
  let '(d2, c2, m2) := fetch_decode alloc c' m' in
  d1 = d2 /\ machine_ok c1 m1 /\ same_machine c1 c2 m1 m2 /\ fresh c1 m1 /\
  (forall d, d1 = Some d -> exists pc i, d = decode pc i) /\
  (d1 = None -> m1 = m2 /\ c_memory_result c1 = c_memory_result c2).
Proof.
  intros Hn [Hwf Hregs] Hsync Hsame. unfold cache_decode.
  pose proof (refresh_fresh n c m Hn Hsync) as Hfresh. destruct (refresh_same c m) as (Er & Ere & Et & Ef).
  set (c0 := refresh c m) in *. clearbody c0.
  destruct Hsame as [Sr Sre St Sf Sm]. assert (c_pc c' = c_pc c0) as Epc by (unfold c_pc; congruence).
  assert (machine_ok c0 m) as Hok by (split; [done|by rewrite Er]).
  assert (0 <= c_pc c0) as Hpc by (unfold c_pc; rewrite Er; apply Hregs).
  pose proof (fetch_fetches alloc m (c_thread c0) (c_pc c0) Hwf Hpc) as Hfetch.
  unfold fetch_decode. rewrite Epc, St, <- Et, (same_memory_fault m m' Sm), fetch_ignores_fault.
  destruct (gm_fetch alloc m _ _ _) as [[r m1] i] eqn:Egm.
  destruct Hfetch as (Hwf1 & Hcells & [_ Hgen] & HOK & Hiff).
  change (c_pc (set_memory_result c' r)) with (c_pc c'). rewrite Epc.
  change (c_pc (set_memory_result c0 r)) with (c_pc c0).
  destruct (negb (d_valid _) || _) eqn:Ehit.
  - case_bool_decide as Hr.
    + destruct (HOK Hr) as (-> & w & -> & Hfw). cbn [default from_option id].
      assert (entry_ok m (c_thread c0) (decode (c_pc c0) w)) as Hentry.
      { intros _. destruct (decode_facts (c_pc c0) w) as (_ & _ & -> & -> & _). by split. }
      split; [done|]. split; [split; [exact Hwf1|apply Hok]|].
      split; [split; first [reflexivity | cbn; congruence]|]. split.
      { apply (fresh_cells _ m); [|by intros x; rewrite cell_fault|done].
        apply (fresh_insert (set_memory_result c0 r) m); [|done|done|done]. by split; apply Hfresh. }
      split; [|done]. intros d [= <-]. eauto.
    + split; [done|]. split; [split; [done|apply Hok]|]. split; [split; first [reflexivity | cbn; congruence]|].
      split; [|done]. apply (fresh_view c0); [by apply (fresh_cells c0 m)|done..].
  - apply orb_false_iff in Ehit as [Hv He]. apply negb_false_iff in Hv.
    apply negb_false_iff, Z.eqb_eq in He. destruct Hfresh as [Hg Hp Hc].
    destruct (Hc _ Hv) as [Hf Hd].
    assert (mkGMThread (c_cache_write_protected c0) = c_thread c0) as Eth
      by (rewrite Hp; by destruct (c_thread c0)).
    rewrite Eth in Hf. rewrite He in Hf, Hd. destruct (Hiff _ Hf) as [-> ->].
    rewrite bool_decide_eq_true_2 by done. cbn [default from_option id].
    destruct (HOK eq_refl) as (-> & _). split; [by rewrite <- Hd|]. split; [done|].
    split; [split; first [reflexivity | cbn; congruence]|]. split; [by split|]. split; [|done].
    intros d [= <-]. eauto.
Qed.

(** A store leaves the cache usable or visibly stale. *)
Lemma write_synced alloc c m a bs :
  memory_wf m -> 0 <= a -> Forall byte_ok bs -> fresh c m ->
  let '(r, m') := gm_write alloc m (Some (c_thread c)) a (Some bs) (Z.of_nat (length bs)) in
  memory_wf m' /\ within 1 c m'.
Proof.
  intros Hwf Ha Hbs Hfresh. unfold gm_write.
  pose proof (copy_spec alloc m (Some (c_thread c)) a (Some bs) (Z.of_nat (length bs)) GM_WRITE true
    Hwf Ha ltac:(lia) (buffer_ok_Some bs Hbs)) as Hc.
  destruct (copy _ _ _ _ _ _ _ _) as [[r m'] b']. destruct Hc as [Hwf' Hr]. cbn [fst].
  split; [done|]. destruct (decide (r = GM_OK)) as [->|Hne].
  - destruct Hr as (_ & _ & Hr). destruct (decide _).
    + destruct Hr as [-> _]. apply fresh_within, (fresh_cells c m); [done| |done].
      intros x. by rewrite cell_fault.
    + destruct Hr as (b0 & [= <-] & _ & Hst & _ & [[_ Hg]|[Hno Hg]]).
      * apply (within_stale _ _ _ 1); [done|]. destruct Hfresh as [-> _ _]. done.
      * destruct Hfresh as [Hf _ Hcache]. apply within_current; [congruence|]. intros slot Hv.
        destruct (Hcache slot Hv) as [Hfe Hd]. split; [|done]. by eapply fetches_stored.
  - assert (same_cells m m' /\ same_generations m m') as [Hs [_ Hg]] by (destruct r; [done|..]; tauto).
    by apply fresh_within, (fresh_cells c m).
Qed.
Lemma read_fresh alloc c m a bs :
  memory_wf m -> 0 <= a -> Forall byte_ok bs -> fresh c m ->
  let '(r, m', _) := gm_read alloc m a (Some bs) (Z.of_nat (length bs)) in
  memory_wf m' /\ fresh c m'.
Proof.
  intros Hwf Ha Hbs Hfresh. unfold gm_read.
  pose proof (copy_spec alloc m None a (Some bs) (Z.of_nat (length bs)) GM_READ false
    Hwf Ha ltac:(lia) (buffer_ok_Some bs Hbs)) as Hc.
  destruct (copy _ _ _ _ _ _ _ _) as [[r m'] b']. destruct Hc as [Hwf' Hr].
  split; [done|].
  assert (same_cells m m' /\ same_generations m m') as [Hs [_ Hg]]; [|by apply (fresh_cells c m)].
  destruct (decide (r = GM_OK)) as [->|Hne]; [|destruct r; [done|..]; tauto].
  destruct Hr as (_ & _ & Hr). assert (m' = set_fault m 0) as ->; [|split; [|done]; intros x; by rewrite cell_fault].
  destruct (decide _); [apply Hr|]. by destruct Hr as (? & _ & -> & _).
Qed.

Lemma write_ignores_fault alloc m f t a b n :
  0 <= n -> gm_write alloc (set_fault m f) t a b n = gm_write alloc m t a b n.
Proof. intros. unfold gm_write. by rewrite copy_ignores_fault. Qed.
Lemma read_ignores_fault alloc m f a b n :
  0 <= n -> gm_read alloc (set_fault m f) a b n = gm_read alloc m a b n.
Proof. intros. unfold gm_read. by rewrite copy_ignores_fault. Qed.

Lemma within_view n c c' m :
  within n c m -> c_cache c' = c_cache c -> c_cache_generation c' = c_cache_generation c ->
  c_cache_write_protected c' = c_cache_write_protected c -> within n c' m.
Proof.
  intros Hs E1 E2 E3. destruct Hs as [He|Hg Hc|k Hk Hg].
  - apply within_empty. congruence.
  - apply within_current; [congruence|]. intros slot. unfold cached. rewrite E1, E3. by apply Hc.
  - apply (within_stale _ _ _ k); [done|congruence].
Qed.
Lemma within_mono n n' c m : n <= n' -> within n c m -> within n' c m.
Proof. intros Hn [|?|k]; [by apply within_empty|by apply within_current|]. apply (within_stale _ _ _ k); [lia|done]. Qed.

(** What an instruction leads to. *)
Record executed (m1 m2 : GuestMemory) (c1 c2 : GuestCPU) (r1 r2 : option GCResult) : Prop := {
  ex_result : r1 = r2;
  ex_ok : machine_ok c1 m1;
  ex_same : same_machine c1 c2 m1 m2;
  ex_within : within 1 c1 m1;
  ex_fault : r1 = Some GC_MEMORY -> m1 = m2 /\ c_memory_result c1 = c_memory_result c2
}.

Lemma execute_register_sim alloc d pc i c c' m m' :
  d = decode pc i -> d_op d <> LOAD -> d_op d <> STORE ->
  machine_ok c m -> fresh c m -> same_machine c c' m m' ->
  let '(r1, c1, m1) := execute alloc d c m in
  let '(r2, c2, m2) := execute alloc d c' m' in executed m1 m2 c1 c2 r1 r2.
Proof.
  intros Hd Hl Hs [Hwf Hregs] Hfresh [Sr Sre St Sf Sm].
  assert (forall c m, execute alloc d c m =
    if (register_decoded (c_registers c) d).1
    then (None, retire (set_registers c (register_decoded (c_registers c) d).2), m)
    else (Some GC_UNSUPPORTED, set_fault_instruction c (d_instruction d), m)) as Hex.
  { intros c1 m1. unfold execute. destruct (register_decoded _ d). by destruct (d_op d). }
  rewrite !Hex, Sr. pose proof (register_decoded_ok (c_registers c) pc i Hregs) as Hok. rewrite <- Hd in Hok.
  destruct (register_decoded _ d) as [[|] r]; cbn [fst snd] in *.
  - split; [done|by split|split; try done; cbn; congruence| |done].
    apply (within_view 1 c); [by apply fresh_within|done..].
  - split; [done|by split|split; try done; cbn; congruence| |done].
    apply (within_view 1 c); [by apply fresh_within|done..].
Qed.

Lemma execute_sim alloc d pc i c c' m m' :
  d = decode pc i -> machine_ok c m -> fresh c m -> same_machine c c' m m' ->
  let '(r1, c1, m1) := execute alloc d c m in
  let '(r2, c2, m2) := execute alloc d c' m' in executed m1 m2 c1 c2 r1 r2.
Proof.
  intros Hd Hmach Hfresh Hsame.
  destruct (decide (d_op d = LOAD)) as [Hop|Hl]; [|destruct (decide (d_op d = STORE)) as [Hop|Hs]].
  3: by apply (execute_register_sim alloc d pc i).
  all: destruct (decode_facts pc i) as (_ & Hamount & _); rewrite <- Hd in Hamount;
    rewrite Hop in Hamount; specialize (Hamount ltac:(set_solver)).
  all: destruct Hmach as [Hwf Hregs]; destruct Hsame as [Sr Sre St Sf Sm].
  all: unfold execute; rewrite Hop, Sr, (same_memory_fault m m' Sm); cbv zeta.
  all: pose proof (w64_range (reg (c_registers c) (d_rn d) true + d_immediate d)) as [Ha _].
  - rewrite read_ignores_fault by done.
    pose proof (read_fresh alloc c m _ (replicate (Z.to_nat (d_amount d)) 0) Hwf Ha
      ltac:(by apply Forall_replicate) Hfresh) as Hrd.
    rewrite length_replicate, Z2Nat.id in Hrd by done.
    destruct (gm_read alloc m _ _ _) as [[r m1] b1]. destruct Hrd as [Hwf1 Hf1].
    case_bool_decide as Hr.
    + split; [done| |split; try done; cbn; congruence| |done].
      * split; [done|]. apply set_pc_ok; [by apply put_ok|apply w64_range].
      * apply (within_view 1 c); [by apply fresh_within|done..].
    + split; [done|by split|split; try done; cbn; congruence| |done].
      apply (within_view 1 c); [by apply fresh_within|done..].
  - rewrite write_ignores_fault, St by done.
    pose proof (write_synced alloc c m _ (le_bytes (Z.to_nat (d_amount d)) (reg (c_registers c) (d_rd d) false))
      Hwf Ha (le_bytes_ok _ _) Hfresh) as Hwr.
    rewrite length_le_bytes, Z2Nat.id in Hwr by done.
    destruct (gm_write alloc m _ _ _ _) as [r m1]. destruct Hwr as [Hwf1 Hf1].
    case_bool_decide as Hr.
    + split; [done| |split; try done; cbn; congruence| |done].
      * split; [done|]. apply set_pc_ok; [done|apply w64_range].
      * by apply (within_view 1 c).
    + split; [done|by split|split; try done; cbn; congruence| |done].
      by apply (within_view 1 c).
Qed.

(** The result of a run, without the cache. *)
Record same_run (n : Z) (out out' : GCResult * GuestCPU * GuestMemory) : Prop := {
  sr_result : out.1.1 = out'.1.1;
  sr_same : same_machine out.1.2 out'.1.2 out.2 out'.2;
  sr_fault : out.1.1 = GC_MEMORY ->
    out.2 = out'.2 /\ c_memory_result out.1.2 = c_memory_result out'.1.2;
  sr_ok : machine_ok out.1.2 out.2;
  sr_within : within n out.1.2 out.2
}.
Lemma run_loop_sim alloc n budget c c' m m' return_pc :
  1 <= n < 2 ^ 64 -> machine_ok c m -> within n c m -> same_machine c c' m m' ->
  same_run n (run_loop alloc (cache_decode alloc) budget c m return_pc)
    (run_loop alloc (fetch_decode alloc) budget c' m' return_pc).
Proof.
  intros Hn. revert c c' m m'. induction budget as [|budget IH]; intros c c' m m' Hmach Hsync Hsame.
  - cbn. assert (c_pc c' = c_pc c) as -> by (unfold c_pc; by rewrite (sm_registers _ _ _ _ Hsame)).
    split; [done|done| |done|done]. cbn. by destruct (_ =? _).
  - cbn [run_loop].
    assert (c_pc c' = c_pc c) as -> by (unfold c_pc; by rewrite (sm_registers _ _ _ _ Hsame)).
    destruct (_ =? _); [by split|].
    pose proof (cache_decode_sim alloc n c c' m m' ltac:(lia) Hmach Hsync Hsame) as Hfind.
    destruct (cache_decode alloc c m) as [[d1 c1] m1], (fetch_decode alloc c' m') as [[d2 c2] m2].
    destruct Hfind as (<- & Hmach1 & Hsame1 & Hfresh1 & Hdec & Hnone).
    destruct d1 as [d|]; [|split; auto using fresh_within].
    destruct (Hdec d eq_refl) as (pc & i & Hd).
    pose proof (execute_sim alloc d pc i c1 c2 m1 m2 Hd Hmach1 Hfresh1 Hsame1) as Hex.
    destruct (execute alloc d c1 m1) as [[r1 c3] m3], (execute alloc d c2 m2) as [[r2 c4] m4].
    destruct Hex as [<- Hok Hs Hsy%(within_mono 1 n) Hf]; [|lia]. destruct r1 as [r|]; [|by apply IH].
    split; [done|done| |done|done]. cbn. intros ->. by apply Hf.
Qed.

(** *** What happens between runs *)

(** An operation of the host either leaves what is fetched as it was or
    announces a change of code. *)
Lemma operation_code m m' :
  memory_wf m -> gm_operation m m' ->
  (gm_code_generation m' = gm_code_generation m /\
   forall t pc i, fetches m t pc i -> fetches m' t pc i) \/
  gm_code_generation m' = w64 (gm_code_generation m + 1).
Proof.
  intros Hm Hop.
  assert (forall m', same_cells m m' -> gm_code_generation m' = gm_code_generation m ->
    gm_code_generation m' = gm_code_generation m /\
    forall t pc i, fetches m t pc i -> fetches m' t pc i) as Hsame.
  { intros m1 Hc Hg. split; [done|]. intros t pc i. by apply fetches_same_cells. }
  assert (forall alloc t a b n permission write, 0 <= a -> 0 <= n -> buffer_ok b n ->
    let m' := (copy alloc m t a b n permission write).1.2 in
    (gm_code_generation m' = gm_code_generation m /\
     forall t pc i, fetches m t pc i -> fetches m' t pc i) \/
    gm_code_generation m' = w64 (gm_code_generation m + 1)) as Hcopy.
  { intros alloc t a b n permission write Ha Hn Hb.
    pose proof (copy_spec alloc m t a b n permission write Hm Ha Hn Hb) as Hc. cbv zeta.
    destruct (copy _ _ _ _ _ _ _ _) as [[r m1] b1]. destruct Hc as [_ Hr]. cbn [fst snd].
    destruct (decide (r = GM_OK)) as [->|Hne].
    - destruct Hr as (_ & _ & Hr). destruct (decide _) as [|Hnz].
      + destruct Hr as [-> _]. left. apply Hsame; [|done]. intros x. apply cell_fault.
      + destruct Hr as (b0 & -> & Hr). specialize (Hb _ eq_refl). destruct Hb as [<- _]. destruct write.
        * destruct Hr as (_ & Hst & _ & [[_ Hg]|[Hno Hg]]); [by right|left; split; [done|]].
          intros t' pc i. by apply fetches_stored with (1 := Hst).
        * destruct Hr as (-> & _). left. apply Hsame; [|done]. intros x. apply cell_fault.
    - left. apply Hsame; destruct r; try done; by destruct Hr as (_ & ? & [_ ?] & _). }
  destruct Hop as [pages_ok a n prot maxprot jit replace Ha Hn|a n Ha Hn|a n prot Ha Hn|
    alloc a b n Ha Hn Hb|alloc t a b n Ha Hn Hb|alloc a b n Ha Hn Hb|alloc t a w Ha].
  - pose proof (gm_map_correct pages_ok m a n prot maxprot jit replace Hm Ha Hn) as H.
    destruct (gm_map _ _ _ _ _ _ _ _) as [[] m1]; cbn [snd]; try (by right; apply H);
      try done; left; (assert (m1 = m) as -> by (by destruct H)); by apply Hsame.
  - pose proof (gm_unmap_correct m a n Hm Hn) as H.
    destruct (gm_unmap _ _ _) as [[] m1]; cbn [snd]; try (by right; apply H);
      try done; left; (assert (m1 = m) as -> by (by destruct H)); by apply Hsame.
  - pose proof (gm_protect_correct m a n prot Hm Hn) as H.
    destruct (gm_protect _ _ _ _) as [[] m1]; cbn [snd]; try (by right; apply H);
      try done; left; (assert (m1 = m) as -> by (by destruct H)); by apply Hsame.
  - by apply (Hcopy alloc None a b n GM_READ false).
  - by apply (Hcopy alloc t a b n GM_WRITE true).
  - by apply (Hcopy alloc None a b n 0 true).
  - unfold gm_fetch. destruct w as [w|]; [|by left; apply Hsame].
    destruct (negb _); [left; apply Hsame; [|done]; intros x; apply cell_fault|].
    pose proof (Hcopy alloc t a (Some (replicate 4 0)) 4 GM_EXEC false Ha ltac:(lia)
      (buffer_ok_Some (replicate 4 0) ltac:(by repeat constructor))) as H.
    destruct (copy _ _ _ _ _ _ _ _) as [[r m1] b1]. by case_bool_decide.
Qed.

Lemma operation_within n c m m' :
  memory_wf m -> 0 <= n -> gm_operation m m' -> within n c m -> within (n + 1) c m'.
Proof.
  intros Hm Hn Hop Hw. pose proof (operation_code m m' Hm Hop) as Hcode.
  destruct Hw as [He|Hg Hc|k Hk Hg]; [by apply within_empty|..].
  - destruct Hcode as [[Hg' Hf]|Hg'].
    + apply within_current; [congruence|]. intros slot Hv. destruct (Hc slot Hv) as [Hfe Hd].
      split; [by apply Hf|done].
    + apply (within_stale _ _ _ 1); [lia|congruence].
  - destruct Hcode as [[Hg' _]|Hg'].
    + apply (within_stale _ _ _ k); [lia|congruence].
    + apply (within_stale _ _ _ (k + 1)); [lia|]. rewrite Hg', Hg, w64_add_w64. f_equal. lia.
Qed.

(** The life of a CPU on one memory, with [n - 1] operations of the host: runs,
    host operations, and whatever the host sets in the registers or in the
    thread's view of JIT pages. *)
Inductive session : Z -> GuestCPU -> GuestMemory -> Prop :=
| session_reset entry stack m :
    u64_ok entry -> u64_ok stack -> memory_wf m -> session 1 (gc_reset entry stack) m
| session_run n c m alloc budget return_pc :
    session n c m ->
    session n (gc_run alloc c m budget return_pc).1.2 (gc_run alloc c m budget return_pc).2
| session_host n c m m' : session n c m -> gm_operation m m' -> session (n + 1) c m'
| session_registers n c m r : session n c m -> regs_ok r -> session n (set_registers c r) m
| session_view n c m view :
    session n c m ->
    session n (mkCPU (c_registers c) (c_retired c) (mkGMThread view) (c_memory_result c)
      (c_fault_instruction c) (c_cache_generation c) (c_cache_write_protected c) (c_cache c)) m.

Lemma session_positive n c m : session n c m -> 1 <= n.
Proof. induction 1; lia. Qed.
Lemma same_machine_refl c m : same_machine c c m m.
Proof. by split. Qed.
Lemma session_inv n c m : session n c m -> n < 2 ^ 64 -> machine_ok c m /\ within n c m.
Proof.
  induction 1 as [entry stack m He Hs Hm|n c m alloc budget return_pc Hses IH|n c m m' Hses IH Hop|
    n c m r Hses IH Hr|n c m view Hses IH]; intros Hn.
  - split; [|by apply within_empty]. split; [done|]. split; [done| |done|done].
    apply (Forall_replicate u64_ok 31). unfold u64_ok. lia.
  - destruct (IH Hn) as [Hok Hw]. pose proof (session_positive _ _ _ Hses).
    destruct (run_loop_sim alloc n (Z.to_nat budget) c c m m return_pc) as [_ _ _ ? ?];
      [lia|done|done|apply same_machine_refl|]. by split.
  - destruct IH as [[Hm Hr] Hw]; [lia|]. pose proof (session_positive _ _ _ Hses).
    split; [split; [by eapply gm_operation_wf|done]|]. by apply (operation_within n c m); [|lia|..].
  - destruct (IH Hn) as [[Hm _] Hw]. split; [by split|]. by apply (within_view n c).
  - destruct (IH Hn) as [[Hm Hr] Hw]. split; [by split|]. by apply (within_view n c).
Qed.

(** ** The arithmetic of the flags *)

Definition signed (w v : Z) : Z := if v <? 2 ^ (w - 1) then v else v - 2 ^ w.
Definition is_width (w : Z) : Prop := w = 32 \/ w = 64.

Lemma land_pow2 x k : 0 <= k -> (Z.land x (Z.shiftl 1 k) =? 0) = negb (Z.testbit x k).
Proof.
  intros Hk. rewrite Z.shiftl_1_l. destruct (Z.testbit x k) eqn:E; cbn [negb].
  - apply Z.eqb_neq. intros H. assert (Z.testbit (Z.land x (2 ^ k)) k = false) as H' by (rewrite H; apply Z.bits_0).
    rewrite Z.land_spec, E, Z.pow2_bits_true in H' by done. done.
  - apply Z.eqb_eq, Z.bits_inj'. intros i Hi. rewrite Z.land_spec, Z.bits_0.
    destruct (decide (i = k)) as [->|]; [by rewrite E|]. rewrite Z.pow2_bits_false by done. apply andb_false_r.
Qed.
Lemma top_bit w v : 0 < w -> 0 <= v < 2 ^ w -> Z.testbit v (w - 1) = (2 ^ (w - 1) <=? v).
Proof.
  intros Hw Hv.
  assert (2 ^ w = 2 * 2 ^ (w - 1)) as E by (rewrite <- Z.pow_succ_r by lia; f_equal; lia).
  apply eq_true_iff_eq. rewrite Z.leb_le. rewrite Z.testbit_true by lia.
  assert (0 < 2 ^ (w - 1)) by (apply Z.pow_pos_nonneg; lia). split.
  - intros Hd. destruct (Z.lt_ge_cases v (2 ^ (w - 1))) as [Hlt|]; [|done].
    rewrite Z.div_small in Hd by lia. done.
  - intros H1. assert (v / 2 ^ (w - 1) = 1) as ->; [|done].
    symmetry. apply Z.div_unique with (v - 2 ^ (w - 1)); lia.
Qed.
Lemma mask_mod w v : is_width w -> Z.land v (mask w) = v mod 2 ^ w.
Proof. intros [-> | ->]; unfold mask, UINT64_MAX, UINT32_MAX; cbn [Z.eqb Pos.eqb]; by rewrite land_mask by lia. Qed.
Lemma w64_mod w v : is_width w -> w64 v mod 2 ^ w = v mod 2 ^ w.
Proof.
  intros Hw. apply Z.mod_mod_divide.
  exists (2 ^ (64 - w)). by destruct Hw as [-> | ->].
Qed.
Lemma flag_bits (n z c v : bool) :
  let f := Z.lor (Z.lor (Z.lor (if n then 8 else 0) (if z then 4 else 0)) (if c then 2 else 0))
             (if v then 1 else 0) in
  bit f 3 = n /\ bit f 2 = z /\ bit f 1 = c /\ bit f 0 = v.
Proof. by destruct n, z, c, v. Qed.

(** The flags of an addition or a subtraction, told of the operands as numbers. *)
Record flags_of (w a b : Z) (sub : bool) (result f : Z) : Prop := {
  fo_result : result = (if sub then a - b else a + b) mod 2 ^ w;
  fo_negative : bit f 3 = (signed w result <? 0);
  fo_zero : bit f 2 = (result =? 0);
  fo_carry : bit f 1 = (if sub then b <=? a else 2 ^ w <=? a + b);
  fo_overflow : bit f 0 = negb ((- 2 ^ (w - 1) <=? (if sub then signed w a - signed w b else signed w a + signed w b)) &&
                                ((if sub then signed w a - signed w b else signed w a + signed w b) <? 2 ^ (w - 1)))
}.

Lemma arithmetic_flags nzcv a b sub w :
  is_width w ->
  flags_of w (a mod 2 ^ w) (b mod 2 ^ w) sub
    (arithmetic nzcv a b sub true w).1 (arithmetic nzcv a b sub true w).2.
Proof.
  intros Hw. unfold arithmetic. rewrite !mask_mod, w64_mod by done. cbv zeta. cbn [fst snd].
  assert (0 < w) as Hpos by (destruct Hw; lia).
  pose proof (Z.pow_pos_nonneg 2 (w - 1) ltac:(lia) ltac:(lia)) as Hp.
  assert (2 ^ w = 2 * 2 ^ (w - 1)) as E by (rewrite <- Z.pow_succ_r by lia; f_equal; lia).
  pose proof (Z.mod_pos_bound a (2 ^ w) ltac:(lia)) as Ha. pose proof (Z.mod_pos_bound b (2 ^ w) ltac:(lia)) as Hb.
  set (x := a mod 2 ^ w) in *. set (y := b mod 2 ^ w) in *. clearbody x y.
  set (s := (if sub then x - y else x + y)). set (r := s mod 2 ^ w).
  pose proof (Z.mod_pos_bound s (2 ^ w) ltac:(lia)) as Hr. fold r in Hr.
  rewrite !land_pow2 by lia.
  match goal with |- flags_of _ _ _ _ _ (Z.lor (Z.lor (Z.lor (if ?n then _ else _) (if ?z then _ else _)) (if ?c then _ else _)) (if ?v then _ else _)) =>
    destruct (flag_bits n z c v) as (Hn & Hz & Hc & Hv) end.
  split; [done|rewrite Hn|rewrite Hz; done|rewrite Hc|rewrite Hv].
  - rewrite negb_involutive, top_bit by lia. unfold signed. destruct (Z.ltb_spec r (2 ^ (w - 1))); lia.
  - unfold r, s. destruct sub; [done|]. destruct (Z.leb_spec (2 ^ w) (x + y)) as [H|H].
    + rewrite <- (Z.mod_add _ (-1)) by lia. rewrite Z.mod_small by lia. lia.
    + rewrite Z.mod_small by lia. lia.
  - rewrite negb_involutive, Z.land_spec.
    assert (Z.testbit (if sub then Z.lxor x y else w64 (Z.lnot (Z.lxor x y))) (w - 1) =
      xorb (negb sub) (xorb (2 ^ (w - 1) <=? x) (2 ^ (w - 1) <=? y))) as ->.
    { destruct sub; [by rewrite Z.lxor_spec, !top_bit, xorb_false_l by lia|].
      unfold w64. rewrite Z.mod_pow2_bits_low by (destruct Hw; lia).
      rewrite Z.lnot_spec, Z.lxor_spec, !top_bit by lia. by destruct (xorb _ _). }
    rewrite Z.lxor_spec, !top_bit by lia.
    assert (r = s \/ r = s - 2 ^ w \/ r = s + 2 ^ w) as Hcase.
    { unfold r, s. clear -Ha Hb E Hp. destruct sub.
      - destruct (Z.lt_ge_cases (x - y) 0); [right; right|left].
        + rewrite <- (Z.mod_add _ 1) by lia. rewrite Z.mod_small by lia. lia.
        + by rewrite Z.mod_small by lia.
      - destruct (Z.lt_ge_cases (x + y) (2 ^ w)); [left; by rewrite Z.mod_small by lia|right; left].
        rewrite <- (Z.mod_add _ (-1)) by lia. rewrite Z.mod_small by lia. lia. }
    clearbody r. subst s. unfold signed.
    destruct sub; destruct (Z.leb_spec (2 ^ (w - 1)) x), (Z.leb_spec (2 ^ (w - 1)) y),
      (Z.leb_spec (2 ^ (w - 1)) r), (Z.ltb_spec x (2 ^ (w - 1))), (Z.ltb_spec y (2 ^ (w - 1)));
      try lia; cbn [xorb andb negb]; symmetry;
      first [apply negb_true_iff, andb_false_iff | apply negb_false_iff, andb_true_iff];
      rewrite ?Z.leb_le, ?Z.ltb_lt, ?Z.leb_gt, ?Z.ltb_ge; lia.
Qed.

Lemma condition_bits f cond :
  0 <= cond < 16 ->
  condition f cond =
    let n := bit f 3 in let z := bit f 2 in let c := bit f 1 in let v := bit f 0 in
    nth (Z.to_nat cond) [z; negb z; c; negb c; n; negb n; v; negb v; c && negb z; negb (c && negb z);
      eqb n v; negb (eqb n v); negb z && eqb n v; negb (negb z && eqb n v); true; true] false.
Proof.
  intros Hc. assert (cond ∈ seqZ 0 16) as Hin by (apply elem_of_seqZ; lia).
  vm_compute in Hin. repeat (apply elem_of_cons in Hin as [->|Hin]; [done|]). by apply elem_of_nil in Hin.
Qed.

Lemma sub_zero w x y :
  0 < w -> 0 <= x < 2 ^ w -> 0 <= y < 2 ^ w -> ((x - y) mod 2 ^ w =? 0) = (x =? y).
Proof.
  intros Hw Hx Hy. apply eq_true_iff_eq. rewrite !Z.eqb_eq. split; [|intros ->; by rewrite Z.sub_diag].
  intros H. destruct (Z.lt_ge_cases x y).
  - rewrite <- (Z.mod_add _ 1), Z.mod_small in H by lia. lia.
  - rewrite Z.mod_small in H by lia. lia.
Qed.
Lemma sub_signed w x y n v :
  0 < w -> 0 <= x < 2 ^ w -> 0 <= y < 2 ^ w ->
  n = (signed w ((x - y) mod 2 ^ w) <? 0) ->
  v = negb ((- 2 ^ (w - 1) <=? signed w x - signed w y) && (signed w x - signed w y <? 2 ^ (w - 1))) ->
  eqb n v = (signed w y <=? signed w x).
Proof.
  intros Hw Hx Hy -> ->.
  pose proof (Z.pow_pos_nonneg 2 (w - 1) ltac:(lia) ltac:(lia)) as Hp.
  assert (2 ^ w = 2 * 2 ^ (w - 1)) as E by (rewrite <- Z.pow_succ_r by lia; f_equal; lia).
  pose proof (Z.mod_pos_bound (x - y) (2 ^ w) ltac:(lia)) as Hr.
  assert ((x - y) mod 2 ^ w = x - y \/ (x - y) mod 2 ^ w = x - y + 2 ^ w) as Hcase.
  { destruct (Z.lt_ge_cases x y); [right|left; by rewrite Z.mod_small by lia].
    rewrite <- (Z.mod_add _ 1), Z.mod_small by lia. lia. }
  set (r := (x - y) mod 2 ^ w) in *. clearbody r.
  apply eq_true_iff_eq. rewrite eqb_true_iff, Z.leb_le.
  assert (forall b c : bool, b = c <-> (b = true <-> c = true)) as Hb by (by intros [] []; intuition).
  rewrite Hb, negb_true_iff, andb_false_iff, Z.ltb_lt, Z.leb_gt, Z.ltb_ge. unfold signed.
  destruct (Z.ltb_spec x (2 ^ (w - 1))), (Z.ltb_spec y (2 ^ (w - 1))), (Z.ltb_spec r (2 ^ (w - 1))); lia.
Qed.

(** A comparison and the condition codes the compilers test it with: after
    [cmp a, b] each code holds exactly when the relation it names does, unsigned
    or signed, at 32 and 64 bits. *)
Theorem compare_condition nzcv a b w :
  is_width w ->
  let f := (arithmetic nzcv a b true true w).2 in
  let x := a mod 2 ^ w in let y := b mod 2 ^ w in
  condition f 0 = (x =? y) /\ condition f 1 = negb (x =? y) /\
  condition f 2 = (y <=? x) /\ condition f 3 = (x <? y) /\
  condition f 8 = (y <? x) /\ condition f 9 = (x <=? y) /\
  condition f 10 = (signed w y <=? signed w x) /\ condition f 11 = (signed w x <? signed w y) /\
  condition f 12 = (signed w y <? signed w x) /\ condition f 13 = (signed w x <=? signed w y) /\
  condition f 14 = true.
Proof.
  intros Hw. cbv zeta. pose proof (arithmetic_flags nzcv a b true w Hw) as [Hres Hn Hz Hc Hv].
  assert (0 < w) as Hpos by (destruct Hw; lia).
  pose proof (Z.mod_pos_bound a (2 ^ w) ltac:(by destruct Hw; subst)) as Ha.
  pose proof (Z.mod_pos_bound b (2 ^ w) ltac:(by destruct Hw; subst)) as Hb.
  set (x := a mod 2 ^ w) in *. set (y := b mod 2 ^ w) in *. rewrite Hres in Hz, Hn.
  pose proof (sub_signed w x y _ _ Hpos Ha Hb Hn Hv) as Hs. rewrite sub_zero in Hz by done.
  rewrite !condition_bits by lia. cbv zeta. rewrite Hs, Hz, Hc. cbn [nth Z.to_nat Pos.to_nat Pos.iter_op Nat.add].
  assert (x = y -> signed w x = signed w y) as Heq by (by intros ->).
  assert (signed w x = signed w y -> x = y) as Heq'.
  { unfold signed. destruct (Z.ltb_spec x (2 ^ (w - 1))), (Z.ltb_spec y (2 ^ (w - 1))); lia. }
  clear Hres Hn Hv Hs Hc Hz. repeat split; destruct (Z.eqb_spec x y);
    repeat match goal with
    | |- context [?p <=? ?q] => destruct (Z.leb_spec p q)
    | |- context [?p <? ?q] => destruct (Z.ltb_spec p q)
    end; first [reflexivity | exfalso; lia].
Qed.

(** *** Bitmask immediates *)

Definition element_sizes : list Z := [2; 4; 8; 16; 32; 64].
(** Bit [k] of the pattern of a run of [s + 1] ones rotated right by [r] in
    elements of [e] bits. *)
Definition run_bit (e s r k : Z) : bool := (k + r) mod e <=? s.
Definition is_run (width v e s r : Z) : bool :=
  (0 <=? v) && (v <? 2 ^ width) &&
  forallb (fun k => eqb (Z.testbit v k) (run_bit e s r k)) (seqZ 0 width).

(** Every encoding that is accepted is of a run; computed over the encodings. *)
Definition accepted_runs (width n : Z) : bool :=
  forallb (fun immr => forallb (fun imms =>
    match bitmask n immr imms width with
    | None => true
    | Some v =>
        let e := Z.shiftl 1 (element_length (Z.lor (Z.shiftl n 6) (Z.land (Z.lnot imms) 63))) in
        existsb (Z.eqb e) element_sizes && (e <=? width) &&
        (Z.land imms (e - 1) <? e - 1) &&
        is_run width v e (Z.land imms (e - 1)) (Z.land immr (e - 1))
    end) (seqZ 0 64)) (seqZ 0 64).
Lemma accepted_runs_true :
  (accepted_runs 32 0 = true /\ accepted_runs 32 1 = true) /\
  (accepted_runs 64 0 = true /\ accepted_runs 64 1 = true).
Proof. split; split; vm_compute; reflexivity. Qed.

(** Every run of ones has an encoding; computed over the runs. *)
Definition encode_run (e s r : Z) : Z :=
  Z.lor (Z.shiftl (if e =? 64 then 1 else 0) 22)
    (Z.lor (Z.shiftl r 16) (Z.shiftl (Z.lor (Z.land (Z.lnot (2 * e - 1)) 63) s) 10)).
Definition encoded_runs (width : Z) : bool :=
  forallb (fun e => (width <? e) || forallb (fun s => forallb (fun r =>
    match logical_immediate (encode_run e s r) width with
    | None => false
    | Some v => is_run width v e s r
    end) (seqZ 0 e)) (seqZ 0 (e - 1))) element_sizes.
Lemma encoded_runs_true : encoded_runs 32 = true /\ encoded_runs 64 = true.
Proof. split; vm_compute; reflexivity. Qed.

Lemma field_range i lo w : 0 <= w -> 0 <= field i lo w < 2 ^ w.
Proof. intros Hw. unfold field. rewrite Z.land_ones by done. apply Z.mod_pos_bound. lia. Qed.
Lemma forallb_seqZ P m n i : forallb P (seqZ m n) = true -> m <= i < m + n -> P i = true.
Proof. intros H Hi. rewrite forallb_forall in H. apply H, list_elem_of_In, elem_of_seqZ. lia. Qed.
Lemma accepted_runs_at width n immr imms v :
  accepted_runs width n = true -> 0 <= immr < 64 -> 0 <= imms < 64 -> bitmask n immr imms width = Some v ->
  exists e, existsb (Z.eqb e) element_sizes = true /\ e <= width /\ Z.land imms (e - 1) < e - 1 /\
    is_run width v e (Z.land imms (e - 1)) (Z.land immr (e - 1)) = true.
Proof.
  intros Hacc Hr Hs Hi. unfold accepted_runs in Hacc.
  apply (forallb_seqZ _ _ _ immr) in Hacc; [|lia]. cbv beta in Hacc.
  apply (forallb_seqZ _ _ _ imms) in Hacc; [|lia]. cbv beta in Hacc.
  rewrite Hi in Hacc. cbv zeta in Hacc. eexists.
  apply andb_true_iff in Hacc as [Hacc Hrun]. apply andb_true_iff in Hacc as [Hacc Hlt%Z.ltb_lt].
  apply andb_true_iff in Hacc as [He Hle%Z.leb_le]. by split_and!.
Qed.
Lemma encoded_runs_at width e s r :
  encoded_runs width = true -> e ∈ element_sizes -> e <= width -> 0 <= s < e - 1 -> 0 <= r < e ->
  exists v, logical_immediate (encode_run e s r) width = Some v /\ is_run width v e s r = true.
Proof.
  intros Hall He Hle Hs Hr. unfold encoded_runs in Hall. rewrite forallb_forall in Hall.
  specialize (Hall e (proj1 (list_elem_of_In _ _) He)).
  apply orb_true_iff in Hall as [Hlt|Hall]; [lia|].
  apply (forallb_seqZ _ _ _ s) in Hall; [|lia]. cbv beta in Hall.
  apply (forallb_seqZ _ _ _ r) in Hall; [|lia]. cbv beta in Hall.
  destruct (logical_immediate _ _) as [v|]; [|done]. eauto.
Qed.
#[local] Opaque accepted_runs encoded_runs.

Lemma is_run_spec width v e s r :
  is_run width v e s r = true <->
  0 <= v < 2 ^ width /\ forall k, 0 <= k < width -> Z.testbit v k = run_bit e s r k.
Proof.
  unfold is_run. rewrite !andb_true_iff, Z.leb_le, Z.ltb_lt, forallb_forall. split.
  - intros [Hv H]. split; [done|]. intros k Hk. apply eqb_prop, H, list_elem_of_In, elem_of_seqZ. lia.
  - intros [Hv H]. split; [done|]. intros k Hk%list_elem_of_In%elem_of_seqZ. rewrite H by lia. apply eqb_reflx.
Qed.
Lemma run_unique width v v' e s r :
  is_run width v e s r = true -> is_run width v' e s r = true -> 0 <= width -> v = v'.
Proof.
  intros [Hv Hb]%is_run_spec [Hv' Hb']%is_run_spec Hw. apply Z.bits_inj'. intros k Hk.
  destruct (Z.lt_ge_cases k width) as [Hlt|Hge]; [by rewrite Hb, Hb'|].
  rewrite <- (Z.mod_small v (2 ^ width)), <- (Z.mod_small v' (2 ^ width)) by lia.
  by rewrite !Z.mod_pow2_bits_high by lia.
Qed.

(** What a value of the logical instructions' immediates is: a run of ones, of
    less than a whole element, rotated in its element and repeated. *)
Definition bitmask_value (width v : Z) : Prop :=
  exists e s r, e ∈ element_sizes /\ e <= width /\ 0 <= s < e - 1 /\ 0 <= r < e /\
    0 <= v < 2 ^ width /\ forall k, 0 <= k < width -> Z.testbit v k = run_bit e s r k.

(** The decoder of bitmask immediates is exact: it accepts only rotated runs of
    ones, with the bits of its result in the places the architecture says, and
    it accepts every one of them. *)
Theorem logical_immediate_spec width v :
  is_width width ->
  (exists i, logical_immediate i width = Some v) <-> bitmask_value width v.
Proof.
  intros Hw. split.
  - intros [i Hi]. unfold logical_immediate in Hi.
    pose proof (field_range i 22 1 ltac:(lia)) as Hn. pose proof (field_range i 16 6 ltac:(lia)) as Hr.
    pose proof (field_range i 10 6 ltac:(lia)) as Hs. revert Hi Hn Hr Hs.
    generalize (field i 22 1) (field i 16 6) (field i 10 6). intros n immr imms Hi Hn Hr Hs.
    assert (accepted_runs width n = true) as Hacc.
    { destruct accepted_runs_true as [[H1 H2] [H3 H4]].
      assert (n = 0 \/ n = 1) as [-> | ->] by lia; destruct Hw as [-> | ->]; assumption. }
    destruct (accepted_runs_at width n immr imms v Hacc ltac:(lia) ltac:(lia) Hi) as (e & He & Hle & Hlt & Hrun).
    apply existsb_exists in He as (e' & He & <-%Z.eqb_eq). apply list_elem_of_In in He.
    assert (0 <= Z.land imms (e - 1)) by (apply Z.land_nonneg; lia).
    exists e, (Z.land imms (e - 1)), (Z.land immr (e - 1)).
    split; [done|]. split; [lia|]. split; [lia|]. split.
    + assert (exists k, 0 <= k /\ e = 2 ^ k) as (k & Hk & ->).
      { unfold element_sizes in He. rewrite !elem_of_cons, elem_of_nil in He.
        destruct He as [->|[->|[->|[->|[->|[->|[]]]]]]];
          [exists 1|exists 2|exists 3|exists 4|exists 5|exists 6]; lia. }
      rewrite land_mask by done. apply Z.mod_pos_bound. lia.
    + by apply is_run_spec.
  - intros (e & s & r & He & Hle & Hs & Hr & Hv). exists (encode_run e s r).
    assert (encoded_runs width = true) as Hall.
    { destruct encoded_runs_true as [H1 H2]. destruct Hw as [-> | ->]; assumption. }
    destruct (encoded_runs_at width e s r Hall He Hle Hs Hr) as (v' & -> & Hv'). f_equal.
    apply (run_unique width v' v e s r); [done|by apply is_run_spec|by destruct Hw; lia].
Qed.

(** ** The decode cache *)

(** C18: The decode cache is invisible: whatever a session did before, stores into
    code, remappings and JIT toggles included, a run through the cache ends with
    the result, the registers, the count, the faults and the memory of the run
    that fetches and decodes every instruction anew. The session may have
    changed the code fewer than 2^64 times. *)
Theorem gc_run_cache n c m alloc budget return_pc :
  session n c m -> n < 2 ^ 64 ->
  let '(r, c1, m1) := gc_run alloc c m budget return_pc in
  let '(r', c2, m2) := plain_run alloc c m budget return_pc in
  r = r' /\ c_registers c1 = c_registers c2 /\ c_retired c1 = c_retired c2 /\
  c_fault_instruction c1 = c_fault_instruction c2 /\
  gm_pages m1 = gm_pages m2 /\ gm_generation m1 = gm_generation m2 /\
  gm_code_generation m1 = gm_code_generation m2 /\
  (r = GC_MEMORY -> gm_fault_address m1 = gm_fault_address m2 /\
    c_memory_result c1 = c_memory_result c2).
Proof.
  intros Hses Hn. destruct (session_inv n c m Hses Hn) as [Hok Hw].
  pose proof (session_positive n c m Hses).
  destruct (run_loop_sim alloc n (Z.to_nat budget) c c m m return_pc) as [Hr Hs Hf _ _];
    [lia|done|done|apply same_machine_refl|].
  unfold gc_run, plain_run. destruct (run_loop _ _ _ _ _ _) as [[r c1] m1].
  destruct (run_loop _ _ _ _ _ _) as [[r' c2] m2]. cbn [fst snd] in *.
  destruct Hs as [S1 S2 _ S4 S5]. unfold set_fault in S5. injection S5 as E1 E2 E3.
  do 7 (split; [done|]). intros Hr'. destruct (Hf Hr') as [-> ?]. done.
Qed.

Lemma execute_retires alloc d c m :
  c_retired (execute alloc d c m).1.2 =
    match (execute alloc d c m).1.1 with None => w64 (c_retired c + 1) | Some _ => c_retired c end /\
  (execute alloc d c m).1.1 <> Some GC_BUDGET /\ (execute alloc d c m).1.1 <> Some GC_RETURNED.
Proof.
  unfold execute. destruct (d_op d); cbv zeta;
    try (destruct (register_decoded _ d) as [[|] r]; done).
  - destruct (gm_read _ _ _ _ _) as [[r m1] b]. by case_bool_decide.
  - destruct (gm_write _ _ _ _ _ _) as [r m1]. by case_bool_decide.
Qed.
Lemma cache_decode_retired alloc c m : c_retired (cache_decode alloc c m).1.2 = c_retired c.
Proof.
  unfold cache_decode, fetch_decode. cbv zeta. pose proof (refresh_same c m) as (_ & Hr & _).
  destruct (_ || _); [|done]. destruct (gm_fetch _ _ _ _ _) as [[r m1] i]. by case_bool_decide.
Qed.

Lemma run_loop_budget alloc budget c m return_pc :
  u64_ok (c_retired c) ->
  let '(r, c', _) := run_loop alloc (cache_decode alloc) budget c m return_pc in
  exists k, 0 <= k <= Z.of_nat budget /\ c_retired c' = w64 (c_retired c + k) /\
    (r = GC_BUDGET -> k = Z.of_nat budget /\ c_pc c' <> return_pc) /\
    (r = GC_RETURNED -> c_pc c' = return_pc).
Proof.
  revert c m. induction budget as [|budget IH]; intros c m Hc; cbn [run_loop].
  { exists 0. rewrite Z.add_0_r, w64_small by done. destruct (Z.eqb_spec (c_pc c) return_pc); by split_and!. }
  destruct (Z.eqb_spec (c_pc c) return_pc).
  { exists 0. rewrite Z.add_0_r, w64_small by done. split_and!; [lia|lia|done..]. }
  pose proof (cache_decode_retired alloc c m) as Hr1. destruct (cache_decode alloc c m) as [[d c1] m1].
  cbn [fst snd] in Hr1. destruct d as [d|].
  2: { exists 0. rewrite Z.add_0_r, w64_small by done. split_and!; [lia|lia|done..]. }
  destruct (execute_retires alloc d c1 m1) as (Hr2 & Hnb & Hnr).
  destruct (execute alloc d c1 m1) as [[result c2] m2]. cbn [fst snd] in *. destruct result as [result|].
  { exists 0. rewrite Z.add_0_r, w64_small by done. split_and!; [lia|lia|congruence|intros ->; done..]. }
  specialize (IH c2 m2). rewrite Hr2, Hr1 in IH. specialize (IH (w64_range _)).
  destruct (run_loop _ _ _ _ _ _) as [[r c'] m']. destruct IH as (k & Hk & Hret & Hb & Hre).
  exists (k + 1). rewrite Hret, w64_add_w64. split_and!; [lia|lia| |intros Hr; destruct (Hb Hr); split; [lia|done]|done].
  f_equal. lia.
Qed.

(** A run stops within its budget: it retires at most that many instructions,
    all of them when it reports the budget exhausted, and when it reports a
    return it is at the return address. *)
Theorem gc_run_budget alloc c m budget return_pc :
  0 <= budget -> u64_ok (c_retired c) ->
  let '(r, c', _) := gc_run alloc c m budget return_pc in
  exists k, 0 <= k <= budget /\ c_retired c' = w64 (c_retired c + k) /\
    (r = GC_BUDGET -> k = budget /\ c_pc c' <> return_pc) /\
    (r = GC_RETURNED -> c_pc c' = return_pc).
Proof.
  intros Hb Hc. unfold gc_run.
  pose proof (run_loop_budget alloc (Z.to_nat budget) c m return_pc Hc) as H.
  rewrite Z2Nat.id in H by done. exact H.
Qed.

(** One register instruction at a time: an unaligned or last program counter
    and every instruction that is not of registers alone are refused with the
    registers as they were; an executed one leaves them in range, touches at
    most its destination, the link register and the flags. *)
Theorem gc_register_step_spec r i :
  regs_ok r ->
  match gc_register_step (Some r) i with
  | (true, Some r') =>
      regs_ok r' /\ r_pc r mod 4 = 0 /\ next_pc r (decode (r_pc r) i) = Some (r_pc r') /\
      (forall n, 0 <= n < 31 -> n <> field i 0 5 -> n <> 30 -> xreg r' n = xreg r n)
  | (false, r') => r' = Some r
  | _ => False
  end.
Proof.
  intros Hr. unfold gc_register_step. destruct (_ || _) eqn:E; [done|]. bool_props.
  pose proof (register_decoded_ok r (r_pc r) i Hr) as Hok. unfold register_decoded in *.
  destruct (next_pc r _) as [next|]; [|done]. cbn [snd] in Hok. split; [done|].
  split; [by rewrite (land_mask _ 2) in H by done|]. split; [done|].
  intros n Hn Hrd H30. unfold xreg. cbn [set_pc r_x].
  assert (forall q k v, 0 <= k -> n <> k -> r_x (set_x q k v) !! Z.to_nat n = r_x q !! Z.to_nat n) as Hset.
  { intros q k v Hk Hne. cbn [set_x r_x]. apply list_lookup_insert_ne. lia. }
  assert (d_rd (decode (r_pc r) i) = field i 0 5) as Erd.
  { unfold decode. cbv zeta. repeat (case_match; try done). }
  assert (0 <= field i 0 5) by (apply field_range; lia).
  f_equal. trans (r_x (if links (decode (r_pc r) i) then set_x r 30 (w64 (r_pc r + 4)) else r) !! Z.to_nat n).
  2: { destruct (links _); [by apply Hset|done]. }
  set (q := if links _ then _ else _). clearbody q.
  destruct (operation_value q _) as [[[v sp] nzcv]|]; [|done]. unfold put. rewrite Erd.
  destruct (_ <? 31); [by rewrite Hset|]. by destruct sp.
Qed.

(** ** Witnesses *)

(** [movz x0, #7; str w0, [x1]; ret] in a page that may be read, written and
    executed: the store goes into the code page itself. *)
Definition example_code : list Z :=
  le_bytes 4 0xd28000e0 ++ le_bytes 4 0xb9000020 ++ le_bytes 4 0xd65f03c0.
Definition example_code_memory : GuestMemory :=
  (gm_populate (fun _ => true) (gm_map true gm_empty 16384 16384 7 7 false false).2 16384
     (Some example_code) 12).2.
Definition example_cpu : GuestCPU :=
  set_registers (gc_reset 16384 0)
    (set_x (set_x (c_registers (gc_reset 16384 0)) 30 4096) 1 16400).

Lemma example_session : session 1 example_cpu example_code_memory.
Proof.
  apply session_registers.
  - apply session_reset; [by split|by split|].
    apply (gm_operation_wf (gm_map true gm_empty 16384 16384 7 7 false false).2).
    + apply (gm_operation_wf gm_empty); [apply memory_wf_empty|]. by apply step_map.
    + apply step_populate; [done|done|]. apply (buffer_ok_Some example_code).
      repeat apply Forall_app_2; apply le_bytes_ok.
  - apply set_x_ok; [apply set_x_ok|]; [|by split..].
    split; [done| |by split|by split]. apply (Forall_replicate u64_ok 31). by split.
Qed.

Lemma gc_run_cache_witness :
  (gc_run (fun _ => true) example_cpu example_code_memory 10 4096).1.1 = GC_RETURNED /\
  c_registers (gc_run (fun _ => true) example_cpu example_code_memory 10 4096).1.2 =
  c_registers (plain_run (fun _ => true) example_cpu example_code_memory 10 4096).1.2.
Proof.
  split; [vm_compute; reflexivity|].
  pose proof (gc_run_cache 1 example_cpu example_code_memory (fun _ => true) 10 4096
    example_session ltac:(reflexivity)) as H.
  destruct (gc_run _ _ _ _ _) as [[r c1] m1], (plain_run _ _ _ _ _) as [[r' c2] m2]. apply H.
Defined.
Lemma gc_run_budget_witness :
  exists k, c_retired (gc_run (fun _ => true) example_cpu example_code_memory 2 4096).1.2 = w64 (0 + k) /\ k <= 2.
Proof.
  pose proof (gc_run_budget (fun _ => true) example_cpu example_code_memory 2 4096
    ltac:(discriminate) ltac:(by split)) as H.
  destruct (gc_run _ _ _ _ _) as [[r c1] m1]. destruct H as (k & Hk & Hr & _). exists k. split; [exact Hr|apply Hk].
Defined.
Lemma gc_register_step_spec_witness :
  match gc_register_step (Some (c_registers example_cpu)) 0xd28000e0 with
  | (true, Some r') => xreg r' 1 = 16400 /\ xreg r' 0 = 7
  | _ => False
  end.
Proof.
  assert (regs_ok (c_registers example_cpu)) as Hr.
  { apply set_x_ok; [apply set_x_ok|]; [|by split..].
    split; [done| |by split|by split]. apply (Forall_replicate u64_ok 31). by split. }
  pose proof (gc_register_step_spec (c_registers example_cpu) 0xd28000e0 Hr) as H.
  assert ((gc_register_step (Some (c_registers example_cpu)) 0xd28000e0).1 = true) as E by (vm_compute; reflexivity).
  assert (default 0 ((fun r => xreg r 0) <$> (gc_register_step (Some (c_registers example_cpu)) 0xd28000e0).2) = 7)
    as E0 by (vm_compute; reflexivity).
  destruct (gc_register_step _ _) as [[] [r'|]]; try discriminate.
  destruct H as (_ & _ & _ & H). split; [|exact E0]. rewrite H; [reflexivity|lia|discriminate|lia].
Defined.
Lemma compare_condition_witness :
  condition (arithmetic 0 0xffffffff 1 true true 32).2 11 = true.
Proof.
  destruct (compare_condition 0 0xffffffff 1 32 ltac:(by left)) as (_ & _ & _ & _ & _ & _ & _ & H & _).
  rewrite H. vm_compute. reflexivity.
Defined.
Lemma logical_immediate_spec_witness : bitmask_value 64 0x0f0f0f0f0f0f0f0f.
Proof.
  refine (proj1 (logical_immediate_spec 64 _ (or_intror eq_refl)) _).
  exists 0xcc00. vm_compute. reflexivity.
Defined.
