(* ===== verification/DarwinMemory.v ===== *)
(** * DarwinMemory: the macOS memory calls (runtime/DarwinMemory.c)

    The layer that gives [GuestMemory] the Darwin ABI: sizes rounded to pages,
    flag words checked, Darwin's errno values, the guard below 4 GiB. *)
From S2P Require Import Prelude GuestMemory.

(** ** Data (DarwinMemory.h) *)

Definition GD_MAP_SHARED : Z := 1.
Definition GD_MAP_PRIVATE : Z := 2.
Definition GD_MAP_FIXED : Z := 0x10.
Definition GD_MAP_ANON : Z := 0x1000.
Definition GD_MAP_JIT : Z := 0x800.
Definition GD_ENOMEM : Z := 12.
Definition GD_EACCES : Z := 13.
Definition GD_EINVAL : Z := 22.
Definition GD_ENOTSUP : Z := 45.

Record DarwinMemory := mkDarwinMemory { memory : GuestMemory; thread : GMThread; error : Z }.
Definition gd_empty : DarwinMemory := mkDarwinMemory gm_empty (mkGMThread false) 0.
Definition set_memory (d : DarwinMemory) (m : GuestMemory) : DarwinMemory :=
  mkDarwinMemory m (thread d) (error d).
Definition set_error (d : DarwinMemory) (e : Z) : DarwinMemory :=
  mkDarwinMemory (memory d) (thread d) e.

(** ** Operations (DarwinMemory.c) *)

Definition rounded (n : Z) : option Z :=
  if (n =? 0) || (UINT64_MAX - (GM_PAGE_SIZE - 1) <? n) then None
  else Some (Z.land (n + GM_PAGE_SIZE - 1) (Z.lnot (GM_PAGE_SIZE - 1))).

(** The int returned, 0 or -1, and the state: success does not clear [error]. *)
Definition result (d : DarwinMemory) (r : GMResult) : Z * DarwinMemory :=
  match r with
  | GM_OK => (0, d)
  | GM_PROTECTION => (-1, set_error d GD_EACCES)
  | GM_NOMEM | GM_UNMAPPED => (-1, set_error d GD_ENOMEM)
  | _ => (-1, set_error d GD_EINVAL)
  end.

Definition flag (flags f : Z) : bool := negb (Z.land flags f =? 0).

Definition known_flags : Z :=
  Z.lor (Z.lor (Z.lor (Z.lor GD_MAP_PRIVATE GD_MAP_SHARED) GD_MAP_FIXED) GD_MAP_ANON) GD_MAP_JIT.

(** Where the search for a free range starts. *)
Definition mmap_hint (a : Z) : Z :=
  let a := page_floor a in
  if a <? 0x100000000 then 0x200000000 else a.

Definition gd_mmap (pages_ok : bool) (d : DarwinMemory) (a n prot flags fd offset : Z)
    : Z * DarwinMemory :=
  let size := rounded n in
  if negb (bool_decide (is_Some size)) || negb (none_outside prot 7) ||
     negb (none_outside flags known_flags) ||
     negb (Z.land flags (Z.lor GD_MAP_PRIVATE GD_MAP_SHARED) =? GD_MAP_PRIVATE) ||
     negb (offset =? 0) || (flag flags GD_MAP_FIXED && negb (a mod GM_PAGE_SIZE =? 0))
  then (UINT64_MAX, set_error d GD_EINVAL) else
  if negb (flag flags GD_MAP_ANON) || negb (fd =? -1) then (UINT64_MAX, set_error d GD_ENOTSUP) else
  let size := default 0 size in
  let '(status, d, a) :=
    if negb (flag flags GD_MAP_FIXED) then
      let hint := mmap_hint a in
      let '(r, found) := gm_find_free (memory d) hint size in
      (result d r, default hint found)
    else ((0, d), a) in
  if negb (status =? 0) then (UINT64_MAX, d) else
  if a <? 0x100000000 then (UINT64_MAX, set_error d GD_EINVAL) else
  let '(r, m) := gm_map pages_ok (memory d) a size prot 7 (flag flags GD_MAP_JIT)
                   (flag flags GD_MAP_FIXED) in
  let '(status, d) := result (set_memory d m) r in
  (if negb (status =? 0) then UINT64_MAX else a, d).

Definition gd_mprotect (d : DarwinMemory) (a n prot : Z) : Z * DarwinMemory :=
  match rounded n with
  | None => (-1, set_error d GD_EINVAL)
  | Some size =>
    let '(r, m) := gm_protect (memory d) a size prot in result (set_memory d m) r
  end.

Definition gd_munmap (d : DarwinMemory) (a n : Z) : Z * DarwinMemory :=
  match rounded n with
  | None => (-1, set_error d GD_EINVAL)
  | Some size => let '(r, m) := gm_unmap (memory d) a size in result (set_memory d m) r
  end.

Definition gd_jit_write_protect (d : DarwinMemory) (enabled : bool) : DarwinMemory :=
  mkDarwinMemory (memory d) (mkGMThread enabled) (error d).

(** ** Rounding *)

Lemma rounded_spec n :
  u64_ok n ->
  match rounded n with
  | Some size => n <= size < n + GM_PAGE_SIZE /\ size mod GM_PAGE_SIZE = 0 /\ 0 < n /\
                 size <= UINT64_MAX - (GM_PAGE_SIZE - 1)
  | None => n = 0 \/ UINT64_MAX - (GM_PAGE_SIZE - 1) < n
  end.
Proof.
  intros [Hn Hmax]. unfold rounded. destruct (_ || _) eqn:E; bool_props.
  { destruct E; bool_props; auto. }
  change (Z.land (n + GM_PAGE_SIZE - 1) (Z.lnot (GM_PAGE_SIZE - 1)))
    with (page_floor (n + GM_PAGE_SIZE - 1)).
  rewrite page_floor_eq. pose proof (page_mod_bound (n + GM_PAGE_SIZE - 1)).
  assert (UINT64_MAX = 2 ^ 50 * GM_PAGE_SIZE - 1) as Hu by reflexivity.
  pose proof (Z.div_mod (n + GM_PAGE_SIZE - 1) GM_PAGE_SIZE ltac:(done)).
  assert (0 < GM_PAGE_SIZE) by done.
  set (q := (n + GM_PAGE_SIZE - 1) / GM_PAGE_SIZE) in *.
  replace (n + GM_PAGE_SIZE - 1 - (n + GM_PAGE_SIZE - 1) mod GM_PAGE_SIZE)
    with (q * GM_PAGE_SIZE) by lia.
  assert (q < 2 ^ 50) by (apply Z.div_lt_upper_bound; lia).
  unfold UINT64_MAX, GM_PAGE_SIZE in *. split_and!; [lia|lia|by apply Z.mod_mul|lia|lia].
Qed.

(** ** Mapping *)

(** No address below this one may be mapped: null and low-address guard. *)
Definition GUARD : Z := 0x100000000.

Definition mmap_args_ok (a n prot flags offset : Z) : Prop :=
  is_Some (rounded n) /\ none_outside prot 7 = true /\ none_outside flags known_flags = true /\
  Z.land flags (Z.lor GD_MAP_PRIVATE GD_MAP_SHARED) = GD_MAP_PRIVATE /\ offset = 0 /\
  (flag flags GD_MAP_FIXED = true -> a mod GM_PAGE_SIZE = 0).
(** Where a mapping goes: at the address asked for, or at the first free range
    at or above the hint. *)
Definition mmap_placed (d : DarwinMemory) (a size flags r : Z) : Prop :=
  if flag flags GD_MAP_FIXED then r = a else
  range_free (memory d) r size /\ mmap_hint a <= r /\
  forall c, c mod GM_PAGE_SIZE = 0 -> mmap_hint a <= c < r -> ~ range_free (memory d) c size.
Definition mmap_done (d d' : DarwinMemory) (r size prot : Z) (jit : bool) : Prop :=
  error d' = error d /\ next_generations (memory d) (memory d') /\
  r mod GM_PAGE_SIZE = 0 /\ GUARD <= r /\ r + size <= UINT64_MAX /\
  forall x, cell (memory d') x =
    if decide (r <= x < r + size) then Some (mkCell 0 prot 7 jit) else cell (memory d) x.
(** Why a mapping of valid arguments finds no memory: the C's own allocation, or
    no free range. *)
Definition mmap_no_room (pages_ok : bool) (d : DarwinMemory) (a size flags : Z) : Prop :=
  pages_ok = false \/
  UINT64_MAX / sizeof_GMPage < Z.of_nat (length (gm_pages (memory d))) + size / GM_PAGE_SIZE \/
  flag flags GD_MAP_FIXED = false /\
    forall c, c mod GM_PAGE_SIZE = 0 -> mmap_hint a <= c -> c + size <= UINT64_MAX ->
      ~ range_free (memory d) c size.

Lemma mmap_hint_ok a : u64_ok a -> mmap_hint a mod GM_PAGE_SIZE = 0 /\ GUARD <= mmap_hint a.
Proof.
  intros _. unfold mmap_hint. cbv zeta. destruct (Z.ltb_spec (page_floor a) 0x100000000); [done|].
  by split; [rewrite page_floor_eq; apply page_floor_aligned|].
Qed.

Lemma map_at_spec pages_ok d a n size prot jit fixed :
  memory_wf (memory d) -> u64_ok n -> rounded n = Some size -> none_outside prot 7 = true ->
  a mod GM_PAGE_SIZE = 0 -> GUARD <= a ->
  (fixed = false -> range_free (memory d) a size /\ a + size <= UINT64_MAX) ->
  let '(r, m) := gm_map pages_ok (memory d) a size prot 7 jit fixed in
  let '(status, d') := result (set_memory d m) r in
  thread d' = thread d /\ memory_wf (memory d') /\
  ((status = 0 /\ mmap_done d d' a size prot jit) \/
   (status = -1 /\ memory d' = memory d /\
    ((error d' = GD_EINVAL /\ UINT64_MAX - a < size /\ fixed = true) \/
     (error d' = GD_ENOMEM /\
      (pages_ok = false \/ UINT64_MAX / sizeof_GMPage <
        Z.of_nat (length (gm_pages (memory d))) + size / GM_PAGE_SIZE))))).
Proof.
  intros Hm Hn Hsize Hprot Ha Hguard Hfree. pose proof (rounded_spec n Hn) as Hr.
  rewrite Hsize in Hr. destruct Hr as (Hle & Hmod & Hpos & Hmax). unfold GUARD in Hguard.
  pose proof (gm_map_correct pages_ok (memory d) a size prot 7 jit fixed Hm ltac:(lia) ltac:(lia))
    as Hmap.
  destruct (gm_map _ _ _ _ _ _ _ _) as [[] m']; cbn; try done.
  - destruct Hmap as (Hwf & Hgen & (Hrange & _) & _ & Hcell).
    apply range_spec in Hrange as (_ & _ & _ & ?).
    do 2 (split; [done|]). left. split; [done|]. unfold mmap_done, GUARD. cbn. auto 8.
  - destruct Hmap as [-> Hbad]. do 2 (split; [done|]). right. do 2 (split; [done|]). left.
    split; [done|]. destruct (decide (UINT64_MAX - a < size)).
    { split; [done|]. destruct fixed; [done|]. destruct (Hfree eq_refl). lia. }
    destruct Hbad. split; [apply range_spec; lia|done].
  - destruct Hmap as (_ & _ & -> & x & Hx & Hc). destruct (Hfree eq_refl) as [Hf _].
    by rewrite Hf in Hc.
  - destruct Hmap as (-> & _ & ?). auto 8.
Qed.

Lemma mmap_args_spec a n prot flags offset :
  negb (bool_decide (is_Some (rounded n))) || negb (none_outside prot 7) ||
  negb (none_outside flags known_flags) ||
  negb (Z.land flags (Z.lor GD_MAP_PRIVATE GD_MAP_SHARED) =? GD_MAP_PRIVATE) ||
  negb (offset =? 0) || (flag flags GD_MAP_FIXED && negb (a mod GM_PAGE_SIZE =? 0)) = false
  <-> mmap_args_ok a n prot flags offset.
Proof.
  unfold mmap_args_ok. rewrite !orb_false_iff, andb_false_iff, !negb_false_iff, !Z.eqb_eq,
    bool_decide_eq_true. destruct (flag flags GD_MAP_FIXED); intuition congruence.
Qed.

(** The mapping step of [gd_mmap] once the address is chosen. *)
Definition mmap_post (pages_ok : bool) (d : DarwinMemory) (a n prot flags fd offset r : Z)
    (d' : DarwinMemory) : Prop :=
  thread d' = thread d /\ memory_wf (memory d') /\
  if decide (r = UINT64_MAX) then
    memory d' = memory d /\
    ((error d' = GD_EINVAL /\ ~ mmap_args_ok a n prot flags offset) \/
     mmap_args_ok a n prot flags offset /\
     ((error d' = GD_ENOTSUP /\ (flag flags GD_MAP_ANON = false \/ fd <> -1)) \/
      exists size, rounded n = Some size /\
        ((error d' = GD_EINVAL /\
          if flag flags GD_MAP_FIXED then a < GUARD \/ UINT64_MAX - a < size
          else UINT64_MAX - mmap_hint a < size) \/
         (error d' = GD_ENOMEM /\ mmap_no_room pages_ok d a size flags))))
  else
    mmap_args_ok a n prot flags offset /\ flag flags GD_MAP_ANON = true /\ fd = -1 /\
    exists size, rounded n = Some size /\ mmap_placed d a size flags r /\
      mmap_done d d' r size prot (flag flags GD_MAP_JIT).

Lemma map_finish pages_ok d a n size prot flags fd offset r :
  memory_wf (memory d) -> u64_ok n -> mmap_args_ok a n prot flags offset ->
  rounded n = Some size -> flag flags GD_MAP_ANON = true -> fd = -1 ->
  none_outside prot 7 = true -> r mod GM_PAGE_SIZE = 0 -> GUARD <= r ->
  (flag flags GD_MAP_FIXED = false -> r + size <= UINT64_MAX) ->
  mmap_placed d a size flags r ->
  let '(g, m) := gm_map pages_ok (memory d) r size prot 7 (flag flags GD_MAP_JIT)
                   (flag flags GD_MAP_FIXED) in
  let '(status, d') := result (set_memory d m) g in
  mmap_post pages_ok d a n prot flags fd offset (if negb (status =? 0) then UINT64_MAX else r) d'.
Proof.
  intros Hm Hn Hok Hsize Hanon Hfd Hprot Hr Hguard Hfit Hplaced.
  pose proof (map_at_spec pages_ok d r n size prot (flag flags GD_MAP_JIT) (flag flags GD_MAP_FIXED)
    Hm Hn Hsize Hprot Hr Hguard) as Hmap.
  destruct (gm_map _ _ _ _ _ _ _ _) as [g m]. destruct (result _ _) as [status d'].
  destruct Hmap as (Hth & Hwf & Hcase).
  { intros Hf. unfold mmap_placed in Hplaced. rewrite Hf in Hplaced.
    split; [by apply Hplaced|by apply Hfit]. }
  do 2 (split; [done|]). destruct Hcase as [[-> Hdone]|(-> & Hsame & Hcase)]; cbn [negb Z.eqb].
  - rewrite decide_False; [by eauto 8|]. intros ->. destruct Hdone as (_ & _ & Hmod & _). done.
  - rewrite decide_True by done. split; [done|]. right. split; [done|]. right. exists size.
    split; [done|]. destruct Hcase as [(He & Hov & Hf)|(He & Hroom)].
    + left. split; [done|]. unfold mmap_placed in Hplaced. rewrite Hf in Hplaced |- *. subst. by right.
    + right. split; [done|]. unfold mmap_no_room. tauto.
Qed.

Lemma gd_mmap_correct pages_ok d a n prot flags fd offset :
  memory_wf (memory d) -> u64_ok a -> u64_ok n ->
  let '(r, d') := gd_mmap pages_ok d a n prot flags fd offset in
  mmap_post pages_ok d a n prot flags fd offset r d'.
Proof.
  intros Hm Ha Hn. unfold gd_mmap. pose proof (mmap_args_spec a n prot flags offset) as Hargs.
  destruct (negb _ || _ || _ || _ || _ || _).
  { do 2 (split; [done|]). rewrite decide_True by done. split; [done|]. left. split; [done|].
    by intros Hok%Hargs. }
  pose proof (proj1 Hargs eq_refl) as Hok. pose proof Hok as ([size Hsize] & Hprot & _ & _ & _ & Hal).
  destruct (negb (flag flags GD_MAP_ANON) || _) eqn:Esup.
  { do 2 (split; [done|]). rewrite decide_True by done. split; [done|]. right.
    split; [done|]. left. split; [done|]. apply orb_true_iff in Esup as [?|?]; bool_props; auto. }
  bool_props. rewrite Hsize. cbn [default from_option id].
  destruct (flag flags GD_MAP_FIXED) eqn:Hfixed; cbn [negb Z.eqb].
  - destruct (Z.ltb_spec a GUARD) as [Hlow|Hlow]; unfold GUARD in Hlow.
    { rewrite (proj2 (Z.ltb_lt a 0x100000000)) by done. do 2 (split; [done|]).
      rewrite decide_True by done. split; [done|]. right. split; [done|]. right. exists size.
      rewrite Hfixed. auto. }
    rewrite (proj2 (Z.ltb_ge a 0x100000000)) by done.
    assert (mmap_placed d a size flags a) as Hplaced by (unfold mmap_placed; by rewrite Hfixed).
    pose proof (map_finish pages_ok d a n size prot flags fd offset a) as Hmap.
    rewrite Hfixed in Hmap. destruct (gm_map _ _ _ _ _ _ _ _) as [g m].
    destruct (result _ _) as [status d'].
    by refine (Hmap Hm Hn Hok Hsize _ _ Hprot (Hal eq_refl) Hlow _ Hplaced).
  - destruct (mmap_hint_ok a Ha) as [Hhm Hhg].
    pose proof (rounded_spec n Hn) as Hr. rewrite Hsize in Hr. destruct Hr as (Hle & Hmod & Hpos & _).
    pose proof (gm_find_free_correct (memory d) (mmap_hint a) size Hm ltac:(lia)) as Hfind.
    destruct (gm_find_free _ _ _) as [[] [c|]]; try done; cbn [result default from_option id Z.eqb negb].
    + destruct Hfind as (Hge & Hcm & Hfit & Hfree & Hmin). unfold GUARD in Hhg.
      rewrite (proj2 (Z.ltb_ge c 0x100000000)) by lia.
      assert (mmap_placed d a size flags c) as Hplaced
        by (unfold mmap_placed; rewrite Hfixed; auto).
      pose proof (map_finish pages_ok d a n size prot flags fd offset c) as Hmap.
      rewrite Hfixed in Hmap. destruct (gm_map _ _ _ _ _ _ _ _) as [g m].
      destruct (result _ _) as [status d'].
      refine (Hmap Hm Hn Hok Hsize _ _ Hprot Hcm _ _ Hplaced); [done|done|unfold GUARD; lia|done].
    + do 2 (split; [done|]). rewrite decide_True by done. split; [done|]. right.
      split; [done|]. right. exists size. split; [done|]. left. rewrite Hfixed. split; [done|].
      destruct (decide (UINT64_MAX - mmap_hint a < size)); [done|].
      assert (range (mmap_hint a) size = true) by (apply range_spec; lia). congruence.
    + do 2 (split; [done|]). rewrite decide_True by done. split; [done|]. right.
      split; [done|]. right. exists size. split; [done|]. right. split; [done|].
      right; right. done.
Qed.

(** [gd_mmap] maps fresh zero pages: at the requested address with
    MAP_FIXED, replacing what was there, and otherwise at the first free range
    at or above the hint, never over an existing mapping. No mapping begins
    below 4 GiB. A failure returns MAP_FAILED, leaves the memory untouched and
    sets the Darwin error that its cause calls for. *)
Theorem gd_mmap_spec pages_ok d a n prot flags fd offset :
  memory_wf (memory d) -> u64_ok a -> u64_ok n ->
  let '(r, d') := gd_mmap pages_ok d a n prot flags fd offset in
  mmap_post pages_ok d a n prot flags fd offset r d'.
Proof. apply gd_mmap_correct. Qed.

(** ** Protection and unmapping *)

(** [gd_mprotect] protects every page the byte count touches, or reports
    EINVAL for a bad range, ENOMEM for a hole and EACCES above a page's maximum,
    changing nothing; success leaves the error word alone. *)
Theorem gd_mprotect_spec d a n prot :
  memory_wf (memory d) -> u64_ok a -> u64_ok n ->
  let '(status, d') := gd_mprotect d a n prot in
  thread d' = thread d /\ memory_wf (memory d') /\
  ((status = 0 /\ error d' = error d /\ exists size, rounded n = Some size /\
      (forall x, a <= x < a + size -> exists c, cell (memory d) x = Some c /\
        none_outside prot (c_maxprot c) = true) /\
      forall x, cell (memory d') x =
        if decide (a <= x < a + size) then cell_with_prot prot <$> cell (memory d) x
        else cell (memory d) x) \/
   (status = -1 /\ memory d' = memory d /\
     match rounded n with
     | None => error d' = GD_EINVAL
     | Some size =>
         (error d' = GD_EINVAL /\ ~ (range a size = true /\ none_outside prot 7 = true)) \/
         (error d' = GD_ENOMEM /\ ~ forall x, a <= x < a + size -> cell (memory d) x <> None) \/
         (error d' = GD_EACCES /\ exists x c, a <= x < a + size /\
            cell (memory d) x = Some c /\ none_outside prot (c_maxprot c) = false)
     end)).
Proof.
  intros Hm Ha Hn. unfold gd_mprotect. pose proof (rounded_spec n Hn) as Hr.
  destruct (rounded n) as [size|]; [|by auto 8]. destruct Hr as (Hle & Hmod & Hpos & _).
  pose proof (gm_protect_correct (memory d) a size prot Hm ltac:(lia)) as Hp. cbv zeta in Hp.
  destruct (gm_protect _ _ _ _) as [[] m']; try done; cbn [result set_memory set_error memory thread error].
  - destruct Hp as (_ & Hall & Hwf & _ & Hmax & Hcell). do 2 (split; [done|]). left.
    do 2 (split; [done|]). exists size. split; [done|]. split; [|done]. intros x Hx.
    destruct (cell (memory d) x) as [c|] eqn:Hc; [|by destruct (Hall x Hx)]. eauto.
  - destruct Hp as [-> Hbad]. by auto 10.
  - destruct Hp as (-> & Hok & Hhole). by auto 10.
  - destruct Hp as (-> & _ & _ & Hx). by auto 10.
Qed.

(** [gd_munmap] unmaps every page the byte count touches; it fails, with
    EINVAL and no effect, only on a range that is not one. *)
Theorem gd_munmap_spec d a n :
  memory_wf (memory d) -> u64_ok a -> u64_ok n ->
  let '(status, d') := gd_munmap d a n in
  thread d' = thread d /\ memory_wf (memory d') /\
  match rounded n with
  | Some size =>
      if range a size then
        status = 0 /\ error d' = error d /\
        forall x, cell (memory d') x = if decide (a <= x < a + size) then None else cell (memory d) x
      else status = -1 /\ memory d' = memory d /\ error d' = GD_EINVAL
  | None => status = -1 /\ memory d' = memory d /\ error d' = GD_EINVAL
  end.
Proof.
  intros Hm Ha Hn. unfold gd_munmap. pose proof (rounded_spec n Hn) as Hr.
  destruct (rounded n) as [size|]; [|done]. destruct Hr as (Hle & Hmod & Hpos & _).
  pose proof (gm_unmap_correct (memory d) a size Hm ltac:(lia)) as Hu.
  destruct (gm_unmap _ _ _) as [[] m']; try done; cbn [result set_memory set_error memory thread error].
  - destruct Hu as (-> & Hwf & _ & Hcell). done.
  - destruct Hu as [-> ->]. done.
Qed.

(** ** The guard below 4 GiB *)

Inductive gd_step (d : DarwinMemory) : DarwinMemory -> Prop :=
| step_mmap pages_ok a n prot flags fd offset :
    u64_ok a -> u64_ok n -> gd_step d (gd_mmap pages_ok d a n prot flags fd offset).2
| step_mprotect a n prot : u64_ok a -> u64_ok n -> gd_step d (gd_mprotect d a n prot).2
| step_munmap a n : u64_ok a -> u64_ok n -> gd_step d (gd_munmap d a n).2
| step_jit enabled : gd_step d (gd_jit_write_protect d enabled)
| step_access permission write alloc t a b n :
    0 <= a -> 0 <= n -> buffer_ok b n ->
    gd_step d (set_memory d (copy alloc (memory d) t a b n permission write).1.2).

(** A well formed memory with nothing mapped below the guard. *)
Definition guarded (d : DarwinMemory) : Prop :=
  memory_wf (memory d) /\ forall x, x < GUARD -> cell (memory d) x = None.

Lemma copy_unmapped alloc m t a b n permission write x :
  memory_wf m -> 0 <= a -> 0 <= n -> buffer_ok b n -> cell m x = None ->
  cell (copy alloc m t a b n permission write).1.2 x = None.
Proof.
  intros Hm Ha Hn Hb Hx. pose proof (copy_spec alloc m t a b n permission write Hm Ha Hn Hb) as Hc.
  destruct (copy _ _ _ _ _ _ _ _) as [[r m'] b']. destruct Hc as [_ Hc]. cbn.
  destruct (decide (r = GM_OK)) as [->|Hne].
  - destruct Hc as (_ & _ & Hc). case_decide.
    + destruct Hc as [-> _]. done.
    + destruct Hc as (b0 & -> & Hc). destruct write.
      * destruct Hc as (_ & Hst & _). rewrite Hst, Hx. by case_decide.
      * destruct Hc as (Hs & _). by rewrite Hs.
  - assert (same_cells m m') as Hs by (destruct r; [done|..]; by destruct Hc as (_ & ? & _)).
    by rewrite Hs.
Qed.

Lemma mmap_guarded pages_ok d a n prot flags fd offset :
  u64_ok a -> u64_ok n -> guarded d -> guarded (gd_mmap pages_ok d a n prot flags fd offset).2.
Proof.
  intros Ha Hn [Hm Hg].
  pose proof (gd_mmap_correct pages_ok d a n prot flags fd offset Hm Ha Hn) as H.
  destruct (gd_mmap _ _ _ _ _ _ _ _) as [r d']. destruct H as (_ & Hwf & H). cbn.
  split; [done|]. intros x Hx. case_decide.
  - destruct H as [-> _]. by apply Hg.
  - destruct H as (_ & _ & _ & size & _ & _ & _ & _ & _ & Hlow & _ & Hcell).
    rewrite Hcell, decide_False by lia. by apply Hg.
Qed.
Lemma protect_guarded d a n prot : u64_ok n -> guarded d -> guarded (gd_mprotect d a n prot).2.
Proof.
  intros Hn [Hm Hg]. unfold gd_mprotect. pose proof (rounded_spec n Hn) as Hr. unfold u64_ok in Hn.
  destruct (rounded n) as [size|]; [|done]. destruct Hr as (Hle & _ & Hpos & _).
  pose proof (gm_protect_correct (memory d) a size prot Hm ltac:(lia)) as Hp. cbv zeta in Hp.
  destruct (gm_protect _ _ _ _) as [[] m']; try done.
  - destruct Hp as (_ & _ & Hwf & _ & _ & Hcell). split; [done|]. intros x Hx. cbn.
    rewrite Hcell, Hg by done. by case_decide.
  - by destruct Hp as [-> _].
  - by destruct Hp as [-> _].
  - by destruct Hp as [-> _].
Qed.
Lemma munmap_guarded d a n : u64_ok n -> guarded d -> guarded (gd_munmap d a n).2.
Proof.
  intros Hn [Hm Hg]. unfold gd_munmap. pose proof (rounded_spec n Hn) as Hr. unfold u64_ok in Hn.
  destruct (rounded n) as [size|]; [|done]. destruct Hr as (Hle & _ & Hpos & _).
  pose proof (gm_unmap_correct (memory d) a size Hm ltac:(lia)) as Hp.
  destruct (gm_unmap _ _ _) as [[] m']; try done.
  - destruct Hp as (_ & Hwf & _ & Hcell). split; [done|]. intros x Hx. cbn.
    rewrite Hcell, Hg by done. by case_decide.
  - by destruct Hp as [_ ->].
Qed.

Lemma gd_step_guarded d d' : guarded d -> gd_step d d' -> guarded d'.
Proof.
  intros Hg [].
  - by apply mmap_guarded.
  - by apply protect_guarded.
  - by apply munmap_guarded.
  - done.
  - destruct Hg as [Hm Hg]. split; [by apply copy_wf|]. intros x Hx. cbn.
    apply copy_unmapped; auto.
Qed.

(** C38: no sequence of Darwin memory calls and accesses, in any order and with
    any arguments, maps an address below 4 GiB or breaks the page table. *)
Theorem gd_reachable_guarded d : rtc gd_step gd_empty d -> guarded d.
Proof.
  intros Hr. remember gd_empty as d0 eqn:E0.
  assert (guarded d0) as Hg by (subst; split; [apply memory_wf_empty|done]). clear E0.
  induction Hr as [|d1 d2 d3 Hs _ IH]; [done|]. apply IH. by eapply gd_step_guarded.
Qed.

(** ** Witnesses *)

(** One anonymous private page requested without an address. *)
Definition example_darwin : DarwinMemory := (gd_mmap true gd_empty 0 100 3 0x1002 (-1) 0).2.
Lemma example_darwin_guarded : guarded example_darwin.
Proof.
  apply mmap_guarded; [by unfold u64_ok; lia..|]. split; [apply memory_wf_empty|done].
Qed.
Lemma example_darwin_wf : memory_wf (memory example_darwin).
Proof. apply example_darwin_guarded. Qed.

Lemma gd_mmap_spec_witness :
  exists d', gd_mmap true example_darwin 0 20000 3 0x1002 (-1) 0 = (0x200004000, d') /\
    cell (memory d') 0x200004000 = Some (mkCell 0 3 7 false) /\
    cell (memory d') 0x200000000 = Some (mkCell 0 3 7 false).
Proof.
  pose proof (gd_mmap_spec true example_darwin 0 20000 3 0x1002 (-1) 0 example_darwin_wf
    ltac:(unfold u64_ok; lia) ltac:(unfold u64_ok; lia)) as H.
  assert ((gd_mmap true example_darwin 0 20000 3 0x1002 (-1) 0).1 = 0x200004000) as E
    by (vm_compute; reflexivity).
  destruct (gd_mmap _ _ _ _ _ _ _ _) as [r d']. cbn in E. subst r. exists d'. split; [done|].
  destruct H as (_ & _ & _ & _ & _ & size & Hs & _ & _ & _ & _ & _ & _ & Hc).
  injection Hs as <-. rewrite !Hc. by split; vm_compute.
Defined.

Lemma gd_mprotect_spec_witness :
  (gd_mprotect example_darwin 0x200000000 1 1).1 = 0 /\
  cell (memory (gd_mprotect example_darwin 0x200000000 1 1).2) 0x200000001 =
    Some (mkCell 0 1 7 false).
Proof.
  pose proof (gd_mprotect_spec example_darwin 0x200000000 1 1 example_darwin_wf
    ltac:(unfold u64_ok; lia) ltac:(unfold u64_ok; lia)) as H.
  assert ((gd_mprotect example_darwin 0x200000000 1 1).1 = 0) as E by (vm_compute; reflexivity).
  destruct (gd_mprotect _ _ _ _) as [r d']. cbn in E. subst r. split; [done|].
  destruct H as (_ & _ & [(_ & _ & size & Hs & _ & Hc)|[? _]]); [|done].
  injection Hs as <-. cbn [snd]. rewrite Hc. by vm_compute.
Defined.

Lemma gd_munmap_spec_witness :
  (gd_munmap example_darwin 0x200000000 1).1 = 0 /\
  cell (memory (gd_munmap example_darwin 0x200000000 1).2) 0x200000001 = None.
Proof.
  pose proof (gd_munmap_spec example_darwin 0x200000000 1 example_darwin_wf
    ltac:(unfold u64_ok; lia) ltac:(unfold u64_ok; lia)) as H.
  destruct (gd_munmap _ _ _) as [r d']. destruct H as (_ & _ & H).
  change (rounded 1) with (Some 16384) in H. cbv iota in H.
  change (range 0x200000000 16384) with true in H. cbv iota in H.
  destruct H as (-> & _ & Hc). split; [done|]. cbn [snd]. rewrite Hc. by vm_compute.
Defined.

Lemma gd_reachable_guarded_witness : guarded example_darwin.
Proof.
  apply gd_reachable_guarded. eapply rtc_l; [|apply rtc_refl].
  apply (step_mmap gd_empty true 0 100 3 0x1002 (-1) 0); unfold u64_ok; lia.
Defined.
