(* ===== verification/CPUProbe.v ===== *)
(** * CPUProbe: programs under the interpreter
    (runtime/CPUProbe.c, runtime/CPUProbeProgram.S, runtime/MemoryProbe.c)

    The probes run the modelled components end to end. [CPUProbeProgram.S] holds
    two loops in assembly; the CPU probe copies their bytes into guest memory,
    interprets them and compares with the same loops in C and with what the
    processor itself computes. What the processor computes is an argument. The
    times and the texts that are printed are left out. *)
From S2P Require Import Prelude GuestMemory DarwinMemory GuestCPU.

(** ** The programs (CPUProbeProgram.S)

    Instructions are A64 words; a branch counts in instructions. *)

Definition movz (rd imm : Z) : Z := Z.lor 0xd2800000 (Z.lor (Z.shiftl imm 5) rd).
Definition movk_lsl16 (rd imm : Z) : Z := Z.lor 0xf2a00000 (Z.lor (Z.shiftl imm 5) rd).
Definition cbz (rt count : Z) : Z := Z.lor 0xb4000000 (Z.lor (Z.shiftl count 5) rt).
Definition madd (rd rn rm ra : Z) : Z :=
  Z.lor 0x9b000000 (Z.lor (Z.shiftl rm 16) (Z.lor (Z.shiftl ra 10) (Z.lor (Z.shiftl rn 5) rd))).
Definition eor_lsr (rd rn rm amount : Z) : Z :=
  Z.lor 0xca400000 (Z.lor (Z.shiftl rm 16) (Z.lor (Z.shiftl amount 10) (Z.lor (Z.shiftl rn 5) rd))).
Definition subs_imm (rd rn imm : Z) : Z := Z.lor 0xf1000000 (Z.lor (Z.shiftl imm 10) (Z.lor (Z.shiftl rn 5) rd)).
Definition add_imm (rd rn imm : Z) : Z := Z.lor 0x91000000 (Z.lor (Z.shiftl imm 10) (Z.lor (Z.shiftl rn 5) rd)).
Definition b_ne (count : Z) : Z := Z.lor 0x54000001 (Z.shiftl (Z.land count 0x7ffff) 5).
Definition mov (rd rm : Z) : Z := Z.lor 0xaa0003e0 (Z.lor (Z.shiftl rm 16) rd).
Definition str (rt rn : Z) : Z := Z.lor 0xf9000000 (Z.lor (Z.shiftl rn 5) rt).
Definition ldr (rt rn : Z) : Z := Z.lor 0xf9400000 (Z.lor (Z.shiftl rn 5) rt).
Definition ret : Z := 0xd65f03c0.

Definition probe_program : list Z :=
  [ movz 2 0x660d; movk_lsl16 2 0x19; movz 3 0xf35f; movk_lsl16 3 0x3c6e; cbz 0 5;
    madd 1 1 2 3; eor_lsr 1 1 1 13; subs_imm 0 0 1; b_ne (-3);
    mov 0 1; ret ].
Definition probe_memory_program : list Z :=
  [ cbz 0 6;
    str 1 2; ldr 3 2; add_imm 1 3 1; subs_imm 0 0 1; b_ne (-4);
    mov 0 1; ret ].
(** The bytes between the labels of a program. *)
Definition program_bytes (program : list Z) : list Z := concat (le_bytes 4 <$> program).

(** ** The CPU probe (CPUProbe.c) *)

Definition base : Z := 0x100000000.
Definition done : Z := 0xffff0000.
Definition slot : Z := 0x4000.
(** The loop of the C reference. *)
Definition next (expected : Z) : Z :=
  let expected := w64 (w64 (expected * 1664525) + 1013904223) in Z.lxor expected (Z.shiftr expected 13).
Definition reference (n seed : Z) : Z := Nat.iter (Z.to_nat n) next seed.

(** The CPU after [gc_reset] and the stores to its registers. *)
Definition cpu_at (entry x0 x1 x2 x30 : Z) : GuestCPU :=
  let c := gc_reset entry 0 in
  set_registers c (set_x (set_x (set_x (set_x (c_registers c) 0 x0) 1 x1) 2 x2) 30 x30).

Section probe.
(** What the processor computes: the first program's result, and the second's
    with what it leaves in its slot. *)
Context (gc_probe_program : Z -> Z -> Z) (gc_probe_memory_program : Z -> Z -> Z -> Z * Z).
Context (alloc : Z -> bool).

(** The runs from [n] on, [turns] of them. *)
Fixpoint differential (turns : nat) (n : Z) (m : GuestMemory) : bool * GuestMemory :=
  match turns with
  | O => (true, m)
  | S turns =>
    let seed := w64 (UINT64_MAX - n) in
    let expected := reference n seed in
    let '(result, cpu, m) := gc_run alloc (cpu_at base n seed 0 done) m (4 * n + 7) done in
    if negb (bool_decide (result = GC_RETURNED)) || negb (xreg (c_registers cpu) 0 =? expected) ||
       negb (gc_probe_program n seed =? expected) then (false, m) else
    differential turns (n + 1) m
  end.
(** [allocated] and [pages], [slot_pages]: whether the allocations of the CPU and
    of both mappings succeed. *)
Definition guest_cpu_probe (allocated pages slot_pages : bool) (iterations : Z) : bool :=
  if negb allocated then false else
  let code := program_bytes probe_program in
  let size := Z.of_nat (length code) in
  if GM_PAGE_SIZE <? size then false else
  let '(mapped, m) := gm_map pages gm_empty base GM_PAGE_SIZE (Z.lor GM_READ GM_EXEC) 7 false false in
  if negb (bool_decide (mapped = GM_OK)) then false else
  let '(populated, m) := gm_populate alloc m base (Some code) size in
  if negb (bool_decide (populated = GM_OK)) then false else
  let '(agree, m) := differential 100 0 m in
  if negb agree then false else
  let '(result, cpu, m) := gc_run alloc (cpu_at base iterations 42 0 done) m (iterations * 4 + 7) done in
  let expected := gc_probe_program iterations 42 in
  if negb (bool_decide (result = GC_RETURNED) && (xreg (c_registers cpu) 0 =? expected)) then false else
  let code := program_bytes probe_memory_program in
  let size := Z.of_nat (length code) in
  if GM_PAGE_SIZE <? size then false else
  let '(mapped, m) := gm_map slot_pages m slot GM_PAGE_SIZE 3 3 false false in
  if negb (bool_decide (mapped = GM_OK)) then false else
  let '(populated, m) := gm_populate alloc m base (Some code) size in
  if negb (bool_decide (populated = GM_OK)) then false else
  let '(result, cpu, m) := gc_run alloc (cpu_at base iterations 42 slot done) m (iterations * 5 + 3) done in
  let '(expected, stored) := gc_probe_memory_program iterations 42 0 in
  if negb (bool_decide (result = GC_RETURNED) && (xreg (c_registers cpu) 0 =? expected) && (expected =? w64 (42 + iterations)))
  then false else
  let '(read, _, bytes) := gm_read alloc m slot (Some (replicate 8 0)) 8 in
  bool_decide (read = GM_OK) && (le_value (default [] bytes) =? stored).
End probe.

(** ** The memory probe (MemoryProbe.c) *)

Definition sample_code : list Z := [0x40; 0x05; 0x80; 0x52; 0xc0; 0x03; 0x5f; 0xd6].
(** The message of the first check that fails is the index of the check here.
    [pages] and [pages_again]: whether the allocations of both mappings succeed;
    [backing]: whether that of the page's bytes does. *)
Definition guest_memory_probe (backing pages pages_again : bool) : option Z :=
  let alloc (_ : Z) := backing in
  let d := mkDarwinMemory gm_empty (mkGMThread true) 0 in
  let flags := Z.lor (Z.lor GD_MAP_PRIVATE GD_MAP_ANON) GD_MAP_JIT in
  let '(a, d) := gd_mmap pages d 0 GM_PAGE_SIZE 7 flags (-1) 0 in
  if negb (negb (a =? UINT64_MAX)) then Some 0 else
  let '(r, m) := gm_write alloc (memory d) (Some (thread d)) a (Some sample_code) 8 in
  let d := set_memory d m in
  if negb (bool_decide (r = GM_PROTECTION)) then Some 1 else
  let d := gd_jit_write_protect d false in
  let '(r, m) := gm_write alloc (memory d) (Some (thread d)) a (Some sample_code) 8 in
  let d := set_memory d m in
  if negb (bool_decide (r = GM_OK)) then Some 2 else
  let '(r, m, insn) := gm_fetch alloc (memory d) (Some (thread d)) a (Some 0) in
  let d := set_memory d m in
  if negb (bool_decide (r = GM_PROTECTION)) then Some 3 else
  let d := gd_jit_write_protect d true in
  let '(r, m, insn) := gm_fetch alloc (memory d) (Some (thread d)) a insn in
  let d := set_memory d m in
  if negb (bool_decide (r = GM_OK) && bool_decide (insn = Some 0x52800540)) then Some 4 else
  let '(status, d) := gd_mprotect d a GM_PAGE_SIZE GM_READ in
  if negb (status =? 0) then Some 5 else
  let '(r, m, insn) := gm_fetch alloc (memory d) (Some (thread d)) a insn in
  let d := set_memory d m in
  if negb (bool_decide (r = GM_PROTECTION)) then Some 6 else
  let '(again, d) := gd_mmap pages_again d a GM_PAGE_SIZE 7 (Z.lor flags GD_MAP_FIXED) (-1) 0 in
  if negb (again =? a) then Some 7 else
  let '(r, m, insn) := gm_fetch alloc (memory d) (Some (thread d)) a insn in
  let d := set_memory d m in
  if negb (bool_decide (r = GM_OK) && bool_decide (insn = Some 0)) then Some 8 else
  let '(status, d) := gd_munmap d a GM_PAGE_SIZE in
  if negb (status =? 0) then Some 9 else
  let '(r, m, insn) := gm_fetch alloc (memory d) (Some (thread d)) a insn in
  if negb (bool_decide (r = GM_UNMAPPED)) then Some 10 else None.
(** ** What the interpreter does with a program *)

Lemma mask_small v : u64_ok v -> Z.land v (mask 64) = v.
Proof. intros Hv. rewrite mask_mod by (by right). apply Z.mod_small, Hv. Qed.

Section interpreted.
Context (alloc : Z -> bool).

(** The address of the instruction [k]. *)
Definition pc_at (k : nat) : Z := base + 4 * Z.of_nat k.
(** The registers the programs use, the flags and the count of instructions. *)
Definition machine (x0 x1 x2 x3 pc nzcv retired : Z) : GuestCPU :=
  mkCPU (mkRegisters ([x0; x1; x2; x3] ++ replicate 26 0 ++ [done]) 0 pc nzcv) retired
    (mkGMThread true) GM_OK 0 0 false empty.
Lemma cpu_at_machine x0 x1 x2 : cpu_at base x0 x1 x2 done = machine x0 x1 x2 0 base 0 0.
Proof. reflexivity. Qed.

(** [b] instructions lead from one machine and memory to another. *)
Definition runs (b : Z) (c c' : GuestCPU) (m m' : GuestMemory) : Prop :=
  0 <= b /\ forall k, 0 <= k ->
    plain_run alloc c m (b + k) done = plain_run alloc c' m' k done.
Lemma runs_refl c m : runs 0 c c m m.
Proof. by split. Qed.
Lemma runs_trans a b c1 c2 c3 m1 m2 m3 : runs a c1 c2 m1 m2 -> runs b c2 c3 m2 m3 -> runs (a + b) c1 c3 m1 m3.
Proof.
  intros [Ha H1] [Hb H2]. split; [lia|]. intros k Hk. rewrite <- H2, <- H1 by lia. by rewrite Z.add_assoc.
Qed.
Lemma runs_next b c1 c2 c3 m1 m2 m3 : runs 1 c1 c2 m1 m2 -> runs (b - 1) c2 c3 m2 m3 -> runs b c1 c3 m1 m3.
Proof. intros H1 H2. replace b with (1 + (b - 1)) by lia. by eapply runs_trans. Qed.
Lemma runs_step c m w c' m' :
  memory_wf m -> 0 <= c_pc c -> c_pc c <> done -> fetches m (c_thread c) (c_pc c) w ->
  execute alloc (decode (c_pc c) w) (set_memory_result c GM_OK) (set_fault m 0) = (None, c', m') -> runs 1 c c' m m'.
Proof.
  intros Hm Hpc Hne Hf He. split; [done|]. intros k Hk. unfold plain_run. replace (Z.to_nat (1 + k)) with (S (Z.to_nat k)) by lia.
  cbn [run_loop]. rewrite (proj2 (Z.eqb_neq _ _) Hne). unfold fetch_decode.
  pose proof (fetch_fetches alloc m (c_thread c) (c_pc c) Hm Hpc) as H.
  destruct (gm_fetch alloc m _ _ _) as [[r m1] i]. destruct H as (_ & _ & _ & Hok & Hall).
  destruct (Hall w Hf) as [-> ->]. destruct (Hok eq_refl) as [-> _]. rewrite bool_decide_true by done.
  cbn [default from_option id]. change (c_pc (set_memory_result c GM_OK)) with (c_pc c). by rewrite He.
Qed.

(** The program is in memory the thread may execute. *)
Definition holds_program (m : GuestMemory) (program : list Z) : Prop :=
  forall k w, program !! k = Some w -> fetches m (mkGMThread true) (pc_at k) w.
Lemma holds_program_fault m f program : holds_program m program -> holds_program (set_fault m f) program.
Proof. intros H k w Hk. apply (fetches_same_cells m); [intros x; apply cell_fault|by apply H]. Qed.

(** What stays true of the memory while a program that does not store runs: the
    runs are told from a memory without a recorded fault, which a fetch leaves. *)
Record ready (program : list Z) (m : GuestMemory) : Prop := {
  rd_wf : memory_wf m;
  rd_fault : set_fault m 0 = m;
  rd_program : holds_program m program
}.
Lemma runs_instruction program m k w x0 x1 x2 x3 f n c' m' :
  ready program m -> program !! k = Some w -> (k < 16)%nat ->
  execute alloc (decode (pc_at k) w) (machine x0 x1 x2 x3 (pc_at k) f n) m = (None, c', m') ->
  runs 1 (machine x0 x1 x2 x3 (pc_at k) f n) c' m m'.
Proof.
  intros [Hm Hfault Hp] Hk Hlt He. apply (runs_step _ _ w); [done|cbn; unfold pc_at, base; lia|cbn; unfold pc_at, base, done; lia|by apply Hp|].
  by rewrite Hfault.
Qed.
(** Goes over the instruction [k] to the machine [c], whose parts are computed. *)
Ltac instruction k c := eapply (runs_next _ _ c); [eapply (runs_instruction _ _ k); [eassumption|reflexivity|lia|reflexivity]|].
Ltac last_instruction k := eapply (runs_instruction _ _ k); [eassumption|reflexivity|lia|].

Lemma lxor_range a b : u64_ok a -> u64_ok b -> u64_ok (Z.lxor a b).
Proof.
  intros Ha Hb. rewrite <- (mask_small a Ha), <- (mask_small b Hb). unfold mask. cbn [Z.eqb Pos.eqb].
  change UINT64_MAX with (Z.ones 64). rewrite !Z.land_ones by lia.
  assert (Z.lxor (a mod 2 ^ 64) (b mod 2 ^ 64) = Z.lxor (a mod 2 ^ 64) (b mod 2 ^ 64) mod 2 ^ 64) as ->; [|apply Z.mod_pos_bound; lia].
  apply Z.bits_inj'. intros i Hi. destruct (Z.lt_ge_cases i 64).
  - by rewrite Z.mod_pow2_bits_low.
  - rewrite Z.mod_pow2_bits_high, Z.lxor_spec, !Z.mod_pow2_bits_high by lia. done.
Qed.
Lemma shiftr_range a k : u64_ok a -> 0 <= k -> u64_ok (Z.shiftr a k).
Proof.
  intros [H1 H2] Hk. rewrite Z.shiftr_div_pow2 by done. pose proof (Z.pow_pos_nonneg 2 k ltac:(lia) Hk).
  split; [by apply Z.div_pos|]. apply Z.le_lt_trans with a; [|done]. by apply Z.div_le_upper_bound; [lia|nia].
Qed.
Lemma next_range x : u64_ok (next x).
Proof. unfold next. apply lxor_range; [apply w64_range|]. apply shiftr_range; [apply w64_range|lia]. Qed.
Lemma reference_step x :
  let v := Z.land (w64 (1013904223 + w64 (x * 1664525))) (mask 64) in
  Z.land (Z.land (Z.lxor v (Z.shiftr (Z.land v (mask 64)) 13)) (mask 64)) (mask 64) = next x.
Proof.
  cbv zeta. rewrite !(mask_small (w64 _)) by apply w64_range. rewrite (Z.add_comm 1013904223).
  change (Z.lxor _ _) with (next x). by rewrite !mask_small by (try rewrite mask_small; apply next_range).
Qed.

Lemma prologue m n seed :
  ready probe_program m -> u64_ok n ->
  runs 5 (machine n seed 0 0 base 0 0) (machine n seed 1664525 1013904223 (if n =? 0 then pc_at 9 else pc_at 5) 0 5) m m.
Proof.
  intros Hm Hn. change base with (pc_at 0).
  instruction 0%nat (machine n seed 0x660d 0 (pc_at 1) 0 1). instruction 1%nat (machine n seed 1664525 0 (pc_at 2) 0 2).
  instruction 2%nat (machine n seed 1664525 0xf35f (pc_at 3) 0 3). instruction 3%nat (machine n seed 1664525 1013904223 (pc_at 4) 0 4).
  last_instruction 4%nat.
  replace (if n =? 0 then pc_at 9 else pc_at 5) with (if eqb (negb (Z.land n (mask 64) =? 0)) false then pc_at 9 else pc_at 5)
    by (rewrite mask_small by done; by destruct (n =? 0)).
  reflexivity.
Qed.
(** The pairs of a product that a subtraction of one leaves: the count, and the
    flag the branch tests. *)
Lemma countdown f x :
  u64_ok x -> 0 < x ->
  Z.land (arithmetic f x 1 true true 64).1 (mask 64) = x - 1 /\ condition (arithmetic f x 1 true true 64).2 1 = negb (x - 1 =? 0).
Proof.
  intros Hx Hpos. pose proof (arithmetic_flags f x 1 true 64 ltac:(by right)) as [Hr _ Hz _ _].
  rewrite (Z.mod_small x), (Z.mod_small 1) in Hr by (unfold u64_ok in Hx; lia). rewrite (Z.mod_small (x - 1)) in Hr by (unfold u64_ok in Hx; lia).
  rewrite condition_bits by lia. cbv zeta. cbn [nth Z.to_nat Pos.to_nat Pos.iter_op]. rewrite Hz, Hr.
  split; [|done]. apply mask_small. unfold u64_ok in *. lia.
Qed.
Lemma retired_next k a : w64 (w64 (k + a) + 1) = w64 (k + (a + 1)).
Proof. by rewrite w64_add_w64, Z.add_assoc. Qed.
Lemma iteration m x0 x1 f k :
  ready probe_program m -> u64_ok x0 -> 0 < x0 ->
  exists f', runs 4 (machine x0 x1 1664525 1013904223 (pc_at 5) f k)
    (machine (x0 - 1) (next x1) 1664525 1013904223 (if x0 - 1 =? 0 then pc_at 9 else pc_at 5) f' (w64 (k + 4))) m m.
Proof.
  intros Hm Hx Hpos. destruct (countdown f x0 Hx Hpos) as [Hv Hc]. exists (arithmetic f x0 1 true true 64).2.
  set (v := Z.land (w64 (1013904223 + w64 (x1 * 1664525))) (mask 64)).
  instruction 5%nat (machine x0 v 1664525 1013904223 (pc_at 6) f (w64 (k + 1))).
  instruction 6%nat (machine x0 (Z.land (Z.land (Z.lxor v (Z.shiftr (Z.land v (mask 64)) 13)) (mask 64)) (mask 64)) 1664525 1013904223
    (pc_at 7) f (w64 (w64 (k + 1) + 1))).
  pose proof (reference_step x1) as Hnext. cbv zeta in Hnext. fold v in Hnext. rewrite Hnext.
  instruction 7%nat (machine (Z.land (arithmetic f x0 1 true true 64).1 (mask 64)) (next x1) 1664525 1013904223
    (pc_at 8) (arithmetic f x0 1 true true 64).2 (w64 (w64 (w64 (k + 1) + 1) + 1))).
  rewrite Hv. last_instruction 8%nat.
  replace (w64 (k + 4)) with (w64 (w64 (w64 (w64 (k + 1) + 1) + 1) + 1)) by (by rewrite (retired_next k 1), (retired_next k (1 + 1)), (retired_next k (1 + 1 + 1))).
  replace (if x0 - 1 =? 0 then pc_at 9 else pc_at 5) with (if condition (arithmetic f x0 1 true true 64).2 1 then pc_at 5 else pc_at 9)
    by (rewrite Hc; by destruct (x0 - 1 =? 0)).
  reflexivity.
Qed.
Lemma iterations m n x1 f k :
  ready probe_program m -> u64_ok (Z.of_nat n) -> (0 < n)%nat ->
  exists f', runs (4 * Z.of_nat n) (machine (Z.of_nat n) x1 1664525 1013904223 (pc_at 5) f k)
    (machine 0 (Nat.iter n next x1) 1664525 1013904223 (pc_at 9) f' (w64 (k + 4 * Z.of_nat n))) m m.
Proof.
  intros Hm. revert x1 f k. induction n as [|n IH]; intros x1 f k Hn Hpos; [lia|].
  destruct (iteration m (Z.of_nat (S n)) x1 f k Hm Hn ltac:(lia)) as [f1 H1].
  replace (Z.of_nat (S n) - 1) with (Z.of_nat n) in H1 by lia. destruct n as [|n].
  - exists f1. exact H1.
  - destruct (IH (next x1) f1 (w64 (k + 4))) as [f2 H2]; [unfold u64_ok in *; lia|lia|]. exists f2.
    replace (4 * Z.of_nat (S (S n))) with (4 + 4 * Z.of_nat (S n)) by lia.
    eapply runs_trans; [exact H1|]. rewrite w64_add_w64 in H2. rewrite Nat.iter_succ_r.
    replace (k + (4 + 4 * Z.of_nat (S n))) with (k + 4 + 4 * Z.of_nat (S n)) by lia. exact H2.
Qed.
Lemma epilogue m x0 x1 x2 x3 f k :
  ready probe_program m -> u64_ok x1 ->
  runs 2 (machine x0 x1 x2 x3 (pc_at 9) f k) (machine x1 x1 x2 x3 done f (w64 (k + 2))) m m.
Proof.
  intros Hm Hx. instruction 9%nat (machine (Z.land (Z.land (Z.lor 0 (Z.land x1 (mask 64))) (mask 64)) (mask 64)) x1 x2 x3 (pc_at 10) f (w64 (k + 1))).
  rewrite Z.lor_0_l, !(mask_small x1) by done. last_instruction 10%nat.
  replace (w64 (k + 2)) with (w64 (w64 (k + 1) + 1)) by (by rewrite retired_next). reflexivity.
Qed.
Lemma reference_range n seed : u64_ok seed -> u64_ok (reference n seed).
Proof. intros Hs. unfold reference. destruct (Z.to_nat n); [done|]. apply next_range. Qed.
Lemma probe_program_plain m n seed :
  ready probe_program m -> u64_ok n -> u64_ok seed ->
  exists f, runs (4 * n + 7) (machine n seed 0 0 base 0 0)
    (machine (reference n seed) (reference n seed) 1664525 1013904223 done f (w64 (4 * n + 7))) m m.
Proof.
  intros Hm Hn Hs. pose proof (prologue m n seed Hm Hn) as Hpro. pose proof (reference_range n seed Hs) as Href.
  destruct (Z.eqb_spec n 0) as [->|Hne].
  - exists 0. apply (runs_trans 5 2 _ _ _ _ _ _ Hpro). exact (epilogue m 0 seed 1664525 1013904223 0 5 Hm Hs).
  - destruct (iterations m (Z.to_nat n) seed 0 5 Hm) as [f Hloop]; [by rewrite Z2Nat.id by apply Hn|unfold u64_ok in Hn; lia|].
    rewrite Z2Nat.id in Hloop by apply Hn. exists f. replace (4 * n + 7) with (5 + (4 * n + 2)) by lia.
    eapply runs_trans; [exact Hpro|]. eapply runs_trans; [exact Hloop|].
    replace (w64 (5 + (4 * n + 2))) with (w64 (w64 (5 + 4 * n) + 2)) by (by rewrite w64_add_w64, Z.add_assoc).
    by apply epilogue.
Qed.
(** A run through the decode cache is the plain one. *)
Lemma cached_run m m' c c' budget :
  runs budget c c' (set_fault m 0) m' -> memory_wf m -> regs_ok (c_registers c) -> c_cache c = ∅ -> c_pc c' = done ->
  let '(result, c1, m1) := gc_run alloc c m budget done in
  result = GC_RETURNED /\ c_registers c1 = c_registers c' /\ c_retired c1 = c_retired c' /\
  memory_wf m1 /\ set_fault m1 0 = set_fault m' 0.
Proof.
  intros [_ Hrun] Hm Hr Hc Hdone. specialize (Hrun 0 ltac:(lia)). rewrite Z.add_0_r in Hrun.
  assert (plain_run alloc c' m' 0 done = (GC_RETURNED, c', m')) as Hend
    by (change (plain_run alloc c' m' 0 done) with (if c_pc c' =? done then GC_RETURNED else GC_BUDGET, c', m'); by rewrite Hdone, Z.eqb_refl).
  rewrite Hend in Hrun. unfold plain_run in Hrun.
  destruct (run_loop_sim alloc 1 (Z.to_nat budget) c c m (set_fault m 0) done) as [Hres Hsame _ [Hwf _] _];
    [lia|by split|by apply within_empty|by split|].
  unfold gc_run. rewrite Hrun in Hres, Hsame.
  destruct (run_loop alloc _ _ c m _) as [[result c1] m1]. cbn [fst snd] in *. destruct Hsame as [S1 S2 _ _ S5].
  by split_and!.
Qed.
Lemma machine_regs x0 x1 x2 x3 pc f k :
  u64_ok x0 -> u64_ok x1 -> u64_ok x2 -> u64_ok x3 -> u64_ok pc -> regs_ok (c_registers (machine x0 x1 x2 x3 pc f k)).
Proof.
  intros. split; [done| |done|done]. cbn. repeat (constructor; [done|]). constructor.
Qed.
(** Whatever the code cache, the interpreter computes the C reference. *)
Lemma probe_program_run m n seed :
  memory_wf m -> holds_program m probe_program -> u64_ok n -> u64_ok seed ->
  let '(result, c, m') := gc_run alloc (cpu_at base n seed 0 done) m (4 * n + 7) done in
  result = GC_RETURNED /\ xreg (c_registers c) 0 = reference n seed /\ c_retired c = w64 (4 * n + 7) /\
  memory_wf m' /\ set_fault m' 0 = set_fault m 0.
Proof.
  intros Hm Hp Hn Hs.
  destruct (probe_program_plain (set_fault m 0) n seed) as [f Hrun];
    [split; [by apply memory_wf_fault|done|by apply holds_program_fault]|done|done|].
  rewrite cpu_at_machine. pose proof (cached_run _ _ _ _ _ Hrun Hm (machine_regs n seed 0 0 base 0 0 Hn Hs ltac:(done) ltac:(done) ltac:(done)) eq_refl eq_refl) as H.
  destruct (gc_run _ _ _ _ _) as [[result c] m']. destruct H as (-> & -> & -> & Hwf & E). by split_and!.
Qed.

(** ** The program that stores *)

(** The slot may be read and written, and holds no code. *)
Record slot_ready (m : GuestMemory) : Prop := {
  sr_ready : ready probe_memory_program m;
  sr_write : access_ok m (Some (mkGMThread true)) slot 8 GM_WRITE;
  sr_read : access_ok m None slot 8 GM_READ;
  sr_data : ~ range_exec m slot 8
}.
Definition slot_holds (m : GuestMemory) (v : Z) : Prop := reads_as m slot 8 (le_bytes 8 v).
Lemma stored_check m m' a b t permission x : stored m m' a b -> cell_check (cell m' x) t permission = cell_check (cell m x) t permission.
Proof. intros Hs. rewrite Hs. case_decide; [|done]. by destruct (cell m x). Qed.
Lemma stored_exec m m' a b x : stored m m' a b -> cell_exec (cell m' x) = cell_exec (cell m x).
Proof. intros Hs. rewrite Hs. case_decide; [|done]. by destruct (cell m x). Qed.
Lemma store_slot m v :
  (forall k, alloc k = true) -> slot_ready m ->
  exists m', gm_write alloc m (Some (mkGMThread true)) slot (Some (le_bytes 8 v)) 8 = (GM_OK, m') /\ slot_ready m' /\ slot_holds m' v.
Proof.
  intros Halloc [[Hm Hf Hp] Hw Hr Hd]. unfold gm_write.
  pose proof (copy_spec alloc m (Some (mkGMThread true)) slot (Some (le_bytes 8 v)) 8 GM_WRITE true Hm ltac:(done) ltac:(done)
    (buffer_ok_Some (le_bytes 8 v) (le_bytes_ok _ _))) as Hc.
  destruct (copy _ _ _ _ _ _ _ _) as [[r m'] b']. destruct Hc as [Hwf Hres]. cbn [fst].
  assert (r = GM_OK) as ->.
  { destruct r; [done|..]; destruct Hres as (_ & _ & _ & [He|(_ & _ & _ & [[_ ?]|(_ & _ & j & Hj)])]);
      first [by destruct (access_error_not_ok _ _ _ _ _ _ _ He)|done|by rewrite Halloc in Hj]. }
  destruct Hres as (_ & Hfault & b & [= <-] & _ & Hst & _). exists m'. split; [done|]. split.
  - split; [split| | |].
    + done.
    + destruct m'. cbn in Hfault. by subst.
    + intros k w Hk. by apply (fetches_stored m _ _ _ _ _ _ Hst Hd), Hp.
    + split; [done|]. intros x Hx. rewrite (stored_check _ _ _ _ _ _ _ Hst). by apply Hw.
    + split; [done|]. intros x Hx. rewrite (stored_check _ _ _ _ _ _ _ Hst). by apply Hr.
    + intros (x & Hx & He). apply Hd. exists x. split; [done|]. by rewrite <- (stored_exec _ _ _ _ _ Hst).
  - unfold slot_holds. exact (stored_reads_as m m' slot (le_bytes 8 v) (cell_check_mapped _ _ _ _ _ Hw) Hst).
Qed.
Lemma load_slot m v :
  slot_ready m -> slot_holds m v -> gm_read alloc m slot (Some (replicate 8 0)) 8 = (GM_OK, m, Some (le_bytes 8 v)).
Proof.
  intros [[Hm Hf Hp] Hw Hr Hd] Hv. unfold gm_read.
  pose proof (copy_spec alloc m None slot (Some (replicate 8 0)) 8 GM_READ false Hm ltac:(done) ltac:(done)
    (buffer_ok_Some (replicate 8 0) ltac:(by repeat constructor))) as Hc.
  destruct (copy _ _ _ _ _ _ _ _) as [[r m'] b']. destruct Hc as [_ Hres].
  assert (r = GM_OK) as ->.
  { destruct r; [done|..]; destruct Hres as (_ & _ & _ & [He|(_ & _ & _ & [[_ ?]|(_ & ? & _)])]);
      first [by destruct (access_error_not_ok _ _ _ _ _ _ _ He)|done]. }
  destruct Hres as (_ & _ & b & _ & -> & bs & -> & Hbs). by rewrite Hf, (reads_as_functional m slot 8 bs (le_bytes 8 v)).
Qed.
Lemma str_step x0 x1 x3 f k m m' :
  gm_write alloc m (Some (mkGMThread true)) slot (Some (le_bytes 8 x1)) 8 = (GM_OK, m') ->
  execute alloc (decode (pc_at 1) (str 1 2)) (machine x0 x1 slot x3 (pc_at 1) f k) m =
  (None, machine x0 x1 slot x3 (pc_at 2) f (w64 (k + 1)), m').
Proof.
  intros H. change (execute _ _ _ _) with
    (let '(result, m1) := gm_write alloc m (Some (mkGMThread true)) slot (Some (le_bytes 8 x1)) 8 in
     if bool_decide (result = GM_OK) then (None, set_memory_result (machine x0 x1 slot x3 (pc_at 2) f (w64 (k + 1))) result, m1)
     else (Some GC_MEMORY, set_memory_result (machine x0 x1 slot x3 (pc_at 1) f k) result, m1)).
  by rewrite H.
Qed.
Lemma ldr_step x0 x1 x3 f k m v :
  u64_ok v -> gm_read alloc m slot (Some (replicate 8 0)) 8 = (GM_OK, m, Some (le_bytes 8 v)) ->
  execute alloc (decode (pc_at 2) (ldr 3 2)) (machine x0 x1 slot x3 (pc_at 2) f k) m =
  (None, machine x0 x1 slot v (pc_at 3) f (w64 (k + 1)), m).
Proof.
  intros Hv H. change (execute _ _ _ _) with
    (let '(result, m1, bytes) := gm_read alloc m slot (Some (replicate 8 0)) 8 in
     let c := set_memory_result (machine x0 x1 slot x3 (pc_at 2) f k) result in
     if bool_decide (result = GM_OK)
     then (None, set_memory_result (machine x0 x1 slot (Z.land (le_value (default [] bytes)) (mask 64)) (pc_at 3) f (w64 (k + 1))) result, m1)
     else (Some GC_MEMORY, c, m1)).
  rewrite H. cbv zeta. rewrite bool_decide_true by done. cbn [default from_option id].
  by rewrite le_value_le_bytes, Z.mod_small, mask_small by done.
Qed.
Lemma add_result x : u64_ok x -> Z.land (Z.land (w64 (Z.land x (mask 64) + Z.land 1 (mask 64))) (mask 64)) (mask 64) = w64 (x + 1).
Proof. intros Hx. change (Z.land 1 (mask 64)) with 1. rewrite (mask_small x) by done. by rewrite !(mask_small (w64 _)) by apply w64_range. Qed.

Lemma memory_iteration m x0 x1 x3 f k :
  (forall k, alloc k = true) -> slot_ready m -> u64_ok x0 -> 0 < x0 -> u64_ok x1 ->
  exists f' m', runs 5 (machine x0 x1 slot x3 (pc_at 1) f k)
    (machine (x0 - 1) (w64 (x1 + 1)) slot x1 (if x0 - 1 =? 0 then pc_at 6 else pc_at 1) f' (w64 (k + 5))) m m' /\
    slot_ready m' /\ slot_holds m' x1.
Proof.
  intros Halloc Hm Hx Hpos Hx1. destruct (countdown f x0 Hx Hpos) as [Hv Hc]. exists (arithmetic f x0 1 true true 64).2.
  destruct (store_slot m x1 Halloc Hm) as (m' & Hstore & Hm' & Hholds). exists m'. split; [|done].
  pose proof (sr_ready _ Hm) as Hready. pose proof (sr_ready _ Hm') as Hready'.
  apply (runs_next _ _ (machine x0 x1 slot x3 (pc_at 2) f (w64 (k + 1))) _ m m');
    [by eapply (runs_instruction _ _ 1); [eassumption|reflexivity|lia|apply str_step]|].
  apply (runs_next _ _ (machine x0 x1 slot x1 (pc_at 3) f (w64 (w64 (k + 1) + 1))) _ m' m');
    [by eapply (runs_instruction _ _ 2); [eassumption|reflexivity|lia|apply ldr_step; [|apply load_slot]]|].
  instruction 3%nat (machine x0 (Z.land (Z.land (w64 (Z.land x1 (mask 64) + Z.land 1 (mask 64))) (mask 64)) (mask 64)) slot x1 (pc_at 4) f
    (w64 (w64 (w64 (k + 1) + 1) + 1))).
  rewrite add_result by done.
  instruction 4%nat (machine (Z.land (arithmetic f x0 1 true true 64).1 (mask 64)) (w64 (x1 + 1)) slot x1
    (pc_at 5) (arithmetic f x0 1 true true 64).2 (w64 (w64 (w64 (w64 (k + 1) + 1) + 1) + 1))).
  rewrite Hv. last_instruction 5%nat.
  replace (w64 (k + 5)) with (w64 (w64 (w64 (w64 (w64 (k + 1) + 1) + 1) + 1) + 1))
    by (by rewrite (retired_next k 1), (retired_next k (1 + 1)), (retired_next k (1 + 1 + 1)), (retired_next k (1 + 1 + 1 + 1))).
  replace (if x0 - 1 =? 0 then pc_at 6 else pc_at 1) with (if condition (arithmetic f x0 1 true true 64).2 1 then pc_at 1 else pc_at 6)
    by (rewrite Hc; by destruct (x0 - 1 =? 0)).
  reflexivity.
Qed.
Lemma memory_iterations m n x1 x3 f k :
  (forall k, alloc k = true) -> slot_ready m -> u64_ok (Z.of_nat n) -> (0 < n)%nat -> u64_ok x1 ->
  exists f' x3' m', runs (5 * Z.of_nat n) (machine (Z.of_nat n) x1 slot x3 (pc_at 1) f k)
    (machine 0 (w64 (x1 + Z.of_nat n)) slot x3' (pc_at 6) f' (w64 (k + 5 * Z.of_nat n))) m m' /\
    u64_ok x3' /\ slot_ready m' /\ slot_holds m' (w64 (x1 + Z.of_nat n - 1)).
Proof.
  intros Halloc. revert m x1 x3 f k. induction n as [|n IH]; intros m x1 x3 f k Hm Hn Hpos Hx; [lia|].
  destruct (memory_iteration m (Z.of_nat (S n)) x1 x3 f k Halloc Hm Hn ltac:(lia) Hx) as (f1 & m1 & H1 & Hm1 & Hs1).
  replace (Z.of_nat (S n) - 1) with (Z.of_nat n) in H1 by lia. destruct n as [|n].
  - exists f1, x1, m1. split; [exact H1|]. split; [done|]. split; [done|].
    replace (x1 + Z.of_nat 1 - 1) with x1 by lia. by rewrite w64_small.
  - destruct (IH m1 (w64 (x1 + 1)) x1 f1 (w64 (k + 5))) as (f2 & x3' & m2 & H2 & Hx3 & Hm2 & Hs2);
      [done|unfold u64_ok in *; lia|lia|apply w64_range|]. exists f2, x3', m2.
    rewrite !w64_add_w64 in H2. split; [|split; [done|split; [done|]]].
    + replace (5 * Z.of_nat (S (S n))) with (5 + 5 * Z.of_nat (S n)) by lia. eapply runs_trans; [exact H1|].
      replace (x1 + Z.of_nat (S (S n))) with (x1 + 1 + Z.of_nat (S n)) by lia.
      replace (k + (5 + 5 * Z.of_nat (S n))) with (k + 5 + 5 * Z.of_nat (S n)) by lia. exact H2.
    + revert Hs2. rewrite <- Z.add_sub_assoc, w64_add_w64.
      by replace (x1 + 1 + (Z.of_nat (S n) - 1)) with (x1 + Z.of_nat (S (S n)) - 1) by lia.
Qed.
Lemma memory_epilogue m x0 x1 x2 x3 f k :
  slot_ready m -> u64_ok x1 ->
  runs 2 (machine x0 x1 x2 x3 (pc_at 6) f k) (machine x1 x1 x2 x3 done f (w64 (k + 2))) m m.
Proof.
  intros Hm Hx. pose proof (sr_ready _ Hm) as Hready.
  instruction 6%nat (machine (Z.land (Z.land (Z.lor 0 (Z.land x1 (mask 64))) (mask 64)) (mask 64)) x1 x2 x3 (pc_at 7) f (w64 (k + 1))).
  rewrite Z.lor_0_l, !(mask_small x1) by done. last_instruction 7%nat.
  replace (w64 (k + 2)) with (w64 (w64 (k + 1) + 1)) by (by rewrite retired_next). reflexivity.
Qed.
(** What the slot holds after [n] turns. *)
Definition last_stored (n seed : Z) : Z := if n =? 0 then 0 else w64 (seed + n - 1).
Lemma memory_program_plain m n seed :
  (forall k, alloc k = true) -> slot_ready m -> slot_holds m 0 -> u64_ok n -> u64_ok seed ->
  exists f x3 m', runs (5 * n + 3) (machine n seed slot 0 base 0 0)
    (machine (w64 (seed + n)) (w64 (seed + n)) slot x3 done f (w64 (5 * n + 3))) m m' /\
    slot_ready m' /\ slot_holds m' (last_stored n seed).
Proof.
  intros Halloc Hm H0 Hn Hs. pose proof (sr_ready _ Hm) as Hready. unfold last_stored. change base with (pc_at 0).
  assert (runs 1 (machine n seed slot 0 (pc_at 0) 0 0) (machine n seed slot 0 (if n =? 0 then pc_at 6 else pc_at 1) 0 1) m m) as Hfirst.
  { last_instruction 0%nat.
    replace (if n =? 0 then pc_at 6 else pc_at 1) with (if eqb (negb (Z.land n (mask 64) =? 0)) false then pc_at 6 else pc_at 1)
      by (rewrite mask_small by done; by destruct (n =? 0)).
    reflexivity. }
  destruct (Z.eqb_spec n 0) as [->|Hne].
  - exists 0, 0, m. rewrite Z.add_0_r, w64_small by done. split; [|done].
    apply (runs_trans 1 2 _ _ _ _ _ _ Hfirst). exact (memory_epilogue m 0 seed slot 0 0 1 Hm Hs).
  - destruct (memory_iterations m (Z.to_nat n) seed 0 0 1 Halloc Hm) as (f & x3 & m' & Hloop & _ & Hm' & Hs');
      [by rewrite Z2Nat.id by apply Hn|unfold u64_ok in Hn; lia|done|].
    rewrite Z2Nat.id in Hloop, Hs' by apply Hn. exists f, x3, m'. split; [|done].
    replace (5 * n + 3) with (1 + (5 * n + 2)) by lia. eapply runs_trans; [exact Hfirst|]. eapply runs_trans; [exact Hloop|].
    replace (w64 (1 + (5 * n + 2))) with (w64 (w64 (1 + 5 * n) + 2)) by (by rewrite w64_add_w64, Z.add_assoc).
    apply memory_epilogue; [done|apply w64_range].
Qed.
Lemma memory_program_run m n seed :
  (forall k, alloc k = true) -> memory_wf m -> slot_ready (set_fault m 0) -> slot_holds m 0 -> u64_ok n -> u64_ok seed ->
  let '(result, c, m') := gc_run alloc (cpu_at base n seed slot done) m (5 * n + 3) done in
  result = GC_RETURNED /\ xreg (c_registers c) 0 = w64 (seed + n) /\ c_retired c = w64 (5 * n + 3) /\
  exists m1, gm_read alloc m' slot (Some (replicate 8 0)) 8 = (GM_OK, m1, Some (le_bytes 8 (last_stored n seed))).
Proof.
  intros Halloc Hm Hready H0 Hn Hs.
  assert (slot_holds (set_fault m 0) 0) as H0' by exact H0.
  destruct (memory_program_plain (set_fault m 0) n seed Halloc Hready H0' Hn Hs) as (f & x3 & m1 & Hrun & Hready1 & Hslot).
  rewrite cpu_at_machine.
  pose proof (cached_run _ _ _ _ _ Hrun Hm (machine_regs n seed slot 0 base 0 0 Hn Hs ltac:(done) ltac:(done) ltac:(done)) eq_refl eq_refl) as H.
  destruct (gc_run _ _ _ _ _) as [[result c] m']. destruct H as (-> & -> & -> & Hwf & E). split_and!; try done.
  exists m1. rewrite <- (read_ignores_fault _ m' 0) by done. rewrite E, (rd_fault _ _ (sr_ready _ Hready1)). by apply load_slot.
Qed.
End interpreted.

(** ** The memory the CPU probe prepares *)

Lemma page_index m i p : memory_wf m -> gm_pages m !! i = Some p -> GM_PAGE_SIZE * Z.of_nat i <= gp_address p.
Proof.
  intros [Hsorted Hpages]. rewrite Forall_lookup in Hpages. revert p. induction i as [|i IH]; intros p Hp.
  - destruct (page_wf_range _ (Hpages _ _ Hp)). lia.
  - destruct (lookup_lt_is_Some_2 (gm_pages m) i) as [q Hq]; [by apply lookup_lt_Some in Hp; lia|].
    specialize (IH q Hq). pose proof (key_sorted_lookup gp_address _ i (S i) q p Hsorted Hq Hp ltac:(lia)) as Hlt.
    pose proof (page_wf_aligned _ (Hpages _ _ Hq)) as Hqa. pose proof (page_wf_aligned _ (Hpages _ _ Hp)) as Hpa.
    apply Z.mod_divide in Hqa as [a Ha]; [|done]. apply Z.mod_divide in Hpa as [b Hb]; [|done].
    rewrite Ha, Hb in *. unfold GM_PAGE_SIZE in *. nia.
Qed.
Lemma pages_bound m : memory_wf m -> Z.of_nat (length (gm_pages m)) < 2 ^ 51.
Proof.
  intros Hm. destruct (gm_pages m) as [|q l] eqn:E; [done|].
  destruct (lookup_lt_is_Some_2 (gm_pages m) (length l)) as [p Hp]; [rewrite E; cbn; lia|].
  pose proof (page_index m _ p Hm Hp) as Hi. destruct Hm as [_ Hpages]. rewrite Forall_lookup in Hpages.
  destruct (page_wf_range _ (Hpages _ _ Hp)) as [_ Hend]. cbn [length]. unfold GM_PAGE_SIZE, UINT64_MAX in *. lia.
Qed.
(** A page where nothing is mapped can be mapped. *)
Lemma map_page m a prot maxprot :
  memory_wf m -> 0 <= a -> map_args_ok a GM_PAGE_SIZE prot maxprot -> (forall x, a <= x < a + GM_PAGE_SIZE -> cell m x = None) ->
  exists m', gm_map true m a GM_PAGE_SIZE prot maxprot false false = (GM_OK, m') /\ memory_wf m' /\
    forall x, cell m' x = if decide (a <= x < a + GM_PAGE_SIZE) then Some (mkCell 0 prot maxprot false) else cell m x.
Proof.
  intros Hm Ha Hargs Hfree. pose proof (gm_map_correct true m a GM_PAGE_SIZE prot maxprot false false Hm Ha ltac:(done)) as H.
  destruct (gm_map _ _ _ _ _ _ _ _) as [[] m']; try done.
  - exists m'. by destruct H as (? & _ & _ & _ & ?).
  - by destruct H.
  - destruct H as (_ & _ & _ & x & Hx & Hc). by rewrite Hfree in Hc.
  - destruct H as (_ & _ & [?|Hroom]); [done|]. pose proof (pages_bound m Hm). exfalso.
    change (GM_PAGE_SIZE / GM_PAGE_SIZE) with 1 in Hroom. change (UINT64_MAX / sizeof_GMPage) with 768614336404564650 in Hroom. lia.
Qed.

Lemma program_bytes_lookup program k w j :
  program !! k = Some w -> (j < 4)%nat -> program_bytes program !! (4 * k + j)%nat = le_bytes 4 w !! j.
Proof.
  revert k. induction program as [|v program IH]; intros k Hk Hj; [done|]. unfold program_bytes. rewrite fmap_cons. cbn [concat].
  destruct k as [|k].
  - injection Hk as ->. rewrite lookup_app_l by (rewrite length_le_bytes; lia). done.
  - rewrite lookup_app_r by (rewrite length_le_bytes; lia). rewrite length_le_bytes.
    replace (4 * S k + j - 4)%nat with (4 * k + j)%nat by lia. by apply IH.
Qed.
Lemma length_program_bytes program : length (program_bytes program) = (4 * length program)%nat.
Proof. unfold program_bytes. induction program as [|w program IH]; [done|]. rewrite fmap_cons. cbn [concat length]. rewrite length_app, length_le_bytes, IH. lia. Qed.
Lemma program_bytes_ok program : Forall byte_ok (program_bytes program).
Proof. unfold program_bytes. induction program; [constructor|]. rewrite fmap_cons. cbn [concat]. apply Forall_app_2; [apply le_bytes_ok|done]. Qed.

(** The bytes of a program that are copied into executable memory can be fetched. *)
Lemma populate_program alloc m program :
  (forall k, alloc k = true) -> memory_wf m -> program <> [] -> Forall (fun w => 0 <= w < 2 ^ 32) program -> (length program <= 4096)%nat ->
  (forall x, base <= x < base + GM_PAGE_SIZE -> cell_check (cell m x) (Some (mkGMThread true)) GM_EXEC = GM_OK) ->
  exists m', gm_populate alloc m base (Some (program_bytes program)) (Z.of_nat (length (program_bytes program))) = (GM_OK, m') /\
    memory_wf m' /\ stored m m' base (program_bytes program) /\ holds_program m' program.
Proof.
  intros Halloc Hm Hne Hwords Hlen Hexec. unfold gm_populate.
  pose proof (copy_spec alloc m None base (Some (program_bytes program)) (Z.of_nat (length (program_bytes program))) 0 true Hm
    ltac:(done) ltac:(lia) (buffer_ok_Some _ (program_bytes_ok program))) as Hc.
  destruct (copy _ _ _ _ _ _ _ _) as [[r m'] b']. destruct Hc as [Hwf Hres]. cbn [fst].
  pose proof (length_program_bytes program) as Hbytes. assert (length program <> 0)%nat by (by destruct program).
  assert (access_ok m None base (Z.of_nat (length (program_bytes program))) 0) as Hok.
  { apply mapped_access_ok; [unfold base, UINT64_MAX; lia|]. intros x Hx Hcell.
    specialize (Hexec x ltac:(unfold GM_PAGE_SIZE; lia)). by rewrite Hcell in Hexec. }
  assert (r = GM_OK) as ->.
  { destruct r; [done|..]; destruct Hres as (_ & _ & _ & [He|(_ & _ & _ & [[_ ?]|(_ & _ & j & Hj)])]);
      first [by destruct (access_error_not_ok _ _ _ _ _ _ _ He)|done|by rewrite Halloc in Hj]. }
  destruct Hres as (_ & _ & Hst). rewrite decide_False in Hst by lia. destruct Hst as (b & [= <-] & _ & Hst & _).
  exists m'. split; [done|]. split; [done|]. split; [done|]. intros k w Hk.
  assert (0 <= w < 2 ^ 32) as Hw by (rewrite Forall_lookup in Hwords; by eapply Hwords). pose proof (lookup_lt_Some _ _ _ Hk) as Hlt.
  split; [|split].
  - unfold pc_at, base. change 3 with (Z.ones 2). rewrite Z.land_ones by lia.
    replace (4294967296 + 4 * Z.of_nat k) with ((1073741824 + Z.of_nat k) * 2 ^ 2) by lia. by apply Z.mod_mul.
  - split; [unfold pc_at, base, UINT64_MAX; lia|]. intros x Hx. rewrite (stored_check _ _ _ _ _ _ _ Hst). apply Hexec.
    unfold pc_at, base, GM_PAGE_SIZE in *. lia.
  - exists (le_bytes 4 w). rewrite le_value_le_bytes, Z.mod_small by exact Hw. split; [|done]. split; [done|].
    intros j Hj. rewrite length_le_bytes in Hj. rewrite <- (program_bytes_lookup program k w j Hk Hj), Hst.
    rewrite decide_True by (unfold pc_at, base in *; lia).
    specialize (Hexec (pc_at k + Z.of_nat j) ltac:(unfold pc_at, base, GM_PAGE_SIZE in *; lia)).
    destruct (cell m (pc_at k + Z.of_nat j)) as [c|]; [|done]. cbn [fmap option_fmap option_map cell_with_byte c_byte].
    replace (Z.to_nat (pc_at k + Z.of_nat j - base)) with (4 * k + j)%nat by (unfold pc_at, base; lia).
    rewrite (program_bytes_lookup program k w j Hk Hj). destruct (lookup_lt_is_Some_2 (le_bytes 4 w) j) as [v ->]; [by rewrite length_le_bytes|reflexivity].
Qed.
Lemma same_fault_cells m m' : set_fault m' 0 = set_fault m 0 -> same_cells m m'.
Proof. intros E x. rewrite <- (cell_fault m' 0 x), E. apply cell_fault. Qed.
Lemma same_fault_program m m' program : set_fault m' 0 = set_fault m 0 -> holds_program m program -> holds_program m' program.
Proof. intros E H k w Hk. apply (fetches_same_cells m); [by apply same_fault_cells|by apply H]. Qed.

(** A memory of one page of code, which holds a program and nothing else. *)
Record code_memory (m : GuestMemory) (program : list Z) : Prop := {
  cm_wf : memory_wf m;
  cm_program : holds_program m program;
  cm_exec x : base <= x < base + GM_PAGE_SIZE -> cell_check (cell m x) (Some (mkGMThread true)) GM_EXEC = GM_OK;
  cm_other x : ~ base <= x < base + GM_PAGE_SIZE -> cell m x = None
}.
Lemma same_fault_code m m' program : memory_wf m' -> set_fault m' 0 = set_fault m 0 -> code_memory m program -> code_memory m' program.
Proof.
  intros Hwf E []. pose proof (same_fault_cells m m' E) as Hc. split; [done|by eapply same_fault_program|..]; intros x Hx; rewrite Hc; auto.
Qed.
Lemma first_memory alloc :
  (forall k, alloc k = true) ->
  exists m m', gm_map true gm_empty base GM_PAGE_SIZE (Z.lor GM_READ GM_EXEC) 7 false false = (GM_OK, m) /\
    gm_populate alloc m base (Some (program_bytes probe_program)) (Z.of_nat (length (program_bytes probe_program))) = (GM_OK, m') /\
    code_memory m' probe_program.
Proof.
  intros Halloc.
  destruct (map_page gm_empty base (Z.lor GM_READ GM_EXEC) 7 memory_wf_empty ltac:(done)) as (m & Emap & Hm & Hcells); [done|done|].
  assert (forall x, base <= x < base + GM_PAGE_SIZE -> cell_check (cell m x) (Some (mkGMThread true)) GM_EXEC = GM_OK) as Hexec
    by (intros x Hx; by rewrite Hcells, decide_True).
  destruct (populate_program alloc m probe_program Halloc Hm) as (m' & Epop & Hm' & Hst & Hp);
    [done|by repeat constructor|cbn; lia|done|].
  exists m, m'. split; [done|]. split; [done|]. split; [done|done|..]; intros x Hx.
  - rewrite (stored_check _ _ _ _ _ _ _ Hst). by apply Hexec.
  - rewrite Hst, decide_False by (rewrite length_program_bytes; cbn; unfold base, GM_PAGE_SIZE in *; lia).
    by rewrite Hcells, decide_False.
Qed.
(** The second program over the first, with a slot to store in. *)
Lemma second_memory alloc m :
  (forall k, alloc k = true) -> code_memory m probe_program ->
  exists m1 m2, gm_map true m slot GM_PAGE_SIZE 3 3 false false = (GM_OK, m1) /\
    gm_populate alloc m1 base (Some (program_bytes probe_memory_program)) (Z.of_nat (length (program_bytes probe_memory_program))) = (GM_OK, m2) /\
    memory_wf m2 /\ slot_ready (set_fault m2 0) /\ slot_holds m2 0.
Proof.
  intros Halloc [Hm _ Hexec Hother].
  destruct (map_page m slot 3 3 Hm ltac:(done)) as (m1 & Emap & Hm1 & Hcells);
    [done|intros x Hx; apply Hother; unfold slot, base, GM_PAGE_SIZE in *; lia|].
  assert (forall x, base <= x < base + GM_PAGE_SIZE -> cell_check (cell m1 x) (Some (mkGMThread true)) GM_EXEC = GM_OK) as Hexec1
    by (intros x Hx; rewrite Hcells, decide_False by (unfold slot, base, GM_PAGE_SIZE in *; lia); by apply Hexec).
  destruct (populate_program alloc m1 probe_memory_program Halloc Hm1) as (m2 & Epop & Hm2 & Hst & Hp);
    [done|by repeat constructor|cbn; lia|done|].
  assert (forall x, slot <= x < slot + 8 -> cell m2 x = Some (mkCell 0 3 3 false)) as Hslot.
  { intros x Hx. rewrite Hst, decide_False by (unfold slot, base in *; lia). rewrite Hcells, decide_True by (unfold slot, GM_PAGE_SIZE in *; lia). done. }
  exists m1, m2. do 3 (split; [done|]). split.
  - split; [split; [by apply memory_wf_fault|done|by apply holds_program_fault]|split; [done|]..|];
      [intros x Hx; by rewrite cell_fault, Hslot..|]. intros (x & Hx & He). by rewrite cell_fault, Hslot in He.
  - split; [done|]. intros i Hi. rewrite length_le_bytes in Hi. rewrite Hslot by (unfold slot; lia). cbn [fmap option_fmap option_map c_byte].
    do 8 (destruct i as [|i]; [done|]). lia.
Qed.

Lemma differential_agrees native alloc turns n m :
  code_memory m probe_program -> 0 <= n -> n + Z.of_nat turns <= 2 ^ 32 ->
  let '(agree, m') := differential native alloc turns n m in
  code_memory m' probe_program /\
  (agree = true <-> forall i, n <= i < n + Z.of_nat turns -> native i (w64 (UINT64_MAX - i)) = reference i (w64 (UINT64_MAX - i))).
Proof.
  revert n m. induction turns as [|turns IH]; intros n m Hm Hn Hle; cbn [differential]; [split; [done|]; split; [lia|done]|].
  pose proof (probe_program_run alloc m n (w64 (UINT64_MAX - n)) (cm_wf _ _ Hm) (cm_program _ _ Hm) ltac:(unfold u64_ok; lia) (w64_range _)) as Hrun.
  destruct (gc_run _ _ _ _ _) as [[result c] m1]. destruct Hrun as (-> & -> & _ & Hwf & Hsame).
  apply (same_fault_code m m1) in Hm; [|done|done]. rewrite bool_decide_true, Z.eqb_refl by done. cbn [negb orb].
  destruct (Z.eqb_spec (native n (w64 (UINT64_MAX - n))) (reference n (w64 (UINT64_MAX - n)))) as [Heq|Hne]; cbn [negb].
  - specialize (IH (n + 1) m1 Hm ltac:(lia) ltac:(lia)). destruct (differential _ _ _ _ _) as [agree m']. destruct IH as [Hm' IH].
    split; [done|]. rewrite IH. split; intros Hall i Hi; [destruct (decide (i = n)) as [->|]; [done|]|]; apply Hall; lia.
  - split; [done|]. split; [done|]. intros Hall. destruct Hne. apply Hall. lia.
Qed.
(** C19: the interpreter runs both programs of the probe as the C reference says, for
    every number of iterations, and within the budget the probe allows: the
    probe passes exactly when the processor computes the reference too, whose
    second loop adds one in each turn and leaves in its slot the value before
    the last addition. *)
Theorem guest_cpu_probe_spec native native_memory alloc iterations :
  (forall k, alloc k = true) -> 0 <= iterations < 2 ^ 32 ->
  guest_cpu_probe native native_memory alloc true true true iterations = true <->
  (forall n, 0 <= n < 100 -> native n (w64 (UINT64_MAX - n)) = reference n (w64 (UINT64_MAX - n))) /\
  native iterations 42 = reference iterations 42 /\
  native_memory iterations 42 0 = (w64 (42 + iterations), last_stored iterations 42).
Proof.
  intros Halloc Hit. destruct (first_memory alloc Halloc) as (m & m1 & Emap & Epop & Hm1). unfold guest_cpu_probe. cbv zeta.
  replace (GM_PAGE_SIZE <? Z.of_nat (length (program_bytes probe_program))) with false by reflexivity.
  rewrite Emap. change (bool_decide (GM_OK = GM_OK)) with true. cbn [negb]. rewrite Epop. change (bool_decide (GM_OK = GM_OK)) with true. cbn [negb].
  pose proof (differential_agrees native alloc 100 0 m1 Hm1 ltac:(done) ltac:(done)) as Hdiff.
  destruct (differential _ _ _ _ _) as [agree m2]. destruct Hdiff as [Hm2 Hagree]. rewrite <- Hagree.
  destruct agree; cbn [negb]; [|split; [done|by intros []]].
  pose proof (probe_program_run alloc m2 iterations 42 (cm_wf _ _ Hm2) (cm_program _ _ Hm2) ltac:(unfold u64_ok; lia) ltac:(done)) as Hrun.
  rewrite (Z.mul_comm iterations 4). destruct (gc_run _ _ _ _ _) as [[result c] m3]. destruct Hrun as (-> & -> & _ & Hwf3 & Hsame).
  apply (same_fault_code m2 m3) in Hm2; [|done|done]. rewrite bool_decide_true by done. cbn [andb]. rewrite Z.eqb_sym.
  destruct (Z.eqb_spec (native iterations 42) (reference iterations 42)) as [Heq|]; cbn [negb]; [|split; [done|tauto]].
  replace (GM_PAGE_SIZE <? Z.of_nat (length (program_bytes probe_memory_program))) with false by reflexivity.
  destruct (second_memory alloc m3 Halloc Hm2) as (m4 & m5 & Emap2 & Epop2 & Hwf5 & Hready & H0).
  rewrite Emap2. change (bool_decide (GM_OK = GM_OK)) with true. cbn [negb]. rewrite Epop2. change (bool_decide (GM_OK = GM_OK)) with true. cbn [negb].
  pose proof (memory_program_run alloc m5 iterations 42 Halloc Hwf5 Hready H0 ltac:(unfold u64_ok; lia) ltac:(done)) as Hrun2.
  rewrite (Z.mul_comm iterations 5). destruct (gc_run _ _ _ _ _) as [[result2 c2] m6]. destruct Hrun2 as (-> & -> & _ & m7 & Eread).
  destruct (native_memory iterations 42 0) as [expected stored_]. rewrite Eread, bool_decide_true by done. cbn [andb default from_option id].
  rewrite le_value_le_bytes, Z.mod_small
    by (unfold last_stored; destruct (iterations =? 0); [done|]; apply w64_range).
  destruct (Z.eqb_spec (w64 (42 + iterations)) expected) as [<-|Hne]; cbn [andb negb].
  - rewrite Z.eqb_refl. change (bool_decide (GM_OK = GM_OK)) with true. cbn [negb andb]. rewrite Z.eqb_eq. split; [intros <-; auto|]. by intros (_ & _ & [= <-]).
  - split; [done|]. intros (_ & _ & [= E _]). congruence.
Qed.

(** The memory probe fails exactly where memory cannot be had: every protection
    it tests is enforced. *)
Theorem guest_memory_probe_spec backing pages pages_again :
  guest_memory_probe backing pages pages_again =
  if negb pages then Some 0 else if negb backing then Some 2 else if negb pages_again then Some 7 else None.
Proof. destruct pages, backing, pages_again; vm_compute; reflexivity. Qed.

(** ** A processor that is right *)

Definition right_processor (n seed _ : Z) : Z * Z := (w64 (seed + n), last_stored n seed).
Lemma guest_cpu_probe_spec_witness :
  guest_cpu_probe reference right_processor (fun _ => true) true true true 1000000 = true.
Proof.
  apply (guest_cpu_probe_spec reference right_processor (fun _ => true) 1000000); [reflexivity|lia|].
  split; [reflexivity|]. split; reflexivity.
Defined.
