(* ===== verification/GuestImage.v ===== *)
(** * GuestImage: the Mach-O loader (runtime/GuestImage.c)

    The loader reads a thin or universal executable and builds the image: its
    segments, the tables of its load commands and a guest memory that holds the
    segments' bytes. A failed test returns [None]; the error text is left out.

    The file behind [FILE *] is the list of its bytes. The structures of
    <mach-o/loader.h> are their bytes, read by offset. *)
From S2P Require Import Prelude GuestMemory.

(** ** Data (GuestImage.h) *)

Definition GI_MAX_SEGMENTS : Z := 64.
Definition GI_MAX_DYLIBS : Z := 128.
Definition GI_MAX_RPATHS : Z := 32.
(** Names and paths are C strings: the bytes before the terminator. *)
Record GISegment := mkSegment {
  sg_name : list Z;
  sg_address : Z; sg_size : Z; sg_file_offset : Z; sg_file_size : Z;
  sg_prot : Z; sg_maxprot : Z
}.
(** The offset and size fields of the dyld info command. *)
Record DyldInfo := mkDyldInfo {
  di_rebase_offset : Z; di_rebase_size : Z; di_bind_offset : Z; di_bind_size : Z;
  di_weak_bind_offset : Z; di_weak_bind_size : Z; di_lazy_bind_offset : Z; di_lazy_bind_size : Z
}.
(** The thread-local storage fields. *)
Record ImageTLS := mkTLS {
  tls_address : Z; tls_size : Z; tls_alignment : Z;
  tls_descriptors : Z; tls_descriptors_size : Z; tls_initializer_count : Z; has_tls : bool
}.
Record Unwind := mkUnwind {
  unwind_address : Z; unwind_size : Z; eh_frame_address : Z; eh_frame_size : Z
}.
(** [gi_dylibs] pairs each name with its [dylib_reexports] flag; the counts of
    the C are the lengths of the lists. [gi_chained] is the payload's offset and
    size when the image has chained fixups. *)
Record GuestImage := mkImage {
  gi_memory : GuestMemory;
  gi_segments : list GISegment;
  gi_slice_offset : Z; gi_slice_size : Z;
  gi_entry : Z; gi_first_initializer : Z; gi_initializer_count : Z;
  gi_mapped_size : Z; gi_file_backed_size : Z;
  gi_dyld : DyldInfo;
  gi_file_type : Z;
  gi_exports : option (list Z);
  gi_chained : option (Z * Z);
  gi_header_address : Z; gi_initializer_address : Z;
  gi_unwind : Unwind;
  gi_tls : ImageTLS;
  gi_dylibs : list (list Z * bool);
  gi_rpaths : list (list Z);
  gi_initializer_offsets : bool;
  gi_weak_defines : bool;
  gi_initializers : list Z
}.
Definition no_dyld : DyldInfo := mkDyldInfo 0 0 0 0 0 0 0 0.
Definition no_tls : ImageTLS := mkTLS 0 0 0 0 0 0 false.
Definition no_unwind : Unwind := mkUnwind 0 0 0 0.
Definition gi_empty : GuestImage :=
  mkImage gm_empty [] 0 0 0 0 0 0 0 no_dyld 0 None None 0 0 no_unwind no_tls [] [] false false [].
Definition gi_destroy (image : GuestImage) : GuestImage := gi_empty.

(** ** Reading the file *)

Definition INT64_MAX : Z := 2 ^ 63 - 1.
Definition within (offset size total : Z) : bool := (offset <=? total) && (size <=? total - offset).
Definition be32 (p : list Z) (i : nat) : Z :=
  let b k := default 0 (p !! (i + k)%nat) in
  Z.lor (Z.lor (Z.lor (Z.shiftl (b 0%nat) 24) (Z.shiftl (b 1%nat) 16)) (Z.shiftl (b 2%nat) 8)) (b 3%nat).
Definition be64 (p : list Z) (i : nat) : Z := Z.lor (Z.shiftl (be32 p i) 32) (be32 p (i + 4)).
(** Fields of the file's little-endian structures. *)
Definition le32 (p : list Z) (i : nat) : Z := le_value (slice i 4 p).
Definition le64 (p : list Z) (i : nat) : Z := le_value (slice i 8 p).
Definition read_at (f : list Z) (offset size : Z) : option (list Z) :=
  if (offset <=? INT64_MAX) && ((size =? 0) || (offset + size <=? Z.of_nat (length f)))
  then Some (slice (Z.to_nat offset) (Z.to_nat size) f) else None.
Fixpoint c_string (bytes : list Z) : list Z :=
  match bytes with
  | [] => []
  | b :: bytes => if b =? 0 then [] else b :: c_string bytes
  end.
(** [memchr(bytes, 0, length)] finds a terminator. *)
Definition terminated (bytes : list Z) : bool := (length (c_string bytes) <? length bytes)%nat.
Definition named (field literal : list Z) : bool := bool_decide (c_string field = literal).
Definition str_TEXT : list Z := [95; 95; 84; 69; 88; 84].
Definition str_PAGEZERO : list Z := [95; 95; 80; 65; 71; 69; 90; 69; 82; 79].
Definition str_unwind_info : list Z := [95; 95; 117; 110; 119; 105; 110; 100; 95; 105; 110; 102; 111].
Definition str_eh_frame : list Z := [95; 95; 101; 104; 95; 102; 114; 97; 109; 101].

(** ** The slice of a universal file *)

Definition CPU_TYPE_ARM64 : Z := 0x0100000c.
Definition CPU_SUBTYPE_ARM64_ALL : Z := 0.
Fixpoint fat_loop (n : nat) (f : list Z) (i count record_size file_size : Z) (found : option (Z * Z))
    : option (option (Z * Z)) :=
  match n with
  | O => Some found
  | S n =>
    arch ← read_at f (8 + i * record_size) record_size;
    if negb (be32 arch 0 =? CPU_TYPE_ARM64) ||
       negb (Z.land (be32 arch 4) 0xffffff =? CPU_SUBTYPE_ARM64_ALL)
    then fat_loop n f (i + 1) count record_size file_size found else
    bad bool_decide (is_Some found);
    let slice := if record_size =? 32 then be64 arch 8 else be32 arch 8 in
    let slice_size := if record_size =? 32 then be64 arch 16 else be32 arch 12 in
    let alignment := be32 arch (if record_size =? 32 then 24 else 16) in
    bad (63 <=? alignment) || negb (Z.land slice (Z.shiftl 1 alignment - 1) =? 0) ||
        (slice <? 8 + count * record_size) || negb (within slice slice_size file_size);
    fat_loop n f (i + 1) count record_size file_size (Some (slice, slice_size))
  end.
Definition find_slice (f : list Z) : option (Z * Z) :=
  let file_size := Z.of_nat (length f) in
  bad file_size <? 32;
  head ← read_at f 0 8;
  let magic := be32 head 0 in
  if (magic =? 0xcafebabe) || (magic =? 0xcafebabf) then
    let count := be32 head 4 in
    let record_size := if magic =? 0xcafebabf then 32 else 20 in
    bad (count =? 0) || (128 <? count) || negb (within 8 (count * record_size) file_size);
    found ← fat_loop (Z.to_nat count) f 0 count record_size file_size None;
    found
  else Some (0, file_size).

Definition MH_EXECUTE : Z := 2.
Definition MH_DYLIB : Z := 6.
Definition MH_WEAK_DEFINES : Z := 0x8000.
Definition read_header (f : list Z) (slice slice_size file_type : Z) : option (list Z) :=
  bad slice_size <? 32;
  mh ← read_at f slice 32;
  bad negb (le32 mh 0 =? 0xfeedfacf) || negb (le32 mh 4 =? CPU_TYPE_ARM64) ||
      negb (Z.land (le32 mh 8) 0xffffff =? CPU_SUBTYPE_ARM64_ALL) || negb (le32 mh 12 =? file_type);
  bad (le32 mh 16 =? 0) || (65536 <? le32 mh 16) || (16 * 1024 * 1024 <? le32 mh 20) ||
      negb (within 32 (le32 mh 20) slice_size);
  Some mh.

(** ** Load commands *)

(** The image under construction and the locals of the command loop: [None]
    in an option is a [have_] flag that is still false. *)
Record Commands := mkCommands {
  cm_segments : list GISegment;
  cm_entry : option Z;
  cm_init : option (bool * Z * Z);
  cm_text : option Z;
  cm_exports : option (Z * Z);
  cm_dyld : DyldInfo;
  cm_chained : option (Z * Z);
  cm_unwind : Unwind;
  cm_tls : ImageTLS;
  cm_dylibs : list (list Z * bool);
  cm_rpaths : list (list Z)
}.
Definition no_commands : Commands :=
  mkCommands [] None None None None no_dyld None no_unwind no_tls [] [].
Definition set_segments (c : Commands) v := mkCommands v (cm_entry c) (cm_init c) (cm_text c) (cm_exports c) (cm_dyld c) (cm_chained c) (cm_unwind c) (cm_tls c) (cm_dylibs c) (cm_rpaths c).
Definition set_entry (c : Commands) v := mkCommands (cm_segments c) v (cm_init c) (cm_text c) (cm_exports c) (cm_dyld c) (cm_chained c) (cm_unwind c) (cm_tls c) (cm_dylibs c) (cm_rpaths c).
Definition set_init (c : Commands) v := mkCommands (cm_segments c) (cm_entry c) v (cm_text c) (cm_exports c) (cm_dyld c) (cm_chained c) (cm_unwind c) (cm_tls c) (cm_dylibs c) (cm_rpaths c).
Definition set_text (c : Commands) v := mkCommands (cm_segments c) (cm_entry c) (cm_init c) v (cm_exports c) (cm_dyld c) (cm_chained c) (cm_unwind c) (cm_tls c) (cm_dylibs c) (cm_rpaths c).
Definition set_exports (c : Commands) v := mkCommands (cm_segments c) (cm_entry c) (cm_init c) (cm_text c) v (cm_dyld c) (cm_chained c) (cm_unwind c) (cm_tls c) (cm_dylibs c) (cm_rpaths c).
Definition set_dyld (c : Commands) v := mkCommands (cm_segments c) (cm_entry c) (cm_init c) (cm_text c) (cm_exports c) v (cm_chained c) (cm_unwind c) (cm_tls c) (cm_dylibs c) (cm_rpaths c).
Definition set_chained (c : Commands) v := mkCommands (cm_segments c) (cm_entry c) (cm_init c) (cm_text c) (cm_exports c) (cm_dyld c) v (cm_unwind c) (cm_tls c) (cm_dylibs c) (cm_rpaths c).
Definition set_unwind (c : Commands) v := mkCommands (cm_segments c) (cm_entry c) (cm_init c) (cm_text c) (cm_exports c) (cm_dyld c) (cm_chained c) v (cm_tls c) (cm_dylibs c) (cm_rpaths c).
Definition set_tls (c : Commands) v := mkCommands (cm_segments c) (cm_entry c) (cm_init c) (cm_text c) (cm_exports c) (cm_dyld c) (cm_chained c) (cm_unwind c) v (cm_dylibs c) (cm_rpaths c).
Definition set_dylibs (c : Commands) v := mkCommands (cm_segments c) (cm_entry c) (cm_init c) (cm_text c) (cm_exports c) (cm_dyld c) (cm_chained c) (cm_unwind c) (cm_tls c) v (cm_rpaths c).
Definition set_rpaths (c : Commands) v := mkCommands (cm_segments c) (cm_entry c) (cm_init c) (cm_text c) (cm_exports c) (cm_dyld c) (cm_chained c) (cm_unwind c) (cm_tls c) (cm_dylibs c) v.

Definition S_REGULAR : Z := 0.
Definition S_ZEROFILL : Z := 1.
Definition S_MOD_INIT_FUNC_POINTERS : Z := 9.
Definition S_COALESCED : Z := 0xb.
Definition S_GB_ZEROFILL : Z := 0xc.
Definition S_THREAD_LOCAL_REGULAR : Z := 0x11.
Definition S_THREAD_LOCAL_ZEROFILL : Z := 0x12.
Definition S_THREAD_LOCAL_VARIABLES : Z := 0x13.
Definition S_THREAD_LOCAL_INIT_FUNCTION_POINTERS : Z := 0x15.
Definition S_INIT_FUNC_OFFSETS : Z := 0x16.

(** The fields of a [section_64] the loader uses. *)
Definition sc_type (b : list Z) : Z := Z.land (le32 b 64) 0xff.
Definition sc_addr (b : list Z) : Z := le64 b 32.
Definition sc_size (b : list Z) : Z := le64 b 40.
Definition sc_offset (b : list Z) : Z := le32 b 48.

Definition section_init (b : list Z) (c : Commands) : option Commands :=
  if (sc_type b =? S_MOD_INIT_FUNC_POINTERS) || (sc_type b =? S_INIT_FUNC_OFFSETS) then
    let offsets := sc_type b =? S_INIT_FUNC_OFFSETS in
    bad bool_decide (is_Some (cm_init c)) || negb (sc_size b mod (if offsets then 4 else 8) =? 0);
    Some (set_init c (Some (offsets, sc_addr b, sc_size b)))
  else Some c.
Definition section_unwind (s b : list Z) (c : Commands) : option Commands :=
  let compact := named (slice 0 16 b) str_unwind_info in
  let dwarf := named (slice 0 16 b) str_eh_frame in
  if compact || dwarf then
    bad negb (named (slice 8 16 s) str_TEXT) || (Z.land (le32 s 60) GM_READ =? 0) ||
        (negb (sc_type b =? S_REGULAR) && negb (dwarf && (sc_type b =? S_COALESCED))) || (sc_size b =? 0);
    let u := cm_unwind c in
    if compact then
      bad negb (unwind_size u =? 0);
      Some (set_unwind c (mkUnwind (sc_addr b) (sc_size b) (eh_frame_address u) (eh_frame_size u)))
    else
      bad negb (eh_frame_size u =? 0);
      Some (set_unwind c (mkUnwind (unwind_address u) (unwind_size u) (sc_addr b) (sc_size b)))
  else Some c.
Definition section_tls_template (b : list Z) (c : Commands) : option Commands :=
  if (sc_type b =? S_THREAD_LOCAL_REGULAR) || (sc_type b =? S_THREAD_LOCAL_ZEROFILL) then
    bad 20 <? le32 b 52;
    let t := cm_tls c in
    let alignment := Z.shiftl 1 (le32 b 52) in
    let start := tls_address t in
    let stop := w64 (start + tls_size t) in
    let start := if (tls_size t =? 0) || (sc_addr b <? start) then sc_addr b else start in
    let stop := if stop <? w64 (sc_addr b + sc_size b) then w64 (sc_addr b + sc_size b) else stop in
    bad 16 * 1024 * 1024 <? w64 (stop - start);
    Some (set_tls c (mkTLS start (w64 (stop - start)) (Z.max alignment (tls_alignment t))
      (tls_descriptors t) (tls_descriptors_size t) (tls_initializer_count t) (has_tls t)))
  else Some c.
Definition section_tls (b : list Z) (c : Commands) : option Commands :=
  c ← section_tls_template b c;
  let t := cm_tls c in
  let type := sc_type b in
  bad (type =? S_THREAD_LOCAL_VARIABLES) &&
      (negb (tls_descriptors_size t =? 0) || negb (sc_size b mod 24 =? 0));
  let descriptors := type =? S_THREAD_LOCAL_VARIABLES in
  Some (set_tls c (mkTLS (tls_address t) (tls_size t) (tls_alignment t)
    (if descriptors then sc_addr b else tls_descriptors t)
    (if descriptors then sc_size b else tls_descriptors_size t)
    (if type =? S_THREAD_LOCAL_INIT_FUNCTION_POINTERS
     then w64 (tls_initializer_count t + sc_size b / 8) else tls_initializer_count t)
    ((S_THREAD_LOCAL_REGULAR <=? type) && (type <=? S_THREAD_LOCAL_INIT_FUNCTION_POINTERS) || has_tls t))).
(** [s] is the segment command, [b] the section. *)
Definition load_section (slice_size : Z) (s b : list Z) (c : Commands) : option Commands :=
  let vmaddr := le64 s 24 in let vmsize := le64 s 32 in
  let fileoff := le64 s 40 in let filesize := le64 s 48 in
  bad (sc_addr b <? vmaddr) || negb (within (sc_addr b - vmaddr) (sc_size b) vmsize);
  let type := sc_type b in
  bad negb (type =? S_ZEROFILL) && negb (type =? S_GB_ZEROFILL) && negb (type =? S_THREAD_LOCAL_ZEROFILL) &&
      (negb (within (sc_offset b) (sc_size b) slice_size) || (sc_offset b <? fileoff) ||
       negb (within (sc_offset b - fileoff) (sc_size b) filesize) ||
       negb (sc_addr b - vmaddr =? sc_offset b - fileoff));
  c ← section_init b c;
  c ← section_unwind s b c;
  section_tls b c.
Fixpoint section_loop (n : nat) (f : list Z) (at_ slice_size : Z) (s : list Z) (c : Commands) : option Commands :=
  match n with
  | O => Some c
  | S n =>
    b ← read_at f at_ 80;
    c ← load_section slice_size s b c;
    section_loop n f (at_ + 80) slice_size s c
  end.

Definition segment_of (s : list Z) : GISegment :=
  mkSegment (c_string (slice 8 16 s)) (le64 s 24) (le64 s 32) (le64 s 40) (le64 s 48) (le32 s 60) (le32 s 56).
Definition load_segment (f : list Z) (at_ slice_size cmdsize commands_end : Z) (c : Commands) : option Commands :=
  bad cmdsize <? 72;
  s ← read_at f at_ 72;
  bad (cmdsize - 72) / 80 <? le32 s 64;
  bad Z.of_nat (length (cm_segments c)) =? GI_MAX_SEGMENTS;
  let sg := segment_of s in
  bad negb (within (sg_file_offset sg) (sg_file_size sg) slice_size) || (sg_size sg <? sg_file_size sg) ||
      (UINT64_MAX - sg_address sg <? sg_size sg) || negb (sg_address sg mod GM_PAGE_SIZE =? 0) ||
      negb (sg_size sg mod GM_PAGE_SIZE =? 0) || negb (none_outside (sg_maxprot sg) 7) ||
      negb (none_outside (sg_prot sg) (sg_maxprot sg));
  let c := set_segments c (cm_segments c ++ [sg]) in
  let text := named (slice 8 16 s) str_TEXT in
  bad text && (bool_decide (is_Some (cm_text c)) || negb (sg_file_offset sg =? 0) ||
               (sg_file_size sg <? commands_end) || (Z.land (sg_prot sg) GM_EXEC =? 0));
  let c := if text then set_text c (Some (sg_address sg)) else c in
  section_loop (Z.to_nat (le32 s 64)) f (at_ + 72) slice_size s c.

Definition LC_SEGMENT_64 : Z := 0x19.
Definition LC_LOAD_DYLIB : Z := 0xc.
Definition LC_LOAD_WEAK_DYLIB : Z := 0x80000018.
Definition LC_REEXPORT_DYLIB : Z := 0x8000001f.
Definition LC_LOAD_UPWARD_DYLIB : Z := 0x80000023.
Definition LC_RPATH : Z := 0x8000001c.
Definition LC_MAIN : Z := 0x80000028.
Definition LC_DYLD_INFO : Z := 0x22.
Definition LC_DYLD_INFO_ONLY : Z := 0x80000022.
Definition LC_DYLD_EXPORTS_TRIE : Z := 0x80000033.
Definition LC_DYLD_CHAINED_FIXUPS : Z := 0x80000034.
Definition LC_ENCRYPTION_INFO_64 : Z := 0x2c.

(** Where the loader allocates; whether each allocation succeeds is a parameter. *)
Inductive Site :=
| SiteName (file_offset : Z)
| SiteExports
| SitePages (address : Z)
| SiteBacking (address : Z)
| SiteInitializers.

Section load.
Context (ok : Site -> bool).

(** The string at [offset] of the command at [at_], up to the command's end. *)
Definition command_string (f : list Z) (at_ offset cmdsize : Z) : option (list Z) :=
  bad negb (ok (SiteName (at_ + offset)));
  name ← read_at f (at_ + offset) (cmdsize - offset);
  bad negb (terminated name);
  Some (c_string name).
Definition load_dylib (f : list Z) (at_ cmd cmdsize : Z) (c : Commands) : option Commands :=
  bad (Z.of_nat (length (cm_dylibs c)) =? GI_MAX_DYLIBS) || (cmdsize <? 24);
  d ← read_at f at_ 24;
  bad (le32 d 8 <? 24) || (cmdsize <=? le32 d 8);
  name ← command_string f at_ (le32 d 8) cmdsize;
  Some (set_dylibs c (cm_dylibs c ++ [(name, cmd =? LC_REEXPORT_DYLIB)])).
Definition load_rpath (f : list Z) (at_ cmdsize : Z) (c : Commands) : option Commands :=
  bad cmdsize <? 12;
  r ← read_at f at_ 12;
  bad (le32 r 8 <? 12) || (cmdsize <=? le32 r 8);
  bad Z.of_nat (length (cm_rpaths c)) =? GI_MAX_RPATHS;
  path ← command_string f at_ (le32 r 8) cmdsize;
  Some (set_rpaths c (cm_rpaths c ++ [path])).
Definition load_main (f : list Z) (at_ cmdsize : Z) (c : Commands) : option Commands :=
  bad bool_decide (is_Some (cm_entry c)) || (cmdsize <? 24);
  entry ← read_at f at_ 24;
  Some (set_entry c (Some (le64 entry 8))).
Definition load_dyld_info (f : list Z) (at_ cmdsize slice_size : Z) (c : Commands) : option Commands :=
  bad cmdsize <? 48;
  info ← read_at f at_ 48;
  bad existsb (fun i => negb (within (le32 info i) (le32 info (i + 4)) slice_size)) [8; 16; 24; 32; 40]%nat;
  let c := set_dyld c (mkDyldInfo (le32 info 8) (le32 info 12) (le32 info 16) (le32 info 20)
                         (le32 info 24) (le32 info 28) (le32 info 32) (le32 info 36)) in
  if negb (le32 info 44 =? 0) then
    bad bool_decide (is_Some (cm_exports c));
    Some (set_exports c (Some (le32 info 40, le32 info 44)))
  else Some c.
Definition load_exports_trie (f : list Z) (at_ cmdsize slice_size : Z) (c : Commands) : option Commands :=
  bad bool_decide (is_Some (cm_exports c)) || (cmdsize <? 16);
  info ← read_at f at_ 16;
  bad negb (within (le32 info 8) (le32 info 12) slice_size);
  Some (set_exports c (Some (le32 info 8, le32 info 12))).
Definition load_chained (f : list Z) (at_ cmdsize slice_size : Z) (c : Commands) : option Commands :=
  bad bool_decide (is_Some (cm_chained c)) || (cmdsize <? 16);
  info ← read_at f at_ 16;
  bad negb (within (le32 info 8) (le32 info 12) slice_size);
  Some (set_chained c (Some (le32 info 8, le32 info 12))).
Definition load_encryption (f : list Z) (at_ cmdsize : Z) (c : Commands) : option Commands :=
  bad cmdsize <? 24;
  encryption ← read_at f at_ 24;
  bad negb (le32 encryption 16 =? 0);
  Some c.
Definition load_command (f : list Z) (at_ slice_size cmd cmdsize commands_end : Z) (c : Commands)
    : option Commands :=
  if cmd =? LC_SEGMENT_64 then load_segment f at_ slice_size cmdsize commands_end c else
  if (cmd =? LC_LOAD_DYLIB) || (cmd =? LC_LOAD_WEAK_DYLIB) || (cmd =? LC_REEXPORT_DYLIB) ||
     (cmd =? LC_LOAD_UPWARD_DYLIB) then load_dylib f at_ cmd cmdsize c else
  if cmd =? LC_RPATH then load_rpath f at_ cmdsize c else
  if cmd =? LC_MAIN then load_main f at_ cmdsize c else
  if (cmd =? LC_DYLD_INFO) || (cmd =? LC_DYLD_INFO_ONLY) then load_dyld_info f at_ cmdsize slice_size c else
  if cmd =? LC_DYLD_EXPORTS_TRIE then load_exports_trie f at_ cmdsize slice_size c else
  if cmd =? LC_DYLD_CHAINED_FIXUPS then load_chained f at_ cmdsize slice_size c else
  if cmd =? LC_ENCRYPTION_INFO_64 then load_encryption f at_ cmdsize c else Some c.
(** The cursor and the image after [n] more commands. *)
Fixpoint command_loop (n : nat) (f : list Z) (slice slice_size commands_end cursor : Z) (c : Commands)
    : option (Z * Commands) :=
  match n with
  | O => Some (cursor, c)
  | S n =>
    bad negb (within cursor 8 commands_end);
    lc ← read_at f (slice + cursor) 8;
    let cmdsize := le32 lc 4 in
    bad (cmdsize <? 8) || negb (Z.land cmdsize 7 =? 0) || negb (within cursor cmdsize commands_end);
    c ← load_command f (slice + cursor) slice_size (le32 lc 0) cmdsize commands_end c;
    command_loop n f slice slice_size commands_end (cursor + cmdsize) c
  end.
Definition load_commands (f : list Z) (slice slice_size file_type : Z) (mh : list Z) : option Commands :=
  let commands_end := 32 + le32 mh 20 in
  '(cursor, c) ← command_loop (Z.to_nat (le32 mh 16)) f slice slice_size commands_end 32 no_commands;
  bad negb (cursor =? commands_end) || bool_decide (cm_text c = None) ||
      ((file_type =? MH_EXECUTE) && bool_decide (cm_entry c = None)) ||
      ((file_type =? MH_DYLIB) && bool_decide (is_Some (cm_entry c)));
  Some c.

(** ** Mapping the segments *)

Definition load_exports (f : list Z) (slice : Z) (c : Commands) : option (option (list Z)) :=
  let '(offset, size) := default (0, 0) (cm_exports c) in
  if size =? 0 then Some None else
  bad 32 * 1024 * 1024 <? size;
  bad negb (ok SiteExports);
  exports ← read_at f (slice + offset) size;
  Some (Some exports).
Definition overlap (s p : GISegment) : bool :=
  negb (sg_size s =? 0) && negb (sg_size p =? 0) &&
  (sg_address s <? sg_address p + sg_size p) && (sg_address p <? sg_address s + sg_size s).
Definition pagezero (s : GISegment) : bool := bool_decide (sg_name s = str_PAGEZERO).

(** The copy of a segment's file bytes in blocks of the 64 KiB buffer. *)
Fixpoint copy_segment (fuel : nat) (f : list Z) (slice : Z) (s : GISegment) (off : Z) (m : GuestMemory)
    : option GuestMemory :=
  match fuel with
  | O => Some m
  | S fuel =>
    if off <? sg_file_size s then
      let n := Z.min (sg_file_size s - off) 65536 in
      buffer ← read_at f (slice + sg_file_offset s + off) n;
      let '(r, m) := gm_populate (fun a => ok (SiteBacking a)) m (sg_address s + off) (Some buffer) n in
      bad negb (bool_decide (r = GM_OK));
      copy_segment fuel f slice s (off + n) m
    else Some m
  end.
Definition copy_fuel (n : Z) : nat := Z.to_nat (n / 65536 + 2).
Definition budget : Z := 2 * 1024 * 1024 * 1024.
(** The loop over the segments: [before] is the ones it has seen; the result is
    the memory and the two sizes. *)
Fixpoint map_loop (f : list Z) (slice file_type : Z) (before segments : list GISegment)
    (m : GuestMemory) (mapped backed : Z) : option (GuestMemory * Z * Z) :=
  match segments with
  | [] => Some (m, mapped, backed)
  | s :: segments =>
    bad existsb (overlap s) before;
    if pagezero s then
      bad negb (sg_address s =? 0) || negb (sg_size s =? 0x100000000) || negb (sg_file_size s =? 0) ||
          negb (sg_maxprot s =? 0);
      map_loop f slice file_type (before ++ [s]) segments m mapped backed
    else if sg_size s =? 0 then map_loop f slice file_type (before ++ [s]) segments m mapped backed
    else
      bad (file_type =? MH_EXECUTE) && (sg_address s <? 0x100000000) || (budget <? sg_size s) ||
          (budget - sg_size s <? mapped);
      let '(r, m) := gm_map (ok (SitePages (sg_address s))) m (sg_address s) (sg_size s)
                       (sg_prot s) (sg_maxprot s) false false in
      bad negb (bool_decide (r = GM_OK));
      m ← copy_segment (copy_fuel (sg_file_size s)) f slice s 0 m;
      map_loop f slice file_type (before ++ [s]) segments m (mapped + sg_size s) (backed + sg_file_size s)
  end.

(** ** The entry point and the initializers *)

Fixpoint find_entry (entry_offset : Z) (segments : list GISegment) : option Z :=
  match segments with
  | [] => None
  | s :: segments =>
    if negb (Z.land (sg_prot s) GM_EXEC =? 0) && (sg_file_offset s <=? entry_offset) &&
       within (entry_offset - sg_file_offset s) 4 (sg_file_size s)
    then Some (sg_address s + entry_offset - sg_file_offset s) else find_entry entry_offset segments
  end.
Definition load_entry (c : Commands) : option Z :=
  match cm_entry c with
  | None => Some 0
  | Some entry_offset =>
    entry ← find_entry entry_offset (cm_segments c);
    bad negb (Z.land entry 3 =? 0);
    Some entry
  end.
(** [gm_fetch] and [gm_read] leave the address they failed at in the memory. *)
Definition fetches (m : GuestMemory) (a : Z) : bool * GuestMemory :=
  let '(r, m, _) := gm_fetch (fun a => ok (SiteBacking a)) m None a (Some 0) in
  (bool_decide (r = GM_OK), m).
Definition reads (m : GuestMemory) (a n : Z) : option (list Z) * GuestMemory :=
  let '(r, m, b) := gm_read (fun a => ok (SiteBacking a)) m a (Some (replicate (Z.to_nat n) 0)) n in
  (if bool_decide (r = GM_OK) then b else None, m).
(** [n] more offsets of an S_INIT_FUNC_OFFSETS section. *)
Fixpoint initializer_loop (n : nat) (m : GuestMemory) (at_ header_address : Z)
    : option (list Z * GuestMemory) :=
  match n with
  | O => Some ([], m)
  | S n =>
    let '(offset, m) := reads m at_ 4 in
    bytes ← offset;
    let initializer := w64 (header_address + le_value bytes) in
    let '(executable, m) := fetches m initializer in
    bad negb executable;
    '(rest, m) ← initializer_loop n m (at_ + 4) header_address;
    Some (initializer :: rest, m)
  end.
(** The first initializer, the list and the memory. *)
Definition load_initializers (m : GuestMemory) (c : Commands) (header_address : Z)
    : option (Z * list Z * GuestMemory) :=
  let '(offsets, address, size) := default (false, 0, 0) (cm_init c) in
  if offsets then
    bad negb (ok SiteInitializers);
    '(initializers, m) ← initializer_loop (Z.to_nat (size / 4)) m address header_address;
    Some (default 0 (head initializers), initializers, m)
  else
    '(first, m) ← (if size =? 0 then Some (0, m) else
                   let '(b, m) := reads m address 8 in
                   bytes ← b;
                   Some (le_value bytes, m));
    if negb (first =? 0) && bool_decide (cm_chained c = None) then
      let '(executable, m) := fetches m first in
      bad negb executable;
      Some (first, [], m)
    else Some (first, [], m).

(** The header's bytes as the guest reads them. *)
Definition check_header (m : GuestMemory) (header_address : Z) (mh : list Z) : option GuestMemory :=
  let '(guest_header, m) := reads m header_address 32 in
  guest_header ← guest_header;
  bad negb (bool_decide (guest_header = mh));
  Some m.

(** ** The whole loader *)

Definition load (f : list Z) (file_type : Z) : option GuestImage :=
  '(slice, slice_size) ← find_slice f;
  mh ← read_header f slice slice_size file_type;
  c ← load_commands f slice slice_size file_type mh;
  exports ← load_exports f slice c;
  '(m, mapped, backed) ← map_loop f slice file_type [] (cm_segments c) gm_empty 0 0;
  entry ← load_entry c;
  let header_address := default 0 (cm_text c) in
  let '(offsets, init_address, init_size) := default (false, 0, 0) (cm_init c) in
  '(first, initializers, m) ← load_initializers m c header_address;
  m ← check_header m header_address mh;
  Some (mkImage m (cm_segments c) slice slice_size entry first (init_size / (if offsets then 4 else 8))
    mapped backed (cm_dyld c) (le32 mh 12) exports (cm_chained c) header_address init_address
    (cm_unwind c) (cm_tls c) (cm_dylibs c) (cm_rpaths c) offsets
    (negb (Z.land (le32 mh 24) MH_WEAK_DEFINES =? 0)) initializers).

(** [f] is the file at the path, [None] when it cannot be opened. *)
Definition load_path (f : option (list Z)) (image : GuestImage) (file_type : Z) : bool * GuestImage :=
  if negb (bool_decide (gm_pages (gi_memory image) = [])) || negb (bool_decide (gi_segments image = []))
  then (false, image) else
  match f with
  | None => (false, image)
  | Some f =>
    match load f file_type with
    | Some staged => (true, staged)
    | None => (false, image)
    end
  end.
Definition gi_load f image := load_path f image MH_EXECUTE.
Definition gi_load_library f image := load_path f image MH_DYLIB.
End load.

(** ** The placed image *)

(** The lowest and the highest address that get placed. *)
Fixpoint extent_loop (segments : list GISegment) (start stop : Z) : Z * Z :=
  match segments with
  | [] => (start, stop)
  | s :: segments =>
    if (sg_size s =? 0) || pagezero s then extent_loop segments start stop
    else extent_loop segments (Z.min start (sg_address s)) (Z.max stop (sg_address s + sg_size s))
  end.
(** The reach and the value stored through [low]. *)
Definition gi_extent (image : GuestImage) : Z * Z :=
  let '(start, stop) := extent_loop (gi_segments image) UINT64_MAX 0 in
  if stop <? start then (0, gi_header_address image)
  else (Z.land (w64 (stop - start + GM_PAGE_SIZE - 1)) (Z.lnot (GM_PAGE_SIZE - 1)), start).
(** [placed] reads a pointer of the placed image. *)
Definition gi_placed_initializer (placed : Z -> Z) (image : GuestImage) (slide index : Z) : Z :=
  if gi_initializer_count image <=? index then 0 else
  if gi_initializer_offsets image
  then w64 (default 0 (gi_initializers image !! Z.to_nat index) + slide)
  else placed (w64 (w64 (gi_initializer_address image + slide) + 8 * index)).

(** ** What the file says *)

Lemma read_at_Some f offset n b :
  0 <= offset -> 0 <= n -> read_at f offset n = Some b ->
  Z.of_nat (length b) = n /\ forall i, 0 <= i < n -> b !! Z.to_nat i = f !! Z.to_nat (offset + i).
Proof.
  intros Ho Hn. unfold read_at. destruct (_ && _) eqn:E; [|done]. intros [= <-].
  apply andb_true_iff in E as [_ E]. apply orb_true_iff in E.
  rewrite Z.eqb_eq, Z.leb_le in E. destruct (decide (n = 0)) as [->|Hnz].
  - split; [done|lia].
  - split; [rewrite length_slice by lia; lia|]. intros i Hi. rewrite lookup_slice by lia. f_equal. lia.
Qed.
Lemma read_at_bytes f offset n b : Forall byte_ok f -> read_at f offset n = Some b -> Forall byte_ok b.
Proof. intros Hf. unfold read_at. destruct (_ && _); [|done]. intros [= <-]. by apply Forall_slice. Qed.

Lemma le_slice_range p i n : Forall byte_ok p -> 0 <= le_value (slice i n p) < 2 ^ (8 * Z.of_nat n).
Proof.
  intros Hp. pose proof (le_value_range (slice i n p) ltac:(by apply Forall_slice)) as H.
  assert (2 ^ (8 * Z.of_nat (length (slice i n p))) <= 2 ^ (8 * Z.of_nat n)); [|lia].
  apply Z.pow_le_mono_r; [lia|]. unfold slice. rewrite length_take. lia.
Qed.
Lemma le32_range p i : Forall byte_ok p -> 0 <= le32 p i < 2 ^ 32.
Proof. apply (le_slice_range p i 4). Qed.
Lemma le64_range p i : Forall byte_ok p -> 0 <= le64 p i < 2 ^ 64.
Proof. apply (le_slice_range p i 8). Qed.

(** A segment the loader accepts, in a slice of [slice_size] bytes. *)
Record segment_ok (slice_size : Z) (s : GISegment) : Prop := {
  so_address : 0 <= sg_address s; so_size : 0 <= sg_size s; so_file_size : 0 <= sg_file_size s;
  so_file_offset : 0 <= sg_file_offset s;
  so_file : sg_file_offset s + sg_file_size s <= slice_size;
  so_fits : sg_file_size s <= sg_size s;
  so_end : sg_address s + sg_size s <= UINT64_MAX;
  so_aligned : sg_address s mod GM_PAGE_SIZE = 0 /\ sg_size s mod GM_PAGE_SIZE = 0;
  so_prot : none_outside (sg_prot s) (sg_maxprot s) = true;
  so_maxprot : none_outside (sg_maxprot s) 7 = true
}.
Lemma within_true offset size total :
  within offset size total = true -> 0 <= size -> offset + size <= total.
Proof. unfold within. intros [H1%Z.leb_le H2%Z.leb_le]%andb_true_iff. lia. Qed.

(** The commands other than a segment's leave the segments and the header
    address alone, and the initializer section stays at an address. *)
(** The numbers the other commands leave are unsigned. *)
Definition dyld_ok (d : DyldInfo) : Prop :=
  Forall (Z.le 0) [di_rebase_offset d; di_rebase_size d; di_bind_offset d; di_bind_size d;
                   di_weak_bind_offset d; di_weak_bind_size d; di_lazy_bind_offset d; di_lazy_bind_size d].
Record fields_wf (init : option (bool * Z * Z)) (dyld : DyldInfo) (chained : option (Z * Z)) : Prop := {
  fo_init : forall o a n, init = Some (o, a, n) -> 0 <= a /\ 0 <= n;
  fo_dyld : dyld_ok dyld;
  fo_chained : forall o n, chained = Some (o, n) -> 0 <= o /\ 0 <= n
}.
Definition fields_ok (c : Commands) : Prop := fields_wf (cm_init c) (cm_dyld c) (cm_chained c).
Definition same_layout (c c' : Commands) : Prop :=
  cm_segments c' = cm_segments c /\ cm_text c' = cm_text c /\ (fields_ok c -> fields_ok c').
Lemma same_layout_trans c1 c2 c3 : same_layout c1 c2 -> same_layout c2 c3 -> same_layout c1 c3.
Proof. intros (H1 & H2 & H3) (H4 & H5 & H6). split; [congruence|]. split; [congruence|auto]. Qed.
(** Runs through a failable computation to what it returned. *)
Ltac run H :=
  repeat first
    [ match type of H with (if ?c then None else _) = Some _ => returned H end
    | match type of H with (_ ≫= _) = Some _ => returned H end
    | match type of H with (if ?c then _ else _) = Some _ => destruct c end
    | match type of H with Some _ = Some _ => injection H as H end ].
Ltac layout H := run H; subst; done.

Lemma section_init_layout b c c' : Forall byte_ok b -> section_init b c = Some c' -> same_layout c c'.
Proof.
  unfold section_init. intros Hb H. run H; subst; [|done]. split; [done|]. split; [done|].
  intros []. split; [|exact fo_dyld0|exact fo_chained0]. intros o a n. cbn. intros [= _ <- <-]. split; by apply le64_range.
Qed.
Lemma section_unwind_layout s b c c' : section_unwind s b c = Some c' -> same_layout c c'.
Proof. unfold section_unwind. cbv zeta. intros H. layout H. Qed.
Lemma section_tls_layout b c c' : section_tls b c = Some c' -> same_layout c c'.
Proof.
  unfold section_tls. intros H. returned H. cbv zeta in H. apply bad_Some in H as [_ [= <-]].
  unfold section_tls_template in Hget. cbv zeta in Hget. layout Hget.
Qed.
Lemma load_section_layout slice_size s b c c' :
  Forall byte_ok b -> load_section slice_size s b c = Some c' -> same_layout c c'.
Proof.
  intros Hb. unfold load_section. cbv zeta. intros H. run H.
  eapply same_layout_trans; [by eapply section_init_layout|].
  eapply same_layout_trans; [by eapply section_unwind_layout|by eapply section_tls_layout].
Qed.
Lemma section_loop_layout n f at_ slice_size s c c' :
  Forall byte_ok f -> section_loop n f at_ slice_size s c = Some c' -> same_layout c c'.
Proof.
  intros Hf. revert at_ c. induction n as [|n IH]; intros at_ c; cbn [section_loop]; [by intros [= ->]|].
  intros H. run H. eapply same_layout_trans; [eapply load_section_layout; [by eapply read_at_bytes|done]|by eapply IH].
Qed.

(** ** The commands *)

(** What the command loop keeps: the segments are valid, at most the maximum,
    and the header address is the one of a [__TEXT] segment that holds the load
    commands. *)
Definition is_text (commands_end a : Z) (s : GISegment) : Prop :=
  sg_name s = str_TEXT /\ sg_address s = a /\ sg_file_offset s = 0 /\
  commands_end <= sg_file_size s /\ Z.land (sg_prot s) GM_EXEC <> 0.
Record layout_ok (slice_size commands_end : Z) (c : Commands) : Prop := {
  lo_segments : Forall (segment_ok slice_size) (cm_segments c);
  lo_count : Z.of_nat (length (cm_segments c)) <= GI_MAX_SEGMENTS;
  lo_fields : fields_ok c;
  lo_text : forall a, cm_text c = Some a -> exists s, s ∈ cm_segments c /\ is_text commands_end a s
}.
Lemma layout_ok_same slice_size commands_end c c' :
  same_layout c c' -> layout_ok slice_size commands_end c -> layout_ok slice_size commands_end c'.
Proof. intros (H1 & H2 & H3) []. split; rewrite ?H1, ?H2; auto. Qed.

Lemma load_segment_layout f at_ slice_size cmdsize commands_end c c' :
  Forall byte_ok f -> load_segment f at_ slice_size cmdsize commands_end c = Some c' ->
  layout_ok slice_size commands_end c -> layout_ok slice_size commands_end c'.
Proof.
  intros Hf H Hc. unfold load_segment in H. returned H. returned H. returned H. returned H. cbv zeta in H.
  returned H. returned H. apply section_loop_layout in H; [|done].
  assert (Forall byte_ok v) as Hv by (by eapply read_at_bytes).
  assert (segment_ok slice_size (segment_of v)) as Hs.
  { bool_props. apply within_true in H0; [|apply le64_range, Hv].
    pose proof (le64_range v 24 Hv). pose proof (le64_range v 32 Hv).
    pose proof (le64_range v 40 Hv). pose proof (le64_range v 48 Hv).
    split; cbn [segment_of sg_name sg_address sg_size sg_file_offset sg_file_size sg_prot sg_maxprot] in *; done || lia. }
  eapply layout_ok_same; [exact H|]. destruct Hc. apply Z.eqb_neq in Hok1.
  assert (Forall (segment_ok slice_size) (cm_segments c ++ [segment_of v])) as H1
    by (apply Forall_app; split; [done|by constructor]).
  assert (Z.of_nat (length (cm_segments c ++ [segment_of v])) <= GI_MAX_SEGMENTS) as H2
    by (rewrite length_app; cbn [length]; lia).
  destruct (named _ _) eqn:Ht; (split; [exact H1|exact H2|done|]).
  - intros a [= <-]. exists (segment_of v). split; [apply elem_of_app; right; by constructor|].
    cbn [andb] in Hok3. bool_props. split; [by apply bool_decide_eq_true in Ht|]. done.
  - intros a Ha. destruct (lo_text0 a Ha) as (s & Hs1 & Hs2). exists s. split; [|done]. apply elem_of_app. by left.
Qed.

Section commands.
Context (ok : Site -> bool).

Lemma load_dyld_info_layout f at_ cmdsize slice_size c c' :
  Forall byte_ok f -> load_dyld_info f at_ cmdsize slice_size c = Some c' -> same_layout c c'.
Proof.
  intros Hf H. unfold load_dyld_info in H. returned H. returned H. returned H. cbv zeta in H.
  apply read_at_bytes in Hget; [|done]. assert (forall i, 0 <= le32 v i) as Hv by (intros; by apply le32_range).
  assert (same_layout c (set_dyld c (mkDyldInfo (le32 v 8) (le32 v 12) (le32 v 16) (le32 v 20)
    (le32 v 24) (le32 v 28) (le32 v 32) (le32 v 36)))) as Hd.
  { split; [done|]. split; [done|]. intros []. split; [exact fo_init0| |exact fo_chained0]. repeat constructor; apply Hv. }
  eapply same_layout_trans; [exact Hd|]. clear Hd. layout H.
Qed.
Lemma load_chained_layout f at_ cmdsize slice_size c c' :
  Forall byte_ok f -> load_chained f at_ cmdsize slice_size c = Some c' -> same_layout c c'.
Proof.
  intros Hf H. unfold load_chained in H. returned H. returned H. returned H. injection H as <-.
  apply read_at_bytes in Hget; [|done]. split; [done|]. split; [done|]. intros []. split; [exact fo_init0|exact fo_dyld0|].
  intros o n. cbn. intros [= <- <-]. split; by apply le32_range.
Qed.
Lemma load_command_layout f at_ slice_size cmd cmdsize commands_end c c' :
  Forall byte_ok f -> load_command ok f at_ slice_size cmd cmdsize commands_end c = Some c' ->
  layout_ok slice_size commands_end c -> layout_ok slice_size commands_end c'.
Proof.
  intros Hf H. unfold load_command in H. destruct (cmd =? LC_SEGMENT_64); [by eapply load_segment_layout|].
  apply layout_ok_same.
  repeat match type of H with (if ?b then _ else _) = Some _ => destruct b end.
  - unfold load_dylib in H. layout H.
  - unfold load_rpath in H. layout H.
  - unfold load_main in H. layout H.
  - by eapply load_dyld_info_layout.
  - unfold load_exports_trie in H. layout H.
  - by eapply load_chained_layout.
  - unfold load_encryption in H. layout H.
  - by injection H as ->.
Qed.
Lemma command_loop_layout n f slice slice_size commands_end cursor c cursor' c' :
  Forall byte_ok f -> command_loop ok n f slice slice_size commands_end cursor c = Some (cursor', c') ->
  layout_ok slice_size commands_end c -> layout_ok slice_size commands_end c'.
Proof.
  intros Hf. revert cursor c. induction n as [|n IH]; intros cursor c; cbn [command_loop]; [by intros [= <- <-]|].
  intros H Hc. returned H. returned H. cbv zeta in H. returned H. returned H.
  eapply IH; [exact H|]. by eapply load_command_layout.
Qed.
Lemma load_commands_layout f slice slice_size file_type mh c :
  Forall byte_ok f -> load_commands ok f slice slice_size file_type mh = Some c ->
  layout_ok slice_size (32 + le32 mh 20) c /\ is_Some (cm_text c) /\
  (file_type = MH_EXECUTE -> is_Some (cm_entry c)) /\ (file_type = MH_DYLIB -> cm_entry c = None).
Proof.
  intros Hf H. unfold load_commands in H. returned H. destruct v as [cursor c']. returned H.
  injection H as ->. apply command_loop_layout in Hget;
    [|done|split; [constructor|by vm_compute|split; [done|by repeat constructor|done]|done]].
  split; [done|]. apply orb_false_iff in Hok as [Hok H3]. apply orb_false_iff in Hok as [Hok H2].
  apply orb_false_iff in Hok as [_ H1]. apply bool_decide_eq_false in H1.
  split; [by destruct (cm_text c); [|destruct H1]|]. split; intros ->.
  - cbn in H2. apply bool_decide_eq_false in H2. by destruct (cm_entry c); [|destruct H2].
  - cbn in H3. apply bool_decide_eq_false in H3. destruct (cm_entry c); [|done]. by destruct H3.
Qed.
End commands.

(** ** The mapped memory *)

Definition file_byte (f : list Z) (offset : Z) : Z := default 0 (f !! Z.to_nat offset).
Definition in_segment (x : Z) (s : GISegment) : bool :=
  negb (pagezero s) && (sg_address s <=? x) && (x <? sg_address s + sg_size s).
(** What a segment puts at [x]: the file's byte, or zero behind the file's part. *)
Definition segment_cell (f : list Z) (slice : Z) (s : GISegment) (x : Z) : Cell :=
  mkCell (if x - sg_address s <? sg_file_size s
          then file_byte f (slice + sg_file_offset s + (x - sg_address s)) else 0)
    (sg_prot s) (sg_maxprot s) false.
(** The address space the image describes. *)
Definition image_cell (f : list Z) (slice : Z) (segments : list GISegment) (x : Z) : option Cell :=
  (fun s => segment_cell f slice s x) <$> List.find (in_segment x) segments.

Lemma find_app {A} (P : A -> bool) l k :
  List.find P (l ++ k) = match List.find P l with Some x => Some x | None => List.find P k end.
Proof. induction l as [|x l IH]; [done|]. cbn. by destruct (P x). Qed.

Lemma populate_ok alloc m a b m' :
  memory_wf m -> 0 <= a -> Forall byte_ok b ->
  gm_populate alloc m a (Some b) (Z.of_nat (length b)) = (GM_OK, m') -> memory_wf m' /\ stored m m' a b.
Proof.
  intros Hm Ha Hb. unfold gm_populate.
  pose proof (copy_spec alloc m None a (Some b) (Z.of_nat (length b)) 0 true Hm Ha ltac:(lia) (buffer_ok_Some b Hb)) as Hc.
  destruct (copy _ _ _ _ _ _ _ _) as [[r m1] b']. cbn. intros [= -> ->]. destruct Hc as (Hwf & _ & _ & Hc).
  split; [done|]. destruct (decide _) as [Hz|Hnz]; [|by destruct Hc as (? & [= <-] & _ & ? & _)].
  destruct Hc as [-> _]. intros x. case_decide; [lia|done].
Qed.

Section mapping.
Context (ok : Site -> bool) (f : list Z) (slice slice_size : Z).
Context (Hf : Forall byte_ok f) (Hslice : 0 <= slice).

Lemma copy_segment_ok fuel s off m m' :
  segment_ok slice_size s -> memory_wf m -> 0 <= off -> sg_file_size s - off <= 65536 * Z.of_nat fuel ->
  copy_segment ok fuel f slice s off m = Some m' ->
  memory_wf m' /\ forall x, cell m' x =
    if decide (sg_address s + off <= x < sg_address s + sg_file_size s)
    then cell_with_byte (file_byte f (slice + sg_file_offset s + (x - sg_address s))) <$> cell m x
    else cell m x.
Proof.
  intros Hs. pose proof (so_address _ _ Hs). pose proof (so_file_offset _ _ Hs).
  revert off m. induction fuel as [|fuel IH]; intros off m Hm Hoff Hfuel; cbn [copy_segment].
  { intros [= ->]. split; [done|]. intros x. case_decide; [lia|done]. }
  destruct (Z.ltb_spec off (sg_file_size s)) as [Hlt|Hge].
  2: { intros [= ->]. split; [done|]. intros x. case_decide; [lia|done]. }
  cbv zeta. set (n := Z.min (sg_file_size s - off) 65536). assert (0 < n <= sg_file_size s - off) as Hn by lia.
  intros H1. apply bind_Some in H1 as (buffer & Hread & H1).
  apply read_at_Some in Hread as Hb; [|lia..]. destruct Hb as [Hl Hb].
  apply read_at_bytes in Hread; [|done].
  rewrite <- Hl in H1 at 1. destruct (gm_populate _ _ _ _ _) as [r m1] eqn:Hp. apply bad_Some in H1 as [Hr H1].
  apply negb_false_iff, bool_decide_eq_true in Hr as ->.
  apply populate_ok in Hp as [Hm1 Hst]; [|done|lia|done].
  apply IH in H1 as [Hm' Hc]; [|done|lia|lia]. split; [done|]. intros x. rewrite Hc.
  specialize (Hst x). rewrite Hl in Hst. rewrite Hst.
  destruct (decide (sg_address s + (off + n) <= x < _)).
  - rewrite decide_False by lia. by rewrite decide_True by lia.
  - destruct (decide (sg_address s + off <= x < sg_address s + off + n)).
    + rewrite decide_True by lia. f_equal. unfold file_byte.
      rewrite Hb by lia. do 4 f_equal. lia.
    + by rewrite decide_False by lia.
Qed.
Lemma copy_fuel_enough n : 0 <= n -> n - 0 <= 65536 * Z.of_nat (copy_fuel n).
Proof. intros. unfold copy_fuel. pose proof (Z.div_mod n 65536). pose proof (Z.mod_pos_bound n 65536). lia. Qed.

Lemma map_loop_ok file_type before segments m mapped backed m' mapped' backed' :
  Forall (segment_ok slice_size) segments -> memory_wf m ->
  (forall x, cell m x = image_cell f slice before x) ->
  map_loop ok f slice file_type before segments m mapped backed = Some (m', mapped', backed') ->
  memory_wf m' /\ forall x, cell m' x = image_cell f slice (before ++ segments) x.
Proof.
  intros Hs. revert before m mapped backed. induction Hs as [|s segments Hs _ IH]; intros before m mapped backed Hm Hc;
    cbn [map_loop].
  { intros [= <- <- <-]. by rewrite app_nil_r. }
  intros H. returned H.
  assert (forall x, in_segment x s = false -> image_cell f slice (before ++ [s]) x = image_cell f slice before x) as Hskip.
  { intros x Hx. unfold image_cell. rewrite find_app. cbn. rewrite Hx. by destruct (List.find _ _). }
  replace (before ++ s :: segments) with ((before ++ [s]) ++ segments) by (by rewrite <- app_assoc).
  destruct (pagezero s) eqn:Hz.
  { returned H. eapply IH, H; [done|]. intros x. rewrite Hskip; [done|]. unfold in_segment. by rewrite Hz. }
  destruct (Z.eqb_spec (sg_size s) 0) as [Hs0|Hs0].
  { eapply IH, H; [done|]. intros x. rewrite Hskip; [done|]. unfold in_segment.
    destruct (Z.leb_spec (sg_address s) x), (Z.ltb_spec x (sg_address s + sg_size s)); try lia; by rewrite ?andb_false_r. }
  returned H. pose proof (so_address _ _ Hs). pose proof (so_size _ _ Hs).
  destruct (gm_map _ _ _ _ _ _ _ _) as [r m1] eqn:Hmap. returned H.
  apply negb_false_iff, bool_decide_eq_true in Hok1 as ->.
  pose proof (gm_map_correct (ok (SitePages (sg_address s))) m (sg_address s) (sg_size s) (sg_prot s) (sg_maxprot s)
    false false Hm ltac:(done) ltac:(done)) as Hspec. rewrite Hmap in Hspec.
  destruct Hspec as (Hm1 & _ & _ & [?|Hfree] & Hcell); [done|]. returned H.
  apply copy_segment_ok in Hget as [Hm2 Hcopy]; [|done|done|lia|apply copy_fuel_enough, (so_file_size _ _ Hs)].
  eapply IH, H; [done|]. intros x. rewrite Hcopy, Hcell, Z.add_0_r.
  pose proof (so_fits _ _ Hs). destruct (decide (sg_address s <= x < sg_address s + sg_size s)) as [Hx|Hx].
  - specialize (Hfree x Hx). rewrite Hc in Hfree. unfold image_cell in *. rewrite find_app.
    destruct (List.find (in_segment x) before); [done|]. cbn [List.find].
    assert (in_segment x s = true) as ->.
    { unfold in_segment. rewrite Hz. cbn [negb andb]. apply andb_true_iff. lia. }
    cbn. unfold segment_cell. destruct (Z.ltb_spec (x - sg_address s) (sg_file_size s));
      [by rewrite decide_True by lia|by rewrite decide_False by lia].
  - rewrite Hskip, Hc by (unfold in_segment; rewrite Hz; cbn [negb andb]; apply not_true_is_false; rewrite andb_true_iff; lia).
    by case_decide; [lia|].
Qed.

(** The bounds the loop enforces. *)
Definition mapped_total (segments : list GISegment) : Z :=
  foldr (fun s t => if pagezero s then t else sg_size s + t) 0 segments.
Lemma map_loop_total file_type before segments m mapped backed m' mapped' backed' :
  Forall (segment_ok slice_size) segments -> 0 <= mapped <= budget ->
  map_loop ok f slice file_type before segments m mapped backed = Some (m', mapped', backed') ->
  mapped' = mapped + mapped_total segments /\ mapped' <= budget /\
  forall pre s post p, segments = pre ++ s :: post -> p ∈ before ++ pre -> overlap s p = false.
Proof.
  intros Hs. revert before m mapped backed. induction Hs as [|s segments Hs _ IH]; intros before m mapped backed Hm;
    cbn [map_loop mapped_total foldr].
  { intros [= <- <- <-]. split; [lia|]. split; [lia|]. by intros []. }
  intros H. returned H.
  assert (forall mapped0 m0 backed0 mapped1, 0 <= mapped0 <= budget ->
    mapped1 = mapped0 + mapped_total segments ->
    map_loop ok f slice file_type (before ++ [s]) segments m0 mapped0 backed0 = Some (m', mapped', backed') ->
    mapped' = mapped1 /\ mapped' <= budget /\
    forall pre s' post p, s :: segments = pre ++ s' :: post -> p ∈ before ++ pre -> overlap s' p = false) as Hstep.
  { intros mapped0 m0 backed0 mapped1 H0 -> H1. apply IH in H1 as (H1 & H2 & H3); [|done].
    split; [done|]. split; [done|]. intros [|s0 pre] s' post p [= <- Hpre] Hp.
    - rewrite app_nil_r in Hp. rewrite <- not_true_iff_false. intros Ho.
      apply not_true_iff_false in Hok. apply Hok, existsb_exists. exists p.
      split; [by apply list_elem_of_In|done].
    - eapply H3; [done|]. by rewrite <- app_assoc. }
  destruct (pagezero s); [returned H; by eapply Hstep|].
  pose proof (so_size _ _ Hs).
  destruct (Z.eqb_spec (sg_size s) 0) as [Hz|_]; [eapply Hstep; [..|exact H]; [done|]; fold (mapped_total segments); lia|].
  returned H. apply orb_false_iff in Hok0 as [_ Hb%Z.ltb_ge]. destruct (gm_map _ _ _ _ _ _ _ _) as [r m1].
  returned H. returned H. eapply Hstep; [..|exact H]; [lia|]. fold (mapped_total segments). lia.
Qed.
End mapping.

(** Segments that do not overlap decide each cell on their own. *)
Definition separate (segments : list GISegment) : Prop :=
  forall pre s post p, segments = pre ++ s :: post -> p ∈ pre -> overlap s p = false.
Lemma overlap_at x s p :
  sg_address s <= x < sg_address s + sg_size s -> sg_address p <= x < sg_address p + sg_size p -> overlap s p = true.
Proof. intros. unfold overlap. rewrite !andb_true_iff, !negb_true_iff, !Z.eqb_neq, !Z.ltb_lt. lia. Qed.
Lemma in_segment_true x s :
  in_segment x s = true <-> pagezero s = false /\ sg_address s <= x < sg_address s + sg_size s.
Proof. unfold in_segment. rewrite !andb_true_iff, negb_true_iff, Z.leb_le, Z.ltb_lt. tauto. Qed.
Lemma separate_find segments s x :
  separate segments -> s ∈ segments -> in_segment x s = true -> List.find (in_segment x) segments = Some s.
Proof.
  intros Hsep (pre & post & ->)%list_elem_of_split Hx. rewrite find_app. cbn [List.find]. rewrite Hx.
  destruct (List.find (in_segment x) pre) as [p|] eqn:E; [|done]. exfalso.
  apply find_some in E as [Hp%list_elem_of_In Hpx]. pose proof (Hsep pre s post p eq_refl Hp) as Ho.
  apply in_segment_true in Hx as [_ Hx], Hpx as [_ Hpx]. by rewrite (overlap_at x) in Ho.
Qed.
Lemma image_cell_inside f slice segments s x :
  separate segments -> s ∈ segments -> pagezero s = false -> sg_address s <= x < sg_address s + sg_size s ->
  image_cell f slice segments x = Some (segment_cell f slice s x).
Proof.
  intros Hsep Hs Hz Hx. unfold image_cell. rewrite (separate_find segments s); [done|done|done|].
  by apply in_segment_true.
Qed.
Lemma image_cell_outside f slice segments x :
  (forall s, s ∈ segments -> pagezero s = false -> ~ sg_address s <= x < sg_address s + sg_size s) ->
  image_cell f slice segments x = None.
Proof.
  intros Hout. unfold image_cell. destruct (List.find _ _) as [s|] eqn:E; [|done]. exfalso.
  apply find_some in E as [Hs%list_elem_of_In [Hz Hx]%in_segment_true]. by apply (Hout s).
Qed.

Lemma cell_byte_ok m x c : memory_wf m -> cell m x = Some c -> byte_ok (c_byte c).
Proof.
  intros Hm. unfold cell. destruct (page_of m _) as [p|] eqn:Hp; [|done]. intros [= <-]. cbn.
  apply page_of_Some in Hp as [Hi _]; [|done]. pose proof (memory_wf_pages m Hm) as Hw.
  rewrite Forall_lookup in Hw. destruct (page_bytes_wf p (Hw _ p Hi)) as [_ Hb].
  destruct (page_bytes p !! _) eqn:E; [|by split]. by eapply (Forall_lookup_1 _ _ _ _ Hb).
Qed.
Lemma reads_as_bytes m a n bs : memory_wf m -> reads_as m a n bs -> Forall byte_ok bs.
Proof.
  intros Hm [_ Hb]. apply Forall_lookup. intros i b Hi. pose proof (Hb i ltac:(by eapply lookup_lt_Some)) as E.
  rewrite Hi in E. destruct (cell m _) as [c|] eqn:Hc; [|done]. injection E as ->. by eapply cell_byte_ok.
Qed.

Section reading.
Context (ok : Site -> bool).

Lemma reads_ok m a n :
  memory_wf m -> 0 <= a -> 0 < n ->
  let '(b, m') := reads ok m a n in
  memory_wf m' /\ same_cells m m' /\ forall bs, b = Some bs -> reads_as m a n bs /\ access_ok m None a n GM_READ.
Proof.
  intros Hm Ha Hn. unfold reads, gm_read. assert (Forall byte_ok (replicate (Z.to_nat n) 0)) as Hz
    by (by apply (Forall_replicate byte_ok)).
  pose proof (copy_spec (fun a => ok (SiteBacking a)) m None a (Some (replicate (Z.to_nat n) 0)) n GM_READ false Hm Ha
    ltac:(lia)) as Hc.
  destruct (copy _ _ _ _ _ _ _ _) as [[r m'] b]. destruct Hc as [Hwf Hc].
  { intros ? [= <-]. rewrite length_replicate. split; [lia|done]. }
  case_bool_decide as Hr.
  - subst r. destruct Hc as (Hok & _ & Hc). rewrite decide_False in Hc by lia.
    destruct Hc as (? & _ & -> & bs & -> & Hb). split; [done|]. split; [done|]. by intros ? [= <-].
  - split; [done|]. assert (same_cells m m') by (destruct r; tauto). done.
Qed.
Lemma fetches_ok m a :
  memory_wf m -> 0 <= a ->
  let '(executable, m') := fetches ok m a in
  memory_wf m' /\ same_cells m m' /\
  (executable = true -> a mod 4 = 0 /\ access_ok m None a 4 GM_EXEC).
Proof.
  intros Hm Ha. unfold fetches, gm_fetch. change 3 with (2 ^ 2 - 1). rewrite land_mask by lia.
  destruct (Z.eqb_spec (a mod 2 ^ 2) 0) as [Ha4|]; cbn [negb]; [|split; [by apply memory_wf_fault|done]].
  pose proof (copy_spec (fun a => ok (SiteBacking a)) m None a (Some (replicate 4 0)) 4 GM_EXEC false Hm Ha ltac:(lia)) as Hc.
  destruct (copy _ _ _ _ _ _ _ _) as [[r m'] b]. destruct Hc as [Hwf Hc].
  { intros ? [= <-]. split; [done|]. by repeat constructor. }
  destruct (bool_decide (r = GM_OK)) eqn:Hr.
  - rewrite Hr. apply bool_decide_eq_true in Hr as ->. destruct Hc as (Hok & _ & Hc). cbn in Hc.
    destruct Hc as (? & _ & -> & _). done.
  - rewrite Hr. apply bool_decide_eq_false in Hr. split; [done|]. assert (same_cells m m') by (destruct r; tauto). done.
Qed.

(** Code the processor may fetch at [a]. *)
Definition executable (m : GuestMemory) (a : Z) : Prop := a mod 4 = 0 /\ access_ok m None a 4 GM_EXEC.
Lemma same_cells_trans m1 m2 m3 : same_cells m1 m2 -> same_cells m2 m3 -> same_cells m1 m3.
Proof. intros H1 H2 x. by rewrite H2, H1. Qed.
Lemma executable_same m m' a : same_cells m m' -> executable m' a -> executable m a.
Proof.
  intros Hs [Ha [He Hc]]. split; [done|]. split; [done|]. intros x Hx. rewrite <- Hs. by apply Hc.
Qed.

Lemma initializer_loop_ok n m at_ header_address l m' :
  memory_wf m -> 0 <= at_ -> initializer_loop ok n m at_ header_address = Some (l, m') ->
  memory_wf m' /\ same_cells m m' /\ length l = n /\ Forall (executable m) l.
Proof.
  revert m at_ l. induction n as [|n IH]; intros m at_ l Hm Hat; cbn [initializer_loop].
  { intros [= <- <-]. done. }
  pose proof (reads_ok m at_ 4 Hm Hat ltac:(lia)) as Hr. destruct (reads ok m at_ 4) as [b m1].
  destruct Hr as (Hm1 & Hs1 & _). intros H. returned H.
  pose proof (fetches_ok m1 (w64 (header_address + le_value v)) Hm1 ltac:(apply w64_range)) as Hx.
  destruct (fetches _ _ _) as [e m2]. destruct Hx as (Hm2 & Hs2 & He). returned H. returned H.
  destruct v0 as [rest m3]. injection H as <- <-. apply IH in Hget0 as (Hm3 & Hs3 & Hl & Hall); [|done|lia].
  assert (same_cells m m2) as Hs by (by eapply same_cells_trans). split; [done|].
  split; [by eapply same_cells_trans|]. split; [by cbn; f_equal|]. constructor.
  - apply (executable_same m m1); [done|]. apply He. by destruct e.
  - eapply Forall_impl; [exact Hall|]. intros x. by apply executable_same.
Qed.
Lemma load_initializers_ok m c header_address first l m' :
  memory_wf m -> fields_ok c ->
  load_initializers ok m c header_address = Some (first, l, m') ->
  memory_wf m' /\ same_cells m m' /\ Forall (executable m) l /\
  (forall a n, cm_init c = Some (true, a, n) -> length l = Z.to_nat (n / 4) /\ first = default 0 (head l)) /\
  (cm_chained c = None -> (forall a n, cm_init c <> Some (true, a, n)) -> first <> 0 -> executable m first).
Proof.
  intros Hm Hinit H. unfold load_initializers in H.
  destruct (default (false, 0, 0) (cm_init c)) as [[offsets address] size] eqn:Ed.
  assert (0 <= address) as Ha.
  { destruct (cm_init c) as [[[o a] n]|] eqn:Ei; cbn in Ed; simplify_eq; [by eapply (fo_init _ _ _ Hinit _ _ _ Ei)|done]. }
  destruct offsets.
  - returned H. returned H. destruct v as [l' m1]. injection H as <- <- <-.
    apply initializer_loop_ok in Hget as (Hm1 & Hs & Hl & Hall); [|done|done].
    split; [done|]. split; [done|]. split; [done|]. destruct (cm_init c) as [[[o a] n]|]; cbn in Ed; [|done].
    injection Ed as -> -> ->. split; [by intros ? ? [= <- <-]|]. intros _ Hn. by destruct (Hn address size).
  - returned H. destruct v as [first' m1].
    assert (memory_wf m1 /\ same_cells m m1 /\ 0 <= first') as (Hm1 & Hs1 & Hf0).
    { destruct (size =? 0); [by injection Hget as <- <-|].
      pose proof (reads_ok m address 8 Hm Ha ltac:(lia)) as Hr. destruct (reads ok m address 8) as [b m2].
      destruct Hr as (? & ? & Hr). returned Hget. injection Hget as <- <-. split; [done|]. split; [done|].
      destruct (Hr v Hget0) as [Hv _]. apply le_value_range. by apply (reads_as_bytes m address 8). }
    assert (forall a n, cm_init c = Some (true, a, n) -> False) as Hno.
    { intros a n E. rewrite E in Ed. discriminate Ed. }
    destruct (Z.eqb_spec first' 0) as [->|Hf]; cbn [negb andb] in H.
    { injection H as <- <- <-. split; [done|]. split; [done|]. split; [done|]. split; [|done].
      intros a n E. by destruct (Hno a n). }
    case_bool_decide as Hch.
    2: { injection H as <- <- <-. split; [done|]. split; [done|]. split; [done|]. split; [|done].
      intros a n E. by destruct (Hno a n). }
    pose proof (fetches_ok m1 first' Hm1 Hf0) as Hx. destruct (fetches ok m1 first') as [e m2].
    destruct Hx as (Hm2 & Hs2 & He). returned H. injection H as <- <- <-.
    split; [done|]. split; [by eapply same_cells_trans|]. split; [done|].
    split; [intros a n E; by destruct (Hno a n)|]. intros _ _ _. eapply executable_same; [exact Hs1|].
    apply He. by destruct e.
Qed.
End reading.

(** The reservation below 4 GiB has no bytes of its own. *)
Lemma map_loop_pagezero ok f sl file_type before segments m mapped backed out :
  map_loop ok f sl file_type before segments m mapped backed = Some out ->
  Forall (fun s => pagezero s = true -> sg_file_size s = 0) segments.
Proof.
  revert before m mapped backed. induction segments as [|s segments IH]; intros before m mapped backed H; [constructor|].
  cbn [map_loop] in H. returned H. destruct (pagezero s) eqn:Hz.
  - returned H. constructor; [|by eapply IH]. intros _. apply orb_false_iff in Hok0 as [Hok0 _].
    apply orb_false_iff in Hok0 as [_ Hs]. by apply negb_false_iff, Z.eqb_eq in Hs.
  - constructor; [by rewrite Hz|]. destruct (sg_size s =? 0); [by eapply IH|]. returned H.
    destruct (gm_map _ _ _ _ _ _ _ _). returned H. returned H. by eapply IH.
Qed.

(** ** The loaded image *)

Lemma be32_nonneg p i : Forall byte_ok p -> 0 <= be32 p i.
Proof.
  intros Hp. assert (forall k, 0 <= default 0 (p !! k)) as Hb.
  { intros k. destruct (p !! k) as [b|] eqn:E; [|done]. apply (Forall_lookup_1 _ _ _ _ Hp E). }
  unfold be32. rewrite !Z.lor_nonneg, !Z.shiftl_nonneg. auto.
Qed.
Lemma fat_loop_nonneg n f i count record_size file_size found slice slice_size :
  Forall byte_ok f -> (forall p, found = Some p -> 0 <= p.1) ->
  fat_loop n f i count record_size file_size found = Some (Some (slice, slice_size)) -> 0 <= slice.
Proof.
  intros Hf. revert i found. induction n as [|n IH]; intros i found Hfound; cbn [fat_loop].
  { intros [= E]. by apply Hfound in E. }
  intros H. returned H. apply read_at_bytes in Hget; [|done].
  destruct (_ || _); [by eapply IH|]. returned H. cbv zeta in H. returned H.
  eapply IH, H. intros p [= <-]. cbn. destruct (record_size =? 32); [|by apply be32_nonneg].
  unfold be64. rewrite Z.lor_nonneg, Z.shiftl_nonneg. split; by apply be32_nonneg.
Qed.
Lemma find_slice_nonneg f slice slice_size : Forall byte_ok f -> find_slice f = Some (slice, slice_size) -> 0 <= slice.
Proof.
  intros Hf H. unfold find_slice in H. cbv zeta in H. returned H. returned H. destruct (_ || _).
  - returned H. returned H. subst v0. eapply fat_loop_nonneg; [done| |done]. done.
  - by injection H as <- _.
Qed.

(** The parts of a successful load. *)
Record loaded (ok : Site -> bool) (f : list Z) (file_type : Z) (image : GuestImage) (slice_size : Z)
    (c : Commands) (m : GuestMemory) : Prop := {
  ld_slice : 0 <= gi_slice_offset image;
  ld_layout : layout_ok slice_size (32 + le32 (slice (Z.to_nat (gi_slice_offset image)) 32 f) 20) c;
  ld_entry : load_entry c = Some (gi_entry image);
  ld_main : (file_type = MH_EXECUTE -> is_Some (cm_entry c)) /\ (file_type = MH_DYLIB -> cm_entry c = None);
  ld_header : cm_text c = Some (gi_header_address image);
  ld_segments : gi_segments image = cm_segments c;
  ld_chained : gi_chained image = cm_chained c;
  ld_dyld : gi_dyld image = cm_dyld c;
  ld_memory : memory_wf m /\ memory_wf (gi_memory image) /\ same_cells m (gi_memory image);
  ld_cells : forall x, cell m x = image_cell f (gi_slice_offset image) (cm_segments c) x;
  ld_total : gi_mapped_size image = mapped_total (cm_segments c) /\ gi_mapped_size image <= budget;
  ld_pagezero : Forall (fun s => pagezero s = true -> sg_file_size s = 0) (cm_segments c);
  ld_separate : separate (cm_segments c);
  ld_initializers : Forall (executable m) (gi_initializers image);
  ld_list : forall a n, cm_init c = Some (true, a, n) ->
    Z.of_nat (length (gi_initializers image)) = gi_initializer_count image /\
    gi_first_initializer image = default 0 (head (gi_initializers image));
  ld_first : gi_initializer_offsets image = false -> gi_chained image = None ->
    gi_first_initializer image <> 0 -> executable m (gi_first_initializer image);
  ld_offsets : gi_initializer_offsets image = true -> exists a n, cm_init c = Some (true, a, n)
}.

Lemma read_header_Some f sl slice_size file_type mh :
  read_header f sl slice_size file_type = Some mh -> mh = slice (Z.to_nat sl) 32 f.
Proof.
  unfold read_header. intros H. returned H. returned H. returned H. returned H. injection H as <-.
  unfold read_at in Hget. by destruct ((sl <=? _) && _); [injection Hget as <-|].
Qed.
Lemma load_loaded ok f file_type image :
  Forall byte_ok f -> load ok f file_type = Some image ->
  exists slice_size c m, loaded ok f file_type image slice_size c m.
Proof.
  intros Hf H. unfold load in H. returned H. destruct v as [sl slice_size]. returned H. returned H. rename v0 into c.
  returned H. returned H. destruct v1 as [[m mapped] backed]. returned H. cbv zeta in H.
  destruct (default (false, 0, 0) (cm_init c)) as [[offsets init_address] init_size] eqn:Ed.
  returned H. destruct v2 as [[first initializers] m1]. rename v into mh, v1 into entry.
  apply bind_Some in H as (m2 & Hget6 & H). injection H as <-. unfold check_header in Hget6.
  destruct (reads ok m1 (default 0 (cm_text c)) 32) as [guest_header m3] eqn:Er. returned Hget6. returned Hget6.
  injection Hget6 as ->. apply find_slice_nonneg in Hget as Hsl; [|done].
  apply read_header_Some in Hget0 as ->.
  apply load_commands_layout in Hget1 as (Hlay & [ha Hha] & Hmain); [|done].
  pose proof (map_loop_total ok f sl slice_size file_type [] (cm_segments c) gm_empty 0 0 _ _ _ (lo_segments _ _ _ Hlay) ltac:(unfold budget; lia) Hget3)
    as (Htot & Hbud & Hsep).
  apply map_loop_pagezero in Hget3 as Hpz.
  apply (map_loop_ok ok f sl slice_size) in Hget3 as [Hm Hcell];
    [|done|done|apply lo_segments with (1 := Hlay)|apply memory_wf_empty|done].
  apply load_initializers_ok in Hget5 as (Hm1 & Hs1 & Hall & Hlist & Hfirst); [|done|by eapply lo_fields].
  assert (0 <= ha) as Hha0.
  { destruct (lo_text _ _ _ Hlay ha Hha) as (s & Hs & _ & <- & _).
    pose proof (lo_segments _ _ _ Hlay) as Hseg. rewrite Forall_forall in Hseg. by apply so_address with (1 := Hseg s Hs). }
  rewrite Hha in Er. pose proof (reads_ok ok m1 ha 32 Hm1 Hha0 ltac:(lia)) as Hr. cbn in Er. rewrite Er in Hr.
  destruct Hr as (Hm2 & Hs2 & _).
  exists slice_size, c, m. split; cbn; try done.
  - by rewrite Hha.
  - split; [done|]. split; [done|]. by eapply same_cells_trans.
  - intros a n Hi. rewrite Hi in Ed. cbn in Ed. injection Ed as <- <- <-. destruct (Hlist a n Hi) as [-> ->].
    split; [|done]. pose proof (fo_init _ _ _ (lo_fields _ _ _ Hlay) _ _ _ Hi) as [_ Hn]. pose proof (Z.div_pos n 4 Hn). lia.
  - intros -> Hch Hne. apply Hfirst; [done| |done]. intros a n Hi. by rewrite Hi in Ed.
  - intros ->. destruct (cm_init c) as [[[o a] n]|]; cbn in Ed; [|done]. injection Ed as -> -> ->. by exists init_address, init_size.
Qed.

Lemma find_entry_Some entry_offset segments entry :
  find_entry entry_offset segments = Some entry ->
  exists s, s ∈ segments /\ Z.land (sg_prot s) GM_EXEC <> 0 /\
    entry = sg_address s + (entry_offset - sg_file_offset s) /\
    0 <= entry_offset - sg_file_offset s /\ entry_offset - sg_file_offset s + 4 <= sg_file_size s.
Proof.
  induction segments as [|s segments IH]; [done|]. cbn [find_entry].
  destruct (negb (Z.land (sg_prot s) GM_EXEC =? 0)) eqn:H1; cbn [andb].
  2: { intros (p & ? & ?)%IH. exists p. split; [by constructor|done]. }
  destruct (Z.leb_spec (sg_file_offset s) entry_offset); cbn [andb].
  2: { intros (p & ? & ?)%IH. exists p. split; [by constructor|done]. }
  destruct (within _ _ _) eqn:H3.
  - intros [= <-]. exists s. apply within_true in H3; [|done]. apply negb_true_iff, Z.eqb_neq in H1.
    split; [constructor|]. split; [done|]. split; lia.
  - intros (p & ? & ?)%IH. exists p. split; [by constructor|done].
Qed.
Lemma exec_has_all prot : Z.land prot GM_EXEC <> 0 -> has_all prot GM_EXEC = true.
Proof.
  intros H. apply Z.eqb_eq. unfold GM_EXEC in *. change 4 with (2 ^ 2) in *. apply Z.bits_inj'. intros i Hi.
  rewrite Z.land_spec, Z.pow2_bits_eqb by lia. destruct (Z.eqb_spec 2 i) as [<-|]; [|by rewrite andb_false_r].
  rewrite andb_true_r. destruct (Z.testbit prot 2) eqn:E; [done|]. exfalso. apply H. apply Z.bits_inj'. intros j Hj.
  rewrite Z.land_spec, Z.pow2_bits_eqb, Z.bits_0 by lia. destruct (Z.eqb_spec 2 j) as [<-|]; [by rewrite E|by rewrite andb_false_r].
Qed.

Section results.
Context (ok : Site -> bool) (f : list Z) (Hf : Forall byte_ok f).


(** C8: What the runtime may rely on to start a loaded executable: its entry point
    is aligned and fetchable, and the load commands lie in executable memory at
    the header address. Every initializer of an offset list is aligned and
    fetchable too, one list entry for each counted initializer. A list of
    pointers is not kept, and of its pointers only the first is known to be so,
    where no chained fixups are to change it. A load that fails leaves the image
    as it was. *)
Theorem gi_load_runnable image0 :
  let '(loaded, image) := gi_load ok (Some f) image0 in
  if loaded then
    executable (gi_memory image) (gi_entry image) /\
    Forall (executable (gi_memory image)) (gi_initializers image) /\
    (gi_initializer_offsets image = true ->
      Z.of_nat (length (gi_initializers image)) = gi_initializer_count image) /\
    (gi_initializer_offsets image = false -> gi_chained image = None -> gi_first_initializer image <> 0 ->
      executable (gi_memory image) (gi_first_initializer image)) /\
    exists s commands_end, s ∈ gi_segments image /\ is_text commands_end (gi_header_address image) s /\
      commands_end = 32 + le32 (slice (Z.to_nat (gi_slice_offset image)) 32 f) 20
  else image = image0.
Proof.
  unfold gi_load, load_path. destruct (_ || _); [done|].
  destruct (load ok f MH_EXECUTE) as [image|] eqn:H; [|done].
  apply load_loaded in H as (slice_size & c & m & []); [|done]. destruct ld_memory0 as (Hm & _ & Hs).
  assert (forall a, executable m a -> executable (gi_memory image) a) as Hx.
  { intros a. apply executable_same. intros x. by rewrite Hs. }
  split.
  { apply Hx. unfold load_entry in ld_entry0. destruct ld_main0 as [[entry_offset He] _]; [done|].
    rewrite He in ld_entry0. returned ld_entry0. returned ld_entry0. injection ld_entry0 as <-.
    apply negb_false_iff, Z.eqb_eq in Hok. change 3 with (2 ^ 2 - 1) in Hok. rewrite land_mask in Hok by lia.
    split; [done|]. apply find_entry_Some in Hget as (s & Hin & Hex & -> & Hlo & Hhi).
    pose proof (lo_segments _ _ _ ld_layout0) as Hseg. rewrite Forall_forall in Hseg. specialize (Hseg s Hin). destruct Hseg.
    rewrite Forall_forall in ld_pagezero0. specialize (ld_pagezero0 s Hin).
    assert (pagezero s = false) as Hz by (destruct (pagezero s); [specialize (ld_pagezero0 eq_refl); lia|done]).
    split; [lia|]. intros x Hxr. rewrite ld_cells0, (image_cell_inside _ _ _ s) by (done || lia).
    unfold cell_check, page_denies. cbn. by rewrite exec_has_all. }
  split; [by eapply Forall_impl|]. split.
  { intros Ho. destruct (ld_offsets0 Ho) as (a & n & Hi). by destruct (ld_list0 a n Hi). }
  split; [auto|]. destruct (lo_text _ _ _ ld_layout0 _ ld_header0) as (s & Hin & Ht).
  rewrite ld_segments0. by exists s, (32 + le32 (slice (Z.to_nat (gi_slice_offset image)) 32 f) 20).
Qed.
End results.

(** ** The extent *)

Definition placed (s : GISegment) : bool := negb (sg_size s =? 0) && negb (pagezero s).
Lemma extent_loop_spec segments start stop start' stop' :
  extent_loop segments start stop = (start', stop') ->
  start' <= start /\ stop <= stop' /\
  (forall s, s ∈ segments -> placed s = true -> start' <= sg_address s /\ sg_address s + sg_size s <= stop') /\
  (start' = start \/ exists s, s ∈ segments /\ placed s = true /\ start' = sg_address s) /\
  (stop' = stop \/ exists s, s ∈ segments /\ placed s = true /\ stop' = sg_address s + sg_size s).
Proof.
  revert start stop. induction segments as [|s segments IH]; intros start stop; cbn [extent_loop].
  { intros [= <- <-]. split; [lia|]. split; [lia|]. split; [by intros s Hs%not_elem_of_nil|]. auto. }
  assert (forall P : GISegment -> Prop, (exists s', s' ∈ segments /\ P s') -> exists s', s' ∈ s :: segments /\ P s') as Hex
    by (intros P (s' & ? & ?); exists s'; split; [by constructor|done]).
  destruct (_ || _) eqn:Hs.
  - intros (H1 & H2 & H3 & H4 & H5)%IH. split; [done|]. split; [done|]. split;
      [|split; [destruct H4; [by left|right; by apply Hex]|destruct H5; [by left|right; by apply Hex]]].
    intros s' [->|Hin]%elem_of_cons Hp; [|by apply H3].
    unfold placed in Hp. apply orb_true_iff in Hs. apply andb_true_iff in Hp as [?%negb_true_iff ?%negb_true_iff].
    destruct Hs; congruence.
  - apply orb_false_iff in Hs as [Hs1 Hs2]. assert (placed s = true) as Hp by (unfold placed; by rewrite Hs1, Hs2).
    intros (H1 & H2 & H3 & H4 & H5)%IH. split; [lia|]. split; [lia|]. split.
    { intros s' [->|Hin]%elem_of_cons Hp'; [lia|by apply H3]. }
    assert (s ∈ s :: segments) by constructor. split.
    + destruct H4 as [->|?]; [|by right; apply Hex]. destruct (Z.min_spec start (sg_address s)) as [[? ->]|[? ->]]; [by left|eauto].
    + destruct H5 as [->|?]; [|by right; apply Hex].
      destruct (Z.max_spec stop (sg_address s + sg_size s)) as [[? ->]|[? ->]]; [eauto|by left].
Qed.

(** The reach reserved for an image holds every address of its segments and is
    no larger than it must be: it begins at a segment and ends with one. *)
Theorem gi_extent_spec ok f file_type image :
  Forall byte_ok f -> load ok f file_type = Some image ->
  let '(reach, low) := gi_extent image in
  reach mod GM_PAGE_SIZE = 0 /\
  (forall x, cell (gi_memory image) x <> None -> low <= x < low + reach) /\
  (exists s, s ∈ gi_segments image /\ placed s = true /\ sg_address s = low) /\
  (exists s, s ∈ gi_segments image /\ placed s = true /\ sg_address s + sg_size s = low + reach).
Proof.
  intros Hf Hload. destruct (load_loaded ok f file_type image Hf Hload) as (slice_size & c & m & []). destruct ld_memory0 as (_ & _ & Hs).
  unfold gi_extent. rewrite ld_segments0. set (segments := cm_segments c) in *.
  destruct (extent_loop segments UINT64_MAX 0) as [start stop] eqn:E.
  apply extent_loop_spec in E as (_ & _ & Hin & Hstart & Hstop).
  pose proof (lo_segments _ _ _ ld_layout0) as Hseg. rewrite Forall_forall in Hseg. fold segments in Hseg.
  destruct (lo_text _ _ _ ld_layout0 _ ld_header0) as (t & Ht & Hname & Hta & _ & Htf & _).
  assert (0 <= le32 (slice (Z.to_nat (gi_slice_offset image)) 32 f) 20) as H20
    by (apply le32_range; by apply Forall_slice).
  assert (placed t = true) as Htp.
  { destruct (Hseg t Ht). unfold placed, pagezero. rewrite Hname. apply andb_true_iff. rewrite !negb_true_iff.
    split; [apply Z.eqb_neq; lia|done]. }
  destruct (Hin t Ht Htp). destruct (Hseg t Ht).
  assert (sg_size t <> 0) as Hnz by (unfold placed in Htp; apply andb_true_iff in Htp as [Htp _]; by apply negb_true_iff, Z.eqb_neq in Htp).
  destruct Hstart as [->|(p & Hp & Hpp & ->)]; [lia|]. destruct Hstop as [->|(q & Hq & Hqp & ->)]; [lia|].
  destruct (Z.ltb_spec (sg_address q + sg_size q) (sg_address p)) as [?|_]; [lia|].
  destruct (Hseg p Hp) as [? ? ? ? ? ? ? [Hpa _] _ _]. destruct (Hseg q Hq) as [? ? ? ? ? ? Hqe [Hqa Hqs] _ _].
  apply Z.mod_divide in Hpa as [kp Hpa]; [|done]. apply Z.mod_divide in Hqa as [kq Hqa]; [|done].
  apply Z.mod_divide in Hqs as [ks Hqs]; [|done].
  assert (Z.land (w64 (sg_address q + sg_size q - sg_address p + GM_PAGE_SIZE - 1)) (Z.lnot (GM_PAGE_SIZE - 1)) =
    sg_address q + sg_size q - sg_address p) as ->.
  { unfold UINT64_MAX in Hqe. rewrite w64_small by (unfold u64_ok, GM_PAGE_SIZE in *; lia).
    fold (page_floor (sg_address q + sg_size q - sg_address p + GM_PAGE_SIZE - 1)). rewrite page_floor_eq.
    replace (sg_address q + sg_size q - sg_address p + GM_PAGE_SIZE - 1)
      with (GM_PAGE_SIZE - 1 + (kq + ks - kp) * GM_PAGE_SIZE) by lia.
    rewrite Z.mod_add by done. change ((GM_PAGE_SIZE - 1) mod GM_PAGE_SIZE) with (GM_PAGE_SIZE - 1). lia. }
  split.
  { replace (sg_address q + sg_size q - sg_address p) with ((kq + ks - kp) * GM_PAGE_SIZE) by lia. by apply Z.mod_mul. }
  split; [|split; [by exists p|exists q; split; [done|]; split; [done|lia]]].
  intros x Hx. rewrite Hs, ld_cells0 in Hx. unfold image_cell in Hx.
  destruct (List.find _ _) as [s|] eqn:Ef; [|done]. apply find_some in Ef as [Hsin%list_elem_of_In [Hz Hxr]%in_segment_true].
  assert (placed s = true) as Hsp by (unfold placed; rewrite Hz; apply andb_true_iff; split; [apply negb_true_iff, Z.eqb_neq; lia|done]).
  destruct (Hin s Hsin Hsp). lia.
Qed.

(** ** Witnesses *)

(** An executable of one segment: the header, the segment command, the entry
    point command and one instruction. *)
Definition example_file : list Z :=
  concat [le_bytes 4 0xfeedfacf; le_bytes 4 CPU_TYPE_ARM64; le_bytes 4 0; le_bytes 4 MH_EXECUTE;
          le_bytes 4 2; le_bytes 4 96; le_bytes 8 0;
          le_bytes 4 LC_SEGMENT_64; le_bytes 4 72; str_TEXT ++ replicate 10 0;
          le_bytes 8 0x100000000; le_bytes 8 0x4000; le_bytes 8 0; le_bytes 8 132;
          le_bytes 4 5; le_bytes 4 5; le_bytes 8 0;
          le_bytes 4 LC_MAIN; le_bytes 4 24; le_bytes 8 128; le_bytes 8 0;
          le_bytes 4 0xd65f03c0].
Definition always (_ : Site) : bool := true.
Definition example_image : option GuestImage := load always example_file MH_EXECUTE.
Lemma example_file_ok : Forall byte_ok example_file.
Proof.
  assert (forallb (fun b => (0 <=? b) && (b <? 256)) example_file = true) as H by (vm_compute; reflexivity).
  rewrite forallb_forall in H. apply Forall_forall. intros x Hx%list_elem_of_In. specialize (H x Hx).
  unfold byte_ok. lia.
Qed.
Definition example_segment : GISegment := mkSegment str_TEXT 0x100000000 0x4000 0 132 5 5.
Lemma example_image_loads : exists image, example_image = Some image /\ gi_segments image = [example_segment].
Proof.
  assert (bool_decide (is_Some example_image) = true) as H by (vm_compute; reflexivity).
  apply bool_decide_eq_true in H as [image H]. exists image. split; [exact H|].
  assert (gi_segments <$> example_image = Some [example_segment]) as H2 by (vm_compute; reflexivity).
  rewrite H in H2. injection H2 as H2. exact H2.
Qed.

Lemma gi_load_runnable_witness :
  (gi_load always (Some example_file) gi_empty).1 = true /\
  executable (gi_memory (gi_load always (Some example_file) gi_empty).2) 0x100000080.
Proof.
  assert ((gi_load always (Some example_file) gi_empty).1 = true) as E by (vm_compute; reflexivity).
  assert (gi_entry (gi_load always (Some example_file) gi_empty).2 = 0x100000080) as Hentry by (vm_compute; reflexivity).
  split; [exact E|].
  pose proof (gi_load_runnable always example_file example_file_ok gi_empty) as H.
  destruct (gi_load _ _ _) as [l image]. cbn [fst snd] in *. subst l. destruct H as [H _]. by rewrite <- Hentry.
Defined.
Lemma gi_extent_spec_witness :
  exists image, example_image = Some image /\ exists s, s ∈ gi_segments image /\ sg_address s = (gi_extent image).2.
Proof.
  destruct example_image_loads as (image & Hload & _). exists image. split; [exact Hload|].
  pose proof (gi_extent_spec always example_file MH_EXECUTE image example_file_ok Hload) as H.
  destruct (gi_extent image) as [reach low]. destruct H as (_ & _ & (s & Hs & _ & Ha) & _). by exists s.
Defined.
