(* ===== verification/ExportTrie.v ===== *)
(** * ExportTrie: export lookup (gi_export of runtime/GuestImage.c)

    The walk through the export trie of a loaded image. A cursor is its index
    in the trie's bytes. *)
From S2P Require Import Prelude GuestMemory GuestImage.

Inductive GIExportResult := GI_EXPORT_INVALID | GI_EXPORT_MISSING | GI_EXPORT_FOUND | GI_EXPORT_REEXPORT.
Record GIExport := mkExport {
  ex_address : Z; ex_absolute : bool; ex_weak : bool; ex_per_thread : bool;
  ex_ordinal : Z; ex_name : option (list Z)
}.
Definition no_export : GIExport := mkExport 0 false false false 0 None.

(** EXPORT_SYMBOL_FLAGS of <mach-o/loader.h>. *)
Definition KIND_MASK : Z := 3.
Definition KIND_REGULAR : Z := 0.
Definition KIND_THREAD_LOCAL : Z := 1.
Definition KIND_ABSOLUTE : Z := 2.
Definition WEAK_DEFINITION : Z := 4.
Definition REEXPORT : Z := 8.

Section trie.
Context (bytes : list Z).
Definition trie_size : Z := Z.of_nat (length bytes).
Definition trie_byte (at_ : Z) : Z := default 0 (bytes !! Z.to_nat at_).

(** The value and the cursor behind it; at most ten bytes, for the shifts 0 to 63. *)
Fixpoint uleb_loop (n : nat) (shift value cursor stop : Z) : option (Z * Z) :=
  match n with
  | O => None
  | S n =>
    if cursor <? stop then
      let byte := trie_byte cursor in
      bad (shift =? 63) && negb (Z.land byte 0xfe =? 0);
      let value := Z.lor value (w64 (Z.shiftl (Z.land byte 127) shift)) in
      if Z.land byte 128 =? 0 then Some (value, cursor + 1)
      else uleb_loop n (shift + 7) value (cursor + 1) stop
    else None
  end.
Definition export_uleb (cursor stop : Z) : option (Z * Z) := uleb_loop 10 0 0 cursor stop.

(** The bytes from a cursor on. *)
Definition trie_from (cursor : Z) : list Z := drop (Z.to_nat cursor) bytes.
Fixpoint prefix_of (label symbol : list Z) : bool :=
  match label, symbol with
  | [], _ => true
  | a :: label, b :: symbol => (a =? b) && prefix_of label symbol
  | _, [] => false
  end.
(** The loop over a node's edges: the child and the label length of the first
    edge that matches. *)
Fixpoint edge_loop (count : nat) (cursor : Z) (symbol : list Z) (labelled : bool) (found : option (Z * nat))
    : option (option (Z * nat)) :=
  match count with
  | O => Some found
  | S count =>
    bad negb (terminated (trie_from cursor));
    let label := c_string (trie_from cursor) in
    let length := length label in
    let matches := prefix_of label symbol in
    '(offset, cursor) ← export_uleb (cursor + Z.of_nat length + 1) trie_size;
    bad trie_size <=? offset;
    bad matches && negb (length =? 0)%nat && labelled;
    let labelled := labelled || (matches && negb (length =? 0)%nat) in
    let found := if matches && negb (bool_decide (is_Some found)) then Some (offset, length) else found in
    edge_loop count cursor symbol labelled found
  end.

Section image.
Context (image : GuestImage).

(** Whether an address lies in a segment with some access. *)
Definition in_image (value : Z) : bool :=
  existsb (fun s => negb (sg_prot s =? 0) && (sg_address s <=? value) && (value - sg_address s <? sg_size s))
    (gi_segments image).
Definition invalid : GIExportResult * GIExport := (GI_EXPORT_INVALID, no_export).
(** A node's terminal, from [cursor] to [children]. *)
Definition reexport_result (cursor children : Z) : GIExportResult * GIExport :=
  match export_uleb cursor children with
  | Some (ordinal, cursor) =>
    if (ordinal =? 0) || (Z.of_nat (length (gi_dylibs image)) <? ordinal) then invalid else
    let name := slice (Z.to_nat cursor) (Z.to_nat (children - cursor)) bytes in
    if (children - cursor =? 0) || negb (length (c_string name) + 1 =? length name)%nat then invalid else
    (GI_EXPORT_REEXPORT, mkExport 0 false false false ordinal
       (if bool_decide (c_string name = []) then None else Some (c_string name)))
  | None => invalid
  end.
Definition address_result (flags cursor children : Z) : GIExportResult * GIExport :=
  let kind := Z.land flags KIND_MASK in
  match export_uleb cursor children with
  | Some (value, cursor) =>
    if negb (cursor =? children) then invalid else
    let is_absolute := kind =? KIND_ABSOLUTE in
    if negb is_absolute && (UINT64_MAX - gi_header_address image <? value) then invalid else
    let value := if is_absolute then value else value + gi_header_address image in
    if negb is_absolute && negb (in_image value) then invalid else
    let per_thread := kind =? KIND_THREAD_LOCAL in
    let t := gi_tls image in
    if per_thread && ((value <? tls_descriptors t) || (tls_descriptors_size t <=? value - tls_descriptors t) ||
                      negb ((value - tls_descriptors t) mod 24 =? 0)) then invalid else
    (GI_EXPORT_FOUND, mkExport value is_absolute (negb (Z.land flags WEAK_DEFINITION =? 0)) per_thread 0 None)
  | None => invalid
  end.
Definition terminal_result (cursor children : Z) : GIExportResult * GIExport :=
  match export_uleb cursor children with
  | Some (flags, cursor) =>
    let kind := Z.land flags KIND_MASK in
    if negb (none_outside flags (Z.lor (Z.lor KIND_MASK WEAK_DEFINITION) REEXPORT)) ||
       (negb (kind =? KIND_REGULAR) && negb (kind =? KIND_ABSOLUTE) && negb (kind =? KIND_THREAD_LOCAL))
    then invalid else
    if negb (Z.land flags REEXPORT =? 0) then reexport_result cursor children
    else address_result flags cursor children
  | None => invalid
  end.
(** The walk: [symbol] is what remains of the name. *)
Fixpoint export_loop (steps : nat) (node : Z) (symbol : list Z) : GIExportResult * GIExport :=
  match steps with
  | O => invalid
  | S steps =>
    if trie_size <=? node then invalid else
    match export_uleb node trie_size with
    | None => invalid
    | Some (terminal_size, cursor) =>
      if trie_size - cursor <? terminal_size then invalid else
      let children := cursor + terminal_size in
      if bool_decide (symbol = []) && negb (terminal_size =? 0) then terminal_result cursor children else
      if children =? trie_size then invalid else
      match edge_loop (Z.to_nat (trie_byte children)) (children + 1) symbol false None with
      | None => invalid
      | Some None => (GI_EXPORT_MISSING, no_export)
      | Some (Some (next, consumed)) => export_loop steps next (drop consumed symbol)
      end
    end
  end.
End image.
End trie.

(** [None] is a null symbol or a null [out]; the result is with what is stored
    through [out]. A loaded image has its trie's bytes exactly when the size is
    not zero, so one list stands for both. *)
Definition gi_export (image : GuestImage) (symbol : option (list Z)) (out : bool) : GIExportResult * GIExport :=
  match symbol with
  | Some symbol =>
    if negb out then invalid else
    if bool_decide (symbol = []) then invalid else
    match gi_exports image with
    | None => (GI_EXPORT_MISSING, no_export)
    | Some bytes =>
      if (length bytes <? length symbol)%nat then (GI_EXPORT_MISSING, no_export)
      else export_loop bytes image (length symbol + Z.to_nat 8192) 0 symbol
    end
  | None => invalid
  end.

(** ** Specification: a trie is a finite map *)

(** A node with the extent of its terminal, if it has one, and its edges. *)
Inductive Trie := Node (terminal : option (Z * Z)) (edges : list (list Z * Trie)).
(** The names of a trie with their terminals. *)
Fixpoint entries (t : Trie) : list (list Z * (Z * Z)) :=
  match t with
  | Node terminal edges =>
    (match terminal with Some e => [([], e)] | None => [] end) ++
    (fix go edges := match edges with
     | [] => []
     | (label, t) :: edges => ((fun '(name, e) => (label ++ name, e)) <$> entries t) ++ go edges
     end) edges
  end.

(** The edges of a node as the bytes list them: labels with child offsets. *)
Fixpoint edge_list (bytes : list Z) (count : nat) (cursor : Z) : option (list (list Z * Z)) :=
  match count with
  | O => Some []
  | S count =>
    if terminated (trie_from bytes cursor) then
      let label := c_string (trie_from bytes cursor) in
      '(offset, cursor) ← export_uleb bytes (cursor + Z.of_nat (length label) + 1) (trie_size bytes);
      if offset <? trie_size bytes then
        rest ← edge_list bytes count cursor;
        Some ((label, offset) :: rest)
      else None
    else None
  end.
(** No label that is not empty begins another one. *)
Definition unambiguous (labels : list (list Z)) : Prop :=
  forall i j l l', labels !! i = Some l -> labels !! j = Some l' -> l <> [] -> l' <> [] -> l `prefix_of` l' -> i = j.
(** [bytes] hold a trie at offset [node]. An edge may have an empty label, which
    linkers use for a name that begins another one. *)
Inductive encodes (bytes : list Z) : Z -> Trie -> Prop :=
| encodes_node node terminal_size cursor offsets edges :
    0 <= node < trie_size bytes ->
    export_uleb bytes node (trie_size bytes) = Some (terminal_size, cursor) ->
    cursor + terminal_size < trie_size bytes ->
    edge_list bytes (Z.to_nat (trie_byte bytes (cursor + terminal_size))) (cursor + terminal_size + 1) = Some offsets ->
    unambiguous (offsets.*1) ->
    Forall2 (fun e e' => e.1 = e'.1 /\ encodes bytes e.2 e'.2) offsets edges ->
    encodes bytes node
      (Node (if terminal_size =? 0 then None else Some (cursor, cursor + terminal_size)) edges).

(** A name has one way through the trie: where two edges of a node match it, it is
    not behind the second, and where a terminal stands no empty edge leads to
    another one for the same name. *)
Inductive direct : Trie -> Prop :=
| direct_node terminal edges :
    (forall i t e, is_Some terminal -> edges !! i = Some ([], t) -> ([], e) ∉ entries t) ->
    (forall i j l l' t t' name e, (i < j)%nat -> edges !! i = Some (l, t) -> edges !! j = Some (l', t') ->
      (name, e) ∈ entries t' -> ~ l `prefix_of` l' ++ name) ->
    Forall (fun edge => direct edge.2) edges ->
    direct (Node terminal edges).
(** The most empty edges on a way down. *)
Fixpoint empties (t : Trie) : nat :=
  match t with
  | Node _ edges =>
    (fix go edges := match edges with
     | [] => O
     | (label, t) :: edges => Nat.max ((if bool_decide (label = []) then 1 else 0) + empties t) (go edges)
     end) edges
  end.
Lemma empties_edge terminal edges i label t :
  edges !! i = Some (label, t) ->
  ((if bool_decide (label = []) then 1 else 0) + empties t <= empties (Node terminal edges))%nat.
Proof.
  cbn [empties]. revert i. induction edges as [|[l t'] edges IH]; intros i Hi; [done|].
  destruct i as [|i]; [injection Hi as -> ->; lia|]. specialize (IH i Hi). lia.
Qed.

(** The edge a name follows: the first that matches. *)
Fixpoint follow {A} (symbol : list Z) (edges : list (list Z * A)) : option (A * nat) :=
  match edges with
  | [] => None
  | (label, a) :: edges =>
    if prefix_of label symbol then Some (a, length label) else follow symbol edges
  end.

Lemma prefix_of_true label symbol : prefix_of label symbol = true <-> exists rest, symbol = label ++ rest.
Proof.
  revert symbol. induction label as [|a label IH]; intros symbol; cbn [prefix_of app].
  { split; [by exists symbol|done]. }
  destruct symbol as [|b symbol]; [split; [done|by intros [??]]|].
  rewrite andb_true_iff, Z.eqb_eq, IH. split.
  - intros [-> [rest ->]]. by exists rest.
  - intros [rest [= -> ->]]. split; [done|]. by exists rest.
Qed.

Lemma prefix_of_iff label symbol : prefix_of label symbol = true <-> label `prefix_of` symbol.
Proof. rewrite prefix_of_true. reflexivity. Qed.
Lemma prefixes_ordered {A} (a b c : list A) : a `prefix_of` c -> b `prefix_of` c -> a `prefix_of` b \/ b `prefix_of` a.
Proof.
  intros [x ->]. revert b x. induction a as [|h a IH]; intros b x; [left; by exists b|]. destruct b as [|h' b]; [right; by eexists|].
  intros [y Hy]. injection Hy as -> Hy. destruct (IH b x) as [[k ->]|[k ->]]; [by exists y|left; by exists k|right; by exists k].
Qed.
Lemma unambiguous_cons l labels :
  unambiguous (l :: labels) -> unambiguous labels /\
    forall l' symbol, l <> [] -> l' <> [] -> l' ∈ labels -> l `prefix_of` symbol -> ~ l' `prefix_of` symbol.
Proof.
  intros H. split.
  - intros i j a b Ha Hb Hna Hnb Hp. assert (S i = S j) as [= E]; [|done]. by eapply (H (S i) (S j)).
  - intros l' symbol Hl Hl' Hin Hp Hp'. apply list_elem_of_lookup in Hin as [i Hi].
    destruct (prefixes_ordered _ _ _ Hp Hp') as [Ho|Ho].
    + by specialize (H 0%nat (S i) _ _ eq_refl Hi Hl Hl' Ho).
    + by specialize (H (S i) 0%nat _ _ Hi eq_refl Hl' Hl Ho).
Qed.
(** Once an edge with a label has matched, no other one of a valid node does. *)
Lemma edge_loop_follow bytes count cursor symbol offsets labelled found :
  edge_list bytes count cursor = Some offsets -> unambiguous (offsets.*1) ->
  (labelled = true -> forall l, l ∈ offsets.*1 -> l <> [] -> ~ l `prefix_of` symbol) ->
  edge_loop bytes count cursor symbol labelled found =
    Some (match found with Some x => Some x | None => follow symbol offsets end).
Proof.
  revert cursor offsets labelled found. induction count as [|count IH]; intros cursor offsets labelled found;
    cbn [edge_list edge_loop].
  { intros [= <-] _ _. by destruct found. }
  destruct (terminated _); cbn [negb]; [|done]. set (label := c_string _).
  destruct (export_uleb _ _ _) as [[offset cursor']|]; cbn [mbind option_bind]; [|done].
  rewrite Z.ltb_antisym. destruct (trie_size bytes <=? offset); cbn [negb]; [done|].
  destruct (edge_list bytes count cursor') as [rest|] eqn:Erest; cbn [mbind option_bind]; [|done].
  intros [= <-]. cbn [fmap list_fmap fst]. intros [Hrest Hone]%unambiguous_cons Hlabelled.
  assert ((length label =? 0)%nat = bool_decide (label = [])) as -> by (by destruct label).
  cbn [follow]. destruct (prefix_of label symbol) eqn:Hp; cbn [andb]; cycle 1.
  { rewrite orb_false_r. apply IH; [done|done|]. intros Hl l Hin. apply Hlabelled; [done|by right]. }
  apply prefix_of_iff in Hp. assert (negb (bool_decide (label = [])) && labelled = false) as ->.
  { case_bool_decide as He; [done|]. destruct labelled; [|done]. by destruct (Hlabelled eq_refl label ltac:(left) He). }
  rewrite (IH cursor' rest); [by destruct found as [x|]|done|done|].
  intros Hl l Hin Hne. case_bool_decide as He; cbn [negb] in Hl.
  - rewrite orb_false_r in Hl. apply Hlabelled; [done|by right|done].
  - by apply Hone.
Qed.

Lemma elem_of_entries terminal edges name e :
  (name, e) ∈ entries (Node terminal edges) <->
  name = [] /\ terminal = Some e \/
  exists i label t rest, edges !! i = Some (label, t) /\ name = label ++ rest /\ (rest, e) ∈ entries t.
Proof.
  cbn [entries]. rewrite elem_of_app.
  assert (forall P Q R : Prop, (P <-> Q) -> P \/ R <-> Q \/ R) as Hor by (intros; tauto).
  assert ((name, e) ∈ (match terminal with Some e => [([], e)] | None => [] end) <-> name = [] /\ terminal = Some e) as Ht.
  { destruct terminal as [e'|].
    - rewrite list_elem_of_singleton. split; [by intros [= -> ->]|by intros [-> [= ->]]].
    - split; [by intros ?%not_elem_of_nil|by intros [_ ?]]. }
  rewrite Ht. apply or_iff_compat_l. clear Ht Hor. induction edges as [|[label t] edges IH].
  { split; [by intros ?%not_elem_of_nil|by intros ([|i] & ? & ? & ? & ? & _)]. }
  rewrite elem_of_app, IH, list_elem_of_fmap. split.
  - intros [([rest e'] & [= -> ->] & Hin)|(i & l & t' & rest & Hi & Hr)].
    + by exists 0%nat, label, t, rest.
    + by exists (S i), l, t', rest.
  - intros ([|i] & l & t' & rest & Hi & -> & Hin).
    + injection Hi as <- <-. left. by exists (rest, e).
    + right. by exists i, l, t', rest.
Qed.

Lemma follow_Some {A} symbol (edges : list (list Z * A)) a n :
  follow symbol edges = Some (a, n) ->
  exists i label rest, edges !! i = Some (label, a) /\ symbol = label ++ rest /\ drop n symbol = rest /\
    forall j l a', (j < i)%nat -> edges !! j = Some (l, a') -> ~ l `prefix_of` symbol.
Proof.
  induction edges as [|[label a'] edges IH]; [done|]. cbn [follow]. destruct (prefix_of label symbol) eqn:Hp.
  - intros [= <- <-]. apply prefix_of_true in Hp as [rest ->]. exists 0%nat, label, rest. split; [done|].
    split; [done|]. split; [by rewrite drop_app_length|]. intros j l a0 Hj. lia.
  - intros (i & l & rest & Hi & Hs & Hd & Hfirst)%IH. exists (S i), l, rest. split; [done|]. split; [done|]. split; [done|].
    intros [|j] l0 a0 Hj Hl; [injection Hl as <- _; by rewrite <- prefix_of_iff, Hp|]. apply (Hfirst j l0 a0); [lia|done].
Qed.
Lemma follow_None {A} symbol (edges : list (list Z * A)) i label a rest :
  follow symbol edges = None -> edges !! i = Some (label, a) -> symbol <> label ++ rest.
Proof.
  revert i. induction edges as [|[l a'] edges IH]; intros i Hn Hi; [done|]. cbn [follow] in Hn.
  destruct (prefix_of l symbol) eqn:Hp; [done|]. destruct i as [|i]; [|by eapply IH].
  injection Hi as -> ->. intros ->. enough (prefix_of label (label ++ rest) = true) by congruence.
  apply prefix_of_true. by exists rest.
Qed.
Section lookup.
Context (image : GuestImage) (bytes : list Z).

Lemma export_loop_entries steps node symbol t :
  encodes bytes node t -> direct t -> (length symbol + empties t < steps)%nat ->
  (forall e, (symbol, e) ∈ entries t -> export_loop bytes image steps node symbol = terminal_result bytes image e.1 e.2) /\
  ((forall e, (symbol, e) ∉ entries t) -> export_loop bytes image steps node symbol = (GI_EXPORT_MISSING, no_export)).
Proof.
  revert node symbol t. induction steps as [|steps IH]; intros node symbol t Ht Hdirect Hlen; [lia|].
  inversion Ht as [? terminal_size cursor offsets edges Hnode Huleb Hroom Hedges Hlabels Hsub]; subst.
  inversion Hdirect as [? ? Hterminal Hfirst Hdeep]; subst.
  cbn [export_loop]. destruct (Z.leb_spec (trie_size bytes) node); [lia|]. rewrite Huleb.
  destruct (Z.ltb_spec (trie_size bytes - cursor) terminal_size); [lia|]. cbv zeta.
  destruct (Z.eqb_spec (cursor + terminal_size) (trie_size bytes)); [lia|].
  destruct (bool_decide (symbol = []) && negb (terminal_size =? 0)) eqn:Hterm.
  { apply andb_true_iff in Hterm as [->%bool_decide_eq_true Hz%negb_true_iff]. rewrite Hz in *. split.
    - intros e [[_ He]|(i & label & t' & rest & Hi & [-> ->]%eq_sym%app_nil & Hin)]%elem_of_entries; [by injection He as <-|].
      by destruct (Hterminal i t' e ltac:(done) Hi).
    - intros Hno. destruct (Hno (cursor, cursor + terminal_size)). apply elem_of_entries. by left. }
  rewrite (edge_loop_follow _ _ _ _ offsets) by done.
  assert (forall e, (symbol, e) ∈ entries (Node (if terminal_size =? 0 then None else Some (cursor, cursor + terminal_size)) edges) ->
    exists i label t' rest, edges !! i = Some (label, t') /\ symbol = label ++ rest /\ (rest, e) ∈ entries t') as Hedge.
  { intros e [[-> He]|?]%elem_of_entries; [|done]. rewrite bool_decide_true in Hterm by done.
    by destruct (terminal_size =? 0). }
  destruct (follow symbol offsets) as [[next consumed]|] eqn:Hf.
  - apply follow_Some in Hf as (i & label & rest & Hi & Hs & -> & Hbefore).
    destruct (Forall2_lookup_l _ _ _ _ _ Hsub Hi) as ([l t'] & Ht' & Hl & He). cbn in Hl, He. subst l.
    rewrite Forall_lookup in Hdeep. specialize (Hdeep i _ Ht'). cbn in Hdeep.
    destruct (IH next rest t' He Hdeep) as [IH1 IH2].
    { pose proof (empties_edge (if terminal_size =? 0 then None else Some (cursor, cursor + terminal_size)) edges i label t' Ht') as Hempty.
      assert (length symbol = length label + length rest)%nat by (rewrite Hs; apply length_app).
      case_bool_decide as El; [lia|]. destruct label; [done|cbn in *; lia]. }
    split.
    + intros e (j & l & t2 & rest2 & Hj & Hs2 & Hin)%Hedge. apply IH1.
      destruct (Nat.lt_trichotomy j i) as [Hlt|[->|Hlt]].
      * destruct (Forall2_lookup_r _ _ _ _ _ Hsub Hj) as ([l0 o] & Ho & Hl0 & _). cbn in Hl0. subst l0.
        destruct (Hbefore j l o Hlt Ho). by exists rest2.
      * rewrite Ht' in Hj. injection Hj as <- <-. rewrite Hs in Hs2. apply app_inv_head in Hs2. by subst.
      * destruct (Hfirst i j label l t' t2 rest2 e Hlt Ht' Hj Hin). rewrite <- Hs2. by exists rest.
    + intros Hno. apply IH2. intros e Hin. apply (Hno e). apply elem_of_entries. right. by exists i, label, t', rest.
  - split; [|done]. intros e (i & label & t' & rest & Hi & Hs & _)%Hedge.
    destruct (Forall2_lookup_r _ _ _ _ _ Hsub Hi) as ([l o] & Ho & Hl & _). cbn in Hl. subst l.
    by destruct (follow_None symbol offsets i label o rest Hf Ho).
Qed.
End lookup.


(** ** Any trie *)

Lemma uleb_loop_nonneg bytes n shift value cursor stop v c :
  0 <= value -> uleb_loop bytes n shift value cursor stop = Some (v, c) -> 0 <= v.
Proof.
  revert shift value cursor. induction n as [|n IH]; intros shift value cursor Hv; [done|]. cbn [uleb_loop].
  destruct (cursor <? stop); [|done]. cbv zeta. intros H. returned H.
  assert (0 <= Z.lor value (w64 (Z.shiftl (Z.land (trie_byte bytes cursor) 127) shift))) as Hl
    by (apply Z.lor_nonneg; split; [done|apply w64_range]).
  destruct (Z.land (trie_byte bytes cursor) 128 =? 0); [by injection H as <- _|]. by eapply IH.
Qed.

(** What an answer promises of the image. *)
Definition export_sound (image : GuestImage) (r : GIExportResult * GIExport) : Prop :=
  let '(result, e) := r in
  match result with
  | GI_EXPORT_FOUND =>
    (ex_absolute e = false -> exists s, s ∈ gi_segments image /\ sg_prot s <> 0 /\
      sg_address s <= ex_address e < sg_address s + sg_size s) /\
    (ex_per_thread e = true -> exists k, ex_address e = tls_descriptors (gi_tls image) + 24 * k /\ 0 <= k /\
      24 * k < tls_descriptors_size (gi_tls image))
  | GI_EXPORT_REEXPORT =>
    1 <= ex_ordinal e <= Z.of_nat (length (gi_dylibs image)) /\ ex_name e <> Some []
  | _ => e = no_export
  end.
Lemma reexport_result_sound bytes image cursor children :
  export_sound image (reexport_result bytes image cursor children).
Proof.
  unfold reexport_result. destruct (export_uleb _ _ _) as [[ordinal c]|] eqn:E; [|done].
  apply uleb_loop_nonneg in E; [|done]. destruct ((ordinal =? 0) || _) eqn:Ho; [done|]. cbv zeta.
  match goal with |- export_sound _ (if ?b then _ else _) => destruct b; [done|] end. bool_props. unfold export_sound. split; [cbn; lia|]. cbn. case_bool_decide; congruence.
Qed.
Lemma address_result_sound bytes image flags cursor children :
  export_sound image (address_result bytes image flags cursor children).
Proof.
  unfold address_result. destruct (export_uleb _ _ _) as [[value c]|]; [|done].
  destruct (negb (c =? children)); [done|]. cbv zeta. set (is_absolute := _ =? KIND_ABSOLUTE).
  destruct (negb is_absolute && (_ <? value)); [done|].
  set (address := if is_absolute then value else value + gi_header_address image).
  destruct (negb is_absolute && negb (in_image image address)) eqn:Hin; [done|].
  set (per_thread := _ =? KIND_THREAD_LOCAL). destruct (per_thread && _) eqn:Ht; [done|]. unfold export_sound. cbn [ex_absolute ex_per_thread ex_address]. split.
  - intros Ha. rewrite Ha in Hin. cbn in Hin. apply negb_false_iff, existsb_exists in Hin as (s & Hs%list_elem_of_In & Hc).
    exists s. split; [done|]. bool_props. lia.
  - intros Hp. rewrite Hp in Ht. cbn in Ht. bool_props.
    exists ((address - tls_descriptors (gi_tls image)) / 24).
    pose proof (Z.div_mod (address - tls_descriptors (gi_tls image)) 24). lia.
Qed.
Lemma terminal_result_sound bytes image cursor children :
  export_sound image (terminal_result bytes image cursor children).
Proof.
  unfold terminal_result. destruct (export_uleb _ _ _) as [[flags c]|]; [|done]. cbv zeta.
  destruct (negb (none_outside _ _) || _); [done|].
  destruct (negb (Z.land flags REEXPORT =? 0)); [apply reexport_result_sound|apply address_result_sound].
Qed.
(** Whatever the trie's bytes, an address that is not absolute lies in an
    accessible segment, a thread-local one is one of the image's descriptors, and
    a re-export names one of the image's libraries. *)
Theorem gi_export_sound image symbol out : export_sound image (gi_export image symbol out).
Proof.
  unfold gi_export. destruct symbol as [symbol|]; [|done]. destruct (negb out); [done|].
  case_bool_decide; [done|]. destruct (gi_exports image) as [bytes|]; [|done].
  destruct (_ <? _)%nat; [done|]. generalize (length symbol + Z.to_nat 8192)%nat, 0. intros steps.
  clear H. revert symbol. induction steps as [|steps IH]; intros symbol node; cbn [export_loop]; [done|].
  destruct (trie_size bytes <=? node); [done|]. destruct (export_uleb _ _ _) as [[ts c]|]; [|done].
  destruct (_ <? ts); [done|]. cbv zeta. destruct (bool_decide (symbol = []) && _); [apply terminal_result_sound|].
  destruct (_ =? trie_size bytes); [done|]. by destruct (edge_loop _ _ _ _ _ _) as [[[next n]|]|].
Qed.

(** ** Witnesses *)

(** The names [_sample] and [_sampleWait], the way linkers write a name that begins
    another one: behind [_sample] an empty edge leads to its terminal, whose node
    leads on. *)
Definition str_sample : list Z := [95; 115; 97; 109; 112; 108; 101].
Definition str_Wait : list Z := [87; 97; 105; 116].
Definition example_trie : list Z :=
  concat [[0; 1]; str_sample; [0; 11]; [0; 1; 0; 15]; [3; 0; 0x80; 0x20; 1]; str_Wait; [0; 26]; [3; 0; 0x84; 0x20; 0]].
Definition example_wait : Trie := Node (Some (27, 30)) [].
Definition example_names : Trie := Node (Some (16, 19)) [(str_Wait, example_wait)].
Definition example_tree : Trie := Node None [(str_sample, Node None [([], example_names)])].
Definition example_exports : GuestImage :=
  mkImage gm_empty [example_segment] 0 0 0 0 0 0 0 no_dyld 2 (Some example_trie) None 0x100000000 0
    no_unwind no_tls [] [] false false [].
Lemma unambiguous_single l : unambiguous [l].
Proof. by intros [|i] [|j]. Qed.
Lemma direct_single terminal label t : terminal = None \/ label <> [] -> direct t -> direct (Node terminal [(label, t)]).
Proof.
  intros Hone Ht. constructor.
  - intros [|i] t' e [? Hterminal] [= -> ->]. by destruct Hone as [->|].
  - intros i [|j] l l' t1 t2 name e Hlt; [lia|done].
  - by constructor.
Qed.
Lemma example_tree_encodes : encodes example_trie 0 example_tree.
Proof.
  assert (forall node size cursor offsets edges terminal,
    (0 <=? node) && (node <? trie_size example_trie) && (cursor + size <? trie_size example_trie) = true ->
    export_uleb example_trie node (trie_size example_trie) = Some (size, cursor) ->
    edge_list example_trie (Z.to_nat (trie_byte example_trie (cursor + size))) (cursor + size + 1) = Some offsets ->
    unambiguous (offsets.*1) ->
    Forall2 (fun e e' => e.1 = e'.1 /\ encodes example_trie e.2 e'.2) offsets edges ->
    terminal = (if size =? 0 then None else Some (cursor, cursor + size)) -> encodes example_trie node (Node terminal edges)) as Hnode.
  { intros node size cursor offsets edges terminal Hb ? ? ? ? ->. bool_props. by econstructor. }
  assert (encodes example_trie 26 example_wait).
  { eapply (Hnode 26 3 27 [] []); [vm_compute; reflexivity..|intros [|i] j l l'; discriminate|constructor|reflexivity]. }
  assert (encodes example_trie 15 example_names).
  { eapply (Hnode 15 3 16 [(str_Wait, 26)]); [vm_compute; reflexivity..|apply unambiguous_single|by repeat constructor|reflexivity]. }
  assert (encodes example_trie 11 (Node None [([], example_names)])).
  { eapply (Hnode 11 0 12 [([], 15)]); [vm_compute; reflexivity..|apply unambiguous_single|by repeat constructor|reflexivity]. }
  eapply (Hnode 0 0 1 [(str_sample, 11)]); [vm_compute; reflexivity..|apply unambiguous_single|by repeat constructor|reflexivity].
Qed.
Lemma example_tree_direct : direct example_tree.
Proof.
  apply direct_single; [by left|]. apply direct_single; [by left|]. apply direct_single; [by right|].
  constructor; [done|intros i j l l' t t' name e _; done|constructor].
Qed.
