(* ===== verification/FixupFormat.v ===== *)
(** * FixupFormat: what the fixups of a Mach-O file say

    The formats that GuestFixups applies, as relations on the bytes: LEB128
    numbers, the rebase and the bind opcodes, and the chained fixups with their
    imports table. None of it mentions the code that reads them. A fixup is
    followed when the pointer it names holds the value it asks for. *)
From S2P Require Import Prelude GuestMemory GuestImage.

(** ** Pointers stored *)

(** A pointer written, as the observer is told: [ev_symbol] is [None] for a rebase. *)
Record Event := mkEvent { ev_address : Z; ev_value : Z; ev_symbol : option (list Z) }.
(** An address space with a pointer stored, and with a list of them in order. *)
Definition with_pointer (view : Z -> option Cell) (e : Event) (x : Z) : option Cell :=
  if decide (ev_address e <= x < ev_address e + 8)
  then cell_with_byte (default 0 (le_bytes 8 (ev_value e) !! Z.to_nat (x - ev_address e))) <$> view x
  else view x.
Definition written (view : Z -> option Cell) (events : list Event) : Z -> option Cell := foldl with_pointer view events.
Lemma written_ext events view view' :
  (forall x, view' x = view x) -> forall x, written view' events x = written view events x.
Proof.
  revert view view'. induction events as [|e events IH]; intros view view' Hv; [exact Hv|].
  apply IH. intros x. unfold with_pointer. by rewrite Hv.
Qed.
Lemma written_app view events events' x : written view (events ++ events') x = written (written view events) events' x.
Proof. unfold written. by rewrite foldl_app. Qed.
(** The bytes from an address on, and the eight of a pointer as a number. *)
Definition bytes_at (view : Z -> option Cell) (address : Z) (bytes : list Z) : Prop :=
  forall i, (i < length bytes)%nat -> bytes !! i = c_byte <$> view (address + Z.of_nat i).
Definition pointer_at (view : Z -> option Cell) (address raw : Z) : Prop :=
  exists bytes, length bytes = 8%nat /\ bytes_at view address bytes /\ le_value bytes = raw.

(** A report relates an address space to the pointers stored into it. *)
Definition Report : Type := (Z -> option Cell) -> list Event -> Prop.
Definition after (view : Z -> option Cell) (events : list Event) (view' : Z -> option Cell) : Prop :=
  forall x, view' x = written view events x.
Definition nothing : Report := fun _ events => events = [].
(** First one, then the other in the address space that it left. *)
Definition and_then (P Q : Report) : Report := fun view events =>
  exists first view' rest, events = first ++ rest /\ P view first /\ after view first view' /\ Q view' rest.
(** One for each of [n] indices from [i] on. *)
Fixpoint for_each (n : nat) (i : Z) (P : Z -> Report) : Report :=
  match n with O => nothing | S n => and_then (P i) (for_each n (i + 1) P) end.

(** ** Numbers *)

(** LEB128: seven bits a byte, low ones first; in a signed number the last byte's
    bit 6 is the sign. *)
Inductive Uleb : list Z -> Z -> list Z -> Prop :=
| uleb_last b rest : b < 128 -> Uleb (b :: rest) b rest
| uleb_more b bytes v rest : 128 <= b -> Uleb bytes v rest -> Uleb (b :: bytes) (b - 128 + 128 * v) rest.
Inductive Sleb : list Z -> Z -> list Z -> Prop :=
| sleb_positive b rest : b < 64 -> Sleb (b :: rest) b rest
| sleb_negative b rest : 64 <= b < 128 -> Sleb (b :: rest) (b - 128) rest
| sleb_more b bytes v rest : 128 <= b -> Sleb bytes v rest -> Sleb (b :: bytes) (b - 128 + 128 * v) rest.
(** [width] bits of a number from bit [low] on. *)
Definition bits (raw low width : Z) : Z := (raw / 2 ^ low) mod 2 ^ width.
(** A little-endian field, and a string with its terminator, inside a blob. *)
Definition field_at (blob : list Z) (offset : Z) (size : nat) (v : Z) : Prop :=
  exists before bytes rest, blob = before ++ bytes ++ rest /\ Z.of_nat (length before) = offset /\
    length bytes = size /\ le_value bytes = v.
Definition text_at (blob : list Z) (offset : Z) (text : list Z) : Prop :=
  exists before rest, blob = before ++ text ++ 0 :: rest /\ Z.of_nat (length before) = offset /\ Forall (fun b => b <> 0) text.

(** ** Opcodes *)

(** What a stream asks for, by segment and offset: the pointer there moved by the
    slide, or replaced by a symbol's value with the addend. *)
Inductive Fixup :=
| Rebase (seg offset : Z)
| Import (seg offset : Z) (symbol : list Z) (ordinal : Z) (weak lazy : bool) (addend : Z).
(** [count] offsets, [step] apart. *)
Definition places (count offset step : Z) : list Z :=
  (fun k => w64 (offset + Z.of_nat k * step)) <$> seq 0 (Z.to_nat count).

(** [rebase_times bytes count skip rest]: an opcode that rebases [count] pointers. *)
Inductive rebase_times_says : list Z -> Z -> Z -> list Z -> Prop :=
| do_rebase_imm_times imm bytes : 0 <= imm < 16 -> rebase_times_says (0x50 + imm :: bytes) imm 0 bytes
| do_rebase_uleb_times imm bytes count rest :
    0 <= imm < 16 -> Uleb bytes count rest -> rebase_times_says (0x60 + imm :: bytes) count 0 rest
| do_rebase_add_addr_uleb imm bytes skip rest :
    0 <= imm < 16 -> Uleb bytes skip rest -> rebase_times_says (0x70 + imm :: bytes) 1 skip rest
| do_rebase_uleb_times_skipping_uleb imm bytes count bytes' skip rest :
    0 <= imm < 16 -> Uleb bytes count bytes' -> Uleb bytes' skip rest ->
    rebase_times_says (0x80 + imm :: bytes) count skip rest.
Inductive rebases_say : list Z -> Z -> Z -> Z -> list Fixup -> Prop :=
| rebase_done imm bytes seg offset type : 0 <= imm < 16 -> rebases_say (imm :: bytes) seg offset type []
| rebase_set_type imm bytes seg offset type fixups :
    0 <= imm < 16 -> rebases_say bytes seg offset imm fixups -> rebases_say (0x10 + imm :: bytes) seg offset type fixups
| rebase_set_segment imm bytes v rest seg offset type fixups :
    0 <= imm < 16 -> Uleb bytes v rest -> rebases_say rest imm v type fixups ->
    rebases_say (0x20 + imm :: bytes) seg offset type fixups
| rebase_add imm bytes v rest seg offset type fixups :
    0 <= imm < 16 -> Uleb bytes v rest -> rebases_say rest seg (offset + v) type fixups ->
    rebases_say (0x30 + imm :: bytes) seg offset type fixups
| rebase_add_scaled imm bytes seg offset type fixups :
    0 <= imm < 16 -> rebases_say bytes seg (offset + 8 * imm) type fixups ->
    rebases_say (0x40 + imm :: bytes) seg offset type fixups
| rebase_times_do bytes count skip rest seg offset type fixups :
    rebase_times_says bytes count skip rest -> (0 < count -> type = 1) ->
    rebases_say rest seg (w64 (offset + count * (8 + skip))) type fixups ->
    rebases_say bytes seg offset type ((Rebase seg <$> places count offset (8 + skip)) ++ fixups).

(** The registers of the bind opcodes. *)
Record Binding := mkBinding {
  bi_seg : Z; bi_offset : Z; bi_addend : Z; bi_ordinal : Z; bi_type : Z; bi_flags : Z;
  bi_symbol : option (list Z)
}.
Definition start_binding (ordinal : Z) : Binding := mkBinding (2 ^ 64 - 1) 0 0 ordinal 1 0 None.
Section binds.
Context (dylibs : Z).
(** An opcode that sets registers. *)
Inductive bind_sets : list Z -> Binding -> list Z -> Binding -> Prop :=
| bind_ordinal_imm imm bytes s o a d t f n :
    0 <= imm < 16 -> bind_sets (0x10 + imm :: bytes) (mkBinding s o a d t f n) bytes (mkBinding s o a imm t f n)
| bind_ordinal_uleb imm bytes v rest s o a d t f n :
    0 <= imm < 16 -> Uleb bytes v rest -> v <= dylibs ->
    bind_sets (0x20 + imm :: bytes) (mkBinding s o a d t f n) rest (mkBinding s o a v t f n)
| bind_special_imm imm bytes s o a d t f n :
    0 <= imm < 16 ->
    bind_sets (0x30 + imm :: bytes) (mkBinding s o a d t f n) bytes
      (mkBinding s o a (if imm =? 0 then 0 else imm - 16) t f n)
| bind_symbol imm name rest s o a d t f n :
    0 <= imm < 16 -> Forall (fun b => b <> 0) name ->
    bind_sets (0x40 + imm :: name ++ 0 :: rest) (mkBinding s o a d t f n) rest (mkBinding s o a d t imm (Some name))
| bind_type_imm imm bytes s o a d t f n :
    0 <= imm < 16 -> bind_sets (0x50 + imm :: bytes) (mkBinding s o a d t f n) bytes (mkBinding s o a d imm f n)
| bind_addend_sleb imm bytes v rest s o a d t f n :
    0 <= imm < 16 -> Sleb bytes v rest ->
    bind_sets (0x60 + imm :: bytes) (mkBinding s o a d t f n) rest (mkBinding s o (w64 v) d t f n)
| bind_segment imm bytes v rest s o a d t f n :
    0 <= imm < 16 -> Uleb bytes v rest ->
    bind_sets (0x70 + imm :: bytes) (mkBinding s o a d t f n) rest (mkBinding imm v a d t f n)
| bind_add_addr imm bytes v rest s o a d t f n :
    0 <= imm < 16 -> Uleb bytes v rest ->
    bind_sets (0x80 + imm :: bytes) (mkBinding s o a d t f n) rest (mkBinding s (w64 (o + v)) a d t f n).
(** An opcode that binds [count] pointers. *)
Inductive bind_times_says : list Z -> Z -> Z -> list Z -> Prop :=
| do_bind imm bytes : 0 <= imm < 16 -> bind_times_says (0x90 + imm :: bytes) 1 0 bytes
| do_bind_add_addr_uleb imm bytes skip rest :
    0 <= imm < 16 -> Uleb bytes skip rest -> bind_times_says (0xa0 + imm :: bytes) 1 skip rest
| do_bind_add_addr_imm_scaled imm bytes : 0 <= imm < 16 -> bind_times_says (0xb0 + imm :: bytes) 1 (8 * imm) bytes
| do_bind_uleb_times_skipping_uleb imm bytes count bytes' skip rest :
    0 <= imm < 16 -> Uleb bytes count bytes' -> Uleb bytes' skip rest ->
    bind_times_says (0xc0 + imm :: bytes) count skip rest.
Context (lazy weak_stream : bool).
Definition imports_of (b : Binding) (count skip : Z) : list Fixup :=
  (fun place => Import (bi_seg b) place (default [] (bi_symbol b)) (bi_ordinal b) (Z.odd (bi_flags b) || weak_stream) lazy (bi_addend b))
    <$> places count (bi_offset b) (8 + skip).
(** A DONE ends a stream, but in the lazy one it ends an entry: each is a stream
    of its own, the last of them ended when the bytes do. *)
Inductive binds_say : list Z -> bool -> Binding -> list Fixup -> Prop :=
| bind_done imm bytes ended b : lazy = false -> 0 <= imm < 16 -> binds_say (imm :: bytes) ended b []
| bind_entry_done imm bytes ended b fixups :
    lazy = true -> 0 <= imm < 16 -> binds_say bytes true (start_binding 0) fixups ->
    binds_say (imm :: bytes) ended b fixups
| bind_lazy_end b : lazy = true -> binds_say [] true b []
| bind_set bytes ended b rest b' fixups :
    bind_sets bytes b rest b' -> binds_say rest false b' fixups -> binds_say bytes ended b fixups
| bind_times_do bytes ended b count skip rest fixups :
    bind_times_says bytes count skip rest ->
    (0 < count -> is_Some (bi_symbol b) /\ bi_type b = 1 /\ -3 <= bi_ordinal b <= dylibs) ->
    binds_say rest false (mkBinding (bi_seg b) (w64 (bi_offset b + count * (8 + skip))) (bi_addend b) (bi_ordinal b)
                            (bi_type b) (bi_flags b) (bi_symbol b)) fixups ->
    binds_say bytes ended b (imports_of b count skip ++ fixups).
End binds.

Section image.
Context (image : GuestImage) (resolve : list Z -> Z -> bool -> bool -> Z -> bool * Z) (slide : Z).

(** The address of a place: an aligned one, inside a segment that may be accessed. *)
Definition at_place (seg offset address : Z) : Prop :=
  exists sg, gi_segments image !! Z.to_nat seg = Some sg /\ sg_prot sg <> 0 /\
    0 <= offset /\ offset + 8 <= sg_size sg /\ offset mod 8 = 0 /\ address = sg_address sg + offset.
(** The pointer that follows a fixup. *)
Inductive follows_one (view : Z -> option Cell) : Fixup -> Event -> Prop :=
| follows_rebase seg offset address raw :
    at_place seg offset address -> pointer_at view address raw ->
    follows_one view (Rebase seg offset) (mkEvent address (w64 (raw + slide)) None)
| follows_import seg offset symbol ordinal weak lazy addend address value :
    at_place seg offset address -> resolve symbol ordinal weak lazy 0 = (true, value) ->
    follows_one view (Import seg offset symbol ordinal weak lazy addend) (mkEvent address (w64 (value + addend)) (Some symbol)).
Inductive follows : list Fixup -> Report :=
| follows_nil view : follows [] view []
| follows_cons view f e view' fixups events :
    follows_one view f e -> after view [e] view' -> follows fixups view' events ->
    follows (f :: fixups) view (e :: events).
(** The bytes of a file range, from the first segment that holds it. *)
Definition in_file (sg : GISegment) (offset size : Z) : Prop :=
  sg_file_offset sg <= offset /\ offset + size <= sg_file_offset sg + sg_file_size sg.
Definition stream_at (view : Z -> option Cell) (offset size : Z) (bytes : list Z) : Prop :=
  exists i sg, gi_segments image !! i = Some sg /\ in_file sg offset size /\
    (forall j sg', (j < i)%nat -> gi_segments image !! j = Some sg' -> ~ in_file sg' offset size) /\
    Z.of_nat (length bytes) = size /\ bytes_at view (sg_address sg + (offset - sg_file_offset sg)) bytes.
(** A stream's fixups followed, in order. *)
Definition stream_follows (offset size : Z) (says : list Z -> list Fixup -> Prop) : Report := fun view events =>
  if size =? 0 then events = [] else
  exists bytes fixups, stream_at view offset size bytes /\ says bytes fixups /\ follows fixups view events.
Definition opcodes_follow : Report :=
  let d := gi_dyld image in let dylibs := Z.of_nat (length (gi_dylibs image)) in
  and_then (stream_follows (di_rebase_offset d) (di_rebase_size d) (fun bytes => rebases_say bytes (2 ^ 64 - 1) 0 0))
 (and_then (stream_follows (di_lazy_bind_offset d) (di_lazy_bind_size d) (fun bytes => binds_say dylibs true false bytes false (start_binding 0)))
 (and_then (stream_follows (di_bind_offset d) (di_bind_size d) (fun bytes => binds_say dylibs false false bytes false (start_binding 0)))
           (stream_follows (di_weak_bind_offset d) (di_weak_bind_size d) (fun bytes => binds_say dylibs false true bytes false (start_binding (-3)))))).

(** ** Chained fixups *)

Record ChainedImport := mkImport { im_name : list Z; im_ordinal : Z; im_weak : bool; im_addend : Z }.
(** Ordinals are stored unsigned, the last fifteen values being negative ones. *)
Definition stored_ordinal (width v : Z) : Z := if 2 ^ width - 16 <? v then v - 2 ^ width else v.
Definition signed_32 (v : Z) : Z := if v <? 2 ^ 31 then v else v - 2 ^ 32.
Section blob.
Context (blob : list Z).
(** The entry [k] of the imports table, in each of its formats. *)
Inductive import_entry (imports symbols k : Z) : Z -> ChainedImport -> Prop :=
| import_plain raw name :
    field_at blob (imports + k * 4) 4 raw -> text_at blob (symbols + raw / 2 ^ 9) name ->
    import_entry imports symbols k 1 (mkImport name (stored_ordinal 8 (bits raw 0 8)) (Z.testbit raw 8) 0)
| import_addend raw addend name :
    field_at blob (imports + k * 8) 4 raw -> field_at blob (imports + k * 8 + 4) 4 addend ->
    text_at blob (symbols + raw / 2 ^ 9) name ->
    import_entry imports symbols k 2 (mkImport name (stored_ordinal 8 (bits raw 0 8)) (Z.testbit raw 8) (w64 (signed_32 addend)))
| import_addend64 raw addend name :
    field_at blob (imports + k * 16) 8 raw -> field_at blob (imports + k * 16 + 8) 8 addend ->
    text_at blob (symbols + raw / 2 ^ 32) name ->
    import_entry imports symbols k 3 (mkImport name (stored_ordinal 16 (bits raw 0 16)) (Z.testbit raw 16) addend).
Definition import_ok (import : ChainedImport) : Prop :=
  -3 <= im_ordinal import <= Z.of_nat (length (gi_dylibs image)).
(** The header: a version-0 blob, its imports and the offset of its starts. *)
Definition chain_header (imports : list ChainedImport) (starts : Z) : Prop :=
  exists table symbols count format,
    field_at blob 0 4 0 /\ field_at blob 4 4 starts /\ field_at blob 8 4 table /\ field_at blob 12 4 symbols /\
    field_at blob 16 4 count /\ field_at blob 20 4 format /\ field_at blob 24 4 0 /\
    Z.of_nat (length imports) = count /\ Forall import_ok imports /\
    forall k import, imports !! k = Some import -> import_entry table symbols (Z.of_nat k) format import.

Context (imports : list ChainedImport).
(** What a pointer of a chain says: bit 63 set, the number of an import and an
    addend; bit 63 clear, an address, counted from the header in format 6. *)
Inductive link_says (format : Z) : Z -> Z -> option (list Z) -> Prop :=
| link_bind raw import answered value :
    Z.testbit raw 63 = true -> bits raw 32 19 = 0 -> imports !! Z.to_nat (bits raw 0 24) = Some import ->
    resolve (im_name import) (im_ordinal import) (im_weak import) false 0 = (answered, value) ->
    answered = true \/ im_weak import = true ->
    link_says format raw (w64 (value + (im_addend import + bits raw 24 8))) (Some (im_name import))
| link_rebase raw :
    Z.testbit raw 63 = false -> bits raw 44 7 = 0 ->
    link_says format raw
      (w64 (bits raw 0 36 + 2 ^ 56 * bits raw 36 8 + (if format =? 6 then gi_header_address image else 0) + slide)) None.
(** A chain from an address of a page: each pointer leads to the next. *)
Inductive chain (format first end_ : Z) : Z -> Report :=
| chain_last view address raw value symbol :
    first <= address -> address + 8 <= end_ -> pointer_at view address raw -> link_says format raw value symbol ->
    bits raw 51 12 = 0 -> chain format first end_ address view [mkEvent address value symbol]
| chain_next view address raw value symbol view' events :
    first <= address -> address + 8 <= end_ -> pointer_at view address raw -> link_says format raw value symbol ->
    bits raw 51 12 <> 0 -> after view [mkEvent address value symbol] view' ->
    chain format first end_ (w64 (address + 4 * bits raw 51 12)) view' events ->
    chain format first end_ address view (mkEvent address value symbol :: events).

(** The starts of a segment's chains. *)
Record Starts := mkStarts { st_at : Z; st_page_size : Z; st_format : Z; st_segment_offset : Z; st_page_count : Z }.
Record starts_at (at_ : Z) (st : Starts) : Prop := {
  sa_at : st_at st = at_;
  sa_page_size : field_at blob (at_ + 4) 2 (st_page_size st);
  sa_format : field_at blob (at_ + 6) 2 (st_format st);
  sa_segment_offset : field_at blob (at_ + 8) 8 (st_segment_offset st);
  sa_page_count : field_at blob (at_ + 20) 2 (st_page_count st);
  sa_formats : st_format st = 2 \/ st_format st = 6;
  sa_page_sizes : st_page_size st = 4096 \/ st_page_size st = 16384
}.
(** The chain that begins at [offset] of a page: it stays on the page, and inside
    the segment. *)
Definition chain_at (sg : GISegment) (st : Starts) (page offset : Z) : Report := fun view events =>
  let first := w64 (gi_header_address image + st_segment_offset st + page * st_page_size st) in
  let segment_end := sg_address sg + sg_size sg in
  offset < st_page_size st /\ sg_address sg <= first < segment_end /\
  chain (st_format st) first (Z.min (first + st_page_size st) segment_end) (first + offset) view events.
(** Several chains on a page: their starts are listed, the last of them with bit 15 set. *)
Inductive chains_at (sg : GISegment) (st : Starts) (page : Z) : Z -> Report :=
| chains_last list_ offset view events :
    field_at blob list_ 2 offset -> Z.testbit offset 15 = true -> chain_at sg st page (offset mod 2 ^ 15) view events ->
    chains_at sg st page list_ view events
| chains_more list_ offset view events view' events' :
    field_at blob list_ 2 offset -> Z.testbit offset 15 = false ->
    chain_at sg st page offset view events -> after view events view' ->
    chains_at sg st page (list_ + 2) view' events' ->
    chains_at sg st page list_ view (events ++ events').
Definition page_follows (sg : GISegment) (st : Starts) (page : Z) : Report := fun view events =>
  exists start, field_at blob (st_at st + 22 + page * 2) 2 start /\
    if start =? 0xFFFF then events = []
    else if Z.testbit start 15 then chains_at sg st page (st_at st + 22 + start mod 2 ^ 15 * 2) view events
    else chain_at sg st page start view events.
Definition segment_follows (starts i : Z) : Report := fun view events =>
  exists info, field_at blob (starts + 4 + i * 4) 4 info /\
    if info =? 0 then events = [] else
    exists sg st, gi_segments image !! Z.to_nat i = Some sg /\ starts_at (starts + info) st /\
      for_each (Z.to_nat (st_page_count st)) 0 (page_follows sg st) view events.
End blob.
Definition chains_follow (offset size : Z) : Report := fun view events =>
  exists blob view' imports starts segments, stream_at view offset size blob /\ after view [] view' /\
    chain_header blob imports starts /\ field_at blob starts 4 segments /\
    for_each (Z.to_nat segments) 0 (segment_follows blob imports starts) view' events.

(** ** All of an image's fixups *)

Definition fixups_follow : Report := fun view events =>
  match gi_chained image with
  | Some (offset, size) => chains_follow offset size view events
  | None => opcodes_follow view events
  end.
End image.
