(* ===== verification/GuestFixups.v ===== *)
(** * GuestFixups: the loader's relocations (runtime/GuestFixups.c)

    The opcode streams of a dyld info command and the chained fixups of newer
    linkers, applied to a loaded image's memory. The resolver is the caller's
    function; the observer's calls are the list of the pointers reported. What the
    code does is compared with what the bytes say, which FixupFormat states. *)
From S2P Require Import Prelude GuestMemory GuestImage FixupFormat.

(** ** Cursors and LEB128 numbers *)

(** [cr_rest] is the bytes from [p] to [end]. *)
Record Cursor := mkCursor { cr_rest : list Z; cr_bad : bool }.
Definition spoil (c : Cursor) : Cursor := mkCursor (cr_rest c) true.
Fixpoint leb_loop (n : nat) (shift value : Z) (c : Cursor) (sign : bool) : Z * Cursor :=
  match n with
  | O => (0, spoil c)
  | S n =>
    match cr_rest c with
    | [] => (0, spoil c)
    | byte :: rest =>
      let c := mkCursor rest (cr_bad c) in
      let low := Z.land byte 0x7f in
      if (shift =? 63) && (if sign then negb (low =? 0) && negb (low =? 0x7f) else negb (Z.land byte 0x7e =? 0))
      then (0, spoil c) else
      let value := Z.lor value (w64 (Z.shiftl low shift)) in
      if Z.land byte 0x80 =? 0 then
        (if sign && (shift <? 63) && negb (Z.land byte 0x40 =? 0)
         then Z.lor value (w64 (Z.shiftl UINT64_MAX (shift + 7))) else value, c)
      else leb_loop n (shift + 7) value c sign
    end
  end.
(** The shifts 0, 7 .. 63. *)
Definition leb (c : Cursor) (sign : bool) : Z * Cursor := leb_loop 10 0 0 c sign.

(** ** State and outcomes *)

(** The image's memory, the statistics and the reports so far. *)
Record Fixing := mkFixing { fx_memory : GuestMemory; fx_rebases : Z; fx_binds : Z; fx_events : list Event }.
Definition set_memory (s : Fixing) (m : GuestMemory) : Fixing := mkFixing m (fx_rebases s) (fx_binds s) (fx_events s).
Definition count_rebase (s : Fixing) : Fixing := mkFixing (fx_memory s) (fx_rebases s + 1) (fx_binds s) (fx_events s).
Definition count_bind (s : Fixing) : Fixing := mkFixing (fx_memory s) (fx_rebases s) (fx_binds s + 1) (fx_events s).
Definition notify (s : Fixing) (address value : Z) (symbol : option (list Z)) : Fixing :=
  mkFixing (fx_memory s) (fx_rebases s) (fx_binds s) (fx_events s ++ [mkEvent address value symbol]).

(** A computation goes on with a result, returns false, or runs out of the turns
    its loop was given. *)
Inductive Step (A : Type) := Next (a : A) (s : Fixing) | Stop (s : Fixing) | Spin.
Arguments Next {A} _ _.
Arguments Stop {A} _.
Arguments Spin {A}.
Definition bind {A B} (r : Step A) (k : A -> Fixing -> Step B) : Step B :=
  match r with Next a s => k a s | Stop s => Stop s | Spin => Spin end.

Section fixups.
(** Whether the allocations succeed: a page's backing, a stream's buffer by its
    offset, the import table. *)
Context (backing : Z -> bool) (buffer_ok : Z -> bool) (imports_ok : bool).
Context (image : GuestImage).
(** [resolve symbol ordinal weak lazy value]: the answer and the value behind the pointer. *)
Context (resolve : list Z -> Z -> bool -> bool -> Z -> bool * Z).

Definition read_bytes (m : GuestMemory) (a n : Z) : option (list Z) * GuestMemory :=
  let '(r, m, b) := gm_read backing m a (Some (replicate (Z.to_nat n) 0)) n in
  (if bool_decide (r = GM_OK) then b else None, m).
Definition read_pointer (s : Fixing) (address : Z) : option Z * Fixing :=
  let '(b, m) := read_bytes (fx_memory s) address 8 in (le_value <$> b, set_memory s m).
Definition write_pointer (s : Fixing) (address value : Z) : bool * Fixing :=
  let '(r, m) := gm_populate backing (fx_memory s) address (Some (le_bytes 8 value)) 8 in
  (bool_decide (r = GM_OK), set_memory s m).

(** The bytes of a file range, from the first segment that holds it. *)
Definition holds (offset size : Z) (s : GISegment) : bool :=
  negb ((offset <? sg_file_offset s) || (sg_file_size s <? offset - sg_file_offset s) ||
        (sg_file_size s - (offset - sg_file_offset s) <? size)).
Definition stream (s : Fixing) (offset size : Z) : option (list Z) * Fixing :=
  if 32 * 1024 * 1024 <? size then (None, s) else
  match List.find (holds offset size) (gi_segments image) with
  | None => (None, s)
  | Some sg =>
    if negb (buffer_ok offset) then (None, s) else
    let '(b, m) := read_bytes (fx_memory s) (sg_address sg + offset - sg_file_offset sg) size in
    (b, set_memory s m)
  end.
Definition SIZE_MAX : Z := UINT64_MAX.
Definition target (seg offset : Z) : option Z :=
  if Z.of_nat (length (gi_segments image)) <=? seg then None else
  sg ← gi_segments image !! Z.to_nat seg;
  bad (sg_prot sg =? 0) || (sg_size sg <? offset) || (sg_size sg - offset <? 8) || negb (Z.land offset 7 =? 0);
  Some (sg_address sg + offset).

(** ** Rebase opcodes *)

Definition limit : Z := 1000000.
(** One turn of [while (count--)]; the result is the next offset. *)
Definition rebase_one (seg offset type slide skip : Z) (s : Fixing) : Step Z :=
  if negb (type =? 1) then Stop s else
  let s := count_rebase s in
  if limit <? fx_rebases s then Stop s else
  match target seg offset with
  | None => Stop s
  | Some address =>
    let '(value, s) := read_pointer s address in
    match value with
    | None => Stop s
    | Some value =>
      let value := w64 (value + slide) in
      let '(written, s) := write_pointer s address value in
      if negb written then Stop s else
      if UINT64_MAX - offset <? 8 + skip then Stop s
      else Next (offset + (8 + skip)) (notify s address value None)
    end
  end.
Fixpoint rebase_times (count : nat) (seg offset type slide skip : Z) (s : Fixing) : Step Z :=
  match count with
  | O => Next offset s
  | S count => bind (rebase_one seg offset type slide skip s) (fun offset => rebase_times count seg offset type slide skip)
  end.
(** What an opcode sets: the cursor, segment, offset, type, count and skip;
    [None] is an unknown opcode or an overflow. *)
Definition rebase_opcode (op imm : Z) (c : Cursor) (seg offset type : Z) : option (Cursor * Z * Z * Z * Z * Z) :=
  match op with
  | 0x10 => Some (c, seg, offset, imm, 0, 0)
  | 0x20 => let '(v, c) := leb c false in Some (c, imm, v, type, 0, 0)
  | 0x30 => let '(v, c) := leb c false in
            bad UINT64_MAX - offset <? v; Some (c, seg, offset + v, type, 0, 0)
  | 0x40 => bad UINT64_MAX - offset <? imm * 8; Some (c, seg, offset + imm * 8, type, 0, 0)
  | 0x50 => Some (c, seg, offset, type, imm, 0)
  | 0x60 => let '(v, c) := leb c false in Some (c, seg, offset, type, v, 0)
  | 0x70 => let '(v, c) := leb c false in Some (c, seg, offset, type, 1, v)
  | 0x80 => let '(v, c) := leb c false in let '(w, c) := leb c false in Some (c, seg, offset, type, v, w)
  | _ => None
  end.
(** Each turn takes a byte off the cursor. *)
Fixpoint rebase_loop (fuel : nat) (c : Cursor) (seg offset type slide : Z) (s : Fixing) : Step unit :=
  match cr_rest c, fuel with
  | [], _ => Stop s
  | _, O => Spin
  | byte :: rest, S fuel =>
    let op := Z.land byte 0xf0 in
    if op =? 0 then Next tt s else
    match rebase_opcode op (Z.land byte 15) (mkCursor rest (cr_bad c)) seg offset type with
    | None => Stop s
    | Some (c, seg, offset, type, count, skip) =>
      if cr_bad c || (limit <? count) || (UINT64_MAX - 8 <? skip) then Stop s else
      bind (rebase_times (Z.to_nat count) seg offset type slide skip s)
        (fun offset => rebase_loop fuel c seg offset type slide)
    end
  end.
Definition rebases (bytes : list Z) (slide : Z) (s : Fixing) : Step unit :=
  rebase_loop (length bytes) (mkCursor bytes false) SIZE_MAX 0 0 slide s.

(** ** Bind opcodes *)

Definition dylib_count : Z := Z.of_nat (length (gi_dylibs image)).
Definition WEAK_LOOKUP : Z := -3.
(** The state a stream starts with; a lazy stream returns to it at each DONE. *)
Definition first_binding (weak_stream : bool) : Binding :=
  mkBinding SIZE_MAX 0 0 (if weak_stream then WEAK_LOOKUP else 0) 1 0 None.
Definition bind_one (lazy weak_stream : bool) (b : Binding) (skip : Z) (s : Fixing) : Step Z :=
  match bi_symbol b with
  | None => Stop s
  | Some symbol =>
    if negb (bi_type b =? 1) || (dylib_count <? bi_ordinal b) || (bi_ordinal b <? -3) then Stop s else
    let s := count_bind s in
    if limit <? fx_binds s then Stop s else
    match target (bi_seg b) (bi_offset b) with
    | None => Stop s
    | Some address =>
      let '(resolved, value) :=
        resolve symbol (bi_ordinal b) (negb (Z.land (bi_flags b) 1 =? 0) || weak_stream) lazy 0 in
      if negb resolved then Stop s else
      let value := w64 (value + bi_addend b) in
      let '(written, s) := write_pointer s address value in
      if negb written then Stop s
      else Next (w64 (bi_offset b + (8 + skip))) (notify s address value (Some symbol))
    end
  end.
Definition at_offset (b : Binding) (offset : Z) : Binding :=
  mkBinding (bi_seg b) offset (bi_addend b) (bi_ordinal b) (bi_type b) (bi_flags b) (bi_symbol b).
Fixpoint bind_times (count : nat) (lazy weak_stream : bool) (b : Binding) (skip : Z) (s : Fixing) : Step Binding :=
  match count with
  | O => Next b s
  | S count =>
    bind (bind_one lazy weak_stream b skip s)
      (fun offset => bind_times count lazy weak_stream (at_offset b offset) skip)
  end.
(** What an opcode other than DONE sets, with the count and the skip. *)
Definition bind_opcode (op imm : Z) (c : Cursor) (b : Binding) : option (Cursor * Binding * Z * Z) :=
  let '(mkBinding seg offset addend ordinal type flags symbol) := b in
  match op with
  | 0x10 => Some (c, mkBinding seg offset addend imm type flags symbol, 0, 0)
  | 0x20 => let '(n, c) := leb c false in
            bad dylib_count <? n; Some (c, mkBinding seg offset addend n type flags symbol, 0, 0)
  | 0x30 => let ordinal := if imm =? 0 then 0 else Z.lor imm 0xf0 - 256 in
            Some (c, mkBinding seg offset addend ordinal type flags symbol, 0, 0)
  | 0x40 => bad negb (terminated (cr_rest c));
            let name := c_string (cr_rest c) in
            Some (mkCursor (drop (S (length name)) (cr_rest c)) (cr_bad c),
                  mkBinding seg offset addend ordinal type imm (Some name), 0, 0)
  | 0x50 => Some (c, mkBinding seg offset addend ordinal imm flags symbol, 0, 0)
  | 0x60 => let '(v, c) := leb c true in Some (c, mkBinding seg offset v ordinal type flags symbol, 0, 0)
  | 0x70 => let '(v, c) := leb c false in Some (c, mkBinding imm v addend ordinal type flags symbol, 0, 0)
  | 0x80 => let '(v, c) := leb c false in
            Some (c, mkBinding seg (w64 (offset + v)) addend ordinal type flags symbol, 0, 0)
  | 0x90 => Some (c, b, 1, 0)
  | 0xa0 => let '(v, c) := leb c false in Some (c, b, 1, v)
  | 0xb0 => Some (c, b, 1, imm * 8)
  | 0xc0 => let '(v, c) := leb c false in let '(w, c) := leb c false in Some (c, b, v, w)
  | _ => None
  end.
Fixpoint bind_loop (fuel : nat) (lazy weak_stream : bool) (c : Cursor) (b : Binding) (ended : bool) (s : Fixing)
    : Step unit :=
  match cr_rest c, fuel with
  | [], _ => if lazy && ended then Next tt s else Stop s
  | _, O => Spin
  | byte :: rest, S fuel =>
    let op := Z.land byte 0xf0 in
    let c := mkCursor rest (cr_bad c) in
    if op =? 0 then
      if negb lazy then Next tt s
      else if cr_bad c then Stop s else bind_loop fuel lazy weak_stream c (first_binding false) true s
    else
      match bind_opcode op (Z.land byte 15) c b with
      | None => Stop s
      | Some (c, b, count, skip) =>
        if cr_bad c || (limit <? count) then Stop s else
        bind (bind_times (Z.to_nat count) lazy weak_stream b skip s)
          (fun b => bind_loop fuel lazy weak_stream c b false)
      end
  end.
Definition binds (bytes : list Z) (lazy weak_stream : bool) (s : Fixing) : Step unit :=
  bind_loop (length bytes) lazy weak_stream (mkCursor bytes false) (first_binding weak_stream) false s.

(** ** Chained fixups *)

Definition blob_at (blob : list Z) (offset size : Z) : option (list Z) :=
  let total := Z.of_nat (length blob) in
  bad (total <? offset) || (total - offset <? size);
  Some (slice (Z.to_nat offset) (Z.to_nat size) blob).
Definition blob_u16 (blob : list Z) (offset : Z) : option Z := le_value <$> blob_at blob offset 2.
Definition blob_u32 (blob : list Z) (offset : Z) : option Z := le_value <$> blob_at blob offset 4.
Definition blob_u64 (blob : list Z) (offset : Z) : option Z := le_value <$> blob_at blob offset 8.
Definition blob_string (blob : list Z) (offset : Z) : option (list Z) :=
  bad Z.of_nat (length blob) <=? offset;
  let text := drop (Z.to_nat offset) blob in
  bad negb (terminated text);
  Some (c_string text).
Definition chained_ordinal (raw limit : Z) : Z := if limit - 15 <? raw then raw - limit - 1 else raw.

(** The ordinal, the weak flag, the name's offset and the addend of an entry. *)
Definition import_fields (blob : list Z) (format entry at_ : Z) : option (Z * bool * Z * Z) :=
  if format =? 3 then
    raw ← blob_u64 blob at_;
    addend ← blob_u64 blob (at_ + 8);
    Some (chained_ordinal (Z.land raw 0xFFFF) 0xFFFF, bit raw 16, Z.shiftr raw 32, addend)
  else
    raw ← blob_u32 blob at_;
    addend ← (if entry =? 8 then blob_u32 blob (at_ + 4) else Some 0);
    let addend := if 2 ^ 31 <=? addend then w64 (addend - 2 ^ 32) else addend in
    Some (chained_ordinal (Z.land raw 0xFF) 0xFF, bit raw 8, Z.shiftr raw 9, addend).
Fixpoint import_loop (n : nat) (blob : list Z) (i format entry imports_offset symbols_offset : Z)
    : option (list ChainedImport) :=
  match n with
  | O => Some []
  | S n =>
    '(ordinal, weak, name_offset, addend) ← import_fields blob format entry (imports_offset + i * entry);
    name ← blob_string blob (symbols_offset + name_offset);
    bad (ordinal <? WEAK_LOOKUP) || (dylib_count <? ordinal);
    rest ← import_loop n blob (i + 1) format entry imports_offset symbols_offset;
    Some (mkImport name ordinal weak addend :: rest)
  end.
(** The imports and the offset of the starts. *)
Definition chained_header (blob : list Z) : option (list ChainedImport * Z) :=
  version ← blob_u32 blob 0;
  starts_offset ← blob_u32 blob 4;
  imports_offset ← blob_u32 blob 8;
  symbols_offset ← blob_u32 blob 12;
  imports_count ← blob_u32 blob 16;
  imports_format ← blob_u32 blob 20;
  symbols_format ← blob_u32 blob 24;
  bad negb (version =? 0);
  bad negb (symbols_format =? 0);
  let entry := if imports_format =? 1 then 4 else if imports_format =? 2 then 8
               else if imports_format =? 3 then 16 else 0 in
  bad entry =? 0;
  bad Z.of_nat (length blob) / entry <? imports_count;
  bad negb imports_ok;
  imports ← import_loop (Z.to_nat imports_count) blob 0 imports_format entry imports_offset symbols_offset;
  Some (imports, starts_offset).

(** The fields of a chained pointer. *)
Definition cp_bind (raw : Z) : bool := bit raw 63.
Definition cp_ordinal (raw : Z) : Z := Z.land raw 0xFFFFFF.
Definition cp_next (raw : Z) : Z := Z.land (Z.shiftr raw 51) 0xFFF.
(** The pointer's value and the import it names; [None] is a refusal. *)
Definition chained_value (imports : list ChainedImport) (format slide raw : Z) : option (Z * option (list Z)) :=
  if cp_bind raw then
    bad negb (Z.land (Z.shiftr raw 32) 0x7FFFF =? 0);
    import ← imports !! Z.to_nat (cp_ordinal raw);
    let '(resolved, value) := resolve (im_name import) (im_ordinal import) (im_weak import) false 0 in
    bad negb resolved && negb (im_weak import);
    Some (w64 (value + (im_addend import + Z.land (Z.shiftr raw 24) 0xFF)), Some (im_name import))
  else
    bad negb (Z.land (Z.shiftr raw 44) 0x7F =? 0);
    let value := Z.lor (Z.land raw 0xFFFFFFFFF) (Z.shiftl (Z.land (Z.shiftr raw 36) 0xFF) 56) in
    let value := if format =? 6 then w64 (value + gi_header_address image) else value in
    Some (w64 (value + slide), None).
Definition count_fixup (s : Fixing) (raw : Z) : Fixing := if cp_bind raw then count_bind s else count_rebase s.

(** One chain, from [address] inside its page: [steps] is the turns left before
    the code gives up on it. *)
Fixpoint chain_loop (steps : nat) (imports : list ChainedImport) (format slide page_start page_end address : Z)
    (s : Fixing) : Step unit :=
  match steps with
  | O => Stop s
  | S steps =>
    if (w64 (page_end - 8) <? address) || (address <? page_start) then Stop s else
    let '(raw, s) := read_pointer s address in
    match raw with
    | None => Stop s
    | Some raw =>
      match chained_value imports format slide raw with
      | None => Stop s
      | Some (value, symbol) =>
        let s := count_fixup s raw in
        let '(written, s) := write_pointer s address value in
        if negb written then Stop s else
        let s := notify s address value symbol in
        if cp_next raw =? 0 then Next tt s
        else chain_loop steps imports format slide page_start page_end (w64 (address + cp_next raw * 4)) s
      end
    end
  end.

Definition segment_starts (blob : list Z) (at_ : Z) : option Starts :=
  page_size ← blob_u16 blob (at_ + 4);
  format ← blob_u16 blob (at_ + 6);
  segment_offset ← blob_u64 blob (at_ + 8);
  page_count ← blob_u16 blob (at_ + 20);
  bad negb (format =? 2) && negb (format =? 6);
  bad negb (page_size =? 4096) && negb (page_size =? 16384);
  Some (mkStarts at_ page_size format segment_offset page_count).
Section chained.
Context (blob : list Z) (imports : list ChainedImport) (slide : Z).
Definition steps_allowed : Z := gi_mapped_size image / 4 + 1.
Definition START_LAST : Z := 0x8000.
(** The chain that begins at [offset] of a page. *)
Definition run_chain (sg : GISegment) (st : Starts) (page offset : Z) (s : Fixing) : Step unit :=
  if st_page_size st <=? Z.ldiff offset START_LAST then Stop s else
  let page_start := w64 (gi_header_address image + st_segment_offset st + page * st_page_size st) in
  let page_end := w64 (page_start + st_page_size st) in
  let segment_end := sg_address sg + sg_size sg in
  if (page_start <? sg_address sg) || (segment_end <=? page_start) then Stop s else
  let page_end := if segment_end <? page_end then segment_end else page_end in
  chain_loop (Z.to_nat (steps_allowed + 1)) imports (st_format st) slide page_start page_end
    (w64 (page_start + Z.ldiff offset START_LAST)) s.
(** The chains of a page with several: their starts are listed from [list] on,
    two bytes each. *)
Fixpoint chain_list (fuel : nat) (sg : GISegment) (st : Starts) (page list_ : Z) (s : Fixing) : Step unit :=
  match blob_u16 blob list_, fuel with
  | None, _ => Stop s
  | _, O => Spin
  | Some offset, S fuel =>
    bind (run_chain sg st page offset s) (fun _ s =>
      if negb (Z.land offset START_LAST =? 0) then Next tt s
      else chain_list fuel sg st page (list_ + 2) s)
  end.
Fixpoint page_loop (n : nat) (sg : GISegment) (st : Starts) (page : Z) (s : Fixing) : Step unit :=
  match n with
  | O => Next tt s
  | S n =>
    match blob_u16 blob (st_at st + 22 + page * 2) with
    | None => Stop s
    | Some start =>
      if start =? 0xFFFF then page_loop n sg st (page + 1) s else
      bind (if negb (Z.land start 0x8000 =? 0)
            then chain_list (length blob) sg st page (st_at st + 22 + Z.ldiff start 0x8000 * 2) s
            else run_chain sg st page start s)
        (fun _ => page_loop n sg st (page + 1))
    end
  end.
Fixpoint segment_loop (n : nat) (i starts_offset : Z) (s : Fixing) : Step unit :=
  match n with
  | O => Next tt s
  | S n =>
    match blob_u32 blob (starts_offset + 4 + i * 4) with
    | None => Stop s
    | Some info =>
      if info =? 0 then segment_loop n (i + 1) starts_offset s else
      match gi_segments image !! Z.to_nat i with
      | None => Stop s
      | Some sg =>
        match segment_starts blob (starts_offset + info) with
        | None => Stop s
        | Some st =>
          bind (page_loop (Z.to_nat (st_page_count st)) sg st 0 s)
            (fun _ => segment_loop n (i + 1) starts_offset)
        end
      end
    end
  end.
End chained.
Definition chained (offset size slide : Z) (s : Fixing) : Step unit :=
  let '(bytes, s) := stream s offset size in
  match bytes with
  | None => Stop s
  | Some blob =>
    match chained_header blob with
    | None => Stop s
    | Some (imports, starts_offset) =>
      match blob_u32 blob starts_offset with
      | None => Stop s
      | Some segment_count => segment_loop blob imports slide (Z.to_nat segment_count) 0 starts_offset s
      end
    end
  end.

(** ** The whole operation *)

(** One of the four streams, skipped when it is empty. *)
Definition apply_stream (offset size : Z) (run : list Z -> Fixing -> Step unit) (s : Fixing) : Step unit :=
  if size =? 0 then Next tt s else
  let '(bytes, s) := stream s offset size in
  match bytes with None => Stop s | Some bytes => run bytes s end.
Definition gf_apply_observed (has_resolve : bool) (slide : Z) : Step unit :=
  let s := mkFixing (gi_memory image) 0 0 [] in
  if negb has_resolve then Stop s else
  let d := gi_dyld image in
  match gi_chained image with
  | Some (offset, size) =>
    if negb (di_rebase_size d =? 0) || negb (di_bind_size d =? 0) || negb (di_lazy_bind_size d =? 0) ||
       negb (di_weak_bind_size d =? 0) then Stop s
    else chained offset size slide s
  | None =>
    bind (apply_stream (di_rebase_offset d) (di_rebase_size d) (fun bytes => rebases bytes slide) s) (fun _ s =>
    bind (apply_stream (di_lazy_bind_offset d) (di_lazy_bind_size d) (fun bytes => binds bytes true false) s) (fun _ s =>
    bind (apply_stream (di_bind_offset d) (di_bind_size d) (fun bytes => binds bytes false false) s) (fun _ =>
    apply_stream (di_weak_bind_offset d) (di_weak_bind_size d) (fun bytes => binds bytes false true))))
  end.
End fixups.

(** ** LEB128 against a reference encoder *)

(** The shortest encodings of DWARF, for [n] bytes at most. *)
Fixpoint uleb128 (n : nat) (v : Z) : list Z :=
  match n with
  | O => []
  | S n => if v <? 128 then [v] else (v mod 128 + 128) :: uleb128 n (v / 128)
  end.
Fixpoint sleb128 (n : nat) (v : Z) : list Z :=
  match n with
  | O => []
  | S n =>
    let low := v mod 128 in
    if (v / 128 =? 0) && (low <? 64) || (v / 128 =? -1) && (64 <=? low) then [low]
    else (low + 128) :: sleb128 n (v / 128)
  end.

Lemma byte_bits b : byte_ok b ->
  Z.land b 0x7f = b mod 128 /\ (Z.land b 0x80 =? 0) = (b <? 128) /\
  (Z.land b 0x40 =? 0) = (b mod 128 <? 64) /\ (Z.land b 0x7e =? 0) = (b mod 128 <? 2).
Proof.
  intros [H0 H1].
  assert (forallb (fun n => let b := Z.of_nat n in
    (Z.land b 0x7f =? b mod 128) && eqb (Z.land b 0x80 =? 0) (b <? 128) &&
    eqb (Z.land b 0x40 =? 0) (b mod 128 <? 64) && eqb (Z.land b 0x7e =? 0) (b mod 128 <? 2)) (seq 0 256) = true) as H
    by (vm_compute; reflexivity).
  rewrite forallb_forall in H. specialize (H (Z.to_nat b) ltac:(apply in_seq; lia)). cbv zeta in H.
  rewrite Z2Nat.id in H by lia. rewrite !andb_true_iff, !eqb_true_iff, Z.eqb_eq in H. tauto.
Qed.
Lemma w64_shiftl b k : 0 <= k <= 64 -> w64 (Z.shiftl b k) = (b mod 2 ^ (64 - k)) * 2 ^ k.
Proof.
  intros Hk. rewrite Z.shiftl_mul_pow2 by lia. unfold w64.
  replace 64 with ((64 - k) + k) at 1 by lia. rewrite Z.pow_add_r by lia.
  rewrite Z.mul_mod_distr_r; [done|pose proof (Z.pow_pos_nonneg 2 (64 - k)); lia|pose proof (Z.pow_pos_nonneg 2 k); lia].
Qed.
(** One byte added to the value. *)
Lemma leb_or value low shift :
  0 <= shift <= 63 -> 0 <= value < 2 ^ shift -> 0 <= low < 2 ^ (64 - shift) ->
  Z.lor value (w64 (Z.shiftl low shift)) = value + low * 2 ^ shift.
Proof. intros Hs Hv Hl. rewrite w64_shiftl, Z.mod_small by lia. apply lor_high; lia. Qed.

Lemma leb_loop_uleb n shift value v rest bad_ :
  shift + 7 * Z.of_nat n = 70 -> 0 <= shift -> 0 <= value < 2 ^ shift -> 0 <= v < 2 ^ (64 - shift) ->
  leb_loop n shift value (mkCursor (uleb128 n v ++ rest) bad_) false = (value + v * 2 ^ shift, mkCursor rest bad_).
Proof.
  revert shift value v. induction n as [|n IH]; intros shift value v Hn Hs Hvalue Hv.
  { replace shift with 70 in Hv by lia. cbn in Hv. lia. }
  assert (shift <= 63) as Hs63 by lia. cbn [uleb128 leb_loop cr_rest].
  destruct (Z.ltb_spec v 128) as [Hlt|Hge].
  - cbn [app]. destruct (byte_bits v ltac:(unfold byte_ok; lia)) as (-> & E80 & _ & E7e). cbv zeta. cbn [cr_bad].
    rewrite E80, E7e, Z.mod_small by lia. destruct (Z.ltb_spec v 128) as [_|]; [|lia].
    assert ((shift =? 63) && negb (v <? 2) = false) as ->.
    { destruct (Z.eqb_spec shift 63) as [->|]; [|done]. change (2 ^ (64 - 63)) with 2 in Hv.
      destruct (Z.ltb_spec v 2); [done|lia]. }
    cbn [andb]. by rewrite leb_or by lia.
  - cbn [app]. assert (shift <= 56) as Hs56.
    { destruct (decide (shift <= 56)); [done|]. assert (2 ^ (64 - shift) <= 2 ^ 7) by (apply Z.pow_le_mono_r; lia). lia. }
    pose proof (Z.mod_pos_bound v 128 ltac:(lia)) as Hm.
    destruct (byte_bits (v mod 128 + 128) ltac:(unfold byte_ok; lia)) as (-> & E80 & _ & _). cbv zeta. cbn [cr_bad].
    rewrite E80. replace ((v mod 128 + 128) mod 128) with (v mod 128)
      by (rewrite <- Z.add_mod_idemp_r, Z.mod_same, Z.add_0_r, Z.mod_mod by lia; done).
    destruct (Z.ltb_spec (v mod 128 + 128) 128) as [|_]; [lia|]. destruct (Z.eqb_spec shift 63) as [|_]; [lia|]. cbn [andb].
    assert (128 <= 2 ^ (64 - shift)) as H128 by (change 128 with (2 ^ 7); apply Z.pow_le_mono_r; lia).
    rewrite leb_or by lia. assert (2 ^ (shift + 7) = 128 * 2 ^ shift) as Hp by (rewrite Z.pow_add_r by lia; lia).
    assert (2 ^ (64 - shift) = 128 * 2 ^ (64 - (shift + 7))) as Hq
      by (replace (64 - shift) with (7 + (64 - (shift + 7))) by lia; by rewrite Z.pow_add_r by lia).
    rewrite IH; [|lia|lia|nia|split; [apply Z.div_pos; lia|apply Z.div_lt_upper_bound; lia]].
    f_equal. rewrite Hp. pose proof (Z.div_mod v 128 ltac:(lia)). nia.
Qed.
(** Whether a number's next byte is its last. *)
Definition sleb_ends (v : Z) : bool := (v / 128 =? 0) && (v mod 128 <? 64) || (v / 128 =? -1) && (64 <=? v mod 128).
(** The last byte of a signed number, and the bytes before it. *)
Section sleb.
Context (n : nat) (shift value v : Z) (rest : list Z) (bad_ : bool).
Context (Hn : shift + 7 * Z.of_nat (S n) = 70) (Hs : 0 <= shift) (Hvalue : 0 <= value < 2 ^ shift).
Context (Hv : - 2 ^ (63 - shift) <= v < 2 ^ (63 - shift)).
Lemma sleb_powers :
  shift <= 63 /\ (shift = 63 \/ shift <= 56) /\ 0 <= v mod 128 < 128 /\ v = 128 * (v / 128) + v mod 128 /\
  2 ^ (63 - shift) = if decide (shift = 63) then 1 else 128 * 2 ^ (56 - shift).
Proof using Hn Hs.
  split; [lia|]. split; [lia|]. split; [by apply Z.mod_pos_bound|]. split; [by apply Z.div_mod|].
  case_decide as E; [by rewrite E|]. replace (63 - shift) with (7 + (56 - shift)) by lia. by rewrite Z.pow_add_r by lia.
Qed.
Lemma sleb_last :
  sleb_ends v = true ->
  leb_loop (S n) shift value (mkCursor (v mod 128 :: rest) bad_) true = (w64 (value + v * 2 ^ shift), mkCursor rest bad_).
Proof using Hn Hs Hvalue Hv.
  intros Hlast. unfold sleb_ends in Hlast. destruct sleb_powers as (Hs63 & Hcase & Hm & Hdm & Hp63). cbn [leb_loop cr_rest]. cbv zeta.
  set (low := v mod 128) in *. set (high := v / 128) in *.
  destruct (byte_bits low ltac:(unfold byte_ok; lia)) as (-> & E80 & E40 & _). cbn [cr_bad].
  rewrite E80, E40, Z.mod_small by lia. destruct (Z.ltb_spec low 128) as [_|]; [|lia].
  assert (v = if low <? 64 then low else low - 128) as Hvl.
  { apply orb_true_iff in Hlast. rewrite !andb_true_iff, !Z.eqb_eq, Z.ltb_lt, Z.leb_le in Hlast.
    destruct (Z.ltb_spec low 64); lia. }
  destruct Hcase as [->|Hs56].
  - cbn in Hp63. change (2 ^ (63 - 63)) with 1 in Hv.
    assert (low = 0 \/ low = 127) as Hl by (destruct (Z.ltb_spec low 64); lia).
    assert (negb (low =? 0) && negb (low =? 127) = false) as E by (destruct Hl as [-> | ->]; done).
    change (Z.eqb 63 63) with true. rewrite E. cbn [andb Z.ltb Z.compare]. f_equal.
    rewrite w64_shiftl by lia. change (2 ^ (64 - 63)) with 2.
    change (63 <? 63) with false. cbn [andb]. destruct Hl as [Hl|Hl]; rewrite Hl in *; cbn in Hvl; rewrite Hvl.
    + cbn. rewrite Z.lor_0_r, Z.add_0_r. symmetry. apply w64_small. unfold u64_ok. lia.
    + change (127 mod 2) with 1. rewrite lor_high by lia. unfold w64.
      replace (value + (127 - 128) * 2 ^ 63) with (value + 1 * 2 ^ 63 + (-1) * 2 ^ 64) by lia.
      rewrite Z.mod_add by done. symmetry. apply Z.mod_small. lia.
  - destruct (Z.eqb_spec shift 63) as [|_]; [lia|]. destruct (Z.ltb_spec shift 63) as [_|]; [|lia]. cbn [andb].
    assert (2 ^ (64 - shift) = 256 * 2 ^ (56 - shift)) as Hq
      by (replace (64 - shift) with (8 + (56 - shift)) by lia; by rewrite Z.pow_add_r by lia).
    assert (2 ^ 64 = 256 * 2 ^ (56 - shift) * 2 ^ shift) as H64 by (rewrite <- Hq, <- Z.pow_add_r by lia; f_equal; lia).
    assert (1 <= 2 ^ (56 - shift)) by (pose proof (Z.pow_pos_nonneg 2 (56 - shift)); lia).
    rewrite (leb_or value low shift) by lia. assert (2 ^ (shift + 7) = 128 * 2 ^ shift) as Hp by (rewrite Z.pow_add_r by lia; lia).
    destruct (low <? 64) eqn:E64; cbn [negb]; rewrite Hvl.
    + apply Z.ltb_lt in E64. symmetry. f_equal. apply w64_small. unfold u64_ok. nia.
    + f_equal. rewrite w64_shiftl by lia. replace (64 - (shift + 7)) with (57 - shift) by lia.
      assert (2 ^ (57 - shift) = 2 * 2 ^ (56 - shift)) as Hr
        by (replace (57 - shift) with (1 + (56 - shift)) by lia; by rewrite Z.pow_add_r by lia).
      assert (UINT64_MAX mod 2 ^ (57 - shift) = 2 ^ (57 - shift) - 1) as ->.
      { unfold UINT64_MAX. replace (2 ^ 64 - 1) with ((2 ^ (57 - shift) - 1) + (128 * 2 ^ shift - 1) * 2 ^ (57 - shift)) by nia.
        rewrite Z.mod_add by lia. apply Z.mod_small. lia. }
      rewrite lor_high by nia. rewrite Hp. unfold w64.
      replace (value + (low - 128) * 2 ^ shift)
        with (value + low * 2 ^ shift + (2 ^ (57 - shift) - 1) * (128 * 2 ^ shift) + (-1) * 2 ^ 64) by nia.
      rewrite Z.mod_add by done. symmetry. apply Z.mod_small. nia.
Qed.
Lemma sleb_more :
  sleb_ends v = false ->
  shift <= 56 /\ leb_loop (S n) shift value (mkCursor (v mod 128 + 128 :: rest) bad_) true =
    leb_loop n (shift + 7) (value + v mod 128 * 2 ^ shift) (mkCursor rest bad_) true.
Proof using Hn Hs Hvalue Hv.
  intros Hlast. unfold sleb_ends in Hlast. destruct sleb_powers as (Hs63 & Hcase & Hm & Hdm & Hp63). cbn [leb_loop cr_rest]. cbv zeta.
  set (low := v mod 128) in *. set (high := v / 128) in *.
  destruct (byte_bits (low + 128) ltac:(unfold byte_ok; lia)) as (-> & E80 & _ & _). cbn [cr_bad].
  rewrite E80. replace ((low + 128) mod 128) with low
    by (rewrite <- Z.add_mod_idemp_r, Z.mod_same, Z.add_0_r by lia; symmetry; apply Z.mod_small; lia).
  destruct (Z.ltb_spec (low + 128) 128) as [|_]; [lia|].
  assert (shift <= 56) as Hs56.
  { destruct Hcase as [->|]; [|done]. exfalso. change (2 ^ (63 - 63)) with 1 in Hv.
    apply orb_false_iff in Hlast. rewrite !andb_false_iff, !Z.eqb_neq, Z.ltb_ge, Z.leb_gt in Hlast. lia. }
  destruct (Z.eqb_spec shift 63) as [|_]; [lia|]. cbn [andb]. rewrite decide_False in Hp63 by lia.
  assert (1 <= 2 ^ (56 - shift)) by (pose proof (Z.pow_pos_nonneg 2 (56 - shift)); lia).
  assert (2 ^ (64 - shift) = 256 * 2 ^ (56 - shift)) as Hq
    by (replace (64 - shift) with (8 + (56 - shift)) by lia; by rewrite Z.pow_add_r by lia).
  split; [exact Hs56|]. by rewrite (leb_or value low shift) by lia.
Qed.
End sleb.
Lemma leb_loop_sleb n shift value v rest bad_ :
  shift + 7 * Z.of_nat n = 70 -> 0 <= shift -> 0 <= value < 2 ^ shift -> - 2 ^ (63 - shift) <= v < 2 ^ (63 - shift) ->
  leb_loop n shift value (mkCursor (sleb128 n v ++ rest) bad_) true = (w64 (value + v * 2 ^ shift), mkCursor rest bad_).
Proof.
  revert shift value v. induction n as [|n IH]; intros shift value v Hn Hs Hvalue Hv.
  { replace shift with 70 in Hv by lia. cbn in Hv. lia. }
  cbn [sleb128]. cbv zeta. change (_ || _) with (sleb_ends v). destruct (sleb_ends v) eqn:E; cbn [app]; [by apply sleb_last|].
  destruct (sleb_more n shift value v (sleb128 n (v / 128) ++ rest) bad_) as [Hs56 ->]; [done..|].
  destruct (sleb_powers n shift v) as (_ & _ & Hm & Hdm & Hp63); [done..|]. rewrite decide_False in Hp63 by lia.
  assert (2 ^ (shift + 7) = 128 * 2 ^ shift) as Hp by (rewrite Z.pow_add_r by lia; lia).
  replace (56 - shift) with (63 - (shift + 7)) in Hp63 by lia.
  rewrite IH; [|lia|lia|nia|lia]. f_equal. f_equal. rewrite Hp. nia.
Qed.

(** A number in its shortest encoding is read back, with the cursor behind it:
    every unsigned and every signed 64-bit number, the signed ones in two's
    complement. *)
Theorem leb_decodes rest bad_ v :
  (0 <= v < 2 ^ 64 ->
    leb (mkCursor (uleb128 10 v ++ rest) bad_) false = (v, mkCursor rest bad_)) /\
  (- 2 ^ 63 <= v < 2 ^ 63 ->
    leb (mkCursor (sleb128 10 v ++ rest) bad_) true = (w64 v, mkCursor rest bad_)).
Proof.
  split; intros Hv; unfold leb.
  - rewrite (leb_loop_uleb 10 0 0 v) by (lia || done). by rewrite Z.add_0_l, Z.mul_1_r.
  - rewrite (leb_loop_sleb 10 0 0 v) by (lia || done). by rewrite Z.add_0_l, Z.mul_1_r.
Qed.

(** ** What the numbers say *)

(** A number read: what the bytes say, and what is left of them. *)
Record number_read (sign : bool) (bytes : list Z) (v : Z) (c : Cursor) : Prop := {
  rn_says : if sign then exists x, v = w64 x /\ Sleb bytes x (cr_rest c) else Uleb bytes v (cr_rest c);
  rn_range : u64_ok v;
  rn_bytes : Forall byte_ok (cr_rest c);
  rn_length : (length (cr_rest c) <= length bytes)%nat
}.
Lemma lor_u64 a b : 0 <= a -> 0 <= Z.lor a (w64 b).
Proof. intros. apply Z.lor_nonneg. split; [done|apply w64_range]. Qed.
(** The bytes read from [shift] on, [value] being what the earlier ones said. *)
Definition says_from (sign : bool) (shift value : Z) (bytes : list Z) (v : Z) (rest : list Z) : Prop :=
  exists x, v = w64 (value + x * 2 ^ shift) /\
    if sign then Sleb bytes x rest else Uleb bytes x rest /\ 0 <= x < 2 ^ (64 - shift).
Section last_byte.
Context (n : nat) (shift value b : Z) (rest : list Z).
Context (Hn : shift + 7 * Z.of_nat (S n) = 70) (Hs : 0 <= shift) (Hvalue : 0 <= value < 2 ^ shift) (Hb : byte_ok b).
Lemma uleb_last_says v c' :
  b < 128 -> leb_loop (S n) shift value (mkCursor (b :: rest) false) false = (v, c') -> cr_bad c' = false ->
  c' = mkCursor rest false /\ says_from false shift value (b :: rest) v rest.
Proof using Hn Hs Hvalue Hb.
  intros Hlt. cbn [leb_loop cr_rest cr_bad]. cbv zeta. destruct (byte_bits b Hb) as (-> & -> & _ & ->). unfold byte_ok in Hb.
  rewrite Z.mod_small by lia. destruct (Z.ltb_spec b 128); [|lia]. cbn [andb].
  destruct ((shift =? 63) && negb (b <? 2)) eqn:E; intros [= <- <-]; [done|]. intros _. split; [done|].
  assert (b < 2 ^ (64 - shift)) as Hbound.
  { destruct (decide (shift = 63)) as [->|Hne].
    - change (63 =? 63) with true in E. cbn [andb] in E. apply negb_false_iff, Z.ltb_lt in E. cbn. lia.
    - apply Z.lt_le_trans with (2 ^ 8); [lia|]. apply Z.pow_le_mono_r; lia. }
  rewrite leb_or by lia. exists b. split; [|split; [by constructor|lia]].
  symmetry. apply w64_small. unfold u64_ok. assert (2 ^ 64 = 2 ^ shift * 2 ^ (64 - shift)) as ->
    by (rewrite <- Z.pow_add_r by lia; f_equal; lia). nia.
Qed.
Lemma sleb_last_says v c' :
  b < 128 -> leb_loop (S n) shift value (mkCursor (b :: rest) false) true = (v, c') -> cr_bad c' = false ->
  c' = mkCursor rest false /\ says_from true shift value (b :: rest) v rest.
Proof using Hn Hs Hvalue Hb.
  intros Hlt Hloop Hbad. unfold byte_ok in Hb. set (x := if b <? 64 then b else b - 128).
  assert (x mod 128 = b /\ sleb_ends x = true /\ -64 <= x < 64) as (Hmod & Hends & Hx).
  { subst x. unfold sleb_ends. destruct (Z.ltb_spec b 64).
    - rewrite (Z.div_small b 128), (Z.mod_small b 128) by lia. destruct (Z.ltb_spec b 64); [|lia]. repeat split; lia.
    - assert (b - 128 = b + -1 * 128) as -> by lia. rewrite Z.div_add, Z.mod_add, Z.div_small, Z.mod_small by lia.
      destruct (Z.leb_spec 64 b); [|lia]. repeat split; lia. }
  assert (- 2 ^ (63 - shift) <= x < 2 ^ (63 - shift)) as Hrange.
  { destruct (decide (shift = 63)) as [Heq|Hne].
    - subst shift. revert Hloop. cbn [leb_loop cr_rest cr_bad]. cbv zeta. destruct (byte_bits b Hb) as (-> & _ & _ & _).
      change (63 =? 63) with true. rewrite Z.mod_small by lia. cbn [andb].
      destruct (negb (b =? 0) && negb (b =? 127)) eqn:E; [by intros [= _ <-]|]. intros _.
      apply andb_false_iff in E. rewrite !negb_false_iff, !Z.eqb_eq in E. cbn. subst x. destruct E as [-> | ->]; cbn; lia.
    - assert (2 ^ 7 <= 2 ^ (63 - shift)) by (apply Z.pow_le_mono_r; lia). lia. }
  pose proof (sleb_last n shift value x rest false Hn Hs Hvalue Hrange Hends) as H. rewrite Hmod, Hloop in H.
  injection H as -> ->. split; [done|]. exists x. split; [done|]. subst x.
  destruct (Z.ltb_spec b 64); constructor; lia.
Qed.
End last_byte.
Lemma leb_loop_says n shift value bytes sign v c' :
  shift + 7 * Z.of_nat n = 70 -> 0 <= shift -> 0 <= value < 2 ^ shift -> Forall byte_ok bytes ->
  leb_loop n shift value (mkCursor bytes false) sign = (v, c') -> cr_bad c' = false ->
  says_from sign shift value bytes v (cr_rest c') /\ Forall byte_ok (cr_rest c') /\ (length (cr_rest c') <= length bytes)%nat.
Proof.
  revert shift value bytes. induction n as [|n IH]; intros shift value bytes Hn Hs Hvalue Hbytes; [by intros [= _ <-]|].
  destruct bytes as [|b bytes]; [by intros [= _ <-]|]. apply Forall_cons in Hbytes as [Hb Hbytes].
  destruct (decide (b < 128)) as [Hlt|Hge].
  { intros Hloop Hbad. assert (c' = mkCursor bytes false /\ says_from sign shift value (b :: bytes) v bytes) as [-> ?]; [|cbn; split_and!; [done..|lia]].
    destruct sign; [by eapply sleb_last_says|by eapply uleb_last_says]. }
  cbn [leb_loop cr_rest cr_bad]. cbv zeta. destruct (byte_bits b Hb) as (-> & -> & _ & _). destruct (Z.ltb_spec b 128); [lia|].
  destruct (_ && _); [by intros [= _ <-]|]. unfold byte_ok in Hb. assert (b mod 128 = b - 128) as ->.
  { replace b with (b - 128 + 1 * 128) at 1 by lia. rewrite Z.mod_add by lia. apply Z.mod_small. lia. }
  destruct (decide (shift = 63)) as [->|Hne]; [destruct n; [by intros [= _ <-]|lia]|].
  assert (2 ^ 8 <= 2 ^ (64 - shift)) by (apply Z.pow_le_mono_r; lia). change (2 ^ 8) with 256 in *.
  assert (2 ^ (shift + 7) = 128 * 2 ^ shift) as Hp by (rewrite Z.pow_add_r by lia; lia).
  rewrite leb_or by lia. intros Hloop Hbad. apply IH in Hloop as ((x & Hv & Hx) & Hrest & Hlen); [|lia|lia|nia|done|done].
  split; [|cbn; split; [done|lia]]. exists (b - 128 + 128 * x). split; [rewrite Hv; f_equal; rewrite Hp; nia|].
  destruct sign; [constructor; [lia|done]|]. destruct Hx as [? Hx]. split; [constructor; [lia|done]|].
  replace (64 - shift) with (7 + (64 - (shift + 7))) by lia. rewrite Z.pow_add_r by lia. lia.
Qed.
Lemma leb_says bytes sign v c :
  Forall byte_ok bytes -> leb (mkCursor bytes false) sign = (v, c) -> cr_bad c = false -> number_read sign bytes v c.
Proof.
  intros Hbytes Hleb Hbad. destruct (leb_loop_says 10 0 0 bytes sign v c) as ((x & Hv & Hx) & ? & ?); [done..|].
  rewrite Z.mul_1_r, Z.add_0_l in Hv. split; [|subst v; apply w64_range|done|done].
  destruct sign; [by exists x|]. destruct Hx as [Hx Hrange]. by rewrite Hv, w64_small.
Qed.
Lemma leb_bad n shift value bytes sign : cr_bad (leb_loop n shift value (mkCursor bytes true) sign).2 = true.
Proof.
  revert shift value bytes. induction n as [|n IH]; intros shift value bytes; [done|]. cbn [leb_loop cr_rest cr_bad].
  destruct bytes as [|b bytes]; [done|]. cbv zeta. destruct (_ && _); [done|]. destruct (_ =? 0); [done|]. apply IH.
Qed.
Lemma leb_started bytes bad_ sign v c : leb (mkCursor bytes bad_) sign = (v, c) -> cr_bad c = false -> bad_ = false.
Proof. destruct bad_; [|done]. intros H. pose proof (leb_bad 10 0 0 bytes sign) as Hb. unfold leb in H. rewrite H in Hb. cbn in Hb. congruence. Qed.
(** A byte is an opcode and its immediate value. *)
Lemma byte_opcode b :
  byte_ok b -> exists op imm, b = op + imm /\ Z.land b 0xf0 = op /\ Z.land b 15 = imm /\ 0 <= imm < 16 /\
    op ∈ [0; 0x10; 0x20; 0x30; 0x40; 0x50; 0x60; 0x70; 0x80; 0x90; 0xa0; 0xb0; 0xc0; 0xd0; 0xe0; 0xf0].
Proof.
  intros [H0 H1].
  assert (forallb (fun n => let b := Z.of_nat n in
    (b =? Z.land b 0xf0 + Z.land b 15) && (Z.land b 15 <? 16) && (0 <=? Z.land b 15) &&
    bool_decide (Z.land b 0xf0 ∈ [0; 0x10; 0x20; 0x30; 0x40; 0x50; 0x60; 0x70; 0x80; 0x90; 0xa0; 0xb0; 0xc0; 0xd0; 0xe0; 0xf0]))
    (seq 0 256) = true) as H by (vm_compute; reflexivity).
  rewrite forallb_forall in H. specialize (H (Z.to_nat b) ltac:(apply in_seq; lia)). cbv zeta in H.
  rewrite Z2Nat.id in H by lia. rewrite !andb_true_iff, bool_decide_eq_true in H. destruct H as [[[? ?] ?] ?].
  exists (Z.land b 0xf0), (Z.land b 15). split_and!; try done; lia.
Qed.
Lemma bits_land raw low width : 0 <= low -> 0 <= width -> Z.land (Z.shiftr raw low) (2 ^ width - 1) = bits raw low width.
Proof. intros. rewrite land_mask, Z.shiftr_div_pow2 by done. done. Qed.
Lemma bits_land_0 raw width : 0 <= width -> Z.land raw (2 ^ width - 1) = bits raw 0 width.
Proof. intros. unfold bits. by rewrite land_mask, Z.div_1_r by done. Qed.
Lemma w64_idemp_l a b : w64 (w64 a + b) = w64 (a + b).
Proof. apply Z.add_mod_idemp_l. done. Qed.
Lemma places_S n offset step :
  u64_ok offset -> places (Z.of_nat (S n)) offset step = offset :: places (Z.of_nat n) (w64 (offset + step)) step.
Proof.
  intros Ho. unfold places. rewrite !Nat2Z.id. cbn [seq fmap list_fmap]. f_equal; [rewrite Z.mul_0_l, Z.add_0_r; by apply w64_small|].
  rewrite <- fmap_S_seq, <- list_fmap_compose. apply list_fmap_ext. intros _ k _. cbn. rewrite w64_idemp_l. f_equal. lia.
Qed.
Lemma places_0 offset step : places 0 offset step = [].
Proof. done. Qed.

(** ** What a computation did *)

Section effects.
Context (image : GuestImage).

(** A pointer inside a segment. *)
Definition inside (e : Event) : Prop :=
  exists sg, sg ∈ gi_segments image /\ sg_address sg <= ev_address e /\ ev_address e + 8 <= sg_address sg + sg_size sg.
(** From [s] to [s']: the reports made since are exactly what was written. *)
Record advanced_by (s s' : Fixing) (events : list Event) : Prop := {
  ad_wf : memory_wf (fx_memory s');
  ad_events : fx_events s' = fx_events s ++ events;
  ad_cells : after (cell (fx_memory s)) events (cell (fx_memory s'));
  ad_count : fx_rebases s' + fx_binds s' = fx_rebases s + fx_binds s + Z.of_nat (length events);
  ad_inside : Forall inside events
}.
Lemma advanced_refl s : memory_wf (fx_memory s) -> advanced_by s s [].
Proof. intros Hs. split; [done|by rewrite app_nil_r|done|cbn; lia|constructor]. Qed.
Lemma advanced_trans s1 s2 s3 e1 e2 : advanced_by s1 s2 e1 -> advanced_by s2 s3 e2 -> advanced_by s1 s3 (e1 ++ e2).
Proof.
  intros [? E1 C1 N1 I1] [W2 E2 C2 N2 I2]. split.
  - done.
  - by rewrite E2, E1, app_assoc.
  - intros x. rewrite C2, written_app. by apply written_ext.
  - rewrite length_app. lia.
  - by apply Forall_app.
Qed.

(** What a step that goes on promises of its result and of what it stored, and
    that it does end. *)
Definition goes {A} (says : A -> Report) (s : Fixing) (r : Step A) : Prop :=
  match r with
  | Next a s' => exists events, advanced_by s s' events /\ says a (cell (fx_memory s)) events
  | Stop _ => True
  | Spin => False
  end.
Lemma goes_bind {A B} (P : A -> Report) (Q : A -> B -> Report) (R : B -> Report) s (r : Step A) (k : A -> Fixing -> Step B) :
  goes P s r ->
  (forall a s' events, advanced_by s s' events -> P a (cell (fx_memory s)) events -> goes (Q a) s' (k a s')) ->
  (forall a b view events view' rest, P a view events -> after view events view' -> Q a b view' rest -> R b view (events ++ rest)) ->
  goes R s (bind r k).
Proof.
  intros Hr Hk HR. destruct r as [a s'|s'|]; [|done..]. destruct Hr as (events & Hs & HP). cbn [bind].
  specialize (Hk a s' events Hs HP). destruct (k a s') as [b s''|s''|]; [|done..]. destruct Hk as (rest & Hs' & HQ).
  exists (events ++ rest). split; [by eapply advanced_trans|]. eapply HR; [done|apply Hs|done].
Qed.
Lemma goes_and_then (P Q : Report) s (r : Step unit) (k : unit -> Fixing -> Step unit) :
  goes (fun _ => P) s r -> (forall a s', memory_wf (fx_memory s') -> goes (fun _ => Q) s' (k a s')) ->
  goes (fun _ => and_then P Q) s (bind r k).
Proof.
  intros Hr Hk. apply (goes_bind (fun _ => P) (fun _ _ => Q)); [done| |].
  - intros a s' events Hs' _. apply Hk, Hs'.
  - intros _ _ view events view' rest HP Hview HQ. by exists events, view', rest.
Qed.
(** From a state that differs in what was only read. *)
Lemma goes_from {A} (P R : A -> Report) s s' (r : Step A) :
  advanced_by s s' [] -> goes P s' r ->
  (forall a events, P a (cell (fx_memory s')) events -> R a (cell (fx_memory s)) events) -> goes R s r.
Proof.
  intros Hs Hr HR. destruct r as [a s''|s''|]; [|done..]. destruct Hr as (events & Hs' & HP).
  exists events. split; [by eapply (advanced_trans _ _ _ [])|by apply HR].
Qed.
Lemma goes_nothing {A} (P : A -> Report) s (a : A) :
  memory_wf (fx_memory s) -> P a (cell (fx_memory s)) [] -> goes P s (Next a s).
Proof. intros Hs HP. exists []. split; [by apply advanced_refl|done]. Qed.
End effects.

(** *** Fixups followed *)

Section follows.
Context (image : GuestImage) (resolve : list Z -> Z -> bool -> bool -> Z -> bool * Z) (slide : Z).
#[local] Abbreviation follows := (follows image resolve slide).
Lemma pointer_at_ext view view' address raw :
  after view [] view' -> pointer_at view' address raw -> pointer_at view address raw.
Proof.
  intros Hv (bytes & Hl & Hb & Hr). exists bytes. split; [done|]. split; [|done]. intros i Hi. by rewrite (Hb i Hi), (Hv _).
Qed.
Lemma after_nil view : after view [] view.
Proof. by intros x. Qed.
Lemma after_ext view view' events view'' : after view [] view' -> after view' events view'' -> after view events view''.
Proof. intros Hv Hv' x. rewrite (Hv' x). by apply written_ext. Qed.
Lemma after_trans view first view' rest view'' :
  after view first view' -> after view' rest view'' -> after view (first ++ rest) view''.
Proof. intros Hv Hv' x. rewrite (Hv' x), written_app. by apply written_ext. Qed.
Lemma follows_ext fixups view view' events : after view [] view' -> follows fixups view' events -> follows fixups view events.
Proof.
  intros Hv Hf. revert Hv. destruct Hf as [|view' f e view'' fixups events Hone Hafter Hf]; intros Hv; [constructor|].
  econstructor; [|by eapply after_ext|done].
  destruct Hone; econstructor; try done. by eapply pointer_at_ext.
Qed.
Lemma follows_app fixups fixups' view events view' events' :
  follows fixups view events -> after view events view' -> follows fixups' view' events' ->
  follows (fixups ++ fixups') view (events ++ events').
Proof.
  intros Hf. revert view'. induction Hf as [|view f e view1 fixups events Hone Hafter Hf IH]; intros view' Hv Hf'; [by eapply follows_ext|].
  cbn [app]. econstructor; [done..|]. eapply IH; [|done]. intros x. rewrite (Hv x).
  change (e :: events) with ([e] ++ events). rewrite written_app. symmetry. by apply written_ext.
Qed.
Lemma follows_single f view e : follows_one image resolve slide view f e -> follows [f] view [e].
Proof. intros Hone. econstructor; [done| |constructor]. by intros x. Qed.
End follows.

Section operations.
Context (backing : Z -> bool) (buffer_ok : Z -> bool) (imports_ok : bool) (image : GuestImage).
Context (resolve : list Z -> Z -> bool -> bool -> Z -> bool * Z).
Context (slice_size : Z) (Hsegments : Forall (segment_ok slice_size) (gi_segments image)) (slide : Z).
#[local] Abbreviation advanced_by := (advanced_by image).
#[local] Abbreviation goes := (goes image).
#[local] Abbreviation follows := (follows image resolve slide).
#[local] Abbreviation dylibs := (Z.of_nat (length (gi_dylibs image))).

Lemma segment_in sg : sg ∈ gi_segments image -> segment_ok slice_size sg.
Proof. intros Hsg. pose proof Hsegments as H. rewrite Forall_forall in H. by apply H. Qed.
(** Bytes read: they are what the memory holds, which is left as it was. *)
Lemma read_bytes_ok m a n :
  memory_wf m -> 0 <= a -> 0 <= n ->
  let '(b, m') := read_bytes backing m a n in
  memory_wf m' /\ same_cells m m' /\
  forall bs, b = Some bs -> Forall byte_ok bs /\ Z.of_nat (length bs) = n /\ bytes_at (cell m) a bs.
Proof.
  intros Hm Ha Hn. unfold read_bytes, gm_read.
  assert (Forall byte_ok (replicate (Z.to_nat n) 0)) as Hz by (by apply (Forall_replicate byte_ok)).
  pose proof (copy_spec backing m None a (Some (replicate (Z.to_nat n) 0)) n GM_READ false Hm Ha Hn) as Hc.
  destruct (copy _ _ _ _ _ _ _ _) as [[r m'] b]. destruct Hc as [Hwf Hc].
  { intros ? [= <-]. rewrite length_replicate. split; [lia|done]. }
  split; [done|]. case_bool_decide as Hr.
  - subst r. destruct Hc as (_ & _ & Hc). destruct (decide (n = 0)) as [->|].
    + destruct Hc as [-> ->]. split; [done|]. intros ? [= <-]. split_and!; [done|done|]. intros i Hi. cbn in Hi. lia.
    + destruct Hc as (? & _ & -> & bs & -> & Hb). split; [done|]. intros ? [= <-]. split; [by apply (reads_as_bytes m a n)|].
      destruct Hb as [Hl Hb]. split; [lia|]. intros i Hi. by apply Hb.
  - assert (same_cells m m') by (destruct r; tauto). done.
Qed.
Lemma read_pointer_ok s address value s' :
  memory_wf (fx_memory s) -> 0 <= address -> read_pointer backing s address = (value, s') ->
  advanced_by s s' [] /\ forall raw, value = Some raw -> pointer_at (cell (fx_memory s)) address raw /\ u64_ok raw.
Proof.
  intros Hs Ha. unfold read_pointer. pose proof (read_bytes_ok (fx_memory s) address 8 Hs Ha ltac:(done)) as H.
  destruct (read_bytes _ _ _ _) as [b m']. destruct H as (Hm & Hc & Hb). intros [= <- <-]. split.
  - split; [done|by cbn; rewrite app_nil_r|exact Hc|cbn; lia|constructor].
  - intros raw Hraw. destruct b as [bs|]; [|done]. injection Hraw as <-. destruct (Hb bs eq_refl) as (Hok & Hl & Hat).
    split; [exists bs; split_and!; [lia|done|done]|]. pose proof (le_value_range bs Hok) as Hr.
    replace (8 * Z.of_nat (length bs)) with 64 in Hr by lia. exact Hr.
Qed.
(** A pointer counted once, then written and reported. *)
Definition counted (s s' : Fixing) : Prop :=
  memory_wf (fx_memory s') /\ same_cells (fx_memory s) (fx_memory s') /\ fx_events s' = fx_events s /\
  fx_rebases s' + fx_binds s' = fx_rebases s + fx_binds s + 1.
Lemma counted_rebase s : memory_wf (fx_memory s) -> counted s (count_rebase s).
Proof. intros. split; [done|]. split; [done|]. split; [done|]. cbn. lia. Qed.
Lemma counted_bind s : memory_wf (fx_memory s) -> counted s (count_bind s).
Proof. intros. split; [done|]. split; [done|]. split; [done|]. cbn. lia. Qed.
Lemma counted_read s0 s s' : counted s0 s -> advanced_by s s' [] -> counted s0 s'.
Proof.
  intros (Hm & Hc & He & Hn) [Hm' He' Hc' Hn' _]. rewrite app_nil_r in He'. cbn in Hn'. split_and!; [done| |congruence|lia].
  intros x. rewrite (Hc' x). apply Hc.
Qed.
Definition placed_pointer (address : Z) : Prop :=
  0 <= address /\
  exists sg, sg ∈ gi_segments image /\ sg_address sg <= address /\ address + 8 <= sg_address sg + sg_size sg.
Lemma write_pointer_reported s0 s address value symbol s' :
  counted s0 s -> placed_pointer address ->
  write_pointer backing s address value = (true, s') ->
  advanced_by s0 (notify s' address value symbol) [mkEvent address value symbol].
Proof.
  intros (Hm & Hc & He & Hn) [Ha Hin]. unfold write_pointer.
  destruct (gm_populate _ _ _ _ _) as [r m'] eqn:E. intros [= Hr <-]. apply bool_decide_eq_true in Hr as ->.
  change 8 with (Z.of_nat (length (le_bytes 8 value))) in E.
  apply populate_ok in E as [Hm' Hst]; [|done|done|apply le_bytes_ok].
  split; cbn [notify set_memory fx_memory fx_events fx_rebases fx_binds].
  - done.
  - by rewrite He.
  - intros x. rewrite (Hst x), (Hc x). reflexivity.
  - cbn [length]. lia.
  - by constructor.
Qed.
Lemma target_place seg offset address :
  target image seg offset = Some address -> 0 <= offset -> at_place image seg offset address /\ placed_pointer address.
Proof.
  unfold target. destruct (_ <=? seg); [done|]. intros H Ho. returned H. returned H. injection H as <-.
  rename v into sg. bool_props. change 7 with (2 ^ 3 - 1) in *. rewrite land_mask in * by done. split.
  - exists sg. split_and!; try done; lia.
  - apply list_elem_of_lookup_2 in Hget. destruct (segment_in sg Hget). split; [lia|]. exists sg. split_and!; [done|lia|lia].
Qed.

(** *** The rebase stream *)

Lemma rebase_one_goes seg offset type skip s :
  memory_wf (fx_memory s) -> u64_ok offset -> 0 <= skip ->
  goes (fun offset' view events => type = 1 /\ offset' = w64 (offset + (8 + skip)) /\ follows [Rebase seg offset] view events)
    s (rebase_one backing image seg offset type slide skip s).
Proof.
  intros Hs Ho Hk. unfold rebase_one. destruct (type =? 1) eqn:Htype; [|done]. cbn [negb]. cbv zeta. destruct (limit <? _); [done|].
  destruct (target image seg offset) as [address|] eqn:Ht; [|done]. apply target_place in Ht as [Hplace Hplaced]; [|apply Ho].
  destruct (read_pointer _ _ _) as [v s1] eqn:Er. apply read_pointer_ok in Er as [Hs1 Hv]; [|done|apply Hplaced].
  destruct v as [raw|]; [|done]. destruct (Hv raw eq_refl) as [Hraw _].
  destruct (write_pointer _ _ _ _) as [[|] s2] eqn:Ew; cbn [negb]; [|done].
  destruct (_ <? 8 + skip) eqn:Hend; [done|]. eexists.
  split; [eapply write_pointer_reported; [eapply counted_read; [by apply counted_rebase|done]|done|done]|].
  apply Z.eqb_eq in Htype. apply Z.ltb_ge in Hend. unfold UINT64_MAX in Hend. split; [done|].
  split; [symmetry; apply w64_small; destruct Ho; split; lia|]. apply follows_single. by econstructor.
Qed.
Lemma rebase_times_goes count seg offset type skip s :
  memory_wf (fx_memory s) -> u64_ok offset -> 0 <= skip ->
  goes (fun offset' view events => offset' = w64 (offset + Z.of_nat count * (8 + skip)) /\ (0 < Z.of_nat count -> type = 1) /\
          follows (Rebase seg <$> places (Z.of_nat count) offset (8 + skip)) view events)
    s (rebase_times backing image count seg offset type slide skip s).
Proof.
  set (P := fun count offset offset' view events => offset' = w64 (offset + Z.of_nat count * (8 + skip)) /\
    (0 < Z.of_nat count -> type = 1) /\ follows (Rebase seg <$> places (Z.of_nat count) offset (8 + skip)) view events).
  change (memory_wf (fx_memory s) -> u64_ok offset -> 0 <= skip ->
    goes (P count offset) s (rebase_times backing image count seg offset type slide skip s)).
  revert offset s. induction count as [|count IH]; intros offset s Hs Ho Hk; cbn [rebase_times].
  { apply goes_nothing; [done|]. unfold P. rewrite Z.mul_0_l, Z.add_0_r, places_0. split; [by rewrite w64_small|]. split; [done|constructor]. }
  apply (goes_bind _ (fun offset' view events => type = 1 /\ offset' = w64 (offset + (8 + skip)) /\ follows [Rebase seg offset] view events) (P count));
    [by apply rebase_one_goes| |].
  - intros offset' s' events Hs' (_ & -> & _). apply IH; [by apply Hs'|apply w64_range|done].
  - intros _ offset' view events view' rest (Htype & -> & Hone) Hview (-> & _ & Hrest).
    unfold P. rewrite w64_idemp_l, places_S by done. split; [f_equal; lia|]. split; [done|].
    rewrite fmap_cons. exact (follows_app image resolve slide [_] _ _ _ _ _ Hone Hview Hrest).
Qed.
(** Opcode by opcode, what it leaves; numbers are read as they are met. *)
Ltac number E := apply leb_says in E; [destruct E|done|done].
Definition rebase_reads (byte : Z) (rest : list Z) (seg offset type : Z) (c : Cursor) (seg' offset' type' count skip : Z) : Prop :=
  u64_ok offset' /\ 0 <= count /\ 0 <= skip /\ Forall byte_ok (cr_rest c) /\ (length (cr_rest c) <= length rest)%nat /\
  forall fixups, (0 < count -> type' = 1) -> rebases_say (cr_rest c) seg' (w64 (offset' + count * (8 + skip))) type' fixups ->
    rebases_say (byte :: rest) seg offset type ((Rebase seg' <$> places count offset' (8 + skip)) ++ fixups).
Lemma rebase_reads_set byte rest seg offset type c seg' offset' type' :
  u64_ok offset' -> Forall byte_ok (cr_rest c) -> (length (cr_rest c) <= length rest)%nat ->
  (forall fixups, rebases_say (cr_rest c) seg' offset' type' fixups -> rebases_say (byte :: rest) seg offset type fixups) ->
  rebase_reads byte rest seg offset type c seg' offset' type' 0 0.
Proof.
  intros Ho Hb Hl Hsay. unfold rebase_reads. split_and!; try done. intros fixups _.
  rewrite places_0, Z.mul_0_l, Z.add_0_r, w64_small by done. apply Hsay.
Qed.
Lemma rebase_reads_do byte rest seg offset type c count skip :
  u64_ok offset -> 0 <= count -> 0 <= skip -> Forall byte_ok (cr_rest c) -> (length (cr_rest c) <= length rest)%nat ->
  rebase_times_says (byte :: rest) count skip (cr_rest c) ->
  rebase_reads byte rest seg offset type c seg offset type count skip.
Proof. intros Ho Hc Hk Hb Hl Hsay. unfold rebase_reads. split_and!; try done. intros. by eapply rebase_times_do. Qed.
Lemma rebase_opcode_reads byte rest seg offset type c seg' offset' type' count skip :
  byte_ok byte -> Forall byte_ok rest -> u64_ok offset -> Z.land byte 0xf0 <> 0 ->
  rebase_opcode (Z.land byte 0xf0) (Z.land byte 15) (mkCursor rest false) seg offset type = Some (c, seg', offset', type', count, skip) ->
  cr_bad c = false -> rebase_reads byte rest seg offset type c seg' offset' type' count skip.
Proof.
  intros Hbyte Hrest Ho Hop. destruct (byte_opcode byte Hbyte) as (op & imm & -> & Eop & Eimm & Himm & Hops). rewrite Eop, Eimm in *.
  clear Eop Eimm Hbyte. assert (u64_ok (offset + 8 * imm) \/ UINT64_MAX - offset < imm * 8) as Hscaled
    by (unfold UINT64_MAX, u64_ok in *; lia).
  rewrite !elem_of_cons in Hops. destruct_or! Hops; [subst op..|by apply elem_of_nil in Hops]; cbn [rebase_opcode]; try done.
  - intros [= <- <- <- <- <- <-] _. apply rebase_reads_set; [done..|]. intros. by constructor.
  - destruct (leb _ _) as [v c1] eqn:E. intros [= <- <- <- <- <- <-] Hbad. number E.
    apply rebase_reads_set; [done..|]. intros. by econstructor.
  - destruct (leb _ _) as [v c1] eqn:E. intros H Hbad. returned H. injection H as <- <- <- <- <- <-. number E.
    apply Z.ltb_ge in Hok. unfold UINT64_MAX, u64_ok in *. apply rebase_reads_set; [unfold u64_ok; lia|done..|]. intros. by econstructor.
  - intros H Hbad. returned H. injection H as <- <- <- <- <- <-. apply Z.ltb_ge in Hok. replace (imm * 8) with (8 * imm) by lia.
    apply rebase_reads_set; [destruct Hscaled; [done|lia]|done..|]. intros. by constructor.
  - intros [= <- <- <- <- <- <-] _. apply rebase_reads_do; try done; [lia|]. by constructor.
  - destruct (leb _ _) as [v c1] eqn:E. intros [= <- <- <- <- <- <-] Hbad. number E.
    apply rebase_reads_do; try done; [apply rn_range0|]. by constructor.
  - destruct (leb _ _) as [v c1] eqn:E. intros [= <- <- <- <- <- <-] Hbad. number E.
    apply rebase_reads_do; try done; [apply rn_range0|]. by constructor.
  - destruct (leb _ _) as [v [bytes1 bad1]] eqn:E1. destruct (leb (mkCursor bytes1 bad1) _) as [w c2] eqn:E2.
    intros [= <- <- <- <- <- <-] Hbad.
    apply leb_started in E2 as Hstarted; [subst bad1|done].
    apply leb_says in E1; [|done|done]. destruct E1 as [Hv ? Hb1 Hl1]. cbn in Hv, Hb1, Hl1. number E2.
    apply rebase_reads_do; try done; [apply rn_range0|apply rn_range1|lia|by econstructor].
Qed.
Lemma rebase_loop_goes fuel bytes seg offset type s :
  memory_wf (fx_memory s) -> Forall byte_ok bytes -> u64_ok offset -> (length bytes <= fuel)%nat ->
  goes (fun _ view events => exists fixups, rebases_say bytes seg offset type fixups /\ follows fixups view events)
    s (rebase_loop backing image fuel (mkCursor bytes false) seg offset type slide s).
Proof.
  revert bytes seg offset type s. induction fuel as [|fuel IH]; intros bytes seg offset type s Hs Hbytes Ho Hf;
    destruct bytes as [|byte rest]; cbn [rebase_loop cr_rest cr_bad]; [done|cbn in Hf; lia|done|].
  apply Forall_cons in Hbytes as [Hbyte Hrest]. cbn [length] in Hf. destruct (Z.eqb_spec (Z.land byte 0xf0) 0) as [Hop|Hop].
  { apply goes_nothing; [done|]. exists []. split; [|constructor].
    destruct (byte_opcode byte Hbyte) as (op & imm & -> & Eop & _ & Himm & _). rewrite Hop in Eop. subst op. by apply rebase_done. }
  destruct (rebase_opcode _ _ _ _ _ _) as [[[[[[c seg'] offset'] type'] count] skip]|] eqn:E; [|done].
  destruct (cr_bad c) eqn:Hbad; [done|]. cbn [orb]. destruct (_ || _); [done|].
  apply rebase_opcode_reads in E as (Ho' & Hcount & Hk & Hc & Hl & Hsay); [|done..].
  pose proof (rebase_times_goes (Z.to_nat count) seg' offset' type' skip s Hs Ho' Hk) as Htimes. rewrite Z2Nat.id in Htimes by done.
  destruct c as [rest' bad']. cbn in Hbad, Hc, Hl, Hsay. subst bad'.
  set (next := w64 (offset' + count * (8 + skip))) in *.
  apply (goes_bind _ _ (fun _ _ view events => exists fixups, rebases_say rest' seg' next type' fixups /\ follows fixups view events) _ _ _ _ Htimes).
  - intros a s' events Hs' (-> & _). apply IH; [apply Hs'|done|apply w64_range|lia].
  - intros a [] view events view' more (_ & Htype & Hone) Hview (fixups & Hfix & Hmore).
    eexists. split; [by apply Hsay|]. by eapply follows_app.
Qed.

(** *** The bind streams *)

Lemma bind_one_goes lazy weak_stream b skip s :
  memory_wf (fx_memory s) -> 0 <= bi_offset b ->
  goes (fun offset' view events =>
      (is_Some (bi_symbol b) /\ bi_type b = 1 /\ -3 <= bi_ordinal b <= dylibs) /\ offset' = w64 (bi_offset b + (8 + skip)) /\
      follows [Import (bi_seg b) (bi_offset b) (default [] (bi_symbol b)) (bi_ordinal b) (Z.odd (bi_flags b) || weak_stream) lazy (bi_addend b)]
        view events)
    s (bind_one backing image resolve lazy weak_stream b skip s).
Proof.
  intros Hs Ho. unfold bind_one. destruct (bi_symbol b) as [symbol|]; [|done]. destruct (_ || _ || _) eqn:Eb; [done|]. cbv zeta.
  destruct (limit <? _); [done|]. destruct (target image _ _) as [address|] eqn:Ht; [|done].
  apply target_place in Ht as [Hplace Hplaced]; [|done].
  assert (negb (Z.land (bi_flags b) 1 =? 0) = Z.odd (bi_flags b)) as ->.
  { change 1 with (2 ^ 1 - 1) at 1. rewrite land_mask, Zmod_odd by done. by destruct (Z.odd _). }
  destruct (resolve _ _ _ _ _) as [[|] value] eqn:Ev; cbn [negb]; [|done].
  destruct (write_pointer _ _ _ _) as [[|] s2] eqn:Ew; cbn [negb]; [|done].
  eexists. split; [eapply write_pointer_reported; [by apply counted_bind|done|done]|].
  unfold dylib_count in Eb. bool_props. split; [by split_and!; [eexists|..]|]. split; [done|]. apply follows_single. by econstructor.
Qed.
Lemma bind_times_goes count lazy weak_stream b skip s :
  memory_wf (fx_memory s) -> u64_ok (bi_offset b) ->
  goes (fun b' view events => b' = at_offset b (w64 (bi_offset b + Z.of_nat count * (8 + skip))) /\
          (0 < Z.of_nat count -> is_Some (bi_symbol b) /\ bi_type b = 1 /\ -3 <= bi_ordinal b <= dylibs) /\
          follows (imports_of lazy weak_stream b (Z.of_nat count) skip) view events)
    s (bind_times backing image resolve count lazy weak_stream b skip s).
Proof.
  set (P := fun count b b' view events => b' = at_offset b (w64 (bi_offset b + Z.of_nat count * (8 + skip))) /\
          (0 < Z.of_nat count -> is_Some (bi_symbol b) /\ bi_type b = 1 /\ -3 <= bi_ordinal b <= dylibs) /\
          follows (imports_of lazy weak_stream b (Z.of_nat count) skip) view events).
  change (memory_wf (fx_memory s) -> u64_ok (bi_offset b) ->
    goes (P count b) s (bind_times backing image resolve count lazy weak_stream b skip s)).
  revert b s. induction count as [|count IH]; intros b s Hs Ho; cbn [bind_times].
  { apply goes_nothing; [done|]. unfold P. rewrite Z.mul_0_l, Z.add_0_r, w64_small by done. destruct b. split; [done|].
    split; [done|constructor]. }
  eapply (goes_bind _ _ (fun offset => P count (at_offset b offset))); [by apply bind_one_goes, Ho| |].
  - intros offset' s' events Hs' (_ & -> & _). apply IH; [apply Hs'|apply w64_range].
  - intros offset' b' view events view' rest (Hready & -> & Hone) Hview (-> & _ & Hrest). unfold P. split.
    { unfold at_offset. cbn. rewrite w64_idemp_l. do 2 f_equal. lia. }
    split; [done|]. unfold imports_of. rewrite places_S, fmap_cons by done.
    exact (follows_app image resolve slide [_] _ _ _ _ _ Hone Hview Hrest).
Qed.
Lemma c_string_split bytes :
  terminated bytes = true -> bytes = c_string bytes ++ 0 :: drop (S (length (c_string bytes))) bytes /\ Forall (fun b => b <> 0) (c_string bytes).
Proof.
  unfold terminated. rewrite Nat.ltb_lt. induction bytes as [|b bytes IH]; cbn; [lia|].
  destruct (Z.eqb_spec b 0) as [->|Hb]; cbn; [by rewrite drop_0|]. intros Hl.
  destruct IH as [He Hf]; [lia|]. split; [by f_equal|by constructor].
Qed.
Definition bind_reads (byte : Z) (rest : list Z) (lazy weak_stream : bool) (b : Binding) (c : Cursor) (b' : Binding) (count skip : Z) : Prop :=
  u64_ok (bi_offset b') /\ 0 <= count /\ Forall byte_ok (cr_rest c) /\ (length (cr_rest c) <= length rest)%nat /\
  forall ended fixups, (0 < count -> is_Some (bi_symbol b') /\ bi_type b' = 1 /\ -3 <= bi_ordinal b' <= dylibs) ->
    binds_say dylibs lazy weak_stream (cr_rest c) false (at_offset b' (w64 (bi_offset b' + count * (8 + skip)))) fixups ->
    binds_say dylibs lazy weak_stream (byte :: rest) ended b (imports_of lazy weak_stream b' count skip ++ fixups).
Lemma bind_reads_set byte rest lazy weak_stream b c b' :
  u64_ok (bi_offset b') -> Forall byte_ok (cr_rest c) -> (length (cr_rest c) <= length rest)%nat ->
  bind_sets dylibs (byte :: rest) b (cr_rest c) b' -> bind_reads byte rest lazy weak_stream b c b' 0 0.
Proof.
  intros Ho Hb Hl Hsets. unfold bind_reads. split_and!; try done. intros ended fixups _.
  rewrite Z.mul_0_l, Z.add_0_r, w64_small by done. intros Hsay. eapply bind_set; [done|]. by destruct b'.
Qed.
Lemma bind_reads_do byte rest lazy weak_stream b c count skip :
  u64_ok (bi_offset b) -> 0 <= count -> Forall byte_ok (cr_rest c) -> (length (cr_rest c) <= length rest)%nat ->
  bind_times_says (byte :: rest) count skip (cr_rest c) -> bind_reads byte rest lazy weak_stream b c b count skip.
Proof. intros Ho Hc Hb Hl Hsay. unfold bind_reads. split_and!; try done. intros. by eapply bind_times_do. Qed.
Lemma bind_opcode_reads byte rest lazy weak_stream b c b' count skip :
  byte_ok byte -> Forall byte_ok rest -> u64_ok (bi_offset b) ->
  bind_opcode image (Z.land byte 0xf0) (Z.land byte 15) (mkCursor rest false) b = Some (c, b', count, skip) ->
  cr_bad c = false -> bind_reads byte rest lazy weak_stream b c b' count skip.
Proof.
  intros Hbyte Hrest Ho. destruct (byte_opcode byte Hbyte) as (op & imm & -> & Eop & Eimm & Himm & Hops). rewrite Eop, Eimm in *.
  clear Eop Eimm Hbyte. destruct b as [seg offset addend ordinal type flags symbol]. cbn [bi_offset] in Ho.
  rewrite !elem_of_cons in Hops. destruct_or! Hops; [subst op..|by apply elem_of_nil in Hops]; cbn [bind_opcode]; try done.
  - intros [= <- <- <- <-] _. apply bind_reads_set; [done..|]. by constructor.
  - destruct (leb _ _) as [v c1] eqn:E. intros H Hbad. returned H. injection H as <- <- <- <-. number E.
    apply Z.ltb_ge in Hok. apply bind_reads_set; [done..|]. by constructor.
  - intros [= <- <- <- <-] _. apply bind_reads_set; [done..|].
    replace (Z.lor imm 0xf0 - 256) with (imm - 16); [by constructor|].
    change 0xf0 with (15 * 2 ^ 4). rewrite lor_high by lia. lia.
  - intros H _. returned H. injection H as <- <- <- <-. apply negb_false_iff in Hok. destruct (c_string_split rest Hok) as [Hsplit Hname].
    apply bind_reads_set; [done|by apply Forall_drop|cbn [cr_rest]; rewrite length_drop; lia|].
    cbn [cr_rest]. rewrite Hsplit at 1. by constructor.
  - intros [= <- <- <- <-] _. apply bind_reads_set; [done..|]. by constructor.
  - destruct (leb _ _) as [v c1] eqn:E. intros [= <- <- <- <-] Hbad. number E. destruct rn_says0 as (x & -> & Hx).
    apply bind_reads_set; [done..|]. by constructor.
  - destruct (leb _ _) as [v c1] eqn:E. intros [= <- <- <- <-] Hbad. number E. apply bind_reads_set; [done..|]. by constructor.
  - destruct (leb _ _) as [v c1] eqn:E. intros [= <- <- <- <-] Hbad. number E.
    apply bind_reads_set; [apply w64_range|done..|]. by constructor.
  - intros [= <- <- <- <-] _. apply bind_reads_do; try done. by constructor.
  - destruct (leb _ _) as [v c1] eqn:E. intros [= <- <- <- <-] Hbad. number E. apply bind_reads_do; try done. by constructor.
  - intros [= <- <- <- <-] _. apply bind_reads_do; try done. replace (imm * 8) with (8 * imm) by lia. by constructor.
  - destruct (leb _ _) as [v [bytes1 bad1]] eqn:E1. destruct (leb (mkCursor bytes1 bad1) _) as [w c2] eqn:E2.
    intros [= <- <- <- <-] Hbad. apply leb_started in E2 as Hstarted; [subst bad1|done].
    apply leb_says in E1; [|done|done]. destruct E1 as [Hv Hr1 Hb1 Hl1]. cbn in Hv, Hb1, Hl1. number E2.
    apply bind_reads_do; [done|apply Hr1|done|lia|by econstructor].
Qed.
Lemma bind_loop_goes fuel lazy weak_stream bytes b ended s :
  memory_wf (fx_memory s) -> Forall byte_ok bytes -> u64_ok (bi_offset b) -> (length bytes <= fuel)%nat ->
  goes (fun _ view events => exists fixups, binds_say dylibs lazy weak_stream bytes ended b fixups /\ follows fixups view events)
    s (bind_loop backing image resolve fuel lazy weak_stream (mkCursor bytes false) b ended s).
Proof.
  revert bytes b ended s. induction fuel as [|fuel IH]; intros bytes b ended s Hs Hbytes Ho Hf;
    destruct bytes as [|byte rest]; cbn [bind_loop cr_rest cr_bad].
  1,3: destruct (lazy && ended) eqn:E; [|done]; apply andb_true_iff in E as [-> ->];
    apply goes_nothing; [done|]; exists []; split; [by constructor|constructor].
  { cbn in Hf. lia. }
  apply Forall_cons in Hbytes as [Hbyte Hrest]. cbn [length] in Hf. cbv zeta. destruct (Z.eqb_spec (Z.land byte 0xf0) 0) as [Hop|Hop].
  { destruct (byte_opcode byte Hbyte) as (op & imm & -> & Eop & _ & Himm & _). rewrite Hop in Eop. subst op. destruct lazy; cbn [negb].
    - eapply goes_from; [by apply advanced_refl|apply IH; [done|done|done|lia]|].
      intros _ events (fixups & Hsay & Hfollows). exists fixups. split; [|done]. by apply bind_entry_done.
    - apply goes_nothing; [done|]. exists []. split; [by apply bind_done|constructor]. }
  destruct (bind_opcode _ _ _ _ _) as [[[[c b'] count] skip]|] eqn:E; [|done].
  destruct (cr_bad c) eqn:Hbad; [done|]. cbn [orb]. destruct (_ <? count); [done|].
  apply (bind_opcode_reads _ _ lazy weak_stream) in E as (Ho' & Hcount & Hc & Hl & Hsay); [|done..].
  pose proof (bind_times_goes (Z.to_nat count) lazy weak_stream b' skip s Hs Ho') as Htimes. rewrite Z2Nat.id in Htimes by done.
  destruct c as [rest' bad']. cbn in Hbad, Hc, Hl, Hsay. subst bad'.
  set (next := at_offset b' (w64 (bi_offset b' + count * (8 + skip)))) in *.
  apply (goes_bind _ _ (fun _ _ view events => exists fixups, binds_say dylibs lazy weak_stream rest' false next fixups /\ follows fixups view events)
    _ _ _ _ Htimes).
  - intros a s' events Hs' (-> & _). apply IH; [apply Hs'|done|apply w64_range|lia].
  - intros a [] view events view' more (_ & Hready & Hone) Hview (fixups & Hfix & Hmore).
    eexists. split; [by apply Hsay|]. by eapply follows_app.
Qed.


(** *** Chained fixups *)

Lemma count_fixup_counted s raw : memory_wf (fx_memory s) -> counted s (count_fixup s raw).
Proof. unfold count_fixup. destruct (cp_bind raw); [apply counted_bind|apply counted_rebase]. Qed.
Lemma chained_value_says imports format raw value symbol :
  chained_value image resolve imports format slide raw = Some (value, symbol) ->
  link_says image resolve slide imports format raw value symbol.
Proof.
  unfold chained_value, cp_bind, cp_ordinal. change (bit raw 63) with (Z.testbit raw 63). destruct (Z.testbit raw 63) eqn:Hbit; intros H.
  - returned H. returned H. destruct (resolve _ _ _ _ _) as [answered answer] eqn:Hanswer. returned H. injection H as <- <-.
    change 0x7FFFF with (2 ^ 19 - 1) in Hok. change 0xFF with (2 ^ 8 - 1). change 0xFFFFFF with (2 ^ 24 - 1) in Hget.
    rewrite bits_land in Hok by done. rewrite bits_land by done. rewrite bits_land_0 in Hget by done. bool_props.
    econstructor; [done|done|done|done|]. apply andb_false_iff in Hok0. rewrite !negb_false_iff in Hok0. tauto.
  - returned H. injection H as <- <-. change 0x7F with (2 ^ 7 - 1) in Hok. rewrite bits_land in Hok by done. bool_props.
    change 0xFFFFFFFFF with (2 ^ 36 - 1). change 0xFF with (2 ^ 8 - 1). rewrite bits_land, bits_land_0, Z.shiftl_mul_pow2 by done.
    rewrite lor_high by (try done; pose proof (Z.mod_pos_bound (raw / 2 ^ 0) (2 ^ 36) ltac:(done)); unfold bits; lia).
    rewrite (Z.mul_comm (bits raw 36 8)).
    match goal with |- link_says _ _ _ _ _ _ ?x _ =>
      replace x with (w64 (bits raw 0 36 + 2 ^ 56 * bits raw 36 8 + (if format =? 6 then gi_header_address image else 0) + slide)) end;
      [by constructor|].
    destruct (format =? 6); [by rewrite w64_idemp_l|]. by rewrite Z.add_0_r.
Qed.
Lemma chain_loop_goes steps imports format page_start page_end address s sg :
  memory_wf (fx_memory s) -> sg ∈ gi_segments image -> sg_address sg <= page_start ->
  8 <= page_end <= sg_address sg + sg_size sg ->
  goes (fun _ => chain image resolve slide imports format page_start page_end address)
    s (chain_loop backing image resolve steps imports format slide page_start page_end address s).
Proof.
  intros Hs Hsg Hstart Hend. revert address s Hs. induction steps as [|steps IH]; intros address s Hs; cbn [chain_loop]; [done|].
  destruct ((w64 (page_end - 8) <? address) || (address <? page_start)) eqn:Hb; [done|].
  destruct (segment_in sg Hsg) as [Ha0 _ _ _ _ _ He _ _ _].
  apply orb_false_iff in Hb as [H1%Z.ltb_ge H2%Z.ltb_ge]. unfold UINT64_MAX in He.
  rewrite w64_small in H1 by (unfold u64_ok; lia).
  assert (placed_pointer address) as Hp by (split; [lia|]; exists sg; split; [done|]; lia).
  destruct (read_pointer _ _ _) as [raw s1] eqn:Er. apply read_pointer_ok in Er as [Hs1 Hraw]; [|done|apply Hp].
  destruct raw as [raw|]; [|done]. destruct (Hraw raw eq_refl) as [Hat _].
  destruct (chained_value _ _ _ _ _ _) as [[value symbol]|] eqn:Ev; [|done]. apply chained_value_says in Ev. cbv zeta.
  destruct (write_pointer _ _ _ _) as [[|] s2] eqn:Ew; cbn [negb]; [|done].
  apply (write_pointer_reported s1 _ _ _ symbol) in Ew; [|by apply count_fixup_counted, Hs1|done].
  pose proof (advanced_trans _ _ _ _ _ _ Hs1 Ew) as Hs2. cbn [app] in Hs2.
  assert (cp_next raw = bits raw 51 12) as -> by (unfold cp_next; change 0xFFF with (2 ^ 12 - 1); by rewrite bits_land).
  destruct (Z.eqb_spec (bits raw 51 12) 0) as [Hnext|Hnext].
  { exists [mkEvent address value symbol]. split; [done|]. eapply chain_last; (done || lia). }
  specialize (IH (w64 (address + bits raw 51 12 * 4)) _ (ad_wf _ _ _ _ Ew)).
  destruct (chain_loop _ _ _ _ _ _ _ _ _ _ _) as [a s3|s3|]; [|done..]. destruct IH as (events & Hs3 & Hchain).
  exists (mkEvent address value symbol :: events). split; [exact (advanced_trans _ _ _ _ _ _ Hs2 Hs3)|].
  eapply chain_next; [lia|lia|done|done|done|apply Hs2|]. by rewrite (Z.mul_comm 4).
Qed.
Lemma start_bits v : 0 <= v < 2 ^ 16 ->
  (negb (Z.land v 0x8000 =? 0) = Z.testbit v 15) /\ Z.ldiff v 0x8000 = v mod 2 ^ 15.
Proof.
  intros Hv. change 0x8000 with (2 ^ 15).
  assert (forall i, 16 <= i -> Z.testbit v i = false) as Hhigh.
  { intros i Hi. rewrite <- (Z.mod_small v (2 ^ 16)) by done. by rewrite Z.mod_pow2_bits_high by lia. }
  split.
  - destruct (Z.testbit v 15) eqn:E.
    + destruct (Z.eqb_spec (Z.land v (2 ^ 15)) 0) as [H|]; [|done].
      assert (Z.testbit (Z.land v (2 ^ 15)) 15 = true) as Hb by (by rewrite Z.land_spec, E, Z.pow2_bits_true).
      rewrite H in Hb. done.
    + assert (Z.land v (2 ^ 15) = 0) as ->; [|done]. apply Z.bits_inj'. intros i Hi. rewrite Z.land_spec, Z.bits_0.
      rewrite Z.pow2_bits_eqb by done. destruct (Z.eqb_spec 15 i) as [<-|]; [by rewrite E|by rewrite andb_false_r].
  - apply Z.bits_inj'. intros i Hi. rewrite Z.ldiff_spec, Z.pow2_bits_eqb by done.
    destruct (Z.ltb_spec i 15); [rewrite Z.mod_pow2_bits_low by done|rewrite Z.mod_pow2_bits_high by lia].
    + destruct (Z.eqb_spec 15 i); [lia|]. by rewrite andb_true_r.
    + destruct (Z.eqb_spec 15 i); [by rewrite andb_false_r|]. rewrite Hhigh by lia. done.
Qed.
Lemma run_chain_goes imports sg st page offset s :
  memory_wf (fx_memory s) -> sg ∈ gi_segments image -> st_page_size st = 4096 \/ st_page_size st = 16384 -> 0 <= offset ->
  goes (fun _ => chain_at image resolve slide imports sg st page (Z.ldiff offset START_LAST))
    s (run_chain backing image resolve imports slide sg st page offset s).
Proof.
  intros Hs Hsg Hst Ho. unfold run_chain, chain_at. destruct (_ <=? Z.ldiff _ _) eqn:Hoff; [done|]. apply Z.leb_gt in Hoff. cbv zeta.
  set (page_start := w64 (_ + page * _)). destruct (_ || _) eqn:Hb; [done|].
  apply orb_false_iff in Hb as [H1%Z.ltb_ge H2%Z.leb_gt].
  destruct (segment_in sg Hsg) as [Ha0 Hs0 _ _ _ _ He [Hal Hsl] _ _].
  apply Z.mod_divide in Hal as [ka Hal]; [|done]. apply Z.mod_divide in Hsl as [ks Hsl]; [|done].
  unfold UINT64_MAX, GM_PAGE_SIZE in *.
  assert (w64 (page_start + st_page_size st) = page_start + st_page_size st) as -> by (apply w64_small; unfold u64_ok; lia).
  set (page_end := if _ <? _ then _ else _).
  assert (page_end = Z.min (page_start + st_page_size st) (sg_address sg + sg_size sg)) as Hmin.
  { subst page_end. destruct (Z.ltb_spec (sg_address sg + sg_size sg) (page_start + st_page_size st)); lia. }
  assert (0 <= Z.ldiff offset START_LAST) as Hoff0 by (apply Z.ldiff_nonneg; by left).
  rewrite (w64_small (page_start + Z.ldiff offset START_LAST)) by (unfold u64_ok; lia).
  pose proof (chain_loop_goes (Z.to_nat (steps_allowed image + 1)) imports (st_format st) page_start page_end
    (page_start + Z.ldiff offset START_LAST) s sg Hs Hsg H1 ltac:(lia)) as Hchain.
  rewrite <- Hmin. eapply goes_from; [by apply advanced_refl|exact Hchain|]. intros [] events Hevents. by split_and!.
Qed.
Section chained_goes.
Context (blob : list Z) (Hblob : Forall byte_ok blob).
Lemma blob_at_says offset size bytes :
  0 <= offset -> 0 <= size -> blob_at blob offset size = Some bytes ->
  field_at blob offset (Z.to_nat size) (le_value bytes) /\ offset + size <= Z.of_nat (length blob) /\
  0 <= le_value bytes < 2 ^ (8 * size).
Proof.
  intros Ho Hs. unfold blob_at. cbv zeta. intros H. returned H. injection H as <-. bool_props.
  assert (length (slice (Z.to_nat offset) (Z.to_nat size) blob) = Z.to_nat size) as Hl by (apply length_slice; lia).
  split; [|split; [lia|]].
  - exists (take (Z.to_nat offset) blob), (slice (Z.to_nat offset) (Z.to_nat size) blob), (drop (Z.to_nat size) (drop (Z.to_nat offset) blob)).
    split_and!; [unfold slice; by rewrite !take_drop|rewrite length_take; lia|done|done].
  - pose proof (le_value_range _ (Forall_slice _ (Z.to_nat offset) (Z.to_nat size) _ Hblob)) as Hr. rewrite Hl, Z2Nat.id in Hr by done. done.
Qed.
Lemma blob_u16_says offset v :
  0 <= offset -> blob_u16 blob offset = Some v -> field_at blob offset 2 v /\ offset + 2 <= Z.of_nat (length blob) /\ 0 <= v < 2 ^ 16.
Proof. unfold blob_u16. intros Ho (b & Hb & ->)%fmap_Some. by apply blob_at_says in Hb. Qed.
Lemma blob_u32_says offset v : 0 <= offset -> blob_u32 blob offset = Some v -> field_at blob offset 4 v /\ 0 <= v < 2 ^ 32.
Proof. unfold blob_u32. intros Ho (b & Hb & ->)%fmap_Some. by apply blob_at_says in Hb as (? & _ & ?). Qed.
Lemma blob_u64_says offset v : 0 <= offset -> blob_u64 blob offset = Some v -> field_at blob offset 8 v /\ 0 <= v < 2 ^ 64.
Proof. unfold blob_u64. intros Ho (b & Hb & ->)%fmap_Some. by apply blob_at_says in Hb as (? & _ & ?). Qed.
Lemma blob_string_says offset name : 0 <= offset -> blob_string blob offset = Some name -> text_at blob offset name.
Proof.
  unfold blob_string. intros Ho H. returned H. cbv zeta in H. returned H. injection H as <-. apply negb_false_iff in Hok0. bool_props.
  destruct (c_string_split _ Hok0) as [Hsplit Hname]. eexists _, _. split; [|split; [|done]].
  - rewrite <- (take_drop (Z.to_nat offset) blob) at 1. by rewrite Hsplit at 1.
  - rewrite length_take. lia.
Qed.
Lemma chained_ordinal_says raw width : 0 < width -> chained_ordinal (bits raw 0 width) (2 ^ width - 1) = stored_ordinal width (bits raw 0 width).
Proof.
  intros. unfold chained_ordinal, stored_ordinal. replace (2 ^ width - 1 - 15) with (2 ^ width - 16) by lia.
  destruct (_ <? _); [lia|done].
Qed.
(** An entry of the table, and the table. *)
Lemma import_fields_says format entry table symbols k ordinal weak name_offset addend name :
  format = 1 /\ entry = 4 \/ format = 2 /\ entry = 8 \/ format = 3 /\ entry = 16 ->
  0 <= table -> 0 <= symbols -> 0 <= k ->
  import_fields blob format entry (table + k * entry) = Some (ordinal, weak, name_offset, addend) ->
  blob_string blob (symbols + name_offset) = Some name ->
  import_entry blob table symbols k format (mkImport name ordinal weak addend).
Proof.
  intros Hformat Ht Hsy Hk. unfold import_fields. change (bit ?x ?i) with (Z.testbit x i).
  change 0xFFFF with (2 ^ 16 - 1). change 0xFF with (2 ^ 8 - 1).
  destruct Hformat as [[-> ->]|[[-> ->]|[-> ->]]]; cbn [Z.eqb Pos.eqb]; intros H Hname.
  - returned H. returned H. injection H as <- <- <- <-. injection Hget0 as <-. apply blob_u32_says in Hget as [Hf Hr]; [|lia].
    change (Z.land v (2 ^ 8 - 1)) with (Z.land v (2 ^ 8 - 1)). rewrite bits_land_0, chained_ordinal_says by done.
    rewrite Z.shiftr_div_pow2 in Hname by done. apply blob_string_says in Hname; [|apply Z.add_nonneg_nonneg; [done|apply Z.div_pos; lia]].
    by apply import_plain.
  - returned H. returned H. injection H as <- <- <- <-. apply blob_u32_says in Hget as [Hf Hr]; [|lia]. apply blob_u32_says in Hget0 as [Hf0 Hr0]; [|lia].
    rewrite bits_land_0, chained_ordinal_says by done.
    rewrite Z.shiftr_div_pow2 in Hname by done. apply blob_string_says in Hname; [|apply Z.add_nonneg_nonneg; [done|apply Z.div_pos; lia]].
    assert ((if 2 ^ 31 <=? v0 then w64 (v0 - 2 ^ 32) else v0) = w64 (signed_32 v0)) as ->; [|by apply import_addend].
    unfold signed_32. destruct (Z.leb_spec (2 ^ 31) v0), (Z.ltb_spec v0 (2 ^ 31)); try lia. symmetry. apply w64_small. unfold u64_ok. lia.
  - returned H. returned H. injection H as <- <- <- <-. apply blob_u64_says in Hget as [Hf Hr]; [|lia]. apply blob_u64_says in Hget0 as [Hf0 Hr0]; [|lia].
    rewrite bits_land_0, chained_ordinal_says by done.
    rewrite Z.shiftr_div_pow2 in Hname by done. apply blob_string_says in Hname; [|apply Z.add_nonneg_nonneg; [done|apply Z.div_pos; lia]].
    by apply import_addend64.
Qed.
Lemma import_loop_says n format entry table symbols i imports :
  format = 1 /\ entry = 4 \/ format = 2 /\ entry = 8 \/ format = 3 /\ entry = 16 ->
  0 <= table -> 0 <= symbols -> 0 <= i ->
  import_loop image n blob i format entry table symbols = Some imports ->
  length imports = n /\ Forall (import_ok image) imports /\
  forall k import, imports !! k = Some import -> import_entry blob table symbols (i + Z.of_nat k) format import.
Proof.
  intros Hformat Ht Hsy. revert i imports. induction n as [|n IH]; intros i imports Hi; cbn [import_loop].
  { intros [= <-]. split_and!; [done|constructor|]. intros k import Hk. by rewrite lookup_nil in Hk. }
  intros H. returned H. destruct v as [[[ordinal weak] name_offset] addend]. returned H. rename v into name. returned H. returned H.
  injection H as <-. rename v into rest. apply IH in Hget1 as (Hl & Hall & Hentries); [|lia]. split_and!; [cbn; lia| |].
  - constructor; [|done]. unfold import_ok. cbn. unfold dylib_count, WEAK_LOOKUP in Hok. bool_props. lia.
  - intros [|k] import Hk; cbn in Hk.
    + injection Hk as <-. rewrite Z.add_0_r. by eapply import_fields_says.
    + specialize (Hentries k import Hk). by replace (i + Z.of_nat (S k)) with (i + 1 + Z.of_nat k) by lia.
Qed.
Lemma chained_header_says imports starts :
  chained_header imports_ok image blob = Some (imports, starts) -> chain_header image blob imports starts /\ 0 <= starts.
Proof.
  unfold chained_header. intros H. returned H. rename v into version, Hget into Hversion. returned H. rename v into starts', Hget into Hstarts.
  returned H. rename v into table, Hget into Htable. returned H. rename v into symbols, Hget into Hsymbols.
  returned H. rename v into count, Hget into Hcount. returned H. rename v into format, Hget into Hformat.
  returned H. rename v into compressed, Hget into Hcompressed. returned H. returned H. cbv zeta in H. returned H. returned H. returned H. returned H.
  injection H as -> <-. apply negb_false_iff, Z.eqb_eq in Hok as ->. apply negb_false_iff, Z.eqb_eq in Hok0 as ->.
  apply blob_u32_says in Hversion as [Hversion _], Hstarts as [Hstarts ?], Htable as [Htable ?], Hsymbols as [Hsymbols ?],
    Hcount as [Hcount ?], Hformat as [Hformat ?], Hcompressed as [Hcompressed _]; try done.
  set (entry := if format =? 1 then _ else _) in *.
  assert (format = 1 /\ entry = 4 \/ format = 2 /\ entry = 8 \/ format = 3 /\ entry = 16) as Hentry.
  { subst entry. destruct (Z.eqb_spec format 1); [by left|]. destruct (Z.eqb_spec format 2); [by right; left|].
    destruct (Z.eqb_spec format 3); [by right; right|]. done. }
  apply import_loop_says in Hget as (Hl & Hall & Hentries); [|done|lia|lia|done].
  split; [|lia]. exists table, symbols, count, format. split_and!; try done. lia.
Qed.
Lemma segment_starts_says at_ st : 0 <= at_ -> segment_starts blob at_ = Some st -> starts_at blob at_ st.
Proof.
  intros Ha. unfold segment_starts. intros H. returned H. returned H. returned H. returned H. returned H. returned H. injection H as <-.
  apply blob_u16_says in Hget as [? _], Hget0 as [? _], Hget2 as [? _]; try lia. apply blob_u64_says in Hget1 as [? _]; [|lia].
  apply andb_false_iff in Hok, Hok0. rewrite !negb_false_iff, !Z.eqb_eq in *. by split.
Qed.

(** The chains of a page, the pages of a segment, and the segments. *)
Context (imports : list ChainedImport).
#[local] Abbreviation chain_at := (chain_at image resolve slide imports).
#[local] Abbreviation chains_at := (chains_at image resolve slide blob imports).
#[local] Abbreviation page_follows := (page_follows image resolve slide blob imports).
#[local] Abbreviation segment_follows := (segment_follows image resolve slide blob imports).
Lemma chain_list_goes fuel sg st page list_ s :
  memory_wf (fx_memory s) -> sg ∈ gi_segments image -> st_page_size st = 4096 \/ st_page_size st = 16384 ->
  0 <= list_ -> Z.of_nat (length blob) - list_ <= Z.of_nat fuel ->
  goes (fun _ => chains_at sg st page list_) s (chain_list backing image resolve blob imports slide fuel sg st page list_ s).
Proof.
  intros Hs Hsg Hst. revert list_ s Hs. induction fuel as [|fuel IH]; intros list_ s Hs Hlist Hf; cbn [chain_list];
    destruct (blob_u16 blob list_) as [offset|] eqn:E; [|done| |done]; apply blob_u16_says in E as (Hfield & E & Hr); [lia|done| |done].
  destruct (start_bits offset Hr) as [Hlast Hoffset]. unfold START_LAST in *. rewrite Hlast.
  pose proof (run_chain_goes imports sg st page offset s Hs Hsg Hst ltac:(lia)) as Hrun. unfold START_LAST in Hrun. rewrite Hoffset in Hrun.
  set (Q := fun view events => if Z.testbit offset 15 then events = [] else chains_at sg st page (list_ + 2) view events).
  apply (goes_bind _ _ (fun _ _ => Q) _ _ _ _ Hrun); unfold Q.
  - intros [] s' events Hs' _. destruct (Z.testbit offset 15); [apply goes_nothing; [apply Hs'|done]|]. apply IH; [apply Hs'|lia|lia].
  - intros [] [] view events view' rest Hchain Hview Hrest. destruct (Z.testbit offset 15) eqn:Hbit.
    + subst rest. rewrite app_nil_r. by eapply chains_last.
    + eapply chains_more; try done. replace offset with (offset mod 2 ^ 15); [done|].
      rewrite <- Hoffset. apply Z.bits_inj'. intros i Hi. rewrite Z.ldiff_spec. change 0x8000 with (2 ^ 15).
      rewrite Z.pow2_bits_eqb by done. destruct (Z.eqb_spec 15 i) as [<-|]; [by rewrite Hbit|]. by rewrite andb_true_r.
Qed.
Lemma page_loop_goes n sg st page s :
  memory_wf (fx_memory s) -> sg ∈ gi_segments image -> st_page_size st = 4096 \/ st_page_size st = 16384 ->
  0 <= st_at st -> 0 <= page ->
  goes (fun _ => for_each n page (page_follows sg st)) s (page_loop backing image resolve blob imports slide n sg st page s).
Proof.
  intros Hs Hsg Hst Hat. revert page s Hs. induction n as [|n IH]; intros page s Hs Hpage; cbn [page_loop for_each];
    [by apply goes_nothing|].
  destruct (blob_u16 blob _) as [start|] eqn:Eu; [|done]. apply blob_u16_says in Eu as (Hfield & _ & Hr); [|lia].
  destruct (start_bits start Hr) as [Hmulti Hlist].
  assert (forall events view view' rest, (if start =? 0xFFFF then events = [] else
      if Z.testbit start 15 then chains_at sg st page (st_at st + 22 + start mod 2 ^ 15 * 2) view events
      else chain_at sg st page start view events) -> after view events view' ->
    for_each n (page + 1) (page_follows sg st) view' rest ->
    and_then (page_follows sg st page) (for_each n (page + 1) (page_follows sg st)) view (events ++ rest)) as Hnext.
  { intros events view view' rest Hone Hview Hrest. exists events, view', rest. split_and!; try done. by exists start. }
  destruct (Z.eqb_spec start 0xFFFF) as [->|Hne].
  { eapply goes_from; [by apply advanced_refl|apply IH; [done|lia]|]. intros [] events Hrest. by apply (Hnext [] _ (cell (fx_memory s))). }
  rewrite Hmulti, Hlist.
  eapply (goes_bind _ (fun _ view events => if Z.testbit start 15 then chains_at sg st page (st_at st + 22 + start mod 2 ^ 15 * 2) view events
      else chain_at sg st page start view events) (fun _ _ => for_each n (page + 1) (page_follows sg st))).
  - destruct (Z.testbit start 15) eqn:Hbit.
    + pose proof (Z.mod_pos_bound start (2 ^ 15) ltac:(done)). apply chain_list_goes; [done|done|done|lia|lia].
    + pose proof (run_chain_goes imports sg st page start s Hs Hsg Hst ltac:(lia)) as Hrun. unfold START_LAST in Hrun.
      replace (Z.ldiff start 0x8000) with start in Hrun; [exact Hrun|]. apply Z.bits_inj'. intros i Hi. rewrite Z.ldiff_spec.
      change 0x8000 with (2 ^ 15). rewrite Z.pow2_bits_eqb by done. destruct (Z.eqb_spec 15 i) as [<-|]; [by rewrite Hbit|]. by rewrite andb_true_r.
  - intros [] s' events Hs' _. apply IH; [apply Hs'|lia].
  - intros [] [] view events view' rest Hone Hview Hrest. by eapply Hnext.
Qed.
Lemma segment_loop_goes n i starts s :
  memory_wf (fx_memory s) -> 0 <= starts -> 0 <= i ->
  goes (fun _ => for_each n i (segment_follows starts)) s (segment_loop backing image resolve blob imports slide n i starts s).
Proof.
  intros Hs Hso. revert i s Hs. induction n as [|n IH]; intros i s Hs Hi; cbn [segment_loop for_each];
    [by apply goes_nothing|].
  destruct (blob_u32 blob _) as [info|] eqn:Eu; [|done]. apply blob_u32_says in Eu as [Hfield Hr]; [|lia].
  destruct (Z.eqb_spec info 0) as [->|Hne].
  { eapply goes_from; [by apply advanced_refl|apply IH; [done|lia]|]. intros [] events Hrest.
    exists [], (cell (fx_memory s)), events. split_and!; try done. by exists 0. }
  destruct (gi_segments image !! _) as [sg|] eqn:Esg; [|done].
  apply list_elem_of_lookup_2 in Esg as Hsg. destruct (segment_starts blob _) as [st|] eqn:Est; [|done].
  apply segment_starts_says in Est; [|lia]. pose proof (sa_at _ _ _ Est).
  eapply (goes_bind _ (fun _ => for_each (Z.to_nat (st_page_count st)) 0 (page_follows sg st)) (fun _ _ => for_each n (i + 1) (segment_follows starts))).
  - apply page_loop_goes; [done|done|apply Est|lia|done].
  - intros [] s' events Hs' _. apply IH; [apply Hs'|lia].
  - intros [] [] view events view' rest Hone Hview Hrest. exists events, view', rest. split_and!; try done.
    exists info. split; [done|]. rewrite (proj2 (Z.eqb_neq _ _) Hne). by exists sg, st.
Qed.
End chained_goes.

(** *** Streams *)

Lemma find_first {A} (f : A -> bool) l x :
  List.find f l = Some x -> exists i, l !! i = Some x /\ f x = true /\ forall j y, (j < i)%nat -> l !! j = Some y -> f y = false.
Proof.
  induction l as [|y l IH]; [done|]. cbn [List.find]. destruct (f y) eqn:Hy.
  - intros [= <-]. exists O. split_and!; [done|done|]. lia.
  - intros (i & Hi & Hx & Hfirst)%IH. exists (S i). split_and!; [done|done|]. intros [|j] z Hj Hz; [by injection Hz as <-|].
    eapply Hfirst; [|done]. lia.
Qed.
Lemma holds_in_file sg offset size :
  segment_ok slice_size sg -> 0 <= size -> holds offset size sg = true <-> in_file sg offset size.
Proof.
  intros [] Hs. unfold holds, in_file. rewrite negb_true_iff, !orb_false_iff, !Z.ltb_ge. lia.
Qed.
Lemma stream_says s offset size b s' :
  memory_wf (fx_memory s) -> 0 <= size -> stream backing buffer_ok image s offset size = (b, s') ->
  advanced_by s s' [] /\ forall bs, b = Some bs -> Forall byte_ok bs /\ stream_at image (cell (fx_memory s)) offset size bs.
Proof.
  intros Hs Hsize. unfold stream. assert (advanced_by s s []) by (by apply advanced_refl).
  destruct (_ <? size); [by intros [= <- <-]|]. destruct (List.find _ _) as [sg|] eqn:Ef; [|by intros [= <- <-]].
  destruct (negb (buffer_ok offset)); [by intros [= <- <-]|]. apply find_first in Ef as (i & Hi & Hh & Hfirst).
  pose proof (list_elem_of_lookup_2 _ _ _ Hi) as Hsg. pose proof (segment_in sg Hsg) as Hok.
  rewrite holds_in_file in Hh by done. pose proof Hok as []. destruct Hh as [Hh1 Hh2].
  pose proof (read_bytes_ok (fx_memory s) (sg_address sg + offset - sg_file_offset sg) size Hs ltac:(lia) Hsize) as Hr.
  destruct (read_bytes _ _ _ _) as [b' m']. destruct Hr as (Hm & Hc & Hb). intros [= <- <-]. split.
  - split; [done|by cbn; rewrite app_nil_r|exact Hc|cbn; lia|constructor].
  - intros bs Hbs. destruct (Hb bs Hbs) as (Hbytes & Hl & Hat). split; [done|]. exists i, sg. split_and!; try done.
    + intros j sg' Hj Hsg'. pose proof (Hfirst j sg' Hj Hsg') as Hno. apply list_elem_of_lookup_2 in Hsg'.
      intros Hin. apply holds_in_file in Hin; [congruence|by apply segment_in|done].
    + by replace (sg_address sg + (offset - sg_file_offset sg)) with (sg_address sg + offset - sg_file_offset sg) by lia.
Qed.
Lemma chained_goes offset size s :
  memory_wf (fx_memory s) -> 0 <= size ->
  goes (fun _ => chains_follow image resolve slide offset size) s (chained backing buffer_ok imports_ok image resolve offset size slide s).
Proof.
  intros Hs Hsize. unfold chained. destruct (stream _ _ _ _ _ _) as [b s1] eqn:E.
  apply stream_says in E as [Hs1 Hb]; [|done|done]. destruct b as [blob|]; [|done]. destruct (Hb blob eq_refl) as [Hblob Hat].
  destruct (chained_header imports_ok image blob) as [[imports starts]|] eqn:Eh; [|done].
  apply chained_header_says in Eh as [Hheader Hstarts]; [|done].
  destruct (blob_u32 blob starts) as [segments|] eqn:Eu; [|done]. apply blob_u32_says in Eu as [Hsegments_ _]; [|done|done].
  eapply goes_from; [exact Hs1|apply segment_loop_goes; [done|apply Hs1|done|done]|].
  intros [] events Hevents. exists blob, (cell (fx_memory s1)), imports, starts, segments. split_and!; try done. apply Hs1.
Qed.
Lemma apply_stream_goes offset size run (says : list Z -> list Fixup -> Prop) s :
  memory_wf (fx_memory s) -> 0 <= size ->
  (forall bytes s', memory_wf (fx_memory s') -> Forall byte_ok bytes ->
    goes (fun _ view events => exists fixups, says bytes fixups /\ follows fixups view events) s' (run bytes s')) ->
  goes (fun _ => stream_follows image resolve slide offset size says) s (apply_stream backing buffer_ok image offset size run s).
Proof.
  intros Hs Hsize Hrun. unfold apply_stream, stream_follows. destruct (size =? 0); [by apply goes_nothing|].
  destruct (stream _ _ _ _ _ _) as [b s1] eqn:E. apply stream_says in E as [Hs1 Hb]; [|done|done].
  destruct b as [bytes|]; [|done]. destruct (Hb bytes eq_refl) as [Hbytes Hat].
  eapply goes_from; [exact Hs1|apply Hrun; [apply Hs1|done]|]. intros [] events (fixups & Hsay & Hfollows).
  exists bytes, fixups. split_and!; [done..|]. eapply follows_ext; [apply Hs1|done].
Qed.
End operations.

(** ** The whole operation *)

(** What the fixups need of an image: a loaded one has it. *)
Record fixable (image : GuestImage) : Prop := {
  fi_segments : exists slice_size, Forall (segment_ok slice_size) (gi_segments image);
  fi_memory : memory_wf (gi_memory image);
  fi_dyld : dyld_ok (gi_dyld image);
  fi_chained : forall o n, gi_chained image = Some (o, n) -> 0 <= o /\ 0 <= n
}.
Lemma load_fixable ok f file_type image :
  Forall byte_ok f -> load ok f file_type = Some image -> fixable image.
Proof.
  intros Hf H. destruct (load_loaded ok f file_type image Hf H) as (slice_size & c & m & Hl).
  pose proof (ld_layout _ _ _ _ _ _ _ Hl) as Hlay. destruct (lo_fields _ _ _ Hlay). split.
  - exists slice_size. rewrite (ld_segments _ _ _ _ _ _ _ Hl). apply Hlay.
  - apply (ld_memory _ _ _ _ _ _ _ Hl).
  - by rewrite (ld_dyld _ _ _ _ _ _ _ Hl).
  - by rewrite (ld_chained _ _ _ _ _ _ _ Hl).
Qed.

Section whole.
Context (backing : Z -> bool) (buffer_ok : Z -> bool) (imports_ok : bool) (image : GuestImage).
Context (resolve : list Z -> Z -> bool -> bool -> Z -> bool * Z).

Lemma gf_apply_goes has_resolve slide :
  fixable image ->
  goes image (fun _ => fixups_follow image resolve slide) (mkFixing (gi_memory image) 0 0 [])
    (gf_apply_observed backing buffer_ok imports_ok image resolve has_resolve slide).
Proof.
  intros [[slice_size Hseg] Hm Hd Hc]. unfold gf_apply_observed, fixups_follow. cbv zeta. destruct (negb has_resolve); [done|].
  destruct (gi_chained image) as [[offset size]|] eqn:Ech.
  { destruct (_ || _ || _ || _); [done|]. destruct (Hc offset size eq_refl). by eapply chained_goes. }
  unfold dyld_ok in Hd. rewrite !Forall_cons in Hd. destruct Hd as (? & ? & ? & ? & ? & ? & ? & ? & _).
  set (s0 := mkFixing _ _ _ _). unfold opcodes_follow.
  assert (forall lazy weak_stream offset size s, memory_wf (fx_memory s) -> 0 <= size ->
    goes image (fun _ => stream_follows image resolve slide offset size (fun bytes =>
        binds_say (Z.of_nat (length (gi_dylibs image))) lazy weak_stream bytes false (start_binding (if weak_stream then -3 else 0))))
      s (apply_stream backing buffer_ok image offset size
           (fun bytes => binds backing image resolve bytes lazy weak_stream) s)) as Hbinds.
  { intros lazy weak_stream offset size s Hs Hsize. eapply apply_stream_goes; [done..|]. intros bytes s' Hs' Hbytes.
    by eapply bind_loop_goes. }
  apply goes_and_then.
  { eapply apply_stream_goes; [done..|]. intros bytes s' Hs' Hbytes. by eapply rebase_loop_goes. }
  intros _ s1 Hs1. apply goes_and_then; [by apply (Hbinds true false)|].
  intros _ s2 Hs2. apply goes_and_then; [by apply (Hbinds false false)|]. intros _ s3 Hs3. by apply (Hbinds false true).
Qed.

(** C10: Applying the fixups ends, whatever the opcodes and the chains say. *)
Theorem gf_apply_terminates has_resolve slide :
  fixable image ->
  gf_apply_observed backing buffer_ok imports_ok image resolve has_resolve slide <> Spin.
Proof. intros H E. pose proof (gf_apply_goes has_resolve slide H) as Hg. by rewrite E in Hg. Qed.

(** C9: When the fixups succeed, they are exactly what the file says. Decoded from
    the bytes of its streams, in the order of the streams, or of its chains, each
    fixup stores one pointer: a rebase the one that stood there plus the slide, a
    bind the value that its symbol, with its ordinal and its flags, was answered
    with plus its addend, a link of a chain what its own bits, the imports table
    and the answer make of it. The image's memory is the loaded one with those
    pointers stored and nothing else, each inside a segment; the reports are they,
    and the statistics count them all. *)
Theorem gf_apply_exact has_resolve slide s :
  fixable image ->
  gf_apply_observed backing buffer_ok imports_ok image resolve has_resolve slide = Next tt s ->
  memory_wf (fx_memory s) /\
  (forall x, cell (fx_memory s) x = written (cell (gi_memory image)) (fx_events s) x) /\
  fx_rebases s + fx_binds s = Z.of_nat (length (fx_events s)) /\
  Forall (inside image) (fx_events s) /\
  fixups_follow image resolve slide (cell (gi_memory image)) (fx_events s).
Proof.
  intros H E. pose proof (gf_apply_goes has_resolve slide H) as Hg. rewrite E in Hg.
  destruct Hg as (events & [Hm He Hc Hn Hi] & Hfollow). cbn in *. subst events. repeat (split; [done || lia|]). done.
Qed.
End whole.

(** ** Witnesses *)

(** The example executable with one pointer to its code, one to a symbol, and the
    streams that rebase the first and bind the second with an addend. *)
Definition rebased_file : list Z :=
  concat [le_bytes 4 0xfeedfacf; le_bytes 4 CPU_TYPE_ARM64; le_bytes 4 0; le_bytes 4 MH_EXECUTE;
          le_bytes 4 3; le_bytes 4 144; le_bytes 8 0;
          le_bytes 4 LC_SEGMENT_64; le_bytes 4 72; str_TEXT ++ replicate 10 0;
          le_bytes 8 0x100000000; le_bytes 8 0x4000; le_bytes 8 0; le_bytes 8 218;
          le_bytes 4 5; le_bytes 4 5; le_bytes 8 0;
          le_bytes 4 LC_MAIN; le_bytes 4 24; le_bytes 8 176; le_bytes 8 0;
          le_bytes 4 LC_DYLD_INFO_ONLY; le_bytes 4 48; le_bytes 4 200; le_bytes 4 6; le_bytes 4 206; le_bytes 4 12; replicate 24 0;
          le_bytes 8 0xd65f03c0; le_bytes 8 0x1000000b0; le_bytes 8 0;
          [0x11; 0x20; 0xb8; 0x01; 0x51; 0x00];
          [0x40; 95; 97; 0; 0x60; 4; 0x70; 0xc0; 0x01; 0x90; 0x00; 0x00]].
(** The same two pointers as a chain, with the imports table in the format that
    has addends; the binding link adds three more. *)
Definition chained_blob : list Z :=
  concat [le_bytes 4 0; le_bytes 4 28; le_bytes 4 60; le_bytes 4 68; le_bytes 4 1; le_bytes 4 2; le_bytes 4 0;
          le_bytes 4 1; le_bytes 4 8;
          le_bytes 4 24; le_bytes 2 0x4000; le_bytes 2 6; le_bytes 8 0; le_bytes 4 0; le_bytes 2 1; le_bytes 2 152;
          le_bytes 4 0; le_bytes 4 4; [95; 97; 0]].
Definition chained_file : list Z :=
  concat [le_bytes 4 0xfeedfacf; le_bytes 4 CPU_TYPE_ARM64; le_bytes 4 0; le_bytes 4 MH_EXECUTE;
          le_bytes 4 3; le_bytes 4 112; le_bytes 8 0;
          le_bytes 4 LC_SEGMENT_64; le_bytes 4 72; str_TEXT ++ replicate 10 0;
          le_bytes 8 0x100000000; le_bytes 8 0x4000; le_bytes 8 0; le_bytes 8 239;
          le_bytes 4 5; le_bytes 4 5; le_bytes 8 0;
          le_bytes 4 LC_MAIN; le_bytes 4 24; le_bytes 8 144; le_bytes 8 0;
          le_bytes 4 LC_DYLD_CHAINED_FIXUPS; le_bytes 4 16; le_bytes 4 168; le_bytes 4 71;
          le_bytes 8 0xd65f03c0; le_bytes 8 (0x90 + 2 * 2 ^ 51); le_bytes 8 (2 ^ 63 + 3 * 2 ^ 24); chained_blob].
Lemma files_ok : Forall byte_ok rebased_file /\ Forall byte_ok chained_file.
Proof.
  assert (forall f, forallb (fun b => (0 <=? b) && (b <? 256)) f = true -> Forall byte_ok f) as Hbytes.
  { intros f H. rewrite forallb_forall in H. apply Forall_forall. intros x Hx%list_elem_of_In. specialize (H x Hx).
    unfold byte_ok. lia. }
  split; apply Hbytes; vm_compute; reflexivity.
Qed.
Definition example_answer (_ : list Z) (_ : Z) (_ _ : bool) (_ : Z) : bool * Z := (true, 0x7000).
Definition example_fixups (image : GuestImage) : Step unit :=
  gf_apply_observed (fun _ => true) (fun _ => true) true image example_answer true 0x1000.
Definition events_of (r : Step unit) : option (list Event) :=
  match r with Next _ s => Some (fx_events s) | _ => None end.
Definition example_events : list Event :=
  [mkEvent 0x1000000b8 0x1000010b0 None; mkEvent 0x1000000c0 0x7004 (Some [95; 97])].
Definition chained_events : list Event :=
  [mkEvent 0x100000098 0x100001090 None; mkEvent 0x1000000a0 0x7007 (Some [95; 97])].
Lemma example_loads file events :
  events_of <$> (example_fixups <$> load always file MH_EXECUTE) = Some (Some events) ->
  exists image s, load always file MH_EXECUTE = Some image /\ example_fixups image = Next tt s /\ fx_events s = events.
Proof.
  destruct (load always file MH_EXECUTE) as [image|]; [|done]. cbn [fmap option_fmap option_map]. intros H. injection H as H.
  exists image. destruct (example_fixups image) as [[] s|s|]; [|done..]. injection H as H. by exists s.
Qed.
Lemma rebased_image_loads : exists image s,
  load always rebased_file MH_EXECUTE = Some image /\ example_fixups image = Next tt s /\ fx_events s = example_events.
Proof. apply example_loads. vm_compute. reflexivity. Qed.
Lemma chained_image_loads : exists image s,
  load always chained_file MH_EXECUTE = Some image /\ example_fixups image = Next tt s /\ fx_events s = chained_events.
Proof. apply example_loads. vm_compute. reflexivity. Qed.
Lemma gf_apply_terminates_witness :
  exists image, load always rebased_file MH_EXECUTE = Some image /\ example_fixups image <> Spin.
Proof.
  destruct rebased_image_loads as (image & s & Hload & _). exists image. split; [exact Hload|].
  apply (gf_apply_terminates (fun _ => true) (fun _ => true) true image example_answer true 0x1000).
  exact (load_fixable always rebased_file MH_EXECUTE image (proj1 files_ok) Hload).
Defined.
(** An image's memory holds the pointers of [events], and they are its fixups. *)
Definition exactly (image : GuestImage) (s : Fixing) (events : list Event) : Prop :=
  (forall x, cell (fx_memory s) x = written (cell (gi_memory image)) events x) /\
  fixups_follow image example_answer 0x1000 (cell (gi_memory image)) events.
Lemma gf_apply_exact_witness :
  (exists image s, load always rebased_file MH_EXECUTE = Some image /\ example_fixups image = Next tt s /\
    exactly image s example_events) /\
  (exists image s, load always chained_file MH_EXECUTE = Some image /\ example_fixups image = Next tt s /\
    exactly image s chained_events).
Proof.
  split.
  - destruct rebased_image_loads as (image & s & Hload & E & Hev). exists image, s. split; [exact Hload|]. split; [exact E|].
    destruct (gf_apply_exact (fun _ => true) (fun _ => true) true image example_answer true 0x1000 s
      (load_fixable always rebased_file MH_EXECUTE image (proj1 files_ok) Hload) E) as (_ & Hc & _ & _ & Hfollow).
    rewrite Hev in Hc, Hfollow. split; [exact Hc|exact Hfollow].
  - destruct chained_image_loads as (image & s & Hload & E & Hev). exists image, s. split; [exact Hload|]. split; [exact E|].
    destruct (gf_apply_exact (fun _ => true) (fun _ => true) true image example_answer true 0x1000 s
      (load_fixable always chained_file MH_EXECUTE image (proj2 files_ok) Hload) E) as (_ & Hc & _ & _ & Hfollow).
    rewrite Hev in Hc, Hfollow. split; [exact Hc|exact Hfollow].
Defined.
Lemma leb_decodes_witness :
  leb (mkCursor (sleb128 10 (-624485) ++ [7]) false) true = (w64 (-624485), mkCursor [7] false) /\
  leb (mkCursor [0xe5; 0x8e; 0x26] false) false = (624485, mkCursor [] false).
Proof.
  split.
  - apply (leb_decodes [7] false (-624485)). lia.
  - apply (leb_decodes [] false 624485). lia.
Defined.
