(* ===== verification/GuestLink.v ===== *)
(** * GuestLink: the libraries an application carries (runtime/GuestLink.c)

    Where install names point, which libraries are loaded, who answers a bind,
    and in which order the libraries are initialized. Paths and names are C
    strings without their terminator. The file system is a parameter. *)
From Stdlib Require Import Ascii String.
From S2P Require Import Prelude GuestMemory GuestImage ExportTrie.

Definition str (s : string) : list Z := (fun a => Z.of_nat (nat_of_ascii a)) <$> list_ascii_of_string s.
Definition slash : Z := 47.
Definition GL_MAX_LIBRARIES : nat := 64.
Definition PATH_MAX : Z := 1024.
Definition GL_EXECUTABLE : list Z := str "<executable>".

(** ** Data (GuestLink.h) *)

Record GuestLibrary := mkLibrary {
  lb_image : GuestImage;
  lb_path : list Z;
  lb_install_name : list Z;
  lb_loader : nat;
  lb_slide : Z
}.
Record GuestLinkSet := mkLinkSet {
  ls_libraries : list GuestLibrary;
  ls_refused : Z;
  ls_root : option (list Z);
  ls_executable : option (list Z);
  ls_executable_image : option GuestImage;
  ls_executable_slide : Z
}.
Definition ls_count (set : GuestLinkSet) : nat := length (ls_libraries set).
Definition ls_empty : GuestLinkSet := mkLinkSet [] 0 None None None 0.
Definition gl_destroy (set : GuestLinkSet) : GuestLinkSet := ls_empty.

(** A [const GuestImage *]: no image, the set's executable, a carried library's
    image by its index, or some other image. *)
Inductive Ref := NoImage | TheExecutable | Carried (i : nat) | Other (image : GuestImage).
Definition image_at (set : GuestLinkSet) (r : Ref) : option GuestImage :=
  match r with
  | NoImage => None
  | TheExecutable => ls_executable_image set
  | Carried i => lb_image <$> ls_libraries set !! i
  | Other image => Some image
  end.
Definition library_of (set : GuestLinkSet) (r : Ref) : option nat :=
  match r with
  | Carried i => if (i <? ls_count set)%nat then Some i else None
  | _ => None
  end.

(** ** Paths *)

Definition starts (prefix s : list Z) : bool := bool_decide (take (length prefix) s = prefix).
(** [strrchr(path, '/')] and the last match of [strstr], as indices. *)
Fixpoint last_match (test : list Z -> bool) (i : nat) (s : list Z) (last : option nat) : option nat :=
  let last := if test s then Some i else last in
  match s with
  | [] => last
  | _ :: s => last_match test (S i) s last
  end.
Definition last_slash (path : list Z) : option nat := last_match (starts [slash]) 0 path None.
(** A copy into a buffer of [size] bytes that is cut to fit. *)
Definition cut (size : Z) (s : list Z) : list Z := take (Z.to_nat (size - 1)) s.
Definition directory_of (path : list Z) (size : Z) : list Z :=
  match last_slash path with
  | None => cut size (str ".")
  | Some O => cut size (str "/")
  | Some i => cut size (take i path)
  end.
Definition own_folder (executable : list Z) (size : Z) : list Z :=
  match last_match (starts (str "/Contents/MacOS/")) 0 executable None with
  | None => directory_of executable size
  | Some i => cut size (take i executable)
  end.
Definition inside (root path : list Z) : bool :=
  starts root path && match drop (length root) path with [] => true | b :: _ => b =? slash end.
(** [snprintf] into a buffer of [size] bytes, refused when it does not fit. *)
Definition fits (size : Z) (s : list Z) : option (list Z) :=
  if Z.of_nat (length s) <? size then Some s else None.
Definition prefix_name (prefix name : list Z) : bool :=
  starts prefix name && match drop (length prefix) name with [] => true | b :: _ => b =? slash end.
Definition expand (set : GuestLinkSet) (from_path : option (list Z)) (name : list Z) (size : Z) : option (list Z) :=
  let executable := default [] (ls_executable set) in
  if prefix_name (str "@executable_path") name
  then fits size (directory_of executable PATH_MAX ++ drop 16 name) else
  if prefix_name (str "@loader_path") name
  then fits size (directory_of (default executable from_path) PATH_MAX ++ drop 12 name) else
  if starts (str "@") name then None else fits size name.

Section link.
(** The file system: [realpath], whether [stat] finds a regular file, and the
    bytes of the file that [fopen] opens. *)
Context (realpath : list Z -> option (list Z)) (regular : list Z -> bool) (file : list Z -> option (list Z)).
(** Whether the loader's allocations and [strdup] succeed. *)
Context (load_ok : Site -> bool) (strdup_ok : list Z -> bool).

Definition accept (set : GuestLinkSet) (candidate : list Z) (size : Z) : option (list Z) :=
  resolved ← realpath candidate;
  bad negb (regular resolved);
  bad negb (inside (default [] (ls_root set)) resolved);
  fits size resolved.
(** The first rpath of an image that leads to an accepted file. *)
Fixpoint try_rpaths (set : GuestLinkSet) (rpaths : list (list Z)) (path : option (list Z)) (rest : list Z) (size : Z)
    : option (list Z) :=
  match rpaths with
  | [] => None
  | rpath :: rpaths =>
    let found :=
      expanded ← expand set path rpath PATH_MAX;
      candidate ← fits PATH_MAX (expanded ++ [slash] ++ rest);
      accept set candidate size in
    match found with Some out => Some out | None => try_rpaths set rpaths path rest size end
  end.
(** The naming image's rpaths, then those of the images that loaded it. *)
Fixpoint rpath_loop (steps : nat) (set : GuestLinkSet) (image : Ref) (path : option (list Z)) (rest : list Z) (size : Z)
    : option (list Z) :=
  match steps with
  | O => None
  | S steps =>
    match try_rpaths set (default [] (gi_rpaths <$> image_at set image)) path rest size with
    | Some out => Some out
    | None =>
      i ← library_of set image;
      library ← ls_libraries set !! i;
      match ls_libraries set !! lb_loader library with
      | Some loader => rpath_loop steps set (Carried (lb_loader library)) (Some (lb_path loader)) rest size
      | None => rpath_loop steps set TheExecutable (ls_executable set) rest size
      end
    end
  end.
Definition gl_resolve (set : GuestLinkSet) (from : Ref) (from_path : option (list Z)) (name : list Z) (size : Z)
    : option (list Z) :=
  bad bool_decide (ls_root set = None) || bool_decide (ls_executable set = None) || (size =? 0);
  if starts (str "@rpath/") name
  then rpath_loop (S (ls_count set)) set from from_path (drop 7 name) size
  else
    candidate ← expand set from_path name PATH_MAX;
    accept set candidate size.

(** ** Loading *)

Definition known_path (set : GuestLinkSet) (path : list Z) : bool :=
  existsb (fun library => bool_decide (lb_path library = path)) (ls_libraries set).
Definition refuse (set : GuestLinkSet) : GuestLinkSet :=
  mkLinkSet (ls_libraries set) (ls_refused set + 1) (ls_root set) (ls_executable set)
    (ls_executable_image set) (ls_executable_slide set).
Definition add_library (set : GuestLinkSet) (library : GuestLibrary) : GuestLinkSet :=
  mkLinkSet (ls_libraries set ++ [library]) (ls_refused set) (ls_root set) (ls_executable set)
    (ls_executable_image set) (ls_executable_slide set).
Definition carry (set : GuestLinkSet) (path install_name : list Z) (loader_index : nat) : bool * GuestLinkSet :=
  if (ls_count set =? GL_MAX_LIBRARIES)%nat then (false, set) else
  let '(loaded, image) := gi_load_library load_ok (file path) gi_empty in
  if negb loaded then (true, refuse set) else
  if negb (tls_initializer_count (gi_tls image) =? 0) then (true, refuse set) else
  if negb (strdup_ok path) || negb (strdup_ok install_name) then (false, set)
  else (true, add_library set (mkLibrary image path install_name loader_index 0)).
Fixpoint carried_by_loop (names : list (list Z)) (set : GuestLinkSet) (from : Ref) (from_path : option (list Z))
    (loader_index : nat) : bool * GuestLinkSet :=
  match names with
  | [] => (true, set)
  | name :: names =>
    match gl_resolve set from from_path name PATH_MAX with
    | None => carried_by_loop names set from from_path loader_index
    | Some path =>
      if known_path set path then carried_by_loop names set from from_path loader_index else
      let '(ok, set) := carry set path name loader_index in
      if ok then carried_by_loop names set from from_path loader_index else (false, set)
    end
  end.
Definition carried_by (set : GuestLinkSet) (from : Ref) (from_path : option (list Z)) : bool * GuestLinkSet :=
  carried_by_loop (default [] ((fun image => fst <$> gi_dylibs image) <$> image_at set from)) set from from_path
    (default GL_MAX_LIBRARIES (library_of set from)).
(** The libraries from index [i] on, each with what it links; more than
    [GL_MAX_LIBRARIES] never come. *)
Fixpoint libraries_loop (fuel i : nat) (set : GuestLinkSet) : bool * GuestLinkSet :=
  match fuel with
  | O => (true, set)
  | S fuel =>
    match ls_libraries set !! i with
    | None => (true, set)
    | Some library =>
      let '(ok, set) := carried_by set (Carried i) (Some (lb_path library)) in
      if ok then libraries_loop fuel (S i) set else (false, set)
    end
  end.
Definition gl_load (set : option GuestLinkSet) (executable : option GuestImage) (executable_path : option (list Z))
    : bool * option GuestLinkSet :=
  match set, executable, executable_path with
  | Some _, Some image, Some executable_path =>
    match realpath executable_path with
    | None => (false, Some ls_empty)
    | Some resolved =>
      match realpath (own_folder resolved PATH_MAX) with
      | None => (false, Some ls_empty)
      | Some root =>
        if negb (strdup_ok resolved) || negb (strdup_ok root) then (false, Some ls_empty) else
        let set := mkLinkSet [] 0 (Some root) (Some resolved) (Some image) 0 in
        let '(ok, set) := carried_by set TheExecutable (Some resolved) in
        if negb ok then (false, Some ls_empty) else
        let '(ok, set) := libraries_loop (S GL_MAX_LIBRARIES) 0 set in
        if ok then (true, Some set) else (false, Some ls_empty)
      end
    end
  | _, _, _ => (false, set)
  end.
Definition with_root (set : GuestLinkSet) (root : list Z) : GuestLinkSet :=
  mkLinkSet (ls_libraries set) (ls_refused set) (Some root) (ls_executable set)
    (ls_executable_image set) (ls_executable_slide set).
Fixpoint carry_paths (paths : list (option (list Z))) (set : GuestLinkSet) : bool * GuestLinkSet :=
  match paths with
  | [] => (true, set)
  | p :: paths =>
    match (name ← p; bad negb (starts [slash] name); accept set name PATH_MAX) with
    | None => (false, set)
    | Some path =>
      if known_path set path then carry_paths paths set else
      let '(ok, set) := carry set path path GL_MAX_LIBRARIES in
      if ok then carry_paths paths set else (false, set)
    end
  end.
(** The folder to work in, when one is asked for: [None] is a refusal. *)
Definition widen (set : GuestLinkSet) (root : option (list Z)) : option GuestLinkSet :=
  match root with
  | None => Some set
  | Some root =>
    resolved ← realpath root;
    bad negb (inside resolved (default [] (ls_root set)));
    bad negb (strdup_ok resolved);
    Some (with_root set resolved)
  end.
Definition gl_carry (set : option GuestLinkSet) (root : option (list Z)) (paths : list (option (list Z)))
    : bool * option GuestLinkSet :=
  match set with
  | None => (false, None)
  | Some s =>
    if bool_decide (ls_executable s = None) || bool_decide (ls_root s = None) then (false, set) else
    match widen s root with
    | None => (false, set)
    | Some s' =>
      let first := ls_count s' in
      let '(ok, s') := carry_paths paths s' in
      if negb ok then (false, Some s') else
      let '(ok, s') := libraries_loop (S GL_MAX_LIBRARIES) first s' in (ok, Some s')
    end
  end.

(** ** Lookups *)

Fixpoint index_of {A} (test : A -> bool) (l : list A) : option nat :=
  match l with
  | [] => None
  | x :: l => if test x then Some O else S <$> index_of test l
  end.
Definition carried_as (set : GuestLinkSet) (from : Ref) (from_path install_name : option (list Z)) : option nat :=
  install_name ← install_name;
  path ← gl_resolve set from from_path install_name PATH_MAX;
  index_of (fun library => bool_decide (lb_path library = path)) (ls_libraries set).
Record Answer := mkAnswer { an_value : Z; an_weak : bool; an_name : list Z }.
(** The answer, if there is one, with the visited set; [None] for a search that
    ran out of turns. *)
Definition Search : Type := option (option Answer * Z).
Section search.
Context (library_export : Z -> nat -> list Z -> bool -> Search).
(** The libraries an image re-exports whole, from its list [dylibs]. *)
Fixpoint reexports_loop (set : GuestLinkSet) (image : Ref) (path : option (list Z)) (dylibs : list (list Z * bool))
    (symbol : list Z) (visited : Z) : Search :=
  match dylibs with
  | [] => Some (None, visited)
  | (name, reexport) :: dylibs =>
    if negb reexport then reexports_loop set image path dylibs symbol visited else
    match carried_as set image path (Some name) with
    | None => reexports_loop set image path dylibs symbol visited
    | Some through =>
      '(answer, visited) ← library_export visited through symbol false;
      match answer with
      | Some _ => Some (answer, visited)
      | None => reexports_loop set image path dylibs symbol visited
      end
    end
  end.
Definition image_export (set : GuestLinkSet) (image : Ref) (path : option (list Z)) (slide : Z) (name symbol : list Z)
    (shallow : bool) (visited : Z) : Search :=
  match image_at set image with
  | None => Some (None, visited)
  | Some im =>
    match gi_export im (Some symbol) true with
    | (GI_EXPORT_FOUND, found) =>
      Some (Some (mkAnswer (if ex_absolute found then ex_address found else w64 (ex_address found + slide))
                    (ex_weak found) name), visited)
    | (GI_EXPORT_REEXPORT, found) =>
      match carried_as set image path (fst <$> gi_dylibs im !! Z.to_nat (ex_ordinal found - 1)) with
      | None => Some (None, visited)
      | Some defines => library_export visited defines (default symbol (ex_name found)) false
      end
    | _ => if shallow then Some (None, visited) else reexports_loop set image path (gi_dylibs im) symbol visited
    end
  end.
End search.
Fixpoint library_export (fuel : nat) (set : GuestLinkSet) (visited : Z) (i : nat) (symbol : list Z) (shallow : bool) : Search :=
  match fuel with
  | O => None
  | S fuel =>
    if Z.testbit visited (Z.of_nat i) then Some (None, visited) else
    let visited := Z.lor visited (Z.shiftl 1 (Z.of_nat i)) in
    match ls_libraries set !! i with
    | None => Some (None, visited)
    | Some library =>
      image_export (library_export fuel set) set (Carried i) (Some (lb_path library)) (lb_slide library)
        (lb_install_name library) symbol shallow visited
    end
  end.
(** Each library is visited once. *)
Definition search_fuel (set : GuestLinkSet) : nat := S (ls_count set).
Definition library_search (set : GuestLinkSet) (visited : Z) (i : nat) (symbol : list Z) (shallow : bool) : Search :=
  library_export (search_fuel set) set visited i symbol shallow.
Definition executable_export (set : GuestLinkSet) (symbol : list Z) (shallow : bool) (visited : Z) : Search :=
  image_export (library_search set) set TheExecutable (ls_executable set) (ls_executable_slide set) GL_EXECUTABLE
    symbol shallow visited.
(** The weak definitions, in load order: index 0 is the executable, [n] the
    carried library [n - 1]. *)
Definition placed_image (set : GuestLinkSet) (i : nat) : option GuestImage :=
  match i with
  | O => ls_executable_image set
  | S i => lb_image <$> ls_libraries set !! i
  end.
Fixpoint coalesce_loop (set : GuestLinkSet) (images : list nat) (symbol : list Z) (best : option Answer)
    : option (option Answer) :=
  match images with
  | [] => Some best
  | i :: images =>
    if negb (default false (gi_weak_defines <$> placed_image set i)) then coalesce_loop set images symbol best else
    '(candidate, _) ← match i with
                      | O => executable_export set symbol true 0
                      | S i => library_search set 0 i symbol true
                      end;
    match candidate with
    | None => coalesce_loop set images symbol best
    | Some candidate =>
      if negb (an_weak candidate) then Some (Some candidate)
      else coalesce_loop set images symbol (Some (default candidate best))
    end
  end.
Definition coalesce (set : GuestLinkSet) (from : Ref) (symbol : list Z) : option (option Answer) :=
  found ← coalesce_loop set (seq 0 (S (ls_count set))) symbol None;
  match found, from with
  | Some answer, _ => Some (Some answer)
  | None, TheExecutable => fst <$> executable_export set symbol false 0
  | None, _ =>
    match library_of set from with
    | Some self => fst <$> library_search set 0 self symbol false
    | None => Some None
    end
  end.
Definition gl_carried (set : GuestLinkSet) (from : Ref) (from_path install_name : option (list Z)) : option nat :=
  if bool_decide (image_at set from = None) then None else carried_as set from from_path install_name.
(** The executable first, then its libraries as loaded, with one visited set. *)
Fixpoint flat_loop (set : GuestLinkSet) (libraries : list nat) (symbol : list Z) (visited : Z) : option (option Answer) :=
  match libraries with
  | [] => Some None
  | i :: libraries =>
    '(answer, visited) ← library_search set visited i symbol false;
    match answer with
    | Some _ => Some answer
    | None => flat_loop set libraries symbol visited
    end
  end.
Definition flat_lookup (set : GuestLinkSet) (symbol : list Z) : option (option Answer) :=
  '(answer, visited) ← executable_export set symbol false 0;
  match answer with
  | Some _ => Some answer
  | None => flat_loop set (seq 0 (ls_count set)) symbol visited
  end.
Definition BIND_SPECIAL_DYLIB_SELF : Z := 0.
Definition BIND_SPECIAL_DYLIB_MAIN_EXECUTABLE : Z := -1.
Definition BIND_SPECIAL_DYLIB_FLAT_LOOKUP : Z := -2.
Definition BIND_SPECIAL_DYLIB_WEAK_LOOKUP : Z := -3.
Definition is_executable (from : Ref) : bool := match from with TheExecutable => true | _ => false end.
(** Who answers, or [Some None] for nobody; [None] is a search out of turns. *)
Definition gl_search (set : GuestLinkSet) (from : Ref) (image : GuestImage) (from_path : option (list Z))
    (ordinal : Z) (symbol : list Z) : option (option Answer) :=
  if 0 <? ordinal then
    match gi_dylibs image !! Z.to_nat (ordinal - 1) with
    | None => Some None
    | Some dylib =>
      match carried_as set from from_path (Some (fst dylib)) with
      | None => Some None
      | Some named => fst <$> library_search set 0 named symbol false
      end
    end else
  if (ordinal =? BIND_SPECIAL_DYLIB_MAIN_EXECUTABLE) || ((ordinal =? BIND_SPECIAL_DYLIB_SELF) && is_executable from)
  then fst <$> executable_export set symbol false 0 else
  if ordinal =? BIND_SPECIAL_DYLIB_SELF then
    match library_of set from with
    | None => Some None
    | Some self => fst <$> library_search set 0 self symbol false
    end else
  if ordinal =? BIND_SPECIAL_DYLIB_FLAT_LOOKUP then flat_lookup set symbol else
  if ordinal =? BIND_SPECIAL_DYLIB_WEAK_LOOKUP then coalesce set from symbol else Some None.
Definition gl_lookup (set : GuestLinkSet) (from : Ref) (from_path : option (list Z)) (ordinal : Z) (symbol : list Z)
    : option (option (Z * list Z)) :=
  match image_at set from with
  | None => Some None
  | Some image =>
    fmap (M := option) (fun answer => (an_value answer, an_name answer)) <$>
      gl_search set from image from_path ordinal symbol
  end.

(** ** The order of initialization *)

(** The seen mask and the order so far. *)
Definition Order : Type := Z * list nat.
Fixpoint dependencies_loop (visit : nat -> Order -> option Order) (set : GuestLinkSet) (from : Ref) (path : option (list Z))
    (names : list (list Z)) (state : Order) : option Order :=
  match names with
  | [] => Some state
  | name :: names =>
    match carried_as set from path (Some name) with
    | None => dependencies_loop visit set from path names state
    | Some needed => state ← visit needed state; dependencies_loop visit set from path names state
    end
  end.
Definition dylib_names (image : option GuestImage) : list (list Z) :=
  default [] ((fun image => fst <$> gi_dylibs image) <$> image).
Fixpoint initialize_after (fuel : nat) (set : GuestLinkSet) (index : nat) (state : Order) : option Order :=
  match fuel with
  | O => None
  | S fuel =>
    let '(seen, order) := state in
    if Z.testbit seen (Z.of_nat index) then Some state else
    '(seen, order) ← dependencies_loop (initialize_after fuel set) set (Carried index) (lb_path <$> ls_libraries set !! index)
                       (dylib_names (image_at set (Carried index)))
                       (Z.lor seen (Z.shiftl 1 (Z.of_nat index)), order);
    Some (seen, order ++ [index])
  end.
Fixpoint initialize_all (visit : nat -> Order -> option Order) (libraries : list nat) (state : Order) : option Order :=
  match libraries with
  | [] => Some state
  | i :: libraries => state ← visit i state; initialize_all visit libraries state
  end.
Definition gl_initialization_order (set : GuestLinkSet) : option (list nat) :=
  let visit := initialize_after (search_fuel set) set in
  state ← dependencies_loop visit set TheExecutable (ls_executable set) (dylib_names (ls_executable_image set)) (0, []);
  snd <$> initialize_all visit (seq 0 (ls_count set)) state.

(** ** Placing *)

Definition same_leaf (path : option (list Z)) (leaf : list Z) : bool :=
  match path with
  | None => false
  | Some path => bool_decide (match last_slash path with Some i => drop (S i) path | None => path end = leaf)
  end.
Definition placed_path (set : GuestLinkSet) (i : nat) : option (list Z) :=
  match i with
  | O => ls_executable set
  | S i => lb_path <$> ls_libraries set !! i
  end.
Definition gl_placed (set : GuestLinkSet) (from : Ref) (from_path : option (list Z)) (name : list Z) : option nat :=
  bad bool_decide (ls_executable set = None) || bool_decide (name = []);
  if negb (existsb (fun b => b =? slash) name)
  then
    index_of (fun i =>
      same_leaf (placed_path set i) name ||
      match i with
      | O => false
      | S i => same_leaf (lb_install_name <$> ls_libraries set !! i) name
      end) (seq 0 (S (ls_count set)))
  else
    resolved ← gl_resolve set from from_path name PATH_MAX;
    index_of (fun i => bool_decide (placed_path set i = Some resolved)) (seq 0 (S (ls_count set))).
Definition gl_inside (set : GuestLinkSet) (path : list Z) : bool :=
  match ls_root set with
  | None => false
  | Some root =>
    if starts (str "@") path then true else
    match realpath path with
    | None => false
    | Some real => inside root real
    end
  end.
Definition gl_library_at (set : GuestLinkSet) (address : Z) : option nat :=
  index_of (fun library =>
    let '(reach, low) := gi_extent (lb_image library) in
    let base := w64 (low + lb_slide library) in
    negb (lb_slide library =? 0) && (base <=? address) && (address - base <? reach)) (ls_libraries set).
(** The first match of [strstr] and [strchr]. *)
Fixpoint first_match (test : list Z -> bool) (s : list Z) : option nat :=
  if test s then Some O else
  match s with
  | [] => None
  | _ :: s => S <$> first_match test s
  end.
Definition marker : list Z := str ".framework/Versions/".
Fixpoint unversioned_loop (fuel : nat) (name out : list Z) (size : Z) : option (list Z) :=
  match fuel with
  | O => None
  | S fuel =>
    let copy := if Z.of_nat (length name) <? size - Z.of_nat (length out) then Some (out ++ name) else None in
    match first_match (starts marker) name with
    | None => copy
    | Some at_ =>
      let version := drop (at_ + length marker) name in
      match first_match (starts [slash]) version with
      | None | Some O => copy
      | Some n =>
        let keep := (at_ + length (str ".framework"))%nat in
        bad size <=? Z.of_nat (length out) + Z.of_nat keep;
        unversioned_loop fuel (drop n version) (out ++ take keep name) size
      end
    end
  end.
Definition unversioned (name : list Z) (size : Z) : option (list Z) :=
  unversioned_loop (S (length name)) name [] size.
Definition gl_same_install_name (a b : option (list Z)) : bool :=
  match a, b with
  | Some a, Some b =>
    bool_decide (a = b) ||
    match unversioned a PATH_MAX, unversioned b PATH_MAX with
    | Some plain_a, Some plain_b => bool_decide (plain_a = plain_b)
    | _, _ => false
    end
  | _, _ => false
  end.
Definition gl_span (set : GuestLinkSet) : Z :=
  fold_left (fun total library => w64 (total + fst (gi_extent (lb_image library)))) (ls_libraries set) 0.
End link.

Example same_install_name_framework :
  gl_same_install_name (Some (str "/A/Foo.framework/Versions/A/Foo")) (Some (str "/A/Foo.framework/Foo")) = true.
Proof. vm_compute. reflexivity. Qed.

(** ** The order of initialization *)

Lemma index_of_Some {A} (test : A -> bool) l i :
  index_of test l = Some i ->
  exists x, l !! i = Some x /\ test x = true /\ (forall j y, (j < i)%nat -> l !! j = Some y -> test y = false).
Proof.
  revert i. induction l as [|x l IH]; intros i; cbn; [done|]. destruct (test x) eqn:Ht.
  { intros [= <-]. exists x. repeat split; [done|]. lia. }
  destruct (index_of test l) as [i'|]; cbn; intros [= <-]. destruct (IH i' eq_refl) as (y & Hy & Hty & Hbefore).
  exists y. repeat split; try done. intros [|j] z Hj Hz; cbn in Hz; [congruence|]. apply (Hbefore j); [lia|done].
Qed.
Lemma index_of_None {A} (test : A -> bool) l :
  index_of test l = None -> Forall (fun x => test x = false) l.
Proof.
  induction l as [|x l IH]; cbn; [constructor|]. destruct (test x) eqn:Ht; [done|].
  destruct (index_of test l); [done|]. constructor; [done|]. by apply IH.
Qed.
Lemma mark_testbit seen i j :
  Z.testbit (Z.lor seen (Z.shiftl 1 (Z.of_nat i))) (Z.of_nat j) = Z.testbit seen (Z.of_nat j) || (i =? j)%nat.
Proof.
  rewrite Z.lor_spec, Z.shiftl_1_l, Z.pow2_bits_eqb by lia. f_equal.
  destruct (i =? j)%nat eqn:E; [apply Nat.eqb_eq in E; subst; apply Z.eqb_refl|].
  apply Nat.eqb_neq in E. apply Z.eqb_neq. lia.
Qed.

#[local] Arguments carried_as : simpl never.
Section order.
Context (realpath : list Z -> option (list Z)) (regular : list Z -> bool).
Context (set : GuestLinkSet).
#[local] Abbreviation carried_as := (carried_as realpath regular set).

Lemma carried_as_lt from path name j : carried_as from path name = Some j -> (j < ls_count set)%nat.
Proof.
  unfold GuestLink.carried_as. intros H. apply bind_Some in H as (n & _ & H). apply bind_Some in H as (p & _ & H).
  destruct (index_of_Some _ _ _ H) as (x & Hx & _). by eapply lookup_lt_Some.
Qed.
(** Library [i] links the carried library [j]. *)
Definition needs (i j : nat) : Prop :=
  exists name, name ∈ dylib_names (image_at set (Carried i)) /\
    carried_as (Carried i) (lb_path <$> ls_libraries set !! i) (Some name) = Some j.
Definition before (order : list nat) (j i : nat) : Prop :=
  exists k k', (k < k')%nat /\ order !! k = Some j /\ order !! k' = Some i.
Definition seen_in (state : Order) (i : nat) : Prop := Z.testbit state.1 (Z.of_nat i) = true.

(** While the libraries of [gray] are being visited: what is seen is in the
    order or in [gray], and each library of the order follows what it needs
    unless that needs it back. *)
Record search_inv (gray : list nat) (state : Order) : Prop := {
  si_nodup : NoDup (state.2 ++ gray);
  si_bound : Forall (fun i => (i < ls_count set)%nat) (state.2 ++ gray);
  si_seen : forall i, seen_in state i <-> i ∈ state.2 ++ gray;
  si_order : forall k i j, state.2 !! k = Some i -> needs i j ->
    (exists k', (k' < k)%nat /\ state.2 !! k' = Some j) \/ rtc needs j i
}.
Definition extends (state state' : Order) : Prop := forall i, seen_in state i -> seen_in state' i.
(** What a visit of a library that [P] allows does. *)
Definition visits (gray : list nat) (P : nat -> Prop) (visit : nat -> Order -> option Order) : Prop :=
  forall i state, P i -> search_inv gray state ->
    exists state', visit i state = Some state' /\ search_inv gray state' /\ extends state state' /\ seen_in state' i.

Lemma dependencies_loop_visits gray P visit from path names state :
  visits gray P visit ->
  (forall name j, name ∈ names -> carried_as from path (Some name) = Some j -> P j) ->
  search_inv gray state ->
  exists state', dependencies_loop realpath regular visit set from path names state = Some state' /\
    search_inv gray state' /\ extends state state' /\
    (forall name j, name ∈ names -> carried_as from path (Some name) = Some j -> seen_in state' j).
Proof.
  intros Hvisit. revert state. induction names as [|name names IH]; intros state HP Hinv; cbn [dependencies_loop].
  { exists state. split_and!; [done|done|by intros ?|by intros ? ? []%elem_of_nil]. }
  assert (HP' : forall name' j, name' ∈ names -> carried_as from path (Some name') = Some j -> P j).
  { intros name' j Hin. apply HP. by right. }
  destruct (carried_as from path (Some name)) as [j|] eqn:Hj.
  - destruct (Hvisit j state) as (state1 & -> & Hinv1 & Hext1 & Hseen); [eapply HP; [by left|done]|done|]. cbn.
    destruct (IH state1 HP' Hinv1) as (state2 & -> & Hinv2 & Hext2 & Hall). exists state2. split_and!; try done.
    + intros i Hi. by apply Hext2, Hext1.
    + intros name' j' [->|Hin]%elem_of_cons Hj'; [|by eapply Hall]. rewrite Hj in Hj'. injection Hj' as <-. by apply Hext2.
  - destruct (IH state HP' Hinv) as (state2 & -> & Hinv2 & Hext2 & Hall). exists state2. split_and!; try done.
    intros name' j' [->|Hin]%elem_of_cons Hj'; [congruence|by eapply Hall].
Qed.
(** Entering and leaving a library. *)
Lemma search_inv_enter gray seen order i :
  (i < ls_count set)%nat -> Z.testbit seen (Z.of_nat i) = false -> search_inv gray (seen, order) ->
  search_inv (i :: gray) (Z.lor seen (Z.shiftl 1 (Z.of_nat i)), order).
Proof.
  intros Hi Hnew [Hnodup Hbound Hseen Horder]. cbn in *.
  assert (Hperm : order ++ i :: gray ≡ₚ i :: order ++ gray) by (by rewrite Permutation_middle).
  assert (i ∉ order ++ gray). { rewrite <- Hseen. unfold seen_in. cbn. congruence. }
  constructor; cbn; [| | |done].
  - rewrite Hperm. by constructor.
  - rewrite Hperm. by constructor.
  - intros j. rewrite Hperm, elem_of_cons, <- Hseen. unfold seen_in. cbn. rewrite mark_testbit, orb_true_iff, Nat.eqb_eq.
    split; intros [?|?]; auto.
Qed.
Lemma search_inv_leave gray seen order i :
  (forall g, g ∈ gray -> rtc needs g i) -> (forall j, needs i j -> seen_in (seen, order) j) ->
  search_inv (i :: gray) (seen, order) -> search_inv gray (seen, order ++ [i]).
Proof.
  intros Hgray Hneeds [Hnodup Hbound Hseen Horder]. cbn in *.
  assert (Hperm : (order ++ [i]) ++ gray = order ++ i :: gray) by (by rewrite <- app_assoc).
  constructor; cbn; rewrite ?Hperm; try done.
  intros k x j Hk Hneed. apply lookup_app_Some in Hk as [Hk|[Hk Hx]].
  - destruct (Horder k x j Hk Hneed) as [(k' & Hlt & Hk')|]; [|by right]. left. exists k'. split; [done|].
    by apply lookup_app_l_Some.
  - apply list_lookup_singleton_Some in Hx as [? <-].
    specialize (Hneeds j Hneed). apply Hseen, elem_of_app in Hneeds as [Hin|[->|Hin]%elem_of_cons].
    + left. apply list_elem_of_lookup in Hin as [k' Hk']. exists k'. pose proof (lookup_lt_Some _ _ _ Hk').
      split; [lia|]. by apply lookup_app_l_Some.
    + right. constructor.
    + right. by apply Hgray.
Qed.
Lemma gray_length gray state : search_inv gray state -> (length gray <= ls_count set)%nat.
Proof.
  intros [Hnodup Hbound _ _]. apply NoDup_app in Hnodup as (_ & _ & Hnodup). apply Forall_app in Hbound as [_ Hbound].
  rewrite <- (length_seq (ls_count set) 0). apply submseteq_length, NoDup_submseteq; [done|].
  intros i Hi. apply elem_of_seq. rewrite Forall_forall in Hbound. specialize (Hbound i Hi). lia.
Qed.
Lemma initialize_after_visits fuel gray :
  (ls_count set < fuel + length gray)%nat ->
  visits gray (fun i => (i < ls_count set)%nat /\ forall g, g ∈ gray -> rtc needs g i)
    (initialize_after realpath regular fuel set).
Proof.
  revert gray. induction fuel as [|fuel IH]; intros gray Hfuel i [seen order] [Hi Hgray] Hinv.
  { apply gray_length in Hinv. lia. }
  cbn [initialize_after]. destruct (Z.testbit seen (Z.of_nat i)) eqn:Hnew.
  { exists (seen, order). split_and!; [done|done|by intros ?|done]. }
  destruct (dependencies_loop_visits (i :: gray) (fun j => (j < ls_count set)%nat /\ forall g, g ∈ i :: gray -> rtc needs g j)
              (initialize_after realpath regular fuel set) (Carried i) (lb_path <$> ls_libraries set !! i)
              (dylib_names (image_at set (Carried i))) (Z.lor seen (Z.shiftl 1 (Z.of_nat i)), order))
    as ([seen' order'] & -> & Hinv' & Hext & Hall).
  - apply IH. cbn. lia.
  - intros name j Hin Hj. split; [by eapply carried_as_lt|]. intros g Hg.
    assert (needs i j) by (by exists name). apply elem_of_cons in Hg as [->|Hg]; [by apply rtc_once|].
    eapply rtc_r; [by apply Hgray|done].
  - by apply search_inv_enter.
  - cbn. exists (seen', order' ++ [i]). split_and!; [done| | |].
    + apply search_inv_leave; [done| |done]. intros j (name & Hin & Hj). by eapply Hall.
    + intros x Hx. apply Hext. unfold seen_in in *. cbn in *. by rewrite mark_testbit, Hx.
    + apply Hext. unfold seen_in. cbn. by rewrite mark_testbit, Nat.eqb_refl, orb_true_r.
Qed.
Lemma initialize_all_visits gray P visit libraries state :
  visits gray P visit -> Forall P libraries -> search_inv gray state ->
  exists state', initialize_all visit libraries state = Some state' /\ search_inv gray state' /\
    extends state state' /\ Forall (seen_in state') libraries.
Proof.
  intros Hvisit. revert state. induction libraries as [|i libraries IH]; intros state HP Hinv; cbn.
  { exists state. split_and!; [done|done|by intros ?|constructor]. }
  apply Forall_cons in HP as [Hi HP].
  destruct (Hvisit i state Hi Hinv) as (state1 & -> & Hinv1 & Hext1 & Hseen). cbn.
  destruct (IH state1 HP Hinv1) as (state2 & -> & Hinv2 & Hext2 & Hall). exists state2. split_and!; try done.
  - intros x Hx. by apply Hext2, Hext1.
  - constructor; [by apply Hext2|done].
Qed.

(** C12: The order of initialization is found whatever the links are, names every
    library exactly once, and puts each library after every library it links,
    except where that one, directly or through others, links it back. *)
Theorem gl_initialization_order_spec :
  exists order, gl_initialization_order realpath regular set = Some order /\
    order ≡ₚ seq 0 (ls_count set) /\
    (forall i j, (i < ls_count set)%nat -> needs i j -> before order j i \/ rtc needs j i).
Proof.
  unfold gl_initialization_order, search_fuel.
  set (P := fun i => (i < ls_count set)%nat /\ forall g, g ∈ @nil nat -> rtc needs g i).
  assert (HP : forall i, (i < ls_count set)%nat -> P i) by (intros i Hi; split; [done|by intros ? []%elem_of_nil]).
  assert (Hvisit : visits [] P (initialize_after realpath regular (S (ls_count set)) set)).
  { apply initialize_after_visits. cbn. lia. }
  destruct (dependencies_loop_visits [] P _ TheExecutable (ls_executable set) (dylib_names (ls_executable_image set)) (0, []) Hvisit)
    as (state1 & Hrun1 & Hinv1 & Hext1 & _).
  { intros name j _ Hj. by eapply HP, carried_as_lt. }
  { constructor; cbn; [constructor|constructor| |done]. intros i. unfold seen_in. cbn. rewrite Z.bits_0, elem_of_nil. done. }
  destruct (initialize_all_visits [] P _ (seq 0 (ls_count set)) state1 Hvisit) as (state2 & Hrun2 & Hinv2 & _ & Hall).
  { apply Forall_forall. intros i Hi%elem_of_seq. apply HP. lia. }
  { done. }
  exists state2.2. rewrite Hrun1. cbn [mbind option_bind]. rewrite Hrun2. split; [done|]. destruct Hinv2 as [Hnodup Hbound Hseen Horder].
  rewrite app_nil_r in Hnodup, Hbound. rewrite Forall_forall in Hall, Hbound.
  assert (Hin : forall i, i ∈ state2.2 <-> i ∈ seq 0 (ls_count set)).
  { intros i. split; [intros Hi; apply elem_of_seq; specialize (Hbound i Hi); lia|].
    intros Hi. specialize (Hall i Hi). apply Hseen in Hall. by rewrite app_nil_r in Hall. }
  split; [by apply NoDup_Permutation; [|apply NoDup_seq|]|].
  intros i j Hi Hneed. assert (i ∈ state2.2) as [k Hk]%list_elem_of_lookup by (apply Hin, elem_of_seq; lia).
  destruct (Horder k i j Hk Hneed) as [(k' & Hlt & Hk')|]; [left; by exists k', k|by right].
Qed.
End order.

(** ** Paths inside the folder *)

Lemma inside_spec root path :
  inside root path = true <-> exists rest, path = root ++ rest /\ (rest = [] \/ exists rest', rest = slash :: rest').
Proof.
  unfold inside, starts. rewrite andb_true_iff, bool_decide_eq_true. split.
  - intros [Htake Hdrop]. exists (drop (length root) path). split; [by rewrite <- Htake at 1; rewrite take_drop|].
    destruct (drop (length root) path) as [|b rest]; [by left|]. right. apply Z.eqb_eq in Hdrop as ->. by exists rest.
  - intros (rest & -> & Hrest). rewrite take_app_length, drop_app_length. split; [done|].
    by destruct Hrest as [->|[rest' ->]].
Qed.
Lemma inside_trans a b c : inside a b = true -> inside b c = true -> inside a c = true.
Proof.
  rewrite !inside_spec. intros (r & -> & Hr) (r' & -> & Hr'). exists (r ++ r'). split; [by rewrite app_assoc|].
  destruct Hr as [->|[? ->]]; [done|]. right. by eexists.
Qed.

(** ** Loading *)

Section loading.
Context (realpath : list Z -> option (list Z)) (regular : list Z -> bool) (file : list Z -> option (list Z)).
Context (load_ok : Site -> bool) (strdup_ok : list Z -> bool).
#[local] Abbreviation resolve := (gl_resolve realpath regular).

(** What a carried library is: the image of a regular file inside the folder,
    found under its resolved path, without thread-local constructors. *)
Record carried_ok (root : list Z) (library : GuestLibrary) : Prop := {
  co_resolved : exists candidate, realpath candidate = Some (lb_path library);
  co_regular : regular (lb_path library) = true;
  co_inside : inside root (lb_path library) = true;
  co_image : gi_load_library load_ok (file (lb_path library)) gi_empty = (true, lb_image library);
  co_tls : tls_initializer_count (gi_tls (lb_image library)) = 0
}.
(** Why library [i] is in the set. It keeps the name it was linked as, and its
    loader is the image that links it: an earlier library, or the executable,
    whose link of that name leads to it. Or its path is one of those that were
    asked for. The folder may have been a narrower one when the link was followed. *)
Definition leads (set : GuestLinkSet) (from : Ref) (from_path : option (list Z)) (library : GuestLibrary) : Prop :=
  exists root, GuestLink.inside (default [] (ls_root set)) root = true /\
    resolve (with_root set root) from from_path (lb_install_name library) PATH_MAX = Some (lb_path library).
Inductive needed (asked : list (list Z)) (set : GuestLinkSet) (i : nat) (library : GuestLibrary) : Prop :=
| needed_by_library loader :
    (lb_loader library < i)%nat -> ls_libraries set !! lb_loader library = Some loader ->
    lb_install_name library ∈ fst <$> gi_dylibs (lb_image loader) ->
    leads set (Carried (lb_loader library)) (Some (lb_path loader)) library ->
    needed asked set i library
| needed_by_executable image :
    lb_loader library = GL_MAX_LIBRARIES -> ls_executable_image set = Some image ->
    lb_install_name library ∈ fst <$> gi_dylibs image ->
    leads set TheExecutable (ls_executable set) library ->
    needed asked set i library
| asked_for name :
    lb_loader library = GL_MAX_LIBRARIES -> name ∈ asked -> starts [slash] name = true ->
    realpath name = Some (lb_path library) -> lb_install_name library = lb_path library ->
    needed asked set i library.
(** The set's invariant: at most [GL_MAX_LIBRARIES], no file twice, each with a
    reason to be there. *)
Record linked (asked : list (list Z)) (set : GuestLinkSet) : Prop := {
  lk_root : is_Some (ls_root set);
  lk_executable : is_Some (ls_executable set);
  lk_count : (ls_count set <= GL_MAX_LIBRARIES)%nat;
  lk_paths : NoDup (lb_path <$> ls_libraries set);
  lk_carried : Forall (carried_ok (default [] (ls_root set))) (ls_libraries set);
  lk_needed : forall i library, ls_libraries set !! i = Some library -> needed asked set i library
}.
Record grows (set set' : GuestLinkSet) : Prop := {
  gw_root : ls_root set' = ls_root set;
  gw_executable : ls_executable set' = ls_executable set;
  gw_image : ls_executable_image set' = ls_executable_image set;
  gw_libraries : ls_libraries set `prefix_of` ls_libraries set'
}.
(** A file that cannot be loaded, or only with thread-local constructors. *)
Definition refused (path : list Z) : Prop :=
  let '(loaded, image) := gi_load_library load_ok (file path) gi_empty in
  loaded = false \/ tls_initializer_count (gi_tls image) <> 0.
Definition accepted (set : GuestLinkSet) (path : list Z) : Prop :=
  exists candidate size, accept realpath regular set candidate size = Some path.
Definition valid (set : GuestLinkSet) (from : Ref) (from_path : option (list Z)) : Prop :=
  match from with
  | TheExecutable => from_path = ls_executable set
  | Carried i => from_path = lb_path <$> ls_libraries set !! i /\ (i < ls_count set)%nat
  | _ => False
  end.

#[local] Instance grows_refl : Reflexive grows.
Proof. by constructor. Qed.
#[local] Instance grows_trans : Transitive grows.
Proof. intros a b c [? ? ? ?] [? ? ? ?]. constructor; try congruence. by etrans. Qed.
Lemma grows_lookup set set' i library :
  grows set set' -> ls_libraries set !! i = Some library -> ls_libraries set' !! i = Some library.
Proof. intros Hgrows Hi. eapply prefix_lookup_Some; [done|apply Hgrows]. Qed.
Lemma grows_count set set' : grows set set' -> (ls_count set <= ls_count set')%nat.
Proof. intros Hgrows. apply prefix_length, Hgrows. Qed.
Lemma grows_valid set set' from path : grows set set' -> valid set from path -> valid set' from path.
Proof.
  intros Hgrows. destruct from as [| |i|]; cbn; try done; [by rewrite (gw_executable _ _ Hgrows)|].
  intros [-> Hi]. destruct (lookup_lt_is_Some_2 (ls_libraries set) i Hi) as [library Hlibrary].
  rewrite Hlibrary, (grows_lookup _ _ _ _ Hgrows Hlibrary). split; [done|]. by eapply Nat.lt_le_trans, grows_count.
Qed.

Lemma accept_accepted set candidate size path :
  accept realpath regular set candidate size = Some path ->
  realpath candidate = Some path /\ regular path = true /\ inside (default [] (ls_root set)) path = true.
Proof.
  unfold accept. intros H. apply bind_Some in H as (resolved & Hreal & H). returned H. returned H. bool_hyps.
  unfold fits in H. destruct (_ <? _); [|done]. by injection H as <-.
Qed.
Lemma try_rpaths_accepted set rpaths path rest size out :
  try_rpaths realpath regular set rpaths path rest size = Some out -> accepted set out.
Proof.
  induction rpaths as [|rpath rpaths IH]; cbn [try_rpaths]; [done|].
  match goal with |- match ?e with _ => _ end = _ -> _ => destruct e as [found|] eqn:Hfound end; [|done]. intros [= <-].
  apply bind_Some in Hfound as (e & _ & Hfound). apply bind_Some in Hfound as (c & _ & Hfound). by eexists _, _.
Qed.
Lemma resolve_accepted set from path name size out :
  resolve set from path name size = Some out -> accepted set out.
Proof.
  unfold gl_resolve. intros H. returned H. destruct (starts (str "@rpath/") name).
  - revert from path H. generalize (S (ls_count set)). intros steps.
    induction steps as [|steps IH]; intros from path; cbn [rpath_loop]; [done|].
    destruct (try_rpaths _ _ _ _ _ _ _) as [found|] eqn:Hfound; [intros [= <-]; by eapply try_rpaths_accepted|].
    intros H. apply bind_Some in H as (i & _ & H). apply bind_Some in H as (library & _ & H).
    by case_match; apply IH in H.
  - apply bind_Some in H as (c & _ & H). by eexists _, _.
Qed.

(** *** Resolution does not change as the set grows *)

(** What the search for an [@rpath] name relies on. *)
Record shaped (set : GuestLinkSet) : Prop := {
  sh_count : (ls_count set <= GL_MAX_LIBRARIES)%nat;
  sh_loaders : forall i library, ls_libraries set !! i = Some library ->
    lb_loader library = GL_MAX_LIBRARIES \/ (lb_loader library < i)%nat
}.
Lemma linked_shaped asked set : linked asked set -> shaped set.
Proof. intros [_ _ Hcount _ _ Hneeded]. split; [done|]. intros i library Hi. destruct (Hneeded i library Hi); auto. Qed.
#[local] Hint Resolve linked_shaped : core.

Lemma try_rpaths_grows set set' rpaths path rest size :
  grows set set' -> try_rpaths realpath regular set' rpaths path rest size = try_rpaths realpath regular set rpaths path rest size.
Proof.
  intros [Hroot Hexec _ _]. induction rpaths as [|rpath rpaths IH]; cbn [try_rpaths]; [done|].
  rewrite IH. unfold expand, accept. by rewrite Hroot, Hexec.
Qed.
(** The turns the search for an [@rpath] name takes from an image. *)
Definition turns (from : Ref) : nat := match from with Carried i => S (S i) | _ => 1 end.
Lemma rpath_loop_grows set set' from path rest size steps steps' :
  grows set set' -> shaped set -> shaped set' -> valid set from path ->
  (turns from <= steps)%nat -> (turns from <= steps')%nat ->
  rpath_loop realpath regular steps' set' from path rest size = rpath_loop realpath regular steps set from path rest size.
Proof.
  intros Hgrows Hlinked Hlinked'. revert from path steps'.
  induction steps as [|steps IH]; intros from path steps' Hvalid Hsteps Hsteps'; [destruct from; cbn in *; lia|].
  destruct steps' as [|steps']; [destruct from; cbn in *; lia|]. cbn [rpath_loop].
  assert (Himage : image_at set' from = image_at set from).
  { destruct from as [| |i|]; cbn in *; [done|by rewrite (gw_image _ _ Hgrows)| |done].
    destruct Hvalid as [_ Hi]. destruct (lookup_lt_is_Some_2 (ls_libraries set) i Hi) as [library Hlibrary].
    by rewrite Hlibrary, (grows_lookup _ _ _ _ Hgrows Hlibrary). }
  rewrite Himage, (try_rpaths_grows set set'); [|done]. destruct (try_rpaths _ _ _ _ _ _ _); [done|].
  destruct from as [| |i|]; [done|done| |done]. destruct Hvalid as [-> Hi]. pose proof (grows_count _ _ Hgrows) as Hcount.
  cbn [library_of]. rewrite (proj2 (Nat.ltb_lt i (ls_count set'))) by lia. rewrite (proj2 (Nat.ltb_lt i (ls_count set)) Hi).
  cbn [mbind option_bind]. destruct (lookup_lt_is_Some_2 (ls_libraries set) i Hi) as [library Hlibrary].
  rewrite Hlibrary, (grows_lookup _ _ _ _ Hgrows Hlibrary). cbn [mbind option_bind]. cbn [turns] in Hsteps, Hsteps'.
  destruct (sh_loaders _ Hlinked i library Hlibrary) as [Hmax|Hlt].
  - rewrite Hmax, !lookup_ge_None_2 by (apply sh_count; done). rewrite (gw_executable _ _ Hgrows).
    apply IH; cbn; [done|lia|lia].
  - assert (Hj : (lb_loader library < ls_count set)%nat) by lia.
    destruct (lookup_lt_is_Some_2 (ls_libraries set) _ Hj) as [loader Hloader].
    rewrite Hloader, (grows_lookup _ _ _ _ Hgrows Hloader). apply IH; cbn; [by rewrite Hloader|lia|lia].
Qed.
Lemma resolve_grows set set' from path name size :
  grows set set' -> shaped set -> shaped set' -> valid set from path ->
  resolve set' from path name size = resolve set from path name size.
Proof.
  intros Hgrows Hlinked Hlinked' Hvalid. unfold gl_resolve.
  rewrite (gw_root _ _ Hgrows), (gw_executable _ _ Hgrows).
  match goal with |- (if ?b then _ else _) = _ => destruct b end; [done|]. destruct (starts _ name).
  - pose proof (grows_count _ _ Hgrows). apply rpath_loop_grows; try done; destruct from; cbn in *; try done; lia.
  - unfold expand, accept. by rewrite (gw_root _ _ Hgrows), (gw_executable _ _ Hgrows).
Qed.

(** *** One more library *)

Lemma known_path_spec set path : known_path set path = true <-> path ∈ lb_path <$> ls_libraries set.
Proof.
  unfold known_path. rewrite existsb_exists. setoid_rewrite bool_decide_eq_true. rewrite list_elem_of_fmap. split.
  - intros (library & Hin & <-). exists library. split; [done|]. by apply list_elem_of_In.
  - intros (library & -> & Hin). exists library. split; [|done]. by apply list_elem_of_In.
Qed.
Lemma known_path_grows set set' path : grows set set' -> known_path set path = true -> known_path set' path = true.
Proof.
  intros Hgrows. rewrite !known_path_spec. destruct (gw_libraries _ _ Hgrows) as [more ->].
  rewrite fmap_app, elem_of_app. by left.
Qed.
Lemma grows_refuse set : grows set (refuse set).
Proof. by constructor. Qed.
Lemma inside_refl root : GuestLink.inside root root = true.
Proof. apply inside_spec. exists []. rewrite app_nil_r. auto. Qed.
Lemma shaped_root set root : shaped set -> shaped (with_root set root).
Proof. by intros [? ?]. Qed.
Lemma grows_root set set' root : grows set set' -> grows (with_root set root) (with_root set' root).
Proof. by intros [? ? ? ?]. Qed.
Lemma leads_grows set set' from path library :
  grows set set' -> shaped set -> shaped set' -> valid set from path ->
  leads set from path library -> leads set' from path library.
Proof.
  intros Hgrows Hset Hset' Hvalid (root & Hin & Hleads). exists root. rewrite (gw_root _ _ Hgrows). split; [done|].
  rewrite <- Hleads. apply resolve_grows; [by apply grows_root|by apply shaped_root|by apply shaped_root|].
  by destruct from.
Qed.
Lemma needed_grows asked set set' i library :
  grows set set' -> shaped set -> shaped set' -> needed asked set i library -> needed asked set' i library.
Proof.
  intros Hgrows Hset Hset' [loader Hlt Hloader Hname Hleads|image Hmax Himage Hname Hleads|name Hmax Hin Hs Hreal Hname].
  - eapply needed_by_library; [done|by eapply grows_lookup|done|]. eapply leads_grows; [done..| |done].
    split; [by rewrite Hloader|by eapply lookup_lt_Some].
  - eapply needed_by_executable; [done|by rewrite (gw_image _ _ Hgrows)|done|]. rewrite (gw_executable _ _ Hgrows).
    by eapply leads_grows.
  - by eapply asked_for.
Qed.
(** What an image links, and the link leads to. *)
Lemma needed_link asked set from path name p image :
  linked asked set -> valid set from path -> name ∈ dylib_names (image_at set from) ->
  resolve set from path name PATH_MAX = Some p ->
  let library := mkLibrary image p name (default GL_MAX_LIBRARIES (library_of set from)) 0 in
  needed asked set (ls_count set) library.
Proof.
  intros Hlinked Hvalid Hin Hp library.
  assert (leads set from path library) as Hleads.
  { destruct (lk_root _ _ Hlinked) as [root Hroot]. exists root. rewrite Hroot. split; [apply inside_refl|].
    replace (with_root set root) with set; [exact Hp|]. destruct set. cbn in *. by rewrite Hroot. }
  destruct from as [| |i|]; [done| | |done].
  - cbn in Hvalid, Hin. subst path. destruct (ls_executable_image set) as [im|] eqn:Him; [|by apply elem_of_nil in Hin].
    by eapply needed_by_executable.
  - destruct Hvalid as [-> Hi]. cbn [image_at] in Hin.
    destruct (lookup_lt_is_Some_2 (ls_libraries set) i Hi) as [loader Hloader]. rewrite Hloader in Hin, Hleads.
    assert (lb_loader library = i) as Hindex by (unfold library; cbn [lb_loader library_of]; by rewrite (proj2 (Nat.ltb_lt _ _) Hi)).
    eapply needed_by_library; rewrite ?Hindex; done.
Qed.
Lemma linked_refuse asked set : linked asked set -> linked asked (refuse set).
Proof.
  intros Hlinked. pose proof (linked_shaped _ _ Hlinked) as Hshaped. destruct Hlinked as [? ? ? ? ? Hneeded].
  constructor; try done. intros i library Hi. eapply needed_grows; [apply grows_refuse|done| |by apply Hneeded].
  by destruct Hshaped.
Qed.
Lemma grows_add set library : grows set (add_library set library).
Proof. constructor; try done. by exists [library]. Qed.
Lemma needed_loader asked set i library :
  needed asked set i library -> lb_loader library = GL_MAX_LIBRARIES \/ (lb_loader library < i)%nat.
Proof. destruct 1; auto. Qed.
Lemma shaped_add set library :
  shaped set -> (ls_count set < GL_MAX_LIBRARIES)%nat ->
  lb_loader library = GL_MAX_LIBRARIES \/ (lb_loader library < ls_count set)%nat -> shaped (add_library set library).
Proof.
  intros [Hcount Hloaders] Hless Hloader. split; unfold ls_count in *; cbn.
  - rewrite length_app. cbn. lia.
  - intros i x Hi. apply lookup_app_Some in Hi as [Hi|[Hle Hi]]; [by apply Hloaders|].
    apply list_lookup_singleton_Some in Hi as [? <-]. destruct Hloader; [by left|right; lia].
Qed.
Lemma linked_add asked set library :
  linked asked set -> (ls_count set < GL_MAX_LIBRARIES)%nat -> known_path set (lb_path library) = false ->
  carried_ok (default [] (ls_root set)) library -> needed asked set (ls_count set) library ->
  linked asked (add_library set library).
Proof.
  intros Hlinked Hless Hknown Hok Hnew. pose proof (linked_shaped _ _ Hlinked) as Hshaped.
  assert (shaped (add_library set library)) as Hshaped' by (apply shaped_add; [done|done|by eapply needed_loader]).
  destruct Hlinked as [Hroot Hexec Hcount Hpaths Hcarried Hneeded].
  constructor; try done; [apply Hshaped'| | |]; cbn.
  - rewrite fmap_app. apply NoDup_app. split_and!; [done| |apply NoDup_singleton].
    intros p Hp ->%list_elem_of_singleton. apply known_path_spec in Hp. congruence.
  - apply Forall_app. split; [done|]. by constructor.
  - intros i x Hi. eapply needed_grows; [apply grows_add|done|done|].
    apply lookup_app_Some in Hi as [Hi|[Hle Hi]]; [by apply Hneeded|].
    apply list_lookup_singleton_Some in Hi as [Hi <-]. replace i with (ls_count set); [done|]. unfold ls_count in *. lia.
Qed.
Lemma carry_spec asked set path name loader ok set' :
  linked asked set -> accepted set path -> known_path set path = false ->
  (forall image, needed asked set (ls_count set) (mkLibrary image path name loader 0)) ->
  carry file load_ok strdup_ok set path name loader = (ok, set') ->
  linked asked set' /\ grows set set' /\ (ok = true -> known_path set' path = true \/ refused path).
Proof.
  intros Hlinked (candidate & size & Haccept) Hknown Hneeded. unfold carry.
  destruct (ls_count set =? GL_MAX_LIBRARIES)%nat eqn:Hfull; [by intros [= <- <-]|].
  apply Nat.eqb_neq in Hfull. unfold refused.
  destruct (gi_load_library load_ok (file path) gi_empty) as [loaded image] eqn:Hload.
  destruct loaded; cbn [negb].
  2: { intros [= <- <-]. split_and!; [by apply linked_refuse|apply grows_refuse|]. intros _. right. by left. }
  destruct (tls_initializer_count (gi_tls image) =? 0) eqn:Htls; cbn [negb].
  2: { intros [= <- <-]. split_and!; [by apply linked_refuse|apply grows_refuse|].
       intros _. right. right. by apply Z.eqb_neq. }
  destruct (negb (strdup_ok path) || negb (strdup_ok name)); intros [= <- <-]; [by split_and!|].
  destruct (accept_accepted _ _ _ _ Haccept) as (Hreal & Hregular & Hinside).
  split_and!; [|apply grows_add|].
  - apply linked_add; try done.
    + pose proof (lk_count _ _ Hlinked). lia.
    + constructor; cbn; try done; [by exists candidate|]. by apply Z.eqb_eq.
  - intros _. left. apply known_path_spec. cbn. rewrite fmap_app, elem_of_app. right. by left.
Qed.

(** *** Everything the images link *)

(** Every name of an image's list that leads to a file of the application is a
    carried library, or was refused. *)
Definition followed (set : GuestLinkSet) (from : Ref) (from_path : option (list Z)) (names : list (list Z)) : Prop :=
  forall name path, name ∈ names -> resolve set from from_path name PATH_MAX = Some path ->
    known_path set path = true \/ refused path.
Lemma followed_grows set set' from path names :
  grows set set' -> shaped set -> shaped set' -> valid set from path ->
  followed set from path names -> followed set' from path names.
Proof.
  intros Hgrows Hlinked Hlinked' Hvalid Hall name p Hin. rewrite (resolve_grows set set') by done.
  intros Hp. destruct (Hall name p Hin Hp); [left|by right]. by eapply known_path_grows.
Qed.
Lemma grows_image_at set set' from path :
  grows set set' -> valid set from path -> image_at set' from = image_at set from.
Proof.
  intros Hgrows Hvalid. destruct from as [| |j|]; cbn; [done|apply Hgrows| |done].
  destruct Hvalid as [_ Hj]. destruct (lookup_lt_is_Some_2 (ls_libraries set) j Hj) as [library Hlibrary].
  by rewrite Hlibrary, (grows_lookup _ _ _ _ Hgrows Hlibrary).
Qed.
Lemma grows_library_of set set' from path :
  grows set set' -> valid set from path -> library_of set' from = library_of set from.
Proof.
  intros Hgrows%grows_count Hvalid. destruct from as [| |j|]; [done|done| |done]. destruct Hvalid as [_ Hj]. cbn [library_of].
  by rewrite !(proj2 (Nat.ltb_lt _ _)) by lia.
Qed.
Lemma carried_by_loop_spec asked names set from path loader ok set' :
  linked asked set -> valid set from path -> loader = default GL_MAX_LIBRARIES (library_of set from) ->
  (forall name, name ∈ names -> name ∈ dylib_names (image_at set from)) ->
  carried_by_loop realpath regular file load_ok strdup_ok names set from path loader = (ok, set') ->
  linked asked set' /\ grows set set' /\ (ok = true -> followed set' from path names).
Proof.
  revert set. induction names as [|name names IH]; intros set Hlinked Hvalid Hloader Hnames; cbn [carried_by_loop].
  { intros [= <- <-]. split_and!; [done|done|]. by intros _ ? ? []%elem_of_nil. }
  assert (Hstep : forall set1, linked asked set1 -> grows set set1 ->
    (forall p, resolve set from path name PATH_MAX = Some p -> known_path set1 p = true \/ refused p) ->
    carried_by_loop realpath regular file load_ok strdup_ok names set1 from path loader = (ok, set') ->
    linked asked set' /\ grows set set' /\ (ok = true -> followed set' from path (name :: names))).
  { intros set1 Hlinked1 Hgrows1 Hname Hrun.
    destruct (IH set1) as (Hlinked' & Hgrows' & Hall); [done|by eapply grows_valid| | |done|].
    { by rewrite (grows_library_of set set1 from path). }
    { intros n Hn. rewrite (grows_image_at set set1 from path) by done. apply Hnames. by right. }
    split_and!; [done|by etrans|]. intros Hok n p [->|Hin]%elem_of_cons; [|by apply Hall].
    rewrite (resolve_grows set set') by (eauto || by etrans). intros Hp.
    destruct (Hname p Hp); [left|by right]. by eapply known_path_grows. }
  destruct (resolve set from path name PATH_MAX) as [p|] eqn:Hp; [|by apply Hstep].
  destruct (known_path set p) eqn:Hknown.
  { apply Hstep; [done|done|]. intros ? [= <-]. by left. }
  destruct (carry file load_ok strdup_ok set p name loader) as [ok1 set1] eqn:Hcarry.
  assert (forall image, needed asked set (ls_count set) (mkLibrary image p name loader 0)) as Hneeded.
  { intros image. rewrite Hloader. apply (needed_link _ _ _ path); [done|done| |done]. apply Hnames. by left. }
  destruct (carry_spec _ _ _ _ _ _ _ Hlinked (resolve_accepted _ _ _ _ _ _ Hp) Hknown Hneeded Hcarry) as (Hlinked1 & Hgrows1 & Hdone).
  destruct ok1; [|by intros [= <- <-]]. apply Hstep; [done|done|]. intros ? [= <-]. by apply Hdone.
Qed.
Definition image_followed (set : GuestLinkSet) (from : Ref) (path : option (list Z)) : Prop :=
  followed set from path (dylib_names (image_at set from)).
Lemma carried_by_spec asked set from path ok set' :
  linked asked set -> valid set from path ->
  carried_by realpath regular file load_ok strdup_ok set from path = (ok, set') ->
  linked asked set' /\ grows set set' /\ (ok = true -> image_followed set' from path).
Proof.
  intros Hlinked Hvalid Hrun.
  destruct (carried_by_loop_spec _ _ _ _ _ _ _ _ Hlinked Hvalid eq_refl (fun _ Hin => Hin) Hrun) as (Hlinked' & Hgrows & Hall).
  split_and!; [done|done|]. intros Hok. unfold image_followed. rewrite (grows_image_at set set' from path) by done. by apply Hall.
Qed.
(** The libraries from [first] on, and below [i], have their lists followed. *)
Definition followed_between (set : GuestLinkSet) (first i : nat) : Prop :=
  forall j, (first <= j < i)%nat -> (j < ls_count set)%nat ->
    image_followed set (Carried j) (lb_path <$> ls_libraries set !! j).
Lemma image_followed_grows set set' from path :
  grows set set' -> shaped set -> shaped set' -> valid set from path ->
  image_followed set from path -> image_followed set' from path.
Proof.
  intros Hgrows Hset Hset' Hvalid Hall. unfold image_followed.
  rewrite (grows_image_at set set' from path) by done. by eapply followed_grows.
Qed.
Lemma libraries_loop_spec asked fuel first i set ok set' :
  linked asked set -> (first <= i)%nat -> (GL_MAX_LIBRARIES < fuel + i)%nat -> followed_between set first i ->
  libraries_loop realpath regular file load_ok strdup_ok fuel i set = (ok, set') ->
  linked asked set' /\ grows set set' /\ (ok = true -> forall n, followed_between set' first n).
Proof.
  revert i set. induction fuel as [|fuel IH]; intros i set Hlinked Hfirst Hfuel Hbetween; cbn [libraries_loop].
  { intros [= <- <-]. split_and!; [done|done|]. intros _ n j [Hj _] Hcount. apply Hbetween; [|done].
    pose proof (lk_count _ _ Hlinked). lia. }
  destruct (ls_libraries set !! i) as [library|] eqn:Hlibrary.
  2: { intros [= <- <-]. split_and!; [done|done|]. intros _ n j [Hj _] Hcount. apply Hbetween; [|done].
       apply lookup_ge_None_1 in Hlibrary. unfold ls_count in *. lia. }
  destruct (carried_by _ _ _ _ _ set (Carried i) (Some (lb_path library))) as [ok1 set1] eqn:Hrun.
  assert (Hvalid : valid set (Carried i) (Some (lb_path library))).
  { split; [by rewrite Hlibrary|]. by eapply lookup_lt_Some. }
  destruct (carried_by_spec _ _ _ _ _ _ Hlinked Hvalid Hrun) as (Hlinked1 & Hgrows1 & Hdone).
  destruct ok1; [|by intros [= <- <-]]. intros Hrest.
  destruct (IH (S i) set1) as (Hlinked' & Hgrows' & Hall); [done|lia|lia| |done|by split_and!; [|etrans|]].
  intros j Hj Hcount. destruct (decide (j = i)) as [->|Hne].
  - rewrite (grows_lookup _ _ _ _ Hgrows1 Hlibrary). by apply Hdone.
  - assert (Hj' : (j < ls_count set)%nat) by (apply lookup_lt_Some in Hlibrary; unfold ls_count; lia).
    destruct (lookup_lt_is_Some_2 (ls_libraries set) j Hj') as [other Hother].
    specialize (Hbetween j ltac:(lia) Hj'). rewrite Hother in Hbetween. rewrite (grows_lookup _ _ _ _ Hgrows1 Hother).
    eapply image_followed_grows; eauto. split; [by rewrite Hother|done].
Qed.

(** *** The requests *)

Lemma carry_paths_spec asked paths set ok set' :
  linked asked set -> (forall p, Some p ∈ paths -> p ∈ asked) ->
  carry_paths realpath regular file load_ok strdup_ok paths set = (ok, set') ->
  linked asked set' /\ grows set set'.
Proof.
  revert set. induction paths as [|p paths IH]; intros set Hlinked Hasked; cbn [carry_paths]; [by intros [= <- <-]|].
  assert (forall q, Some q ∈ paths -> q ∈ asked) as Hrest by (intros q Hq; apply Hasked; by right).
  match goal with |- match ?e with _ => _ end = _ -> _ => destruct e as [path|] eqn:Hpath end; [|by intros [= <- <-]].
  destruct (known_path set path) eqn:Hknown; [by intros; apply IH|].
  destruct (carry _ _ _ _ _ _ _) as [ok1 set1] eqn:Hcarry.
  apply bind_Some in Hpath as (name & -> & Hpath). returned Hpath. bool_hyps.
  assert (forall image, needed asked set (ls_count set) (mkLibrary image path path GL_MAX_LIBRARIES 0)) as Hneeded.
  { intros image. eapply asked_for; [done|apply Hasked; by left|done| |done]. by apply accept_accepted in Hpath as [? _]. }
  assert (accepted set path) as Haccept by (by eexists _, _).
  destruct (carry_spec _ _ _ _ _ _ _ Hlinked Haccept Hknown Hneeded Hcarry) as (Hlinked1 & Hgrows1 & _).
  destruct ok1; [|by intros [= <- <-]]. intros Hrun. destruct (IH _ Hlinked1 Hrest Hrun) as [? ?]. split; [done|by etrans].
Qed.
Lemma widen_linked asked set root set' :
  linked asked set -> widen realpath strdup_ok set root = Some set' ->
  linked asked set' /\ ls_libraries set' = ls_libraries set.
Proof.
  intros Hlinked. destruct root as [root|]; cbn [widen]; [|by intros [= <-]].
  intros H. apply bind_Some in H as (resolved & _ & H). returned H. returned H. injection H as <-. bool_hyps.
  destruct Hlinked as [? ? ? ? Hcarried Hneeded]. split; [|done].
  assert (forall from path library, leads set from path library -> leads (with_root set resolved) from path library) as Hleads.
  { intros from path library (r & Hin & Hr). exists r. split; [by eapply inside_trans|exact Hr]. }
  constructor; cbn; try done.
  - eapply Forall_impl; [done|]. intros library [? ? Hin ? ?]. constructor; try done. by eapply inside_trans.
  - intros i library Hi. destruct (Hneeded i library Hi);
      [eapply needed_by_library|eapply needed_by_executable|eapply asked_for]; (done || by apply Hleads).
Qed.
Lemma linked_asked asked more set : linked asked set -> linked (asked ++ more) set.
Proof.
  intros [? ? ? ? ? Hneeded]. constructor; try done. intros i library Hi.
  destruct (Hneeded i library Hi); [by eapply needed_by_library|by eapply needed_by_executable|].
  eapply asked_for; try done. apply elem_of_app. by left.
Qed.
Lemma gl_carry_linked asked set root paths ok set' :
  linked asked set -> gl_carry realpath regular file load_ok strdup_ok (Some set) root paths = (ok, Some set') ->
  linked (asked ++ omap id paths) set' /\ ls_libraries set `prefix_of` ls_libraries set' /\
  (ok = true -> forall n, followed_between set' (ls_count set) n).
Proof.
  intros Hlinked%(linked_asked _ (omap id paths)). unfold gl_carry.
  match goal with |- (if ?b then _ else _) = _ -> _ => destruct b end; [by intros [= <- <-]|].
  destruct (widen realpath strdup_ok set root) as [set1|] eqn:Hwiden; [|by intros [= <- <-]].
  destruct (widen_linked _ _ _ _ Hlinked Hwiden) as [Hlinked1 Hlibraries1].
  destruct (carry_paths _ _ _ _ _ paths set1) as [ok2 set2] eqn:Hpaths.
  assert (forall p, Some p ∈ paths -> p ∈ asked ++ omap id paths) as Hasked.
  { intros p Hp. apply elem_of_app. right. apply list_elem_of_omap. by exists (Some p). }
  destruct (carry_paths_spec _ _ _ _ _ Hlinked1 Hasked Hpaths) as [Hlinked2 Hgrows2].
  rewrite <- Hlibraries1. destruct ok2; cbn [negb].
  2: { intros [= <- <-]. split_and!; [done|apply Hgrows2|done]. }
  destruct (libraries_loop _ _ _ _ _ _ _ set2) as [ok3 set3] eqn:Hloop. intros [= <- <-].
  destruct (libraries_loop_spec _ (S GL_MAX_LIBRARIES) (ls_count set1) _ _ _ _ Hlinked2 (le_n _) ltac:(lia) ltac:(intros j [? ?]; lia) Hloop)
    as (Hlinked3 & Hgrows3 & Hall).
  split_and!; [done|etrans; [apply Hgrows2|apply Hgrows3]|]. intros Hok n. unfold ls_count. rewrite <- Hlibraries1. by apply Hall.
Qed.
Lemma gl_load_correct set image path ok set' :
  gl_load realpath regular file load_ok strdup_ok (Some set) (Some image) (Some path) = (ok, Some set') ->
  if ok then
    linked [] set' /\ ls_executable set' = realpath path /\ ls_executable_image set' = Some image /\
    ls_root set' = (resolved ← realpath path; realpath (own_folder resolved PATH_MAX)) /\
    image_followed set' TheExecutable (ls_executable set') /\
    forall i, (i < ls_count set')%nat -> image_followed set' (Carried i) (lb_path <$> ls_libraries set' !! i)
  else set' = ls_empty.
Proof.
  unfold gl_load. destruct (realpath path) as [resolved|] eqn:Hpath; [|by intros [= <- <-]].
  destruct (realpath (own_folder resolved PATH_MAX)) as [root|] eqn:Hroot; [|by intros [= <- <-]].
  destruct (negb (strdup_ok resolved) || negb (strdup_ok root)); [by intros [= <- <-]|].
  set (set0 := mkLinkSet [] 0 (Some root) (Some resolved) (Some image) 0).
  assert (Hlinked0 : linked [] set0).
  { constructor; cbn; try done; first [apply Nat.le_0_l|constructor]. }
  destruct (carried_by _ _ _ _ _ set0 TheExecutable (Some resolved)) as [ok1 set1] eqn:Hrun.
  destruct (carried_by_spec [] set0 TheExecutable _ _ _ Hlinked0 eq_refl Hrun) as (Hlinked1 & Hgrows1 & Hdone).
  destruct ok1; cbn [negb]; [|by intros [= <- <-]].
  destruct (libraries_loop _ _ _ _ _ _ _ set1) as [ok2 set2] eqn:Hloop.
  destruct (libraries_loop_spec _ (S GL_MAX_LIBRARIES) O _ _ _ _ Hlinked1 (le_n _) ltac:(lia) ltac:(intros j [? ?]; lia) Hloop)
    as (Hlinked2 & Hgrows2 & Hall).
  destruct ok2; intros [= <- <-]; [|done].
  assert (Hgrows : grows set0 set2) by (by etrans). pose proof (gw_executable _ _ Hgrows) as Hexec.
  split; [done|]. split; [by rewrite Hexec|]. split; [by rewrite (gw_image _ _ Hgrows)|].
  split; [rewrite (gw_root _ _ Hgrows); cbn; by rewrite Hroot|]. split.
  - rewrite Hexec. apply (image_followed_grows set1 set2); [done|by eauto|by eauto| |by apply Hdone].
    cbn. by rewrite (gw_executable _ _ Hgrows1).
  - intros i Hi. apply (Hall eq_refl (S i)); [lia|done].
Qed.
(** The sets a program makes with [gl_load] and [gl_carry], and the paths it
    asked for. *)
Inductive reachable : list (list Z) -> GuestLinkSet -> Prop :=
| reachable_load set0 image path set :
    gl_load realpath regular file load_ok strdup_ok (Some set0) (Some image) (Some path) = (true, Some set) ->
    reachable [] set
| reachable_carry asked set root paths ok set' :
    reachable asked set ->
    gl_carry realpath regular file load_ok strdup_ok (Some set) root paths = (ok, Some set') ->
    reachable (asked ++ omap id paths) set'.

(** Loading follows every link: after [gl_load], each name that the executable
    or a carried library links and that leads to a file of the application is a
    carried library, or a file that cannot be used as one; a failed load leaves
    an empty set. *)
Theorem gl_load_spec set image path ok set' :
  gl_load realpath regular file load_ok strdup_ok (Some set) (Some image) (Some path) = (ok, Some set') ->
  if ok then
    linked [] set' /\ ls_executable set' = realpath path /\ ls_executable_image set' = Some image /\
    ls_root set' = (resolved ← realpath path; realpath (own_folder resolved PATH_MAX)) /\
    image_followed set' TheExecutable (ls_executable set') /\
    forall i, (i < ls_count set')%nat -> image_followed set' (Carried i) (lb_path <$> ls_libraries set' !! i)
  else set' = ls_empty.
Proof. apply gl_load_correct. Qed.
(** C11: Whatever an application asks to be carried, its set holds at most
    [GL_MAX_LIBRARIES] libraries, each a regular file inside the folder, loaded
    from it whole, no file twice. Each is there for a reason that its record
    keeps: its loader, an earlier library or the executable, links it by its
    install name and that link leads to its file, or its path was asked for. *)
Theorem gl_reachable_linked asked set : reachable asked set -> linked asked set.
Proof.
  induction 1 as [? ? ? ? Hload|? ? ? ? ? ? _ IH Hcarry].
  - by apply (gl_load_correct _ _ _ true) in Hload as [? _].
  - by apply gl_carry_linked with (asked := asked) in Hcarry as [? _].
Qed.
End loading.

(** ** Lookups *)

Section lookups.
Context (realpath : list Z -> option (list Z)) (regular : list Z -> bool).
Context (set : GuestLinkSet).

(** What an image placed with a slide answers for a name it exports. *)
Definition answer_of (found : GIExport) (slide : Z) (name : list Z) : Answer :=
  mkAnswer (if ex_absolute found then ex_address found else w64 (ex_address found + slide)) (ex_weak found) name.
(** An answer that one of the set's images gives. *)
Inductive answered : Answer -> Prop :=
| answered_executable image symbol found :
    ls_executable_image set = Some image -> gi_export image (Some symbol) true = (GI_EXPORT_FOUND, found) ->
    answered (answer_of found (ls_executable_slide set) GL_EXECUTABLE)
| answered_library i library symbol found :
    ls_libraries set !! i = Some library -> gi_export (lb_image library) (Some symbol) true = (GI_EXPORT_FOUND, found) ->
    answered (answer_of found (lb_slide library) (lb_install_name library)).
Definition all_answered (answer : option Answer) : Prop := forall a, answer = Some a -> answered a.

(** The visited mask is the set [vs] of libraries. *)
Record marks (visited : Z) (vs : list nat) : Prop := {
  mk_nodup : NoDup vs;
  mk_bound : Forall (fun i => (i < ls_count set)%nat) vs;
  mk_bit : forall i, Z.testbit visited (Z.of_nat i) = true <-> i ∈ vs
}.
Definition finished (n : nat) (search : Search) : Prop :=
  exists answer visited vs, search = Some (answer, visited) /\ marks visited vs /\ (n <= length vs)%nat /\ all_answered answer.
(** Searches that end once [n] libraries have been visited. *)
Definition searches (n : nat) (search : Z -> nat -> list Z -> bool -> Search) : Prop :=
  forall visited vs i symbol shallow, marks visited vs -> (n <= length vs)%nat -> (i < ls_count set)%nat ->
    finished (length vs) (search visited i symbol shallow).

Lemma marks_0 : marks 0 [].
Proof. constructor; [constructor|constructor|]. intros i. rewrite Z.bits_0. by split; [|intros []%elem_of_nil]. Qed.
Lemma marks_length visited vs : marks visited vs -> (length vs <= ls_count set)%nat.
Proof.
  intros [Hnodup Hbound _]. rewrite <- (length_seq (ls_count set) 0). apply submseteq_length, NoDup_submseteq; [done|].
  intros i Hi. apply elem_of_seq. rewrite Forall_forall in Hbound. specialize (Hbound i Hi). lia.
Qed.
Lemma marks_add visited vs i :
  marks visited vs -> (i < ls_count set)%nat -> Z.testbit visited (Z.of_nat i) = false ->
  marks (Z.lor visited (Z.shiftl 1 (Z.of_nat i))) (i :: vs).
Proof.
  intros [Hnodup Hbound Hbit] Hi Hnew. constructor.
  - constructor; [|done]. rewrite <- Hbit. congruence.
  - by constructor.
  - intros j. rewrite mark_testbit, orb_true_iff, Nat.eqb_eq, elem_of_cons, Hbit. split; intros [?|?]; auto.
Qed.
Lemma finished_none n visited vs : marks visited vs -> (n <= length vs)%nat -> finished n (Some (None, visited)).
Proof. intros ? ?. by exists None, visited, vs. Qed.
Lemma finished_le n n' search : finished n search -> (n' <= n)%nat -> finished n' search.
Proof. intros (a & v & vs & ? & ? & ? & ?) ?. exists a, v, vs. split_and!; try done. lia. Qed.
#[local] Hint Resolve finished_none marks_0 : core.

Lemma reexports_loop_finished n search image path dylibs symbol visited vs :
  searches n search -> marks visited vs -> (n <= length vs)%nat ->
  finished (length vs) (reexports_loop realpath regular search set image path dylibs symbol visited).
Proof.
  intros Hsearch. revert visited vs. induction dylibs as [|[name reexport] dylibs IH]; intros visited vs Hmarks Hn;
    cbn [reexports_loop]; [by eauto|].
  destruct (negb reexport); [by apply IH|].
  destruct (carried_as realpath regular set image path (Some name)) as [through|] eqn:Hthrough; [|by apply IH].
  destruct (Hsearch visited vs through symbol false Hmarks Hn) as (answer & visited' & vs' & -> & Hmarks' & Hle & Hanswer).
  { by eapply carried_as_lt. }
  cbn [mbind option_bind]. destruct answer as [a|]; [by exists (Some a), visited', vs'|].
  eapply finished_le; [apply IH; [done|lia]|done].
Qed.
Lemma image_export_finished n search image path slide name symbol shallow visited vs :
  searches n search -> marks visited vs -> (n <= length vs)%nat ->
  (forall im symbol found, image_at set image = Some im -> gi_export im (Some symbol) true = (GI_EXPORT_FOUND, found) ->
     answered (answer_of found slide name)) ->
  finished (length vs) (image_export realpath regular search set image path slide name symbol shallow visited).
Proof.
  intros Hsearch Hmarks Hn Hanswered. unfold image_export.
  destruct (image_at set image) as [im|] eqn:Him; [|by eauto].
  assert (Hreexports : finished (length vs) (if shallow then Some (None, visited)
            else reexports_loop realpath regular search set image path (gi_dylibs im) symbol visited)).
  { destruct shallow; [by eauto|]. by eapply reexports_loop_finished. }
  destruct (gi_export im (Some symbol) true) as [[] found] eqn:Hfound; try done.
  - exists (Some (answer_of found slide name)), visited, vs. split_and!; try done. intros a [= <-]. by eapply Hanswered.
  - destruct (carried_as _ _ _ _ _ _) as [defines|] eqn:Hdefines; [|by eauto].
    apply Hsearch; [done|done|]. by eapply carried_as_lt.
Qed.
Lemma library_export_finished fuel n :
  (ls_count set < fuel + n)%nat -> searches n (library_export realpath regular fuel set).
Proof.
  revert n. induction fuel as [|fuel IH]; intros n Hfuel visited vs i symbol shallow Hmarks Hn Hi.
  { apply marks_length in Hmarks. lia. }
  cbn [library_export]. destruct (Z.testbit visited (Z.of_nat i)) eqn:Hnew; [by eauto|].
  destruct (lookup_lt_is_Some_2 (ls_libraries set) i Hi) as [library Hlibrary]. rewrite Hlibrary.
  eapply finished_le; [eapply (image_export_finished (S n)); [apply IH; lia|by apply marks_add|cbn; lia|]|cbn; lia].
  intros im sym found Him Hfound. cbn in Him. rewrite Hlibrary in Him. injection Him as <-. by eapply answered_library.
Qed.
Lemma library_search_finished : searches 0 (library_search realpath regular set).
Proof. intros visited vs i symbol shallow. apply library_export_finished. unfold search_fuel. lia. Qed.
Lemma executable_export_finished symbol shallow visited vs :
  marks visited vs -> finished (length vs) (executable_export realpath regular set symbol shallow visited).
Proof.
  intros Hmarks. eapply image_export_finished; [apply library_search_finished|done|lia|].
  intros im sym found Him Hfound. by eapply answered_executable.
Qed.
Lemma library_of_lt from self : library_of set from = Some self -> (self < ls_count set)%nat.
Proof.
  destruct from as [| |i|]; cbn [library_of]; try done. destruct (i <? ls_count set)%nat eqn:Hi; [|done].
  intros [= <-]. by apply Nat.ltb_lt.
Qed.
Lemma finished_fst n search : finished n search -> exists answer, fst <$> search = Some answer /\ all_answered answer.
Proof. intros (answer & visited & vs & -> & _ & _ & Hanswer). by exists answer. Qed.
Lemma search_answers i symbol shallow :
  (i < ls_count set)%nat -> exists answer, fst <$> library_search realpath regular set 0 i symbol shallow = Some answer /\ all_answered answer.
Proof. intros Hi. eapply finished_fst, library_search_finished; [apply marks_0|lia|done]. Qed.
Lemma executable_answers symbol shallow :
  exists answer, fst <$> executable_export realpath regular set symbol shallow 0 = Some answer /\ all_answered answer.
Proof. eapply finished_fst, executable_export_finished, marks_0. Qed.

Lemma flat_lookup_answers symbol :
  exists answer, flat_lookup realpath regular set symbol = Some answer /\ all_answered answer.
Proof.
  unfold flat_lookup. destruct (executable_export_finished symbol false 0 [] marks_0) as (answer & visited & vs & -> & Hmarks & _ & Hanswer).
  cbn [mbind option_bind]. destruct answer as [a|]; [by exists (Some a)|].
  assert (Hall : Forall (fun i => (i < ls_count set)%nat) (seq 0 (ls_count set))).
  { apply Forall_forall. intros i ?%elem_of_seq. lia. }
  clear Hanswer. revert visited vs Hmarks Hall. generalize (seq 0 (ls_count set)). intros libraries.
  induction libraries as [|i libraries IH]; intros visited vs Hmarks Hall; cbn [flat_loop]; [by exists None|].
  apply Forall_cons in Hall as [Hi Hall].
  destruct (library_search_finished visited vs i symbol false Hmarks (Nat.le_0_l _) Hi) as (answer & visited' & vs' & -> & Hmarks' & _ & Hanswer).
  cbn [mbind option_bind]. destruct answer as [a|]; [by exists (Some a)|]. by eapply IH.
Qed.
Lemma coalesce_loop_answers images symbol best :
  Forall (fun i => (i < S (ls_count set))%nat) images -> all_answered best ->
  exists answer, coalesce_loop realpath regular set images symbol best = Some answer /\ all_answered answer.
Proof.
  revert best. induction images as [|i images IH]; intros best Hall Hbest; cbn [coalesce_loop]; [by exists best|].
  apply Forall_cons in Hall as [Hi Hall]. destruct (negb _); [by apply IH|].
  set (search := match i with O => _ | S _ => _ end).
  assert (exists answer visited, search = Some (answer, visited) /\ all_answered answer) as (candidate & visited & -> & Hcandidate).
  { destruct i as [|i]; subst search.
    - destruct (executable_export_finished symbol true 0 [] marks_0) as (a & v & ? & ? & ? & ? & ?). by exists a, v.
    - destruct (library_search_finished 0 [] i symbol true marks_0) as (a & v & ? & ? & ? & ? & ?); [done|lia|]. by exists a, v. }
  cbn [mbind option_bind]. destruct candidate as [a|]; [|by apply IH].
  destruct (negb (an_weak a)); [by exists (Some a)|]. apply IH; [done|].
  destruct best; [done|]. done.
Qed.
Lemma coalesce_answers from symbol :
  exists answer, coalesce realpath regular set from symbol = Some answer /\ all_answered answer.
Proof.
  unfold coalesce. destruct (coalesce_loop_answers (seq 0 (S (ls_count set))) symbol None) as (found & -> & Hfound).
  { apply Forall_forall. intros i ?%elem_of_seq. lia. }
  { done. }
  cbn [mbind option_bind]. destruct found as [a|]; [by exists (Some a)|].
  destruct (library_of set from) as [self|] eqn:Hself.
  - apply library_of_lt in Hself.
    destruct from; [by apply search_answers|apply executable_answers|by apply search_answers|by apply search_answers].
  - destruct from; [by exists None|apply executable_answers|by exists None|by exists None].
Qed.

(** A lookup always ends, whatever the images re-export from each other, and
    what it finds is the placed address of a definition that the executable or
    a carried library exports, with the name of the image that does. *)
Theorem gl_lookup_answered from from_path ordinal symbol :
  exists result, gl_lookup realpath regular set from from_path ordinal symbol = Some result /\
    forall value name, result = Some (value, name) ->
      exists answer, answered answer /\ an_value answer = value /\ an_name answer = name.
Proof.
  unfold gl_lookup. destruct (image_at set from) as [image|] eqn:Himage; [|by exists None].
  assert (exists answer, gl_search realpath regular set from image from_path ordinal symbol = Some answer /\ all_answered answer)
    as (answer & -> & Hanswer).
  2: { eexists. split; [done|]. intros value name Hresult. destruct answer as [a|]; [|done].
       injection Hresult as <- <-. exists a. split_and!; try done. by apply Hanswer. }
  unfold gl_search. destruct (0 <? ordinal).
  { case_match; [|by exists None]. case_match eqn:Hnamed; [|by exists None].
    apply search_answers. by eapply carried_as_lt. }
  destruct (_ || _); [apply executable_answers|]. destruct (ordinal =? BIND_SPECIAL_DYLIB_SELF).
  { destruct (library_of set from) as [self|] eqn:Hself; [|by exists None].
    by apply search_answers, (library_of_lt from). }
  destruct (ordinal =? BIND_SPECIAL_DYLIB_FLAT_LOOKUP); [apply flat_lookup_answers|].
  destruct (ordinal =? BIND_SPECIAL_DYLIB_WEAK_LOOKUP); [apply coalesce_answers|by exists None].
Qed.
End lookups.

(** ** Witnesses *)

(** An application [/A/x] with a library [/A/l] that it links, which links the
    library [/A/m] beside it. A third, [/A/p], is there for those who ask. *)
Definition example_library_file : list Z :=
  concat [le_bytes 4 0xfeedfacf; le_bytes 4 CPU_TYPE_ARM64; le_bytes 4 0; le_bytes 4 MH_DYLIB;
          le_bytes 4 1; le_bytes 4 72; le_bytes 8 0;
          le_bytes 4 LC_SEGMENT_64; le_bytes 4 72; str_TEXT ++ replicate 10 0;
          le_bytes 8 0x100000000; le_bytes 8 0x4000; le_bytes 8 0; le_bytes 8 104;
          le_bytes 4 5; le_bytes 4 5; le_bytes 8 0].
Definition linking_library_file : list Z :=
  concat [le_bytes 4 0xfeedfacf; le_bytes 4 CPU_TYPE_ARM64; le_bytes 4 0; le_bytes 4 MH_DYLIB;
          le_bytes 4 2; le_bytes 4 112; le_bytes 8 0;
          le_bytes 4 LC_SEGMENT_64; le_bytes 4 72; str_TEXT ++ replicate 10 0;
          le_bytes 8 0x100000000; le_bytes 8 0x4000; le_bytes 8 0; le_bytes 8 144;
          le_bytes 4 5; le_bytes 4 5; le_bytes 8 0;
          le_bytes 4 LC_LOAD_DYLIB; le_bytes 4 40; le_bytes 4 24; replicate 12 0; str "@loader_path/m"; replicate 2 0].
Definition example_files (path : list Z) : option (list Z) :=
  if bool_decide (path = str "/A/l") then Some linking_library_file else
  if bool_decide (path = str "/A/m" \/ path = str "/A/p") then Some example_library_file else None.
Definition example_executable : GuestImage :=
  mkImage gm_empty [] 0 0 0 0 0 0 0 no_dyld 0 None None 0 0 no_unwind no_tls
    [(str "@executable_path/l", false); (str "/usr/lib/libSystem.dylib", false)] [] false false [].
Definition anything {A} (_ : A) : bool := true.
Definition example_load : bool * option GuestLinkSet :=
  gl_load Some anything example_files always anything (Some ls_empty) (Some example_executable) (Some (str "/A/x")).
Definition example_carry : bool * option GuestLinkSet :=
  gl_carry Some anything example_files always anything (snd example_load) None [Some (str "/A/p")].
(** Each library with the name it was linked as and its loader. *)
Definition example_libraries (set : GuestLinkSet) : list (list Z * list Z * nat) :=
  (fun l => (lb_path l, lb_install_name l, lb_loader l)) <$> ls_libraries set.
Definition linked_libraries : list (list Z * list Z * nat) :=
  [(str "/A/l", str "@executable_path/l", GL_MAX_LIBRARIES); (str "/A/m", str "@loader_path/m", O)].
Definition all_libraries : list (list Z * list Z * nat) := linked_libraries ++ [(str "/A/p", str "/A/p", GL_MAX_LIBRARIES)].
Lemma example_load_ok : exists set, example_load = (true, Some set) /\ example_libraries set = linked_libraries.
Proof.
  assert (bool_decide (fst example_load = true /\ example_libraries <$> snd example_load = Some linked_libraries) = true) as H
    by (vm_compute; reflexivity).
  apply bool_decide_eq_true in H as [Hok Hlibraries]. destruct example_load as [ok [set|]]; [|done].
  exists set. cbn [fst snd fmap option_fmap option_map] in *. injection Hlibraries as Hlibraries. by rewrite Hok.
Qed.
Lemma example_carry_ok : exists set, example_carry = (true, Some set) /\ example_libraries set = all_libraries.
Proof.
  assert (bool_decide (fst example_carry = true /\ example_libraries <$> snd example_carry = Some all_libraries) = true) as H
    by (vm_compute; reflexivity).
  apply bool_decide_eq_true in H as [Hok Hlibraries]. destruct example_carry as [ok [set|]]; [|done].
  exists set. cbn [fst snd fmap option_fmap option_map] in *. injection Hlibraries as Hlibraries. by rewrite Hok.
Qed.
Lemma gl_load_spec_witness : exists set, example_load = (true, Some set) /\ ls_root set = Some (str "/A").
Proof.
  destruct example_load_ok as (set & Hload & _). exists set. split; [exact Hload|].
  destruct (gl_load_spec _ _ _ _ _ _ _ _ _ _ Hload) as (_ & _ & _ & Hroot & _). rewrite Hroot. vm_compute. reflexivity.
Defined.
Lemma gl_reachable_linked_witness :
  exists set, example_libraries set = all_libraries /\ linked Some anything example_files always [str "/A/p"] set.
Proof.
  destruct example_carry_ok as (set & Hcarry & Hlibraries). exists set. split; [exact Hlibraries|].
  destruct example_load_ok as (set0 & Hload & _). unfold example_carry in Hcarry. rewrite Hload in Hcarry.
  apply (gl_reachable_linked _ _ _ _ anything).
  apply (reachable_carry _ _ _ _ _ [] set0 None [Some (str "/A/p")] true); [|exact Hcarry].
  eapply reachable_load. exact Hload.
Defined.
