(* ===== verification/GuestProbe.v ===== *)
(** * GuestProbe: loading, linking and fixing up (tools/guest_probe.c)

    The command that validates an application puts the loader's parts together:
    it loads the executable, looks names up in its exports, loads the libraries
    the application carries, and applies the fixups of every image, binding each
    to the definitions of all of them. What it prints is left out; its counters
    of imports are only printed. *)
From Stdlib Require Import String.
From S2P Require Import Prelude GuestMemory GuestImage ExportTrie FixupFormat GuestFixups GuestLink.

(** ** The command *)

(** The process ends with a status, goes on with a result, or is lost: it never
    ends, or reads outside of an array. *)
Inductive Outcome (A : Type) := Exit (status : Z) | Goes (a : A) | Lost.
Arguments Exit {A} _.
Arguments Goes {A} _.
Arguments Lost {A}.
#[export] Instance outcome_bind : MBind Outcome := fun A B k r =>
  match r with Exit status => Exit status | Goes a => k a | Lost => Lost end.

Record Options := mkOptions { op_library : bool; op_fixups : bool; op_carried : bool; op_dump : bool }.
Definition no_options : Options := mkOptions false false false false.
Definition argument_is (argument : list Z) (name : string) : bool := bool_decide (argument = str name).
(** The options, or [None] for one that is not known. *)
Fixpoint parse (args : list (list Z)) (o : Options) : option Options :=
  match args with
  | [] => Some o
  | a :: args =>
    if argument_is a "--library" then parse args (mkOptions true (op_fixups o) (op_carried o) (op_dump o)) else
    if argument_is a "--validate-fixups" then parse args (mkOptions (op_library o) true (op_carried o) (op_dump o)) else
    if argument_is a "--dump-fixups" then parse args (mkOptions (op_library o) true (op_carried o) true) else
    if argument_is a "--carried-libraries" then parse args (mkOptions (op_library o) (op_fixups o) true (op_dump o)) else
    if argument_is a "--export" then match args with _ :: args => parse args o | [] => None end else None
  end.

(** One [--export]: the name of a re-export's library is read. *)
Definition probe_export (image : GuestImage) (symbol : option (list Z)) : Outcome unit :=
  match gi_export image symbol true with
  | (GI_EXPORT_REEXPORT, found) =>
    match gi_dylibs image !! Z.to_nat (ex_ordinal found - 1) with Some _ => Goes tt | None => Lost end
  | (GI_EXPORT_FOUND, _) => Goes tt
  | _ => Exit 1
  end.
Fixpoint exports_loop (image : GuestImage) (args : list (list Z)) : Outcome unit :=
  match args with
  | [] => Goes tt
  | a :: args =>
    if negb (argument_is a "--export") then exports_loop image args else
    match args with
    | [] => probe_export image None
    | symbol :: args => _ ← probe_export image (Some symbol); exports_loop image args
    end
  end.

(** An image whose memory is another, and a set with such an image in it. *)
Definition with_memory (image : GuestImage) (m : GuestMemory) : GuestImage :=
  mkImage m (gi_segments image) (gi_slice_offset image) (gi_slice_size image) (gi_entry image)
    (gi_first_initializer image) (gi_initializer_count image) (gi_mapped_size image) (gi_file_backed_size image)
    (gi_dyld image) (gi_file_type image) (gi_exports image) (gi_chained image) (gi_header_address image)
    (gi_initializer_address image) (gi_unwind image) (gi_tls image) (gi_dylibs image) (gi_rpaths image)
    (gi_initializer_offsets image) (gi_weak_defines image) (gi_initializers image).
Definition library_with (m : GuestMemory) (library : GuestLibrary) : GuestLibrary :=
  mkLibrary (with_memory (lb_image library) m) (lb_path library) (lb_install_name library) (lb_loader library) (lb_slide library).
Definition set_libraries (set : GuestLinkSet) (libraries : list GuestLibrary) : GuestLinkSet :=
  mkLinkSet libraries (ls_refused set) (ls_root set) (ls_executable set) (ls_executable_image set) (ls_executable_slide set).
Definition with_executable (set : GuestLinkSet) (image : GuestImage) (slide : Z) : GuestLinkSet :=
  mkLinkSet (ls_libraries set) (ls_refused set) (ls_root set) (ls_executable set) (Some image) slide.

Section probe.
(** The file system, and which allocations succeed: the loader's, [strdup]'s, and
    those of the fixups of each image, [None] being the executable. *)
Context (realpath : list Z -> option (list Z)) (regular : list Z -> bool) (file : list Z -> option (list Z)).
Context (load_ok : Site -> bool) (strdup_ok : list Z -> bool).
Context (backing buffer_ok : option nat -> Z -> bool) (imports_ok : option nat -> bool).

(** A symbol nobody answers is bound to zero. *)
Definition inspect_import (set : GuestLinkSet) (from : Ref) (path : list Z) (s : list Z) (o : Z) (w l : bool) (v : Z) : bool * Z :=
  match gl_lookup realpath regular set from (Some path) o s with
  | Some (Some (v, answer)) => (true, v)
  | _ => (true, 0)
  end.
Definition fix_image (n : option nat) (set : GuestLinkSet) (from : Ref) (path : list Z) (image : GuestImage) (slide : Z)
    : Outcome GuestMemory :=
  match gf_apply_observed (backing n) (buffer_ok n) (imports_ok n) image (inspect_import set from path) true slide with
  | Next _ s => Goes (fx_memory s)
  | Stop _ => Exit 1
  | Spin => Lost
  end.
Definition library_slide : Z := 0x200000.
Fixpoint fix_libraries (indices : list nat) (set : GuestLinkSet) : Outcome GuestLinkSet :=
  match indices with
  | [] => Goes set
  | i :: indices =>
    match ls_libraries set !! i with
    | None => Lost
    | Some library =>
      m ← fix_image (Some i) set (Carried i) (lb_path library) (lb_image library) library_slide;
      fix_libraries indices (set_libraries set (<[i := library_with m library]> (ls_libraries set)))
    end
  end.
(** The image and the set as they are before they are destroyed. *)
Definition guest_probe (argv : list (list Z)) : Outcome (GuestImage * GuestLinkSet) :=
  match argv with
  | _ :: path :: args =>
    match parse args no_options with
    | None => Exit 2
    | Some o =>
      let '(loaded, image) := if op_library o then gi_load_library load_ok (file path) gi_empty
                              else gi_load load_ok (file path) gi_empty in
      if negb loaded then Exit 1 else
      _ ← exports_loop image args;
      let '(ok, set) := if op_carried o
                        then gl_load realpath regular file load_ok strdup_ok (Some ls_empty) (Some image) (Some path)
                        else (true, Some ls_empty) in
      if negb ok then Exit 1 else
      let slide := if op_dump o then 0 else library_slide in
      let set := with_executable (default ls_empty set) image slide in
      if negb (op_fixups o) then Goes (image, set) else
      set ← fix_libraries (seq 0 (ls_count set)) set;
      m ← fix_image None set TheExecutable path image slide;
      let image := with_memory image m in Goes (image, with_executable set image slide)
    end
  | _ => Exit 2
  end.
End probe.

(** ** Who answers does not depend on memory *)

Definition forget_image (image : GuestImage) : GuestImage := with_memory image gm_empty.
Definition forget_set (set : GuestLinkSet) : GuestLinkSet :=
  mkLinkSet (library_with gm_empty <$> ls_libraries set) (ls_refused set) (ls_root set) (ls_executable set)
    (forget_image <$> ls_executable_image set) (ls_executable_slide set).
(** An image of the set. *)
Definition in_set (r : Ref) : Prop := match r with Other _ => False | _ => True end.
Section forgetting.
Context (realpath : list Z -> option (list Z)) (regular : list Z -> bool) (set : GuestLinkSet).
Local Abbreviation less := (forget_set set).
Lemma forget_export image symbol : gi_export (forget_image image) symbol true = gi_export image symbol true.
Proof. by destruct image. Qed.
Lemma forget_image_at r : in_set r -> image_at less r = forget_image <$> image_at set r.
Proof. destruct r as [| |i|]; try done. intros _. cbn. rewrite list_lookup_fmap. by destruct (_ !! i). Qed.
Lemma forget_count : ls_count less = ls_count set.
Proof. apply length_fmap. Qed.
Lemma forget_library_of r : library_of less r = library_of set r.
Proof. destruct r; try done. unfold library_of. by rewrite forget_count. Qed.
Lemma forget_libraries i : ls_libraries less !! i = library_with gm_empty <$> ls_libraries set !! i.
Proof. apply list_lookup_fmap. Qed.
Lemma forget_try_rpaths rpaths path rest size :
  try_rpaths realpath regular less rpaths path rest size = try_rpaths realpath regular set rpaths path rest size.
Proof. induction rpaths as [|rpath rpaths IH]; [done|]. cbn [try_rpaths]. by rewrite IH. Qed.
Lemma forget_rpaths (image : option GuestImage) : gi_rpaths <$> (forget_image <$> image) = gi_rpaths <$> image.
Proof. by destruct image. Qed.
Lemma forget_rpath_loop steps image path rest size :
  in_set image -> rpath_loop realpath regular steps less image path rest size = rpath_loop realpath regular steps set image path rest size.
Proof.
  revert image path. induction steps as [|steps IH]; intros image path Hi; [done|]. cbn [rpath_loop].
  rewrite forget_image_at, forget_rpaths, forget_try_rpaths, forget_library_of by done.
  destruct (try_rpaths _ _ _ _ _ _ _); [done|]. destruct (library_of set image) as [i|]; [|done]. cbn [mbind option_bind].
  rewrite forget_libraries. destruct (ls_libraries set !! i) as [library|]; [|done]. cbn [fmap option_fmap option_map mbind option_bind].
  rewrite forget_libraries. cbn [lb_loader library_with]. destruct (ls_libraries set !! lb_loader library); apply IH; done.
Qed.
Lemma forget_resolve from path name size :
  in_set from -> gl_resolve realpath regular less from path name size = gl_resolve realpath regular set from path name size.
Proof. intros Hf. unfold gl_resolve. rewrite forget_count, forget_rpath_loop by done. reflexivity. Qed.
Lemma index_of_fmap {A B} (f : A -> B) test l : index_of test (f <$> l) = index_of (fun x => test (f x)) l.
Proof. induction l as [|x l IH]; [done|]. cbn. by rewrite IH. Qed.
Lemma forget_carried_as from path name :
  in_set from -> carried_as realpath regular less from path name = carried_as realpath regular set from path name.
Proof.
  intros Hf. unfold carried_as. destruct name as [name|]; [|done]. cbn [mbind option_bind].
  rewrite forget_resolve by done. destruct (gl_resolve _ _ _ _ _ _ _); [|done]. apply index_of_fmap.
Qed.
Section one_image.
Context (library_export library_export' : Z -> nat -> list Z -> bool -> Search).
Context (Hexport : forall visited i symbol shallow, library_export' visited i symbol shallow = library_export visited i symbol shallow).
Lemma forget_reexports_loop image path dylibs symbol visited :
  in_set image -> reexports_loop realpath regular library_export' less image path dylibs symbol visited =
    reexports_loop realpath regular library_export set image path dylibs symbol visited.
Proof.
  intros Hi. revert visited. induction dylibs as [|[name reexport] dylibs IH]; intros visited; [done|]. cbn [reexports_loop].
  destruct (negb reexport); [apply IH|]. rewrite forget_carried_as by done.
  destruct (carried_as _ _ _ _ _ _); [|apply IH]. rewrite Hexport.
  destruct (library_export _ _ _ _) as [[[a|] v]|]; [done| |done]. apply IH.
Qed.
Lemma forget_image_export image path slide name symbol shallow visited :
  in_set image -> image_export realpath regular library_export' less image path slide name symbol shallow visited =
    image_export realpath regular library_export set image path slide name symbol shallow visited.
Proof.
  intros Hi. unfold image_export. rewrite forget_image_at by done. destruct (image_at set image) as [im|]; [|done].
  cbn [fmap option_fmap option_map]. rewrite forget_export. change (gi_dylibs (forget_image im)) with (gi_dylibs im).
  destruct (gi_export im _ _) as [[] found]; try done.
  - destruct shallow; [done|]. by apply forget_reexports_loop.
  - destruct shallow; [done|]. by apply forget_reexports_loop.
  - rewrite forget_carried_as by done. destruct (carried_as _ _ _ _ _ _); [apply Hexport|done].
Qed.
End one_image.
Lemma forget_library_export fuel visited i symbol shallow :
  library_export realpath regular fuel less visited i symbol shallow = library_export realpath regular fuel set visited i symbol shallow.
Proof.
  revert visited i symbol shallow. induction fuel as [|fuel IH]; intros; [done|]. cbn [library_export].
  destruct (Z.testbit _ _); [done|]. rewrite forget_libraries. destruct (ls_libraries set !! i) as [library|]; [|done].
  cbn [fmap option_fmap option_map]. by apply forget_image_export.
Qed.
Lemma forget_library_search visited i symbol shallow :
  library_search realpath regular less visited i symbol shallow = library_search realpath regular set visited i symbol shallow.
Proof. unfold library_search, search_fuel. rewrite forget_count. apply forget_library_export. Qed.
Lemma forget_executable_export symbol shallow visited :
  executable_export realpath regular less symbol shallow visited = executable_export realpath regular set symbol shallow visited.
Proof. apply forget_image_export; [intros; apply forget_library_search|done]. Qed.
Lemma forget_flat_lookup symbol : flat_lookup realpath regular less symbol = flat_lookup realpath regular set symbol.
Proof.
  unfold flat_lookup. rewrite forget_executable_export, forget_count.
  destruct (executable_export _ _ _ _ _ _) as [[[a|] v]|]; [done| |done]. cbn [mbind option_bind].
  revert v. induction (seq 0 (ls_count set)) as [|i l IH]; intros v; [done|]. cbn [flat_loop]. rewrite forget_library_search.
  destruct (library_search _ _ _ _ _ _ _) as [[[a|] v']|]; [done| |done]. apply IH.
Qed.
Lemma forget_weak_defines i :
  gi_weak_defines <$> placed_image less i = gi_weak_defines <$> placed_image set i.
Proof.
  destruct i as [|i]; cbn [placed_image].
  { unfold forget_set. cbn [ls_executable_image]. by destruct (ls_executable_image set). }
  rewrite forget_libraries. by destruct (ls_libraries set !! i).
Qed.
Lemma forget_coalesce from symbol : coalesce realpath regular less from symbol = coalesce realpath regular set from symbol.
Proof.
  unfold coalesce. rewrite forget_count, forget_library_of, forget_executable_export.
  assert (forall l best, coalesce_loop realpath regular less l symbol best = coalesce_loop realpath regular set l symbol best) as ->.
  { induction l as [|i l IH]; intros best; [done|]. cbn [coalesce_loop]. rewrite forget_weak_defines.
    destruct (negb _); [apply IH|].
    destruct i as [|i]; rewrite ?forget_executable_export, ?forget_library_search;
      (match goal with |- context [mbind _ ?r] => destruct r as [[[a|] v]|] end; cbn [mbind option_bind]; [|apply IH|done];
       destruct (negb (an_weak a)); [done|apply IH]). }
  destruct (coalesce_loop _ _ _ _ _ _) as [[a|]|]; [done| |done]. cbn [mbind option_bind].
  destruct from; try done; destruct (library_of set _); try done; by rewrite forget_library_search.
Qed.
(** Forgetting what the images' memory holds leaves every lookup as it is. *)
Lemma forget_lookup from path ordinal symbol :
  in_set from -> gl_lookup realpath regular less from path ordinal symbol = gl_lookup realpath regular set from path ordinal symbol.
Proof.
  intros Hf. unfold gl_lookup. rewrite forget_image_at by done. destruct (image_at set from) as [image|]; [|done].
  cbn [fmap option_fmap option_map]. f_equal. unfold gl_search. change (gi_dylibs (forget_image image)) with (gi_dylibs image).
  rewrite forget_executable_export, forget_library_of, forget_flat_lookup, forget_coalesce.
  destruct (gi_dylibs image !! Z.to_nat (ordinal - 1)) as [d|]; [|by destruct (library_of set from); rewrite ?forget_library_search].
  rewrite forget_carried_as by done. destruct (carried_as _ _ _ _ _ _); rewrite ?forget_library_search;
    by destruct (library_of set from); rewrite ?forget_library_search.
Qed.
End forgetting.

(** ** What the command does *)

Lemma same_answers realpath regular set set' from path :
  forget_set set = forget_set set' -> in_set from ->
  forall s o w l v, inspect_import realpath regular set from path s o w l v = inspect_import realpath regular set' from path s o w l v.
Proof.
  intros Hsame Hf s o w l v. unfold inspect_import.
  by rewrite <- (forget_lookup realpath regular set), Hsame, forget_lookup by done.
Qed.

Section correct.
Context (realpath : list Z -> option (list Z)) (regular : list Z -> bool) (file : list Z -> option (list Z)).
Context (load_ok : Site -> bool) (strdup_ok : list Z -> bool).
Context (backing buffer_ok : option nat -> Z -> bool) (imports_ok : option nat -> bool).
#[local] Abbreviation answers := (inspect_import realpath regular).

(** An image with its fixups applied: its memory is the loaded one with exactly
    the pointers stored that its own fixups say, each inside a segment; an import
    is what the set answers for it. *)
Record fixed (set : GuestLinkSet) (from : Ref) (path : list Z) (slide : Z) (image : GuestImage) (m : GuestMemory) : Prop := {
  fd_memory : memory_wf m;
  fd_fixups : exists resolve events,
    (forall symbol ordinal weak lazy v, resolve symbol ordinal weak lazy v = answers set from path symbol ordinal weak lazy v) /\
    (forall x, cell m x = written (cell (gi_memory image)) events x) /\
    Forall (GuestFixups.inside image) events /\
    fixups_follow image resolve slide (cell (gi_memory image)) events
}.
Lemma fix_image_fixed n set set0 from path image slide :
  fixable image -> in_set from -> forget_set set = forget_set set0 ->
  match fix_image realpath regular backing buffer_ok imports_ok n set from path image slide with
  | Goes m => fixed set0 from path slide image m
  | Exit status => status = 1
  | Lost => False
  end.
Proof.
  intros Hfix Hfrom Hsame. unfold fix_image.
  pose proof (gf_apply_goes (backing n) (buffer_ok n) (imports_ok n) image (answers set from path) true slide Hfix) as H.
  destruct (gf_apply_observed _ _ _ _ _ _ _) as [a s|s|]; [|done|done].
  destruct H as (events & [Hm He Hc Hn Hi] & Hfollow). split; [done|]. exists (answers set from path), events.
  split_and!; [by apply same_answers|done..].
Qed.

(** The libraries before [k] are fixed, the others as they were. *)
Definition library_fixed (set0 set : GuestLinkSet) (i : nat) : Prop :=
  forall library, ls_libraries set0 !! i = Some library ->
  exists m, ls_libraries set !! i = Some (library_with m library) /\
    fixed set0 (Carried i) (lb_path library) library_slide (lb_image library) m.
Record progress (set0 : GuestLinkSet) (k : nat) (set : GuestLinkSet) : Prop := {
  pg_same : forget_set set = forget_set set0;
  pg_set : set = set_libraries set0 (ls_libraries set);
  pg_fixed : forall i, (i < k)%nat -> library_fixed set0 set i;
  pg_rest : forall i, (k <= i)%nat -> ls_libraries set !! i = ls_libraries set0 !! i
}.
Lemma set_libraries_forget set libraries :
  library_with gm_empty <$> libraries = library_with gm_empty <$> ls_libraries set ->
  forget_set (set_libraries set libraries) = forget_set set.
Proof. intros H. unfold forget_set. cbn. by rewrite H. Qed.
Lemma fixed_progress set0 k set library m :
  progress set0 k set -> ls_libraries set !! k = Some library ->
  fixed set0 (Carried k) (lb_path library) library_slide (lb_image library) m ->
  progress set0 (S k) (set_libraries set (<[k := library_with m library]> (ls_libraries set))).
Proof.
  intros [Hsame Hset Hfixed Hrest] Hk Hm. pose proof (lookup_lt_Some _ _ _ Hk) as Hlt. split.
  - rewrite <- Hsame. apply set_libraries_forget. rewrite list_fmap_insert. apply list_insert_id.
    by rewrite list_lookup_fmap, Hk.
  - by rewrite Hset.
  - intros i Hi library0 Hl. cbn [ls_libraries set_libraries]. destruct (decide (i = k)) as [->|Hne].
    + rewrite Hrest, Hl in Hk by lia. injection Hk as <-. exists m. split; [|done]. by apply list_lookup_insert_eq.
    + rewrite list_lookup_insert_ne by done. apply Hfixed; [lia|done].
  - intros i Hi. cbn [ls_libraries set_libraries]. rewrite list_lookup_insert_ne by lia. apply Hrest. lia.
Qed.
Lemma fix_libraries_progress set0 n k set :
  (forall i library, ls_libraries set0 !! i = Some library -> fixable (lb_image library)) ->
  progress set0 k set -> (k + n = ls_count set0)%nat ->
  match fix_libraries realpath regular backing buffer_ok imports_ok (seq k n) set with
  | Goes set' => progress set0 (ls_count set0) set'
  | Exit status => status = 1
  | Lost => False
  end.
Proof.
  intros Hfix. revert k set. induction n as [|n IH]; intros k set Hp Hn; cbn [seq fix_libraries].
  { by rewrite <- Hn, Nat.add_0_r. }
  destruct (lookup_lt_is_Some_2 (ls_libraries set0) k) as [library Hk]; [unfold ls_count in Hn; lia|].
  rewrite (pg_rest _ _ _ Hp k) by lia. rewrite Hk.
  pose proof (fix_image_fixed (Some k) set set0 (Carried k) (lb_path library) (lb_image library) library_slide (Hfix _ _ Hk) I (pg_same _ _ _ Hp)) as H.
  destruct (fix_image _ _ _ _ _ _ _ _ _ _ _) as [status|m|]; [done| |done]. cbn [mbind outcome_bind].
  apply IH; [|lia]. apply fixed_progress; [done| |done]. by rewrite (pg_rest _ _ _ Hp k).
Qed.
(** What a command line asks for, and what it found. *)
Definition understood (argv : list (list Z)) : bool :=
  match argv with _ :: _ :: args => bool_decide (is_Some (parse args no_options)) | _ => false end.
Fixpoint asked (args : list (list Z)) : list (list Z) :=
  match args with
  | [] => []
  | a :: args =>
    if negb (argument_is a "--export") then asked args else match args with symbol :: args => symbol :: asked args | [] => [] end
  end.
Definition defined (image : GuestImage) (symbol : list Z) : Prop :=
  fst (gi_export image (Some symbol) true) = GI_EXPORT_FOUND \/ fst (gi_export image (Some symbol) true) = GI_EXPORT_REEXPORT.
Definition probed (o : Options) (path : list Z) (loaded : GuestImage) (set0 : GuestLinkSet) (image : GuestImage) (set : GuestLinkSet) : Prop :=
  let slide := if op_dump o then 0 else library_slide in
  let placed := with_executable set0 loaded slide in
  if op_fixups o then
    (forall i, library_fixed placed set i) /\ ls_count set = ls_count set0 /\
    exists m, image = with_memory loaded m /\ fixed placed TheExecutable path slide loaded m
  else image = loaded /\ set = placed.
Definition carried_set (o : Options) (path : list Z) (loaded : GuestImage) (set0 : GuestLinkSet) : Prop :=
  if op_carried o
  then gl_load realpath regular file load_ok strdup_ok (Some ls_empty) (Some loaded) (Some path) = (true, Some set0) /\
       linked realpath regular file load_ok [] set0
  else set0 = ls_empty.

Lemma probe_export_goes image symbol :
  match probe_export image symbol with
  | Goes _ => exists s, symbol = Some s /\ defined image s
  | Exit status => status = 1
  | Lost => False
  end.
Proof.
  unfold probe_export. pose proof (gi_export_sound image symbol true) as Hs. unfold defined.
  destruct (gi_export image symbol true) as [[] found] eqn:E; try done.
  - destruct symbol as [s|]; [|done]. exists s. split; [done|]. left. by rewrite E.
  - destruct (gi_dylibs image !! _) eqn:Hd; [|apply lookup_ge_None in Hd; cbn in Hs; lia].
    destruct symbol as [s|]; [|done]. exists s. split; [done|]. right. by rewrite E.
Qed.
Lemma exports_loop_goes image args :
  match exports_loop image args with
  | Goes _ => Forall (defined image) (asked args)
  | Exit status => status = 1
  | Lost => False
  end.
Proof.
  induction args as [args IH] using (induction_ltof1 _ (@length _)). unfold ltof in IH.
  destruct args as [|a args]; [constructor|]. cbn [exports_loop asked]. destruct (negb (argument_is a "--export")); [apply IH; cbn; lia|].
  destruct args as [|symbol args].
  - pose proof (probe_export_goes image None) as H. destruct (probe_export image None); [done|by destruct H as (? & ? & _)|done].
  - pose proof (probe_export_goes image (Some symbol)) as H. destruct (probe_export image (Some symbol)); [done| |done].
    destruct H as (s & [= <-] & Hs). cbn [mbind outcome_bind]. specialize (IH args ltac:(cbn; lia)).
    destruct (exports_loop image args); [done| |done]. by constructor.
Qed.
Lemma carried_fixable :
  (forall p f, file p = Some f -> Forall byte_ok f) ->
  forall set i library, linked realpath regular file load_ok [] set -> ls_libraries set !! i = Some library -> fixable (lb_image library).
Proof.
  intros Hbytes set i library Hl Hi. pose proof (lk_carried _ _ _ _ _ _ Hl) as Hc. rewrite Forall_lookup in Hc.
  destruct (Hc i library Hi) as [_ _ _ Himage _]. unfold gi_load_library, load_path in Himage. cbn in Himage.
  destruct (file (lb_path library)) as [f|] eqn:Hf; [|done].
  destruct (load load_ok f MH_DYLIB) as [im|] eqn:Hload; [|done]. injection Himage as <-. eapply load_fixable; [|done]. by eapply Hbytes.
Qed.
Lemma carry_step_spec o path loaded :
  let '(ok, set) := if op_carried o
                    then gl_load realpath regular file load_ok strdup_ok (Some ls_empty) (Some loaded) (Some path)
                    else (true, Some ls_empty) in
  ok = true -> exists set0, set = Some set0 /\ carried_set o path loaded set0.
Proof.
  unfold carried_set. destruct (op_carried o); [|by intros _; exists ls_empty].
  destruct (gl_load _ _ _ _ _ _ _ _) as [ok set] eqn:E. intros ->.
  assert (exists set0, set = Some set0) as [set0 ->].
  { revert E. unfold gl_load. repeat (case_match; try discriminate); intros [= <-]; by eexists. }
  exists set0. split; [done|]. split; [done|]. by apply gl_load_correct in E as [? _].
Qed.
Lemma carried_set_fixable o path loaded set0 :
  (forall p f, file p = Some f -> Forall byte_ok f) -> carried_set o path loaded set0 ->
  forall i library, ls_libraries set0 !! i = Some library -> fixable (lb_image library).
Proof.
  unfold carried_set. intros Hbytes. destruct (op_carried o); [|by intros ->].
  intros [_ Hl] i library. by apply carried_fixable.
Qed.
Lemma library_fixed_all set0 set :
  progress set0 (ls_count set0) set -> (forall i, library_fixed set0 set i) /\ ls_count set = ls_count set0.
Proof.
  intros [Hsame _ Hfixed _]. split.
  - intros i library Hl. apply Hfixed; [|done]. by apply lookup_lt_Some in Hl.
  - rewrite <- (forget_count set), Hsame. apply forget_count.
Qed.
Lemma fixups_probed o path loaded set0 :
  fixable loaded -> (forall i library, ls_libraries set0 !! i = Some library -> fixable (lb_image library)) ->
  op_fixups o = true ->
  let slide := if op_dump o then 0 else library_slide in
  match (set ← fix_libraries realpath regular backing buffer_ok imports_ok (seq 0 (ls_count set0)) (with_executable set0 loaded slide);
         m ← fix_image realpath regular backing buffer_ok imports_ok None set TheExecutable path loaded slide;
         let image := with_memory loaded m in Goes (image, with_executable set image slide)) with
  | Goes (image, set) => probed o path loaded set0 image set
  | Exit status => status = 1
  | Lost => False
  end.
Proof.
  intros Hfix Hlibs Ho slide. pose proof (fix_libraries_progress (with_executable set0 loaded slide) (ls_count set0) 0
    (with_executable set0 loaded slide) Hlibs) as H.
  destruct (fix_libraries _ _ _ _ _ _ _) as [status|set|]; cbn [mbind outcome_bind].
  - apply H; [|done]. split; try done. intros i Hi. lia.
  - assert (progress (with_executable set0 loaded slide) (ls_count set0) set) as Hp.
    { apply H; [|done]. split; try done. intros i Hi. lia. }
    pose proof (fix_image_fixed None set (with_executable set0 loaded slide) TheExecutable path loaded slide Hfix I (pg_same _ _ _ Hp)) as Himage.
    destruct (fix_image _ _ _ _ _ _ _ _ _ _ _) as [status|m|]; cbn [mbind outcome_bind]; [done| |done].
    unfold probed. rewrite Ho. cbv zeta. fold slide. destruct (library_fixed_all _ _ Hp) as [Hall Hcount].
    split; [exact Hall|]. split; [exact Hcount|]. by exists m.
  - apply H; [|done]. split; try done. intros i Hi. lia.
Qed.

Lemma load_path_empty f file_type :
  load_path load_ok f gi_empty file_type =
  match f ≫= (fun f => load load_ok f file_type) with Some image => (true, image) | None => (false, gi_empty) end.
Proof. by destruct f. Qed.

End correct.

(** ** Witness *)

(** An application [/A/x] that imports [_a] from the library [/A/l] it carries,
    four bytes into it. *)
Definition probe_library : list Z :=
  concat [le_bytes 4 0xfeedfacf; le_bytes 4 CPU_TYPE_ARM64; le_bytes 4 0; le_bytes 4 MH_DYLIB;
          le_bytes 4 2; le_bytes 4 88; le_bytes 8 0;
          le_bytes 4 LC_SEGMENT_64; le_bytes 4 72; str_TEXT ++ replicate 10 0;
          le_bytes 8 0x100000000; le_bytes 8 0x4000; le_bytes 8 0; le_bytes 8 136;
          le_bytes 4 5; le_bytes 4 5; le_bytes 8 0;
          le_bytes 4 LC_DYLD_EXPORTS_TRIE; le_bytes 4 16; le_bytes 4 120; le_bytes 4 11;
          [0; 1; 95; 97; 0; 6; 3; 0; 128; 1; 0]; replicate 5 0].
Definition probe_executable : list Z :=
  concat [le_bytes 4 0xfeedfacf; le_bytes 4 CPU_TYPE_ARM64; le_bytes 4 0; le_bytes 4 MH_EXECUTE;
          le_bytes 4 4; le_bytes 4 192; le_bytes 8 0;
          le_bytes 4 LC_SEGMENT_64; le_bytes 4 72; str_TEXT ++ replicate 10 0;
          le_bytes 8 0x100000000; le_bytes 8 0x4000; le_bytes 8 0; le_bytes 8 253;
          le_bytes 4 5; le_bytes 4 5; le_bytes 8 0;
          le_bytes 4 LC_MAIN; le_bytes 4 24; le_bytes 8 224; le_bytes 8 0;
          le_bytes 4 LC_DYLD_INFO_ONLY; le_bytes 4 48; replicate 8 0; le_bytes 4 240; le_bytes 4 13; replicate 24 0;
          le_bytes 4 LC_LOAD_DYLIB; le_bytes 4 48; le_bytes 4 24; replicate 12 0; str "@executable_path/l"; replicate 6 0;
          le_bytes 8 0xd65f03c0; le_bytes 8 0;
          [0x11; 0x40; 95; 97; 0; 0x51; 0x60; 4; 0x70; 0xe8; 0x01; 0x90; 0]].
Definition probe_files (path : list Z) : option (list Z) :=
  if bool_decide (path = str "/A/x") then Some probe_executable else
  if bool_decide (path = str "/A/l") then Some probe_library else None.
Definition example_probe : Outcome (GuestImage * GuestLinkSet) :=
  guest_probe Some anything probe_files always anything (fun _ _ => true) (fun _ _ => true) anything
    [str "guest_probe"; str "/A/x"; str "--carried-libraries"; str "--validate-fixups"].
Definition result_of (r : Outcome (GuestImage * GuestLinkSet)) : option (nat * list (option Z)) :=
  match r with
  | Goes (image, set) => Some (ls_count set, (fun i => c_byte <$> cell (gi_memory image) (0x1000000e8 + i)) <$> [0; 1; 2; 3; 4; 5; 6; 7])
  | _ => None
  end.
Lemma example_probe_goes : exists image set, example_probe = Goes (image, set) /\ ls_count set = 1%nat /\
  (fun i => c_byte <$> cell (gi_memory image) (0x1000000e8 + i)) <$> [0; 1; 2; 3; 4; 5; 6; 7] = Some <$> le_bytes 8 0x100000084.
Proof.
  assert (result_of example_probe = Some (1%nat, Some <$> le_bytes 8 0x100000084)) as H by (vm_compute; reflexivity).
  destruct example_probe as [status|[image set]|]; try discriminate H.
  unfold result_of in H. apply (inj Some), pair_equal_spec in H as [Hcount Hcells]. by exists image, set.
Qed.
Lemma probe_files_bytes p f : probe_files p = Some f -> Forall byte_ok f.
Proof.
  assert (forall l, forallb (fun b => (0 <=? b) && (b <? 256)) l = true -> Forall byte_ok l) as Hbytes.
  { intros l H. rewrite forallb_forall in H. apply Forall_forall. intros x Hx%list_elem_of_In. specialize (H x Hx).
    unfold byte_ok. lia. }
  unfold probe_files. repeat case_bool_decide; intros [= <-]; apply Hbytes; vm_compute; reflexivity.
Qed.
