(* ===== verification/GuestVMBudget.v ===== *)
(** * GuestVMBudget: counted reservations (runtime/GuestVMBudget.c)

    Large reservations are counted against a budget and mapped smaller than
    asked beyond it; the part that is missing is never touched again. The kernel
    is a class of operations over an abstract state; a call's errno is part of
    its result. Every operation holds the budget's lock from its first access to
    its last and is one transition. *)
From S2P Require Import Prelude.

Definition GV_MAX_REGIONS : nat := 256.
Definition GV_MAX_CLAIMS : nat := 1024.

(** ** Data (GuestVMBudget.h) *)

Record GVRegion := mkRegion { rg_start : Z; rg_end : Z; rg_limit : Z; rg_span : Z }.
Record GVClaim := mkClaim { cl_start : Z; cl_end : Z }.
Record GVBudget := mkBudget {
  bd_budget : Z; bd_threshold : Z; bd_floor : Z; bd_page : Z; bd_reserved : Z;
  bd_regions : list GVRegion;
  bd_claims : list GVClaim
}.
Definition with_regions (b : GVBudget) (regions : list GVRegion) : GVBudget :=
  mkBudget (bd_budget b) (bd_threshold b) (bd_floor b) (bd_page b) (bd_reserved b) regions (bd_claims b).
Definition with_claims (b : GVBudget) (claims : list GVClaim) : GVBudget :=
  mkBudget (bd_budget b) (bd_threshold b) (bd_floor b) (bd_page b) (bd_reserved b) (bd_regions b) claims.
Definition with_reserved (b : GVBudget) (reserved : Z) : GVBudget :=
  mkBudget (bd_budget b) (bd_threshold b) (bd_floor b) (bd_page b) reserved (bd_regions b) (bd_claims b).

Definition gv_init (page bytes threshold floor : Z) : GVBudget :=
  mkBudget bytes (if page <? threshold then threshold else page)
    (if page <? floor then floor - floor mod page else page) page 0 [] [].
Definition gv_enabled (b : option GVBudget) : bool :=
  match b with Some b => negb (bd_budget b =? 0) | None => false end.
Definition gv_counts (b : option GVBudget) (address size flags : Z) : bool :=
  match b with
  | Some budget =>
    gv_enabled b && (address =? 0) && negb (Z.land flags MAP_ANON =? 0) && (Z.land flags MAP_FIXED =? 0) &&
    (bd_threshold budget <=? size)
  | None => false
  end.

(** ** The parts of a range *)

(** The end of the last page of a range, 0 past the address space. *)
Definition page_end (page address size : Z) : Z :=
  let stop := w64 (address + size) in
  let rounded := w64 (stop + (page - 1)) in
  if (stop <? address) || (rounded <? stop) then 0 else rounded - rounded mod page.
Inductive Part := OUTSIDE | GRANTED | GUARD | MISSING.
Definition in_range (x from to : Z) : bool := (from <=? x) && (x <? to).
Definition owns (r : GVRegion) (x : Z) : bool := in_range x (rg_start r) (rg_limit r).
(** The part of the request that was not mapped. *)
Definition lacks (r : GVRegion) (x : Z) : bool := in_range x (rg_limit r) (rg_span r).
Fixpoint find_anchor {A} (bounds : A -> Z * Z) (l : list A) (address : Z) : option (Z * Z) :=
  match l with
  | [] => None
  | x :: l =>
    let '(from, to) := bounds x in
    if in_range address from to then Some (from, to) else find_anchor bounds l address
  end.
Definition anchor_at (b : GVBudget) (address : Z) : Z * Z :=
  match find_anchor (fun r => (rg_start r, rg_limit r)) (bd_regions b) address with
  | Some anchor => anchor
  | None => default (address, address) (find_anchor (fun c => (cl_start c, cl_end c)) (bd_claims b) address)
  end.
(** The first loop of [part]: the missing part at the cursor, with the index of
    its region and its end, or where the next missing part starts. *)
Fixpoint missing_loop (regions : list GVRegion) (i : nat) (cursor stop next : Z) : (nat * Z) + Z :=
  match regions with
  | [] => inr next
  | r :: regions =>
    if lacks r cursor then inl (i, Z.min (rg_span r) stop) else
    missing_loop regions (S i) cursor stop
      (if (cursor <? rg_limit r) && (rg_limit r <? rg_span r) then Z.min next (rg_limit r) else next)
  end.
(** The second: a region's own mapping at the cursor, or what lies before the
    next one. *)
Fixpoint own_loop (regions : list GVRegion) (i : nat) (cursor next : Z) : Part * Z * option nat :=
  match regions with
  | [] => (OUTSIDE, next, None)
  | r :: regions =>
    if owns r cursor then
      (if cursor <? rg_end r then GRANTED else GUARD,
       Z.min (if cursor <? rg_end r then rg_end r else rg_limit r) next, Some i)
    else own_loop regions (S i) cursor (if cursor <? rg_start r then Z.min next (rg_start r) else next)
  end.
Definition part (b : GVBudget) (cursor stop anchor_from anchor_to : Z) : Part * Z * option nat :=
  if in_range cursor anchor_from anchor_to
  then own_loop (bd_regions b) 0 cursor (Z.min stop anchor_to)
  else
    match missing_loop (bd_regions b) 0 cursor stop stop with
    | inl (i, until) => (MISSING, until, Some i)
    | inr next => own_loop (bd_regions b) 0 cursor next
    end.

(** ** The tables *)

(** With no room left each missing part that the mapping meets ends before it. *)
Fixpoint claim_loop (regions : list GVRegion) (address size : Z) (room : bool) : list GVRegion * bool :=
  match regions with
  | [] => ([], false)
  | r :: regions =>
    if (w64 (address + size) <=? rg_limit r) || (rg_span r <=? address)
    then let '(regions, found) := claim_loop regions address size room in (r :: regions, found)
    else if room then (r :: regions, true)
    else
      let span := if rg_limit r <? address then address else rg_limit r in
      let '(regions, found) := claim_loop regions address size room in
      (mkRegion (rg_start r) (rg_end r) (rg_limit r) span :: regions, found)
  end.
Definition claim (b : GVBudget) (address size : Z) : GVBudget :=
  let '(regions, found) := claim_loop (bd_regions b) address size (length (bd_claims b) <? GV_MAX_CLAIMS)%nat in
  let b := with_regions b regions in
  if found then with_claims b (bd_claims b ++ [mkClaim address (page_end (bd_page b) address size)]) else b.
(** An entry of a table is replaced by the last, which goes. *)
Definition swap_remove {A} (i : nat) (l : list A) : list A :=
  match last l with
  | Some x => take (length l - 1) (<[i := x]> l)
  | None => []
  end.
Definition shrink_claim (from to : Z) (c : GVClaim) : GVClaim :=
  if (from <=? cl_start c) && (cl_start c <? to) then mkClaim to (cl_end c)
  else if (from <? cl_end c) && (cl_end c <=? to) then mkClaim (cl_start c) from
  else c.
Fixpoint unclaim_loop (fuel i : nat) (claims : list GVClaim) (from to : Z) : list GVClaim :=
  match fuel with
  | O => claims
  | S fuel =>
    match claims !! i with
    | None => claims
    | Some c =>
      if (from <=? cl_start c) && (cl_end c <=? to)
      then unclaim_loop fuel i (swap_remove i claims) from to
      else unclaim_loop fuel (S i) (<[i := shrink_claim from to c]> claims) from to
    end
  end.
Definition unclaim (b : GVBudget) (from to : Z) : GVBudget :=
  with_claims b (unclaim_loop (S (length (bd_claims b))) 0 (bd_claims b) from to).
Definition forget (b : GVBudget) (i : nat) (from to : Z) : GVBudget :=
  match bd_regions b !! i with
  | None => b
  | Some r =>
    let stop := if rg_end r <? to then to else rg_end r in
    let released regions := with_reserved (with_regions b regions) (w64 (bd_reserved b - (to - from))) in
    if from <=? rg_start r
    then released (<[i := mkRegion to stop (rg_limit r) (rg_span r)]> (bd_regions b))
    else if rg_limit r <=? to
    then released (<[i := mkRegion (rg_start r) (if from <? rg_end r then from else rg_end r) from (rg_span r)]> (bd_regions b))
    else if (length (bd_regions b) <? GV_MAX_REGIONS)%nat
    then released (<[i := mkRegion to stop (rg_limit r) (rg_span r)]> (bd_regions b) ++
                   [mkRegion (rg_start r) (Z.min (rg_end r) from) from from])
    else b
  end.
Fixpoint sweep_loop (fuel i : nat) (b : GVBudget) : GVBudget :=
  match fuel with
  | O => b
  | S fuel =>
    match bd_regions b !! i with
    | None => b
    | Some r =>
      if rg_start r <? rg_limit r then sweep_loop fuel (S i) b else
      let b := unclaim b (rg_limit r) (rg_span r) in
      sweep_loop fuel i (with_regions b (swap_remove i (bd_regions b)))
    end
  end.
Definition sweep (b : GVBudget) : GVBudget := sweep_loop (S (length (bd_regions b))) 0 b.

(** ** The kernel *)

(** [mmap] answers an address or an errno, the others an errno when they fail;
    [vm_region_64] answers the first mapping that ends above an address. *)
Class Kernel (K : Type) := {
  k_mmap : K -> Z -> Z -> Z -> Z -> Z -> Z -> (Z + Z) * K;
  k_munmap : K -> Z -> Z -> option Z * K;
  k_mprotect : K -> Z -> Z -> Z -> option Z * K;
  k_madvise : K -> Z -> Z -> Z -> option Z * K;
  k_region : K -> Z -> option (Z * Z);
  k_header : Z
}.

Section operations.
Context {K : Type} `{!Kernel K}.

Definition unmapped (k : K) (from size : Z) : bool :=
  match k_region k from with
  | None => true
  | Some (address, _) => w64 (from + size) <=? address
  end.
Definition overlaps_reservation (b : GVBudget) (from size : Z) : bool :=
  let stop := page_end (bd_page b) from size in
  (stop =? 0) || existsb (fun r => (from <? rg_span r) && (rg_start r <? stop)) (bd_regions b).
Definition next_free (regions : list GVRegion) (from size : Z) : Z :=
  fold_left (fun next r =>
    if (from <? rg_span r) && (rg_start r <? w64 (from + size)) && (next <? rg_span r) then rg_span r else next)
    regions from.
Fixpoint free_span_loop (steps : nat) (b : GVBudget) (k : K) (from size : Z) : Z :=
  match steps with
  | O => 0
  | S steps =>
    if negb (from <? w64 (from + size)) then 0 else
    let next := next_free (bd_regions b) from size in
    if negb (next =? from) then free_span_loop steps b k next size else
    match k_region k from with
    | None => from
    | Some (address, length) =>
      if w64 (from + size) <=? address then from
      else free_span_loop steps b k (w64 (address + length)) size
    end
  end.
Definition free_span (b : GVBudget) (k : K) (from size : Z) : Z := free_span_loop (Z.to_nat 4096) b k from size.

(** ** Reservations *)

(** The first size to ask for. *)
Definition wanted (b : GVBudget) (size : Z) : Z :=
  let room := if bd_reserved b <? bd_budget b then bd_budget b - bd_reserved b else 0 in
  let want := if room <? size then (if bd_floor b <? room then room else bd_floor b) else size in
  let want := if size <? want then size else want in
  if want <? size then want - want mod bd_page b else want.
Definition with_guard (page want size : Z) : Z := if want <? size then w64 (want + page) else want.
(** The size is halved while the kernel has no memory for it. *)
Fixpoint reserve_loop (fuel : nat) (page : Z) (k : K) (size want prot flags fd : Z) : option ((Z + Z) * Z * K) :=
  match fuel with
  | O => None
  | S fuel =>
    let '(result, k) := k_mmap k 0 (with_guard page want size) prot flags fd 0 in
    match result with
    | inl address => Some (inl address, want, k)
    | inr errno =>
      if negb (errno =? ENOMEM) || (want <=? page) then Some (inr errno, want, k) else
      let half := want / 2 - (want / 2) mod page in
      reserve_loop fuel page k size (if half <? page then page else half) prot flags fd
    end
  end.
(** Sizes are below 2^64: 65 turns always suffice. *)
Definition RESERVE_FUEL : nat := 66.
(** A place whose whole request is free and no other reservation's. *)
Definition relocate (b : GVBudget) (k : K) (result size mapped prot flags fd : Z) : option Z * K :=
  let hole := free_span b k k_header size in
  let '(moved, k) := if hole =? 0 then (inr ENOMEM, k) else k_mmap k hole mapped prot flags fd 0 in
  match moved with
  | inl address =>
    if address =? hole then (Some hole, snd (k_munmap k result mapped))
    else (None, snd (k_munmap (snd (k_munmap k address mapped)) result mapped))
  | inr _ => (None, snd (k_munmap k result mapped))
  end.
(** The region of a placed reservation, which ends in a guard page when it was
    shortened. *)
Definition region_of (b : GVBudget) (start want size : Z) : GVRegion :=
  let own := page_end (bd_page b) start want in
  if want <? size then
    let limit := w64 (own + bd_page b) in
    let asked := page_end (bd_page b) start size in
    mkRegion start own limit (if limit <? asked then asked else limit)
  else mkRegion start own own own.
Definition enter (b : GVBudget) (start want size : Z) : GVBudget :=
  let region := region_of b start want size in
  with_reserved (with_regions b (bd_regions b ++ [region])) (w64 (bd_reserved b + (rg_limit region - start))).
(** The mapping or an errno, the bytes granted, and the new states. *)
Definition gv_reserve (b : GVBudget) (k : K) (size prot flags fd : Z) : option ((Z + Z) * Z * GVBudget * K) :=
  let page := bd_page b in
  if (length (bd_regions b) =? GV_MAX_REGIONS)%nat then
    let '(result, k) := k_mmap k 0 size prot flags fd 0 in
    match result with
    | inl address => Some (result, size, claim b address size, k)
    | inr _ => Some (result, 0, b, k)
    end
  else
    '(result, want, k) ← reserve_loop RESERVE_FUEL page k size (wanted b size) prot flags fd;
    match result with
    | inr _ => Some (result, 0, b, k)
    | inl address =>
      let mapped := with_guard page want size in
      let asked := page_end page address size in
      let past := w64 (address + mapped) in
      let '(start, k) :=
        if overlaps_reservation b address size ||
           ((want <? size) && (past <? asked) && negb (unmapped k past (asked - address - mapped)))
        then relocate b k address size mapped prot flags fd
        else (Some address, k) in
      match start with
      | None => Some (inr ENOMEM, 0, b, k)
      | Some start =>
        let k := if want <? size then snd (k_mprotect k (page_end page start want) page PROT_NONE) else k in
        Some (inl start, want, enter b start want size, k)
      end
    end.

(** ** Other mappings *)

Definition denied (kind : Part) : bool := match kind with GUARD | MISSING => true | _ => false end.
(** Whether [[cursor, stop)] reaches a guard page or a missing part. *)
Fixpoint reaches_loop (fuel : nat) (b : GVBudget) (cursor stop from to : Z) : option bool :=
  match fuel with
  | O => None
  | S fuel =>
    if negb (cursor <? stop) then Some false else
    let '(kind, until, _) := part b cursor stop from to in
    if denied kind then Some true else reaches_loop fuel b until stop from to
  end.
(** A piece ends at a boundary of a region, of the anchor or of the range. *)
Definition turns (b : GVBudget) : nat := (4 * length (bd_regions b) + 3)%nat.
Definition gv_map (b : GVBudget) (k : K) (address size prot flags fd offset : Z) : option ((Z + Z) * GVBudget * K) :=
  if negb (gv_enabled (Some b)) then let '(result, k) := k_mmap k address size prot flags fd offset in Some (result, b, k) else
  let '(from, to) := anchor_at b address in
  missing ← if address =? 0 then Some false else reaches_loop (turns b) b address (w64 (address + size)) from to;
  if missing && negb (Z.land flags MAP_FIXED =? 0) then Some (inr ENOMEM, b, k) else
  let '(result, k) := k_mmap k (if missing then 0 else address) size prot flags fd offset in
  Some (result, match result with inl a => claim b a size | inr _ => b end, k).

(** ** munmap, mprotect and madvise *)

Inductive Operation := UNMAP | PROTECT | ADVISE.
Definition is_unmap (operation : Operation) : bool := match operation with UNMAP => true | _ => false end.
Definition is_protect (operation : Operation) : bool := match operation with PROTECT => true | _ => false end.
Definition call (operation : Operation) (k : K) (address size value : Z) : option Z * K :=
  match operation with
  | UNMAP => k_munmap k address size
  | PROTECT => k_mprotect k address size value
  | ADVISE => k_madvise k address size value
  end.
Definition skipped (operation : Operation) (kind : Part) : bool :=
  match kind with MISSING => true | GUARD => negb (is_unmap operation) | _ => false end.
Definition released (operation : Operation) (b : GVBudget) (region : option nat) (cursor until : Z) : GVBudget :=
  if is_unmap operation then
    match region with
    | Some i => forget b i cursor until
    | None => unclaim b cursor until
    end
  else b.
Fixpoint apply_loop (fuel : nat) (operation : Operation) (value : Z) (b : GVBudget) (k : K) (cursor stop from to : Z)
    (code : option Z) : option (option Z * GVBudget * K) :=
  match fuel with
  | O => None
  | S fuel =>
    if negb (cursor <? stop) then Some (code, b, k) else
    let '(kind, until, region) := part b cursor stop from to in
    if skipped operation kind then apply_loop fuel operation value b k until stop from to code else
    let '(done, k) := call operation k cursor (until - cursor) value in
    match done with
    | Some errno => apply_loop fuel operation value b k until stop from to (Some errno)
    | None => apply_loop fuel operation value (released operation b region cursor until) k until stop from to code
    end
  end.
(** The errno when the call fails, and the new states. *)
Definition apply (b : GVBudget) (k : K) (operation : Operation) (address size value : Z) : option (option Z * GVBudget * K) :=
  let stop := page_end (bd_page b) address size in
  if size =? 0 then let '(done, k) := call operation k address size value in Some (done, b, k) else
  if (stop =? 0) || negb (address mod bd_page b =? 0) then Some (Some EINVAL, b, k) else
  let '(from, to) := anchor_at b address in
  denied ← if is_protect operation && negb (value =? PROT_NONE) then reaches_loop (turns b) b address stop from to
           else Some false;
  if denied : bool then Some (Some ENOMEM, b, k) else
  '(code, b, k) ← apply_loop (turns b) operation value b k address stop from to None;
  Some (code, if is_unmap operation then sweep b else b, k).
Definition gv_call (operation : Operation) (b : GVBudget) (k : K) (address size value : Z) : option (option Z * GVBudget * K) :=
  if gv_enabled (Some b) then apply b k operation address size value
  else let '(done, k) := call operation k address size value in Some (done, b, k).
Definition gv_unmap (b : GVBudget) (k : K) (address size : Z) := gv_call UNMAP b k address size 0.
Definition gv_protect (b : GVBudget) (k : K) (address size prot : Z) := gv_call PROTECT b k address size prot.
Definition gv_advise (b : GVBudget) (k : K) (address size advice : Z) := gv_call ADVISE b k address size advice.
End operations.

(** A kernel that places mappings upwards and remembers its calls. *)
Record Log := mkLog { lg_next : Z; lg_calls : list (Operation * Z * Z) }.
#[export] Instance log_kernel : Kernel Log := {
  k_mmap k address size _ _ _ _ :=
    let r := if address =? 0 then lg_next k else address in
    if (r mod 0x4000 =? 0) && (0 <=? r) && (r + size <=? 2 ^ 47)
    then (inl r, mkLog (Z.max (lg_next k) (r + (size + 0x3fff) / 0x4000 * 0x4000)) (lg_calls k))
    else (inr ENOMEM, k);
  k_munmap k address size := (None, mkLog (lg_next k) (lg_calls k ++ [(UNMAP, address, size)]));
  k_mprotect k address size _ := (None, mkLog (lg_next k) (lg_calls k ++ [(PROTECT, address, size)]));
  k_madvise k address size _ := (None, mkLog (lg_next k) (lg_calls k ++ [(ADVISE, address, size)]));
  k_region k address := None;
  k_header := 0x100000000
}.
Definition example_budget : GVBudget := gv_init 0x4000 0x400000 0x100000 0x100000.
Definition example_reserved : option ((Z + Z) * Z * GVBudget * Log) :=
  gv_reserve example_budget (mkLog 0x200000000 []) 0x200000 3 0x1002 (-1).
Example reserve_whole :
  exists k, example_reserved = Some (inl 0x200000000, 0x200000,
    mkBudget 0x400000 0x100000 0x100000 0x4000 0x200000 [mkRegion 0x200000000 0x200200000 0x200200000 0x200200000] [], k).
Proof. eexists. vm_compute. reflexivity. Qed.

#[local] Arguments in_range : simpl never.

(** ** What a byte of a range is *)

Fixpoint own_class (regions : list GVRegion) (x : Z) : Part :=
  match regions with
  | [] => OUTSIDE
  | r :: regions => if owns r x then if x <? rg_end r then GRANTED else GUARD else own_class regions x
  end.
Definition lacking (regions : list GVRegion) (x : Z) : bool := existsb (fun r => lacks r x) regions.
(** Relative to the operation's anchor [[from, to)]. *)
Definition class (regions : list GVRegion) (from to x : Z) : Part :=
  if in_range x from to then own_class regions x
  else if lacking regions x then MISSING else own_class regions x.

Record ordered (r : GVRegion) : Prop := {
  or_start : rg_start r <= rg_end r; or_end : rg_end r <= rg_limit r; or_limit : rg_limit r <= rg_span r
}.
Lemma in_range_spec x from to : in_range x from to = true <-> from <= x < to.
Proof. unfold in_range. rewrite andb_true_iff, Z.leb_le, Z.ltb_lt. done. Qed.
Lemma in_range_false x from to : in_range x from to = false <-> x < from \/ to <= x.
Proof. rewrite <- not_true_iff_false, in_range_spec. lia. Qed.

Lemma own_loop_class regions i cursor next kind until region :
  Forall ordered regions -> cursor < next -> own_loop regions i cursor next = (kind, until, region) ->
  cursor < until <= next /\ (forall x, cursor <= x < until -> own_class regions x = kind) /\
  kind <> MISSING /\
  match region with
  | Some j => exists r, (i <= j)%nat /\ regions !! (j - i)%nat = Some r /\ rg_start r <= cursor /\ until <= rg_limit r
  | None => kind = OUTSIDE
  end.
Proof.
  revert i next. induction regions as [|r regions IH]; intros i next Hok Hnext; cbn [own_loop].
  { intros [= <- <- <-]. split_and!; [lia|lia|done|done|done]. }
  apply Forall_cons in Hok as [[Hstart Hend Hlimit] Hok]. destruct (owns r cursor) eqn:Howns.
  - apply in_range_spec in Howns.
    assert (Hself : (r :: regions) !! (i - i)%nat = Some r) by (by rewrite Nat.sub_diag).
    destruct (cursor <? rg_end r) eqn:Hgranted; bool_props; intros [= <- <- <-].
    + split_and!; [lia|lia| |done|by exists r; split_and!; [lia|done|lia|lia]].
      intros x Hx. cbn [own_class]; unfold owns. rewrite (proj2 (in_range_spec _ _ _)) by lia. by rewrite (proj2 (Z.ltb_lt _ _)) by lia.
    + split_and!; [lia|lia| |done|by exists r; split_and!; [lia|done|lia|lia]].
      intros x Hx. cbn [own_class]; unfold owns. rewrite (proj2 (in_range_spec _ _ _)) by lia. by rewrite (proj2 (Z.ltb_ge _ _)) by lia.
  - intros Hrun. apply in_range_false in Howns.
    assert (Hnext1 : cursor < (if cursor <? rg_start r then Z.min next (rg_start r) else next)).
    { destruct (cursor <? rg_start r) eqn:E; bool_props; lia. }
    destruct (IH (S i) _ Hok Hnext1 Hrun) as (Huntil & Hclass & Hkind & Hregion).
    assert (Hle : until <= next) by (destruct (cursor <? rg_start r); lia).
    split_and!; [lia|lia| |done|].
    + intros x Hx. cbn [own_class]; unfold owns. rewrite (proj2 (in_range_false _ _ _)); [by apply Hclass|].
      destruct (cursor <? rg_start r) eqn:E; bool_props; lia.
    + destruct region as [j|]; [|done]. destruct Hregion as (r' & Hj & Hr' & ?). exists r'.
      replace (j - i)%nat with (S (j - S i)) by lia. split_and!; [lia|done|lia|lia].
Qed.
Lemma missing_loop_class regions i cursor stop next :
  cursor < next -> next <= stop ->
  match missing_loop regions i cursor stop next with
  | inl (_, until) => cursor < until <= stop /\ forall x, cursor <= x < until -> lacking regions x = true
  | inr next' => cursor < next' <= next /\ forall x, cursor <= x < next' -> lacking regions x = false
  end.
Proof.
  revert i next. induction regions as [|r regions IH]; intros i next Hnext Hstop; cbn [missing_loop].
  { split; [lia|done]. }
  destruct (lacks r cursor) eqn:Hlacks.
  - apply in_range_spec in Hlacks. split; [lia|]. intros x Hx. unfold lacking. cbn [existsb]. unfold lacks.
    by rewrite (proj2 (in_range_spec _ _ _)) by lia.
  - apply in_range_false in Hlacks.
    set (next1 := if (cursor <? rg_limit r) && (rg_limit r <? rg_span r) then Z.min next (rg_limit r) else next).
    assert (Hnext1 : cursor < next1 <= next /\ forall x, cursor <= x < next1 -> lacks r x = false).
    { subst next1. destruct (cursor <? rg_limit r) eqn:E1, (rg_limit r <? rg_span r) eqn:E2; bool_props; cbn;
        (split; [lia|]; intros x Hx; apply in_range_false; lia). }
    destruct Hnext1 as [Hbounds Hr]. specialize (IH (S i) next1 ltac:(lia) ltac:(lia)).
    destruct (missing_loop regions (S i) cursor stop next1) as [[j until]|next2].
    + destruct IH as [? Hall]. split; [done|]. intros x Hx. unfold lacking. cbn [existsb]. apply orb_true_iff. right. by apply Hall.
    + destruct IH as [? Hall]. split; [lia|]. intros x Hx. unfold lacking. cbn [existsb]. apply orb_false_iff. split; [apply Hr; lia|by apply Hall].
Qed.
(** A piece is not empty, and its bytes are all of its kind. *)
Lemma part_class b cursor stop from to kind until region :
  Forall ordered (bd_regions b) -> cursor < stop -> from <= cursor ->
  part b cursor stop from to = (kind, until, region) ->
  cursor < until <= stop /\ (forall x, cursor <= x < until -> class (bd_regions b) from to x = kind) /\
  (kind <> MISSING -> match region with
   | Some i => exists r, bd_regions b !! i = Some r /\ rg_start r <= cursor /\ until <= rg_limit r
   | None => True
   end).
Proof.
  intros Hok Hstop Hfrom. unfold part, class. destruct (in_range cursor from to) eqn:Hanchor.
  - apply in_range_spec in Hanchor. intros Hrun.
    destruct (own_loop_class (bd_regions b) 0 cursor (Z.min stop to) _ _ _ Hok ltac:(lia) Hrun) as (Huntil & Hclass & _ & Hregion).
    split_and!; [lia|lia| |].
    + intros x Hx. rewrite (proj2 (in_range_spec _ _ _)) by lia. by apply Hclass.
    + intros _. destruct region as [i|]; [|done]. destruct Hregion as (r & _ & Hr & ?). rewrite Nat.sub_0_r in Hr. by exists r.
  - apply in_range_false in Hanchor. pose proof (missing_loop_class (bd_regions b) 0 cursor stop stop ltac:(lia) ltac:(lia)) as Hmissing.
    destruct (missing_loop (bd_regions b) 0 cursor stop stop) as [[j until']|next].
    + intros [= <- <- <-]. destruct Hmissing as [? Hall]. split_and!; [lia|lia| |done].
      intros x Hx. rewrite (proj2 (in_range_false _ _ _)) by lia. by rewrite Hall.
    + destruct Hmissing as [Hnext Hall]. intros Hrun.
      destruct (own_loop_class (bd_regions b) 0 cursor next _ _ _ Hok ltac:(lia) Hrun) as (Huntil & Hclass & _ & Hregion).
      split_and!; [lia|lia| |].
      * intros x Hx. rewrite (proj2 (in_range_false _ _ _)) by lia. rewrite Hall by lia. by apply Hclass.
      * intros _. destruct region as [i|]; [|done]. destruct Hregion as (r & _ & Hr & ?). rewrite Nat.sub_0_r in Hr. by exists r.
Qed.

(** ** Sums over a table *)

Fixpoint tally {A} (f : A -> Z) (l : list A) : Z :=
  match l with
  | [] => 0
  | x :: l => f x + tally f l
  end.

Lemma tally_app {A} (f : A -> Z) l1 l2 : tally f (l1 ++ l2) = tally f l1 + tally f l2.
Proof. induction l1; cbn in *; lia. Qed.
Lemma tally_insert {A} (f : A -> Z) l i x y : l !! i = Some x -> tally f (<[i := y]> l) = tally f l - f x + f y.
Proof.
  revert i. induction l as [|z l IH]; intros [|i] Hi; [done|done| |].
  - injection Hi as ->. cbn. lia.
  - change (<[S i:=y]> (z :: l)) with (z :: <[i:=y]> l). cbn [tally]. rewrite (IH i Hi). lia.
Qed.
Lemma tally_range {A} (f : A -> Z) l bound :
  (forall x, x ∈ l -> 0 <= f x <= bound) -> 0 <= tally f l <= Z.of_nat (length l) * bound.
Proof.
  induction l as [|x l IH]; intros Hl; cbn [tally length] in *; [lia|].
  pose proof (Hl x ltac:(by left)). specialize (IH ltac:(intros y Hy; apply Hl; by right)). lia.
Qed.
Lemma tally_lt {A} (f g : A -> Z) l x :
  (forall y, y ∈ l -> f y <= g y) -> x ∈ l -> f x < g x -> tally f l < tally g l.
Proof.
  intros Hall Hx Hlt. assert (Hle : forall l', (forall y, y ∈ l' -> f y <= g y) -> tally f l' <= tally g l').
  { induction l' as [|y l' IH]; intros H; cbn; [done|]. pose proof (H y ltac:(by left)).
    specialize (IH ltac:(intros z Hz; apply H; by right)). lia. }
  apply list_elem_of_split in Hx as (l1 & l2 & ->). rewrite !tally_app. cbn [tally].
  pose proof (Hle l1 ltac:(intros y Hy; apply Hall, elem_of_app; by left)).
  pose proof (Hle l2 ltac:(intros y Hy; apply Hall, elem_of_app; right; by right)). lia.
Qed.
Lemma swap_remove_lookup {A} i (l : list A) j x :
  (i < length l)%nat -> swap_remove i l !! j = Some x ->
  (j < length l - 1)%nat /\ l !! (if decide (j = i) then length l - 1 else j)%nat = Some x.
Proof.
  intros Hi. unfold swap_remove. rewrite last_lookup. replace (Nat.pred (length l)) with (length l - 1)%nat by lia.
  destruct (lookup_lt_is_Some_2 l (length l - 1) ltac:(lia)) as [y Hy]. rewrite Hy. intros H.
  apply lookup_take_Some in H as [H Hj]. split; [done|]. destruct (decide (j = i)) as [->|Hne].
  - rewrite list_lookup_insert_eq in H by lia. congruence.
  - by rewrite list_lookup_insert_ne in H.
Qed.
Lemma length_swap_remove {A} i (l : list A) : (i < length l)%nat -> length (swap_remove i l) = (length l - 1)%nat.
Proof.
  intros Hi. unfold swap_remove. destruct (last l) as [x|] eqn:E; [rewrite length_take, length_insert; lia|].
  apply last_None in E. subst. cbn in *. lia.
Qed.
Lemma tally_swap_remove {A} (f : A -> Z) i l x : l !! i = Some x -> tally f (swap_remove i l) = tally f l - f x.
Proof.
  intros Hi. pose proof (lookup_lt_Some _ _ _ Hi) as Hlt. unfold swap_remove.
  destruct (last l) as [y|] eqn:Hlast; [|apply last_None in Hlast; by subst].
  apply last_Some in Hlast as [l' ->]. rewrite length_app in *. cbn [length] in *.
  replace (length l' + 1 - 1)%nat with (length l') by lia.
  destruct (decide (i = length l')) as [->|Hne].
  - rewrite lookup_app_r, Nat.sub_diag in Hi by lia. cbn in Hi. injection Hi as ->.
    rewrite take_insert by lia. rewrite decide_False by lia. rewrite take_app_length, tally_app. cbn. lia.
  - rewrite lookup_app_l in Hi by lia. rewrite insert_app_l by lia. rewrite <- (length_insert l' i y), take_app_length, tally_app, (tally_insert f l' i x y Hi).
    cbn. lia.
Qed.
Lemma Forall_swap_remove {A} (P : A -> Prop) i l : (i < length l)%nat -> Forall P l -> Forall P (swap_remove i l).
Proof.
  rewrite !Forall_lookup. intros Hi Hall j x Hj. apply swap_remove_lookup in Hj as [_ Hj]; [|done]. by eapply Hall.
Qed.

(** ** The pieces come to an end *)

Definition bound_of (r : GVRegion) (x : Z) : Prop := x = rg_start r \/ x = rg_end r \/ x = rg_limit r \/ x = rg_span r.
Lemma own_loop_until regions i cursor next kind until region :
  own_loop regions i cursor next = (kind, until, region) ->
  until = next \/ exists r, r ∈ regions /\ bound_of r until.
Proof.
  revert i next. induction regions as [|r regions IH]; intros i next; cbn [own_loop]; [intros [= _ <- _]; by left|].
  destruct (owns r cursor).
  - intros [= _ <- _].
    destruct (Z.min_spec (if cursor <? rg_end r then rg_end r else rg_limit r) next) as [[_ ->]|[_ ->]]; [|by left].
    right. exists r. split; [by left|]. unfold bound_of. destruct (cursor <? rg_end r); tauto.
  - intros Hrun. apply IH in Hrun as [->|(r' & Hin & Hb)]; [|right; exists r'; split; [by right|done]].
    destruct (cursor <? rg_start r); [|by left]. destruct (Z.min_spec next (rg_start r)) as [[_ ->]|[_ ->]]; [by left|].
    right. exists r. split; [by left|by left].
Qed.
Lemma missing_loop_until regions i cursor stop next until :
  match missing_loop regions i cursor stop next with inl (_, u) => u = until | inr u => u = until end ->
  until = stop \/ until = next \/ exists r, r ∈ regions /\ bound_of r until.
Proof.
  revert i next. induction regions as [|r regions IH]; intros i next; cbn [missing_loop]; [intros <-; tauto|].
  destruct (lacks r cursor).
  - intros <-. destruct (Z.min_spec (rg_span r) stop) as [[_ ->]|[_ ->]]; [|by left].
    right; right. exists r. split; [by left|]. unfold bound_of. tauto.
  - intros Hrun. apply IH in Hrun as [->|[->|(r' & Hin & Hb)]]; [by left| |do 2 right; exists r'; split; [by right|done]].
    destruct (_ && _); [|tauto]. destruct (Z.min_spec next (rg_limit r)) as [[_ ->]|[_ ->]]; [tauto|].
    do 2 right. exists r. split; [by left|]. unfold bound_of. tauto.
Qed.
Lemma part_until b cursor stop from to kind until region :
  part b cursor stop from to = (kind, until, region) ->
  until = stop \/ until = to \/ exists r, r ∈ bd_regions b /\ bound_of r until.
Proof.
  unfold part. destruct (in_range cursor from to).
  - intros Hrun. apply own_loop_until in Hrun as [->|?]; [|tauto]. destruct (Z.min_spec stop to) as [[_ ->]|[_ ->]]; tauto.
  - pose proof (missing_loop_until (bd_regions b) 0 cursor stop stop) as Hmissing.
    destruct (missing_loop (bd_regions b) 0 cursor stop stop) as [[j until']|next].
    + intros [= _ <- _]. destruct (Hmissing until' eq_refl) as [?|[?|?]]; tauto.
    + intros Hrun. apply own_loop_until in Hrun as [->|?]; [|tauto]. destruct (Hmissing next eq_refl) as [?|[?|?]]; tauto.
Qed.
(** How many boundaries lie above the cursor. *)
Definition past (cursor x : Z) : Z := if cursor <? x then 1 else 0.
Definition bounds_past (cursor : Z) (r : GVRegion) : Z :=
  past cursor (rg_start r) + past cursor (rg_end r) + past cursor (rg_limit r) + past cursor (rg_span r).
Definition remaining (regions : list GVRegion) (stop to cursor : Z) : Z :=
  past cursor stop + past cursor to + tally (bounds_past cursor) regions.
Ltac past_cases :=
  repeat match goal with
  | |- context [past ?c ?x] => unfold past at 1; let E := fresh in destruct (Z.ltb_spec c x) as [E|E]
  | H : context [past ?c ?x] |- _ => unfold past at 1 in H; let E := fresh in destruct (Z.ltb_spec c x) as [E|E]
  end; try lia.
Lemma past_le c c' x : c <= c' -> past c' x <= past c x.
Proof. intros. past_cases. Qed.
Lemma bounds_past_le c c' r : c <= c' -> bounds_past c' r <= bounds_past c r.
Proof.
  intros Hle. unfold bounds_past. pose proof (past_le c c' (rg_start r) Hle). pose proof (past_le c c' (rg_end r) Hle).
  pose proof (past_le c c' (rg_limit r) Hle). pose proof (past_le c c' (rg_span r) Hle). lia.
Qed.
Lemma past_self c x : c < x -> past x x < past c x.
Proof. intros. past_cases. Qed.
Lemma remaining_range regions stop to cursor : 0 <= remaining regions stop to cursor <= 4 * Z.of_nat (length regions) + 2.
Proof.
  unfold remaining. pose proof (tally_range (bounds_past cursor) regions 4) as H.
  destruct H; [intros r _; unfold bounds_past; past_cases|]. past_cases.
Qed.
Lemma remaining_part b cursor stop from to kind until region :
  part b cursor stop from to = (kind, until, region) -> cursor < until ->
  remaining (bd_regions b) stop to until < remaining (bd_regions b) stop to cursor.
Proof.
  intros Hpart Hlt. pose proof (past_le cursor until stop ltac:(lia)). pose proof (past_le cursor until to ltac:(lia)).
  assert (Hle : forall r, r ∈ bd_regions b -> bounds_past until r <= bounds_past cursor r) by (intros; apply bounds_past_le; lia).
  assert (Htally : tally (bounds_past until) (bd_regions b) <= tally (bounds_past cursor) (bd_regions b)).
  { revert Hle. generalize (bd_regions b). intros l. induction l as [|r l IH]; intros Hle; cbn; [done|].
    pose proof (Hle r ltac:(by left)). specialize (IH ltac:(intros r' Hr'; apply Hle; by right)). lia. }
  unfold remaining. apply part_until in Hpart as [->|[->|(r & Hr & Hb)]].
  - pose proof (past_self cursor stop Hlt). lia.
  - pose proof (past_self cursor to Hlt). lia.
  - assert (tally (bounds_past until) (bd_regions b) < tally (bounds_past cursor) (bd_regions b)); [|lia].
    apply (tally_lt _ _ _ r); [done|done|]. unfold bounds_past.
    pose proof (past_le cursor until (rg_start r) ltac:(lia)). pose proof (past_le cursor until (rg_end r) ltac:(lia)).
    pose proof (past_le cursor until (rg_limit r) ltac:(lia)). pose proof (past_le cursor until (rg_span r) ltac:(lia)).
    destruct Hb as [Hb|[Hb|[Hb|Hb]]]; rewrite <- Hb in *; pose proof (past_self cursor until Hlt); lia.
Qed.

(** ** Well-formed budgets *)

Definition own_size (r : GVRegion) : Z := rg_limit r - rg_start r.
(** Addresses are far below 2^64, so that no sum here wraps. *)
Record region_ok (page : Z) (r : GVRegion) : Prop := {
  ro_ordered : ordered r;
  ro_start : 0 <= rg_start r;
  ro_limit : rg_limit r <= 2 ^ 48;
  ro_span : rg_span r < 2 ^ 64;
  ro_aligned : rg_start r mod page = 0 /\ rg_end r mod page = 0 /\ rg_limit r mod page = 0 /\ rg_span r mod page = 0
}.
Definition claim_ok (page : Z) (c : GVClaim) : Prop := cl_start c mod page = 0 /\ cl_end c mod page = 0.
(** What the application asked for in one region lies outside the other's. *)
Definition apart (r r' : GVRegion) : Prop := rg_span r <= rg_start r' \/ rg_span r' <= rg_start r.
Definition disjoint_regions (l : list GVRegion) : Prop :=
  forall i j r r', i <> j -> l !! i = Some r -> l !! j = Some r' -> apart r r'.
Record budget_wf (b : GVBudget) : Prop := {
  bw_page : 0 < bd_page b <= 2 ^ 40;
  bw_floor : 0 < bd_floor b <= 2 ^ 48 /\ bd_floor b mod bd_page b = 0;
  bw_budget : 0 <= bd_budget b <= 2 ^ 48;
  bw_count : (length (bd_regions b) <= GV_MAX_REGIONS)%nat;
  bw_claim_count : (length (bd_claims b) <= GV_MAX_CLAIMS)%nat;
  bw_regions : Forall (region_ok (bd_page b)) (bd_regions b);
  bw_claims : Forall (claim_ok (bd_page b)) (bd_claims b);
  bw_disjoint : disjoint_regions (bd_regions b);
  bw_reserved : bd_reserved b = tally own_size (bd_regions b)
}.

Lemma apart_narrow r r' r'' : rg_start r <= rg_start r' -> rg_span r' <= rg_span r -> apart r r'' -> apart r' r''.
Proof. unfold apart. lia. Qed.
Lemma apart_sym r r' : apart r r' -> apart r' r.
Proof. unfold apart. lia. Qed.
Lemma disjoint_insert l i r r' :
  disjoint_regions l -> l !! i = Some r -> rg_start r <= rg_start r' -> rg_span r' <= rg_span r ->
  disjoint_regions (<[i := r']> l).
Proof.
  intros Hl Hi Hstart Hspan j k x y Hne Hj Hk. pose proof (lookup_lt_Some _ _ _ Hi).
  apply list_lookup_insert_Some in Hj as [(-> & <- & _)|[Hij Hj]];
    apply list_lookup_insert_Some in Hk as [(-> & <- & _)|[Hik Hk]]; [done| | |by eapply (Hl j k)].
  - eapply apart_narrow; [done|done|]. by eapply (Hl j k).
  - apply apart_sym. eapply apart_narrow; [done|done|]. by eapply (Hl k j).
Qed.
Lemma disjoint_app l r : disjoint_regions l -> (forall i r', l !! i = Some r' -> apart r r') -> disjoint_regions (l ++ [r]).
Proof.
  intros Hl Hr j k x y Hne Hj Hk.
  apply lookup_app_Some in Hj as [Hj|[Hj Hx]]; apply lookup_app_Some in Hk as [Hk|[Hk Hy]].
  - by eapply (Hl j k).
  - apply list_lookup_singleton_Some in Hy as [? <-]. by eapply apart_sym, Hr.
  - apply list_lookup_singleton_Some in Hx as [? <-]. by eapply Hr.
  - apply list_lookup_singleton_Some in Hx as [? <-]. apply list_lookup_singleton_Some in Hy as [? <-]. lia.
Qed.
Lemma disjoint_swap_remove l i : (i < length l)%nat -> disjoint_regions l -> disjoint_regions (swap_remove i l).
Proof.
  intros Hi Hl j k x y Hne Hj Hk. apply swap_remove_lookup in Hj as [Hj Hx]; [|done].
  apply swap_remove_lookup in Hk as [Hk Hy]; [|done]. eapply (Hl _ _ x y); [|done|done].
  destruct (decide (j = i)), (decide (k = i)); lia.
Qed.
Lemma regions_ordered b : budget_wf b -> Forall ordered (bd_regions b).
Proof. intros Hwf. eapply Forall_impl; [apply (bw_regions _ Hwf)|]. intros r. apply ro_ordered. Qed.
Lemma wf_regions b regions reserved :
  budget_wf b -> (length regions <= GV_MAX_REGIONS)%nat -> Forall (region_ok (bd_page b)) regions ->
  disjoint_regions regions -> reserved = tally own_size regions ->
  budget_wf (with_reserved (with_regions b regions) reserved).
Proof. intros [? ? ? ? ? ? ? ? ?] ? ? ? ?. by constructor. Qed.
Lemma wf_claims b claims :
  budget_wf b -> (length claims <= GV_MAX_CLAIMS)%nat -> Forall (claim_ok (bd_page b)) claims -> budget_wf (with_claims b claims).
Proof. intros [? ? ? ? ? ? ? ? ?] ? ?. by constructor. Qed.
Lemma own_sizes_range page regions :
  Forall (region_ok page) regions -> (length regions <= GV_MAX_REGIONS)%nat -> 0 <= tally own_size regions < 2 ^ 57.
Proof.
  intros Hok Hcount. rewrite Forall_forall in Hok. pose proof (tally_range own_size regions (2 ^ 48)) as H.
  unfold GV_MAX_REGIONS in *. destruct H; [|lia].
  intros r Hr. destruct (Hok r Hr) as [[? ? ?] ? ? ? _]. unfold own_size. lia.
Qed.

(** *** Claims *)

Lemma unclaim_loop_ok page fuel i claims from to :
  from mod page = 0 -> to mod page = 0 -> Forall (claim_ok page) claims ->
  Forall (claim_ok page) (unclaim_loop fuel i claims from to) /\
  (length (unclaim_loop fuel i claims from to) <= length claims)%nat.
Proof.
  intros Hfrom Hto. revert i claims. induction fuel as [|fuel IH]; intros i claims Hok; cbn [unclaim_loop]; [done|].
  destruct (claims !! i) as [c|] eqn:Hc; [|done]. pose proof (lookup_lt_Some _ _ _ Hc) as Hi.
  pose proof (proj1 (Forall_lookup _ _) Hok i c Hc) as [Hstart Hend]. destruct (_ && _).
  - destruct (IH i (swap_remove i claims)) as [H1 H2]; [by apply Forall_swap_remove|].
    split; [done|]. rewrite length_swap_remove in H2 by done. lia.
  - destruct (IH (S i) (<[i := shrink_claim from to c]> claims)) as [H1 H2].
    + apply Forall_insert; [done|]. unfold shrink_claim. repeat case_match; by split.
    + split; [done|]. by rewrite length_insert in H2.
Qed.
Lemma unclaim_wf b from to :
  budget_wf b -> from mod bd_page b = 0 -> to mod bd_page b = 0 -> budget_wf (unclaim b from to).
Proof.
  intros Hwf Hfrom Hto. destruct (unclaim_loop_ok (bd_page b) (S (length (bd_claims b))) 0 (bd_claims b) from to Hfrom Hto) as [Hok Hlen].
  { apply (bw_claims _ Hwf). }
  apply wf_claims; [done| |done]. pose proof (bw_claim_count _ Hwf). lia.
Qed.
Lemma bd_regions_unclaim b from to : bd_regions (unclaim b from to) = bd_regions b.
Proof. done. Qed.

(** *** Releasing a piece *)

Definition same_at (x : Z) (r r' : GVRegion) : Prop :=
  owns r' x = owns r x /\ (x <? rg_end r') = (x <? rg_end r) /\ lacks r' x = lacks r x.
Lemma class_insert l i r r' from to x : l !! i = Some r -> same_at x r r' -> class (<[i := r']> l) from to x = class l from to x.
Proof.
  intros Hi (Howns & Hend & Hlacks).
  assert (own_class (<[i := r']> l) x = own_class l x /\ lacking (<[i := r']> l) x = lacking l x) as [Hown Hlacking].
  2: { unfold class. by rewrite Hown, Hlacking. }
  revert i Hi. unfold lacking. induction l as [|z l IH]; intros [|i] Hi; [done|done| |].
  - injection Hi as ->. cbn [insert list_insert own_class existsb]. by rewrite Howns, Hend, Hlacks.
  - change (<[S i := r']> (z :: l)) with (z :: <[i := r']> l). cbn [own_class existsb]. by destruct (IH i Hi) as [-> ->].
Qed.
Lemma class_app l r from to x : owns r x = false -> lacks r x = false -> class (l ++ [r]) from to x = class l from to x.
Proof.
  intros Howns Hlacks.
  assert (own_class (l ++ [r]) x = own_class l x) as Hown.
  { induction l as [|z l IH]; cbn [own_class app]; [by rewrite Howns|]. by rewrite IH. }
  unfold class, lacking. rewrite Hown, existsb_app. cbn. by rewrite Hlacks, !orb_false_r.
Qed.
(** The piece [[from, to)] of the region [r]. *)
Record piece_of (b : GVBudget) (i : nat) (r : GVRegion) (from to : Z) : Prop := {
  po_region : bd_regions b !! i = Some r;
  po_from : rg_start r <= from; po_lt : from < to; po_to : to <= rg_limit r;
  po_aligned : from mod bd_page b = 0 /\ to mod bd_page b = 0
}.
(** What [forget] makes of the table: one region changed, and one added when a
    hole splits it. *)
Lemma forget_cases b i r from to :
  budget_wf b -> piece_of b i r from to ->
  forget b i from to = b \/
  exists r' more, forget b i from to = with_reserved (with_regions b (<[i := r']> (bd_regions b) ++ more)) (w64 (bd_reserved b - (to - from))) /\
    region_ok (bd_page b) r' /\ rg_start r <= rg_start r' /\ rg_span r' <= rg_span r /\
    (length (bd_regions b) + length more <= GV_MAX_REGIONS)%nat /\
    (forall x, to <= x -> same_at x r r' /\ past x (rg_start r') = 0) /\
    (forall y, bound_of r' y -> y <= to \/ bound_of r y) /\ bounds_past to r' <= bounds_past to r /\
    match more with
    | [] => own_size r' = own_size r - (to - from)
    | [r''] => region_ok (bd_page b) r'' /\ rg_start r'' = rg_start r /\ rg_span r'' = from /\ rg_limit r'' = from /\
        rg_end r'' <= from /\ rg_start r' = to /\
        own_size r' + own_size r'' = own_size r - (to - from)
    | _ => False
    end.
Proof.
  intros Hwf [Hr Hfrom Hlt Hto [Hafrom Hato]]. unfold forget. rewrite Hr.
  pose proof (proj1 (Forall_lookup _ _) (bw_regions _ Hwf) i r Hr) as [[Hse Hel Hls] Hs Hl Hsp (Has & Hae & Hal & Hasp)].
  pose proof (bw_count _ Hwf) as Hcount.
  set (r1 := mkRegion to (if rg_end r <? to then to else rg_end r) (rg_limit r) (rg_span r)).
  assert (Hr1 : region_ok (bd_page b) r1).
  { subst r1. destruct (Z.ltb_spec (rg_end r) to); repeat constructor; cbn; try done; lia. }
  assert (Hsame1 : forall x, to <= x -> same_at x r r1 /\ past x (rg_start r1) = 0).
  { intros x Hx. subst r1. unfold same_at, owns, lacks. cbn [rg_start rg_end rg_limit rg_span]. split_and!; [| |done|past_cases].
    - apply eq_iff_eq_true. rewrite !in_range_spec. lia.
    - destruct (Z.ltb_spec (rg_end r) to); [|done]. rewrite (proj2 (Z.ltb_ge x to)) by lia. symmetry. apply Z.ltb_ge. lia. }
  assert (Hbound1 : forall y, bound_of r1 y -> y <= to \/ bound_of r y).
  { intros y. subst r1. unfold bound_of. cbn. destruct (Z.ltb_spec (rg_end r) to); intros [->|[->|[->| ->]]]; tauto || (left; lia). }
  assert (Hpast1 : bounds_past to r1 <= bounds_past to r).
  { subst r1. unfold bounds_past. cbn [rg_start rg_end rg_limit rg_span].
    assert (past to to = 0) as -> by past_cases. assert (0 <= past to (rg_start r)) by past_cases.
    destruct (Z.ltb_spec (rg_end r) to); [|lia]. assert (past to to = 0) as -> by past_cases.
    assert (0 <= past to (rg_end r)) by past_cases. lia. }
  destruct (Z.leb_spec from (rg_start r)) as [Hstart|Hstart]; [|destruct (Z.leb_spec (rg_limit r) to) as [Hlimit|Hlimit]].
  - right. exists r1, []. rewrite app_nil_r. cbn [length]. split_and!; try done; unfold own_size, r1; cbn; lia.
  - right. set (r2 := mkRegion (rg_start r) (if from <? rg_end r then from else rg_end r) from (rg_span r)).
    exists r2, []. rewrite app_nil_r. cbn [length]. assert (Hto' : to = rg_limit r) by lia.
    assert (Hsame2 : forall x, to <= x -> same_at x r r2 /\ past x (rg_start r2) = 0).
    { intros x Hx. subst r2. unfold same_at, owns, lacks. cbn [rg_start rg_end rg_limit rg_span]. split_and!; [| | |past_cases].
      - apply eq_iff_eq_true. rewrite !in_range_spec. lia.
      - rewrite !(proj2 (Z.ltb_ge _ _)); [done|lia|]. destruct (Z.ltb_spec from (rg_end r)); lia.
      - apply eq_iff_eq_true. rewrite !in_range_spec. lia. }
    assert (Hpast2 : bounds_past to r2 <= bounds_past to r).
    { subst r2. unfold bounds_past. cbn [rg_start rg_end rg_limit rg_span].
      assert (past to from = 0) as Hz by past_cases. rewrite Hz. assert (0 <= past to (rg_limit r)) by past_cases.
      assert (0 <= past to (rg_end r)) by past_cases. destruct (Z.ltb_spec from (rg_end r)); [|lia]. rewrite Hz. lia. }
    split_and!; try done; try (unfold own_size, r2; cbn; lia).
    + subst r2. destruct (Z.ltb_spec from (rg_end r)); repeat constructor; cbn; try done; lia.
    + intros y. subst r2. unfold bound_of. cbn. destruct (Z.ltb_spec from (rg_end r)); intros [->|[->|[->| ->]]]; tauto || (left; lia).
  - destruct (Nat.ltb_spec (length (bd_regions b)) GV_MAX_REGIONS); [|by left]. right.
    exists r1, [mkRegion (rg_start r) (Z.min (rg_end r) from) from from]. cbn [length].
    split_and!; try done; try (unfold own_size, r1; cbn; lia).
    destruct (Z.min_spec (rg_end r) from) as [[? ->]|[? ->]]; repeat constructor; cbn; try done; lia.
Qed.
Lemma forget_ok b i r from to :
  budget_wf b -> piece_of b i r from to ->
  budget_wf (forget b i from to) /\ bd_page (forget b i from to) = bd_page b /\ bd_budget (forget b i from to) = bd_budget b /\
  (forall f t x, to <= x -> class (bd_regions (forget b i from to)) f t x = class (bd_regions b) f t x) /\
  tally (bounds_past to) (bd_regions (forget b i from to)) <= tally (bounds_past to) (bd_regions b).
Proof.
  intros Hwf Hpiece. pose proof (po_region _ _ _ _ _ Hpiece) as Hr. pose proof (lookup_lt_Some _ _ _ Hr) as Hi.
  destruct (forget_cases b i r from to Hwf Hpiece)
    as [->|(r' & more & -> & Hok & Hstart & Hspan & Hlen & Hsame & _ & Hpast & Hmore)]; [by split_and!|].
  pose proof (proj1 (Forall_lookup _ _) (bw_regions _ Hwf) i r Hr) as [[_ _ Hlimit] _ _ _ _].
  pose proof (po_from _ _ _ _ _ Hpiece). pose proof (po_lt _ _ _ _ _ Hpiece). pose proof (po_to _ _ _ _ _ Hpiece).
  pose proof (own_sizes_range _ _ (bw_regions _ Hwf) (bw_count _ Hwf)) as Hsum.
  assert (Hregions : Forall (region_ok (bd_page b)) (<[i := r']> (bd_regions b))) by (by apply Forall_insert; [apply (bw_regions _ Hwf)|]).
  assert (Hdisjoint : disjoint_regions (<[i := r']> (bd_regions b))) by (by eapply disjoint_insert; [apply (bw_disjoint _ Hwf)| | |]).
  assert (Hown : own_size r <= tally own_size (bd_regions b)).
  { assert (Hrest : 0 <= tally own_size (<[i := mkRegion 0 0 0 0]> (bd_regions b))).
    { apply (tally_range own_size _ (2 ^ 48)). intros y Hy. apply list_elem_of_lookup in Hy as [j Hj].
      apply list_lookup_insert_Some in Hj as [(_ & <- & _)|[_ Hj]]; [done|].
      pose proof (proj1 (Forall_lookup _ _) (bw_regions _ Hwf) j y Hj) as [[? ? ?] ? ? ? _]. unfold own_size. lia. }
    rewrite (tally_insert _ _ _ _ _ Hr) in Hrest. change (own_size (mkRegion 0 0 0 0)) with 0 in Hrest. lia. }
  assert (Hpiecesize : to - from <= own_size r) by (unfold own_size; lia).
  assert (Hreserved : w64 (bd_reserved b - (to - from)) = tally own_size (bd_regions b) - (to - from)).
  { rewrite (bw_reserved _ Hwf). apply w64_small. unfold u64_ok. lia. }
  destruct more as [|r'' [|]]; [| |done].
  - rewrite app_nil_r. cbn [length] in Hlen. split_and!; try done.
    + apply wf_regions; try done; [rewrite length_insert; lia|]. rewrite Hreserved, (tally_insert _ _ _ _ _ Hr). lia.
    + intros f t x Hx. by apply (class_insert _ _ r), Hsame.
    + cbn. rewrite (tally_insert _ _ _ _ _ Hr). lia.
  - destruct Hmore as (Hok'' & Hs'' & Hsp'' & Hl'' & He'' & Hs' & Hsize). cbn [length] in Hlen. split_and!; try done.
    + apply wf_regions; try done.
      * rewrite length_app, length_insert. cbn. lia.
      * apply Forall_app. split; [done|by constructor].
      * apply disjoint_app; [done|]. intros j x Hx. apply list_lookup_insert_Some in Hx as [(_ & <- & _)|[Hne Hx]].
        { left. lia. }
        apply (apart_narrow r); [lia|lia|]. by apply (bw_disjoint _ Hwf i j).
      * rewrite Hreserved, tally_app, (tally_insert _ _ _ _ _ Hr). cbn. lia.
    + intros f t x Hx. cbn. rewrite class_app.
      * by apply (class_insert _ _ r), Hsame.
      * apply in_range_false. lia.
      * apply in_range_false. lia.
    + cbn. rewrite tally_app, (tally_insert _ _ _ _ _ Hr). cbn.
      assert (bounds_past to r'' = 0); [|lia]. pose proof (or_start _ (ro_ordered _ _ Hok'')). unfold bounds_past. past_cases.
Qed.

(** ** The loops over the pieces *)

Lemma part_aligned b cursor stop from to kind until region :
  budget_wf b -> stop mod bd_page b = 0 -> to mod bd_page b = 0 ->
  part b cursor stop from to = (kind, until, region) -> until mod bd_page b = 0.
Proof.
  intros Hwf Hstop Hto Hpart. apply part_until in Hpart as [->|[->|(r & Hr & Hb)]]; [done|done|].
  pose proof (proj1 (Forall_forall _ _) (bw_regions _ Hwf) r Hr) as [_ _ _ _ (? & ? & ? & ?)].
  destruct Hb as [->|[->|[->| ->]]]; done.
Qed.
Lemma reaches_loop_spec fuel b cursor stop from to :
  Forall ordered (bd_regions b) -> from <= cursor -> remaining (bd_regions b) stop to cursor < Z.of_nat fuel ->
  exists found, reaches_loop fuel b cursor stop from to = Some found /\
    (found = true <-> exists x, cursor <= x < stop /\ denied (class (bd_regions b) from to x) = true).
Proof.
  intros Hok. revert cursor. induction fuel as [|fuel IH]; intros cursor Hfrom Hfuel.
  { pose proof (remaining_range (bd_regions b) stop to cursor). lia. }
  cbn [reaches_loop]. destruct (Z.ltb_spec cursor stop) as [Hlt|Hge]; cbn [negb].
  2: { exists false. split; [done|]. split; [done|]. intros (x & ? & _). lia. }
  destruct (part b cursor stop from to) as [[kind until] region] eqn:Hpart.
  destruct (part_class _ _ _ _ _ _ _ _ Hok Hlt Hfrom Hpart) as (Huntil & Hclass & _).
  destruct (denied kind) eqn:Hdenied.
  { exists true. split; [done|]. split; [|done]. intros _. exists cursor. rewrite Hclass by lia. split; [lia|done]. }
  destruct (IH until ltac:(lia)) as (found & Hrun & Hfound).
  { pose proof (remaining_part _ _ _ _ _ _ _ _ Hpart ltac:(lia)). lia. }
  exists found. split; [done|]. rewrite Hfound. split; intros (x & Hx & Hd); exists x; (split; [|done]); [lia|].
  destruct (Z.lt_ge_cases x until); [|lia]. rewrite Hclass in Hd by lia. congruence.
Qed.

Section calls.
Context {K : Type} `{!Kernel K}.
(** The kernel after the calls for the pieces [ps]. *)
Definition called (operation : Operation) (value : Z) (k : K) (ps : list (Z * Z)) : K :=
  fold_left (fun k p => snd (call operation k p.1 p.2 value)) ps k.
End calls.
(** Pieces of [[cursor, stop)], in order and none twice. *)
Inductive pieces (stop : Z) : Z -> list (Z * Z) -> Prop :=
| pieces_nil cursor : pieces stop cursor []
| pieces_cons cursor address size ps :
    cursor <= address -> 0 < size -> address + size <= stop -> pieces stop (address + size) ps ->
    pieces stop cursor ((address, size) :: ps).
Definition covered (ps : list (Z * Z)) (x : Z) : Prop := exists p, p ∈ ps /\ p.1 <= x < p.1 + p.2.
Lemma pieces_weaken stop cursor cursor' ps : cursor <= cursor' -> pieces stop cursor' ps -> pieces stop cursor ps.
Proof. intros Hle H. destruct H; constructor; try done. lia. Qed.
Lemma covered_cons p ps x : covered (p :: ps) x <-> p.1 <= x < p.1 + p.2 \/ covered ps x.
Proof.
  unfold covered. setoid_rewrite elem_of_cons. split.
  - intros (q & [->|Hq] & Hx); [by left|right; by exists q].
  - intros [Hx|(q & Hq & Hx)]; [exists p; split; [by left|done]|exists q; split; [by right|done]].
Qed.
Lemma released_ok operation b cursor stop from to kind until region :
  budget_wf b -> cursor < stop -> from <= cursor ->
  cursor mod bd_page b = 0 -> stop mod bd_page b = 0 -> to mod bd_page b = 0 ->
  part b cursor stop from to = (kind, until, region) -> kind <> MISSING ->
  budget_wf (released operation b region cursor until) /\
  bd_page (released operation b region cursor until) = bd_page b /\
  bd_budget (released operation b region cursor until) = bd_budget b /\
  (forall f t x, until <= x -> class (bd_regions (released operation b region cursor until)) f t x = class (bd_regions b) f t x) /\
  tally (bounds_past until) (bd_regions (released operation b region cursor until)) <= tally (bounds_past until) (bd_regions b).
Proof.
  intros Hwf Hlt Hfrom Hcursor Hstop Hto Hpart Hkind. unfold released. destruct (is_unmap operation); [|by split_and!].
  pose proof (part_aligned _ _ _ _ _ _ _ _ Hwf Hstop Hto Hpart) as Huntil.
  destruct (part_class _ _ _ _ _ _ _ _ (regions_ordered _ Hwf) Hlt Hfrom Hpart) as (Hrange & _ & Hregion).
  destruct region as [i|]; [|split_and!; try done; by apply unclaim_wf].
  destruct (Hregion Hkind) as (r & Hr & ? & ?). apply (forget_ok b i r); [done|]. constructor; try done. lia.
Qed.
Lemma apply_loop_spec {K} `{!Kernel K} fuel operation value b (k : K) cursor stop from to code :
  budget_wf b -> from <= cursor ->
  cursor mod bd_page b = 0 -> stop mod bd_page b = 0 -> to mod bd_page b = 0 ->
  remaining (bd_regions b) stop to cursor < Z.of_nat fuel ->
  exists code' b' ps,
    apply_loop fuel operation value b k cursor stop from to code = Some (code', b', called operation value k ps) /\
    budget_wf b' /\ bd_page b' = bd_page b /\ bd_budget b' = bd_budget b /\ (is_unmap operation = false -> b' = b) /\
    pieces stop cursor ps /\
    (forall x, covered ps x <-> cursor <= x < stop /\ skipped operation (class (bd_regions b) from to x) = false).
Proof.
  revert b k cursor code. induction fuel as [|fuel IH]; intros b k cursor code Hwf Hfrom Hcursor Hstop Hto Hfuel.
  { pose proof (remaining_range (bd_regions b) stop to cursor). lia. }
  cbn [apply_loop]. destruct (Z.ltb_spec cursor stop) as [Hlt|Hge]; cbn [negb].
  2: { exists code, b, []. split_and!; try done; [constructor|]. intros x. split; [by intros (? & []%elem_of_nil & _)|lia]. }
  destruct (part b cursor stop from to) as [[kind until] region] eqn:Hpart.
  destruct (part_class _ _ _ _ _ _ _ _ (regions_ordered _ Hwf) Hlt Hfrom Hpart) as (Huntil & Hclass & _).
  pose proof (part_aligned _ _ _ _ _ _ _ _ Hwf Hstop Hto Hpart) as Hauntil.
  pose proof (remaining_part _ _ _ _ _ _ _ _ Hpart ltac:(lia)) as Hless.
  destruct (skipped operation kind) eqn:Hskipped.
  { destruct (IH b k until code) as (code' & b' & ps & Hrun & Hwf' & Hpage & Hbudget & Hsame & Hps & Hcov); try done; [lia|lia|].
    exists code', b', ps. split_and!; try done; [by apply (pieces_weaken _ _ until); [lia|]|].
    intros x. rewrite Hcov. split; [intros [? ?]; split; [lia|done]|]. intros [? Hx]. split; [|done].
    destruct (Z.lt_ge_cases x until); [|lia]. rewrite Hclass in Hx by lia. congruence. }
  assert (Hkind : kind <> MISSING) by (intros ->; done).
  destruct (released_ok operation _ _ _ _ _ _ _ _ Hwf Hlt Hfrom Hcursor Hstop Hto Hpart Hkind) as (Hwf1 & Hpage1 & Hbudget1 & Hclass1 & Hpast1).
  destruct (call operation k cursor (until - cursor) value) as [done_ k1] eqn:Hcall.
  assert (exists b1 code1, match done_ with Some errno => apply_loop fuel operation value b k1 until stop from to (Some errno)
            | None => apply_loop fuel operation value (released operation b region cursor until) k1 until stop from to code end =
            apply_loop fuel operation value b1 k1 until stop from to code1 /\
          budget_wf b1 /\ bd_page b1 = bd_page b /\ bd_budget b1 = bd_budget b /\ (is_unmap operation = false -> b1 = b) /\
          (forall x, until <= x -> class (bd_regions b1) from to x = class (bd_regions b) from to x) /\
          remaining (bd_regions b1) stop to until < Z.of_nat fuel) as (b1 & code1 & -> & Hwf' & Hp1 & Hb1 & Hsame1 & Hcl1 & Hrem1).
  { destruct done_ as [errno|]; [exists b, (Some errno)|exists (released operation b region cursor until), code].
    - split_and!; try done. lia.
    - split_and!; try done; [|intros x; apply Hclass1|unfold remaining in *; lia]. intros Hop. unfold released. by rewrite Hop. }
  destruct (IH b1 k1 until code1) as (code' & b' & ps & Hrun & Hwf2 & Hpage2 & Hbudget2 & Hsame2 & Hps & Hcov);
    try done; try (by rewrite Hp1); [lia|].
  exists code', b', ((cursor, until - cursor) :: ps). rewrite Hrun. split_and!; try congruence.
  - cbn. by rewrite Hcall.
  - intros Hop. rewrite Hsame2, Hsame1 by done. done.
  - constructor; [lia|lia|lia|]. by replace (cursor + (until - cursor)) with until by lia.
  - intros x. rewrite covered_cons, Hcov. cbn [fst snd]. split.
    + intros [Hx|[Hx Hs]]; [rewrite Hclass by lia; split; [lia|done]|rewrite Hcl1 in Hs by lia; split; [lia|done]].
    + intros [Hx Hs]. destruct (Z.lt_ge_cases x until); [left; lia|right]. rewrite Hcl1 by lia. split; [lia|done].
Qed.

(** ** Whole calls *)

Lemma sweep_loop_wf fuel i b :
  budget_wf b -> budget_wf (sweep_loop fuel i b) /\ bd_page (sweep_loop fuel i b) = bd_page b /\ bd_budget (sweep_loop fuel i b) = bd_budget b.
Proof.
  revert i b. induction fuel as [|fuel IH]; intros i b Hwf; cbn [sweep_loop]; [done|].
  destruct (bd_regions b !! i) as [r|] eqn:Hr; [|done]. pose proof (lookup_lt_Some _ _ _ Hr) as Hi.
  pose proof (proj1 (Forall_lookup _ _) (bw_regions _ Hwf) i r Hr) as [[? ? ?] ? ? ? (? & ? & ? & ?)].
  destruct (Z.ltb_spec (rg_start r) (rg_limit r)); [by apply IH|].
  apply (IH i (with_regions (unclaim b (rg_limit r) (rg_span r)) (swap_remove i (bd_regions b)))).
  assert (Hwf1 : budget_wf (unclaim b (rg_limit r) (rg_span r))) by (by apply unclaim_wf).
  pose proof (bw_count _ Hwf). apply (wf_regions _ (swap_remove i (bd_regions b)) (bd_reserved b) Hwf1).
  - rewrite length_swap_remove by done. lia.
  - apply Forall_swap_remove; [done|apply (bw_regions _ Hwf)].
  - apply disjoint_swap_remove; [done|apply (bw_disjoint _ Hwf)].
  - rewrite (tally_swap_remove _ _ _ r) by done. unfold own_size at 2. rewrite (bw_reserved _ Hwf). lia.
Qed.
Lemma sweep_wf b : budget_wf b -> budget_wf (sweep b) /\ bd_page (sweep b) = bd_page b /\ bd_budget (sweep b) = bd_budget b.
Proof. apply sweep_loop_wf. Qed.
Lemma find_anchor_spec {A} (bounds : A -> Z * Z) l address from to :
  find_anchor bounds l address = Some (from, to) -> from <= address < to /\ exists x, x ∈ l /\ bounds x = (from, to).
Proof.
  induction l as [|x l IH]; cbn [find_anchor]; [done|]. destruct (bounds x) as [f t] eqn:Hx.
  destruct (in_range address f t) eqn:Hin.
  - intros [= <- <-]. apply in_range_spec in Hin. split; [done|]. exists x. split; [by left|done].
  - intros H. destruct (IH H) as [? (y & Hy & ?)]. split; [done|]. exists y. split; [by right|done].
Qed.
Lemma anchor_at_ok b address from to :
  budget_wf b -> address mod bd_page b = 0 -> anchor_at b address = (from, to) ->
  from <= address <= to /\ to mod bd_page b = 0.
Proof.
  intros Hwf Haddress. unfold anchor_at.
  destruct (find_anchor (fun r => (rg_start r, rg_limit r)) (bd_regions b) address) as [[f t]|] eqn:Hr.
  - intros [= <- <-]. destruct (find_anchor_spec _ _ _ _ _ Hr) as [? (r & Hin & Hb)]. injection Hb as <- <-.
    pose proof (proj1 (Forall_forall _ _) (bw_regions _ Hwf) r Hin) as [_ _ _ _ (? & ? & ? & ?)]. split; [lia|done].
  - destruct (find_anchor (fun c => (cl_start c, cl_end c)) (bd_claims b) address) as [[f t]|] eqn:Hc; cbn [default]; intros [= <- <-]; [|split; [lia|done]].
    destruct (find_anchor_spec _ _ _ _ _ Hc) as [? (c & Hin & Hb)]. injection Hb as <- <-.
    pose proof (proj1 (Forall_forall _ _) (bw_claims _ Hwf) c Hin) as [? ?]. split; [lia|done].
Qed.

Lemma page_end_spec page address size :
  0 < page <= 2 ^ 40 -> 0 <= address < 2 ^ 64 -> 0 <= size < 2 ^ 64 ->
  let stop := page_end page address size in
  (stop = 0 /\ 2 ^ 64 <= address + size + page - 1) \/
  (address + size <= stop < address + size + page /\ stop < 2 ^ 64 /\ stop mod page = 0).
Proof.
  intros Hpage Haddress Hsize. unfold page_end.
  destruct (Z.lt_ge_cases (address + size) (2 ^ 64)) as [Hsum|Hsum].
  - rewrite (w64_small (address + size)) by (unfold u64_ok; lia). rewrite (proj2 (Z.ltb_ge _ _)) by lia. cbn [orb].
    destruct (Z.lt_ge_cases (address + size + (page - 1)) (2 ^ 64)) as [Hround|Hround].
    + rewrite w64_small by (unfold u64_ok; lia). rewrite (proj2 (Z.ltb_ge _ _)) by lia. right.
      pose proof (Z.mod_pos_bound (address + size + (page - 1)) page ltac:(lia)). split_and!; [lia|lia|lia|].
      rewrite Zminus_mod, Z.mod_mod, Z.sub_diag by lia. apply Z.mod_0_l. lia.
    + unfold w64. rewrite <- (Z_mod_plus_full _ (-1)). rewrite (Z.mod_small (address + size + (page - 1) + -1 * 2 ^ 64)) by lia.
      rewrite (proj2 (Z.ltb_lt _ _)) by lia. left. split; [done|lia].
  - unfold w64 at 1. rewrite <- (Z_mod_plus_full (address + size) (-1)). rewrite (Z.mod_small (address + size + -1 * 2 ^ 64)) by lia.
    rewrite (proj2 (Z.ltb_lt _ _)) by lia. left. split; [done|lia].
Qed.
Lemma turns_enough b stop to cursor : remaining (bd_regions b) stop to cursor < Z.of_nat (turns b).
Proof. pose proof (remaining_range (bd_regions b) stop to cursor). unfold turns. lia. Qed.
(** The range of a request that is valid, and whether it would make bytes usable
    that the application was not given. *)
Definition valid_request (b : GVBudget) (address size : Z) : bool :=
  negb (page_end (bd_page b) address size =? 0) && (address mod bd_page b =? 0).
Definition byte_class (b : GVBudget) (address x : Z) : Part :=
  class (bd_regions b) (anchor_at b address).1 (anchor_at b address).2 x.
Definition not_granted (kind : Part) : Prop := kind = GUARD \/ kind = MISSING.
Definition forbidden (operation : Operation) (value : Z) (b : GVBudget) (address size : Z) : Prop :=
  operation = PROTECT /\ value <> PROT_NONE /\
  exists x, address <= x < page_end (bd_page b) address size /\ not_granted (byte_class b address x).
(** What no call touches: missing parts, and guard pages but for [munmap]. *)
Definition left_alone (operation : Operation) (kind : Part) : Prop :=
  kind = MISSING \/ (kind = GUARD /\ operation <> UNMAP).
Lemma denied_spec kind : denied kind = true <-> not_granted kind.
Proof. unfold not_granted. destruct kind; cbn; split; intros H; try done; try (by left); try (by right); by destruct H. Qed.
Lemma skipped_spec operation kind : skipped operation kind = false <-> ~ left_alone operation kind.
Proof.
  unfold left_alone. destruct kind, operation; cbn; split; intros H; try done; try (intros [?|[??]]; done);
    exfalso; apply H; try (by left); by right.
Qed.
Lemma gv_call_correct {K} `{!Kernel K} operation b (k : K) address size value :
  budget_wf b -> gv_enabled (Some b) = true -> 0 <= address < 2 ^ 64 -> 0 < size < 2 ^ 64 ->
  if valid_request b address size then
    (forbidden operation value b address size /\ gv_call operation b k address size value = Some (Some ENOMEM, b, k)) \/
    (~ forbidden operation value b address size /\ exists code b' ps,
       gv_call operation b k address size value = Some (code, b', called operation value k ps) /\
       (operation <> UNMAP -> b' = b) /\ budget_wf b' /\ bd_page b' = bd_page b /\ bd_budget b' = bd_budget b /\
       pieces (page_end (bd_page b) address size) address ps /\
       (forall x, covered ps x <-> address <= x < page_end (bd_page b) address size /\
                                   ~ left_alone operation (byte_class b address x)))
  else gv_call operation b k address size value = Some (Some EINVAL, b, k).
Proof.
  intros Hwf Henabled Haddress Hsize. unfold gv_call, valid_request. rewrite Henabled. unfold apply.
  rewrite (proj2 (Z.eqb_neq size 0)) by lia.
  destruct (Z.eqb_spec (page_end (bd_page b) address size) 0) as [|Hstop]; [done|]. cbn [negb orb andb].
  destruct (Z.eqb_spec (address mod bd_page b) 0) as [Haligned|]; [|done]. cbn [negb].
  destruct (page_end_spec (bd_page b) address size (bw_page _ Hwf) Haddress ltac:(lia)) as [[? _]|(Hrange & Hmax & Hastop)]; [done|].
  unfold forbidden, byte_class. destruct (anchor_at b address) as [from to] eqn:Hanchor. cbn [fst snd].
  destruct (anchor_at_ok _ _ _ _ Hwf Haligned Hanchor) as [Hft Hato].
  set (stop := page_end (bd_page b) address size) in *.
  destruct (reaches_loop_spec (turns b) b address stop from to (regions_ordered _ Hwf) ltac:(lia) (turns_enough _ _ _ _)) as (found & Hreach & Hfound).
  set (checked := if is_protect operation && negb (value =? PROT_NONE) then reaches_loop (turns b) b address stop from to else Some false).
  assert (exists bad_, checked = Some bad_ /\ (bad_ = true <-> (operation = PROTECT /\ value <> PROT_NONE /\
            exists x, address <= x < stop /\ not_granted (class (bd_regions b) from to x)))) as (bad_ & Hchecked & Hbad).
  { subst checked. setoid_rewrite denied_spec in Hfound.
    destruct operation; cbn [is_protect andb]; [exists false; split; [done|]; split; [done|by intros [? _]]| |exists false; split; [done|]; split; [done|by intros [? _]]].
    destruct (Z.eqb_spec value PROT_NONE); cbn [negb]; [exists false; split; [done|]; split; [done|by intros (_ & ? & _)]|].
    exists found. split; [done|]. rewrite Hfound. split; [intros ?; by split_and!|by intros (_ & _ & ?)]. }
  rewrite Hchecked. cbn [mbind option_bind]. destruct bad_; [left; split; [by apply Hbad|done]|].
  right. split; [intros Hf; by apply Hbad in Hf|].
  destruct (apply_loop_spec (turns b) operation value b k address stop from to None Hwf ltac:(lia) Haligned Hastop Hato (turns_enough _ _ _ _))
    as (code & b' & ps & -> & Hwf' & Hpage & Hbudget & Hsame & Hps & Hcov).
  setoid_rewrite skipped_spec in Hcov. cbn [mbind option_bind]. destruct (is_unmap operation) eqn:Hop.
  - exists code, (sweep b'), ps. destruct (sweep_wf _ Hwf') as (? & ? & ?). split_and!; try done; try congruence. by destruct operation.
  - exists code, b', ps. split_and!; try done; intros _; by apply Hsame.
Qed.

(** ** Mappings *)

(** What the kernel promises of a mapping: page aligned, inside the user
    address space. *)
Class KernelLaws (K : Type) `{!Kernel K} (page : Z) : Prop :=
  kl_mmap (k : K) address size prot flags fd offset r k' :
    k_mmap k address size prot flags fd offset = (inl r, k') -> 0 <= r /\ r mod page = 0 /\ r + size <= 2 ^ 47.
#[export] Instance log_laws : KernelLaws Log 0x4000.
Proof.
  intros k address size prot flags fd offset r k'. cbn. set (r' := if address =? 0 then lg_next k else address).
  destruct (r' mod 0x4000 =? 0) eqn:E1; [|done]. destruct (0 <=? r') eqn:E2; [|done].
  destruct (r' + size <=? 2 ^ 47) eqn:E3; [|done]. cbn. intros [= <- _]. bool_props. done.
Qed.

(** A missing part may end sooner. *)
Definition trimmed (page : Z) (r r' : GVRegion) : Prop :=
  rg_start r' = rg_start r /\ rg_end r' = rg_end r /\ rg_limit r' = rg_limit r /\
  rg_limit r' <= rg_span r' <= rg_span r /\ rg_span r' mod page = 0.
Lemma claim_loop_trimmed page regions address size room :
  Forall (region_ok page) regions -> address mod page = 0 ->
  Forall2 (trimmed page) regions (claim_loop regions address size room).1.
Proof.
  intros Hok Haddress. induction regions as [|r regions IH]; cbn [claim_loop]; [constructor|].
  apply Forall_cons in Hok as [[[? ? ?] ? ? ? (? & ? & ? & ?)] Hok].
  assert (Hrefl : trimmed page r r) by (unfold trimmed; split_and!; done || lia).
  specialize (IH Hok). destruct (claim_loop regions address size room) as [regions' found]. cbn [fst] in IH.
  destruct ((w64 (address + size) <=? rg_limit r) || (rg_span r <=? address)) eqn:Hskip; cbn [fst]; [by constructor|].
  bool_props. destruct room; cbn [fst].
  - constructor; [done|]. clear IH. induction Hok as [|r' l [[? ? ?] ? ? ? (? & ? & ? & ?)] Hl IH]; constructor; [|done].
    unfold trimmed. split_and!; done || lia.
  - constructor; [|done]. unfold trimmed. cbn. destruct (Z.ltb_spec (rg_limit r) address); split_and!; done || lia.
Qed.
Lemma trimmed_ok page regions regions' :
  Forall2 (trimmed page) regions regions' -> Forall (region_ok page) regions -> Forall (region_ok page) regions'.
Proof.
  induction 1 as [|r r' l l' Hr _ IH]; intros Hok; [constructor|].
  apply Forall_cons in Hok as [[[? ? ?] ? ? ? (? & ? & ? & ?)] Hok]. destruct Hr as (E1 & E2 & E3 & ? & ?).
  constructor; [|by apply IH]. rewrite <- E1 in *. rewrite <- E2 in *. rewrite <- E3 in *. repeat constructor; done || lia.
Qed.
Lemma trimmed_tally page regions regions' :
  Forall2 (trimmed page) regions regions' -> tally own_size regions' = tally own_size regions.
Proof.
  induction 1 as [|r r' l l' (E1 & _ & E3 & _) _ IH]; cbn; [done|]. rewrite IH. unfold own_size. by rewrite E1, E3.
Qed.
Lemma claim_loop_found regions address size regions' found :
  claim_loop regions address size false = (regions', found) -> found = false.
Proof.
  revert regions' found. induction regions as [|r regions IH]; intros regions' found; cbn [claim_loop]; [by intros [= _ <-]|].
  destruct (claim_loop regions address size false) as [l f]. specialize (IH l f eq_refl).
  destruct (_ || _); by intros [= _ <-].
Qed.
Lemma claim_wf b address size :
  budget_wf b -> 0 <= address < 2 ^ 64 -> 0 <= size < 2 ^ 64 -> address mod bd_page b = 0 ->
  budget_wf (claim b address size) /\ bd_page (claim b address size) = bd_page b /\ bd_budget (claim b address size) = bd_budget b.
Proof.
  intros Hwf Haddress Hsize Haligned. unfold claim.
  pose proof (claim_loop_trimmed (bd_page b) (bd_regions b) address size (length (bd_claims b) <? GV_MAX_CLAIMS)%nat (bw_regions _ Hwf) Haligned) as H2.
  pose proof (claim_loop_found (bd_regions b) address size) as Hfound.
  destruct (claim_loop (bd_regions b) address size (length (bd_claims b) <? GV_MAX_CLAIMS)%nat) as [regions found] eqn:Hloop. cbn [fst] in H2.
  assert (Hwf1 : budget_wf (with_regions b regions)).
  { apply (wf_regions b regions (bd_reserved b)); [done| | | |].
    - rewrite <- (Forall2_length _ _ _ H2). apply (bw_count _ Hwf).
    - eapply trimmed_ok; [done|apply (bw_regions _ Hwf)].
    - intros i j r r' Hne Hi Hj.
      destruct (Forall2_lookup_r _ _ _ _ _ H2 Hi) as (r0 & Hi0 & (E1 & _ & _ & ? & _)).
      destruct (Forall2_lookup_r _ _ _ _ _ H2 Hj) as (r0' & Hj0 & (E1' & _ & _ & ? & _)).
      pose proof (bw_disjoint _ Hwf i j _ _ Hne Hi0 Hj0) as Hapart. unfold apart in *. lia.
    - rewrite (bw_reserved _ Hwf). symmetry. by eapply trimmed_tally. }
  destruct found; [|done]. split; [|done]. destruct (Nat.ltb_spec (length (bd_claims b)) GV_MAX_CLAIMS) as [Hroom|].
  2: { by apply Hfound in Hloop. }
  apply (wf_claims _ _ Hwf1); cbn.
  - rewrite length_app. cbn. lia.
  - apply Forall_app. split; [apply (bw_claims _ Hwf)|]. constructor; [|done]. split; cbn; [done|].
    destruct (page_end_spec (bd_page b) address size (bw_page _ Hwf) Haddress Hsize) as [[-> _]|(_ & _ & ?)]; [|done].
    apply Z.mod_0_l. pose proof (bw_page _ Hwf). lia.
Qed.

Lemma anchor_from_le b address : (anchor_at b address).1 <= address.
Proof.
  unfold anchor_at. destruct (find_anchor _ (bd_regions b) address) as [[f t]|] eqn:Hr.
  { apply find_anchor_spec in Hr as [? _]. cbn. lia. }
  destruct (find_anchor _ (bd_claims b) address) as [[f t]|] eqn:Hc; cbn; [|lia]. apply find_anchor_spec in Hc as [? _]. lia.
Qed.
(** A mapping that would lie in a part that was not granted. *)
Definition intrudes (b : GVBudget) (address size : Z) : Prop :=
  address <> 0 /\ exists x, address <= x < w64 (address + size) /\ not_granted (byte_class b address x).
Lemma gv_map_correct {K} `{!Kernel K} b (k : K) `{!KernelLaws K (bd_page b)} address size prot flags fd offset :
  budget_wf b -> gv_enabled (Some b) = true -> 0 <= size < 2 ^ 64 ->
  exists hint, (intrudes b address size -> hint = 0) /\ (~ intrudes b address size -> hint = address) /\
  ((intrudes b address size /\ Z.land flags MAP_FIXED <> 0 /\ gv_map b k address size prot flags fd offset = Some (inr ENOMEM, b, k)) \/
   (~ (intrudes b address size /\ Z.land flags MAP_FIXED <> 0) /\ exists b',
      gv_map b k address size prot flags fd offset =
        Some ((k_mmap k hint size prot flags fd offset).1, b', (k_mmap k hint size prot flags fd offset).2) /\
      budget_wf b' /\ bd_page b' = bd_page b /\ bd_budget b' = bd_budget b)).
Proof.
  intros Hwf Henabled Hsize. unfold gv_map. rewrite Henabled. cbn [negb]. pose proof (anchor_from_le b address) as Hfrom.
  assert (exists missing, (if address =? 0 then Some false else reaches_loop (turns b) b address (w64 (address + size)) (anchor_at b address).1 (anchor_at b address).2) = Some missing /\
    (missing = true <-> intrudes b address size)) as (missing & Hmissing & Hintrudes).
  { unfold intrudes, byte_class. destruct (Z.eqb_spec address 0) as [|Hne]; [exists false; split; [done|]; split; [done|by intros [? _]]|].
    destruct (reaches_loop_spec (turns b) b address (w64 (address + size)) (anchor_at b address).1 (anchor_at b address).2
                (regions_ordered _ Hwf) Hfrom (turns_enough _ _ _ _)) as (found & Hrun & Hfound).
    exists found. split; [done|]. setoid_rewrite denied_spec in Hfound. rewrite Hfound. split; [done|by intros [_ ?]]. }
  destruct (anchor_at b address) as [from to]. cbn [fst snd] in Hmissing. rewrite Hmissing. cbn [mbind option_bind].
  exists (if missing then 0 else address). split; [|split].
  { intros Hi. apply Hintrudes in Hi as ->. done. }
  { intros Hi. destruct missing; [|done]. by destruct Hi; apply Hintrudes. }
  destruct (missing && negb (Z.land flags MAP_FIXED =? 0)) eqn:Hdenied.
  { left. bool_props. split_and!; [by apply Hintrudes|done|done]. }
  right. split.
  { intros [Hi Hf]. apply Hintrudes in Hi as ->. cbn in Hdenied. bool_props. done. }
  destruct (k_mmap k (if missing then 0 else address) size prot flags fd offset) as [[a|e] k'] eqn:Hmap; cbn [fst snd].
  - exists (claim b a size). destruct (kl_mmap k _ _ _ _ _ _ _ _ Hmap) as (? & ? & ?).
    split; [done|]. apply claim_wf; try done; lia.
  - by exists b.
Qed.

(** ** Reservations *)

Lemma next_free_ge regions from size next :
  next <= fold_left (fun next r =>
    if (from <? rg_span r) && (rg_start r <? w64 (from + size)) && (next <? rg_span r) then rg_span r else next) regions next.
Proof.
  revert next. induction regions as [|r regions IH]; intros next; cbn [fold_left]; [lia|].
  etrans; [|apply IH]. destruct (_ && _) eqn:E; bool_props; lia.
Qed.
Lemma next_free_none regions from size r :
  next_free regions from size = from -> r ∈ regions -> from < rg_span r -> w64 (from + size) <= rg_start r.
Proof.
  unfold next_free. intros Hnext Hr Hspan. apply Z.le_ngt. intros Hstart.
  assert (Hgo : forall l next, r ∈ l -> rg_span r <= fold_left (fun next r =>
    if (from <? rg_span r) && (rg_start r <? w64 (from + size)) && (next <? rg_span r) then rg_span r else next) l next).
  { induction l as [|r' l IH]; intros next; cbn [fold_left]; [by intros ?%elem_of_nil|]. intros [<-|Hin]%elem_of_cons; [|by apply IH].
    etrans; [|apply next_free_ge]. rewrite (proj2 (Z.ltb_lt from _) Hspan), (proj2 (Z.ltb_lt _ (w64 _)) Hstart). cbn [andb].
    destruct (Z.ltb_spec next (rg_span r)); lia. }
  specialize (Hgo regions from Hr). lia.
Qed.
Lemma free_span_spec {K} `{!Kernel K} steps b (k : K) from size hole :
  free_span_loop steps b k from size = hole -> hole <> 0 ->
  hole < w64 (hole + size) /\ next_free (bd_regions b) hole size = hole.
Proof.
  revert from. induction steps as [|steps IH]; intros from; cbn [free_span_loop]; [done|].
  destruct (Z.ltb_spec from (w64 (from + size))) as [Hlt|]; cbn [negb]; [|done].
  destruct (Z.eqb_spec (next_free (bd_regions b) from size) from) as [Hnext|]; cbn [negb]; [|apply IH].
  destruct (k_region k from) as [[address len]|]; [|by intros <-]. destruct (_ <=? _); [by intros <-|apply IH].
Qed.
Lemma wanted_spec b size :
  budget_wf b -> 0 < size < 2 ^ 64 ->
  0 < wanted b size <= size /\ (wanted b size < size -> wanted b size mod bd_page b = 0) /\
  wanted b size <= Z.max (bd_budget b - bd_reserved b) (bd_floor b).
Proof.
  intros Hwf Hsize. unfold wanted. pose proof (bw_page _ Hwf) as Hpage. pose proof (bw_floor _ Hwf) as [Hfloor Hafloor].
  set (room := if bd_reserved b <? bd_budget b then bd_budget b - bd_reserved b else 0).
  assert (Hroom : 0 <= room <= Z.max (bd_budget b - bd_reserved b) 0).
  { subst room. destruct (Z.ltb_spec (bd_reserved b) (bd_budget b)); lia. }
  assert (Hdown : forall x, 0 < x -> bd_page b <= x \/ x mod bd_page b = 0 -> 0 < x - x mod bd_page b <= x /\ (x - x mod bd_page b) mod bd_page b = 0).
  { intros x Hx Hcase. pose proof (Z.mod_pos_bound x (bd_page b) ltac:(lia)). split.
    - destruct Hcase; lia.
    - rewrite Zminus_mod, Z.mod_mod, Z.sub_diag by lia. apply Z.mod_0_l. lia. }
  assert (Hfloorpage : bd_page b <= bd_floor b).
  { apply Z.divide_pos_le; [lia|]. apply Z.mod_divide; [lia|done]. }
  destruct (Z.ltb_spec room size) as [Hless|Hless].
  - destruct (Z.ltb_spec (bd_floor b) room) as [Hr|Hr].
    + rewrite (proj2 (Z.ltb_ge size room)) by lia. rewrite (proj2 (Z.ltb_lt room size)) by lia.
      destruct (Hdown room) as [? ?]; [lia|left; lia|]. split_and!; [lia|lia|done|lia].
    + destruct (Z.ltb_spec size (bd_floor b)); [rewrite Z.ltb_irrefl; split_and!; intros; lia|].
      destruct (Z.ltb_spec (bd_floor b) size); [|split_and!; intros; lia].
      rewrite Hafloor, Z.sub_0_r. split_and!; [lia|lia|done|lia].
  - rewrite Z.ltb_irrefl, Z.ltb_irrefl. split_and!; intros; lia.
Qed.
Lemma reserve_loop_spec {K} `{!Kernel K} n fuel page (k : K) size want prot flags fd :
  0 < page <= 2 ^ 40 -> 0 < want <= size -> (want < size -> want mod page = 0) -> want <= page * 2 ^ Z.of_nat n -> (n < fuel)%nat ->
  exists result want' k', reserve_loop fuel page k size want prot flags fd = Some (result, want', k') /\
    0 < want' <= size /\ (want' < size -> want' mod page = 0) /\ want' <= Z.max want page /\
    match result with
    | inl address => exists k0, k_mmap k0 0 (with_guard page want' size) prot flags fd 0 = (inl address, k')
    | inr _ => True
    end.
Proof.
  intros Hpage. revert n k want. induction fuel as [|fuel IH]; intros n k want Hwant Haligned Hn Hfuel; [lia|].
  cbn [reserve_loop]. destruct (k_mmap k 0 (with_guard page want size) prot flags fd 0) as [[a|e] k1] eqn:Hmap.
  { exists (inl a), want, k1. split_and!; try done; [lia|lia|lia|by exists k]. }
  destruct (negb (e =? ENOMEM) || (want <=? page)) eqn:Hstop; [exists (inr e), want, k1; split_and!; done || lia|].
  bool_props. set (half := want / 2 - (want / 2) mod page). set (want1 := if half <? page then page else half).
  pose proof (Z.mod_pos_bound (want / 2) page ltac:(lia)) as Hmod.
  assert (Hhalf : want / 2 * 2 <= want) by (pose proof (Z.mod_pos_bound want 2 ltac:(lia)); pose proof (Z.div_mod want 2 ltac:(lia)); lia).
  assert (Hwant1 : 0 < want1 < want /\ want1 mod page = 0).
  { subst want1. destruct (Z.ltb_spec half page); [split; [lia|by apply Z.mod_same; lia]|]. split; [lia|].
    subst half. rewrite Zminus_mod, Z.mod_mod, Z.sub_diag by lia. apply Z.mod_0_l. lia. }
  destruct n as [|n]; [cbn in Hn; lia|].
  destruct (IH n k1 want1) as (result & want' & k' & Hrun & Hr & Ha & Hm & Hres); [lia|intros _; apply Hwant1| |lia|].
  { rewrite Nat2Z.inj_succ, Z.pow_succ_r in Hn by lia. pose proof (Z.pow_pos_nonneg 2 (Z.of_nat n) ltac:(lia) ltac:(lia)).
    subst want1. destruct (Z.ltb_spec half page); [nia|lia]. }
  exists result, want', k'. split_and!; try done; lia.
Qed.
(** What a new region is: the granted bytes, a guard page when there are fewer
    than asked for, and the whole request up to its last page. *)
Record entered (b : GVBudget) (start want size : Z) (r : GVRegion) : Prop := {
  en_start : rg_start r = start;
  en_end : start + want <= rg_end r < start + want + bd_page b;
  en_whole : want = size -> rg_limit r = rg_end r /\ rg_span r = rg_end r;
  en_guard : want < size -> rg_end r = start + want /\ rg_limit r = rg_end r + bd_page b /\
    (start + size + bd_page b <= 2 ^ 64 -> rg_span r = page_end (bd_page b) start size /\ start + size <= rg_span r)
}.
Lemma region_of_spec b start want size :
  budget_wf b -> 0 <= start -> start mod bd_page b = 0 -> 0 < want <= size -> size < 2 ^ 64 -> want <= 2 ^ 48 ->
  (want < size -> want mod bd_page b = 0) -> start + with_guard (bd_page b) want size <= 2 ^ 47 ->
  let r := region_of b start want size in
  region_ok (bd_page b) r /\ entered b start want size r /\
  (forall x, x mod bd_page b = 0 -> start + size <= x -> rg_span r <= x).
Proof.
  intros Hwf Hstart Hastart Hwant Hsize Hsmall Hawant Hend. pose proof (bw_page _ Hwf) as Hpage. unfold region_of, with_guard in *.
  assert (Hreal : start + want <= 2 ^ 47).
  { destruct (Z.ltb_spec want size); [rewrite w64_small in Hend by (unfold u64_ok; lia)|]; lia. }
  destruct (page_end_spec (bd_page b) start want Hpage ltac:(lia) ltac:(lia)) as [[_ ?]|(Hown & Hown64 & Haown)]; [lia|].
  set (own := page_end (bd_page b) start want) in *.
  destruct (Z.ltb_spec want size) as [Hless|Hfull].
  - rewrite (w64_small (want + _)) in Hend by (unfold u64_ok; lia). specialize (Hawant Hless).
    assert (Hsw : (start + want) mod bd_page b = 0) by (rewrite Zplus_mod, Hastart, Hawant; apply Z.mod_0_l; lia).
    assert (Howneq : own = start + want).
    { destruct (Z.eq_dec own (start + want)); [done|]. pose proof (align_step (bd_page b) (start + want) own ltac:(lia) Hsw Haown ltac:(lia)). lia. }
    rewrite (w64_small (own + _)) by (unfold u64_ok; lia).
    assert (Halimit : (own + bd_page b) mod bd_page b = 0) by (rewrite Zplus_mod, Haown, Z.mod_same by lia; apply Z.mod_0_l; lia).
    destruct (page_end_spec (bd_page b) start size Hpage ltac:(lia) ltac:(lia)) as [[-> Hwrap]|(Hasked & Hasked64 & Haasked)].
    + rewrite (proj2 (Z.ltb_ge _ 0)) by lia. split_and!.
      * repeat constructor; cbn; try done; lia.
      * constructor; cbn; [done|lia|lia|]. intros _. split_and!; [done|done|lia].
      * intros x Hx Hge. cbn. rewrite Howneq. apply align_step; [lia|done|done|lia].
    + set (asked := page_end (bd_page b) start size) in *.
      assert (Hlimit : own + bd_page b <= asked) by (apply align_step; [lia|done|done|lia]).
      assert (Hspan : (if own + bd_page b <? asked then asked else own + bd_page b) = asked) by (destruct (Z.ltb_spec (own + bd_page b) asked); lia).
      rewrite Hspan. split_and!.
      * repeat constructor; cbn; try done; lia.
      * constructor; cbn; [done|lia|lia|]. intros _. split_and!; [done|done|]. intros _. split; [done|lia].
      * intros x Hx Hge. cbn. apply Z.le_ngt. intros Hlt. pose proof (align_step (bd_page b) x asked ltac:(lia) Hx Haasked Hlt). lia.
  - assert (want = size) as -> by lia. split_and!.
    + repeat constructor; cbn; try done; lia.
    + constructor; cbn; [done|lia|done|lia].
    + intros x Hx Hge. cbn. apply Z.le_ngt. intros Hlt. pose proof (align_step (bd_page b) x own ltac:(lia) Hx Haown Hlt). lia.
Qed.
Lemma enter_ok b start want size :
  budget_wf b -> (length (bd_regions b) < GV_MAX_REGIONS)%nat ->
  0 <= start -> start mod bd_page b = 0 -> 0 < want <= size -> size < 2 ^ 64 -> want <= 2 ^ 48 ->
  (want < size -> want mod bd_page b = 0) -> start + with_guard (bd_page b) want size <= 2 ^ 47 ->
  (forall r, r ∈ bd_regions b -> rg_span r <= start \/ start + size <= rg_start r) ->
  budget_wf (enter b start want size) /\
  exists r, bd_regions (enter b start want size) = bd_regions b ++ [r] /\ entered b start want size r.
Proof.
  intros Hwf Hcount Hstart Hastart Hwant Hsize Hsmall Hawant Hend Hfree.
  destruct (region_of_spec b start want size) as (Hok & Hentered & Hspan); try done.
  change (enter b start want size) with (with_reserved (with_regions b (bd_regions b ++ [region_of b start want size]))
    (w64 (bd_reserved b + (rg_limit (region_of b start want size) - start)))).
  set (r := region_of b start want size) in *. split; [|by exists r].
  pose proof (own_sizes_range _ _ (bw_regions _ Hwf) (bw_count _ Hwf)) as Hsum.
  pose proof (en_start _ _ _ _ _ Hentered) as Hrs. pose proof Hok as [[? ? ?] ? ? ? _].
  apply wf_regions; [done| | | |].
  - rewrite length_app. cbn. lia.
  - apply Forall_app. split; [apply (bw_regions _ Hwf)|by constructor].
  - apply disjoint_app; [apply (bw_disjoint _ Hwf)|]. intros i r' Hr'.
    pose proof (proj1 (Forall_lookup _ _) (bw_regions _ Hwf) i r' Hr') as [_ _ _ _ (? & _)].
    destruct (Hfree r') as [?|?]; [by eapply list_elem_of_lookup_2|right; lia|left; by apply Hspan].
  - assert (Hr : own_size r = rg_limit r - start) by (unfold own_size; lia). clearbody r.
    rewrite tally_app, (bw_reserved _ Hwf). cbn [tally]. rewrite w64_small by (unfold u64_ok; lia). lia.
Qed.
Lemma overlaps_false b start size :
  overlaps_reservation b start size = false ->
  page_end (bd_page b) start size <> 0 /\
  forall r, r ∈ bd_regions b -> rg_span r <= start \/ page_end (bd_page b) start size <= rg_start r.
Proof.
  unfold overlaps_reservation. intros [Hstop Hall]%orb_false_iff. apply Z.eqb_neq in Hstop. split; [done|].
  intros r Hr. destruct (Z.ltb_spec start (rg_span r)) as [Hlt|]; [|by left]. right. apply Z.le_ngt. intros Hgt.
  rewrite <- not_true_iff_false in Hall. apply Hall, existsb_exists. exists r. split; [by apply list_elem_of_In|].
  rewrite (proj2 (Z.ltb_lt _ _) Hlt), (proj2 (Z.ltb_lt _ _) Hgt). done.
Qed.
Lemma free_span_correct {K} `{!Kernel K} b (k : K) from size hole :
  free_span b k from size = hole -> hole <> 0 -> hole < w64 (hole + size) /\ next_free (bd_regions b) hole size = hole.
Proof. unfold free_span. generalize (Z.to_nat 4096). intros steps. apply free_span_spec. Qed.
Lemma relocate_unfold {K} `{!Kernel K} b (k : K) result size mapped prot flags fd :
  exists hole, free_span b k k_header size = hole /\
    relocate b k result size mapped prot flags fd =
      let '(moved, k) := if hole =? 0 then (inr ENOMEM, k) else k_mmap k hole mapped prot flags fd 0 in
      match moved with
      | inl address =>
        if address =? hole then (Some hole, snd (k_munmap k result mapped))
        else (None, snd (k_munmap (snd (k_munmap k address mapped)) result mapped))
      | inr _ => (None, snd (k_munmap k result mapped))
      end.
Proof. by eexists. Qed.
Lemma relocate_spec {K} `{!Kernel K} b (k : K) `{!KernelLaws K (bd_page b)} result size mapped prot flags fd hole k' :
  0 < size < 2 ^ 64 -> 0 <= mapped -> relocate b k result size mapped prot flags fd = (Some hole, k') ->
  0 <= hole /\ hole mod bd_page b = 0 /\ hole + mapped <= 2 ^ 47 /\
  forall r, r ∈ bd_regions b -> rg_span r <= hole \/ hole + size <= rg_start r.
Proof.
  intros Hsize Hmapped Hrun. destruct (relocate_unfold b k result size mapped prot flags fd) as (h & Hfree & Heq).
  rewrite Heq in Hrun. clear Heq. revert Hrun. clear -Hsize Hmapped Hfree KernelLaws0.
  destruct (Z.eqb_spec h 0) as [|Hne]; [done|].
  destruct (k_mmap k h mapped prot flags fd 0) as [[a|e] k1] eqn:Hmap; [|done].
  destruct (Z.eqb_spec a h) as [->|]; [|done]. intros [= <- _].
  destruct (free_span_correct _ _ _ _ _ Hfree Hne) as [Hlt Hnext].
  destruct (kl_mmap k _ _ _ _ _ _ _ _ Hmap) as (Hh & ? & ?).
  assert (Hw : w64 (h + size) = h + size).
  { destruct (Z.lt_ge_cases (h + size) (2 ^ 64)); [apply w64_small; unfold u64_ok; lia|].
    exfalso. unfold w64 in Hlt. rewrite <- (Z_mod_plus_full _ (-1)), Z.mod_small in Hlt; lia. }
  split_and!; [done|done|done|]. intros r Hr. destruct (Z.lt_ge_cases h (rg_span r)) as [Hspan|]; [|by left].
  right. rewrite <- Hw. by apply (next_free_none (bd_regions b)).
Qed.

(** What [gv_reserve] returns. A full table maps the request uncounted. *)
Definition reserved_as (b b' : GVBudget) (size : Z) (result : Z + Z) (granted : Z) : Prop :=
  match result with
  | inr _ => granted = 0 /\ b' = b
  | inl start =>
    if (length (bd_regions b) =? GV_MAX_REGIONS)%nat
    then granted = size /\ length (bd_regions b') = length (bd_regions b) /\ bd_reserved b' = bd_reserved b
    else
      0 < granted <= size /\ granted <= Z.max (bd_budget b - bd_reserved b) (bd_floor b) /\
      (forall r, r ∈ bd_regions b -> rg_span r <= start \/ start + size <= rg_start r) /\
      exists r, bd_regions b' = bd_regions b ++ [r] /\ entered b start granted size r
  end.
Lemma gv_reserve_correct {K} `{!Kernel K} b (k : K) `{!KernelLaws K (bd_page b)} size prot flags fd :
  budget_wf b -> 0 < size < 2 ^ 64 ->
  exists result granted b' k', gv_reserve b k size prot flags fd = Some (result, granted, b', k') /\
    budget_wf b' /\ bd_page b' = bd_page b /\ bd_budget b' = bd_budget b /\ reserved_as b b' size result granted.
Proof.
  intros Hwf Hsize. unfold gv_reserve, reserved_as. pose proof (bw_page _ Hwf) as Hpage. pose proof (bw_budget _ Hwf) as Hbudget.
  pose proof (bw_floor _ Hwf) as [Hfloor Hafloor]. pose proof (bw_count _ Hwf) as Hcount.
  pose proof (own_sizes_range _ _ (bw_regions _ Hwf) Hcount) as Hsum. pose proof (bw_reserved _ Hwf) as Hreserved.
  destruct (length (bd_regions b) =? GV_MAX_REGIONS)%nat eqn:Hfull.
  { destruct (k_mmap k 0 size prot flags fd 0) as [[a|e] k1] eqn:Hmap; [|by exists (inr e), 0, b, k1].
    destruct (kl_mmap k _ _ _ _ _ _ _ _ Hmap) as (? & ? & ?). exists (inl a), size, (claim b a size), k1.
    destruct (claim_wf b a size) as (Hwf' & Hp & Hb); try done; [lia|lia|]. split_and!; try done.
    - unfold claim. pose proof (claim_loop_trimmed (bd_page b) (bd_regions b) a size (length (bd_claims b) <? GV_MAX_CLAIMS)%nat (bw_regions _ Hwf) ltac:(done)) as H2.
      destruct (claim_loop _ _ _ _) as [l f]. destruct f; symmetry; by apply (Forall2_length _ _ _ H2).
    - unfold claim. destruct (claim_loop _ _ _ _) as [l f]. by destruct f. }
  apply Nat.eqb_neq in Hfull. destruct (wanted_spec b size Hwf Hsize) as (Hwant & Hawant & Hmax).
  assert (Hwantsmall : wanted b size <= 2 ^ 48) by lia.
  destruct (reserve_loop_spec 64 RESERVE_FUEL (bd_page b) k size (wanted b size) prot flags fd)
    as (result & want & k1 & -> & Hw & Haw & Hwmax & Hresult); try done.
  { transitivity (1 * 2 ^ 64); [lia|]. apply Z.mul_le_mono_nonneg_r; lia. }
  { unfold RESERVE_FUEL. lia. }
  assert (Hfloorpage : bd_page b <= bd_floor b).
  { apply Z.divide_pos_le; [lia|]. apply Z.mod_divide; [lia|done]. }
  cbn [mbind option_bind]. destruct result as [address|e]; [|by exists (inr e), 0, b, k1].
  destruct Hresult as [k0 Hmap]. destruct (kl_mmap k0 _ _ _ _ _ _ _ _ Hmap) as (Haddress & Haaddress & Hend).
  set (mapped := with_guard (bd_page b) want size) in *. assert (Hmapped : 0 <= mapped).
  { subst mapped. unfold with_guard. destruct (want <? size); [apply w64_range|lia]. }
  set (moves := overlaps_reservation b address size || _).
  destruct (if moves then relocate b k1 address size mapped prot flags fd else (Some address, k1)) as [[start|] k2] eqn:Hplace.
  2: { by exists (inr ENOMEM), 0, b, k2. }
  assert (Hstart : 0 <= start /\ start mod bd_page b = 0 /\ start + mapped <= 2 ^ 47 /\
    forall r, r ∈ bd_regions b -> rg_span r <= start \/ start + size <= rg_start r).
  { destruct moves eqn:Hmoves; [by apply (relocate_spec b k1 address size mapped prot flags fd start k2)|].
    injection Hplace as <- _. split_and!; try done. apply orb_false_iff in Hmoves as [Hover _].
    destruct (overlaps_false _ _ _ Hover) as [Hne Hfree]. intros r Hr. destruct (Hfree r Hr) as [|Hge]; [by left|right].
    destruct (page_end_spec (bd_page b) address size Hpage ltac:(lia) ltac:(lia)) as [[? _]|(? & _)]; [done|lia]. }
  destruct Hstart as (Hs & Has & Hsend & Hfree).
  destruct (enter_ok b start want size) as (Hwf' & r & Hr & Hentered); try done; [lia|lia|lia|].
  eexists (inl start), want, (enter b start want size), _. split; [done|]. split_and!; try done; [lia|lia|lia|by exists r].
Qed.

(** ** Properties *)

(** The budgets a program makes. *)
Inductive gv_reachable (K : Type) `{!Kernel K} (page : Z) : GVBudget -> Prop :=
| gv_reach_init bytes threshold floor :
    0 < page <= 2 ^ 40 -> 0 <= bytes <= 2 ^ 48 -> 0 <= floor <= 2 ^ 48 ->
    gv_reachable K page (gv_init page bytes threshold floor)
| gv_reach_reserve b (k : K) size prot flags fd result granted b' k' :
    gv_reachable K page b -> 0 < size < 2 ^ 64 ->
    gv_reserve b k size prot flags fd = Some (result, granted, b', k') -> gv_reachable K page b'
| gv_reach_map b (k : K) address size prot flags fd offset result b' k' :
    gv_reachable K page b -> 0 <= size < 2 ^ 64 ->
    gv_map b k address size prot flags fd offset = Some (result, b', k') -> gv_reachable K page b'
| gv_reach_call b (k : K) operation address size value code b' k' :
    gv_reachable K page b -> 0 <= address < 2 ^ 64 -> 0 <= size < 2 ^ 64 ->
    gv_call operation b k address size value = Some (code, b', k') -> gv_reachable K page b'.

Lemma gv_init_wf page bytes threshold floor :
  0 < page <= 2 ^ 40 -> 0 <= bytes <= 2 ^ 48 -> 0 <= floor <= 2 ^ 48 -> budget_wf (gv_init page bytes threshold floor).
Proof.
  intros Hpage Hbytes Hfloor. constructor; cbn; try done; [|lia..].
  destruct (Z.ltb_spec page floor); [|split; [lia|apply Z.mod_same; lia]].
  pose proof (Z.mod_pos_bound floor page ltac:(lia)). split; [lia|].
  rewrite Zminus_mod, Z.mod_mod, Z.sub_diag by lia. apply Z.mod_0_l. lia.
Qed.
Lemma gv_call_wf {K} `{!Kernel K} operation b (k : K) address size value code b' k' :
  budget_wf b -> 0 <= address < 2 ^ 64 -> 0 <= size < 2 ^ 64 ->
  gv_call operation b k address size value = Some (code, b', k') -> budget_wf b' /\ bd_page b' = bd_page b.
Proof.
  intros Hwf Haddress Hsize. destruct (gv_enabled (Some b)) eqn:Henabled.
  2: { unfold gv_call. rewrite Henabled. destruct (call _ _ _ _ _). by intros [= _ <- _]. }
  destruct (Z.eq_dec size 0) as [->|Hne].
  { unfold gv_call, apply. rewrite Henabled. cbn [Z.eqb]. destruct (call _ _ _ _ _). by intros [= _ <- _]. }
  pose proof (gv_call_correct operation b k address size value Hwf Henabled Haddress ltac:(lia)) as H.
  destruct (valid_request b address size); [|rewrite H; by intros [= _ <- _]].
  destruct H as [[_ ->]|(_ & c & b1 & ps & -> & _ & Hwf1 & Hpage1 & _)]; intros [= _ <- _]; done.
Qed.
Lemma gv_map_wf {K} `{!Kernel K} b (k : K) `{!KernelLaws K (bd_page b)} address size prot flags fd offset result b' k' :
  budget_wf b -> 0 <= size < 2 ^ 64 ->
  gv_map b k address size prot flags fd offset = Some (result, b', k') -> budget_wf b' /\ bd_page b' = bd_page b.
Proof.
  intros Hwf Hsize. destruct (gv_enabled (Some b)) eqn:Henabled.
  2: { unfold gv_map. rewrite Henabled. cbn [negb]. destruct (k_mmap _ _ _ _ _ _ _). by intros [= _ <- _]. }
  destruct (gv_map_correct b k address size prot flags fd offset Hwf Henabled Hsize) as (hint & _ & _ & [(_ & _ & ->)|(_ & b1 & -> & ? & ? & _)]);
    by intros [= _ <- _].
Qed.

(** C15: Whatever an application reserves, maps, protects and unmaps, the ranges
    its reservations asked for never overlap, every region lies in its range
    page by page, and the bytes counted are exactly those of the regions' own
    mappings, guard pages included: none is released twice. *)
Theorem gv_reachable_wf (K : Type) `{!Kernel K} page `{!KernelLaws K page} b :
  gv_reachable K page b -> budget_wf b /\ bd_page b = page.
Proof.
  induction 1 as [bytes threshold floor ? ? ?|b k size prot flags fd result granted b' k' _ [Hwf Hpage] Hsize Hrun
    |b k address size prot flags fd offset result b' k' _ [Hwf Hpage] Hsize Hrun
    |b k operation address size value code b' k' _ [Hwf Hpage] Haddress Hsize Hrun].
  - split; [by apply gv_init_wf|done].
  - subst page. destruct (gv_reserve_correct b k size prot flags fd Hwf Hsize) as (? & ? & ? & ? & Heq & ? & ? & _).
    rewrite Heq in Hrun. by injection Hrun as _ _ <- _.
  - subst page. exact (gv_map_wf b k address size prot flags fd offset result b' k' Hwf Hsize Hrun).
  - subst page. exact (gv_call_wf operation b k address size value code b' k' Hwf Haddress Hsize Hrun).
Qed.
(** C14: Memory an application was not given is left alone: [munmap], [mprotect] and
    [madvise] always end, and hand the kernel exactly the bytes of the pages
    they name that are not missing, each once and in order (guard pages only to
    [munmap]); an [mprotect] that would make a guard page or a missing part
    usable, and a malformed range, reach the kernel not at all. *)
Theorem gv_call_spec {K} `{!Kernel K} operation b (k : K) address size value :
  budget_wf b -> gv_enabled (Some b) = true -> 0 <= address < 2 ^ 64 -> 0 < size < 2 ^ 64 ->
  if valid_request b address size then
    (forbidden operation value b address size /\ gv_call operation b k address size value = Some (Some ENOMEM, b, k)) \/
    (~ forbidden operation value b address size /\ exists code b' ps,
       gv_call operation b k address size value = Some (code, b', called operation value k ps) /\
       (operation <> UNMAP -> b' = b) /\ budget_wf b' /\ bd_page b' = bd_page b /\ bd_budget b' = bd_budget b /\
       pieces (page_end (bd_page b) address size) address ps /\
       (forall x, covered ps x <-> address <= x < page_end (bd_page b) address size /\
                                   ~ left_alone operation (byte_class b address x)))
  else gv_call operation b k address size value = Some (Some EINVAL, b, k).
Proof. apply gv_call_correct. Qed.
(** A reservation always ends. One that fails changes nothing; one that
    succeeds is granted no more than it asked for, nor than the budget has left
    or the floor; a shortened one ends in a guard page; and the whole range it
    asked for lies outside every other reservation's. *)
Theorem gv_reserve_spec {K} `{!Kernel K} b (k : K) `{!KernelLaws K (bd_page b)} size prot flags fd :
  budget_wf b -> 0 < size < 2 ^ 64 ->
  exists result granted b' k', gv_reserve b k size prot flags fd = Some (result, granted, b', k') /\
    budget_wf b' /\ bd_page b' = bd_page b /\ bd_budget b' = bd_budget b /\ reserved_as b b' size result granted.
Proof. by apply gv_reserve_correct. Qed.

(** A whole reservation is never missing a part, but after the application
    unmaps its tail the tail counts as missing: a fixed mapping there, which
    the kernel would take, is refused. (A hole in the middle is not.) *)
Theorem gv_unmap_tail_missing {K} `{!Kernel K} b (k k' : K) start tail stop :
  budget_wf b -> gv_enabled (Some b) = true ->
  bd_regions b = [mkRegion start stop stop stop] -> bd_claims b = [] ->
  start < tail < stop -> 0 < tail -> tail mod bd_page b = 0 ->
  k_munmap k tail (stop - tail) = (None, k') ->
  exists b', gv_unmap b k tail (stop - tail) = Some (None, b', k') /\
    forall size prot flags fd offset, 0 < size <= stop - tail -> Z.land flags MAP_FIXED <> 0 ->
      gv_map b' k' tail size prot flags fd offset = Some (inr ENOMEM, b', k').
Proof.
  intros Hwf Henabled Hregions Hclaims Htail Hpositive Haligned Hmunmap.
  pose proof (bw_regions _ Hwf) as Hok. rewrite Hregions in Hok. apply Forall_cons in Hok as [[_ Hs Hl _ (_ & _ & Hastop & _)] _].
  cbn in Hs, Hl, Hastop. pose proof (bw_page _ Hwf) as Hpage.
  assert (Hend : page_end (bd_page b) tail (stop - tail) = stop).
  { destruct (page_end_spec (bd_page b) tail (stop - tail) Hpage ltac:(lia) ltac:(lia)) as [[_ ?]|(Hrange & _ & Ha)]; [lia|].
    set (e := page_end (bd_page b) tail (stop - tail)) in *. apply Z.le_antisymm; [|lia]. apply Z.le_ngt. intros Hgt.
    pose proof (align_step (bd_page b) stop e ltac:(lia) Hastop Ha Hgt). lia. }
  set (b' := with_reserved (with_regions b [mkRegion start tail tail stop]) (w64 (bd_reserved b - (stop - tail)))).
  assert (Hin : in_range tail start stop = true) by (apply in_range_spec; lia).
  assert (Hout : in_range tail start tail = false) by (apply in_range_false; lia).
  exists b'. split.
  - unfold gv_unmap, gv_call, apply. rewrite Henabled, Hend. rewrite (proj2 (Z.eqb_neq (stop - tail) 0)) by lia.
    rewrite (proj2 (Z.eqb_neq stop 0)), Haligned by lia. cbn [orb negb Z.eqb].
    unfold anchor_at. rewrite Hregions. cbn [find_anchor rg_start rg_limit]. rewrite Hin. cbn [is_protect andb mbind option_bind].
    unfold turns. rewrite Hregions. cbn [length Nat.mul Nat.add apply_loop].
    rewrite (proj2 (Z.ltb_lt tail stop)) by lia. cbn [negb]. unfold part. rewrite Hin, Hregions. cbn [own_loop].
    unfold owns. cbn [rg_start rg_limit rg_end]. rewrite Hin, (proj2 (Z.ltb_lt tail stop)) by lia. rewrite !Z.min_id.
    cbn [skipped]. unfold call. rewrite Hmunmap. cbn [released is_unmap]. unfold forget at 1. rewrite Hregions. cbn [lookup list_lookup rg_start rg_limit rg_end rg_span].
    rewrite (proj2 (Z.leb_gt tail start)) by lia. rewrite Z.leb_refl, (proj2 (Z.ltb_lt tail stop)) by lia.
    change (<[0%nat := mkRegion start tail tail stop]> [mkRegion start stop stop stop]) with [mkRegion start tail tail stop].
    fold b'. rewrite Z.ltb_irrefl. cbn [negb mbind option_bind]. unfold sweep, sweep_loop. cbn [bd_regions b' with_reserved with_regions length lookup list_lookup rg_start rg_limit].
    by rewrite (proj2 (Z.ltb_lt start tail)) by lia.
  - intros size prot flags fd offset Hsize Hfixed. unfold gv_map. change (gv_enabled (Some b')) with (gv_enabled (Some b)).
    rewrite Henabled. cbn [negb]. unfold anchor_at. cbn [bd_regions bd_claims b' with_reserved with_regions find_anchor rg_start rg_limit].
    rewrite Hout, Hclaims. cbn [find_anchor default]. rewrite (proj2 (Z.eqb_neq tail 0)) by lia.
    unfold turns. cbn [bd_regions b' with_reserved with_regions length Nat.mul Nat.add reaches_loop].
    rewrite w64_small by (unfold u64_ok; lia). rewrite (proj2 (Z.ltb_lt tail (tail + size))) by lia. cbn [negb].
    unfold part. rewrite (proj2 (in_range_false tail tail tail)) by lia. cbn [bd_regions b' with_reserved with_regions missing_loop].
    unfold lacks. cbn [rg_limit rg_span]. rewrite (proj2 (in_range_spec tail tail stop)) by lia. cbn [denied mbind option_bind].
    by rewrite (proj2 (Z.eqb_neq (Z.land flags MAP_FIXED) 0)).
Qed.

(** ** Witnesses *)

Definition whole_budget : GVBudget :=
  mkBudget 0x400000 0x100000 0x100000 0x4000 0x200000 [mkRegion 0x200000000 0x200200000 0x200200000 0x200200000] [].
Definition log0 : Log := mkLog 0x200000000 [].
Lemma example_budget_wf : budget_wf example_budget.
Proof. apply gv_init_wf; lia. Qed.
Lemma whole_reachable : gv_reachable Log 0x4000 whole_budget.
Proof.
  destruct reserve_whole as [k Hk]. eapply (gv_reach_reserve Log 0x4000 example_budget log0 0x200000 3 0x1002 (-1)).
  - apply gv_reach_init; lia.
  - lia.
  - exact Hk.
Qed.
Lemma whole_wf : budget_wf whole_budget.
Proof.
  constructor; try done.
  - cbn. unfold GV_MAX_REGIONS. lia.
  - cbn. lia.
  - repeat constructor; cbn; done || lia.
  - intros [|[|i]] [|[|j]] r r' Hne Hi Hj; cbn in Hi, Hj; done.
Qed.
Lemma gv_reachable_wf_witness :
  gv_reachable Log 0x4000 whole_budget /\ bd_reserved whole_budget = tally own_size (bd_regions whole_budget).
Proof. split; [exact whole_reachable|]. apply (gv_reachable_wf Log 0x4000 whole_budget whole_reachable). Defined.
Lemma gv_call_spec_witness :
  valid_request whole_budget 0x200100000 0x4000 = true /\
  exists code b' k', gv_unmap whole_budget log0 0x200100000 0x4000 = Some (code, b', k') /\ budget_wf b'.
Proof.
  assert (valid_request whole_budget 0x200100000 0x4000 = true) as Hvalid by (vm_compute; reflexivity). split; [exact Hvalid|].
  pose proof (gv_call_spec UNMAP whole_budget log0 0x200100000 0x4000 0 whole_wf eq_refl ltac:(lia) ltac:(lia)) as H.
  rewrite Hvalid in H. destruct H as [[[H _] _]|(_ & code & b' & ps & H & _ & Hwf & _)]; [discriminate H|].
  exists code, b'. eexists. split; [exact H|exact Hwf].
Defined.
Lemma gv_reserve_spec_witness :
  exists result granted b' k', gv_reserve example_budget log0 0x800000 3 0x1002 (-1) = Some (result, granted, b', k') /\
    reserved_as example_budget b' 0x800000 result granted.
Proof.
  destruct (gv_reserve_spec example_budget log0 0x800000 3 0x1002 (-1) example_budget_wf ltac:(lia))
    as (result & granted & b' & k' & H & _ & _ & _ & Hr).
  exists result, granted, b', k'. split; [exact H|exact Hr].
Defined.
Lemma gv_unmap_tail_missing_witness :
  exists b' k', gv_unmap whole_budget log0 0x200100000 0x100000 = Some (None, b', k') /\
    gv_map b' k' 0x200100000 0x4000 3 0x1012 (-1) 0 = Some (inr ENOMEM, b', k').
Proof.
  destruct (@gv_unmap_tail_missing Log log_kernel whole_budget log0 (mkLog 0x200000000 [(UNMAP, 0x200100000, 0x100000)])
              0x200000000 0x200100000 0x200200000 whole_wf eq_refl eq_refl eq_refl ltac:(lia) ltac:(lia) eq_refl ltac:(vm_compute; reflexivity)) as (b' & H & Hmap).
  exists b', (mkLog 0x200000000 [(UNMAP, 0x200100000, 0x100000)]). split; [exact H|].
  apply Hmap; [lia|vm_compute; discriminate].
Defined.
