(* ===== verification/SignedImage.v ===== *)
(** * SignedImage: page containers (runtime/SignedImage.c)

    A page container is a signed library whose __TEXT holds an application's
    final code pages. This file models the checks made before it is used: where
    the pages are, that they are this guest's, and which of them differ from the
    guest's original bytes. The host's memory is a parameter: the byte at each
    address. *)
From S2P Require Import Prelude GuestMemory GuestImage.

(** The container's copy of the guest's __TEXT: its address and size. *)
Record SIImage := mkSIImage { si_address : Z; si_size : Z }.
Definition MH_MAGIC_64 : Z := 0xfeedfacf.
Definition VM_PROT_READ_EXECUTE : Z := 5.

(** ** Comparing bytes *)

Definition differs (x y : list Z) (i : nat) : bool := negb (bool_decide (x !! i = y !! i)).
Fixpoint byte_loop (n i : nat) (x y : list Z) (count first : nat) : nat * nat :=
  match n with
  | O => (count, first)
  | S n =>
    if differs x y i then byte_loop n (S i) x y (S count) (if (count =? 0)%nat then i else first)
    else byte_loop n (S i) x y count first
  end.
(** Blocks of 4096 bytes, the equal ones skipped. *)
Definition CHUNK : nat := Z.to_nat 4096.
Fixpoint chunk_loop (fuel : nat) (x y : list Z) (size chunk count first : nat) : nat * nat :=
  match fuel with
  | O => (count, first)
  | S fuel =>
    if (chunk <? size)%nat then
      let n := if (size - chunk <? CHUNK)%nat then (size - chunk)%nat else CHUNK in
      let '(count, first) :=
        if bool_decide (slice chunk n x = slice chunk n y) then (count, first) else byte_loop n chunk x y count first in
      chunk_loop fuel x y size (chunk + CHUNK) count first
    else (count, first)
  end.
(** The number of differing bytes and the offset of the first. *)
Definition si_count_mismatches (x y : list Z) (size : nat) : nat * nat := chunk_loop (S size) x y size 0 0 size.

(** ** The guest's original bytes *)

Definition original_page (m : GuestMemory) (address : Z) : list Z :=
  match gm_pages m !! lower m address with
  | Some p => if gp_address p =? address then page_bytes p else zero_bytes
  | None => zero_bytes
  end.

Section host.
Context (host : Z -> Z).

(** ** The container *)

(** The fields of the __TEXT segment command, and of the section at the marker. *)
Record Text := mkText { tx_vmaddr : Z; tx_vmsize : Z; tx_fileoff : Z; tx_filesize : Z; tx_initprot : Z }.
Fixpoint text_sections (n : nat) (header at_ vmaddr v1 : Z) (found : option (Z * Z)) : option (option (Z * Z)) :=
  match n with
  | O => Some found
  | S n =>
    let candidate := host_bytes host at_ 80 in
    let addr := le64 candidate 32 in
    let size := le64 candidate 40 in
    if (size =? 0) || negb (w64 (header + w64 (addr - vmaddr)) =? v1)
    then text_sections n header (at_ + 80) vmaddr v1 found else
    bad bool_decide (is_Some found);
    text_sections n header (at_ + 80) vmaddr v1 (Some (addr, size))
  end.
Definition container_segment (header cursor cmdsize v1 : Z) (text : option Text) (found : option (Z * Z))
    : option (option Text * option (Z * Z)) :=
  bad cmdsize <? 72;
  let s := host_bytes host (header + cursor) 72 in
  bad (cmdsize - 72) / 80 <? le32 s 64;
  if named (slice 8 16 s) str_TEXT then
    bad bool_decide (is_Some text);
    found ← text_sections (Z.to_nat (le32 s 64)) header (header + cursor + 72) (le64 s 24) v1 found;
    Some (Some (mkText (le64 s 24) (le64 s 32) (le64 s 40) (le64 s 48) (le32 s 60)), found)
  else Some (text, found).
Fixpoint container_commands (n : nat) (header cursor commands_end v1 : Z) (text : option Text) (found : option (Z * Z))
    : option (Z * option Text * option (Z * Z)) :=
  match n with
  | O => Some (cursor, text, found)
  | S n =>
    bad negb (within cursor 8 commands_end);
    let lc := host_bytes host (header + cursor) 8 in
    let cmdsize := le32 lc 4 in
    bad (cmdsize <? 8) || negb (Z.land cmdsize 7 =? 0) || negb (within cursor cmdsize commands_end);
    '(text, found) ← (if le32 lc 0 =? LC_SEGMENT_64 then container_segment header cursor cmdsize v1 text found
                      else Some (text, found));
    container_commands n header (cursor + cmdsize) commands_end v1 text found
  end.
Definition si_locate_image (header v1 final : Z) : option SIImage :=
  bad (v1 =? 0) || (final =? 0) || negb (v1 =? final);
  bad (header =? 0) || negb (header mod GM_PAGE_SIZE =? 0);
  let mh := host_bytes host header 32 in
  bad negb (le32 mh 0 =? MH_MAGIC_64) || negb (le32 mh 4 =? CPU_TYPE_ARM64);
  bad GM_PAGE_SIZE - 32 <? le32 mh 20;
  let commands_end := 32 + le32 mh 20 in
  '(cursor, text, found) ← container_commands (Z.to_nat (le32 mh 16)) header 32 commands_end v1 None None;
  bad negb (cursor =? commands_end);
  text ← text;
  bad negb (tx_fileoff text =? 0) || negb (Z.land (tx_initprot text) 7 =? VM_PROT_READ_EXECUTE);
  '(addr, size) ← found;
  let limit := if tx_filesize text <? tx_vmsize text then tx_filesize text else tx_vmsize text in
  let offset := w64 (addr - tx_vmaddr text) in
  bad (addr <? tx_vmaddr text) || negb (within offset size limit);
  bad negb (offset mod GM_PAGE_SIZE =? 0);
  bad negb (size mod GM_PAGE_SIZE =? 0);
  Some (mkSIImage v1 size).

(** ** The guest *)

Fixpoint text_loop (segments : list GISegment) (executable : nat) (text : option GISegment) : nat * option GISegment :=
  match segments with
  | [] => (executable, text)
  | s :: segments =>
    if Z.land (sg_prot s) GM_EXEC =? 0 then text_loop segments executable text
    else text_loop segments (S executable) (if bool_decide (sg_name s = str_TEXT) then Some s else text)
  end.
Definition match_guest (image : SIImage) (guest : GuestImage) : option unit :=
  let '(executable, text) := text_loop (gi_segments guest) 0 None in
  bad negb (executable =? 1)%nat;
  text ← text;
  bad (sg_size text =? 0) || negb (sg_address text =? gi_header_address guest) ||
      negb (sg_address text mod GM_PAGE_SIZE =? 0) || negb (sg_size text mod GM_PAGE_SIZE =? 0);
  bad negb (si_size image =? sg_size text);
  let page := original_page (gi_memory guest) (gi_header_address guest) in
  bad negb (le32 page 0 =? MH_MAGIC_64);
  bad GM_PAGE_SIZE - 32 <? le32 page 20;
  let size := 32 + le32 page 20 in
  let '(differing, _) := si_count_mismatches page (host_bytes host (si_address image) size) (Z.to_nat size) in
  bad negb (differing =? 0)%nat;
  Some tt.
Definition si_match_guest (image : SIImage) (guest : GuestImage) : bool := bool_decide (is_Some (match_guest image guest)).
(** The end of the last page that differs from the guest's original bytes. *)
Fixpoint shadow_loop (n : nat) (image : SIImage) (guest : GuestImage) (offset shadow : Z) : Z :=
  match n with
  | O => shadow
  | S n =>
    shadow_loop n image guest (offset + GM_PAGE_SIZE)
      (if bool_decide (original_page (gi_memory guest) (gi_header_address guest + offset) =
                       host_bytes host (si_address image + offset) GM_PAGE_SIZE)
       then shadow else offset + GM_PAGE_SIZE)
  end.
Definition si_shadow_size (image : SIImage) (guest : GuestImage) : option Z :=
  let base := gi_header_address guest in
  let size := si_size image in
  bad (size =? 0) || negb (size mod GM_PAGE_SIZE =? 0) || negb (base mod GM_PAGE_SIZE =? 0) || (UINT64_MAX - base <? size);
  let shadow := shadow_loop (Z.to_nat (size / GM_PAGE_SIZE)) image guest 0 0 in
  let initializer := w64 (gi_first_initializer guest - base) in
  bad (gi_initializer_count guest =? 0) || (gi_first_initializer guest <? base) || (size <=? initializer);
  bad initializer <? shadow;
  Some shadow.
End host.

(** ** Comparing bytes *)

(** The reference: the differing offsets, in order. *)
Definition mismatches (x y : list Z) (i n : nat) : list nat := List.filter (differs x y) (seq i n).
Definition counted_from (count first : nat) (ms : list nat) : nat * nat :=
  ((count + length ms)%nat, if (count =? 0)%nat then default first (head ms) else first).

Lemma mismatches_app x y i n m : mismatches x y i (n + m) = mismatches x y i n ++ mismatches x y (i + n) m.
Proof. unfold mismatches. by rewrite seq_app, List.filter_app. Qed.
Lemma counted_from_app count first ms ms' :
  counted_from (counted_from count first ms).1 (counted_from count first ms).2 ms' = counted_from count first (ms ++ ms').
Proof.
  unfold counted_from. cbn [fst snd]. rewrite length_app. f_equal; [lia|].
  destruct count as [|count]; cbn [Nat.add Nat.eqb]; [|done]. by destruct ms as [|i ms].
Qed.
Lemma byte_loop_spec n i x y count first : byte_loop n i x y count first = counted_from count first (mismatches x y i n).
Proof.
  revert i count first. induction n as [|n IH]; intros i count first; cbn [byte_loop].
  - unfold counted_from. cbn. f_equal; [lia|by destruct count].
  - unfold mismatches. cbn [seq List.filter]. fold (mismatches x y (S i) n).
    destruct (differs x y i); rewrite IH; unfold counted_from; cbn [length head default Nat.eqb]; [|done].
    f_equal. lia.
Qed.
Lemma mismatches_equal x y i n : slice i n x = slice i n y -> mismatches x y i n = [].
Proof.
  intros Heq. unfold mismatches. assert (Hall : forall j, j ∈ seq i n -> differs x y j = false).
  { intros j Hj%elem_of_seq. unfold differs. apply negb_false_iff, bool_decide_eq_true.
    apply (f_equal (fun l => l !! (j - i)%nat)) in Heq. rewrite !lookup_slice in Heq by lia.
    by replace (i + (j - i))%nat with j in Heq by lia. }
  revert Hall. generalize (seq i n). intros l. induction l as [|j l IH]; intros Hall; cbn; [done|].
  rewrite Hall by (by left). apply IH. intros k Hk. apply Hall. by right.
Qed.
Lemma chunk_loop_spec fuel x y size chunk count first :
  (size < fuel + chunk)%nat -> chunk_loop fuel x y size chunk count first = counted_from count first (mismatches x y chunk (size - chunk)).
Proof.
  assert (Hchunk : (0 < CHUNK)%nat) by (unfold CHUNK; lia).
  revert chunk count first. induction fuel as [|fuel IH]; intros chunk count first Hfuel; cbn [chunk_loop].
  { replace (size - chunk)%nat with 0%nat by lia. unfold counted_from. cbn. f_equal; [lia|by destruct count]. }
  destruct (Nat.ltb_spec chunk size) as [Hlt|Hge].
  2: { replace (size - chunk)%nat with 0%nat by lia. unfold counted_from. cbn. f_equal; [lia|by destruct count]. }
  set (n := if (size - chunk <? CHUNK)%nat then (size - chunk)%nat else CHUNK).
  assert (Hn : (n <= size - chunk /\ (n = CHUNK \/ n = size - chunk /\ size <= chunk + CHUNK))%nat).
  { subst n. destruct (Nat.ltb_spec (size - chunk) CHUNK); lia. }
  assert (Hstep : (if bool_decide (slice chunk n x = slice chunk n y) then (count, first) else byte_loop n chunk x y count first) =
            counted_from count first (mismatches x y chunk n)).
  { case_bool_decide as Heq; [|apply byte_loop_spec]. rewrite mismatches_equal by done. unfold counted_from. cbn.
    f_equal; [lia|by destruct count]. }
  rewrite Hstep. destruct (counted_from count first (mismatches x y chunk n)) as [count' first'] eqn:Hcounted.
  rewrite IH by lia. replace (size - chunk)%nat with (n + (size - (chunk + n)))%nat by lia.
  rewrite mismatches_app, <- counted_from_app, Hcounted. cbn [fst snd].
  destruct Hn as [_ [->|[-> Hend]]]; [done|]. replace (size - (chunk + CHUNK))%nat with 0%nat by lia.
  by replace (size - (chunk + (size - chunk)))%nat with 0%nat by lia.
Qed.
(** The block-wise comparison counts what a byte-wise one does. *)
Lemma si_count_mismatches_spec x y size :
  si_count_mismatches x y size = (length (mismatches x y 0 size), default size (head (mismatches x y 0 size))).
Proof. unfold si_count_mismatches. rewrite chunk_loop_spec by lia. by rewrite Nat.sub_0_r. Qed.
Lemma count_zero x y size i : (si_count_mismatches x y size).1 = 0%nat -> (i < size)%nat -> x !! i = y !! i.
Proof.
  rewrite si_count_mismatches_spec. cbn [fst]. intros Hnone%length_zero_iff_nil Hi.
  destruct (decide (x !! i = y !! i)) as [|Hne]; [done|]. exfalso.
  assert (In i (mismatches x y 0 size)) as Hin; [|by rewrite Hnone in Hin].
  apply filter_In. split; [apply in_seq; lia|]. unfold differs. by rewrite bool_decide_eq_false_2.
Qed.

(** ** The guest's original bytes *)

(** What the guest's memory holds at an address, zero where nothing is. *)
Definition original (m : GuestMemory) (x : Z) : Z := default 0 (c_byte <$> cell m x).
Lemma original_page_spec m base :
  memory_wf m -> base mod GM_PAGE_SIZE = 0 ->
  Forall byte_ok (original_page m base) /\ length (original_page m base) = Z.to_nat GM_PAGE_SIZE /\
  forall i, 0 <= i < GM_PAGE_SIZE -> original_page m base !! Z.to_nat i = Some (original m (base + i)).
Proof.
  intros Hm Hbase. pose proof (page_of_lower m base Hm) as Hpage. unfold original_page.
  assert (Horiginal : forall i, 0 <= i < GM_PAGE_SIZE -> original m (base + i) =
            default 0 (default zero_bytes (page_bytes <$> page_of m base) !! Z.to_nat i)).
  { intros i Hi. unfold original, cell. rewrite (page_unique base) by (done || lia).
    replace (base + i - (base + i - base)) with base by lia. destruct (page_of m base) as [p|]; cbn.
    - unfold page_cell. cbn. rewrite (page_unique base) by (done || lia). by replace (base + i - base) with i by lia.
    - symmetry. apply lookup_zero_bytes. }
  assert (exists bs, (match gm_pages m !! lower m base with
    | Some p => if gp_address p =? base then page_bytes p else zero_bytes
    | None => zero_bytes end) = bs /\ bs = default zero_bytes (page_bytes <$> page_of m base) /\ length bs = Z.to_nat GM_PAGE_SIZE /\ Forall byte_ok bs)
    as (bs & -> & Hbs & Hlen & Hok).
  { rewrite Hpage. destruct (gm_pages m !! lower m base) as [p|] eqn:Hp; [|exists zero_bytes; split_and!; done || apply length_zero_bytes || apply zero_bytes_ok].
    destruct (gp_address p =? base); [|exists zero_bytes; split_and!; done || apply length_zero_bytes || apply zero_bytes_ok].
    assert (page_wf p) as Hwf; [|exists (page_bytes p); by destruct (page_bytes_wf p Hwf); split_and!].
    eapply (proj1 (Forall_lookup _ _)); [apply (memory_wf_pages _ Hm)|done]. }
  split; [done|]. split; [done|]. intros i Hi. rewrite Horiginal by done. rewrite <- Hbs.
  destruct (lookup_lt_is_Some_2 bs (Z.to_nat i)) as [b Hb]; [unfold GM_PAGE_SIZE in *; lia|]. by rewrite Hb.
Qed.

Section checks.
Context (host : Z -> Z).

Lemma text_loop_spec segments executable text n t :
  text_loop segments executable text = (n, t) ->
  (executable <= n)%nat /\
  (n = executable -> t = text /\ Forall (fun s => Z.land (sg_prot s) GM_EXEC = 0) segments) /\
  (n = S executable -> forall s, t = Some s -> text = None ->
     s ∈ segments /\ Z.land (sg_prot s) GM_EXEC <> 0 /\ sg_name s = str_TEXT /\
     forall s', s' ∈ segments -> Z.land (sg_prot s') GM_EXEC <> 0 -> s' = s).
Proof.
  revert executable text. induction segments as [|s0 segments IH]; intros executable text; cbn [text_loop].
  { intros [= <- <-]. split_and!; [lia|done|lia]. }
  destruct (Z.eqb_spec (Z.land (sg_prot s0) GM_EXEC) 0) as [Hno|Hexec]; intros H; apply IH in H as (Hle & Hsame & Hone).
  - split_and!; [done| |].
    + intros Hn. destruct (Hsame Hn) as [-> Hall]. split; [done|by constructor].
    + intros Hn s Hs Htext. destruct (Hone Hn s Hs Htext) as (Hin & He & Hname & Honly). split_and!; [by right|done|done|].
      intros s' [->|Hin']%elem_of_cons He'; [done|by apply Honly].
  - split_and!; [lia|lia|]. intros -> s Hs ->. destruct (Hsame eq_refl) as [-> Hall].
    case_bool_decide as Hname; [|done]. injection Hs as ->. split_and!; [by left|done|done|].
    intros s' [->|Hin']%elem_of_cons He'; [done|]. by rewrite Forall_forall in Hall; rewrite (Hall s' Hin') in He'.
Qed.

(** C17: A container that matches a guest was made for it: the guest's one executable
    segment is its __TEXT at the header, of the container's size, and the
    container starts with the guest's own header and load commands, all in the
    first page. *)
Theorem si_match_guest_spec image guest :
  memory_wf (gi_memory guest) -> si_match_guest host image guest = true ->
  exists text size, text ∈ gi_segments guest /\ sg_name text = str_TEXT /\ Z.land (sg_prot text) GM_EXEC <> 0 /\
    (forall s, s ∈ gi_segments guest -> Z.land (sg_prot s) GM_EXEC <> 0 -> s = text) /\
    sg_address text = gi_header_address guest /\ sg_address text mod GM_PAGE_SIZE = 0 /\
    sg_size text = si_size image /\ si_size image mod GM_PAGE_SIZE = 0 /\
    size = 32 + le32 (original_page (gi_memory guest) (gi_header_address guest)) 20 /\ size <= GM_PAGE_SIZE /\
    forall i, 0 <= i < size -> original (gi_memory guest) (gi_header_address guest + i) = host (si_address image + i).
Proof.
  intros Hm Hmatch. apply bool_decide_eq_true in Hmatch as [u Hmatch]. unfold match_guest in Hmatch.
  destruct (text_loop (gi_segments guest) 0 None) as [executable text] eqn:Htext.
  returned Hmatch. apply negb_false_iff, Nat.eqb_eq in Hok as ->.
  apply bind_Some in Hmatch as (t & -> & Hmatch). do 3 (apply bad_Some in Hmatch as [? Hmatch]). bool_props.
  apply bad_Some in Hmatch as [Hcmds Hmatch].
  set (page := original_page (gi_memory guest) (gi_header_address guest)) in *.
  set (size := 32 + le32 page 20) in *.
  destruct (si_count_mismatches page (host_bytes host (si_address image) size) (Z.to_nat size)) as [differing first] eqn:Hcount.
  apply bad_Some in Hmatch as [Hdiffering _]. apply negb_false_iff, Nat.eqb_eq in Hdiffering as ->.
  destruct (text_loop_spec _ _ _ _ _ Htext) as (_ & _ & Hone). destruct (Hone eq_refl t eq_refl eq_refl) as (Hin & Hexec & Hname & Honly).
  assert (Haddress : sg_address t = gi_header_address guest) by done.
  assert (Hbase : gi_header_address guest mod GM_PAGE_SIZE = 0) by congruence.
  destruct (original_page_spec (gi_memory guest) (gi_header_address guest) Hm Hbase) as (Hok & _ & Hbytes).
  assert (Hsize : 32 <= size <= GM_PAGE_SIZE).
  { pose proof (le_value_range (slice 20 4 page) (Forall_slice _ _ _ _ Hok)). subst size. unfold le32 in *. bool_props. lia. }
  exists t, size. split_and!; try done; try lia; try congruence.
  intros i Hi. assert (Heq : page !! Z.to_nat i = host_bytes host (si_address image) size !! Z.to_nat i).
  { apply (count_zero _ _ (Z.to_nat size)); [by rewrite Hcount|lia]. }
  subst page. rewrite Hbytes, lookup_host_bytes in Heq by lia. by injection Heq.
Qed.

(** ** The rewritten range *)

Definition same_page (image : SIImage) (guest : GuestImage) (k : Z) : Prop :=
  original_page (gi_memory guest) (gi_header_address guest + k) = host_bytes host (si_address image + k) GM_PAGE_SIZE.
Lemma shadow_loop_spec n image guest offset shadow :
  0 <= shadow <= offset -> offset mod GM_PAGE_SIZE = 0 -> shadow mod GM_PAGE_SIZE = 0 ->
  let r := shadow_loop host n image guest offset shadow in
  shadow <= r <= offset + Z.of_nat n * GM_PAGE_SIZE /\ r mod GM_PAGE_SIZE = 0 /\
  (forall k, offset <= k < offset + Z.of_nat n * GM_PAGE_SIZE -> k mod GM_PAGE_SIZE = 0 -> r <= k -> same_page image guest k) /\
  (r = shadow \/ (offset < r /\ ~ same_page image guest (r - GM_PAGE_SIZE))).
Proof.
  revert offset shadow. induction n as [|n IH]; intros offset shadow Hshadow Hoffset Haligned; cbn [shadow_loop].
  { split_and!; [lia|lia|done|lia|by left]. }
  assert (Hnext : (offset + GM_PAGE_SIZE) mod GM_PAGE_SIZE = 0).
  { rewrite Zplus_mod, Hoffset, Z_mod_same_full. done. }
  set (same := bool_decide _). assert (Hsame : if same then same_page image guest offset else ~ same_page image guest offset).
  { subst same. by case_bool_decide. }
  destruct (IH (offset + GM_PAGE_SIZE) (if same then shadow else offset + GM_PAGE_SIZE)) as (Hr & Ha & Hall & Hlast);
    [unfold GM_PAGE_SIZE in *; destruct same; lia|done|by destruct same|].
  rewrite Nat2Z.inj_succ, Z.mul_succ_l.
  set (r := shadow_loop _ _ _ _ _ _) in *. assert (HP : 0 < GM_PAGE_SIZE) by (unfold GM_PAGE_SIZE; lia).
  pose proof (Z.mul_nonneg_nonneg (Z.of_nat n) GM_PAGE_SIZE ltac:(lia) ltac:(lia)).
  split_and!; [destruct same; lia|lia|done| |].
  - intros k Hk Hak Hrk. destruct (Z.eq_dec k offset) as [->|Hne].
    + destruct same; [done|]. lia.
    + apply Hall; [|done|done]. split; [|lia]. by apply align_step; [| | |lia].
  - destruct Hlast as [Hlast|[Hlast Hno]]; [|right; split; [lia|done]]. destruct same; [by left|]. right. rewrite Hlast.
    split; [lia|]. by replace (offset + GM_PAGE_SIZE - GM_PAGE_SIZE) with offset by lia.
Qed.
Lemma same_page_bytes image guest k i :
  memory_wf (gi_memory guest) -> gi_header_address guest mod GM_PAGE_SIZE = 0 -> k mod GM_PAGE_SIZE = 0 ->
  same_page image guest k -> 0 <= i < GM_PAGE_SIZE ->
  original (gi_memory guest) (gi_header_address guest + (k + i)) = host (si_address image + (k + i)).
Proof.
  intros Hm Hbase Hk Hsame Hi.
  destruct (original_page_spec (gi_memory guest) (gi_header_address guest + k) Hm) as (_ & _ & Hbytes).
  { rewrite Zplus_mod, Hbase, Hk. done. }
  specialize (Hbytes i Hi). rewrite Hsame, lookup_host_bytes in Hbytes by done. injection Hbytes as Hb.
  by rewrite !Z.add_assoc, Hb.
Qed.
Lemma bytes_same_page image guest k :
  memory_wf (gi_memory guest) -> gi_header_address guest mod GM_PAGE_SIZE = 0 -> k mod GM_PAGE_SIZE = 0 ->
  (forall i, 0 <= i < GM_PAGE_SIZE -> original (gi_memory guest) (gi_header_address guest + (k + i)) = host (si_address image + (k + i))) ->
  same_page image guest k.
Proof.
  intros Hm Hbase Hk Hall.
  destruct (original_page_spec (gi_memory guest) (gi_header_address guest + k) Hm) as (_ & Hlen & Hbytes).
  { rewrite Zplus_mod, Hbase, Hk. done. }
  apply (list_eq_same_length _ _ (Z.to_nat GM_PAGE_SIZE)); [apply length_host_bytes|done|]. intros i x y Hi Hx Hy.
  assert (Hz : 0 <= Z.of_nat i < GM_PAGE_SIZE) by lia. rewrite <- (Nat2Z.id i), Hbytes in Hx by done.
  rewrite <- (Nat2Z.id i), lookup_host_bytes in Hy by done. injection Hx as <-. injection Hy as <-.
  rewrite <- !Z.add_assoc. by apply Hall.
Qed.
(** The range a container may rewrite ends exactly with the last page in which
    the container differs from the guest's original bytes: everything after it is
    the guest's own, and the first initializer, which rebuilds the range, lies
    there. *)
Theorem si_shadow_size_spec image guest shadow :
  memory_wf (gi_memory guest) -> 0 <= si_size image -> si_shadow_size host image guest = Some shadow ->
  let base := gi_header_address guest in
  0 <= shadow <= si_size image /\ shadow mod GM_PAGE_SIZE = 0 /\ gi_initializer_count guest <> 0 /\
  shadow <= w64 (gi_first_initializer guest - base) < si_size image /\
  (forall i, shadow <= i < si_size image -> original (gi_memory guest) (base + i) = host (si_address image + i)) /\
  (0 < shadow -> exists k, shadow = k + GM_PAGE_SIZE /\
     ~ (forall i, 0 <= i < GM_PAGE_SIZE -> original (gi_memory guest) (base + (k + i)) = host (si_address image + (k + i)))).
Proof.
  intros Hm Hsize0 Hrun base. subst base. unfold si_shadow_size in Hrun. cbv zeta in Hrun. apply bad_Some in Hrun as [Hrange Hrun].
  apply bad_Some in Hrun as [Hinit Hrun]. apply bad_Some in Hrun as [Hcover Hrun]. injection Hrun as <-. bool_props.
  set (size := si_size image) in *. set (base := gi_header_address guest) in *.
  assert (HP : 0 < GM_PAGE_SIZE) by (unfold GM_PAGE_SIZE; lia).
  assert (Hsize : size = Z.of_nat (Z.to_nat (size / GM_PAGE_SIZE)) * GM_PAGE_SIZE).
  { pose proof (Z.div_mod size GM_PAGE_SIZE ltac:(lia)). pose proof (Z.div_pos size GM_PAGE_SIZE ltac:(lia) HP).
    rewrite Z2Nat.id by done. lia. }
  destruct (shadow_loop_spec (Z.to_nat (size / GM_PAGE_SIZE)) image guest 0 0) as (Hr & Ha & Hall & Hlast); [lia|done|done|].
  set (shadow := shadow_loop host _ image guest 0 0) in *. rewrite <- Hsize, Z.add_0_l in *.
  split_and!; [lia|lia|done|done|lia|lia| |].
  - intros i Hi. set (k := i - i mod GM_PAGE_SIZE). pose proof (Z.mod_pos_bound i GM_PAGE_SIZE HP) as Hmod.
    assert (Hk : k mod GM_PAGE_SIZE = 0) by (unfold k; rewrite Zminus_mod, Z.mod_mod, Z.sub_diag by lia; done).
    assert (Hsk : shadow <= k).
    { apply Z.le_ngt. intros Hlt. pose proof (align_step _ _ _ HP Hk Ha Hlt). unfold k in *. lia. }
    replace i with (k + i mod GM_PAGE_SIZE) by (unfold k; lia).
    apply same_page_bytes; try done. apply Hall; [lia|done|done].
  - intros Hpos. exists (shadow - GM_PAGE_SIZE). split; [lia|]. destruct Hlast as [|[_ Hno]]; [lia|]. intros Hsame. apply Hno.
    apply bytes_same_page; try done. rewrite Zminus_mod, Ha, Z_mod_same_full. done.
Qed.

(** ** The container *)

(** The __TEXT segment command at an offset of the container, and a section of
    it, all inside the first page. *)
Record text_command (header cursor : Z) (t : Text) : Prop := {
  tc_range : 32 <= cursor /\ cursor + 72 <= GM_PAGE_SIZE;
  tc_command : le32 (host_bytes host (header + cursor) 8) 0 = LC_SEGMENT_64;
  tc_name : named (slice 8 16 (host_bytes host (header + cursor) 72)) str_TEXT = true;
  tc_fields : let s := host_bytes host (header + cursor) 72 in
    t = mkText (le64 s 24) (le64 s 32) (le64 s 40) (le64 s 48) (le32 s 60)
}.
Record marked_section (header v1 : Z) (t : Text) (addr size : Z) : Prop := {
  ms_bytes : exists at_, header + 104 <= at_ /\ at_ + 80 <= header + GM_PAGE_SIZE /\
    addr = le64 (host_bytes host at_ 80) 32 /\ size = le64 (host_bytes host at_ 80) 40;
  ms_size : size <> 0;
  ms_start : w64 (header + w64 (addr - tx_vmaddr t)) = v1
}.
Definition walked (header v1 : Z) (text : option Text) (found : option (Z * Z)) : Prop :=
  (forall t, text = Some t -> exists cursor, text_command header cursor t) /\
  (forall addr size, found = Some (addr, size) -> exists t, text = Some t /\ marked_section header v1 t addr size).

Lemma le32_host_range a n i : (forall x, byte_ok (host x)) -> 0 <= le32 (host_bytes host a n) i.
Proof.
  intros Hok. apply (le_value_range (slice i 4 (host_bytes host a n))). apply Forall_slice.
  unfold host_bytes. apply Forall_fmap, Forall_true. intros. apply Hok.
Qed.
Lemma le64_host_range a n i : (forall x, byte_ok (host x)) -> 0 <= le64 (host_bytes host a n) i < 2 ^ 64.
Proof.
  intros Hok. unfold le64. assert (Hbytes : Forall byte_ok (slice i 8 (host_bytes host a n))).
  { apply Forall_slice. unfold host_bytes. apply Forall_fmap, Forall_true. intros. apply Hok. }
  pose proof (le_value_range _ Hbytes) as [H1 H2]. split; [done|]. eapply Z.lt_le_trans; [done|].
  apply Z.pow_le_mono_r; [lia|]. unfold slice. rewrite length_take. lia.
Qed.
Lemma text_sections_spec n header at_ v1 t found found' :
  header + 104 <= at_ -> at_ + 80 * Z.of_nat n <= header + GM_PAGE_SIZE ->
  (forall addr size, found = Some (addr, size) -> marked_section header v1 t addr size) ->
  text_sections host n header at_ (tx_vmaddr t) v1 found = Some found' ->
  forall addr size, found' = Some (addr, size) -> marked_section header v1 t addr size.
Proof.
  revert at_ found. induction n as [|n IH]; intros at_ found Hlow Hhigh Hfound; cbn [text_sections]; [by intros [= <-]|].
  destruct (Z.eqb_spec (le64 (host_bytes host at_ 80) 40) 0) as [|Hsize]; cbn [orb]; [apply IH; [lia|lia|done]|].
  destruct (Z.eqb_spec (w64 (header + w64 (le64 (host_bytes host at_ 80) 32 - tx_vmaddr t))) v1) as [Hstart|]; cbn [negb].
  - intros H. returned H. eapply IH; [| | |exact H]; [lia|lia|]. intros addr size [= <- <-].
    constructor; [|done|done]. exists at_. split_and!; [lia|lia|done|done].
  - apply IH; [lia|lia|done].
Qed.
Lemma container_segment_spec header cursor cmdsize v1 text found text' found' :
  (forall x, byte_ok (host x)) -> 32 <= cursor -> cursor + cmdsize <= GM_PAGE_SIZE ->
  le32 (host_bytes host (header + cursor) 8) 0 = LC_SEGMENT_64 ->
  walked header v1 text found -> container_segment host header cursor cmdsize v1 text found = Some (text', found') ->
  walked header v1 text' found'.
Proof.
  intros Hok Hcursor Hend Hcommand [Htext Hfound]. unfold container_segment. intros H.
  apply bad_Some in H as [Hcmd H]. cbv zeta in H. apply bad_Some in H as [Hsects H]. bool_props.
  pose proof (le32_host_range (header + cursor) 72 64 Hok) as Hnsects.
  set (s := host_bytes host (header + cursor) 72) in *.
  assert (Hsections : 72 + 80 * le32 s 64 <= cmdsize).
  { pose proof (Z.mul_div_le (cmdsize - 72) 80 ltac:(lia)). lia. }
  destruct (named (slice 8 16 s) str_TEXT) eqn:Hname; [|by injection H as <- <-].
  apply bad_Some in H as [Hnone H]. apply bool_decide_eq_false in Hnone. apply bind_Some in H as (found1 & Hsec & H).
  injection H as <- <-. assert (text = None) as -> by (destruct text; [by destruct Hnone|done]).
  set (t := mkText (le64 s 24) (le64 s 32) (le64 s 40) (le64 s 48) (le32 s 60)).
  split.
  - intros ? [= <-]. exists cursor. constructor; try done. split; [done|lia].
  - intros addr size ->. exists t. split; [done|].
    refine (text_sections_spec _ _ _ _ t found _ _ _ _ Hsec addr size eq_refl); [lia|lia|].
    intros a z Hf. destruct (Hfound a z Hf) as (? & ? & _). done.
Qed.
Lemma container_commands_spec n header cursor commands_end v1 text found cursor' text' found' :
  (forall x, byte_ok (host x)) -> 32 <= cursor -> commands_end <= GM_PAGE_SIZE -> walked header v1 text found ->
  container_commands host n header cursor commands_end v1 text found = Some (cursor', text', found') ->
  walked header v1 text' found'.
Proof.
  intros Hok. revert cursor text found. induction n as [|n IH]; intros cursor text found Hcursor Hend Hwalked; cbn [container_commands].
  { by intros [= _ <- <-]. }
  intros H. apply bad_Some in H as [_ H]. cbv zeta in H. apply bad_Some in H as [Hcmd H]. bool_props.
  apply bind_Some in H as ([text1 found1] & Hstep & H). unfold within in *. bool_props.
  eapply IH; [| | |exact H]; [lia|done|].
  destruct (Z.eqb_spec (le32 (host_bytes host (header + cursor) 8) 0) LC_SEGMENT_64) as [Hseg|]; [|by injection Hstep as <- <-].
  refine (container_segment_spec _ _ _ _ _ _ _ _ Hok Hcursor _ Hseg Hwalked Hstep). lia.
Qed.
(** A container that is located starts its pages at both markers: at the start of
    a section of its __TEXT segment, described in its first page, that maps the
    header read and execute, and inside the file-backed bytes that the signature
    covers. *)
Theorem si_locate_image_spec header v1 final image :
  (forall x, byte_ok (host x)) -> si_locate_image host header v1 final = Some image ->
  final = v1 /\ si_address image = v1 /\ header mod GM_PAGE_SIZE = 0 /\ si_size image mod GM_PAGE_SIZE = 0 /\ 0 < si_size image /\
  exists cursor t addr, text_command header cursor t /\ marked_section header v1 t addr (si_size image) /\
    tx_fileoff t = 0 /\ Z.land (tx_initprot t) 7 = VM_PROT_READ_EXECUTE /\
    tx_vmaddr t <= addr /\ (addr - tx_vmaddr t) mod GM_PAGE_SIZE = 0 /\
    addr - tx_vmaddr t + si_size image <= Z.min (tx_filesize t) (tx_vmsize t).
Proof.
  intros Hok H. unfold si_locate_image in H. do 2 (apply bad_Some in H as [? H]). cbv zeta in H.
  do 2 (apply bad_Some in H as [? H]). apply bind_Some in H as ([[cursor text] found] & Hcommands & H). bool_props.
  apply bad_Some in H as [_ H]. apply bind_Some in H as (t & -> & H). apply bad_Some in H as [Hmaps H].
  apply bind_Some in H as ([addr size] & -> & H). apply bad_Some in H as [Hinside H].
  apply bad_Some in H as [Haligned H]. apply bad_Some in H as [Hpages H]. injection H as <-. unfold within in *. bool_props.
  assert (walked header v1 (Some t) (Some (addr, size))) as [Htext Hfound].
  { eapply container_commands_spec; [done| | | |exact Hcommands]; [lia|lia|by split]. }
  destruct (Htext t eq_refl) as [at_ Hat]. destruct (Hfound addr size eq_refl) as (t' & [= <-] & Hsection).
  destruct (ms_bytes _ _ _ _ _ Hsection) as (p & _ & _ & Haddr & Hsize). pose proof (ms_size _ _ _ _ _ Hsection) as Hne.
  pose proof (le64_host_range p 80 32 Hok). pose proof (le64_host_range p 80 40 Hok).
  pose proof (tc_fields _ _ _ Hat) as Hfields. cbv zeta in Hfields.
  assert (Hvm : 0 <= tx_vmaddr t) by (rewrite Hfields; apply le64_host_range; done).
  rewrite w64_small in * by (unfold u64_ok; lia). cbn [si_size si_address].
  split_and!; try done; [lia|]. exists at_, t, addr. split_and!; try done.
  destruct (tx_filesize t <? tx_vmsize t) eqn:E; bool_props; lia.
Qed.
End checks.

(** ** Witnesses *)

(** A container mapped at [0x200000000] whose second page is the guest's __TEXT. *)
Definition container_file : list Z :=
  concat [le_bytes 4 MH_MAGIC_64; le_bytes 4 CPU_TYPE_ARM64; le_bytes 4 0; le_bytes 4 MH_DYLIB;
          le_bytes 4 1; le_bytes 4 152; le_bytes 8 0;
          le_bytes 4 LC_SEGMENT_64; le_bytes 4 152; str_TEXT ++ replicate 10 0;
          le_bytes 8 0; le_bytes 8 0x8000; le_bytes 8 0; le_bytes 8 0x8000;
          le_bytes 4 5; le_bytes 4 5; le_bytes 4 1; le_bytes 4 0;
          replicate 16 0; str_TEXT ++ replicate 10 0; le_bytes 8 0x4000; le_bytes 8 0x4000; replicate 32 0].
Definition container_host (x : Z) : Z :=
  if x <? 0x200004000 then default 0 (container_file !! Z.to_nat (x - 0x200000000))
  else default 0 (example_file !! Z.to_nat (x - 0x200004000)).
Definition container_image : SIImage := mkSIImage 0x200004000 0x4000.
Definition guest_page : list Z := example_file ++ replicate (Z.to_nat 16384 - length example_file) 0.
Definition guest_memory : GuestMemory :=
  set_pages gm_empty [mkGMPage 0x100000000 (Some guest_page) 5 5 false].
Definition container_guest : GuestImage :=
  mkImage guest_memory [example_segment] 0 132 0x100000080 0x100000080 1 0x4000 0x4000 no_dyld 2 None None
    0x100000000 0 no_unwind no_tls [] [] false false [].
Lemma container_host_ok x : byte_ok (container_host x).
Proof.
  assert (forallb (fun b => (0 <=? b) && (b <? 256)) container_file = true) as H1 by (vm_compute; reflexivity).
  assert (forall l n, Forall byte_ok l -> byte_ok (default 0 (l !! n))) as Hdefault.
  { intros l n Hl. destruct (l !! n) as [b|] eqn:Hb; cbn; [by eapply (proj1 (Forall_lookup _ _) Hl)|unfold byte_ok; lia]. }
  unfold container_host. destruct (x <? 0x200004000); apply Hdefault; [|apply example_file_ok].
  rewrite forallb_forall in H1. apply Forall_forall. intros b Hb%list_elem_of_In. specialize (H1 b Hb). unfold byte_ok. lia.
Qed.
Lemma guest_page_ok : length guest_page = Z.to_nat GM_PAGE_SIZE /\ Forall byte_ok guest_page.
Proof.
  unfold guest_page. split; [vm_compute; reflexivity|]. apply Forall_app_2; [apply example_file_ok|].
  apply Forall_replicate. unfold byte_ok. lia.
Qed.
Lemma guest_memory_wf : memory_wf guest_memory.
Proof.
  constructor; unfold guest_memory; cbn [gm_pages set_pages].
  - by repeat constructor.
  - constructor; [|done]. constructor; cbn [gp_address gp_bytes]; try done.
    intros bs Hbs. injection Hbs as <-. exact guest_page_ok.
Qed.
Lemma si_locate_image_spec_witness :
  si_locate_image container_host 0x200000000 0x200004000 0x200004000 = Some container_image /\ 0 < si_size container_image.
Proof.
  assert (si_locate_image container_host 0x200000000 0x200004000 0x200004000 = Some container_image) as H by (vm_compute; reflexivity).
  split; [exact H|].
  destruct (si_locate_image_spec container_host _ _ _ _ container_host_ok H) as (_ & _ & _ & _ & Hpos & _). exact Hpos.
Defined.
Lemma si_match_guest_spec_witness :
  si_match_guest container_host container_image container_guest = true /\
  exists text, text ∈ gi_segments container_guest /\ sg_size text = si_size container_image.
Proof.
  assert (si_match_guest container_host container_image container_guest = true) as H by (vm_compute; reflexivity).
  split; [exact H|].
  destruct (si_match_guest_spec container_host container_image container_guest guest_memory_wf H) as (text & size & Hin & _ & _ & _ & _ & _ & Hsize & _).
  exists text. split; [exact Hin|exact Hsize].
Defined.
