(* ===== verification/SparseRegions.v ===== *)
(** * SparseRegions: the reservation list of the sparse address space
    (runtime/GuestSparseMemory.c)

    The sparse address space records what is mapped in an array of at most 256
    regions, sorted, disjoint and coalesced. This file holds the data, [append],
    the checks and the rebuilding loop of [change], and [check_access]; their
    specification is the partial function [perm_at] from addresses to
    permissions. *)
From S2P Require Import Prelude GuestMemory.

(** ** Data *)

Definition REGION_LIMIT : nat := 256.
Record Region := mkRegion { r_start : Z; r_end : Z; r_prot : Z; r_maxprot : Z }.
Inductive Operation := MAP | UNMAP | PROTECT.
#[export] Instance Operation_eq_dec : EqDecision Operation.
Proof. solve_decision. Defined.

Definition op_is (op op' : Operation) : bool := bool_decide (op = op').

(** ** Operations *)

(** [None] is the failing append; the array and its count are one list. *)
Definition append (regions : list Region) (r : Region) : option (list Region) :=
  let push := if (length regions =? REGION_LIMIT)%nat then None else Some (regions ++ [r]) in
  if r_start r =? r_end r then Some regions else
  match last regions with
  | Some q =>
    if (r_end q =? r_start r) && (r_prot q =? r_prot r) && (r_maxprot q =? r_maxprot r)
    then Some (<[pred (length regions) := mkRegion (r_start q) (r_end r) (r_prot q) (r_maxprot q)]>
                 regions)
    else push
  | None => push
  end.

(** The first loop of [change]: overlap for a map, coverage for a protect. *)
Fixpoint check_loop (rs : list Region) (a stop covered : Z) (replace : bool) (op : Operation)
    : GMResult * Z :=
  match rs with
  | [] => (GM_OK, covered)
  | r :: rs =>
    if (r_end r <=? a) || (stop <=? r_start r) then check_loop rs a stop covered replace op else
    if op_is op MAP && negb replace then (GM_OVERLAP, covered) else
    if op_is op PROTECT then
      if covered <? r_start r then (GM_UNMAPPED, covered)
      else check_loop rs a stop (if r_end r <? stop then r_end r else stop) replace op
    else check_loop rs a stop covered replace op
  end.

Definition change_check (rs : list Region) (a stop prot : Z) (replace : bool) (op : Operation)
    : GMResult :=
  let '(result, covered) := check_loop rs a stop a replace op in
  if negb (bool_decide (result = GM_OK)) then result else
  if op_is op PROTECT && negb (covered =? stop) then GM_UNMAPPED else
  if op_is op PROTECT &&
     existsb (fun r => (a <? r_end r) && (r_start r <? stop) && negb (none_outside prot (r_maxprot r))) rs
  then GM_PROTECTION else GM_OK.

(** [if (c && !append(next, &count, r)) goto full;] *)
Definition append_if (c : bool) (next : list Region) (r : Region) : option (list Region) :=
  if c then append next r else Some next.

(** The loop that writes the next region list; [None] is [goto full]. *)
Fixpoint rebuild (rs next : list Region) (inserted : bool) (a stop prot maxprot : Z)
    (op : Operation) : option (list Region) :=
  match rs with
  | [] => append_if (negb inserted) next (mkRegion a stop prot maxprot)
  | r :: rs =>
    if r_end r <=? a then
      next ← append next r; rebuild rs next inserted a stop prot maxprot op
    else
      next ← append_if (negb inserted && (r_start r <? a)) next
               (mkRegion (r_start r) a (r_prot r) (r_maxprot r));
      next ← append_if (negb inserted) next (mkRegion a stop prot maxprot);
      if stop <=? r_start r then
        next ← append next r; rebuild rs next true a stop prot maxprot op
      else
        next ← append_if (negb (op_is op MAP) && (r_start r <? a)) next
                 (mkRegion (r_start r) a (r_prot r) (r_maxprot r));
        next ← append_if (op_is op PROTECT) next
                 (mkRegion (if a <? r_start r then r_start r else a)
                    (if r_end r <? stop then r_end r else stop) prot (r_maxprot r));
        next ← append_if (stop <? r_end r) next
                 (mkRegion stop (r_end r) (r_prot r) (r_maxprot r));
        rebuild rs next true a stop prot maxprot op
  end.

(** The loop of [check_access], and its answer after it. *)
Fixpoint covered_loop (rs : list Region) (covered stop permission : Z) : GMResult * Z :=
  match rs with
  | [] => (GM_OK, covered)
  | r :: rs =>
    if negb (covered <? stop) then (GM_OK, covered) else
    if r_end r <=? covered then covered_loop rs covered stop permission else
    if covered <? r_start r then (GM_OK, covered) else
    if negb (has_all (r_prot r) permission) then (GM_PROTECTION, covered) else
    covered_loop rs (if r_end r <? stop then r_end r else stop) stop permission
  end.
Definition check_covered (rs : list Region) (a n permission : Z) : GMResult :=
  let '(result, covered) := covered_loop rs a (a + n) permission in
  if negb (bool_decide (result = GM_OK)) then result else
  if covered =? a + n then GM_OK else GM_UNMAPPED.

(** [gm_sparse_find_free]: the loop's candidate. *)
Fixpoint free_loop (rs : list Region) (candidate size : Z) : Z :=
  match rs with
  | [] => candidate
  | r :: rs =>
    if size <=? r_start r - candidate then candidate else free_loop rs (r_end r) size
  end.

(** ** Specification *)

Definition in_region (r : Region) (x : Z) : bool := (r_start r <=? x) && (x <? r_end r).
(** The permissions and maximum permissions at an address. *)
Fixpoint perm_at (rs : list Region) (x : Z) : option (Z * Z) :=
  match rs with
  | [] => None
  | r :: rs => if in_region r x then Some (r_prot r, r_maxprot r) else perm_at rs x
  end.

Definition mergeable (p q : Region) : Prop :=
  r_end p = r_start q /\ r_prot p = r_prot q /\ r_maxprot p = r_maxprot q.
Record region_ok (r : Region) : Prop := {
  region_nonempty : r_start r < r_end r;
  region_start : r_start r mod GM_PAGE_SIZE = 0;
  region_end : r_end r mod GM_PAGE_SIZE = 0;
  region_prot : none_outside (r_prot r) (r_maxprot r) = true;
  region_maxprot : none_outside (r_maxprot r) 7 = true
}.
(** Sorted, disjoint, and no two neighbours that could be one region. *)
Definition before (p q : Region) : Prop := r_end p <= r_start q /\ ~ mergeable p q.
Record regions_wf (rs : list Region) : Prop := {
  regions_wf_ok : Forall region_ok rs;
  regions_wf_sorted : StronglySorted before rs
}.

(** ** The denotation of a list *)

Lemma perm_at_app l1 l2 x :
  perm_at (l1 ++ l2) x = match perm_at l1 x with Some v => Some v | None => perm_at l2 x end.
Proof. induction l1 as [|r l1 IH]; [done|]. cbn. by destruct (in_region r x). Qed.

Lemma in_region_spec r x : in_region r x = true <-> r_start r <= x < r_end r.
Proof. unfold in_region. lia. Qed.

Lemma perm_at_Some rs x v :
  perm_at rs x = Some v ->
  exists r, r ∈ rs /\ r_start r <= x < r_end r /\ v = (r_prot r, r_maxprot r).
Proof.
  induction rs as [|r rs IH]; [done|]. cbn. destruct (in_region r x) eqn:E.
  - intros [= <-]. exists r. split; [by left|]. by apply in_region_spec in E.
  - intros H. destruct (IH H) as (q & ? & ?). exists q. split; [by right|done].
Qed.
Lemma perm_at_None rs x :
  (forall r, r ∈ rs -> ~ (r_start r <= x < r_end r)) -> perm_at rs x = None.
Proof.
  intros H. destruct (perm_at rs x) as [v|] eqn:E; [|done].
  apply perm_at_Some in E as (r & Hr & Hx & _). by destruct (H r Hr).
Qed.

Lemma regions_wf_app l1 l2 :
  regions_wf (l1 ++ l2) <->
  regions_wf l1 /\ regions_wf l2 /\ forall p q, p ∈ l1 -> q ∈ l2 -> before p q.
Proof.
  split.
  - intros [Hok Hs]. apply Forall_app in Hok as [? ?]. apply StronglySorted_app in Hs as (Hb & ? & ?).
    split; [by split|]. split; [by split|]. done.
  - intros ([Hok1 Hs1] & [Hok2 Hs2] & Hb). split; [by apply Forall_app|].
    apply StronglySorted_app. done.
Qed.
Lemma regions_wf_cons r rs :
  regions_wf (r :: rs) <-> region_ok r /\ regions_wf rs /\ forall q, q ∈ rs -> before r q.
Proof.
  rewrite (regions_wf_app [r] rs). split.
  - intros ([Hok _] & ? & Hb). pose proof (Forall_inv Hok).
    do 2 (split; [done|]). intros q Hq. apply Hb; [by left|done].
  - intros (Hok & Hrs & Hb). split; [|split; [done|]].
    + split; [by constructor; [|constructor]|by constructor; constructor].
    + intros p q ->%list_elem_of_singleton. apply Hb.
Qed.

(** In a well formed list a region is the only one at its addresses. *)
Lemma perm_at_region rs r x :
  regions_wf rs -> r ∈ rs -> r_start r <= x < r_end r ->
  perm_at rs x = Some (r_prot r, r_maxprot r).
Proof.
  induction rs as [|p rs IH]; intros Hwf Hr Hx; [by apply not_elem_of_nil in Hr|].
  apply regions_wf_cons in Hwf as (_ & Hrs & Hb). cbn.
  apply elem_of_cons in Hr as [->|Hr].
  - by rewrite (proj2 (in_region_spec _ _) Hx).
  - destruct (in_region p x) eqn:E; [|by apply IH]. apply in_region_spec in E.
    destruct (Hb r Hr) as [? _]. lia.
Qed.

(** ** [append] *)

(** The list under construction holds the target [T] below the frontier [p]. *)
Record upto (T : Z -> option (Z * Z)) (next : list Region) (p : Z) : Prop := {
  upto_wf : regions_wf next;
  upto_ends : forall r, r ∈ next -> r_end r <= p;
  upto_perm : forall x, x < p -> perm_at next x = T x
}.

Lemma perm_at_beyond next p x : (forall r, r ∈ next -> r_end r <= p) -> p <= x -> perm_at next x = None.
Proof. intros Hends Hx. apply perm_at_None. intros r Hr. specialize (Hends r Hr). lia. Qed.

Lemma upto_extend T next p q :
  upto T next p -> p <= q -> (forall x, p <= x < q -> T x = None) -> upto T next q.
Proof.
  intros [Hwf Hends Hperm] Hpq HT. split; [done| |].
  - intros r Hr. specialize (Hends r Hr). lia.
  - intros x Hx. destruct (decide (x < p)); [by apply Hperm|].
    rewrite (perm_at_beyond next p) by (done || lia). symmetry. apply HT. lia.
Qed.

(** What a successful append leaves: the same denotation, with the new region. *)
Record appended (next : list Region) (r : Region) (next' : list Region) : Prop := {
  appended_wf : regions_wf next';
  appended_ends : forall q, q ∈ next' -> r_end q <= r_end r;
  appended_perm : forall x, perm_at next' x =
    if in_region r x then Some (r_prot r, r_maxprot r) else perm_at next x;
  appended_length : (length next' <= S (length next))%nat
}.

Lemma regions_wf_singleton r : region_ok r -> regions_wf [r].
Proof.
  intros. apply regions_wf_cons. split; [done|]. split; [by repeat constructor|].
  by intros q Hq%elem_of_nil.
Qed.

(** Only the last region can touch the new one. *)
Lemma before_last l q r :
  regions_wf (l ++ [q]) -> r_end q <= r_start r -> ~ mergeable q r ->
  forall p, p ∈ l ++ [q] -> before p r.
Proof.
  intros Hwf Hq Hnm p Hp. apply regions_wf_app in Hwf as (_ & Hqw & Hb).
  apply elem_of_app in Hp as [Hp|Hp%list_elem_of_singleton]; [|by subst p].
  destruct (Hb p q Hp ltac:(by left)) as [Hpq _].
  apply regions_wf_cons in Hqw as (Hqok & _). pose proof (region_nonempty q Hqok).
  split; [lia|]. intros (Hend & _). lia.
Qed.

Lemma appended_push next r :
  regions_wf next -> (forall q, q ∈ next -> r_end q <= r_start r) -> region_ok r ->
  (forall p, p ∈ next -> before p r) -> appended next r (next ++ [r]).
Proof.
  intros Hwf Hends Hr Hb. pose proof (region_nonempty r Hr). split.
  - apply regions_wf_app. split; [done|]. split; [by apply regions_wf_singleton|].
    intros p q Hp ->%list_elem_of_singleton. by apply Hb.
  - intros q [Hq|Hq%list_elem_of_singleton]%elem_of_app; [|by subst q].
    specialize (Hends q Hq). lia.
  - intros x. rewrite perm_at_app. cbn.
    destruct (in_region r x) eqn:E; [|by destruct (perm_at next x)].
    apply in_region_spec in E. by rewrite (perm_at_beyond next (r_start r)) by (done || lia).
  - rewrite length_app. cbn. lia.
Qed.

Lemma appended_merge l q r :
  regions_wf (l ++ [q]) -> mergeable q r -> region_ok r ->
  appended (l ++ [q]) r (l ++ [mkRegion (r_start q) (r_end r) (r_prot q) (r_maxprot q)]).
Proof.
  intros Hwf (Hend & Hprot & Hmax) Hr. pose proof (region_nonempty r Hr) as Hne.
  apply regions_wf_app in Hwf as (Hl & Hq & Hb). apply regions_wf_cons in Hq as (Hq & _).
  pose proof (region_nonempty q Hq) as Hneq.
  assert (forall p, p ∈ l -> before p q) as Hbq by (intros p Hp; apply Hb; [done|by left]).
  split.
  - apply regions_wf_app. split; [done|]. split.
    + apply regions_wf_singleton. destruct Hq, Hr. split; cbn; [lia|done..].
    + intros p ? Hp ->%list_elem_of_singleton. by apply Hbq.
  - intros p [Hp|Hp%list_elem_of_singleton]%elem_of_app; [|by subst p].
    destruct (Hbq p Hp) as [? _]. lia.
  - intros x. rewrite !perm_at_app. cbn.
    assert (perm_at l x = None \/ in_region r x = false) as [E|E].
    { destruct (in_region r x) eqn:E; [left|by right]. apply in_region_spec in E.
      apply perm_at_None. intros p Hp Hx. destruct (Hbq p Hp) as [? _]. lia. }
    + rewrite E, Hprot, Hmax. unfold in_region; cbn [r_start r_end r_prot r_maxprot].
      destruct (Z.leb_spec (r_start q) x), (Z.ltb_spec x (r_end q)), (Z.leb_spec (r_start r) x),
        (Z.ltb_spec x (r_end r)); cbn; try done; lia.
    + rewrite E. destruct (perm_at l x); [done|]. unfold in_region in *.
      cbn [r_start r_end r_prot r_maxprot].
      destruct (Z.leb_spec (r_start q) x), (Z.ltb_spec x (r_end q)), (Z.leb_spec (r_start r) x),
        (Z.ltb_spec x (r_end r)); cbn in *; try done; lia.
  - rewrite !length_app. cbn. lia.
Qed.

Lemma append_Some next r next' :
  regions_wf next -> (forall q, q ∈ next -> r_end q <= r_start r) -> region_ok r ->
  append next r = Some next' -> appended next r next'.
Proof.
  intros Hwf Hends Hr. pose proof (region_nonempty r Hr) as Hne. unfold append.
  destruct (Z.eqb_spec (r_start r) (r_end r)); [lia|].
  destruct (last next) as [q|] eqn:Hlast.
  - apply last_Some in Hlast as [l ->].
    destruct (_ && _) eqn:Emg; bool_props.
    + intros [= <-]. rewrite length_app, Nat.add_1_r. cbn [pred length].
      rewrite insert_app_r_alt, Nat.sub_diag by lia. by apply appended_merge.
    + destruct (_ =? _)%nat; [done|]. intros [= <-]. apply appended_push; [done..|].
      apply before_last; [done| |].
      * apply Hends, elem_of_app. right. by left.
      * intros (? & ? & ?). apply andb_false_iff in Emg as [Emg|Emg]; bool_props; [|done].
        apply andb_false_iff in Emg as [Emg|Emg]; bool_props; done.
  - apply last_None in Hlast as ->. cbn. intros [= <-].
    apply (appended_push []); [done..|]. by intros p Hp%elem_of_nil.
Qed.

Lemma append_None next r : append next r = None -> length next = REGION_LIMIT.
Proof.
  unfold append. destruct (_ =? _); [done|].
  destruct (Nat.eqb_spec (length next) REGION_LIMIT) as [E|E]; [done|].
  destruct (last next); [|done]. by destruct (_ && _).
Qed.

(** One append of the rebuilding loop moves the frontier over one region. *)
Lemma append_upto T next p r next' :
  upto T next p -> p <= r_start r -> region_ok r ->
  (forall x, p <= x < r_start r -> T x = None) ->
  (forall x, r_start r <= x < r_end r -> T x = Some (r_prot r, r_maxprot r)) ->
  append next r = Some next' ->
  upto T next' (r_end r) /\ (length next' <= S (length next))%nat.
Proof.
  intros Hup Hp Hr Hgap HT Happ. pose proof (upto_extend _ _ _ _ Hup Hp Hgap) as [Hwf Hends Hperm].
  destruct (append_Some next r next' Hwf Hends Hr Happ) as [Hwf' Hends' Hperm' Hlen].
  split; [|done]. split; [done..|]. intros x Hx. rewrite Hperm'.
  destruct (in_region r x) eqn:E.
  - apply in_region_spec in E. symmetry. by apply HT.
  - apply Hperm. destruct (decide (x < r_start r)); [done|].
    assert (in_region r x = true) by (apply in_region_spec; lia). congruence.
Qed.

(** ** The rebuilding loop *)

Lemma append_if_upto c T next p p' r :
  upto T next p ->
  (c = true -> p <= r_start r /\ region_ok r /\ p' = r_end r /\
    (forall x, p <= x < r_start r -> T x = None) /\
    (forall x, r_start r <= x < r_end r -> T x = Some (r_prot r, r_maxprot r))) ->
  (c = false -> p <= p' /\ forall x, p <= x < p' -> T x = None) ->
  match append_if c next r with
  | Some next' => upto T next' p' /\ (length next' <= length next + Nat.b2n c)%nat
  | None => length next = REGION_LIMIT /\ c = true
  end.
Proof.
  intros Hup Ht Hf. unfold append_if. destruct c.
  - destruct (Ht eq_refl) as (Hp & Hr & -> & Hgap & HT).
    destruct (append next r) as [next'|] eqn:E; [|by eauto using append_None].
    destruct (append_upto T next p r next') as [? ?]; [done..|]. cbn. split; [done|lia].
  - destruct (Hf eq_refl). split; [by eapply upto_extend|]. cbn. lia.
Qed.

(** What each operation makes of the permissions of the range. *)
Definition changed (op : Operation) (a stop prot maxprot : Z) (T : Z -> option (Z * Z)) (x : Z)
    : option (Z * Z) :=
  if decide (a <= x < stop) then
    match op with
    | MAP => Some (prot, maxprot)
    | UNMAP => None
    | PROTECT => (fun pm => (prot, pm.2)) <$> T x
    end
  else T x.

Section rebuild.
Context (a stop prot maxprot : Z) (op : Operation) (T : Z -> option (Z * Z)).
Hypothesis Hrange : a < stop.
Hypothesis Ha : a mod GM_PAGE_SIZE = 0.
Hypothesis Hstop : stop mod GM_PAGE_SIZE = 0.
Hypothesis Hprot : op = MAP -> none_outside prot maxprot = true /\ none_outside maxprot 7 = true.

Definition target : Z -> option (Z * Z) := changed op a stop prot maxprot T.

(** How far the new list reaches when the old one is processed up to [q]. *)
Definition frontier (inserted : bool) (q : Z) : Z :=
  if op_is op MAP && inserted then Z.max q stop else q.

(** The state of the loop: [k] regions are processed, all below [q]. *)
Record rebuilding (rs next : list Region) (inserted : bool) (q : Z) (k : nat) : Prop := {
  rb_wf : regions_wf rs;
  rb_rest : forall r, r ∈ rs -> q <= r_start r;
  rb_old : forall x, q <= x -> T x = perm_at rs x;
  rb_upto : upto target next (frontier inserted q);
  rb_not_inserted : inserted = false -> op = MAP /\ q <= a;
  rb_inserted : inserted = true -> op = MAP -> a < q;
  rb_protect : op = PROTECT -> forall r, r ∈ rs -> r_start r < stop -> a < r_end r ->
    none_outside prot (r_maxprot r) = true;
  rb_length : (length next <= k + Nat.b2n (a <? q)%Z + Nat.b2n (stop <? q)%Z)%nat
}.

Lemma op_is_spec o o' : op_is o o' = true <-> o = o'.
Proof. apply bool_decide_eq_true. Qed.

Lemma rb_head r rs next inserted q k :
  rebuilding (r :: rs) next inserted q k ->
  region_ok r /\ q <= r_start r /\ r_start r < r_end r /\
  (forall x, q <= x < r_start r -> T x = None) /\
  (forall x, r_start r <= x < r_end r -> T x = Some (r_prot r, r_maxprot r)).
Proof.
  intros [Hwf Hrest Hold _ _ _ _ _]. pose proof (proj1 (regions_wf_cons r rs) Hwf) as (Hr & Hrs & Hb).
  pose proof (Hrest r ltac:(by left)). pose proof (region_nonempty r Hr). split_and!; [done..| |].
  - intros x Hx. rewrite Hold by lia. apply perm_at_None. intros p Hp Hin.
    apply elem_of_cons in Hp as [->|Hp]; [lia|]. destruct (Hb p Hp). lia.
  - intros x Hx. rewrite Hold by lia. apply (perm_at_region (r :: rs) r); [done|by left|done].
Qed.

(** Moving on to the next region, with what the body has appended. *)
Lemma rb_next r rs next inserted q k next' inserted' :
  rebuilding (r :: rs) next inserted q k ->
  upto target next' (frontier inserted' (r_end r)) ->
  (inserted' = false -> op = MAP /\ r_end r <= a) ->
  (inserted' = true -> op = MAP -> a < r_end r) ->
  (length next' <= S k + Nat.b2n (a <? r_end r)%Z + Nat.b2n (stop <? r_end r)%Z)%nat ->
  rebuilding rs next' inserted' (r_end r) (S k).
Proof.
  intros [Hwf Hrest Hold _ _ _ Hpr _] Hup H1 H2 Hlen.
  pose proof (proj1 (regions_wf_cons r rs) Hwf) as (Hr & Hrs & Hb).
  pose proof (Hrest r ltac:(by left)). pose proof (region_nonempty r Hr).
  split; [done| | |done..| |done].
  - intros p Hp. by destruct (Hb p Hp).
  - intros x Hx. rewrite Hold by lia. cbn.
    destruct (in_region r x) eqn:E; [|done]. apply in_region_spec in E. lia.
  - intros Hop p Hp. apply Hpr; [done|by right].
Qed.

Lemma new_perm x : target x =
  if decide (a <= x < stop) then
    match op with
    | MAP => Some (prot, maxprot)
    | UNMAP => None
    | PROTECT => (fun pm => (prot, pm.2)) <$> T x
    end
  else T x.
Proof. done. Qed.

(** The five conditional appends of one turn that reaches the range. *)
Section turn.
Context (r : Region) (rs next : list Region) (inserted : bool) (q : Z) (k : nat).
Hypothesis Hrb : rebuilding (r :: rs) next inserted q k.
Hypothesis Hend : a < r_end r.

Lemma frontier_false p : frontier false p = p.
Proof. unfold frontier. by rewrite andb_false_r. Qed.
Lemma frontier_map inserted' p : op = MAP -> inserted' = true -> frontier inserted' p = Z.max p stop.
Proof. intros Hop ->. unfold frontier, op_is. by rewrite bool_decide_eq_true_2. Qed.
Lemma frontier_other inserted' p : op <> MAP -> frontier inserted' p = p.
Proof. intros Hop. unfold frontier, op_is. by rewrite bool_decide_eq_false_2. Qed.
Lemma inserted_other : op <> MAP -> inserted = true.
Proof.
  intros Hop. destruct inserted eqn:Hi; [done|]. by destruct (rb_not_inserted _ _ _ _ _ Hrb eq_refl).
Qed.

Lemma piece_ok s e p m :
  s < e -> s mod GM_PAGE_SIZE = 0 -> e mod GM_PAGE_SIZE = 0 -> none_outside p m = true ->
  none_outside m 7 = true -> region_ok (mkRegion s e p m).
Proof. by split. Qed.

(** [inserted] is still false: this is a map that starts here or in a gap. *)
Lemma turn_insert_left :
  match append_if (negb inserted && (r_start r <? a)) next
          (mkRegion (r_start r) a (r_prot r) (r_maxprot r)) with
  | Some next' => upto target next' (if inserted then frontier true q else a) /\
      (length next' <= length next + Nat.b2n (negb inserted && (r_start r <? a)%Z))%nat
  | None => length next = REGION_LIMIT /\ negb inserted && (r_start r <? a) = true
  end.
Proof.
  destruct (rb_head _ _ _ _ _ _ Hrb) as (Hr & Hq & Hne & Hgap & HT).
  apply (append_if_upto _ _ _ _ _ _ (rb_upto _ _ _ _ _ Hrb)).
  - intros Hc. bool_props. rewrite H. destruct (rb_not_inserted _ _ _ _ _ Hrb H) as [_ Hqa].
    rewrite frontier_false. cbn. split; [done|]. split; [destruct Hr; by apply piece_ok|].
    split; [done|]. split; intros x Hx; rewrite new_perm, decide_False by lia.
    + by apply Hgap.
    + apply HT. lia.
  - intros Hc. destruct inserted eqn:Hi; [split; [done|lia]|]. cbn in Hc. bool_props.
    destruct (rb_not_inserted _ _ _ _ _ Hrb eq_refl) as [_ Hqa]. rewrite frontier_false. split; [done|].
    intros x Hx. rewrite new_perm, decide_False by lia. apply Hgap. lia.
Qed.

Lemma turn_insert next1 :
  upto target next1 (if inserted then frontier true q else a) ->
  match append_if (negb inserted) next1 (mkRegion a stop prot maxprot) with
  | Some next' => upto target next' (frontier true q) /\
      (length next' <= length next1 + Nat.b2n (negb inserted))%nat
  | None => length next1 = REGION_LIMIT /\ negb inserted = true
  end.
Proof.
  intros Hup. apply (append_if_upto _ _ _ _ _ _ Hup).
  - intros Hc. bool_props. rewrite Hc. destruct (rb_not_inserted _ _ _ _ _ Hrb Hc) as [Hop Hqa].
    rewrite frontier_map by done. destruct (Hprot Hop). cbn.
    split; [done|]. split; [by apply piece_ok|]. split; [lia|].
    split; intros x Hx; [lia|]. rewrite new_perm, decide_True, Hop by lia. done.
  - intros Hc. destruct inserted; [|done]. split; [done|]. lia.
Qed.

(** The region is beyond the range: it is kept. *)
Lemma turn_beyond next1 :
  upto target next1 (frontier true q) -> stop <= r_start r ->
  match append next1 r with
  | Some next' => upto target next' (frontier true (r_end r)) /\
      (length next' <= S (length next1))%nat
  | None => length next1 = REGION_LIMIT
  end.
Proof.
  intros Hup Hbeyond. destruct (rb_head _ _ _ _ _ _ Hrb) as (Hr & Hq & Hne & Hgap & HT).
  destruct (append next1 r) as [next'|] eqn:E; [|by eapply append_None].
  assert (frontier true (r_end r) = r_end r) as ->.
  { destruct (decide (op = MAP)); [rewrite frontier_map by done; lia|by rewrite frontier_other]. }
  assert (frontier true q <= r_start r /\ (op = MAP -> stop <= frontier true q) /\ q <= frontier true q)
    as (Hf & Hfs & Hfq).
  { destruct (decide (op = MAP)); [rewrite frontier_map by done; lia|by rewrite frontier_other]. }
  apply (append_upto target next1 (frontier true q)); [done|done|done| | |done].
  - intros x Hx. rewrite new_perm, Hgap by lia. case_decide; [|done]. destruct op; [|done|done].
    specialize (Hfs eq_refl). lia.
  - intros x Hx. rewrite new_perm, decide_False by lia. by apply HT.
Qed.

(** The region meets the range: what is outside is kept, what is inside goes,
    stays with the new permissions, or was replaced above. *)
Definition mid_start : Z := if op_is op MAP then stop else Z.max a (r_start r).
Definition mid_end : Z := if op_is op MAP then stop else Z.min (r_end r) stop.

Lemma turn_left next1 :
  upto target next1 (frontier true q) -> r_start r < stop ->
  let c := negb (op_is op MAP) && (r_start r <? a) in
  match append_if c next1 (mkRegion (r_start r) a (r_prot r) (r_maxprot r)) with
  | Some next' => upto target next' mid_start /\ (length next' <= length next1 + Nat.b2n c)%nat
  | None => length next1 = REGION_LIMIT /\ c = true
  end.
Proof.
  intros Hup Hover c. destruct (rb_head _ _ _ _ _ _ Hrb) as (Hr & Hq & Hne & Hgap & HT).
  unfold mid_start, c. destruct (op_is op MAP) eqn:Hop.
  { apply op_is_spec in Hop. rewrite frontier_map in Hup by done.
    replace (Z.max q stop) with stop in Hup by lia. apply (append_if_upto _ _ _ _ _ _ Hup); [done|].
    split; [done|]. lia. }
  assert (op <> MAP) as Hop' by (intros Hm%op_is_spec; congruence).
  rewrite frontier_other in Hup by done. cbn [negb andb].
  apply (append_if_upto _ _ _ _ _ _ Hup); intros Hc; bool_props.
  - cbn. split; [done|]. split; [destruct Hr; by apply piece_ok|]. split; [lia|].
    split; intros x Hx; rewrite new_perm, decide_False by lia; [by apply Hgap|apply HT; lia].
  - split; [lia|]. intros x Hx. rewrite new_perm, Hgap by lia. case_decide; [|done].
    by destruct op.
Qed.

Lemma turn_mid next1 :
  upto target next1 mid_start -> r_start r < stop ->
  match append_if (op_is op PROTECT) next1
          (mkRegion (if a <? r_start r then r_start r else a)
             (if r_end r <? stop then r_end r else stop) prot (r_maxprot r)) with
  | Some next' => upto target next' mid_end /\
      (length next' <= length next1 + Nat.b2n (op_is op PROTECT))%nat
  | None => length next1 = REGION_LIMIT /\ op_is op PROTECT = true
  end.
Proof.
  intros Hup Hover. destruct (rb_head _ _ _ _ _ _ Hrb) as (Hr & Hq & Hne & Hgap & HT).
  replace (if a <? r_start r then r_start r else a) with (Z.max a (r_start r))
    by (destruct (Z.ltb_spec a (r_start r)); lia).
  replace (if r_end r <? stop then r_end r else stop) with (Z.min (r_end r) stop)
    by (destruct (Z.ltb_spec (r_end r) stop); lia).
  apply (append_if_upto _ _ _ _ _ _ Hup).
  - intros Hc%op_is_spec. unfold mid_start, mid_end. rewrite Hc.
    change (op_is PROTECT MAP) with false. cbn [r_start r_end r_prot r_maxprot].
    split; [done|]. split.
    { pose proof (rb_protect _ _ _ _ _ Hrb Hc r ltac:(by left) Hover Hend). destruct Hr.
      apply piece_ok; [lia| | |done|done].
      - by destruct (Z.max_spec a (r_start r)) as [[_ ->]|[_ ->]].
      - by destruct (Z.min_spec (r_end r) stop) as [[_ ->]|[_ ->]]. }
    split; [done|]. split; intros x Hx; [lia|].
    rewrite new_perm, decide_True, Hc, HT by lia. done.
  - intros Hc. unfold mid_start, mid_end. destruct (op_is op MAP) eqn:Hop; [split; [done|]; lia|].
    split; [lia|]. intros x Hx. rewrite new_perm, decide_True by lia.
    by destruct op.
Qed.

Lemma turn_right next1 :
  upto target next1 mid_end -> r_start r < stop ->
  let c := stop <? r_end r in
  match append_if c next1 (mkRegion stop (r_end r) (r_prot r) (r_maxprot r)) with
  | Some next' => upto target next' (frontier true (r_end r)) /\
      (length next' <= length next1 + Nat.b2n c)%nat
  | None => length next1 = REGION_LIMIT /\ c = true
  end.
Proof.
  intros Hup Hover c. destruct (rb_head _ _ _ _ _ _ Hrb) as (Hr & Hq & Hne & Hgap & HT).
  assert (frontier true (r_end r) = if op_is op MAP then Z.max (r_end r) stop else r_end r) as ->.
  { unfold frontier. by destruct (op_is op MAP). }
  unfold mid_end in Hup. unfold c. apply (append_if_upto _ _ _ _ _ _ Hup); intros Hc; bool_props.
  - cbn. split; [destruct (op_is op MAP); lia|]. split; [destruct Hr; by apply piece_ok|].
    split; [destruct (op_is op MAP); lia|].
    split; intros x Hx; [destruct (op_is op MAP); lia|].
    rewrite new_perm, decide_False by lia. apply HT. lia.
  - destruct (op_is op MAP); (split; [lia|]); intros x Hx; lia.
Qed.
End turn.

Lemma upto_final U next p :
  upto U next p -> (forall x, p <= x -> U x = None) ->
  regions_wf next /\ forall x, perm_at next x = U x.
Proof.
  intros [Hwf Hends Hperm] HU. split; [done|]. intros x. destruct (decide (x < p)); [by apply Hperm|].
  rewrite HU by lia. apply (perm_at_beyond next p); [done|lia].
Qed.

Lemma rebuild_end next inserted q k :
  rebuilding [] next inserted q k ->
  match append_if (negb inserted) next (mkRegion a stop prot maxprot) with
  | Some next' => regions_wf next' /\ forall x, perm_at next' x = target x
  | None => (REGION_LIMIT <= k + 1)%nat
  end.
Proof.
  intros Hrb. pose proof (rb_upto _ _ _ _ _ Hrb) as Hup. pose proof (rb_length _ _ _ _ _ Hrb) as Hlen.
  destruct inserted; cbn [negb append_if].
  - apply (upto_final _ _ _ Hup). intros x Hx. unfold frontier in Hx.
    destruct (op_is op MAP) eqn:Hop; cbn [andb] in Hx; rewrite new_perm, (rb_old _ _ _ _ _ Hrb) by lia.
    + by rewrite decide_False by lia.
    + case_decide; [|done]. by destruct op.
  - destruct (rb_not_inserted _ _ _ _ _ Hrb eq_refl) as [Hop Hq]. destruct (Hprot Hop).
    rewrite frontier_false in Hup.
    assert (forall x, q <= x -> T x = None) as HT by apply (rb_old _ _ _ _ _ Hrb).
    destruct (append next _) as [next'|] eqn:E.
    2: { apply append_None in E. destruct (Z.ltb_spec a q), (Z.ltb_spec stop q); cbn in Hlen; lia. }
    apply (append_upto _ _ _ _ _ Hup) in E as [Hup' _]; [|done|by apply piece_ok| |]; cbn in *.
    + apply (upto_final _ _ _ Hup'). intros x Hx. rewrite new_perm, decide_False by lia. apply HT. lia.
    + intros x Hx. rewrite new_perm, decide_False by lia. apply HT. lia.
    + intros x Hx. by rewrite new_perm, decide_True, Hop by lia.
Qed.

(** One turn of the loop, given what holds of the loop that follows it: a
    region below the range, then one that reaches it. *)
Section one_turn.
Context (r : Region) (rs next : list Region) (inserted : bool) (q : Z) (k : nat).
Context (Q : option (list Region) -> Prop).
Hypothesis Hrb : rebuilding (r :: rs) next inserted q k.
Hypothesis Hnext : forall next' inserted', rebuilding rs next' inserted' (r_end r) (S k) ->
  Q (rebuild rs next' inserted' a stop prot maxprot op).
Hypothesis Hfull : (REGION_LIMIT <= k + 2)%nat -> Q None.

Lemma rebuild_below :
  r_end r <= a ->
  Q (next ← append next r; rebuild rs next inserted a stop prot maxprot op).
Proof.
  intros Hend. destruct (rb_head _ _ _ _ _ _ Hrb) as (Hr & Hq & Hne & Hgap & HT).
  pose proof (rb_upto _ _ _ _ _ Hrb) as Hup. pose proof (rb_length _ _ _ _ _ Hrb) as Hlen.
  assert (frontier inserted q = q) as Hf.
  { destruct (decide (op = MAP)) as [Hop|]; [|by rewrite frontier_other].
    destruct inserted; [|by rewrite frontier_false].
    pose proof (rb_inserted _ _ _ _ _ Hrb eq_refl Hop). lia. }
  rewrite Hf in Hup. destruct (append next r) as [next'|] eqn:E; cbn [mbind option_bind].
  2: { apply append_None in E. apply Hfull.
       destruct (Z.ltb_spec a q), (Z.ltb_spec stop q); cbn in Hlen; lia. }
  apply (append_upto _ _ _ _ _ Hup) in E as [Hup' Hlen']; [|done|done| |].
  - apply Hnext. apply (rb_next r rs next inserted q k); [done| | | |].
    + assert (frontier inserted (r_end r) = r_end r) as ->; [|done].
      destruct (decide (op = MAP)) as [Hop|]; [|by rewrite frontier_other].
      destruct inserted; [|by rewrite frontier_false].
      pose proof (rb_inserted _ _ _ _ _ Hrb eq_refl Hop). lia.
    + intros ->. by destruct (rb_not_inserted _ _ _ _ _ Hrb eq_refl).
    + intros -> Hop. pose proof (rb_inserted _ _ _ _ _ Hrb eq_refl Hop). lia.
    + destruct (Z.ltb_spec a q), (Z.ltb_spec stop q), (Z.ltb_spec a (r_end r)),
        (Z.ltb_spec stop (r_end r)); cbn in *; lia.
  - intros x Hx. rewrite new_perm, decide_False by lia. by apply Hgap.
  - intros x Hx. rewrite new_perm, decide_False by lia. by apply HT.
Qed.

Ltac count := destruct (Z.ltb_spec a q), (Z.ltb_spec stop q), (Z.ltb_spec a (r_end r)),
  (Z.ltb_spec stop (r_end r)), (Z.ltb_spec (r_start r) a); cbn in *; try lia.

Lemma rebuild_over :
  a < r_end r ->
  Q (rebuild (r :: rs) next inserted a stop prot maxprot op).
Proof.
  intros Hend. destruct (rb_head _ _ _ _ _ _ Hrb) as (Hr & Hq & Hne & Hgap & HT).
  pose proof (rb_length _ _ _ _ _ Hrb) as Hlen.
  assert (negb inserted = true -> q <= a /\ op = MAP) as Hni.
  { intros Hi%negb_true_iff. by destruct (rb_not_inserted _ _ _ _ _ Hrb Hi). }
  cbn [rebuild]. rewrite (proj2 (Z.leb_gt (r_end r) a)) by done.
  pose proof (turn_insert_left _ _ _ _ _ _ Hrb Hend) as H1.
  destruct (append_if (negb inserted && _) _ _) as [next1|]; cbn [mbind option_bind].
  2: { apply Hfull. destruct H1 as [H1 [Hc Hlt]%andb_true_iff]. destruct Hni as [? _]; [done|]. count. }
  destruct H1 as [Hup1 Hlen1].
  pose proof (turn_insert _ _ _ _ _ _ Hrb next1 Hup1) as H2.
  destruct (append_if (negb inserted) _ _) as [next2|]; cbn [mbind option_bind].
  2: { apply Hfull. destruct H2 as [H2 Hc]. destruct Hni as [? _]; [done|]. rewrite Hc in Hlen1. count. }
  destruct H2 as [Hup2 Hlen2].
  assert (length next2 <= k + Nat.b2n (negb inserted) + Nat.b2n (negb inserted && (r_start r <? a)%Z)
    + Nat.b2n (negb (negb inserted) && (a <? q)%Z) + Nat.b2n (stop <? q)%Z)%nat as Hlen2'.
  { destruct (negb inserted) eqn:Hi; [destruct Hni as [? _]; [done|]|]; count. }
  assert (forall next', upto target next' (frontier true (r_end r)) ->
    (length next' <= S k + 1 + Nat.b2n (stop <? r_end r)%Z)%nat ->
    Q (rebuild rs next' true a stop prot maxprot op)) as Hgo.
  { intros next' Hup' Hlen'. apply Hnext. apply (rb_next r rs next inserted q k); try done.
    by rewrite (proj2 (Z.ltb_lt a (r_end r))) by done. }
  destruct (Z.leb_spec stop (r_start r)) as [Hb|Hov].
  { pose proof (turn_beyond _ _ _ _ _ _ Hrb next2 Hup2 Hb) as H3.
    destruct (append next2 r) as [next3|]; cbn [mbind option_bind].
    - destruct H3 as [Hup3 Hlen3]. apply Hgo; [done|]. destruct (negb inserted); count.
    - apply Hfull. destruct (negb inserted); count. }
  pose proof (turn_left _ _ _ _ _ _ Hrb Hend next2 Hup2 Hov) as H3. cbv zeta in H3.
  assert (negb (op_is op MAP) = true -> negb inserted = true -> False) as Hnm.
  { intros Hop Hi. destruct (Hni Hi) as [_ Hm%op_is_spec]. by rewrite Hm in Hop. }
  destruct (append_if (negb (op_is op MAP) && _) _ _) as [next3|]; cbn [mbind option_bind].
  2: { apply Hfull. destruct H3 as [H3 [Hc Hlt]%andb_true_iff].
       destruct (negb inserted); [by destruct Hnm|]. rewrite Z.ltb_lt in Hlt. count. }
  destruct H3 as [Hup3 Hlen3].
  pose proof (turn_mid _ _ _ _ _ _ Hrb Hend next3 Hup3 Hov) as H4.
  assert (op_is op PROTECT = true -> negb (op_is op MAP) = true) as Hpm
    by (intros ->%op_is_spec; done).
  destruct (append_if (op_is op PROTECT) _ _) as [next4|]; cbn [mbind option_bind].
  2: { apply Hfull. destruct H4 as [H4 Hc]. rewrite (Hpm Hc) in *.
       destruct (negb inserted); [by destruct Hnm|]. count. }
  destruct H4 as [Hup4 Hlen4].
  pose proof (turn_right _ _ _ _ _ _ Hrb next4 Hup4 Hov) as H5. cbv zeta in H5.
  destruct (append_if (stop <? r_end r) _ _) as [next5|]; cbn [mbind option_bind].
  - destruct H5 as [Hup5 Hlen5]. apply Hgo; [done|].
    destruct (negb inserted), (op_is op PROTECT), (negb (op_is op MAP)); count.
  - apply Hfull. destruct H5 as [H5 Hc].
    destruct (negb inserted), (op_is op PROTECT), (negb (op_is op MAP)); count.
Qed.
End one_turn.

Lemma rebuild_correct rs next inserted q k :
  rebuilding rs next inserted q k ->
  match rebuild rs next inserted a stop prot maxprot op with
  | Some next' => regions_wf next' /\ forall x, perm_at next' x = target x
  | None => (REGION_LIMIT <= k + length rs + 1)%nat
  end.
Proof.
  revert next inserted q k. induction rs as [|r rs IH]; intros next inserted q k Hrb.
  { cbn [rebuild length]. rewrite Nat.add_0_r. by apply (rebuild_end next inserted q k). }
  set (Q := fun out : option (list Region) => match out with
    | Some next' => regions_wf next' /\ forall x, perm_at next' x = target x
    | None => (REGION_LIMIT <= k + length (r :: rs) + 1)%nat end).
  assert (forall next' inserted', rebuilding rs next' inserted' (r_end r) (S k) ->
    Q (rebuild rs next' inserted' a stop prot maxprot op)) as Hnext.
  { intros next' inserted' Hrb'. specialize (IH _ _ _ _ Hrb'). unfold Q.
    destruct (rebuild _ _ _ _ _ _ _ _); [done|]. cbn [length]. lia. }
  assert ((REGION_LIMIT <= k + 2)%nat -> Q None) as Hfull by (unfold Q; cbn [length]; lia).
  change (Q (rebuild (r :: rs) next inserted a stop prot maxprot op)).
  destruct (Z.leb_spec (r_end r) a) as [Hend|Hend].
  - cbn [rebuild]. rewrite (proj2 (Z.leb_le (r_end r) a)) by done.
    by apply (rebuild_below r rs next inserted q k Q).
  - by apply (rebuild_over r rs next inserted q k Q).
Qed.

(** The loop of [change] started as the code starts it. *)
Lemma rebuild_spec rs lo :
  regions_wf rs -> T = perm_at rs -> lo <= a -> (forall r, r ∈ rs -> lo <= r_start r) ->
  (op = PROTECT -> forall r, r ∈ rs -> r_start r < stop -> a < r_end r ->
    none_outside prot (r_maxprot r) = true) ->
  match rebuild rs [] (negb (op_is op MAP)) a stop prot maxprot op with
  | Some next => regions_wf next /\ forall x, perm_at next x = target x
  | None => (REGION_LIMIT <= length rs + 1)%nat
  end.
Proof.
  intros Hwf HT Hlo Hrs Hpr. apply (rebuild_correct rs [] (negb (op_is op MAP)) lo 0).
  split; [done|done| | | | |done|cbn; lia].
  - intros x _. by rewrite HT.
  - split; [split; constructor|by intros r Hr%elem_of_nil|].
    intros x Hx. cbn. unfold frontier in Hx.
    assert (x < lo) as Hx' by (destruct (op_is op MAP); cbn in Hx; lia).
    rewrite new_perm, decide_False by lia. symmetry. rewrite HT. apply perm_at_None.
    intros r Hr. specialize (Hrs r Hr). lia.
  - intros Hi%negb_false_iff%op_is_spec. done.
  - intros Hi Hop. by rewrite Hop in Hi.
Qed.
End rebuild.

(** ** The checks *)

Lemma perm_at_cons_ge r rs x : r_end r <= x -> perm_at (r :: rs) x = perm_at rs x.
Proof.
  intros Hx. cbn. destruct (in_region r x) eqn:E; [|done]. apply in_region_spec in E. lia.
Qed.
Lemma perm_at_cons_lt r rs x :
  regions_wf (r :: rs) -> x < r_start r -> perm_at (r :: rs) x = None.
Proof.
  intros (Hr & Hrs & Hb)%regions_wf_cons Hx. pose proof (region_nonempty r Hr).
  apply perm_at_None. intros p Hp Hin. apply elem_of_cons in Hp as [->|Hp]; [lia|].
  destruct (Hb p Hp). lia.
Qed.
Lemma perm_at_cons_in r rs x :
  r_start r <= x < r_end r -> perm_at (r :: rs) x = Some (r_prot r, r_maxprot r).
Proof. intros Hx. cbn. by rewrite (proj2 (in_region_spec r x) Hx). Qed.

(** Where the coverage loop of a protect ends. *)
Lemma check_loop_protect rs a stop covered replace :
  regions_wf rs -> a <= covered <= stop ->
  (forall r, r ∈ rs -> covered = a \/ covered <= r_start r) ->
  let '(result, c) := check_loop rs a stop covered replace PROTECT in
  covered <= c <= stop /\ (forall x, covered <= x < c -> perm_at rs x <> None) /\
  (c < stop -> perm_at rs c = None) /\ (result = GM_OK \/ result = GM_UNMAPPED /\ c < stop).
Proof.
  revert covered. induction rs as [|r rs IH]; intros covered Hwf Hc Hstart.
  { cbn. split; [lia|]. split; [lia|]. auto. }
  pose proof (proj1 (regions_wf_cons _ _) Hwf) as (Hr & Hrs & Hb). pose proof (region_nonempty r Hr).
  cbn [check_loop]. change (op_is PROTECT MAP) with false. change (op_is PROTECT PROTECT) with true.
  cbn [andb].
  destruct ((r_end r <=? a) || (stop <=? r_start r)) eqn:Eskip.
  - specialize (IH covered Hrs Hc ltac:(intros p Hp; apply Hstart; by right)).
    destruct (check_loop rs _ _ _ _ _) as [result c].
    destruct IH as (Hcc & Hmap & Hnone & Hres). split; [done|].
    assert (forall x, covered <= x < stop -> perm_at (r :: rs) x = perm_at rs x) as Hsame.
    { intros x Hx. cbn. destruct (in_region r x) eqn:E; [|done]. apply in_region_spec in E.
      destruct (Z.leb_spec (r_end r) a), (Z.leb_spec stop (r_start r)); cbn in Eskip; try done; lia. }
    split; [intros x Hx; rewrite Hsame by lia; by apply Hmap|].
    split; [intros Hlt; rewrite Hsame by lia; by apply Hnone|done].
  - bool_props. destruct (Z.ltb_spec covered (r_start r)).
    { split; [lia|]. split; [lia|]. split; [by intros; apply perm_at_cons_lt|]. right. split; [done|lia]. }
    replace (if r_end r <? stop then r_end r else stop) with (Z.min (r_end r) stop)
      by (destruct (Z.ltb_spec (r_end r) stop); lia).
    assert (covered <= r_end r) by (destruct (Hstart r ltac:(by left)); lia).
    specialize (IH (Z.min (r_end r) stop) Hrs ltac:(lia)
      ltac:(intros p Hp; destruct (Hb p Hp); right; lia)).
    destruct (check_loop rs _ _ _ _ _) as [result c]. destruct IH as (Hcc & Hmap & Hnone & Hres).
    split; [lia|]. split.
    { intros x Hx. destruct (decide (x < r_end r)); [by rewrite perm_at_cons_in by lia|].
      rewrite perm_at_cons_ge by lia. apply Hmap. lia. }
    split; [|done]. intros Hlt. rewrite perm_at_cons_ge by lia. by apply Hnone.
Qed.

Lemma check_loop_other rs a stop covered replace op :
  op <> PROTECT ->
  check_loop rs a stop covered replace op =
    (if op_is op MAP && negb replace &&
        existsb (fun r => negb ((r_end r <=? a) || (stop <=? r_start r))) rs
     then GM_OVERLAP else GM_OK, covered).
Proof.
  intros Hop. assert (op_is op PROTECT = false) as Hp by by apply bool_decide_eq_false_2.
  induction rs as [|r rs IH]; cbn [check_loop existsb]; [by rewrite andb_false_r|].
  destruct (_ || _) eqn:E; cbn [negb orb]; [done|].
  rewrite Hp, andb_true_r. by destruct (op_is op MAP && negb replace).
Qed.

(** A region meets the range exactly when some address of the range is mapped. *)
Lemma region_meets rs a stop :
  regions_wf rs -> a < stop ->
  existsb (fun r => negb ((r_end r <=? a) || (stop <=? r_start r))) rs = true <->
  exists x, a <= x < stop /\ perm_at rs x <> None.
Proof.
  intros Hwf Hlt. rewrite existsb_exists. split.
  - intros (r & Hr%list_elem_of_In & Hm). bool_props.
    pose proof (region_nonempty r (proj1 (Forall_forall _ _) (regions_wf_ok rs Hwf) r Hr)).
    exists (Z.max a (r_start r)). split; [lia|].
    rewrite (perm_at_region rs r) by (done || lia). done.
  - intros (x & Hx & Hp). destruct (perm_at rs x) as [v|] eqn:E; [|done].
    apply perm_at_Some in E as (r & Hr & Hin & _). exists r. rewrite <- list_elem_of_In.
    split; [done|]. apply negb_true_iff, orb_false_iff. lia.
Qed.

(** What the checks of [change] decide, for each operation. *)
Lemma change_check_spec rs a stop prot replace op :
  regions_wf rs -> a < stop ->
  match change_check rs a stop prot replace op with
  | GM_OK =>
      (op = MAP -> replace = false -> forall x, a <= x < stop -> perm_at rs x = None) /\
      (op = PROTECT -> forall x, a <= x < stop ->
        exists p m, perm_at rs x = Some (p, m) /\ none_outside prot m = true)
  | GM_OVERLAP => op = MAP /\ replace = false /\ exists x, a <= x < stop /\ perm_at rs x <> None
  | GM_UNMAPPED => op = PROTECT /\ exists x, a <= x < stop /\ perm_at rs x = None
  | GM_PROTECTION => op = PROTECT /\ (forall x, a <= x < stop -> perm_at rs x <> None) /\
      exists x p m, a <= x < stop /\ perm_at rs x = Some (p, m) /\ none_outside prot m = false
  | _ => False
  end.
Proof.
  intros Hwf Hlt. unfold change_check. destruct (decide (op = PROTECT)) as [->|Hop].
  - pose proof (check_loop_protect rs a stop a replace Hwf ltac:(lia) ltac:(by left)) as Hl.
    destruct (check_loop _ _ _ _ _ _) as [result c]. destruct Hl as (Hc & Hmap & Hnone & Hres).
    change (op_is PROTECT PROTECT) with true. cbn [andb].
    destruct Hres as [->|[-> Hcl]]; cbn [bool_decide decide_rel negb].
    2: { split; [done|]. exists c. split; [lia|]. by apply Hnone. }
    change (bool_decide (GM_OK = GM_OK)) with true. cbn [negb].
    destruct (Z.eqb_spec c stop) as [->|Hne]; cbn [negb].
    2: { split; [done|]. exists c. split; [lia|]. apply Hnone. lia. }
    destruct (existsb _ rs) eqn:Hex.
    + apply existsb_exists in Hex as (r & Hr%list_elem_of_In & Hb). bool_props.
      pose proof (region_nonempty r (proj1 (Forall_forall _ _) (regions_wf_ok rs Hwf) r Hr)).
      do 2 (split; [done|]). exists (Z.max a (r_start r)), (r_prot r), (r_maxprot r).
      split; [lia|]. split; [|done]. apply perm_at_region; [done|done|lia].
    + split; [done|]. intros _ x Hx. destruct (perm_at rs x) as [[p m]|] eqn:E; [|by destruct (Hmap x Hx)].
      exists p, m. split; [done|]. apply perm_at_Some in E as (r & Hr & Hin & [= -> ->]).
      destruct (none_outside prot (r_maxprot r)) eqn:En; [done|].
      assert (existsb (fun r => (a <? r_end r) && (r_start r <? stop) &&
        negb (none_outside prot (r_maxprot r))) rs = true); [|congruence].
      apply existsb_exists. exists r. rewrite <- list_elem_of_In, En. split; [done|]. cbn. lia.
  - rewrite check_loop_other by done. pose proof (region_meets rs a stop Hwf Hlt) as Hm.
    assert (op_is op PROTECT = false) as Hp by by apply bool_decide_eq_false_2. rewrite Hp.
    destruct (op_is op MAP) eqn:Hmap; cbn [andb].
    + apply op_is_spec in Hmap. destruct replace; cbn [negb andb]; [done|].
      destruct (existsb _ rs); cbn.
      * by split_and!; [..|apply Hm].
      * split; [|done]. intros _ _ x Hx. destruct (perm_at rs x) eqn:E; [|done].
        assert (false = true); [|done]. apply Hm. exists x. by rewrite E.
    + split; [|done]. by intros Hop'%op_is_spec; rewrite Hop' in Hmap.
Qed.

Definition allows (rs : list Region) (permission x : Z) : Prop :=
  exists p m, perm_at rs x = Some (p, m) /\ has_all p permission = true.

Lemma covered_loop_spec rs covered stop permission :
  regions_wf rs -> covered <= stop ->
  let '(result, c) := covered_loop rs covered stop permission in
  covered <= c <= stop /\ (forall x, covered <= x < c -> allows rs permission x) /\
  ((result = GM_OK /\ (c < stop -> perm_at rs c = None)) \/
   (result = GM_PROTECTION /\ c < stop /\
    exists p m, perm_at rs c = Some (p, m) /\ has_all p permission = false)).
Proof.
  revert covered. induction rs as [|r rs IH]; intros covered Hwf Hc.
  { cbn. split; [lia|]. split; [lia|]. auto. }
  pose proof (proj1 (regions_wf_cons _ _) Hwf) as (Hr & Hrs & Hb). pose proof (region_nonempty r Hr).
  cbn [covered_loop]. destruct (Z.ltb_spec covered stop) as [Hlt|Hge]; cbn [negb].
  2: { split; [lia|]. split; [lia|]. left. split; [done|lia]. }
  assert (forall q, r_end r <= q -> perm_at (r :: rs) q = perm_at rs q) as Hsame
    by (intros; by apply perm_at_cons_ge).
  assert (forall q, r_end r <= q -> allows rs permission q -> allows (r :: rs) permission q) as Hal
    by (intros q Hq; unfold allows; by rewrite Hsame).
  destruct (Z.leb_spec (r_end r) covered).
  { specialize (IH covered Hrs Hc). destruct (covered_loop rs _ _ _) as [result c].
    destruct IH as (Hcc & Hmap & Hres). split; [done|]. rewrite Hsame by lia.
    split; [|done]. intros x Hx. apply Hal; [lia|]. by apply Hmap. }
  destruct (Z.ltb_spec covered (r_start r)).
  { split; [lia|]. split; [lia|]. left. split; [done|]. intros _. by apply perm_at_cons_lt. }
  destruct (has_all (r_prot r) permission) eqn:Hp; cbn [negb].
  2: { split; [lia|]. split; [lia|]. right. split; [done|]. split; [lia|].
       exists (r_prot r), (r_maxprot r). by rewrite perm_at_cons_in by lia. }
  replace (if r_end r <? stop then r_end r else stop) with (Z.min (r_end r) stop)
    by (destruct (Z.ltb_spec (r_end r) stop); lia).
  specialize (IH (Z.min (r_end r) stop) Hrs ltac:(lia)).
  destruct (covered_loop rs _ _ _) as [result c]. destruct IH as (Hcc & Hmap & Hres).
  split; [lia|]. split.
  { intros x Hx. destruct (decide (x < r_end r)).
    - exists (r_prot r), (r_maxprot r). by rewrite perm_at_cons_in by lia.
    - apply Hal; [lia|]. apply Hmap. lia. }
  destruct Hres as [[-> Hnone]|(-> & Hcs & Hpm)].
  - left. split; [done|]. intros Hcs. rewrite Hsame by lia. by apply Hnone.
  - right. split; [done|]. split; [done|]. by rewrite Hsame by lia.
Qed.

(** [check_access] finds the first address that refuses the access, and the
    reason it does. *)
Lemma check_covered_spec rs a n permission :
  regions_wf rs -> 0 <= n ->
  match check_covered rs a n permission with
  | GM_OK => forall x, a <= x < a + n -> allows rs permission x
  | GM_PROTECTION => exists x p m, a <= x < a + n /\ perm_at rs x = Some (p, m) /\
      has_all p permission = false /\ forall y, a <= y < x -> allows rs permission y
  | GM_UNMAPPED => exists x, a <= x < a + n /\ perm_at rs x = None /\
      forall y, a <= y < x -> allows rs permission y
  | _ => False
  end.
Proof.
  intros Hwf Hn. unfold check_covered.
  pose proof (covered_loop_spec rs a (a + n) permission Hwf ltac:(lia)) as Hl.
  destruct (covered_loop _ _ _ _) as [result c]. destruct Hl as (Hc & Hmap & Hres).
  destruct Hres as [[-> Hnone]|(-> & Hcs & p & m & Hpm & Hno)].
  - change (bool_decide (GM_OK = GM_OK)) with true. cbn [negb].
    destruct (Z.eqb_spec c (a + n)) as [->|]; [done|]. exists c.
    split; [lia|]. split; [apply Hnone; lia|done].
  - change (bool_decide (GM_PROTECTION = GM_OK)) with false. cbn [negb].
    exists c, p, m. split; [lia|]. done.
Qed.

(** The search finds the lowest address at or above the candidate where the
    size fits between the regions. *)
Lemma free_loop_spec rs candidate size :
  regions_wf rs -> 0 < size -> (forall r, r ∈ rs -> candidate <= r_start r) ->
  let c := free_loop rs candidate size in
  candidate <= c /\ (c = candidate \/ exists r, r ∈ rs /\ c = r_end r) /\
  (forall x, c <= x < c + size -> perm_at rs x = None) /\
  (forall c', candidate <= c' < c -> exists x, c' <= x < c' + size /\ perm_at rs x <> None).
Proof.
  revert candidate. induction rs as [|r rs IH]; intros candidate Hwf Hsize Hstart c.
  { cbn in c. subst c. split; [lia|]. split; [by left|]. split; [done|lia]. }
  pose proof (proj1 (regions_wf_cons _ _) Hwf) as (Hr & Hrs & Hb). pose proof (region_nonempty r Hr).
  pose proof (Hstart r ltac:(by left)). subst c. cbn [free_loop].
  destruct (Z.leb_spec size (r_start r - candidate)).
  { split; [lia|]. split; [by left|]. split; [|lia]. intros x Hx. apply perm_at_cons_lt; [done|lia]. }
  destruct (IH (r_end r) Hrs Hsize) as (Hle & Hc & Hfree & Hmin).
  { intros p Hp. by destruct (Hb p Hp). }
  set (c := free_loop rs (r_end r) size) in *. split; [lia|]. split.
  { right. destruct Hc as [->|(p & Hp & ->)]; [exists r; split; [by left|done]|].
    exists p. split; [by right|done]. }
  split.
  { intros x Hx. rewrite perm_at_cons_ge by lia. by apply Hfree. }
  intros c' Hc'. destruct (decide (r_end r <= c')).
  - destruct (Hmin c' ltac:(lia)) as (x & Hx & Hp). exists x. split; [done|].
    by rewrite perm_at_cons_ge by lia.
  - exists (Z.max c' (r_start r)). split; [lia|]. by rewrite perm_at_cons_in by lia.
Qed.

(** ** The list never outgrows the array *)

Lemma append_limit next r next' :
  (length next <= REGION_LIMIT)%nat -> append next r = Some next' -> (length next' <= REGION_LIMIT)%nat.
Proof.
  intros Hl. unfold append. destruct (_ =? _); [by intros [= <-]|].
  assert (forall l, (if (length next =? REGION_LIMIT)%nat then None else Some (next ++ [r])) = Some l ->
    (length l <= REGION_LIMIT)%nat) as Hpush.
  { intros l. destruct (Nat.eqb_spec (length next) REGION_LIMIT); [done|]. intros [= <-].
    rewrite length_app. cbn [length]. lia. }
  destruct (last next); [|apply Hpush]. destruct (_ && _); [|apply Hpush].
  intros [= <-]. by rewrite length_insert.
Qed.
Lemma append_if_limit c next r next' :
  (length next <= REGION_LIMIT)%nat -> append_if c next r = Some next' ->
  (length next' <= REGION_LIMIT)%nat.
Proof. unfold append_if. destruct c; [apply append_limit|by intros ? [= <-]]. Qed.
Lemma rebuild_limit rs next inserted a stop prot maxprot op next' :
  (length next <= REGION_LIMIT)%nat ->
  rebuild rs next inserted a stop prot maxprot op = Some next' -> (length next' <= REGION_LIMIT)%nat.
Proof.
  revert next inserted. induction rs as [|r rs IH]; intros next inserted Hl.
  { cbn [rebuild]. by apply append_if_limit. }
  cbn [rebuild]. destruct (_ <=? _).
  { intros (n1 & H1 & H2)%bind_Some. eapply IH; [|done]. by eapply append_limit. }
  intros (n1 & H1 & (n2 & H2 & H3)%bind_Some)%bind_Some.
  apply append_if_limit in H1; [|done]. apply append_if_limit in H2; [|done].
  destruct (_ <=? _).
  { apply bind_Some in H3 as (n3 & H3 & H4). eapply IH; [|done]. by eapply append_limit. }
  apply bind_Some in H3 as (n3 & H3 & (n4 & H4 & (n5 & H5 & H6)%bind_Some)%bind_Some).
  apply append_if_limit in H3; [|done]. apply append_if_limit in H4; [|done].
  apply append_if_limit in H5; [|done]. by eapply IH.
Qed.
