(* ===== verification/SparseTable.v ===== *)
(** * SparseTable: the page table of the sparse address space
    (runtime/GuestSparseMemory.c)

    Resident pages are found through an open-addressing hash table with linear
    probing and tombstones. This file holds the table, [page_slot] and
    [discard_pages], and shows that the table behaves as a finite map from page
    addresses to pages. *)
From S2P Require Import Prelude GuestMemory.

(** ** Data *)

(** Address 0 marks a slot never used, [UINT64_MAX] a deleted one. *)
Record Page := mkPage { pg_address : Z; pg_generation : Z; pg_backing : Z }.
Definition empty_page : Page := mkPage 0 0 0.
Definition page_addr (pages : list Page) (i : Z) : Z :=
  pg_address (default empty_page (pages !! Z.to_nat i)).
Definition slot_count (pages : list Page) : Z := Z.of_nat (length pages).

(** ** Operations *)

Definition page_hash (address : Z) : Z :=
  let h := address / GM_PAGE_SIZE in
  let h := Z.lxor h (Z.shiftr h 30) in
  let h := w64 (h * 0xbf58476d1ce4e5b9) in
  let h := Z.lxor h (Z.shiftr h 27) in
  let h := w64 (h * 0x94d049bb133111eb) in
  Z.lxor h (Z.shiftr h 31).

(** One step per slot of the table; [None] stands for [SIZE_MAX]. *)
Fixpoint slot_loop (steps : nat) (pages : list Page) (address : Z) (insertion : bool)
    (i : Z) (first_deleted : option Z) : option Z :=
  match steps with
  | O => if insertion then first_deleted else None
  | S steps =>
    let found := page_addr pages i in
    if found =? address then Some i else
    if found =? 0 then (if insertion then Some (default i first_deleted) else None) else
    let first_deleted :=
      if (found =? UINT64_MAX) && negb (bool_decide (is_Some first_deleted))
      then Some i else first_deleted in
    slot_loop steps pages address insertion (Z.land (i + 1) (slot_count pages - 1)) first_deleted
  end.
Definition page_slot (pages : list Page) (address : Z) (insertion : bool) : option Z :=
  slot_loop (length pages) pages address insertion
    (Z.land (page_hash address) (slot_count pages - 1)) None.

(** [discard_pages]: the slots of the range become tombstones; their backing
    indices are pushed on the free stack in slot order. *)
Definition discards (from to : Z) (p : Page) : bool :=
  negb (pg_address p =? 0) && negb (pg_address p =? UINT64_MAX) &&
  (from <=? pg_address p) && (pg_address p <? to).
Definition discard_slot (from to : Z) (p : Page) : Page :=
  if discards from to p then mkPage UINT64_MAX (pg_generation p) (pg_backing p) else p.
Definition discard_pages (pages : list Page) (from to : Z) : list Page :=
  discard_slot from to <$> pages.
Definition discarded (pages : list Page) (from to : Z) : list Z :=
  pg_backing <$> filter (fun p => discards from to p = true) pages.

(** ** Specification: a finite map *)

Definition live (p : Page) : Prop := pg_address p <> 0 /\ pg_address p <> UINT64_MAX.
#[export] Instance live_dec p : Decision (live p).
Proof. unfold live. apply _. Defined.

(** The [j]-th slot probed for an address. *)
Definition probe (pages : list Page) (address j : Z) : Z :=
  (page_hash address + j) mod slot_count pages.
Definition key (address : Z) : Prop := address <> 0 /\ address <> UINT64_MAX.

(** A live page can be reached: no slot before it in its probe sequence was
    never used; and no address has two pages. *)
Record table_wf (pages : list Page) : Prop := {
  table_size : exists k, 0 <= k /\ slot_count pages = 2 ^ k;
  table_reach : forall i p, pages !! Z.to_nat i = Some p -> 0 <= i -> live p ->
    exists j, 0 <= j < slot_count pages /\ i = probe pages (pg_address p) j /\
      forall j', 0 <= j' < j -> page_addr pages (probe pages (pg_address p) j') <> 0;
  table_unique : forall i i' p p', pages !! i = Some p -> pages !! i' = Some p' ->
    live p -> pg_address p = pg_address p' -> i = i'
}.

(** ** Probing *)

Section probing.
Context (pages : list Page) (a : Z).
Hypothesis Hwf : table_wf pages.
Hypothesis Ha : key a.

Lemma slot_count_pos : 0 < slot_count pages.
Proof. destruct (table_size pages Hwf) as (k & Hk & ->). by apply Z.pow_pos_nonneg. Qed.

Lemma land_slots x : Z.land x (slot_count pages - 1) = x mod slot_count pages.
Proof. destruct (table_size pages Hwf) as (k & Hk & ->). by apply land_mask. Qed.

Lemma probe_range j : 0 <= probe pages a j < slot_count pages.
Proof. apply Z.mod_pos_bound, slot_count_pos. Qed.

Lemma probe_next j : Z.land (probe pages a j + 1) (slot_count pages - 1) = probe pages a (j + 1).
Proof.
  rewrite land_slots. unfold probe. rewrite Z.add_mod_idemp_l by (pose proof slot_count_pos; lia).
  f_equal. lia.
Qed.

(** The probes of [slot_count] steps visit every slot. *)
Lemma probe_surj i :
  0 <= i < slot_count pages -> exists j, 0 <= j < slot_count pages /\ i = probe pages a j.
Proof.
  intros Hi. pose proof slot_count_pos. exists ((i - page_hash a) mod slot_count pages).
  split; [by apply Z.mod_pos_bound|]. unfold probe.
  rewrite Z.add_mod_idemp_r by lia. replace (_ + _) with i by lia. by rewrite Z.mod_small.
Qed.

Lemma page_addr_lookup i :
  0 <= i < slot_count pages ->
  exists p, pages !! Z.to_nat i = Some p /\ page_addr pages i = pg_address p.
Proof.
  intros Hi. unfold page_addr. unfold slot_count in Hi.
  destruct (lookup_lt_is_Some_2 pages (Z.to_nat i)) as [p Hp]; [lia|]. exists p. by rewrite Hp.
Qed.

(** What a probe sequence ends with. *)
Definition absent : Prop := forall i, 0 <= i < slot_count pages -> page_addr pages i <> a.
Definition open_slot (i : Z) : Prop :=
  0 <= i < slot_count pages /\ (page_addr pages i = 0 \/ page_addr pages i = UINT64_MAX) /\
  exists j, 0 <= j < slot_count pages /\ i = probe pages a j /\
    forall j', 0 <= j' < j -> page_addr pages (probe pages a j') <> 0.
Definition slot_post (insertion : bool) (out : option Z) : Prop :=
  (exists i, out = Some i /\ 0 <= i < slot_count pages /\ page_addr pages i = a) \/
  (absent /\
   if insertion then
     match out with
     | Some i => open_slot i
     | None => forall i, 0 <= i < slot_count pages ->
         page_addr pages i <> 0 /\ page_addr pages i <> UINT64_MAX
     end
   else out = None).

(** A never used slot in the sequence means the address is nowhere. *)
Lemma absent_at_empty j :
  0 <= j -> page_addr pages (probe pages a j) = 0 ->
  (forall j', 0 <= j' < j -> page_addr pages (probe pages a j') <> a) -> absent.
Proof.
  intros Hj H0 Hbefore i Hi Hia. destruct (page_addr_lookup i Hi) as (p & Hp & Hpa).
  destruct Ha as [Ha0 Ha1].
  destruct (table_reach pages Hwf i p Hp ltac:(lia)) as (j1 & Hj1 & -> & Hne).
  { unfold live. split; congruence. }
  replace (pg_address p) with a in * by congruence.
  destruct (Z.lt_trichotomy j1 j) as [Hlt|[->|Hgt]].
  - apply (Hbefore j1); [lia|done].
  - congruence.
  - apply (Hne j); [lia|done].
Qed.

Lemma slot_loop_spec steps j insertion fd :
  0 <= j -> Z.of_nat steps = slot_count pages - j ->
  (forall j', 0 <= j' < j -> page_addr pages (probe pages a j') <> a /\
    page_addr pages (probe pages a j') <> 0) ->
  match fd with
  | Some i => exists j', 0 <= j' < j /\ i = probe pages a j' /\ page_addr pages i = UINT64_MAX
  | None => forall j', 0 <= j' < j -> page_addr pages (probe pages a j') <> UINT64_MAX
  end ->
  slot_post insertion (slot_loop steps pages a insertion (probe pages a j) fd).
Proof.
  revert j fd. induction steps as [|steps IH]; intros j fd Hj Hsteps Hseen Hfd.
  - cbn [slot_loop]. right. assert (absent) as Habs.
    { intros i Hi. destruct (probe_surj i Hi) as (j' & Hj' & ->). apply Hseen. lia. }
    split; [done|]. destruct insertion; [|done]. destruct fd as [i|].
    + destruct Hfd as (j' & Hj' & -> & Hd). split; [apply probe_range|]. split; [by right|].
      exists j'. split; [lia|]. split; [done|]. intros j'' Hj''. apply Hseen. lia.
    + intros i Hi. destruct (probe_surj i Hi) as (j' & Hj' & ->).
      split; [apply Hseen; lia|]. apply Hfd. lia.
  - cbn [slot_loop]. destruct (Z.eqb_spec (page_addr pages (probe pages a j)) a) as [Ea|Ena].
    { left. exists (probe pages a j). split; [done|]. split; [apply probe_range|done]. }
    destruct (Z.eqb_spec (page_addr pages (probe pages a j)) 0) as [E0|En0].
    { right. split; [apply (absent_at_empty j); [done|done|]; intros j' Hj'; by apply Hseen|].
      destruct insertion; [|done]. destruct fd as [i|]; cbn [default from_option id].
      - destruct Hfd as (j' & Hj' & -> & Hd). split; [apply probe_range|]. split; [by right|].
        exists j'. split; [lia|]. split; [done|]. intros j'' Hj''. apply Hseen. lia.
      - split; [apply probe_range|]. split; [by left|]. exists j. split; [lia|].
        split; [done|]. intros j' Hj'. by apply Hseen. }
    rewrite probe_next. apply IH; [lia|lia| |].
    { intros j' Hj'. destruct (decide (j' = j)) as [->|]; [done|]. apply Hseen. lia. }
    destruct fd as [i|].
    + rewrite bool_decide_eq_true_2 by done. rewrite andb_false_r.
      destruct Hfd as (j' & Hj' & ? & ?). exists j'. split; [lia|done].
    + rewrite bool_decide_eq_false_2 by (by intros [? ?]). rewrite andb_true_r.
      destruct (Z.eqb_spec (page_addr pages (probe pages a j)) UINT64_MAX) as [Ed|Ed].
      * exists j. split; [lia|]. done.
      * intros j' Hj'. destruct (decide (j' = j)) as [->|]; [done|]. apply Hfd. lia.
Qed.

Lemma page_slot_post insertion : slot_post insertion (page_slot pages a insertion).
Proof.
  unfold page_slot. rewrite land_slots.
  replace (page_hash a mod slot_count pages) with (probe pages a 0)
    by (unfold probe; f_equal; lia).
  apply slot_loop_spec; [lia|unfold slot_count; lia|lia|lia].
Qed.
End probing.

(** ** The table as a finite map *)

(** What the search for an address finds. *)
Definition page_at (pages : list Page) (a : Z) : option Page :=
  i ← page_slot pages a false; pages !! Z.to_nat i.

Lemma addr_elem pages i a :
  0 <= i < slot_count pages -> page_addr pages i = a ->
  exists p, pages !! Z.to_nat i = Some p /\ pg_address p = a.
Proof.
  intros Hi Ha. unfold page_addr, slot_count in *.
  destruct (lookup_lt_is_Some_2 pages (Z.to_nat i)) as [p Hp]; [lia|]. exists p.
  by rewrite Hp in Ha.
Qed.
Lemma elem_addr pages i p :
  pages !! i = Some p ->
  0 <= Z.of_nat i < slot_count pages /\ page_addr pages (Z.of_nat i) = pg_address p.
Proof.
  intros Hp. unfold page_addr, slot_count. rewrite Nat2Z.id, Hp. split; [|done].
  apply lookup_lt_Some in Hp. lia.
Qed.

Lemma page_slot_Some pages a i :
  table_wf pages -> key a -> page_slot pages a false = Some i ->
  0 <= i /\ exists p, pages !! Z.to_nat i = Some p /\ pg_address p = a.
Proof.
  intros Hwf Ha Hs. destruct (page_slot_post pages a Hwf Ha false) as [(i' & Hi' & Hr & Hia)|[_ Hn]].
  - rewrite Hs in Hi'. injection Hi' as <-. split; [lia|]. by apply addr_elem.
  - by rewrite Hs in Hn.
Qed.
Lemma page_slot_None pages a :
  table_wf pages -> key a ->
  page_slot pages a false = None <-> forall p, p ∈ pages -> pg_address p <> a.
Proof.
  intros Hwf Ha. split.
  - intros Hs p Hp Hpa. apply list_elem_of_lookup in Hp as [i Hi].
    destruct (page_slot_post pages a Hwf Ha false) as [(i' & Hi' & _)|[Habs _]]; [by rewrite Hs in Hi'|].
    apply elem_addr in Hi as [Hr He]. by apply (Habs (Z.of_nat i) Hr); rewrite He.
  - intros Hno. destruct (page_slot pages a false) as [i|] eqn:E; [|done].
    apply page_slot_Some in E as (_ & p & Hp & Hpa); [|done|done].
    by destruct (Hno p); [eapply list_elem_of_lookup_2|].
Qed.

(** The table finds exactly the live pages. *)
Lemma page_at_spec pages a p :
  table_wf pages -> key a -> page_at pages a = Some p <-> p ∈ pages /\ pg_address p = a.
Proof.
  intros Hwf Ha. unfold page_at. split.
  - destruct (page_slot pages a false) as [i|] eqn:E; [|done]. cbn. intros Hp.
    apply page_slot_Some in E as (_ & q & Hq & Hqa); [|done|done].
    assert (p = q) as -> by congruence. split; [by eapply list_elem_of_lookup_2|done].
  - intros [Hp Hpa]. destruct (page_slot pages a false) as [i|] eqn:E; cbn.
    + apply page_slot_Some in E as (_ & q & Hq & Hqa); [|done|done].
      apply list_elem_of_lookup in Hp as [j Hj].
      assert (j = Z.to_nat i) as <-; [|done].
      apply (table_unique pages Hwf j (Z.to_nat i) p q); [done|done|by unfold live; rewrite Hpa|congruence].
    + by destruct (proj1 (page_slot_None pages a Hwf Ha) E p Hp).
Qed.

(** Rewriting a slot with another page of the same address, or an open slot
    with an absent address. *)
Lemma page_addr_insert pages i p j :
  0 <= i < slot_count pages -> 0 <= j ->
  page_addr (<[Z.to_nat i := p]> pages) j = if decide (j = i) then pg_address p else page_addr pages j.
Proof.
  intros Hi Hj. unfold page_addr, slot_count in *. case_decide as E.
  - subst. by rewrite list_lookup_insert_eq by lia.
  - by rewrite list_lookup_insert_ne by lia.
Qed.
Lemma slot_count_insert pages i p : slot_count (<[i := p]> pages) = slot_count pages.
Proof. unfold slot_count. by rewrite length_insert. Qed.

Lemma table_insert_wf pages a i p :
  table_wf pages -> key a -> pg_address p = a -> open_slot pages a i ->
  (forall q, q ∈ pages -> pg_address q <> a) -> table_wf (<[Z.to_nat i := p]> pages).
Proof.
  intros Hwf Ha Hpa (Hi & Hopen & j0 & Hj0 & Hij0 & Hbefore) Habs.
  assert (forall b j, probe (<[Z.to_nat i := p]> pages) b j = probe pages b j) as Hprobe
    by (intros; unfold probe; by rewrite slot_count_insert).
  assert (forall b j, page_addr pages (probe pages b j) <> 0 ->
    page_addr (<[Z.to_nat i := p]> pages) (probe pages b j) <> 0) as Hkeep.
  { intros b j Hne. rewrite page_addr_insert; [|done|by apply probe_range].
    case_decide; [|done]. rewrite Hpa. apply Ha. }
  split.
  - rewrite slot_count_insert. by apply Hwf.
  - intros i' q Hq Hi' Hlive. rewrite slot_count_insert. destruct (decide (i' = i)) as [->|Hne].
    + rewrite list_lookup_insert_eq in Hq by (unfold slot_count in Hi; lia). injection Hq as <-.
      rewrite Hpa. exists j0. split; [done|]. split; [by rewrite Hprobe|].
      intros j' Hj'. rewrite Hprobe. apply Hkeep. by apply Hbefore.
    + rewrite list_lookup_insert_ne in Hq by lia.
      destruct (table_reach pages Hwf i' q Hq Hi' Hlive) as (j & Hj & -> & Hr).
      exists j. split; [done|]. split; [by rewrite Hprobe|].
      intros j' Hj'. rewrite Hprobe. apply Hkeep. by apply Hr.
  - intros n n' q q' Hq Hq' Hlive Heq. rewrite list_lookup_insert in Hq, Hq'.
    case_decide as Hn; case_decide as Hn'; simplify_eq.
    + destruct Hn, Hn'. congruence.
    + destruct (Habs q); [by eapply list_elem_of_lookup_2|done].
    + destruct (Habs q'); [by eapply list_elem_of_lookup_2|done].
    + by apply (table_unique pages Hwf n n' q q').
Qed.

Lemma table_update_wf pages i p q :
  table_wf pages -> pages !! i = Some q -> pg_address p = pg_address q ->
  table_wf (<[i := p]> pages).
Proof.
  intros Hwf Hq Hpa.
  assert (forall j, page_addr (<[i := p]> pages) j = page_addr pages j) as Haddr.
  { intros j. unfold page_addr. rewrite list_lookup_insert. case_decide as E; [|done].
    destruct E as [<- _]. by rewrite Hq. }
  assert (forall n r, <[i := p]> pages !! n = Some r ->
    exists r', pages !! n = Some r' /\ pg_address r = pg_address r') as Hback.
  { intros n r Hr. rewrite list_lookup_insert in Hr. case_decide as E; [|by eauto].
    destruct E as [<- _]. simplify_eq. eauto. }
  assert (forall b j, probe (<[i := p]> pages) b j = probe pages b j) as Hprobe
    by (intros; unfold probe; by rewrite slot_count_insert).
  split.
  - rewrite slot_count_insert. by apply Hwf.
  - intros n r Hr Hn Hlive. apply Hback in Hr as (r' & Hr' & Ha).
    rewrite slot_count_insert, Ha. unfold live in Hlive. rewrite Ha in Hlive.
    destruct (table_reach pages Hwf n r' Hr' Hn Hlive) as (j & Hj & Hnj & Hbefore).
    exists j. split; [done|]. split; [by rewrite Hprobe|].
    intros j' Hj'. rewrite Hprobe, Haddr. by apply Hbefore.
  - intros n n' r1 r2 H1 H2 Hlive Heq. apply Hback in H1 as (r1' & H1 & E1).
    apply Hback in H2 as (r2' & H2 & E2). unfold live in Hlive. rewrite E1 in Hlive.
    apply (table_unique pages Hwf n n' r1' r2'); [done|done|done|congruence].
Qed.

Lemma discard_live from to p :
  live (discard_slot from to p) <-> live p /\ ~ (from <= pg_address p < to).
Proof.
  unfold discard_slot, discards, live.
  destruct (_ && _) eqn:E; bool_props; cbn; [lia|].
  split; [|tauto]. intros [H0 H1]. split; [done|]. intros [Hf Ht].
  destruct (Z.eqb_spec (pg_address p) 0), (Z.eqb_spec (pg_address p) UINT64_MAX),
    (Z.leb_spec from (pg_address p)), (Z.ltb_spec (pg_address p) to); cbn in E; try done; lia.
Qed.
Lemma discard_live_same from to p : live (discard_slot from to p) -> discard_slot from to p = p.
Proof.
  unfold discard_slot. destruct (discards from to p); [|done]. intros [_ ?]. done.
Qed.

Lemma table_discard_wf pages from to : table_wf pages -> table_wf (discard_pages pages from to).
Proof.
  intros Hwf. unfold discard_pages.
  assert (slot_count (discard_slot from to <$> pages) = slot_count pages) as Hlen
    by (unfold slot_count; by rewrite length_fmap).
  assert (forall b j, probe (discard_slot from to <$> pages) b j = probe pages b j) as Hprobe
    by (intros; unfold probe; by rewrite Hlen).
  assert (forall j, page_addr pages j <> 0 -> page_addr (discard_slot from to <$> pages) j <> 0) as Hkeep.
  { intros j. unfold page_addr. rewrite list_lookup_fmap. destruct (pages !! Z.to_nat j); [|done].
    cbn. unfold discard_slot. by destruct (discards from to p). }
  split.
  - rewrite Hlen. by apply Hwf.
  - intros i p Hp Hi Hlive. apply list_lookup_fmap_Some in Hp as (q & -> & Hq).
    pose proof (discard_live_same _ _ _ Hlive) as Hsame. rewrite Hsame in Hlive |- *. rewrite Hlen.
    destruct (table_reach pages Hwf i q Hq Hi Hlive) as (j & Hj & Hij & Hbefore).
    exists j. split; [done|]. split; [by rewrite Hprobe|].
    intros j' Hj'. rewrite Hprobe. apply Hkeep. by apply Hbefore.
  - intros i i' p p' Hp Hp' Hlive Heq.
    apply list_lookup_fmap_Some in Hp as (q & -> & Hq). apply list_lookup_fmap_Some in Hp' as (q' & -> & Hq').
    pose proof (discard_live_same _ _ _ Hlive) as Hsame. rewrite Hsame in Hlive, Heq.
    assert (live (discard_slot from to q')) as Hlive' by (unfold live; by rewrite <- Heq).
    rewrite (discard_live_same _ _ _ Hlive') in Heq.
    by apply (table_unique pages Hwf i i' q q').
Qed.

(** ** The map operations *)

Lemma page_at_ext pages pages' a b :
  table_wf pages -> table_wf pages' -> key a -> key b ->
  (forall p, (p ∈ pages' /\ pg_address p = b) <-> (p ∈ pages /\ pg_address p = a)) ->
  page_at pages' b = page_at pages a.
Proof.
  intros H1 H2 Ha Hb Hiff. apply option_eq. intros p.
  rewrite page_at_spec, page_at_spec by done. apply Hiff.
Qed.

Lemma elem_of_insert_list {A} (l : list A) i x y z :
  l !! i = Some y -> z ∈ <[i := x]> l <->
  z = x \/ exists j, j <> i /\ l !! j = Some z.
Proof.
  intros Hi. pose proof (lookup_lt_Some _ _ _ Hi). rewrite list_elem_of_lookup. split.
  - intros [j Hj]. rewrite list_lookup_insert in Hj. case_decide as E; [left; congruence|].
    right. exists j. split; [|done]. intros ->. by destruct E.
  - intros [->|(j & Hne & Hj)]; [exists i|exists j].
    + by apply list_lookup_insert_eq.
    + by rewrite list_lookup_insert_ne.
Qed.

(** Storing a page for an absent address in an open slot. *)
Lemma page_at_insert pages a i p b :
  table_wf pages -> key a -> key b -> pg_address p = a -> open_slot pages a i ->
  page_at pages a = None ->
  page_at (<[Z.to_nat i := p]> pages) b = if decide (b = a) then Some p else page_at pages b.
Proof.
  intros Hwf Ha Hb Hpa Hopen Hnone.
  assert (forall q, q ∈ pages -> pg_address q <> a) as Habs.
  { intros q Hq Hqa. pose proof (proj2 (page_at_spec pages a q Hwf Ha) (conj Hq Hqa)). congruence. }
  pose proof (table_insert_wf pages a i p Hwf Ha Hpa Hopen Habs) as Hwf'.
  destruct Hopen as (Hi & Hdead & _).
  assert (exists q, pages !! Z.to_nat i = Some q) as [q Hq].
  { unfold slot_count in Hi. destruct (lookup_lt_is_Some_2 pages (Z.to_nat i)); [lia|eauto]. }
  assert (page_addr pages i = pg_address q) as Haddr by (unfold page_addr; by rewrite Hq).
  rewrite Haddr in Hdead.
  case_decide as E.
  - subst b. apply page_at_spec; [done|done|]. split; [|done].
    apply (elem_of_insert_list _ _ _ _ _ Hq). by left.
  - apply page_at_ext; [done..|]. intros r. rewrite (elem_of_insert_list _ _ _ _ r Hq). split.
    + intros [[->|(j & _ & Hj)] Hr]; [congruence|]. split; [by eapply list_elem_of_lookup_2|done].
    + intros [Hr Hrb]. split; [|done]. right. apply list_elem_of_lookup in Hr as [j Hj].
      exists j. split; [|done]. intros ->. assert (r = q) as -> by congruence.
      destruct Hb. destruct Hdead; congruence.
Qed.

Lemma page_at_update pages i p q b :
  table_wf pages -> pages !! i = Some q -> pg_address p = pg_address q -> key (pg_address q) ->
  key b -> page_at (<[i := p]> pages) b = if decide (b = pg_address q) then Some p else page_at pages b.
Proof.
  intros Hwf Hq Hpa Ha Hb. pose proof (table_update_wf pages i p q Hwf Hq Hpa) as Hwf'.
  case_decide as E.
  - subst b. apply page_at_spec; [done|done|]. split; [|done].
    apply (elem_of_insert_list _ _ _ _ _ Hq). by left.
  - apply page_at_ext; [done..|]. intros r. rewrite (elem_of_insert_list _ _ _ _ r Hq). split.
    + intros [[->|(j & _ & Hj)] Hr]; [congruence|]. split; [by eapply list_elem_of_lookup_2|done].
    + intros [Hr Hrb]. split; [|done]. right. apply list_elem_of_lookup in Hr as [j Hj].
      exists j. split; [|done]. intros ->. congruence.
Qed.

Lemma page_at_discard pages from to b :
  table_wf pages -> key b ->
  page_at (discard_pages pages from to) b =
    if decide (from <= b < to) then None else page_at pages b.
Proof.
  intros Hwf Hb. pose proof (table_discard_wf pages from to Hwf) as Hwf'.
  assert (forall r, r ∈ discard_pages pages from to /\ pg_address r = b <->
    (r ∈ pages /\ pg_address r = b) /\ ~ (from <= b < to)) as Hiff.
  { intros r. unfold discard_pages. rewrite list_elem_of_fmap. split.
    - intros [(q & -> & Hq) Hr].
      assert (live (discard_slot from to q)) as Hl by (unfold live; rewrite Hr; apply Hb).
      pose proof (discard_live_same _ _ _ Hl) as Hsame. apply discard_live in Hl as [_ Hout].
      rewrite Hsame in Hr |- *. by rewrite Hr in Hout.
    - intros [[Hr Hrb] Hout]. split; [|done]. exists r. split; [|done].
      symmetry. apply discard_live_same, discard_live. unfold live. rewrite Hrb. by split; [apply Hb|]. }
  case_decide as E.
  - destruct (page_at (discard_pages pages from to) b) as [p|] eqn:Ep; [|done].
    apply page_at_spec in Ep; [|done|done]. by apply Hiff in Ep as [_ ?].
  - apply page_at_ext; [done..|]. intros r. rewrite Hiff. tauto.
Qed.

(** ** Who owns which backing page *)

Definition live_backings (pages : list Page) : list Z := pg_backing <$> filter live pages.

Lemma live_backings_insert pages i p q :
  pages !! i = Some q -> ~ live q -> live p ->
  live_backings (<[i := p]> pages) ≡ₚ pg_backing p :: live_backings pages.
Proof.
  intros Hq Hdead Hlive. unfold live_backings.
  rewrite <- (take_drop_middle pages i q) at 2 by done.
  rewrite insert_take_drop by by eapply lookup_lt_Some.
  rewrite !filter_app, !filter_cons, decide_True, decide_False by done.
  rewrite !fmap_app. cbn. by rewrite Permutation_middle.
Qed.

Lemma live_backings_update pages i p q :
  pages !! i = Some q -> live q -> live p -> pg_backing p = pg_backing q ->
  live_backings (<[i := p]> pages) = live_backings pages.
Proof.
  intros Hq Hlq Hlp Hb. unfold live_backings.
  rewrite <- (take_drop_middle pages i q) at 2 by done.
  rewrite insert_take_drop by by eapply lookup_lt_Some.
  rewrite !filter_app, !filter_cons, !decide_True by done.
  rewrite !fmap_app. cbn. by rewrite Hb.
Qed.

Lemma live_backings_discard pages from to :
  live_backings pages ≡ₚ discarded pages from to ++ live_backings (discard_pages pages from to).
Proof.
  unfold live_backings, discarded, discard_pages. induction pages as [|p pages IH]; [done|].
  cbn [fmap list_fmap]. destruct (discards from to p) eqn:E.
  - assert (discard_slot from to p = mkPage UINT64_MAX (pg_generation p) (pg_backing p)) as ->
      by (unfold discard_slot; by rewrite E).
    rewrite (filter_cons_True (fun p => discards from to p = true)) by done.
    unfold discards in E. bool_props. rewrite filter_cons_True by (by split).
    rewrite filter_cons_False by (by intros [_ []]). cbn. by rewrite IH.
  - assert (discard_slot from to p = p) as -> by (unfold discard_slot; by rewrite E).
    rewrite (filter_cons_False (fun p => discards from to p = true)) by congruence.
    rewrite !filter_cons. destruct (decide (live p)); [|done]. cbn. by rewrite IH, Permutation_middle.
Qed.

Lemma elem_of_live_backings pages b :
  b ∈ live_backings pages <-> exists p, p ∈ pages /\ live p /\ pg_backing p = b.
Proof.
  unfold live_backings. rewrite list_elem_of_fmap. split.
  - intros (p & -> & Hp). apply list_elem_of_filter in Hp as [? ?]. eauto.
  - intros (p & Hp & Hl & <-). exists p. split; [done|]. by apply list_elem_of_filter.
Qed.

Lemma live_backings_full pages :
  (forall p, p ∈ pages -> live p) -> length (live_backings pages) = length pages.
Proof. intros Hl. unfold live_backings. by rewrite length_fmap, filter_every. Qed.

(** With a slot to spare, an absent address gets an open slot. *)
Lemma page_slot_insertion pages a :
  table_wf pages -> key a -> page_at pages a = None ->
  (length (live_backings pages) < length pages)%nat ->
  exists i, page_slot pages a true = Some i /\ open_slot pages a i.
Proof.
  intros Hwf Ha Hnone Hroom.
  destruct (page_slot_post pages a Hwf Ha true) as [(i & _ & Hi & Hia)|[_ Hout]].
  - apply addr_elem in Hia as (p & Hp & Hpa); [|done]. exfalso.
    assert (page_at pages a = Some p); [|congruence]. apply page_at_spec; [done|done|].
    split; [by eapply list_elem_of_lookup_2|done].
  - destruct (page_slot pages a true) as [i|]; [by eauto|]. exfalso.
    rewrite live_backings_full in Hroom; [lia|]. intros p Hp. apply list_elem_of_lookup in Hp as [i Hi].
    apply elem_addr in Hi as [Hr He]. destruct (Hout _ Hr). unfold live. by rewrite <- He.
Qed.

Lemma table_empty_wf k n :
  0 <= k -> Z.of_nat n = 2 ^ k -> table_wf (replicate n empty_page).
Proof.
  intros Hk Hn. split.
  - exists k. split; [done|]. unfold slot_count. by rewrite length_replicate.
  - intros i p Hp _ [Hl _]. by apply lookup_replicate in Hp as [-> _].
  - intros i i' p p' Hp _ [Hl _]. by apply lookup_replicate in Hp as [-> _].
Qed.

(** The page-table search: [page_slot] without insertion finds the slot of the
    address if a live page has it and reports absence otherwise; with insertion,
    while a slot is free, it gives an absent address a slot in which a new page
    can be found again and hides no other page. *)
Theorem page_slot_spec pages a :
  table_wf pages -> key a ->
  match page_slot pages a false with
  | Some i => exists p, pages !! Z.to_nat i = Some p /\ pg_address p = a
  | None =>
      (forall p, p ∈ pages -> pg_address p <> a) /\
      ((length (live_backings pages) < length pages)%nat ->
       exists i, page_slot pages a true = Some i /\
         forall p, pg_address p = a ->
           table_wf (<[Z.to_nat i := p]> pages) /\
           forall b, key b -> page_at (<[Z.to_nat i := p]> pages) b =
             if decide (b = a) then Some p else page_at pages b)
  end.
Proof.
  intros Hwf Ha. destruct (page_slot pages a false) as [i|] eqn:E.
  { by apply page_slot_Some in E as [_ ?]. }
  assert (page_at pages a = None) as Hnone by (unfold page_at; by rewrite E).
  split; [by apply page_slot_None|]. intros Hroom.
  destruct (page_slot_insertion pages a Hwf Ha Hnone Hroom) as (i & Hi & Hopen).
  exists i. split; [done|]. intros p Hp. split.
  { apply (table_insert_wf pages a); [done..|]. by apply page_slot_None. }
  intros b Hb. by apply (page_at_insert pages a).
Qed.

Lemma page_slot_spec_witness :
  page_slot (replicate 16 empty_page) 16384 false = None /\
  exists i, page_slot (replicate 16 empty_page) 16384 true = Some i.
Proof.
  pose proof (page_slot_spec (replicate 16 empty_page) 16384
    (table_empty_wf 4 16 ltac:(lia) eq_refl) ltac:(done)) as H.
  assert (page_slot (replicate 16 empty_page) 16384 false = None) as E by reflexivity.
  rewrite E in H. split; [done|]. destruct H as [_ H].
  destruct H as (i & Hi & _); [vm_compute; lia|]. by exists i.
Defined.
