(* ===== verification/GuestSparseMemory.v ===== *)
(** * GuestSparseMemory: the bounded software address space
    (runtime/GuestSparseMemory.c)

    [Space] is the structure behind a [GMSparseMemory]; a handle is
    [option Space], [None] when there is no implementation. Every operation
    holds the space's lock from its first access to its last, so an operation
    is one transition of the state. The backing pages are a list of page
    contents, whether the arena is one mapping or separate blocks. *)
From S2P Require Import Prelude GuestMemory SparseRegions SparseTable.

(** ** Data *)

Record Space := mkSpace {
  sp_base : Z;
  sp_end : Z;
  sp_generation : Z;
  sp_mapping_generation : Z;
  sp_backing : list (list Z);
  sp_resident : Z;
  sp_next_backing : Z;
  sp_free_backing : list Z;
  sp_pages : list Page;
  sp_regions : list Region
}.
Definition sp_capacity (s : Space) : Z := Z.of_nat (length (sp_backing s)).

Record GMSparseStats := mkStats {
  reserved_bytes : Z; write_operations : Z; regions : Z; resident_pages : Z; capacity_pages : Z
}.
Record GMSparseExclusive := mkExclusive {
  ex_address : Z; ex_generation : Z; ex_mapping_generation : Z; ex_size : Z; ex_valid : bool
}.
Inductive GMSparseAtomic :=
  GM_ATOMIC_ADD | GM_ATOMIC_CLEAR | GM_ATOMIC_XOR | GM_ATOMIC_SET
| GM_ATOMIC_SIGNED_MAX | GM_ATOMIC_SIGNED_MIN | GM_ATOMIC_UNSIGNED_MAX
| GM_ATOMIC_UNSIGNED_MIN | GM_ATOMIC_SWAP.

Definition sp_set_regions (s : Space) (rs : list Region) : Space :=
  mkSpace (sp_base s) (sp_end s) (sp_generation s) (w64 (sp_mapping_generation s + 1))
    (sp_backing s) (sp_resident s) (sp_next_backing s) (sp_free_backing s) (sp_pages s) rs.
Definition sp_discard (s : Space) (from to : Z) : Space :=
  let gone := discarded (sp_pages s) from to in
  mkSpace (sp_base s) (sp_end s) (sp_generation s) (sp_mapping_generation s)
    (sp_backing s) (sp_resident s - Z.of_nat (length gone)) (sp_next_backing s)
    (sp_free_backing s ++ gone) (discard_pages (sp_pages s) from to) (sp_regions s).
Definition sp_bump (s : Space) : Space :=
  mkSpace (sp_base s) (sp_end s) (w64 (sp_generation s + 1)) (sp_mapping_generation s)
    (sp_backing s) (sp_resident s) (sp_next_backing s) (sp_free_backing s) (sp_pages s)
    (sp_regions s).
Definition sp_set_page (s : Space) (slot : Z) (p : Page) : Space :=
  mkSpace (sp_base s) (sp_end s) (sp_generation s) (sp_mapping_generation s)
    (sp_backing s) (sp_resident s) (sp_next_backing s) (sp_free_backing s)
    (<[Z.to_nat slot := p]> (sp_pages s)) (sp_regions s).
Definition sp_set_backing (s : Space) (index : Z) (bytes : list Z) : Space :=
  mkSpace (sp_base s) (sp_end s) (sp_generation s) (sp_mapping_generation s)
    (<[Z.to_nat index := bytes]> (sp_backing s)) (sp_resident s) (sp_next_backing s)
    (sp_free_backing s) (sp_pages s) (sp_regions s).

(** ** Ranges *)

Definition aligned (a n : Z) : bool :=
  negb (n =? 0) && (a mod GM_PAGE_SIZE =? 0) && (n mod GM_PAGE_SIZE =? 0) && (n <=? UINT64_MAX - a).
Definition contains (s : Space) (a n : Z) : bool :=
  (sp_base s <=? a) && (a <=? sp_end s) && (n <=? sp_end s - a).
Definition mapping_range (s : Space) (a n : Z) : bool := aligned a n && contains s a n.

Definition backing_page (s : Space) (index : Z) : list Z :=
  default zero_bytes (sp_backing s !! Z.to_nat index).

(** ** Initialization *)

Definition sizeof_Page : Z := 24.
Definition sizeof_pointer : Z := 8.

(** [while (slots < capacity * 2)]: 64 doublings pass any 64-bit capacity. *)
Fixpoint slots_loop (fuel : nat) (slots capacity : Z) : option Z :=
  match fuel with
  | O => None
  | S fuel =>
    if slots <? capacity * 2 then
      if UINT64_MAX / 2 <? slots then None else slots_loop fuel (slots * 2) capacity
    else Some slots
  end.

(** The handle is [None] for a null pointer, [Some None] for an empty handle.
    [alloc_ok] is whether every allocation succeeds and [arena] what the backing
    pages hold when they are allocated. *)
Definition initialize (memory : option (option Space)) (base size backing_bytes : Z)
    (alloc_ok : bool) (arena : list (list Z)) : GMResult * option (option Space) :=
  match memory with
  | Some None =>
    if (base =? 0) || negb (aligned base size) || (backing_bytes =? 0) ||
       negb (backing_bytes mod GM_PAGE_SIZE =? 0) then (GM_INVALID, memory) else
    let capacity := backing_bytes / GM_PAGE_SIZE in
    if UINT64_MAX / 2 <? capacity then (GM_NOMEM, memory) else
    match slots_loop 64 16 capacity with
    | None => (GM_NOMEM, memory)
    | Some slots =>
      if (UINT64_MAX / sizeof_Page <? slots) || (UINT64_MAX / sizeof_pointer <? capacity) ||
         (UINT64_MAX / sizeof_pointer <? capacity) then (GM_NOMEM, memory) else
      if negb alloc_ok then (GM_NOMEM, memory) else
      (GM_OK, Some (Some (mkSpace base (base + size) 0 0 arena 0 0 []
                            (replicate (Z.to_nat slots) empty_page) [])))
    end
  | _ => (GM_INVALID, memory)
  end.
Definition gm_sparse_destroy (memory : option (option Space)) : option (option Space) :=
  match memory with
  | Some (Some _) => Some None
  | _ => memory
  end.

(** ** Mappings *)

(** On success the second component is stored through the out pointer, whose
    presence is [address]. *)
Definition gm_sparse_find_free (memory : option Space) (size : Z) (address : bool)
    : GMResult * option Z :=
  match memory with
  | None => (GM_INVALID, None)
  | Some s =>
    if negb address || negb (aligned 0 size) then (GM_INVALID, None) else
    let candidate := free_loop (sp_regions s) (sp_base s) size in
    if size <=? sp_end s - candidate then (GM_OK, Some candidate) else (GM_NOMEM, None)
  end.

Definition change (memory : option Space) (a n prot maxprot : Z) (replace : bool) (op : Operation)
    : GMResult * option Space :=
  match memory with
  | None => (GM_INVALID, memory)
  | Some s =>
    if negb (mapping_range s a n) || negb (none_outside maxprot 7) || negb (none_outside prot maxprot)
    then (GM_INVALID, memory) else
    let stop := a + n in
    let result := change_check (sp_regions s) a stop prot replace op in
    if negb (bool_decide (result = GM_OK)) then (result, memory) else
    match rebuild (sp_regions s) [] (negb (op_is op MAP)) a stop prot maxprot op with
    | None => (GM_NOMEM, memory)
    | Some next =>
      let s := if negb (sp_resident s =? 0) && negb (op_is op PROTECT)
               then sp_discard s a stop else s in
      (GM_OK, Some (sp_set_regions s next))
    end
  end.
Definition gm_sparse_map (m : option Space) (a n p max : Z) (replace : bool) :=
  change m a n p max replace MAP.
Definition gm_sparse_unmap (m : option Space) (a n : Z) := change m a n 0 0 false UNMAP.
Definition gm_sparse_protect (m : option Space) (a n p : Z) := change m a n p 7 false PROTECT.

(** ** Accesses *)

Definition check_access (s : Space) (a n permission : Z) : GMResult :=
  if negb (contains s a n) then GM_INVALID else
  if n =? 0 then GM_OK else check_covered (sp_regions s) a n permission.

(** The preflight of a store: are there backing pages for the pages missing? *)
Fixpoint needed_loop (fuel : nat) (s : Space) (page stop needed : Z) : bool :=
  match fuel with
  | O => true
  | S fuel =>
    if page <? stop then
      match page_slot (sp_pages s) page false with
      | None =>
        if sp_capacity s - sp_resident s <? needed + 1 then false
        else needed_loop fuel s (page + GM_PAGE_SIZE) stop (needed + 1)
      | Some _ => needed_loop fuel s (page + GM_PAGE_SIZE) stop needed
      end
    else true
  end.

(** The last backing page freed, or the next one: its index, and what is left
    free and next. *)
Definition take_backing (s : Space) : Z * list Z * Z :=
  match last (sp_free_backing s) with
  | Some b => (b, take (pred (length (sp_free_backing s))) (sp_free_backing s), sp_next_backing s)
  | None => (sp_next_backing s, sp_free_backing s, sp_next_backing s + 1)
  end.
(** A zeroed backing page for [page]. *)
Definition place_page (s : Space) (page : Z) : Space * option Z :=
  match page_slot (sp_pages s) page true with
  | None => (s, None)
  | Some slot =>
    let '(backing, free, next) := take_backing s in
    let s := mkSpace (sp_base s) (sp_end s) (sp_generation s) (sp_mapping_generation s)
               (<[Z.to_nat backing := zero_bytes]> (sp_backing s)) (sp_resident s + 1) next free
               (<[Z.to_nat slot := mkPage page 0 backing]> (sp_pages s)) (sp_regions s) in
    (s, Some slot)
  end.

Definition page_entry (s : Space) (slot : Z) : Page :=
  default empty_page (sp_pages s !! Z.to_nat slot).

(** The copying loop: [k] is how far [bytes] has moved into the buffer. *)
Fixpoint access_copy (fuel : nat) (s : Space) (a : Z) (buffer : list Z) (k : nat) (n : Z)
    (write : bool) : Space * list Z :=
  match fuel with
  | O => (s, buffer)
  | S fuel =>
    if n =? 0 then (s, buffer) else
    let offset := a mod GM_PAGE_SIZE in
    let page := a - offset in
    let chunk := Z.min (GM_PAGE_SIZE - offset) n in
    let c := Z.to_nat chunk in
    let slot := page_slot (sp_pages s) page false in
    let '(s, slot) :=
      if write && negb (bool_decide (is_Some slot)) then place_page s page else (s, slot) in
    let next :=
      match slot with
      | Some slot =>
        let p := page_entry s slot in
        if write then
          let s := sp_set_backing s (pg_backing p)
                     (splice (Z.to_nat offset) (slice k c buffer) (backing_page s (pg_backing p))) in
          (sp_set_page s slot (mkPage (pg_address p) (sp_generation s) (pg_backing p)), buffer)
        else (s, splice k (slice (Z.to_nat offset) c (backing_page s (pg_backing p))) buffer)
      | None => (s, if write then buffer else splice k (replicate c 0) buffer)
      end in
    access_copy fuel next.1 (a + chunk) next.2 (k + c) (n - chunk) write
  end.

Definition access_locked (s : Space) (a : Z) (buffer : option (list Z)) (n : Z) (write : bool)
    : GMResult * Space * option (list Z) :=
  if negb (n =? 0) && negb (bool_decide (is_Some buffer)) then (GM_INVALID, s, buffer) else
  let result := check_access s a n (if write then GM_WRITE else GM_READ) in
  if negb (bool_decide (result = GM_OK)) || (n =? 0) then (result, s, buffer) else
  let stop := a + n in
  if write && negb (needed_loop (access_fuel n) s (a - a mod GM_PAGE_SIZE) stop 0)
  then (GM_NOMEM, s, buffer) else
  let s := if write then sp_bump s else s in
  let '(s, b) := access_copy (access_fuel n) s a (default [] buffer) 0 n write in
  (GM_OK, s, Some b).

Fixpoint prepare_loop (fuel : nat) (s : Space) (page stop : Z) : Space :=
  match fuel with
  | O => s
  | S fuel =>
    if page <? stop then
      match page_slot (sp_pages s) page false with
      | Some _ => prepare_loop fuel s (page + GM_PAGE_SIZE) stop
      | None => prepare_loop fuel (place_page s page).1 (page + GM_PAGE_SIZE) stop
      end
    else s
  end.
Definition gm_sparse_prepare (memory : option Space) (a n permissions : Z)
    : GMResult * option Space :=
  match memory with
  | None => (GM_INVALID, memory)
  | Some s =>
    if negb (none_outside permissions (Z.lor GM_READ GM_WRITE)) then (GM_INVALID, memory) else
    let result := check_access s a n permissions in
    if negb (bool_decide (result = GM_OK)) || (n =? 0) || (Z.land permissions GM_WRITE =? 0)
    then (result, memory) else
    let page := a - a mod GM_PAGE_SIZE in
    if negb (needed_loop (access_fuel n) s page (a + n) 0) then (GM_NOMEM, memory)
    else (GM_OK, Some (prepare_loop (access_fuel n) s page (a + n)))
  end.

Definition access_memory (memory : option Space) (a : Z) (buffer : option (list Z)) (n : Z)
    (write : bool) : GMResult * option Space * option (list Z) :=
  match memory with
  | None => (GM_INVALID, memory, buffer)
  | Some s => let '(r, s, b) := access_locked s a buffer n write in (r, Some s, b)
  end.
Definition gm_sparse_read (m : option Space) (a : Z) (b : option (list Z)) (n : Z) :=
  access_memory m a b n false.
Definition gm_sparse_write (m : option Space) (a : Z) (b : option (list Z)) (n : Z)
    : GMResult * option Space :=
  (access_memory m a b n true).1.

(** ** Exclusive and atomic accesses *)

Definition atomic_size (address size : Z) : bool :=
  negb (size =? 0) && (size <=? 16) && (Z.land size (size - 1) =? 0) && (address mod size =? 0).

Definition page_generation (s : Space) (address : Z) : Z :=
  match page_slot (sp_pages s) (address - address mod GM_PAGE_SIZE) false with
  | None => 0
  | Some slot => pg_generation (page_entry s slot)
  end.

(** A monitor is [None] for a null pointer. *)
Definition gm_sparse_load_exclusive (m : option Space) (a : Z) (b : option (list Z)) (n : Z)
    (monitor : option GMSparseExclusive)
    : GMResult * option Space * option (list Z) * option GMSparseExclusive :=
  match m, monitor with
  | Some s, Some _ =>
    if negb (atomic_size a n) then (GM_INVALID, m, b, monitor) else
    let '(r, s, b) := access_locked s a b n false in
    (r, Some s, b,
     if bool_decide (r = GM_OK)
     then Some (mkExclusive a (page_generation s a) (sp_mapping_generation s) n true)
     else monitor)
  | _, _ => (GM_INVALID, m, b, monitor)
  end.

(** The result is followed by the value stored through [stored], if any. *)
Definition gm_sparse_store_exclusive (m : option Space) (a : Z) (b : option (list Z)) (n : Z)
    (monitor : option GMSparseExclusive) (stored : option bool)
    : GMResult * option Space * option GMSparseExclusive * option bool :=
  match m, monitor, stored, b with
  | Some s, Some mo, Some _, Some _ =>
    if negb (atomic_size a n) then (GM_INVALID, m, monitor, stored) else
    let valid := ex_valid mo && (ex_address mo =? a) && (ex_size mo =? n) &&
      (ex_mapping_generation mo =? sp_mapping_generation s) &&
      (ex_generation mo =? page_generation s a) in
    let '(r, s) := if valid then (access_locked s a b n true).1 else (GM_OK, s) in
    if bool_decide (r = GM_OK) then
      (r, Some s,
       Some (mkExclusive (ex_address mo) (ex_generation mo) (ex_mapping_generation mo) (ex_size mo) false),
       Some valid)
    else (r, Some s, monitor, stored)
  | _, _, _, _ => (GM_INVALID, m, monitor, stored)
  end.

(** [previous] holds the [n] bytes read, when the operation succeeds. The
    buffer [old] starts unspecified, here zeros. *)
Definition gm_sparse_compare_exchange (m : option Space) (a : Z)
    (expected desired previous : option (list Z)) (n : Z)
    : GMResult * option Space * option (list Z) :=
  match m, expected, desired, previous with
  | Some s, Some e, Some d, Some _ =>
    if negb (atomic_size a n) then (GM_INVALID, m, previous) else
    let result := check_access s a n (Z.lor GM_READ GM_WRITE) in
    let '(result, s, old) :=
      if bool_decide (result = GM_OK)
      then access_locked s a (Some (replicate (Z.to_nat n) 0)) n false
      else (result, s, Some (replicate (Z.to_nat n) 0)) in
    let old := default [] old in
    let '(result, s) :=
      if bool_decide (result = GM_OK) && bool_decide (old = e)
      then (access_locked s a (Some d) n true).1 else (result, s) in
    (result, Some s, if bool_decide (result = GM_OK) then Some old else previous)
  | _, _, _, _ => (GM_INVALID, m, previous)
  end.

(** The new value, 64 bits wide; only the low [n] bytes are stored. *)
Definition atomic_value (operation : GMSparseAtomic) (old operand sign : Z) : Z :=
  match operation with
  | GM_ATOMIC_ADD => w64 (old + operand)
  | GM_ATOMIC_CLEAR => Z.ldiff old operand
  | GM_ATOMIC_XOR => Z.lxor old operand
  | GM_ATOMIC_SET => Z.lor old operand
  | GM_ATOMIC_SIGNED_MAX => if Z.lxor operand sign <? Z.lxor old sign then old else operand
  | GM_ATOMIC_SIGNED_MIN => if Z.lxor old sign <? Z.lxor operand sign then old else operand
  | GM_ATOMIC_UNSIGNED_MAX => if operand <? old then old else operand
  | GM_ATOMIC_UNSIGNED_MIN => if old <? operand then old else operand
  | GM_ATOMIC_SWAP => operand
  end.

Definition gm_sparse_atomic (m : option Space) (a n : Z) (operation : GMSparseAtomic)
    (operand : Z) (previous : option Z) : GMResult * option Space * option Z :=
  match m, previous with
  | Some s, Some _ =>
    if (8 <? n) || negb (atomic_size a n) then (GM_INVALID, m, previous) else
    let '(result, s, bytes) := access_locked s a (Some (replicate (Z.to_nat n) 0)) n false in
    if bool_decide (result = GM_OK) then
      let mask := if n =? 8 then UINT64_MAX else Z.shiftl 1 (n * 8) - 1 in
      let old := le_value (default [] bytes) in
      let value := atomic_value operation old (Z.land operand mask) (Z.shiftl 1 (n * 8 - 1)) in
      let '(result, s) := (access_locked s a (Some (le_bytes (Z.to_nat n) value)) n true).1 in
      (result, Some s, if bool_decide (result = GM_OK) then Some old else previous)
    else (result, Some s, previous)
  | _, _ => (GM_INVALID, m, previous)
  end.

Definition gm_sparse_stats (memory : option Space) : GMSparseStats :=
  match memory with
  | None => mkStats 0 0 0 0 0
  | Some s =>
    mkStats
      (fold_left (fun n r => w64 (n + (r_end r - r_start r))) (sp_regions s) 0)
      (sp_generation s) (Z.of_nat (length (sp_regions s))) (sp_resident s) (sp_capacity s)
  end.

(** ** Specification *)

(** The byte a guest finds at an address: that of the resident page, or zero. *)
Definition byte_at (s : Space) (x : Z) : Z :=
  match page_at (sp_pages s) (x - x mod GM_PAGE_SIZE) with
  | Some p => default 0 (backing_page s (pg_backing p) !! Z.to_nat (x mod GM_PAGE_SIZE))
  | None => 0
  end.
(** The permissions at an address, [None] when nothing is mapped there. *)
Definition access_at (s : Space) (x : Z) : option (Z * Z) := perm_at (sp_regions s) x.

(** What the guest sees: a byte and its permissions. *)
Definition sp_cell (s : Space) (x : Z) : option Cell :=
  (fun pm => mkCell (byte_at s x) pm.1 pm.2 false) <$> access_at s x.

Record space_wf (s : Space) : Prop := {
  sw_base : 0 < sp_base s /\ sp_base s mod GM_PAGE_SIZE = 0;
  sw_end : sp_base s < sp_end s <= UINT64_MAX /\ sp_end s mod GM_PAGE_SIZE = 0;
  sw_regions : regions_wf (sp_regions s);
  sw_within : forall r, r ∈ sp_regions s -> sp_base s <= r_start r /\ r_end r <= sp_end s;
  sw_limit : (length (sp_regions s) <= REGION_LIMIT)%nat;
  sw_table : table_wf (sp_pages s);
  sw_mapped : forall p, p ∈ sp_pages s -> live p ->
    pg_address p mod GM_PAGE_SIZE = 0 /\ perm_at (sp_regions s) (pg_address p) <> None;
  sw_backing : Forall (fun bs => length bs = Z.to_nat GM_PAGE_SIZE /\ Forall byte_ok bs) (sp_backing s);
  sw_owned : live_backings (sp_pages s) ++ sp_free_backing s ≡ₚ seqZ 0 (sp_next_backing s);
  sw_next : 0 <= sp_next_backing s <= sp_capacity s;
  sw_resident : sp_resident s = Z.of_nat (length (live_backings (sp_pages s)));
  sw_half : 2 * sp_capacity s <= slot_count (sp_pages s);
  sw_capacity : 0 < sp_capacity s
}.

(** ** Pages and backings *)

(** What accesses never change: the mappings, the bounds and the capacity. *)
Record same_map (s s' : Space) : Prop := {
  sm_base : sp_base s' = sp_base s;
  sm_end : sp_end s' = sp_end s;
  sm_regions : sp_regions s' = sp_regions s;
  sm_mapping : sp_mapping_generation s' = sp_mapping_generation s;
  sm_capacity : sp_capacity s' = sp_capacity s
}.
#[export] Instance same_map_preorder : PreOrder same_map.
Proof.
  split; [by intros s; split|].
  intros s1 s2 s3 [] []; split; congruence.
Qed.

Lemma mapped_bounds s x : space_wf s -> access_at s x <> None -> sp_base s <= x < sp_end s.
Proof.
  intros Hs Hx. unfold access_at in Hx. destruct (perm_at _ x) as [v|] eqn:E; [|done].
  apply perm_at_Some in E as (r & Hr & Hin & _). pose proof (sw_within s Hs r Hr). lia.
Qed.

(** A mapped page address is a key of the page table. *)
Lemma mapped_key s page :
  space_wf s -> access_at s page <> None -> page mod GM_PAGE_SIZE = 0 -> key page.
Proof.
  intros Hs Hm Hal. pose proof (mapped_bounds s page Hs Hm). pose proof (sw_base s Hs).
  pose proof (sw_end s Hs). split; [lia|]. lia.
Qed.

Lemma page_floor_mod x : (x - x mod GM_PAGE_SIZE) mod GM_PAGE_SIZE = 0.
Proof. pose proof (page_floor_aligned x). done. Qed.

(** The page of a mapped address is mapped: regions are whole pages. *)
Lemma mapped_page s x :
  space_wf s -> access_at s x <> None ->
  access_at s (x - x mod GM_PAGE_SIZE) <> None /\ key (x - x mod GM_PAGE_SIZE).
Proof.
  intros Hs Hx. assert (access_at s (x - x mod GM_PAGE_SIZE) <> None) as Hp.
  { unfold access_at in *. destruct (perm_at _ x) as [v|] eqn:E; [|done].
    apply perm_at_Some in E as (r & Hr & Hin & _).
    pose proof (proj1 (Forall_forall _ _) (regions_wf_ok _ (sw_regions s Hs)) r Hr) as Hok.
    rewrite (perm_at_region _ r); [done|apply Hs|done|].
    pose proof (region_start r Hok). pose proof (region_end r Hok).
    pose proof (page_mod_bound x). unfold GM_PAGE_SIZE in *.
    pose proof (Z.div_mod x 16384). pose proof (Z.div_mod (r_start r) 16384). lia. }
  split; [done|]. apply (mapped_key s); [done|done|apply page_floor_mod].
Qed.

Lemma live_elem s p : space_wf s -> p ∈ sp_pages s -> live p -> page_at (sp_pages s) (pg_address p) = Some p.
Proof.
  intros Hs Hp Hl. exact (proj2 (page_at_spec _ _ _ (sw_table s Hs) Hl) (conj Hp eq_refl)).
Qed.

(** Backings in use are within the arena, and no two pages share one. *)
Lemma live_backing_range s p :
  space_wf s -> p ∈ sp_pages s -> live p -> 0 <= pg_backing p < sp_next_backing s.
Proof.
  intros Hs Hp Hl. assert (pg_backing p ∈ seqZ 0 (sp_next_backing s)) as Hin.
  { rewrite <- (sw_owned s Hs). apply elem_of_app. left. apply elem_of_live_backings. eauto. }
  apply elem_of_seqZ in Hin. lia.
Qed.
Lemma owned_NoDup s : space_wf s -> NoDup (live_backings (sp_pages s) ++ sp_free_backing s).
Proof. intros Hs. rewrite (sw_owned s Hs). apply NoDup_seqZ. Qed.
Lemma live_backing_inj s p q :
  space_wf s -> p ∈ sp_pages s -> q ∈ sp_pages s -> live p -> live q ->
  pg_backing p = pg_backing q -> p = q.
Proof.
  intros Hs Hp Hq Hlp Hlq Hb. pose proof (owned_NoDup s Hs) as [Hnd _]%NoDup_app.
  unfold live_backings in Hnd.
  assert (p ∈ filter live (sp_pages s)) as [i Hi]%list_elem_of_lookup by (by apply list_elem_of_filter).
  assert (q ∈ filter live (sp_pages s)) as [j Hj]%list_elem_of_lookup by (by apply list_elem_of_filter).
  assert (i = j) as ->; [|congruence].
  eapply (NoDup_lookup _ i j (pg_backing p) Hnd); rewrite list_lookup_fmap.
  - by rewrite Hi.
  - by rewrite Hj, Hb.
Qed.

Lemma backing_page_wf s index :
  space_wf s -> length (backing_page s index) = Z.to_nat GM_PAGE_SIZE /\
  Forall byte_ok (backing_page s index).
Proof.
  intros Hs. unfold backing_page. destruct (sp_backing s !! _) as [bs|] eqn:E; cbn.
  - pose proof (sw_backing s Hs) as Hb. by apply (Forall_lookup_1 _ _ _ _ Hb E).
  - split; [apply length_zero_bytes|apply zero_bytes_ok].
Qed.

(** The live page of an address, by its slot. *)
Lemma slot_page s page slot :
  space_wf s -> key page -> page_slot (sp_pages s) page false = Some slot ->
  let p := page_entry s slot in
  0 <= slot /\ sp_pages s !! Z.to_nat slot = Some p /\ pg_address p = page /\ live p /\
  p ∈ sp_pages s /\ page_at (sp_pages s) page = Some p.
Proof.
  intros Hs Hk Hslot. destruct (page_slot_Some _ _ _ (sw_table s Hs) Hk Hslot) as (Hge & p & Hp & Ha).
  unfold page_entry, page_at. rewrite Hslot. cbn. rewrite Hp. cbn.
  split; [done|]. split; [done|]. split; [done|]. split; [unfold live; by rewrite Ha|].
  split; [by eapply list_elem_of_lookup_2|done].
Qed.
Lemma slot_none s page :
  space_wf s -> key page ->
  page_slot (sp_pages s) page false = None <-> page_at (sp_pages s) page = None.
Proof.
  intros Hs Hk. split; [unfold page_at; by intros ->|]. intros Hn.
  destruct (page_slot _ _ _) as [slot|] eqn:E; [|done].
  apply slot_page in E as (_ & _ & _ & _ & _ & E); [congruence|done|done].
Qed.

Lemma take_backing_spec s :
  space_wf s -> sp_resident s < sp_capacity s ->
  let '(b, free, next) := take_backing s in
  0 <= b < sp_capacity s /\ (b ∉ live_backings (sp_pages s)) /\
  (b :: (live_backings (sp_pages s) ++ free)) ≡ₚ seqZ 0 next /\ 0 <= next <= sp_capacity s.
Proof.
  intros Hs Hroom. unfold take_backing. pose proof (sw_next s Hs) as Hnext.
  pose proof (sw_owned s Hs) as Hown. pose proof (owned_NoDup s Hs) as Hnd.
  destruct (last (sp_free_backing s)) as [b|] eqn:Hlast.
  - apply last_Some in Hlast as [l Hl]. rewrite Hl in *. rewrite length_app, Nat.add_1_r. cbn [pred length].
    rewrite take_app_length. assert (b ∈ seqZ 0 (sp_next_backing s)) as Hb%elem_of_seqZ.
    { rewrite <- Hown, !elem_of_app. right. right. by left. }
    split; [lia|]. split.
    { intros Hin. apply NoDup_app in Hnd as (_ & Hnd & _). apply (Hnd b Hin).
      apply elem_of_app. right. by left. }
    split; [|done]. rewrite <- Hown, app_assoc, Permutation_app_comm. by apply Permutation_cons_append.
  - apply last_None in Hlast. rewrite Hlast in *. rewrite app_nil_r in *.
    assert (Z.of_nat (length (live_backings (sp_pages s))) = sp_next_backing s) as Hlen.
    { rewrite Hown, length_seqZ. lia. }
    pose proof (sw_resident s Hs). split; [lia|]. split.
    { rewrite Hown, elem_of_seqZ. lia. }
    split; [|lia]. rewrite Hown. rewrite Permutation_cons_append.
    rewrite (seqZ_app 0 (sp_next_backing s) 1) by lia. by rewrite Z.add_0_l.
Qed.

Lemma backing_page_insert s s' i bs j :
  sp_backing s' = <[Z.to_nat i := bs]> (sp_backing s) -> 0 <= i < sp_capacity s -> 0 <= j ->
  backing_page s' j = if decide (j = i) then bs else backing_page s j.
Proof.
  intros Hb Hi Hj. unfold backing_page. rewrite Hb, list_lookup_insert. unfold sp_capacity in Hi.
  case_decide as E; case_decide as E'; try done; subst.
  - destruct E. lia.
  - destruct E. split; [done|lia].
Qed.

(** Two states agree on a byte when they agree on the page and its backing. *)
Lemma byte_at_eq s s' x :
  page_at (sp_pages s') (x - x mod GM_PAGE_SIZE) = page_at (sp_pages s) (x - x mod GM_PAGE_SIZE) ->
  (forall p, page_at (sp_pages s) (x - x mod GM_PAGE_SIZE) = Some p ->
    backing_page s' (pg_backing p) = backing_page s (pg_backing p)) ->
  byte_at s' x = byte_at s x.
Proof.
  intros Hp Hb. unfold byte_at. rewrite Hp. destruct (page_at (sp_pages s) _) as [p|]; [|done].
  by rewrite Hb.
Qed.

Lemma page_at_live s a p :
  space_wf s -> key a -> page_at (sp_pages s) a = Some p ->
  p ∈ sp_pages s /\ live p /\ pg_address p = a.
Proof.
  intros Hs Ha Hp. apply page_at_spec in Hp as [Hin Hpa]; [|apply Hs|done].
  split; [done|]. split; [|done]. unfold live. by rewrite Hpa.
Qed.

Lemma place_page_spec s page :
  space_wf s -> access_at s page <> None -> page mod GM_PAGE_SIZE = 0 ->
  page_at (sp_pages s) page = None -> sp_resident s < sp_capacity s ->
  exists s' slot p,
    place_page s page = (s', Some slot) /\ space_wf s' /\ same_map s s' /\
    sp_generation s' = sp_generation s /\ sp_resident s' = sp_resident s + 1 /\
    page_slot (sp_pages s') page false = Some slot /\ pg_generation p = 0 /\
    (forall b, key b -> page_at (sp_pages s') b =
      if decide (b = page) then Some p else page_at (sp_pages s) b) /\
    (forall x, access_at s x <> None -> byte_at s' x = byte_at s x).
Proof.
  intros Hs Hmap Hal Hnone Hroom. pose proof (mapped_key s page Hs Hmap Hal) as Hk.
  pose proof (sw_table s Hs) as Ht.
  destruct (page_slot_insertion (sp_pages s) page Ht Hk Hnone) as (slot & Hslot & Hopen).
  { pose proof (sw_resident s Hs). pose proof (sw_half s Hs). unfold slot_count in *. lia. }
  pose proof (take_backing_spec s Hs Hroom) as Htake. unfold place_page. rewrite Hslot.
  destruct (take_backing s) as [[b free] next]. destruct Htake as (Hb & Hbnew & Hown & Hnext).
  set (p := mkPage page 0 b). set (s' := mkSpace _ _ _ _ _ _ _ _ _ _).
  assert (forall q, q ∈ sp_pages s -> pg_address q <> page) as Habs.
  { apply page_slot_None; [done|done|]. by apply slot_none. }
  assert (table_wf (sp_pages s')) as Ht' by (by apply (table_insert_wf (sp_pages s) page)).
  assert (forall c, key c -> page_at (sp_pages s') c =
      if decide (c = page) then Some p else page_at (sp_pages s) c) as Hat
    by (intros c Hc; by apply (page_at_insert (sp_pages s) page slot p c)).
  pose proof Hopen as (Hsl & Hdead & _).
  destruct (page_addr_lookup (sp_pages s) slot Hsl) as (q & Hq & Hqa). rewrite Hqa in Hdead.
  assert (forall j, 0 <= j -> backing_page s' j = if decide (j = b) then zero_bytes else backing_page s j)
    as Hback by (intros; by apply (backing_page_insert s)).
  assert (sp_capacity s' = sp_capacity s) as Hcap by (unfold sp_capacity; cbn; by rewrite length_insert).
  assert (live_backings (<[Z.to_nat slot := p]> (sp_pages s)) ≡ₚ b :: live_backings (sp_pages s)) as Hlb.
  { apply (live_backings_insert _ _ p q); [done| |done]. intros [? ?]. by destruct Hdead. }
  assert (space_wf s') as Hwf'.
  { destruct Hs. split; cbn [s' sp_base sp_end sp_regions sp_pages sp_free_backing sp_next_backing
      sp_resident sp_backing]; try done.
    - intros r Hr Hl. apply (elem_of_insert_list _ _ _ _ r Hq) in Hr as [->|(j & _ & Hj)]; [done|].
      apply sw_mapped0; [by eapply list_elem_of_lookup_2|done].
    - apply Forall_insert; [done|]. split; [apply length_zero_bytes|apply zero_bytes_ok].
    - by rewrite Hlb.
    - by rewrite Hcap.
    - rewrite Hlb. cbn [length]. lia.
    - rewrite Hcap, slot_count_insert. done.
    - by rewrite Hcap. }
  exists s', slot, p. split; [done|]. split; [done|]. split; [by split|]. do 2 (split; [done|]).
  split; [|split; [done|split; [done|]]].
  - destruct (page_slot (sp_pages s') page false) as [slot'|] eqn:E.
    + apply slot_page in E as (Hge & Hp' & Ha' & Hl' & _); [|done|done].
      assert (Z.to_nat slot = Z.to_nat slot') as Heq; [|f_equal; lia].
      apply (table_unique _ Ht' _ _ p (page_entry s' slot')); [|done|done|by rewrite Ha'].
      cbn. apply list_lookup_insert_eq. by eapply lookup_lt_Some.
    + apply slot_none in E; [|done|done]. rewrite Hat, decide_True in E by done. done.
  - intros x Hx. destruct (mapped_page s x Hs Hx) as [_ Hkx].
    destruct (decide (x - x mod GM_PAGE_SIZE = page)) as [Ex|Ex].
    + unfold byte_at. rewrite Ex, Hat, decide_True, Hnone by done. cbn [pg_backing p].
      rewrite Hback, decide_True by lia. apply lookup_zero_bytes.
    + apply byte_at_eq; [by rewrite Hat, decide_False|]. intros r Hr.
      apply page_at_live in Hr as (Hr & Hl & _); [|done|done].
      pose proof (live_backing_range s r Hs Hr Hl). rewrite Hback by lia.
      rewrite decide_False; [done|]. intros Eb. apply Hbnew, elem_of_live_backings. eauto.
Qed.

(** Storing bytes in a resident page. *)
Definition store_page (s : Space) (slot : Z) (offset : nat) (bs : list Z) : Space :=
  let p := page_entry s slot in
  sp_set_page (sp_set_backing s (pg_backing p) (splice offset bs (backing_page s (pg_backing p))))
    slot (mkPage (pg_address p) (sp_generation s) (pg_backing p)).

Lemma store_page_spec s page slot offset bs :
  space_wf s -> access_at s page <> None -> page mod GM_PAGE_SIZE = 0 ->
  page_slot (sp_pages s) page false = Some slot -> Forall byte_ok bs ->
  Z.of_nat offset + Z.of_nat (length bs) <= GM_PAGE_SIZE ->
  let s' := store_page s slot offset bs in
  space_wf s' /\ same_map s s' /\ sp_generation s' = sp_generation s /\
  sp_resident s' = sp_resident s /\
  (forall b, key b -> page_at (sp_pages s') b =
    if decide (b = page)
    then (fun p => mkPage page (sp_generation s) (pg_backing p)) <$> page_at (sp_pages s) page
    else page_at (sp_pages s) b) /\
  (forall x, access_at s x <> None -> byte_at s' x =
    if decide (page + Z.of_nat offset <= x < page + Z.of_nat offset + Z.of_nat (length bs))
    then default 0 (bs !! Z.to_nat (x - (page + Z.of_nat offset))) else byte_at s x).
Proof.
  intros Hs Hmap Hal Hslot Hbs Hfit s'. pose proof (mapped_key s page Hs Hmap Hal) as Hk.
  destruct (slot_page s page slot Hs Hk Hslot) as (Hge & Hp & Hpa & Hl & Hin & Hat).
  unfold s', store_page. set (p := page_entry s slot) in *.
  set (p' := mkPage (pg_address p) (sp_generation s) (pg_backing p)).
  set (bytes := splice offset bs (backing_page s (pg_backing p))).
  pose proof (live_backing_range s p Hs Hin Hl) as Hbr. pose proof (sw_next s Hs) as Hnext.
  destruct (backing_page_wf s (pg_backing p) Hs) as [Hblen Hbok].
  assert (length bytes = Z.to_nat GM_PAGE_SIZE /\ Forall byte_ok bytes) as Hbytes.
  { unfold bytes. rewrite length_splice by lia. split; [done|]. by apply Forall_splice. }
  set (s1 := sp_set_page _ _ _).
  assert (sp_capacity s1 = sp_capacity s) as Hcap by (unfold sp_capacity; cbn; by rewrite length_insert).
  assert (table_wf (sp_pages s1)) as Ht by (by apply (table_update_wf (sp_pages s) _ p' p (sw_table s Hs))).
  assert (forall b, key b -> page_at (sp_pages s1) b =
    if decide (b = page) then Some p' else page_at (sp_pages s) b) as Hat'.
  { intros b Hb. rewrite <- Hpa. apply page_at_update; [apply Hs|done|done|by rewrite Hpa|done]. }
  assert (forall j, 0 <= j -> backing_page s1 j = if decide (j = pg_backing p) then bytes else backing_page s j)
    as Hback by (intros; apply (backing_page_insert s); [done|lia|done]).
  split.
  { pose proof (live_backings_update (sp_pages s) (Z.to_nat slot) p' p Hp Hl Hl eq_refl) as Hlb.
    destruct Hs. split; cbn [s1 sp_set_page sp_set_backing sp_base sp_end sp_regions sp_pages
      sp_free_backing sp_next_backing sp_resident sp_backing]; try done.
    - intros r Hr Hlr. apply (elem_of_insert_list _ _ _ _ r Hp) in Hr as [->|(j & _ & Hj)].
      + by apply (sw_mapped0 p).
      + apply sw_mapped0; [by eapply list_elem_of_lookup_2|done].
    - by apply Forall_insert.
    - by rewrite Hlb.
    - by rewrite Hcap.
    - by rewrite Hlb.
    - rewrite Hcap, slot_count_insert. done.
    - by rewrite Hcap. }
  split; [by split|]. do 2 (split; [done|]). split.
  { intros b Hb. rewrite Hat', Hat by done. unfold p'. cbn. by rewrite Hpa. }
  intros x Hx. destruct (mapped_page s x Hs Hx) as [_ Hkx]. pose proof (page_mod_bound x) as Hxm.
  destruct (decide (x - x mod GM_PAGE_SIZE = page)) as [Ex|Ex].
  - unfold byte_at. rewrite Hat', Ex, decide_True, Hat by done. cbn [pg_backing p'].
    rewrite Hback, decide_True by lia. unfold bytes. rewrite lookup_splice by lia.
    repeat case_decide; try lia. do 2 f_equal. lia.
  - rewrite decide_False.
    2: { intros Hr. apply Ex. rewrite (page_unique page x) by (done || lia). lia. }
    apply byte_at_eq; [by rewrite Hat', decide_False|]. intros r Hr.
    apply page_at_live in Hr as (Hr & Hlr & Hra); [|done|done].
    pose proof (live_backing_range s r Hs Hr Hlr). rewrite Hback by lia.
    rewrite decide_False; [done|]. intros Eb. apply Ex. rewrite <- Hra, <- Hpa. f_equal.
    by apply (live_backing_inj s).
Qed.

(** ** The copying loops *)

(** One turn covers the rest of a page or of the access. *)
Lemma chunk_facts a n fuel :
  0 < n -> enough_turns a n (S fuel) ->
  let offset := a mod GM_PAGE_SIZE in
  let chunk := Z.min (GM_PAGE_SIZE - offset) n in
  0 < chunk <= n /\ 0 <= offset /\ offset + chunk <= GM_PAGE_SIZE /\
  (forall x, a <= x < a + chunk -> x - x mod GM_PAGE_SIZE = a - offset) /\
  (chunk = n \/ (a + chunk) mod GM_PAGE_SIZE = 0 /\ a + chunk = a - offset + GM_PAGE_SIZE) /\
  enough_turns (a + chunk) (n - chunk) fuel.
Proof.
  intros Hn Hf offset chunk. pose proof (page_mod_bound a) as Hb. fold offset in Hb.
  pose proof (enough_turns_step a n fuel Hn Hf) as Hstep. cbv zeta in Hstep.
  rewrite page_floor_eq in Hstep. replace (a - (a - a mod GM_PAGE_SIZE)) with offset in Hstep
    by (unfold offset; lia). fold chunk in Hstep.
  split; [lia|]. split; [lia|]. split; [lia|]. split; [|split; [|done]].
  - intros x Hx. rewrite (page_unique (a - offset) x); [lia|apply page_floor_mod|lia].
  - destruct (decide (chunk = n)); [by left|right].
    assert (a + chunk = a - offset + GM_PAGE_SIZE) as E by lia. split; [|done]. rewrite E.
    rewrite <- (Z.mul_1_l GM_PAGE_SIZE) at 1. rewrite Z.mod_add by done. apply page_floor_mod.
Qed.

Lemma access_copy_read fuel s a buffer k n :
  space_wf s -> 0 <= n -> enough_turns a n fuel ->
  (forall x, a <= x < a + n -> access_at s x <> None) ->
  Z.of_nat k + n <= Z.of_nat (length buffer) ->
  let '(s', buffer') := access_copy fuel s a buffer k n false in
  s' = s /\ length buffer' = length buffer /\
  forall j, buffer' !! j =
    if decide (k <= j < k + Z.to_nat n)%nat then Some (byte_at s (a + Z.of_nat (j - k)))
    else buffer !! j.
Proof.
  intros Hs. revert a buffer k n. induction fuel as [|fuel IH]; intros a buffer k n Hn Hf Hmap Hlen.
  { destruct (Z.eq_dec n 0) as [->|]; [|exfalso; eapply enough_turns_S, Hf; lia]. cbn.
    do 2 (split; [done|]). intros j. case_decide; [lia|done]. }
  cbn [access_copy]. destruct (Z.eqb_spec n 0) as [->|Hnz].
  { do 2 (split; [done|]). intros j. case_decide; [lia|done]. }
  destruct (chunk_facts a n fuel ltac:(lia) Hf) as (Hchunk & Hoff & Hfit & Hpage & _ & Hf').
  set (offset := a mod GM_PAGE_SIZE) in *. set (chunk := Z.min (GM_PAGE_SIZE - offset) n) in *.
  cbn [andb]. destruct (mapped_page s a Hs (Hmap a ltac:(lia))) as [Hpm Hk]. fold offset in Hpm, Hk.
  assert (forall x, a <= x < a + chunk -> x mod GM_PAGE_SIZE = offset + (x - a)) as Hmod.
  { intros x Hx. specialize (Hpage x Hx). lia. }
  (* Whatever the slot holds, the chunk is the guest's bytes. *)
  assert (exists bs, (match page_slot (sp_pages s) (a - offset) false with
      | Some slot => (s, splice k (slice (Z.to_nat offset) (Z.to_nat chunk)
          (backing_page s (pg_backing (page_entry s slot)))) buffer)
      | None => (s, splice k (replicate (Z.to_nat chunk) 0) buffer)
      end) = (s, splice k bs buffer) /\ length bs = Z.to_nat chunk /\
      forall i, (i < Z.to_nat chunk)%nat -> bs !! i = Some (byte_at s (a + Z.of_nat i)))
    as (bs & -> & Hbs & Hbyte).
  { destruct (page_slot (sp_pages s) (a - offset) false) as [slot|] eqn:Eslot.
    - eexists; split; [done|]. destruct (slot_page s _ slot Hs Hk Eslot) as (_ & _ & _ & _ & _ & Hat).
      destruct (backing_page_wf s (pg_backing (page_entry s slot)) Hs) as [Hbl _].
      split; [apply length_slice; lia|]. intros i Hi. rewrite lookup_slice by lia.
      unfold byte_at. rewrite Hpage, Hat, Hmod by lia.
      replace (Z.to_nat (offset + (a + Z.of_nat i - a))) with (Z.to_nat offset + i)%nat by lia.
      destruct (lookup_lt_is_Some_2 (backing_page s (pg_backing (page_entry s slot)))
        (Z.to_nat offset + i)) as [v Hv]; [lia|]. by rewrite Hv.
    - eexists; split; [done|]. split; [by rewrite length_replicate|]. intros i Hi.
      unfold byte_at. rewrite Hpage by lia. apply slot_none in Eslot; [|done|done].
      rewrite Eslot. by apply lookup_replicate_2. }
  cbn [fst snd]. specialize (IH (a + chunk) (splice k bs buffer) (k + Z.to_nat chunk)%nat (n - chunk)
    ltac:(lia) Hf').
  destruct (access_copy fuel s _ _ _ _ false) as [s' buffer'].
  destruct IH as (-> & Hl & Hb).
  { intros x Hx. apply Hmap. lia. }
  { rewrite length_splice by lia. lia. }
  split; [done|]. split; [by rewrite Hl, length_splice by lia|].
  intros j. rewrite Hb, lookup_splice, Hbs by lia.
  repeat case_decide; try lia; try done.
  - do 2 f_equal. lia.
  - rewrite Hbyte by lia. done.
Qed.

(** The preflight depends only on which pages are missing and on the room. *)
Lemma needed_same fuel s s' page stop needed needed' :
  (forall q, page <= q < stop -> (q - page) mod GM_PAGE_SIZE = 0 ->
    (page_slot (sp_pages s) q false = None <-> page_slot (sp_pages s') q false = None)) ->
  sp_capacity s - sp_resident s - needed = sp_capacity s' - sp_resident s' - needed' ->
  needed_loop fuel s page stop needed = needed_loop fuel s' page stop needed'.
Proof.
  revert page needed needed'. induction fuel as [|fuel IH]; intros page needed needed' Hslots Hroom; [done|].
  cbn [needed_loop]. destruct (Z.ltb_spec page stop); [|done].
  assert (forall q, page + GM_PAGE_SIZE <= q < stop -> (q - (page + GM_PAGE_SIZE)) mod GM_PAGE_SIZE = 0 ->
    (page_slot (sp_pages s) q false = None <-> page_slot (sp_pages s') q false = None)) as Hslots'.
  { intros q Hq Hmod. apply Hslots; [unfold GM_PAGE_SIZE in *; lia|].
    rewrite <- Hmod. rewrite <- (Z.mod_add (q - (page + GM_PAGE_SIZE)) 1) by done. f_equal. lia. }
  pose proof (Hslots page ltac:(lia) ltac:(by rewrite Z.sub_diag)) as Hp.
  destruct (page_slot (sp_pages s) page false), (page_slot (sp_pages s') page false).
  - by apply IH.
  - by pose proof (proj2 Hp eq_refl).
  - by pose proof (proj1 Hp eq_refl).
  - destruct (Z.ltb_spec (sp_capacity s - sp_resident s) (needed + 1)),
      (Z.ltb_spec (sp_capacity s' - sp_resident s') (needed' + 1)); try lia.
    apply IH; [done|lia].
Qed.

Lemma next_aligned q page :
  (q - (page + GM_PAGE_SIZE)) mod GM_PAGE_SIZE = 0 -> page mod GM_PAGE_SIZE = 0 ->
  q mod GM_PAGE_SIZE = 0.
Proof.
  intros Hd Hp. unfold GM_PAGE_SIZE in *. pose proof (Z.div_mod page 16384).
  pose proof (Z.div_mod (q - (page + 16384)) 16384).
  symmetry. apply (Z.mod_unique _ _ ((q - (page + 16384)) / 16384 + 1 + page / 16384)); lia.
Qed.

(** Does an access of [n] bytes at [a] touch the page at [page]? *)
Definition touches (a n page : Z) : Prop := 0 < n /\ page < a + n /\ a < page + GM_PAGE_SIZE.
#[export] Instance touches_dec a n page : Decision (touches a n page).
Proof. unfold touches. apply _. Defined.

(** Making the page of an address resident, when there is room. *)
Definition ensure_page (s : Space) (page : Z) : Space * option Z :=
  let slot := page_slot (sp_pages s) page false in
  if true && negb (bool_decide (is_Some slot)) then place_page s page else (s, slot).

Lemma ensure_page_spec fuel s page stop :
  space_wf s -> access_at s page <> None -> page mod GM_PAGE_SIZE = 0 -> page < stop ->
  needed_loop (S fuel) s page stop 0 = true ->
  (forall q, page + GM_PAGE_SIZE <= q < stop -> access_at s q <> None) ->
  exists s' slot,
    ensure_page s page = (s', Some slot) /\ space_wf s' /\ same_map s s' /\
    sp_generation s' = sp_generation s /\
    page_slot (sp_pages s') page false = Some slot /\
    (forall b, key b -> b <> page -> page_at (sp_pages s') b = page_at (sp_pages s) b) /\
    (exists p, page_at (sp_pages s') page = Some p /\
      pg_generation p = default 0 (pg_generation <$> page_at (sp_pages s) page)) /\
    (forall x, access_at s x <> None -> byte_at s' x = byte_at s x) /\
    needed_loop fuel s' (page + GM_PAGE_SIZE) stop 0 = true.
Proof.
  intros Hs Hmap Hal Hlt Hneed Hall. pose proof (mapped_key s page Hs Hmap Hal) as Hk.
  cbn [needed_loop] in Hneed. rewrite (proj2 (Z.ltb_lt page stop)) in Hneed by done.
  unfold ensure_page. destruct (page_slot (sp_pages s) page false) as [slot|] eqn:E.
  - rewrite bool_decide_eq_true_2 by done. cbn [negb andb]. exists s, slot.
    destruct (slot_page s page slot Hs Hk E) as (_ & _ & _ & _ & _ & Hat).
    do 2 (split; [done|]). split; [reflexivity|]. do 3 (split; [done|]).
    split; [|split; [done|done]]. exists (page_entry s slot). by rewrite Hat.
  - rewrite bool_decide_eq_false_2 by (by intros [? ?]). cbn [negb andb].
    pose proof (proj1 (slot_none s page Hs Hk) E) as Hnone.
    destruct (Z.ltb_spec (sp_capacity s - sp_resident s) (0 + 1)); [done|].
    destruct (place_page_spec s page Hs Hmap Hal Hnone ltac:(lia))
      as (s' & slot & p & Hplace & Hwf & Hsm & Hgen & Hres & Hslot & Hpg & Hat & Hbyte).
    exists s', slot. split; [done|]. split; [done|]. split; [done|]. split; [done|]. split; [done|].
    split; [intros b Hb Hne; by rewrite Hat, decide_False|]. split.
    { exists p. rewrite Hat, decide_True by done. split; [done|]. by rewrite Hnone. }
    split; [done|]. rewrite <- Hneed. symmetry. apply needed_same.
    + intros q Hq Hmod. assert (access_at s q <> None) as Hmq by by apply Hall.
      pose proof (next_aligned q page Hmod Hal) as Halq.
      pose proof (mapped_key s q Hs Hmq Halq) as Hkq.
      rewrite !slot_none by done. rewrite Hat, decide_False by (done || (unfold GM_PAGE_SIZE in *; lia)).
      done.
    + rewrite Hres, (sm_capacity _ _ Hsm). lia.
Qed.

Lemma page_generation_at s x :
  space_wf s -> key (x - x mod GM_PAGE_SIZE) ->
  page_generation s x = default 0 (pg_generation <$> page_at (sp_pages s) (x - x mod GM_PAGE_SIZE)).
Proof.
  intros Hs Hk. unfold page_generation. destruct (page_slot _ _ _) as [slot|] eqn:E.
  - by destruct (slot_page s _ slot Hs Hk E) as (_ & _ & _ & _ & _ & ->).
  - apply slot_none in E; [|done|done]. by rewrite E.
Qed.

(** What a store of the bytes [buffer[k .. k+n)] at [a] leaves. *)
Record written (s s' : Space) (a : Z) (buffer : list Z) (k : nat) (n : Z) : Prop := {
  wr_wf : space_wf s';
  wr_map : same_map s s';
  wr_generation : sp_generation s' = sp_generation s;
  wr_bytes : forall x, access_at s x <> None -> byte_at s' x =
    if decide (a <= x < a + n) then default 0 (buffer !! (k + Z.to_nat (x - a))%nat) else byte_at s x;
  wr_stamp : forall x, access_at s x <> None -> page_generation s' x =
    if decide (touches a n (x - x mod GM_PAGE_SIZE)) then sp_generation s else page_generation s x;
  wr_resident : forall b, key b -> page_at (sp_pages s) b <> None -> page_at (sp_pages s') b <> None
}.

Lemma written_nil s a buffer k : space_wf s -> written s s a buffer k 0.
Proof.
  intros Hs. split; [done|reflexivity|done| | |done].
  - intros x _. case_decide; [lia|done].
  - intros x _. case_decide as E; [destruct E; lia|done].
Qed.

(** One page stored, then the rest. *)
Lemma written_step s s' page slot a buffer k n :
  space_wf s -> access_at s a <> None -> page = a - a mod GM_PAGE_SIZE ->
  page_slot (sp_pages s) page false = Some slot ->
  Forall byte_ok buffer -> Z.of_nat k + n <= Z.of_nat (length buffer) ->
  let chunk := Z.min (GM_PAGE_SIZE - a mod GM_PAGE_SIZE) n in
  0 < chunk <= n -> (chunk = n \/ a + chunk = page + GM_PAGE_SIZE) ->
  written (store_page s slot (Z.to_nat (a mod GM_PAGE_SIZE)) (slice k (Z.to_nat chunk) buffer))
    s' (a + chunk) buffer (k + Z.to_nat chunk) (n - chunk) ->
  written s s' a buffer k n.
Proof.
  intros Hs Hmap Hpage Hslot Hbuf Hlen chunk Hchunk Hend [Hwf Hsm Hgen Hbytes Hstamp Hres].
  pose proof (page_mod_bound a) as Hoff. destruct (mapped_page s a Hs Hmap) as [Hpm Hk].
  rewrite <- Hpage in Hpm, Hk. set (bs := slice k (Z.to_nat chunk) buffer) in *.
  assert (length bs = Z.to_nat chunk) as Hbs by (apply length_slice; lia).
  assert (page mod GM_PAGE_SIZE = 0) as Hal by (subst page; apply page_floor_mod).
  pose proof (store_page_spec s page slot (Z.to_nat (a mod GM_PAGE_SIZE)) bs Hs Hpm Hal Hslot
    ltac:(by apply Forall_slice) ltac:(lia)) as (Hwf1 & Hsm1 & Hgen1 & _ & Hat1 & Hbyte1).
  set (s1 := store_page _ _ _ _) in *. rewrite Hbs in Hbyte1.
  assert (forall x, access_at s1 x = access_at s x) as Hacc
    by (intros x; unfold access_at; by rewrite (sm_regions _ _ Hsm1)).
  split; [done|by trans s1|by rewrite Hgen| | |].
  3: { intros b Hb Hp. apply Hres; [done|]. rewrite Hat1 by done. case_decide as Eb; [|done].
       subst b. by destruct (page_at (sp_pages s) page). }
  - intros x Hx. rewrite Hbytes by (by rewrite Hacc). rewrite Hbyte1 by done.
    replace (page + Z.of_nat (Z.to_nat (a mod GM_PAGE_SIZE))) with a by lia.
    repeat case_decide; try lia.
    + do 2 f_equal. lia.
    + unfold bs. by rewrite lookup_slice by lia.
  - intros x Hx. rewrite Hstamp by (by rewrite Hacc). destruct (mapped_page s x Hs Hx) as [_ Hkx].
    rewrite (page_generation_at s1), (page_generation_at s), Hat1, Hgen1 by done.
    pose proof (page_mod_bound x) as Hxm.
    destruct (decide (x - x mod GM_PAGE_SIZE = page)) as [Ex|Ex].
    + rewrite (decide_True (P := touches a n _)) by (unfold touches; lia).
      case_decide; [done|].
      destruct (slot_page s page slot Hs Hk Hslot) as (_ & _ & _ & _ & _ & Hat). by rewrite Hat.
    + assert (touches (a + chunk) (n - chunk) (x - x mod GM_PAGE_SIZE) <->
        touches a n (x - x mod GM_PAGE_SIZE)) as Ht.
      { pose proof (page_floor_mod x) as Hxa. unfold touches, GM_PAGE_SIZE in *.
        pose proof (Z.div_mod (x - x mod 16384) 16384). pose proof (Z.div_mod page 16384). lia. }
      case_decide as E1; case_decide as E2; try done; tauto.
Qed.

Lemma access_copy_write fuel s a buffer k n :
  space_wf s -> 0 <= n -> enough_turns a n fuel ->
  (forall x, a <= x < a + n -> access_at s x <> None) ->
  Forall byte_ok buffer -> Z.of_nat k + n <= Z.of_nat (length buffer) ->
  (0 < n -> needed_loop fuel s (a - a mod GM_PAGE_SIZE) (a + n) 0 = true) ->
  let '(s', buffer') := access_copy fuel s a buffer k n true in
  buffer' = buffer /\ written s s' a buffer k n.
Proof.
  revert s a k n. induction fuel as [|fuel IH]; intros s a k n Hs Hn Hf Hmap Hbuf Hlen Hneed.
  { destruct (Z.eq_dec n 0) as [->|]; [|exfalso; eapply enough_turns_S, Hf; lia].
    split; [done|by apply written_nil]. }
  cbn [access_copy]. destruct (Z.eqb_spec n 0) as [->|Hnz].
  { split; [done|by apply written_nil]. }
  destruct (chunk_facts a n fuel ltac:(lia) Hf) as (Hchunk & Hoff & Hfit & Hpage & Hend & Hf').
  pose proof (Hmap a ltac:(lia)) as Hma. destruct (mapped_page s a Hs Hma) as [Hpm Hk].
  set (page := a - a mod GM_PAGE_SIZE) in *.
  set (chunk := Z.min (GM_PAGE_SIZE - a mod GM_PAGE_SIZE) n) in *.
  destruct (ensure_page_spec fuel s page (a + n) Hs Hpm (page_floor_mod a) ltac:(lia) (Hneed ltac:(lia)))
    as (s1 & slot & Hens & Hs1 & Hsm1 & Hgen1 & Hslot & Hat1 & (p & Hatp & Hpg) & Hbyte1 & Hneed1).
  { intros q Hq. apply Hmap. lia. }
  change (if true && _ then _ else _) with (ensure_page s page). rewrite Hens.
  set (bs := slice k (Z.to_nat chunk) buffer).
  assert (length bs = Z.to_nat chunk) as Hbs by (apply length_slice; lia).
  assert (forall x, access_at s1 x = access_at s x) as Hacc
    by (intros x; unfold access_at; by rewrite (sm_regions _ _ Hsm1)).
  pose proof (store_page_spec s1 page slot (Z.to_nat (a mod GM_PAGE_SIZE)) bs Hs1
    ltac:(by rewrite Hacc) (page_floor_mod a) Hslot ltac:(by apply Forall_slice) ltac:(lia))
    as (Hs2 & Hsm2 & Hgen2 & Hres2 & Hat2 & Hbyte2).
  change (sp_set_page _ _ _) with (store_page s1 slot (Z.to_nat (a mod GM_PAGE_SIZE)) bs).
  cbn [fst snd]. set (s2 := store_page s1 slot _ bs) in *.
  specialize (IH s2 (a + chunk) (k + Z.to_nat chunk)%nat (n - chunk) Hs2 ltac:(lia) Hf').
  destruct (access_copy fuel s2 _ _ _ _ true) as [s' buffer']. destruct IH as [-> Hwr]; [|done|lia| |].
  { intros x Hx. unfold access_at. rewrite (sm_regions _ _ Hsm2).
    change (access_at s1 x <> None). rewrite Hacc. apply Hmap. lia. }
  { intros Hmore. destruct Hend as [|[Hal Hnext]]; [lia|]. rewrite Hal, Z.sub_0_r, Hnext.
    replace (page + GM_PAGE_SIZE + (n - chunk)) with (a + n) by lia. rewrite <- Hneed1. symmetry.
    apply needed_same; [|rewrite Hres2, (sm_capacity _ _ Hsm2); done]. intros q Hq Hmod.
    pose proof (next_aligned q page Hmod (page_floor_mod a)) as Halq.
    assert (key q) as Hkq by (apply (mapped_key s); [done|apply Hmap; lia|done]).
    rewrite !slot_none by done. rewrite Hat2, decide_False by (done || (unfold GM_PAGE_SIZE in *; lia)).
    done. }
  split; [done|].
  destruct (written_step s1 s' page slot a buffer k n) as [Hwf Hsm Hgen Hbytes Hstamp Hres]; try done.
  { by rewrite Hacc. }
  { destruct Hend as [?|[_ ?]]; auto. }
  split; [done|by trans s1|by rewrite Hgen| | |].
  3: { intros b Hb Hp. apply Hres; [done|]. destruct (decide (b = page)) as [->|]; [by rewrite Hatp|by rewrite Hat1]. }
  - intros x Hx. rewrite Hbytes by (by rewrite Hacc). case_decide; [done|]. by apply Hbyte1.
  - intros x Hx. destruct (mapped_page s x Hs Hx) as [_ Hkx].
    rewrite Hstamp by (by rewrite Hacc). rewrite Hgen1. case_decide; [done|].
    rewrite !page_generation_at by done.
    destruct (decide (x - x mod GM_PAGE_SIZE = page)) as [->|Ex]; [by rewrite Hatp|by rewrite Hat1].
Qed.

(** ** One access *)

Definition sp_allows (s : Space) (permission x : Z) : Prop := allows (sp_regions s) permission x.
(** Why an access is refused: it leaves the space, or its first bad address is
    unmapped or denies the permission. *)
Inductive refusal (s : Space) (a n permission : Z) : GMResult -> Prop :=
| refusal_range : contains s a n = false -> refusal s a n permission GM_INVALID
| refusal_unmapped x :
    a <= x < a + n -> (forall y, a <= y < x -> sp_allows s permission y) ->
    access_at s x = None -> refusal s a n permission GM_UNMAPPED
| refusal_protection x p m :
    a <= x < a + n -> (forall y, a <= y < x -> sp_allows s permission y) ->
    access_at s x = Some (p, m) -> has_all p permission = false ->
    refusal s a n permission GM_PROTECTION.
Definition granted (s : Space) (a n permission : Z) : Prop :=
  contains s a n = true /\ forall x, a <= x < a + n -> sp_allows s permission x.

Lemma check_access_spec s a n permission :
  space_wf s -> 0 <= n ->
  let r := check_access s a n permission in
  if decide (r = GM_OK) then granted s a n permission else refusal s a n permission r.
Proof.
  intros Hs Hn. unfold check_access. destruct (contains s a n) eqn:Hc; cbn [negb].
  2: { rewrite decide_False by done. by constructor. }
  destruct (Z.eqb_spec n 0) as [->|Hnz].
  { rewrite decide_True by done. split; [done|lia]. }
  pose proof (check_covered_spec (sp_regions s) a n permission (sw_regions s Hs) Hn) as Hcov.
  destruct (check_covered _ _ _ _); try done; cbn zeta.
  - rewrite decide_False by done. destruct Hcov as (x & Hx & Hno & Hy). by apply (refusal_unmapped _ _ _ _ x).
  - rewrite decide_False by done. destruct Hcov as (x & p & m & Hx & Hp & Hno & Hy).
    by apply (refusal_protection _ _ _ _ x p m).
Qed.

Lemma granted_mapped s a n permission x :
  granted s a n permission -> a <= x < a + n -> access_at s x <> None.
Proof. intros [_ Hall] Hx. destruct (Hall x Hx) as (p & m & Hp & _). unfold access_at. by rewrite Hp. Qed.
Lemma refusal_not_granted s a n permission r : refusal s a n permission r -> ~ granted s a n permission.
Proof.
  intros Hr [Hc Hall]. destruct Hr as [Hc'|x Hx _ Hno|x p m Hx _ Hp Hno]; [congruence|..];
    destruct (Hall x Hx) as (p' & m' & Hp' & Hyes); unfold access_at in *; congruence.
Qed.
Lemma refusal_nonzero s a n permission r : refusal s a n permission r -> r <> GM_OK.
Proof. by destruct 1. Qed.

(** The pages of an access, and those that have no backing yet. *)
Fixpoint pages_from (fuel : nat) (page stop : Z) : list Z :=
  match fuel with
  | O => []
  | S fuel => if page <? stop then page :: pages_from fuel (page + GM_PAGE_SIZE) stop else []
  end.
Definition access_pages (a n : Z) : list Z := pages_from (access_fuel n) (a - a mod GM_PAGE_SIZE) (a + n).
Definition missing_pages (s : Space) (a n : Z) : list Z :=
  filter (fun q => page_slot (sp_pages s) q false = None) (access_pages a n).
Definition room (s : Space) : Z := sp_capacity s - sp_resident s.

Lemma needed_loop_spec fuel s page stop needed :
  needed <= room s ->
  needed_loop fuel s page stop needed = true <->
  needed + Z.of_nat (length (filter (fun q => page_slot (sp_pages s) q false = None)
    (pages_from fuel page stop))) <= room s.
Proof.
  revert page needed. induction fuel as [|fuel IH]; intros page needed Hroom; cbn [needed_loop pages_from].
  { cbn. split; [lia|done]. }
  destruct (page <? stop); [|cbn; split; [lia|done]].
  rewrite filter_cons. destruct (page_slot (sp_pages s) page false) eqn:E.
  - rewrite decide_False by done. by apply IH.
  - rewrite decide_True by done. cbn [length]. fold (room s).
    destruct (Z.ltb_spec (room s) (needed + 1)).
    + split; [done|lia].
    + rewrite IH by lia. lia.
Qed.

Lemma room_nonneg s : space_wf s -> 0 <= room s.
Proof.
  intros Hs. unfold room. rewrite (sw_resident s Hs). pose proof (sw_next s Hs).
  assert (length (live_backings (sp_pages s) ++ sp_free_backing s) = length (seqZ 0 (sp_next_backing s)))
    as Hl by (by rewrite (sw_owned s Hs)).
  rewrite length_app, length_seqZ in Hl. lia.
Qed.

(** Reading never changes the space. *)
Lemma access_locked_read s a buffer n :
  space_wf s -> 0 <= n -> (forall b, buffer = Some b -> Z.of_nat (length b) = n) ->
  let '(r, s', b') := access_locked s a buffer n false in
  s' = s /\
  if decide (r = GM_OK) then
    granted s a n GM_READ /\
    if decide (n = 0) then b' = buffer
    else exists bs, b' = Some bs /\ Z.of_nat (length bs) = n /\
      forall i, (i < length bs)%nat -> bs !! i = Some (byte_at s (a + Z.of_nat i))
  else b' = buffer /\ (refusal s a n GM_READ r \/ r = GM_INVALID /\ n <> 0 /\ buffer = None).
Proof.
  intros Hs Hn Hbuf. unfold access_locked.
  destruct (Z.eqb_spec n 0) as [->|Hnz]; cbn [negb andb].
  { rewrite orb_true_r. split; [done|].
    pose proof (check_access_spec s a 0 GM_READ Hs ltac:(lia)) as Hc. cbv zeta in Hc.
    destruct (decide _); [|by auto]. by rewrite decide_True. }
  destruct buffer as [b|].
  2: { rewrite bool_decide_eq_false_2 by (by intros [? ?]). cbn [negb andb].
       split; [done|]. rewrite decide_False by done. auto. }
  rewrite bool_decide_eq_true_2 by done. cbn [negb andb].
  pose proof (check_access_spec s a n GM_READ Hs Hn) as Hc. cbv zeta in Hc.
  destruct (decide (check_access s a n GM_READ = GM_OK)) as [Hok|Hno].
  2: { rewrite bool_decide_eq_false_2 by done. cbn [negb orb]. split; [done|].
       rewrite decide_False by done. auto. }
  rewrite bool_decide_eq_true_2 by done. cbn [negb orb andb default from_option id].
  pose proof (access_copy_read (access_fuel n) s a b 0 n Hs Hn (access_fuel_enough a n Hn)) as Hread.
  specialize (Hbuf b eq_refl).
  destruct (access_copy _ _ _ _ _ _ _) as [s' b']. destruct Hread as (-> & Hl & Hb).
  { intros x. by apply (granted_mapped s a n GM_READ). }
  { lia. }
  split; [done|]. rewrite !decide_True, decide_False by done. split; [done|]. exists b'.
  split; [done|]. split; [lia|]. intros i Hi. rewrite Hb, decide_True by lia. do 3 f_equal. lia.
Qed.

(** A store happens completely or not at all. *)
Lemma access_locked_write s a buffer n :
  space_wf s -> 0 <= n ->
  (forall b, buffer = Some b -> Z.of_nat (length b) = n /\ Forall byte_ok b) ->
  let '(r, s', b') := access_locked s a buffer n true in
  b' = buffer /\
  if decide (r = GM_OK) then
    granted s a n GM_WRITE /\
    if decide (n = 0) then s' = s
    else exists b, buffer = Some b /\ Z.of_nat (length (missing_pages s a n)) <= room s /\
      written (sp_bump s) s' a b 0 n
  else s' = s /\
    (refusal s a n GM_WRITE r \/ r = GM_INVALID /\ n <> 0 /\ buffer = None \/
     r = GM_NOMEM /\ n <> 0 /\ granted s a n GM_WRITE /\ room s < Z.of_nat (length (missing_pages s a n))).
Proof.
  intros Hs Hn Hbuf. unfold access_locked.
  destruct (Z.eqb_spec n 0) as [->|Hnz]; cbn [negb andb].
  { rewrite orb_true_r. split; [done|].
    pose proof (check_access_spec s a 0 GM_WRITE Hs ltac:(lia)) as Hc. cbv zeta in Hc.
    destruct (decide _); [|by auto]. by rewrite decide_True. }
  destruct buffer as [b|].
  2: { rewrite bool_decide_eq_false_2 by (by intros [? ?]). cbn [negb andb].
       split; [done|]. rewrite decide_False by done. split; [done|]. right; left. done. }
  rewrite bool_decide_eq_true_2 by done. cbn [negb andb].
  pose proof (check_access_spec s a n GM_WRITE Hs Hn) as Hc. cbv zeta in Hc.
  destruct (decide (check_access s a n GM_WRITE = GM_OK)) as [Hok|Hno].
  2: { rewrite bool_decide_eq_false_2 by done. cbn [negb orb]. split; [done|].
       rewrite decide_False by done. auto. }
  rewrite bool_decide_eq_true_2 by done. cbn [negb orb].
  destruct (Hbuf b eq_refl) as [Hlen Hbok]. pose proof (room_nonneg s Hs) as Hroom.
  pose proof (needed_loop_spec (access_fuel n) s (a - a mod GM_PAGE_SIZE) (a + n) 0 Hroom) as Hneed.
  destruct (needed_loop _ s _ _ 0) eqn:En; cbn [negb andb].
  - pose proof (access_copy_write (access_fuel n) (sp_bump s) a b 0 n) as Hw.
    cbn [default from_option id]. destruct (access_copy _ _ _ _ _ _ _) as [s' b'].
    destruct Hw as [-> Hw]; [by destruct Hs|done|by apply access_fuel_enough| |done|lia| |].
    { intros x. by apply (granted_mapped s a n GM_WRITE). }
    { intros _. rewrite <- En. by apply needed_same. }
    split; [done|]. rewrite !decide_True, decide_False by done. split; [done|]. exists b.
    split; [done|]. split; [by apply Hneed|done].
  - split; [done|]. rewrite decide_False by done. split; [done|]. right; right. do 3 (split; [done|]).
    destruct (Z.lt_ge_cases (room s) (Z.of_nat (length (missing_pages s a n)))); [done|].
    assert (false = true); [|done]. apply Hneed. done.
Qed.

(** ** Mapping changes *)

Lemma sp_discard_at s from to b :
  space_wf s -> key b ->
  page_at (sp_pages (sp_discard s from to)) b =
    if decide (from <= b < to) then None else page_at (sp_pages s) b.
Proof. intros Hs Hb. by apply page_at_discard; [apply Hs|]. Qed.

(** A change of the region list and the discarding of a range's pages keep the
    space well formed when the pages left are still mapped. *)
Lemma discard_wf s a stop next :
  space_wf s -> regions_wf next -> (length next <= REGION_LIMIT)%nat ->
  (forall x, perm_at next x <> None -> sp_base s <= x < sp_end s) ->
  (forall x, ~ (a <= x < stop) -> access_at s x <> None -> perm_at next x <> None) ->
  space_wf (sp_set_regions (sp_discard s a stop) next).
Proof.
  intros Hs Hnext Hlim Hin Hkeep. pose proof (live_backings_discard (sp_pages s) a stop) as Hlb.
  assert (slot_count (discard_pages (sp_pages s) a stop) = slot_count (sp_pages s)) as Hsc
    by (unfold slot_count, discard_pages; by rewrite length_fmap).
  destruct Hs. split; cbn [sp_set_regions sp_discard sp_base sp_end sp_regions sp_pages
    sp_free_backing sp_next_backing sp_resident sp_backing]; try done.
  - intros r Hr. pose proof (region_nonempty r (proj1 (Forall_forall _ _) (regions_wf_ok _ Hnext) r Hr)).
    assert (sp_base s <= r_start r < sp_end s) by (apply Hin; rewrite (perm_at_region next r) by (done || lia); done).
    assert (sp_base s <= r_end r - 1 < sp_end s) by (apply Hin; rewrite (perm_at_region next r) by (done || lia); done).
    lia.
  - by apply table_discard_wf.
  - intros p Hp Hl. unfold discard_pages in Hp. apply list_elem_of_fmap in Hp as (q & -> & Hq).
    pose proof (discard_live_same _ _ _ Hl) as Hsame. apply discard_live in Hl as [Hl Hout].
    rewrite Hsame. destruct (sw_mapped0 q Hq Hl) as [? Hm]. split; [done|]. by apply Hkeep.
  - rewrite <- sw_owned0, Hlb. solve_Permutation.
  - rewrite sw_resident0, Hlb, length_app. lia.
  - by rewrite Hsc.
Qed.

(** What an operation makes of the cells of its range. *)
Definition changed_cell (op : Operation) (prot maxprot : Z) (c : option Cell) : option Cell :=
  match op with
  | MAP => Some (mkCell 0 prot maxprot false)
  | UNMAP => None
  | PROTECT => cell_with_prot prot <$> c
  end.
Record changed_space (s s' : Space) (op : Operation) (a n prot maxprot : Z) : Prop := {
  cs_wf : space_wf s';
  cs_base : sp_base s' = sp_base s;
  cs_end : sp_end s' = sp_end s;
  cs_capacity : sp_capacity s' = sp_capacity s;
  cs_generation : sp_generation s' = sp_generation s;
  cs_mapping : sp_mapping_generation s' = w64 (sp_mapping_generation s + 1);
  cs_cells : forall x, sp_cell s' x =
    if decide (a <= x < a + n) then changed_cell op prot maxprot (sp_cell s x) else sp_cell s x;
  cs_pages : forall p, p ∈ sp_pages s' -> live p -> p ∈ sp_pages s
}.
Definition change_args (s : Space) (a n prot maxprot : Z) : Prop :=
  mapping_range s a n = true /\ none_outside maxprot 7 = true /\ none_outside prot maxprot = true.

Lemma mapping_range_spec s a n :
  mapping_range s a n = true ->
  a mod GM_PAGE_SIZE = 0 /\ n mod GM_PAGE_SIZE = 0 /\ n <> 0 /\
  sp_base s <= a /\ a + n <= sp_end s.
Proof. unfold mapping_range, aligned, contains. intros H. bool_props. lia. Qed.

Lemma sp_cell_None s x : sp_cell s x = None <-> access_at s x = None.
Proof. unfold sp_cell. by destruct (access_at s x). Qed.

(** Bytes after a change: discarded pages read as zero. *)
Lemma discard_bytes s a stop x :
  space_wf s -> a mod GM_PAGE_SIZE = 0 -> stop mod GM_PAGE_SIZE = 0 ->
  key (x - x mod GM_PAGE_SIZE) ->
  byte_at (sp_discard s a stop) x = if decide (a <= x < stop) then 0 else byte_at s x.
Proof.
  intros Hs Ha Hstop Hk. unfold byte_at. rewrite sp_discard_at by done.
  assert (a <= x - x mod GM_PAGE_SIZE < stop <-> a <= x < stop) as Hin.
  { pose proof (page_mod_bound x). pose proof (page_floor_mod x). unfold GM_PAGE_SIZE in *.
    pose proof (Z.div_mod a 16384). pose proof (Z.div_mod stop 16384).
    pose proof (Z.div_mod (x - x mod 16384) 16384). lia. }
  case_decide as E1; case_decide as E2; try done; tauto.
Qed.

(** Nothing resident means nothing to discard. *)
Lemma discard_empty s a stop :
  space_wf s -> sp_resident s = 0 -> sp_discard s a stop = s.
Proof.
  intros Hs H0. pose proof (sw_resident s Hs) as Hr. rewrite H0 in Hr.
  assert (forall p, p ∈ sp_pages s -> discards a stop p = false) as Hnone.
  { intros p Hp. destruct (discards a stop p) eqn:E; [|done]. unfold discards in E. bool_props.
    assert (pg_backing p ∈ live_backings (sp_pages s)) as Hin by (apply elem_of_live_backings; exists p; by split_and!).
    destruct (live_backings (sp_pages s)); [by apply elem_of_nil in Hin|done]. }
  unfold sp_discard, discarded. rewrite (filter_none _ (sp_pages s)).
  2: { intros p Hp. rewrite Hnone by done. done. }
  cbn. rewrite app_nil_r, Z.sub_0_r. unfold discard_pages.
  assert (discard_slot a stop <$> sp_pages s = sp_pages s) as ->; [|by destruct s].
  apply list_eq. intros i. rewrite list_lookup_fmap. destruct (sp_pages s !! i) as [p|] eqn:E; [|done].
  cbn. unfold discard_slot. by rewrite Hnone by by eapply list_elem_of_lookup_2.
Qed.

Lemma perm_changed s op a stop prot maxprot next x :
  (forall y, perm_at next y = changed op a stop prot maxprot (perm_at (sp_regions s)) y) ->
  perm_at next x = if decide (a <= x < stop)
    then match op with
         | MAP => Some (prot, maxprot)
         | UNMAP => None
         | PROTECT => (fun pm => (prot, pm.2)) <$> access_at s x
         end
    else access_at s x.
Proof. intros ->. done. Qed.

Lemma set_regions_wf s next :
  space_wf s -> regions_wf next -> (length next <= REGION_LIMIT)%nat ->
  (forall x, perm_at next x <> None -> sp_base s <= x < sp_end s) ->
  (forall x, access_at s x <> None -> perm_at next x <> None) ->
  space_wf (sp_set_regions s next).
Proof.
  intros Hs Hnext Hlim Hin Hkeep. destruct Hs.
  split; cbn [sp_set_regions sp_base sp_end sp_regions sp_pages
    sp_free_backing sp_next_backing sp_resident sp_backing]; try done.
  - intros r Hr. pose proof (region_nonempty r (proj1 (Forall_forall _ _) (regions_wf_ok _ Hnext) r Hr)).
    assert (sp_base s <= r_start r < sp_end s) by (apply Hin; rewrite (perm_at_region next r) by (done || lia); done).
    assert (sp_base s <= r_end r - 1 < sp_end s) by (apply Hin; rewrite (perm_at_region next r) by (done || lia); done).
    lia.
  - intros p Hp Hl. destruct (sw_mapped0 p Hp Hl) as [? Hm]. split; [done|]. by apply Hkeep.
Qed.

(** The state that [change] leaves on success. *)
Definition after_discard (s : Space) (a stop : Z) (op : Operation) : Space :=
  if negb (sp_resident s =? 0) && negb (op_is op PROTECT) then sp_discard s a stop else s.
Lemma after_discard_eq s a stop op :
  space_wf s -> after_discard s a stop op = if op_is op PROTECT then s else sp_discard s a stop.
Proof.
  intros Hs. unfold after_discard. destruct (op_is op PROTECT); cbn [negb andb]; [by rewrite andb_false_r|].
  rewrite andb_true_r. destruct (Z.eqb_spec (sp_resident s) 0); [|done]. by rewrite discard_empty.
Qed.

Lemma change_done s a n prot maxprot op next :
  space_wf s -> mapping_range s a n = true -> 0 <= n ->
  regions_wf next -> (length next <= REGION_LIMIT)%nat ->
  (forall x, perm_at next x = changed op a (a + n) prot maxprot (perm_at (sp_regions s)) x) ->
  changed_space s (sp_set_regions (after_discard s a (a + n) op) next) op a n prot maxprot.
Proof.
  intros Hs Hrange Hn Hnext Hlim Hperm.
  destruct (mapping_range_spec s a n Hrange) as (Ha & Hnal & Hnz & Hb & He).
  assert ((a + n) mod GM_PAGE_SIZE = 0) as Hstop by (rewrite Z.add_mod, Ha, Hnal by done; done).
  pose proof (fun x => perm_changed s op a (a + n) prot maxprot next x Hperm) as Hp.
  assert (forall x, perm_at next x <> None -> sp_base s <= x < sp_end s) as Hin.
  { intros x Hx. rewrite Hp in Hx. case_decide; [lia|]. by apply mapped_bounds. }
  rewrite after_discard_eq by done. destruct (op_is op PROTECT) eqn:Eop.
  - apply op_is_spec in Eop as ->. split; [|done..| |done].
    { apply set_regions_wf; [done..|]. intros x Hx. rewrite Hp. case_decide; [|done].
      by destruct (access_at s x). }
    intros x. unfold sp_cell. change (access_at (sp_set_regions s next) x) with (perm_at next x).
    rewrite Hp. case_decide; [|done]. by destruct (access_at s x).
  - assert (op <> PROTECT) as Hop by (intros Hop%op_is_spec; congruence).
    split; [|done..| |].
    { apply discard_wf; [done..|]. intros x Hx Hm. by rewrite Hp, decide_False. }
    2: { intros p (q & -> & Hq)%list_elem_of_fmap Hl. by rewrite (discard_live_same _ _ _ Hl). }
    intros x. unfold sp_cell at 1.
    change (access_at (sp_set_regions (sp_discard s a (a + n)) next) x) with (perm_at next x).
    change (byte_at (sp_set_regions (sp_discard s a (a + n)) next) x)
      with (byte_at (sp_discard s a (a + n)) x). rewrite Hp.
    case_decide as Hx.
    + destruct op; [|done|done]. cbn. rewrite discard_bytes, decide_True; [done|done|done|done|done|].
      pose proof (page_floor_mod x). pose proof (page_mod_bound x). pose proof (sw_base s Hs).
      pose proof (sw_end s Hs). split; unfold GM_PAGE_SIZE in *; [|lia].
      pose proof (Z.div_mod a 16384). pose proof (Z.div_mod (x - x mod 16384) 16384). lia.
    + unfold sp_cell. destruct (access_at s x) as [pm|] eqn:Ep; [|done]. cbn.
      rewrite discard_bytes, decide_False; [done|done|done|done|done|].
      apply (mapped_page s x Hs). by rewrite Ep.
Qed.

Lemma change_correct s a n prot maxprot replace op :
  space_wf s -> 0 <= n ->
  let '(r, m') := change (Some s) a n prot maxprot replace op in
  match r with
  | GM_OK =>
      change_args s a n prot maxprot /\
      (op = MAP -> replace = false -> forall x, a <= x < a + n -> sp_cell s x = None) /\
      (op = PROTECT -> forall x, a <= x < a + n -> exists c, sp_cell s x = Some c /\
        none_outside prot (c_maxprot c) = true) /\
      exists s', m' = Some s' /\ changed_space s s' op a n prot maxprot
  | GM_INVALID => m' = Some s /\ ~ change_args s a n prot maxprot
  | GM_OVERLAP => m' = Some s /\ op = MAP /\ replace = false /\
      exists x, a <= x < a + n /\ sp_cell s x <> None
  | GM_UNMAPPED => m' = Some s /\ op = PROTECT /\ exists x, a <= x < a + n /\ sp_cell s x = None
  | GM_PROTECTION => m' = Some s /\ op = PROTECT /\
      exists x c, a <= x < a + n /\ sp_cell s x = Some c /\ none_outside prot (c_maxprot c) = false
  | GM_NOMEM => m' = Some s /\ (REGION_LIMIT <= S (length (sp_regions s)))%nat
  end.
Proof.
  intros Hs Hn. unfold change.
  destruct (negb (mapping_range s a n) || _ || _) eqn:Eargs.
  { split; [done|]. intros (H1 & H2 & H3). by rewrite H1, H2, H3 in Eargs. }
  bool_props. destruct (mapping_range_spec s a n ltac:(done)) as (Ha & Hnal & Hnz & Hb & He).
  assert ((a + n) mod GM_PAGE_SIZE = 0) as Hstop by (rewrite Z.add_mod, Ha, Hnal by done; done).
  pose proof (change_check_spec (sp_regions s) a (a + n) prot replace op (sw_regions s Hs) ltac:(lia)) as Hc.
  destruct (change_check _ _ _ _ _ _); try done; cbn [bool_decide negb].
  - change (bool_decide (GM_OK = GM_OK)) with true. cbn [negb]. destruct Hc as [Hmap Hpr].
    pose proof (rebuild_spec a (a + n) prot maxprot op (perm_at (sp_regions s)) ltac:(lia) Ha Hstop
      ltac:(done) (sp_regions s) (sp_base s) (sw_regions s Hs) eq_refl Hb) as Hr.
    destruct (rebuild _ _ _ _ _ _ _ _) as [next|] eqn:Er.
    + destruct Hr as [Hnext Hperm].
      { intros r Hr. by apply (sw_within s Hs). }
      { intros Hop r Hr Hlt Hgt.
        pose proof (region_nonempty r (proj1 (Forall_forall _ _) (regions_wf_ok _ (sw_regions s Hs)) r Hr)).
        destruct (Hpr Hop (Z.max a (r_start r)) ltac:(lia)) as (p & m & Hpm & Hno).
        rewrite (perm_at_region _ r) in Hpm by (apply Hs || done || lia). congruence. }
      assert (length next <= REGION_LIMIT)%nat as Hlim by (eapply rebuild_limit, Er; cbn; lia).
      split; [done|]. split.
      { intros Ho Hrep x Hx. apply sp_cell_None. by apply Hmap. }
      split.
      { intros Ho x Hx. destruct (Hpr Ho x Hx) as (p & m & Hpm & Hno). unfold sp_cell, access_at.
        rewrite Hpm. by eexists. }
      eexists. split; [done|]. by apply change_done.
    + split; [done|]. assert (REGION_LIMIT <= length (sp_regions s) + 1)%nat; [|lia]. apply Hr.
      { intros r Hr'. by apply (sw_within s Hs). }
      { intros Hop r Hr' Hlt Hgt.
        pose proof (region_nonempty r (proj1 (Forall_forall _ _) (regions_wf_ok _ (sw_regions s Hs)) r Hr')).
        destruct (Hpr Hop (Z.max a (r_start r)) ltac:(lia)) as (p & m & Hpm & Hno).
        rewrite (perm_at_region _ r) in Hpm by (apply Hs || done || lia). congruence. }
  - destruct Hc as (Hop & Hrep & x & Hx & Hm). split; [done|]. split; [done|]. split; [done|].
    exists x. by rewrite sp_cell_None.
  - destruct Hc as (Hop & x & Hx & Hm). split; [done|]. split; [done|]. exists x. by rewrite sp_cell_None.
  - destruct Hc as (Hop & _ & x & p & m & Hx & Hpm & Hno). split; [done|]. split; [done|].
    exists x. unfold sp_cell, access_at. rewrite Hpm. by eexists.
Qed.

(** ** Preparation *)

(** What preparing changes: which pages are resident, and nothing a guest sees. *)
Record prepared (s s' : Space) : Prop := {
  pr_wf : space_wf s';
  pr_map : same_map s s';
  pr_generation : sp_generation s' = sp_generation s;
  pr_bytes : forall x, access_at s x <> None -> byte_at s' x = byte_at s x;
  pr_stamp : forall x, access_at s x <> None -> page_generation s' x = page_generation s x;
  pr_resident : forall b, key b -> page_at (sp_pages s) b <> None -> page_at (sp_pages s') b <> None
}.
Lemma prepared_refl s : space_wf s -> prepared s s.
Proof. by split. Qed.
Lemma prepared_trans s1 s2 s3 : prepared s1 s2 -> prepared s2 s3 -> prepared s1 s3.
Proof.
  intros [] [].
  assert (forall x, access_at s2 x = access_at s1 x) as Hacc
    by (intros x; unfold access_at; by rewrite (sm_regions _ _ pr_map0)).
  split; [done|by trans s2|congruence|..].
  - intros x Hx. rewrite pr_bytes1 by (by rewrite Hacc). by apply pr_bytes0.
  - intros x Hx. rewrite pr_stamp1 by (by rewrite Hacc). by apply pr_stamp0.
  - auto.
Qed.

Lemma ensure_prepared fuel s page stop :
  space_wf s -> access_at s page <> None -> page mod GM_PAGE_SIZE = 0 -> page < stop ->
  needed_loop (S fuel) s page stop 0 = true ->
  (forall q, page + GM_PAGE_SIZE <= q < stop -> access_at s q <> None) ->
  let s' := (ensure_page s page).1 in
  prepared s s' /\ page_at (sp_pages s') page <> None /\
  needed_loop fuel s' (page + GM_PAGE_SIZE) stop 0 = true.
Proof.
  intros Hs Hmap Hal Hlt Hneed Hall. pose proof (mapped_key s page Hs Hmap Hal) as Hk.
  destruct (ensure_page_spec fuel s page stop Hs Hmap Hal Hlt Hneed Hall)
    as (s' & slot & Hens & Hs' & Hsm & Hgen & Hslot & Hat & (p & Hatp & Hpg) & Hbyte & Hneed').
  rewrite Hens. cbn [fst]. split; [|split; [by rewrite Hatp|done]]. split; [done|done|done|done| |].
  - intros x Hx. destruct (mapped_page s x Hs Hx) as [_ Hkx]. rewrite !page_generation_at by done.
    destruct (decide (x - x mod GM_PAGE_SIZE = page)) as [->|Ex]; [by rewrite Hatp|by rewrite Hat].
  - intros b Hb Hp. destruct (decide (b = page)) as [->|Hne]; [by rewrite Hatp|by rewrite Hat].
Qed.

Lemma prepare_loop_spec fuel s page stop :
  space_wf s -> page mod GM_PAGE_SIZE = 0 ->
  (page < stop -> access_at s page <> None) ->
  (forall q, page + GM_PAGE_SIZE <= q < stop -> access_at s q <> None) ->
  needed_loop fuel s page stop 0 = true ->
  let s' := prepare_loop fuel s page stop in
  prepared s s' /\ forall q, q ∈ pages_from fuel page stop -> page_at (sp_pages s') q <> None.
Proof.
  revert s page. induction fuel as [|fuel IH]; intros s page Hs Hal Hmap Hall Hneed.
  { split; [by apply prepared_refl|]. by intros q Hq%elem_of_nil. }
  cbn [prepare_loop pages_from]. destruct (Z.ltb_spec page stop) as [Hlt|].
  2: { split; [by apply prepared_refl|]. by intros q Hq%elem_of_nil. }
  destruct (ensure_prepared fuel s page stop Hs (Hmap Hlt) Hal Hlt Hneed Hall) as (Hpre & Hres & Hneed').
  assert (forall A (f : Space -> A), match page_slot (sp_pages s) page false with
    | Some _ => f s | None => f (place_page s page).1 end = f (ensure_page s page).1) as Hf.
  { intros A f. unfold ensure_page. destruct (page_slot (sp_pages s) page false) eqn:E.
    - by rewrite bool_decide_eq_true_2.
    - by rewrite bool_decide_eq_false_2 by (by intros [? ?]). }
  rewrite (Hf _ (fun s => prepare_loop fuel s (page + GM_PAGE_SIZE) stop)).
  set (s1 := (ensure_page s page).1) in *.
  assert (forall x, access_at s1 x = access_at s x) as Hacc
    by (intros x; unfold access_at; by rewrite (sm_regions _ _ (pr_map _ _ Hpre))).
  destruct (IH s1 (page + GM_PAGE_SIZE)) as [Hpre' Hres'].
  { apply Hpre. }
  { rewrite <- (Z.mul_1_l GM_PAGE_SIZE) at 1. by rewrite Z.mod_add. }
  { intros ?. rewrite Hacc. apply Hall. lia. }
  { intros q Hq. rewrite Hacc. apply Hall. unfold GM_PAGE_SIZE in *. lia. }
  { done. }
  split; [by eapply prepared_trans|]. intros q [->|Hq]%elem_of_cons; [|by apply Hres'].
  apply (pr_resident _ _ Hpre'); [|done]. by apply (mapped_key s); auto.
Qed.

Lemma prepare_correct s a n permissions :
  space_wf s -> 0 <= n ->
  let '(r, m') := gm_sparse_prepare (Some s) a n permissions in
  if decide (r = GM_OK) then
    granted s a n permissions /\
    exists s', m' = Some s' /\ prepared s s' /\
      (n <> 0 -> Z.land permissions GM_WRITE <> 0 -> missing_pages s' a n = [])
  else m' = Some s /\
    (refusal s a n permissions r \/
     r = GM_INVALID /\ none_outside permissions (Z.lor GM_READ GM_WRITE) = false \/
     r = GM_NOMEM /\ room s < Z.of_nat (length (missing_pages s a n))).
Proof.
  intros Hs Hn. unfold gm_sparse_prepare.
  destruct (none_outside permissions _) eqn:Ep; cbn [negb].
  2: { rewrite decide_False by done. split; [done|]. auto. }
  pose proof (check_access_spec s a n permissions Hs Hn) as Hc. cbv zeta in Hc.
  destruct (decide (check_access s a n permissions = GM_OK)) as [Hok|Hno].
  2: { rewrite bool_decide_eq_false_2 by done. cbn [negb orb]. rewrite decide_False by done.
       split; [done|]. by left. }
  rewrite bool_decide_eq_true_2 by done. cbn [negb orb].
  destruct (Z.eqb_spec n 0) as [->|Hnz]; cbn [orb].
  { rewrite Hok, decide_True by done. split; [done|]. exists s. split; [done|].
    split; [by apply prepared_refl|done]. }
  destruct (Z.eqb_spec (Z.land permissions GM_WRITE) 0) as [Hw|Hw].
  { rewrite Hok, decide_True by done. split; [done|]. exists s. split; [done|].
    split; [by apply prepared_refl|done]. }
  pose proof (room_nonneg s Hs) as Hroom.
  pose proof (needed_loop_spec (access_fuel n) s (a - a mod GM_PAGE_SIZE) (a + n) 0 Hroom) as Hneed.
  destruct (needed_loop _ s _ _ 0) eqn:En; cbn [negb].
  - rewrite decide_True by done. split; [done|]. eexists. split; [done|].
    assert (access_at s a <> None) as Hma by (apply (granted_mapped s a n permissions); [done|lia]).
    pose proof (page_mod_bound a).
    destruct (prepare_loop_spec (access_fuel n) s (a - a mod GM_PAGE_SIZE) (a + n) Hs) as [Hpre Hres].
    { apply page_floor_mod. }
    { intros _. by apply (mapped_page s). }
    { intros q Hq. apply (granted_mapped s a n permissions); [done|lia]. }
    { done. }
    split; [done|]. intros _ _. apply filter_none. intros q Hq Hnone.
    apply (Hres q Hq). unfold page_at. by rewrite Hnone.
  - rewrite decide_False by done. split; [done|]. right; right. split; [done|].
    destruct (Z.lt_ge_cases (room s) (Z.of_nat (length (missing_pages s a n)))); [done|].
    assert (false = true); [|done]. by apply Hneed.
Qed.

(** ** Every operation is one of four transitions *)

Inductive transition (s : Space) : Space -> Prop :=
| tr_same : transition s s
| tr_write s' a b n :
    0 < n -> Z.of_nat (length b) = n -> written (sp_bump s) s' a b 0 n -> transition s s'
| tr_prepare s' : prepared s s' -> transition s s'
| tr_change s' op a n prot maxprot :
    changed_space s s' op a n prot maxprot -> transition s s'.

Definition bytes_of (b : option (list Z)) (n : Z) : Prop :=
  forall bs, b = Some bs -> Z.of_nat (length bs) = n /\ Forall byte_ok bs.

Lemma access_transition s a b n write :
  space_wf s -> 0 <= n -> bytes_of b n -> transition s (access_locked s a b n write).1.2.
Proof.
  intros Hs Hn Hb. destruct write.
  - pose proof (access_locked_write s a b n Hs Hn Hb) as H.
    destruct (access_locked s a b n true) as [[r s'] b']. cbn. destruct H as [_ H].
    destruct (decide (r = GM_OK)); [|destruct H as [-> _]; constructor].
    destruct H as [_ H]. destruct (decide (n = 0)); [subst; constructor|].
    destruct H as (bs & -> & _ & Hw). destruct (Hb bs eq_refl). apply (tr_write s s' a bs n); [lia|done..].
  - pose proof (access_locked_read s a b n Hs Hn) as H.
    destruct (access_locked s a b n false) as [[r s'] b']. cbn.
    destruct H as [-> _]; [|constructor]. intros bs Hbs. by apply Hb.
Qed.

(** The operations a thread can perform on the space, with any arguments. *)
Inductive sparse_step (s : Space) : Space -> Prop :=
| st_change s' a n prot maxprot replace op :
    0 <= n -> (change (Some s) a n prot maxprot replace op).2 = Some s' -> sparse_step s s'
| st_access s' a b n write :
    0 <= n -> bytes_of b n -> (access_memory (Some s) a b n write).1.2 = Some s' -> sparse_step s s'
| st_prepare s' a n permissions :
    0 <= n -> (gm_sparse_prepare (Some s) a n permissions).2 = Some s' -> sparse_step s s'
| st_load_exclusive s' a b n monitor :
    0 <= n -> bytes_of b n -> (gm_sparse_load_exclusive (Some s) a b n monitor).1.1.2 = Some s' -> sparse_step s s'
| st_store_exclusive s' a b n monitor stored :
    0 <= n -> bytes_of b n -> (gm_sparse_store_exclusive (Some s) a b n monitor stored).1.1.2 = Some s' ->
    sparse_step s s'
| st_compare_exchange s' a expected desired previous n :
    0 <= n -> bytes_of desired n ->
    (gm_sparse_compare_exchange (Some s) a expected desired previous n).1.2 = Some s' -> sparse_step s s'
| st_atomic s' a n operation operand previous :
    0 <= n -> (gm_sparse_atomic (Some s) a n operation operand previous).1.2 = Some s' ->
    sparse_step s s'.

Lemma atomic_size_spec a n :
  0 <= n -> atomic_size a n = true ->
  (n = 1 \/ n = 2 \/ n = 4 \/ n = 8 \/ n = 16) /\ a mod n = 0.
Proof.
  intros Hn H. unfold atomic_size in H. bool_props. split; [|done].
  assert (exists k, n = Z.of_nat k /\ (k <= 16)%nat) as (k & -> & Hk) by (exists (Z.to_nat n); lia).
  do 17 (destruct k as [|k]; [first [lia|done]|]). lia.
Qed.

Lemma read_locked_same s a b n :
  space_wf s -> 0 <= n -> (forall bs, b = Some bs -> Z.of_nat (length bs) = n) ->
  (access_locked s a b n false).1.2 = s.
Proof.
  intros Hs Hn Hb. pose proof (access_locked_read s a b n Hs Hn Hb) as H.
  destruct (access_locked s a b n false) as [[r s'] b']. by destruct H.
Qed.

Lemma zeros_of n : bytes_of (Some (replicate (Z.to_nat n) 0)) n \/ n < 0.
Proof.
  destruct (Z.lt_ge_cases n 0); [by right|left]. intros bs [= <-]. rewrite length_replicate.
  split; [lia|]. by apply Forall_replicate.
Qed.

Lemma store_exclusive_state s a b n monitor stored :
  (gm_sparse_store_exclusive (Some s) a b n monitor stored).1.1.2 = Some s \/
  (gm_sparse_store_exclusive (Some s) a b n monitor stored).1.1.2 =
    Some (access_locked s a b n true).1.2.
Proof.
  unfold gm_sparse_store_exclusive. destruct monitor, stored, b; auto.
  destruct (negb _); [by left|]. destruct (ex_valid _ && _ && _ && _ && _).
  - destruct (access_locked s a (Some l) n true) as [[r s'] b']. cbn. case_bool_decide; by right.
  - rewrite bool_decide_eq_true_2 by done. by left.
Qed.

Lemma compare_exchange_state s a e d p n :
  space_wf s -> 0 <= n ->
  let out := gm_sparse_compare_exchange (Some s) a e d p n in
  out.1.2 = Some s \/ out.1.2 = Some (access_locked s a d n true).1.2.
Proof.
  intros Hs Hn. cbv zeta. unfold gm_sparse_compare_exchange. destruct e, d, p; auto.
  destruct (negb _); [by left|].
  assert ((access_locked s a (Some (replicate (Z.to_nat n) 0)) n false).1.2 = s) as Hsame.
  { apply read_locked_same; [done|done|]. intros bs [= <-]. rewrite length_replicate. lia. }
  assert (forall r0 : GMResult, exists r (old : option (list Z)), (if bool_decide (r0 = GM_OK)
      then access_locked s a (Some (replicate (Z.to_nat n) 0)) n false
      else (r0, s, Some (replicate (Z.to_nat n) 0))) = (r, s, old)) as Hread.
  { intros r0. case_bool_decide; [|by eauto].
    destruct (access_locked s a (Some (replicate _ 0)) n false) as [[r s'] old]. cbn in Hsame. subst. eauto. }
  destruct (Hread (check_access s a n (Z.lor GM_READ GM_WRITE))) as (r & old & ->).
  destruct (bool_decide (r = GM_OK) && _).
  - right. destruct (access_locked s a (Some l0) n true) as [[r' s'] b']. done.
  - by left.
Qed.

Lemma atomic_state s a n operation operand p :
  space_wf s -> 0 <= n ->
  let out := gm_sparse_atomic (Some s) a n operation operand p in
  out.1.2 = Some s \/ exists v, out.1.2 = Some (access_locked s a (Some (le_bytes (Z.to_nat n) v)) n true).1.2.
Proof.
  intros Hs Hn. cbv zeta. unfold gm_sparse_atomic. destruct p; auto.
  destruct (_ || _); [by left|].
  assert ((access_locked s a (Some (replicate (Z.to_nat n) 0)) n false).1.2 = s) as Hsame.
  { apply read_locked_same; [done|done|]. intros bs [= <-]. rewrite length_replicate. lia. }
  destruct (access_locked s a (Some (replicate _ 0)) n false) as [[r s'] old]. cbn in Hsame. subst s'.
  case_bool_decide; [|by left]. right. eexists.
  destruct (access_locked s a (Some (le_bytes _ _)) n true) as [[r' s'] b'] eqn:E. cbn [fst snd].
  by rewrite E.
Qed.

Lemma step_transition s s' : space_wf s -> sparse_step s s' -> transition s s'.
Proof.
  intros Hs [s1 a n prot maxprot replace op Hn E|s1 a b n write Hn Hb E|s1 a n permissions Hn E
    |s1 a b n monitor Hn Hb E|s1 a b n monitor stored Hn Hb E|s1 a e d p n Hn Hb E|s1 a n o v p Hn E].
  - pose proof (change_correct s a n prot maxprot replace op Hs Hn) as H.
    destruct (change _ _ _ _ _ _ _) as [r m']. cbn in E. subst m'.
    destruct r; try (destruct H as [[= ->] _]; constructor).
    destruct H as (_ & _ & _ & s2 & [= <-] & H). by eapply tr_change.
  - pose proof (access_transition s a b n write Hs Hn Hb) as H. unfold access_memory in E.
    destruct (access_locked _ _ _ _ _) as [[r s2] b']. cbn in E, H. by simplify_eq.
  - pose proof (prepare_correct s a n permissions Hs Hn) as H.
    destruct (gm_sparse_prepare _ _ _ _) as [r m']. cbn in E. subst m'.
    destruct (decide (r = GM_OK)); [|destruct H as [[= ->] _]; constructor].
    destruct H as (_ & s2 & [= <-] & H & _). by apply tr_prepare.
  - unfold gm_sparse_load_exclusive in E. destruct monitor; [|cbn in E; simplify_eq; constructor].
    destruct (negb _); [cbn in E; simplify_eq; constructor|].
    pose proof (access_transition s a b n false Hs Hn Hb) as H.
    destruct (access_locked _ _ _ _ _) as [[r s2] b']. cbn in E, H. by simplify_eq.
  - pose proof (access_transition s a b n true Hs Hn Hb) as H.
    destruct (store_exclusive_state s a b n monitor stored) as [E'|E']; rewrite E' in E; simplify_eq;
      [constructor|done].
  - pose proof (access_transition s a d n true Hs Hn Hb) as H.
    destruct (compare_exchange_state s a e d p n Hs Hn) as [E'|E']; rewrite E' in E; simplify_eq;
      [constructor|done].
  - destruct (atomic_state s a n o v p Hs Hn) as [E'|[w E']]; rewrite E' in E; simplify_eq;
      [constructor|]. apply access_transition; [done|done|].
    intros bs [= <-]. rewrite length_le_bytes. split; [lia|apply le_bytes_ok].
Qed.

Lemma transition_wf s s' : space_wf s -> transition s s' -> space_wf s'.
Proof. intros Hs [|s1 a b n _ _ H|s1 H|s1 op a n prot maxprot H]; [done|apply H..]. Qed.

(** ** Initialization *)

Lemma slots_loop_pow fuel k capacity slots :
  0 <= k -> slots_loop fuel (2 ^ k) capacity = Some slots ->
  (exists j, 0 <= j /\ slots = 2 ^ j) /\ capacity * 2 <= slots.
Proof.
  revert k. induction fuel as [|fuel IH]; intros k Hk; cbn [slots_loop]; [done|].
  destruct (Z.ltb_spec (2 ^ k) (capacity * 2)).
  - destruct (_ <? _); [done|]. replace (2 ^ k * 2) with (2 ^ (k + 1)) by (rewrite Z.pow_add_r by lia; lia).
    apply IH. lia.
  - intros [= <-]. split; [by exists k|done].
Qed.

(** A capacity below [2^57] pages always gets its table within the fuel. *)
Lemma slots_loop_bound fuel k capacity :
  4 <= k -> 0 <= capacity < 2 ^ 57 -> 59 <= k + Z.of_nat fuel -> 2 ^ k <= 2 ^ 58 ->
  (0 < fuel)%nat ->
  exists slots, slots_loop fuel (2 ^ k) capacity = Some slots /\ slots <= 2 ^ 58.
Proof.
  revert k. induction fuel as [|fuel IH]; intros k Hk Hcap Hf Hb Hpos; [lia|]. cbn [slots_loop].
  destruct (Z.ltb_spec (2 ^ k) (capacity * 2)) as [Hlt|]; [|by eauto].
  rewrite (proj2 (Z.ltb_ge (UINT64_MAX / 2) (2 ^ k)))
    by (change (UINT64_MAX / 2) with 9223372036854775807; lia).
  assert (k < 58) by (apply (Z.pow_lt_mono_r_iff 2); lia).
  replace (2 ^ k * 2) with (2 ^ (k + 1)) by (rewrite Z.pow_add_r by lia; lia).
  apply IH; [lia|done|lia|apply Z.pow_le_mono_r; lia|lia].
Qed.

Definition init_args (base size backing_bytes : Z) : Prop :=
  base <> 0 /\ aligned base size = true /\ backing_bytes <> 0 /\ backing_bytes mod GM_PAGE_SIZE = 0.
(** A space in which nothing has happened. *)
Record fresh (s : Space) : Prop := {
  fr_wf : space_wf s;
  fr_cells : forall x, sp_cell s x = None;
  fr_generation : sp_generation s = 0;
  fr_mapping : sp_mapping_generation s = 0;
  fr_pages : live_backings (sp_pages s) = []
}.

Lemma live_backings_empty n : live_backings (replicate n empty_page) = [].
Proof.
  unfold live_backings. rewrite filter_none; [done|]. intros p Hp.
  apply elem_of_replicate in Hp as [-> _]. by intros [? _].
Qed.

Lemma init_space_fresh base size arena slots k :
  0 <= base -> base <> 0 -> aligned base size = true -> 0 <= size ->
  slots = 2 ^ k -> 0 <= k -> 2 * Z.of_nat (length arena) <= slots -> arena <> [] ->
  Forall (fun bs => length bs = Z.to_nat GM_PAGE_SIZE /\ Forall byte_ok bs) arena ->
  fresh (mkSpace base (base + size) 0 0 arena 0 0 [] (replicate (Z.to_nat slots) empty_page) []).
Proof.
  intros Hb0 Hb Hal Hs Hslots Hk Hhalf Hne Harena. unfold aligned in Hal. bool_props.
  assert (Z.of_nat (Z.to_nat slots) = 2 ^ k) as Hz by lia.
  assert (0 < Z.of_nat (length arena)) by (destruct arena; [done|cbn; lia]).
  split; [|done|done|done|apply live_backings_empty].
  split; unfold sp_capacity; cbn [sp_base sp_end sp_regions sp_pages sp_backing sp_resident
    sp_next_backing sp_free_backing]; rewrite ?live_backings_empty.
  - split; [lia|done].
  - split; [lia|]. rewrite Z.add_mod by done. by rewrite H1, H2.
  - split; constructor.
  - by intros r Hr%elem_of_nil.
  - cbn. lia.
  - by apply (table_empty_wf k).
  - intros p Hp [Hl _]. by apply elem_of_replicate in Hp as [-> _].
  - done.
  - done.
  - lia.
  - done.
  - unfold slot_count. rewrite length_replicate. lia.
  - done.
Qed.

(** [gm_sparse_init] and [gm_sparse_init_blocks]: on success the handle holds a
    well formed space over [[base, base + size)] with nothing mapped; a used or
    null handle and malformed bounds are invalid; the only other failure is
    memory. *)
Theorem initialize_spec base size backing_bytes alloc_ok arena :
  0 <= base -> 0 <= size -> 0 <= backing_bytes ->
  Z.of_nat (length arena) = backing_bytes / GM_PAGE_SIZE ->
  Forall (fun bs => length bs = Z.to_nat GM_PAGE_SIZE /\ Forall byte_ok bs) arena ->
  let '(r, m) := initialize (Some None) base size backing_bytes alloc_ok arena in
  match r with
  | GM_OK => init_args base size backing_bytes /\
      exists s, m = Some (Some s) /\ fresh s /\ sp_base s = base /\ sp_end s = base + size /\
        sp_capacity s = backing_bytes / GM_PAGE_SIZE
  | GM_INVALID => m = Some None /\ ~ init_args base size backing_bytes
  | GM_NOMEM => m = Some None /\ (alloc_ok = false \/ 2 ^ 57 <= backing_bytes / GM_PAGE_SIZE)
  | _ => False
  end.
Proof.
  intros Hb Hs Hbb Hlen Harena. unfold initialize.
  destruct (_ || _ || _ || _) eqn:Eargs.
  { split; [done|]. intros (H1 & H2 & H3 & H4). rewrite H2, H4 in Eargs.
    destruct (Z.eqb_spec base 0), (Z.eqb_spec backing_bytes 0); done. }
  bool_props. assert (0 < backing_bytes / GM_PAGE_SIZE) as Hcap.
  { pose proof (Z.div_mod backing_bytes GM_PAGE_SIZE ltac:(done)). unfold GM_PAGE_SIZE in *. lia. }
  assert (init_args base size backing_bytes) as Hargs by (by split_and!).
  set (capacity := backing_bytes / GM_PAGE_SIZE) in *.
  destruct (Z.lt_ge_cases capacity (2 ^ 57)) as [Hsmall|Hbig].
  - rewrite (proj2 (Z.ltb_ge (UINT64_MAX / 2) capacity))
      by (change (UINT64_MAX / 2) with 9223372036854775807; lia).
    destruct (slots_loop_bound 64 4 capacity) as (slots & Hslots & Hle); [lia|lia|lia|lia|lia|].
    change (2 ^ 4) with 16 in Hslots. rewrite Hslots.
    rewrite (proj2 (Z.ltb_ge (UINT64_MAX / sizeof_Page) slots)) 
      by (change (UINT64_MAX / sizeof_Page) with 768614336404564650; lia).
    rewrite (proj2 (Z.ltb_ge (UINT64_MAX / sizeof_pointer) capacity))
      by (change (UINT64_MAX / sizeof_pointer) with 2305843009213693951; lia).
    cbn [orb]. destruct alloc_ok; cbn [negb]; [|by auto]. split; [done|].
    change 16 with (2 ^ 4) in Hslots.
    destruct (slots_loop_pow 64 4 capacity slots ltac:(lia) Hslots) as [(k & Hk & Hpow) Hhalf].
    eexists. split; [done|]. split; [|done].
    apply (init_space_fresh base size arena slots k); try done; [lia|]. intros ->. cbn in Hlen. lia.
  - destruct (_ <? capacity); [by auto|]. destruct (slots_loop 64 16 capacity) as [slots|] eqn:Hslots; [|by auto].
    destruct (_ || _); [by auto|]. destruct alloc_ok; cbn [negb]; [|by auto]. split; [done|].
    change 16 with (2 ^ 4) in Hslots.
    destruct (slots_loop_pow 64 4 capacity slots ltac:(lia) Hslots) as [(k & Hk & Hpow) Hhalf].
    eexists. split; [done|]. split; [|done].
    apply (init_space_fresh base size arena slots k); try done; [lia|]. intros ->. cbn in Hlen. lia.
Qed.

(** ** What a guest sees of an access *)

Definition sp_stored (s s' : Space) (a : Z) (b : list Z) : Prop :=
  forall x, sp_cell s' x =
    if decide (a <= x < a + Z.of_nat (length b))
    then cell_with_byte (default 0 (b !! Z.to_nat (x - a))) <$> sp_cell s x
    else sp_cell s x.
Definition sp_reads (s : Space) (a : Z) (bs : list Z) : Prop :=
  forall i, (i < length bs)%nat -> bs !! i = Some (byte_at s (a + Z.of_nat i)).

Lemma written_stored s s' a b n :
  written (sp_bump s) s' a b 0 n -> n = Z.of_nat (length b) -> sp_stored s s' a b.
Proof.
  intros [Hwf Hsm _ Hb _ _] -> x. unfold sp_cell.
  assert (access_at s' x = access_at s x) as -> by (unfold access_at; by rewrite (sm_regions _ _ Hsm)).
  destruct (access_at s x) as [pm|] eqn:Ex; [|by case_decide]. cbn.
  rewrite Hb by (change (access_at (sp_bump s) x) with (access_at s x); by rewrite Ex).
  change (byte_at (sp_bump s) x) with (byte_at s x). by case_decide.
Qed.
Lemma prepared_cells s s' x : prepared s s' -> sp_cell s' x = sp_cell s x.
Proof.
  intros [Hwf Hsm _ Hb _ _]. unfold sp_cell.
  assert (access_at s' x = access_at s x) as -> by (unfold access_at; by rewrite (sm_regions _ _ Hsm)).
  destruct (access_at s x) eqn:Ex; [|done]. cbn. by rewrite Hb by by rewrite Ex.
Qed.

Lemma gm_sparse_write_correct s a b :
  space_wf s -> Forall byte_ok b ->
  let n := Z.of_nat (length b) in
  let '(r, m') := gm_sparse_write (Some s) a (Some b) n in
  (r = GM_OK <-> granted s a n GM_WRITE /\ (n = 0 \/ Z.of_nat (length (missing_pages s a n)) <= room s)) /\
  if decide (r = GM_OK) then
    exists s', m' = Some s' /\ space_wf s' /\ sp_stored s s' a b /\
      sp_generation s' = (if decide (n = 0) then sp_generation s else w64 (sp_generation s + 1))
  else m' = Some s /\ (refusal s a n GM_WRITE r \/ r = GM_NOMEM /\ granted s a n GM_WRITE).
Proof.
  intros Hs Hb n. unfold gm_sparse_write, access_memory.
  pose proof (access_locked_write s a (Some b) n Hs ltac:(lia) ltac:(by intros ? [= <-])) as H.
  destruct (access_locked _ _ _ _ _) as [[r s'] b']. cbn. destruct H as [_ H].
  destruct (decide (r = GM_OK)) as [->|Hne].
  - destruct H as [Hgr H]. destruct (decide (n = 0)) as [Hz|Hnz].
    + subst s'. split; [split; [by auto|done]|]. exists s. split; [done|]. split; [done|]. split; [|done].
      intros x. case_decide; [lia|done].
    + destruct H as (bs & [= <-] & Hroom & Hw). split; [split; [by auto|done]|]. exists s'. split; [done|].
      split; [apply Hw|]. split; [by apply (written_stored s s' a b n)|].
      by rewrite (wr_generation _ _ _ _ _ _ Hw).
  - destruct H as [-> H]. split.
    + split; [done|]. intros [Hgr Hroom].
      destruct H as [Hr|[(_ & _ & ?)|(_ & Hn0 & _ & Hr)]]; [by destruct (refusal_not_granted _ _ _ _ _ Hr)|done|].
      destruct Hroom as [Hz|?]; [done|lia].
    + split; [done|]. destruct H as [?|[(_ & _ & ?)|(? & _ & ? & _)]]; [by left|done|by right].
Qed.

(** [gm_sparse_write] is all or nothing. It succeeds exactly when every byte may
    be written and the pages still without backing fit the free backing; the
    range then holds the bytes, every other cell is as before, and one write is
    counted. Any failure leaves the space as it was. *)
Theorem gm_sparse_write_spec s a b :
  space_wf s -> Forall byte_ok b ->
  let n := Z.of_nat (length b) in
  let '(r, m') := gm_sparse_write (Some s) a (Some b) n in
  (r = GM_OK <-> granted s a n GM_WRITE /\ (n = 0 \/ Z.of_nat (length (missing_pages s a n)) <= room s)) /\
  if decide (r = GM_OK) then
    exists s', m' = Some s' /\ space_wf s' /\ sp_stored s s' a b /\
      sp_generation s' = (if decide (n = 0) then sp_generation s else w64 (sp_generation s + 1))
  else m' = Some s /\ (refusal s a n GM_WRITE r \/ r = GM_NOMEM /\ granted s a n GM_WRITE).
Proof. apply gm_sparse_write_correct. Qed.

Lemma gm_sparse_read_correct s a b :
  space_wf s ->
  let n := Z.of_nat (length b) in
  let '(r, m', b') := gm_sparse_read (Some s) a (Some b) n in
  m' = Some s /\ (r = GM_OK <-> granted s a n GM_READ) /\
  if decide (r = GM_OK) then
    exists bs, b' = Some bs /\ length bs = length b /\ sp_reads s a bs
  else b' = Some b /\ refusal s a n GM_READ r.
Proof.
  intros Hs n. unfold gm_sparse_read, access_memory.
  pose proof (access_locked_read s a (Some b) n Hs ltac:(lia) ltac:(by intros ? [= <-])) as H.
  destruct (access_locked _ _ _ _ _) as [[r s'] b']. destruct H as [-> H]. split; [done|].
  destruct (decide (r = GM_OK)) as [->|Hne].
  - destruct H as [Hgr H]. split; [done|]. destruct (decide (n = 0)) as [Hz|Hnz].
    + exists b. split; [done|]. split; [done|]. intros i Hi. lia.
    + destruct H as (bs & -> & Hl & Hb). exists bs. split; [done|]. split; [lia|done].
  - destruct H as [-> [Hr|(_ & _ & ?)]]; [|done]. split; [|done].
    split; [done|]. intros Hgr. by destruct (refusal_not_granted _ _ _ _ _ Hr).
Qed.

(** [gm_sparse_read] never changes the space; it succeeds exactly when every
    byte may be read, and then returns those bytes, demand-zero pages as zeros. *)
Theorem gm_sparse_read_spec s a b :
  space_wf s ->
  let n := Z.of_nat (length b) in
  let '(r, m', b') := gm_sparse_read (Some s) a (Some b) n in
  m' = Some s /\ (r = GM_OK <-> granted s a n GM_READ) /\
  if decide (r = GM_OK) then
    exists bs, b' = Some bs /\ length bs = length b /\ sp_reads s a bs
  else b' = Some b /\ refusal s a n GM_READ r.
Proof. apply gm_sparse_read_correct. Qed.

(** C5: Mapping operations change exactly their range: a map makes it zero with the
    new permissions, an unmap removes it, a protect keeps the bytes. Overlaps,
    holes and permissions above a maximum are reported and change nothing; the
    region table is full only when it already has 255 regions. *)
Theorem sparse_change_spec s a n prot maxprot replace op :
  space_wf s -> 0 <= n ->
  let '(r, m') := change (Some s) a n prot maxprot replace op in
  match r with
  | GM_OK =>
      change_args s a n prot maxprot /\
      (op = MAP -> replace = false -> forall x, a <= x < a + n -> sp_cell s x = None) /\
      (op = PROTECT -> forall x, a <= x < a + n -> exists c, sp_cell s x = Some c /\
        none_outside prot (c_maxprot c) = true) /\
      exists s', m' = Some s' /\ changed_space s s' op a n prot maxprot
  | GM_INVALID => m' = Some s /\ ~ change_args s a n prot maxprot
  | GM_OVERLAP => m' = Some s /\ op = MAP /\ replace = false /\
      exists x, a <= x < a + n /\ sp_cell s x <> None
  | GM_UNMAPPED => m' = Some s /\ op = PROTECT /\ exists x, a <= x < a + n /\ sp_cell s x = None
  | GM_PROTECTION => m' = Some s /\ op = PROTECT /\
      exists x c, a <= x < a + n /\ sp_cell s x = Some c /\ none_outside prot (c_maxprot c) = false
  | GM_NOMEM => m' = Some s /\ (255 <= length (sp_regions s))%nat
  end.
Proof.
  intros Hs Hn. pose proof (change_correct s a n prot maxprot replace op Hs Hn) as H.
  destruct (change _ _ _ _ _ _ _) as [[] m']; try done. destruct H as [-> H].
  split; [done|]. unfold REGION_LIMIT in H. lia.
Qed.

Lemma granted_weaken s s' a n p q :
  sp_regions s' = sp_regions s -> sp_base s' = sp_base s -> sp_end s' = sp_end s ->
  (forall x, has_all x p = true -> has_all x q = true) -> granted s a n p -> granted s' a n q.
Proof.
  intros Hr Hb He Hpq [Hc Hall]. split; [by unfold contains in *; rewrite Hb, He|].
  intros x Hx. destruct (Hall x Hx) as (p' & m & Hp & Hh). exists p', m. rewrite Hr. auto.
Qed.

(** A prepared buffer can be written: after [gm_sparse_prepare] with write
    permission, nothing a guest sees has changed, and a store of the whole range
    cannot fail, not even for lack of backing. *)
Theorem gm_sparse_prepare_write s a b :
  space_wf s -> Forall byte_ok b ->
  let n := Z.of_nat (length b) in
  let '(r, m') := gm_sparse_prepare (Some s) a n GM_WRITE in
  if decide (r = GM_OK) then
    exists s', m' = Some s' /\ space_wf s' /\ (forall x, sp_cell s' x = sp_cell s x) /\
      (gm_sparse_write (Some s') a (Some b) n).1 = GM_OK
  else m' = Some s.
Proof.
  intros Hs Hb n. pose proof (prepare_correct s a n GM_WRITE Hs ltac:(lia)) as H.
  destruct (gm_sparse_prepare _ _ _ _) as [r m']. destruct (decide (r = GM_OK)); [|apply H].
  destruct H as (Hgr & s' & -> & Hpre & Hmiss). exists s'. split; [done|].
  pose proof (pr_wf _ _ Hpre) as Hs'. pose proof (pr_map _ _ Hpre) as Hsm.
  split; [done|]. split; [intros x; by apply prepared_cells|].
  unfold gm_sparse_write, access_memory.
  pose proof (access_locked_write s' a (Some b) n Hs' ltac:(lia) ltac:(by intros ? [= <-])) as Hw.
  destruct (access_locked _ _ _ _ _) as [[r' s2] b']. cbn. destruct Hw as [_ Hw].
  destruct (decide (r' = GM_OK)); [done|]. exfalso.
  assert (granted s' a n GM_WRITE) as Hgr'.
  { apply (granted_weaken s s' a n GM_WRITE GM_WRITE); [apply Hsm..|done|done]. }
  destruct Hw as [_ [Hr|[(_ & _ & ?)|(_ & Hn0 & _ & Hroom)]]];
    [by destruct (refusal_not_granted _ _ _ _ _ Hr)|done|].
  rewrite (Hmiss Hn0 ltac:(done)) in Hroom. pose proof (room_nonneg s' Hs'). cbn in Hroom. lia.
Qed.

(** [gm_sparse_find_free] returns the lowest free range of the size in the
    space, page aligned, and fails only when there is none. *)
Theorem gm_sparse_find_free_spec s size :
  space_wf s -> 0 <= size ->
  match gm_sparse_find_free (Some s) size true with
  | (GM_OK, Some c) =>
      c mod GM_PAGE_SIZE = 0 /\ sp_base s <= c /\ c + size <= sp_end s /\
      (forall x, c <= x < c + size -> sp_cell s x = None) /\
      forall c', sp_base s <= c' < c -> exists x, c' <= x < c' + size /\ sp_cell s x <> None
  | (GM_NOMEM, None) =>
      forall c', sp_base s <= c' -> c' + size <= sp_end s ->
        exists x, c' <= x < c' + size /\ sp_cell s x <> None
  | (GM_INVALID, None) => aligned 0 size = false
  | _ => False
  end.
Proof.
  intros Hs Hsize. unfold gm_sparse_find_free. cbn [negb orb].
  destruct (aligned 0 size) eqn:Ha; cbn [negb]; [|done].
  assert (0 < size) as Hpos by (unfold aligned in Ha; bool_props; lia).
  destruct (free_loop_spec (sp_regions s) (sp_base s) size (sw_regions s Hs) Hpos) as (Hge & Hc & Hfree & Hmin).
  { intros r Hr. by apply (sw_within s Hs). }
  set (c := free_loop _ _ _) in *.
  assert (forall c', sp_base s <= c' < c -> exists x, c' <= x < c' + size /\ sp_cell s x <> None) as Hmin'.
  { intros c' Hc'. destruct (Hmin c' Hc') as (x & Hx & Hp). exists x. split; [done|]. by rewrite sp_cell_None. }
  destruct (Z.leb_spec size (sp_end s - c)).
  - split.
    { destruct Hc as [->|(r & Hr & ->)]; [apply (sw_base s Hs)|].
      by apply region_end, (proj1 (Forall_forall _ _) (regions_wf_ok _ (sw_regions s Hs)) r Hr). }
    split; [done|]. split; [lia|]. split; [|done]. intros x Hx. by apply sp_cell_None, Hfree.
  - intros c' Hc' Hfit. apply Hmin'. lia.
Qed.

(** ** Compare and exchange *)


Lemma gm_sparse_compare_exchange_correct s a e d p n :
  space_wf s -> 0 <= n -> Z.of_nat (length e) = n -> Z.of_nat (length d) = n -> Forall byte_ok d ->
  let '(r, m', prev) := gm_sparse_compare_exchange (Some s) a (Some e) (Some d) (Some p) n in
  if decide (r = GM_OK) then
    atomic_size a n = true /\ granted s a n (Z.lor GM_READ GM_WRITE) /\
    exists old s', prev = Some old /\ Z.of_nat (length old) = n /\ sp_reads s a old /\
      m' = Some s' /\ space_wf s' /\
      (old = e -> sp_stored s s' a d) /\ (old <> e -> s' = s)
  else m' = Some s /\ prev = Some p.
Proof.
  intros Hs Hn He Hd Hdb. unfold gm_sparse_compare_exchange.
  destruct (atomic_size a n) eqn:Hat; cbn [negb]; [|by rewrite decide_False].
  pose proof (atomic_size_spec a n Hn Hat) as [Hn' _].
  pose proof (check_access_spec s a n (Z.lor GM_READ GM_WRITE) Hs Hn) as Hc. cbv zeta in Hc.
  destruct (decide (check_access s a n _ = GM_OK)) as [Hok|Hno].
  2: { rewrite !bool_decide_eq_false_2 by done. cbv beta iota delta [andb].
       rewrite !bool_decide_eq_false_2 by done. by rewrite decide_False. }
  rewrite bool_decide_eq_true_2 by done.
  pose proof (access_locked_read s a (Some (replicate (Z.to_nat n) 0)) n Hs Hn) as Hr.
  destruct (access_locked s a (Some (replicate _ 0)) n false) as [[r s0] old].
  destruct Hr as [-> Hr]. { intros bs [= <-]. rewrite length_replicate. lia. }
  destruct (decide (r = GM_OK)) as [->|Hne].
  2: { rewrite !bool_decide_eq_false_2 by done. cbv beta iota delta [andb].
       rewrite !bool_decide_eq_false_2 by done. by rewrite decide_False. }
  destruct Hr as [_ Hr]. rewrite decide_False in Hr by lia. destruct Hr as (bs & -> & Hl & Hb).
  rewrite bool_decide_eq_true_2 by done. cbn [default from_option id andb].
  case_bool_decide as Heq.
  - pose proof (access_locked_write s a (Some d) n Hs Hn ltac:(by intros ? [= <-])) as Hw.
    destruct (access_locked s a (Some d) n true) as [[r s'] b']. cbn. destruct Hw as [_ Hw].
    destruct (decide (r = GM_OK)) as [->|Hne].
    + destruct Hw as [_ Hw]. rewrite decide_False in Hw by lia. destruct Hw as (d' & [= <-] & _ & Hw).
      rewrite bool_decide_eq_true_2 by done. split; [done|]. split; [done|]. exists bs, s'.
      do 4 (split; [done|]). split; [apply Hw|]. split; [intros _|by intros []].
      by apply (written_stored s s' a d n).
    + rewrite bool_decide_eq_false_2 by done. by destruct Hw as [-> _].
  - rewrite decide_True by done. rewrite bool_decide_eq_true_2 by done. split; [done|].
    split; [done|]. exists bs, s. do 5 (split; [done|]). by split.
Qed.

(** [gm_sparse_compare_exchange] reads the bytes and, only if they are the
    expected ones, stores the desired ones; both permissions are needed even
    when the comparison fails, and a failure changes neither the space nor
    [previous]. *)
Theorem gm_sparse_compare_exchange_spec s a e d p n :
  space_wf s -> 0 <= n -> Z.of_nat (length e) = n -> Z.of_nat (length d) = n -> Forall byte_ok d ->
  let '(r, m', prev) := gm_sparse_compare_exchange (Some s) a (Some e) (Some d) (Some p) n in
  if decide (r = GM_OK) then
    atomic_size a n = true /\ granted s a n (Z.lor GM_READ GM_WRITE) /\
    exists old s', prev = Some old /\ Z.of_nat (length old) = n /\ sp_reads s a old /\
      m' = Some s' /\ space_wf s' /\
      (old = e -> sp_stored s s' a d) /\ (old <> e -> s' = s)
  else m' = Some s /\ prev = Some p.
Proof. apply gm_sparse_compare_exchange_correct. Qed.

(** ** Atomic operations *)

(** A [w]-bit number read as two's complement. *)
Definition signed (w x : Z) : Z := if x <? 2 ^ (w - 1) then x else x - 2 ^ w.
(** The value each operation is meant to leave, [w] bits wide. *)
Definition atomic_result (w : Z) (operation : GMSparseAtomic) (old operand : Z) : Z :=
  match operation with
  | GM_ATOMIC_ADD => (old + operand) mod 2 ^ w
  | GM_ATOMIC_CLEAR => Z.ldiff old operand
  | GM_ATOMIC_XOR => Z.lxor old operand
  | GM_ATOMIC_SET => Z.lor old operand
  | GM_ATOMIC_SIGNED_MAX => if signed w operand <? signed w old then old else operand
  | GM_ATOMIC_SIGNED_MIN => if signed w old <? signed w operand then old else operand
  | GM_ATOMIC_UNSIGNED_MAX => Z.max old operand
  | GM_ATOMIC_UNSIGNED_MIN => Z.min old operand
  | GM_ATOMIC_SWAP => operand
  end.

(** Flipping the sign bit turns signed order into unsigned order. *)
Lemma lxor_sign w x :
  0 < w -> 0 <= x < 2 ^ w -> Z.lxor x (2 ^ (w - 1)) = signed w x + 2 ^ (w - 1).
Proof.
  intros Hw Hx. assert (2 ^ w = 2 * 2 ^ (w - 1)) as Hp.
  { rewrite <- (Z.pow_succ_r 2 (w - 1)) by lia. f_equal. lia. }
  assert (0 < 2 ^ (w - 1)) by (apply Z.pow_pos_nonneg; lia).
  assert (forall y, 0 <= y < 2 ^ (w - 1) -> Z.lxor y (2 ^ (w - 1)) = y + 2 ^ (w - 1)) as Hlow.
  { intros y Hy. symmetry. apply Z.add_nocarry_lxor. apply Z.bits_inj'. intros i Hi.
    rewrite Z.land_spec, Z.bits_0, Z.pow2_bits_eqb by lia.
    destruct (Z.eqb_spec (w - 1) i) as [<-|]; [|by rewrite andb_false_r].
    rewrite <- (Z.mod_small y (2 ^ (w - 1))) by done. by rewrite Z.mod_pow2_bits_high by lia. }
  unfold signed. destruct (Z.ltb_spec x (2 ^ (w - 1))); [apply Hlow; lia|].
  assert (x = Z.lxor (x - 2 ^ (w - 1)) (2 ^ (w - 1))) as Ex by (rewrite Hlow by lia; lia).
  rewrite Ex at 1. rewrite Z.lxor_assoc, Z.lxor_nilpotent, Z.lxor_0_r. lia.
Qed.

Lemma le_bytes_mod n v : le_bytes n (v mod 2 ^ (8 * Z.of_nat n)) = le_bytes n v.
Proof.
  rewrite <- le_value_le_bytes. rewrite <- (length_le_bytes n v) at 1.
  apply le_bytes_le_value, le_bytes_ok.
Qed.

(** The code's value and the intended one agree on the bytes stored. *)
Lemma atomic_value_bytes n operation old operand :
  0 < n <= 8 -> 0 <= old < 2 ^ (8 * n) -> 0 <= operand < 2 ^ (8 * n) ->
  le_bytes (Z.to_nat n) (atomic_value operation old operand (Z.shiftl 1 (n * 8 - 1))) =
  le_bytes (Z.to_nat n) (atomic_result (8 * n) operation old operand).
Proof.
  intros Hn Ho Hp. rewrite Z.shiftl_mul_pow2, Z.mul_1_l by lia.
  replace (n * 8 - 1) with (8 * n - 1) by lia.
  destruct operation; cbn [atomic_value atomic_result]; rewrite ?lxor_sign by lia; try done.
  - rewrite <- (le_bytes_mod (Z.to_nat n) (w64 _)), <- (le_bytes_mod (Z.to_nat n) (_ mod _)).
    rewrite Z2Nat.id by lia. f_equal. rewrite Zmod_mod. unfold w64.
    replace (2 ^ 64) with (2 ^ (8 * n) * 2 ^ (64 - 8 * n)) by (rewrite <- Z.pow_add_r by lia; f_equal; lia).
    rewrite Z.rem_mul_r by (try apply Z.pow_nonzero; try apply Z.pow_pos_nonneg; lia).
    rewrite (Z.mul_comm (2 ^ (8 * n))), Z.mod_add by (apply Z.pow_nonzero; lia). by rewrite Zmod_mod.
  - f_equal. destruct (Z.ltb_spec (signed (8 * n) operand + 2 ^ (8 * n - 1)) (signed (8 * n) old + 2 ^ (8 * n - 1))),
      (Z.ltb_spec (signed (8 * n) operand) (signed (8 * n) old)); lia.
  - f_equal. destruct (Z.ltb_spec (signed (8 * n) old + 2 ^ (8 * n - 1)) (signed (8 * n) operand + 2 ^ (8 * n - 1))),
      (Z.ltb_spec (signed (8 * n) old) (signed (8 * n) operand)); lia.
  - f_equal. destruct (Z.ltb_spec operand old); lia.
  - f_equal. destruct (Z.ltb_spec old operand); lia.
Qed.

Lemma atomic_mask n operand :
  0 < n <= 8 -> Z.land operand (if n =? 8 then UINT64_MAX else Z.shiftl 1 (n * 8) - 1) =
    operand mod 2 ^ (8 * n).
Proof.
  intros Hn. replace (if n =? 8 then UINT64_MAX else Z.shiftl 1 (n * 8) - 1) with (2 ^ (8 * n) - 1).
  - apply land_mask. lia.
  - destruct (Z.eqb_spec n 8) as [->|]; [done|]. rewrite Z.shiftl_mul_pow2 by lia. f_equal.
    rewrite Z.mul_1_l. f_equal. lia.
Qed.

(** The guest only ever sees bytes. *)
Lemma byte_at_ok s x : space_wf s -> byte_ok (byte_at s x).
Proof.
  intros Hs. unfold byte_at. destruct (page_at _ _) as [p|]; [|by split].
  destruct (backing_page_wf s (pg_backing p) Hs) as [_ Hok].
  destruct (_ !! _) as [v|] eqn:E; cbn; [|by split]. by eapply Forall_lookup_1.
Qed.
Lemma sp_reads_ok s a bs : space_wf s -> sp_reads s a bs -> Forall byte_ok bs.
Proof.
  intros Hs Hb. apply Forall_lookup_2. intros i v Hv. pose proof (lookup_lt_Some _ _ _ Hv) as Hi.
  rewrite (Hb i Hi) in Hv. injection Hv as <-. by apply byte_at_ok.
Qed.

Lemma gm_sparse_atomic_correct s a n operation operand p :
  space_wf s -> 0 <= n ->
  let '(r, m', prev) := gm_sparse_atomic (Some s) a n operation operand (Some p) in
  if decide (r = GM_OK) then
    atomic_size a n = true /\ n <= 8 /\ granted s a n GM_READ /\ granted s a n GM_WRITE /\
    exists bs s', length bs = Z.to_nat n /\ sp_reads s a bs /\ prev = Some (le_value bs) /\
      m' = Some s' /\ space_wf s' /\
      sp_stored s s' a (le_bytes (Z.to_nat n)
        (atomic_result (8 * n) operation (le_value bs) (operand mod 2 ^ (8 * n))))
  else m' = Some s /\ prev = Some p.
Proof.
  intros Hs Hn. unfold gm_sparse_atomic.
  destruct (Z.ltb_spec 8 n) as [H8|H8]; cbn [orb]; [by rewrite decide_False|].
  destruct (atomic_size a n) eqn:Hat; cbn [negb]; [|by rewrite decide_False].
  pose proof (atomic_size_spec a n Hn Hat) as [Hn' _].
  pose proof (access_locked_read s a (Some (replicate (Z.to_nat n) 0)) n Hs Hn) as Hr.
  destruct (access_locked s a (Some (replicate _ 0)) n false) as [[r s0] old].
  destruct Hr as [-> Hr]. { intros bs [= <-]. rewrite length_replicate. lia. }
  destruct (decide (r = GM_OK)) as [->|Hne].
  2: { rewrite bool_decide_eq_false_2 by done. by rewrite decide_False. }
  destruct Hr as [Hgr Hr]. rewrite decide_False in Hr by lia. destruct Hr as (bs & -> & Hl & Hb).
  rewrite bool_decide_eq_true_2 by done. cbn [default from_option id].
  rewrite atomic_mask by lia.
  assert (Forall byte_ok bs) as Hbok by (by apply (sp_reads_ok s a)).
  pose proof (le_value_range bs Hbok) as Hv. replace (Z.of_nat (length bs)) with n in Hv by lia.
  rewrite atomic_value_bytes by (try apply Z.mod_pos_bound; try apply Z.pow_pos_nonneg; lia).
  set (v := le_bytes _ (atomic_result _ _ _ _)).
  pose proof (access_locked_write s a (Some v) n Hs Hn) as Hw.
  destruct (access_locked s a (Some v) n true) as [[r s'] b']. cbn. destruct Hw as [_ Hw].
  { intros ? [= <-]. unfold v. rewrite length_le_bytes. split; [lia|apply le_bytes_ok]. }
  destruct (decide (r = GM_OK)) as [->|Hne].
  - destruct Hw as [Hgw Hw]. rewrite decide_False in Hw by lia. destruct Hw as (d' & [= <-] & _ & Hw).
    rewrite bool_decide_eq_true_2 by done. do 4 (split; [done|]). exists bs, s'.
    split; [lia|]. do 3 (split; [done|]). split; [apply Hw|].
    apply (written_stored s s' a v n Hw). unfold v. rewrite length_le_bytes. lia.
  - rewrite bool_decide_eq_false_2 by done. by destruct Hw as [-> _].
Qed.

(** [gm_sparse_atomic] reads an aligned little-endian number and stores the
    operation's result in its place, at its width, returning the old value;
    signed comparisons are two's-complement ones. A failure changes neither the
    space nor [previous]. *)
Theorem gm_sparse_atomic_spec s a n operation operand p :
  space_wf s -> 0 <= n ->
  let '(r, m', prev) := gm_sparse_atomic (Some s) a n operation operand (Some p) in
  if decide (r = GM_OK) then
    atomic_size a n = true /\ n <= 8 /\ granted s a n GM_READ /\ granted s a n GM_WRITE /\
    exists bs s', length bs = Z.to_nat n /\ sp_reads s a bs /\ prev = Some (le_value bs) /\
      m' = Some s' /\ space_wf s' /\
      sp_stored s s' a (le_bytes (Z.to_nat n)
        (atomic_result (8 * n) operation (le_value bs) (operand mod 2 ^ (8 * n))))
  else m' = Some s /\ prev = Some p.
Proof. apply gm_sparse_atomic_correct. Qed.

(** ** Exclusive accesses *)

(** Stamps never run ahead of the write counter. *)
Definition stamps (s : Space) : Prop :=
  forall x, access_at s x <> None -> 0 <= page_generation s x <= sp_generation s.

Lemma page_generation_elem s p :
  space_wf s -> p ∈ sp_pages s -> live p ->
  page_generation s (pg_address p) = pg_generation p /\ access_at s (pg_address p) <> None.
Proof.
  intros Hs Hp Hl. destruct (sw_mapped s Hs p Hp Hl) as [Ha Hm]. split; [|done].
  rewrite page_generation_at by (done || by rewrite Ha, Z.sub_0_r).
  by rewrite Ha, Z.sub_0_r, (live_elem s p Hs Hp Hl).
Qed.

Lemma change_stamps s s' op a n prot maxprot :
  space_wf s -> stamps s -> 0 <= sp_generation s ->
  changed_space s s' op a n prot maxprot -> stamps s'.
Proof.
  intros Hs Hst Hge [Hwf _ _ _ Hgen _ _ Hpages] x Hx.
  destruct (mapped_page s' x Hwf Hx) as [_ Hk]. rewrite page_generation_at by done.
  destruct (page_at (sp_pages s') (x - x mod GM_PAGE_SIZE)) as [p|] eqn:Ep; cbn; [|lia].
  apply page_at_live in Ep as (Hp & Hl & _); [|done|done].
  destruct (page_generation_elem s p Hs (Hpages p Hp Hl) Hl) as [Hg Hm].
  specialize (Hst _ Hm). rewrite Hg in Hst. lia.
Qed.

Lemma w64_next x : 0 <= x -> x + 1 < 2 ^ 64 -> w64 (x + 1) = x + 1.
Proof. intros. apply w64_small. unfold u64_ok. lia. Qed.

(** While the counters do not wrap they count, and stamps stay behind them. *)
Lemma transition_counters s s' :
  space_wf s -> stamps s -> 0 <= sp_generation s -> sp_generation s + 1 < 2 ^ 64 ->
  0 <= sp_mapping_generation s -> sp_mapping_generation s + 1 < 2 ^ 64 ->
  transition s s' ->
  stamps s' /\ sp_generation s <= sp_generation s' <= sp_generation s + 1 /\
  sp_mapping_generation s <= sp_mapping_generation s' <= sp_mapping_generation s + 1.
Proof.
  intros Hs Hst Hg Hg' Hm Hm' [|s1 a b n Hn Hl Hw|s1 Hp|s1 op a n prot maxprot Hc].
  - split; [done|lia].
  - pose proof (wr_generation _ _ _ _ _ _ Hw) as Hgen. cbn in Hgen. rewrite w64_next in Hgen by lia.
    pose proof (sm_mapping _ _ (wr_map _ _ _ _ _ _ Hw)) as Hmg. cbn in Hmg.
    split; [|lia]. intros x Hx.
    assert (access_at s x <> None) as Hx'.
    { unfold access_at in *. by rewrite (sm_regions _ _ (wr_map _ _ _ _ _ _ Hw)) in Hx. }
    rewrite (wr_stamp _ _ _ _ _ _ Hw) by done. cbn. rewrite w64_next by lia.
    specialize (Hst x Hx'). change (page_generation (sp_bump s) x) with (page_generation s x).
    case_decide; lia.
  - pose proof (pr_generation _ _ Hp) as Hgen. pose proof (sm_mapping _ _ (pr_map _ _ Hp)) as Hmg.
    split; [|lia]. intros x Hx.
    assert (access_at s x <> None) as Hx'.
    { unfold access_at in *. by rewrite (sm_regions _ _ (pr_map _ _ Hp)) in Hx. }
    rewrite (pr_stamp _ _ Hp) by done. specialize (Hst x Hx'). lia.
  - pose proof (cs_generation _ _ _ _ _ _ _ Hc) as Hgen. pose proof (cs_mapping _ _ _ _ _ _ _ Hc) as Hmg.
    rewrite w64_next in Hmg by lia. split; [by eapply change_stamps|lia].
Qed.

Lemma trace_counters k s0 s :
  fresh s0 -> nsteps sparse_step k s0 s -> Z.of_nat k < 2 ^ 64 ->
  space_wf s /\ stamps s /\ 0 <= sp_generation s <= Z.of_nat k /\
  0 <= sp_mapping_generation s <= Z.of_nat k.
Proof.
  intros Hf. induction k as [|k IH] in s |- *; intros Hk Hlt.
  - inversion Hk; subst. destruct Hf. split; [done|]. split; [|lia].
    intros x Hx. destruct (proj1 (sp_cell_None s x) (fr_cells0 x)). done.
  - apply nsteps_inv_r in Hk as (s1 & Hk & Hs1). destruct (IH s1 Hk ltac:(lia)) as (Hwf & Hst & Hg & Hm).
    pose proof (step_transition s1 s Hwf Hs1) as Ht.
    destruct (transition_counters s1 s Hwf Hst) as (Hst' & Hg' & Hm'); [lia..|done|].
    split; [by eapply transition_wf|]. split; [done|]. lia.
Qed.

Lemma atomic_one_page a n x :
  0 <= n -> atomic_size a n = true -> a <= x < a + n ->
  x - x mod GM_PAGE_SIZE = a - a mod GM_PAGE_SIZE.
Proof.
  intros Hn Hat Hx. destruct (atomic_size_spec a n Hn Hat) as [Hn' Hal].
  rewrite (page_unique (a - a mod GM_PAGE_SIZE) x); [lia|apply page_floor_mod|].
  pose proof (page_mod_bound a). split; [lia|].
  assert (exists c, GM_PAGE_SIZE = c * n) as [c Hc].
  { destruct Hn' as [->|[->|[->|[->| ->]]]]; [exists 16384|exists 8192|exists 4096|exists 2048|exists 1024];
      reflexivity. }
  assert (a mod GM_PAGE_SIZE + n <= GM_PAGE_SIZE); [|lia].
  pose proof (Z.div_mod a n ltac:(lia)). pose proof (Z.div_mod a GM_PAGE_SIZE ltac:(done)).
  rewrite Hal in *. assert (0 < n) by lia.
  set (q := a / n) in *. set (q' := a / GM_PAGE_SIZE) in *. set (o := a mod GM_PAGE_SIZE) in *.
  assert (o = n * (q - c * q')) as Ho by nia.
  assert (q - c * q' < c) by nia. nia.
Qed.

(** What a monitor knows of the space: either the mappings have changed, or the
    page was stored to since, or the bytes are still those that were loaded. *)
Definition watched (mo : GMSparseExclusive) (a n loaded : Z) (bs : list Z) (s : Space) : Prop :=
  ex_mapping_generation mo < sp_mapping_generation s \/
  (sp_mapping_generation s = ex_mapping_generation mo /\
   (forall x, a <= x < a + n -> access_at s x <> None) /\
   loaded <= sp_generation s /\
   (loaded < page_generation s a \/
    (page_generation s a = ex_generation mo /\ sp_reads s a bs))).

Lemma transition_watched mo a n loaded bs s s' :
  space_wf s -> stamps s -> 0 <= sp_generation s -> sp_generation s + 1 < 2 ^ 64 ->
  0 <= sp_mapping_generation s -> sp_mapping_generation s + 1 < 2 ^ 64 ->
  0 <= n -> atomic_size a n = true -> Z.of_nat (length bs) = n ->
  watched mo a n loaded bs s -> transition s s' -> watched mo a n loaded bs s'.
Proof.
  intros Hs Hst Hg Hg' Hm Hm' Hn Hat Hbs Hwatch Htr.
  destruct (transition_counters s s' Hs Hst) as (_ & Hgg & Hmm); [lia..|done|].
  destruct (atomic_size_spec a n Hn Hat) as [Hn' _].
  destruct Hwatch as [Hlt|(Hmo & Hmap & Hld & Hcase)]; [left; lia|].
  destruct Htr as [|s' wa b wn Hwn Hl Hw|s' Hp|s' op ca cn prot maxprot Hc].
  - right. done.
  - right. pose proof (wr_map _ _ _ _ _ _ Hw) as Hsm. pose proof (sm_mapping _ _ Hsm) as Hmg.
    assert (forall x, access_at s' x = access_at s x) as Hacc
      by (intros x; unfold access_at; by rewrite (sm_regions _ _ Hsm)).
    split; [by rewrite Hmg|]. split; [intros x Hx; rewrite Hacc; by apply Hmap|]. split; [lia|].
    pose proof (Hmap a ltac:(lia)) as Hma.
    rewrite (wr_stamp _ _ _ _ _ _ Hw) by done. cbn. rewrite w64_next by lia.
    change (page_generation (sp_bump s) a) with (page_generation s a).
    case_decide as Ht; [left; lia|]. destruct Hcase as [?|[Hpg Hrd]]; [by left|right].
    split; [done|]. intros i Hi. rewrite Hrd by done. f_equal.
    rewrite (wr_bytes _ _ _ _ _ _ Hw) by (apply Hmap; lia).
    rewrite decide_False; [done|]. intros Hin. apply Ht.
    rewrite <- (atomic_one_page a n (a + Z.of_nat i) Hn Hat) by lia.
    pose proof (page_mod_bound (a + Z.of_nat i)). unfold touches. lia.
  - right. pose proof (pr_map _ _ Hp) as Hsm. pose proof (sm_mapping _ _ Hsm) as Hmg.
    assert (forall x, access_at s' x = access_at s x) as Hacc
      by (intros x; unfold access_at; by rewrite (sm_regions _ _ Hsm)).
    split; [by rewrite Hmg|]. split; [intros x Hx; rewrite Hacc; by apply Hmap|].
    split; [by rewrite (pr_generation _ _ Hp)|].
    rewrite (pr_stamp _ _ Hp) by (apply Hmap; lia). destruct Hcase as [?|[Hpg Hrd]]; [by left|right].
    split; [done|]. intros i Hi. rewrite Hrd by done. f_equal. symmetry.
    apply (pr_bytes _ _ Hp), Hmap. lia.
  - left. pose proof (cs_mapping _ _ _ _ _ _ _ Hc) as Hmg. rewrite w64_next in Hmg by lia. lia.
Qed.

Lemma trace_watched mo a n loaded bs j k s0 s s1 :
  fresh s0 -> nsteps sparse_step j s0 s -> nsteps sparse_step k s s1 -> Z.of_nat (j + k) < 2 ^ 64 ->
  0 <= n -> atomic_size a n = true -> Z.of_nat (length bs) = n ->
  watched mo a n loaded bs s -> watched mo a n loaded bs s1.
Proof.
  intros Hf Hj. induction k as [|k IH] in s1 |- *; intros Hk Hlt Hn Hat Hbs Hw.
  - by inversion Hk; subst.
  - apply nsteps_inv_r in Hk as (s2 & Hk & Hs).
    assert (nsteps sparse_step (j + k) s0 s2) as Hjk by (by eapply nsteps_trans).
    destruct (trace_counters (j + k) s0 s2 Hf Hjk ltac:(lia)) as (Hwf & Hst & Hg & Hm).
    pose proof (step_transition s2 s1 Hwf Hs) as Ht.
    apply (transition_watched mo a n loaded bs s2 s1); try done; [lia..|]. apply IH; [done|lia|done..].
Qed.

(** C6: A store-exclusive that succeeds proves that nothing was stored to the bytes
    since the load-exclusive: whatever operations other threads performed in
    between, on any addresses, memory still holds the loaded bytes, and then
    the new ones, provided that fewer than [2^64] operations have happened. *)
Theorem store_exclusive_sound s0 j s k s1 s2 a n b mo0 bs mo d st mo2 :
  fresh s0 -> nsteps sparse_step j s0 s -> nsteps sparse_step k s s1 ->
  Z.of_nat (j + k) < 2 ^ 64 -> 0 <= n ->
  Z.of_nat (length b) = n -> Z.of_nat (length d) = n -> Forall byte_ok d ->
  gm_sparse_load_exclusive (Some s) a (Some b) n (Some mo0) = (GM_OK, Some s, Some bs, Some mo) ->
  gm_sparse_store_exclusive (Some s1) a (Some d) n (Some mo) (Some st) =
    (GM_OK, Some s2, mo2, Some true) ->
  sp_reads s a bs /\ sp_reads s1 a bs /\ sp_stored s1 s2 a d.
Proof.
  intros Hf Hj Hk Hlt Hn Hb Hd Hdb Hload Hstore.
  destruct (trace_counters j s0 s Hf Hj ltac:(lia)) as (Hs & Hst & Hg & Hm).
  unfold gm_sparse_load_exclusive in Hload.
  destruct (atomic_size a n) eqn:Hat; cbn [negb] in Hload; [|done].
  destruct (atomic_size_spec a n Hn Hat) as [Hn' _].
  pose proof (access_locked_read s a (Some b) n Hs Hn ltac:(by intros ? [= <-])) as Hr.
  destruct (access_locked s a (Some b) n false) as [[r s'] b']. destruct Hr as [-> Hr].
  injection Hload as -> -> Hmo. rewrite bool_decide_eq_true_2 in Hmo by done. injection Hmo as <-.
  rewrite decide_True in Hr by done. destruct Hr as [Hgr Hr]. rewrite decide_False in Hr by lia.
  destruct Hr as (? & [= <-] & Hl & Hrd). split; [done|].
  assert (watched (mkExclusive a (page_generation s a) (sp_mapping_generation s) n true) a n
    (sp_generation s) bs s1) as Hwatch.
  { apply (trace_watched _ a n (sp_generation s) bs j k s0 s s1); try done.
    right. cbn. split; [done|]. split; [intros x Hx; by apply (granted_mapped s a n GM_READ)|].
    split; [lia|]. by right. }
  assert (nsteps sparse_step (j + k) s0 s1) as Hjk by (by eapply nsteps_trans).
  destruct (trace_counters (j + k) s0 s1 Hf Hjk Hlt) as (Hs1 & Hst1 & Hg1 & Hm1).
  unfold gm_sparse_store_exclusive in Hstore. rewrite Hat in Hstore. cbn [negb ex_valid ex_address
    ex_size ex_mapping_generation ex_generation andb] in Hstore. rewrite !Z.eqb_refl in Hstore. cbn [andb] in Hstore.
  destruct (_ && _) eqn:Hvalid; [|by rewrite bool_decide_eq_true_2 in Hstore by done].
  bool_props. split.
  - destruct Hwatch as [Hc|(_ & Hmap & _ & [Hc|[_ ?]])]; cbn in *; [lia| |done].
    specialize (Hst a ltac:(apply (granted_mapped s a n GM_READ); [done|lia])). lia.
  - pose proof (access_locked_write s1 a (Some d) n Hs1 Hn ltac:(by intros ? [= <-])) as Hw.
    destruct (access_locked s1 a (Some d) n true) as [[r s3] b3]. cbn in Hstore. destruct Hw as [_ Hw].
    destruct (decide (r = GM_OK)) as [->|Hne]; [|rewrite bool_decide_eq_false_2 in Hstore by done; by injection Hstore].
    rewrite bool_decide_eq_true_2 in Hstore by done. injection Hstore as -> _.
    destruct Hw as [_ Hw]. rewrite decide_False in Hw by lia. destruct Hw as (d' & [= <-] & _ & Hw).
    by apply (written_stored s1 s2 a d n).
Qed.

(** C4: Every space the operations can reach from a fresh one is well formed: its
    regions are sorted, disjoint and within bounds, its page table finds every
    resident page, every resident page is mapped, and no backing page has two
    owners. *)
Theorem sparse_reachable_wf s0 s : fresh s0 -> rtc sparse_step s0 s -> space_wf s.
Proof.
  intros Hf Hr. assert (space_wf s0) as Hw by apply Hf. clear Hf.
  induction Hr as [|s1 s2 s3 Hs _ IH]; [done|].
  apply IH. by eapply transition_wf, step_transition.
Qed.

(** ** Witnesses *)

(** An empty space of eight pages with two backing pages, and the same with two
    read/write pages mapped at its base. *)
Definition example_arena : list (list Z) := replicate 2 zero_bytes.
Definition example_fresh : Space :=
  mkSpace 65536 (65536 + 131072) 0 0 example_arena 0 0 [] (replicate (Z.to_nat 16) empty_page) [].
Definition example_space : Space :=
  default example_fresh (gm_sparse_map (Some example_fresh) 65536 32768 3 7 false).2.

Lemma example_arena_ok :
  Forall (fun bs => length bs = Z.to_nat GM_PAGE_SIZE /\ Forall byte_ok bs) example_arena.
Proof. apply Forall_replicate. split; [apply length_zero_bytes|apply zero_bytes_ok]. Qed.
Lemma example_fresh_ok : fresh example_fresh.
Proof. apply (init_space_fresh 65536 131072 example_arena 16 4); (done || lia || apply example_arena_ok). Qed.
Lemma example_step : sparse_step example_fresh example_space.
Proof.
  apply (st_change _ _ 65536 32768 3 7 false MAP); [lia|]. unfold example_space, gm_sparse_map.
  assert (is_Some (change (Some example_fresh) 65536 32768 3 7 false MAP).2) as [s ->];
    [by eexists|done].
Qed.
Lemma example_space_wf : space_wf example_space.
Proof. eapply transition_wf, step_transition, example_step; apply example_fresh_ok. Qed.
Definition example_store : list Z := [1; 2; 3; 4].
Lemma example_store_ok : Forall byte_ok example_store.
Proof. by repeat constructor. Qed.

Lemma initialize_spec_witness :
  exists s, initialize (Some None) 65536 131072 32768 true example_arena = (GM_OK, Some (Some s)) /\
    fresh s.
Proof.
  pose proof (initialize_spec 65536 131072 32768 true example_arena ltac:(lia) ltac:(lia) ltac:(lia)
    eq_refl example_arena_ok) as H.
  assert ((initialize (Some None) 65536 131072 32768 true example_arena).1 = GM_OK) as E by reflexivity.
  destruct (initialize _ _ _ _ _ _) as [r m]. cbn in E. subst r.
  destruct H as (_ & s & -> & Hf & _). by exists s.
Defined.

Lemma sparse_change_spec_witness :
  exists s, change (Some example_space) 81920 16384 1 7 false PROTECT = (GM_OK, Some s) /\
    sp_cell s 81920 = Some (mkCell 0 1 7 false) /\ sp_cell s 65536 = Some (mkCell 0 3 7 false).
Proof.
  pose proof (sparse_change_spec example_space 81920 16384 1 7 false PROTECT example_space_wf
    ltac:(lia)) as H.
  assert ((change (Some example_space) 81920 16384 1 7 false PROTECT).1 = GM_OK) as E
    by (vm_compute; reflexivity).
  destruct (change _ _ _ _ _ _ _) as [r m]. cbn in E. subst r.
  destruct H as (_ & _ & _ & s & -> & Hc). exists s. split; [done|].
  rewrite !(cs_cells _ _ _ _ _ _ _ Hc). by split; vm_compute.
Defined.

Lemma gm_sparse_write_spec_witness :
  exists s, gm_sparse_write (Some example_space) 81918 (Some example_store) 4 = (GM_OK, Some s) /\
    sp_stored example_space s 81918 example_store.
Proof.
  pose proof (gm_sparse_write_spec example_space 81918 example_store example_space_wf
    example_store_ok) as H. cbv zeta in H. change (Z.of_nat (length example_store)) with 4 in H.
  assert ((gm_sparse_write (Some example_space) 81918 (Some example_store) 4).1 = GM_OK) as E
    by (vm_compute; reflexivity).
  destruct (gm_sparse_write _ _ _ _) as [r m]. cbn in E. subst r.
  destruct H as (_ & s & -> & _ & Hst & _). by exists s.
Defined.

Lemma gm_sparse_read_spec_witness :
  (gm_sparse_read (Some example_space) 65536 (Some example_store) 4).2 = Some [0; 0; 0; 0].
Proof.
  pose proof (gm_sparse_read_spec example_space 65536 example_store example_space_wf) as H.
  cbv zeta in H. change (Z.of_nat (length example_store)) with 4 in H.
  assert ((gm_sparse_read (Some example_space) 65536 (Some example_store) 4).1.1 = GM_OK) as E
    by (vm_compute; reflexivity).
  destruct (gm_sparse_read _ _ _ _) as [[r m] b]. cbn in E. subst r.
  destruct H as (_ & _ & bs & -> & Hl & Hr). change (length example_store) with 4%nat in Hl. cbn. f_equal.
  assert (forall i, (i < 4)%nat -> bs !! i = Some 0) as Hz.
  { intros i Hi. rewrite Hr by lia. do 4 (destruct i as [|i]; [by vm_compute|]). lia. }
  apply list_eq. intros i. destruct (decide (i < 4)%nat).
  - rewrite Hz by done. do 4 (destruct i as [|i]; [done|]). lia.
  - rewrite !lookup_ge_None_2; [done|cbn; lia|cbn in *; lia].
Defined.

Lemma gm_sparse_prepare_write_witness :
  exists s, gm_sparse_prepare (Some example_space) 81918 4 GM_WRITE = (GM_OK, Some s) /\
    (gm_sparse_write (Some s) 81918 (Some example_store) 4).1 = GM_OK.
Proof.
  pose proof (gm_sparse_prepare_write example_space 81918 example_store example_space_wf
    example_store_ok) as H. cbv zeta in H. change (Z.of_nat (length example_store)) with 4 in H.
  assert ((gm_sparse_prepare (Some example_space) 81918 4 GM_WRITE).1 = GM_OK) as E
    by (vm_compute; reflexivity).
  destruct (gm_sparse_prepare _ _ _ _) as [r m]. cbn in E. subst r.
  destruct H as (s & -> & _ & _ & Hw). by exists s.
Defined.

Lemma gm_sparse_find_free_spec_witness :
  gm_sparse_find_free (Some example_space) 16384 true = (GM_OK, Some 98304) /\
  sp_cell example_space 98304 = None.
Proof.
  pose proof (gm_sparse_find_free_spec example_space 16384 example_space_wf ltac:(lia)) as H.
  assert (gm_sparse_find_free (Some example_space) 16384 true = (GM_OK, Some 98304)) as E
    by (vm_compute; reflexivity).
  rewrite E in H. split; [done|]. destruct H as (_ & _ & _ & Hfree & _). apply Hfree. lia.
Defined.

Lemma gm_sparse_compare_exchange_spec_witness :
  exists old s, gm_sparse_compare_exchange (Some example_space) 65536 (Some [0; 0; 0; 0])
      (Some example_store) (Some []) 4 = (GM_OK, Some s, Some old) /\
    sp_reads example_space 65536 old.
Proof.
  pose proof (gm_sparse_compare_exchange_spec example_space 65536 [0; 0; 0; 0] example_store [] 4
    example_space_wf ltac:(lia) eq_refl eq_refl example_store_ok) as H.
  assert ((gm_sparse_compare_exchange (Some example_space) 65536 (Some [0; 0; 0; 0])
      (Some example_store) (Some []) 4).1.1 = GM_OK) as E by (vm_compute; reflexivity).
  destruct (gm_sparse_compare_exchange _ _ _ _ _ _) as [[r m] p]. cbn in E. subst r.
  destruct H as (_ & _ & old & s & -> & _ & Hr & -> & _). by exists old, s.
Defined.

Lemma gm_sparse_atomic_spec_witness :
  exists s, gm_sparse_atomic (Some example_space) 65536 4 GM_ATOMIC_SIGNED_MIN (2 ^ 32 - 1) (Some 7)
      = (GM_OK, Some s, Some 0).
Proof.
  pose proof (gm_sparse_atomic_spec example_space 65536 4 GM_ATOMIC_SIGNED_MIN (2 ^ 32 - 1) 7
    example_space_wf ltac:(lia)) as H.
  assert ((gm_sparse_atomic (Some example_space) 65536 4 GM_ATOMIC_SIGNED_MIN (2 ^ 32 - 1) (Some 7)).1.1
    = GM_OK) as E by (vm_compute; reflexivity).
  assert ((gm_sparse_atomic (Some example_space) 65536 4 GM_ATOMIC_SIGNED_MIN (2 ^ 32 - 1) (Some 7)).2
    = Some 0) as E' by (vm_compute; reflexivity).
  destruct (gm_sparse_atomic _ _ _ _ _ _) as [[r m] p]. cbn in E, E'. subst r p.
  destruct H as (_ & _ & _ & _ & bs & s & _ & _ & _ & -> & _). by exists s.
Defined.

Lemma sparse_reachable_wf_witness : space_wf example_space.
Proof.
  apply (sparse_reachable_wf example_fresh); [apply example_fresh_ok|].
  eapply rtc_l; [apply example_step|apply rtc_refl].
Defined.

(** Another thread stores to the next page between the exclusive load and the
    exclusive store, which still succeeds. *)
Definition example_other : Space :=
  default example_fresh (gm_sparse_write (Some example_space) 81920 (Some example_store) 4).2.
Definition example_monitor : GMSparseExclusive := mkExclusive 65536 0 1 4 true.

Lemma example_other_step : sparse_step example_space example_other.
Proof.
  apply (st_access _ _ 81920 (Some example_store) 4 true); [lia|..].
  { intros ? [= <-]. split; [done|apply example_store_ok]. }
  unfold example_other, gm_sparse_write.
  assert (is_Some (access_memory (Some example_space) 81920 (Some example_store) 4 true).1.2)
    as [s E] by (unfold access_memory; destruct (access_locked _ _ _ _ _) as [[r s'] b']; by eexists).
  by rewrite E.
Qed.

Lemma store_exclusive_sound_witness :
  exists s2 mo2, gm_sparse_store_exclusive (Some example_other) 65536 (Some example_store) 4
      (Some example_monitor) (Some false) = (GM_OK, Some s2, mo2, Some true) /\
    sp_reads example_other 65536 [0; 0; 0; 0] /\ sp_stored example_other s2 65536 example_store.
Proof.
  assert (gm_sparse_load_exclusive (Some example_space) 65536 (Some [0; 0; 0; 0]) 4
      (Some example_monitor) = (GM_OK, Some example_space, Some [0; 0; 0; 0], Some example_monitor))
    as Hload by (vm_compute; reflexivity).
  set (out := gm_sparse_store_exclusive (Some example_other) 65536 (Some example_store) 4
      (Some example_monitor) (Some false)).
  assert (out.1.1.1 = GM_OK /\ is_Some out.1.1.2 /\ out.2 = Some true) as (E1 & E2 & E3)
    by (vm_compute; split_and!; [done|by eexists|done]).
  destruct out as [[[r m] mo2] st] eqn:E. cbn in E1, E2, E3. destruct E2 as [s2 ->]. subst r st.
  exists s2, mo2. split; [done|].
  assert (nsteps sparse_step 1 example_fresh example_space) as Hj
    by (eapply nsteps_l; [apply example_step|constructor]).
  assert (nsteps sparse_step 1 example_space example_other) as Hk
    by (eapply nsteps_l; [apply example_other_step|constructor]).
  destruct (store_exclusive_sound example_fresh 1 example_space 1 example_other s2 65536 4
    [0; 0; 0; 0] example_monitor [0; 0; 0; 0] example_monitor example_store false mo2
    example_fresh_ok Hj Hk ltac:(lia) ltac:(lia) eq_refl eq_refl example_store_ok Hload E)
    as (_ & Hr & Hst). by split.
Defined.
