(* ===== verification/SparseInterface.v ===== *)
(** * SparseInterface: what the software address space promises its clients

    The instruction emulation and the system-call layer use a [GMSparseMemory]
    through these operations and rely on these laws only. GuestSparseMemory.v
    implements them: the instances at the end of this file prove it. *)
From S2P Require Import Prelude GuestMemory SparseRegions SparseTable GuestSparseMemory.

(** The operations, on a handle of type [M] and with buffers that are there:
    the results are what the C returns and stores through its pointers. *)
Class SparseMemory (M : Type) := {
  mem_read : M -> Z -> list Z -> Z -> GMResult * M * list Z;
  mem_write : M -> Z -> list Z -> Z -> GMResult * M;
  mem_compare_exchange : M -> Z -> list Z -> list Z -> list Z -> Z -> GMResult * M * list Z;
  mem_atomic : M -> Z -> Z -> GMSparseAtomic -> Z -> Z -> GMResult * M * Z;
  mem_load_exclusive : M -> Z -> list Z -> Z -> GMSparseExclusive ->
    GMResult * M * list Z * GMSparseExclusive;
  mem_store_exclusive : M -> Z -> list Z -> Z -> GMSparseExclusive -> bool ->
    GMResult * M * GMSparseExclusive * bool
}.

(** [bs] are the bytes the guest sees at [a]. *)
Definition view_reads (view : Z -> option Cell) (a : Z) (bs : list Z) : Prop :=
  forall i, (i < length bs)%nat -> bs !! i = c_byte <$> view (a + Z.of_nat i).
(** [view'] is [view] with [bs] stored at [a]. *)
Definition view_stored (view view' : Z -> option Cell) (a : Z) (bs : list Z) : Prop :=
  forall x, view' x = if decide (a <= x < a + Z.of_nat (length bs))
    then cell_with_byte (default 0 (bs !! Z.to_nat (x - a))) <$> view x else view x.
Definition view_mapped (view : Z -> option Cell) (a n : Z) : Prop :=
  forall x, a <= x < a + n -> view x <> None.

(** The laws: an operation that fails leaves the handle and the buffers as they
    were; a successful one keeps the handle's invariant and has its effect on
    what the guest sees. *)
Class SparseLaws (M : Type) `{SparseMemory M} := {
  mem_ok : M -> Prop;
  mem_view : M -> Z -> option Cell;
  law_byte m x c : mem_ok m -> mem_view m x = Some c -> byte_ok (c_byte c);
  law_read m a b n :
    mem_ok m -> Z.of_nat (length b) = n ->
    let '(r, m', b') := mem_read m a b n in
    m' = m /\
    if decide (r = GM_OK)
    then length b' = length b /\ view_reads (mem_view m) a b' else b' = b;
  law_write m a b n :
    mem_ok m -> Z.of_nat (length b) = n -> Forall byte_ok b ->
    let '(r, m') := mem_write m a b n in
    if decide (r = GM_OK)
    then mem_ok m' /\ view_stored (mem_view m) (mem_view m') a b /\ view_mapped (mem_view m) a n
    else m' = m;
  law_compare_exchange m a e d p n :
    mem_ok m -> Z.of_nat (length e) = n -> Z.of_nat (length d) = n -> Forall byte_ok d ->
    let '(r, m', old) := mem_compare_exchange m a e d p n in
    if decide (r = GM_OK)
    then mem_ok m' /\ Z.of_nat (length old) = n /\ view_reads (mem_view m) a old /\
         (if decide (old = e) then view_stored (mem_view m) (mem_view m') a d else m' = m)
    else m' = m /\ old = p;
  law_atomic m a n operation operand p :
    mem_ok m -> 0 <= n ->
    let '(r, m', old) := mem_atomic m a n operation operand p in
    if decide (r = GM_OK)
    then mem_ok m' /\ exists bs, Z.of_nat (length bs) = n /\ view_reads (mem_view m) a bs /\
         old = le_value bs /\
         view_stored (mem_view m) (mem_view m') a (le_bytes (Z.to_nat n)
           (atomic_result (8 * n) operation old (operand mod 2 ^ (8 * n))))
    else m' = m /\ old = p;
  law_load_exclusive m a b n monitor :
    mem_ok m -> Z.of_nat (length b) = n ->
    let '(r, m', b', monitor') := mem_load_exclusive m a b n monitor in
    m' = m /\
    if decide (r = GM_OK)
    then length b' = length b /\ view_reads (mem_view m) a b'
    else b' = b /\ monitor' = monitor;
  law_store_exclusive m a b n monitor stored :
    mem_ok m -> Z.of_nat (length b) = n -> Forall byte_ok b ->
    let '(r, m', monitor', stored') := mem_store_exclusive m a b n monitor stored in
    if decide (r = GM_OK)
    then mem_ok m' /\
         (if stored' then view_stored (mem_view m) (mem_view m') a b else m' = m)
    else m' = m /\ monitor' = monitor /\ stored' = stored
}.

(** ** The software address space implements the interface *)

#[export] Instance space_memory : SparseMemory (option Space) := {
  mem_read m a b n := let '(r, m, b') := gm_sparse_read m a (Some b) n in (r, m, default b b');
  mem_write m a b n := gm_sparse_write m a (Some b) n;
  mem_compare_exchange m a e d p n :=
    let '(r, m, p') := gm_sparse_compare_exchange m a (Some e) (Some d) (Some p) n in (r, m, default p p');
  mem_atomic m a n operation operand p :=
    let '(r, m, p') := gm_sparse_atomic m a n operation operand (Some p) in (r, m, default p p');
  mem_load_exclusive m a b n monitor :=
    let '(r, m, b', monitor') := gm_sparse_load_exclusive m a (Some b) n (Some monitor) in
    (r, m, default b b', default monitor monitor');
  mem_store_exclusive m a b n monitor stored :=
    let '(r, m, monitor', stored') := gm_sparse_store_exclusive m a (Some b) n (Some monitor) (Some stored) in
    (r, m, default monitor monitor', default stored stored')
}.

Definition space_ok (m : option Space) : Prop := forall s, m = Some s -> space_wf s.
Definition space_view (m : option Space) (x : Z) : option Cell := m ≫= fun s => sp_cell s x.

Lemma granted_view s a n permission x :
  granted s a n permission -> a <= x < a + n -> space_view (Some s) x <> None.
Proof.
  intros Hg Hx. cbn. unfold sp_cell. pose proof (granted_mapped s a n permission x Hg Hx).
  by destruct (access_at s x).
Qed.
Lemma sp_reads_view s a n permission bs :
  granted s a n permission -> Z.of_nat (length bs) = n -> sp_reads s a bs ->
  view_reads (space_view (Some s)) a bs.
Proof.
  intros Hg Hn Hb i Hi. rewrite Hb by done. cbn. unfold sp_cell.
  pose proof (granted_mapped s a n permission (a + Z.of_nat i) Hg ltac:(lia)).
  by destruct (access_at s _).
Qed.

Lemma space_read m a b n :
  space_ok m -> Z.of_nat (length b) = n ->
  let '(r, m', b') := mem_read m a b n in
  m' = m /\ if decide (r = GM_OK)
    then length b' = length b /\ view_reads (space_view m) a b' else b' = b.
Proof.
  intros Hm <-. cbn [mem_read space_memory]. destruct m as [s|]; [|done]. specialize (Hm s eq_refl).
  pose proof (gm_sparse_read_correct s a b Hm) as H. cbv zeta in H.
  destruct (gm_sparse_read _ _ _ _) as [[r m'] b']. destruct H as (-> & Hr & H). split; [done|].
  destruct (decide (r = GM_OK)).
  - destruct H as (bs & -> & Hl & Hb). cbn. split; [done|].
    apply (sp_reads_view s a (Z.of_nat (length b)) GM_READ); [by apply Hr|lia|done].
  - by destruct H as [-> _].
Qed.
Lemma space_write m a b n :
  space_ok m -> Z.of_nat (length b) = n -> Forall byte_ok b ->
  let '(r, m') := mem_write m a b n in
  if decide (r = GM_OK)
  then space_ok m' /\ view_stored (space_view m) (space_view m') a b /\ view_mapped (space_view m) a n
  else m' = m.
Proof.
  intros Hm <- Hb. cbn [mem_write space_memory]. destruct m as [s|]; [|done]. specialize (Hm s eq_refl).
  pose proof (gm_sparse_write_correct s a b Hm Hb) as H. cbv zeta in H.
  destruct (gm_sparse_write _ _ _ _) as [r m']. destruct H as [Hr H]. destruct (decide (r = GM_OK)).
  - destruct H as (s' & -> & Hs' & Hst & _). split; [by intros ? [= <-]|]. split; [exact Hst|].
    intros x Hx. by apply (granted_view s a (Z.of_nat (length b)) GM_WRITE); [apply Hr|].
  - by destruct H as [-> _].
Qed.
Lemma space_compare_exchange m a e d p n :
  space_ok m -> Z.of_nat (length e) = n -> Z.of_nat (length d) = n -> Forall byte_ok d ->
  let '(r, m', old) := mem_compare_exchange m a e d p n in
  if decide (r = GM_OK)
  then space_ok m' /\ Z.of_nat (length old) = n /\ view_reads (space_view m) a old /\
       (if decide (old = e) then view_stored (space_view m) (space_view m') a d else m' = m)
  else m' = m /\ old = p.
Proof.
  intros Hm He Hd Hb. cbn [mem_compare_exchange space_memory]. destruct m as [s|]; [|done].
  specialize (Hm s eq_refl).
  pose proof (gm_sparse_compare_exchange_correct s a e d p n Hm ltac:(lia) He Hd Hb) as H.
  destruct (gm_sparse_compare_exchange _ _ _ _ _ _) as [[r m'] p']. destruct (decide (r = GM_OK)).
  - destruct H as (_ & Hg & old & s' & -> & Hl & Hr & -> & Hs' & Heq & Hne). cbn [default from_option id].
    split; [by intros ? [= <-]|]. split; [done|].
    split; [by apply (sp_reads_view s a n (Z.lor GM_READ GM_WRITE))|].
    destruct (decide (old = e)) as [Eq|]; [exact (Heq Eq)|]. by rewrite Hne.
  - by destruct H as [-> ->].
Qed.
Lemma space_atomic m a n operation operand p :
  space_ok m -> 0 <= n ->
  let '(r, m', old) := mem_atomic m a n operation operand p in
  if decide (r = GM_OK)
  then space_ok m' /\ exists bs, Z.of_nat (length bs) = n /\ view_reads (space_view m) a bs /\
       old = le_value bs /\
       view_stored (space_view m) (space_view m') a (le_bytes (Z.to_nat n)
         (atomic_result (8 * n) operation old (operand mod 2 ^ (8 * n))))
  else m' = m /\ old = p.
Proof.
  intros Hm Hn. cbn [mem_atomic space_memory]. destruct m as [s|]; [|done]. specialize (Hm s eq_refl).
  pose proof (gm_sparse_atomic_correct s a n operation operand p Hm Hn) as H.
  destruct (gm_sparse_atomic _ _ _ _ _ _) as [[r m'] p']. destruct (decide (r = GM_OK)).
  - destruct H as (_ & _ & Hg & _ & bs & s' & Hl & Hr & -> & -> & Hs' & Hst). cbn [default from_option id].
    split; [by intros ? [= <-]|]. exists bs. split; [lia|].
    split; [apply (sp_reads_view s a n GM_READ); [done|lia|done]|]. by split.
  - by destruct H as [-> ->].
Qed.
Lemma space_load_exclusive m a b n monitor :
  space_ok m -> Z.of_nat (length b) = n ->
  let '(r, m', b', monitor') := mem_load_exclusive m a b n monitor in
  m' = m /\
  if decide (r = GM_OK)
  then length b' = length b /\ view_reads (space_view m) a b'
  else b' = b /\ monitor' = monitor.
Proof.
  intros Hm Hb. cbn [mem_load_exclusive space_memory]. destruct m as [s|]; [|done]. specialize (Hm s eq_refl).
  unfold gm_sparse_load_exclusive. destruct (atomic_size a n) eqn:Hat; cbn [negb]; [|done].
  pose proof (access_locked_read s a (Some b) n Hm ltac:(lia) ltac:(by intros ? [= <-])) as H.
  destruct (access_locked _ _ _ _ _) as [[r s'] b']. destruct H as [-> H]. split; [done|].
  destruct (decide (r = GM_OK)).
  - destruct H as [Hg H]. destruct (atomic_size_spec a n ltac:(lia) Hat) as [Hn' _].
    rewrite decide_False in H by lia. destruct H as (bs & -> & Hl & Hr). cbn. split; [lia|].
    by apply (sp_reads_view s a n GM_READ).
  - destruct H as [-> _]. by rewrite bool_decide_eq_false_2.
Qed.
Lemma space_store_exclusive m a b n monitor stored :
  space_ok m -> Z.of_nat (length b) = n -> Forall byte_ok b ->
  let '(r, m', monitor', stored') := mem_store_exclusive m a b n monitor stored in
  if decide (r = GM_OK)
  then space_ok m' /\ (if stored' then view_stored (space_view m) (space_view m') a b else m' = m)
  else m' = m /\ monitor' = monitor /\ stored' = stored.
Proof.
  intros Hm Hb Hbok. cbn [mem_store_exclusive space_memory]. destruct m as [s|]; [|done]. specialize (Hm s eq_refl).
  unfold gm_sparse_store_exclusive. destruct (atomic_size a n) eqn:Hat; cbn [negb]; [|done].
  destruct (atomic_size_spec a n ltac:(lia) Hat) as [Hn' _].
  destruct (_ && (_ =? page_generation s a)).
  - pose proof (access_locked_write s a (Some b) n Hm ltac:(lia) ltac:(by intros ? [= <-])) as H.
    destruct (access_locked _ _ _ _ _) as [[r s'] b']. destruct H as [_ H]. cbn [fst].
    case_bool_decide as Hr; cbn; [rewrite decide_True by done|rewrite decide_False by done].
    + rewrite decide_True in H by done. destruct H as [_ H]. rewrite decide_False in H by lia.
      destruct H as (b0 & [= <-] & _ & Hw). split; [intros ? [= <-]; apply Hw|].
      by apply (written_stored s s' a b n).
    + rewrite decide_False in H by done. by destruct H as [-> _].
  - rewrite bool_decide_eq_true_2 by done. cbn. rewrite decide_True by done. split; [|done]. by intros ? [= <-].
Qed.

Lemma space_byte m x c : space_ok m -> space_view m x = Some c -> byte_ok (c_byte c).
Proof.
  intros Hm. destruct m as [s|]; [|done]. specialize (Hm s eq_refl). cbn. unfold sp_cell.
  intros (pm & _ & ->)%fmap_Some. by apply byte_at_ok.
Qed.

#[export] Instance space_laws : SparseLaws (option Space) := {
  mem_ok := space_ok;
  mem_view := space_view;
  law_byte := space_byte;
  law_read := space_read;
  law_write := space_write;
  law_compare_exchange := space_compare_exchange;
  law_atomic := space_atomic;
  law_load_exclusive := space_load_exclusive;
  law_store_exclusive := space_store_exclusive
}.

(** ** Consequences for any implementation *)

Section laws.
Context `{SparseLaws M}.

Lemma view_reads_ok m a bs : mem_ok m -> view_reads (mem_view m) a bs -> Forall byte_ok bs.
Proof.
  intros Hm Hb. apply Forall_lookup_2. intros i v Hv. pose proof (lookup_lt_Some _ _ _ Hv) as Hi.
  rewrite (Hb i Hi) in Hv. apply fmap_Some in Hv as (c & Hc & ->). by eapply law_byte.
Qed.
Lemma view_reads_functional (view : Z -> option Cell) a bs bs' :
  view_reads view a bs -> view_reads view a bs' -> length bs = length bs' -> bs = bs'.
Proof.
  intros Hb Hb' Hl. apply list_eq. intros i.
  destruct (decide (i < length bs)%nat); [by rewrite Hb, Hb' by lia|].
  by rewrite !lookup_ge_None_2 by lia.
Qed.
Lemma view_stored_reads view view' a bs :
  view_mapped view a (Z.of_nat (length bs)) -> view_stored view view' a bs -> view_reads view' a bs.
Proof.
  intros Hmap Hst i Hi. rewrite Hst, decide_True by lia.
  replace (Z.to_nat (a + Z.of_nat i - a)) with i by lia.
  destruct (view (a + Z.of_nat i)) eqn:E; [|destruct (Hmap (a + Z.of_nat i) ltac:(lia) E)].
  destruct (lookup_lt_is_Some_2 bs i Hi) as [v Hv]. by rewrite Hv.
Qed.
End laws.

(** ** System-call buffers

    A buffer is prepared before a system call consumes or produces data: after
    that, storing into it cannot fail. *)
Class BufferMemory (M : Type) := { mem_prepare : M -> Z -> Z -> Z -> GMResult * M }.
Definition view_allows (view : Z -> option Cell) (a n permission : Z) : Prop :=
  forall x, a <= x < a + n -> exists c, view x = Some c /\ has_all (c_prot c) permission = true.
Class BufferLaws (M : Type) `{SparseLaws M} `{!BufferMemory M} := {
  mem_ready : M -> Z -> Z -> Prop;
  law_pages m x y c :
    mem_ok m -> x - x mod GM_PAGE_SIZE = y - y mod GM_PAGE_SIZE -> mem_view m x = Some c ->
    exists c', mem_view m y = Some c' /\ c_prot c' = c_prot c;
  law_allowed m a b n :
    mem_ok m -> Z.of_nat (length b) = n -> 0 < n ->
    (mem_read m a b n).1.1 = GM_OK <-> view_allows (mem_view m) a n GM_READ;
  law_prepare m a n permissions :
    mem_ok m -> 0 <= n -> none_outside permissions (Z.lor GM_READ GM_WRITE) = true ->
    let '(r, m') := mem_prepare m a n permissions in
    if decide (r = GM_OK)
    then mem_ok m' /\ (forall x, mem_view m' x = mem_view m x) /\
         view_allows (mem_view m) a n permissions /\
         (Z.land permissions GM_WRITE <> 0 -> mem_ready m' a n)
    else m' = m /\ (0 < n -> r = GM_NOMEM \/ ~ view_allows (mem_view m) a n permissions);
  law_ready m a n b bs :
    mem_ok m -> mem_ready m a n -> a <= b -> b + Z.of_nat (length bs) <= a + n -> Forall byte_ok bs ->
    (mem_write m b bs (Z.of_nat (length bs))).1 = GM_OK /\
    mem_ready (mem_write m b bs (Z.of_nat (length bs))).2 a n
}.

#[export] Instance space_buffers : BufferMemory (option Space) := { mem_prepare := gm_sparse_prepare }.

Definition resident (s : Space) (a n : Z) : Prop :=
  forall x, a <= x < a + n -> page_at (sp_pages s) (x - x mod GM_PAGE_SIZE) <> None.
Definition space_ready (m : option Space) (a n : Z) : Prop :=
  exists s, m = Some s /\ granted s a n GM_WRITE /\ resident s a n.

Lemma granted_allows s a n permission :
  space_wf s -> 0 < n -> granted s a n permission <-> view_allows (space_view (Some s)) a n permission.
Proof.
  intros Hs Hn. split.
  - intros [_ Hall] x Hx. destruct (Hall x Hx) as (p & m & Hp & Hok). cbn. unfold sp_cell, access_at. rewrite Hp.
    by eexists.
  - intros Hall. assert (Hin : forall x, a <= x < a + n -> sp_base s <= x < sp_end s).
    { intros x Hx. destruct (Hall x Hx) as (c & Hc & _). apply (mapped_bounds s x Hs). cbn in Hc.
      intros Hno%sp_cell_None. congruence. }
    pose proof (Hin a ltac:(lia)). pose proof (Hin (a + n - 1) ltac:(lia)). split.
    + unfold contains. lia.
    + intros x Hx. destruct (Hall x Hx) as (c & Hc & Hok). cbn in Hc. unfold sp_cell in Hc.
      apply fmap_Some in Hc as ([p m] & Hp & ->). by exists p, m.
Qed.

(** The pages of an access are those of its addresses. *)
Lemma pages_from_elem fuel page stop q :
  page mod GM_PAGE_SIZE = 0 ->
  q ∈ pages_from fuel page stop <->
  q mod GM_PAGE_SIZE = 0 /\ page <= q < stop /\ q < page + Z.of_nat fuel * GM_PAGE_SIZE.
Proof.
  revert page. induction fuel as [|fuel IH]; intros page Hpage; cbn [pages_from].
  { rewrite elem_of_nil. lia. }
  assert (Hnext : (page + GM_PAGE_SIZE) mod GM_PAGE_SIZE = 0).
  { rewrite Zplus_mod, Hpage, Z_mod_same_full. done. }
  destruct (Z.ltb_spec page stop) as [Hlt|Hge]; [|rewrite elem_of_nil; lia].
  rewrite elem_of_cons, IH by done. rewrite Nat2Z.inj_succ, Z.mul_succ_l. split.
  - intros [->|(Hq & Hr & Hf)]; [|unfold GM_PAGE_SIZE in *; split_and!; lia].
    split_and!; try done; try lia. assert (0 <= Z.of_nat fuel * GM_PAGE_SIZE) by (apply Z.mul_nonneg_nonneg; [lia|done]).
    unfold GM_PAGE_SIZE in *. lia.
  - intros (Hq & Hr & Hf). destruct (Z.eq_dec q page) as [->|]; [by left|right].
    assert (page + GM_PAGE_SIZE <= q) by (apply align_step; [done|done|done|lia]). split_and!; [done|lia|lia|lia].
Qed.
Lemma access_pages_elem a n x : a <= x < a + n -> x - x mod GM_PAGE_SIZE ∈ access_pages a n.
Proof.
  intros Hx. unfold access_pages. apply pages_from_elem; [apply page_floor_mod|].
  pose proof (page_mod_bound x). pose proof (page_mod_bound a).
  pose proof (Z.div_mod n GM_PAGE_SIZE ltac:(done)). pose proof (Z.mod_pos_bound n GM_PAGE_SIZE ltac:(done)).
  pose proof (Z.div_pos n GM_PAGE_SIZE ltac:(lia) ltac:(done)).
  split_and!; [apply page_floor_mod| |lia|].
  - apply Z.le_ngt. intros Hlt. pose proof (align_step GM_PAGE_SIZE _ _ ltac:(done) (page_floor_mod x) (page_floor_mod a) Hlt). lia.
  - unfold access_fuel. rewrite Z2Nat.id by lia. unfold GM_PAGE_SIZE in *. lia.
Qed.
Lemma access_pages_floor a n q :
  0 < n -> q ∈ access_pages a n -> exists x, a <= x < a + n /\ q = x - x mod GM_PAGE_SIZE.
Proof.
  unfold access_pages. rewrite pages_from_elem by apply page_floor_mod. intros Hn (Hq & Hr & _).
  pose proof (page_mod_bound a). exists (Z.max q a). split; [lia|].
  assert (a < q + GM_PAGE_SIZE).
  { apply Z.lt_nge. intros Hge. destruct (Z.eq_dec q (a - a mod GM_PAGE_SIZE)); [lia|].
    pose proof (align_step GM_PAGE_SIZE (a - a mod GM_PAGE_SIZE) q ltac:(done) (page_floor_mod a) Hq ltac:(lia)). lia. }
  rewrite (page_unique q) by (done || lia). lia.
Qed.
Lemma resident_missing s a n permission :
  space_wf s -> granted s a n permission -> 0 < n -> resident s a n <-> missing_pages s a n = [].
Proof.
  intros Hs Hg Hn. assert (Hkey : forall x, a <= x < a + n -> key (x - x mod GM_PAGE_SIZE)).
  { intros x Hx. apply (mapped_page s x Hs). by apply (granted_mapped s a n permission). }
  unfold missing_pages. split.
  - intros Hres. apply filter_none. intros q (x & Hx & ->)%access_pages_floor; [|done].
    rewrite slot_none by auto. by apply Hres.
  - intros Hnone x Hx Hp. rewrite <- slot_none in Hp by auto.
    assert (x - x mod GM_PAGE_SIZE ∈ ([] : list Z)) as Hin; [|by apply elem_of_nil in Hin].
    rewrite <- Hnone. apply list_elem_of_filter. split; [done|]. by apply access_pages_elem.
Qed.
Lemma has_all_write permissions x :
  Z.land permissions GM_WRITE <> 0 -> has_all x permissions = true -> has_all x GM_WRITE = true.
Proof.
  unfold has_all. intros Hw Hx%Z.eqb_eq. apply Z.eqb_eq.
  assert (Hbit : Z.testbit permissions 1 = true).
  { destruct (Z.testbit permissions 1) eqn:E; [done|]. destruct Hw. apply Z.bits_inj'. intros i Hi.
    rewrite Z.land_spec, Z.bits_0. destruct (Z.eq_dec i 1) as [->|Hne]; [by rewrite E|].
    change GM_WRITE with (2 ^ 1). rewrite Z.pow2_bits_false by lia. by rewrite andb_false_r. }
  apply Z.bits_inj'. intros i Hi. rewrite Z.land_spec. change GM_WRITE with (2 ^ 1).
  destruct (Z.eq_dec i 1) as [->|Hne]; [|rewrite Z.pow2_bits_false by lia; by rewrite andb_false_r].
  rewrite Z.pow2_bits_true by lia. rewrite andb_true_r.
  apply (f_equal (fun z => Z.testbit z 1)) in Hx. rewrite Z.land_spec, Hbit, andb_true_r in Hx. done.
Qed.

Lemma granted_part s a n permission b k :
  granted s a n permission -> a <= b -> 0 <= k -> b + k <= a + n -> granted s b k permission.
Proof. intros [Hc Hall] Hb Hk Hend. split; [unfold contains in *; lia|]. intros x Hx. apply Hall. lia. Qed.
Lemma space_pages m x y c :
  space_ok m -> x - x mod GM_PAGE_SIZE = y - y mod GM_PAGE_SIZE -> space_view m x = Some c ->
  exists c', space_view m y = Some c' /\ c_prot c' = c_prot c.
Proof.
  intros Hm Hxy. destruct m as [s|]; [|done]. specialize (Hm s eq_refl). cbn. unfold sp_cell, access_at.
  intros ([p pm] & Hp & ->)%fmap_Some. apply perm_at_Some in Hp as (r & Hr & Hin & Hrp).
  pose proof (proj1 (Forall_forall _ _) (regions_wf_ok _ (sw_regions s Hm)) r Hr) as Hok.
  rewrite (perm_at_region _ r); [|apply Hm|done|].
  { rewrite <- Hrp. by eexists. }
  pose proof (region_start r Hok). pose proof (region_end r Hok). pose proof (page_mod_bound x). pose proof (page_mod_bound y).
  unfold GM_PAGE_SIZE in *. pose proof (Z.div_mod x 16384). pose proof (Z.div_mod y 16384). pose proof (Z.div_mod (r_start r) 16384).
  pose proof (Z.div_mod (r_end r) 16384). lia.
Qed.
Lemma space_allowed m a b n :
  space_ok m -> Z.of_nat (length b) = n -> 0 < n ->
  (mem_read m a b n).1.1 = GM_OK <-> view_allows (space_view m) a n GM_READ.
Proof.
  intros Hm <- Hn. destruct m as [s|].
  2: { cbn. split; [done|]. intros Hall. by destruct (Hall a ltac:(lia)) as (c & ? & _). }
  specialize (Hm s eq_refl). rewrite <- granted_allows by done. cbn [mem_read space_memory].
  pose proof (gm_sparse_read_correct s a b Hm) as H. cbv zeta in H.
  destruct (gm_sparse_read _ _ _ _) as [[r m'] b']. apply H.
Qed.
Lemma space_prepare m a n permissions :
  space_ok m -> 0 <= n -> none_outside permissions (Z.lor GM_READ GM_WRITE) = true ->
  let '(r, m') := mem_prepare m a n permissions in
  if decide (r = GM_OK)
  then space_ok m' /\ (forall x, space_view m' x = space_view m x) /\
       view_allows (space_view m) a n permissions /\
       (Z.land permissions GM_WRITE <> 0 -> space_ready m' a n)
  else m' = m /\ (0 < n -> r = GM_NOMEM \/ ~ view_allows (space_view m) a n permissions).
Proof.
  intros Hm Hn Hper. cbn [mem_prepare space_buffers]. destruct m as [s|].
  2: { cbn. split; [done|]. intros Hpos. right. intros Hall. by destruct (Hall a ltac:(lia)) as (c & ? & _). }
  specialize (Hm s eq_refl). pose proof (prepare_correct s a n permissions Hm Hn) as H.
  destruct (gm_sparse_prepare _ _ _ _) as [r m']. destruct (decide (r = GM_OK)) as [|Hne].
  - destruct H as (Hg & s' & -> & Hpre & Hmiss). split; [by intros ? [= <-]; apply Hpre|].
    split; [intros x; by apply prepared_cells|]. split.
    { destruct (Z.eq_dec n 0) as [->|]; [intros x Hx; lia|]. by apply granted_allows; [|lia|]. }
    intros Hw. exists s'. assert (Hg' : granted s' a n GM_WRITE).
    { pose proof (pr_map _ _ Hpre) as Hsm. apply (granted_weaken s s' a n permissions GM_WRITE); [apply Hsm..| |done].
      intros x. by apply has_all_write. }
    split; [done|]. split; [done|]. destruct (Z.eq_dec n 0) as [->|Hnz]; [intros x Hx; lia|].
    apply (resident_missing s' a n GM_WRITE); [apply Hpre|done|lia|by apply Hmiss].
  - destruct H as [-> H]. split; [done|]. intros Hpos. rewrite <- granted_allows by done.
    destruct H as [Hr|[[_ Hper']|[-> _]]]; [right; by eapply refusal_not_granted|congruence|by left].
Qed.
Lemma space_ready_write m a n b bs :
  space_ok m -> space_ready m a n -> a <= b -> b + Z.of_nat (length bs) <= a + n -> Forall byte_ok bs ->
  (mem_write m b bs (Z.of_nat (length bs))).1 = GM_OK /\
  space_ready (mem_write m b bs (Z.of_nat (length bs))).2 a n.
Proof.
  intros Hm (s & -> & Hg & Hres) Hb Hend Hok. specialize (Hm s eq_refl). cbn [mem_write space_memory].
  set (k := Z.of_nat (length bs)) in *. unfold gm_sparse_write, access_memory.
  pose proof (access_locked_write s b (Some bs) k Hm ltac:(lia) ltac:(by intros ? [= <-])) as H.
  destruct (access_locked _ _ _ _ _) as [[r s'] b']. cbn [fst snd]. destruct H as [_ H].
  pose proof (granted_part s a n GM_WRITE b k Hg Hb ltac:(lia) Hend) as Hgk.
  destruct (decide (r = GM_OK)) as [->|Hne].
  - split; [done|]. destruct H as [_ H]. exists s'. split; [done|]. destruct (decide (k = 0)); [by subst s'|].
    destruct H as (b0 & [= <-] & _ & Hw). split.
    + pose proof (wr_map _ _ _ _ _ _ Hw) as Hsm. by apply (granted_weaken s s' a n GM_WRITE GM_WRITE); [apply Hsm..|done|].
    + intros x Hx. apply (wr_resident _ _ _ _ _ _ Hw); [|by apply Hres].
      apply (mapped_page s x Hm). by apply (granted_mapped s a n GM_WRITE).
  - exfalso. destruct H as [_ [Hr|[(_ & _ & ?)|(_ & Hn0 & _ & Hroom)]]];
      [by destruct (refusal_not_granted _ _ _ _ _ Hr)|done|].
    rewrite (proj1 (resident_missing s b k GM_WRITE Hm Hgk ltac:(lia))) in Hroom.
    + pose proof (room_nonneg s Hm). cbn in Hroom. lia.
    + intros x Hx. apply Hres. lia.
Qed.

#[export] Instance space_buffer_laws : BufferLaws (option Space) := {
  mem_ready := space_ready;
  law_pages := space_pages;
  law_allowed := space_allowed;
  law_prepare := space_prepare;
  law_ready := space_ready_write
}.

(** ** Consequences for any implementation *)

Section buffer_laws.
Context `{BufferLaws M}.

Lemma view_stored_allows (view view' : Z -> option Cell) a bs b n permission :
  view_stored view view' a bs -> view_allows view b n permission -> view_allows view' b n permission.
Proof.
  intros Hst Hall x Hx. destruct (Hall x Hx) as (c & Hc & Hp). rewrite Hst, Hc. case_decide; cbn; by eexists.
Qed.
Lemma view_same_allows (view view' : Z -> option Cell) b n permission :
  (forall x, view' x = view x) -> view_allows view b n permission -> view_allows view' b n permission.
Proof. intros Hsame Hall x Hx. rewrite Hsame. by apply Hall. Qed.
Lemma view_allows_part (view : Z -> option Cell) a n permission b k :
  view_allows view a n permission -> a <= b -> b + k <= a + n -> view_allows view b k permission.
Proof. intros Hall Hb Hk x Hx. apply Hall. lia. Qed.

(** A read of allowed bytes gives them and changes nothing. *)
Lemma read_allowed m a b n :
  mem_ok m -> Z.of_nat (length b) = n -> 0 < n -> view_allows (mem_view m) a n GM_READ ->
  exists bs, mem_read m a b n = (GM_OK, m, bs) /\ Z.of_nat (length bs) = n /\ view_reads (mem_view m) a bs /\ Forall byte_ok bs.
Proof.
  intros Hm Hn Hpos Hall. pose proof (proj2 (law_allowed m a b n Hm Hn Hpos) Hall) as Hr.
  pose proof (law_read m a b n Hm Hn) as H'. destruct (mem_read m a b n) as [[r m'] bs]. cbn [fst] in Hr. subst r.
  rewrite decide_True in H' by done. destruct H' as (-> & Hl & Hv). exists bs. split_and!; [done|lia|done|].
  by apply (view_reads_ok m a).
Qed.
(** A write into a ready buffer succeeds, has its effect, and keeps it ready. *)
Lemma write_ready m a n b bs :
  mem_ok m -> mem_ready m a n -> a <= b -> b + Z.of_nat (length bs) <= a + n -> Forall byte_ok bs ->
  exists m', mem_write m b bs (Z.of_nat (length bs)) = (GM_OK, m') /\ mem_ok m' /\ mem_ready m' a n /\
    view_stored (mem_view m) (mem_view m') b bs /\ view_mapped (mem_view m) b (Z.of_nat (length bs)).
Proof.
  intros Hm Hready Hb Hend Hok. destruct (law_ready m a n b bs Hm Hready Hb Hend Hok) as [Hr Hready'].
  pose proof (law_write m b bs (Z.of_nat (length bs)) Hm eq_refl Hok) as H'.
  destruct (mem_write m b bs _) as [r m']. cbn [fst snd] in *. subst r. rewrite decide_True in H' by done.
  exists m'. split_and!; try done; apply H'.
Qed.
End buffer_laws.

(** ** A space stays where it is

    The same operations keep a stronger invariant: the handle stays initialized,
    with the addresses it was initialized with. *)
Definition placed (base stop : Z) (m : option Space) : Prop :=
  exists s, m = Some s /\ space_wf s /\ sp_base s = base /\ sp_end s = stop.
Lemma placed_ok base stop m : placed base stop m -> space_ok m.
Proof. intros (s & -> & Hs & _). by intros ? [= <-]. Qed.
Lemma transition_place s s' : transition s s' -> sp_base s' = sp_base s /\ sp_end s' = sp_end s.
Proof.
  intros [|s1 a b n _ _ Hw|s1 Hp|s1 op a n prot maxprot Hc]; [done| | |].
  - by destruct (wr_map _ _ _ _ _ _ Hw).
  - by destruct (pr_map _ _ Hp).
  - by destruct Hc.
Qed.
Lemma placed_step base stop s s' : placed base stop (Some s) -> sparse_step s s' -> placed base stop (Some s').
Proof.
  intros (s0 & [= <-] & Hs & <- & <-) Hstep. pose proof (step_transition s s' Hs Hstep) as Ht.
  destruct (transition_place s s' Ht). exists s'. by split_and!; try eapply transition_wf.
Qed.
Lemma placed_some base stop s m : placed base stop (Some s) -> (exists s', m = Some s' /\ sparse_step s s') -> placed base stop m.
Proof. intros Hp (s' & -> & Hs). by eapply placed_step. Qed.

Section placed.
Context (base stop : Z).
Lemma placed_read m a b n :
  placed base stop m -> Z.of_nat (length b) = n ->
  let '(r, m', b') := mem_read m a b n in
  m' = m /\ if decide (r = GM_OK) then length b' = length b /\ view_reads (space_view m) a b' else b' = b.
Proof. intros Hm. by apply space_read, (placed_ok base stop). Qed.
Lemma placed_write m a b n :
  placed base stop m -> Z.of_nat (length b) = n -> Forall byte_ok b ->
  let '(r, m') := mem_write m a b n in
  if decide (r = GM_OK)
  then placed base stop m' /\ view_stored (space_view m) (space_view m') a b /\ view_mapped (space_view m) a n
  else m' = m.
Proof.
  intros Hm Hn Hb. pose proof (space_write m a b n (placed_ok _ _ _ Hm) Hn Hb) as Hw.
  assert (placed base stop (mem_write m a b n).2) as Hp.
  { destruct Hm as (s & -> & Hs & Hplace). apply (placed_some _ _ s); [by exists s|]. cbn [mem_write space_memory]. unfold gm_sparse_write.
    destruct (access_memory (Some s) a (Some b) n true) as [[r m'] b'] eqn:E. cbn. assert (exists s', m' = Some s') as [s' ->].
    { unfold access_memory in E. destruct (access_locked _ _ _ _ _) as [[? s'] ?]. exists s'. congruence. }
    exists s'. split; [done|]. apply (st_access s s' a (Some b) n true); [lia|by intros ? [= <-]|by rewrite E]. }
  destruct (mem_write m a b n) as [r m']. destruct (decide (r = GM_OK)); [|done]. split; [exact Hp|apply Hw].
Qed.
Lemma placed_compare_exchange m a e d p n :
  placed base stop m -> Z.of_nat (length e) = n -> Z.of_nat (length d) = n -> Forall byte_ok d ->
  let '(r, m', old) := mem_compare_exchange m a e d p n in
  if decide (r = GM_OK)
  then placed base stop m' /\ Z.of_nat (length old) = n /\ view_reads (space_view m) a old /\
       (if decide (old = e) then view_stored (space_view m) (space_view m') a d else m' = m)
  else m' = m /\ old = p.
Proof.
  intros Hm He Hd Hb. pose proof (space_compare_exchange m a e d p n (placed_ok _ _ _ Hm) He Hd Hb) as Hw.
  assert (placed base stop (mem_compare_exchange m a e d p n).1.2) as Hp.
  { destruct Hm as (s & -> & Hs & Hplace). apply (placed_some _ _ s); [by exists s|]. cbn [mem_compare_exchange space_memory].
    pose proof (compare_exchange_state s a (Some e) (Some d) (Some p) n Hs ltac:(lia)) as Hst. cbv zeta in Hst.
    destruct (gm_sparse_compare_exchange (Some s) a (Some e) (Some d) (Some p) n) as [[r m'] b'] eqn:E. cbn in Hst |- *.
    assert (exists s', m' = Some s') as [s' ->] by (destruct Hst; eauto). exists s'. split; [done|].
    apply (st_compare_exchange s s' a (Some e) (Some d) (Some p) n); [lia|by intros ? [= <-]|by rewrite E]. }
  destruct (mem_compare_exchange m a e d p n) as [[r m'] old]. destruct (decide (r = GM_OK)); [|done]. split; [exact Hp|apply Hw].
Qed.
Lemma placed_atomic m a n operation operand p :
  placed base stop m -> 0 <= n ->
  let '(r, m', old) := mem_atomic m a n operation operand p in
  if decide (r = GM_OK)
  then placed base stop m' /\ exists bs, Z.of_nat (length bs) = n /\ view_reads (space_view m) a bs /\
       old = le_value bs /\
       view_stored (space_view m) (space_view m') a (le_bytes (Z.to_nat n)
         (atomic_result (8 * n) operation old (operand mod 2 ^ (8 * n))))
  else m' = m /\ old = p.
Proof.
  intros Hm Hn. pose proof (space_atomic m a n operation operand p (placed_ok _ _ _ Hm) Hn) as Hw.
  assert (placed base stop (mem_atomic m a n operation operand p).1.2) as Hp.
  { destruct Hm as (s & -> & Hs & Hplace). apply (placed_some _ _ s); [by exists s|]. cbn [mem_atomic space_memory].
    pose proof (atomic_state s a n operation operand (Some p) Hs Hn) as Hst. cbv zeta in Hst.
    destruct (gm_sparse_atomic (Some s) a n operation operand (Some p)) as [[r m'] b'] eqn:E. cbn in Hst |- *.
    assert (exists s', m' = Some s') as [s' ->] by (destruct Hst as [?|[? ?]]; eauto). exists s'. split; [done|].
    apply (st_atomic s s' a n operation operand (Some p)); [lia|by rewrite E]. }
  destruct (mem_atomic m a n operation operand p) as [[r m'] old]. destruct (decide (r = GM_OK)); [|done]. split; [exact Hp|apply Hw].
Qed.
Lemma placed_load_exclusive m a b n monitor :
  placed base stop m -> Z.of_nat (length b) = n ->
  let '(r, m', b', monitor') := mem_load_exclusive m a b n monitor in
  m' = m /\
  if decide (r = GM_OK)
  then length b' = length b /\ view_reads (space_view m) a b'
  else b' = b /\ monitor' = monitor.
Proof. intros Hm. by apply space_load_exclusive, (placed_ok base stop). Qed.
Lemma placed_store_exclusive m a b n monitor stored :
  placed base stop m -> Z.of_nat (length b) = n -> Forall byte_ok b ->
  let '(r, m', monitor', stored') := mem_store_exclusive m a b n monitor stored in
  if decide (r = GM_OK)
  then placed base stop m' /\ (if stored' then view_stored (space_view m) (space_view m') a b else m' = m)
  else m' = m /\ monitor' = monitor /\ stored' = stored.
Proof.
  intros Hm Hn Hb. pose proof (space_store_exclusive m a b n monitor stored (placed_ok _ _ _ Hm) Hn Hb) as Hw.
  assert (placed base stop (mem_store_exclusive m a b n monitor stored).1.1.2) as Hp.
  { destruct Hm as (s & -> & Hs & Hplace). apply (placed_some _ _ s); [by exists s|]. cbn [mem_store_exclusive space_memory].
    pose proof (store_exclusive_state s a (Some b) n (Some monitor) (Some stored)) as Hst.
    destruct (gm_sparse_store_exclusive (Some s) a (Some b) n (Some monitor) (Some stored)) as [[[r m'] mo] st] eqn:E. cbn in Hst |- *.
    assert (exists s', m' = Some s') as [s' ->] by (destruct Hst; eauto). exists s'. split; [done|].
    apply (st_store_exclusive s s' a (Some b) n (Some monitor) (Some stored)); [lia|by intros ? [= <-]|by rewrite E]. }
  destruct (mem_store_exclusive m a b n monitor stored) as [[[r m'] mo] st]. destruct (decide (r = GM_OK)); [|done].
  split; [exact Hp|apply Hw].
Qed.
Lemma placed_prepare m a n permissions :
  placed base stop m -> 0 <= n -> none_outside permissions (Z.lor GM_READ GM_WRITE) = true ->
  let '(r, m') := mem_prepare m a n permissions in
  if decide (r = GM_OK)
  then placed base stop m' /\ (forall x, space_view m' x = space_view m x) /\
       view_allows (space_view m) a n permissions /\
       (Z.land permissions GM_WRITE <> 0 -> space_ready m' a n)
  else m' = m /\ (0 < n -> r = GM_NOMEM \/ ~ view_allows (space_view m) a n permissions).
Proof.
  intros Hm Hn Hper. pose proof (space_prepare m a n permissions (placed_ok _ _ _ Hm) Hn Hper) as Hw.
  assert (placed base stop (mem_prepare m a n permissions).2) as Hp.
  { destruct Hm as (s & -> & Hs & Hplace). apply (placed_some _ _ s); [by exists s|]. cbn [mem_prepare space_buffers].
    pose proof (prepare_correct s a n permissions Hs Hn) as Hst.
    destruct (gm_sparse_prepare (Some s) a n permissions) as [r m'] eqn:E. cbn.
    assert (exists s', m' = Some s') as [s' ->] by (destruct (decide (r = GM_OK)); [destruct Hst as (_ & s' & ? & _)|destruct Hst]; eauto).
    exists s'. split; [done|]. apply (st_prepare s s' a n permissions); [lia|by rewrite E]. }
  destruct (mem_prepare m a n permissions) as [r m']. destruct (decide (r = GM_OK)); [|done]. split; [exact Hp|apply Hw].
Qed.

Definition placed_laws : SparseLaws (option Space) := {|
  mem_ok := placed base stop;
  mem_view := space_view;
  law_byte m x c Hm := space_byte m x c (placed_ok base stop m Hm);
  law_read := placed_read;
  law_write := placed_write;
  law_compare_exchange := placed_compare_exchange;
  law_atomic := placed_atomic;
  law_load_exclusive := placed_load_exclusive;
  law_store_exclusive := placed_store_exclusive
|}.
#[local] Existing Instance placed_laws | 0.
Definition placed_buffer_laws : BufferLaws (option Space) := {|
  mem_ready := space_ready;
  law_pages m x y c Hm := space_pages m x y c (placed_ok base stop m Hm);
  law_allowed m a b n Hm := space_allowed m a b n (placed_ok base stop m Hm);
  law_prepare := placed_prepare;
  law_ready m a n b bs Hm := space_ready_write m a n b bs (placed_ok base stop m Hm)
|}.
End placed.
