(* ===== verification/GuestMemoryInstruction.v ===== *)
(** * GuestMemoryInstruction: emulated data accesses
    (runtime/GuestMemoryInstruction.c)

    One AArch64 load, store, structure or atomic instruction against any
    software address space. The contract is the header's: an instruction retires
    only after its whole access succeeded, and otherwise nothing changed. *)
From S2P Require Import Prelude GuestMemory SparseRegions SparseTable GuestSparseMemory SparseInterface.

(** ** Data *)

(** [mr_x] has 31 elements, [mr_vector] 32 of 16 bytes. *)
Record GMMemoryRegisters := mkMemoryRegisters {
  mr_x : list Z; mr_sp : Z; mr_pc : Z; mr_vector : list (list Z)
}.
Inductive GMMemoryStep := GM_STEP_OK | GM_STEP_UNSUPPORTED | GM_STEP_FAULT.
#[export] Instance GMMemoryStep_eq_dec : EqDecision GMMemoryStep.
Proof. solve_decision. Defined.

Definition mset_x (r : GMMemoryRegisters) (n v : Z) : GMMemoryRegisters :=
  mkMemoryRegisters (<[Z.to_nat n := v]> (mr_x r)) (mr_sp r) (mr_pc r) (mr_vector r).
Definition mset_sp (r : GMMemoryRegisters) (v : Z) : GMMemoryRegisters :=
  mkMemoryRegisters (mr_x r) v (mr_pc r) (mr_vector r).
Definition mset_pc (r : GMMemoryRegisters) (v : Z) : GMMemoryRegisters :=
  mkMemoryRegisters (mr_x r) (mr_sp r) v (mr_vector r).
Definition mset_vector (r : GMMemoryRegisters) (n : Z) (v : list Z) : GMMemoryRegisters :=
  mkMemoryRegisters (mr_x r) (mr_sp r) (mr_pc r) (<[Z.to_nat n := v]> (mr_vector r)).
(** [if(rn==31)r->sp=v; else r->x[rn]=v;] *)
Definition mset_base (r : GMMemoryRegisters) (rn v : Z) : GMMemoryRegisters :=
  if rn =? 31 then mset_sp r v else mset_x r rn v.
Definition mretire (r : GMMemoryRegisters) : GMMemoryRegisters := mset_pc r (w64 (mr_pc r + 4)).

Definition extend (value bits : Z) : Z :=
  let sign := Z.shiftl 1 (bits - 1) in w64 (Z.lxor value sign - sign).
Definition mget (r : GMMemoryRegisters) (index : Z) (stack : bool) : Z :=
  if index <? 31 then default 0 (mr_x r !! Z.to_nat index) else if stack then mr_sp r else 0.
Definition vget (r : GMMemoryRegisters) (index : Z) : list Z := default [] (mr_vector r !! Z.to_nat index).
Definition vector_zero : list Z := replicate 16 0.
Definition scalar_bytes (value size : Z) : list Z := le_bytes (Z.to_nat size) value.
Definition scalar_value (bytes : list Z) (size : Z) : Z := le_value (take (Z.to_nat size) bytes).

Section step.
Context {M : Type} `{SparseMemory M}.

(** Every step returns the outcome, the memory, the registers and the value
    behind [fault]. *)
Definition outcome : Type := GMMemoryStep * M * GMMemoryRegisters * GMResult.

(** ** Structure loads and stores *)

Record Layout := mkLayout {
  ly_registers : Z; ly_repeats : Z; ly_element : Z; ly_lane : Z; ly_replicate : bool
}.

(** The register count, the repeats and the element the encoding asks for;
    [None] is an unsupported encoding. *)
Definition structure_layout (i : Z) : option Layout :=
  let size := field i 10 2 in
  let single := bit i 24 in let post := bit i 23 in
  let load := bit i 22 in let q := field i 30 1 in
  if negb (Z.land i 0xbf000000 =? (if single then 0x0d000000 else 0x0c000000)) ||
     (negb post && negb (field i 16 5 =? 0)) then None else
  if single then
    let op := field i 13 3 in
    let s := field i 12 1 in
    let scale := Z.shiftr op 1 in
    let registers := Z.shiftl (Z.land op 1) 1 + field i 21 1 + 1 in
    if scale =? 3 then
      if negb load || negb (s =? 0) then None
      else Some (mkLayout registers 1 (Z.shiftl 1 size) 0 true)
    else if scale =? 0 then
      Some (mkLayout registers 1 1 (Z.lor (Z.lor (Z.shiftl q 3) (Z.shiftl s 2)) size) false)
    else if scale =? 1 then
      if bit size 0 then None
      else Some (mkLayout registers 1 2 (Z.lor (Z.lor (Z.shiftl q 2) (Z.shiftl s 1)) (Z.shiftr size 1)) false)
    else
      if bit size 1 || (bit size 0 && negb (s =? 0)) then None
      else Some (mkLayout registers 1 (if bit size 0 then 8 else 4)
                   (if bit size 0 then q else Z.lor (Z.shiftl q 1) s) false)
  else
    if bit i 21 then None else
    let layout :=
      match field i 12 4 with
      | 0 => Some (4, 1) | 2 => Some (1, 4) | 4 => Some (3, 1) | 6 => Some (1, 3)
      | 7 => Some (1, 1) | 8 => Some (2, 1) | 10 => Some (1, 2)
      | _ => None
      end in
    match layout with
    | None => None
    | Some (registers, repeats) =>
      if (size =? 3) && (q =? 0) && negb (registers =? 1) then None
      else Some (mkLayout registers repeats (Z.shiftl 1 size) 0 false)
    end.

(** The loops over repeats, elements and registers: the vector register and the
    position in it of each element, in memory order. *)
Definition counted (n : Z) : list Z := Z.of_nat <$> seq 0 (Z.to_nat n).
Definition structure_slots (rt : Z) (single : bool) (lanes : Z) (ly : Layout) : list (Z * Z) :=
  flat_map (fun repeat => flat_map (fun e => (fun reg =>
      (Z.land (rt + repeat * ly_registers ly + reg) 31, (if single then ly_lane ly else e) * ly_element ly))
    <$> counted (ly_registers ly)) (counted lanes)) (counted (ly_repeats ly)).

(** [memcpy(r->vector[index]+position,bytes,...)]. *)
Definition put_vector (r : GMMemoryRegisters) (index position : Z) (bytes : list Z) : GMMemoryRegisters :=
  mset_vector r index (splice (Z.to_nat position) bytes (vget r index)).

(** The transfer loops; [buffer] is the bytes from [offset] on. *)
Fixpoint load_slots (slots : list (Z * Z)) (ly : Layout) (vector_bytes : Z) (buffer : list Z)
    (r : GMMemoryRegisters) : GMMemoryRegisters :=
  match slots with
  | [] => r
  | (index, position) :: slots =>
    let element := take (Z.to_nat (ly_element ly)) buffer in
    let r :=
      if ly_replicate ly
      then put_vector r index 0 (concat (replicate (Z.to_nat (vector_bytes / ly_element ly)) element))
      else put_vector r index position element in
    load_slots slots ly vector_bytes (drop (Z.to_nat (ly_element ly)) buffer) r
  end.
Fixpoint store_slots (slots : list (Z * Z)) (ly : Layout) (r : GMMemoryRegisters) : list Z :=
  match slots with
  | [] => []
  | (index, position) :: slots =>
    slice (Z.to_nat position) (Z.to_nat (ly_element ly)) (vget r index) ++ store_slots slots ly r
  end.

Definition clear_vectors (r : GMMemoryRegisters) (rt n : Z) : GMMemoryRegisters :=
  fold_left (fun r k => mset_vector r (Z.land (rt + k) 31) vector_zero) (counted n) r.

Definition structure_step (m : M) (i : Z) (r : GMMemoryRegisters) (fault : GMResult) : outcome :=
  let rt := field i 0 5 in let rn := field i 5 5 in let rm := field i 16 5 in
  let single := bit i 24 in let post := bit i 23 in let load := bit i 22 in
  match structure_layout i with
  | None => (GM_STEP_UNSUPPORTED, m, r, fault)
  | Some ly =>
    let vector_bytes := if bit i 30 then 16 else 8 in
    let lanes := if single then 1 else vector_bytes / ly_element ly in
    let total := ly_registers ly * ly_repeats ly * lanes * ly_element ly in
    let slots := structure_slots rt single lanes ly in
    let address := mget r rn true in
    let retire (r : GMMemoryRegisters) :=
      mretire (if post
        then mset_base r rn (w64 (address + (if rm =? 31 then total else mget r rm false))) else r) in
    if load then
      let '(result, m, bytes) := mem_read m address (replicate (Z.to_nat total) 0) total in
      if negb (bool_decide (result = GM_OK)) then (GM_STEP_FAULT, m, r, result) else
      let r := if negb single || ly_replicate ly
        then clear_vectors r rt (ly_registers ly * ly_repeats ly) else r in
      (GM_STEP_OK, m, retire (load_slots slots ly vector_bytes bytes r), result)
    else
      let '(result, m) := mem_write m address (store_slots slots ly r) total in
      if negb (bool_decide (result = GM_OK)) then (GM_STEP_FAULT, m, r, result) else
      (GM_STEP_OK, m, retire r, result)
  end.

(** ** Atomic operations *)

Definition atomic_operation (op : Z) : option GMSparseAtomic :=
  match op with
  | 0 => Some GM_ATOMIC_ADD | 1 => Some GM_ATOMIC_CLEAR | 2 => Some GM_ATOMIC_XOR
  | 3 => Some GM_ATOMIC_SET | 4 => Some GM_ATOMIC_SIGNED_MAX | 5 => Some GM_ATOMIC_SIGNED_MIN
  | 6 => Some GM_ATOMIC_UNSIGNED_MAX | 7 => Some GM_ATOMIC_UNSIGNED_MIN | 8 => Some GM_ATOMIC_SWAP
  | _ => None
  end.
(** [if (n != 31) r->x[n] = v;] *)
Definition mset_x31 (r : GMMemoryRegisters) (n v : Z) : GMMemoryRegisters :=
  if n =? 31 then r else mset_x r n v.

Definition is_casp (i : Z) : bool := Z.land i 0xbfa07c00 =? 0x08207c00.
Definition is_cas (i : Z) : bool := Z.land i 0x3fa07c00 =? 0x08a07c00.
Definition is_lse (i : Z) : bool := Z.land i 0x3f200c00 =? 0x38200000.

Definition atomic_step (m : M) (i : Z) (r : GMMemoryRegisters) (fault : GMResult) : outcome :=
  let rt := field i 0 5 in let rn := field i 5 5 in let rs := field i 16 5 in
  let size := Z.shiftl 1 (Z.shiftr i 30) in
  let address := mget r rn true in
  if is_casp i then
    if bit rs 0 || bit rt 0 then (GM_STEP_UNSUPPORTED, m, r, fault) else
    let size := if bit i 30 then 8 else 4 in
    let pair n := scalar_bytes (mget r n false) size ++ scalar_bytes (mget r (n + 1) false) size in
    let '(result, m, old) :=
      mem_compare_exchange m address (pair rs) (pair rt) (replicate (Z.to_nat (size * 2)) 0) (size * 2) in
    if negb (bool_decide (result = GM_OK)) then (GM_STEP_FAULT, m, r, result) else
    let r := mset_x31 r rs (scalar_value old size) in
    let r := mset_x31 r (rs + 1) (scalar_value (drop (Z.to_nat size) old) size) in
    (GM_STEP_OK, m, mretire r, result)
  else if is_cas i then
    let '(result, m, old) :=
      mem_compare_exchange m address (scalar_bytes (mget r rs false) size)
        (scalar_bytes (mget r rt false) size) (replicate (Z.to_nat size) 0) size in
    if negb (bool_decide (result = GM_OK)) then (GM_STEP_FAULT, m, r, result) else
    (GM_STEP_OK, m, mretire (mset_x31 r rs (scalar_value old size)), result)
  else if is_lse i then
    match atomic_operation (field i 12 4) with
    | None => (GM_STEP_UNSUPPORTED, m, r, fault)
    | Some op =>
      let '(result, m, previous) := mem_atomic m address size op (mget r rs false) 0 in
      if negb (bool_decide (result = GM_OK)) then (GM_STEP_FAULT, m, r, result) else
      (GM_STEP_OK, m, mretire (mset_x31 r rt previous), result)
    end
  else (GM_STEP_UNSUPPORTED, m, r, fault).

(** ** Scalar, vector and pair accesses *)

Record Access := mkAccess {
  ac_address : Z; ac_base : Z; ac_size : Z; ac_rt : Z; ac_rt2 : Z;
  ac_load : bool; ac_vector : bool; ac_pair : bool; ac_sign : bool;
  ac_width : Z; ac_writeback : bool
}.
Inductive Decoded := Unsupported | Misaligned | Accesses (a : Access).

Definition is_rcpc (i : Z) : bool := Z.land i 0x3ffffc00 =? 0x38bfc000.
Definition is_ordered (i : Z) : bool := Z.land i 0x3f9ffc00 =? 0x089ffc00.
Definition is_single (i : Z) : bool :=
  (Z.land i 0x3b000000 =? 0x39000000) || (Z.land i 0x3b000000 =? 0x38000000).
Definition is_pair (i : Z) : bool := Z.land i 0x3a000000 =? 0x28000000.

(** The size, whether it loads, whether it extends a sign and to which width, of
    a single access; [None] is unsupported. *)
Definition single_kind (i : Z) : option (Z * bool * bool * Z) :=
  let scale := Z.shiftr i 30 in
  let opc := field i 22 2 in
  if bit i 26 then
    if 2 <=? opc then
      if negb (scale =? 0) then None else Some (16, bit opc 0, false, 64)
    else Some (Z.shiftl 1 scale, bit opc 0, false, 64)
  else
    if 2 <=? opc then
      if (scale =? 3) || ((scale =? 2) && (opc =? 3)) then None
      else Some (Z.shiftl 1 scale, true, true, if opc =? 3 then 32 else 64)
    else Some (Z.shiftl 1 scale, opc =? 1, false, 64).

Definition decode_single (i : Z) (r : GMMemoryRegisters) : Decoded :=
  let rt := field i 0 5 in let rn := field i 5 5 in
  let vector := bit i 26 in
  let address := mget r rn true in
  match single_kind i with
  | None => Unsupported
  | Some (size, load, sign, width) =>
    let access address base writeback :=
      Accesses (mkAccess address base size rt 0 load vector false sign width writeback) in
    if bit i 24 then access (w64 (address + field i 10 12 * size)) address false
    else
      let mode := field i 10 2 in
      if bit i 21 then
        let option := field i 13 3 in
        if negb (mode =? 2) || negb (bit option 1) then Unsupported else
        let offset := mget r (field i 16 5) false in
        let offset := if negb (bit option 0) then Z.land offset UINT32_MAX else offset in
        let offset := if option =? 6 then extend offset 32 else offset in
        access (w64 (address + w64 (offset * (if bit i 12 then size else 1)))) address false
      else
        if vector && (mode =? 2) then Unsupported else
        let newbase := w64 (address + extend (field i 12 9) 9) in
        let writeback := (mode =? 1) || (mode =? 3) in
        if writeback && negb vector && negb (rn =? 31) && (rn =? rt) then Unsupported
        else access (if negb (mode =? 1) then newbase else address) newbase writeback
  end.

Definition decode_pair (i : Z) (r : GMMemoryRegisters) : Decoded :=
  let rt := field i 0 5 in let rn := field i 5 5 in
  let vector := bit i 26 in
  let address := mget r rn true in
  let opc := Z.shiftr i 30 in
  let mode := field i 23 2 in
  let load := bit i 22 in
  let rt2 := field i 10 5 in
  let kind :=
    if vector then if opc =? 3 then None else Some (Z.shiftl 4 opc, false)
    else if opc =? 0 then Some (4, false)
    else if opc =? 2 then Some (8, false)
    else if (opc =? 1) && load && negb (mode =? 0) then Some (4, true)
    else None in
  match kind with
  | None => Unsupported
  | Some (size, sign) =>
    let writeback := (mode =? 1) || (mode =? 3) in
    if load && (rt =? rt2) then Unsupported else
    if writeback && negb vector && negb (rn =? 31) && ((rn =? rt) || (rn =? rt2)) then Unsupported else
    let newbase := w64 (address + w64 (extend (field i 15 7) 7 * size)) in
    Accesses (mkAccess (if negb (mode =? 1) then newbase else address) newbase size rt rt2 load
                vector true sign 64 writeback)
  end.

Definition decode_access (i : Z) (r : GMMemoryRegisters) : Decoded :=
  let address := mget r (field i 5 5) true in
  if is_rcpc i || is_ordered i then
    let size := Z.shiftl 1 (Z.shiftr i 30) in
    if negb (address mod size =? 0) then Misaligned
    else Accesses (mkAccess address address size (field i 0 5) 0 (is_rcpc i || bit i 22)
                     (bit i 26) false false 64 false)
  else if is_single i then decode_single i r
  else if is_pair i then decode_pair i r
  else Unsupported.

(** The registers an access transfers: one or two. *)
Definition access_registers (a : Access) : list Z := if ac_pair a then [ac_rt a; ac_rt2 a] else [ac_rt a].
Definition store_bytes (a : Access) (r : GMMemoryRegisters) : list Z :=
  flat_map (fun index =>
    if ac_vector a then take (Z.to_nat (ac_size a)) (vget r index)
    else scalar_bytes (mget r index false) (ac_size a)) (access_registers a).
Definition load_register (a : Access) (index : Z) (bytes : list Z) (r : GMMemoryRegisters)
    : GMMemoryRegisters :=
  if ac_vector a
  then mset_vector r index (splice 0 (take (Z.to_nat (ac_size a)) bytes) vector_zero)
  else if index =? 31 then r
  else
    let value := scalar_value bytes (ac_size a) in
    let value := if ac_sign a then extend value (ac_size a * 8) else value in
    mset_x r index (if ac_width a =? 32 then Z.land value UINT32_MAX else value).
Fixpoint load_registers (a : Access) (indices bytes : list Z) (r : GMMemoryRegisters)
    : GMMemoryRegisters :=
  match indices with
  | [] => r
  | index :: indices =>
    load_registers a indices (drop (Z.to_nat (ac_size a)) bytes) (load_register a index bytes r)
  end.

Definition perform (m : M) (rn : Z) (a : Access) (r : GMMemoryRegisters) : outcome :=
  let total := (if ac_pair a then 2 else 1) * ac_size a in
  let '(result, m, bytes) :=
    if ac_load a then mem_read m (ac_address a) (replicate (Z.to_nat total) 0) total
    else let '(result, m) := mem_write m (ac_address a) (store_bytes a r) total in (result, m, []) in
  if negb (bool_decide (result = GM_OK)) then (GM_STEP_FAULT, m, r, result) else
  let r := if ac_load a then load_registers a (access_registers a) bytes r else r in
  (GM_STEP_OK, m, mretire (if ac_writeback a then mset_base r rn (ac_base a) else r), result).

Definition memory_step (m : M) (i : Z) (r : GMMemoryRegisters) (fault : GMResult) : outcome :=
  let rn := field i 5 5 in
  if (UINT64_MAX - 4 <? mr_pc r) || negb (Z.land (mr_pc r) 3 =? 0) ||
     ((rn =? 31) && negb (Z.land (mr_sp r) 15 =? 0)) then (GM_STEP_FAULT, m, r, GM_INVALID) else
  if Z.land i 0xbe000000 =? 0x0c000000 then structure_step m i r fault else
  if negb (is_rcpc i) && (is_casp i || is_cas i || is_lse i) then atomic_step m i r fault else
  match decode_access i r with
  | Unsupported => (GM_STEP_UNSUPPORTED, m, r, fault)
  | Misaligned => (GM_STEP_FAULT, m, r, GM_INVALID)
  | Accesses a => perform m rn a r
  end.

(** The whole function: the registers and the fault are [None] for a null
    pointer. *)
Definition gm_memory_step (m : M) (i : Z) (r : option GMMemoryRegisters) (fault : option GMResult)
    : GMMemoryStep * M * option GMMemoryRegisters * option GMResult :=
  match r, fault with
  | Some r, Some fault =>
    let '(step, m, r, fault) := memory_step m i r fault in (step, m, Some r, Some fault)
  | _, _ => (GM_STEP_UNSUPPORTED, m, r, fault)
  end.
End step.
#[global] Arguments outcome : clear implicits.

(** ** Registers stay well formed *)

Definition vector_ok (v : list Z) : Prop := length v = 16%nat /\ Forall byte_ok v.
Record mregs_ok (r : GMMemoryRegisters) : Prop := {
  mo_length : length (mr_x r) = 31%nat;
  mo_x : Forall u64_ok (mr_x r);
  mo_sp : u64_ok (mr_sp r);
  mo_pc : u64_ok (mr_pc r);
  mo_vectors : length (mr_vector r) = 32%nat;
  mo_vector : Forall vector_ok (mr_vector r)
}.

Lemma u64_0 : u64_ok 0.
Proof. by split. Qed.
Lemma mget_range r index stack : mregs_ok r -> u64_ok (mget r index stack).
Proof.
  intros Hr. unfold mget. destruct (index <? 31); [|destruct stack; [apply Hr|apply u64_0]].
  destruct (mr_x r !! _) eqn:E; [|apply u64_0]. by eapply Forall_lookup_1, E; apply Hr.
Qed.
Lemma mset_x_ok r n v : mregs_ok r -> u64_ok v -> mregs_ok (mset_x r n v).
Proof.
  intros [] Hv. split; cbn [mset_x mr_x mr_sp mr_pc mr_vector]; try done; [by rewrite length_insert|].
  by apply Forall_insert.
Qed.
Lemma mset_x31_ok r n v : mregs_ok r -> u64_ok v -> mregs_ok (mset_x31 r n v).
Proof. intros. unfold mset_x31. destruct (_ =? _); [done|by apply mset_x_ok]. Qed.
Lemma mset_base_ok r rn v : mregs_ok r -> u64_ok v -> mregs_ok (mset_base r rn v).
Proof.
  intros Hr Hv. unfold mset_base. destruct (_ =? _); [|by apply mset_x_ok]. by destruct Hr; split.
Qed.
Lemma mretire_ok r : mregs_ok r -> mregs_ok (mretire r).
Proof. intros []. split; try done. apply w64_range. Qed.
Lemma vget_ok r index : mregs_ok r -> 0 <= index < 32 -> vector_ok (vget r index).
Proof.
  intros Hr Hi. unfold vget. destruct (lookup_lt_is_Some_2 (mr_vector r) (Z.to_nat index)) as [v Hv].
  { rewrite (mo_vectors r Hr). lia. }
  rewrite Hv. by eapply Forall_lookup_1, Hv; apply Hr.
Qed.
Lemma mset_vector_ok r index v : mregs_ok r -> vector_ok v -> mregs_ok (mset_vector r index v).
Proof.
  intros [] Hv. split; cbn [mset_vector mr_x mr_sp mr_pc mr_vector]; try done; [by rewrite length_insert|].
  by apply Forall_insert.
Qed.
Lemma splice_vector_ok v i bs :
  vector_ok v -> Forall byte_ok bs -> (i + length bs <= 16)%nat -> vector_ok (splice i bs v).
Proof. intros [Hl Hv] Hb Hi. split; [rewrite length_splice; lia|by apply Forall_splice]. Qed.
Lemma vector_zero_ok : vector_ok vector_zero.
Proof. split; [done|]. by apply (Forall_replicate byte_ok 16). Qed.
Lemma put_vector_ok r index position bs :
  mregs_ok r -> 0 <= index < 32 -> Forall byte_ok bs -> (Z.to_nat position + length bs <= 16)%nat ->
  mregs_ok (put_vector r index position bs).
Proof. intros. by apply mset_vector_ok, splice_vector_ok; [|apply vget_ok|..]. Qed.
Lemma land31_range x : 0 <= Z.land x 31 < 32.
Proof. change 31 with (2 ^ 5 - 1). rewrite land_mask by lia. by apply Z.mod_pos_bound. Qed.
Lemma clear_vectors_ok r rt n : mregs_ok r -> mregs_ok (clear_vectors r rt n).
Proof.
  intros Hr. unfold clear_vectors. revert r Hr. induction (counted n) as [|k ks IH]; intros r Hr; [done|].
  cbn. by apply IH, mset_vector_ok, vector_zero_ok.
Qed.
Lemma mget_pc r : mr_pc (mretire r) = w64 (mr_pc r + 4).
Proof. done. Qed.

(** *** The layouts of structure accesses *)

(** Every element lies within its vector register, and an access is of at most
    64 bytes. *)
Definition layout_ok (single : bool) (ly : Layout) : bool :=
  existsb (Z.eqb (ly_element ly)) [1; 2; 4; 8] && (0 <? ly_registers ly) && (0 <? ly_repeats ly) &&
  (ly_registers ly * ly_repeats ly <=? 4) &&
  (0 <=? ly_lane ly) && (negb single || ((ly_lane ly + 1) * ly_element ly <=? 16)).

Lemma field1 i lo : field i lo 1 = 0 \/ field i lo 1 = 1.
Proof. unfold field. change (Z.ones 1) with (2 ^ 1 - 1). rewrite land_mask by lia. pose proof (Z.mod_pos_bound (Z.shiftr i lo) (2 ^ 1)). lia. Qed.
Lemma field2 i lo : field i lo 2 = 0 \/ field i lo 2 = 1 \/ field i lo 2 = 2 \/ field i lo 2 = 3.
Proof. unfold field. change (Z.ones 2) with (2 ^ 2 - 1). rewrite land_mask by lia. pose proof (Z.mod_pos_bound (Z.shiftr i lo) (2 ^ 2)). lia. Qed.
Lemma field3 i lo : field i lo 3 ∈ [0; 1; 2; 3; 4; 5; 6; 7].
Proof.
  unfold field. change (Z.ones 3) with (2 ^ 3 - 1). rewrite land_mask by lia.
  pose proof (Z.mod_pos_bound (Z.shiftr i lo) (2 ^ 3)). rewrite !elem_of_cons. lia.
Qed.
Lemma structure_layout_ok i ly :
  structure_layout i = Some ly -> layout_ok (bit i 24) ly = true.
Proof.
  unfold structure_layout. cbv zeta. destruct (_ || _); [done|]. destruct (bit i 24).
  - destruct (field2 i 10) as [->|[->|[->| ->]]]; destruct (field1 i 30) as [->| ->];
      destruct (field1 i 12) as [->| ->]; destruct (field1 i 21) as [->| ->];
      pose proof (field3 i 13) as Hop; revert Hop; generalize (field i 13 3); intros op Hop;
      rewrite !elem_of_cons, elem_of_nil in Hop;
      destruct Hop as [->|[->|[->|[->|[->|[->|[->|[->|[]]]]]]]]]; destruct (bit i 22); vm_compute; try done;
      intros [= <-]; done.
  - destruct (bit i 21); [done|].
    destruct (field2 i 10) as [->|[->|[->| ->]]]; destruct (field1 i 30) as [->| ->];
      repeat (case_match; try done); intros [= <-]; simplify_eq; vm_compute; done.
Qed.

Definition slot_ok (element : Z) (slot : Z * Z) : Prop :=
  0 <= slot.1 < 32 /\ 0 <= slot.2 /\ slot.2 + element <= 16.
Lemma elem_of_counted n k : k ∈ counted n <-> 0 <= k < n.
Proof.
  unfold counted. rewrite list_elem_of_fmap. split.
  - intros (j & -> & Hj%elem_of_seq). lia.
  - intros Hk. exists (Z.to_nat k). rewrite elem_of_seq. lia.
Qed.
Lemma length_counted n : length (counted n) = Z.to_nat n.
Proof. unfold counted. by rewrite length_fmap, length_seq. Qed.
Lemma length_flat_map_const {A B} (f : A -> list B) l n :
  (forall x, x ∈ l -> length (f x) = n) -> length (flat_map f l) = (length l * n)%nat.
Proof.
  induction l as [|x l IH]; intros Hf; [done|]. cbn. rewrite length_app, (Hf x), IH; [lia| |by left].
  intros y Hy. apply Hf. by right.
Qed.

Lemma layout_element single ly :
  layout_ok single ly = true ->
  (ly_element ly = 1 \/ ly_element ly = 2 \/ ly_element ly = 4 \/ ly_element ly = 8) /\
  0 < ly_registers ly /\ 0 < ly_repeats ly /\ ly_registers ly * ly_repeats ly <= 4 /\ 0 <= ly_lane ly /\
  (single = true -> (ly_lane ly + 1) * ly_element ly <= 16).
Proof.
  unfold layout_ok. intros H. apply andb_true_iff in H as [H Hsingle].
  apply andb_true_iff in H as [H Hlane%Z.leb_le]. apply andb_true_iff in H as [H Hprod%Z.leb_le].
  apply andb_true_iff in H as [H Hrep%Z.ltb_lt]. apply andb_true_iff in H as [He Hreg%Z.ltb_lt].
  cbn [existsb] in He. rewrite !orb_true_iff, !Z.eqb_eq in He.
  split; [intuition congruence|]. do 4 (split; [done|]). intros ->. cbn [negb orb] in Hsingle. lia.
Qed.

Lemma structure_slots_ok rt single vector_bytes ly slot :
  layout_ok single ly = true -> (vector_bytes = 8 \/ vector_bytes = 16) ->
  slot ∈ structure_slots rt single (if single then 1 else vector_bytes / ly_element ly) ly ->
  slot_ok (ly_element ly) slot.
Proof.
  intros Hly Hv Hin. destruct (layout_element single ly Hly) as (He & _ & _ & _ & Hlane & Hs).
  unfold structure_slots in Hin. apply list_elem_of_In, in_flat_map in Hin as (k & _ & Hin).
  apply in_flat_map in Hin as (e & He'%list_elem_of_In%elem_of_counted & Hin%list_elem_of_In).
  apply list_elem_of_fmap in Hin as (reg & -> & _). split; [apply land31_range|].
  cbn [fst snd]. destruct single.
  - specialize (Hs eq_refl). destruct He as [E|[E|[E|E]]]; rewrite E in *; lia.
  - pose proof (Z.mul_div_le vector_bytes (ly_element ly) ltac:(lia)).
    set (q := vector_bytes / ly_element ly) in *. clearbody q.
    assert ((e + 1) * ly_element ly <= q * ly_element ly) by (apply Z.mul_le_mono_nonneg_r; lia). lia.
Qed.
Lemma length_structure_slots rt single lanes ly :
  0 < ly_registers ly -> 0 < ly_repeats ly -> 0 <= lanes ->
  Z.of_nat (length (structure_slots rt single lanes ly)) = ly_repeats ly * lanes * ly_registers ly.
Proof.
  intros Hr Hp Hl. unfold structure_slots.
  rewrite (length_flat_map_const _ _ (Z.to_nat lanes * Z.to_nat (ly_registers ly))).
  - rewrite length_counted. lia.
  - intros k _. rewrite (length_flat_map_const _ _ (Z.to_nat (ly_registers ly))).
    + by rewrite length_counted.
    + intros e _. by rewrite length_fmap, length_counted.
Qed.

Lemma Forall_concat_replicate {A} (P : A -> Prop) n bs : Forall P bs -> Forall P (concat (replicate n bs)).
Proof. intros Hb. induction n as [|n IH]; [constructor|]. cbn. by apply Forall_app. Qed.
Lemma length_concat_replicate {A} n (bs : list A) : length (concat (replicate n bs)) = (n * length bs)%nat.
Proof. induction n as [|n IH]; [done|]. cbn. rewrite length_app, IH. done. Qed.

Lemma load_slots_ok slots ly vector_bytes buffer r :
  Forall (slot_ok (ly_element ly)) slots -> 0 < ly_element ly -> vector_bytes <= 16 ->
  Forall byte_ok buffer -> mregs_ok r -> mregs_ok (load_slots slots ly vector_bytes buffer r).
Proof.
  intros Hs He Hv. revert buffer r. induction Hs as [|[index position] slots (Hi & Hp & Hpe) _ IH];
    intros buffer r Hb Hr; [done|]. cbn [fst snd] in *. cbn [load_slots].
  apply IH; [by apply Forall_drop|]. destruct (ly_replicate ly).
  - apply put_vector_ok; [done|done|by apply Forall_concat_replicate, Forall_take|].
    rewrite length_concat_replicate, length_take.
    pose proof (Z.mul_div_le vector_bytes (ly_element ly) He).
    destruct (Z.lt_ge_cases (vector_bytes / ly_element ly) 0); nia.
  - apply put_vector_ok; [done|done|by apply Forall_take|]. rewrite length_take. lia.
Qed.
Lemma store_slots_spec slots ly r :
  Forall (slot_ok (ly_element ly)) slots -> 0 < ly_element ly -> mregs_ok r ->
  Z.of_nat (length (store_slots slots ly r)) = Z.of_nat (length slots) * ly_element ly /\
  Forall byte_ok (store_slots slots ly r).
Proof.
  intros Hs He Hr. induction Hs as [|[index position] slots (Hi & Hp & Hpe) _ [IHl IHb]]; [done|].
  cbn [fst snd] in *. cbn [store_slots]. destruct (vget_ok r index Hr Hi) as [Hl Hv]. split.
  - rewrite length_app, length_slice by lia. cbn [length]. lia.
  - apply Forall_app. split; [by apply Forall_slice|done].
Qed.

Lemma scalar_bytes_spec v size : 0 <= size -> Z.of_nat (length (scalar_bytes v size)) = size.
Proof. intros. unfold scalar_bytes. rewrite length_le_bytes. lia. Qed.
Lemma scalar_value_range bytes size : 0 <= size <= 8 -> Forall byte_ok bytes -> u64_ok (scalar_value bytes size).
Proof.
  intros Hs Hb. unfold scalar_value. pose proof (le_value_range (take (Z.to_nat size) bytes) ltac:(by apply Forall_take)) as Hv.
  split; [lia|]. eapply Z.lt_le_trans; [apply Hv|]. apply Z.pow_le_mono_r; [lia|]. rewrite length_take. lia.
Qed.

(** *** What the decoder guarantees *)

Definition u32_ok (i : Z) : Prop := 0 <= i < 2 ^ 32.
Record access_wf (a : Access) : Prop := {
  aw_size : 0 < ac_size a <= 16;
  aw_scalar : ac_vector a = false -> ac_size a <= 8;
  aw_rt : 0 <= ac_rt a < 32;
  aw_rt2 : 0 <= ac_rt2 a < 32;
  aw_base : u64_ok (ac_base a)
}.

Lemma top_field i : u32_ok i ->
  Z.shiftr i 30 = 0 \/ Z.shiftr i 30 = 1 \/ Z.shiftr i 30 = 2 \/ Z.shiftr i 30 = 3.
Proof.
  unfold u32_ok. intros Hi. rewrite Z.shiftr_div_pow2 by lia.
  assert (0 <= i / 2 ^ 30 < 4); [|lia]. split; [apply Z.div_pos; lia|apply Z.div_lt_upper_bound; lia].
Qed.
Lemma top_size i : u32_ok i -> 0 < Z.shiftl 1 (Z.shiftr i 30) <= 8.
Proof. intros Hi. by destruct (top_field i Hi) as [->|[->|[->| ->]]]. Qed.
Lemma field5 i lo : 0 <= field i lo 5 < 32.
Proof. unfold field. rewrite Z.land_ones by lia. by apply Z.mod_pos_bound. Qed.

Lemma single_kind_size i size load sign width :
  u32_ok i -> single_kind i = Some (size, load, sign, width) ->
  0 < size <= 16 /\ (bit i 26 = false -> size <= 8).
Proof.
  intros Hi. pose proof (top_size i Hi) as Hs. unfold single_kind. cbv zeta.
  generalize dependent (Z.shiftl 1 (Z.shiftr i 30)). intros s1 Hs.
  generalize (bit (field i 22 2) 0) (Z.shiftr i 30 =? 0) (2 <=? field i 22 2) (field i 22 2 =? 3) (field i 22 2 =? 1).
  intros b1 b2 b3 b4 b5. destruct (bit i 26), b3; cbn iota; try (destruct b2; cbn [negb]; try done).
  all: try (destruct (_ || _); [done|]).
  all: intros [= <- _ _ _]; split; first [lia | done | intros ?; lia].
Qed.
Lemma Accesses_inj a b : Accesses a = Accesses b -> a = b.
Proof. by intros [= ->]. Qed.
Lemma decode_access_wf i r a : u32_ok i -> mregs_ok r -> decode_access i r = Accesses a -> access_wf a.
Proof.
  intros Hi Hr. pose proof (top_size i Hi) as Hsize. pose proof (field5 i 0). pose proof (field5 i 10).
  pose proof (mget_range r (field i 5 5) true Hr). unfold decode_access.
  destruct (_ || _).
  { cbv zeta. destruct (negb _); [done|]. intros <-%Accesses_inj. split; cbn; first [done | lia]. }
  destruct (is_single i).
  { unfold decode_single. destruct (single_kind i) as [[[[size load] sign] width]|] eqn:Ek; [|done].
    destruct (single_kind_size i size load sign width Hi Ek). cbv zeta.
    assert (forall address base writeback, u64_ok base ->
      access_wf (mkAccess address base size (field i 0 5) 0 load (bit i 26) false sign width writeback)) as Hwf
      by (intros; split; cbn [ac_size ac_vector ac_rt ac_rt2 ac_base]; first [done | lia]).
    destruct (bit i 24); [intros <-%Accesses_inj; by apply Hwf|]. destruct (bit i 21).
    - destruct (_ || _); [done|]. intros <-%Accesses_inj. by apply Hwf.
    - destruct (_ && _); [done|]. destruct (_ && _); [done|]. intros <-%Accesses_inj. apply Hwf, w64_range. }
  destruct (is_pair i); [|done]. unfold decode_pair. cbv zeta.
  assert (forall size sign : _, (if bit i 26 then if Z.shiftr i 30 =? 3 then None
    else Some (Z.shiftl 4 (Z.shiftr i 30), false) else if Z.shiftr i 30 =? 0 then Some (4, false)
    else if Z.shiftr i 30 =? 2 then Some (8, false)
    else if (Z.shiftr i 30 =? 1) && bit i 22 && negb (field i 23 2 =? 0) then Some (4, true) else None)
      = Some (size, sign) -> 0 < size <= 16 /\ (bit i 26 = false -> size <= 8)) as Hk.
  { intros size sign. generalize (bit i 26) (bit i 22) (field i 23 2 =? 0). intros v l z.
    destruct (top_field i Hi) as [->|[->|[->| ->]]], v; cbn; try destruct (l && _); intros Heq; simplify_eq; (split; [by vm_compute|by intros ?]). }
  match goal with |- match ?k with _ => _ end = _ -> _ => destruct k as [[size sign]|] eqn:Ek; [|done] end.
  destruct (Hk size sign eq_refl).
  do 2 match goal with |- (if ?b then Unsupported else _) = _ -> _ => destruct b; [done|] end.
  intros <-%Accesses_inj.
  split; cbn [ac_size ac_vector ac_rt ac_rt2 ac_base].
  - done.
  - done.
  - done.
  - done.
  - apply w64_range.
Qed.

(** *** Nothing but the program counter moves it *)

Lemma put_vector_pc r index position bs : mr_pc (put_vector r index position bs) = mr_pc r.
Proof. done. Qed.
Lemma load_slots_pc slots ly vb buffer r : mr_pc (load_slots slots ly vb buffer r) = mr_pc r.
Proof.
  revert buffer r. induction slots as [|[index position] slots IH]; intros buffer r; [done|].
  cbn [load_slots]. rewrite IH. by destruct (ly_replicate ly).
Qed.
Lemma clear_vectors_pc r rt n : mr_pc (clear_vectors r rt n) = mr_pc r.
Proof.
  unfold clear_vectors. revert r. induction (counted n) as [|k ks IH]; intros r; [done|]. cbn. by rewrite IH.
Qed.
Lemma mset_base_pc r rn v : mr_pc (mset_base r rn v) = mr_pc r.
Proof. unfold mset_base. by destruct (_ =? _). Qed.
Lemma mset_x31_pc r n v : mr_pc (mset_x31 r n v) = mr_pc r.
Proof. unfold mset_x31. by destruct (_ =? _). Qed.
Lemma load_register_pc a index bytes r : mr_pc (load_register a index bytes r) = mr_pc r.
Proof. unfold load_register. destruct (ac_vector a); [done|]. by destruct (_ =? _). Qed.
Lemma load_registers_pc a indices bytes r : mr_pc (load_registers a indices bytes r) = mr_pc r.
Proof.
  revert bytes r. induction indices as [|index indices IH]; intros bytes r; [done|].
  cbn [load_registers]. by rewrite IH, load_register_pc.
Qed.

Lemma access_registers_range a index : access_wf a -> index ∈ access_registers a -> 0 <= index < 32.
Proof.
  intros [_ _ Hrt Hrt2 _]. unfold access_registers. destruct (ac_pair a); rewrite !elem_of_cons, elem_of_nil;
    intuition congruence || (intros; intuition lia).
Qed.
Lemma extend_range v bits : u64_ok (extend v bits).
Proof. apply w64_range. Qed.
Lemma load_register_ok a index bytes r :
  access_wf a -> 0 <= index < 32 -> Forall byte_ok bytes -> mregs_ok r ->
  mregs_ok (load_register a index bytes r).
Proof.
  intros [Hsize Hscalar _ _ _] Hi Hb Hr. unfold load_register. destruct (ac_vector a).
  - apply mset_vector_ok; [done|]. apply splice_vector_ok; [apply vector_zero_ok|by apply Forall_take|].
    rewrite length_take. lia.
  - specialize (Hscalar eq_refl). destruct (_ =? 31); [done|]. cbv zeta. apply mset_x_ok; [done|].
    assert (u64_ok (if ac_sign a then extend (scalar_value bytes (ac_size a)) (ac_size a * 8)
      else scalar_value bytes (ac_size a))) as Hv.
    { destruct (ac_sign a); [apply extend_range|]. apply scalar_value_range; [lia|done]. }
    destruct (ac_width a =? 32); [|done]. unfold UINT32_MAX. rewrite land_mask by lia.
    unfold u64_ok. pose proof (Z.mod_pos_bound (if ac_sign a then extend (scalar_value bytes (ac_size a)) (ac_size a * 8)
      else scalar_value bytes (ac_size a)) (2 ^ 32)). lia.
Qed.
Lemma load_registers_ok a indices bytes r :
  access_wf a -> Forall (fun index => 0 <= index < 32) indices -> Forall byte_ok bytes -> mregs_ok r ->
  mregs_ok (load_registers a indices bytes r).
Proof.
  intros Ha Hi. revert bytes r. induction Hi as [|index indices Hi _ IH]; intros bytes r Hb Hr; [done|].
  cbn [load_registers]. apply IH; [by apply Forall_drop|]. by apply load_register_ok.
Qed.
Lemma store_bytes_spec a r :
  access_wf a -> mregs_ok r ->
  Z.of_nat (length (store_bytes a r)) = (if ac_pair a then 2 else 1) * ac_size a /\
  Forall byte_ok (store_bytes a r).
Proof.
  intros Ha Hr. pose proof (aw_size a Ha) as Hs. unfold store_bytes.
  set (f := fun index => _ : list Z).
  assert (forall index, 0 <= index < 32 ->
    Z.of_nat (length (f index)) = ac_size a /\ Forall byte_ok (f index)) as Hf.
  { intros index Hi. unfold f. destruct (ac_vector a).
    - destruct (vget_ok r index Hr Hi) as [Hl Hv]. split; [rewrite length_take; lia|by apply Forall_take].
    - split; [apply scalar_bytes_spec; lia|apply le_bytes_ok]. }
  destruct (Hf (ac_rt a) (aw_rt a Ha)), (Hf (ac_rt2 a) (aw_rt2 a Ha)).
  unfold access_registers. destruct (ac_pair a); cbn [flat_map]; rewrite app_nil_r, ?length_app.
  - split; [lia|]. by apply Forall_app.
  - split; [lia|done].
Qed.

(** ** An instruction retires only after its whole access succeeded *)

Section precise.
Context `{SparseLaws M}.

(** What one instruction leads to. *)
Definition step_post (m : M) (r : GMMemoryRegisters) (out : outcome M) : Prop :=
  let '(step, m', r', fault') := out in
  if decide (step = GM_STEP_OK)
  then mem_ok m' /\ mregs_ok r' /\ mr_pc r' = w64 (mr_pc r + 4) /\ fault' = GM_OK
  else m' = m /\ r' = r /\ (step = GM_STEP_FAULT -> fault' <> GM_OK).

Lemma step_post_refused m r fault : step_post m r (GM_STEP_UNSUPPORTED, m, r, fault).
Proof. done. Qed.
Lemma step_post_fault m r fault : fault <> GM_OK -> step_post m r (GM_STEP_FAULT, m, r, fault).
Proof. done. Qed.
Lemma step_post_retire m m' r r' :
  mem_ok m' -> mregs_ok r' -> mr_pc r' = mr_pc r -> step_post m r (GM_STEP_OK, m', mretire r', GM_OK).
Proof. intros Hm Hr Hp. cbn. rewrite Hp. split; [done|]. split; [by apply mretire_ok|done]. Qed.

Lemma structure_step_post m i r fault :
  mem_ok m -> mregs_ok r -> step_post m r (structure_step m i r fault).
Proof.
  intros Hm Hr. unfold structure_step. destruct (structure_layout i) as [ly|] eqn:Ely; [|done].
  pose proof (structure_layout_ok i ly Ely) as Hly.
  destruct (layout_element _ _ Hly) as (Helt & Hreg & Hrep & _). cbv zeta.
  set (vb := if bit i 30 then 16 else 8).
  assert (vb = 8 \/ vb = 16) as Hvb by (unfold vb; destruct (bit i 30); auto).
  set (lanes := if bit i 24 then 1 else vb / ly_element ly).
  set (slots := structure_slots _ _ lanes ly). set (total := _ * lanes * _).
  assert (Forall (slot_ok (ly_element ly)) slots) as Hslots
    by (apply Forall_forall; intros slot; by apply structure_slots_ok).
  assert (0 <= lanes) as Hlanes by (unfold lanes; destruct (bit i 24); [lia|apply Z.div_pos; lia]).
  assert (Z.of_nat (length slots) * ly_element ly = total) as Htotal.
  { unfold slots, total. rewrite length_structure_slots by done. ring. }
  assert (forall m' r', mem_ok m' -> mregs_ok r' -> mr_pc r' = mr_pc r ->
    step_post m r (GM_STEP_OK, m', mretire (if bit i 23
      then mset_base r' (field i 5 5) (w64 (mget r (field i 5 5) true +
        (if field i 16 5 =? 31 then total else mget r' (field i 16 5) false))) else r'), GM_OK)) as Hretire.
  { intros m' r' Hm' Hr' Hp. apply step_post_retire; [done| |].
    - destruct (bit i 23); [|done]. apply mset_base_ok; [done|apply w64_range].
    - destruct (bit i 23); [|done]. by rewrite mset_base_pc. }
  destruct (bit i 22).
  - pose proof (law_read m (mget r (field i 5 5) true) (replicate (Z.to_nat total) 0) total Hm) as Hread.
    destruct (mem_read _ _ _ _) as [[result m'] bytes]. destruct Hread as [-> Hread].
    { rewrite length_replicate. lia. }
    case_bool_decide as Hres; cbn [negb]; [|by apply step_post_fault]. subst result.
    rewrite decide_True in Hread by done. destruct Hread as [_ Hread].
    apply Hretire; [done| |].
    + apply load_slots_ok; [done|lia|lia|by apply (view_reads_ok m (mget r (field i 5 5) true))|].
      destruct (_ || _); [by apply clear_vectors_ok|done].
    + rewrite load_slots_pc. destruct (_ || _); [by rewrite clear_vectors_pc|done].
  - destruct (store_slots_spec slots ly r Hslots ltac:(lia) Hr) as [Hlen Hbytes].
    pose proof (law_write m (mget r (field i 5 5) true) (store_slots slots ly r) total Hm ltac:(lia) Hbytes) as Hw.
    destruct (mem_write _ _ _ _) as [result m'].
    case_bool_decide as Hres; cbn [negb].
    + subst result. rewrite decide_True in Hw by done. apply Hretire; [by apply Hw|done|done].
    + rewrite decide_False in Hw by done. subst m'. by apply step_post_fault.
Qed.

Lemma atomic_step_post m i r fault :
  u32_ok i -> mem_ok m -> mregs_ok r -> step_post m r (atomic_step m i r fault).
Proof.
  intros Hi Hm Hr. pose proof (top_size i Hi) as Hsize. unfold atomic_step. cbv zeta.
  assert (forall v n, 0 <= n -> Z.of_nat (length (scalar_bytes v n)) = n /\ Forall byte_ok (scalar_bytes v n)) as Hsc
    by (intros; split; [by apply scalar_bytes_spec|apply le_bytes_ok]).
  destruct (is_casp i); [|destruct (is_cas i); [|destruct (is_lse i)]].
  - destruct (_ || _); [done|]. set (size := if bit i 30 then 8 else 4).
    assert (0 < size <= 8) as Hs by (unfold size; destruct (bit i 30); lia).
    assert (forall n, Z.of_nat (length (scalar_bytes (mget r n false) size ++ scalar_bytes (mget r (n + 1) false) size)) = size * 2 /\
      Forall byte_ok (scalar_bytes (mget r n false) size ++ scalar_bytes (mget r (n + 1) false) size)) as Hpair.
    { intros n. destruct (Hsc (mget r n false) size ltac:(lia)), (Hsc (mget r (n + 1) false) size ltac:(lia)).
      rewrite length_app. split; [lia|]. by apply Forall_app. }
    destruct (Hpair (field i 16 5)) as [Hl1 _], (Hpair (field i 0 5)) as [Hl2 Hb2].
    pose proof (law_compare_exchange m (mget r (field i 5 5) true) _ _
      (replicate (Z.to_nat (size * 2)) 0) (size * 2) Hm Hl1 Hl2 Hb2) as H'.
    destruct (mem_compare_exchange _ _ _ _ _ _) as [[result m'] old].
    case_bool_decide as Hres; cbn [negb].
    + subst result. rewrite decide_True in H' by done. destruct H' as (Hm' & _ & Hold & _).
      apply (view_reads_ok m) in Hold; [|done]. apply step_post_retire; [done| |].
      * apply mset_x31_ok; [apply mset_x31_ok; [done|]|]; apply scalar_value_range;
          [lia|done|lia|by apply Forall_drop].
      * by rewrite !mset_x31_pc.
    + rewrite decide_False in H' by done. destruct H' as [-> _]. by apply step_post_fault.
  - destruct (Hsc (mget r (field i 16 5) false) (Z.shiftl 1 (Z.shiftr i 30)) ltac:(lia)) as [Hl1 _].
    destruct (Hsc (mget r (field i 0 5) false) (Z.shiftl 1 (Z.shiftr i 30)) ltac:(lia)) as [Hl2 Hb2].
    pose proof (law_compare_exchange m (mget r (field i 5 5) true) _ _
      (replicate (Z.to_nat (Z.shiftl 1 (Z.shiftr i 30))) 0) _ Hm Hl1 Hl2 Hb2) as H'.
    destruct (mem_compare_exchange _ _ _ _ _ _) as [[result m'] old].
    case_bool_decide as Hres; cbn [negb].
    + subst result. rewrite decide_True in H' by done. destruct H' as (Hm' & _ & Hold & _).
      apply (view_reads_ok m) in Hold; [|done]. apply step_post_retire; [done| |].
      * apply mset_x31_ok; [done|]. apply scalar_value_range; [lia|done].
      * by rewrite mset_x31_pc.
    + rewrite decide_False in H' by done. destruct H' as [-> _]. by apply step_post_fault.
  - destruct (atomic_operation _) as [op|]; [|done].
    pose proof (law_atomic m (mget r (field i 5 5) true) (Z.shiftl 1 (Z.shiftr i 30)) op
      (mget r (field i 16 5) false) 0 Hm ltac:(lia)) as H'.
    destruct (mem_atomic _ _ _ _ _ _) as [[result m'] previous].
    case_bool_decide as Hres; cbn [negb].
    + subst result. rewrite decide_True in H' by done. destruct H' as (Hm' & bs & Hl & Hb & -> & _).
      apply (view_reads_ok m) in Hb; [|done]. apply step_post_retire; [done| |].
      * apply mset_x31_ok; [done|]. pose proof (le_value_range bs Hb). split; [lia|].
        eapply Z.lt_le_trans; [apply H1|]. apply Z.pow_le_mono_r; lia.
      * by rewrite mset_x31_pc.
    + rewrite decide_False in H' by done. destruct H' as [-> _]. by apply step_post_fault.
  - done.
Qed.

Lemma perform_post m rn a r :
  access_wf a -> mem_ok m -> mregs_ok r -> step_post m r (perform m rn a r).
Proof.
  intros Ha Hm Hr. pose proof (aw_size a Ha) as Hs. unfold perform. cbv zeta.
  set (total := _ * ac_size a). assert (0 < total) as Ht by (unfold total; destruct (ac_pair a); lia).
  assert (forall m' r', mem_ok m' -> mregs_ok r' -> mr_pc r' = mr_pc r ->
    step_post m r (GM_STEP_OK, m', mretire (if ac_writeback a then mset_base r' rn (ac_base a) else r'), GM_OK)) as Hretire.
  { intros m' r' Hm' Hr' Hp. apply step_post_retire; [done| |].
    - destruct (ac_writeback a); [|done]. apply mset_base_ok; [done|apply Ha].
    - destruct (ac_writeback a); [|done]. by rewrite mset_base_pc. }
  assert (Forall (fun index => 0 <= index < 32) (access_registers a)) as Hregs
    by (apply Forall_forall; intros index; by apply access_registers_range).
  destruct (ac_load a).
  - pose proof (law_read m (ac_address a) (replicate (Z.to_nat total) 0) total Hm) as Hread.
    destruct (mem_read _ _ _ _) as [[result m'] bytes]. destruct Hread as [-> Hread].
    { rewrite length_replicate. lia. }
    case_bool_decide as Hres; cbn [negb]; [|by apply step_post_fault]. subst result.
    rewrite decide_True in Hread by done. destruct Hread as [_ Hread].
    apply Hretire; [done| |by rewrite load_registers_pc].
    apply load_registers_ok; [done|done| |done]. by apply (view_reads_ok m (ac_address a)).
  - destruct (store_bytes_spec a r Ha Hr) as [Hlen Hbytes].
    pose proof (law_write m (ac_address a) (store_bytes a r) total Hm Hlen Hbytes) as Hw.
    destruct (mem_write _ _ _ _) as [result m'].
    case_bool_decide as Hres; cbn [negb].
    + subst result. rewrite decide_True in Hw by done. apply Hretire; [by apply Hw|done|done].
    + rewrite decide_False in Hw by done. subst m'. by apply step_post_fault.
Qed.

Lemma memory_step_post m i r fault :
  u32_ok i -> mem_ok m -> mregs_ok r -> step_post m r (memory_step m i r fault).
Proof.
  intros Hi Hm Hr. unfold memory_step. cbv zeta.
  destruct (_ || _ || _); [by apply step_post_fault|].
  destruct (_ =? 0x0c000000); [by apply structure_step_post|].
  destruct (_ && _); [by apply atomic_step_post|].
  destruct (decode_access i r) as [| |a] eqn:Ed; [done|by apply step_post_fault|].
  apply perform_post; [|done|done]. by apply (decode_access_wf i r).
Qed.

(** C20: The header's promise: an access instruction retires only after its whole
    access succeeded. On every other outcome, whatever the encoding, the memory,
    all registers and the program counter are unchanged; when it retires, the
    program counter moved by one instruction and the memory and the registers
    are well formed. Null arguments are refused. *)
Theorem gm_memory_step_precise m i r fault :
  u32_ok i -> mem_ok m -> mregs_ok r ->
  let '(step, m', r', fault') := gm_memory_step m i (Some r) (Some fault) in
  match step with
  | GM_STEP_OK => exists r1, r' = Some r1 /\ mem_ok m' /\ mregs_ok r1 /\
      mr_pc r1 = mr_pc r + 4 /\ fault' = Some GM_OK
  | GM_STEP_UNSUPPORTED => m' = m /\ r' = Some r
  | GM_STEP_FAULT => m' = m /\ r' = Some r /\ fault' <> Some GM_OK
  end.
Proof.
  intros Hi Hm Hr. cbn [gm_memory_step].
  pose proof (memory_step_post m i r fault Hi Hm Hr) as H'.
  assert ((memory_step m i r fault).1.1.1 = GM_STEP_OK -> mr_pc r + 4 <= UINT64_MAX) as Hpc.
  { unfold memory_step. cbv zeta. destruct (_ || _ || _) eqn:E; [done|]. intros _. bool_props.
    unfold UINT64_MAX in *. lia. }
  destruct (memory_step m i r fault) as [[[step m'] r'] fault']. unfold step_post in H'. cbn [fst] in Hpc.
  destruct step; cbn in H'.
  - destruct H' as (Hm' & Hr' & Hp & ->). exists r'. split; [done|]. split; [done|]. split; [done|].
    split; [|done]. rewrite Hp. apply w64_small. pose proof (mo_pc r Hr). specialize (Hpc eq_refl).
    unfold u64_ok, UINT64_MAX in *. lia.
  - by destruct H' as (-> & -> & _).
  - destruct H' as (-> & -> & H'). split; [done|]. split; [done|]. intros [= ?]. by apply H'.
Qed.

(** ** What a store wrote, a load returns *)

Definition is_access (i : Z) : bool :=
  negb (Z.land i 0xbe000000 =? 0x0c000000) && (is_rcpc i || negb (is_casp i || is_cas i || is_lse i)).
Lemma memory_step_access m i r fault a m' r' fault' :
  is_access i = true -> decode_access i r = Accesses a ->
  memory_step m i r fault = (GM_STEP_OK, m', r', fault') ->
  perform m (field i 5 5) a r = (GM_STEP_OK, m', r', fault').
Proof.
  unfold is_access, memory_step. intros Hi Hd. apply andb_true_iff in Hi as [H1 H2]. cbv zeta.
  destruct ((_ <? mr_pc r) || _ || _); [done|]. apply negb_true_iff in H1. rewrite H1.
  destruct (is_rcpc i); cbn [negb andb orb] in *; [by rewrite Hd|].
  apply negb_true_iff in H2. by rewrite H2, Hd.
Qed.

(** A base that is written back is none of the registers transferred, and a pair
    is loaded into two registers. *)
Lemma decode_distinct i r a :
  decode_access i r = Accesses a -> ac_vector a = false ->
  (ac_writeback a = true -> field i 5 5 = 31 \/
    field i 5 5 <> ac_rt a /\ (ac_pair a = true -> field i 5 5 <> ac_rt2 a)) /\
  (ac_pair a = true -> ac_load a = true -> ac_rt a <> ac_rt2 a).
Proof.
  unfold decode_access. destruct (_ || _).
  { cbv zeta. destruct (negb _); [done|]. by intros <-%Accesses_inj _; split. }
  destruct (is_single i).
  { unfold decode_single. destruct (single_kind i) as [[[[size load] sign] width]|]; [|done]. cbv zeta.
    destruct (bit i 24); [by intros <-%Accesses_inj _; split|]. destruct (bit i 21).
    - destruct (_ || _); [done|]. by intros <-%Accesses_inj _; split.
    - destruct (_ && _); [done|]. set (w := _ || _). intros H' Hv. split.
      2: { destruct (_ && _); [done|]. apply Accesses_inj in H'. by subst a. }
      intros Hw. destruct (w && negb (bit i 26) && negb (field i 5 5 =? 31) && (field i 5 5 =? field i 0 5)) eqn:E; [done|].
      apply Accesses_inj in H'. subst a. cbn [ac_vector ac_writeback ac_rt ac_pair] in *. rewrite Hw, Hv in E. cbn in E.
      destruct (Z.eqb_spec (field i 5 5) 31); [by left|right]. split; [by apply Z.eqb_neq|done]. }
  destruct (is_pair i); [|done]. unfold decode_pair. cbv zeta.
  match goal with |- match ?k with _ => _ end = _ -> _ => destruct k as [[size sign]|]; [|done] end.
  destruct (bit i 22 && (field i 0 5 =? field i 10 5)) eqn:E1; [done|].
  match goal with |- (if ?b then Unsupported else _) = _ -> _ => destruct b eqn:E2; [done|] end.
  intros <-%Accesses_inj. cbn [ac_vector ac_writeback ac_rt ac_rt2 ac_pair ac_load]. intros Hv. rewrite Hv in E2. split.
  - intros Hw. rewrite Hw in E2. cbn [negb andb] in E2.
    destruct (Z.eqb_spec (field i 5 5) 31); [by left|right]. apply orb_false_iff in E2 as [E2 E3].
    split; [by apply Z.eqb_neq|]. intros _. by apply Z.eqb_neq.
  - intros _ Hl. rewrite Hl in E1. by apply Z.eqb_neq.
Qed.

Lemma mget_set_same r n v : length (mr_x r) = 31%nat -> 0 <= n < 31 -> mget (mset_x r n v) n false = v.
Proof.
  intros Hl Hn. unfold mget, mset_x. cbn [mr_x]. rewrite (proj2 (Z.ltb_lt _ _)) by lia.
  rewrite list_lookup_insert_eq by lia. done.
Qed.
Lemma mget_set_other r n k v : n <> k -> 0 <= n -> 0 <= k -> mget (mset_x r n v) k false = mget r k false.
Proof.
  intros Hn Hp Hk. unfold mget, mset_x. cbn [mr_x]. destruct (k <? 31); [|done].
  by rewrite list_lookup_insert_ne by lia.
Qed.
Lemma mget_base_other r rn k v : rn = 31 \/ rn <> k -> 0 <= rn -> 0 <= k ->
  mget (mset_base r rn v) k false = mget r k false.
Proof.
  intros Hk Hr Hp. unfold mset_base. destruct (Z.eqb_spec rn 31); [done|]. apply mget_set_other; [|done..].
  by destruct Hk.
Qed.

(** The value a scalar load leaves in its register when memory holds [v]. *)
Definition loaded (a : Access) (v : Z) : Z :=
  let v := v mod 2 ^ (8 * ac_size a) in
  let v := if ac_sign a then extend v (ac_size a * 8) else v in
  if ac_width a =? 32 then Z.land v UINT32_MAX else v.
Lemma scalar_round v size rest :
  0 <= size -> scalar_value (scalar_bytes v size ++ rest) size = v mod 2 ^ (8 * size).
Proof.
  intros Hs. unfold scalar_value, scalar_bytes. rewrite take_app_le by (rewrite length_le_bytes; lia).
  rewrite take_ge by (rewrite length_le_bytes; lia). rewrite le_value_le_bytes. do 2 f_equal. lia.
Qed.
Lemma load_register_get a index bytes r :
  mregs_ok r -> ac_vector a = false -> 0 <= index < 31 ->
  mget (load_register a index bytes r) index false =
    (let v := scalar_value bytes (ac_size a) in
     let v := if ac_sign a then extend v (ac_size a * 8) else v in
     if ac_width a =? 32 then Z.land v UINT32_MAX else v).
Proof.
  intros Hr Hv Hi. unfold load_register. rewrite Hv, (proj2 (Z.eqb_neq index 31)) by lia. cbv zeta.
  by rewrite mget_set_same by (done || apply Hr).
Qed.
Lemma load_register_other a index bytes r k :
  ac_vector a = false -> index <> k -> 0 <= index -> 0 <= k ->
  mget (load_register a index bytes r) k false = mget r k false.
Proof.
  intros Hv Hne Hi Hk. unfold load_register. rewrite Hv. destruct (_ =? 31); [done|].
  by apply mget_set_other.
Qed.

(** A store of one or two general registers and a later load of the same size
    from the same address, whatever their encodings and addressing modes: the
    load leaves in its registers the stored registers, cut to the access size
    and extended the way the load says. *)
Theorem store_then_load m i r f a m1 r1 f1 j r2 f2 b m2 r3 f3 :
  u32_ok i -> u32_ok j -> mem_ok m -> mregs_ok r -> mregs_ok r2 ->
  is_access i = true -> decode_access i r = Accesses a -> ac_load a = false ->
  is_access j = true -> decode_access j r2 = Accesses b -> ac_load b = true ->
  ac_vector a = false -> ac_vector b = false -> ac_pair a = ac_pair b ->
  ac_address a = ac_address b -> ac_size a = ac_size b ->
  memory_step m i r f = (GM_STEP_OK, m1, r1, f1) ->
  memory_step m1 j r2 f2 = (GM_STEP_OK, m2, r3, f3) ->
  m2 = m1 /\
  (ac_rt b <> 31 -> mget r3 (ac_rt b) false = loaded b (mget r (ac_rt a) false)) /\
  (ac_pair b = true -> ac_rt2 b <> 31 -> mget r3 (ac_rt2 b) false = loaded b (mget r (ac_rt2 a) false)).
Proof.
  intros Hi Hj Hm Hr Hr2 Hia Hda Hla Hjb Hdb Hlb Hva Hvb Hpair Haddr Hsize Hs Hl.
  pose proof (decode_access_wf i r a Hi Hr Hda) as Hwa. pose proof (decode_access_wf j r2 b Hj Hr2 Hdb) as Hwb.
  destruct (decode_distinct j r2 b Hdb Hvb) as [Hbase Hdist].
  apply (memory_step_access _ _ _ _ a) in Hs; [|done..]. apply (memory_step_access _ _ _ _ b) in Hl; [|done..].
  unfold perform in Hs, Hl. rewrite Hla in Hs. rewrite Hlb in Hl. cbv zeta in Hs, Hl.
  destruct (store_bytes_spec a r Hwa Hr) as [Hlen Hbytes].
  pose proof (law_write m (ac_address a) (store_bytes a r) _ Hm Hlen Hbytes) as Hw.
  destruct (mem_write _ _ _ _) as [result m1']. revert Hs. case_bool_decide as Hres; [|done]. cbn [negb].
  intros [= <- _ _]. subst result. rewrite decide_True in Hw by done. destruct Hw as (Hm1 & Hst & Hmap).
  rewrite <- Haddr, <- Hpair, <- Hsize in Hl.
  set (total := _ * ac_size a) in *.
  pose proof (law_read m1' (ac_address a) (replicate (Z.to_nat total) 0) total Hm1) as Hread.
  destruct (mem_read _ _ _ _) as [[result m2'] bytes]. destruct Hread as [-> Hread].
  { rewrite length_replicate. lia. }
  revert Hl. case_bool_decide as Hres; [|done]. cbn [negb]. intros [= <- <- _]. subst result.
  rewrite decide_True in Hread by done. destruct Hread as [Hlr Hread]. rewrite length_replicate in Hlr.
  assert (bytes = store_bytes a r) as ->.
  { apply (view_reads_functional (mem_view m1') (ac_address a)); [done| |lia].
    apply (view_stored_reads (mem_view m)); [by rewrite Hlen|done]. }
  split; [done|].
  pose proof (aw_rt b Hwb) as Hrt. pose proof (aw_rt2 b Hwb) as Hrt2. pose proof (aw_size a Hwa) as Hsz.
  pose proof (field5 j 5) as Hrn.
  assert (forall k r', 0 <= k ->
    (ac_writeback b = true -> field j 5 5 = 31 \/ field j 5 5 <> k) ->
    mget (mretire (if ac_writeback b then mset_base r' (field j 5 5) (ac_base b) else r')) k false = mget r' k false) as Hwb'.
  { intros k r' Hk Hd. change (mget (mretire ?q) k false) with (mget q k false).
    destruct (ac_writeback b); [|done]. apply mget_base_other; [by apply Hd|lia|done]. }
  assert (forall v rest, scalar_value (scalar_bytes v (ac_size a) ++ rest) (ac_size b) = v mod 2 ^ (8 * ac_size b)) as Hround
    by (intros; rewrite Hsize; apply scalar_round; lia).
  unfold store_bytes, access_registers. rewrite Hva, Hpair. split.
  - intros H31. rewrite Hwb'; [|lia|intros Hwbk; destruct (Hbase Hwbk) as [?|[? _]]; auto].
    destruct (ac_pair b) eqn:Ep; cbn [flat_map load_registers]; rewrite ?app_nil_r.
    + rewrite load_register_other by (done || lia || (apply not_eq_sym; by apply Hdist)).
      rewrite load_register_get by (done || lia). unfold loaded. cbv zeta. by rewrite Hround.
    + rewrite load_register_get by (done || lia). unfold loaded. cbv zeta.
      by rewrite <- (app_nil_r (scalar_bytes _ _)), Hround.
  - intros Ep H31. rewrite Hwb'; [|lia|intros Hwbk; destruct (Hbase Hwbk) as [?|[_ ?]]; auto].
    rewrite Ep. cbn [flat_map load_registers]. rewrite app_nil_r.
    rewrite load_register_get; [|apply load_register_ok; [done|lia|apply Forall_app; split; apply le_bytes_ok|done]|done|lia].
    unfold loaded. cbv zeta. rewrite drop_app_length' by (pose proof (scalar_bytes_spec (mget r (ac_rt a) false) (ac_size a)); lia).
    by rewrite <- (app_nil_r (scalar_bytes _ _)), Hround.
Qed.
End precise.

(** ** Witnesses *)

(** [str w1, [x0]] and [ldrsw x2, [x0]] on a mapped page. *)
Definition example_registers : GMMemoryRegisters :=
  mkMemoryRegisters ([65536; 0x80000001] ++ replicate 29 0) 65536 4096 (replicate 32 vector_zero).
Lemma example_registers_ok : mregs_ok example_registers.
Proof.
  split; [done| |by split|by split|done|].
  - apply (Forall_app_2 _ [65536; 0x80000001]); [by repeat constructor|].
    by apply (Forall_replicate u64_ok 29).
  - apply (Forall_replicate vector_ok 32), vector_zero_ok.
Qed.
Definition example_store_step : outcome (option Space) :=
  memory_step (Some example_space) 0xb9000001 example_registers GM_OK.
Lemma example_space_ok : mem_ok (Some example_space).
Proof. intros s [= <-]. apply example_space_wf. Qed.

Lemma gm_memory_step_precise_witness :
  (gm_memory_step (Some example_space) 0xf9000001 (Some example_registers) (Some GM_OK)).1.1.1 = GM_STEP_OK /\
  exists r, (gm_memory_step (Some example_space) 0xf9000001 (Some example_registers) (Some GM_OK)).1.2 = Some r /\
    mr_pc r = 4100.
Proof.
  assert ((gm_memory_step (Some example_space) 0xf9000001 (Some example_registers) (Some GM_OK)).1.1.1 = GM_STEP_OK)
    as E by (vm_compute; reflexivity).
  split; [exact E|].
  pose proof (gm_memory_step_precise (Some example_space) 0xf9000001 example_registers GM_OK
    ltac:(by split) example_space_ok example_registers_ok) as H.
  destruct (gm_memory_step _ _ _ _) as [[[step m'] r'] f']. cbn [fst snd] in *. subst step.
  destruct H as (r1 & -> & _ & _ & Hp & _). exists r1. split; [reflexivity|]. exact Hp.
Defined.
Lemma store_then_load_witness :
  (memory_step example_store_step.1.1.2 0xb9800002 example_registers GM_OK).1.1.1 = GM_STEP_OK /\
  mget (memory_step example_store_step.1.1.2 0xb9800002 example_registers GM_OK).1.2 2 false = 0xffffffff80000001.
Proof.
  assert (example_store_step.1.1.1 = GM_STEP_OK) as E1 by (vm_compute; reflexivity).
  assert ((memory_step example_store_step.1.1.2 0xb9800002 example_registers GM_OK).1.1.1 = GM_STEP_OK) as E2
    by (vm_compute; reflexivity).
  split; [exact E2|].
  destruct example_store_step as [[[step1 m1] r1] f1] eqn:Es. cbn [fst snd] in *. subst step1.
  destruct (memory_step m1 _ _ _) as [[[step2 m2] r3] f3] eqn:El. cbn [fst snd] in *. subst step2.
  destruct (store_then_load (Some example_space) 0xb9000001 example_registers GM_OK
    (mkAccess 65536 65536 4 1 0 false false false false 64 false) m1 r1 f1 0xb9800002 example_registers GM_OK
    (mkAccess 65536 65536 4 2 0 true false false true 64 false) m2 r3 f3) as (_ & H & _);
    [by split|by split|exact example_space_ok|exact example_registers_ok|exact example_registers_ok|
     reflexivity|reflexivity|reflexivity|reflexivity|reflexivity|reflexivity|reflexivity|reflexivity|
     reflexivity|reflexivity|reflexivity|exact Es|exact El|].
  specialize (H ltac:(discriminate)). cbn [ac_rt] in H. rewrite H. vm_compute. reflexivity.
Defined.
