(* ===== verification/GuestExclusive.v ===== *)
(** * GuestExclusive: bounded exclusive sequences (runtime/GuestExclusive.c)

    A load-exclusive to store-exclusive sequence run as one operation, with the
    register instructions of GuestCPU and the accesses of
    GuestMemoryInstruction between them. *)
From S2P Require Import Prelude GuestMemory GuestCPU SparseRegions SparseTable GuestSparseMemory SparseInterface GuestMemoryInstruction.

Definition gm_exclusive_instruction (i : Z) : bool :=
  (Z.land i 0x3f800000 =? 0x08000000) && (negb (bit i 21) || (2 <=? Z.shiftr i 30)).

Definition no_monitor : GMSparseExclusive := mkExclusive 0 0 0 0 false.
Definition get (r : GCRegisters) (n : Z) (stack : bool) : Z :=
  if n <? 31 then xreg r n else if stack then r_sp r else 0.
Definition set_x31 (r : GCRegisters) (n v : Z) : GCRegisters :=
  if negb (n =? 31) then set_x r n v else r.
Definition advance (r : GCRegisters) : GCRegisters := set_pc r (w64 (r_pc r + 4)).

Section exclusive.
Context {M : Type} `{SparseMemory M}.

(** The outcome, the memory, the registers, the monitor, the value behind
    [fault] and whether the sequence is finished. *)
Definition exclusive (m : M) (i : Z) (r : GCRegisters) (monitor : GMSparseExclusive)
    (fault : GMResult) : GMMemoryStep * M * GCRegisters * GMSparseExclusive * GMResult * bool :=
  let rt := field i 0 5 in let rn := field i 5 5 in
  let rt2 := field i 10 5 in let rs := field i 16 5 in
  let pair := bit i 21 in let load := bit i 22 in
  let size := Z.shiftl 1 (Z.shiftr i 30) in
  let count := if pair then 2 else 1 in
  if (negb pair && negb (rt2 =? 31)) || (load && negb (rs =? 31)) || (load && pair && (rt =? rt2)) ||
     (negb load && negb (rs =? 31) && ((rs =? rn) || (rs =? rt) || (pair && (rs =? rt2))))
  then (GM_STEP_UNSUPPORTED, m, r, monitor, fault, false) else
  if ((rn =? 31) && negb (Z.land (r_sp r) 15 =? 0)) || negb (Z.land (r_pc r) 3 =? 0) ||
     (UINT64_MAX - 4 <? r_pc r) then (GM_STEP_FAULT, m, r, monitor, GM_INVALID, false) else
  let address := get r rn true in
  if load then
    let '(result, m, bytes, monitor) :=
      mem_load_exclusive m address (replicate (Z.to_nat (size * count)) 0) (size * count) monitor in
    if negb (bool_decide (result = GM_OK)) then (GM_STEP_FAULT, m, r, monitor, result, false) else
    let r := set_x31 r rt (scalar_value bytes size) in
    let r := if pair then set_x31 r rt2 (scalar_value (drop (Z.to_nat size) bytes) size) else r in
    (GM_STEP_OK, m, advance r, monitor, result, false)
  else
    let bytes := scalar_bytes (get r rt false) size ++
                 (if pair then scalar_bytes (get r rt2 false) size else []) in
    let '(result, m, monitor, stored) :=
      mem_store_exclusive m address bytes (size * count) monitor false in
    if negb (bool_decide (result = GM_OK)) then (GM_STEP_FAULT, m, r, monitor, result, false) else
    (GM_STEP_OK, m, advance (set_x31 r rs (if stored then 0 else 1)), monitor, result, true).

(** Whether an access that retired only read memory. *)
Definition counts_as_load (i : Z) : bool :=
  let load := is_rcpc i || (is_ordered i && bit i 22) ||
              (is_single i && negb (field i 22 2 =? 0)) || (is_pair i && bit i 22) in
  if negb (is_rcpc i) && is_lse i then false else load.

Definition is_clrex (i : Z) : bool := Z.land i 0xfffff0ff =? 0xd503305f.

(** One turn: the outcome, the new state and whether the sequence is finished. *)
Definition sequence_step (m : M) (i : Z) (r : GCRegisters) (monitor : GMSparseExclusive)
    (fault : GMResult) : GMMemoryStep * M * GCRegisters * GMSparseExclusive * GMResult * bool :=
  if gm_exclusive_instruction i then exclusive m i r monitor fault
  else if is_clrex i then (GM_STEP_OK, m, advance r, monitor, fault, true)
  else
    let '(executed, r') := gc_register_step (Some r) i in
    if executed then (GM_STEP_OK, m, default r r', monitor, fault, false)
    else if bit i 26 then (GM_STEP_UNSUPPORTED, m, r, monitor, fault, false)
    else
      let access := mkMemoryRegisters (r_x r) (r_sp r) (r_pc r) (replicate 32 vector_zero) in
      let '(result, m, access, fault) := memory_step m i access fault in
      if bool_decide (result = GM_STEP_OK)
      then (GM_STEP_OK, m, mkRegisters (mr_x access) (mr_sp access) (mr_pc access) (r_nzcv r),
            monitor, fault, negb (counts_as_load i))
      else (result, m, r, monitor, fault, false).

(** [fetch] is the caller's function; [None] when it fails. *)
Fixpoint sequence_loop (steps : nat) (fetch : Z -> option Z) (start : Z) (m : M) (i : Z)
    (r : GCRegisters) (monitor : GMSparseExclusive) (registers : GCRegisters) (fault : GMResult)
    : GMMemoryStep * M * GCRegisters * GMResult :=
  match steps with
  | O => (GM_STEP_UNSUPPORTED, m, registers, fault)
  | S steps =>
    let '(result, m, r, monitor, fault, finished) := sequence_step m i r monitor fault in
    if negb (bool_decide (result = GM_STEP_OK)) then (result, m, registers, fault) else
    if finished || (r_pc r <? start) || (start + 128 <=? r_pc r)
    then (GM_STEP_OK, m, r, GM_OK) else
    match fetch (r_pc r) with
    | None => (GM_STEP_FAULT, m, registers, GM_INVALID)
    | Some i => sequence_loop steps fetch start m i r monitor registers fault
    end
  end.

(** The registers, the fetch function and the fault are [None] for null
    pointers. *)
Definition gm_exclusive_sequence (m : M) (first : Z) (registers : option GCRegisters)
    (fetch : option (Z -> option Z)) (fault : option GMResult)
    : GMMemoryStep * M * option GCRegisters * option GMResult :=
  match registers, fetch, fault with
  | Some r, Some fetch, Some fault =>
    if negb (gm_exclusive_instruction first) then (GM_STEP_UNSUPPORTED, m, registers, Some fault) else
    if UINT64_MAX - 128 <? r_pc r then (GM_STEP_FAULT, m, registers, Some GM_INVALID) else
    let '(result, m, r, fault) := sequence_loop 32 fetch (r_pc r) m first r no_monitor r fault in
    (result, m, Some r, Some fault)
  | _, _, _ => (GM_STEP_UNSUPPORTED, m, registers, fault)
  end.
End exclusive.

(** ** Which instructions write memory *)

Lemma masked_bit i a b k :
  (Z.land i a =? b) = true -> Z.testbit a k = true -> Z.testbit i k = Z.testbit b k.
Proof. intros <-%Z.eqb_eq Ha. by rewrite Z.land_spec, Ha, andb_true_r. Qed.

(** The bits that tell the encoding groups apart. *)
Lemma single_bits i : is_single i = true -> Z.testbit i 29 = true /\ Z.testbit i 28 = true.
Proof.
  unfold is_single. intros [H|H]%orb_true_iff.
  all: split; [by rewrite (masked_bit _ _ _ 29 H)|by rewrite (masked_bit _ _ _ 28 H)].
Qed.
Lemma pair_bits i : is_pair i = true -> Z.testbit i 29 = true /\ Z.testbit i 28 = false.
Proof. intros H. split; [by rewrite (masked_bit _ _ _ 29 H)|by rewrite (masked_bit _ _ _ 28 H)]. Qed.
Lemma cas_bits i : is_cas i = true -> Z.testbit i 29 = false.
Proof. intros H. by rewrite (masked_bit _ _ _ 29 H). Qed.
Lemma casp_bits i : is_casp i = true -> Z.testbit i 29 = false /\ Z.testbit i 23 = false.
Proof. intros H. split; [by rewrite (masked_bit _ _ _ 29 H)|by rewrite (masked_bit _ _ _ 23 H)]. Qed.
Lemma ordered_bits i : is_ordered i = true -> Z.testbit i 29 = false /\ Z.testbit i 23 = true.
Proof. intros H. split; [by rewrite (masked_bit _ _ _ 29 H)|by rewrite (masked_bit _ _ _ 23 H)]. Qed.

(** A compare-and-swap whose register field reads as an ordered access: CASL and
    CASAL with the zero register. *)
Definition ordered_cas (i : Z) : bool := is_cas i && is_ordered i.

Lemma exclusive_not_ordered i : gm_exclusive_instruction i = true -> ordered_cas i = false.
Proof.
  intros Hex. unfold ordered_cas. destruct (is_cas i) eqn:Ec; [|done]. exfalso.
  unfold gm_exclusive_instruction in Hex. apply andb_true_iff in Hex as [Hex _].
  pose proof (masked_bit _ _ _ 23 Hex eq_refl) as H1. pose proof (masked_bit _ _ _ 23 Ec eq_refl) as H2.
  by rewrite H1 in H2.
Qed.
Lemma load_not_atomic i :
  counts_as_load i = true -> ordered_cas i = false ->
  negb (is_rcpc i) && (is_casp i || is_cas i || is_lse i) = false.
Proof.
  unfold counts_as_load, ordered_cas. intros Hl Hc. destruct (is_rcpc i); [done|]. cbn [negb andb orb] in *.
  destruct (is_lse i); [done|]. rewrite orb_false_r.
  destruct (is_casp i) eqn:Ep; [|destruct (is_cas i) eqn:Ec; [|done]].
  - exfalso. destruct (casp_bits i Ep) as [H29 H23].
    destruct (is_ordered i) eqn:Eo; [destruct (ordered_bits i Eo); congruence|].
    destruct (is_single i) eqn:Es; [destruct (single_bits i Es); congruence|].
    destruct (is_pair i) eqn:Epr; [destruct (pair_bits i Epr); congruence|done].
  - exfalso. pose proof (cas_bits i Ec) as H29. cbn [andb] in Hc. rewrite Hc in Hl.
    destruct (is_single i) eqn:Es; [destruct (single_bits i Es); congruence|].
    destruct (is_pair i) eqn:Epr; [destruct (pair_bits i Epr); congruence|done].
Qed.
Lemma load_access i r a :
  counts_as_load i = true -> bit i 26 = false -> decode_access i r = Accesses a -> ac_load a = true.
Proof.
  unfold counts_as_load. intros Hl H26. assert (is_rcpc i || (is_ordered i && bit i 22) ||
    (is_single i && negb (field i 22 2 =? 0)) || (is_pair i && bit i 22) = true) as Hl'
    by (by destruct (negb (is_rcpc i) && is_lse i)). clear Hl.
  unfold decode_access. destruct (is_rcpc i || is_ordered i) eqn:Ero.
  { cbv zeta. destruct (negb (_ mod _ =? 0)); [done|]. intros <-%Accesses_inj. cbn [ac_load].
    destruct (is_rcpc i); [done|]. cbn [orb] in *. destruct (ordered_bits i Ero) as [H29 _].
    destruct (is_single i) eqn:Es; [destruct (single_bits i Es); congruence|].
    destruct (is_pair i) eqn:Epr; [destruct (pair_bits i Epr); congruence|].
    rewrite Ero in Hl'. cbn [andb orb] in Hl'. by rewrite !orb_false_r in Hl'. }
  apply orb_false_iff in Ero as [Er Eo]. rewrite Er, Eo in Hl'. cbn [andb orb] in Hl'.
  destruct (is_single i) eqn:Es.
  - assert (is_pair i = false) as Epr.
    { destruct (is_pair i) eqn:Epr; [|done]. destruct (pair_bits i Epr), (single_bits i Es). congruence. }
    rewrite Epr in Hl'. rewrite orb_false_r in Hl'. cbn [andb] in Hl'. apply negb_true_iff, Z.eqb_neq in Hl'.
    unfold decode_single. destruct (single_kind i) as [[[[size load] sign] width]|] eqn:Ek; [|done].
    assert (load = true) as ->.
    { clear -Hl' H26 Ek. unfold single_kind in Ek. rewrite H26 in Ek. cbv zeta in Ek.
      destruct (field2 i 22) as [E|[E|[E|E]]]; rewrite E in *; [done|cbn in Ek; congruence|..];
        cbn in Ek; revert Ek; (destruct (_ || _); [done|]); congruence. }
    cbv zeta. destruct (bit i 24); [by intros <-%Accesses_inj|]. destruct (bit i 21).
    + destruct (_ || _); [done|]. by intros <-%Accesses_inj.
    + destruct (_ && _); [done|]. destruct (_ && _); [done|]. by intros <-%Accesses_inj.
  - destruct (is_pair i); [|done]. cbn [andb orb] in Hl'. unfold decode_pair. cbv zeta.
    match goal with |- match ?k with _ => _ end = _ -> _ => destruct k as [[size sign]|]; [|done] end.
    do 2 match goal with |- (if ?b then Unsupported else _) = _ -> _ => destruct b; [done|] end.
    by intros <-%Accesses_inj.
Qed.

Section precise.
Context `{SparseLaws M}.

Lemma load_step_reads m i r fault m' r' fault' :
  u32_ok i -> mregs_ok r -> mem_ok m -> counts_as_load i = true -> ordered_cas i = false ->
  bit i 26 = false ->
  memory_step m i r fault = (GM_STEP_OK, m', r', fault') -> m' = m.
Proof.
  intros Hi Hr Hm Hl Hc H26 Hs.
  assert (is_access i = true) as Ha.
  { unfold is_access. pose proof (load_not_atomic i Hl Hc) as Hn.
    destruct (Z.land i 0xbe000000 =? 0x0c000000) eqn:Est.
    - pose proof (masked_bit _ _ _ 26 Est eq_refl) as Hb. unfold bit in H26. rewrite H26 in Hb. done.
    - cbn [negb andb]. by destruct (is_rcpc i), (is_casp i || is_cas i || is_lse i). }
  destruct (decode_access i r) as [| |a] eqn:Ed.
  1,2: unfold is_access, memory_step in *; apply andb_true_iff in Ha as [H1 H2]; cbv zeta in Hs;
    destruct ((_ <? mr_pc r) || _ || _); [done|]; apply negb_true_iff in H1; rewrite H1 in Hs;
    destruct (is_rcpc i); cbn [negb andb orb] in *; [by rewrite Ed in Hs|];
    apply negb_true_iff in H2; by rewrite H2, Ed in Hs.
  apply (memory_step_access _ _ _ _ a) in Hs; [|done..].
  pose proof (load_access i r a Hl H26 Ed) as Hla. unfold perform in Hs. rewrite Hla in Hs. cbv zeta in Hs.
  set (total := _ * ac_size a) in Hs. assert (0 < total) as Ht.
  { destruct (aw_size a (decode_access_wf i r a Hi Hr Ed)). unfold total. destruct (ac_pair a); lia. }
  pose proof (law_read m (ac_address a) (replicate (Z.to_nat total) 0) total Hm) as Hread.
  destruct (mem_read _ _ _ _) as [[result m1] bytes]. destruct Hread as [-> _]; [rewrite length_replicate; lia|].
  revert Hs. case_bool_decide; [|done]. cbn [negb]. by intros [= <- _ _].
Qed.

(** ** A sequence that fails changed nothing *)

Definition access_of (r : GCRegisters) : GMMemoryRegisters :=
  mkMemoryRegisters (r_x r) (r_sp r) (r_pc r) (replicate 32 vector_zero).
Lemma access_of_ok r : regs_ok r -> mregs_ok (access_of r).
Proof.
  intros []. split; try done. apply (Forall_replicate vector_ok 32), vector_zero_ok.
Qed.
Lemma access_back_ok a nzcv : mregs_ok a -> regs_ok (mkRegisters (mr_x a) (mr_sp a) (mr_pc a) nzcv).
Proof. intros []. by split. Qed.
Lemma advance_ok r : regs_ok r -> regs_ok (advance r).
Proof. intros. apply set_pc_ok; [done|apply w64_range]. Qed.
Lemma set_x31_ok r n v : regs_ok r -> u64_ok v -> regs_ok (set_x31 r n v).
Proof. intros. unfold set_x31. destruct (negb _); [by apply set_x_ok|done]. Qed.

Lemma register_step_ok r i :
  regs_ok r -> let '(executed, r') := gc_register_step (Some r) i in if executed then regs_ok (default r r') else True.
Proof.
  intros Hr. unfold gc_register_step. destruct (_ || _); [done|].
  pose proof (register_decoded_ok r (r_pc r) i Hr) as Hok. destruct (register_decoded _ _) as [executed r1]. by destruct executed.
Qed.

(** What one turn leads to. *)
Definition turn_post (m : M) (r : GCRegisters)
    (out : GMMemoryStep * M * GCRegisters * GMSparseExclusive * GMResult * bool) : Prop :=
  let '(result, m', r', _, _, finished) := out in
  if decide (result = GM_STEP_OK)
  then mem_ok m' /\ regs_ok r' /\ (finished = false -> m' = m)
  else m' = m.

Lemma exclusive_post m i r monitor fault :
  u32_ok i -> mem_ok m -> regs_ok r -> turn_post m r (exclusive m i r monitor fault).
Proof.
  intros Hi Hm Hr. pose proof (top_size i Hi) as Hsize. unfold exclusive. cbv zeta.
  set (size := Z.shiftl 1 (Z.shiftr i 30)) in *. clearbody size.
  set (count := if bit i 21 then 2 else 1).
  assert (0 < size * count) as Hpos by (unfold count; destruct (bit i 21); lia).
  destruct (_ || _ || _ || _); [done|]. destruct (_ || _ || _); [done|].
  destruct (bit i 22).
  - pose proof (law_load_exclusive m (get r (field i 5 5) true)
      (replicate (Z.to_nat (size * count)) 0) (size * count) monitor Hm) as Hl.
    destruct (mem_load_exclusive _ _ _ _ _) as [[[result m'] bytes] monitor'].
    destruct Hl as [-> Hl]; [rewrite length_replicate; lia|].
    case_bool_decide as Hres; cbn [negb]; [|done]. subst result. rewrite decide_True in Hl by done.
    destruct Hl as [_ Hb%(view_reads_ok m)]; [|done]. split; [done|]. split; [|done]. apply advance_ok.
    assert (regs_ok (set_x31 r (field i 0 5) (scalar_value bytes size))) as H1.
    { apply set_x31_ok; [done|]. apply scalar_value_range; [lia|done]. }
    destruct (bit i 21); [|done]. apply set_x31_ok; [done|].
    apply scalar_value_range; [lia|by apply Forall_drop].
  - set (bytes := _ ++ _). assert (Z.of_nat (length bytes) = size * count /\ Forall byte_ok bytes) as [Hl Hb].
    { unfold bytes, count. rewrite length_app, Forall_app. pose proof (scalar_bytes_spec (get r (field i 0 5) false) size ltac:(lia)).
      pose proof (scalar_bytes_spec (get r (field i 10 5) false) size ltac:(lia)).
      destruct (bit i 21); cbn [length]; (split; [lia|]); split; try apply le_bytes_ok. constructor. }
    pose proof (law_store_exclusive m (get r (field i 5 5) true) bytes (size * count) monitor false Hm Hl Hb) as Hs.
    destruct (mem_store_exclusive _ _ _ _ _ _) as [[[result m'] monitor'] stored].
    case_bool_decide as Hres; cbn [negb].
    + subst result. rewrite decide_True in Hs by done. split; [apply Hs|]. split; [|done].
      apply advance_ok, set_x31_ok; [done|]. by destruct stored.
    + rewrite decide_False in Hs by done. cbn. rewrite decide_False by done. apply Hs.
Qed.

Lemma sequence_step_post m i r monitor fault :
  u32_ok i -> ordered_cas i = false -> mem_ok m -> regs_ok r ->
  turn_post m r (sequence_step m i r monitor fault).
Proof.
  intros Hi Hc Hm Hr. unfold sequence_step.
  destruct (gm_exclusive_instruction i); [by apply exclusive_post|].
  destruct (is_clrex i); [split; [done|split; [by apply advance_ok|done]]|].
  pose proof (register_step_ok r i Hr) as Hstep. destruct (gc_register_step (Some r) i) as [executed r']. destruct executed.
  { split; [done|]. split; [exact Hstep|done]. }
  destruct (bit i 26) eqn:H26; [done|]. fold (access_of r).
  pose proof (memory_step_post m i (access_of r) fault Hi Hm (access_of_ok r Hr)) as Hpost.
  pose proof (load_step_reads m i (access_of r) fault) as Hload.
  destruct (memory_step m i (access_of r) fault) as [[[result m'] access] fault']. unfold step_post in Hpost.
  case_bool_decide as Hres.
  - rewrite decide_True in Hpost by done. destruct Hpost as (Hm' & Ha & _). split; [done|].
    split; [by apply access_back_ok|]. intros Hf%negb_false_iff. subst result.
    by apply (Hload m' access fault'); [|apply access_of_ok|..].
  - rewrite decide_False in Hpost by done. cbn. rewrite decide_False by done. apply Hpost.
Qed.

Lemma sequence_loop_post steps fetch start m i r monitor registers fault :
  u32_ok i -> ordered_cas i = false ->
  (forall pc j, fetch pc = Some j -> u32_ok j /\ ordered_cas j = false) ->
  mem_ok m -> regs_ok r ->
  let '(result, m', r', _) := sequence_loop steps fetch start m i r monitor registers fault in
  if decide (result = GM_STEP_OK) then mem_ok m' /\ regs_ok r' else m' = m /\ r' = registers.
Proof.
  intros Hi Hc Hfetch. revert i Hi Hc m r monitor fault.
  induction steps as [|steps IH]; intros i Hi Hc m r monitor fault Hm Hr; cbn [sequence_loop]; [done|].
  pose proof (sequence_step_post m i r monitor fault Hi Hc Hm Hr) as Hpost.
  destruct (sequence_step m i r monitor fault) as [[[[[result m1] r1] monitor1] fault1] finished].
  unfold turn_post in Hpost. case_bool_decide as Hres; cbn [negb].
  2: { rewrite decide_False in Hpost by done. rewrite decide_False by done. by subst m1. }
  rewrite decide_True in Hpost by done. destruct Hpost as (Hm1 & Hr1 & Hsame).
  destruct finished; cbn [orb]; [done|]. specialize (Hsame eq_refl). subst m1.
  destruct (_ || _); [done|]. destruct (fetch (r_pc r1)) as [j|] eqn:Ef; [|done].
  destruct (Hfetch _ _ Ef). by apply IH.
Qed.

(** Whatever a sequence does, it leaves a well-formed memory and registers. *)
Lemma sequence_step_ok m i r monitor fault :
  u32_ok i -> mem_ok m -> regs_ok r ->
  let '(result, m', r', _, _, _) := sequence_step m i r monitor fault in
  mem_ok m' /\ (result = GM_STEP_OK -> regs_ok r').
Proof.
  intros Hi Hm Hr. unfold sequence_step. destruct (gm_exclusive_instruction i).
  { pose proof (exclusive_post m i r monitor fault Hi Hm Hr) as Hpost. unfold turn_post in Hpost.
    destruct (exclusive m i r monitor fault) as [[[[[result m'] r'] ?] ?] ?].
    destruct (decide (result = GM_STEP_OK)); [by destruct Hpost as (? & ? & _)|by subst m']. }
  destruct (is_clrex i); [split; [done|]; intros _; by apply advance_ok|].
  pose proof (register_step_ok r i Hr) as Hstep. destruct (gc_register_step (Some r) i) as [executed r'].
  destruct executed; [done|]. destruct (bit i 26); [done|]. fold (access_of r).
  pose proof (memory_step_post m i (access_of r) fault Hi Hm (access_of_ok r Hr)) as Hpost.
  destruct (memory_step m i (access_of r) fault) as [[[result m'] access] fault']. unfold step_post in Hpost.
  case_bool_decide as Hres.
  - rewrite decide_True in Hpost by done. destruct Hpost as (Hm' & Ha & _). split; [done|]. intros _. by apply access_back_ok.
  - rewrite decide_False in Hpost by done. destruct Hpost as (-> & _). done.
Qed.
Lemma sequence_loop_ok steps fetch start m i r monitor registers fault :
  u32_ok i -> (forall pc j, fetch pc = Some j -> u32_ok j) -> mem_ok m -> regs_ok r -> regs_ok registers ->
  let '(_, m', r', _) := sequence_loop steps fetch start m i r monitor registers fault in mem_ok m' /\ regs_ok r'.
Proof.
  intros Hi Hfetch Hm Hr Hregs. revert i Hi m r monitor fault Hm Hr.
  induction steps as [|steps IH]; intros i Hi m r monitor fault Hm Hr; cbn [sequence_loop]; [done|].
  pose proof (sequence_step_ok m i r monitor fault Hi Hm Hr) as Hstep.
  destruct (sequence_step m i r monitor fault) as [[[[[result m1] r1] monitor1] fault1] finished]. destruct Hstep as [Hm1 Hr1].
  case_bool_decide as Hres; cbn [negb]; [|done]. specialize (Hr1 Hres).
  destruct (_ || _ || _); [done|]. destruct (fetch (r_pc r1)) as [j|] eqn:Ef; [|done]. apply IH; eauto.
Qed.

(** C21: The header's promise for exclusive sequences, with the one condition it
    needs: a sequence that does not retire leaves the registers and the memory
    as they were, as long as no instruction in it is a CASL or CASAL of the zero
    register; one that retires leaves both well formed. *)
Theorem gm_exclusive_sequence_precise m first r fetch fault :
  u32_ok first -> mem_ok m -> regs_ok r ->
  (forall pc j, fetch pc = Some j -> u32_ok j /\ ordered_cas j = false) ->
  let '(result, m', r', _) := gm_exclusive_sequence m first (Some r) (Some fetch) (Some fault) in
  match result with
  | GM_STEP_OK => exists r1, r' = Some r1 /\ mem_ok m' /\ regs_ok r1
  | _ => m' = m /\ r' = Some r
  end.
Proof.
  intros Hi Hm Hr Hfetch. cbn [gm_exclusive_sequence].
  destruct (gm_exclusive_instruction first) eqn:Hex; cbn [negb]; [|done].
  destruct (_ <? r_pc r); [done|].
  pose proof (exclusive_not_ordered first Hex) as Hc.
  pose proof (sequence_loop_post 32 fetch (r_pc r) m first r no_monitor r fault Hi Hc Hfetch Hm Hr) as H'.
  destruct (sequence_loop _ _ _ _ _ _ _ _ _) as [[[result m'] r'] fault'].
  destruct result; cbn in H'; [by exists r'|by destruct H' as [-> ->]..].
Qed.
End precise.

(** ** Witnesses *)

(** A program as the fetch function: words from an address on. *)
Definition program (base : Z) (words : list Z) (pc : Z) : option Z :=
  if (pc <? base) || negb (Z.land pc 3 =? 0) then None else words !! Z.to_nat ((pc - base) / 4).

(** [ldxr x2,[x0]; add x2,x2,#1; stxr w3,x2,[x0]] *)
Definition increment_words : list Z := [0xc85f7c02; 0x91000442; 0xc8037c02].
(** [ldxr x2,[x0]; casal xzr,x1,[x0]; udf #0] *)
Definition casal_words : list Z := [0xc85f7c02; 0xc8fffc01; 0].
Definition sequence_registers : GCRegisters :=
  mkRegisters ([65536; 7] ++ replicate 29 0) 65536 4096 0.
Definition run_words (words : list Z) :=
  gm_exclusive_sequence (Some example_space) (default 0 (head words)) (Some sequence_registers)
    (Some (program 4096 words)) (Some GM_OK).
Definition word_at (m : option Space) (address : Z) : list Z :=
  (mem_read m address (replicate 8 0) 8).2.

Lemma program_words base words pc i : program base words pc = Some i -> i ∈ words.
Proof. unfold program. destruct (_ || _); [done|]. apply list_elem_of_lookup_2. Qed.
Lemma sequence_registers_ok : regs_ok sequence_registers.
Proof.
  split; [done| |by split|by split].
  apply (Forall_app_2 _ [65536; 7]); [by repeat constructor|]. by apply (Forall_replicate u64_ok 29).
Qed.

(** A CASAL of the zero register is taken for a load: the sequence goes on, and
    a later unsupported instruction is reported with the registers rolled back
    and the memory written, against the promise of GuestExclusive.h. *)
Theorem gm_exclusive_sequence_leaves_write :
  (run_words casal_words).1.1.1 = GM_STEP_UNSUPPORTED /\
  (run_words casal_words).1.2 = Some sequence_registers /\
  word_at (Some example_space) 65536 = [0; 0; 0; 0; 0; 0; 0; 0] /\
  word_at (run_words casal_words).1.1.2 65536 = [7; 0; 0; 0; 0; 0; 0; 0].
Proof. split; [vm_compute; reflexivity|]. split; [vm_compute; reflexivity|]. split; vm_compute; reflexivity. Qed.

Lemma gm_exclusive_sequence_precise_witness :
  (run_words increment_words).1.1.1 = GM_STEP_OK /\
  exists r, (run_words increment_words).1.2 = Some r /\ regs_ok r /\ r_pc r = 4108.
Proof.
  assert ((run_words increment_words).1.1.1 = GM_STEP_OK) as E1 by (vm_compute; reflexivity).
  assert (r_pc <$> (run_words increment_words).1.2 = Some 4108) as E2 by (vm_compute; reflexivity).
  split; [exact E1|].
  pose proof (gm_exclusive_sequence_precise (Some example_space) (default 0 (head increment_words))
    sequence_registers (program 4096 increment_words) GM_OK ltac:(by split) example_space_ok
    sequence_registers_ok) as H. fold (run_words increment_words) in H.
  destruct (run_words increment_words) as [[[result m'] r'] f']. cbn [fst snd] in *. subst result.
  destruct H as (r1 & -> & _ & Hr1).
  - intros pc j Hj%program_words. unfold increment_words in Hj.
    rewrite !elem_of_cons in Hj. destruct Hj as [-> |[-> |[-> |Hj]]]; [split; [by split|reflexivity]..|].
    by apply not_elem_of_nil in Hj.
  - exists r1. split; [reflexivity|]. split; [exact Hr1|]. by injection E2.
Defined.
