(* ===== verification/SoftwareBuffers.v ===== *)
(** * SoftwareBuffers: buffers and strings in the software window (runtime/GuestSoftwareVM.c)

    System and library calls take pointers. When a pointer lies in the window of
    software addresses the runtime replaces the call by one of these functions,
    which move the bytes between the software memory and the host's in small
    chunks. The theorems say that the guest cannot tell: each call does to the
    bytes the guest sees what the call of the C library or of the kernel does to
    ordinary memory. The software memory is used through [SparseInterface]; the
    kernel's files and the C library's streams are the class [HostFiles]. *)
From S2P Require Import Prelude GuestMemory GuestSparseMemory SparseInterface.

Definition INT_MAX : Z := 2 ^ 31 - 1.
Definition SIZE_MAX : Z := 2 ^ 64 - 1.
Definition BOUNCE_SIZE : Z := 4096.
(** More turns than any of the loops below takes. *)
Definition TURNS : positive := 18446744073709551617.

(** The addresses that are software ones. *)
Record Window := mkWindow { w_enabled : bool; w_base : Z; w_span : Z }.
Definition gsv_address (w : Window) (a : Z) : bool :=
  w_enabled w && (w_base w <=? a) && (a - w_base w <? w_span w).

(** The memory a call finds: the software memory and the host's bytes. *)
Record Machine (M : Type) := mkMachine { mc_memory : M; mc_native : Z -> Z }.
#[global] Arguments mkMachine {M} _ _.
#[global] Arguments mc_memory {M} _.
#[global] Arguments mc_native {M} _ _.

(** ** The C library on ordinary memory

    Each of these searches for the first index that decides the answer. *)
Definition first_index (f : Z -> bool) (limit : Z) : Z :=
  match until TURNS (fun i => if negb (i <? limit) then inr limit else if f i then inr i else inl (i + 1)) 0 with
  | inl _ => limit
  | inr i => i
  end.
Definition c_strnlen (host : Z -> Z) (p limit : Z) : Z := first_index (fun i => host (p + i) =? 0) limit.
Definition c_memchr (host : Z -> Z) (p value size : Z) : option Z :=
  let i := first_index (fun i => host (p + i) =? w8 value) size in
  if i <? size then Some (p + i) else None.
Definition c_memcmp (host : Z -> Z) (l r size : Z) : Z :=
  let i := first_index (fun i => negb (host (l + i) =? host (r + i))) size in
  if i <? size then host (l + i) - host (r + i) else 0.
Definition strncmp_decides (host : Z -> Z) (l r i : Z) : bool :=
  negb (host (l + i) =? host (r + i)) || (host (l + i) =? 0).
Definition c_strncmp (host : Z -> Z) (l r limit : Z) : Z :=
  let i := first_index (strncmp_decides host l r) limit in
  if i <? limit then host (l + i) - host (r + i) else 0.
Definition strchr_decides (host : Z -> Z) (p value i : Z) : bool := (host (p + i) =? w8 value) || (host (p + i) =? 0).
Definition strchr_answer (host : Z -> Z) (p value i : Z) : option Z :=
  if host (p + i) =? w8 value then Some (p + i) else None.
Definition c_strchr (host : Z -> Z) (p value : Z) : option Z :=
  strchr_answer host p value (first_index (strchr_decides host p value) SIZE_MAX).

(** The kernel's file operations, at an offset or at the file's own position: an
    errno, or what was transferred. The C library's streams: the bytes
    delivered or accepted and the number of complete items. *)
Class HostFiles (F : Type) := {
  h_read : F -> Z -> Z -> option Z -> (Z + list Z) * F;
  h_write : F -> Z -> list Z -> option Z -> (Z + Z) * F;
  h_fread : F -> Z -> Z -> Z -> list Z * Z * F;
  h_fwrite : F -> Z -> list Z -> Z -> Z -> Z * F
}.

Section buffers.
Context {M : Type} `{SparseMemory M} `{!BufferMemory M} (w : Window).
Implicit Types s : Machine M.

Definition set_memory s (m : M) : Machine M := mkMachine m (mc_native s).
Definition set_native s (f : Z -> Z) : Machine M := mkMachine (mc_memory s) f.

(** ** Copying and filling *)

Definition prepare s (p n permissions : Z) : GMResult * Machine M :=
  if gsv_address w p
  then let '(r, m) := mem_prepare (mc_memory s) p n permissions in (r, set_memory s m)
  else (GM_OK, s).
(** A chunk into the scratch buffer, whose old contents do not matter, and out of it. *)
Definition get_chunk s (software : bool) (a n : Z) : GMResult * Machine M * list Z :=
  if software
  then let '(r, m, bytes) := mem_read (mc_memory s) a (replicate (Z.to_nat n) 0) n in (r, set_memory s m, bytes)
  else (GM_OK, s, host_bytes (mc_native s) a n).
Definition put_chunk s (software : bool) (a : Z) (bytes : list Z) (n : Z) : GMResult * Machine M :=
  if software
  then let '(r, m) := mem_write (mc_memory s) a bytes n in (r, set_memory s m)
  else (GM_OK, set_native s (host_store (mc_native s) a bytes)).
Definition chunk_of (left : Z) : Z := if BOUNCE_SIZE <? left then BOUNCE_SIZE else left.
Definition copy_turn (to from reverse : bool) (d src size : Z) (state : Machine M * Z)
    : (Machine M * Z) + (GMResult * Machine M) :=
  let '(s, completed) := state in
  if negb (completed <? size) then inr (GM_OK, s) else
  let chunk := chunk_of (size - completed) in
  let offset := if reverse then size - completed - chunk else completed in
  let '(result, s, bounce) := get_chunk s from (src + offset) chunk in
  if negb (bool_decide (result = GM_OK)) then inr (result, s) else
  let '(result, s) := put_chunk s to (d + offset) bounce chunk in
  if negb (bool_decide (result = GM_OK)) then inr (result, s) else inl (s, completed + chunk).
Definition finished {S R} (out : S + (GMResult * R)) (default : R) : GMResult * R :=
  match out with inr out => out | inl _ => (GM_OK, default) end.
Definition gsv_copy s (destination source size : Z) : GMResult * Machine M :=
  let to := gsv_address w destination in
  let from := gsv_address w source in
  if negb to && negb from
  then (GM_OK, set_native s (host_store (mc_native s) destination (host_bytes (mc_native s) source size))) else
  let '(result, s) := prepare s source size GM_READ in
  let '(result, s) := if bool_decide (result = GM_OK) then prepare s destination size GM_WRITE else (result, s) in
  if negb (bool_decide (result = GM_OK)) then (result, s) else
  let reverse := (source <? destination) && (destination - source <? size) in
  finished (until TURNS (copy_turn to from reverse destination source size) (s, 0)) s.

Definition fill_turn (d value size : Z) (state : Machine M * Z) : (Machine M * Z) + (GMResult * Machine M) :=
  let '(s, completed) := state in
  if negb (completed <? size) then inr (GM_OK, s) else
  let chunk := chunk_of (size - completed) in
  let '(result, s) := put_chunk s true (d + completed) (replicate (Z.to_nat chunk) (w8 value)) chunk in
  if negb (bool_decide (result = GM_OK)) then inr (result, s) else inl (s, completed + chunk).
Definition gsv_fill s (destination value size : Z) : GMResult * Machine M :=
  if negb (gsv_address w destination)
  then (GM_OK, set_native s (host_store (mc_native s) destination (replicate (Z.to_nat size) (w8 value)))) else
  let '(result, s) := prepare s destination size GM_WRITE in
  if negb (bool_decide (result = GM_OK)) then (result, s) else
  finished (until TURNS (fill_turn destination value size) (s, 0)) s.

(** ** Strings *)

(** A string argument for a system call, copied to the caller's [buffer] when
    it is a software one: an errno, or where the string is. *)
Definition string_turn (source buffer capacity : Z) (state : Machine M * Z)
    : (Machine M * Z) + ((Z + Z) * Machine M) :=
  let '(s, i) := state in
  if negb (i <? capacity) then inr (inl ENAMETOOLONG, s) else
  let '(result, m, byte) := mem_read (mc_memory s) (source + i) [mc_native s (buffer + i)] 1 in
  let s := mkMachine m (host_store (mc_native s) (buffer + i) byte) in
  if negb (bool_decide (result = GM_OK)) then inr (inl EFAULT, s) else
  if mc_native s (buffer + i) =? 0 then inr (inr buffer, s) else inl (s, i + 1).
Definition gsv_string s (source buffer capacity : Z) : (Z + Z) * Machine M :=
  if source =? 0 then (inl EFAULT, s) else
  if negb (gsv_address w source) then (inr source, s) else
  match until TURNS (string_turn source buffer capacity) (s, 0) with
  | inr out => out
  | inl (s, _) => (inl ENAMETOOLONG, s)
  end.

(** The searches read at most 256 bytes at once, and never past the page of a
    software address. The outcome is [None] when the program is aborted. *)
Definition scan_chunk (pointer remaining : Z) : Z :=
  let n := if remaining <? 256 then remaining else 256 in
  if gsv_address w pointer
  then let page_left := GM_PAGE_SIZE - pointer mod GM_PAGE_SIZE in if page_left <? n then page_left else n
  else n.
Definition scan_read s (source size : Z) : option (list Z) :=
  if negb (gsv_address w source) then Some (host_bytes (mc_native s) source size) else
  let '(result, _, bytes) := mem_read (mc_memory s) source (replicate (Z.to_nat size) 0) size in
  bad negb (bool_decide (result = GM_OK));
  Some bytes.
(** What a search ends with when no turn is left. *)
Definition answer {S R} (out : S + option R) (none : R) : option R :=
  match out with inr out => out | inl _ => Some none end.

Definition strnlen_turn s (string limit done : Z) : Z + option Z :=
  if negb (done <? limit) then inr (Some done) else
  let n := scan_chunk (string + done) (limit - done) in
  match scan_read s (string + done) n with
  | None => inr None
  | Some bytes =>
    match list_find (fun b => b = 0) bytes with
    | Some (i, _) => inr (Some (done + Z.of_nat i))
    | None => inl (done + n)
    end
  end.
Definition gsv_strnlen s (string limit : Z) : option Z :=
  if limit =? 0 then Some 0 else
  if negb (gsv_address w string) then Some (c_strnlen (mc_native s) string limit) else
  answer (until TURNS (strnlen_turn s string limit) 0) limit.
Definition gsv_strlen s (string : Z) : option Z :=
  if gsv_address w string then gsv_strnlen s string SIZE_MAX else Some (c_strnlen (mc_native s) string SIZE_MAX).

Fixpoint memcmp_bytes (aa bb : list Z) : Z :=
  match aa, bb with
  | a :: aa, b :: bb => if a =? b then memcmp_bytes aa bb else a - b
  | _, _ => 0
  end.
Definition memcmp_turn s (left right size done : Z) : Z + option Z :=
  if negb (done <? size) then inr (Some 0) else
  let n := scan_chunk (left + done) (size - done) in
  let other := scan_chunk (right + done) (size - done) in
  let n := if other <? n then other else n in
  match scan_read s (left + done) n with
  | None => inr None
  | Some aa =>
    match scan_read s (right + done) n with
    | None => inr None
    | Some bb =>
      let result := memcmp_bytes aa bb in
      if negb (result =? 0) then inr (Some result) else inl (done + n)
    end
  end.
Definition gsv_memcmp s (left right size : Z) : option Z :=
  if size =? 0 then Some 0 else
  if negb (gsv_address w left) && negb (gsv_address w right) then Some (c_memcmp (mc_native s) left right size) else
  answer (until TURNS (memcmp_turn s left right size) 0) 0.

Definition memchr_turn s (source value size done : Z) : Z + option (option Z) :=
  if negb (done <? size) then inr (Some None) else
  let n := scan_chunk (source + done) (size - done) in
  match scan_read s (source + done) n with
  | None => inr None
  | Some chunk =>
    match list_find (fun b => b = w8 value) chunk with
    | Some (i, _) => inr (Some (Some (source + done + Z.of_nat i)))
    | None => inl (done + n)
    end
  end.
Definition gsv_memchr s (source value size : Z) : option (option Z) :=
  if size =? 0 then Some None else
  if negb (gsv_address w source) then Some (c_memchr (mc_native s) source value size) else
  answer (until TURNS (memchr_turn s source value size) 0) None.

(** The inner loop of [gsv_strncmp]: the answer, when these bytes decide it. *)
Fixpoint strncmp_bytes (aa bb : list Z) : option Z :=
  match aa, bb with
  | a :: aa, b :: bb => if negb (a =? b) then Some (a - b) else if a =? 0 then Some 0 else strncmp_bytes aa bb
  | _, _ => None
  end.
(** A native string may end before the chunk: nothing is read past its NUL. *)
Definition native_cut s (a n : Z) : Z :=
  if negb (gsv_address w a) then let length := c_strnlen (mc_native s) a n in if length <? n then length + 1 else n else n.
Definition strncmp_turn s (left right limit done : Z) : Z + option Z :=
  if negb (done <? limit) then inr (Some 0) else
  let a := left + done in
  let b := right + done in
  let n := scan_chunk a (limit - done) in
  let other := scan_chunk b (limit - done) in
  let n := if other <? n then other else n in
  let n := native_cut s a n in
  let n := native_cut s b n in
  match scan_read s a n with
  | None => inr None
  | Some aa =>
    match scan_read s b n with
    | None => inr None
    | Some bb =>
      match strncmp_bytes aa bb with
      | Some result => inr (Some result)
      | None => inl (done + n)
      end
    end
  end.
Definition gsv_strncmp s (left right limit : Z) : option Z :=
  if limit =? 0 then Some 0 else
  if negb (gsv_address w left) && negb (gsv_address w right) then Some (c_strncmp (mc_native s) left right limit) else
  answer (until TURNS (strncmp_turn s left right limit) 0) 0.
Definition gsv_strcmp s (left right : Z) : option Z := gsv_strncmp s left right SIZE_MAX.

(** The inner loop of [gsv_strchr]: the index found, or the end of the string. *)
Fixpoint strchr_bytes (bytes : list Z) (value : Z) (i : Z) : option (option Z) :=
  match bytes with
  | [] => None
  | b :: bytes => if b =? w8 value then Some (Some i) else if b =? 0 then Some None else strchr_bytes bytes value (i + 1)
  end.
Definition strchr_turn s (string value done : Z) : Z + option (option Z) :=
  let at_ := string + done in
  let n := scan_chunk at_ SIZE_MAX in
  match scan_read s at_ n with
  | None => inr None
  | Some bytes =>
    match strchr_bytes bytes value at_ with
    | Some found => inr (Some found)
    | None => inl (done + n)
    end
  end.
Definition gsv_strchr s (string value : Z) : option (option Z) :=
  if negb (gsv_address w string) then Some (c_strchr (mc_native s) string value) else
  answer (until TURNS (strchr_turn s string value) 0) None.

(** ** Files and streams *)

Context {F : Type} `{!HostFiles F}.

(** [read], [pread], [write] and [pwrite]: an errno or the bytes transferred.
    [alloc_ok] is whether a scratch buffer for a large transfer is found. *)
Definition file_read (h : F) s (fd buffer size : Z) (offset : option Z) (alloc_ok : bool) : (Z + Z) * F * Machine M :=
  if negb (gsv_address w buffer) then
    let '(r, h) := h_read h fd size offset in
    match r with
    | inl e => (inl e, h, s)
    | inr bytes => (inr (Z.of_nat (length bytes)), h, set_native s (host_store (mc_native s) buffer bytes))
    end
  else
  if INT_MAX <? size then (inl EINVAL, h, s) else
  let '(result, s) := prepare s buffer size GM_WRITE in
  if negb (bool_decide (result = GM_OK)) then (inl EFAULT, h, s) else
  if (BOUNCE_SIZE <? size) && negb alloc_ok then (inl ENOMEM, h, s) else
  let '(r, h) := h_read h fd size offset in
  match r with
  | inl e => (inl e, h, s)
  | inr bounce =>
    let done := Z.of_nat (length bounce) in
    if 0 <? done then
      let '(result, s) := put_chunk s true buffer bounce done in
      if negb (bool_decide (result = GM_OK)) then (inl EFAULT, h, s) else (inr done, h, s)
    else (inr done, h, s)
  end.
Definition file_write (h : F) s (fd buffer size : Z) (offset : option Z) (alloc_ok : bool) : (Z + Z) * F * Machine M :=
  if negb (gsv_address w buffer) then
    let '(r, h) := h_write h fd (host_bytes (mc_native s) buffer size) offset in (r, h, s)
  else
  if INT_MAX <? size then (inl EINVAL, h, s) else
  let '(result, s) := prepare s buffer size GM_READ in
  if negb (bool_decide (result = GM_OK)) then (inl EFAULT, h, s) else
  if (BOUNCE_SIZE <? size) && negb alloc_ok then (inl ENOMEM, h, s) else
  let '(result, s, bounce) := get_chunk s true buffer size in
  if negb (bool_decide (result = GM_OK)) then (inl EFAULT, h, s) else
  let '(r, h) := h_write h fd bounce offset in (r, h, s).
Definition gsv_read (h : F) s (fd b n : Z) (alloc_ok : bool) := file_read h s fd b n None alloc_ok.
Definition gsv_pread (h : F) s (fd b n o : Z) (alloc_ok : bool) := file_read h s fd b n (Some o) alloc_ok.
Definition gsv_write (h : F) s (fd b n : Z) (alloc_ok : bool) := file_write h s fd b n None alloc_ok.
Definition gsv_pwrite (h : F) s (fd b n o : Z) (alloc_ok : bool) := file_write h s fd b n (Some o) alloc_ok.

(** The loop of [stream_io]: how much was transferred before it ended. *)
Definition fread_turn (file buffer total : Z) (state : F * Machine M * Z)
    : (F * Machine M * Z) + (Z * F * Machine M) :=
  let '(h, s, completed) := state in
  if negb (completed <? total) then inr (completed, h, s) else
  let chunk := chunk_of (total - completed) in
  let '(bounce, done, h) := h_fread h file 1 chunk in
  let '(result, s) := put_chunk s true (buffer + completed) bounce done in
  if negb (bool_decide (result = GM_OK)) then inr (completed, h, s) else
  let completed := completed + done in
  if done <? chunk then inr (completed, h, s) else inl (h, s, completed).
Definition fwrite_turn (file buffer total : Z) (state : F * Machine M * Z)
    : (F * Machine M * Z) + (Z * F * Machine M) :=
  let '(h, s, completed) := state in
  if negb (completed <? total) then inr (completed, h, s) else
  let chunk := chunk_of (total - completed) in
  let '(result, s, bounce) := get_chunk s true (buffer + completed) chunk in
  if negb (bool_decide (result = GM_OK)) then inr (completed, h, s) else
  let '(done, h) := h_fwrite h file bounce 1 chunk in
  let completed := completed + done in
  if done <? chunk then inr (completed, h, s) else inl (h, s, completed).
Definition transferred (out : (F * Machine M * Z) + (Z * F * Machine M)) : Z * F * Machine M :=
  match out with inr out => out | inl (h, s, completed) => (completed, h, s) end.
Definition gsv_fread (h : F) s (buffer size count file : Z) : Z * F * Machine M :=
  if negb (gsv_address w buffer) then
    let '(bytes, items, h) := h_fread h file size count in
    (items, h, set_native s (host_store (mc_native s) buffer bytes))
  else
  if (size =? 0) || (count =? 0) then (0, h, s) else
  if SIZE_MAX / size <? count then (0, h, s) else
  let total := size * count in
  let '(result, s) := prepare s buffer total GM_WRITE in
  if negb (bool_decide (result = GM_OK)) then (0, h, s) else
  let '(completed, h, s) := transferred (until TURNS (fread_turn file buffer total) (h, s, 0)) in
  (completed / size, h, s).
Definition gsv_fwrite (h : F) s (buffer size count file : Z) : Z * F * Machine M :=
  if negb (gsv_address w buffer) then
    let '(items, h) := h_fwrite h file (host_bytes (mc_native s) buffer (size * count)) size count in (items, h, s)
  else
  if (size =? 0) || (count =? 0) then (0, h, s) else
  if SIZE_MAX / size <? count then (0, h, s) else
  let total := size * count in
  let '(result, s) := prepare s buffer total GM_READ in
  if negb (bool_decide (result = GM_OK)) then (0, h, s) else
  let '(completed, h, s) := transferred (until TURNS (fwrite_turn file buffer total) (h, s, 0)) in
  (completed / size, h, s).

End buffers.

(** ** The first index that decides *)

Definition decides (f : Z -> bool) (limit r : Z) : Prop :=
  0 <= r <= limit /\ (forall i, 0 <= i < r -> f i = false) /\ (r < limit -> f r = true).
Lemma decides_unique f limit r r' : decides f limit r -> decides f limit r' -> r = r'.
Proof.
  intros (Hr & Hf & Ht) (Hr' & Hf' & Ht'). destruct (Z.lt_trichotomy r r') as [Hlt|[Heq|Hlt]]; [|done|].
  - rewrite (Hf' r) in Ht by lia. specialize (Ht ltac:(lia)). done.
  - rewrite (Hf r') in Ht' by lia. specialize (Ht' ltac:(lia)). done.
Qed.
Lemma first_index_spec f limit : 0 <= limit < 2 ^ 64 -> decides f limit (first_index f limit).
Proof.
  intros Hlimit. unfold first_index.
  set (step := fun i => _).
  destruct (until_ends step (fun i => 0 <= i <= limit /\ forall j, 0 <= j < i -> f j = false) (decides f limit) (fun i => limit - i))
    with (fuel := TURNS) (s := 0) as (r & -> & Hr); [|lia|split; [lia|lia]|unfold TURNS; lia|done].
  intros i [Hi Hf]. unfold step. destruct (Z.ltb_spec i limit) as [Hlt|Hge]; cbn [negb].
  - destruct (f i) eqn:E; [split; [lia|done]|]. split; [|lia]. split; [lia|]. intros j Hj.
    destruct (Z.eq_dec j i) as [->|]; [done|]. apply Hf. lia.
  - replace i with limit in * by lia. split; [lia|]. split; [done|lia].
Qed.
#[global] Opaque first_index.
Lemma decides_first f limit r : 0 <= limit < 2 ^ 64 -> decides f limit r -> first_index f limit = r.
Proof. intros Hlimit Hr. by apply (decides_unique f limit); [apply first_index_spec|]. Qed.
Lemma first_index_ext f g limit :
  0 <= limit < 2 ^ 64 -> (forall i, 0 <= i < limit -> f i = g i) -> first_index f limit = first_index g limit.
Proof.
  intros Hlimit Hfg. apply decides_first; [done|]. destruct (first_index_spec g limit Hlimit) as (Hr & Hf & Ht).
  split; [done|]. split; [intros i Hi; rewrite Hfg by lia; by apply Hf|]. intros Hlt. rewrite Hfg by lia. by apply Ht.
Qed.
(** A search that starts later, when nothing before decides. *)
Lemma decides_from f limit done r :
  0 <= done <= limit -> (forall i, 0 <= i < done -> f i = false) -> decides f limit r -> done <= r.
Proof. intros Hdone Hf (Hr & _ & Ht). apply Z.le_ngt. intros Hlt. rewrite Hf in Ht by lia. by specialize (Ht ltac:(lia)). Qed.

(** ** What the guest sees *)

Section see.
Context `{BufferLaws M} (w : Window).
Implicit Types s : Machine M.

(** The byte at an address, and whether it may be read. *)
Definition see s (x : Z) : Z :=
  if gsv_address w x then default 0 (c_byte <$> mem_view (mc_memory s) x) else mc_native s x.
Definition readable s (x : Z) : Prop :=
  gsv_address w x = true -> view_allows (mem_view (mc_memory s)) x 1 GM_READ.
Record machine_ok s : Prop := {
  mo_memory : mem_ok (mc_memory s);
  mo_native : forall x, byte_ok (mc_native s x);
  mo_inside : forall x c, mem_view (mc_memory s) x = Some c -> gsv_address w x = true
}.
(** A buffer that starts in ordinary memory stays there. *)
Definition stays (p n : Z) : Prop := gsv_address w p = false -> forall i, 0 <= i < n -> gsv_address w (p + i) = false.
(** [s'] is [s] with [bs] stored at [a]. *)
Record stores s s' (a : Z) (bs : list Z) : Prop := {
  st_see : forall x, see s' x =
    if decide (a <= x < a + Z.of_nat (length bs)) then default 0 (bs !! Z.to_nat (x - a)) else see s x;
  st_view : forall x, mem_view (mc_memory s') x =
    if decide (a <= x < a + Z.of_nat (length bs))
    then cell_with_byte (default 0 (bs !! Z.to_nat (x - a))) <$> mem_view (mc_memory s) x
    else mem_view (mc_memory s) x
}.
(** The guest sees the same. *)
Definition same_view s s' : Prop :=
  mc_native s' = mc_native s /\ forall x, mem_view (mc_memory s') x = mem_view (mc_memory s) x.

Lemma same_view_see s s' x : same_view s s' -> see s' x = see s x.
Proof. intros [Hn Hv]. unfold see. by rewrite Hn, Hv. Qed.
Lemma same_view_ok s s' : same_view s s' -> mem_ok (mc_memory s') -> machine_ok s -> machine_ok s'.
Proof. intros [Hn Hv] Hm [_ Hok Hin]. split; [done|by rewrite Hn|]. intros x c. rewrite Hv. apply Hin. Qed.
Lemma see_ok s x : machine_ok s -> byte_ok (see s x).
Proof.
  intros [Hm Hn _]. unfold see. destruct (gsv_address w x); [|apply Hn].
  destruct (mem_view (mc_memory s) x) as [c|] eqn:E; cbn; [by eapply law_byte|]. unfold byte_ok. lia.
Qed.
Lemma stores_allows s s' a bs b n permission :
  stores s s' a bs -> view_allows (mem_view (mc_memory s)) b n permission -> view_allows (mem_view (mc_memory s')) b n permission.
Proof. intros [_ Hv]. by apply (view_stored_allows _ _ a bs). Qed.
Lemma stores_nil s s' a : same_view s s' -> stores s s' a [].
Proof.
  intros Hs. split; intros x; (destruct (decide _) as [Hx|]; [cbn in Hx; lia|]); [by apply same_view_see|apply Hs].
Qed.
(** Stores side by side are one store. *)
Lemma default_app_l (l k : list Z) i : (i < length l)%nat -> default 0 ((l ++ k) !! i) = default 0 (l !! i).
Proof. intros. by rewrite lookup_app_l. Qed.
Lemma default_app_r (l k : list Z) a x :
  a + Z.of_nat (length l) <= x ->
  default 0 ((l ++ k) !! Z.to_nat (x - a)) = default 0 (k !! Z.to_nat (x - (a + Z.of_nat (length l)))).
Proof. intros. rewrite lookup_app_r by lia. do 2 f_equal. lia. Qed.
#[local] Ltac store_cases :=
  repeat case_decide; try lia; try done; first [by rewrite default_app_r by lia | by rewrite default_app_l by lia].
Lemma stores_app s s1 s2 a bs1 bs2 :
  stores s s1 a bs1 -> stores s1 s2 (a + Z.of_nat (length bs1)) bs2 -> stores s s2 a (bs1 ++ bs2).
Proof.
  intros [Hs1 Hv1] [Hs2 Hv2]. split; intros x; rewrite length_app; [rewrite Hs2, Hs1|rewrite Hv2, Hv1]; store_cases.
Qed.
Lemma stores_app_before s s1 s2 a bs1 bs2 :
  stores s s1 (a + Z.of_nat (length bs1)) bs2 -> stores s1 s2 a bs1 -> stores s s2 a (bs1 ++ bs2).
Proof.
  intros [Hs1 Hv1] [Hs2 Hv2]. split; intros x; rewrite length_app; [rewrite Hs2, Hs1|rewrite Hv2, Hv1]; store_cases.
Qed.
Lemma stores_same_view s s1 s2 a bs : same_view s s1 -> stores s1 s2 a bs -> stores s s2 a bs.
Proof.
  intros Hs [Hs2 Hv]. split; intros x; [rewrite Hs2|rewrite Hv]; case_decide; try done.
  - by apply same_view_see.
  - by rewrite (proj2 Hs).
  - apply Hs.
Qed.
End see.

(** ** Chunks *)

Section chunks.
Context `{BufferLaws M} (w : Window).
Implicit Types s : Machine M.

Lemma set_memory_same s : set_memory s (mc_memory s) = s.
Proof. by destruct s. Qed.
(** The bytes a guest sees in a range. *)
Definition seen s (a n : Z) : list Z := (fun i => see w s (a + i)) <$> seqZ 0 n.
Lemma length_seen s a n : length (seen s a n) = Z.to_nat n.
Proof. unfold seen. by rewrite length_fmap, length_seqZ. Qed.
Lemma lookup_seen s a n i : 0 <= i < n -> seen s a n !! Z.to_nat i = Some (see w s (a + i)).
Proof. intros Hi. unfold seen. rewrite list_lookup_fmap, lookup_seqZ_lt by lia. cbn. by rewrite Z2Nat.id by lia. Qed.
Lemma seen_ok s a n : machine_ok w s -> Forall byte_ok (seen s a n).
Proof. intros Hs. unfold seen. apply Forall_fmap, Forall_true. intros i. by apply see_ok. Qed.
Lemma seen_eq s a n bs :
  Z.of_nat (length bs) = n -> (forall i, 0 <= i < n -> bs !! Z.to_nat i = Some (see w s (a + i))) -> bs = seen s a n.
Proof.
  intros Hl Hb. apply (list_eq_same_length _ _ (Z.to_nat n)); [apply length_seen|lia|]. intros i x y Hi Hx Hy.
  rewrite <- (Nat2Z.id i), Hb in Hx by lia. rewrite <- (Nat2Z.id i), lookup_seen in Hy by lia. congruence.
Qed.
Lemma seen_same s s' a n : (forall i, 0 <= i < n -> see w s' (a + i) = see w s (a + i)) -> seen s' a n = seen s a n.
Proof.
  intros Hs. unfold seen. apply list_fmap_ext. intros k i Hi%list_elem_of_lookup_2%elem_of_seqZ. apply Hs. lia.
Qed.

(** Where an access of a chunk is sound: allowed in the software memory, or all
    in ordinary memory. *)
Definition source_ok s (software : bool) (a n : Z) : Prop :=
  if software then view_allows (mem_view (mc_memory s)) a n GM_READ else forall i, 0 <= i < n -> gsv_address w (a + i) = false.
Definition target_ok s (software : bool) (a n : Z) : Prop :=
  if software then mem_ready (mc_memory s) a n else forall i, 0 <= i < n -> gsv_address w (a + i) = false.

Lemma allowed_inside s a n permission i :
  machine_ok w s -> view_allows (mem_view (mc_memory s)) a n permission -> 0 <= i < n -> gsv_address w (a + i) = true.
Proof. intros Hs Hall Hi. destruct (Hall (a + i) ltac:(lia)) as (c & Hc & _). by eapply (mo_inside w s Hs). Qed.
Lemma view_reads_seen s a n bs :
  Z.of_nat (length bs) = n -> (forall i, 0 <= i < n -> gsv_address w (a + i) = true) ->
  view_reads (mem_view (mc_memory s)) a bs -> bs = seen s a n.
Proof.
  intros Hl Hin Hb. apply seen_eq; [done|]. intros i Hi. unfold see. rewrite Hin by done.
  rewrite Hb by lia. rewrite Z2Nat.id by lia. destruct (lookup_lt_is_Some_2 bs (Z.to_nat i) ltac:(lia)) as [b E].
  rewrite Hb, Z2Nat.id in E by lia. by rewrite E.
Qed.
Lemma host_bytes_seen s a n :
  0 <= n -> (forall i, 0 <= i < n -> gsv_address w (a + i) = false) -> host_bytes (mc_native s) a n = seen s a n.
Proof.
  intros Hn Hout. apply seen_eq; [rewrite length_host_bytes; lia|]. intros i Hi.
  rewrite lookup_host_bytes by done. unfold see. by rewrite Hout.
Qed.
Lemma get_chunk_spec s software a n :
  machine_ok w s -> 0 < n -> source_ok s software a n -> get_chunk s software a n = (GM_OK, s, seen s a n).
Proof.
  intros Hs Hn Hsource. unfold get_chunk, source_ok in *. destruct software.
  - destruct (read_allowed (mc_memory s) a (replicate (Z.to_nat n) 0) n (mo_memory w s Hs)) as (bs & -> & Hl & Hb & _);
      [rewrite length_replicate; lia|done|done|].
    rewrite set_memory_same. f_equal. apply view_reads_seen; [done| |done]. intros i Hi.
    by apply (allowed_inside s a n GM_READ).
  - by rewrite host_bytes_seen by (done || lia).
Qed.
Lemma put_chunk_spec s software a n d bs k :
  machine_ok w s -> target_ok s software a n -> a <= d -> k = Z.of_nat (length bs) -> d + k <= a + n -> Forall byte_ok bs ->
  exists s', put_chunk s software d bs k = (GM_OK, s') /\ machine_ok w s' /\ target_ok s' software a n /\ stores w s s' d bs.
Proof.
  intros Hs Htarget Hd -> Hend Hbs. pose proof Hs as [Hm Hn Hin]. unfold put_chunk, target_ok in *. destruct software.
  - destruct (write_ready (mc_memory s) a n d bs Hm Htarget Hd Hend Hbs) as (m & -> & Hm' & Hready & Hst & Hmap).
    eexists. split; [done|]. cbn [mc_memory set_memory].
    assert (Hview : forall x c, mem_view m x = Some c -> gsv_address w x = true).
    { intros x c. rewrite Hst. case_decide; [|apply Hin]. intros (c0 & Hc & _)%fmap_Some. by eapply Hin. }
    split; [by split|]. split; [done|]. split; [|exact Hst]. intros x. unfold see. cbn [mc_memory mc_native set_memory].
    rewrite Hst. destruct (decide (d <= x < d + Z.of_nat (length bs))) as [Hx|]; [|done].
    destruct (mem_view (mc_memory s) x) as [c|] eqn:E; [|by destruct (Hmap x Hx)]. by rewrite (Hin x c E).
  - eexists. split; [done|]. unfold set_native. cbn [mc_memory mc_native].
    assert (Hout : forall x, d <= x < d + Z.of_nat (length bs) -> gsv_address w x = false).
    { intros x Hx. replace x with (a + (x - a)) by lia. apply Htarget. lia. }
    split.
    { split; cbn [mc_memory mc_native]; [done| |done]. intros x. rewrite host_store_spec. case_decide; [|done].
      destruct (lookup_lt_is_Some_2 bs (Z.to_nat (x - d)) ltac:(lia)) as [b Hb]. rewrite Hb. cbn.
      exact (proj1 (Forall_lookup _ _) Hbs _ _ Hb). }
    split; [done|]. split; intros x; cbn [mc_memory mc_native].
    + unfold see. cbn [mc_memory mc_native]. rewrite host_store_spec. case_decide; [|done]. by rewrite Hout.
    + destruct (decide _) as [Hx|]; [|done]. destruct (mem_view (mc_memory s) x) as [c|] eqn:E; [|done].
      apply Hin in E. by rewrite Hout in E.
Qed.
Lemma prepare_spec s p n permissions :
  machine_ok w s -> 0 <= n -> none_outside permissions (Z.lor GM_READ GM_WRITE) = true ->
  let '(r, s') := prepare w s p n permissions in
  if decide (r = GM_OK)
  then machine_ok w s' /\ same_view s s' /\
       (gsv_address w p = true -> view_allows (mem_view (mc_memory s')) p n permissions /\
          (Z.land permissions GM_WRITE <> 0 -> mem_ready (mc_memory s') p n)) /\
       (gsv_address w p = false -> s' = s)
  else s' = s /\ gsv_address w p = true /\
       (0 < n -> r = GM_NOMEM \/ ~ view_allows (mem_view (mc_memory s)) p n permissions).
Proof.
  intros Hs Hn Hper. unfold prepare. destruct (gsv_address w p) eqn:E.
  2: { rewrite decide_True by done. split_and!; done. }
  pose proof (law_prepare (mc_memory s) p n permissions (mo_memory w s Hs) Hn Hper) as H'.
  destruct (mem_prepare _ _ _ _) as [r m]. destruct (decide (r = GM_OK)) as [|Hne].
  - destruct H' as (Hm & Hsame & Hall & Hready). assert (same_view s (set_memory s m)) as Hview by by split.
    split; [by apply (same_view_ok w s)|]. split; [done|]. split; [|done]. intros _. split; [|done].
    by apply (view_same_allows (mem_view (mc_memory s))).
  - destruct H' as [-> H']. by rewrite set_memory_same.
Qed.
End chunks.

(** ** Copying *)

Section copying.
Context `{BufferLaws M} (w : Window).
Implicit Types s : Machine M.

Lemma chunk_of_bounds left : 0 < left -> 0 < chunk_of left <= left /\ chunk_of left <= BOUNCE_SIZE.
Proof. intros Hleft. unfold chunk_of, BOUNCE_SIZE. destruct (Z.ltb_spec 4096 left); lia. Qed.
Lemma source_ok_part s software a n b k :
  source_ok w s software a n -> a <= b -> b + k <= a + n -> source_ok w s software b k.
Proof.
  unfold source_ok. destruct software; [apply view_allows_part|]. intros Hout Hb Hk i Hi.
  replace (b + i) with (a + (b - a + i)) by lia. apply Hout. lia.
Qed.
Lemma source_ok_stores s s' software a n b bs :
  stores w s s' b bs -> source_ok w s software a n -> source_ok w s' software a n.
Proof. unfold source_ok. destruct software; [|done]. by apply stores_allows. Qed.
Lemma seen_app s a n k : 0 <= n -> 0 <= k -> seen w s a n ++ seen w s (a + n) k = seen w s a (n + k).
Proof.
  intros Hn Hk. apply seen_eq; [rewrite length_app, !length_seen; lia|]. intros i Hi.
  destruct (Z.lt_ge_cases i n).
  - rewrite lookup_app_l by (rewrite length_seen; lia). apply lookup_seen. lia.
  - rewrite lookup_app_r by (rewrite length_seen; lia). rewrite length_seen.
    replace (Z.to_nat i - Z.to_nat n)%nat with (Z.to_nat (i - n)) by lia. rewrite lookup_seen by lia. do 2 f_equal. lia.
Qed.
(** Bytes outside a store are as before it. *)
Lemma seen_outside s s' d bs a n :
  stores w s s' d bs -> (a + n <= d \/ d + Z.of_nat (length bs) <= a) -> seen w s' a n = seen w s a n.
Proof. intros [Hst _] Hout. apply seen_same. intros i Hi. rewrite Hst. case_decide; [lia|done]. Qed.

(** The part that has been moved when [completed] bytes are done. *)
Definition moved_from (reverse : bool) (size completed : Z) : Z := if reverse then size - completed else 0.
Definition copying (s : Machine M) (to from reverse : bool) (d src size : Z) (state : Machine M * Z) : Prop :=
  let '(s', completed) := state in
  0 <= completed <= size /\ machine_ok w s' /\ source_ok w s' from src size /\ target_ok w s' to d size /\
  stores w s s' (d + moved_from reverse size completed) (seen w s (src + moved_from reverse size completed) completed).
Lemma copy_turn_spec s to from reverse d src size state :
  reverse = (src <? d) && (d - src <? size) -> 0 <= size -> machine_ok w s ->
  copying s to from reverse d src size state ->
  match copy_turn to from reverse d src size state with
  | inl state' => copying s to from reverse d src size state' /\ size - state'.2 < size - state.2
  | inr (r, s') => r = GM_OK /\ machine_ok w s' /\ stores w s s' d (seen w s src size)
  end.
Proof.
  intros Hreverse Hsize Hs. destruct state as [s' completed]. intros (Hc & Hs' & Hsource & Htarget & Hst). unfold copy_turn.
  destruct (Z.ltb_spec completed size) as [Hlt|Hge]; cbn [negb].
  2: { split; [done|]. split; [done|]. assert (completed = size) as -> by lia.
       assert (moved_from reverse size size = 0) as Hz by (unfold moved_from; destruct reverse; lia).
       rewrite Hz, !Z.add_0_r in Hst. exact Hst. }
  destruct (chunk_of_bounds (size - completed) ltac:(lia)) as [Hchunk _]. set (chunk := chunk_of (size - completed)) in *.
  set (offset := if reverse then size - completed - chunk else completed).
  assert (Hoffset : 0 <= offset /\ offset + chunk <= size) by (subst offset; destruct reverse; lia).
  rewrite (get_chunk_spec w) by (done || lia || (apply (source_ok_part s' from src size); [done|lia|lia])).
  rewrite bool_decide_eq_true_2 by done. cbn [negb].
  destruct (put_chunk_spec w s' to d size (d + offset) (seen w s' (src + offset) chunk) chunk)
    as (s2 & -> & Hs2 & Htarget2 & Hst2); try done; [lia|rewrite length_seen; lia|lia|by apply seen_ok|].
  rewrite bool_decide_eq_true_2 by done. cbn [negb].
  assert (Hfresh : seen w s' (src + offset) chunk = seen w s (src + offset) chunk).
  { apply (seen_outside _ _ _ _ _ _ Hst). rewrite length_seen. unfold moved_from, offset in *. destruct reverse; [lia|].
    symmetry in Hreverse. apply andb_false_iff in Hreverse as [Hr|Hr]; bool_props; lia. }
  rewrite Hfresh in Hst2. cbn [snd]. split; [|lia]. split; [lia|]. split; [done|].
  split; [by apply (source_ok_stores s' s2 _ _ _ _ _ Hst2)|]. split; [done|].
  unfold moved_from, offset in *. destruct reverse.
  - replace (size - (completed + chunk)) with (size - completed - chunk) by lia. rewrite Z.add_comm with (n := completed).
    rewrite <- seen_app by lia. apply (stores_app_before w s s' s2); [|exact Hst2].
    rewrite length_seen. replace (src + (size - completed - chunk) + chunk) with (src + (size - completed)) by lia.
    replace (d + (size - completed - chunk) + Z.of_nat (Z.to_nat chunk)) with (d + (size - completed)) by lia. exact Hst.
  - rewrite !Z.add_0_r in *. rewrite <- seen_app by lia. apply (stores_app w s s' s2); [exact Hst|].
    rewrite length_seen, Z2Nat.id by lia. exact Hst2.
Qed.
Lemma seen_same_view s s' a n : same_view s s' -> seen w s' a n = seen w s a n.
Proof. intros Hv. apply seen_same. intros. by apply same_view_see. Qed.
Lemma same_view_trans s s1 s2 : same_view s s1 -> same_view s1 s2 -> same_view s s2.
Proof. intros [Hn Hv] [Hn' Hv']. split; [congruence|]. intros x. by rewrite Hv', Hv. Qed.

(** Why a call is refused before anything happens: no backing, or a buffer
    that may not be accessed. *)
Definition refused s (p n permission : Z) : Prop :=
  gsv_address w p = true /\ ~ view_allows (mem_view (mc_memory s)) p n permission.
Lemma source_ok_prepared s p n permissions :
  stays w p n -> (gsv_address w p = true -> view_allows (mem_view (mc_memory s)) p n permissions) ->
  permissions = GM_READ -> source_ok w s (gsv_address w p) p n.
Proof. intros Hstays Hall ->. unfold source_ok. destruct (gsv_address w p) eqn:E; [by apply Hall|by apply Hstays]. Qed.
Lemma target_ok_prepared s p n :
  stays w p n -> (gsv_address w p = true -> mem_ready (mc_memory s) p n) -> target_ok w s (gsv_address w p) p n.
Proof. intros Hstays Hall. unfold target_ok. destruct (gsv_address w p) eqn:E; [by apply Hall|by apply Hstays]. Qed.

(** C25: The guest's [memmove] and [memcpy]: whichever of the buffers are software
    ones, and however they overlap, the destination receives the bytes the
    source had, and nothing else changes. A copy is refused before a byte has
    moved: it never stops half way. *)
Theorem gsv_copy_spec s d src size :
  machine_ok w s -> 0 <= size < 2 ^ 64 -> stays w d size -> stays w src size ->
  let '(r, s') := gsv_copy w s d src size in
  machine_ok w s' /\
  if decide (r = GM_OK) then stores w s s' d (seen w s src size)
  else same_view s s' /\ (0 < size -> r = GM_NOMEM \/ refused s src size GM_READ \/ refused s d size GM_WRITE).
Proof.
  intros Hs Hsize Hd Hsrc. unfold gsv_copy. destruct (negb (gsv_address w d) && negb (gsv_address w src)) eqn:Enative.
  { bool_props. rewrite (host_bytes_seen w) by (done || lia || by apply Hsrc).
    destruct (put_chunk_spec w s false d size d (seen w s src size) size) as (s' & E & Hs' & _ & Hst);
      [done|unfold target_ok; by apply Hd|lia|rewrite length_seen; lia|lia|by apply seen_ok|]. injection E as <-. split; [done|]. by rewrite decide_True. }
  pose proof (prepare_spec w s src size GM_READ Hs ltac:(lia) eq_refl) as Hp1.
  destruct (prepare w s src size GM_READ) as [r1 s1]. destruct (decide (r1 = GM_OK)) as [->|Hne].
  2: { rewrite bool_decide_eq_false_2 by done. cbn [negb]. rewrite bool_decide_eq_false_2 by done. cbn [negb].
       destruct Hp1 as (-> & Ea & Hwhy). split; [done|]. rewrite decide_False by done. split; [by split|]. intros Hpos.
       destruct (Hwhy Hpos) as [->|Hno]; [by left|right; left]. by split. }
  rewrite (bool_decide_eq_true_2 (GM_OK = GM_OK)) by done. destruct Hp1 as (Hs1 & Hv1 & Hall1 & _).
  pose proof (prepare_spec w s1 d size GM_WRITE Hs1 ltac:(lia) eq_refl) as Hp2.
  destruct (prepare w s1 d size GM_WRITE) as [r2 s2]. destruct (decide (r2 = GM_OK)) as [->|Hne].
  2: { rewrite bool_decide_eq_false_2 by done. cbn [negb]. destruct Hp2 as (-> & Ea & Hwhy). split; [done|].
       rewrite decide_False by done. split; [done|]. intros Hpos. destruct (Hwhy Hpos) as [->|Hno]; [by left|right; right]. split; [done|].
       intros Hall. apply Hno. by apply (view_same_allows (mem_view (mc_memory s))); [apply Hv1|]. }
  rewrite (bool_decide_eq_true_2 (GM_OK = GM_OK)) by done. cbn [negb]. destruct Hp2 as (Hs2 & Hv2 & Hready & _).
  set (reverse := (src <? d) && (d - src <? size)). unfold finished.
  assert (Hv : same_view s s2) by by eapply same_view_trans.
  destruct (until_ends (copy_turn (gsv_address w d) (gsv_address w src) reverse d src size)
    (copying s2 (gsv_address w d) (gsv_address w src) reverse d src size)
    (fun out => out.1 = GM_OK /\ machine_ok w out.2 /\ stores w s2 out.2 d (seen w s2 src size)) (fun state => size - state.2))
    with (fuel := TURNS) (s := (s2, 0)) as ([r s'] & -> & Hr & Hs' & Hst); cbn [fst snd] in *.
  - intros state Hstate. pose proof (copy_turn_spec s2 _ _ reverse d src size state eq_refl ltac:(lia) Hs2 Hstate) as Hturn.
    destruct (copy_turn _ _ _ _ _ _ _) as [state'|[r s']]; exact Hturn.
  - intros [s' completed] (Hc & _). cbn. lia.
  - split; [lia|]. split; [done|]. split.
    { apply (source_ok_prepared s2 src size GM_READ Hsrc); [|done]. intros Ea.
      by apply (view_same_allows (mem_view (mc_memory s1))); [apply Hv2|apply Hall1]. }
    split; [by apply target_ok_prepared; [|intros Ea; apply (Hready Ea)]|].
    unfold seen. cbn [seqZ fmap list_fmap]. by apply stores_nil.
  - unfold TURNS. lia.
  - split; [done|]. rewrite decide_True by done. rewrite (seen_same_view s s2) in Hst by done.
    by apply (stores_same_view w s s2).
Qed.
End copying.

(** ** Filling and string arguments *)

Section filling.
Context `{BufferLaws M} (w : Window).
Implicit Types s : Machine M.

Lemma fill_turn_spec s d value size s' completed :
  0 <= completed <= size -> machine_ok w s' -> mem_ready (mc_memory s') d size ->
  stores w s s' d (replicate (Z.to_nat completed) (w8 value)) ->
  match fill_turn d value size (s', completed) with
  | inl (s2, completed') => completed < completed' <= size /\ machine_ok w s2 /\ mem_ready (mc_memory s2) d size /\
      stores w s s2 d (replicate (Z.to_nat completed') (w8 value))
  | inr (r, s2) => r = GM_OK /\ machine_ok w s2 /\ stores w s s2 d (replicate (Z.to_nat size) (w8 value))
  end.
Proof.
  intros Hc Hs' Hready Hst. unfold fill_turn. destruct (Z.ltb_spec completed size) as [Hlt|Hge]; cbn [negb].
  2: { assert (completed = size) as -> by lia. done. }
  destruct (chunk_of_bounds (size - completed) ltac:(lia)) as [Hchunk _]. set (chunk := chunk_of (size - completed)) in *.
  destruct (put_chunk_spec w s' true d size (d + completed) (replicate (Z.to_nat chunk) (w8 value)) chunk)
    as (s2 & -> & Hs2 & Hready2 & Hst2); try done; [lia|rewrite length_replicate; lia|lia| |].
  { apply Forall_replicate, w8_range. }
  rewrite bool_decide_eq_true_2 by done. cbn [negb]. split; [lia|]. split; [done|]. split; [done|].
  replace (Z.to_nat (completed + chunk)) with (Z.to_nat completed + Z.to_nat chunk)%nat by lia. rewrite replicate_add.
  apply (stores_app w s s' s2); [done|]. rewrite length_replicate, Z2Nat.id by lia. done.
Qed.
(** The guest's [memset]. *)
Theorem gsv_fill_spec s d value size :
  machine_ok w s -> 0 <= size < 2 ^ 64 -> stays w d size ->
  let '(r, s') := gsv_fill w s d value size in
  machine_ok w s' /\
  if decide (r = GM_OK) then stores w s s' d (replicate (Z.to_nat size) (w8 value))
  else same_view s s' /\ (0 < size -> r = GM_NOMEM \/ refused w s d size GM_WRITE).
Proof.
  intros Hs Hsize Hd. unfold gsv_fill. destruct (gsv_address w d) eqn:Ed; cbn [negb].
  2: { destruct (put_chunk_spec w s false d size d (replicate (Z.to_nat size) (w8 value)) size) as (s' & E & Hs' & _ & Hst);
         [done|unfold target_ok; by apply Hd|lia|rewrite length_replicate; lia|lia|apply Forall_replicate, w8_range|].
       injection E as <-. split; [done|]. by rewrite decide_True. }
  pose proof (prepare_spec w s d size GM_WRITE Hs ltac:(lia) eq_refl) as Hp.
  destruct (prepare w s d size GM_WRITE) as [r1 s1]. destruct (decide (r1 = GM_OK)) as [->|Hne].
  2: { rewrite bool_decide_eq_false_2 by done. cbn [negb]. destruct Hp as (-> & Ea & Hwhy). split; [done|].
       rewrite decide_False by done. split; [by split|]. intros Hpos. destruct (Hwhy Hpos) as [->|Hno]; [by left|right]. by split. }
  rewrite bool_decide_eq_true_2 by done. cbn [negb]. destruct Hp as (Hs1 & Hv1 & Hready & _). unfold finished.
  destruct (until_ends (fill_turn d value size)
    (fun '(s', completed) => 0 <= completed <= size /\ machine_ok w s' /\ mem_ready (mc_memory s') d size /\
       stores w s s' d (replicate (Z.to_nat completed) (w8 value)))
    (fun '(r, s') => r = GM_OK /\ machine_ok w s' /\ stores w s s' d (replicate (Z.to_nat size) (w8 value)))
    (fun '(_, completed) => size - completed)) with (fuel := TURNS) (s := (s1, 0)) as ([r s'] & -> & -> & Hs' & Hst).
  - intros [s' completed] (Hc & Hs' & Hr & Hst). pose proof (fill_turn_spec s d value size s' completed Hc Hs' Hr Hst) as Ht.
    destruct (fill_turn d value size (s', completed)) as [[s2 completed']|[r s2]]; [|done].
    destruct Ht as (Hc' & Hs2 & Hr2 & Hst2). split; [|lia]. split; [lia|done].
  - intros [s' completed] (Hc & _). lia.
  - split; [lia|]. split; [done|]. split; [by apply Hready|]. by apply stores_nil.
  - unfold TURNS. lia.
  - split; [done|]. by rewrite decide_True.
Qed.

Lemma seen_one s a : seen w s a 1 = [see w s a].
Proof. unfold seen. change (seqZ 0 1) with [0]. cbn [fmap list_fmap]. by rewrite Z.add_0_r. Qed.
Lemma native_view s s' a bs x :
  machine_ok w s -> (forall i, 0 <= i < Z.of_nat (length bs) -> gsv_address w (a + i) = false) -> stores w s s' a bs ->
  mem_view (mc_memory s') x = mem_view (mc_memory s) x.
Proof.
  intros Hs Hout Hst. rewrite (st_view _ _ _ _ _ Hst). destruct (decide _) as [Hx|]; [|done].
  destruct (mem_view (mc_memory s) x) as [c|] eqn:E; [|done]. apply (mo_inside w s Hs) in E.
  replace x with (a + (x - a)) in E by lia. by rewrite Hout in E by lia.
Qed.
(** The byte at an index of a software string may be read and is not its end. *)
Definition goes_on s source i : Prop :=
  view_allows (mem_view (mc_memory s)) (source + i) 1 GM_READ /\ see w s (source + i) <> 0.
Lemma string_turn_spec s source buffer capacity s' i :
  machine_ok w s -> (forall i, 0 <= i < capacity -> gsv_address w (buffer + i) = false) ->
  0 <= i <= capacity -> machine_ok w s' -> stores w s s' buffer (seen w s source i) ->
  (forall j, 0 <= j < i -> goes_on s source j) ->
  match string_turn source buffer capacity (s', i) with
  | inl (s2, i') => i' = i + 1 /\ i < capacity /\ machine_ok w s2 /\ stores w s s2 buffer (seen w s source i') /\
      goes_on s source i
  | inr (inl e, s2) => machine_ok w s2 /\ (forall x, mem_view (mc_memory s2) x = mem_view (mc_memory s) x) /\
      (e = ENAMETOOLONG /\ i = capacity \/
       e = EFAULT /\ i < capacity /\ ~ view_allows (mem_view (mc_memory s)) (source + i) 1 GM_READ)
  | inr (inr p, s2) => p = buffer /\ i < capacity /\ machine_ok w s2 /\ stores w s s2 buffer (seen w s source (i + 1)) /\
      view_allows (mem_view (mc_memory s)) (source + i) 1 GM_READ /\ see w s (source + i) = 0
  end.
Proof.
  intros Hs Hbuffer Hi Hs' Hst Hon. unfold string_turn.
  assert (Hsame : forall x, mem_view (mc_memory s') x = mem_view (mc_memory s) x).
  { intros x. apply (native_view s s' buffer (seen w s source i)); [done| |done]. rewrite length_seen. intros j Hj. apply Hbuffer. lia. }
  destruct (Z.ltb_spec i capacity) as [Hlt|Hge]; cbn [negb].
  2: { split; [done|]. split; [done|]. left. split; [done|lia]. }
  pose proof (law_allowed (mc_memory s') (source + i) [mc_native s' (buffer + i)] 1 (mo_memory w s' Hs') eq_refl ltac:(lia)) as Hallowed.
  assert (Hview : view_allows (mem_view (mc_memory s')) (source + i) 1 GM_READ <-> view_allows (mem_view (mc_memory s)) (source + i) 1 GM_READ).
  { split; apply view_same_allows; [|done]. intros x. by rewrite Hsame. }
  pose proof (law_read (mc_memory s') (source + i) [mc_native s' (buffer + i)] 1 (mo_memory w s' Hs') eq_refl) as Hread.
  destruct (mem_read _ _ _ _) as [[r m] byte]. cbn [fst] in Hallowed. destruct Hread as [-> Hread].
  destruct (decide (r = GM_OK)) as [->|Hne].
  2: { rewrite bool_decide_eq_false_2 by done. cbn [negb]. subst byte.
       destruct (put_chunk_spec w s' false (buffer + i) 1 (buffer + i) [mc_native s' (buffer + i)] 1) as (s2 & E & Hs2 & _ & _); [done| |lia|done|lia| |].
       { intros k Hk. rewrite <- Z.add_assoc. apply Hbuffer. lia. }
       { constructor; [apply Hs'|done]. }
       injection E as <-. split; [done|]. split; [done|]. right. split; [done|]. split; [done|]. rewrite <- Hview. intros Hall. by apply Hne, Hallowed. }
  destruct Hread as [Hlen Hreads]. rewrite bool_decide_eq_true_2 by done. cbn [negb].
  assert (Hall : view_allows (mem_view (mc_memory s')) (source + i) 1 GM_READ) by by apply Hallowed.
  apply (view_reads_seen w s' (source + i) 1) in Hreads; [|cbn in Hlen; lia|intros k Hk; by apply (allowed_inside w s' _ 1 GM_READ)].
  assert (Hbyte : byte = [see w s (source + i)]).
  { rewrite Hreads, seen_one. f_equal. unfold see. rewrite Hsame.
    assert (gsv_address w (source + i + 0) = true) as Hin by (by apply (allowed_inside w s' _ 1 GM_READ)).
    rewrite Z.add_0_r in Hin. by rewrite Hin. }
  clear Hreads. subst byte.
  destruct (put_chunk_spec w s' false (buffer + i) 1 (buffer + i) [see w s (source + i)] 1) as (s2 & E & Hs2 & _ & Hst2); [done| |lia|done|lia| |].
  { intros k Hk. rewrite <- Z.add_assoc. apply Hbuffer. lia. }
  { constructor; [by apply see_ok|done]. }
  injection E as <-. unfold set_native in *. cbn [mc_native] in *.
  assert (Hst3 : stores w s (mkMachine (mc_memory s') (host_store (mc_native s') (buffer + i) [see w s (source + i)])) buffer (seen w s source (i + 1))).
  { rewrite <- seen_app by lia. apply (stores_app w s s'); [done|]. rewrite length_seen, Z2Nat.id by lia.
    by rewrite seen_one. }
  rewrite host_store_spec, decide_True by (cbn; lia). rewrite Z.sub_diag.
  change (default 0 ([see w s (source + i)] !! Z.to_nat 0)) with (see w s (source + i)).
  rewrite Hview in Hall. destruct (Z.eqb_spec (see w s (source + i)) 0). all: by split_and!.
Qed.
Definition string_post s source buffer capacity (out : (Z + Z) * Machine M) : Prop :=
  let '(r, s') := out in
  machine_ok w s' /\
  match r with
  | inl e => (forall x, mem_view (mc_memory s') x = mem_view (mc_memory s) x) /\
      (e = ENAMETOOLONG /\ (forall j, 0 <= j < capacity -> goes_on s source j) \/
       e = EFAULT /\ exists i, 0 <= i < capacity /\ (forall j, 0 <= j < i -> goes_on s source j) /\
         ~ view_allows (mem_view (mc_memory s)) (source + i) 1 GM_READ)
  | inr p => p = buffer /\ exists n, 0 <= n < capacity /\ (forall j, 0 <= j < n -> goes_on s source j) /\
      see w s (source + n) = 0 /\ stores w s s' buffer (seen w s source (n + 1))
  end.
(** A string argument of a system call. A native one is passed on; a software
    one is copied with its NUL to the caller's buffer. It is reported as bad
    exactly when a byte before its end, within the capacity, may not be read,
    and as too long when there is no end within the capacity. *)
Theorem gsv_string_spec s source buffer capacity :
  machine_ok w s -> 0 <= capacity < 2 ^ 64 -> source <> 0 -> gsv_address w source = true ->
  (forall i, 0 <= i < capacity -> gsv_address w (buffer + i) = false) ->
  string_post s source buffer capacity (gsv_string w s source buffer capacity).
Proof.
  intros Hs Hcapacity Hnull Hsource Hbuffer. unfold gsv_string. rewrite (proj2 (Z.eqb_neq source 0)) by done. rewrite Hsource. cbn [negb].
  match goal with |- context [until _ ?step _] => set (turn := step) end.
  destruct (until_ends turn
    (fun '(s', i) => 0 <= i <= capacity /\ machine_ok w s' /\ stores w s s' buffer (seen w s source i) /\ (forall j, 0 <= j < i -> goes_on s source j))
    (string_post s source buffer capacity) (fun '(_, i) => capacity - i)) with (fuel := TURNS) (s := (s, 0)) as (out & -> & Hout).
  - intros [s' i] (Hi & Hs' & Hst & Hon). pose proof (string_turn_spec s source buffer capacity s' i Hs Hbuffer Hi Hs' Hst Hon) as Ht.
    subst turn. destruct (string_turn source buffer capacity (s', i)) as [[s2 i']|[[e|p] s2]]; unfold string_post.
    + destruct Ht as (-> & Hlt & Hs2 & Hst2 & Hgo). split; [|lia]. split; [lia|]. split; [done|]. split; [done|].
      intros j Hj. destruct (Z.eq_dec j i) as [->|]; [done|]. apply Hon. lia.
    + destruct Ht as (Hs2 & Hsame & Hwhy). split; [done|]. split; [exact Hsame|].
      destruct Hwhy as [[-> ->]|(-> & Hlt & Hno)]; [by left|right]. split; [done|]. exists i. split; [lia|done].
    + destruct Ht as (-> & Hlt & Hs2 & Hst2 & _ & Hz). split; [done|]. split; [done|]. exists i. split; [lia|done].
  - intros [s' i] (Hi & _). lia.
  - split; [lia|]. split; [done|]. split; [by apply stores_nil|lia].
  - unfold TURNS. lia.
  - exact Hout.
Qed.
End filling.

(** ** Searches

    A search goes through indices until one decides. Each index needs some
    memory to be readable; the search is aborted exactly when an index it needs
    is not. *)

Section search.
Context {A : Type} (f : Z -> bool) (R : Z -> Prop) (limit : Z) (ans : Z -> A).
Hypothesis limit_range : 0 <= limit < 2 ^ 64.
#[local] Abbreviation index := (first_index f limit).

Definition passed (done : Z) : Prop := forall i, 0 <= i < done -> f i = false /\ R i.
Definition needed : Prop := forall i, 0 <= i <= index -> i < limit -> R i.
Definition searched (out : option A) : Prop :=
  match out with Some a => a = ans index /\ needed | None => ~ needed end.
Definition turn_post (done : Z) (out : Z + option A) : Prop :=
  match out with inl done' => done < done' <= limit /\ passed done' | inr out => searched out end.

Lemma passed_more done n :
  0 <= done -> passed done -> (forall i, 0 <= i < n -> f (done + i) = false /\ R (done + i)) -> passed (done + n).
Proof.
  intros Hdone Hp Hn i Hi. destruct (Z.lt_ge_cases i done); [apply Hp; lia|].
  replace i with (done + (i - done)) by lia. apply Hn. lia.
Qed.
Lemma search_found k a : 0 <= k < limit -> passed k -> f k = true -> R k -> a = ans k -> searched (Some a).
Proof.
  intros Hk Hp Hf HR ->. assert (index = k) as Hi.
  { apply decides_first; [done|]. split; [lia|]. split; [|done]. intros i Hi. by apply Hp. }
  split; [by rewrite Hi|]. unfold needed. rewrite Hi. intros i Hi' _. destruct (Z.eq_dec i k) as [->|]; [done|]. apply Hp. lia.
Qed.
Lemma search_blocked done : 0 <= done < limit -> passed done -> ~ R done -> searched None.
Proof.
  intros Hdone Hp Hno Hneeded. apply Hno, Hneeded; [|lia]. split; [lia|].
  apply (decides_from f limit); [lia| |by apply first_index_spec]. intros i Hi. by apply Hp.
Qed.
Lemma search_end a : passed limit -> a = ans limit -> searched (Some a).
Proof.
  intros Hp ->. assert (index = limit) as Hi.
  { apply decides_first; [done|]. split; [lia|]. split; [|lia]. intros i Hi. by apply Hp. }
  split; [by rewrite Hi|]. intros i Hi' Hlt. apply Hp. lia.
Qed.
(** A loop whose turns are sound gives the answer of the search. *)
Lemma search_spec step none :
  (forall done, 0 <= done <= limit -> passed done -> turn_post done (step done)) ->
  searched (answer (until TURNS step 0) none).
Proof.
  intros Hstep. destruct (until_ends step (fun done => 0 <= done <= limit /\ passed done) searched (fun done => limit - done))
    with (fuel := TURNS) (s := 0) as (out & -> & Hout); [|lia| |unfold TURNS; lia|done].
  - intros done [Hdone Hp]. pose proof (Hstep done Hdone Hp) as Ht. destruct (step done) as [done'|out]; [|done].
    destruct Ht as [Hd Hp']. split; [split; [lia|done]|lia].
  - split; [lia|]. intros i Hi. lia.
Qed.
End search.

Section scanning.
Context `{BufferLaws M} (w : Window).
Implicit Types s : Machine M.
Hypothesis pages : w_base w mod GM_PAGE_SIZE = 0 /\ w_span w mod GM_PAGE_SIZE = 0.

(** The memory from a pointer on never enters the window from below. *)
Definition leaves (p n : Z) : Prop :=
  forall i j, 0 <= i -> i <= j -> j < n -> gsv_address w (p + i) = false -> gsv_address w (p + j) = false.
Lemma leaves_window p n : gsv_address w p = true -> leaves p n.
Proof. unfold leaves, gsv_address. intros Hp i j Hi Hj Hn. destruct (w_enabled w); cbn [andb] in *; [lia|done]. Qed.
Lemma leaves_stays p n : stays w p n -> leaves p n.
Proof.
  intros Hstays. destruct (gsv_address w p) eqn:E; [by apply leaves_window|]. intros i j Hi Hij Hj _. apply Hstays; [done|lia].
Qed.

(** All of a chunk is of one kind, and a software chunk is in one page. *)
Record chunk_ok (a n : Z) : Prop := {
  ck_size : 0 < n;
  ck_kind : forall i, 0 <= i < n -> gsv_address w (a + i) = gsv_address w a;
  ck_page : gsv_address w a = true -> forall i, 0 <= i < n -> (a + i) - (a + i) mod GM_PAGE_SIZE = a - a mod GM_PAGE_SIZE
}.
Lemma scan_chunk_bounds a left : 0 < left -> 0 < scan_chunk w a left <= left.
Proof.
  intros Hleft. unfold scan_chunk. pose proof (Z.mod_pos_bound a GM_PAGE_SIZE ltac:(done)).
  destruct (Z.ltb_spec left 256); destruct (gsv_address w a); try lia.
  all: match goal with |- context [if ?x <? ?y then _ else _] => destruct (Z.ltb_spec x y) end; lia.
Qed.
Lemma scan_chunk_page a left :
  0 < left -> gsv_address w a = true -> a - a mod GM_PAGE_SIZE + GM_PAGE_SIZE >= a + scan_chunk w a left.
Proof.
  intros Hleft E. unfold scan_chunk. rewrite E.
  match goal with |- context [if ?x <? ?y then ?x else _] => destruct (Z.ltb_spec x y) end; lia.
Qed.
Lemma chunk_software a n :
  0 < n -> gsv_address w a = true -> a - a mod GM_PAGE_SIZE + GM_PAGE_SIZE >= a + n -> chunk_ok a n.
Proof.
  intros Hn E Hpage. pose proof (Z.mod_pos_bound a GM_PAGE_SIZE ltac:(done)) as Hmod.
  assert (Hfloor : (a - a mod GM_PAGE_SIZE) mod GM_PAGE_SIZE = 0) by apply page_floor_mod.
  split; [done| |].
  - intros i Hi. rewrite E. unfold gsv_address in *. destruct pages as [Hb Hs]. bool_props.
    assert (Hend : (w_base w + w_span w) mod GM_PAGE_SIZE = 0) by (rewrite Zplus_mod, Hb, Hs; done).
    assert (a - a mod GM_PAGE_SIZE + GM_PAGE_SIZE <= w_base w + w_span w) by (apply align_step; [done|done|done|lia]).
    destruct (w_enabled w); [|done]. cbn [andb]. lia.
  - intros _ i Hi. rewrite (page_unique (a - a mod GM_PAGE_SIZE) (a + i)) by (done || lia). lia.
Qed.
Lemma chunk_native a n : 0 < n -> (forall i, 0 <= i < n -> gsv_address w (a + i) = false) -> chunk_ok a n.
Proof.
  intros Hn Hout. assert (gsv_address w a = false) as E by (rewrite <- (Z.add_0_r a); apply Hout; lia).
  split; [done| |by rewrite E]. intros i Hi. by rewrite E, Hout.
Qed.
Lemma chunk_part a n k : chunk_ok a n -> 0 < k <= n -> chunk_ok a k.
Proof. intros [Hn Hkind Hpage] Hk. split; [lia|intros; apply Hkind; lia|intros; apply Hpage; [done|lia]]. Qed.
Lemma scan_chunk_ok p done left :
  0 <= done -> 0 < left -> leaves p (done + left) -> chunk_ok (p + done) (scan_chunk w (p + done) left).
Proof.
  intros Hdone Hleft Hleaves. pose proof (scan_chunk_bounds (p + done) left Hleft) as Hn.
  destruct (gsv_address w (p + done)) eqn:E; [apply chunk_software; [lia|done|by apply scan_chunk_page]|].
  apply chunk_native; [lia|]. intros i Hi. rewrite <- Z.add_assoc. apply (Hleaves done); [lia|lia|lia|done].
Qed.

(** A chunk is read completely, or its first byte may not be read. *)
Lemma scan_read_spec s a n :
  machine_ok w s -> chunk_ok a n ->
  match scan_read w s a n with
  | Some bytes => bytes = seen w s a n /\ forall i, 0 <= i < n -> readable w s (a + i)
  | None => ~ readable w s a
  end.
Proof.
  intros Hs [Hn Hkind Hpage]. unfold scan_read. destruct (gsv_address w a) eqn:E; cbn [negb].
  2: { rewrite (host_bytes_seen w) by (done || lia). split; [done|]. intros i Hi Hin. by rewrite Hkind in Hin. }
  pose proof (law_allowed (mc_memory s) a (replicate (Z.to_nat n) 0) n (mo_memory w s Hs)) as Hallowed.
  pose proof (law_read (mc_memory s) a (replicate (Z.to_nat n) 0) n (mo_memory w s Hs)) as Hread.
  rewrite length_replicate in Hallowed, Hread. destruct (mem_read _ _ _ _) as [[r m] bytes]. cbn [fst] in Hallowed.
  specialize (Hallowed ltac:(lia) Hn). destruct (Hread ltac:(lia)) as [_ Hbytes]. destruct (decide (r = GM_OK)) as [->|Hne].
  - rewrite bool_decide_eq_true_2 by done. cbn [negb]. destruct Hbytes as [Hl Hb]. split.
    + apply view_reads_seen; [lia| |done]. intros i Hi. by rewrite Hkind.
    + intros i Hi _. apply (view_allows_part _ a n); [by apply Hallowed|lia|lia].
  - rewrite bool_decide_eq_false_2 by done. cbn [negb]. intros Hfirst. apply Hne, Hallowed. intros x Hx.
    destruct (Hfirst E a ltac:(lia)) as (c & Hc & Hp).
    destruct (law_pages (mc_memory s) a x c (mo_memory w s Hs)) as (c' & Hc' & Hp'); [|done|exists c'; by rewrite Hp'].
    replace x with (a + (x - a)) by lia. symmetry. apply Hpage; [done|lia].
Qed.

Lemma first_index_0 f : first_index f 0 = 0.
Proof. apply decides_first; [done|]. split_and!; lia. Qed.
Lemma eqb_decide x y : (x =? y) = bool_decide (x = y).
Proof. destruct (Z.eqb_spec x y); [by rewrite bool_decide_eq_true_2|by rewrite bool_decide_eq_false_2]. Qed.

(** A turn that searches one range for the first byte with a property. *)
Lemma find_seen (P : Z -> Prop) `{!forall b, Decision (P b)} s a n :
  0 < n ->
  match list_find P (seen w s a n) with
  | Some (i, _) => Z.of_nat i < n /\ P (see w s (a + Z.of_nat i)) /\ forall j, 0 <= j < Z.of_nat i -> ~ P (see w s (a + j))
  | None => forall j, 0 <= j < n -> ~ P (see w s (a + j))
  end.
Proof.
  intros Hn. destruct (list_find P (seen w s a n)) as [[i b]|] eqn:E.
  - apply list_find_Some in E as (Hb & Hp & Hbefore). pose proof (lookup_lt_Some _ _ _ Hb) as Hi. rewrite length_seen in Hi.
    rewrite <- (Nat2Z.id i), lookup_seen in Hb by lia. injection Hb as <-. split; [lia|]. split; [done|]. intros j Hj.
    apply (Hbefore (Z.to_nat j)); [by rewrite lookup_seen by lia|lia].
  - apply list_find_None in E. rewrite Forall_lookup in E. intros j Hj. apply (E (Z.to_nat j)). by rewrite lookup_seen by lia.
Qed.
Lemma single_turn_spec {A} (P : Z -> Prop) `{!forall b, Decision (P b)} s p limit done n (ans : Z -> A) :
  machine_ok w s -> 0 <= limit < 2 ^ 64 -> chunk_ok (p + done) n -> 0 <= done -> done + n <= limit ->
  let f i := bool_decide (P (see w s (p + i))) in
  let R i := readable w s (p + i) in
  passed f R done ->
  turn_post f R limit ans done
    match scan_read w s (p + done) n with
    | None => inr None
    | Some bytes =>
      match list_find P bytes with
      | Some (i, _) => inr (Some (ans (done + Z.of_nat i)))
      | None => inl (done + n)
      end
    end.
Proof.
  intros Hs Hlimit Hchunk Hdone Hend f R Hp. pose proof (ck_size _ _ Hchunk) as Hn.
  pose proof (scan_read_spec s (p + done) n Hs Hchunk) as Hread. destruct (scan_read w s (p + done) n) as [bytes|].
  2: { cbn. by apply (search_blocked f R limit ans Hlimit done); [lia| |]. }
  destruct Hread as [-> Hreadable]. pose proof (find_seen P s (p + done) n Hn) as Hfind.
  destruct (list_find P _) as [[i b]|]; cbn.
  - destruct Hfind as (Hi & HP & Hbefore). apply (search_found f R limit ans Hlimit (done + Z.of_nat i)); [lia| | | |done].
    + apply passed_more; [done|done|]. intros j Hj. unfold f, R. rewrite Z.add_assoc. split; [by apply bool_decide_eq_false, Hbefore|].
      apply Hreadable. lia.
    + unfold f. rewrite Z.add_assoc. by apply bool_decide_eq_true.
    + unfold R. rewrite Z.add_assoc. apply Hreadable. lia.
  - split; [lia|]. apply passed_more; [done|done|]. intros j Hj. unfold f, R. rewrite Z.add_assoc.
    split; [by apply bool_decide_eq_false, Hfind|by apply Hreadable].
Qed.

(** The guest's [strnlen]: the first NUL of what the guest sees, or the limit. It
    ends, and the program is aborted exactly when a byte up to the end of the
    string may not be read: nothing behind the end is needed. *)
Theorem gsv_strnlen_spec s p limit :
  machine_ok w s -> 0 <= limit < 2 ^ 64 -> gsv_address w p = true ->
  let n := c_strnlen (see w s) p limit in
  let needed := forall i, 0 <= i <= n -> i < limit -> readable w s (p + i) in
  match gsv_strnlen w s p limit with Some r => r = n /\ needed | None => ~ needed end.
Proof.
  intros Hs Hlimit Hp n needed_. unfold gsv_strnlen. unfold c_strnlen in n. destruct (Z.eqb_spec limit 0) as [->|Hnz].
  { split; [|intros i; lia]. unfold n. by rewrite first_index_0. }
  rewrite Hp. cbn [negb]. set (f := fun i => bool_decide (see w s (p + i) = 0)).
  assert (Hf : forall i, f i = (see w s (p + i) =? 0)) by (intros i; unfold f; by rewrite eqb_decide).
  assert (Hn : n = first_index f limit) by (unfold n; by apply first_index_ext).
  unfold needed_. rewrite Hn.
  assert (Hsearch : searched f (fun i => readable w s (p + i)) limit (fun r => r) (answer (until TURNS (strnlen_turn w s p limit) 0) limit));
    [|destruct (answer _ _); exact Hsearch].
  apply (search_spec f _ limit _ Hlimit). intros done Hdone Hpassed. unfold strnlen_turn. destruct (Z.ltb_spec done limit) as [Hlt|Hge]; cbn [negb].
  - pose proof (scan_chunk_bounds (p + done) (limit - done) ltac:(lia)).
    assert (Hchunk : chunk_ok (p + done) (scan_chunk w (p + done) (limit - done))).
    { apply scan_chunk_ok; [lia|lia|by apply leaves_window]. }
    exact (single_turn_spec (fun b => b = 0) s p limit done _ (fun r => r) Hs Hlimit Hchunk ltac:(lia) ltac:(lia) Hpassed).
  - assert (done = limit) as -> by lia. by apply (search_end f).
Qed.
(** The guest's [memchr]. *)
Theorem gsv_memchr_spec s p value size :
  machine_ok w s -> 0 <= size < 2 ^ 64 -> gsv_address w p = true ->
  let needed := forall i, 0 <= i <= first_index (fun i => see w s (p + i) =? w8 value) size -> i < size -> readable w s (p + i) in
  match gsv_memchr w s p value size with Some r => r = c_memchr (see w s) p value size /\ needed | None => ~ needed end.
Proof.
  intros Hs Hlimit Hp needed_. unfold gsv_memchr, c_memchr. destruct (Z.eqb_spec size 0) as [->|Hnz].
  { split; [|intros i; lia]. by rewrite first_index_0. }
  rewrite Hp. cbn [negb]. set (f := fun i => bool_decide (see w s (p + i) = w8 value)).
  assert (Hf : first_index (fun i => see w s (p + i) =? w8 value) size = first_index f size).
  { apply first_index_ext; [done|]. intros i _. unfold f. by rewrite eqb_decide. }
  unfold needed_. rewrite Hf.
  set (ans := fun r => if r <? size then Some (p + r) else None).
  assert (Hsearch : searched f (fun i => readable w s (p + i)) size ans (answer (until TURNS (memchr_turn w s p value size) 0) None));
    [|destruct (answer _ _); exact Hsearch].
  apply (search_spec f _ size _ Hlimit). intros done Hdone Hpassed. unfold memchr_turn. destruct (Z.ltb_spec done size) as [Hlt|Hge]; cbn [negb].
  - pose proof (scan_chunk_bounds (p + done) (size - done) ltac:(lia)).
    assert (Hchunk : chunk_ok (p + done) (scan_chunk w (p + done) (size - done))).
    { apply scan_chunk_ok; [lia|lia|by apply leaves_window]. }
    pose proof (single_turn_spec (fun b => b = w8 value) s p size done _ ans Hs Hlimit Hchunk ltac:(lia) ltac:(lia) Hpassed) as Ht.
    pose proof (scan_read_spec s _ _ Hs Hchunk) as Hread. destruct (scan_read w s _ _) as [bytes|]; [|exact Ht].
    destruct Hread as [-> _]. pose proof (find_seen (fun b => b = w8 value) s (p + done) _ (ck_size _ _ Hchunk)) as Hfind.
    destruct (list_find _ _) as [[i b]|]; [|exact Ht].
    unfold ans in Ht at 2. rewrite (proj2 (Z.ltb_lt _ _)) in Ht by lia. rewrite <- Z.add_assoc. exact Ht.
  - assert (done = size) as -> by lia. apply (search_end f); [done|done|]. unfold ans. by rewrite Z.ltb_irrefl.
Qed.
End scanning.

(** ** Comparisons *)

Section comparing.
Context `{BufferLaws M} (w : Window).
Implicit Types s : Machine M.
Hypothesis pages : w_base w mod GM_PAGE_SIZE = 0 /\ w_span w mod GM_PAGE_SIZE = 0.

(** [D] looks through two chunks for the first pair that decides, and answers
    with its difference. *)
Definition finds_pair (F : Z -> Z -> bool) (D : list Z -> list Z -> option Z) : Prop :=
  forall aa bb, length aa = length bb ->
    match D aa bb with
    | Some res => exists k a b, aa !! k = Some a /\ bb !! k = Some b /\ F a b = true /\ res = a - b /\
        forall j a' b', (j < k)%nat -> aa !! j = Some a' -> bb !! j = Some b' -> F a' b' = false
    | None => forall j a' b', aa !! j = Some a' -> bb !! j = Some b' -> F a' b' = false
    end.
Definition memcmp_finds (aa bb : list Z) : option Z :=
  if negb (memcmp_bytes aa bb =? 0) then Some (memcmp_bytes aa bb) else None.
Lemma finds_memcmp : finds_pair (fun a b => negb (a =? b)) memcmp_finds.
Proof.
  intros aa. unfold memcmp_finds. induction aa as [|a aa IH]; intros [|b bb] Hl; try done. cbn [memcmp_bytes].
  destruct (Z.eqb_spec a b) as [->|Hne].
  - specialize (IH bb ltac:(by injection Hl)). destruct (negb (memcmp_bytes aa bb =? 0)).
    + destruct IH as (k & a & b' & Ha & Hb & HF & Hres & Hbefore). exists (S k), a, b'. split_and!; try done.
      intros [|j] x y Hj Hx Hy; [|by apply (Hbefore j x y); [lia|..]]. injection Hx as <-. injection Hy as <-. by rewrite Z.eqb_refl.
    + intros [|j] x y Hx Hy; [|by apply (IH j x y)]. injection Hx as <-. injection Hy as <-. by rewrite Z.eqb_refl.
  - rewrite (proj2 (Z.eqb_neq (a - b) 0)) by lia. cbn [negb]. exists 0%nat, a, b. split_and!; try done; [|intros; lia].
    by rewrite (proj2 (Z.eqb_neq a b)).
Qed.
Lemma finds_strncmp : finds_pair (fun a b => negb (a =? b) || (a =? 0)) strncmp_bytes.
Proof.
  intros aa. induction aa as [|a aa IH]; intros [|b bb] Hl; try done. cbn [strncmp_bytes].
  destruct (Z.eqb_spec a b) as [->|Hne]; cbn [negb].
  2: { exists 0%nat, a, b. split_and!; try done; [|intros; lia]. by rewrite (proj2 (Z.eqb_neq a b)). }
  destruct (Z.eqb_spec b 0) as [->|Hnz]; [exists 0%nat, 0, 0; by split_and!; [..|intros; lia]|].
  specialize (IH bb ltac:(by injection Hl)).
  assert (Hhead : negb (b =? b) || (b =? 0) = false) by (rewrite Z.eqb_refl; by apply Z.eqb_neq).
  destruct (strncmp_bytes aa bb).
  - destruct IH as (k & a & b' & Ha & Hb & HF & Hres & Hbefore). exists (S k), a, b'. split_and!; try done.
    intros [|j] x y Hj Hx Hy; [|by apply (Hbefore j x y); [lia|..]]. injection Hx as <-. by injection Hy as <-.
  - intros [|j] x y Hx Hy; [|by apply (IH j x y)]. injection Hx as <-. by injection Hy as <-.
Qed.

(** A turn that compares two ranges. *)
Lemma pair_turn_spec F D s l r limit done n :
  finds_pair F D -> machine_ok w s -> 0 <= limit < 2 ^ 64 ->
  chunk_ok w (l + done) n -> chunk_ok w (r + done) n -> 0 <= done -> done + n <= limit ->
  let f i := F (see w s (l + i)) (see w s (r + i)) in
  let R i := readable w s (l + i) /\ readable w s (r + i) in
  let ans i := if i <? limit then see w s (l + i) - see w s (r + i) else 0 in
  passed f R done ->
  turn_post f R limit ans done
    match scan_read w s (l + done) n with
    | None => inr None
    | Some aa =>
      match scan_read w s (r + done) n with
      | None => inr None
      | Some bb => match D aa bb with Some result => inr (Some result) | None => inl (done + n) end
      end
    end.
Proof.
  intros HD Hs Hlimit Hl Hr Hdone Hend f R ans Hp. pose proof (ck_size _ _ _ Hl) as Hn.
  pose proof (scan_read_spec w s (l + done) n Hs Hl) as Hread. destruct (scan_read w s (l + done) n) as [aa|].
  2: { cbn. by apply (search_blocked f R limit ans Hlimit done); [lia| |intros [? _]]. }
  pose proof (scan_read_spec w s (r + done) n Hs Hr) as Hread'. destruct (scan_read w s (r + done) n) as [bb|].
  2: { cbn. by apply (search_blocked f R limit ans Hlimit done); [lia| |intros [_ ?]]. }
  destruct Hread as [-> Hrl], Hread' as [-> Hrr]. specialize (HD (seen w s (l + done) n) (seen w s (r + done) n)).
  rewrite !length_seen in HD. specialize (HD eq_refl).
  assert (HR : forall i, 0 <= i < n -> R (done + i)) by (intros i Hi; unfold R; rewrite !Z.add_assoc; by split; [apply Hrl|apply Hrr]).
  assert (Hsee : forall p i, 0 <= i < n -> seen w s (p + done) n !! Z.to_nat i = Some (see w s (p + (done + i)))).
  { intros p i Hi. rewrite lookup_seen by done. by rewrite Z.add_assoc. }
  destruct (D _ _) as [res|]; cbn.
  - destruct HD as (k & a & b & Ha & Hb & HF & -> & Hbefore). pose proof (lookup_lt_Some _ _ _ Ha) as Hk. rewrite length_seen in Hk.
    rewrite <- (Nat2Z.id k), Hsee in Ha, Hb by lia. injection Ha as <-. injection Hb as <-.
    apply (search_found f R limit ans Hlimit (done + Z.of_nat k)); [lia| |done|apply HR; lia|].
    + apply passed_more; [done|done|]. intros j Hj. split; [|apply HR; lia].
      by apply (Hbefore (Z.to_nat j)); [lia|rewrite Hsee by lia..].
    + unfold ans. by rewrite (proj2 (Z.ltb_lt _ _)) by lia.
  - split; [lia|]. apply passed_more; [done|done|]. intros j Hj. split; [|by apply HR].
    by apply (HD (Z.to_nat j)); rewrite Hsee by lia.
Qed.
Lemma min_chunk x y : 0 < x -> 0 < y -> 0 < (if y <? x then y else x) <= x /\ (if y <? x then y else x) <= y.
Proof. intros Hx Hy. destruct (Z.ltb_spec y x); lia. Qed.

(** The guest's [memcmp]: the difference of the first pair of bytes that differ.
    The program is aborted exactly when a byte up to that pair may not be read. *)
Theorem gsv_memcmp_spec s l r size :
  machine_ok w s -> 0 <= size < 2 ^ 64 -> stays w l size -> stays w r size ->
  let needed := forall i, 0 <= i <= first_index (fun i => negb (see w s (l + i) =? see w s (r + i))) size -> i < size ->
    readable w s (l + i) /\ readable w s (r + i) in
  match gsv_memcmp w s l r size with Some d => d = c_memcmp (see w s) l r size /\ needed | None => ~ needed end.
Proof.
  intros Hs Hlimit Hl Hr needed_. unfold gsv_memcmp, c_memcmp. destruct (Z.eqb_spec size 0) as [->|Hnz].
  { split; [|intros i; lia]. by rewrite first_index_0. }
  set (f := fun i => negb (see w s (l + i) =? see w s (r + i))).
  set (ans := fun i => if i <? size then see w s (l + i) - see w s (r + i) else 0).
  destruct (negb (gsv_address w l) && negb (gsv_address w r)) eqn:Enative.
  - bool_props. unfold c_memcmp. assert (Hsee : forall i, 0 <= i < size ->
      mc_native s (l + i) = see w s (l + i) /\ mc_native s (r + i) = see w s (r + i)).
    { intros i Hi. unfold see. by rewrite Hl, Hr. }
    rewrite (first_index_ext _ f) by (done || (intros i Hi; destruct (Hsee i Hi) as [-> ->]; done)).
    pose proof (first_index_spec f size Hlimit) as (Hi & _). split.
    + destruct (Z.ltb_spec (first_index f size) size); [|done]. by destruct (Hsee (first_index f size) ltac:(lia)) as [-> ->].
    + intros i Hi' Hlt. unfold readable. by rewrite (Hl ltac:(done) i), (Hr ltac:(done) i) by lia.
  - assert (Hsearch : searched f (fun i => readable w s (l + i) /\ readable w s (r + i)) size ans (answer (until TURNS (memcmp_turn w s l r size) 0) 0));
      [|destruct (answer _ _); exact Hsearch].
    apply (search_spec f _ size _ Hlimit). intros done Hdone Hpassed. unfold memcmp_turn. destruct (Z.ltb_spec done size) as [Hlt|Hge]; cbn [negb].
    2: { assert (done = size) as -> by lia. apply (search_end f); [done|done|]. unfold ans. by rewrite Z.ltb_irrefl. }
    pose proof (scan_chunk_bounds w (l + done) (size - done) ltac:(lia)) as Hbl.
    pose proof (scan_chunk_bounds w (r + done) (size - done) ltac:(lia)) as Hbr.
    pose proof (scan_chunk_ok w pages l done (size - done) ltac:(lia) ltac:(lia)) as Hcl.
    pose proof (scan_chunk_ok w pages r done (size - done) ltac:(lia) ltac:(lia)) as Hcr.
    replace (done + (size - done)) with size in * by lia. specialize (Hcl (leaves_stays w l size Hl)).
    specialize (Hcr (leaves_stays w r size Hr)). cbv zeta.
    pose proof (min_chunk (scan_chunk w (l + done) (size - done)) (scan_chunk w (r + done) (size - done)) ltac:(lia) ltac:(lia)) as Hmin.
    set (n := if _ <? _ then _ else _) in *.
    pose proof (pair_turn_spec _ _ s l r size done n finds_memcmp Hs Hlimit (chunk_part w _ _ n Hcl ltac:(lia))
      (chunk_part w _ _ n Hcr ltac:(lia)) ltac:(lia) ltac:(lia) Hpassed) as Ht.
    destruct (scan_read w s (l + done) n) as [aa|]; [|exact Ht]. destruct (scan_read w s (r + done) n) as [bb|]; [|exact Ht].
    unfold memcmp_finds in Ht. destruct (negb (memcmp_bytes aa bb =? 0)); exact Ht.
Qed.

(** A string that starts in ordinary memory ends before the window. *)
Definition string_stays s p limit : Prop :=
  gsv_address w p = false ->
  forall j, 0 <= j < limit -> (forall k, 0 <= k < j -> see w s (p + k) <> 0) -> gsv_address w (p + j) = false.
Lemma string_from s p limit done j :
  string_stays s p limit -> (forall k, 0 <= k < done -> see w s (p + k) <> 0) -> 0 <= done <= j -> j < limit ->
  gsv_address w (p + done) = false -> (forall k, done <= k < j -> see w s (p + k) <> 0) -> gsv_address w (p + j) = false.
Proof.
  intros Hstays Hbefore Hj Hlt Hdone Hsee. destruct (gsv_address w p) eqn:E.
  - by apply (leaves_window w p limit E done); [lia|lia|lia|].
  - apply Hstays; [done|lia|]. intros k Hk. destruct (Z.lt_ge_cases k done); [apply Hbefore; lia|apply Hsee; lia].
Qed.
Lemma c_strnlen_spec host p limit :
  0 <= limit < 2 ^ 64 -> decides (fun i => host (p + i) =? 0) limit (c_strnlen host p limit).
Proof. apply first_index_spec. Qed.
(** The rest of a native string may be read natively. *)
Lemma native_cut_ok s p limit done n :
  string_stays s p limit -> (forall k, 0 <= k < done -> see w s (p + k) <> 0) ->
  0 <= done -> 0 < n -> done + n <= limit < 2 ^ 64 -> (gsv_address w (p + done) = true -> chunk_ok w (p + done) n) ->
  0 < native_cut w s (p + done) n <= n /\ chunk_ok w (p + done) (native_cut w s (p + done) n).
Proof.
  intros Hstays Hbefore Hdone Hn Hend Hsoft. unfold native_cut. destruct (gsv_address w (p + done)) eqn:E; cbn [negb].
  { split; [lia|by apply Hsoft]. }
  pose proof (c_strnlen_spec (mc_native s) (p + done) n ltac:(lia)) as (Hk & Hnz & _). set (k := c_strnlen (mc_native s) (p + done) n) in *.
  set (n' := if k <? n then k + 1 else n). assert (Hn' : 0 < n' <= n /\ n' <= k + 1).
  { unfold n'. destruct (Z.ltb_spec k n); lia. }
  split; [lia|]. apply chunk_native; [lia|].
  assert (Hall : forall i : nat, Z.of_nat i < n' -> gsv_address w (p + done + Z.of_nat i) = false).
  { induction i as [i IH] using lt_wf_ind. intros Hi. rewrite <- Z.add_assoc. apply (string_from s p limit done); try done; [lia|lia|].
    intros j Hj. pose proof (IH (Z.to_nat (j - done)) ltac:(lia) ltac:(lia)) as Hout. rewrite Z2Nat.id in Hout by lia.
    pose proof (Hnz (j - done) ltac:(lia)) as Hb%Z.eqb_neq. replace (p + done + (j - done)) with (p + j) in * by lia.
    unfold see. by rewrite Hout. }
  intros i Hi. rewrite <- (Z2Nat.id i) by lia. apply Hall. lia.
Qed.
Lemma software_chunk a left n :
  0 < left -> 0 < n <= scan_chunk w a left -> gsv_address w a = true -> chunk_ok w a n.
Proof.
  intros Hleft Hn E. apply (chunk_part w a (scan_chunk w a left)); [|done].
  apply chunk_software; [done|lia|done|by apply scan_chunk_page].
Qed.

Definition strncmp_index s l r limit : Z :=
  first_index (strncmp_decides (see w s) l r) limit.
Lemma strncmp_native s l r limit :
  0 <= limit < 2 ^ 64 -> string_stays s l limit -> string_stays s r limit ->
  gsv_address w l = false -> gsv_address w r = false ->
  c_strncmp (mc_native s) l r limit = c_strncmp (see w s) l r limit /\
  forall i, 0 <= i <= strncmp_index s l r limit -> i < limit -> gsv_address w (l + i) = false /\ gsv_address w (r + i) = false.
Proof.
  intros Hlimit Hl Hr El Er. unfold strncmp_index, c_strncmp. cbv zeta.
  pose proof (first_index_spec (strncmp_decides (see w s) l r) limit Hlimit) as (Hi & Hf & Ht).
  set (k := first_index (strncmp_decides (see w s) l r) limit) in *.
  assert (Hprefix : forall i, 0 <= i < k -> see w s (l + i) = see w s (r + i) /\ see w s (l + i) <> 0).
  { intros i Hik. specialize (Hf i Hik). unfold strncmp_decides in Hf. bool_props. by split. }
  assert (Hout : forall i, 0 <= i <= k -> i < limit -> gsv_address w (l + i) = false /\ gsv_address w (r + i) = false).
  { intros i Hik Hlt. split; [apply Hl|apply Hr]; try done; try lia; intros j Hj; destruct (Hprefix j ltac:(lia)); congruence. }
  assert (Hsee : forall i, 0 <= i <= k -> i < limit -> mc_native s (l + i) = see w s (l + i) /\ mc_native s (r + i) = see w s (r + i)).
  { intros i Hik Hlt. destruct (Hout i Hik Hlt) as [E1 E2]. unfold see. by rewrite E1, E2. }
  split; [|done]. assert (first_index (strncmp_decides (mc_native s) l r) limit = k) as ->.
  { apply decides_first; [done|]. split; [lia|]. split.
    - intros i Hik. rewrite <- (Hf i Hik). unfold strncmp_decides. destruct (Hsee i ltac:(lia) ltac:(lia)) as [-> ->]. done.
    - intros Hlt. rewrite <- (Ht Hlt). unfold strncmp_decides. destruct (Hsee k ltac:(lia) ltac:(lia)) as [-> ->]. done. }
  destruct (Z.ltb_spec k limit); [|done].
  by destruct (Hsee k ltac:(lia) ltac:(lia)) as [-> ->].
Qed.
(** One turn of [gsv_strncmp]. *)
Lemma strncmp_turn_spec s l r limit done :
  machine_ok w s -> 0 <= limit < 2 ^ 64 -> string_stays s l limit -> string_stays s r limit -> 0 <= done <= limit ->
  let f := strncmp_decides (see w s) l r in
  let R i := readable w s (l + i) /\ readable w s (r + i) in
  let ans i := if i <? limit then see w s (l + i) - see w s (r + i) else 0 in
  passed f R done -> turn_post f R limit ans done (strncmp_turn w s l r limit done).
Proof.
  intros Hs Hlimit Hl Hr Hdone f R ans Hpassed. unfold strncmp_turn. destruct (Z.ltb_spec done limit) as [Hlt|Hge]; cbn [negb].
  2: { assert (done = limit) as -> by lia. apply (search_end f); [done|done|]. unfold ans. by rewrite Z.ltb_irrefl. }
  cbv zeta. assert (Hprefix : forall i, 0 <= i < done -> see w s (l + i) <> 0 /\ see w s (r + i) <> 0).
  { intros i Hi. destruct (Hpassed i Hi) as [Hf _]. unfold f, strncmp_decides in Hf. bool_props. split; congruence. }
  pose proof (scan_chunk_bounds w (l + done) (limit - done) ltac:(lia)) as Hbl.
  pose proof (scan_chunk_bounds w (r + done) (limit - done) ltac:(lia)) as Hbr.
  pose proof (min_chunk (scan_chunk w (l + done) (limit - done)) (scan_chunk w (r + done) (limit - done)) ltac:(lia) ltac:(lia)) as Hmin.
  set (n := if _ <? _ then _ else _) in *.
  destruct (native_cut_ok s l limit done n Hl) as [Hn1 Hc1]; [intros k Hk; by apply Hprefix|lia|lia|lia| |].
  { apply (software_chunk _ (limit - done)); lia. }
  set (n1 := native_cut w s (l + done) n) in *.
  destruct (native_cut_ok s r limit done n1 Hr) as [Hn2 Hc2]; [intros k Hk; by apply Hprefix|lia|lia|lia| |].
  { apply (software_chunk _ (limit - done)); lia. }
  set (n2 := native_cut w s (r + done) n1) in *.
  exact (pair_turn_spec _ _ s l r limit done n2 finds_strncmp Hs Hlimit (chunk_part w _ _ n2 Hc1 ltac:(lia)) Hc2 ltac:(lia) ltac:(lia) Hpassed).
Qed.
(** The guest's [strcmp] and [strncmp] compare what the guest sees. However the
    two strings lie in software and ordinary memory, nothing beyond the pair
    that decides is needed: the program is aborted exactly when a byte up to it
    may not be read. *)
Theorem gsv_strncmp_spec s l r limit :
  machine_ok w s -> 0 <= limit < 2 ^ 64 -> string_stays s l limit -> string_stays s r limit ->
  let needed := forall i, 0 <= i <= strncmp_index s l r limit -> i < limit -> readable w s (l + i) /\ readable w s (r + i) in
  match gsv_strncmp w s l r limit with Some d => d = c_strncmp (see w s) l r limit /\ needed | None => ~ needed end.
Proof.
  intros Hs Hlimit Hl Hr needed_. unfold gsv_strncmp. destruct (Z.eqb_spec limit 0) as [->|Hnz].
  { split; [|intros i; lia]. unfold c_strncmp. by rewrite first_index_0. }
  destruct (negb (gsv_address w l) && negb (gsv_address w r)) eqn:Enative.
  - bool_props. destruct (strncmp_native s l r limit) as [-> Hout]; try done. split; [done|]. intros i Hi Hlt.
    unfold readable. by destruct (Hout i Hi Hlt) as [-> ->].
  - set (f := strncmp_decides (see w s) l r).
    set (ans := fun i => if i <? limit then see w s (l + i) - see w s (r + i) else 0).
    assert (Hsearch : searched f (fun i => readable w s (l + i) /\ readable w s (r + i)) limit ans (answer (until TURNS (strncmp_turn w s l r limit) 0) 0));
      [|destruct (answer _ _); exact Hsearch].
    apply (search_spec f _ limit _ Hlimit). intros done Hdone Hpassed. by apply strncmp_turn_spec.
Qed.

(** [strchr]'s inner loop over one range. *)
Lemma strchr_bytes_spec bytes value at_ :
  match strchr_bytes bytes value at_ with
  | Some found => exists k b, bytes !! k = Some b /\ ((b =? w8 value) || (b =? 0)) = true /\
      found = (if b =? w8 value then Some (at_ + Z.of_nat k) else None) /\
      forall j b', (j < k)%nat -> bytes !! j = Some b' -> (b' =? w8 value) || (b' =? 0) = false
  | None => forall j b', bytes !! j = Some b' -> (b' =? w8 value) || (b' =? 0) = false
  end.
Proof.
  revert at_. induction bytes as [|b bytes IH]; intros at_; cbn [strchr_bytes]; [done|].
  destruct (b =? w8 value) eqn:Ev.
  { exists 0%nat, b. rewrite Ev. split_and!; [done|done|by rewrite Z.add_0_r|intros; lia]. }
  destruct (b =? 0) eqn:Ez.
  { exists 0%nat, b. rewrite Ev, Ez. split_and!; [done|done|done|intros; lia]. }
  specialize (IH (at_ + 1)). destruct (strchr_bytes bytes value (at_ + 1)) as [found|].
  - destruct IH as (k & b' & Hb & Hd & -> & Hbefore). exists (S k), b'. split_and!; [done|done| |].
    + replace (at_ + 1 + Z.of_nat k) with (at_ + Z.of_nat (S k)) by lia. done.
    + intros [|j] x Hj Hx; [injection Hx as <-; by rewrite Ev, Ez|]. by apply (Hbefore j x); [lia|].
  - intros [|j] x Hx; [injection Hx as <-; by rewrite Ev, Ez|]. by apply (IH j x).
Qed.
Lemma strchr_turn_spec s p value k done :
  machine_ok w s -> gsv_address w p = true ->
  0 <= k < SIZE_MAX - 256 -> strchr_decides (see w s) p value k = true -> 0 <= done <= SIZE_MAX ->
  let f := strchr_decides (see w s) p value in
  let R i := readable w s (p + i) in
  passed f R done -> turn_post f R SIZE_MAX (strchr_answer (see w s) p value) done (strchr_turn w s p value done).
Proof.
  intros Hs Hp Hk Hend Hdone f R Hpassed. unfold strchr_turn. cbv zeta.
  assert (Hle : done <= k).
  { apply Z.le_ngt. intros Hlt. destruct (Hpassed k ltac:(lia)) as [Hf _]. unfold f in Hf. congruence. }
  pose proof (scan_chunk_bounds w (p + done) SIZE_MAX ltac:(done)) as Hb.
  assert (Hn : scan_chunk w (p + done) SIZE_MAX <= 256).
  { unfold scan_chunk. rewrite (proj2 (Z.ltb_ge SIZE_MAX 256)) by done. destruct (gsv_address w (p + done)); [|lia].
    destruct (Z.ltb_spec (GM_PAGE_SIZE - (p + done) mod GM_PAGE_SIZE) 256); lia. }
  pose proof (scan_chunk_ok w pages p done SIZE_MAX ltac:(lia) ltac:(done) (leaves_window w p _ Hp)) as Hchunk.
  set (n := scan_chunk w (p + done) SIZE_MAX) in *.
  pose proof (scan_read_spec w s (p + done) n Hs Hchunk) as Hread. destruct (scan_read w s (p + done) n) as [bytes|].
  2: { cbn. by apply (search_blocked f R SIZE_MAX (strchr_answer (see w s) p value) ltac:(done) done); [lia| |]. }
  destruct Hread as [-> Hreadable]. pose proof (strchr_bytes_spec (seen w s (p + done) n) value (p + done)) as Hfind.
  assert (Hsee : forall i, 0 <= i < n -> seen w s (p + done) n !! Z.to_nat i = Some (see w s (p + (done + i)))).
  { intros i Hi. rewrite lookup_seen by done. by rewrite Z.add_assoc. }
  assert (HR : forall i, 0 <= i < n -> R (done + i)) by (intros i Hi; unfold R; rewrite Z.add_assoc; by apply Hreadable).
  destruct (strchr_bytes _ _ _) as [found|]; cbn.
  - destruct Hfind as (j & b & Hj & Hd & -> & Hbefore). pose proof (lookup_lt_Some _ _ _ Hj) as Hjn. rewrite length_seen in Hjn.
    rewrite <- (Nat2Z.id j), Hsee in Hj by lia. injection Hj as <-.
    apply (search_found f R SIZE_MAX (strchr_answer (see w s) p value) ltac:(done) (done + Z.of_nat j)); [lia| |exact Hd|apply HR; lia|].
    + apply passed_more; [lia|done|]. intros i Hi. split; [|apply HR; lia].
      apply (Hbefore (Z.to_nat i)); [lia|]. by rewrite Hsee by lia.
    + unfold strchr_answer. by rewrite !Z.add_assoc.
  - split; [lia|]. apply passed_more; [lia|done|]. intros i Hi. split; [|by apply HR].
    apply (Hfind (Z.to_nat i)). by rewrite Hsee by lia.
Qed.
(** The guest's [strchr], on a string that has an end. *)
Theorem gsv_strchr_spec s p value k :
  machine_ok w s -> gsv_address w p = true -> 0 <= k < SIZE_MAX - 256 -> see w s (p + k) = 0 ->
  let needed := forall i, 0 <= i <= first_index (strchr_decides (see w s) p value) SIZE_MAX -> i < SIZE_MAX -> readable w s (p + i) in
  match gsv_strchr w s p value with Some r => r = c_strchr (see w s) p value /\ needed | None => ~ needed end.
Proof.
  intros Hs Hp Hk Hend needed_. unfold gsv_strchr. rewrite Hp. cbn [negb].
  assert (Hd : strchr_decides (see w s) p value k = true).
  { unfold strchr_decides. rewrite Hend. by rewrite Z.eqb_refl, orb_true_r. }
  assert (Hsearch : searched (strchr_decides (see w s) p value) (fun i => readable w s (p + i)) SIZE_MAX (strchr_answer (see w s) p value)
    (answer (until TURNS (strchr_turn w s p value) 0) None)); [|destruct (answer _ _); exact Hsearch].
  apply (search_spec _ _ SIZE_MAX (strchr_answer (see w s) p value) ltac:(done)). intros done Hdone Hpassed. by apply (strchr_turn_spec s p value k).
Qed.
End comparing.

(** ** Files and streams *)

(** What the C standard and POSIX say of the host's operations: no more is
    transferred than was asked for; a stream transfers byte by byte, so a
    transfer may be done in parts, and counts the complete items. *)
Class FileLaws (F : Type) `{HostFiles F} : Prop := {
  fl_read (h : F) fd n o bs h' : 0 <= n -> h_read h fd n o = (inr bs, h') -> Z.of_nat (length bs) <= n /\ Forall byte_ok bs;
  fl_fread (h : F) file n bs k h' :
    0 <= n -> h_fread h file 1 n = (bs, k, h') -> Z.of_nat (length bs) = k /\ k <= n /\ Forall byte_ok bs;
  fl_fread_items (h : F) file size count : 0 < size -> 0 <= count ->
    h_fread h file size count = let '(bs, k, h') := h_fread h file 1 (size * count) in (bs, k / size, h');
  fl_fread_parts (h : F) file n m : 0 < n -> 0 < m ->
    h_fread h file 1 (n + m) =
      let '(bs, k, h1) := h_fread h file 1 n in
      if k <? n then (bs, k, h1) else let '(bs', k', h2) := h_fread h1 file 1 m in (bs ++ bs', k + k', h2);
  fl_fwrite (h : F) file bs n : 0 <= n -> 0 <= (h_fwrite h file bs 1 n).1 <= n;
  fl_fwrite_items (h : F) file bs size count : 0 < size -> 0 <= count ->
    h_fwrite h file bs size count = let '(k, h') := h_fwrite h file bs 1 (size * count) in (k / size, h');
  fl_fwrite_parts (h : F) file bs bs' n m : 0 < n -> 0 < m -> Z.of_nat (length bs) = n -> Z.of_nat (length bs') = m ->
    h_fwrite h file (bs ++ bs') 1 (n + m) =
      let '(k, h1) := h_fwrite h file bs 1 n in
      if k <? n then (k, h1) else let '(k', h2) := h_fwrite h1 file bs' 1 m in (k + k', h2)
}.

Section files.
Context `{BufferLaws M} `{FileLaws F} (w : Window).
Implicit Types (s : Machine M) (h : F).

(** What a transfer from the kernel may do: nothing at all, with an error of its
    own; or one call, whose result is reported as it is and whose bytes are all
    delivered. *)
Definition read_post (h : F) s (fd buffer size : Z) (offset : option Z) (alloc_ok : bool) (out : (Z + Z) * F * Machine M) : Prop :=
  let '(r, h', s') := out in
  machine_ok w s' /\
  match h_read h fd size offset with
  | (inl e, h1) => r = inl e /\ h' = h1 /\ same_view s s'
  | (inr bs, h1) => r = inr (Z.of_nat (length bs)) /\ h' = h1 /\ stores w s s' buffer bs
  end \/
  machine_ok w s' /\ h' = h /\ same_view s s' /\ gsv_address w buffer = true /\
  (r = inl EINVAL /\ INT_MAX < size \/ r = inl EFAULT /\ (prepare w s buffer size GM_WRITE).1 <> GM_OK \/
   r = inl ENOMEM /\ BOUNCE_SIZE < size /\ alloc_ok = false).
(** [read] and [pread]: everything the kernel took from the file is delivered:
    there is no failure after the call. *)
Theorem file_read_spec h s fd buffer size offset alloc_ok :
  machine_ok w s -> 0 <= size < 2 ^ 64 -> stays w buffer size ->
  read_post h s fd buffer size offset alloc_ok (file_read w h s fd buffer size offset alloc_ok).
Proof.
  intros Hs Hsize Hstays. unfold file_read, read_post.
  pose proof (fun bs h' => fl_read h fd size offset bs h' ltac:(lia)) as Hlaw.
  destruct (gsv_address w buffer) eqn:Eb; cbn [negb].
  2: { destruct (h_read h fd size offset) as [[e|bs] h']; [by left|]. destruct (Hlaw bs h' eq_refl) as [Hl Hok]. left.
       destruct (put_chunk_spec w s false buffer size buffer bs (Z.of_nat (length bs))) as (s' & E & Hs' & _ & Hst);
         [done|unfold target_ok; by apply Hstays|lia|done|lia|done|]. by injection E as <-. }
  destruct (Z.ltb_spec INT_MAX size); [right; split_and!; try done; by left|].
  pose proof (prepare_spec w s buffer size GM_WRITE Hs ltac:(lia) eq_refl) as Hp.
  destruct (prepare w s buffer size GM_WRITE) as [r1 s1]. destruct (decide (r1 = GM_OK)) as [->|Hne].
  2: { rewrite bool_decide_eq_false_2 by done. cbn [negb]. destruct Hp as (-> & _). right. split_and!; try done. right; by left. }
  rewrite bool_decide_eq_true_2 by done. cbn [negb]. destruct Hp as (Hs1 & Hv1 & Hready & _). destruct (Hready Eb) as [_ Hwrite].
  destruct (Z.ltb_spec BOUNCE_SIZE size); cbn [andb]; [destruct alloc_ok; cbn [negb]; [|right; split_and!; try done; by do 2 right]|].
  all: destruct (h_read h fd size offset) as [[e|bs] h']; [by left|]; destruct (Hlaw bs h' eq_refl) as [Hl Hok].
  all: destruct (put_chunk_spec w s1 true buffer size buffer bs (Z.of_nat (length bs))) as (s2 & -> & Hs2 & _ & Hst);
    [done|by apply Hwrite|lia|done|lia|done|].
  all: destruct (Z.ltb_spec 0 (Z.of_nat (length bs))) as [Hpos|Hzero];
    [rewrite bool_decide_eq_true_2 by done; cbn [negb]; left; split_and!; try done; by apply (stores_same_view w s s1)|].
  all: left; split_and!; try done; destruct bs; [by apply stores_nil|cbn in Hzero; lia].
Qed.

(** [write] and [pwrite]: the kernel is given exactly the bytes the guest sees,
    in one call, or is not called. *)
Definition write_post (h : F) s (fd buffer size : Z) (offset : option Z) (alloc_ok : bool) (out : (Z + Z) * F * Machine M) : Prop :=
  let '(r, h', s') := out in
  machine_ok w s' /\ same_view s s' /\
  (h_write h fd (seen w s buffer size) offset = (r, h') \/
   h' = h /\ gsv_address w buffer = true /\
   (r = inl EINVAL /\ INT_MAX < size \/ r = inl EFAULT /\ (prepare w s buffer size GM_READ).1 <> GM_OK \/
    r = inl ENOMEM /\ BOUNCE_SIZE < size /\ alloc_ok = false)).
Theorem file_write_spec h s fd buffer size offset alloc_ok :
  machine_ok w s -> 0 < size < 2 ^ 64 -> stays w buffer size ->
  write_post h s fd buffer size offset alloc_ok (file_write w h s fd buffer size offset alloc_ok).
Proof.
  intros Hs Hsize Hstays. unfold file_write, write_post. destruct (gsv_address w buffer) eqn:Eb; cbn [negb].
  2: { rewrite (host_bytes_seen w) by (lia || by apply Hstays). destruct (h_write _ _ _ _) as [r h']. by split_and!; [..|left]. }
  destruct (Z.ltb_spec INT_MAX size); [split_and!; try done; right; split_and!; try done; by left|].
  pose proof (prepare_spec w s buffer size GM_READ Hs ltac:(lia) eq_refl) as Hp.
  destruct (prepare w s buffer size GM_READ) as [r1 s1]. destruct (decide (r1 = GM_OK)) as [->|Hne].
  2: { rewrite bool_decide_eq_false_2 by done. cbn [negb]. destruct Hp as (-> & _). split_and!; try done. right. split_and!; try done. right; by left. }
  rewrite bool_decide_eq_true_2 by done. cbn [negb]. destruct Hp as (Hs1 & Hv1 & Hread & _). destruct (Hread Eb) as [Hall _].
  destruct (Z.ltb_spec BOUNCE_SIZE size); cbn [andb];
    [destruct alloc_ok; cbn [negb]; [|split_and!; try done; right; split_and!; try done; by do 2 right]|].
  all: rewrite (get_chunk_spec w) by (lia || done || exact Hall); rewrite bool_decide_eq_true_2 by done; cbn [negb]; rewrite (seen_same_view w s s1) by done.
  all: destruct (h_write _ _ _ _) as [r h']; by split_and!; [..|left].
Qed.

(** [fread] into a software buffer, chunk by chunk. *)
Definition read_so_far (h : F) (file n : Z) (bs : list Z) (h' : F) : Prop :=
  n = 0 /\ bs = [] /\ h' = h \/ 0 < n /\ h_fread h file 1 n = (bs, n, h').
Lemma read_next h file n bs h1 m bs' k h2 :
  0 < m -> read_so_far h file n bs h1 -> h_fread h1 file 1 m = (bs', k, h2) ->
  h_fread h file 1 (n + m) = (bs ++ bs', n + k, h2).
Proof.
  intros Hm [(-> & -> & ->)|[Hn E]] E'; [by rewrite Z.add_0_l|].
  rewrite fl_fread_parts, E by lia. rewrite Z.ltb_irrefl. by rewrite E'.
Qed.
Lemma read_short h file n bs k h1 total :
  0 < n <= total -> h_fread h file 1 n = (bs, k, h1) -> k < n -> h_fread h file 1 total = (bs, k, h1).
Proof.
  intros Hn E Hk. destruct (Z.eq_dec n total) as [->|Hne]; [done|]. replace total with (n + (total - n)) by lia.
  rewrite fl_fread_parts, E by lia. by rewrite (proj2 (Z.ltb_lt k n)).
Qed.
Definition reading (h : F) s (file buffer total : Z) (state : F * Machine M * Z) : Prop :=
  let '(h', s', completed) := state in
  0 <= completed <= total /\ machine_ok w s' /\ mem_ready (mc_memory s') buffer total /\
  exists bs, read_so_far h file completed bs h' /\ Z.of_nat (length bs) = completed /\ stores w s s' buffer bs.
Definition all_read (h : F) s (file buffer total : Z) (out : Z * F * Machine M) : Prop :=
  let '(n, h', s') := out in
  machine_ok w s' /\ exists bs, h_fread h file 1 total = (bs, n, h') /\ stores w s s' buffer bs.
Lemma fread_turn_spec h s file buffer total state :
  0 < total -> reading h s file buffer total state ->
  match fread_turn file buffer total state with
  | inl state' => reading h s file buffer total state' /\ total - state'.2 < total - state.2
  | inr out => all_read h s file buffer total out
  end.
Proof.
  intros Htotal. destruct state as [[h' s'] completed]. intros (Hc & Hs' & Hready & bs & Hfar & Hl & Hst). unfold fread_turn.
  destruct (Z.ltb_spec completed total) as [Hlt|Hge]; cbn [negb].
  2: { split; [done|]. exists bs. assert (completed = total) as -> by lia. destruct Hfar as [(? & _)|[_ E]]; [lia|done]. }
  destruct (chunk_of_bounds (total - completed) ltac:(lia)) as [Hchunk _]. set (chunk := chunk_of (total - completed)) in *.
  destruct (h_fread h' file 1 chunk) as [[bounce done] h2] eqn:E. destruct (fl_fread h' file chunk bounce done h2 ltac:(lia) E) as (Hdone & Hle & Hok).
  destruct (put_chunk_spec w s' true buffer total (buffer + completed) bounce done) as (s2 & -> & Hs2 & Hready2 & Hst2);
    [done|done|lia|done|lia|done|]. rewrite bool_decide_eq_true_2 by done. cbn [negb].
  pose proof (read_next h file completed bs h' chunk bounce done h2 ltac:(lia) Hfar E) as Hnext.
  assert (Hst3 : stores w s s2 buffer (bs ++ bounce)) by (apply (stores_app w s s' s2); [done|by rewrite Hl]).
  destruct (Z.ltb_spec done chunk).
  - split; [done|]. exists (bs ++ bounce). split; [|done].
    apply (read_short h file (completed + chunk)); [lia|done|lia].
  - assert (done = chunk) as -> by lia. split; [|cbn; lia]. split; [lia|]. split; [done|]. split; [done|].
    exists (bs ++ bounce). split; [right; split; [lia|done]|]. split; [rewrite length_app; lia|done].
Qed.
(** C26: [fread] is [fread]: the stream is left as one call of the host's [fread]
    would leave it, every byte it delivered is in the buffer, and the count of
    complete items is the same; or the buffer may not be written and the stream
    has not been touched. *)
Theorem gsv_fread_spec h s buffer size count file :
  machine_ok w s -> 0 < size -> 0 < count -> stays w buffer (size * count) ->
  let '(items, h', s') := gsv_fread w h s buffer size count file in
  machine_ok w s' /\
  ((exists bs, h_fread h file size count = (bs, items, h') /\ stores w s s' buffer bs) \/
   items = 0 /\ h' = h /\ same_view s s' /\ gsv_address w buffer = true /\
   (SIZE_MAX < size * count \/ (prepare w s buffer (size * count) GM_WRITE).1 <> GM_OK)).
Proof.
  intros Hs Hsize Hcount Hstays. unfold gsv_fread. destruct (gsv_address w buffer) eqn:Eb; cbn [negb].
  { rewrite (proj2 (Z.eqb_neq size 0)), (proj2 (Z.eqb_neq count 0)) by lia. cbn [orb].
    destruct (Z.ltb_spec (SIZE_MAX / size) count) as [Hbig|Hfit].
    { split; [done|]. right. split_and!; try done. left. pose proof (Z.mul_succ_div_gt SIZE_MAX size Hsize). nia. }
    assert (Htotal : 0 < size * count <= SIZE_MAX) by (pose proof (Z.mul_div_le SIZE_MAX size Hsize); nia).
    set (total := size * count) in *. pose proof (prepare_spec w s buffer total GM_WRITE Hs ltac:(lia) eq_refl) as Hp.
    destruct (prepare w s buffer total GM_WRITE) as [r1 s1]. destruct (decide (r1 = GM_OK)) as [->|Hne].
    2: { rewrite bool_decide_eq_false_2 by done. cbn [negb]. destruct Hp as (-> & _). split; [done|]. right. split_and!; try done. by right. }
    rewrite bool_decide_eq_true_2 by done. cbn [negb]. destruct Hp as (Hs1 & Hv1 & Hready & _). destruct (Hready Eb) as [_ Hwrite].
    destruct (until_ends (fread_turn file buffer total) (reading h s1 file buffer total) (all_read h s1 file buffer total) (fun state => total - state.2))
      with (fuel := TURNS) (s := (h, s1, 0)) as ([[n h'] s'] & -> & Hs' & bs & E & Hst).
    - intros state. by apply fread_turn_spec; lia.
    - intros [[h' s'] completed] (Hc & _). cbn. lia.
    - split; [lia|]. split; [done|]. split; [by apply Hwrite|]. exists []. split; [by left|]. split; [done|by apply stores_nil].
    - unfold TURNS, SIZE_MAX in *. cbn [snd]. lia.
    - cbn [transferred]. split; [done|]. left. exists bs. rewrite fl_fread_items by lia. unfold total in E. rewrite E.
      split; [done|]. by apply (stores_same_view w s s1). }
  destruct (h_fread h file size count) as [[bs items] h'] eqn:E. rewrite fl_fread_items in E by lia.
  destruct (h_fread h file 1 (size * count)) as [[bs' k] h2] eqn:E1. injection E as -> <- ->.
  destruct (fl_fread h file (size * count) bs k h' ltac:(nia) E1) as (Hl & Hle & Hok).
  destruct (put_chunk_spec w s false buffer (size * count) buffer bs (Z.of_nat (length bs))) as (s' & E & Hs' & _ & Hst);
    [done|unfold target_ok; by apply Hstays|lia|done|lia|done|]. injection E as <-. split; [done|]. left. by exists bs.
Qed.

(** [fwrite] from a software buffer, chunk by chunk. *)
Definition written_so_far (h : F) s (file buffer n : Z) (h' : F) : Prop :=
  n = 0 /\ h' = h \/ 0 < n /\ h_fwrite h file (seen w s buffer n) 1 n = (n, h').
Definition writing (h : F) s (file buffer total : Z) (state : F * Machine M * Z) : Prop :=
  let '(h', s', completed) := state in
  0 <= completed <= total /\ s' = s /\ written_so_far h s file buffer completed h'.
Definition all_written (h : F) s (file buffer total : Z) (out : Z * F * Machine M) : Prop :=
  let '(n, h', s') := out in s' = s /\ h_fwrite h file (seen w s buffer total) 1 total = (n, h').
Lemma seen_length_of s a n : 0 <= n -> Z.of_nat (length (seen w s a n)) = n.
Proof. intros Hn. rewrite length_seen. lia. Qed.
Lemma write_next h s file buffer n h1 m k h2 :
  0 < m -> 0 <= n -> written_so_far h s file buffer n h1 -> h_fwrite h1 file (seen w s (buffer + n) m) 1 m = (k, h2) ->
  h_fwrite h file (seen w s buffer (n + m)) 1 (n + m) = (n + k, h2).
Proof.
  intros Hm Hn0 [(-> & ->)|[Hn E]] E'; [by rewrite Z.add_0_r in E'; rewrite !Z.add_0_l|].
  rewrite <- seen_app, fl_fwrite_parts, E, Z.ltb_irrefl by (lia || by apply seen_length_of; lia). by rewrite E'.
Qed.
Lemma write_short h s file buffer n k h1 total :
  0 < n <= total -> h_fwrite h file (seen w s buffer n) 1 n = (k, h1) -> k < n ->
  h_fwrite h file (seen w s buffer total) 1 total = (k, h1).
Proof.
  intros Hn E Hk. destruct (Z.eq_dec n total) as [->|Hne]; [done|]. replace total with (n + (total - n)) by lia.
  rewrite <- seen_app, fl_fwrite_parts, E by (lia || (apply seen_length_of; lia)). by rewrite (proj2 (Z.ltb_lt k n)).
Qed.
Lemma fwrite_turn_spec h s file buffer total state :
  machine_ok w s -> 0 < total -> view_allows (mem_view (mc_memory s)) buffer total GM_READ ->
  writing h s file buffer total state ->
  match fwrite_turn file buffer total state with
  | inl state' => writing h s file buffer total state' /\ total - state'.2 < total - state.2
  | inr out => all_written h s file buffer total out
  end.
Proof.
  intros Hs Htotal Hall. destruct state as [[h' s'] completed]. intros (Hc & -> & Hfar). unfold fwrite_turn.
  destruct (Z.ltb_spec completed total) as [Hlt|Hge]; cbn [negb].
  2: { split; [done|]. assert (completed = total) as -> by lia. destruct Hfar as [(? & _)|[_ E]]; [lia|done]. }
  destruct (chunk_of_bounds (total - completed) ltac:(lia)) as [Hchunk _]. set (chunk := chunk_of (total - completed)) in *.
  rewrite (get_chunk_spec w s true) by (done || lia || (apply (view_allows_part _ buffer total); [done|lia|lia])).
  rewrite bool_decide_eq_true_2 by done. cbn [negb].
  destruct (h_fwrite h' file (seen w s (buffer + completed) chunk) 1 chunk) as [done h2] eqn:E.
  pose proof (fl_fwrite h' file (seen w s (buffer + completed) chunk) chunk ltac:(lia)) as Hdone. rewrite E in Hdone. cbn [fst] in Hdone.
  pose proof (write_next h s file buffer completed h' chunk done h2 ltac:(lia) ltac:(lia) Hfar E) as Hnext.
  destruct (Z.ltb_spec done chunk).
  - split; [done|]. apply (write_short h s file buffer (completed + chunk)); [lia|done|lia].
  - assert (done = chunk) as -> by lia. split; [|cbn; lia]. split; [lia|]. split; [done|]. right. split; [lia|done].
Qed.
(** [fwrite] is [fwrite] of the bytes the guest sees. *)
Theorem gsv_fwrite_spec h s buffer size count file :
  machine_ok w s -> 0 < size -> 0 < count -> stays w buffer (size * count) ->
  let '(items, h', s') := gsv_fwrite w h s buffer size count file in
  machine_ok w s' /\ same_view s s' /\
  (h_fwrite h file (seen w s buffer (size * count)) size count = (items, h') \/
   items = 0 /\ h' = h /\ gsv_address w buffer = true /\
   (SIZE_MAX < size * count \/ (prepare w s buffer (size * count) GM_READ).1 <> GM_OK)).
Proof.
  intros Hs Hsize Hcount Hstays. unfold gsv_fwrite. destruct (gsv_address w buffer) eqn:Eb; cbn [negb].
  2: { rewrite (host_bytes_seen w) by (nia || by apply Hstays). destruct (h_fwrite _ _ _ _ _) as [items h']. by split_and!; [..|left]. }
  rewrite (proj2 (Z.eqb_neq size 0)), (proj2 (Z.eqb_neq count 0)) by lia. cbn [orb].
  destruct (Z.ltb_spec (SIZE_MAX / size) count) as [Hbig|Hfit].
  { split; [done|]. split; [done|]. right. split_and!; try done. left. pose proof (Z.mul_succ_div_gt SIZE_MAX size Hsize). nia. }
  assert (Htotal : 0 < size * count <= SIZE_MAX) by (pose proof (Z.mul_div_le SIZE_MAX size Hsize); nia).
  set (total := size * count) in *. pose proof (prepare_spec w s buffer total GM_READ Hs ltac:(lia) eq_refl) as Hp.
  destruct (prepare w s buffer total GM_READ) as [r1 s1]. destruct (decide (r1 = GM_OK)) as [->|Hne].
  2: { rewrite bool_decide_eq_false_2 by done. cbn [negb]. destruct Hp as (-> & _). split; [done|]. split; [done|]. right. split_and!; try done. by right. }
  rewrite bool_decide_eq_true_2 by done. cbn [negb]. destruct Hp as (Hs1 & Hv1 & Hready & _). destruct (Hready Eb) as [Hall _].
  destruct (until_ends (fwrite_turn file buffer total) (writing h s1 file buffer total) (all_written h s1 file buffer total) (fun state => total - state.2))
    with (fuel := TURNS) (s := (h, s1, 0)) as ([[n h'] s'] & -> & -> & E).
  - intros state. by apply fwrite_turn_spec; [|lia|].
  - intros [[h' s'] completed] (Hc & _). cbn. lia.
  - split; [lia|]. split; [done|]. by left.
  - unfold TURNS, SIZE_MAX in *. cbn [snd]. lia.
  - cbn [transferred]. split; [done|]. split; [done|]. left. subst total. rewrite fl_fwrite_items by lia.
    rewrite (seen_same_view w s s1) in E by done. by rewrite E.
Qed.
End files.

(** ** Witnesses *)

(** A space of eight pages of which two are mapped, with a string across the
    boundary of the two, beside ordinary memory that counts through the bytes. *)
Definition example_window : Window := mkWindow true 65536 131072.
Definition example_string : list Z := [104; 105; 33; 0].
Definition example_machine : Machine (option Space) :=
  mkMachine (mem_write (Some example_space) 81918 example_string 4).2 w8.
Lemma example_string_ok : Forall byte_ok example_string.
Proof. by repeat constructor. Qed.
Lemma example_window_pages : w_base example_window mod GM_PAGE_SIZE = 0 /\ w_span example_window mod GM_PAGE_SIZE = 0.
Proof. done. Qed.
Lemma example_machine_ok : machine_ok example_window example_machine.
Proof.
  assert (space_ok (Some example_space)) as Hok by (intros s [= <-]; exact example_space_wf).
  pose proof (space_write (Some example_space) 81918 example_string 4 Hok eq_refl example_string_ok) as H.
  assert ((mem_write (Some example_space) 81918 example_string 4).1 = GM_OK) as E by (vm_compute; reflexivity).
  unfold example_machine. destruct (mem_write _ _ _ _) as [r m]. cbn [fst snd] in *. subst r.
  rewrite decide_True in H by done. destruct H as (Hm & Hst & _). split; cbn [mc_memory mc_native]; [done|apply w8_range|].
  intros x c Hc. assert (exists c0, space_view (Some example_space) x = Some c0) as [c0 Hc0].
  { rewrite Hst in Hc. case_decide; [apply fmap_Some in Hc as (c0 & Hc0 & _)|]; by eexists. }
  assert (65536 <= x < 65536 + 131072) as Hx.
  { apply (mapped_bounds example_space x example_space_wf). cbn in Hc0. intros Hno%sp_cell_None. congruence. }
  unfold gsv_address, example_window. cbn [w_enabled w_base w_span andb]. lia.
Qed.
(** Ranges below the window are outside it. *)
Lemma example_native p n : 0 <= p -> p + n <= 65536 -> stays example_window p n.
Proof. intros Hp Hn _ i Hi. unfold gsv_address, example_window. cbn [w_enabled w_base w_span andb]. lia. Qed.
Lemma example_software p n : gsv_address example_window p = true -> stays example_window p n.
Proof. unfold stays. by intros ->. Qed.
Definition example_allows (p n permission : Z) : bool :=
  forallb (fun i => match mem_view (mc_memory example_machine) (p + i) with
    | Some c => has_all (c_prot c) permission | None => false end) (seqZ 0 n).

(** The string is copied within the two pages, onto an overlapping range. *)
Lemma gsv_copy_spec_witness :
  (gsv_copy example_window example_machine 81919 81918 4).1 = GM_OK /\
  see example_window (gsv_copy example_window example_machine 81919 81918 4).2 81921 = 33.
Proof.
  pose proof (gsv_copy_spec example_window example_machine 81919 81918 4 example_machine_ok ltac:(lia)
    (example_software 81919 4 eq_refl) (example_software 81918 4 eq_refl)) as H.
  assert ((gsv_copy example_window example_machine 81919 81918 4).1 = GM_OK) as E by (vm_compute; reflexivity).
  destruct (gsv_copy _ _ _ _ _) as [r s']. cbn [fst snd] in *. subst r. split; [done|].
  destruct H as [_ H]. rewrite decide_True in H by done. rewrite (st_see _ _ _ _ _ H). vm_compute. reflexivity.
Defined.
Lemma gsv_fill_spec_witness :
  (gsv_fill example_window example_machine 65600 7 100).1 = GM_OK /\
  see example_window (gsv_fill example_window example_machine 65600 7 100).2 65650 = 7.
Proof.
  pose proof (gsv_fill_spec example_window example_machine 65600 7 100 example_machine_ok ltac:(lia) (example_software 65600 100 eq_refl)) as H.
  assert ((gsv_fill example_window example_machine 65600 7 100).1 = GM_OK) as E by (vm_compute; reflexivity).
  destruct (gsv_fill _ _ _ _ _) as [r s']. cbn [fst snd] in *. subst r. split; [done|].
  destruct H as [_ H]. rewrite decide_True in H by done. rewrite (st_see _ _ _ _ _ H). vm_compute. reflexivity.
Defined.
Lemma gsv_string_spec_witness :
  exists s', gsv_string example_window example_machine 81918 1000 64 = (inr 1000, s') /\ see example_window s' 1001 = 105.
Proof.
  pose proof (gsv_string_spec example_window example_machine 81918 1000 64 example_machine_ok ltac:(lia) ltac:(lia) eq_refl
    (example_native 1000 64 ltac:(lia) ltac:(lia) eq_refl)) as H.
  assert ((gsv_string example_window example_machine 81918 1000 64).1 = inr 1000) as E by (vm_compute; reflexivity).
  destruct (gsv_string _ _ _ _ _) as [r s']. cbn [fst] in E. subst r. exists s'. split; [done|].
  destruct H as (_ & _ & n & Hn & Hon & Hz & Hst). rewrite (st_see _ _ _ _ _ Hst). rewrite length_seen.
  destruct (Z.lt_ge_cases n 3) as [Hlt|].
  { assert (n = 0 \/ n = 1 \/ n = 2) as [->|[->| ->]] by lia; vm_compute in Hz; done. }
  rewrite decide_True by lia. change (1001 - 1000) with 1. rewrite lookup_seen by lia. vm_compute. reflexivity.
Defined.
Lemma gsv_strnlen_spec_witness :
  gsv_strnlen example_window example_machine 81918 100 = Some 3 /\ c_strnlen (see example_window example_machine) 81918 100 = 3.
Proof.
  pose proof (gsv_strnlen_spec example_window example_window_pages example_machine 81918 100 example_machine_ok ltac:(lia) eq_refl) as H.
  assert (gsv_strnlen example_window example_machine 81918 100 = Some 3) as E by (vm_compute; reflexivity).
  rewrite E in H. split; [done|]. by destruct H as [<- _].
Defined.
Lemma gsv_memchr_spec_witness :
  gsv_memchr example_window example_machine 81918 33 100 = Some (Some 81920) /\
  c_memchr (see example_window example_machine) 81918 33 100 = Some 81920.
Proof.
  pose proof (gsv_memchr_spec example_window example_window_pages example_machine 81918 33 100 example_machine_ok ltac:(lia) eq_refl) as H.
  assert (gsv_memchr example_window example_machine 81918 33 100 = Some (Some 81920)) as E by (vm_compute; reflexivity).
  rewrite E in H. split; [done|]. by destruct H as [<- _].
Defined.
(** A comparison with ordinary memory that begins with [h]. *)
Lemma gsv_memcmp_spec_witness :
  gsv_memcmp example_window example_machine 81918 104 4 = Some (33 - 106) /\
  c_memcmp (see example_window example_machine) 81918 104 4 = 33 - 106.
Proof.
  pose proof (gsv_memcmp_spec example_window example_window_pages example_machine 81918 104 4 example_machine_ok ltac:(lia)
    (example_software 81918 4 eq_refl) (example_native 104 4 ltac:(lia) ltac:(lia))) as H.
  assert (gsv_memcmp example_window example_machine 81918 104 4 = Some (33 - 106)) as E by (vm_compute; reflexivity).
  rewrite E in H. split; [done|]. by destruct H as [<- _].
Defined.
Lemma gsv_strncmp_spec_witness :
  gsv_strncmp example_window example_machine 81918 104 100 = Some (33 - 106) /\
  c_strncmp (see example_window example_machine) 81918 104 100 = 33 - 106.
Proof.
  assert (string_stays example_window example_machine 104 100) as Hr.
  { intros _ j Hj _. by apply (example_native 104 100 ltac:(lia) ltac:(lia) eq_refl). }
  assert (string_stays example_window example_machine 81918 100) as Hl by done.
  pose proof (gsv_strncmp_spec example_window example_window_pages example_machine 81918 104 100 example_machine_ok ltac:(lia) Hl Hr) as H.
  assert (gsv_strncmp example_window example_machine 81918 104 100 = Some (33 - 106)) as E by (vm_compute; reflexivity).
  rewrite E in H. split; [done|]. by destruct H as [<- _].
Defined.
Lemma gsv_strchr_spec_witness :
  gsv_strchr example_window example_machine 81918 33 = Some (Some 81920) /\
  c_strchr (see example_window example_machine) 81918 33 = Some 81920.
Proof.
  assert (see example_window example_machine (81918 + 3) = 0) as Hz by (vm_compute; reflexivity).
  pose proof (gsv_strchr_spec example_window example_window_pages example_machine 81918 33 3 example_machine_ok eq_refl ltac:(unfold SIZE_MAX; lia) Hz) as H.
  assert (gsv_strchr example_window example_machine 81918 33 = Some (Some 81920)) as E by (vm_compute; reflexivity).
  rewrite E in H. split; [done|]. by destruct H as [<- _].
Defined.

(** A host with one file: the bytes still to be read and those written. *)
Record Tape := mkTape { tp_input : list Z; tp_output : list Z }.
Definition tape_read (h : Tape) (n : Z) : list Z * Tape :=
  (w8 <$> take (Z.to_nat n) (tp_input h), mkTape (drop (Z.to_nat n) (tp_input h)) (tp_output h)).
Definition tape_write (h : Tape) (bs : list Z) : Tape := mkTape (tp_input h) (tp_output h ++ bs).
#[export] Instance tape_files : HostFiles Tape := {
  h_read h fd n o := let '(bs, h) := tape_read h n in (inr bs, h);
  h_write h fd bs o := (inr (Z.of_nat (length bs)), tape_write h bs);
  h_fread h file size count := let '(bs, h) := tape_read h (size * count) in (bs, Z.of_nat (length bs) / size, h);
  h_fwrite h file bs size count := (count, tape_write h bs)
}.
Lemma tape_bytes h n : Forall byte_ok (tape_read h n).1.
Proof. cbn. apply Forall_fmap, Forall_true. intros b. apply w8_range. Qed.
Lemma tape_length h n : length (tape_read h n).1 = Nat.min (Z.to_nat n) (length (tp_input h)).
Proof. cbn. by rewrite length_fmap, length_take. Qed.
Lemma tape_parts h n m :
  0 <= n -> 0 <= m ->
  tape_read h (n + m) = ((tape_read h n).1 ++ (tape_read (tape_read h n).2 m).1, (tape_read (tape_read h n).2 m).2).
Proof.
  intros Hn Hm. unfold tape_read. cbn [fst snd tp_input tp_output]. rewrite Z2Nat.inj_add by done. rewrite <- fmap_app, drop_drop.
  by rewrite take_take_drop.
Qed.
#[export] Instance tape_laws : FileLaws Tape.
Proof.
  constructor.
  - intros h fd n o bs h' Hn [= <- <-]. split; [|apply (tape_bytes h n)]. pose proof (tape_length h n) as Hl. cbn in Hl. rewrite Hl. lia.
  - intros h file n bs k h' Hn [= <- <- <-]. rewrite Z.mul_1_l, Z.div_1_r. pose proof (tape_length h n) as Hl. cbn in Hl. rewrite Hl.
    split; [done|]. split; [lia|apply (tape_bytes h n)].
  - intros h file size count Hsize Hcount. cbn. by rewrite Z.mul_1_l, Z.div_1_r.
  - intros h file n m Hn Hm. cbn [h_fread tape_files]. rewrite !Z.mul_1_l. pose proof (tape_parts h n m ltac:(lia) ltac:(lia)) as ->.
    pose proof (tape_length h n) as Hl. destruct (tape_read h n) as [bs h1] eqn:E. cbn [fst snd] in *. rewrite !Z.div_1_r.
    destruct (Z.ltb_spec (Z.of_nat (length bs)) n) as [Hlt|Hge].
    + assert (Hnil : tp_input h1 = []).
      { unfold tape_read in E. injection E as <- <-. cbn. apply drop_ge. lia. }
      destruct h1 as [i o]. cbn in Hnil. subst i. unfold tape_read. cbn. rewrite take_nil, drop_nil, app_nil_r. done.
    + destruct (tape_read h1 m) as [bs' h2]. cbn [fst snd]. rewrite Z.div_1_r, length_app. do 2 f_equal. lia.
  - intros h file bs n Hn. cbn. lia.
  - intros h file bs size count Hsize Hcount. cbn. by rewrite Z.mul_comm, Z.div_mul by lia.
  - intros h file bs bs' n m Hn Hm Hl Hl'. cbn. rewrite Z.ltb_irrefl. unfold tape_write. cbn. by rewrite <- app_assoc.
Qed.
Definition example_tape : Tape := mkTape [1; 2; 3; 4; 5] [].

Lemma file_read_spec_witness :
  (file_read example_window example_tape example_machine 0 65600 100 None true).1.1 = inr 5 /\
  see example_window (file_read example_window example_tape example_machine 0 65600 100 None true).2 65602 = 3.
Proof.
  pose proof (file_read_spec example_window example_tape example_machine 0 65600 100 None true example_machine_ok ltac:(lia)
    (example_software 65600 100 eq_refl)) as H.
  assert ((file_read example_window example_tape example_machine 0 65600 100 None true).1.1 = inr 5) as E by (vm_compute; reflexivity).
  destruct (file_read _ _ _ _ _ _ _ _) as [[r h'] s']. cbn [fst snd] in *. subst r. split; [done|].
  destruct H as [(_ & _ & _ & Hst)|(_ & _ & _ & _ & [[? _]|[[? _]|[? _]]])]; [|done..].
  rewrite (st_see _ _ _ _ _ Hst). vm_compute. reflexivity.
Defined.
Lemma file_write_spec_witness :
  (file_write example_window example_tape example_machine 0 81918 3 None true).1 = (inr 3, mkTape [1; 2; 3; 4; 5] [104; 105; 33]) /\
  seen example_window example_machine 81918 3 = [104; 105; 33].
Proof.
  pose proof (file_write_spec example_window example_tape example_machine 0 81918 3 None true example_machine_ok ltac:(lia)
    (example_software 81918 3 eq_refl)) as H.
  assert ((file_write example_window example_tape example_machine 0 81918 3 None true).1 = (inr 3, mkTape [1; 2; 3; 4; 5] [104; 105; 33])) as E
    by (vm_compute; reflexivity).
  destruct (file_write _ _ _ _ _ _ _ _) as [[r h'] s']. cbn [fst snd] in E. split; [exact E|].
  destruct H as (_ & _ & [H|(_ & _ & [[H _]|[[H _]|[H _]]])]).
  - rewrite E in H. exact (f_equal (fun out => tp_output out.2) H).
  - rewrite H in E. discriminate E.
  - rewrite H in E. discriminate E.
  - rewrite H in E. discriminate E.
Defined.
Lemma gsv_fread_spec_witness :
  (gsv_fread example_window example_tape example_machine 65600 2 10 0).1.1 = 2 /\
  see example_window (gsv_fread example_window example_tape example_machine 65600 2 10 0).2 65604 = 5.
Proof.
  pose proof (gsv_fread_spec example_window example_tape example_machine 65600 2 10 0 example_machine_ok ltac:(lia) ltac:(lia)
    (example_software 65600 20 eq_refl)) as H.
  assert ((gsv_fread example_window example_tape example_machine 65600 2 10 0).1.1 = 2) as E by (vm_compute; reflexivity).
  destruct (gsv_fread _ _ _ _ _ _ _) as [[items h'] s']. cbn [fst snd] in *. subst items. split; [done|].
  destruct H as (_ & [(bs & E & Hst)|(? & _)]); [|done]. rewrite (st_see _ _ _ _ _ Hst). vm_compute in E. injection E as <- _.
  vm_compute. reflexivity.
Defined.
Lemma gsv_fwrite_spec_witness :
  (gsv_fwrite example_window example_tape example_machine 81918 1 3 0).1 = (3, mkTape [1; 2; 3; 4; 5] [104; 105; 33]) /\
  seen example_window example_machine 81918 3 = [104; 105; 33].
Proof.
  pose proof (gsv_fwrite_spec example_window example_tape example_machine 81918 1 3 0 example_machine_ok ltac:(lia) ltac:(lia)
    (example_software 81918 3 eq_refl)) as H.
  assert ((gsv_fwrite example_window example_tape example_machine 81918 1 3 0).1 = (3, mkTape [1; 2; 3; 4; 5] [104; 105; 33])) as E
    by (vm_compute; reflexivity).
  destruct (gsv_fwrite _ _ _ _ _ _ _) as [[items h'] s']. cbn [fst snd] in E. split; [exact E|].
  destruct H as (_ & _ & [H|(H & _)]).
  - rewrite E in H. exact (f_equal (fun out => tp_output out.2) H).
  - rewrite H in E. discriminate E.
Defined.
