(* ===== verification/GuestSoftwareVM.v ===== *)
(** * GuestSoftwareVM: software memory for native code (runtime/GuestSoftwareVM.c)

    Applications may reserve more memory than the system maps. The runtime then
    gives them addresses that nothing is mapped at: a window of software
    addresses, backed by a GuestSparseMemory. A native instruction that touches
    the window faults; the signal handler fetches the instruction, performs it on
    the software memory with GuestMemoryInstruction or GuestExclusive, and
    returns. This file models that handler, the signal dispositions it hides from
    the application, the choice between native and software mappings, and the
    alias through which instructions are fetched; SoftwareBuffers models the calls
    that take buffers. The kernel is the class [Host]. What is logged, and the
    counts of fetches that are only reported, are left out. *)
From S2P Require Import Prelude GuestMemory SparseRegions GuestSparseMemory SparseInterface.
From S2P Require Import GuestMemoryInstruction GuestCPU GuestExclusive SoftwareBuffers.

Definition ACTION_LIMIT : nat := 128.
Definition SIGBUS : Z := 10.
Definition SIGSEGV : Z := 11.
Definition SA_RESETHAND : Z := 0x4.
Definition SA_SIGINFO : Z := 0x40.
Definition MEGABYTES_64 : Z := Z.shiftl 64 20.

(** ** Data *)

(** A signal's action: what is called, with the flags and the mask. *)
Inductive Handler := SIG_DFL | SIG_IGN | CALL (f : Z).
Record Action := mkAction { sa_handler : Handler; sa_flags : Z; sa_mask : Z }.
#[export] Instance Handler_eq_dec : EqDecision Handler.
Proof. solve_decision. Defined.
Definition default_action : Action := mkAction SIG_DFL 0 0.
(** A pointer to an action: one that was there before the runtime, or a slot. *)
Inductive ActionRef := Original | Slot (n : nat).
Record Signals := mkSignals {
  sg_original : bool -> Action;
  sg_actions : list Action;
  sg_current : bool -> ActionRef
}.
Record CodeAlias := mkCodeAlias { ca_base : Z; ca_alias : Z; ca_size : Z; ca_enabled : bool }.
Record Pools := mkPools { po_force_threshold : Z; po_native : Z; po_forced : Z; po_pending : option Z }.
Record GSV := mkGSV {
  gs_memory : option Space;
  gs_base : Z;
  gs_span : Z;
  gs_guard : option Z;
  gs_enabled : bool;
  gs_fault_count : Z;
  gs_pools : Pools;
  gs_code : CodeAlias;
  gs_signals : Signals
}.
Definition window (g : GSV) : Window := mkWindow (gs_enabled g) (gs_base g) (gs_span g).
Definition software (g : GSV) (a : Z) : bool := gsv_address (window g) a.
Definition with_memory (g : GSV) (m : option Space) : GSV :=
  mkGSV m (gs_base g) (gs_span g) (gs_guard g) (gs_enabled g) (gs_fault_count g) (gs_pools g) (gs_code g) (gs_signals g).
Definition with_pools (g : GSV) (p : Pools) : GSV :=
  mkGSV (gs_memory g) (gs_base g) (gs_span g) (gs_guard g) (gs_enabled g) (gs_fault_count g) p (gs_code g) (gs_signals g).
Definition with_code (g : GSV) (c : CodeAlias) : GSV :=
  mkGSV (gs_memory g) (gs_base g) (gs_span g) (gs_guard g) (gs_enabled g) (gs_fault_count g) (gs_pools g) c (gs_signals g).
Definition with_signals (g : GSV) (s : Signals) : GSV :=
  mkGSV (gs_memory g) (gs_base g) (gs_span g) (gs_guard g) (gs_enabled g) (gs_fault_count g) (gs_pools g) (gs_code g) s.
Definition with_place (g : GSV) (base span : Z) (guard : option Z) : GSV :=
  mkGSV (gs_memory g) base span guard (gs_enabled g) (gs_fault_count g) (gs_pools g) (gs_code g) (gs_signals g).
Definition with_pending (p : Pools) (pending : option Z) : Pools :=
  mkPools (po_force_threshold p) (po_native p) (po_forced p) pending.
Definition update {A} (f : bool -> A) (i : bool) (x : A) (j : bool) : A := if eqb j i then x else f j.

(** The kernel: an errno or the answer, and whether a call failed with an errno.
    [v_max_address] is the end of the address space when the task's information
    can be had; [v_read_word] reads an instruction checked, [v_byte] unchecked;
    [v_dispatch] is the address of [dispatch_signal]. *)
Class Host (H : Type) := {
  v_max_address : H -> option Z;
  v_mmap : H -> Z -> Z -> Z -> Z -> Z -> Z -> (Z + Z) * H;
  v_munmap : H -> Z -> Z -> option Z * H;
  v_mprotect : H -> Z -> Z -> Z -> option Z * H;
  v_madvise : H -> Z -> Z -> Z -> option Z * H;
  v_sigaction : H -> Z -> option Action -> (Z + Action) * H;
  v_read_word : H -> Z -> option Z;
  v_byte : H -> Z -> Z;
  v_dispatch : Z
}.

Definition error_code (result : GMResult) : Z :=
  match result with GM_NOMEM => ENOMEM | GM_PROTECTION => EACCES | _ => EINVAL end.
Definition rounded (size : Z) : option Z :=
  bad (size =? 0) || (UINT64_MAX - (GM_PAGE_SIZE - 1) <? size);
  Some (Z.land (w64 (size + GM_PAGE_SIZE - 1)) (Z.lnot (GM_PAGE_SIZE - 1))).
Definition gsv_enabled (g : GSV) : bool := gs_enabled g.
Definition gsv_force_pool (g : GSV) (size : Z) : GSV :=
  let p := gs_pools g in with_pools g (mkPools (po_force_threshold p) (po_native p) size (po_pending p)).
(** [-1] with an errno, or zero. *)
Definition status (errno : option Z) : Z + unit := match errno with Some e => inl e | None => inr tt end.

(** ** The code alias *)

Definition gsv_code_alias (g : GSV) (executable readable size : Z) : bool * GSV :=
  if negb (gsv_enabled g) || negb (ca_size (gs_code g) =? 0) || (executable =? 0) || (readable =? 0) ||
     negb (Z.land executable 3 =? 0) || negb (Z.land readable 3 =? 0) || (size <? 4) || negb (Z.land size 3 =? 0) ||
     (UINT64_MAX - executable <? size) || (UINT64_MAX - readable <? size) ||
     software g executable || software g readable
  then (false, g)
  else (true, with_code g (mkCodeAlias executable readable size true)).
Definition gsv_forget_code_alias (g : GSV) (start size : Z) : GSV :=
  let c := gs_code g in
  if negb (ca_enabled c) || (size =? 0) then g else
  if (if start <=? ca_base c then ca_base c - start <? size else start - ca_base c <? ca_size c)
  then with_code g (mkCodeAlias (ca_base c) (ca_alias c) (ca_size c) false) else g.

Section operations.
Context {H : Type} `{!Host H}.

Definition gsv_fetch_instruction (h : H) (g : GSV) (pc : Z) : option Z :=
  if negb (Z.land pc 3 =? 0) || software g pc then None else
  let c := gs_code g in
  if ca_enabled c && (ca_base c <=? pc) && (pc - ca_base c <=? ca_size c - 4)
  then Some (le_value (host_bytes (v_byte h) (ca_alias c + (pc - ca_base c)) 4))
  else v_read_word h pc.

(** ** Pools *)

Definition gsv_prefer_native_pool (h : H) (g : GSV) (size : Z) : H * GSV :=
  let p := gs_pools g in
  let h := match po_pending p with Some previous => (v_munmap h previous (po_native p)).2 | None => h end in
  let p := mkPools (po_force_threshold p) size (po_forced p) None in
  if negb (gsv_enabled g) || (size =? 0) then (h, with_pools g p) else
  let '(r, h) := v_mmap h 0 size PROT_NONE (Z.lor MAP_PRIVATE MAP_ANON) (-1) 0 in
  match r with
  | inl _ => (h, with_pools g p)
  | inr reserved => (h, with_pools g (with_pending p (Some reserved)))
  end.

(** ** Mappings: an errno or the address *)

(** The search is repeated while another thread took the range it found. *)
Definition map_turn (length prot : Z) (m : option Space) : option Space + (GMResult * option Space * Z) :=
  match gm_sparse_find_free m length true with
  | (GM_OK, Some at_) =>
    let '(result, m) := gm_sparse_map m at_ length prot 3 false in
    if bool_decide (result = GM_OVERLAP) then inl m else inr (result, m, at_)
  | (result, _) => inr (result, m, 0)
  end.
Definition map_anywhere (m : option Space) (length prot : Z) : GMResult * option Space * Z :=
  match until TURNS (map_turn length prot) m with inr out => out | inl m => (GM_OVERLAP, m, 0) end.
Definition eligible (size prot flags fd offset : Z) : bool :=
  let both := Z.lor MAP_ANON MAP_PRIVATE in
  (Z.land flags both =? both) && none_outside flags (Z.lor (Z.lor both MAP_FIXED) MAP_NORESERVE) &&
  none_outside prot (Z.lor PROT_READ PROT_WRITE) && (fd =? -1) && (offset =? 0).
Definition forced (p : Pools) (size : Z) : bool :=
  (negb (po_forced p =? 0) && (size =? po_forced p)) ||
  (negb (po_force_threshold p =? 0) && (po_force_threshold p <=? size)) ||
  (negb (po_native p =? 0) && (MEGABYTES_64 <=? size) && negb (size =? po_native p)).
(** The software mapping that ends [gsv_map]. *)
Definition map_software (g : GSV) (a size prot : Z) (fixed hint allowed : bool) : (Z + Z) * GSV :=
  let refused := inl (if hint then EINVAL else ENOMEM) in
  if negb allowed then (refused, g) else
  match rounded size with
  | None => (refused, g)
  | Some length =>
    if negb hint && fixed then (refused, g) else
    let '(result, m, at_) :=
      if hint && fixed then let '(result, m) := gm_sparse_map (gs_memory g) a length prot 3 true in (result, m, a)
      else map_anywhere (gs_memory g) length prot in
    if negb (bool_decide (result = GM_OK)) then (inl (error_code result), with_memory g m)
    else (inr at_, with_memory g m)
  end.
(** The reservation made early, on an exact request. *)
Definition take_pending (h : H) (g : GSV) (size prot : Z) : option ((Z + Z) * H * GSV) :=
  reserved ← po_pending (gs_pools g);
  let g := with_pools g (with_pending (gs_pools g) None) in
  let '(failure, h) := v_mprotect h reserved size prot in
  match failure with
  | None => Some (inr reserved, h, g)
  | Some e => Some (inl e, (v_munmap h reserved size).2, g)
  end.
Definition gsv_map (h : H) (g : GSV) (a size prot flags fd offset : Z) : (Z + Z) * H * GSV :=
  let fixed := negb (Z.land flags MAP_FIXED =? 0) in
  let g := if fixed then gsv_forget_code_alias g a size else g in
  if negb (gsv_enabled g) then let '(r, h) := v_mmap h a size prot flags fd offset in (r, h, g) else
  let hint := software g a in
  let allowed := eligible size prot flags fd offset in
  let force := allowed && negb fixed && forced (gs_pools g) size in
  let early := if (a =? 0) && allowed && negb fixed && negb force && (size =? po_native (gs_pools g))
               then take_pending h g size prot else None in
  match early with
  | Some out => out
  | None =>
    let '(native, h) := if negb hint && negb force
      then let '(r, h) := v_mmap h a size prot flags fd offset in (Some r, h) else (None, h) in
    match native with
    | Some (inr r) => (inr r, h, g)
    | Some (inl e) =>
      if negb (e =? ENOMEM) || (size <? MEGABYTES_64) then (inl e, h, g)
      else let '(r, g) := map_software g a size prot fixed hint allowed in (r, h, g)
    | None => let '(r, g) := map_software g a size prot fixed hint allowed in (r, h, g)
    end
  end.

Definition gsv_protect (h : H) (g : GSV) (a size prot : Z) : (Z + unit) * H * GSV :=
  let g := if Z.land prot PROT_READ =? 0 then gsv_forget_code_alias g a size else g in
  if negb (software g a) then let '(e, h) := v_mprotect h a size prot in (status e, h, g) else
  match rounded size with
  | None => (inl EINVAL, h, g)
  | Some length =>
    if negb (none_outside prot (Z.lor PROT_READ PROT_WRITE)) then (inl EINVAL, h, g) else
    let '(result, m) := gm_sparse_protect (gs_memory g) a length prot in
    if negb (bool_decide (result = GM_OK)) then (inl (error_code result), h, with_memory g m)
    else (inr tt, h, with_memory g m)
  end.
Definition gsv_unmap (h : H) (g : GSV) (a size : Z) : (Z + unit) * H * GSV :=
  let g := gsv_forget_code_alias g a size in
  if negb (software g a) then let '(e, h) := v_munmap h a size in (status e, h, g) else
  match rounded size with
  | None => (inl EINVAL, h, g)
  | Some length =>
    let '(result, m) := gm_sparse_unmap (gs_memory g) a length in
    if negb (bool_decide (result = GM_OK)) then (inl (error_code result), h, with_memory g m)
    else (inr tt, h, with_memory g m)
  end.
(** [MADV_NORMAL] to [MADV_FREE], [MADV_FREE_REUSABLE] and [MADV_FREE_REUSE]. *)
Definition known_advice (advice : Z) : bool := existsb (Z.eqb advice) [0; 1; 2; 3; 4; 5; 7; 8].
Definition gsv_advise (h : H) (g : GSV) (a size advice : Z) : (Z + unit) * H * GSV :=
  if negb (software g a) then let '(e, h) := v_madvise h a size advice in (status e, h, g) else
  if negb (known_advice advice) then (inl EINVAL, h, g) else
  let '(result, m) := gm_sparse_prepare (gs_memory g) a size 0 in
  if negb (bool_decide (result = GM_OK)) then (inl (error_code result), h, with_memory g m)
  else (inr tt, h, with_memory g m).

(** ** Signals *)

Definition referred (s : Signals) (i : bool) : Action :=
  match sg_current s i with
  | Original => sg_original s i
  | Slot n => default default_action (sg_actions s !! n)
  end.
Definition with_current (s : Signals) (i : bool) (r : ActionRef) : Signals :=
  mkSignals (sg_original s) (sg_actions s) (update (sg_current s) i r).
Definition installed (action : Action) : Action :=
  mkAction (CALL v_dispatch) (Z.lor (Z.ldiff (sa_flags action) SA_RESETHAND) SA_SIGINFO) (sa_mask action).
Definition gsv_sigaction (h : H) (g : GSV) (number : Z) (action : option Action) : (Z + Action) * H * GSV :=
  if negb (gsv_enabled g) || (negb (number =? SIGSEGV) && negb (number =? SIGBUS))
  then let '(r, h) := v_sigaction h number action in (r, h, g) else
  let s := gs_signals g in
  let index := number =? SIGBUS in
  let old := referred s index in
  match action with
  | None => (inr old, h, g)
  | Some action =>
    if (length (sg_actions s) =? ACTION_LIMIT)%nat then (inl ENOMEM, h, g) else
    let added := mkSignals (sg_original s) (sg_actions s ++ [action]) (sg_current s) in
    let '(r, h) := v_sigaction h number (Some (installed action)) in
    match r with
    | inl e => (inl e, h, with_signals g added)
    | inr _ => (inr old, h, with_signals g (with_current added index (Slot (length (sg_actions s)))))
    end
  end.

(** ** Faults *)

(** The interrupted thread. *)
Record UContext := mkContext {
  uc_esr : Z; uc_x : list Z; uc_fp : Z; uc_lr : Z; uc_sp : Z; uc_pc : Z; uc_cpsr : Z; uc_v : list (list Z)
}.
Definition registers_of (u : UContext) : GMMemoryRegisters :=
  mkMemoryRegisters (take 29 (uc_x u) ++ [uc_fp u; uc_lr u]) (uc_sp u) (uc_pc u) (uc_v u).
Definition context_with (u : UContext) (r : GMMemoryRegisters) (nzcv : Z) : UContext :=
  mkContext (uc_esr u) (take 29 (mr_x r)) (default 0 (mr_x r !! 29%nat)) (default 0 (mr_x r !! 30%nat)) (mr_sp r) (mr_pc r)
    (Z.lor (Z.land (uc_cpsr u) 0x0fffffff) (w32 (Z.shiftl nzcv 28))) (mr_vector r).
Definition with_faults (g : GSV) (m : option Space) (count : Z) : GSV :=
  mkGSV m (gs_base g) (gs_span g) (gs_guard g) (gs_enabled g) count (gs_pools g) (gs_code g) (gs_signals g).
(** The instruction on the software memory: the outcome, the memory, the
    registers and the flags. *)
Definition emulate (h : H) (g : GSV) (i : Z) (r : GMMemoryRegisters) (nzcv : Z)
    : GMMemoryStep * option Space * GMMemoryRegisters * Z :=
  if gm_exclusive_instruction i then
    let state := mkRegisters (mr_x r) (mr_sp r) (mr_pc r) nzcv in
    let '(result, m, state', _) :=
      gm_exclusive_sequence (gs_memory g) i (Some state) (Some (gsv_fetch_instruction h g)) (Some GM_OK) in
    let state' := default state state' in
    if bool_decide (result = GM_STEP_OK)
    then (result, m, mkMemoryRegisters (r_x state') (r_sp state') (r_pc state') (mr_vector r), r_nzcv state')
    else (result, m, r, nzcv)
  else
    let '(result, m, r', _) := gm_memory_step (gs_memory g) i (Some r) (Some GM_OK) in (result, m, default r r', nzcv).
(** [fault_address] is [si_addr] of the signal's information, when there is any. *)
Definition handle_fault (h : H) (g : GSV) (fault_address : option Z) (u : UContext) : bool * GSV * UContext :=
  match fault_address with
  | None => (false, g, u)
  | Some a =>
    if negb (software g a) then (false, g, u) else
    if negb (Z.shiftr (uc_esr u) 26 =? 0x24) then (false, g, u) else
    if negb (Z.land (uc_pc u) 3 =? 0) || software g (uc_pc u) then (false, g, u) else
    match gsv_fetch_instruction h g (uc_pc u) with
    | None => (false, g, u)
    | Some i =>
      let nzcv := Z.land (Z.shiftr (uc_cpsr u) 28) 15 in
      let '(result, m, r, nzcv) := emulate h g i (registers_of u) nzcv in
      if negb (bool_decide (result = GM_STEP_OK)) then (false, with_memory g m, u)
      else (true, with_faults g m (w64 (gs_fault_count g + 1)), context_with u r nzcv)
    end
  end.
(** What a signal leads to. *)
Inductive Delivery := Resumed (u : UContext) | Ignored | Raised | Called (f : Z) (information : bool).
Definition dispatch_signal (h : H) (g : GSV) (number : Z) (fault_address : option Z) (u : UContext) : Delivery * H * GSV :=
  let '(handled, g, u) := handle_fault h g fault_address u in
  if handled then (Resumed u, h, g) else
  let s := gs_signals g in
  let index := number =? SIGBUS in
  let action := referred s index in
  let g := if negb (Z.land (sa_flags action) SA_RESETHAND =? 0) then with_signals g (with_current s index (Slot 0)) else g in
  match sa_handler action with
  | SIG_IGN => (Ignored, h, g)
  | SIG_DFL => (Raised, (v_sigaction h number (Some action)).2, g)
  | CALL f => (Called f (negb (Z.land (sa_flags action) SA_SIGINFO =? 0)), h, g)
  end.

(** ** Starting and stopping *)

Definition restore (h : H) (s : Signals) : H :=
  let h := (v_sigaction h SIGSEGV (Some (sg_original s false))).2 in
  (v_sigaction h SIGBUS (Some (sg_original s true))).2.
Definition drop_guard (h : H) (g : GSV) : H :=
  match gs_guard g with Some a => (v_munmap h a (gs_span g)).2 | None => h end.
(** The window: beyond the address space, or reserved in it. *)
Definition place (h : H) (g : GSV) (max : Z) : bool * H * GSV :=
  let span := Z.shiftl 512 30 in
  let base := Z.shiftl 1 40 in
  if base <? max then
    let '(r, h) := v_mmap h 0 span PROT_NONE (Z.lor MAP_PRIVATE MAP_ANON) (-1) 0 in
    match r with
    | inl _ => (false, h, with_place g base span None)
    | inr guard => (true, h, with_place g guard span (Some guard))
    end
  else (true, h, with_place g base span None).
(** The actions that were there, and the runtime's own handler: whether both
    could be installed. *)
Definition install (h : H) (s : Signals) : bool * H * Signals :=
  let own := mkAction (CALL v_dispatch) SA_SIGINFO 0 in
  let '(old0, h) := v_sigaction h SIGSEGV None in
  let '(old1, h) := v_sigaction h SIGBUS None in
  let original i := match (if i : bool then old1 else old0) with inr old => old | inl _ => sg_original s i end in
  let s := mkSignals original [default_action] (fun _ => Original) in
  let '(r0, h) := v_sigaction h SIGSEGV (Some own) in
  match r0 with
  | inl _ => (false, h, s)
  | inr _ => let '(r1, h) := v_sigaction h SIGBUS (Some own) in
             match r1 with inl _ => (false, h, s) | inr _ => (true, h, s) end
  end.
Definition start (h : H) (g : GSV) (backing_bytes force : Z) (alloc_ok : bool) (arena : list (list Z)) : bool * H * GSV :=
  if gsv_enabled g then (false, h, g) else
  match v_max_address h with
  | None => (false, h, with_place g (Z.shiftl 1 40) (Z.shiftl 512 30) None)
  | Some max =>
    let '(placed, h, g) := place h g max in
    if negb placed then (false, h, g) else
    let '(result, m) := initialize (Some (gs_memory g)) (gs_base g) (gs_span g) backing_bytes alloc_ok arena in
    if negb (bool_decide (result = GM_OK)) then (false, drop_guard h g, g) else
    let g := with_memory g (default None m) in
    let '(both, h, s) := install h (gs_signals g) in
    let g := with_signals g s in
    if negb both then (false, drop_guard (restore h s) g, with_memory g (default None (gm_sparse_destroy (Some (gs_memory g))))) else
    (true, h, mkGSV (gs_memory g) (gs_base g) (gs_span g) (gs_guard g) true 0
                (mkPools force 0 0 None) (mkCodeAlias 0 0 0 false) s)
  end.
Definition gsv_start := start.
Definition gsv_start_blocks := start.
Definition gsv_stop (h : H) (g : GSV) : H * GSV :=
  if negb (gsv_enabled g) then (h, g) else
  let h := restore h (gs_signals g) in
  let p := gs_pools g in
  let h := match po_pending p with Some pending => (v_munmap h pending (po_native p)).2 | None => h end in
  let h := drop_guard h g in
  let c := gs_code g in
  (h, mkGSV (default None (gm_sparse_destroy (Some (gs_memory g)))) (gs_base g) (gs_span g) (gs_guard g) false (gs_fault_count g)
        (with_pending p None) (mkCodeAlias (ca_base c) (ca_alias c) (ca_size c) false) (gs_signals g)).
Definition gsv_stats (g : GSV) : GMSparseStats := gm_sparse_stats (gs_memory g).
Definition gsv_fault_count (g : GSV) : Z := gs_fault_count g.
End operations.

(** ** Ranges *)

Lemma until_first {S R} fuel (step : S -> S + R) s r : step s = inr r -> until fuel step s = inr r.
Proof.
  intros Hr. induction fuel as [fuel IH|fuel IH|]; cbn [until]; [by rewrite Hr|by rewrite IH|done].
Qed.
Lemma rounded_size_spec size :
  0 <= size ->
  match rounded size with
  | Some n => 0 < size <= n /\ n < size + GM_PAGE_SIZE /\ n <= UINT64_MAX /\ n mod GM_PAGE_SIZE = 0
  | None => size = 0 \/ UINT64_MAX - (GM_PAGE_SIZE - 1) < size
  end.
Proof.
  intros Hsize. unfold rounded. destruct (Z.eqb_spec size 0); cbn [orb]; [by left|].
  destruct (Z.ltb_spec (UINT64_MAX - (GM_PAGE_SIZE - 1)) size); [by right|].
  rewrite w64_small by (unfold u64_ok, UINT64_MAX, GM_PAGE_SIZE in *; lia).
  fold (page_floor (size + GM_PAGE_SIZE - 1)). rewrite page_floor_eq.
  pose proof (page_floor_mod (size + GM_PAGE_SIZE - 1)). pose proof (page_mod_bound (size + GM_PAGE_SIZE - 1)).
  unfold UINT64_MAX, GM_PAGE_SIZE in *. lia.
Qed.
Lemma software_args s at_ length prot maxprot :
  space_wf s -> at_ mod GM_PAGE_SIZE = 0 -> sp_base s <= at_ -> at_ + length <= sp_end s -> 0 < length -> length mod GM_PAGE_SIZE = 0 ->
  none_outside maxprot 7 = true -> none_outside prot maxprot = true -> change_args s at_ length prot maxprot.
Proof.
  intros Hs Hal Hb He Hpos Hl Hm Hp. split; [|done]. pose proof (sw_end s Hs). unfold mapping_range, aligned, contains.
  rewrite Hal, Hl. unfold UINT64_MAX in *. lia.
Qed.
(** One search is enough, when no other thread comes between: the range found is
    the lowest free one. *)
Lemma map_anywhere_spec s length prot :
  space_wf s -> 0 < length <= UINT64_MAX -> length mod GM_PAGE_SIZE = 0 -> none_outside prot 3 = true ->
  match map_anywhere (Some s) length prot with
  | (GM_OK, m, at_) => exists s', m = Some s' /\ changed_space s s' MAP at_ length prot 3 /\
      (forall x, at_ <= x < at_ + length -> sp_cell s x = None) /\ sp_base s <= at_ /\ at_ + length <= sp_end s
  | (GM_NOMEM, m, _) => m = Some s /\ ((255 <= List.length (sp_regions s))%nat \/
      forall c, sp_base s <= c -> c + length <= sp_end s -> exists x, c <= x < c + length /\ sp_cell s x <> None)
  | _ => False
  end.
Proof.
  intros Hs Hlen Hal Hprot. unfold map_anywhere. pose proof (gm_sparse_find_free_spec s length Hs ltac:(lia)) as Hfind.
  destruct (gm_sparse_find_free (Some s) length true) as [r [at_|]] eqn:Efind.
  2: { destruct r; try done.
       - rewrite (until_first _ _ _ (GM_INVALID, Some s, 0)) by (unfold map_turn; by rewrite Efind).
         assert (aligned 0 length = true) as Ha; [|congruence]. unfold aligned. rewrite Z.mod_0_l, Hal by done. unfold UINT64_MAX in *. lia.
       - rewrite (until_first _ _ _ (GM_NOMEM, Some s, 0)) by (unfold map_turn; by rewrite Efind). split; [done|by right]. }
  destruct r; try done. destruct Hfind as (Hat & Hb & He & Hfree & Hlow).
  pose proof (change_correct s at_ length prot 3 false MAP Hs ltac:(lia)) as Hc. fold (gm_sparse_map (Some s) at_ length prot 3 false) in Hc.
  pose proof (software_args s at_ length prot 3 Hs Hat Hb He ltac:(lia) Hal eq_refl Hprot) as Hargs.
  assert (Hturn : forall r m, gm_sparse_map (Some s) at_ length prot 3 false = (r, m) -> r <> GM_OVERLAP ->
    until TURNS (map_turn length prot) (Some s) = inr (r, m, at_)).
  { intros r m E Hne. apply until_first. unfold map_turn. rewrite Efind, E. by rewrite bool_decide_eq_false_2. }
  destruct (gm_sparse_map (Some s) at_ length prot 3 false) as [r m].
  destruct r; try (by destruct Hc as (_ & ? & _)).
  - rewrite (Hturn GM_OK m) by done. destruct Hc as (_ & _ & _ & s' & -> & Hch). by exists s'.
  - by destruct Hc as [_ Hno].
  - destruct Hc as (_ & _ & _ & x & Hx & Hcell). by destruct Hcell; apply Hfree.
  - rewrite (Hturn GM_NOMEM m) by done. destruct Hc as [-> Hr]. split; [done|]. left. unfold REGION_LIMIT in Hr. lia.
Qed.

(** ** The invariant *)

(** Every pointer to an action leads to one, and the first slot is the default. *)
Record signals_ok (s : Signals) : Prop := {
  so_default : sg_actions s !! 0%nat = Some default_action;
  so_limit : (length (sg_actions s) <= ACTION_LIMIT)%nat;
  so_slot : forall i n, sg_current s i = Slot n -> (n < length (sg_actions s))%nat
}.
(** The alias is whole instructions, in both views, outside the window. *)
Record code_ok (w : Window) (c : CodeAlias) : Prop := {
  co_enabled : w_enabled w = true;
  co_size : 4 <= ca_size c /\ ca_size c mod 4 = 0;
  co_base : 0 < ca_base c /\ ca_base c mod 4 = 0 /\ ca_base c + ca_size c <= UINT64_MAX;
  co_alias : 0 < ca_alias c /\ ca_alias c mod 4 = 0 /\ ca_alias c + ca_size c <= UINT64_MAX;
  co_window : gsv_address w (ca_base c) = false /\ gsv_address w (ca_alias c) = false
}.
Record gsv_wf (g : GSV) : Prop := {
  gw_memory : match gs_memory g with
    | Some s => gs_enabled g = true /\ space_wf s /\ sp_base s = gs_base g /\ sp_end s = gs_base g + gs_span g /\
        gs_base g mod GM_PAGE_SIZE = 0 /\ gs_span g mod GM_PAGE_SIZE = 0
    | None => gs_enabled g = false
    end;
  gw_code : ca_enabled (gs_code g) = true -> code_ok (window g) (gs_code g);
  gw_signals : gs_enabled g = true -> signals_ok (gs_signals g)
}.
Lemma wf_memory g s :
  gsv_wf g -> gs_memory g = Some s -> gs_enabled g = true /\ space_wf s /\ sp_base s = gs_base g /\ sp_end s = gs_base g + gs_span g.
Proof. intros Hg Hs. pose proof (gw_memory g Hg) as H. rewrite Hs in H. by destruct H as (? & ? & ? & ? & _). Qed.
Lemma wf_enabled g : gsv_wf g -> gs_enabled g = true -> exists s, gs_memory g = Some s.
Proof. intros Hg He. pose proof (gw_memory g Hg) as H. destruct (gs_memory g) as [s|]; [by exists s|congruence]. Qed.
Lemma software_enabled g a : software g a = true -> gs_enabled g = true.
Proof. unfold software, gsv_address. cbn. by destruct (gs_enabled g). Qed.
(** Operations on the memory keep it in its place. *)
Lemma wf_with_memory g s s' :
  gsv_wf g -> gs_memory g = Some s -> space_wf s' -> sp_base s' = sp_base s -> sp_end s' = sp_end s -> gsv_wf (with_memory g (Some s')).
Proof.
  intros [Hm Hc Hsig] Hs Hs' Hb He. rewrite Hs in Hm. destruct Hm as (? & ? & ? & ? & ? & ?). split; cbn; [|done|done].
  split_and!; try done; congruence.
Qed.
Lemma wf_with_pools g p : gsv_wf g -> gsv_wf (with_pools g p).
Proof. by intros []. Qed.
Lemma with_memory_same g : with_memory g (gs_memory g) = g.
Proof. by destruct g. Qed.

(** ** The code alias *)

Lemma land3 x : 0 <= x -> (Z.land x 3 =? 0) = (x mod 4 =? 0).
Proof. intros. change 3 with (2 ^ 2 - 1). by rewrite land_mask. Qed.
Definition code_range (c : CodeAlias) (x : Z) : Prop := ca_base c <= x < ca_base c + ca_size c.
(** A range is forgotten exactly when it meets the alias. *)
Lemma forget_enabled g start size :
  0 <= size -> 0 < ca_size (gs_code g) ->
  ca_enabled (gs_code (gsv_forget_code_alias g start size)) = true <->
  ca_enabled (gs_code g) = true /\ forall x, start <= x < start + size -> ~ code_range (gs_code g) x.
Proof.
  intros Hsize Hcode. unfold gsv_forget_code_alias, code_range. destruct (ca_enabled (gs_code g)) eqn:Ee; cbn [negb orb].
  2: { split; [congruence|by intros [? _]]. }
  destruct (Z.eqb_spec size 0) as [->|]; [split; [intros _; split; [done|lia]|done]|].
  set (c := gs_code g) in *.
  destruct (Z.leb_spec start (ca_base c)).
  - destruct (Z.ltb_spec (ca_base c - start) size); cbn.
    + split; [done|]. intros [_ Hno]. exfalso. apply (Hno (ca_base c)); lia.
    + fold c. rewrite Ee. split; [intros _; split; [done|lia]|done].
  - destruct (Z.ltb_spec (start - ca_base c) (ca_size c)); cbn.
    + split; [done|]. intros [_ Hno]. exfalso. apply (Hno start); lia.
    + fold c. rewrite Ee. split; [intros _; split; [done|lia]|done].
Qed.
Lemma alias_cases g start size :
  gsv_forget_code_alias g start size = g \/
  gsv_forget_code_alias g start size =
    with_code g (mkCodeAlias (ca_base (gs_code g)) (ca_alias (gs_code g)) (ca_size (gs_code g)) false).
Proof.
  unfold gsv_forget_code_alias. destruct (_ || _); [by left|]. match goal with |- context [if ?b then with_code _ _ else _] => destruct b end; [by right|by left].
Qed.
Lemma forget_same g start size :
  let g' := gsv_forget_code_alias g start size in
  gs_memory g' = gs_memory g /\ gs_enabled g' = gs_enabled g /\ gs_pools g' = gs_pools g /\ (forall a, software g' a = software g a).
Proof. cbv zeta. by destruct (alias_cases g start size) as [-> | ->]. Qed.
Lemma forget_wf g start size : gsv_wf g -> gsv_wf (gsv_forget_code_alias g start size).
Proof. intros [Hm Hc Hs]. by destruct (alias_cases g start size) as [-> | ->]. Qed.
Lemma code_alias_wf g executable readable size :
  0 <= executable -> 0 <= readable -> 0 <= size -> gsv_wf g -> gsv_wf (gsv_code_alias g executable readable size).2.
Proof.
  intros He Hr Hs Hg. unfold gsv_code_alias. rewrite !land3 by done. destruct (_ || _) eqn:E; [done|]. bool_props.
  destruct Hg as [Hm Hc Hsig]. split; cbn; [done| |done]. intros _. split; cbn; [done|lia|lia|lia|done].
Qed.
Section fetching.
Context {H : Type} `{!Host H}.
(** Instructions are fetched through the alias only from inside it, and whole. *)
Theorem gsv_fetch_instruction_spec h g pc :
  gsv_wf g -> 0 <= pc ->
  match gsv_fetch_instruction h g pc with
  | Some i => pc mod 4 = 0 /\ software g pc = false /\
      ((exists off, pc = ca_base (gs_code g) + off /\ ca_enabled (gs_code g) = true /\ 0 <= off /\ off + 4 <= ca_size (gs_code g) /\
          i = le_value (host_bytes (v_byte h) (ca_alias (gs_code g) + off) 4)) \/
       v_read_word h pc = Some i)
  | None => pc mod 4 <> 0 \/ software g pc = true \/ v_read_word h pc = None
  end.
Proof.
  intros Hg Hpc. unfold gsv_fetch_instruction. rewrite land3 by done. destruct (Z.eqb_spec (pc mod 4) 0) as [Hal|]; cbn [negb orb]; [|by left].
  destruct (software g pc) eqn:Ew; [by right; left|].
  destruct (ca_enabled (gs_code g) && _ && _) eqn:Ea.
  - bool_props. split; [done|]. split; [done|]. left. exists (pc - ca_base (gs_code g)). split_and!; try done; lia.
  - destruct (v_read_word h pc) eqn:Er; [|by right; right]. split; [done|]. split; [done|]. by right.
Qed.
End fetching.

(** ** Mapping *)

Lemma none_outside_eligible size prot flags fd offset :
  eligible size prot flags fd offset = true -> none_outside prot 3 = true.
Proof. unfold eligible. intros H. bool_props. assumption. Qed.
Lemma software_nonzero g a : gsv_wf g -> software g a = true -> a <> 0.
Proof.
  intros Hg Hw. pose proof (software_enabled g a Hw) as He. destruct (wf_enabled g Hg He) as [s Hs].
  destruct (wf_memory g s Hg Hs) as (_ & Hsp & Hb & _). pose proof (sw_base s Hsp).
  unfold software, gsv_address in Hw. cbn in Hw. bool_props. lia.
Qed.
(** The two refusals, and a mapping that was asked for at an address or is free. *)
Lemma map_software_correct g s a size prot fixed hint allowed :
  gsv_wf g -> gs_memory g = Some s -> 0 <= a -> 0 <= size -> (allowed = true -> none_outside prot 3 = true) ->
  match map_software g a size prot fixed hint allowed with
  | (inr r, g') => exists n s', allowed = true /\ rounded size = Some n /\ g' = with_memory g (Some s') /\
      changed_space s s' MAP r n prot 3 /\ sp_base s <= r /\ r + n <= sp_end s /\
      if fixed then hint = true /\ r = a else forall x, r <= x < r + n -> sp_cell s x = None
  | (inl e, g') => g' = g /\ (e = EINVAL \/ e = ENOMEM)
  end.
Proof.
  intros Hg Hs Ha Hsize Hprot. unfold map_software.
  assert (with_memory g (Some s) = g) as Hsame by (rewrite <- Hs; apply with_memory_same).
  destruct allowed; cbn [negb]; [|by destruct hint; auto].
  pose proof (rounded_size_spec size Hsize) as Hr. destruct (rounded size) as [n|]; [|by destruct hint; auto].
  destruct Hr as (Hn & _ & Hmax & Hal). specialize (Hprot eq_refl). rewrite Hs.
  assert (space_wf s) as Hw by apply (wf_memory g s Hg Hs).
  destruct (hint && fixed) eqn:Ehf.
  - apply andb_true_iff in Ehf as [-> ->]. cbn [negb andb].
    pose proof (change_correct s a n prot 3 true MAP Hw ltac:(lia)) as Hc. fold (gm_sparse_map (Some s) a n prot 3 true) in Hc.
    destruct (gm_sparse_map (Some s) a n prot 3 true) as [r m]. cbn [fst snd].
    destruct r; try (by destruct Hc as (_ & ? & _)); try (destruct Hc as [-> Hc]; cbn -[with_memory]; case_bool_decide; [done|]; cbn -[with_memory]; rewrite ?Hsame; by auto).
    destruct Hc as (Hargs & _ & _ & s' & -> & Hch). rewrite bool_decide_eq_true_2 by done. cbn -[with_memory]. exists n, s'.
    pose proof (mapping_range_spec s a n (proj1 Hargs)). by split_and!; try lia.
  - destruct (negb hint && fixed) eqn:Enf; [by destruct hint; auto|].
    assert (fixed = false) as -> by (by destruct hint, fixed).
    pose proof (map_anywhere_spec s n prot Hw ltac:(lia) Hal Hprot) as Hm.
    destruct (map_anywhere (Some s) n prot) as [[r m] at_]. cbn [fst snd].
    destruct r; try done; cbn -[with_memory]; case_bool_decide; try done; cbn -[with_memory].
    + destruct Hm as (s' & -> & Hch & Hfree & Hb & He). by exists n, s'.
    + destruct Hm as [-> _]. rewrite Hsame. auto.
Qed.

Section mapping.
Context {H : Type} `{!Host H}.

(** what a request for memory does. A software mapping is a [MAP] of the
    rounded size in the window, at the address of a fixed request or in a range
    that was free; it is made only of eligible requests. A native one is what the
    kernel answers, or the pool reserved early. A refused request leaves the
    software memory as it was, and one for a software address never reaches the
    kernel. *)
Theorem gsv_map_spec h g s a size prot flags fd offset :
  gsv_wf g -> gs_memory g = Some s -> 0 <= a -> 0 <= size ->
  let fixed := negb (Z.land flags MAP_FIXED =? 0) in
  match gsv_map h g a size prot flags fd offset with
  | (inr r, h', g') =>
      (exists n s', eligible size prot flags fd offset = true /\ rounded size = Some n /\ gs_memory g' = Some s' /\
         changed_space s s' MAP r n prot 3 /\ gs_base g <= r /\ r + n <= gs_base g + gs_span g /\
         (software g a = true -> h' = h) /\
         if fixed then software g a = true /\ r = a else forall x, r <= x < r + n -> sp_cell s x = None) \/
      gs_memory g' = Some s /\
        (software g a = false /\ v_mmap h a size prot flags fd offset = (inr r, h') \/
         a = 0 /\ po_pending (gs_pools g) = Some r /\ po_pending (gs_pools g') = None /\
         size = po_native (gs_pools g) /\ v_mprotect h r size prot = (None, h'))
  | (inl e, h', g') => gs_memory g' = Some s /\ (software g a = true -> h' = h /\ (e = EINVAL \/ e = ENOMEM))
  end.
Proof.
  intros Hg Hs Ha Hsize fixed. unfold gsv_map. fold fixed.
  set (g0 := if fixed then gsv_forget_code_alias g a size else g).
  assert (gsv_wf g0 /\ gs_memory g0 = Some s /\ gsv_enabled g0 = true /\ gs_pools g0 = gs_pools g /\ software g0 a = software g a) as (Hg0 & Hs0 & He0 & Hp0 & Hw0).
  { pose proof (wf_memory g s Hg Hs) as (He & _). unfold g0, gsv_enabled. destruct fixed; [|by split_and!].
    destruct (forget_same g a size) as (Hm & Hen & Hp & Hw). split_and!; [by apply forget_wf|congruence|congruence|done|done]. }
  destruct (wf_memory g s Hg Hs) as (_ & _ & Hb & He).
  rewrite He0, Hp0, Hw0. cbn [negb]. set (allowed := eligible size prot flags fd offset). set (force := _ && forced _ _).
  assert (Hsoft : forall h', (software g a = true -> h' = h) -> forall r g', map_software g0 a size prot fixed (software g a) allowed = (r, g') ->
    match r with
    | inr r => exists n s', allowed = true /\ rounded size = Some n /\ gs_memory g' = Some s' /\
         changed_space s s' MAP r n prot 3 /\ gs_base g <= r /\ r + n <= gs_base g + gs_span g /\
         (software g a = true -> h' = h) /\
         if fixed then software g a = true /\ r = a else forall x, r <= x < r + n -> sp_cell s x = None
    | inl e => gs_memory g' = Some s /\ (e = EINVAL \/ e = ENOMEM)
    end).
  { intros h' Hh r g' E. pose proof (map_software_correct g0 s a size prot fixed (software g a) allowed Hg0 Hs0 Ha Hsize) as Hm.
    rewrite E in Hm. specialize (Hm (none_outside_eligible _ _ _ _ _)). destruct r as [e|r].
    - by destruct Hm as [-> Hm].
    - destruct Hm as (n & s' & ? & ? & -> & ? & ? & ? & ?). exists n, s'. by split_and!; try lia. }
  match goal with |- context [if ?b then take_pending h g0 size prot else None] => destruct (if b then take_pending h g0 size prot else None) as [[[r h'] g']|] eqn:Eearly end.
  { match type of Eearly with (if ?b then _ else _) = _ => destruct b eqn:Ec end; [|done]. bool_props. unfold take_pending in Eearly. rewrite Hp0 in Eearly.
    destruct (po_pending (gs_pools g)) as [reserved|] eqn:Ep; cbn in Eearly; [|done].
    destruct (v_mprotect h reserved size prot) as [[e|] h2] eqn:Epr; cbn in Eearly; simplify_eq; cbn.
    - split; [done|]. intros Hw. by destruct (software_nonzero g 0 Hg Hw).
    - right. split; [done|]. right. by split_and!; try lia. }
  destruct (software g a) eqn:Ew; cbn [negb andb].
  { specialize (Hsoft h ltac:(done)). destruct (map_software _ _ _ _ _ _ _) as [r g']. specialize (Hsoft r g' eq_refl). destruct r; [by destruct Hsoft|by left]. }
  destruct force; cbn [negb].
  { specialize (Hsoft h ltac:(done)). destruct (map_software _ _ _ _ _ _ _) as [r g']. specialize (Hsoft r g' eq_refl). destruct r; [by destruct Hsoft|by left]. }
  destruct (v_mmap h a size prot flags fd offset) as [[e|r] h'] eqn:Em; cbn.
  2: { right. split; [done|]. by left. }
  match goal with |- context [if ?b then (inl e, h', g0) else _] => destruct b end; [done|].
  specialize (Hsoft h' ltac:(done)). destruct (map_software _ _ _ _ _ _ _) as [r g']. specialize (Hsoft r g' eq_refl). destruct r; [by destruct Hsoft|by left].
Qed.
End mapping.

(** ** Changing and advising *)

Definition vm_error (e : Z) : Prop := e = EINVAL \/ e = ENOMEM \/ e = EACCES.
(** What remains after a range is forgotten. *)
Lemma forget_live g g0 a size :
  g0 = g \/ g0 = gsv_forget_code_alias g a size -> gsv_wf g ->
  gsv_wf g0 /\ gs_memory g0 = gs_memory g /\ (forall x, software g0 x = software g x).
Proof.
  intros [->| ->] Hg; [done|]. destruct (forget_same g a size) as (? & _ & _ & ?). split_and!; [by apply forget_wf|done|done].
Qed.
Lemma forget_gone g a size :
  gsv_wf g -> 0 <= size -> ca_enabled (gs_code (gsv_forget_code_alias g a size)) = true ->
  forall x, a <= x < a + size -> ~ code_range (gs_code g) x.
Proof.
  intros Hg Hsize He. assert (ca_enabled (gs_code g) = true) as Hen.
  { by destruct (alias_cases g a size) as [E|E]; rewrite E in He. }
  pose proof (co_size _ _ (gw_code g Hg Hen)). apply forget_enabled in He; [apply He|done|lia].
Qed.
(** The end of the calls that change the mappings of software addresses. *)
Lemma changed_correct g s a size prot maxprot op :
  gsv_wf g -> gs_memory g = Some s -> 0 <= size ->
  match rounded size with
  | Some n =>
    let '(result, m) := change (Some s) a n prot maxprot false op in
    if bool_decide (result = GM_OK)
    then exists s', with_memory g m = with_memory g (Some s') /\ changed_space s s' op a n prot maxprot /\
      (op = PROTECT -> forall x, a <= x < a + n -> exists c, sp_cell s x = Some c /\ none_outside prot (c_maxprot c) = true)
    else with_memory g m = g /\ vm_error (error_code result)
  | None => True
  end.
Proof.
  intros Hg Hs Hsize. pose proof (rounded_size_spec size Hsize) as Hr. destruct (rounded size) as [n|]; [|done].
  pose proof (change_correct s a n prot maxprot false op ltac:(apply (wf_memory g s Hg Hs)) ltac:(lia)) as Hc.
  assert (with_memory g (Some s) = g) as Hsame by (rewrite <- Hs; apply with_memory_same).
  destruct (change _ _ _ _ _ _ _) as [r m]. case_bool_decide as Hok.
  - subst r. destruct Hc as (_ & _ & Hp & s' & -> & Hch). by exists s'.
  - destruct r; try done; destruct Hc as [-> _]; (split; [done|]); unfold vm_error; cbn; auto.
Qed.

Section changing.
Context {H : Type} `{!Host H}.

(** removing memory. In the window the pages of the range, rounded up, are
    unmapped, and nothing else; outside it the kernel is asked, and the software
    memory stays. A refused call changes nothing. *)
Theorem gsv_unmap_spec h g s a size :
  gsv_wf g -> gs_memory g = Some s -> 0 <= a -> 0 <= size ->
  let '(r, h', g') := gsv_unmap h g a size in
  if software g a then
    h' = h /\
    match r with
    | inr _ => exists n s', rounded size = Some n /\ gs_memory g' = Some s' /\ changed_space s s' UNMAP a n 0 0
    | inl e => gs_memory g' = Some s /\ vm_error e
    end
  else gs_memory g' = Some s /\ exists e, v_munmap h a size = (e, h') /\ r = status e.
Proof.
  intros Hg Hs Ha Hsize. unfold gsv_unmap. set (g0 := gsv_forget_code_alias g a size).
  destruct (forget_live g g0 a size ltac:(by right) Hg) as (Hg0 & Hm0 & Hw0). rewrite Hs in Hm0. rewrite Hw0.
  destruct (software g a); cbn [negb]; [|destruct (v_munmap h a size) as [e h'] eqn:Em; split; [done|by exists e]].
  pose proof (changed_correct g0 s a size 0 0 UNMAP Hg0 Hm0 Hsize) as Hc. unfold gm_sparse_unmap. rewrite Hm0.
  destruct (rounded size) as [n|]; [|split; [done|split; [done|by left]]].
  destruct (change _ _ _ _ _ _ _) as [r m]. case_bool_decide; cbn [negb].
  - destruct Hc as (s' & -> & Hch & _). split; [done|]. by exists n, s'.
  - by destruct Hc as [-> He].
Qed.
(** changing permissions. In the window the pages of the range get the
    permission, within what their mapping allows, and keep their bytes; execution
    is refused. *)
Theorem gsv_protect_spec h g s a size prot :
  gsv_wf g -> gs_memory g = Some s -> 0 <= a -> 0 <= size ->
  let '(r, h', g') := gsv_protect h g a size prot in
  if software g a then
    h' = h /\
    match r with
    | inr _ => none_outside prot 3 = true /\ exists n s', rounded size = Some n /\ gs_memory g' = Some s' /\
        changed_space s s' PROTECT a n prot 7 /\
        forall x, a <= x < a + n -> exists c, sp_cell s x = Some c /\ none_outside prot (c_maxprot c) = true
    | inl e => gs_memory g' = Some s /\ vm_error e
    end
  else gs_memory g' = Some s /\ exists e, v_mprotect h a size prot = (e, h') /\ r = status e.
Proof.
  intros Hg Hs Ha Hsize. unfold gsv_protect. set (g0 := if _ =? 0 then _ else g).
  destruct (forget_live g g0 a size ltac:(unfold g0; destruct (_ =? _); auto) Hg) as (Hg0 & Hm0 & Hw0). rewrite Hs in Hm0. rewrite Hw0.
  destruct (software g a); cbn [negb]; [|destruct (v_mprotect h a size prot) as [e h'] eqn:Em; split; [done|by exists e]].
  pose proof (changed_correct g0 s a size prot 7 PROTECT Hg0 Hm0 Hsize) as Hc. unfold gm_sparse_protect. rewrite Hm0.
  destruct (rounded size) as [n|]; [|split; [done|split; [done|by left]]].
  destruct (none_outside prot _) eqn:Ep; cbn [negb]; [|split; [done|split; [done|by left]]].
  destruct (change _ _ _ _ _ _ _) as [r m]. case_bool_decide; cbn [negb].
  - destruct Hc as (s' & -> & Hch & Hall). split; [done|]. split; [done|]. exists n, s'. by split_and!; auto.
  - by destruct Hc as [-> He].
Qed.
(** Advice is checked and never taken: the state is the same, and a range in the
    window is accepted when it is mapped. *)
Theorem gsv_advise_spec h g s a size advice :
  gsv_wf g -> gs_memory g = Some s -> 0 <= size ->
  let '(r, h', g') := gsv_advise h g a size advice in
  g' = g /\
  if software g a
  then h' = h /\ (r = inr tt <-> known_advice advice = true /\ granted s a size 0)
  else exists e, v_madvise h a size advice = (e, h') /\ r = status e.
Proof.
  intros Hg Hs Hsize. unfold gsv_advise.
  destruct (software g a); cbn [negb]; [|destruct (v_madvise h a size advice) as [e h'] eqn:Em; split; [done|by exists e]].
  destruct (known_advice advice); cbn [negb]; [|split; [done|]; split; [done|]; split; [done|by intros [? _]]].
  assert (with_memory g (Some s) = g) as Hsame by (rewrite <- Hs; apply with_memory_same).
  unfold gm_sparse_prepare. rewrite Hs. change (none_outside 0 (Z.lor GM_READ GM_WRITE)) with true. cbn [negb].
  rewrite Z.land_0_l, Z.eqb_refl, orb_true_r.
  pose proof (check_access_spec s a size 0 ltac:(apply (wf_memory g s Hg Hs)) Hsize) as Hc. cbv zeta in Hc.
  destruct (decide (check_access s a size 0 = GM_OK)) as [Hok|Hno]; [rewrite bool_decide_eq_true_2 by done|rewrite bool_decide_eq_false_2 by done];
    cbn [negb]; (split; [done|]); (split; [done|]).
  - split; [auto|done].
  - split; [done|]. intros [_ Hgr]. exfalso. by apply (refusal_not_granted s a size 0 _ Hc).
Qed.
Lemma map_software_code g a size prot fixed hint allowed : gs_code (map_software g a size prot fixed hint allowed).2 = gs_code g.
Proof. unfold map_software. repeat case_match; by simplify_eq/=. Qed.
Lemma map_software_answer g a size prot fixed hint allowed r g' :
  map_software g a size prot fixed hint allowed = (r, g') -> gs_code g' = gs_code g.
Proof. intros E. by rewrite <- (map_software_code g a size prot fixed hint allowed), E. Qed.
Lemma take_pending_code h g size prot :
  match take_pending h g size prot with Some out => gs_code out.2 = gs_code g | None => True end.
Proof. unfold take_pending. destruct (po_pending _); cbn; [|done]. by destruct (v_mprotect _ _ _ _) as [[?|] ?]. Qed.
Lemma gsv_map_code h g a size prot flags fd offset :
  gs_code (gsv_map h g a size prot flags fd offset).2 =
    gs_code (if negb (Z.land flags MAP_FIXED =? 0) then gsv_forget_code_alias g a size else g).
Proof.
  unfold gsv_map. set (g0 := if negb (Z.land flags MAP_FIXED =? 0) then gsv_forget_code_alias g a size else g).
  destruct (gsv_enabled g0); cbn [negb]; [|by destruct (v_mmap _ _ _ _ _ _ _)].
  match goal with |- context [if ?b then take_pending _ _ _ _ else None] => destruct b end.
  - pose proof (take_pending_code h g0 size prot) as Hearly. destruct (take_pending h g0 size prot) as [out|]; [done|].
    repeat case_match; simplify_eq/=; try done; eauto using map_software_answer.
  - repeat case_match; simplify_eq/=; try done; eauto using map_software_answer.
Qed.
(** instructions are not fetched through the alias after their code is gone: a
    range that is unmapped, replaced by a fixed mapping, or made unreadable is
    forgotten, whatever the answer, if it meets the alias. *)
Theorem code_alias_forgotten h g a size prot flags fd offset :
  gsv_wf g -> 0 <= size ->
  let clear g' := ca_enabled (gs_code g') = true -> forall x, a <= x < a + size -> ~ code_range (gs_code g) x in
  clear (gsv_unmap h g a size).2 /\
  (Z.land flags MAP_FIXED <> 0 -> clear (gsv_map h g a size prot flags fd offset).2) /\
  (Z.land prot PROT_READ = 0 -> clear (gsv_protect h g a size prot).2).
Proof.
  intros Hg Hsize clear.
  assert (Hkeep : forall g', gs_code g' = gs_code (gsv_forget_code_alias g a size) -> clear g').
  { intros g' E Hen. rewrite E in Hen. by apply (forget_gone g a size Hg Hsize). }
  split_and!.
  - apply Hkeep. unfold gsv_unmap. set (g0 := gsv_forget_code_alias g a size). repeat case_match; by simplify_eq/=.
  - intros Hf. apply Hkeep. rewrite gsv_map_code. by apply Z.eqb_neq in Hf as ->.
  - intros Hp. apply Hkeep. unfold gsv_protect. rewrite Hp. cbn. set (g0 := gsv_forget_code_alias g a size). repeat case_match; by simplify_eq/=.
Qed.
End changing.

(** ** Signals as the application sees them *)

(** The abstract state is the two dispositions a kernel would keep for the
    application. *)
Record Dispositions := mkDispositions { di_segv : Action; di_bus : Action }.
Definition disposition (d : Dispositions) (i : bool) : Action := if i then di_bus d else di_segv d.
Definition set_disposition (d : Dispositions) (i : bool) (a : Action) : Dispositions :=
  if i then mkDispositions (di_segv d) a else mkDispositions a (di_bus d).
Definition dispositions (s : Signals) : Dispositions := mkDispositions (referred s false) (referred s true).
Definition signal_number (i : bool) : Z := if i then SIGBUS else SIGSEGV.
Definition one_shot (a : Action) : bool := negb (Z.land (sa_flags a) SA_RESETHAND =? 0).
Definition delivery (a : Action) : Delivery :=
  match sa_handler a with
  | SIG_IGN => Ignored
  | SIG_DFL => Raised
  | CALL f => Called f (negb (Z.land (sa_flags a) SA_SIGINFO =? 0))
  end.
Inductive SignalEvent := Asks (i : bool) (action : option Action) | Arrives (i : bool) (fault_address : option Z) (u : UContext).
Inductive Observation := Answered (r : Z + Action) | Delivered (d : Delivery).
(** A signal is an access to the window [base, base + span): a data abort there,
    by an instruction outside of it. *)
Definition window_access (base span : Z) (fault_address : option Z) (u : UContext) : Prop :=
  exists a, fault_address = Some a /\ base <= a < base + span /\ Z.shiftr (uc_esr u) 26 = 0x24 /\
    uc_pc u mod 4 = 0 /\ ~ base <= uc_pc u < base + span.
(** A request is answered with the old disposition and sets the new one, or is
    refused and changes nothing; a signal is delivered by the disposition, which a
    one-shot action resets, and only an access to the window may go unseen. *)
Section spec.
Context (base span : Z).
Inductive signal_spec (d : Dispositions) : SignalEvent -> Observation -> Dispositions -> Prop :=
| ss_query i : signal_spec d (Asks i None) (Answered (inr (disposition d i))) d
| ss_set i a : signal_spec d (Asks i (Some a)) (Answered (inr (disposition d i))) (set_disposition d i a)
| ss_refused i a e : signal_spec d (Asks i (Some a)) (Answered (inl e)) d
| ss_hidden i fa u u' : window_access base span fa u -> signal_spec d (Arrives i fa u) (Delivered (Resumed u')) d
| ss_delivered i fa u : signal_spec d (Arrives i fa u) (Delivered (delivery (disposition d i)))
    (if one_shot (disposition d i) then set_disposition d i default_action else d).
Inductive signal_trace : Dispositions -> list SignalEvent -> list Observation -> Dispositions -> Prop :=
| sl_nil d : signal_trace d [] [] d
| sl_cons d1 d2 d3 ev o evs os : signal_spec d1 ev o d2 -> signal_trace d2 evs os d3 -> signal_trace d1 (ev :: evs) (o :: os) d3.
End spec.

Lemma referred_added s a i :
  signals_ok s -> referred (mkSignals (sg_original s) (sg_actions s ++ [a]) (sg_current s)) i = referred s i.
Proof.
  intros Hs. unfold referred. cbn. destruct (sg_current s i) as [|n] eqn:E; [done|]. by rewrite lookup_app_l by eauto using so_slot.
Qed.
Lemma referred_current s i r j :
  referred (with_current s i r) j =
    if eqb j i then match r with Original => sg_original s j | Slot n => default default_action (sg_actions s !! n) end else referred s j.
Proof. unfold referred, with_current, update. cbn. by destruct (eqb j i). Qed.
Lemma signals_added s a : signals_ok s -> (length (sg_actions s) < ACTION_LIMIT)%nat ->
  signals_ok (mkSignals (sg_original s) (sg_actions s ++ [a]) (sg_current s)).
Proof.
  intros [Hd Hl Hs] Hlt. split; cbn.
  - by apply lookup_app_l_Some.
  - rewrite length_app. cbn. lia.
  - intros i n E. rewrite length_app. specialize (Hs i n E). lia.
Qed.
Lemma signals_current s i n : signals_ok s -> (n < length (sg_actions s))%nat -> signals_ok (with_current s i (Slot n)).
Proof.
  intros [Hd Hl Hs] Hn. split; cbn; [done|done|]. intros j k. unfold update. destruct (eqb j i); [by intros [= <-]|apply Hs].
Qed.
Lemma signal_index i : (signal_number i =? SIGBUS) = i.
Proof. by destruct i. Qed.

Section signals.
Context {H : Type} `{!Host H}.
Lemma gsv_sigaction_correct h g i action :
  gs_enabled g = true -> signals_ok (gs_signals g) ->
  let '(r, h', g') := gsv_sigaction h g (signal_number i) action in
  let d := dispositions (gs_signals g) in
  g' = with_signals g (gs_signals g') /\ signals_ok (gs_signals g') /\
  (length (sg_actions (gs_signals g')) <= S (length (sg_actions (gs_signals g))))%nat /\
  match r, action with
  | inr old, None => old = disposition d i /\ g' = g /\ h' = h
  | inr old, Some a => old = disposition d i /\ dispositions (gs_signals g') = set_disposition d i a /\
      h' = (v_sigaction h (signal_number i) (Some (installed a))).2
  | inl e, None => False
  | inl e, Some a => dispositions (gs_signals g') = d /\
      (length (sg_actions (gs_signals g)) = ACTION_LIMIT /\ e = ENOMEM /\ h' = h \/
       v_sigaction h (signal_number i) (Some (installed a)) = (inl e, h'))
  end.
Proof.
  intros He Hs. unfold gsv_sigaction, gsv_enabled. rewrite He.
  assert (negb (signal_number i =? SIGSEGV) && negb (signal_number i =? SIGBUS) = false) as -> by (by destruct i). cbn [negb orb].
  rewrite signal_index. set (s := gs_signals g) in *.
  assert (with_signals g s = g) as Hsame by (by destruct g).
  assert (referred s i = disposition (dispositions s) i) as Hold by (by destruct i).
  destruct action as [a|]; [|by split_and!; auto; lia].
  destruct (Nat.eqb_spec (length (sg_actions s)) ACTION_LIMIT) as [Hfull|Hroom].
  { split_and!; auto; lia. }
  pose proof (so_limit s Hs) as Hlimit. pose proof (signals_added s a Hs ltac:(lia)) as Hadded.
  set (added := mkSignals (sg_original s) (sg_actions s ++ [a]) (sg_current s)) in *.
  assert (Hlen : length (sg_actions added) = S (length (sg_actions s))) by (cbn; rewrite length_app; cbn; lia).
  assert (Hd : forall j, referred added j = referred s j) by (intros j; by apply referred_added).
  destruct (v_sigaction h (signal_number i) (Some (installed a))) as [[e|old] h'] eqn:Ek; cbn [gs_signals with_signals].
  - split_and!; [done|done|lia| |by right]. unfold dispositions. by rewrite !Hd.
  - split_and!; [done|apply signals_current; [done|lia]|cbn [with_current sg_actions]; lia|done| |done].
    unfold dispositions. rewrite !referred_current, !Hd. cbn [sg_actions added].
    rewrite lookup_app_r, Nat.sub_diag by lia. by destruct i.
Qed.
Lemma handle_fault_signals h g fa u :
  let '(_, g', _) := handle_fault h g fa u in gs_signals g' = gs_signals g /\ window g' = window g.
Proof.
  unfold handle_fault. destruct fa as [a|]; [|done]. destruct (negb (software g a)); [done|]. destruct (negb _); [done|].
  destruct (_ || _); [done|]. destruct (gsv_fetch_instruction _ _ _); [|done]. destruct (emulate _ _ _ _ _) as [[[r m] rs] nzcv].
  by destruct (negb _).
Qed.
Lemma handle_fault_access h g fa u :
  gs_enabled g = true -> (handle_fault h g fa u).1.1 = true -> window_access (gs_base g) (gs_span g) fa u.
Proof.
  intros He. assert (forall x, software g x = true <-> gs_base g <= x < gs_base g + gs_span g) as Hw.
  { intros x. unfold software, gsv_address. cbn. rewrite He. cbn [andb]. rewrite andb_true_iff, Z.leb_le, Z.ltb_lt. lia. }
  unfold handle_fault. destruct fa as [a|]; [|done]. destruct (software g a) eqn:Ea; cbn [negb]; [|done].
  destruct (Z.eqb_spec (Z.shiftr (uc_esr u) 26) 0x24) as [Hesr|]; cbn [negb]; [|done].
  destruct (_ || _) eqn:Epc; [done|]. intros _. apply orb_false_iff in Epc as [Halign Hpc]. exists a. split; [done|].
  split; [by apply Hw|]. split; [done|]. split; [|by rewrite <- Hw, Hpc].
  apply negb_false_iff, Z.eqb_eq in Halign. change 3 with (2 ^ 2 - 1) in Halign. by rewrite land_mask in Halign.
Qed.
Lemma dispatch_signal_correct h g i fa u :
  gs_enabled g = true -> signals_ok (gs_signals g) ->
  let '(d, h', g') := dispatch_signal h g (signal_number i) fa u in
  window g' = window g /\ signals_ok (gs_signals g') /\
  length (sg_actions (gs_signals g')) = length (sg_actions (gs_signals g)) /\
  signal_spec (gs_base g) (gs_span g) (dispositions (gs_signals g)) (Arrives i fa u) (Delivered d) (dispositions (gs_signals g')).
Proof.
  intros He Hs. unfold dispatch_signal. pose proof (handle_fault_signals h g fa u) as Hf. pose proof (handle_fault_access h g fa u He) as Ha.
  destruct (handle_fault h g fa u) as [[handled g1] u1]. destruct Hf as [Hsig Hen].
  destruct handled; [rewrite Hsig; split_and!; auto; by apply ss_hidden, Ha|].
  rewrite signal_index, Hsig. set (s := gs_signals g) in *.
  assert (referred s i = disposition (dispositions s) i) as -> by (by destruct i). set (a := disposition (dispositions s) i).
  assert (Hreset : dispositions (with_current s i (Slot 0)) = set_disposition (dispositions s) i default_action).
  { unfold dispositions. rewrite !referred_current, (so_default s Hs). by destruct i. }
  pose proof (signals_current s i 0 Hs (lookup_lt_Some _ _ _ (so_default s Hs))) as Hok.
  change (negb (Z.land (sa_flags a) SA_RESETHAND =? 0)) with (one_shot a).
  pose proof (ss_delivered (gs_base g) (gs_span g) (dispositions s) i fa u) as Hspec. fold a in Hspec. unfold delivery in Hspec. fold a.
  destruct (one_shot a); destruct (sa_handler a); cbn [gs_enabled gs_signals with_signals]; rewrite ?Hsig, ?Hreset; by split_and!.
Qed.
Definition signal_step (h : H) (g : GSV) (ev : SignalEvent) : Observation * H * GSV :=
  match ev with
  | Asks i action => let '(r, h, g) := gsv_sigaction h g (signal_number i) action in (Answered r, h, g)
  | Arrives i fa u => let '(d, h, g) := dispatch_signal h g (signal_number i) fa u in (Delivered d, h, g)
  end.
Fixpoint run_signals (h : H) (g : GSV) (evs : list SignalEvent) : list Observation * H * GSV :=
  match evs with
  | [] => ([], h, g)
  | ev :: evs => let '(o, h, g) := signal_step h g ev in let '(os, h, g) := run_signals h g evs in (o :: os, h, g)
  end.
Definition answered (o : Observation) : Prop := match o with Answered (inl _) => False | _ => True end.
Lemma signal_step_correct h g ev :
  gs_enabled g = true -> signals_ok (gs_signals g) ->
  let '(o, h', g') := signal_step h g ev in
  window g' = window g /\ signals_ok (gs_signals g') /\
  (length (sg_actions (gs_signals g')) <= S (length (sg_actions (gs_signals g))))%nat /\
  signal_spec (gs_base g) (gs_span g) (dispositions (gs_signals g)) ev o (dispositions (gs_signals g')) /\
  ((forall h n a, exists x, (v_sigaction h n a).1 = inr x) -> (length (sg_actions (gs_signals g)) < ACTION_LIMIT)%nat -> answered o).
Proof.
  intros He Hs. destruct ev as [i action|i fa u]; cbn.
  - pose proof (gsv_sigaction_correct h g i action He Hs) as Hc. destruct (gsv_sigaction _ _ _ _) as [[r h'] g'].
    destruct Hc as (Hg' & Hok & Hlen & Hc).
    split_and!; [by rewrite Hg'|done|done| |].
    + destruct r as [e|old], action as [a|]; [destruct Hc as [-> _]; constructor|done| |].
      * destruct Hc as (-> & -> & _). constructor.
      * destruct Hc as (-> & -> & _). constructor.
    + intros Hkernel Hroom. destruct r as [e|old]; [|done]. destruct action as [a|]; [|done].
      destruct Hc as (_ & [(? & _)|Hk]); [lia|]. destruct (Hkernel h (signal_number i) (Some (installed a))) as [x Hx]. by rewrite Hk in Hx.
  - pose proof (dispatch_signal_correct h g i fa u He Hs) as Hc. destruct (dispatch_signal _ _ _ _ _) as [[d h'] g'].
    destruct Hc as (Hen & Hok & Hlen & Hspec). split_and!; try done. lia.
Qed.
End signals.

(** ** Faults *)

(** What is relied on of the kernel: the words and bytes it reads are such, and a
    range it finds is at an address. *)
Class HostLaws (H : Type) `{!Host H} := {
  law_word (h : H) pc i : v_read_word h pc = Some i -> u32_ok i;
  law_host_byte (h : H) x : byte_ok (v_byte h x);
  law_mmap (h : H) a size prot flags fd offset r h' : v_mmap h a size prot flags fd offset = (inr r, h') -> u64_ok r
}.
(** An interrupted thread's registers. *)
Record context_ok (u : UContext) : Prop := {
  cx_x : length (uc_x u) = 29%nat /\ Forall u64_ok (uc_x u);
  cx_frame : u64_ok (uc_fp u) /\ u64_ok (uc_lr u);
  cx_sp : u64_ok (uc_sp u) /\ u64_ok (uc_pc u);
  cx_cpsr : u32_ok (uc_cpsr u);
  cx_v : length (uc_v u) = 32%nat /\ Forall vector_ok (uc_v u)
}.
Lemma registers_of_ok u : context_ok u -> mregs_ok (registers_of u).
Proof.
  intros [[Hl Hx] [Hf Hlr] [Hsp Hpc] _ [Hvl Hv]]. split; cbn; try done.
  - by rewrite length_app, length_take, Hl.
  - apply Forall_app_2; [by apply Forall_take|]. constructor; [done|]. by constructor; [|constructor].
Qed.
Lemma condition_flags cpsr nzcv :
  0 <= cpsr ->
  Z.lor (Z.land cpsr 0x0fffffff) (w32 (Z.shiftl nzcv 28)) = cpsr mod 2 ^ 28 + nzcv mod 16 * 2 ^ 28.
Proof.
  intros Hc. change 0x0fffffff with (2 ^ 28 - 1). rewrite land_mask by lia.
  assert (w32 (Z.shiftl nzcv 28) = nzcv mod 16 * 2 ^ 28) as ->.
  { unfold w32. rewrite Z.shiftl_mul_pow2 by lia. change (2 ^ 32) with (16 * 2 ^ 28). by rewrite Z.mul_mod_distr_r. }
  apply lor_high; [lia|]. by apply Z.mod_pos_bound.
Qed.
Lemma context_with_ok u r nzcv :
  context_ok u -> mregs_ok r -> context_ok (context_with u r nzcv).
Proof.
  intros [[Hl Hx] [Hf Hlr] [Hsp Hpc] Hc [Hvl Hv]] [Hrl Hrx Hrsp Hrpc Hrvl Hrv].
  assert (Hnth : forall k, u64_ok (default 0 (mr_x r !! k))).
  { intros k. destruct (mr_x r !! k) eqn:E; cbn; [|by split]. by eapply Forall_lookup_1 in Hrx. }
  split; cbn; try by split.
  - split; [rewrite length_take; lia|by apply Forall_take].
  - rewrite condition_flags by (unfold u32_ok in Hc; lia). unfold u32_ok.
    pose proof (Z.mod_pos_bound (uc_cpsr u) (2 ^ 28)). pose proof (Z.mod_pos_bound nzcv 16). lia.
Qed.

Section faults.
Context {H : Type} `{!Host H, !HostLaws H}.

Lemma fetched_word h g pc i : gsv_fetch_instruction h g pc = Some i -> u32_ok i.
Proof.
  unfold gsv_fetch_instruction. destruct (_ || _); [done|]. destruct (_ && _ && _); [|apply law_word].
  intros [= <-]. pose proof (le_value_range (host_bytes (v_byte h) (ca_alias (gs_code g) + (pc - ca_base (gs_code g))) 4)) as Hr.
  rewrite length_host_bytes in Hr. apply Hr, host_bytes_ok. apply law_host_byte.
Qed.
(** The instruction keeps the memory in its place; one that does not retire
    changed nothing, unless its sequence has a CASL or CASAL of the zero register
    (GuestExclusive). *)
Lemma emulate_correct base stop h g i r nzcv :
  u32_ok i -> placed base stop (gs_memory g) -> mregs_ok r ->
  let '(result, m, r', _) := emulate h g i r nzcv in
  placed base stop m /\ mregs_ok r' /\
  if decide (result = GM_STEP_OK) then gm_exclusive_instruction i = true \/ mr_pc r' = w64 (mr_pc r + 4)
  else (forall pc j, gsv_fetch_instruction h g pc = Some j -> ordered_cas j = false) -> m = gs_memory g.
Proof.
  intros Hi Hm Hr. unfold emulate. destruct (gm_exclusive_instruction i) eqn:Hex.
  - unfold gm_exclusive_sequence. rewrite Hex. cbn [negb].
    set (state := mkRegisters (mr_x r) (mr_sp r) (mr_pc r) nzcv). assert (regs_ok state) as Hst by (by destruct Hr).
    destruct (_ <? r_pc state); [cbn; by rewrite bool_decide_eq_false_2|].
    pose proof (sequence_loop_ok (H0 := placed_laws base stop) 32 (gsv_fetch_instruction h g) (r_pc state) (gs_memory g) i state no_monitor state GM_OK
      Hi (fetched_word h g) Hm Hst Hst) as Hok.
    pose proof (sequence_loop_post (H0 := placed_laws base stop) 32 (gsv_fetch_instruction h g) (r_pc state) (gs_memory g) i state no_monitor state GM_OK
      Hi (exclusive_not_ordered i Hex)) as Hpost.
    destruct (sequence_loop _ _ _ _ _ _ _ _ _) as [[[result m'] state'] f']. destruct Hok as [Hm' Hst'].
    cbn [default from_option id]. case_bool_decide as Hres.
    + rewrite decide_True by done. split_and!; [done| |by left]. destruct Hr, Hst'. by split.
    + rewrite decide_False by done. split_and!; [done|done|]. intros Hno.
      rewrite decide_False in Hpost by done. apply Hpost; [|done|done]. intros pc j Hj. split; [by eapply fetched_word|by eapply Hno].
  - cbn [gm_memory_step]. pose proof (memory_step_post (H0 := placed_laws base stop) (gs_memory g) i r GM_OK Hi Hm Hr) as Hpost.
    destruct (memory_step (gs_memory g) i r GM_OK) as [[[result m'] r'] f']. unfold step_post in Hpost. cbn [default from_option id].
    destruct (decide (result = GM_STEP_OK)).
    + destruct Hpost as (Hm' & Hr' & Hpc & _). split_and!; [done|done|by right].
    + destruct Hpost as (-> & -> & _). by split_and!.
Qed.
End faults.

Lemma wf_placed g : gsv_wf g -> gs_enabled g = true -> placed (gs_base g) (gs_base g + gs_span g) (gs_memory g).
Proof.
  intros Hg He. destruct (wf_enabled g Hg He) as [s Hs]. destruct (wf_memory g s Hg Hs) as (_ & ? & ? & ?). rewrite Hs. by exists s.
Qed.
Lemma placed_wf g m :
  gsv_wf g -> gs_enabled g = true -> placed (gs_base g) (gs_base g + gs_span g) m -> gsv_wf (with_memory g m).
Proof.
  intros Hg He (s' & -> & Hs' & Hb & Hend). destruct (wf_enabled g Hg He) as [s Hs]. destruct (wf_memory g s Hg Hs) as (_ & _ & ? & ?).
  by apply (wf_with_memory g s); [..|congruence|congruence].
Qed.
Lemma registers_round u r nzcv : mregs_ok r -> registers_of (context_with u r nzcv) = r.
Proof.
  intros Hr. destruct r as [x sp pc v]. pose proof (mo_length _ Hr) as Hl. cbn [mr_x] in Hl. unfold registers_of, context_with.
  cbn [uc_x uc_fp uc_lr uc_sp uc_pc uc_v mr_x mr_sp mr_pc mr_vector]. f_equal. rewrite take_take, Nat.min_id.
  assert (drop 29 x = [default 0 (x !! 29%nat); default 0 (x !! 30%nat)]) as <-; [|apply take_drop].
  apply (list_eq_same_length _ _ 2%nat); [done|rewrite length_drop; lia|].
  intros k a b Hk. rewrite lookup_drop. destruct k as [|[|k]]; [intros Ha [= <-]; cbn in Ha; by rewrite Ha..|lia].
Qed.

Section handler.
Context {H : Type} `{!Host H, !HostLaws H}.

Lemma handle_fault_ok h g fault_address u :
  gsv_wf g -> context_ok u ->
  let '(_, g', u') := handle_fault h g fault_address u in gsv_wf g' /\ context_ok u'.
Proof.
  intros Hg Hu. unfold handle_fault. destruct fault_address as [a|]; [|done].
  destruct (software g a) eqn:Ea; cbn [negb]; [|done]. pose proof (software_enabled g a Ea) as He.
  destruct (negb _); [done|]. destruct (_ || _); [done|]. destruct (gsv_fetch_instruction h g (uc_pc u)) as [i|] eqn:Ei; [|done].
  set (nzcv := Z.land (Z.shiftr (uc_cpsr u) 28) 15).
  pose proof (emulate_correct (gs_base g) (gs_base g + gs_span g) h g i (registers_of u) nzcv
    (fetched_word h g _ i Ei) (wf_placed g Hg He) (registers_of_ok u Hu)) as Hem.
  destruct (emulate h g i (registers_of u) nzcv) as [[[result m] r] nzcv']. destruct Hem as (Hm & Hr & _).
  pose proof (placed_wf g m Hg He Hm) as Hg'. destruct (negb _); [done|]. split; [by destruct Hg'; split|by apply context_with_ok].
Qed.
End handler.

(** ** Every state the calls reach is well formed *)

Lemma with_memory_wf_changed g s s' op a n prot maxprot :
  gsv_wf g -> gs_memory g = Some s -> changed_space s s' op a n prot maxprot -> gsv_wf (with_memory g (Some s')).
Proof. intros Hg Hs [Hw Hb He _ _ _ _ _]. by apply (wf_with_memory g s). Qed.
Lemma wf_with_signals g s : gsv_wf g -> (gs_enabled g = true -> signals_ok s) -> gsv_wf (with_signals g s).
Proof. by intros [] ?. Qed.
(** A runtime that was not started, or was stopped. *)
Lemma wf_stopped g :
  gsv_wf g -> gs_enabled g = false -> gs_memory g = None /\ ca_enabled (gs_code g) = false.
Proof.
  intros [Hm Hc _] He. destruct (gs_memory g); [destruct Hm; congruence|]. split; [done|].
  destruct (ca_enabled (gs_code g)); [|done]. destruct (co_enabled _ _ (Hc eq_refl)). cbn in *. congruence.
Qed.
Lemma stopped_wf g : gs_memory g = None -> gs_enabled g = false -> ca_enabled (gs_code g) = false -> gsv_wf g.
Proof. intros Hm He Hc. split; [by rewrite Hm|congruence|congruence]. Qed.

Section reachable.
Context {H : Type} `{!Host H, !HostLaws H}.

Lemma map_software_wf g a size prot fixed hint allowed r g' :
  gsv_wf g -> gs_enabled g = true -> 0 <= a -> 0 <= size -> (allowed = true -> none_outside prot 3 = true) ->
  map_software g a size prot fixed hint allowed = (r, g') -> gsv_wf g'.
Proof.
  intros Hg He Ha Hsize Hp E. destruct (wf_enabled g Hg He) as [s Hs].
  pose proof (map_software_correct g s a size prot fixed hint allowed Hg Hs Ha Hsize Hp) as Hm. rewrite E in Hm. destruct r.
  - by destruct Hm as [-> _].
  - destruct Hm as (n & s' & _ & _ & -> & Hch & _). by eapply with_memory_wf_changed.
Qed.
Lemma take_pending_wf h g size prot :
  gsv_wf g -> match take_pending h g size prot with Some out => gsv_wf out.2 | None => True end.
Proof.
  intros Hg. unfold take_pending. destruct (po_pending _); cbn; [|done].
  destruct (v_mprotect _ _ _ _) as [[?|] ?]; by apply wf_with_pools.
Qed.
Lemma gsv_map_wf h g a size prot flags fd offset :
  gsv_wf g -> 0 <= a -> 0 <= size -> gsv_wf (gsv_map h g a size prot flags fd offset).2.
Proof.
  intros Hg Ha Hsize. unfold gsv_map.
  set (g0 := if negb (Z.land flags MAP_FIXED =? 0) then gsv_forget_code_alias g a size else g).
  assert (gsv_wf g0) as Hg0 by (unfold g0; destruct (negb _); [by apply forget_wf|done]). clearbody g0.
  destruct (gsv_enabled g0) eqn:He; cbn [negb]; [|by destruct (v_mmap _ _ _ _ _ _ _)].
  assert (Hsoft : forall fixed hint r g', map_software g0 a size prot fixed hint (eligible size prot flags fd offset) = (r, g') -> gsv_wf g').
  { intros fixed hint r g'. apply map_software_wf; try done. apply none_outside_eligible. }
  match goal with |- context [if ?b then take_pending _ _ _ _ else None] => destruct b end.
  - pose proof (take_pending_wf h g0 size prot Hg0) as Hearly. destruct (take_pending h g0 size prot) as [out|]; [done|].
    repeat case_match; simplify_eq/=; eauto.
  - repeat case_match; simplify_eq/=; eauto.
Qed.
Lemma changed_wf g size a prot maxprot op n :
  gsv_wf g -> gs_enabled g = true -> 0 <= size -> rounded size = Some n ->
  gsv_wf (with_memory g (change (gs_memory g) a n prot maxprot false op).2).
Proof.
  intros Hg He Hsize Hn. destruct (wf_enabled g Hg He) as [s Hs].
  pose proof (changed_correct g s a size prot maxprot op Hg Hs Hsize) as Hc. rewrite Hn in Hc. rewrite Hs.
  destruct (change _ _ _ _ _ _ _) as [r m]. cbn. case_bool_decide.
  - destruct Hc as (s' & -> & Hch & _). by eapply with_memory_wf_changed.
  - by destruct Hc as [-> _].
Qed.
Lemma gsv_unmap_wf h g a size : gsv_wf g -> 0 <= size -> gsv_wf (gsv_unmap h g a size).2.
Proof.
  intros Hg Hsize. unfold gsv_unmap. assert (gsv_wf (gsv_forget_code_alias g a size)) as Hg0 by (by apply forget_wf).
  set (g0 := gsv_forget_code_alias g a size) in *. clearbody g0.
  destruct (software g0 a) eqn:Ea; cbn [negb]; [|by destruct (v_munmap _ _ _)].
  destruct (rounded size) as [n|] eqn:En; [|done].
  pose proof (changed_wf g0 size a 0 0 UNMAP n Hg0 (software_enabled g0 a Ea) Hsize En) as Hw. unfold gm_sparse_unmap.
  destruct (change _ _ _ _ _ _ _) as [r m]. by destruct (negb _).
Qed.
Lemma gsv_protect_wf h g a size prot : gsv_wf g -> 0 <= size -> gsv_wf (gsv_protect h g a size prot).2.
Proof.
  intros Hg Hsize. unfold gsv_protect. set (g0 := if _ =? 0 then _ else g).
  assert (gsv_wf g0) as Hg0 by (unfold g0; destruct (_ =? _); [by apply forget_wf|done]). clearbody g0.
  destruct (software g0 a) eqn:Ea; cbn [negb]; [|by destruct (v_mprotect _ _ _ _)].
  destruct (rounded size) as [n|] eqn:En; [|done]. destruct (negb _); [done|].
  pose proof (changed_wf g0 size a prot 7 PROTECT n Hg0 (software_enabled g0 a Ea) Hsize En) as Hw. unfold gm_sparse_protect.
  destruct (change _ _ _ _ _ _ _) as [r m]. by destruct (negb _).
Qed.
Lemma gsv_advise_wf h g a size advice : gsv_wf g -> 0 <= size -> gsv_wf (gsv_advise h g a size advice).2.
Proof.
  intros Hg Hsize. destruct (software g a) eqn:Ea.
  - destruct (wf_enabled g Hg (software_enabled g a Ea)) as [s Hs]. pose proof (gsv_advise_spec h g s a size advice Hg Hs Hsize) as Hadv.
    destruct (gsv_advise _ _ _ _ _) as [[r h'] g']. by destruct Hadv as [-> _].
  - unfold gsv_advise. rewrite Ea. cbn. by destruct (v_madvise _ _ _ _).
Qed.
Lemma gsv_sigaction_wf h g number action : gsv_wf g -> gsv_wf (gsv_sigaction h g number action).2.
Proof.
  intros Hg. destruct (gs_enabled g) eqn:He.
  2: { unfold gsv_sigaction, gsv_enabled. rewrite He. cbn. by destruct (v_sigaction _ _ _). }
  destruct (decide (number = SIGSEGV \/ number = SIGBUS)) as [Hn|Hn].
  - assert (exists i, number = signal_number i) as [i ->] by (destruct Hn; [by exists false|by exists true]).
    pose proof (gsv_sigaction_correct h g i action He (gw_signals g Hg He)) as Hc. destruct (gsv_sigaction _ _ _ _) as [[r h'] g'].
    destruct Hc as (-> & Hok & _). by apply wf_with_signals.
  - unfold gsv_sigaction. destruct (Z.eqb_spec number SIGSEGV), (Z.eqb_spec number SIGBUS); try tauto.
    rewrite orb_true_r. by destruct (v_sigaction _ _ _).
Qed.
Lemma dispatch_signal_wf h g i fault_address u :
  gsv_wf g -> context_ok u -> gs_enabled g = true -> gsv_wf (dispatch_signal h g (signal_number i) fault_address u).2.
Proof.
  intros Hg Hu He. unfold dispatch_signal. pose proof (handle_fault_ok h g fault_address u Hg Hu) as Hok.
  pose proof (handle_fault_signals h g fault_address u) as Hsame.
  destruct (handle_fault h g fault_address u) as [[handled g1] u1]. destruct Hok as [Hg1 _]. destruct Hsame as [Hsig Hen].
  destruct handled; [done|]. rewrite signal_index.
  set (g2 := if negb _ then with_signals g1 _ else g1).
  assert (gsv_wf g2) as Hg2; [|by destruct (sa_handler _)].
  unfold g2. destruct (negb _); [|done]. apply wf_with_signals; [done|]. intros _. rewrite Hsig.
  pose proof (gw_signals g Hg He) as Hs. apply signals_current; [done|]. eapply lookup_lt_Some, (so_default _ Hs).
Qed.
End reachable.

(** The memory given to [start]: whole pages of bytes. *)
Definition arena_ok (backing_bytes : Z) (arena : list (list Z)) : Prop :=
  0 <= backing_bytes /\ Z.of_nat (length arena) = backing_bytes / GM_PAGE_SIZE /\
  Forall (fun bs => length bs = Z.to_nat GM_PAGE_SIZE /\ Forall byte_ok bs) arena.

Section starting.
Context {H : Type} `{!Host H, !HostLaws H}.

Lemma place_same h g max :
  let '(placed, _, g') := place h g max in
  gs_memory g' = gs_memory g /\ gs_enabled g' = gs_enabled g /\ gs_code g' = gs_code g /\ gs_signals g' = gs_signals g /\
  (placed = true -> 0 <= gs_base g' /\ gs_span g' = Z.shiftl 512 30).
Proof.
  unfold place. destruct (_ <? max); [|by split_and!; try done; intros _; cbn; lia].
  destruct (v_mmap h 0 _ _ _ _ _) as [[e|r] h'] eqn:E; [by split_and!|]. split_and!; try done. intros _. cbn.
  pose proof (law_mmap h _ _ _ _ _ _ _ _ E) as Hr. unfold u64_ok in Hr. lia.
Qed.
Lemma install_ok h s : let '(_, _, s') := install h s in signals_ok s'.
Proof.
  unfold install. destruct (v_sigaction h SIGSEGV None) as [old0 h0]. destruct (v_sigaction h0 SIGBUS None) as [old1 h1].
  set (s' := mkSignals _ [default_action] _). assert (signals_ok s') by (split; cbn; [done|unfold ACTION_LIMIT; lia|done]).
  destruct (v_sigaction h1 SIGSEGV _) as [[?|?] h2]; [done|]. by destruct (v_sigaction h2 SIGBUS _) as [[?|?] h3].
Qed.
(** Starting makes an empty memory in the window, or changes nothing but the
    place of the window. *)
Lemma start_correct h g backing_bytes force alloc_ok arena :
  gsv_wf g -> arena_ok backing_bytes arena ->
  let '(started, _, g') := start h g backing_bytes force alloc_ok arena in
  gsv_wf g' /\
  if started then gs_enabled g = false /\ gs_enabled g' = true /\ gs_fault_count g' = 0 /\
    exists s, gs_memory g' = Some s /\ GuestSparseMemory.fresh s /\ sp_end s = sp_base s + Z.shiftl 512 30 /\ sp_capacity s = backing_bytes / GM_PAGE_SIZE
  else gs_memory g' = gs_memory g /\ gs_enabled g' = gs_enabled g.
Proof.
  intros Hg (Hbacking & Hlen & Harena). unfold start, gsv_enabled. destruct (gs_enabled g) eqn:He; [done|].
  destruct (wf_stopped g Hg He) as [Hm Hcode].
  destruct (v_max_address h) as [max|]; [|split; [by apply stopped_wf|done]].
  pose proof (place_same h g max) as Hplace. destruct (place h g max) as [[placed h1] g1].
  destruct Hplace as (Hm1 & He1 & Hc1 & Hs1 & Hb1). rewrite Hm in Hm1. rewrite He in He1.
  assert (gsv_wf g1) as Hg1 by (apply stopped_wf; congruence).
  destruct placed; cbn [negb]; [|split; [done|split; congruence]]. destruct (Hb1 eq_refl) as [Hbase Hspan].
  pose proof (initialize_spec (gs_base g1) (gs_span g1) backing_bytes alloc_ok arena Hbase ltac:(by rewrite Hspan) Hbacking Hlen Harena) as Hi.
  rewrite Hm1. destruct (initialize (Some None) _ _ _ _ _) as [r m].
  case_bool_decide as Hr; cbn [negb]; [|split; [done|split; congruence]]. subst r.
  destruct Hi as (Hargs & s & -> & Hfresh & Hsb & Hse & Hcap). cbn [default from_option id].
  pose proof (install_ok h1 (gs_signals (with_memory g1 (Some s)))) as Hins.
  destruct (install h1 _) as [[both h2] sg]. destruct both; cbn [negb].
  - split; [|split_and!; try done; exists s; split_and!; try done; cbn in *; congruence].
    split; cbn; [|done|done]. destruct Hargs as (_ & Hal & _). unfold aligned in Hal. bool_props.
    split_and!; try done. apply Hfresh.
  - cbn. split; [apply stopped_wf; cbn; congruence|]. split; congruence.
Qed.
Lemma gsv_stop_wf h g : gsv_wf g -> gsv_wf (gsv_stop h g).2.
Proof.
  intros Hg. unfold gsv_stop, gsv_enabled. destruct (gs_enabled g) eqn:He; [|done].
  destruct (wf_enabled g Hg He) as [s Hs]. apply stopped_wf; cbn; [by rewrite Hs|done|done].
Qed.
Lemma gsv_prefer_native_pool_wf h g size : gsv_wf g -> gsv_wf (gsv_prefer_native_pool h g size).2.
Proof.
  intros Hg. unfold gsv_prefer_native_pool. destruct (_ || _); [by apply wf_with_pools|].
  destruct (v_mmap _ _ _ _ _ _ _) as [[?|?] ?]; by apply wf_with_pools.
Qed.

(** What happens to the runtime: its calls with any arguments, signals, and the
    operations on the software memory by which the buffer calls access it. *)
Inductive gsv_step : H * GSV -> H * GSV -> Prop :=
| gt_start h g h' g' backing_bytes force alloc_ok arena started :
    arena_ok backing_bytes arena -> start h g backing_bytes force alloc_ok arena = (started, h', g') -> gsv_step (h, g) (h', g')
| gt_stop h g : gsv_step (h, g) (gsv_stop h g)
| gt_pool h g size : gsv_step (h, g) (gsv_prefer_native_pool h g size)
| gt_force h g size : gsv_step (h, g) (h, gsv_force_pool g size)
| gt_alias h g executable readable size :
    0 <= executable -> 0 <= readable -> 0 <= size -> gsv_step (h, g) (h, (gsv_code_alias g executable readable size).2)
| gt_forget h g a size : gsv_step (h, g) (h, gsv_forget_code_alias g a size)
| gt_map h g h' g' a size prot flags fd offset r :
    0 <= a -> 0 <= size -> gsv_map h g a size prot flags fd offset = (r, h', g') -> gsv_step (h, g) (h', g')
| gt_protect h g h' g' a size prot r : 0 <= size -> gsv_protect h g a size prot = (r, h', g') -> gsv_step (h, g) (h', g')
| gt_unmap h g h' g' a size r : 0 <= size -> gsv_unmap h g a size = (r, h', g') -> gsv_step (h, g) (h', g')
| gt_advise h g h' g' a size advice r : 0 <= size -> gsv_advise h g a size advice = (r, h', g') -> gsv_step (h, g) (h', g')
| gt_sigaction h g h' g' number action r : gsv_sigaction h g number action = (r, h', g') -> gsv_step (h, g) (h', g')
| gt_signal h g h' g' i fault_address u d :
    gs_enabled g = true -> context_ok u -> dispatch_signal h g (signal_number i) fault_address u = (d, h', g') ->
    gsv_step (h, g) (h', g')
| gt_access h g s s' : gs_memory g = Some s -> sparse_step s s' -> gsv_step (h, g) (h, with_memory g (Some s'))
| gt_kernel h h' g : gsv_step (h, g) (h', g).

Lemma gsv_step_wf x y : gsv_step x y -> gsv_wf x.2 -> gsv_wf y.2.
Proof.
  intros [h g h' g' bb force ok arena started Ha E|h g|h g size|h g size|h g e r size He Hr Hs|h g a size
    |h g h' g' a size prot flags fd offset r Ha Hs E|h g h' g' a size prot r Hs E|h g h' g' a size r Hs E
    |h g h' g' a size advice r Hs E|h g h' g' number action r E|h g h' g' i fa u d He Hu E|h g s s' Hs Hstep|h h' g] Hg; cbn [snd] in *.
  - pose proof (start_correct h g bb force ok arena Hg Ha) as Hst. rewrite E in Hst. apply Hst.
  - by apply gsv_stop_wf.
  - by apply gsv_prefer_native_pool_wf.
  - by apply wf_with_pools.
  - by apply code_alias_wf.
  - by apply forget_wf.
  - pose proof (gsv_map_wf h g a size prot flags fd offset Hg Ha Hs) as Hw. by rewrite E in Hw.
  - pose proof (gsv_protect_wf h g a size prot Hg Hs) as Hw. by rewrite E in Hw.
  - pose proof (gsv_unmap_wf h g a size Hg Hs) as Hw. by rewrite E in Hw.
  - pose proof (gsv_advise_wf h g a size advice Hg Hs) as Hw. by rewrite E in Hw.
  - pose proof (gsv_sigaction_wf h g number action Hg) as Hw. by rewrite E in Hw.
  - pose proof (dispatch_signal_wf h g i fa u Hg Hu He) as Hw. by rewrite E in Hw.
  - destruct (wf_memory g s Hg Hs) as (He & _). apply placed_wf; [done|done|].
    eapply placed_step; [|done]. rewrite <- Hs. by apply wf_placed.
  - done.
Qed.
Lemma gsv_steps_wf x y : rtc gsv_step x y -> gsv_wf x.2 -> gsv_wf y.2.
Proof. induction 1; eauto using gsv_step_wf. Qed.
(** The window is where the buffer calls expect it. *)
Lemma wf_machine g native :
  gsv_wf g -> gs_enabled g = true -> (forall x, byte_ok (native x)) -> machine_ok (window g) (mkMachine (gs_memory g) native).
Proof.
  intros Hg He Hn. destruct (wf_enabled g Hg He) as [s Hs]. destruct (wf_memory g s Hg Hs) as (_ & Hw & Hb & Hend).
  rewrite Hs. split; [by intros ? [= <-]|done|]. intros x c Hc. cbn in Hc. unfold sp_cell in Hc.
  pose proof (mapped_bounds s x Hw ltac:(by destruct (access_at s x))) as Hx. unfold gsv_address. cbn. rewrite He. lia.
Qed.
(** C22: every state the runtime reaches from a stopped one, by any sequence of
    calls, signals and accesses, is well formed: while it is enabled its memory is
    a well-formed address space at the window, all the machine state the buffer
    calls rely on is there, the code alias is whole instructions outside the
    window, and every disposition leads to an action; while it is not, it has no
    memory and no alias. *)
Theorem gsv_reachable_wf h0 g0 h g :
  gs_memory g0 = None -> gs_enabled g0 = false -> ca_enabled (gs_code g0) = false ->
  rtc gsv_step (h0, g0) (h, g) ->
  gsv_wf g /\
  if gs_enabled g then signals_ok (gs_signals g) /\
    forall native, (forall x, byte_ok (native x)) -> machine_ok (window g) (mkMachine (gs_memory g) native)
  else gs_memory g = None /\ ca_enabled (gs_code g) = false.
Proof.
  intros Hm He Hc Hr. assert (gsv_wf g) as Hg.
  { apply (gsv_steps_wf _ _ Hr). by apply stopped_wf. }
  split; [done|]. destruct (gs_enabled g) eqn:Hen; [|by apply wf_stopped].
  split; [by apply (gw_signals g Hg)|]. intros native. by apply wf_machine.
Qed.
End starting.

(** ** Witnesses *)

(** A kernel that finds no room for large requests, and an instruction in its
    memory: [str x1, [x0]], at 8192 and through the alias at 4096. *)
#[local] Instance example_kernel : Host unit := {
  v_max_address _ := Some (Z.shiftl 1 40);
  v_mmap h a size prot flags fd offset := (if size <? MEGABYTES_64 then inr 4294967296 else inl ENOMEM, h);
  v_munmap h a size := (None, h);
  v_mprotect h a size prot := (None, h);
  v_madvise h a size advice := (None, h);
  v_sigaction h number action := (inr default_action, h);
  v_read_word h pc := if pc =? 8192 then Some 0xf9000001 else None;
  v_byte h x := if x =? 8192 then 1 else if x =? 8195 then 0xf9 else 0;
  v_dispatch := 24576
}.
#[local] Instance example_kernel_laws : HostLaws unit.
Proof.
  split.
  - intros h pc i. cbn. destruct (pc =? 8192); [by intros [= <-]|done].
  - intros h x. cbn. by repeat case_match.
  - intros h a size prot flags fd offset r h'. cbn. destruct (_ <? _); [by intros [= <- _]|done].
Qed.
Definition stopped_signals : Signals := mkSignals (fun _ => default_action) [default_action] (fun _ => Original).
Definition example_gsv : GSV :=
  mkGSV (Some example_space) 65536 131072 None true 0 (mkPools 0 0 0 None) (mkCodeAlias 4096 8192 64 true) stopped_signals.
Lemma stopped_signals_ok : signals_ok stopped_signals.
Proof. split; cbn; [done|unfold ACTION_LIMIT; lia|done]. Qed.
Lemma example_gsv_wf : gsv_wf example_gsv.
Proof.
  split; cbn [gs_memory gs_code gs_signals example_gsv].
  - split; [done|]. split; [apply example_space_wf|]. by split_and!.
  - intros _. by split.
  - intros _. apply stopped_signals_ok.
Qed.
Definition example_request := gsv_map tt example_gsv 65536 20000 3 (Z.lor MAP_ANON MAP_PRIVATE) (-1) 0.
(** The lowest free range is found, and the size is rounded to two pages. *)
Lemma gsv_map_spec_witness :
  example_request.1.1 = inr 98304 /\
  exists s', gs_memory example_request.2 = Some s' /\ changed_space example_space s' MAP 98304 32768 3 3.
Proof.
  assert (example_request.1.1 = inr 98304) as E by (vm_compute; reflexivity).
  assert (gs_memory example_request.2 <> Some example_space) as Hne by (vm_compute; discriminate).
  split; [exact E|].
  pose proof (gsv_map_spec tt example_gsv example_space 65536 20000 3 (Z.lor MAP_ANON MAP_PRIVATE) (-1) 0
    example_gsv_wf eq_refl ltac:(lia) ltac:(lia)) as Hm. cbv zeta in Hm. fold example_request in Hm.
  destruct example_request as [[r h'] g']. cbn [fst snd] in E, Hne. rewrite E in Hm.
  destruct Hm as [(n & s' & _ & Hn & Hs' & Hch & _)|[Hs' _]]; [|by destruct (Hne Hs')].
  assert (rounded 20000 = Some 32768) as Hr by reflexivity. rewrite Hr in Hn. injection Hn as <-. by exists s'.
Defined.
Definition example_removal := gsv_unmap tt example_gsv 65536 100.
Lemma gsv_unmap_spec_witness :
  example_removal.1.1 = inr tt /\
  exists s', gs_memory example_removal.2 = Some s' /\ sp_cell s' 65536 = None /\ sp_cell s' 81920 = sp_cell example_space 81920.
Proof.
  assert (example_removal.1.1 = inr tt) as E by (vm_compute; reflexivity). split; [exact E|].
  pose proof (gsv_unmap_spec tt example_gsv example_space 65536 100 example_gsv_wf eq_refl ltac:(lia) ltac:(lia)) as Hm.
  fold example_removal in Hm. destruct example_removal as [[r h'] g']. cbn [fst snd] in E. rewrite E in Hm.
  assert (software example_gsv 65536 = true) as Hw by reflexivity. rewrite Hw in Hm. destruct Hm as (_ & n & s' & Hn & Hs' & Hch).
  assert (rounded 100 = Some 16384) as Hr by reflexivity. rewrite Hr in Hn. injection Hn as <-.
  exists s'. split; [exact Hs'|]. split; rewrite (cs_cells _ _ _ _ _ _ _ Hch); reflexivity.
Defined.
Lemma code_alias_forgotten_witness :
  ca_enabled (gs_code example_gsv) = true /\ ca_enabled (gs_code (gsv_unmap tt example_gsv 4128 16384).2) = false /\
  ca_enabled (gs_code (gsv_unmap tt example_gsv 4160 16384).2) = true.
Proof.
  split; [reflexivity|]. split; [|reflexivity].
  destruct (code_alias_forgotten tt example_gsv 4128 16384 0 0 0 0 example_gsv_wf ltac:(lia)) as [Hf _].
  apply not_true_is_false. intros E. apply (Hf E 4128); [lia|]. unfold code_range. cbn. lia.
Defined.
(** A one-shot handler is set. A store to the window is performed and not seen;
    a fault next to the window calls the handler, which is gone then. *)
Definition one_shot_handler : Action := mkAction (CALL 8192) (Z.lor SA_RESETHAND SA_SIGINFO) 0.
Definition example_context : UContext :=
  mkContext 0x92000046 ([65536; 0x80000001] ++ replicate 27 0) 0 0 65536 4096 0x60000000 (replicate 32 vector_zero).
Definition beside_window : Z := gs_base example_gsv + gs_span example_gsv.
Definition example_events : list SignalEvent :=
  [Asks true (Some one_shot_handler); Arrives true (Some 65536) example_context; Arrives true (Some beside_window) example_context;
   Arrives true None example_context; Asks true None].
Definition example_observed : list Observation :=
  [Answered (inr default_action); Delivered (Resumed (handle_fault tt example_gsv (Some 65536) example_context).2);
   Delivered (Called 8192 true); Delivered Raised; Answered (inr default_action)].
Lemma example_context_ok : context_ok example_context.
Proof.
  split; cbn [example_context uc_x uc_fp uc_lr uc_sp uc_pc uc_cpsr uc_v]; try by split.
  - split; [done|]. apply (Forall_app_2 _ [65536; 0x80000001]); [by repeat constructor|]. by apply (Forall_replicate u64_ok 27).
  - split; [done|]. apply (Forall_replicate vector_ok 32), vector_zero_ok.
Qed.
Definition example_stopped : GSV :=
  mkGSV None 0 0 None false 0 (mkPools 0 0 0 None) (mkCodeAlias 0 0 0 false) stopped_signals.
Lemma gsv_reachable_wf_witness :
  (start tt example_stopped 32768 0 true example_arena).1.1 = true /\
  gsv_wf (start tt example_stopped 32768 0 true example_arena).2.
Proof.
  split; [vm_compute; reflexivity|].
  apply (gsv_reachable_wf tt example_stopped tt (start tt example_stopped 32768 0 true example_arena).2);
    [reflexivity|reflexivity|reflexivity|].
  apply rtc_once. apply (gt_start tt example_stopped tt _ 32768 0 true example_arena
    (start tt example_stopped 32768 0 true example_arena).1.1).
  - split; [lia|]. split; [reflexivity|]. apply example_arena_ok.
  - destruct (start tt example_stopped 32768 0 true example_arena) as [[b []] g']. reflexivity.
Defined.
