(* ===== verification/DebugWire.v ===== *)
(** * DebugWire: the GDB remote-protocol codec (authorization/DebugWire.c)

    A byte-at-a-time parser as a state machine over [DWParser], and the packet
    encoder. Their contract is a reference decoder on whole packet bodies. *)
From S2P Require Import Prelude.

(** ** Data (DebugWire.h) *)

Inductive DWEvent :=
  DW_MORE | DW_PACKET | DW_NOTIFICATION | DW_ACK | DW_NACK
| DW_BAD_CHECKSUM | DW_MALFORMED | DW_OVERFLOW.
#[export] Instance DWEvent_eq_dec : EqDecision DWEvent.
Proof. solve_decision. Defined.

Inductive DWState := SEEK | BODY | ESCAPE | REPEAT | CHECK_HIGH | CHECK_LOW.

(** [dw_payload] is the first [length] bytes of the caller's buffer. *)
Record DWParser := mkParser {
  dw_payload : list Z;
  dw_capacity : Z;
  dw_state : DWState;
  dw_sum : Z;
  dw_expected : Z;
  dw_notification : bool;
  dw_zero_checksum : bool
}.
Definition dw_length (p : DWParser) : Z := Z.of_nat (length (dw_payload p)).

Definition set_state (p : DWParser) (st : DWState) : DWParser :=
  mkParser (dw_payload p) (dw_capacity p) st (dw_sum p) (dw_expected p) (dw_notification p)
    (dw_zero_checksum p).
Definition set_payload (p : DWParser) (bs : list Z) : DWParser :=
  mkParser bs (dw_capacity p) (dw_state p) (dw_sum p) (dw_expected p) (dw_notification p)
    (dw_zero_checksum p).
Definition set_sum (p : DWParser) (sum : Z) : DWParser :=
  mkParser (dw_payload p) (dw_capacity p) (dw_state p) sum (dw_expected p) (dw_notification p)
    (dw_zero_checksum p).
Definition set_expected (p : DWParser) (e : Z) : DWParser :=
  mkParser (dw_payload p) (dw_capacity p) (dw_state p) (dw_sum p) e (dw_notification p)
    (dw_zero_checksum p).
Definition set_notification (p : DWParser) (b : bool) : DWParser :=
  mkParser (dw_payload p) (dw_capacity p) (dw_state p) (dw_sum p) (dw_expected p) b
    (dw_zero_checksum p).

(** ASCII codes the protocol gives a meaning. *)
Definition ch_dollar : Z := 36.  (* $ *)
Definition ch_percent : Z := 37. (* % *)
Definition ch_hash : Z := 35.    (* # *)
Definition ch_plus : Z := 43.    (* + *)
Definition ch_minus : Z := 45.   (* - *)
Definition ch_escape : Z := 125. (* } *)
Definition ch_repeat : Z := 42.  (* * *)

(** ** Operations (DebugWire.c) *)

Definition hex (c : Z) : Z :=
  if (48 <=? c) && (c <=? 57) then c - 48
  else if (97 <=? c) && (c <=? 102) then c - 97 + 10
  else if (65 <=? c) && (c <=? 70) then c - 65 + 10
  else -1.

(** [buffer] is whether the caller gave one. *)
Definition dw_init (buffer : bool) (capacity : Z) : DWParser :=
  mkParser [] (if buffer then capacity else 0) SEEK 0 0 false false.

Definition fail (p : DWParser) (event : DWEvent) : DWParser * DWEvent :=
  (set_payload (set_state p SEEK) [], event).
Definition append (p : DWParser) (byte : Z) : DWParser * DWEvent :=
  if dw_length p =? dw_capacity p then fail p DW_OVERFLOW
  else (set_payload p (dw_payload p ++ [byte]), DW_MORE).

Definition dw_feed (p : DWParser) (b : Z) : DWParser * DWEvent :=
  match dw_state p with
  | SEEK =>
    if b =? ch_plus then (p, DW_ACK) else
    if b =? ch_minus then (p, DW_NACK) else
    if (b =? ch_dollar) || (b =? ch_percent)
    then (set_notification (set_sum (set_payload (set_state p BODY) []) 0) (b =? ch_percent), DW_MORE)
    else (p, DW_MORE)
  | BODY =>
    if b =? ch_dollar then (set_notification (set_sum (set_payload p []) 0) false, DW_MALFORMED) else
    if b =? ch_hash then (set_state p CHECK_HIGH, DW_MORE) else
    let p := set_sum p (w8 (dw_sum p + b)) in
    if b =? ch_escape then (set_state p ESCAPE, DW_MORE) else
    if b =? ch_repeat then (set_state p REPEAT, DW_MORE) else
    append p b
  | ESCAPE =>
    append (set_state (set_sum p (w8 (dw_sum p + b))) BODY) (Z.lxor b 0x20)
  | REPEAT =>
    let p := set_state (set_sum p (w8 (dw_sum p + b))) BODY in
    if (dw_length p =? 0) || (b <? 32) || (126 <? b) || (b =? ch_dollar) || (b =? ch_hash) ||
       (b =? ch_plus) || (b =? ch_minus) then fail p DW_MALFORMED else
    let count := b - 29 in
    if dw_capacity p - dw_length p <? count then fail p DW_OVERFLOW else
    (set_payload p (dw_payload p ++ replicate (Z.to_nat count) (default 0 (last (dw_payload p)))),
     DW_MORE)
  | CHECK_HIGH =>
    let digit := hex b in
    if digit <? 0 then fail p DW_MALFORMED
    else (set_state (set_expected p (w8 (Z.shiftl digit 4))) CHECK_LOW, DW_MORE)
  | CHECK_LOW =>
    let digit := hex b in
    if digit <? 0 then fail p DW_MALFORMED else
    let p := set_state p SEEK in
    let sum := w8 (Z.lor (dw_expected p) digit) in
    if negb (sum =? dw_sum p) && negb (dw_zero_checksum p && (sum =? 0))
    then fail p DW_BAD_CHECKSUM
    else (p, if dw_notification p then DW_NOTIFICATION else DW_PACKET)
  end.

Definition needs_escape (b : Z) : bool :=
  (b =? ch_dollar) || (b =? ch_hash) || (b =? ch_escape) || (b =? ch_repeat).

(** The sizing loop: [None] when an escape does not fit. *)
Fixpoint encode_size (input : list Z) (needed capacity : Z) : option Z :=
  match input with
  | [] => Some needed
  | b :: input =>
    if needs_escape b then
      if needed =? capacity then None else encode_size input (needed + 1) capacity
    else encode_size input needed capacity
  end.
(** The writing loop: the bytes after the frame character, and the checksum. *)
Fixpoint encode_body (input : list Z) (sum : Z) : list Z * Z :=
  match input with
  | [] => ([], sum)
  | b :: input =>
    if needs_escape b then
      let sum := w8 (sum + ch_escape) in
      let b := Z.lxor b 0x20 in
      let '(out, sum) := encode_body input (w8 (sum + b)) in (ch_escape :: b :: out, sum)
    else let '(out, sum) := encode_body input (w8 (sum + b)) in (b :: out, sum)
  end.
Definition digits : list Z := [48; 49; 50; 51; 52; 53; 54; 55; 56; 57; 97; 98; 99; 100; 101; 102].
Definition digit (n : Z) : Z := default 0 (digits !! Z.to_nat n).

(** The destination's bytes on success; [None] is the returned 0. [payload] is
    [None] for a null pointer of length [length], [destination] whether there is
    a buffer. *)
Definition dw_encode (payload : option (list Z)) (length : Z) (destination : bool) (capacity : Z)
    : option (list Z) :=
  if negb destination || (negb (length =? 0) && negb (bool_decide (is_Some payload))) ||
     (capacity <? 4) || (capacity - 4 <? length) then None else
  let input := default [] payload in
  match encode_size input (length + 4) capacity with
  | None => None
  | Some _ =>
    let '(out, sum) := encode_body input 0 in
    Some (ch_dollar :: out ++ [ch_hash; digit (Z.shiftr sum 4); digit (Z.land sum 15)])
  end.

(** Feeding a sequence of bytes: the final parser and the events. *)
Fixpoint dw_feed_all (p : DWParser) (bs : list Z) : DWParser * list DWEvent :=
  match bs with
  | [] => (p, [])
  | b :: bs =>
    let '(p, e) := dw_feed p b in
    let '(p, es) := dw_feed_all p bs in (p, e :: es)
  end.

(** ** Specification: decoding a whole packet body *)

(** The bytes a body between the frame characters stands for: [}] escapes the
    byte after it, [*] repeats the last byte; [None] when it is malformed or
    longer than the capacity. *)
Fixpoint unpack (capacity : Z) (acc body : list Z) : option (list Z) :=
  match body with
  | [] => Some acc
  | b :: body =>
    if b =? ch_escape then
      match body with
      | [] => None
      | c :: body =>
        if Z.of_nat (length acc) =? capacity then None
        else unpack capacity (acc ++ [Z.lxor c 0x20]) body
      end
    else if b =? ch_repeat then
      match body, last acc with
      | c :: body, Some v =>
        if (c <? 32) || (126 <? c) || (c =? ch_plus) || (c =? ch_minus) ||
           (capacity - Z.of_nat (length acc) <? c - 29) then None
        else unpack capacity (acc ++ replicate (Z.to_nat (c - 29)) v) body
      | _, _ => None
      end
    else if Z.of_nat (length acc) =? capacity then None
    else unpack capacity (acc ++ [b]) body
  end.
Definition checksum (start : Z) (body : list Z) : Z := fold_left (fun s b => w8 (s + b)) body start.
(** Does the two-digit checksum accept the sum of the body? *)
Definition accepts (zero_checksum : bool) (sum high low : Z) : bool :=
  let expected := hex high * 16 + hex low in
  (expected =? sum) || (zero_checksum && (expected =? 0)).
Definition plain (b : Z) : Prop := b <> ch_dollar /\ b <> ch_hash.
Definition is_hex (b : Z) : Prop := 0 <= hex b.

(** ** Running the parser *)

Lemma feed_all_app p bs1 bs2 :
  dw_feed_all p (bs1 ++ bs2) =
    ((dw_feed_all (dw_feed_all p bs1).1 bs2).1,
     (dw_feed_all p bs1).2 ++ (dw_feed_all (dw_feed_all p bs1).1 bs2).2).
Proof.
  revert p. induction bs1 as [|b bs1 IH]; intros p; cbn.
  { by destruct (dw_feed_all p bs2). }
  destruct (dw_feed p b) as [p1 e]. rewrite IH.
  destruct (dw_feed_all p1 bs1) as [p2 es]. cbn. done.
Qed.

(** Outside a packet nothing but a [$] leads to a packet event. *)
Definition idle (p : DWParser) : Prop := dw_state p = SEEK \/ dw_notification p = true.

Lemma fail_idle p e : idle (fail p e).1.
Proof. by left. Qed.
Lemma append_idle p b : dw_notification p = true -> idle (append p b).1 /\ (append p b).2 <> DW_PACKET.
Proof. unfold append. destruct (_ =? _); [split; [apply fail_idle|done]|]. split; [by right|done]. Qed.

Lemma feed_idle p b :
  idle p -> b <> ch_dollar -> idle (dw_feed p b).1 /\ (dw_feed p b).2 <> DW_PACKET.
Proof.
  intros Hp Hb. unfold dw_feed.
  assert (dw_state p <> SEEK -> dw_notification p = true) as Hn by (destruct Hp; done).
  destruct (dw_state p) eqn:Es; try specialize (Hn ltac:(done)).
  - destruct (_ =? _); [split; [by left|done]|]. destruct (_ =? _); [split; [by left|done]|].
    destruct (Z.eqb_spec b ch_dollar); [done|]. cbn [orb].
    destruct (b =? ch_percent); [split; [by right|done]|split; [by left|done]].
  - destruct (Z.eqb_spec b ch_dollar); [done|]. destruct (_ =? _); [split; [by right|done]|].
    destruct (_ =? _); [split; [by right|done]|]. destruct (_ =? _); [split; [by right|done]|].
    by apply append_idle.
  - by apply append_idle.
  - destruct (_ || _); [split; [apply fail_idle|done]|].
    destruct (_ <? _); [split; [apply fail_idle|done]|split; [by right|done]].
  - destruct (_ <? _); [split; [apply fail_idle|done]|split; [by right|done]].
  - destruct (_ <? _); [split; [apply fail_idle|done]|].
    destruct (_ && _); [split; [apply fail_idle|done]|]. cbn. rewrite Hn. split; [by left|done].
Qed.
Lemma feed_all_idle p bs :
  idle p -> Forall (fun b => b <> ch_dollar) bs ->
  idle (dw_feed_all p bs).1 /\ (DW_PACKET ∉ (dw_feed_all p bs).2).
Proof.
  intros Hp Hbs. revert p Hp. induction Hbs as [|b bs Hb _ IH]; intros p Hp.
  { split; [done|]. apply not_elem_of_nil. }
  cbn. destruct (feed_idle p b Hp Hb) as [Hi He]. destruct (dw_feed p b) as [p1 e].
  destruct (IH p1 Hi) as [Hi' He']. destruct (dw_feed_all p1 bs) as [p2 es]. cbn in *.
  split; [done|]. by apply not_elem_of_cons.
Qed.

(** A parser inside a packet, with its payload and sum. *)
Record in_body (p : DWParser) (acc : list Z) (sum capacity : Z) (zero : bool) : Prop := {
  ib_state : dw_state p = BODY;
  ib_payload : dw_payload p = acc;
  ib_sum : dw_sum p = sum;
  ib_capacity : dw_capacity p = capacity;
  ib_notification : dw_notification p = false;
  ib_zero : dw_zero_checksum p = zero
}.
(** What a body leads to when it is not one: no packet, whatever two hexadecimal
    digits follow. *)
Definition dead_end (p : DWParser) (es : list DWEvent) : Prop :=
  (DW_PACKET ∉ es) /\
  (idle p \/ dw_state p = ESCAPE \/ dw_state p = REPEAT).

Lemma append_cases p acc sum capacity zero b :
  in_body p acc sum capacity zero ->
  if Z.of_nat (length acc) =? capacity then idle (append p b).1 /\ (append p b).2 = DW_OVERFLOW
  else in_body (append p b).1 (acc ++ [b]) sum capacity zero /\ (append p b).2 = DW_MORE.
Proof.
  intros [Hst Hpl Hsum Hcap Hn Hz]. unfold append, dw_length. rewrite Hpl, Hcap.
  destruct (_ =? _); [split; [apply fail_idle|done]|]. split; [|done]. split; cbn; congruence.
Qed.

Lemma plain_neq b : plain b -> (b =? ch_dollar) = false /\ (b =? ch_hash) = false.
Proof. intros [? ?]. split; by apply Z.eqb_neq. Qed.

Lemma feed_body p b acc sum capacity zero :
  in_body p acc sum capacity zero -> plain b -> b <> ch_escape -> b <> ch_repeat ->
  dw_feed p b = append (set_sum p (w8 (sum + b))) b.
Proof.
  intros [Hst Hpl Hsum Hcap Hn Hz] [H1 H2]%plain_neq H3 H4. unfold dw_feed.
  by rewrite Hst, H1, H2, (proj2 (Z.eqb_neq _ _) H3), (proj2 (Z.eqb_neq _ _) H4), Hsum.
Qed.
Lemma in_body_sum p acc sum capacity zero sum' :
  in_body p acc sum capacity zero -> in_body (set_sum p sum') acc sum' capacity zero.
Proof. intros []. by split. Qed.

Lemma feed_escape p acc sum capacity zero :
  in_body p acc sum capacity zero ->
  dw_feed p ch_escape = (set_state (set_sum p (w8 (sum + ch_escape))) ESCAPE, DW_MORE).
Proof. intros [Hst Hpl Hsum Hcap Hn Hz]. unfold dw_feed. by rewrite Hst, Hsum. Qed.
Lemma feed_escaped p acc sum capacity zero c :
  in_body p acc sum capacity zero ->
  dw_feed (set_state p ESCAPE) c = append (set_sum p (w8 (sum + c))) (Z.lxor c 0x20).
Proof.
  intros [Hst Hpl Hsum Hcap Hn Hz]. unfold dw_feed. cbn [dw_state set_state].
  f_equal. destruct p. cbn in *. by subst.
Qed.
Lemma feed_repeat p acc sum capacity zero :
  in_body p acc sum capacity zero ->
  dw_feed p ch_repeat = (set_state (set_sum p (w8 (sum + ch_repeat))) REPEAT, DW_MORE).
Proof. intros [Hst Hpl Hsum Hcap Hn Hz]. unfold dw_feed. by rewrite Hst, Hsum. Qed.
Lemma feed_repeated p acc sum capacity zero c :
  in_body p acc sum capacity zero -> plain c ->
  let out := dw_feed (set_state p REPEAT) c in
  match last acc with
  | Some v =>
    if (c <? 32) || (126 <? c) || (c =? ch_plus) || (c =? ch_minus) ||
       (capacity - Z.of_nat (length acc) <? c - 29)
    then idle out.1 /\ out.2 <> DW_PACKET
    else in_body out.1 (acc ++ replicate (Z.to_nat (c - 29)) v) (w8 (sum + c)) capacity zero /\
         out.2 = DW_MORE
  | None => idle out.1 /\ out.2 <> DW_PACKET
  end.
Proof.
  intros [Hst Hpl Hsum Hcap Hn Hz] [H1 H2]%plain_neq. cbv zeta. unfold dw_feed, dw_length.
  cbn [dw_state set_state set_sum dw_payload dw_sum dw_capacity]. rewrite H1, H2, Hpl, Hcap, !orb_false_r.
  destruct (last acc) as [v|] eqn:El.
  - assert (Z.of_nat (length acc) <> 0) as Hne.
    { apply last_Some in El as [l ->]. rewrite length_app. cbn [length]. lia. }
    rewrite (proj2 (Z.eqb_neq _ _) Hne). cbn [orb default from_option id].
    destruct ((c <? 32) || (126 <? c) || (c =? ch_plus) || (c =? ch_minus)); cbn [orb].
    + split; [apply fail_idle|done].
    + destruct (_ <? c - 29); [split; [apply fail_idle|done]|]. split; [|done].
      split; cbn; congruence.
  - apply last_None in El. subst acc. rewrite El. cbn [length Z.of_nat Z.eqb orb].
    split; [apply fail_idle|done].
Qed.

Lemma feed_all_cons p b bs :
  dw_feed_all p (b :: bs) =
    ((dw_feed_all (dw_feed p b).1 bs).1, (dw_feed p b).2 :: (dw_feed_all (dw_feed p b).1 bs).2).
Proof. cbn. destruct (dw_feed p b) as [p1 e]. cbn. by destruct (dw_feed_all p1 bs). Qed.

Lemma plain_not_dollar bs : Forall plain bs -> Forall (fun b => b <> ch_dollar) bs.
Proof. intros Hbs. eapply Forall_impl; [exact Hbs|]. by intros b [? _]. Qed.

(** After a failure the rest of the body gives no packet. *)
Lemma dead_end_idle p e bs :
  idle p -> e <> DW_PACKET -> Forall plain bs ->
  dead_end (dw_feed_all p bs).1 (e :: (dw_feed_all p bs).2).
Proof.
  intros Hp He Hbs. destruct (feed_all_idle p bs Hp (plain_not_dollar bs Hbs)).
  split; [by apply not_elem_of_cons|by left].
Qed.
Lemma dead_end_cons p es : dead_end p es -> dead_end p (DW_MORE :: es).
Proof. intros [? ?]. split; [by apply not_elem_of_cons|done]. Qed.

Definition body_post (capacity : Z) (zero : bool) (acc : list Z) (sum : Z) (body : list Z)
    (out : DWParser * list DWEvent) : Prop :=
  match unpack capacity acc body with
  | Some payload =>
      in_body out.1 payload (checksum sum body) capacity zero /\
      out.2 = replicate (length body) DW_MORE
  | None => dead_end out.1 out.2
  end.

Lemma body_post_idle capacity zero acc sum body p e bs :
  unpack capacity acc body = None -> idle p -> e <> DW_PACKET -> Forall plain bs ->
  body_post capacity zero acc sum body ((dw_feed_all p bs).1, e :: (dw_feed_all p bs).2).
Proof. intros Hu Hp He Hbs. unfold body_post. rewrite Hu. by apply dead_end_idle. Qed.

Lemma body_post_more capacity zero acc acc' sum sum' body body' out k :
  unpack capacity acc body = unpack capacity acc' body' -> checksum sum body = checksum sum' body' ->
  length body = (k + length body')%nat ->
  body_post capacity zero acc' sum' body' out ->
  body_post capacity zero acc sum body (out.1, replicate k DW_MORE ++ out.2).
Proof.
  intros Hu Hc Hl Hpost. unfold body_post in *. rewrite Hu. destruct (unpack capacity acc' body').
  - destruct Hpost as [Hin He]. cbn. rewrite Hc. split; [done|]. by rewrite He, Hl, replicate_add.
  - cbn. clear Hl. induction k as [|k IH]; [by destruct out|]. by apply dead_end_cons.
Qed.

(** The parser computes the reference decoder, one byte at a time. *)
(** The bodies of at most [n] bytes are read as they unpack. *)
Definition bodies_read (n : nat) : Prop := forall body,
  (length body <= n)%nat -> Forall plain body ->
  forall p acc sum capacity zero, in_body p acc sum capacity zero ->
    body_post capacity zero acc sum body (dw_feed_all p body).
Lemma feed_all_escape n body p acc sum capacity zero :
  bodies_read n -> (length body <= n)%nat -> Forall plain body -> in_body p acc sum capacity zero ->
  body_post capacity zero acc sum (ch_escape :: body) (dw_feed_all p (ch_escape :: body)).
Proof.
  intros IH Hn Hbody Hp.
  rewrite feed_all_cons, (feed_escape p acc sum capacity zero Hp). cbn [fst snd].
  destruct body as [|c body]; [by split; [apply not_elem_of_cons; split; [done|apply not_elem_of_nil]|right; left]|].
  rewrite feed_all_cons. apply Forall_cons in Hbody as [Hc Hbody]. cbn [length] in Hn.
  pose proof (in_body_sum p acc sum capacity zero (w8 (sum + ch_escape)) Hp) as Hp1.
  rewrite (feed_escaped _ _ _ _ _ c Hp1).
  pose proof (append_cases _ _ _ _ _ (Z.lxor c 0x20) (in_body_sum _ _ _ _ _ (w8 (w8 (sum + ch_escape) + c)) Hp1)) as Hap.
  destruct (append _ _) as [p2 e2]. cbn [fst snd] in Hap.
  destruct (_ =? capacity) eqn:Ecap.
  - destruct Hap as [Hidle ->]. unfold body_post. cbn [unpack]. rewrite Z.eqb_refl, Ecap.
    apply dead_end_cons. by apply dead_end_idle.
  - destruct Hap as [Hin ->].
    apply (body_post_more capacity zero acc (acc ++ [Z.lxor c 0x20]) sum
      (w8 (w8 (sum + ch_escape) + c)) (ch_escape :: c :: body) body (dw_feed_all p2 body) 2);
      [|done|done|by apply IH; [lia|..]].
    cbn [unpack]. by rewrite Z.eqb_refl, Ecap.
Qed.
Lemma feed_all_repeat n body p acc sum capacity zero :
  bodies_read n -> (length body <= n)%nat -> Forall plain body -> in_body p acc sum capacity zero ->
  body_post capacity zero acc sum (ch_repeat :: body) (dw_feed_all p (ch_repeat :: body)).
Proof.
  intros IH Hn Hbody Hp.
  rewrite feed_all_cons, (feed_repeat p acc sum capacity zero Hp). cbn [fst snd].
  destruct body as [|c body]; [by split; [apply not_elem_of_cons; split; [done|apply not_elem_of_nil]|right; right]|].
  rewrite feed_all_cons. apply Forall_cons in Hbody as [Hc Hbody]. cbn [length] in Hn.
  pose proof (in_body_sum p acc sum capacity zero (w8 (sum + ch_repeat)) Hp) as Hp1.
  pose proof (feed_repeated _ _ _ _ _ c Hp1 Hc) as Hre. cbv zeta in Hre.
  destruct (dw_feed _ c) as [p2 e2]. cbn [fst snd] in Hre.
  destruct (last acc) as [v|] eqn:El.
  - destruct (_ || _ || _ || _ || _) eqn:Ebad.
    + destruct Hre as [Hidle Hpk]. unfold body_post. cbn [unpack].
      change (ch_repeat =? ch_escape) with false. cbn iota. rewrite Z.eqb_refl, El, Ebad.
      apply dead_end_cons. by apply dead_end_idle.
    + destruct Hre as [Hin ->].
      apply (body_post_more capacity zero acc (acc ++ replicate (Z.to_nat (c - 29)) v) sum
        (w8 (w8 (sum + ch_repeat) + c)) (ch_repeat :: c :: body) body (dw_feed_all p2 body) 2); [|done|done|by apply IH; [lia|..]].
      cbn [unpack]. change (ch_repeat =? ch_escape) with false. cbn iota. by rewrite Z.eqb_refl, El, Ebad.
  - destruct Hre as [Hidle Hpk]. unfold body_post. cbn [unpack].
    change (ch_repeat =? ch_escape) with false. cbn iota. rewrite Z.eqb_refl, El.
    apply dead_end_cons. by apply dead_end_idle.
Qed.
Lemma feed_all_body n : bodies_read n.
Proof.
  induction n as [|n IH]; intros body Hn Hbody p acc sum capacity zero Hp.
  { destruct body; [|cbn in Hn; lia]. by split. }
  destruct body as [|b body]; [by split|]. cbn [length] in Hn.
  apply Forall_cons in Hbody as [Hb Hbody].
  destruct (decide (b = ch_escape)) as [->|Hne]; [by apply (feed_all_escape n); [done|lia|..]|].
  destruct (decide (b = ch_repeat)) as [->|Hne']; [by apply (feed_all_repeat n); [done|lia|..]|].
  rewrite feed_all_cons.
  rewrite (feed_body p b acc sum capacity zero Hp Hb Hne Hne').
  pose proof (append_cases _ _ _ _ _ b (in_body_sum _ _ _ _ _ (w8 (sum + b)) Hp)) as Hap.
  destruct (append _ _) as [p2 e2]. cbn [fst snd] in *.
  assert (unpack capacity acc (b :: body) = if Z.of_nat (length acc) =? capacity then None
    else unpack capacity (acc ++ [b]) body) as Hu.
  { cbn [unpack]. by rewrite (proj2 (Z.eqb_neq _ _) Hne), (proj2 (Z.eqb_neq _ _) Hne'). }
  destruct (_ =? capacity) eqn:Ecap.
  - destruct Hap as [Hidle ->]. by apply body_post_idle.
  - destruct Hap as [Hin ->].
    apply (body_post_more capacity zero acc (acc ++ [b]) sum (w8 (sum + b)) (b :: body) body
      (dw_feed_all p2 body) 1);
      [done..|by apply IH; [lia|..]].
Qed.

(** ** Whole packets *)

Lemma hex_range c : -1 <= hex c <= 15.
Proof.
  unfold hex. destruct (_ && _) eqn:E1; bool_props; [lia|].
  destruct ((97 <=? c) && _) eqn:E2; bool_props; [lia|].
  destruct ((65 <=? c) && _) eqn:E3; bool_props; lia.
Qed.
Lemma digits_join d e : 0 <= d < 16 -> 0 <= e < 16 -> w8 (Z.lor (w8 (Z.shiftl d 4)) e) = d * 16 + e.
Proof.
  intros Hd He. assert (forallb (fun d => forallb (fun e =>
    w8 (Z.lor (w8 (Z.shiftl d 4)) e) =? d * 16 + e) (seqZ 0 16)) (seqZ 0 16) = true) as H
    by (vm_compute; reflexivity).
  rewrite forallb_forall in H. specialize (H d). rewrite <- list_elem_of_In, elem_of_seqZ in H.
  specialize (H ltac:(lia)). rewrite forallb_forall in H. specialize (H e).
  rewrite <- list_elem_of_In, elem_of_seqZ in H. apply Z.eqb_eq, H. lia.
Qed.
Lemma digits_split sum :
  byte_ok sum -> hex (digit (Z.shiftr sum 4)) * 16 + hex (digit (Z.land sum 15)) = sum /\
  is_hex (digit (Z.shiftr sum 4)) /\ is_hex (digit (Z.land sum 15)).
Proof.
  intros Hs. assert (forallb (fun sum =>
    (hex (digit (Z.shiftr sum 4)) * 16 + hex (digit (Z.land sum 15)) =? sum) &&
    (0 <=? hex (digit (Z.shiftr sum 4))) && (0 <=? hex (digit (Z.land sum 15)))) (seqZ 0 256) = true) as H
    by (vm_compute; reflexivity).
  rewrite forallb_forall in H. specialize (H sum). rewrite <- list_elem_of_In, elem_of_seqZ in H.
  specialize (H ltac:(unfold byte_ok in Hs; lia)). bool_props. done.
Qed.
Lemma checksum_range sum body : byte_ok sum -> byte_ok (checksum sum body).
Proof. revert sum. induction body; intros sum Hs; [done|]. cbn. apply IHbody, w8_range. Qed.

Lemma feed_hash p : dw_state p = BODY -> dw_feed p ch_hash = (set_state p CHECK_HIGH, DW_MORE).
Proof. intros Hst. unfold dw_feed. by rewrite Hst. Qed.
Lemma feed_high p c :
  dw_state p = CHECK_HIGH -> is_hex c ->
  dw_feed p c = (set_state (set_expected p (w8 (Z.shiftl (hex c) 4))) CHECK_LOW, DW_MORE).
Proof. intros Hst Hc. unfold is_hex in Hc. unfold dw_feed. rewrite Hst, (proj2 (Z.ltb_ge _ _)) by lia. done. Qed.
Lemma feed_low p c :
  dw_state p = CHECK_LOW -> is_hex c ->
  dw_feed p c =
    let sum := w8 (Z.lor (dw_expected p) (hex c)) in
    if (sum =? dw_sum p) || (dw_zero_checksum p && (sum =? 0))
    then (set_state p SEEK, if dw_notification p then DW_NOTIFICATION else DW_PACKET)
    else fail (set_state p SEEK) DW_BAD_CHECKSUM.
Proof.
  intros Hst Hc. unfold is_hex in Hc. unfold dw_feed. rewrite Hst, (proj2 (Z.ltb_ge _ _)) by lia.
  cbn [dw_expected dw_sum dw_zero_checksum dw_notification set_state]. cbv zeta.
  destruct (_ =? dw_sum p), (_ && (_ =? 0)); done.
Qed.

(** The frame's end: the checksum digits decide. *)
Lemma feed_end p payload sum capacity zero high low :
  in_body p payload sum capacity zero -> is_hex high -> is_hex low ->
  let out := dw_feed_all p [ch_hash; high; low] in
  if accepts zero sum high low
  then dw_payload out.1 = payload /\ dw_state out.1 = SEEK /\ out.2 = [DW_MORE; DW_MORE; DW_PACKET]
  else dw_payload out.1 = [] /\ dw_state out.1 = SEEK /\ out.2 = [DW_MORE; DW_MORE; DW_BAD_CHECKSUM].
Proof.
  intros [Hst Hpl Hsum Hcap Hn Hz] Hh Hl. cbv zeta.
  rewrite !feed_all_cons, feed_hash by done. cbn [fst snd].
  rewrite (feed_high (set_state p CHECK_HIGH) high) by done. cbn [fst snd]. rewrite feed_low by done. cbv zeta.
  cbn [dw_expected dw_sum dw_zero_checksum dw_notification set_state set_expected].
  unfold is_hex in *. pose proof (hex_range high). pose proof (hex_range low).
  rewrite digits_join by lia. rewrite Hsum, Hz, Hn. unfold accepts.
  destruct (_ || _); cbn [fst snd dw_feed_all]; (split; [done|by split]).
Qed.

Lemma feed_start p :
  dw_state p = SEEK ->
  in_body (dw_feed p ch_dollar).1 [] 0 (dw_capacity p) (dw_zero_checksum p) /\
  (dw_feed p ch_dollar).2 = DW_MORE.
Proof. intros Hst. unfold dw_feed. rewrite Hst. by split. Qed.

Lemma append_event p b : (append p b).2 = DW_MORE \/ (append p b).2 = DW_OVERFLOW.
Proof. unfold append. destruct (_ =? _); [by right|by left]. Qed.
Lemma append_state p b : idle (append p b).1 \/ dw_state (append p b).1 = dw_state p.
Proof. unfold append. destruct (_ =? _); [left; apply fail_idle|by right]. Qed.

(** One byte in the body that is not a frame character gives no packet and
    leaves no way to one within another such byte. *)
Lemma feed_body_event p b :
  dw_state p = BODY -> plain b -> (dw_feed p b).2 <> DW_PACKET /\
  (idle (dw_feed p b).1 \/ dw_state (dw_feed p b).1 <> CHECK_HIGH /\ dw_state (dw_feed p b).1 <> CHECK_LOW).
Proof.
  intros Hst [H1 H2]%plain_neq. unfold dw_feed. rewrite Hst, H1, H2. cbv zeta.
  destruct (b =? ch_escape); [split; [done|by right]|]. destruct (b =? ch_repeat); [split; [done|by right]|].
  match goal with |- (append ?q ?c).2 <> _ /\ _ =>
    destruct (append_event q c) as [He|He]; rewrite He; (split; [done|]);
    destruct (append_state q c) as [Hs|Hs]; [by left| |by left|]; right; rewrite Hs;
    cbn [dw_state set_sum]; by rewrite Hst end.
Qed.
Lemma feed_no_check p b :
  (idle p \/ dw_state p <> CHECK_HIGH /\ dw_state p <> CHECK_LOW) -> b <> ch_dollar ->
  (dw_feed p b).2 <> DW_PACKET.
Proof.
  intros [Hp|[H1 H2]] Hb; [by apply feed_idle|]. unfold dw_feed. cbv zeta. destruct (dw_state p); try done.
  - repeat case_match; done.
  - repeat case_match; try done.
    match goal with |- (append ?q ?c).2 <> _ => destruct (append_event q c); congruence end.
  - match goal with |- (append ?q ?c).2 <> _ => destruct (append_event q c); congruence end.
  - repeat case_match; done.
Qed.

(** A dead end stays one over the frame's end. *)
Lemma dead_end_end p es high low :
  dead_end p es -> is_hex high -> is_hex low ->
  DW_PACKET ∉ es ++ (dw_feed_all p [ch_hash; high; low]).2.
Proof.
  intros [Hes Hp] Hh Hl. rewrite elem_of_app. intros [?|Hin]; [done|]. revert Hin.
  assert (forall c, is_hex c -> plain c) as Hd by (intros c Hc; split; intros ->; done).
  assert (forall q, idle q -> DW_PACKET ∉ (dw_feed_all q [high; low]).2) as Hidle.
  { intros q Hq. apply feed_all_idle; [done|]. destruct (Hd high Hh), (Hd low Hl). by repeat constructor. }
  rewrite feed_all_cons. cbn [snd]. rewrite elem_of_cons.
  destruct Hp as [Hp|[Hp|Hp]].
  - destruct (feed_idle p ch_hash Hp ltac:(done)) as [Hi He]. intros [?|Hin]; [congruence|].
    by apply (Hidle _ Hi).
  - unfold dw_feed at 1 2. rewrite Hp. set (q := set_state _ BODY). set (c := Z.lxor _ _).
    destruct (append_event q c) as [He|He]; rewrite He; (intros [?|Hin]; [done|]); revert Hin.
    + destruct (append_state q c) as [Hi|Hs]; [by apply Hidle|].
      rewrite !feed_all_cons. cbn [snd]. rewrite !elem_of_cons.
      destruct (feed_body_event (append q c).1 high Hs (Hd high Hh)) as [H1 H2].
      pose proof (feed_no_check _ low H2 (proj1 (Hd low Hl))) as H3.
      intros [?|[?|Hin]]; [congruence..|]. by apply elem_of_nil in Hin.
    + apply Hidle. unfold append in *. destruct (_ =? _); [apply fail_idle|done].
  - assert (dw_feed p ch_hash = fail (set_state (set_sum p (w8 (dw_sum p + ch_hash))) BODY) DW_MALFORMED) as ->.
    { unfold dw_feed. rewrite Hp. change (ch_hash =? ch_hash) with true. by rewrite !orb_true_r. }
    intros [?|Hin]; [done|]. apply (Hidle _ (fail_idle _ _) Hin).
Qed.

Lemma more_events n e :
  DW_MORE :: replicate n DW_MORE ++ [DW_MORE; DW_MORE; e] = replicate (n + 3) DW_MORE ++ [e].
Proof. induction n as [|n IH]; [done|]. cbn. f_equal. exact IH. Qed.

(** The parser implements the reference decoder: a frame whose body decodes
    within the capacity and whose digits are its checksum, or zero where that is
    allowed, is the packet of the decoded payload; any other frame gives no
    packet. *)
Lemma dw_feed_packet_correct p body high low :
  dw_state p = SEEK -> Forall plain body -> is_hex high -> is_hex low ->
  let '(p', es) := dw_feed_all p (ch_dollar :: body ++ [ch_hash; high; low]) in
  match unpack (dw_capacity p) [] body with
  | Some payload =>
      dw_state p' = SEEK /\
      if accepts (dw_zero_checksum p) (checksum 0 body) high low
      then dw_payload p' = payload /\ es = replicate (length body + 3) DW_MORE ++ [DW_PACKET]
      else dw_payload p' = [] /\ es = replicate (length body + 3) DW_MORE ++ [DW_BAD_CHECKSUM]
  | None => DW_PACKET ∉ es
  end.
Proof.
  intros Hst Hbody Hh Hl. rewrite feed_all_cons. destruct (feed_start p Hst) as [Hp He]. rewrite He.
  pose proof (feed_all_body (length body) body ltac:(lia) Hbody _ _ _ _ _ Hp) as Hb.
  rewrite feed_all_app. cbn [fst snd]. unfold body_post in Hb.
  destruct (unpack _ [] body) as [payload|].
  - destruct Hb as [Hin ->]. pose proof (feed_end _ _ _ _ _ high low Hin Hh Hl) as Hend. cbv zeta in Hend.
    destruct (accepts _ _ _ _); destruct Hend as (Hpl & Hs & ->);
      (split; [done|split; [done|apply more_events]]).
  - apply not_elem_of_cons. split; [done|]. by apply dead_end_end.
Qed.

(** ** The encoder *)

Definition escapes (input : list Z) : nat := length (filter (fun b => needs_escape b = true) input).

Lemma escapes_cons b input :
  escapes (b :: input) = ((if needs_escape b then 1 else 0) + escapes input)%nat.
Proof.
  unfold escapes. rewrite filter_cons. destruct (needs_escape b); case_decide; done.
Qed.

(** The sizing loop accepts exactly when every escape fits. *)
Lemma encode_size_fits input needed capacity :
  needed <= capacity ->
  is_Some (encode_size input needed capacity) <-> needed + Z.of_nat (escapes input) <= capacity.
Proof.
  revert needed. induction input as [|b input IH]; intros needed Hn.
  { cbn. split; [lia|eauto]. }
  cbn [encode_size]. rewrite escapes_cons. destruct (needs_escape b).
  - destruct (Z.eqb_spec needed capacity).
    + split; [intros [? [=]]|lia].
    + rewrite IH by lia. split; lia.
  - rewrite IH by lia. split; lia.
Qed.

Lemma needs_escape_cases b :
  needs_escape b = true ->
  plain (Z.lxor b 0x20) /\ Z.lxor (Z.lxor b 0x20) 0x20 = b.
Proof.
  intros Hb. split.
  - unfold needs_escape in Hb. bool_hyps. destruct Hb as [Hb|Hb]; bool_hyps;
      [destruct Hb as [Hb|Hb]; bool_hyps; [destruct Hb as [Hb|Hb]|]|];
      apply Z.eqb_eq in Hb; subst b; by split.
  - by rewrite Z.lxor_assoc, Z.lxor_nilpotent, Z.lxor_0_r.
Qed.
Lemma needs_escape_not b :
  needs_escape b = false -> plain b /\ b <> ch_escape /\ b <> ch_repeat.
Proof. unfold needs_escape, plain. intros. bool_props. done. Qed.

Record encodes (input : list Z) (sum : Z) (out : list Z * Z) : Prop := {
  en_plain : Forall plain out.1;
  en_sum : out.2 = checksum sum out.1;
  en_length : length out.1 = (length input + escapes input)%nat;
  en_unpack : forall capacity acc,
    Z.of_nat (length acc + length input) <= capacity ->
    unpack capacity acc out.1 = Some (acc ++ input)
}.

(** The reference decoder inverts the writing loop, whose sum is the body's. *)
Lemma encode_body_encodes input sum : encodes input sum (encode_body input sum).
Proof.
  revert sum. induction input as [|b input IH]; intros sum.
  { split; [constructor|done|done|]. intros. by rewrite app_nil_r. }
  cbn [encode_body]. destruct (needs_escape b) eqn:Eb; cbv zeta.
  - specialize (IH (w8 (w8 (sum + ch_escape) + Z.lxor b 0x20))).
    destruct (encode_body _ _) as [out s]. destruct IH as [Hp Hs Hl Hu]. cbn [fst snd] in *.
    destruct (needs_escape_cases b Eb) as [Hpb Hx]. split.
    + constructor; [by split|]. by constructor.
    + done.
    + cbn [length fst]. rewrite escapes_cons, Eb, Hl. lia.
    + intros capacity acc Hc. cbn [length] in Hc. cbn [fst unpack]. rewrite Z.eqb_refl, Hx.
      rewrite (proj2 (Z.eqb_neq _ _)) by lia. rewrite Hu by (rewrite length_app; cbn; lia).
      by rewrite <- app_assoc.
  - specialize (IH (w8 (sum + b))).
    destruct (encode_body _ _) as [out s]. destruct IH as [Hp Hs Hl Hu]. cbn [fst snd] in *.
    destruct (needs_escape_not b Eb) as (Hpb & H1 & H2). split.
    + by constructor.
    + done.
    + cbn [length fst]. rewrite escapes_cons, Eb, Hl. lia.
    + intros capacity acc Hc. cbn [length] in Hc. cbn [fst unpack].
      rewrite (proj2 (Z.eqb_neq _ _) H1), (proj2 (Z.eqb_neq _ _) H2).
      rewrite (proj2 (Z.eqb_neq _ _)) by lia. rewrite Hu by (rewrite length_app; cbn; lia).
      by rewrite <- app_assoc.
Qed.

(** The encoder succeeds exactly when the frame fits. *)
Lemma dw_encode_fits input capacity :
  dw_encode (Some input) (Z.of_nat (length input)) true capacity =
    if 4 + Z.of_nat (length input) + Z.of_nat (escapes input) <=? capacity
    then Some (let '(out, sum) := encode_body input 0 in
               ch_dollar :: out ++ [ch_hash; digit (Z.shiftr sum 4); digit (Z.land sum 15)])
    else None.
Proof.
  unfold dw_encode. rewrite bool_decide_eq_true_2 by eauto. rewrite andb_false_r. cbn [negb orb].
  change (default [] (Some input)) with input. destruct (Z.leb_spec (4 + Z.of_nat (length input) + Z.of_nat (escapes input)) capacity) as [Hc|Hc].
  - rewrite (proj2 (Z.ltb_ge _ _)) by lia. cbn [orb]. rewrite (proj2 (Z.ltb_ge _ _)) by lia.
    destruct (proj2 (encode_size_fits input (Z.of_nat (length input) + 4) capacity ltac:(lia)) ltac:(lia)) as [n ->].
    by destruct (encode_body input 0).
  - destruct (capacity <? 4) eqn:E1; [done|]. destruct (capacity - 4 <? _) eqn:E2; [done|]. bool_props.
    cbn [orb]. destruct (encode_size _ _ _) eqn:E; [|done].
    pose proof (proj1 (encode_size_fits input (Z.of_nat (length input) + 4) capacity ltac:(lia)) ltac:(eauto)). lia.
Qed.

(** ** Theorems *)

(** C39: The parser implements the reference decoder: a frame whose body decodes
    within the capacity and whose two digits are its checksum, or zero where
    that is allowed, gives exactly one packet event, on its last byte, with the
    decoded payload; wrong digits give a checksum error and an empty payload;
    a body that does not decode gives no packet at any byte. *)
Theorem dw_feed_packet p body high low :
  dw_state p = SEEK -> Forall plain body -> is_hex high -> is_hex low ->
  let '(p', es) := dw_feed_all p (ch_dollar :: body ++ [ch_hash; high; low]) in
  match unpack (dw_capacity p) [] body with
  | Some payload =>
      dw_state p' = SEEK /\
      if accepts (dw_zero_checksum p) (checksum 0 body) high low
      then dw_payload p' = payload /\ es = replicate (length body + 3) DW_MORE ++ [DW_PACKET]
      else dw_payload p' = [] /\ es = replicate (length body + 3) DW_MORE ++ [DW_BAD_CHECKSUM]
  | None => DW_PACKET ∉ es
  end.
Proof. apply dw_feed_packet_correct. Qed.

(** Encoding then parsing is the identity: whatever bytes are encoded, the
    frame has the size the encoder promised and fits its buffer, and a parser
    between packets that has room for the payload reports it, as one packet on
    the last byte, unchanged. *)
Theorem dw_encode_feed p input capacity frame :
  dw_encode (Some input) (Z.of_nat (length input)) true capacity = Some frame ->
  dw_state p = SEEK -> Z.of_nat (length input) <= dw_capacity p ->
  (Z.of_nat (length frame) = 4 + Z.of_nat (length input) + Z.of_nat (escapes input) /\
   Z.of_nat (length frame) <= capacity) /\
  let '(p', es) := dw_feed_all p frame in
  dw_payload p' = input /\ dw_state p' = SEEK /\
  es = replicate (length frame - 1) DW_MORE ++ [DW_PACKET].
Proof.
  rewrite dw_encode_fits. destruct (Z.leb_spec (4 + Z.of_nat (length input) + Z.of_nat (escapes input)) capacity) as [Hc|]; [|done].
  intros [= <-] Hst Hcap. destruct (encode_body_encodes input 0) as [Hp Hs Hl Hu].
  destruct (encode_body input 0) as [out sum]. cbn [fst snd] in *.
  specialize (Hu (dw_capacity p) [] ltac:(cbn; lia)). cbn [app] in Hu.
  destruct (digits_split sum) as (Hd & Hh & Hlo); [subst; by apply checksum_range|].
  pose proof (dw_feed_packet_correct p out _ _ Hst Hp Hh Hlo) as H. rewrite Hu in H.
  unfold accepts in H. rewrite Hd, <- Hs, Z.eqb_refl in H. cbn [orb] in H.
  split; [cbn [length]; rewrite length_app; cbn [length]; lia|].
  destruct (dw_feed_all p _) as [p' es]. destruct H as (? & ? & ->). split; [done|]. split; [done|].
  do 2 f_equal. cbn [length]. rewrite length_app. cbn [length]. lia.
Qed.

(** The buffer and the options of a parser are the caller's, its payload fits. *)
Definition bounded (capacity : Z) (zero : bool) (p : DWParser) : Prop :=
  dw_capacity p = capacity /\ dw_zero_checksum p = zero /\ dw_length p <= capacity /\ byte_ok (dw_sum p).

Lemma append_bounded capacity zero p b : bounded capacity zero p -> bounded capacity zero (append p b).1.
Proof.
  intros (Hc & Hz & Hl & Hs). unfold append. pose proof (Z.eqb_spec (dw_length p) (dw_capacity p)) as He.
  destruct (_ =? _); inversion He; (split; [done|split; [done|split; [|done]]]).
  - unfold dw_length in *. cbn [length dw_payload fail set_payload fst] in *. lia.
  - unfold dw_length in *. cbn [dw_payload set_payload fst]. rewrite length_app. cbn [length]. lia.
Qed.
Lemma feed_bounded capacity zero p b : bounded capacity zero p -> bounded capacity zero (dw_feed p b).1.
Proof.
  intros Hb. pose proof Hb as (Hc & Hz & Hl & Hs). unfold dw_feed. cbv zeta.
  assert (0 <= capacity) as Hpos by (unfold dw_length in Hl; lia).
  assert (forall q, dw_capacity q = capacity -> dw_zero_checksum q = zero -> byte_ok (dw_sum q) ->
    dw_payload q = [] -> bounded capacity zero q) as Hnil.
  { intros q ?? ? Hq. split_and!; try done; [unfold dw_length; by rewrite Hq|by destruct (dw_sum q)..]. }
  assert (forall q, dw_capacity q = capacity -> dw_zero_checksum q = zero -> byte_ok (dw_sum q) ->
    dw_payload q = dw_payload p -> bounded capacity zero q) as Hsame.
  { intros q ?? ? Hq. unfold bounded, dw_length. rewrite Hq. by split. }
  pose proof (w8_range (dw_sum p + b)) as Hw.
  destruct (dw_state p).
  - destruct (_ =? _); [done|]. destruct (_ =? _); [done|]. destruct (_ || _); [by apply Hnil|done].
  - destruct (b =? ch_dollar); [by apply Hnil|]. destruct (b =? ch_hash); [by apply Hsame|].
    destruct (b =? ch_escape); [by apply Hsame|]. destruct (b =? ch_repeat); [by apply Hsame|].
    apply append_bounded. by apply Hsame.
  - apply append_bounded. by apply Hsame.
  - destruct (_ || _) eqn:Eb; [by apply Hnil|]. destruct (_ <? b - 29) eqn:Er; [by apply Hnil|]. bool_props.
    split; [done|split; [done|split; [|done]]].
    unfold dw_length in *. cbn [dw_payload set_payload fst dw_capacity set_state set_sum] in *.
    rewrite length_app, length_replicate. lia.
  - destruct (_ <? 0); [by apply Hnil|by apply Hsame].
  - destruct (_ <? 0); [by apply Hnil|]. destruct (_ && _); [by apply Hnil|by apply Hsame].
Qed.

(** Whatever bytes arrive, the parser writes within the caller's buffer: the
    payload never outgrows the capacity, which it never changes. *)
Theorem dw_feed_bounded buffer capacity bs :
  0 <= capacity ->
  let p := (dw_feed_all (dw_init buffer capacity) bs).1 in
  dw_length p <= dw_capacity p /\ dw_capacity p = (if buffer then capacity else 0).
Proof.
  intros Hc. set (cap := if buffer then capacity else 0).
  assert (forall p, bounded cap false p -> bounded cap false (dw_feed_all p bs).1) as H.
  { induction bs as [|b bs IH]; intros p Hp; [done|]. rewrite feed_all_cons. by apply IH, feed_bounded. }
  destruct (H (dw_init buffer capacity)) as (Hca & _ & Hl & _).
  { split; [done|split; [done|split; [|done]]]. unfold dw_length, cap. cbn. destruct buffer; lia. }
  cbv zeta. rewrite Hca. by split.
Qed.

(** ** Witnesses *)

(** An escape and a run into a buffer of 16. *)
Lemma dw_feed_packet_witness :
  exists p es, dw_feed_all (dw_init true 16) (ch_dollar :: [97; 125; 10; 99; 42; 34] ++ [ch_hash; 57; 55]) = (p, es) /\
    dw_payload p = [97; 42; 99; 99; 99; 99; 99; 99].
Proof.
  pose proof (dw_feed_packet (dw_init true 16) [97; 125; 10; 99; 42; 34] 57 55
    eq_refl ltac:(repeat constructor; discriminate) ltac:(discriminate) ltac:(discriminate)) as H.
  destruct (dw_feed_all _ _) as [p es]. exists p, es. split; [reflexivity|].
  vm_compute in H. apply H.
Defined.
Lemma dw_encode_feed_witness :
  exists p es, dw_feed_all (dw_init true 4) (ch_dollar :: [125; 3; 1] ++ [ch_hash; 56; 49]) = (p, es) /\
    dw_payload p = [35; 1].
Proof.
  destruct (dw_encode_feed (dw_init true 4) [35; 1] 16 [36; 125; 3; 1; 35; 56; 49]) as [_ H];
    [vm_compute; reflexivity|reflexivity|vm_compute; discriminate|].
  change (ch_dollar :: [125; 3; 1] ++ [ch_hash; 56; 49]) with [36; 125; 3; 1; 35; 56; 49].
  destruct (dw_feed_all _ _) as [p es]. exists p, es. split; [reflexivity|]. apply H.
Defined.
Lemma dw_feed_bounded_witness :
  dw_length (dw_feed_all (dw_init true 2) [36; 97; 98; 99; 35]).1 <= 2.
Proof.
  destruct (dw_feed_bounded true 2 [36; 97; 98; 99; 35] ltac:(discriminate)) as [H1 H2].
  rewrite H2 in H1. exact H1.
Defined.
