(* ===== verification/ArenaControl.v ===== *)
(** * ArenaControl: the arena provider's messages (authorization/Control/ArenaControl.c)

    Fixed-size requests and replies in network byte order: the validity check,
    the encoder and the decoder, and the four operations that turn a request
    into a command or a reply and back.

    A buffer with its size is the list of its bytes, [None] for a null pointer;
    an output parameter is given with its previous content and returned with the
    new one. *)
From S2P Require Import Prelude.

Definition TKAC_SIZE : Z := 96.
Record TKACRequest := mkRequest {
  rq_pid : Z; rq_uid : Z;
  rq_address : Z; rq_size : Z; rq_challenge_address : Z; rq_deadline_ms : Z;
  rq_challenge : list Z; rq_identifier : list Z
}.
Inductive TKACOutcome := TKAC_PREPARED | TKAC_REJECTED | TKAC_FAILED_DETACHED | TKAC_UNCERTAIN | TKAC_PENDING.
Inductive TKACCommand := TKAC_SUBMIT | TKAC_POLL.
Definition outcome_value (o : TKACOutcome) : Z :=
  match o with
  | TKAC_PREPARED => 1 | TKAC_REJECTED => 2 | TKAC_FAILED_DETACHED => 3
  | TKAC_UNCERTAIN => 4 | TKAC_PENDING => 5
  end.
Definition command_value (c : TKACCommand) : Z := match c with TKAC_SUBMIT => 3 | TKAC_POLL => 4 end.
Definition INT_MAX : Z := 2 ^ 31 - 1.

(** The value of a big-endian field and the bytes written for one. *)
Definition read_number (p : list Z) : Z :=
  foldl (fun value b => w64 (Z.lor (Z.shiftl value 8) b)) 0 p.
Fixpoint write_number (n : nat) (value : Z) : list Z :=
  match n with
  | O => []
  | S n => write_number n (Z.shiftr value 8) ++ [w8 value]
  end.
Definition nonzero (bytes : list Z) : bool := negb (foldl Z.lor 0 bytes =? 0).

Definition valid (r : TKACRequest) : bool :=
  let maximum := 0x0000ffffffffffff in
  (1 <? rq_pid r) && (rq_pid r <=? INT_MAX) && negb (rq_size r =? 0) &&
  (rq_size r <=? 512 * 1024 * 1024) && (rq_size r mod 16384 =? 0) && (16384 <=? rq_address r) &&
  (rq_address r mod 16384 =? 0) && (rq_address r <=? maximum - rq_size r) &&
  (4096 <=? rq_challenge_address r) && (rq_challenge_address r <=? maximum - 32) &&
  ((w64 (rq_challenge_address r + 32) <=? rq_address r) ||
   (w64 (rq_address r + rq_size r) <=? rq_challenge_address r)) &&
  negb (rq_deadline_ms r =? 0) && nonzero (rq_challenge r) && nonzero (rq_identifier r).

(** ["TKAR\1\1\0\0"]. *)
Definition tkar : list Z := [84; 75; 65; 82; 1].
Definition request_magic : list Z := tkar ++ [1; 0; 0].
Definition sized (bytes : list Z) : bool := Z.of_nat (length bytes) =? TKAC_SIZE.

Definition message (r : TKACRequest) : list Z :=
  request_magic ++ write_number 4 (rq_pid r) ++ write_number 4 (rq_uid r) ++
  write_number 8 (rq_address r) ++ write_number 8 (rq_size r) ++
  write_number 8 (rq_challenge_address r) ++ write_number 8 (rq_deadline_ms r) ++
  rq_challenge r ++ rq_identifier r.
Definition tkac_encode (r : option TKACRequest) (out : option (list Z)) : bool * option (list Z) :=
  match r, out with
  | Some r', Some buffer =>
    if negb (sized buffer) || negb (valid r') then (false, out) else (true, Some (message r'))
  | _, _ => (false, out)
  end.

Definition staged (bytes : list Z) : TKACRequest :=
  mkRequest (w32 (read_number (slice 8 4 bytes))) (w32 (read_number (slice 12 4 bytes)))
    (read_number (slice 16 8 bytes)) (read_number (slice 24 8 bytes))
    (read_number (slice 32 8 bytes)) (read_number (slice 40 8 bytes))
    (slice 48 32 bytes) (slice 80 16 bytes).
Definition tkac_decode (bytes : option (list Z)) (r : option TKACRequest) : bool * option TKACRequest :=
  match bytes, r with
  | Some b, Some _ =>
    if negb (sized b) || negb (bool_decide (slice 0 8 b = request_magic)) then (false, r) else
    if negb (valid (staged b)) then (false, r) else (true, Some (staged b))
  | _, _ => (false, r)
  end.

(** [decoded] is a local of the callers. *)
Definition decodes (request : option (list Z)) : bool :=
  (tkac_decode request (Some (mkRequest 0 0 0 0 0 0 [] []))).1.
Definition byte_at (bytes : list Z) (i : nat) : Z := default 0 (bytes !! i).
(** [outcome] is the value of the caller's enumeration, in range or not. *)
Definition tkac_reply (request : option (list Z)) (outcome : Z) (out : option (list Z))
    : bool * option (list Z) :=
  match out, request with
  | Some buffer, Some rq =>
    if negb (sized buffer) || (outcome <? 1) || (5 <? outcome) || negb (decodes request) then (false, out)
    else (true, Some (<[6%nat := w8 outcome]> (<[5%nat := 2]> rq)))
  | _, _ => (false, out)
  end.
Definition outcome_of (v : Z) : option TKACOutcome :=
  match v with
  | 1 => Some TKAC_PREPARED | 2 => Some TKAC_REJECTED | 3 => Some TKAC_FAILED_DETACHED
  | 4 => Some TKAC_UNCERTAIN | 5 => Some TKAC_PENDING | _ => None
  end.
Definition tkac_match (request reply : option (list Z)) (outcome : option TKACOutcome)
    : bool * option TKACOutcome :=
  match request, reply, outcome with
  | Some rq, Some rp, Some _ =>
    if negb (sized rp) || negb (decodes request) ||
       negb (bool_decide (slice 0 6 rp = tkar ++ [2])) || negb (byte_at rp 7 =? 0) ||
       (byte_at rp 6 <? 1) || (5 <? byte_at rp 6) ||
       negb (bool_decide (slice 8 88 rq = slice 8 88 rp)) then (false, outcome)
    else (true, outcome_of (byte_at rp 6))
  | _, _, _ => (false, outcome)
  end.
(** [command] is the value of the caller's enumeration, in range or not. *)
Definition tkac_command (request : option (list Z)) (command : Z) (out : option (list Z))
    : bool * option (list Z) :=
  match out, request with
  | Some buffer, Some rq =>
    if negb (sized buffer) || (negb (command =? 3) && negb (command =? 4)) || negb (decodes request)
    then (false, out) else (true, Some (<[5%nat := w8 command]> rq))
  | _, _ => (false, out)
  end.
Definition command_of (v : Z) : option TKACCommand :=
  match v with 3 => Some TKAC_SUBMIT | 4 => Some TKAC_POLL | _ => None end.
Definition tkac_normalize (bytes : option (list Z)) (command : option TKACCommand) (request : option (list Z))
    : bool * option TKACCommand * option (list Z) :=
  match bytes, command, request with
  | Some b, Some _, Some buffer =>
    if negb (sized b) || negb (sized buffer) ||
       (negb (byte_at b 5 =? 3) && negb (byte_at b 5 =? 4)) then (false, command, request) else
    let normalized := <[5%nat := 1]> b in
    if negb (decodes (Some normalized)) then (false, command, request)
    else (true, command_of (byte_at b 5), Some normalized)
  | _, _, _ => (false, command, request)
  end.

(** ** Numbers *)

Lemma length_write_number n v : length (write_number n v) = n.
Proof. revert v. induction n as [|n IH]; intros v; [done|]. cbn. rewrite length_app, IH. cbn. lia. Qed.
Lemma write_number_ok n v : Forall byte_ok (write_number n v).
Proof.
  revert v. induction n as [|n IH]; intros v; [constructor|]. cbn. apply Forall_app.
  split; [apply IH|]. repeat constructor; apply w8_range.
Qed.
Lemma pow_byte n : 2 ^ (8 * Z.of_nat (S n)) = 256 * 2 ^ (8 * Z.of_nat n).
Proof. replace (8 * Z.of_nat (S n)) with (8 + 8 * Z.of_nat n) by lia. by rewrite Z.pow_add_r by lia. Qed.
Lemma read_number_app p b :
  read_number (p ++ [b]) = w64 (Z.lor (Z.shiftl (read_number p) 8) b).
Proof. unfold read_number. by rewrite foldl_app. Qed.
Lemma lor_byte v b : byte_ok b -> Z.lor (Z.shiftl v 8) b = 256 * v + b.
Proof. intros. rewrite Z.lor_comm, lor_shiftl_add by done. lia. Qed.

Lemma read_number_range p :
  Forall byte_ok p -> (length p <= 8)%nat -> 0 <= read_number p < 2 ^ (8 * Z.of_nat (length p)).
Proof.
  induction p as [|b p IH] using rev_ind; [cbn; lia|]. rewrite Forall_app, length_app. cbn [length].
  intros [Hp [Hb _]%Forall_cons] Hl. specialize (IH Hp ltac:(lia)).
  rewrite read_number_app, lor_byte by done. replace (length p + 1)%nat with (S (length p)) by lia.
  rewrite pow_byte. unfold byte_ok in Hb. rewrite w64_small; [lia|].
  assert (2 ^ (8 * Z.of_nat (length p)) <= 2 ^ 56) by (apply Z.pow_le_mono_r; lia). unfold u64_ok. lia.
Qed.
Lemma read_write_number n v :
  (n <= 8)%nat -> 0 <= v < 2 ^ (8 * Z.of_nat n) -> read_number (write_number n v) = v.
Proof.
  revert v. induction n as [|n IH]; intros v Hn Hv; [cbn in *; lia|]. cbn [write_number].
  rewrite read_number_app. rewrite pow_byte in Hv. rewrite Z.shiftr_div_pow2 by lia. change (2 ^ 8) with 256.
  rewrite IH; [|lia|split; [apply Z.div_pos; lia|apply Z.div_lt_upper_bound; lia]].
  rewrite lor_byte by apply w8_range. unfold w8. change (2 ^ 8) with 256. rewrite <- Z.div_mod by lia.
  apply w64_small. assert (2 ^ (8 * Z.of_nat n) <= 2 ^ 56) by (apply Z.pow_le_mono_r; lia). unfold u64_ok. lia.
Qed.
Lemma write_read_number p :
  Forall byte_ok p -> (length p <= 8)%nat -> write_number (length p) (read_number p) = p.
Proof.
  induction p as [|b p IH] using rev_ind; [done|]. rewrite Forall_app, length_app. cbn [length].
  intros [Hp [Hb _]%Forall_cons] Hl. replace (length p + 1)%nat with (S (length p)) by lia.
  pose proof (read_number_range p Hp ltac:(lia)) as Hr. cbn [write_number].
  rewrite read_number_app, lor_byte by done. unfold byte_ok in Hb.
  assert (2 ^ (8 * Z.of_nat (length p)) <= 2 ^ 56) by (apply Z.pow_le_mono_r; lia).
  rewrite w64_small by (unfold u64_ok; lia). rewrite Z.shiftr_div_pow2 by lia. change (2 ^ 8) with 256.
  unfold w8. change (2 ^ 8) with 256. rewrite (Z.mul_comm 256), Z.div_add_l, Z.div_small, Z.add_0_r by lia.
  rewrite IH by (done || lia). by rewrite (Z.add_comm _ b), Z.mod_add, Z.mod_small by lia.
Qed.

(** ** Requests *)

(** A request as the structure holds it: every field at its width. *)
Record request_ok (r : TKACRequest) : Prop := {
  ok_pid : 0 <= rq_pid r < 2 ^ 32; ok_uid : 0 <= rq_uid r < 2 ^ 32;
  ok_address : u64_ok (rq_address r); ok_size : u64_ok (rq_size r);
  ok_challenge_address : u64_ok (rq_challenge_address r); ok_deadline : u64_ok (rq_deadline_ms r);
  ok_challenge : length (rq_challenge r) = 32%nat /\ Forall byte_ok (rq_challenge r);
  ok_identifier : length (rq_identifier r) = 16%nat /\ Forall byte_ok (rq_identifier r)
}.

Lemma slice_app_skip {A} (l1 l2 : list A) i n :
  (length l1 <= i)%nat -> slice i n (l1 ++ l2) = slice (i - length l1) n l2.
Proof. intros. unfold slice. by rewrite drop_app_ge. Qed.
Lemma slice_app_here {A} (l1 l2 : list A) n : n = length l1 -> slice 0 n (l1 ++ l2) = l1.
Proof. intros ->. unfold slice. rewrite drop_0. by rewrite take_app_length. Qed.
Lemma slice_split {A} i n k (l : list A) : slice i n l ++ slice (i + n) k l = slice i (n + k) l.
Proof. unfold slice. rewrite <- drop_drop. apply take_take_drop. Qed.
Lemma slice_all {A} n (l : list A) : length l = n -> slice 0 n l = l.
Proof. intros <-. unfold slice. rewrite drop_0. by rewrite firstn_all. Qed.

Lemma length_message r : request_ok r -> length (message r) = 96%nat.
Proof.
  intros []. unfold message. rewrite !length_app, !length_write_number.
  destruct ok_challenge0 as [-> _], ok_identifier0 as [-> _]. reflexivity.
Qed.
Lemma message_bytes r : request_ok r -> Forall byte_ok (message r).
Proof.
  intros []. assert (Forall byte_ok request_magic) by (by repeat constructor). unfold message.
  rewrite !Forall_app. split_and!; try apply write_number_ok; done || apply ok_challenge0 || apply ok_identifier0.
Qed.
Lemma message_magic r : slice 0 8 (message r) = request_magic.
Proof. unfold message. by rewrite slice_app_here. Qed.

(** The fields of a message, cut where the decoder cuts. *)
Ltac cut_field :=
  repeat (rewrite slice_app_skip by (rewrite ?length_write_number; cbn; lia); rewrite ?length_write_number; cbn [length Nat.sub]).
Lemma staged_message r : request_ok r -> staged (message r) = r.
Proof.
  intros []. destruct ok_challenge0 as [Hc _], ok_identifier0 as [Hi _]. unfold staged, message.
  destruct r as [pid uid address size challenge_address deadline challenge identifier].
  cbn [rq_pid rq_uid rq_address rq_size rq_challenge_address rq_deadline_ms rq_challenge rq_identifier] in *.
  assert (forall n v rest, slice 0 n (write_number n v ++ rest) = write_number n v) as Hw
    by (intros; apply slice_app_here; by rewrite length_write_number).
  change (length request_magic) with 8%nat.
  f_equal; do 8 try (rewrite slice_app_skip by (rewrite ?length_write_number; (rewrite Hc || idtac); cbn [length request_magic tkar app]; lia);
    rewrite ?length_write_number; change (length request_magic) with 8%nat; rewrite ?Hc; cbn [Nat.sub]).
  1-6: rewrite Hw, read_write_number by (done || lia).
  1,2: by apply Z.mod_small.
  all: try done.
  - apply slice_app_here. by rewrite Hc.
  - by apply slice_all.
Qed.

Lemma staged_ok bytes : length bytes = 96%nat -> Forall byte_ok bytes -> request_ok (staged bytes).
Proof.
  intros Hl Hb. assert (forall i, (i + 8 <= 96)%nat -> u64_ok (read_number (slice i 8 bytes))) as Hn.
  { intros i Hi. pose proof (read_number_range (slice i 8 bytes) ltac:(by apply Forall_slice)) as H.
    rewrite length_slice in H by lia. apply H. lia. }
  split; cbn; try apply w32_range; try (apply Hn; lia);
    (split; [rewrite length_slice by lia; done|by apply Forall_slice]).
Qed.
Lemma message_staged bytes :
  length bytes = 96%nat -> Forall byte_ok bytes -> slice 0 8 bytes = request_magic ->
  message (staged bytes) = bytes.
Proof.
  intros Hl Hb Hm. unfold message, staged.
  cbn [rq_pid rq_uid rq_address rq_size rq_challenge_address rq_deadline_ms rq_challenge rq_identifier].
  assert (forall i n, (i + n <= 96)%nat -> (n <= 8)%nat ->
    write_number n (read_number (slice i n bytes)) = slice i n bytes) as Hw.
  { intros i n H1 H2. pose proof (write_read_number (slice i n bytes) ltac:(by apply Forall_slice)) as H.
    rewrite length_slice in H by lia. by apply H. }
  assert (forall i, (i + 4 <= 96)%nat -> w32 (read_number (slice i 4 bytes)) = read_number (slice i 4 bytes)) as H32.
  { intros i H1. pose proof (read_number_range (slice i 4 bytes) ltac:(by apply Forall_slice)) as H.
    rewrite length_slice in H by lia. apply Z.mod_small, H. lia. }
  rewrite !H32, !Hw, <- Hm by lia. rewrite !slice_split. by apply slice_all.
Qed.

(** ** The operations *)

Lemma sized_length bytes : sized bytes = true <-> length bytes = 96%nat.
Proof. unfold sized, TKAC_SIZE. rewrite Z.eqb_eq. lia. Qed.

(** What the decoder accepts. *)
Definition accepted (b : list Z) : Prop :=
  length b = 96%nat /\ slice 0 8 b = request_magic /\ valid (staged b) = true.
Lemma tkac_decode_accepts b r0 :
  tkac_decode (Some b) (Some r0) = (true, Some (staged b)) /\ accepted b \/
  tkac_decode (Some b) (Some r0) = (false, Some r0) /\ ~ accepted b.
Proof.
  unfold tkac_decode, accepted. rewrite <- sized_length. destruct (sized b); cbn [negb orb]; [|right; by split; [|intros []]].
  case_bool_decide; cbn [negb]; [|right; split; [done|by intros (_ & ? & _)]].
  destruct (valid (staged b)); cbn [negb]; [by left|right; split; [done|by intros (_ & _ & ?)]].
Qed.
Lemma tkac_decode_true b r0 r : tkac_decode (Some b) (Some r0) = (true, Some r) <-> accepted b /\ r = staged b.
Proof.
  destruct (tkac_decode_accepts b r0) as [[-> Ha]|[-> Ha]].
  - split; [by intros [= <-]|by intros [_ ->]].
  - split; [done|by intros [? _]].
Qed.
Lemma decodes_true b : decodes (Some b) = true <-> accepted b.
Proof. unfold decodes. by destruct (tkac_decode_accepts b (mkRequest 0 0 0 0 0 0 [] [])) as [[-> Ha]|[-> Ha]]. Qed.

Lemma tkac_encode_true r out b :
  length out = 96%nat ->
  tkac_encode (Some r) (Some out) = (true, Some b) <-> valid r = true /\ b = message r.
Proof.
  intros Ho%sized_length. unfold tkac_encode. rewrite Ho. destruct (valid r); cbn [negb orb]; (split; [by intros [= <-]|by intros [? ->]]).
Qed.

(** C40: The decoder accepts exactly the encodings of valid requests, one message to
    each request, and refuses everything else. *)
Theorem tkac_decode_encode b r r0 out :
  Forall byte_ok b -> request_ok r -> length out = 96%nat ->
  tkac_decode (Some b) (Some r0) = (true, Some r) <-> tkac_encode (Some r) (Some out) = (true, Some b).
Proof.
  intros Hb Hr Hout. rewrite tkac_decode_true, tkac_encode_true by done. split.
  - intros [(Hl & Hm & Hv) ->]. split; [done|]. symmetry. by apply message_staged.
  - intros [Hv ->]. rewrite staged_message by done. split; [|done].
    split; [by apply length_message|]. split; [apply message_magic|]. by rewrite staged_message.
Qed.

(** A message is its magic, its two variable bytes and its body. *)
Lemma bytes_split b : length b = 96%nat ->
  b = slice 0 6 b ++ [byte_at b 6; byte_at b 7] ++ slice 8 88 b.
Proof.
  intros Hl. assert ([byte_at b 6; byte_at b 7] = slice 6 2 b) as ->.
  { do 8 (destruct b as [|? b]; [discriminate Hl|]). reflexivity. }
  rewrite (slice_split 6 2), (slice_split 0 6). symmetry. by apply slice_all.
Qed.
Lemma request_split b : accepted b -> b = request_magic ++ slice 8 88 b.
Proof.
  intros (Hl & Hm & _). rewrite <- Hm. rewrite (slice_split 0 8). symmetry. by apply slice_all.
Qed.

Lemma outcome_of_value v o : outcome_of v = Some o <-> v = outcome_value o.
Proof.
  split; [|intros ->; by destruct o]. unfold outcome_of.
  repeat (case_match; try done); by intros [= <-].
Qed.
Lemma command_of_value v c : command_of v = Some c <-> v = command_value c.
Proof.
  split; [|intros ->; by destruct c]. unfold command_of.
  repeat (case_match; try done); by intros [= <-].
Qed.

(** A request's owner takes as a reply to it, with an outcome, exactly the
    message the provider writes for that request and outcome. *)
Theorem tkac_reply_match rq rp o o0 out :
  length out = 96%nat ->
  tkac_match (Some rq) (Some rp) (Some o0) = (true, Some o) <->
  tkac_reply (Some rq) (outcome_value o) (Some out) = (true, Some rp).
Proof.
  intros Hout%sized_length. unfold tkac_match, tkac_reply. rewrite Hout.
  pose proof (decodes_true rq) as Hd. destruct (decodes (Some rq)); cbn [negb].
  2: { rewrite !orb_true_r. cbn [orb]. split; intros [=]. }
  apply proj1 in Hd. specialize (Hd eq_refl). pose proof (request_split rq Hd) as Hrq.
  cbn [negb orb].
  assert ((outcome_value o <? 1) || (5 <? outcome_value o) = false) as -> by (by destruct o).
  rewrite !orb_false_r. cbn [negb orb].
  assert (<[6%nat := w8 (outcome_value o)]> (<[5%nat := 2]> rq) =
    tkar ++ [2; outcome_value o; 0] ++ slice 8 88 rq) as ->.
  { rewrite Hrq at 1. by destruct o. }
  split.
  - destruct (sized rp) eqn:Hs; [|done]. apply sized_length in Hs. cbn [negb orb].
    case_bool_decide as H1; [|done]. cbn [negb orb]. destruct (byte_at rp 7 =? 0) eqn:H2; [|done].
    cbn [negb orb]. case_bool_decide as H3; [|by rewrite orb_true_r]. cbn [negb]. rewrite orb_false_r.
    destruct (_ || _); [done|]. intros [= H4]. apply outcome_of_value in H4. apply Z.eqb_eq in H2.
    f_equal. f_equal. rewrite (bytes_split rp Hs), H1, H2, H3, H4. by rewrite <- app_assoc.
  - intros Heq. assert (rp = tkar ++ [2; outcome_value o; 0] ++ slice 8 88 rq) as -> by (by injection Heq).
    destruct Hd as [Hl _].
    assert (length (slice 8 88 rq) = 88%nat) as Hb by (by rewrite length_slice by lia).
    assert (sized (tkar ++ [2; outcome_value o; 0] ++ slice 8 88 rq) = true) as ->.
    { apply sized_length. rewrite !length_app, Hb. done. }
    assert (slice 8 88 (tkar ++ [2; outcome_value o; 0] ++ slice 8 88 rq) = slice 8 88 rq) as ->.
    { rewrite (app_assoc tkar), slice_app_skip by done. by apply slice_all. }
    rewrite bool_decide_true by (by rewrite (app_assoc tkar)). rewrite bool_decide_true by done.
    by destruct o.
Qed.

(** The provider normalizes a message to a command and a request exactly when
    the message is the owner's encoding of that command for that request. *)
Theorem tkac_command_normalize msg rq c c0 buffer out :
  length buffer = 96%nat -> length out = 96%nat ->
  tkac_normalize (Some msg) (Some c0) (Some buffer) = (true, Some c, Some rq) <->
  tkac_command (Some rq) (command_value c) (Some out) = (true, Some msg).
Proof.
  intros Hbuf%sized_length Hout%sized_length. unfold tkac_normalize, tkac_command. rewrite Hbuf, Hout.
  assert (negb (command_value c =? 3) && negb (command_value c =? 4) = false) as -> by (by destruct c).
  cbn [negb orb]. rewrite orb_false_r. split.
  - destruct (sized msg) eqn:Hs; [|done]. cbn [negb orb]. destruct (negb (byte_at msg 5 =? 3) && _) eqn:H5; [done|].
    pose proof (decodes_true (<[5%nat := 1]> msg)) as Hd. destruct (decodes (Some (<[5%nat:=1]> msg))) eqn:E; [|done].
    cbn [negb]. intros [= Hc <-]. rewrite E. cbn [negb]. apply command_of_value in Hc. f_equal. f_equal.
    rewrite list_insert_insert_eq. apply sized_length in Hs. rewrite list_insert_id; [done|].
    unfold byte_at in Hc. destruct (lookup_lt_is_Some_2 msg 5) as [x Hx]; [lia|]. rewrite Hx in *. cbn in Hc.
    subst x. f_equal. by destruct c.
  - pose proof (decodes_true rq) as Hd. destruct (decodes (Some rq)) eqn:E; cbn [negb]; [|done].
    intros [= <-]. apply proj1 in Hd. destruct (Hd eq_refl) as (Hl & Hm & _).
    assert (sized (<[5%nat:=w8 (command_value c)]> rq) = true) as -> by (apply sized_length; by rewrite length_insert).
    assert (byte_at (<[5%nat:=w8 (command_value c)]> rq) 5 = command_value c) as ->.
    { unfold byte_at. rewrite list_lookup_insert_eq by lia. by destruct c. }
    cbn [negb orb]. assert (negb (command_value c =? 3) && negb (command_value c =? 4) = false) as -> by (by destruct c).
    rewrite list_insert_insert_eq. assert (<[5%nat:=1]> rq = rq) as ->.
    { apply list_insert_id. change (rq !! 5%nat) with (rq !! (0 + 5)%nat). rewrite <- (lookup_slice 0 8) by lia. by rewrite Hm. }
    rewrite E. cbn [negb]. f_equal. f_equal. by apply command_of_value.
Qed.

(** ** Witnesses *)

Definition example_request : TKACRequest :=
  mkRequest 4242 501 0x100000 0x10000 0x8000 5000 (seq 1 32 ≫= fun n => [Z.of_nat n]) (seq 1 16 ≫= fun n => [Z.of_nat n]).
Lemma example_request_ok : request_ok example_request.
Proof. split; vm_compute; (split; try done; try by (repeat constructor)). Qed.
Lemma tkac_decode_encode_witness :
  (tkac_decode (Some (message example_request)) (Some example_request)).1 = true /\
  tkac_encode (Some example_request) (Some (replicate 96 0)) = (true, Some (message example_request)).
Proof.
  split; [vm_compute; reflexivity|].
  apply (tkac_decode_encode (message example_request) example_request example_request);
    [apply message_bytes, example_request_ok|exact example_request_ok|reflexivity|vm_compute; reflexivity].
Defined.
Lemma tkac_reply_match_witness :
  exists rp, tkac_reply (Some (message example_request)) 5 (Some (replicate 96 0)) = (true, Some rp) /\
    tkac_match (Some (message example_request)) (Some rp) (Some TKAC_REJECTED) = (true, Some TKAC_PENDING).
Proof.
  eexists. split; [vm_compute; reflexivity|].
  apply (tkac_reply_match _ _ TKAC_PENDING TKAC_REJECTED (replicate 96 0)); [reflexivity|vm_compute; reflexivity].
Defined.
Lemma tkac_command_normalize_witness :
  exists msg, tkac_command (Some (message example_request)) 4 (Some (replicate 96 0)) = (true, Some msg) /\
    tkac_normalize (Some msg) (Some TKAC_SUBMIT) (Some (replicate 96 0)) = (true, Some TKAC_POLL, Some (message example_request)).
Proof.
  eexists. split; [vm_compute; reflexivity|].
  apply (tkac_command_normalize _ _ TKAC_POLL TKAC_SUBMIT (replicate 96 0) (replicate 96 0));
    [reflexivity|reflexivity|vm_compute; reflexivity].
Defined.
