(* ===== verification/LocalRoute.v ===== *)
(** * LocalRoute: the local packet reflector (authorization/LocalRoute.c)

    The IPv4 header check and the exchange of a packet's endpoints. The packet
    with its length is the list of its bytes, [None] for a null pointer. *)
From S2P Require Import Prelude.

Record LocalRoute := mkRoute { interface_address : list Z; peer_address : list Z }.
Inductive LRResult := LR_REFLECTED | LR_UNRELATED | LR_MALFORMED.

Definition octet (p : list Z) (i : nat) : Z := default 0 (p !! i).
Definition header_size (p : list Z) : Z := Z.land (octet p 0) 15 * 4.
Definition total_size (p : list Z) : Z := Z.lor (Z.shiftl (octet p 2) 8) (octet p 3).
Definition lr_reflect (r : option LocalRoute) (packet : option (list Z)) : LRResult * option (list Z) :=
  match r, packet with
  | Some r, Some p =>
    let length := Z.of_nat (length p) in
    if length <? 20 then (LR_MALFORMED, packet) else
    if negb (Z.shiftr (octet p 0) 4 =? 4) || (header_size p <? 20) || (length <? header_size p) ||
       negb (total_size p =? length) then (LR_MALFORMED, packet) else
    if negb (bool_decide (slice 12 4 p = interface_address r)) ||
       negb (bool_decide (slice 16 4 p = peer_address r)) then (LR_UNRELATED, packet) else
    let source := slice 12 4 p in
    let p := splice 12 (slice 16 4 p) p in
    let p := splice 16 source p in
    (LR_REFLECTED, Some p)
  | _, _ => (LR_MALFORMED, packet)
  end.

(** ** What the route promises *)

(** The sum of the 16-bit words of a block in network order, whose one's
    complement is the Internet checksum of RFC 1071. *)
Fixpoint word_sum (bs : list Z) : Z :=
  match bs with
  | hi :: lo :: rest => 256 * hi + lo + word_sum rest
  | [b] => 256 * b
  | [] => 0
  end.
Definition internet_checksum (bs : list Z) : Z := 65535 - word_sum bs mod 65535.
(** The addresses, protocol and length that TCP and UDP checksums cover. *)
Definition pseudo_header (p : list Z) : list Z :=
  slice 12 8 p ++ [0; octet p 9] ++ slice 2 2 p.

Definition reverse_route (r : LocalRoute) : LocalRoute := mkRoute (peer_address r) (interface_address r).
Definition well_formed (p : list Z) : Prop :=
  Z.shiftr (octet p 0) 4 = 4 /\ 20 <= header_size p <= Z.of_nat (length p) /\
  total_size p = Z.of_nat (length p).

Lemma word_sum_app k a b : length a = (2 * k)%nat -> word_sum (a ++ b) = word_sum a + word_sum b.
Proof.
  revert a. induction k as [|k IH]; intros a Ha; [by destruct a|].
  destruct a as [|x [|y a]]; [done|cbn in Ha; lia|]. cbn [app word_sum].
  rewrite IH by (cbn in Ha; lia). lia.
Qed.

Lemma cut_twenty {A} (p : list A) :
  (20 <= length p)%nat -> p = take 12 p ++ slice 12 4 p ++ slice 16 4 p ++ drop 20 p.
Proof.
  intros. unfold slice. rewrite <- (take_drop 12 p) at 1. f_equal.
  rewrite <- (take_drop 4 (drop 12 p)) at 1. f_equal. rewrite drop_drop. cbn [Nat.add].
  rewrite <- (take_drop 4 (drop 16 p)) at 1. by rewrite drop_drop.
Qed.
Lemma swap_addresses (a x y z : list Z) :
  length a = 12%nat -> length x = 4%nat -> length y = 4%nat ->
  splice 16 x (splice 12 y (a ++ x ++ y ++ z)) = a ++ y ++ x ++ z.
Proof.
  intros Ha Hx Hy. do 13 (destruct a as [|? a]; try discriminate Ha).
  do 5 (destruct x as [|? x]; try discriminate Hx). do 5 (destruct y as [|? y]; try discriminate Hy).
  reflexivity.
Qed.

(** The exchanged packet, as the theorem describes it. *)
Definition reflected (p : list Z) : list Z := take 12 p ++ slice 16 4 p ++ slice 12 4 p ++ drop 20 p.

Section reflected.
Context (p : list Z) (Hlen : (20 <= length p)%nat).

Lemma part_lengths : length (take 12 p) = 12%nat /\ length (slice 12 4 p) = 4%nat /\ length (slice 16 4 p) = 4%nat.
Proof. split_and!; [rewrite length_take; lia|apply length_slice; lia..]. Qed.
Lemma reflected_length : length (reflected p) = length p.
Proof.
  destruct part_lengths as (H1 & H2 & H3). unfold reflected. rewrite !length_app, H1, H2, H3, length_drop. lia.
Qed.
Lemma reflected_splice : splice 16 (slice 12 4 p) (splice 12 (slice 16 4 p) p) = reflected p.
Proof.
  destruct part_lengths as (H1 & H2 & H3). unfold reflected. rewrite (cut_twenty p) at 3 by done.
  by apply swap_addresses.
Qed.
Lemma reflected_parts :
  take 12 (reflected p) = take 12 p /\ slice 12 4 (reflected p) = slice 16 4 p /\
  slice 16 4 (reflected p) = slice 12 4 p /\ drop 20 (reflected p) = drop 20 p.
Proof.
  destruct part_lengths as (H1 & H2 & H3). unfold reflected. set (a := take 12 p) in *.
  set (x := slice 12 4 p) in *. set (y := slice 16 4 p) in *. set (z := drop 20 p). clearbody a x y z.
  do 13 (destruct a as [|? a]; try discriminate H1). do 5 (destruct x as [|? x]; try discriminate H2).
  do 5 (destruct y as [|? y]; try discriminate H3). done.
Qed.
Lemma reflected_octet i : (i < 12)%nat -> octet (reflected p) i = octet p i.
Proof.
  intros. unfold octet. rewrite <- (lookup_take_lt (reflected p) 12), <- (lookup_take_lt p 12) by lia.
  destruct reflected_parts as (-> & _). done.
Qed.
Lemma reflected_twice : reflected (reflected p) = p.
Proof.
  destruct reflected_parts as (H1 & H2 & H3 & H4). unfold reflected at 1. rewrite H1, H2, H3, H4.
  symmetry. by apply cut_twenty.
Qed.
Lemma reflected_sum h : 20 <= h -> word_sum (take (Z.to_nat h) (reflected p)) = word_sum (take (Z.to_nat h) p).
Proof.
  intros Hh. destruct part_lengths as (H1 & H2 & H3). rewrite (cut_twenty p) at 2 by done. unfold reflected.
  set (a := take 12 p) in *. set (x := slice 12 4 p) in *. set (y := slice 16 4 p) in *. set (z := drop 20 p).
  rewrite !take_app_ge by lia. rewrite H1, H2, H3.
  rewrite !(word_sum_app 6 a), (word_sum_app 2 y), !(word_sum_app 2 x), (word_sum_app 2 y) by done. lia.
Qed.
Lemma reflected_pseudo : word_sum (pseudo_header (reflected p)) = word_sum (pseudo_header p).
Proof.
  destruct part_lengths as (H1 & H2 & H3). destruct reflected_parts as (P1 & P2 & P3 & _).
  assert (forall q : list Z, slice 12 8 q = slice 12 4 q ++ slice 16 4 q) as Hs.
  { intros q. unfold slice. change (drop 16 q) with (drop (12 + 4) q). rewrite <- drop_drop. symmetry. apply (take_take_drop (drop 12 q) 4 4). }
  unfold pseudo_header. rewrite !Hs, P2, P3, reflected_octet by lia.
  assert (slice 2 2 (reflected p) = slice 2 2 p) as ->.
  { apply list_eq. intros i. destruct (decide (i < 2)%nat).
    - rewrite !lookup_slice, <- (lookup_take_lt (reflected p) 12), <- (lookup_take_lt p 12) by lia. by rewrite P1.
    - rewrite !lookup_ge_None_2; [done|unfold slice; rewrite length_take; lia..]. }
  rewrite <- !app_assoc, !(word_sum_app 2 (slice 12 4 p)), !(word_sum_app 2 (slice 16 4 p)) by done.
  rewrite (word_sum_app 2 (slice 12 4 p)) by done. lia.
Qed.
End reflected.

Lemma lr_malformed r p : ~ well_formed p -> lr_reflect (Some r) (Some p) = (LR_MALFORMED, Some p).
Proof.
  unfold well_formed. intros H. unfold lr_reflect. destruct (_ <? 20) eqn:E1; [done|].
  destruct (_ || _ || _ || _) eqn:E2; [done|]. exfalso. apply H. bool_props. lia.
Qed.
Lemma lr_formed r p : well_formed p ->
  lr_reflect (Some r) (Some p) =
    if decide (slice 12 4 p = interface_address r /\ slice 16 4 p = peer_address r)
    then (LR_REFLECTED, Some (reflected p)) else (LR_UNRELATED, Some p).
Proof.
  intros (H1 & H2 & H3). unfold lr_reflect. rewrite H1, H3, !Z.eqb_refl.
  destruct (Z.ltb_spec (Z.of_nat (length p)) 20) as [?|?]; [lia|].
  destruct (Z.ltb_spec (header_size p) 20) as [?|?]; [lia|].
  destruct (Z.ltb_spec (Z.of_nat (length p)) (header_size p)) as [?|?]; [lia|].
  cbn [negb orb]. rewrite reflected_splice by lia.
  destruct (bool_decide_reflect (slice 12 4 p = interface_address r)); cbn [negb orb]; [|by rewrite decide_False by naive_solver].
  destruct (bool_decide_reflect (slice 16 4 p = peer_address r)); cbn [negb]; [by rewrite decide_True|by rewrite decide_False by naive_solver].
Qed.

(** A packet is reflected exactly when it is a well-formed IPv4 packet between
    the route's two endpoints, and is otherwise left alone. Reflecting it
    exchanges the two addresses and changes nothing else: the header checksum and
    the TCP and UDP pseudo-header checksum stay the same, and the reversed route
    reflects the result back to the original. *)
Theorem lr_reflect_spec r p :
  match lr_reflect (Some r) (Some p) with
  | (LR_REFLECTED, Some p') =>
      well_formed p /\ slice 12 4 p = interface_address r /\ slice 16 4 p = peer_address r /\
      p' = take 12 p ++ peer_address r ++ interface_address r ++ drop 20 p /\
      internet_checksum (take (Z.to_nat (header_size p)) p') =
        internet_checksum (take (Z.to_nat (header_size p)) p) /\
      internet_checksum (pseudo_header p' ++ drop (Z.to_nat (header_size p)) p') =
        internet_checksum (pseudo_header p ++ drop (Z.to_nat (header_size p)) p) /\
      lr_reflect (Some (reverse_route r)) (Some p') = (LR_REFLECTED, Some p)
  | (LR_UNRELATED, p') =>
      p' = Some p /\ well_formed p /\ ~ (slice 12 4 p = interface_address r /\ slice 16 4 p = peer_address r)
  | (LR_MALFORMED, p') => p' = Some p /\ ~ well_formed p
  | _ => False
  end.
Proof.
  assert (Decision (well_formed p)) as [Hw|Hw] by (unfold well_formed; apply _); [|by rewrite lr_malformed].
  rewrite lr_formed by done. case_decide as Ha; [|split; [done|split; [done|naive_solver]]].
  destruct Ha as [Hi Hp]. pose proof Hw as (H1 & H2 & H3). assert (20 <= length p)%nat as Hl by lia.
  destruct (reflected_parts p Hl) as (P1 & P2 & P3 & P4). split; [done|]. split; [done|]. split; [done|].
  split; [by rewrite <- Hi, <- Hp|]. unfold internet_checksum.
  rewrite reflected_sum by lia. split; [done|]. split.
  - rewrite !(word_sum_app 6) by (unfold pseudo_header; rewrite !length_app, !length_slice by (rewrite ?reflected_length; lia); done).
    rewrite reflected_pseudo by done.
    assert (drop (Z.to_nat (header_size p)) (reflected p) = drop (Z.to_nat (header_size p)) p) as ->; [|done].
    replace (Z.to_nat (header_size p)) with (20 + (Z.to_nat (header_size p) - 20))%nat by lia.
    by rewrite <- !drop_drop, P4.
  - rewrite lr_formed.
    + rewrite decide_True by (cbn; by rewrite P2, P3). by rewrite reflected_twice.
    + unfold well_formed, header_size, total_size in *. by rewrite reflected_length, !reflected_octet by lia.
Qed.
