(* ===== verification/LegacyCrypto.v ===== *)
(** * LegacyCrypto: the CDSA entry points (translation/Security/LegacyCrypto.c)

    Applications written for macOS derive keys and encrypt with the retired CDSA
    interface. This file models its replacement: the tables of modules and
    contexts behind the handles, and the checks around key derivation and
    encryption. CommonCrypto, which does the arithmetic, is the class
    [CommonCrypto]. A pointer to data is the data, or [None] when it is null. What
    is kept of memory given back is what it held at that moment: [cr_released]. *)
From S2P Require Import Prelude.

Definition OK : Z := 0.
Definition MEMORY : Z := -2147416062.
Definition POINTER : Z := -2147416060.
Definition UNSUPPORTED : Z := -2147416057.
Definition CONTEXT : Z := -2147416000.
Definition DATA : Z := -2147415994.
Definition OUTPUT : Z := -2147415806.
Definition KEY : Z := -2147415792.
Definition AES_ID : Z := 0x80000001.
Definition MAX_DATA : Z := 1024 * 1024.
Definition gGuidAppleCSP : list Z :=
  [0x87; 0x19; 0x1c; 0xa2; 0x0f; 0xc9; 0x11; 0xd4; 0x84; 0x9a; 0; 5; 2; 0xb5; 0x21; 0x22].

(** ** Data *)

Record AKCSSMData := mkData { Length : Z; Data : option (list Z) }.
Definition no_data : AKCSSMData := mkData 0 None.
Record AKCSSMVersion := mkVersion { Major : Z; Minor : Z }.
Record AKCSSMKeyHeader := mkKeyHeader {
  HeaderVersion : Z; CspId : list Z; BlobType : Z; Format : Z; AlgorithmId : Z; KeyClass : Z;
  LogicalKeySizeInBits : Z; KeyAttr : Z; KeyUsage : Z
}.
Record AKCSSMKey := mkKey { KeyHeader : AKCSSMKeyHeader; KeyData : AKCSSMData }.
Definition no_key : AKCSSMKey := mkKey (mkKeyHeader 0 (replicate 16 0) 0 0 0 0 0 0 0) no_data.
Record AKCSSMPBKDF2 := mkPBKDF2 { Passphrase : AKCSSMData; PseudoRandomFunction : Z }.
(** A buffer that is to hold an [AKCSSMPBKDF2]. *)
Record Parameters := mkParameters { pa_length : Z; pa_params : option AKCSSMPBKDF2 }.
Definition sizeof_PBKDF2 : Z := 24.
(** The caller's allocator: whether its functions are there. *)
Record AKCSSMMemory := mkMemory { malloc_func : bool; free_func : bool }.

Record Module := mkModule { md_id : Z; md_memory : AKCSSMMemory }.
Record Context := mkContext {
  cx_id : Z; cx_module : Z; cx_kind : Z; cx_bits : Z; cx_rounds : Z; cx_padding : Z;
  cx_key : list Z; cx_iv : list Z; cx_salt : list Z; cx_key_size : Z
}.
Record Crypto := mkCrypto {
  cr_modules : list Module;
  cr_contexts : list Context;
  cr_serial : Z;
  cr_released : list (list Z)
}.
Definition initial : Crypto := mkCrypto [] [] 1 [].

(** PBKDF2 with HMAC-SHA1: a status and the bytes. AES in CBC mode, padded by
    PKCS#7 when encrypting: a status and the output, at most [capacity] bytes. *)
Class CommonCrypto := {
  cc_derive : list Z -> list Z -> Z -> Z -> Z * list Z;
  cc_crypt : bool -> list Z -> list Z -> list Z -> Z -> Z * list Z
}.

Fixpoint find_id {A} (f : A -> Z) (id : Z) (l : list A) : option A :=
  match l with [] => None | x :: l => if f x =? id then Some x else find_id f id l end.
Fixpoint remove_id {A} (f : A -> Z) (id : Z) (l : list A) : list A :=
  match l with [] => [] | x :: l => if f x =? id then l else x :: remove_id f id l end.
Definition module (s : Crypto) (id : Z) : option Module := find_id md_id id (cr_modules s).
Definition context (s : Crypto) (id : Z) : option Context := find_id cx_id id (cr_contexts s).
Definition valid_guid (g : option (list Z)) : bool := match g with Some g => bool_decide (g = gGuidAppleCSP) | None => false end.
Definition valid_data (d : option AKCSSMData) : bool :=
  match d with
  | Some d => (Length d <=? MAX_DATA) && ((Length d =? 0) || match Data d with Some _ => true | None => false end)
  | None => false
  end.
Definition bytes_of (d : AKCSSMData) : list Z := default [] (Data d).
Definition wipe (bytes : list Z) (n : nat) : list Z := replicate n 0 ++ drop n bytes.
Definition release (s : Crypto) (bytes : list Z) : Crypto :=
  mkCrypto (cr_modules s) (cr_contexts s) (cr_serial s) (bytes :: cr_released s).

(** ** Modules *)

Definition CSSM_Init (v : option AKCSSMVersion) (scope hierarchy : Z) (reserved : bool) : Z :=
  match v with
  | Some v => if (Major v =? 2) && (Minor v =? 0) && (scope =? 0) && (hierarchy =? 0) && negb reserved then OK else UNSUPPORTED
  | None => UNSUPPORTED
  end.
Definition CSSM_ModuleLoad (g : option (list Z)) (hierarchy : Z) (callback : bool) : Z :=
  if valid_guid g && (hierarchy =? 0) && negb callback then OK else UNSUPPORTED.
(** [out] is the handle stored, when the pointer for it is there. *)
Definition CSSM_ModuleAttach (s : Crypto) (g : option (list Z)) (v : option AKCSSMVersion) (mem : option AKCSSMMemory)
    (sub service flags hierarchy : Z) (table : bool) (count : Z) (reserved out alloc_ok : bool) : Z * Crypto * option Z :=
  if negb out then (POINTER, s, None) else
  let version := match v with Some v => (Major v =? 2) && (Minor v =? 0) | None => false end in
  if negb (valid_guid g) || negb version || negb (sub =? 0) || negb (service =? 2) || negb (flags =? 0) || negb (hierarchy =? 0) ||
     table || negb (count =? 0) || reserved then (UNSUPPORTED, s, Some 0) else
  match mem with
  | None => (POINTER, s, Some 0)
  | Some mem =>
    if negb (malloc_func mem) || negb (free_func mem) then (POINTER, s, Some 0) else
    if negb alloc_ok then (MEMORY, s, Some 0) else
    let id := cr_serial s in
    (OK, mkCrypto (mkModule id mem :: cr_modules s) (cr_contexts s) (w64 (id + 1)) (cr_released s), Some id)
  end.
Definition CSSM_ModuleDetach (s : Crypto) (id : Z) : Z * Crypto :=
  if existsb (fun c => cx_module c =? id) (cr_contexts s) then (CONTEXT, s) else
  match module s id with
  | Some _ => (OK, mkCrypto (remove_id md_id id (cr_modules s)) (cr_contexts s) (cr_serial s) (cr_released s))
  | None => (CONTEXT, s)
  end.

(** ** Contexts *)

(** What a context holds in secret, as the memory of its structure does. *)
Definition secrets (c : Context) : list Z := cx_key c ++ cx_iv c.
Definition add_context (s : Crypto) (c : Context) (id : Z) : Z * Crypto * option Z :=
  match module s id with
  | None => (CONTEXT, release s (secrets c), Some 0)
  | Some _ =>
    let handle := cr_serial s in
    let c := mkContext handle id (cx_kind c) (cx_bits c) (cx_rounds c) (cx_padding c) (cx_key c) (cx_iv c) (cx_salt c) (cx_key_size c) in
    (OK, mkCrypto (cr_modules s) (c :: cr_contexts s) (w64 (handle + 1)) (cr_released s), Some handle)
  end.
Definition CSSM_CSP_CreateDeriveKeyContext (s : Crypto) (id algorithm type bits : Z) (base : bool) (rounds : Z)
    (salt : option AKCSSMData) (seed out alloc_ok salt_ok : bool) : Z * Crypto * option Z :=
  if negb out then (POINTER, s, None) else
  if negb (algorithm =? 103) || negb (type =? AES_ID) || (negb (bits =? 128) && negb (bits =? 192) && negb (bits =? 256)) ||
     (rounds =? 0) || (10000000 <? rounds) || base || seed then (UNSUPPORTED, s, Some 0) else
  if negb (valid_data salt) then (DATA, s, Some 0) else
  if negb alloc_ok then (MEMORY, s, Some 0) else
  let salt := default no_data salt in
  if negb (Length salt =? 0) && negb salt_ok then (MEMORY, s, Some 0) else
  let bytes := take (Z.to_nat (Length salt)) (bytes_of salt) in
  add_context s (mkContext 0 0 1 bits rounds 0 (replicate 32 0) (replicate 16 0) bytes 0) id.
Definition CSSM_CSP_CreateSymmetricContext (s : Crypto) (id algorithm mode : Z) (key : option AKCSSMKey) (iv : option AKCSSMData)
    (padding : Z) (reserved out alloc_ok : bool) : Z * Crypto * option Z :=
  if negb out then (POINTER, s, None) else
  if negb (algorithm =? AES_ID) || negb (mode =? 6) || negb (padding =? 7) || reserved then (UNSUPPORTED, s, Some 0) else
  match key with
  | None => (KEY, s, Some 0)
  | Some key =>
    let h := KeyHeader key in
    if negb (AlgorithmId h =? AES_ID) || negb (BlobType h =? 0) || negb (Format h =? 12) || negb (KeyClass h =? 2) ||
       negb (valid_data (Some (KeyData key))) then (KEY, s, Some 0) else
    let n := Length (KeyData key) in
    if (negb (n =? 16) && negb (n =? 24) && negb (n =? 32)) || negb (LogicalKeySizeInBits h =? n * 8) then (KEY, s, Some 0) else
    match iv with
    | Some iv' =>
      if negb (valid_data iv) || negb (Length iv' =? 16) then (DATA, s, Some 0) else
      if negb alloc_ok then (MEMORY, s, Some 0) else
      add_context s (mkContext 0 0 2 0 0 padding (take (Z.to_nat n) (bytes_of (KeyData key)) ++ replicate (Z.to_nat (32 - n)) 0)
        (take 16 (bytes_of iv')) [] n) id
    | None => (DATA, s, Some 0)
    end
  end.
Definition CSSM_DeleteContext (s : Crypto) (id : Z) : Z * Crypto :=
  match context s id with
  | None => (CONTEXT, s)
  | Some old =>
    (OK, release (mkCrypto (cr_modules s) (remove_id cx_id id (cr_contexts s)) (cr_serial s) (cr_released s)) (wipe (secrets old) (length (secrets old))))
  end.

(** ** Keys *)

Section common_crypto.
Context `{!CommonCrypto}.

Definition derived_key (bits attrs usage : Z) (bytes : list Z) : AKCSSMKey :=
  mkKey (mkKeyHeader 2 gGuidAppleCSP 0 12 AES_ID 2 bits (Z.land attrs 0x0fffffff) usage) (mkData (bits / 8) (Some bytes)).
Definition CSSM_DeriveKey (s : Crypto) (id : Z) (param : option Parameters) (usage attrs : Z) (acl : bool)
    (key : option AKCSSMKey) (malloc_ok : bool) : Z * Crypto * option AKCSSMKey :=
  if negb (bool_decide (is_Some key)) then (POINTER, s, key) else
  match param with
  | Some (mkParameters n (Some params)) =>
    if (MAX_DATA <? n) || negb (n =? sizeof_PBKDF2) then (DATA, s, key) else
    let pass := Passphrase params in
    if negb (valid_data (Some pass)) || negb (PseudoRandomFunction params =? 0) || acl || (Z.land attrs 0x10000000 =? 0) ||
       negb (Z.land attrs 0x60000000 =? 0) then (UNSUPPORTED, s, key) else
    let c := context s id in
    let m := c ≫= fun c => module s (cx_module c) in
    match c, m with
    | Some c, Some m =>
      if negb (cx_kind c =? 1) then (CONTEXT, s, key) else
      let n := cx_bits c / 8 in
      if negb malloc_ok then (MEMORY, s, key) else
      let '(result, bytes) := cc_derive (take (Z.to_nat (Length pass)) (bytes_of pass)) (cx_salt c) (cx_rounds c) n in
      if negb (result =? 0) then (DATA, release s (wipe bytes (Z.to_nat n)), key)
      else (OK, s, Some (derived_key (cx_bits c) attrs usage bytes))
    | _, _ => (CONTEXT, s, key)
    end
  | _ => (DATA, s, key)
  end.
Definition CSSM_FreeKey (s : Crypto) (id : Z) (key : option AKCSSMKey) (permanent : bool) : Z * Crypto * option AKCSSMKey :=
  match key with
  | None => (POINTER, s, None)
  | Some k =>
    if permanent then (UNSUPPORTED, s, key) else
    if negb (BlobType (KeyHeader k) =? 0) || negb (valid_data (Some (KeyData k))) then (KEY, s, key) else
    match module s id with
    | None => (CONTEXT, s, key)
    | Some _ =>
      let s := match Data (KeyData k) with
               | Some bytes => release s (wipe bytes (Z.to_nat (Length (KeyData k))))
               | None => s
               end in
      (OK, s, Some no_key)
    end
  end.

(** ** Encryption *)

(** The check of the padding of [n] bytes, every byte of the last block looked at:
    the length without it. *)
Definition byte_of (bytes : list Z) (i : Z) : Z := default 0 (bytes !! Z.to_nat i).
Definition strip_padding (scratch : list Z) (n : Z) : option Z :=
  if n <? 16 then None else
  let padding := byte_of scratch (n - 1) in
  let invalid := if (padding =? 0) || (16 <? padding) then 1 else 0 in
  let invalid := fold_left (fun invalid i =>
    Z.lor invalid ((if i <? padding then 1 else 0) * Z.lxor (byte_of scratch (n - 1 - i)) padding)) (seqZ 0 16) invalid in
  if negb (invalid =? 0) then None else Some (n - padding).
(** What a call stores: the output, and the other two when they are there. *)
Record Stored := mkStored { st_output : option AKCSSMData; st_actual : option Z; st_remaining : option AKCSSMData }.
Definition crypt_data (s : Crypto) (id : Z) (input : option AKCSSMData) (input_count : Z) (output : option AKCSSMData) (output_count : Z)
    (actual remaining encrypt scratch_ok malloc_ok : bool) : Z * Crypto * Stored :=
  if negb actual || negb remaining || negb (bool_decide (is_Some output)) then (POINTER, s, mkStored output None None) else
  let kept := mkStored output (Some 0) (Some no_data) in
  if negb (input_count =? 1) || negb (output_count =? 1) then (UNSUPPORTED, s, kept) else
  if negb (valid_data input) || negb (valid_data output) then (DATA, s, kept) else
  let input := default no_data input in
  let out := default no_data output in
  let c := context s id in
  let m := c ≫= fun c => module s (cx_module c) in
  match c, m with
  | Some c, Some m =>
    if negb (cx_kind c =? 2) then (CONTEXT, s, kept) else
    let capacity := Length input + 16 in
    if negb scratch_ok then (MEMORY, s, kept) else
    let '(result, scratch) := cc_crypt encrypt (take (Z.to_nat (cx_key_size c)) (cx_key c)) (cx_iv c)
      (take (Z.to_nat (Length input)) (bytes_of input)) capacity in
    let n := Z.of_nat (length scratch) in
    let n' := if negb (result =? 0) then None else if encrypt then Some n else strip_padding scratch n in
    let '(status, stored) := match n' with
      | None => (DATA, kept)
      | Some n =>
        if match Data out with Some _ => Length out <? n | None => false end then (OUTPUT, kept) else
        match Data out with
        | None => if malloc_ok then (OK, mkStored (Some (mkData n (Some (take (Z.to_nat n) scratch)))) (Some n) (Some no_data))
                  else (MEMORY, kept)
        | Some old => (OK, mkStored (Some (mkData n (Some (splice 0 (take (Z.to_nat n) scratch) old)))) (Some n) (Some no_data))
        end
      end in
    (status, release s (wipe scratch (Z.to_nat capacity)), stored)
  | _, _ => (CONTEXT, s, kept)
  end.
Definition CSSM_EncryptData (s : Crypto) (c : Z) (i : option AKCSSMData) (ni : Z) (o : option AKCSSMData) (no : Z)
    (n r scratch_ok malloc_ok : bool) := crypt_data s c i ni o no n r true scratch_ok malloc_ok.
Definition CSSM_DecryptData (s : Crypto) (c : Z) (i : option AKCSSMData) (ni : Z) (o : option AKCSSMData) (no : Z)
    (n r scratch_ok malloc_ok : bool) := crypt_data s c i ni o no n r false scratch_ok malloc_ok.
End common_crypto.

(** ** The tables *)

Lemma find_id_Some {A} (f : A -> Z) id l x : find_id f id l = Some x -> x ∈ l /\ f x = id.
Proof.
  induction l as [|y l IH]; cbn [find_id]; [done|]. destruct (Z.eqb_spec (f y) id).
  - intros [= <-]. split; [by left|done].
  - intros [Hx Hf]%IH. split; [by right|done].
Qed.
Lemma find_id_None {A} (f : A -> Z) id l : find_id f id l = None <-> id ∉ f <$> l.
Proof.
  induction l as [|y l IH]; cbn [find_id fmap list_fmap]; [split; [intros _; apply not_elem_of_nil|done]|].
  rewrite not_elem_of_cons. destruct (Z.eqb_spec (f y) id); [split; [done|by intros []]|]. rewrite IH. split; [by split|by intros []].
Qed.
Lemma find_id_elem {A} (f : A -> Z) l x : x ∈ l -> NoDup (f <$> l) -> find_id f (f x) l = Some x.
Proof.
  induction l as [|y l IH]; cbn [find_id fmap list_fmap]; [by intros ?%not_elem_of_nil|].
  intros Hx [Hy Hnd]%NoDup_cons. apply elem_of_cons in Hx as [->|Hx]; [by rewrite Z.eqb_refl|].
  destruct (Z.eqb_spec (f y) (f x)) as [E|]; [|by apply IH]. exfalso. apply Hy. rewrite E. by apply list_elem_of_fmap_2.
Qed.
Lemma remove_id_sub {A} (f : A -> Z) id l : remove_id f id l `sublist_of` l.
Proof.
  induction l as [|y l IH]; cbn [remove_id]; [constructor|]. destruct (f y =? id); [by apply sublist_cons|by apply sublist_skip].
Qed.
Lemma remove_id_other {A} (f : A -> Z) id l x : x ∈ l -> f x <> id -> x ∈ remove_id f id l.
Proof.
  induction l as [|y l IH]; cbn [remove_id]; [by intros ?%not_elem_of_nil|]. intros [->|Hx]%elem_of_cons Hne.
  - destruct (Z.eqb_spec (f y) id); [done|by left].
  - destruct (f y =? id); [done|right; by apply IH].
Qed.
Lemma remove_id_gone {A} (f : A -> Z) id l : NoDup (f <$> l) -> id ∉ f <$> remove_id f id l.
Proof.
  induction l as [|y l IH]; cbn [remove_id fmap list_fmap]; [intros _; apply not_elem_of_nil|]. intros [Hy Hnd]%NoDup_cons.
  destruct (Z.eqb_spec (f y) id) as [<-|]; [done|]. cbn [fmap list_fmap]. rewrite not_elem_of_cons. split; [congruence|by apply IH].
Qed.

Lemma Forall_sublist_of {A} (P : A -> Prop) l1 l2 : Forall P l2 -> l1 `sublist_of` l2 -> Forall P l1.
Proof. rewrite !Forall_forall. intros Hl Hs x Hx. apply Hl. by eapply elem_of_sublist. Qed.

(** Data as a caller passes it: as many bytes as the length says. *)
Definition data_ok (d : AKCSSMData) : Prop :=
  0 <= Length d /\ forall bs, Data d = Some bs -> Z.of_nat (length bs) = Length d /\ Forall byte_ok bs.
Record context_ok (c : Context) : Prop := {
  co_key : length (cx_key c) = 32%nat /\ Forall byte_ok (cx_key c);
  co_iv : length (cx_iv c) = 16%nat /\ Forall byte_ok (cx_iv c);
  co_kind : cx_kind c = 1 /\ cx_bits c ∈ [128; 192; 256] /\ 0 < cx_rounds c <= 10000000 \/
            cx_kind c = 2 /\ cx_key_size c ∈ [16; 24; 32]
}.
Definition ids (s : Crypto) : list Z := (md_id <$> cr_modules s) ++ (cx_id <$> cr_contexts s).
(** Handles are never shared, and every context belongs to a module that is there. *)
Record crypto_wf (s : Crypto) : Prop := {
  cw_serial : 0 < cr_serial s;
  cw_ids : NoDup (ids s);
  cw_below : Forall (fun id => 0 < id < cr_serial s) (ids s);
  cw_module : forall c, c ∈ cr_contexts s -> is_Some (module s (cx_module c));
  cw_context : Forall context_ok (cr_contexts s)
}.
Lemma initial_wf : crypto_wf initial.
Proof. split; cbn; [done|constructor|constructor|by intros c ?%not_elem_of_nil|constructor]. Qed.
Lemma cw_fresh s : crypto_wf s -> cr_serial s ∉ ids s.
Proof. intros Hs Hin. pose proof (cw_below s Hs) as Hb. rewrite Forall_forall in Hb. specialize (Hb _ Hin). lia. Qed.
Lemma release_wf s bytes : crypto_wf s -> crypto_wf (release s bytes).
Proof. by intros []. Qed.
Lemma ids_mono s l : Forall (fun id => 0 < id < cr_serial s) l -> Forall (fun id => 0 < id < cr_serial s + 1) l.
Proof. intros Hl. eapply Forall_impl; [exact Hl|]. intros x Hx. cbn in *. lia. Qed.

Lemma attach_wf s mem :
  crypto_wf s -> cr_serial s < 2 ^ 64 - 1 ->
  crypto_wf (mkCrypto (mkModule (cr_serial s) mem :: cr_modules s) (cr_contexts s) (w64 (cr_serial s + 1)) (cr_released s)).
Proof.
  intros Hs Hlt. pose proof (cw_serial s Hs). rewrite w64_small by (unfold u64_ok; lia). split; cbn.
  - lia.
  - apply NoDup_cons. split; [by apply cw_fresh|apply Hs].
  - constructor; [lia|]. apply ids_mono, Hs.
  - intros c Hc. unfold module. cbn. destruct (_ =? _); [done|by apply Hs].
  - apply Hs.
Qed.
Lemma detach_wf s id :
  crypto_wf s -> existsb (fun c => cx_module c =? id) (cr_contexts s) = false ->
  crypto_wf (mkCrypto (remove_id md_id id (cr_modules s)) (cr_contexts s) (cr_serial s) (cr_released s)).
Proof.
  intros Hs Hno. pose proof (remove_id_sub md_id id (cr_modules s)) as Hsub.
  assert (ids (mkCrypto (remove_id md_id id (cr_modules s)) (cr_contexts s) (cr_serial s) (cr_released s)) `sublist_of` ids s) as Hids.
  { apply sublist_app; [by apply fmap_sublist|done]. }
  split; cbn.
  - apply Hs.
  - eapply sublist_NoDup; [apply Hs|exact Hids].
  - by apply (Forall_sublist_of _ _ _ (cw_below s Hs)).
  - intros c Hc. destruct (cw_module s Hs c Hc) as [m Hm]. apply find_id_Some in Hm as [Hin Hid].
    apply not_true_iff_false in Hno. assert (cx_module c <> id) as Hne.
    { intros E. apply Hno, existsb_exists. exists c. split; [by apply list_elem_of_In|by apply Z.eqb_eq]. }
    rewrite <- Hid. unfold module. cbn. exists m. apply find_id_elem; [apply remove_id_other; [done|congruence]|].
    pose proof (cw_ids s Hs) as Hnd. apply NoDup_app in Hnd as [Hnd _]. eapply sublist_NoDup; [exact Hnd|by apply fmap_sublist].
  - apply Hs.
Qed.

Lemma add_context_wf s c id :
  crypto_wf s -> cr_serial s < 2 ^ 64 - 1 -> context_ok c -> crypto_wf (add_context s c id).1.2.
Proof.
  intros Hs Hlt Hc. unfold add_context. destruct (module s id) as [m|] eqn:Em; [|by apply release_wf].
  pose proof (cw_serial s Hs). cbn. rewrite w64_small by (unfold u64_ok; lia).
  assert (Hids : forall x l1 l2, l1 ++ x :: l2 ≡ₚ (x : Z) :: l1 ++ l2) by (intros; by rewrite Permutation_middle).
  split; cbn [cr_modules cr_contexts cr_serial].
  - lia.
  - unfold ids. cbn. rewrite Hids. apply NoDup_cons. split; [by apply cw_fresh|apply Hs].
  - unfold ids. cbn. rewrite Hids. constructor; [cbn; lia|]. apply ids_mono, Hs.
  - intros c' [->|Hc']%elem_of_cons; unfold module; cbn; [by exists m|by apply Hs].
  - constructor; [by destruct Hc|apply Hs].
Qed.
Lemma delete_wf s id : crypto_wf s -> crypto_wf (CSSM_DeleteContext s id).2.
Proof.
  intros Hs. unfold CSSM_DeleteContext. destruct (context s id) as [old|]; [|done]. apply release_wf.
  pose proof (remove_id_sub cx_id id (cr_contexts s)) as Hsub.
  assert (ids (mkCrypto (cr_modules s) (remove_id cx_id id (cr_contexts s)) (cr_serial s) (cr_released s)) `sublist_of` ids s) as Hids.
  { apply sublist_app; [done|by apply fmap_sublist]. }
  split; cbn.
  - apply Hs.
  - eapply sublist_NoDup; [apply Hs|exact Hids].
  - by apply (Forall_sublist_of _ _ _ (cw_below s Hs)).
  - intros c Hc. apply (cw_module s Hs). by eapply elem_of_sublist.
  - by apply (Forall_sublist_of _ _ _ (cw_context s Hs)).
Qed.

(** ** Calls *)

Definition key_ok (k : option AKCSSMKey) : Prop := forall key, k = Some key -> data_ok (KeyData key).
Definition argument_ok (d : option AKCSSMData) : Prop := forall x, d = Some x -> data_ok x.
Lemma valid_data_bytes d : data_ok d -> valid_data (Some d) = true -> Length d <> 0 -> Z.of_nat (length (bytes_of d)) = Length d /\ Forall byte_ok (bytes_of d).
Proof.
  intros [_ Hd] Hv Hn. cbn in Hv. rewrite (proj2 (Z.eqb_neq _ _) Hn) in Hv.
  destruct (Data d) as [bs|] eqn:E; [|by rewrite andb_false_r in Hv].
  unfold bytes_of. rewrite E. by apply Hd.
Qed.
Lemma zeros_ok n : Forall byte_ok (replicate n 0).
Proof. by apply Forall_replicate. Qed.
Lemma derive_context_ok id bits rounds salt :
  (bits =? 128) || (bits =? 192) || (bits =? 256) = true -> 0 < rounds <= 10000000 ->
  context_ok (mkContext 0 id 1 bits rounds 0 (replicate 32 0) (replicate 16 0) salt 0).
Proof.
  intros Hb Hr. split; cbn [cx_key cx_iv cx_kind cx_bits cx_rounds cx_key_size]; [split; [done|apply zeros_ok]|split; [done|apply zeros_ok]|left].
  split; [done|]. split; [|done]. rewrite !elem_of_cons. bool_props. lia.
Qed.
Lemma symmetric_context_ok kd iv padding :
  data_ok kd -> data_ok iv -> valid_data (Some kd) = true -> valid_data (Some iv) = true ->
  Length kd ∈ [16; 24; 32] -> Length iv = 16 ->
  context_ok (mkContext 0 0 2 0 0 padding (take (Z.to_nat (Length kd)) (bytes_of kd) ++ replicate (Z.to_nat (32 - Length kd)) 0)
    (take 16 (bytes_of iv)) [] (Length kd)).
Proof.
  intros Hk Hi Hvk Hvi Hn Hiv. assert (Length kd = 16 \/ Length kd = 24 \/ Length kd = 32) as Hcases by (rewrite !elem_of_cons, elem_of_nil in Hn; tauto).
  destruct (valid_data_bytes kd Hk Hvk ltac:(lia)) as [Hlk Hbk]. destruct (valid_data_bytes iv Hi Hvi ltac:(lia)) as [Hli Hbi].
  split; cbn [cx_key cx_iv cx_kind cx_key_size].
  - split; [rewrite length_app, length_take, length_replicate; lia|]. apply Forall_app. split; [by apply Forall_take|apply zeros_ok].
  - split; [rewrite length_take; lia|by apply Forall_take].
  - right. by split.
Qed.
Inductive Call :=
| ModuleAttach (g : option (list Z)) (v : option AKCSSMVersion) (mem : option AKCSSMMemory) (sub service flags hierarchy : Z)
    (table : bool) (count : Z) (reserved out alloc_ok : bool)
| ModuleDetach (id : Z)
| CreateDeriveKeyContext (id algorithm type bits : Z) (base : bool) (rounds : Z) (salt : option AKCSSMData) (seed out alloc_ok salt_ok : bool)
| CreateSymmetricContext (id algorithm mode : Z) (key : option AKCSSMKey) (iv : option AKCSSMData) (padding : Z) (reserved out alloc_ok : bool)
| DeleteContext (id : Z)
| DeriveKey (id : Z) (param : option Parameters) (usage attrs : Z) (acl : bool) (key : option AKCSSMKey) (malloc_ok : bool)
| FreeKey (id : Z) (key : option AKCSSMKey) (permanent : bool)
| CryptData (id : Z) (input : option AKCSSMData) (input_count : Z) (output : option AKCSSMData) (output_count : Z)
    (actual remaining encrypt scratch_ok malloc_ok : bool).
Definition call_ok (call : Call) : Prop :=
  match call with
  | CreateDeriveKeyContext _ _ _ _ _ rounds salt _ _ _ _ => 0 <= rounds /\ argument_ok salt
  | CreateSymmetricContext _ _ _ key iv _ _ _ _ => key_ok key /\ argument_ok iv
  | FreeKey _ key _ => key_ok key
  | CryptData _ input _ output _ _ _ _ _ _ => argument_ok input /\ argument_ok output
  | _ => True
  end.
(** What CommonCrypto documents: it writes no more than the buffer it is given;
    PBKDF2 fills it; AES decryption without padding undoes encryption, which pads
    by PKCS#7. *)
Definition pkcs7 (bytes : list Z) : list Z :=
  let padding := 16 - Z.of_nat (length bytes) mod 16 in bytes ++ replicate (Z.to_nat padding) padding.
Class CommonCryptoLaws `{!CommonCrypto} := {
  law_derive pass salt rounds n : 0 <= n -> Z.of_nat (length (cc_derive pass salt rounds n).2) = n;
  law_capacity encrypt key iv bytes capacity :
    0 <= capacity -> Z.of_nat (length (cc_crypt encrypt key iv bytes capacity).2) <= capacity;
  law_bytes encrypt key iv bytes capacity : Forall byte_ok (cc_crypt encrypt key iv bytes capacity).2;
  law_encrypt key iv bytes capacity :
    Z.of_nat (length key) ∈ [16; 24; 32] -> length iv = 16%nat -> Forall byte_ok bytes -> Z.of_nat (length (pkcs7 bytes)) <= capacity ->
    exists output, cc_crypt true key iv bytes capacity = (0, output) /\ length output = length (pkcs7 bytes) /\
      forall capacity', Z.of_nat (length output) <= capacity' -> cc_crypt false key iv output capacity' = (0, pkcs7 bytes)
}.

Section calls.
Context `{!CommonCrypto, !CommonCryptoLaws}.
Definition run_call (s : Crypto) (call : Call) : Z * Crypto :=
  match call with
  | ModuleAttach g v mem sub service flags hierarchy table count reserved out alloc_ok =>
      (CSSM_ModuleAttach s g v mem sub service flags hierarchy table count reserved out alloc_ok).1
  | ModuleDetach id => CSSM_ModuleDetach s id
  | CreateDeriveKeyContext id algorithm type bits base rounds salt seed out alloc_ok salt_ok =>
      (CSSM_CSP_CreateDeriveKeyContext s id algorithm type bits base rounds salt seed out alloc_ok salt_ok).1
  | CreateSymmetricContext id algorithm mode key iv padding reserved out alloc_ok =>
      (CSSM_CSP_CreateSymmetricContext s id algorithm mode key iv padding reserved out alloc_ok).1
  | DeleteContext id => CSSM_DeleteContext s id
  | DeriveKey id param usage attrs acl key malloc_ok => (CSSM_DeriveKey s id param usage attrs acl key malloc_ok).1
  | FreeKey id key permanent => (CSSM_FreeKey s id key permanent).1
  | CryptData id input ni output no actual remaining encrypt scratch_ok malloc_ok =>
      (crypt_data s id input ni output no actual remaining encrypt scratch_ok malloc_ok).1
  end.
(** The calls that make no new handle change only what was released. *)
Lemma derive_key_state s id param usage attrs acl key malloc_ok :
  let s' := (CSSM_DeriveKey s id param usage attrs acl key malloc_ok).1.2 in s' = s \/ exists bytes, s' = release s bytes.
Proof.
  cbv zeta. unfold CSSM_DeriveKey. destruct (negb _); [by left|]. destruct param as [[n [params|]]|]; [|by left..].
  destruct (_ || _); [by left|]. destruct (_ || _ || _ || _ || _); [by left|].
  destruct (context s id) as [c|]; cbn [mbind option_bind]; [|by left]. destruct (module s (cx_module c)); [|by left].
  destruct (negb _); [by left|]. destruct (negb _); [by left|]. destruct (cc_derive _ _ _ _) as [r bytes].
  destruct (negb _); [right; by eexists|by left].
Qed.
Lemma free_key_state s id key permanent :
  let s' := (CSSM_FreeKey s id key permanent).1.2 in s' = s \/ exists bytes, s' = release s bytes.
Proof.
  cbv zeta. unfold CSSM_FreeKey. destruct key as [k|]; [|by left]. destruct permanent; [by left|]. destruct (_ || _); [by left|].
  destruct (module s id); [|by left]. destruct (Data (KeyData k)); [right; by eexists|by left].
Qed.
Lemma crypt_data_state s id input ni output no actual remaining encrypt scratch_ok malloc_ok :
  let s' := (crypt_data s id input ni output no actual remaining encrypt scratch_ok malloc_ok).1.2 in s' = s \/ exists bytes, s' = release s bytes.
Proof.
  cbv zeta. unfold crypt_data. destruct (_ || _); [by left|]. destruct (_ || _); [by left|]. destruct (_ || _); [by left|].
  destruct (context s id) as [c|]; cbn [mbind option_bind]; [|by left]. destruct (module s (cx_module c)); [|by left].
  destruct (negb _); [by left|]. destruct (negb _); [by left|]. destruct (cc_crypt _ _ _ _ _) as [r scratch].
  match goal with |- context [let '(status, stored) := ?x in _] => destruct x as [status stored] end. right; by eexists.
Qed.
#[local] Ltac refused_by H :=
  match goal with |- context [if ?b then (_, _, _) else _] => let E := fresh "E" in destruct b eqn:E; [by apply H; left|] end.
Lemma run_call_wf s call :
  crypto_wf s -> cr_serial s < 2 ^ 64 - 1 -> call_ok call ->
  crypto_wf (run_call s call).2 /\ cr_serial (run_call s call).2 <= cr_serial s + 1.
Proof.
  intros Hs Hlt Hcall. pose proof (cw_serial s Hs) as Hpos.
  assert (Hadd : forall c id, context_ok c -> crypto_wf (add_context s c id).1.2 /\ cr_serial (add_context s c id).1.2 <= cr_serial s + 1).
  { intros c id Hc. split; [by apply add_context_wf|]. unfold add_context. destruct (module s id); cbn; [|lia].
    rewrite w64_small by (unfold u64_ok; lia). lia. }
  assert (Hsame : forall s', s' = s \/ (exists bytes, s' = release s bytes) -> crypto_wf s' /\ cr_serial s' <= cr_serial s + 1).
  { intros s' [->|[bytes ->]]; [split; [done|lia]|]. split; [by apply release_wf|cbn; lia]. }
  destruct call; cbn [run_call call_ok] in *.
  - unfold CSSM_ModuleAttach. refused_by Hsame. refused_by Hsame. destruct mem as [mem|]; [|by apply Hsame; left]. refused_by Hsame. refused_by Hsame.
    cbn. split; [by apply attach_wf|]. rewrite w64_small by (unfold u64_ok; lia). lia.
  - unfold CSSM_ModuleDetach. destruct (existsb _ _) eqn:E; [by apply Hsame; left|]. destruct (module s id); [|by apply Hsame; left].
    split; [by apply detach_wf|cbn; lia].
  - unfold CSSM_CSP_CreateDeriveKeyContext. refused_by Hsame. refused_by Hsame. refused_by Hsame. refused_by Hsame. refused_by Hsame. apply Hadd.
    destruct Hcall as [Hr _]. bool_props. apply derive_context_ok; [|lia]. destruct (bits =? 128), (bits =? 192), (bits =? 256); done.
  - destruct Hcall as [Hk Hi]. unfold CSSM_CSP_CreateSymmetricContext. refused_by Hsame. refused_by Hsame. destruct key as [key|]; [|by apply Hsame; left].
    refused_by Hsame. refused_by Hsame. destruct iv as [iv|]; [|by apply Hsame; left]. refused_by Hsame. refused_by Hsame.
    bool_props. apply Hadd, symmetric_context_ok; [by apply Hk|by apply Hi|done|done| |done].
    rewrite !elem_of_cons. destruct (Z.eqb_spec (Length (KeyData key)) 16), (Z.eqb_spec (Length (KeyData key)) 24), (Z.eqb_spec (Length (KeyData key)) 32); auto; done.
  - split; [by apply delete_wf|]. unfold CSSM_DeleteContext. destruct (context s id); cbn; lia.
  - apply Hsame, derive_key_state.
  - apply Hsame, free_key_state.
  - apply Hsame, crypt_data_state.
Qed.
Fixpoint run_calls (s : Crypto) (calls : list Call) : Crypto :=
  match calls with [] => s | call :: calls => run_calls (run_call s call).2 calls end.
(** C32: whatever calls are made, with whatever arguments, no two modules or
    contexts ever share a handle, no handle is null, every context belongs to a
    module that is attached, and keys and parameters have the sizes their use
    relies on. The bound is the number of handles there are. *)
Theorem crypto_reachable_wf calls :
  Forall call_ok calls -> Z.of_nat (length calls) < 2 ^ 64 - 2 -> crypto_wf (run_calls initial calls).
Proof.
  assert (Hall : forall s, crypto_wf s -> cr_serial s + Z.of_nat (length calls) < 2 ^ 64 - 1 -> Forall call_ok calls -> crypto_wf (run_calls s calls)).
  { induction calls as [|call calls IH]; intros s Hs Hlt Hok; cbn [run_calls]; [done|]. apply Forall_cons in Hok as [Hc Hok].
    cbn [length] in Hlt. destruct (run_call_wf s call Hs ltac:(lia) Hc) as [Hs' Hle]. apply IH; [done|lia|done]. }
  intros Hok Hlen. apply Hall; [apply initial_wf|cbn; lia|done].
Qed.
End calls.

(** ** Padding *)

Lemma fold_lor_zero {A} (f : A -> Z) l a0 :
  fold_left (fun a x => Z.lor a (f x)) l a0 = 0 <-> a0 = 0 /\ forall x, x ∈ l -> f x = 0.
Proof.
  revert a0. induction l as [|x l IH]; intros a0; cbn [fold_left].
  - split; [intros ->; split; [done|by intros ? ?%not_elem_of_nil]|by intros []].
  - rewrite IH, Z.lor_eq_0_iff. split.
    + intros [[? ?] Hl]. split; [done|]. intros y [->|Hy]%elem_of_cons; [done|by apply Hl].
    + intros [? Hl]. split; [split; [done|apply Hl; by left]|]. intros y Hy. apply Hl. by right.
Qed.
Lemma byte_of_app l1 l2 i : Z.of_nat (length l1) <= i -> byte_of (l1 ++ l2) i = byte_of l2 (i - Z.of_nat (length l1)).
Proof. intros Hi. unfold byte_of. rewrite lookup_app_r by lia. do 2 f_equal. lia. Qed.
Lemma byte_of_replicate n v i : 0 <= i < Z.of_nat n -> byte_of (replicate n v) i = v.
Proof. intros Hi. unfold byte_of. by rewrite lookup_replicate_2 by lia. Qed.
(** Bytes that end with correct padding. *)
Definition padded (bytes text : list Z) : Prop :=
  exists padding, 1 <= padding <= 16 /\ 16 <= Z.of_nat (length bytes) /\ bytes = text ++ replicate (Z.to_nat padding) padding.
(** The check that looks at every byte of the last block accepts exactly the
    correct paddings, and tells the length of the text. *)
Lemma strip_padding_correct bytes :
  Forall byte_ok bytes ->
  match strip_padding bytes (Z.of_nat (length bytes)) with
  | Some n => 0 <= n <= Z.of_nat (length bytes) /\ padded bytes (take (Z.to_nat n) bytes)
  | None => forall text, ~ padded bytes text
  end.
Proof.
  intros Hok. unfold strip_padding. set (n := Z.of_nat (length bytes)).
  destruct (Z.ltb_spec n 16) as [Hshort|Hlen]; [intros text (? & _ & ? & _); lia|].
  set (padding := byte_of bytes (n - 1)). set (first := if _ || _ then 1 else 0).
  pose proof (fold_lor_zero (fun i => (if i <? padding then 1 else 0) * Z.lxor (byte_of bytes (n - 1 - i)) padding) (seqZ 0 16) first) as Hfold.
  match goal with |- context [negb (?x =? 0)] => destruct (Z.eqb_spec x 0) as [E|E] end; cbn [negb].
  - apply Hfold in E as [Hfirst Hall]. assert (1 <= padding <= 16) as Hp.
    { unfold first in Hfirst. destruct (_ || _) eqn:Eo; [done|]. bool_props. assert (0 <= padding); [|lia].
      unfold padding, byte_of. destruct (bytes !! _) eqn:El; cbn; [|done]. eapply Forall_lookup_1 in Hok; [|done]. unfold byte_ok in Hok. lia. }
    split; [lia|]. exists padding. split; [done|]. split; [lia|].
    rewrite <- (take_drop (Z.to_nat (n - padding)) bytes) at 1. f_equal.
    apply (list_eq_same_length _ _ (Z.to_nat padding)); [apply length_replicate|rewrite length_drop; lia|].
    intros i x y Hi Hx Hy. rewrite lookup_drop in Hx. apply lookup_replicate in Hy as [-> _].
    specialize (Hall (padding - 1 - Z.of_nat i) ltac:(apply elem_of_seqZ; lia)). rewrite (proj2 (Z.ltb_lt _ _)) in Hall by lia.
    rewrite Z.mul_1_l in Hall. apply Z.lxor_eq in Hall. rewrite <- Hall. unfold byte_of.
    replace (Z.to_nat (n - 1 - (padding - 1 - Z.of_nat i))) with (Z.to_nat (n - padding) + i)%nat by lia. by rewrite Hx.
  - intros text (pad & Hpad & _ & Eb). apply E, Hfold.
    assert (Hat : forall i, 0 <= i < pad -> byte_of bytes (n - 1 - i) = pad).
    { intros i Hi. assert (n = Z.of_nat (length text) + pad) by (unfold n; rewrite Eb, length_app, length_replicate; lia).
      rewrite Eb, byte_of_app by lia. apply byte_of_replicate. lia. }
    assert (padding = pad) as -> by (unfold padding; rewrite <- (Z.sub_0_r (n - 1)); apply Hat; lia). split.
    + unfold first. destruct (Z.eqb_spec pad 0), (Z.ltb_spec 16 pad); cbn; lia.
    + intros i [Hi _]%elem_of_seqZ. destruct (Z.ltb_spec i pad); [|done]. rewrite Hat by lia. by rewrite Z.lxor_nilpotent.
Qed.
Lemma padded_inj bytes t1 t2 : padded bytes t1 -> padded bytes t2 -> t1 = t2.
Proof.
  intros (p1 & H1 & _ & E1) (p2 & H2 & _ & E2). assert (p1 = p2) as ->.
  { pose proof (f_equal last E1) as L1. pose proof (f_equal last E2) as L2.
    assert (Hlast : forall t p, 1 <= p -> last (t ++ replicate (Z.to_nat p) p) = Some p).
    { intros t p Hp. replace (Z.to_nat p) with (S (Z.to_nat (p - 1))) by lia. rewrite replicate_S_end, app_assoc. by rewrite last_snoc. }
    rewrite Hlast in L1, L2 by lia. congruence. }
  rewrite E1 in E2. by apply app_inv_tail in E2.
Qed.
Lemma pkcs7_padded bytes : padded (pkcs7 bytes) bytes.
Proof.
  unfold pkcs7. pose proof (Z.mod_pos_bound (Z.of_nat (length bytes)) 16 ltac:(lia)).
  exists (16 - Z.of_nat (length bytes) mod 16). split; [lia|]. split; [|done]. rewrite length_app, length_replicate.
  pose proof (Z.div_mod (Z.of_nat (length bytes)) 16). lia.
Qed.

(** ** What is left in memory, and what is delivered *)

Definition zeroed (bytes : list Z) : Prop := Forall (eq 0) bytes.
Lemma wipe_zeroed bytes n : (length bytes <= n)%nat -> zeroed (wipe bytes n).
Proof. intros Hn. unfold wipe, zeroed. rewrite drop_ge, app_nil_r by lia. by apply Forall_replicate. Qed.
Lemma add_context_released s c id :
  is_Some (module s id) \/ zeroed (secrets c) -> Forall zeroed (cr_released s) -> Forall zeroed (cr_released (add_context s c id).1.2).
Proof.
  unfold add_context. destruct (module s id) as [m|]; [done|]. intros [[? ?]|Hz] Hs; [done|]. by constructor.
Qed.

Lemma pkcs7_ok bytes : Forall byte_ok bytes -> Forall byte_ok (pkcs7 bytes).
Proof.
  intros Hb. unfold pkcs7. apply Forall_app. split; [done|]. apply Forall_replicate.
  pose proof (Z.mod_pos_bound (Z.of_nat (length bytes)) 16). unfold byte_ok. lia.
Qed.

Section secrets.
Context `{!CommonCrypto, !CommonCryptoLaws}.

Lemma context_bits s id c : crypto_wf s -> context s id = Some c -> cx_kind c = 1 -> 0 <= cx_bits c.
Proof.
  intros Hs Hc Hk. apply find_id_Some in Hc as [Hin _]. pose proof (cw_context s Hs) as Hall. rewrite Forall_forall in Hall.
  destruct (co_kind c (Hall c Hin)) as [(_ & Hb & _)|[? _]]; [|lia]. rewrite !elem_of_cons, elem_of_nil in Hb. lia.
Qed.
(** C33: memory that held a key, derived bytes or cleartext is given back holding
    zeros only, whether the call succeeded or failed. The one exception is the
    context of a key that is refused because its module is not attached. *)
Theorem secrets_wiped s call :
  crypto_wf s -> call_ok call -> Forall zeroed (cr_released s) ->
  match call with CreateSymmetricContext id _ _ _ _ _ _ _ _ => is_Some (module s id) | _ => True end ->
  Forall zeroed (cr_released (run_call s call).2).
Proof.
  intros Hs Hcall Hz Hknown. destruct call; cbn [run_call call_ok] in *.
  - unfold CSSM_ModuleAttach. by repeat case_match.
  - unfold CSSM_ModuleDetach. by repeat case_match.
  - unfold CSSM_CSP_CreateDeriveKeyContext. repeat case_match; try done.
    apply add_context_released; [right|done]. unfold secrets, zeroed. cbn [cx_key cx_iv]. by apply Forall_app_2; apply Forall_replicate.
  - unfold CSSM_CSP_CreateSymmetricContext. repeat case_match; try done. by apply add_context_released; [left|].
  - unfold CSSM_DeleteContext. destruct (context s id) as [old|]; [|done]. constructor; [by apply wipe_zeroed|done].
  - unfold CSSM_DeriveKey. destruct (negb _); [done|]. destruct param as [[n [params|]]|]; [|done..].
    destruct (_ || _); [done|]. destruct (_ || _ || _ || _ || _); [done|].
    destruct (context s id) as [c|] eqn:Ec; cbn [mbind option_bind]; [|done]. destruct (module s (cx_module c)); [|done].
    destruct (Z.eqb_spec (cx_kind c) 1) as [Hk|]; cbn [negb]; [|done]. destruct (negb _); [done|].
    pose proof (context_bits s id c Hs Ec Hk) as Hbits.
    pose proof (law_derive (take (Z.to_nat (Length (Passphrase params))) (bytes_of (Passphrase params))) (cx_salt c) (cx_rounds c) (cx_bits c / 8)
      ltac:(apply Z.div_pos; lia)) as Hl.
    destruct (cc_derive _ _ _ _) as [r bytes]. cbn [snd] in Hl. destruct (negb _); [|done]. constructor; [apply wipe_zeroed; lia|done].
  - unfold CSSM_FreeKey. destruct key as [k|]; [|done]. destruct permanent; [done|]. destruct (_ || _); [done|].
    destruct (module s id); [|done]. destruct (Hcall k eq_refl) as [_ Hd]. destruct (Data (KeyData k)) as [bs|]; [|done].
    destruct (Hd bs eq_refl) as [Hl _]. constructor; [apply wipe_zeroed; lia|done].
  - destruct Hcall as [Hi _]. unfold crypt_data. destruct (_ || _ || _); [done|]. destruct (_ || _); [done|].
    destruct (negb (valid_data input) || _) eqn:Ev; [done|]. bool_props.
    destruct input as [input|]; [|done]. destruct (Hi input eq_refl) as [Hlen _]. cbn [default from_option Datatypes.id].
    destruct (context s id) as [c|]; cbn [mbind option_bind]; [|done]. destruct (module s (cx_module c)); [|done].
    destruct (negb _); [done|]. destruct (negb _); [done|].
    pose proof (law_capacity encrypt (take (Z.to_nat (cx_key_size c)) (cx_key c)) (cx_iv c) (take (Z.to_nat (Length input)) (bytes_of input))
      (Length input + 16) ltac:(lia)) as Hcap.
    destruct (cc_crypt _ _ _ _ _) as [r scratch]. cbn [snd] in Hcap.
    match goal with |- context [let '(status, stored) := ?x in _] => destruct x as [status stored] end.
    constructor; [apply wipe_zeroed; lia|done].
Qed.
(** [bytes] are what the context makes of the input. *)
Definition delivered (encrypt : bool) (c : Context) (input : AKCSSMData) (bytes : list Z) : Prop :=
  let '(status, produced) := cc_crypt encrypt (take (Z.to_nat (cx_key_size c)) (cx_key c)) (cx_iv c)
    (take (Z.to_nat (Length input)) (bytes_of input)) (Length input + 16) in
  status = 0 /\ if encrypt then bytes = produced else padded produced bytes.
(** encrypting and decrypting deliver all of their output or none. On every
    failure the output is as it was and its size is reported as zero. Decrypting
    delivers only the text of a correctly padded message, into memory that has
    room for it. *)
Theorem crypt_data_spec s id input output encrypt scratch_ok malloc_ok :
  crypto_wf s -> argument_ok (Some input) -> argument_ok (Some output) ->
  let '(r, s', st) := crypt_data s id (Some input) 1 (Some output) 1 true true encrypt scratch_ok malloc_ok in
  st_remaining st = Some no_data /\ cr_modules s' = cr_modules s /\ cr_contexts s' = cr_contexts s /\
  if decide (r = OK) then exists c bytes,
    context s id = Some c /\ cx_kind c = 2 /\
    delivered encrypt c input bytes /\ st_actual st = Some (Z.of_nat (length bytes)) /\
    (forall old, Data output = Some old -> Z.of_nat (length bytes) <= Length output) /\
    exists o, st_output st = Some o /\ Length o = Z.of_nat (length bytes) /\ take (length bytes) (bytes_of o) = bytes
  else st_output st = Some output /\ st_actual st = Some 0.
Proof.
  intros Hs Hi Ho. unfold crypt_data. cbn [negb orb bool_decide]. rewrite bool_decide_eq_true_2 by done. cbn [negb Z.eqb].
  change (1 =? 1) with true. cbn [negb orb]. destruct (negb (valid_data (Some input)) || negb (valid_data (Some output))); [done|].
  cbn [default from_option Datatypes.id]. destruct (context s id) as [c|] eqn:Ec; cbn [mbind option_bind]; [|done].
  destruct (module s (cx_module c)); [|done]. destruct (Z.eqb_spec (cx_kind c) 2) as [Hk|]; cbn [negb]; [|done].
  destruct scratch_ok; cbn [negb]; [|done].
  set (key := take (Z.to_nat (cx_key_size c)) (cx_key c)). set (text := take (Z.to_nat (Length input)) (bytes_of input)).
  pose proof (law_bytes encrypt key (cx_iv c) text (Length input + 16)) as Hbytes.
  destruct (cc_crypt encrypt key (cx_iv c) text (Length input + 16)) as [r scratch] eqn:Ecc. cbn [snd] in Hbytes.
  destruct (if negb (r =? 0) then None else _) as [n|] eqn:En; [|done].
  destruct (Z.eqb_spec r 0) as [->|]; cbn [negb] in En; [|done].
  assert (0 <= n <= Z.of_nat (length scratch) /\
    if encrypt then take (Z.to_nat n) scratch = scratch else padded scratch (take (Z.to_nat n) scratch)) as [Hn Htext].
  { destruct encrypt; [|pose proof (strip_padding_correct scratch Hbytes) as Hp; by rewrite En in Hp].
    injection En as <-. split; [lia|]. by rewrite Nat2Z.id, firstn_all. }
  set (bytes := take (Z.to_nat n) scratch) in *. assert (Z.of_nat (length bytes) = n) as Hl by (unfold bytes; rewrite length_take; lia).
  assert (Hdel : delivered encrypt c input bytes).
  { unfold delivered. fold key text. rewrite Ecc. split; [done|]. destruct encrypt; [exact Htext|exact Htext]. }
  destruct (Data output) as [old|] eqn:Eo.
  - destruct (Z.ltb_spec (Length output) n) as [|Hroom]; [done|]. cbn. split; [done|]. split; [done|]. split; [done|].
    exists c, bytes. split_and!; try done; [by rewrite Hl|intros ? _; lia|]. eexists. split; [done|]. split; [by rewrite Hl|].
    unfold bytes_of. cbn [Data default from_option Datatypes.id]. unfold splice. rewrite take_0, app_nil_l. apply take_app_length.
  - destruct malloc_ok; [|done]. cbn. split; [done|]. split; [done|]. split; [done|].
    exists c, bytes. split_and!; try done; [by rewrite Hl|]. eexists. split; [done|]. split; [by rewrite Hl|]. unfold bytes_of. cbn. by rewrite firstn_all.
Qed.
(** A call that is answered in memory of its own. *)
Lemma crypt_fresh s id c m input encrypt produced n :
  context s id = Some c -> module s (cx_module c) = Some m -> cx_kind c = 2 -> valid_data (Some input) = true ->
  cc_crypt encrypt (take (Z.to_nat (cx_key_size c)) (cx_key c)) (cx_iv c) (take (Z.to_nat (Length input)) (bytes_of input)) (Length input + 16) = (0, produced) ->
  (if encrypt then Some (Z.of_nat (length produced)) else strip_padding produced (Z.of_nat (length produced))) = Some n ->
  crypt_data s id (Some input) 1 (Some no_data) 1 true true encrypt true true =
    (OK, release s (wipe produced (Z.to_nat (Length input + 16))), mkStored (Some (mkData n (Some (take (Z.to_nat n) produced)))) (Some n) (Some no_data)).
Proof.
  intros Hc Hm Hk Hv Ecc Hn. unfold crypt_data. rewrite (bool_decide_eq_true_2 (is_Some _)) by done. change (1 =? 1) with true. cbn [negb orb].
  rewrite Hv. change (valid_data (Some no_data)) with true. cbn [negb orb default from_option Datatypes.id Data no_data].
  rewrite Hc. cbn [mbind option_bind]. rewrite Hm, Hk. change (2 =? 2) with true. cbn [negb]. rewrite Ecc. change (0 =? 0) with true. cbn [negb].
  by rewrite Hn.
Qed.
(** C31: what was encrypted is decrypted: for every text that is not too long, the
    second call gives back exactly the text. *)
Theorem decrypt_encrypt s id c text :
  crypto_wf s -> context s id = Some c -> cx_kind c = 2 -> Forall byte_ok text -> Z.of_nat (length text) + 16 <= MAX_DATA ->
  let n := Z.of_nat (length text) in
  let '(r1, s1, st1) := CSSM_EncryptData s id (Some (mkData n (Some text))) 1 (Some no_data) 1 true true true true in
  let '(r2, s2, st2) := CSSM_DecryptData s1 id (st_output st1) 1 (Some no_data) 1 true true true true in
  r1 = OK /\ r2 = OK /\ st_actual st2 = Some n /\ st_output st2 = Some (mkData n (Some text)).
Proof.
  intros Hs Hc Hk Htext Hlen. cbv zeta. pose proof (find_id_Some _ _ _ _ Hc) as [Hin _].
  pose proof (cw_context s Hs) as Hall. rewrite Forall_forall in Hall. destruct (Hall c Hin) as [[Hkl Hkb] [Hil Hib] Hkind].
  assert (Z.of_nat (length (take (Z.to_nat (cx_key_size c)) (cx_key c))) ∈ [16; 24; 32]) as Hkey.
  { destruct Hkind as [[? _]|[_ Hn]]; [lia|]. rewrite length_take, Hkl. rewrite !elem_of_cons, elem_of_nil in *. lia. }
  assert (Z.of_nat (length (pkcs7 text)) <= Z.of_nat (length text) + 16) as Hpad.
  { unfold pkcs7. rewrite length_app, length_replicate. pose proof (Z.mod_pos_bound (Z.of_nat (length text)) 16 ltac:(lia)). lia. }
  destruct (cw_module s Hs c Hin) as [m Hm].
  destruct (law_encrypt _ (cx_iv c) text (Z.of_nat (length text) + 16) Hkey Hil Htext Hpad) as (output & Eenc & Hlo & Edec).
  pose proof (law_bytes true (take (Z.to_nat (cx_key_size c)) (cx_key c)) (cx_iv c) text (Z.of_nat (length text) + 16)) as Hob. rewrite Eenc in Hob.
  assert (Hvalid : forall k (l : list Z), 0 <= k <= MAX_DATA -> valid_data (Some (mkData k (Some l))) = true).
  { intros k l Hkl'. cbn. rewrite (proj2 (Z.leb_le _ _)) by lia. by rewrite orb_true_r. }
  assert (Htake : forall l : list Z, take (Z.to_nat (Z.of_nat (length l))) l = l) by (intros l; by rewrite Nat2Z.id, firstn_all).
  unfold CSSM_EncryptData, CSSM_DecryptData.
  rewrite (crypt_fresh s id c m _ true output (Z.of_nat (length output))); [|done..|apply Hvalid; lia|cbn; by rewrite Htake|done].
  cbn [st_output]. rewrite Htake.
  pose proof (strip_padding_correct (pkcs7 text)) as Hstrip.
  destruct (strip_padding (pkcs7 text) _) as [k|] eqn:Ek; [|by destruct (Hstrip ltac:(by apply pkcs7_ok) text (pkcs7_padded text))].
  destruct (Hstrip ltac:(by apply pkcs7_ok)) as [Hk' Hp]. pose proof (padded_inj _ _ _ Hp (pkcs7_padded text)) as Etext.
  assert (k = Z.of_nat (length text)) as -> by (rewrite <- Etext, length_take; lia).
  rewrite (crypt_fresh _ id c m _ false (pkcs7 text) (Z.of_nat (length text))); [|done..|apply Hvalid; lia| |done].
  - cbn [st_actual st_output]. by rewrite Etext.
  - cbn. rewrite Htake. apply Edec. lia.
Qed.
End secrets.

(** ** Witnesses *)

(** A cipher that only pads. *)
Definition plain_crypt (encrypt : bool) (bytes : list Z) (capacity : Z) : Z * list Z :=
  let output := w8 <$> (if encrypt then pkcs7 bytes else bytes) in
  if Z.of_nat (length output) <=? capacity then (0, output) else (-4301, []).
#[local] Instance plain_cipher : CommonCrypto := {
  cc_derive pass salt rounds n := (0, replicate (Z.to_nat n) 7);
  cc_crypt encrypt key iv bytes capacity := plain_crypt encrypt bytes capacity
}.
Lemma w8_bytes bytes : Forall byte_ok bytes -> w8 <$> bytes = bytes.
Proof.
  induction 1 as [|b bytes Hb _ IH]; cbn; [done|]. rewrite IH. f_equal. apply Z.mod_small. exact Hb.
Qed.
#[local] Instance plain_cipher_laws : CommonCryptoLaws.
Proof.
  split.
  - intros pass salt rounds n Hn. cbn. rewrite length_replicate. lia.
  - intros encrypt key iv bytes capacity Hc. cbn [cc_crypt plain_cipher]. unfold plain_crypt.
    destruct (Z.leb_spec (Z.of_nat (length (w8 <$> (if encrypt then pkcs7 bytes else bytes)))) capacity); [done|exact Hc].
  - intros encrypt key iv bytes capacity. cbn [cc_crypt plain_cipher]. unfold plain_crypt.
    destruct (_ <=? capacity); [|constructor]. apply Forall_fmap, Forall_true. intros x. apply w8_range.
  - intros key iv bytes capacity _ _ Hb Hc. exists (pkcs7 bytes). cbn [cc_crypt plain_cipher]. unfold plain_crypt.
    rewrite w8_bytes by (by apply pkcs7_ok). rewrite (proj2 (Z.leb_le _ _)) by done. split; [done|]. split; [done|].
    intros capacity' Hc'. by rewrite (proj2 (Z.leb_le _ _)).
Qed.
Definition example_attach : Call :=
  ModuleAttach (Some gGuidAppleCSP) (Some (mkVersion 2 0)) (Some (mkMemory true true)) 0 2 0 0 false 0 false true true.
Definition example_key : AKCSSMKey := derived_key 128 0x10000000 1 (replicate 16 9).
Definition example_iv : AKCSSMData := mkData 16 (Some (replicate 16 3)).
Definition example_context (id : Z) : Call := CreateSymmetricContext id AES_ID 6 (Some example_key) (Some example_iv) 7 false true true.
Lemma example_key_ok : key_ok (Some example_key).
Proof. intros k [= <-]. split; [done|]. intros bs [= <-]. split; [done|]. by repeat constructor. Qed.
Lemma example_iv_ok : argument_ok (Some example_iv).
Proof. intros d [= <-]. split; [done|]. intros bs [= <-]. split; [done|]. by repeat constructor. Qed.
Lemma no_data_ok : argument_ok (Some no_data).
Proof. by intros d [= <-]. Qed.
Lemma example_calls_ok : Forall call_ok [example_attach; example_context 1].
Proof. constructor; [exact I|]. constructor; [split; [apply example_key_ok|apply example_iv_ok]|constructor]. Qed.
Definition example_crypto : Crypto := run_calls initial [example_attach; example_context 1].
Lemma crypto_reachable_wf_witness : length (ids example_crypto) = 2%nat /\ crypto_wf example_crypto.
Proof.
  split; [reflexivity|]. apply (crypto_reachable_wf [example_attach; example_context 1]); [apply example_calls_ok|cbn; lia].
Defined.
Lemma example_crypto_wf : crypto_wf example_crypto.
Proof.
  unfold example_crypto. cbn [run_calls]. destruct (run_call_wf initial example_attach initial_wf eq_refl I) as [H1 _].
  apply (run_call_wf _ (example_context 1) H1 eq_refl). split; [apply example_key_ok|apply example_iv_ok].
Qed.
Lemma secrets_wiped_witness :
  (run_call example_crypto (DeleteContext 2)).1 = OK /\ cr_released (run_call example_crypto (DeleteContext 2)).2 <> [] /\
  Forall zeroed (cr_released (run_call example_crypto (DeleteContext 2)).2).
Proof.
  split; [reflexivity|]. split; [vm_compute; discriminate|].
  apply (secrets_wiped example_crypto (DeleteContext 2) example_crypto_wf I); [constructor|exact I].
Defined.
(** A message whose padding is wrong is refused, and the caller's buffer keeps its
    bytes. *)
Definition example_message : AKCSSMData := mkData 16 (Some (replicate 15 1 ++ [2])).
Definition example_buffer : AKCSSMData := mkData 2 (Some [42; 43]).
Lemma crypt_data_spec_witness :
  (crypt_data example_crypto 2 (Some example_message) 1 (Some example_buffer) 1 true true false true true).1.1 = DATA /\
  st_output (crypt_data example_crypto 2 (Some example_message) 1 (Some example_buffer) 1 true true false true true).2 = Some example_buffer.
Proof.
  assert ((crypt_data example_crypto 2 (Some example_message) 1 (Some example_buffer) 1 true true false true true).1.1 = DATA) as E
    by (vm_compute; reflexivity).
  split; [exact E|].
  assert (argument_ok (Some example_message)) as Hm.
  { intros d [= <-]. split; [done|]. intros bs [= <-]. split; [done|]. by repeat constructor. }
  assert (argument_ok (Some example_buffer)) as Hb.
  { intros d [= <-]. split; [done|]. intros bs [= <-]. split; [done|]. by repeat constructor. }
  pose proof (crypt_data_spec example_crypto 2 example_message example_buffer false true true example_crypto_wf Hm Hb) as Hs.
  destruct (crypt_data _ _ _ _ _ _ _ _ _ _ _) as [[r s'] st]. cbn [fst snd] in *. rewrite E in Hs.
  destruct Hs as (_ & _ & _ & Hout & _). exact Hout.
Defined.
Lemma decrypt_encrypt_witness :
  let '(r1, s1, st1) := CSSM_EncryptData example_crypto 2 (Some (mkData 3 (Some [104; 105; 33]))) 1 (Some no_data) 1 true true true true in
  let '(r2, s2, st2) := CSSM_DecryptData s1 2 (st_output st1) 1 (Some no_data) 1 true true true true in
  st_actual st2 = Some 3 /\ st_output st2 = Some (mkData 3 (Some [104; 105; 33])).
Proof.
  destruct (context example_crypto 2) as [c|] eqn:Ec; [|discriminate Ec].
  assert (cx_kind c = 2) as Hk by (vm_compute in Ec; injection Ec as <-; reflexivity).
  pose proof (decrypt_encrypt example_crypto 2 c [104; 105; 33] example_crypto_wf Ec Hk ltac:(by repeat constructor) ltac:(cbn; unfold MAX_DATA; lia)) as Hd.
  cbv zeta in Hd. change (Z.of_nat (length [104; 105; 33])) with 3 in Hd.
  destruct (CSSM_EncryptData _ _ _ _ _ _ _ _ _ _) as [[r1 s1] st1]. destruct (CSSM_DecryptData _ _ _ _ _ _ _ _ _ _) as [[r2 s2] st2].
  split; apply Hd.
Defined.
(** A key whose module is not attached is refused with its bytes left in the memory
    given back, where [CSSM_DeleteContext] would have wiped them. *)
Theorem refused_key_not_wiped :
  (run_call initial (example_context 99)).1 = CONTEXT /\
  cr_released (run_call initial (example_context 99)).2 = [replicate 16 9 ++ replicate 16 0 ++ replicate 16 3].
Proof. split; vm_compute; reflexivity. Qed.
