(* ===== verification/CodeMemory.v ===== *)
(** * CodeMemory: executable memory and who may enter it
    (runtime/NativeCodeMemory.c, runtime/DebuggerArena.c, and the questions of
    runtime/HostDiagnostics.c they ask)

    Translated code is kept in pages with two views: an executable one and a
    writable alias. A helper outside the process has to prepare the executable
    view, or a debugger provides it through a breakpoint. The kernel and the
    debugger are the class [CodeKernel]; [k_live] and [k_protection] are what can
    be observed of the mappings. Texts for the log are left out. *)
From S2P Require Import Prelude.
#[local] Set Warnings "-clear-no-such-hyp".

Definition PROT_EXEC : Z := 4.
Definition EPERM : Z := 1.
Definition EINPROGRESS : Z := 36.
Definition KERN_NO_SPACE : Z := 3.
Definition P_TRACED : Z := 0x800.
Definition CS_DEBUGGED : Z := 0x10000000.
Definition NC_MAX_ARENA : Z := 1024 * 1024 * 1024.

(** The views are addresses, zero when there is none. *)
Record NativeCodeMemory := mkMemory {
  nc_executable : Z; nc_writable : Z; nc_size : Z; nc_published : bool; nc_quarantined : bool
}.
Definition nc_empty : NativeCodeMemory := mkMemory 0 0 0 false false.
(** Any other value of the enumeration is [NC_UNCERTAIN]. *)
Inductive NCPreparation := NC_REJECTED | NC_PREPARED | NC_UNCERTAIN.

(** The kernel: an error number or the answer. A new private executable mapping;
    an alias of a mapping anywhere; protection; the two ways to unmap; the region
    at or above an address with its protection; the process's flags. [k_region_request]
    and [k_detach] are the two breakpoints a debugger answers. *)
Class CodeKernel (H : Type) := {
  k_page : Z;
  k_available : H -> Z;
  k_mmap_code : H -> Z -> (Z + Z) * H;
  k_remap : H -> Z -> Z -> (Z + Z) * H;
  k_mprotect : H -> Z -> Z -> Z -> option Z * H;
  k_munmap : H -> Z -> Z -> option Z * H;
  k_deallocate : H -> Z -> Z -> H;
  k_region : H -> Z -> option (Z * Z * Z);
  k_process_flags : H -> option Z;
  k_signing_flags : H -> option Z;
  k_region_request : H -> Z -> Z * H;
  k_detach : H -> H;
  k_live : H -> gset (Z * Z);
  k_protection : H -> Z * Z -> Z
}.

Section code.
Context {H : Type} `{!CodeKernel H}.

(** ** Views of code *)

Definition nc_available_memory (h : H) : Z := k_available h.
Definition nc_launch_limit (h : H) : Z :=
  let limit := NC_MAX_ARENA in
  let available := nc_available_memory h in
  let limit := if negb (available =? 0) && (available <? limit) then available else limit in
  limit - limit mod k_page.
Definition nc_arena_limit (h : H) : Z :=
  let limit := NC_MAX_ARENA in
  let available := nc_available_memory h in
  let limit := if negb (available =? 0) && (available / 4 <? limit) then available / 4 else limit in
  limit - limit mod k_page.
Definition nc_destroy (h : H) (m : NativeCodeMemory) : H * NativeCodeMemory :=
  if nc_quarantined m then (h, m) else
  let h := if negb (nc_writable m =? 0) then k_deallocate h (nc_writable m) (nc_size m) else h in
  let h := if negb (nc_executable m =? 0) then (k_munmap h (nc_executable m) (nc_size m)).2 else h in
  (h, nc_empty).
Definition remap_error (result : Z) : Z := if result =? KERN_NO_SPACE then ENOMEM else EACCES.
Definition vacant (m : NativeCodeMemory) : bool := (nc_size m =? 0) && (nc_executable m =? 0) && (nc_writable m =? 0).
(** [memory] and [quarantine] are [None] when null, [same] when they are one
    object. The result is an errno, or [None] for success. *)
Definition nc_create_managed (h : H) (memory : option NativeCodeMemory) (size : Z)
    (prepare : option (H -> Z -> Z -> NCPreparation * H)) (quarantine : option NativeCodeMemory) (same : bool)
    : option Z * H * option NativeCodeMemory * option NativeCodeMemory :=
  match memory, quarantine, prepare with
  | Some m, Some q, Some prepare =>
    if same || negb (vacant m) || negb (vacant q) || (size =? 0) || negb (size mod k_page =? 0) || (NC_MAX_ARENA <? size)
    then (Some EINVAL, h, memory, quarantine) else
    let '(mapped, h) := k_mmap_code h size in
    match mapped with
    | inl e => (Some e, h, memory, quarantine)
    | inr executable =>
      let staged := mkMemory executable 0 size false false in
      let '(remapped, h) := k_remap h executable size in
      match remapped with
      | inl result => (Some (remap_error result), (nc_destroy h staged).1, memory, quarantine)
      | inr alias =>
        let staged := mkMemory executable alias size false false in
        let '(outcome, h) := prepare h executable size in
        match outcome with
        | NC_UNCERTAIN => (Some EINPROGRESS, h, memory, Some (mkMemory executable alias size false true))
        | NC_REJECTED => (Some EPERM, (nc_destroy h staged).1, memory, quarantine)
        | NC_PREPARED =>
          let '(failed, h) := k_mprotect h alias size (Z.lor PROT_READ PROT_WRITE) in
          match failed with
          | Some e => (Some e, (nc_destroy h staged).1, memory, quarantine)
          | None => (None, h, Some (mkMemory executable alias size true false), quarantine)
          end
        end
      end
    end
  | _, _, _ => (Some EINVAL, h, memory, quarantine)
  end.
Definition nc_adopt (h : H) (memory : option NativeCodeMemory) (executable size : Z) : option Z * H * option NativeCodeMemory :=
  match memory with
  | None => (Some EINVAL, h, memory)
  | Some m =>
    if negb (vacant m) || (executable =? 0) || (size =? 0) || negb (size mod k_page =? 0) || (NC_MAX_ARENA <? size) ||
       negb (executable mod k_page =? 0) then (Some EINVAL, h, memory) else
    let '(remapped, h) := k_remap h executable size in
    match remapped with
    | inl result => (Some (remap_error result), h, memory)
    | inr alias =>
      let '(failed, h) := k_mprotect h alias size (Z.lor PROT_READ PROT_WRITE) in
      match failed with
      | Some e => (Some e, k_deallocate h alias size, memory)
      | None => (None, h, Some (mkMemory executable alias size true false))
      end
    end
  end.
Definition legacy_prepare (publish : H -> Z -> Z -> bool * H) (h : H) (address size : Z) : NCPreparation * H :=
  let '(ok, h) := publish h address size in (if ok then NC_PREPARED else NC_REJECTED, h).
Definition nc_create (h : H) (memory : option NativeCodeMemory) (size : Z) (publish : option (H -> Z -> Z -> bool * H))
    : option Z * H * option NativeCodeMemory :=
  match publish with
  | None => (Some EINVAL, h, memory)
  | Some publish =>
    let '(r, h, m, _) := nc_create_managed h memory size (Some (legacy_prepare publish)) (Some nc_empty) false in (r, h, m)
  end.
(** What a write does: the bytes stored, and the ranges whose data and
    instruction caches are brought up to date. *)
Record CodeWrite := mkWrite { cw_at : Z; cw_bytes : list Z; cw_flushed : Z * Z; cw_invalidated : Z * Z }.
Definition nc_write (m : NativeCodeMemory) (offset : Z) (bytes : option (list Z)) (size : Z) : (Z + option CodeWrite) :=
  match bytes with
  | Some bytes =>
    if negb (nc_published m) || nc_quarantined m || (nc_executable m =? 0) || (nc_writable m =? 0) || (nc_size m <? offset) ||
       (nc_size m - offset <? size) then inl EINVAL else
    if size =? 0 then inr None else
    let destination := nc_writable m + offset in
    inr (Some (mkWrite destination (take (Z.to_nat size) bytes) (destination, size) (nc_executable m + offset, size)))
  | None => inl EINVAL
  end.

(** ** What the system says *)

Definition hd_may_run_unsigned_code (h : H) : bool :=
  match k_signing_flags h with Some flags => negb (Z.land flags CS_DEBUGGED =? 0) | None => false end.
Definition hd_debugger_attached (h : H) : bool :=
  match k_process_flags h with Some flags => negb (Z.land flags P_TRACED =? 0) | None => false end.
Definition hd_protection (h : H) (address : Z) : Z :=
  match k_region h address with
  | Some (region, size, protection) => if (address <? region) || (size <=? address - region) then 0 else protection
  | None => 0
  end.
Definition hd_is_executable (h : H) (address : Z) : bool := negb (Z.land (hd_protection h address) PROT_EXEC =? 0).

(** ** The debugger *)

(** The probe a test may install, and whether the breakpoint protocol exists. *)
Context (attachment : option (H -> bool)) (DA_PROTOCOL : bool).
Definition da_debugger_present (h : H) : bool :=
  match attachment with Some attachment => attachment h | None => hd_debugger_attached h end.
Definition da_plausible_region (value : Z) : bool :=
  if (value =? 0) || (value =? UINT64_MAX) then false else
  if (value =? 0x690000e0) || (value =? 0xcccccccc690000e0) then false else
  Z.land value (k_page - 1) =? 0.
Definition da_detached (h : H) : bool * H :=
  if negb (da_debugger_present h) then (true, h) else
  let h := if DA_PROTOCOL then k_detach h else h in
  (negb (da_debugger_present h), h).
Definition da_adopt_region (h : H) (memory : option NativeCodeMemory) (region size : Z) : bool * H * option NativeCodeMemory :=
  let '(refusal, h, memory) := nc_adopt h memory region size in
  match refusal with
  | None => (true, h, memory)
  | Some _ =>
    if negb (region =? 0) && (region mod k_page =? 0) && negb (size =? 0) && (size mod k_page =? 0) && (size <=? NC_MAX_ARENA)
    then (false, (k_munmap h region size).2, memory) else (false, h, memory)
  end.
(** The attempts, until a region is plausible. *)
Fixpoint request_loop (attempts : nat) (h : H) (size : Z) : option Z * H :=
  match attempts with
  | O => (None, h)
  | S attempts =>
    let '(candidate, h) := k_region_request h size in
    if da_plausible_region candidate then (Some candidate, h) else request_loop attempts h size
  end.
Definition da_request_arena (h : H) (memory : option NativeCodeMemory) (size : Z) : bool * H * option NativeCodeMemory :=
  if negb DA_PROTOCOL then (false, h, memory) else
  if negb (da_debugger_present h) then (false, h, memory) else
  let '(executable, h) := request_loop 3 h size in
  match executable with
  | None => (false, h, memory)
  | Some executable => da_adopt_region h memory executable size
  end.
Definition da_release_debugger (h : H) (memory : option NativeCodeMemory) : bool * H :=
  match memory with
  | Some m => if nc_executable m =? 0 then (false, h) else let '(_, h) := da_detached h in (hd_is_executable h (nc_executable m), h)
  | None => (false, h)
  end.
Definition da_entry_allowed (h : H) (memory : option NativeCodeMemory) : bool * H :=
  match memory with
  | Some m =>
    if nc_executable m =? 0 then (false, h) else
    let '(detached, h) := da_detached h in
    if negb detached then (false, h) else (hd_is_executable h (nc_executable m), h)
  | None => (false, h)
  end.
End code.

(** ** Ownership of mappings *)

Definition RX : Z := Z.lor PROT_READ PROT_EXEC.
Definition RW : Z := Z.lor PROT_READ PROT_WRITE.
(** A mapping appears, goes away, or gets another protection; nothing else changes. *)
Section changes.
Context {H : Type} `{!CodeKernel H}.
Record unchanged (h h' : H) : Prop := {
  un_live : k_live h' = k_live h;
  un_protection : forall y, k_protection h' y = k_protection h y
}.
Record appears (h h' : H) (x : Z * Z) (protection : Z) : Prop := {
  ap_new : x ∉ k_live h;
  ap_live : k_live h' = {[x]} ∪ k_live h;
  ap_protection : k_protection h' x = protection;
  ap_others : forall y, y <> x -> k_protection h' y = k_protection h y
}.
Record vanishes (h h' : H) (x : Z * Z) : Prop := {
  va_live : k_live h' = k_live h ∖ {[x]};
  va_others : forall y, y <> x -> k_protection h' y = k_protection h y
}.
Record reprotected (h h' : H) (x : Z * Z) (protection : Z) : Prop := {
  re_live : k_live h' = k_live h;
  re_protection : k_protection h' x = protection;
  re_others : forall y, y <> x -> k_protection h' y = k_protection h y
}.
Lemma unchanged_refl h : unchanged h h.
Proof. by split. Qed.
Lemma unchanged_trans h1 h2 h3 : unchanged h1 h2 -> unchanged h2 h3 -> unchanged h1 h3.
Proof. intros [] []. split; [congruence|]. intros y. congruence. Qed.
End changes.
(** The documented behaviour of the calls. *)
Class CodeKernelLaws (H : Type) `{!CodeKernel H} := {
  law_page : exists k, 12 <= k <= 16 /\ k_page = 2 ^ k;
  law_available (h : H) : 0 <= k_available h;
  law_mmap_code (h : H) n :
    match k_mmap_code h n with
    | (inr a, h') => 0 < a /\ appears h h' (a, n) RX
    | (inl _, h') => unchanged h h'
    end;
  law_remap (h : H) a n :
    match k_remap h a n with
    | (inr b, h') => 0 < b /\ appears h h' (b, n) (k_protection h (a, n))
    | (inl _, h') => unchanged h h'
    end;
  law_mprotect (h : H) a n p :
    match k_mprotect h a n p with
    | (None, h') => reprotected h h' (a, n) p
    | (Some _, h') => unchanged h h'
    end;
  law_munmap (h : H) a n :
    match k_munmap h a n with
    | (None, h') => vanishes h h' (a, n)
    | (Some _, h') => unchanged h h' /\ (a, n) ∉ k_live h
    end;
  law_deallocate (h : H) a n : vanishes h (k_deallocate h a n) (a, n)
}.

Definition views (m : NativeCodeMemory) : gset (Z * Z) :=
  (if nc_executable m =? 0 then ∅ else {[(nc_executable m, nc_size m)]}) ∪
  (if nc_writable m =? 0 then ∅ else {[(nc_writable m, nc_size m)]}).

Section ownership.
Context {H : Type} `{!CodeKernel H, !CodeKernelLaws H}.

Lemma munmap_live h a n : k_live (k_munmap h a n).2 = k_live h ∖ {[(a, n)]}.
Proof.
  pose proof (law_munmap h a n) as Hm. destruct (k_munmap h a n) as [[e|] h']; cbn.
  - destruct Hm as [[-> _] Hno]. set_solver.
  - apply Hm.
Qed.
(** Destroying unmaps exactly the two views, unless they are in quarantine. *)
Lemma nc_destroy_correct h m :
  let '(h', m') := nc_destroy h m in
  if nc_quarantined m then h' = h /\ m' = m else m' = nc_empty /\ k_live h' = k_live h ∖ views m.
Proof.
  unfold nc_destroy, views. destruct (nc_quarantined m); [done|]. split; [done|].
  pose proof (law_deallocate h (nc_writable m) (nc_size m)) as [Hd _].
  destruct (nc_writable m =? 0), (nc_executable m =? 0); cbn [negb]; rewrite ?munmap_live, ?Hd; set_solver.
Qed.
Lemma vacant_spec m : vacant m = true -> nc_size m = 0 /\ nc_executable m = 0 /\ nc_writable m = 0.
Proof. unfold vacant. intros Hv. bool_props. lia. Qed.

Lemma nc_create_managed_correct h m q size prepare same :
  (forall h a n, unchanged h (prepare h a n).2) ->
  let '(r, h', m', q') := nc_create_managed h (Some m) size (Some prepare) (Some q) same in
  match r with
  | None => exists c, m' = Some c /\ q' = Some q /\ nc_size c = size /\ nc_published c = true /\ nc_quarantined c = false /\
      views c ## k_live h /\ k_live h' = views c ∪ k_live h /\
      k_protection h' (nc_executable c, size) = RX /\ k_protection h' (nc_writable c, size) = RW /\ nc_executable c <> nc_writable c
  | Some e => m' = Some m /\
      (q' = Some q /\ k_live h' = k_live h \/
       e = EINPROGRESS /\ exists c, q' = Some c /\ nc_quarantined c = true /\ nc_published c = false /\
         views c ## k_live h /\ k_live h' = views c ∪ k_live h /\
         k_protection h' (nc_executable c, size) = RX /\ k_protection h' (nc_writable c, size) = RX)
  end.
Proof.
  intros Hprepare. unfold nc_create_managed. destruct (_ || _ || _ || _ || _ || _) eqn:Eargs; [by auto|]. bool_props.
  pose proof (law_mmap_code h size) as Hmap. destruct (k_mmap_code h size) as [[e|x] h1]; [split; [done|left; by destruct Hmap]|].
  destruct Hmap as [Hx [Hnew1 Hl1 Hp1 Ho1]].
  pose proof (law_remap h1 x size) as Hremap. destruct (k_remap h1 x size) as [[e|b] h2].
  { pose proof (nc_destroy_correct h2 (mkMemory x 0 size false false)) as Hd. cbn [nc_quarantined] in Hd.
    destruct (nc_destroy h2 _) as [h3 m3]. destruct Hd as [_ Hd]. split; [done|]. left. split; [done|].
    destruct Hremap as [Hl2 _]. cbn. rewrite Hd, Hl2, Hl1. unfold views. cbn [nc_executable nc_writable nc_size].
    rewrite (proj2 (Z.eqb_neq x 0)) by lia. set_solver. }
  destruct Hremap as [Hb [Hnew2 Hl2 Hp2 Ho2]].
  assert (Hviews : forall pub quar, views (mkMemory x b size pub quar) = {[(x, size)]} ∪ {[(b, size)]}).
  { intros pub quar. unfold views. cbn. by rewrite (proj2 (Z.eqb_neq x 0)), (proj2 (Z.eqb_neq b 0)) by lia. }
  assert (x <> b) as Hxb by (intros ->; apply Hnew2; rewrite Hl1; set_solver).
  pose proof (Hprepare h2 x size) as Hpre. destruct (prepare h2 x size) as [outcome h3]. cbn [snd] in Hpre. destruct Hpre as [Hl3 Hp3].
  assert (Hback : forall h4, k_live h4 = k_live h3 -> k_live (nc_destroy h4 (mkMemory x b size false false)).1 = k_live h).
  { intros h4 E4. pose proof (nc_destroy_correct h4 (mkMemory x b size false false)) as Hd. cbn [nc_quarantined] in Hd.
    destruct (nc_destroy h4 _) as [h5 m5]. destruct Hd as [_ Hd]. cbn. rewrite Hd, E4, Hl3, Hl2, Hl1, Hviews.
    rewrite Hl1 in Hnew2. set_solver. }
  assert (Hdisjoint : {[(x, size)]} ∪ {[(b, size)]} ## k_live h) by (rewrite Hl1 in Hnew2; set_solver).
  assert (Hunion : {[(b, size)]} ∪ ({[(x, size)]} ∪ k_live h) = {[(x, size)]} ∪ {[(b, size)]} ∪ k_live h) by set_solver.
  assert (Hrx : k_protection h2 (x, size) = RX) by (rewrite Ho2 by congruence; exact Hp1).
  destruct outcome.
  - split; [done|]. left. split; [done|]. by apply Hback.
  - pose proof (law_mprotect h3 b size (Z.lor PROT_READ PROT_WRITE)) as Hprot.
    destruct (k_mprotect h3 b size _) as [[e|] h4].
    + split; [done|]. left. split; [done|]. apply Hback. apply Hprot.
    + destruct Hprot as [Hl4 Hp4 Ho4]. exists (mkMemory x b size true false). rewrite Hviews. cbn [nc_size nc_published nc_quarantined nc_executable nc_writable].
      split_and!; try done.
      * by rewrite Hl4, Hl3, Hl2, Hl1.
      * rewrite Ho4 by congruence. by rewrite Hp3.
  - split; [done|]. right. split; [done|]. exists (mkMemory x b size false true). rewrite Hviews. cbn [nc_published nc_quarantined nc_executable nc_writable].
    split_and!; try done.
    + by rewrite Hl3, Hl2, Hl1.
    + by rewrite Hp3.
    + rewrite Hp3, Hp2. exact Hp1.
Qed.
(** A helper that always knows its answer leaves nothing in quarantine. *)
Lemma nc_create_managed_certain h m q size prepare same :
  (forall h a n, (prepare h a n).1 <> NC_UNCERTAIN) -> (nc_create_managed h (Some m) size (Some prepare) (Some q) same).2 = Some q.
Proof.
  intros Hcertain. unfold nc_create_managed. destruct (_ || _ || _ || _ || _ || _); [done|]. destruct (k_mmap_code h size) as [[e|x] h1]; [done|].
  destruct (k_remap h1 x size) as [[e|b] h2]; [done|]. pose proof (Hcertain h2 x size) as Hc. destruct (prepare h2 x size) as [[] h3]; [done| |done].
  by destruct (k_mprotect h3 b size _) as [[e|] h4].
Qed.
(** C27: no mapping is lost and none is freed twice. A new code memory owns exactly
    two mappings that were not there before, an executable one that cannot be
    written and a writable one that cannot be executed; when the helper's answer is
    uncertain both are kept in quarantine, never enabled for writing; every other
    refusal leaves the mappings of the process as they were. *)
Theorem nc_create_managed_spec h m q size prepare same :
  (forall h a n, unchanged h (prepare h a n).2) ->
  let '(r, h', m', q') := nc_create_managed h (Some m) size (Some prepare) (Some q) same in
  match r with
  | None => exists c, m' = Some c /\ q' = Some q /\ nc_size c = size /\ nc_published c = true /\ nc_quarantined c = false /\
      views c ## k_live h /\ k_live h' = views c ∪ k_live h /\
      k_protection h' (nc_executable c, size) = RX /\ k_protection h' (nc_writable c, size) = RW /\ nc_executable c <> nc_writable c
  | Some e => m' = Some m /\
      (q' = Some q /\ k_live h' = k_live h \/
       e = EINPROGRESS /\ exists c, q' = Some c /\ nc_quarantined c = true /\ nc_published c = false /\
         views c ## k_live h /\ k_live h' = views c ∪ k_live h /\
         k_protection h' (nc_executable c, size) = RX /\ k_protection h' (nc_writable c, size) = RX)
  end.
Proof. apply nc_create_managed_correct. Qed.

(** Adopting adds the writable alias to what the process has, or nothing. *)
Theorem nc_adopt_correct h m executable size :
  0 <= size ->
  let '(r, h', m') := nc_adopt h (Some m) executable size in
  match r with
  | None => exists c, m' = Some c /\ nc_executable c = executable /\ nc_size c = size /\ nc_published c = true /\
      executable mod k_page = 0 /\ size mod k_page = 0 /\ 0 < size <= NC_MAX_ARENA /\
      ((nc_writable c, size) ∉ k_live h) /\ k_live h' = {[(nc_writable c, size)]} ∪ k_live h /\
      k_protection h' (nc_writable c, size) = RW /\ forall y, y <> (nc_writable c, size) -> k_protection h' y = k_protection h y
  | Some e => m' = Some m /\ k_live h' = k_live h
  end.
Proof.
  intros Hsize. unfold nc_adopt. destruct (_ || _ || _ || _ || _ || _) eqn:Eargs; [done|]. bool_props.
  pose proof (law_remap h executable size) as Hremap. destruct (k_remap h executable size) as [[e|b] h1]; [split; [done|apply Hremap]|].
  destruct Hremap as [Hb [Hnew Hl Hp Ho]]. pose proof (law_mprotect h1 b size (Z.lor PROT_READ PROT_WRITE)) as Hprot.
  destruct (k_mprotect h1 b size _) as [[e|] h2].
  - split; [done|]. destruct (law_deallocate h2 b size) as [-> _]. destruct Hprot as [-> _]. rewrite Hl. set_solver.
  - destruct Hprot as [Hl2 Hp2 Ho2]. exists (mkMemory executable b size true false). cbn [nc_executable nc_writable nc_size nc_published].
    split_and!; try done; try lia; [by rewrite Hl2|]. intros y Hy. by rewrite Ho2, Ho.
Qed.
(** The limits are sizes that are accepted, within what the system has left. *)
Theorem nc_limits_spec h :
  let ok limit := 0 <= limit <= NC_MAX_ARENA /\ limit mod k_page = 0 /\ (nc_available_memory h <> 0 -> limit <= nc_available_memory h) in
  ok (nc_launch_limit h) /\ ok (nc_arena_limit h) /\
  (nc_available_memory h <> 0 -> nc_arena_limit h <= nc_available_memory h / 4) /\ nc_arena_limit h <= nc_launch_limit h.
Proof.
  cbv zeta. unfold nc_launch_limit, nc_arena_limit, nc_available_memory. pose proof (law_available h) as Hav.
  destruct law_page as (k & Hk & ->). assert (0 < 2 ^ k) as Hpos by (apply Z.pow_pos_nonneg; lia).
  assert (Hround : forall x, 0 <= x -> 0 <= x - x mod 2 ^ k <= x /\ (x - x mod 2 ^ k) mod 2 ^ k = 0).
  { intros x Hx. pose proof (Z.mod_pos_bound x (2 ^ k) Hpos). pose proof (Z.mod_le x (2 ^ k) Hx Hpos). split; [lia|].
    rewrite Zminus_mod, Z.mod_mod by lia. by rewrite Z.sub_diag, Z.mod_0_l by lia. }
  assert (Hmono : forall x y, 0 <= x <= y -> x - x mod 2 ^ k <= y - y mod 2 ^ k).
  { intros x y Hxy. pose proof (Z.div_mod x (2 ^ k)). pose proof (Z.div_mod y (2 ^ k)). pose proof (Z.div_le_mono x y (2 ^ k) Hpos ltac:(lia)). nia. }
  set (av := k_available h) in *. assert (0 <= av / 4 <= av) as Hq by (split; [apply Z.div_pos; lia|apply Z.div_le_upper_bound; lia]).
  set (l1 := if negb (av =? 0) && (av <? NC_MAX_ARENA) then av else NC_MAX_ARENA).
  set (l2 := if negb (av =? 0) && (av / 4 <? NC_MAX_ARENA) then av / 4 else NC_MAX_ARENA).
  assert (0 <= l1 <= NC_MAX_ARENA /\ (av <> 0 -> l1 <= av)) as [H1 H1'].
  { unfold l1. destruct (Z.eqb_spec av 0), (Z.ltb_spec av NC_MAX_ARENA); cbn; unfold NC_MAX_ARENA in *; lia. }
  assert (0 <= l2 <= l1 /\ (av <> 0 -> l2 <= av / 4)) as [H2 H2'].
  { unfold l2, l1. destruct (Z.eqb_spec av 0), (Z.ltb_spec av NC_MAX_ARENA), (Z.ltb_spec (av / 4) NC_MAX_ARENA); cbn; unfold NC_MAX_ARENA in *; lia. }
  destruct (Hround l1 ltac:(lia)) as [H3 H4]. destruct (Hround l2 ltac:(lia)) as [H5 H6]. pose proof (Hmono l2 l1 ltac:(lia)).
  split_and!; try done; try lia; intros Hne; specialize (H1' Hne); specialize (H2' Hne); lia.
Qed.
(** A write stays inside the code memory, goes through the writable view, and
    brings the instruction cache up to date for the same range of the executable
    view. *)
Theorem nc_write_spec m offset bytes size :
  0 <= offset -> 0 <= size <= Z.of_nat (length bytes) ->
  match nc_write m offset (Some bytes) size with
  | inl e => e = EINVAL /\ (nc_published m = false \/ nc_quarantined m = true \/ nc_executable m = 0 \/ nc_writable m = 0 \/ nc_size m < offset + size)
  | inr None => size = 0
  | inr (Some w) => offset + size <= nc_size m /\ nc_published m = true /\ nc_quarantined m = false /\
      cw_at w = nc_writable m + offset /\ Z.of_nat (length (cw_bytes w)) = size /\ cw_bytes w = take (Z.to_nat size) bytes /\
      cw_flushed w = (cw_at w, size) /\ cw_invalidated w = (nc_executable m + offset, size)
  end.
Proof.
  intros Hoff Hsize. unfold nc_write. destruct (_ || _ || _ || _ || _ || _) eqn:E.
  - split; [done|]. destruct (nc_published m); [|by left]. destruct (nc_quarantined m); [by right; left|]. cbn [negb orb] in E.
    destruct (Z.eqb_spec (nc_executable m) 0); [by do 2 right; left|]. destruct (Z.eqb_spec (nc_writable m) 0); [by do 3 right; left|].
    do 4 right. cbn [orb] in E. destruct (Z.ltb_spec (nc_size m) offset); [lia|]. cbn [orb] in E. bool_props. lia.
  - bool_props. destruct (Z.eqb_spec size 0); [done|]. cbn. split_and!; try done; try lia. rewrite length_take. lia.
Qed.
End ownership.

Section debugger.
Context {H : Type} `{!CodeKernel H, !CodeKernelLaws H} (attachment : option (H -> bool)) (DA_PROTOCOL : bool).

Lemma request_loop_spec attempts h size a h' :
  request_loop attempts h size = (Some a, h') -> da_plausible_region a = true.
Proof.
  revert h. induction attempts as [|attempts IH]; intros h; cbn [request_loop]; [done|].
  destruct (k_region_request h size) as [candidate h1]. destruct (da_plausible_region candidate) eqn:E; [by intros [= <- _]|apply IH].
Qed.
Lemma plausible_aligned a : 0 <= a -> da_plausible_region a = true -> 0 < a /\ a mod k_page = 0.
Proof.
  intros Ha. unfold da_plausible_region. destruct (Z.eqb_spec a 0); [done|]. cbn [orb]. destruct (_ =? UINT64_MAX); [done|].
  destruct (_ || _); [done|]. destruct law_page as (k & Hk & ->). rewrite land_mask by lia. intros He%Z.eqb_eq. split; [lia|done].
Qed.
(** the process traps only while a debugger is attached, takes at most a
    region that is a plausible address, and otherwise changes nothing of the
    caller's: an arena that cannot be adopted is given back. *)
Theorem da_request_arena_spec h m size :
  0 <= size ->
  let '(ok, h', m') := da_request_arena attachment DA_PROTOCOL h (Some m) size in
  (da_debugger_present attachment h = false \/ DA_PROTOCOL = false -> ok = false /\ h' = h) /\
  if ok then exists c, m' = Some c /\ da_plausible_region (nc_executable c) = true /\ nc_published c = true /\ nc_size c = size /\
      k_protection h' (nc_writable c, size) = RW
  else m' = Some m.
Proof.
  intros Hsize. unfold da_request_arena. destruct DA_PROTOCOL; cbn [negb]; [|done].
  destruct (da_debugger_present attachment h); cbn [negb]; [|done].
  destruct (request_loop 3 h size) as [[executable|] h1] eqn:Er; [|by split; [intros []|]].
  apply request_loop_spec in Er. unfold da_adopt_region. pose proof (nc_adopt_correct h1 m executable size Hsize) as Ha.
  destruct (nc_adopt h1 (Some m) executable size) as [[[e|] h2] m2].
  - destruct Ha as [-> _]. destruct (_ && _ && _ && _ && _); by split; [intros []|].
  - split; [by intros []|]. destruct Ha as (c & -> & He & Hn & Hp & _ & _ & _ & _ & _ & Hprot & _). exists c. rewrite He. by split_and!.
Qed.
(** A region that cannot be adopted goes back whole when it is a mapping that was
    asked for, or stays. *)
Theorem da_adopt_region_spec h m region size :
  0 <= size ->
  let '(ok, h', m') := da_adopt_region h (Some m) region size in
  if ok then exists c, m' = Some c /\ nc_executable c = region /\ k_live h' = {[(nc_writable c, size)]} ∪ k_live h
  else m' = Some m /\
    if negb (region =? 0) && (region mod k_page =? 0) && negb (size =? 0) && (size mod k_page =? 0) && (size <=? NC_MAX_ARENA)
    then k_live h' = k_live h ∖ {[(region, size)]} else k_live h' = k_live h.
Proof.
  intros Hsize. unfold da_adopt_region. pose proof (nc_adopt_correct h m region size Hsize) as Ha.
  destruct (nc_adopt h (Some m) region size) as [[[e|] h2] m2].
  - destruct Ha as [-> Hl]. destruct (_ && _ && _ && _ && _); (split; [done|]); [|done]. by rewrite munmap_live, Hl.
  - destruct Ha as (c & -> & He & _ & _ & _ & _ & _ & _ & Hl & _). by exists c.
Qed.
(** C28: guest code is entered only when nothing is attached to the process and the
    page it starts in can be executed, whatever the debugger did when it was asked
    to let go. *)
Theorem da_entry_allowed_spec h m :
  let '(ok, h') := da_entry_allowed attachment DA_PROTOCOL h m in
  (da_debugger_present attachment h = false -> h' = h) /\
  (ok = true <-> exists c, m = Some c /\ nc_executable c <> 0 /\ da_debugger_present attachment h' = false /\
    exists region n protection, k_region h' (nc_executable c) = Some (region, n, protection) /\
      region <= nc_executable c < region + n /\ Z.land protection PROT_EXEC <> 0).
Proof.
  unfold da_entry_allowed. destruct m as [c|]; [|split; [done|]; split; [done|by intros (? & ? & _)]].
  destruct (Z.eqb_spec (nc_executable c) 0) as [Hz|Hnz]; [split; [done|]; split; [done|by intros (? & [= <-] & ? & _)]|].
  assert (let '(detached, h') := da_detached attachment DA_PROTOCOL h in
    (da_debugger_present attachment h = false -> h' = h) /\ detached = negb (da_debugger_present attachment h')) as Hd.
  { unfold da_detached. destruct (da_debugger_present attachment h) eqn:E; cbn [negb]; [done|]. by rewrite E. }
  destruct (da_detached attachment DA_PROTOCOL h) as [detached h']. destruct Hd as [Hsame ->]. rewrite negb_involutive.
  destruct (da_debugger_present attachment h') eqn:E.
  { split; [done|]. split; [done|]. intros (? & _ & _ & ? & _). congruence. }
  split; [done|]. unfold hd_is_executable, hd_protection. split.
  - intros Hex. exists c. split; [done|]. split; [done|]. split; [done|].
    destruct (k_region h' (nc_executable c)) as [[[region n] protection]|]; [|done]. exists region, n, protection. split; [done|].
    destruct ((nc_executable c <? region) || (n <=? nc_executable c - region)) eqn:Er; [done|]. bool_props. by split; [lia|].
  - intros (? & [= <-] & _ & _ & region & n & protection & -> & Hr & Hp).
    rewrite (proj2 (Z.ltb_ge _ _)), (proj2 (Z.leb_gt _ _)) by lia. cbn. by apply negb_true_iff, Z.eqb_neq.
Qed.
End debugger.

(** ** A kernel with a table of mappings *)

Record TableKernel := mkTable { tk_live : gset (Z * Z); tk_protection : gmap (Z * Z) Z; tk_next : Z; tk_attached : bool }.
Definition tk_fresh (h : TableKernel) (n p : Z) : (Z + Z) * TableKernel :=
  if decide ((tk_next h, n) ∈ tk_live h) then (inl ENOMEM, h) else
  if tk_next h <=? 0 then (inl ENOMEM, h) else
  (inr (tk_next h), mkTable ({[(tk_next h, n)]} ∪ tk_live h) (<[(tk_next h, n) := p]> (tk_protection h)) (tk_next h + n) (tk_attached h)).
Definition tk_lookup (h : TableKernel) (x : Z * Z) : Z := default 0 (tk_protection h !! x).
Definition tk_drop (h : TableKernel) (x : Z * Z) : TableKernel :=
  mkTable (tk_live h ∖ {[x]}) (tk_protection h) (tk_next h) (tk_attached h).
Instance table_kernel : CodeKernel TableKernel := {|
  k_page := 4096;
  k_available _ := 0;
  k_mmap_code h n := tk_fresh h n RX;
  k_remap h a n := tk_fresh h n (tk_lookup h (a, n));
  k_mprotect h a n p := (None, mkTable (tk_live h) (<[(a, n) := p]> (tk_protection h)) (tk_next h) (tk_attached h));
  k_munmap h a n := (None, tk_drop h (a, n));
  k_deallocate h a n := tk_drop h (a, n);
  k_region h a := Some (a, 4096, RX);
  k_process_flags h := Some (if tk_attached h then P_TRACED else 0);
  k_signing_flags h := None;
  k_region_request h n := match tk_fresh h n RX with (inr a, h') => (a, h') | (inl _, h') => (0, h') end;
  k_detach h := mkTable (tk_live h) (tk_protection h) (tk_next h) false;
  k_live := tk_live;
  k_protection := tk_lookup
|}.
Lemma tk_fresh_ok h n p :
  match tk_fresh h n p with
  | (inr a, h') => 0 < a /\ appears h h' (a, n) p
  | (inl _, h') => unchanged h h'
  end.
Proof.
  unfold tk_fresh. case_decide; [apply unchanged_refl|]. destruct (Z.leb_spec (tk_next h) 0); [apply unchanged_refl|].
  split; [done|]. split; [done|done|..]; cbn; unfold tk_lookup; cbn; [by rewrite lookup_insert_eq|].
  intros y Hy. by rewrite lookup_insert_ne.
Qed.
Lemma tk_drop_ok h x : vanishes h (tk_drop h x) x.
Proof. by split. Qed.
Instance table_kernel_laws : CodeKernelLaws TableKernel.
Proof.
  split; intros.
  - by exists 12.
  - done.
  - apply tk_fresh_ok.
  - apply tk_fresh_ok.
  - cbn. split; [done|..]; cbn; unfold tk_lookup; cbn; [by rewrite lookup_insert_eq|]. intros y Hy. by rewrite lookup_insert_ne.
  - apply tk_drop_ok.
  - apply tk_drop_ok.
Qed.

(** A process with one mapping and a debugger that has prepared it. *)
Definition tk_start : TableKernel := mkTable {[(4096, 4096)]} {[(4096, 4096) := RW]} 0x100000 true.
Definition tk_prepared (h : TableKernel) (address size : Z) : NCPreparation * TableKernel := (NC_PREPARED, h).

Lemma nc_create_managed_spec_witness :
  exists h c, nc_create_managed tk_start (Some nc_empty) 8192 (Some tk_prepared) (Some nc_empty) false = (None, h, Some c, Some nc_empty) /\
    (views c ## k_live tk_start) /\ k_live h = views c ∪ k_live tk_start /\ k_protection h (nc_writable c, 8192) = RW.
Proof.
  pose proof (nc_create_managed_spec tk_start nc_empty nc_empty 8192 tk_prepared false ltac:(intros; apply unchanged_refl)) as Hs.
  destruct (nc_create_managed tk_start (Some nc_empty) 8192 (Some tk_prepared) (Some nc_empty) false) as [[[r h] m] q] eqn:E.
  assert (r = None) as -> by (apply (f_equal (fun x => x.1.1.1)) in E; vm_compute in E; by symmetry).
  destruct Hs as (c & -> & -> & _ & _ & _ & Hd & Hl & _ & Hw & _). by exists h, c.
Defined.
Lemma da_request_arena_spec_witness :
  exists h c, da_request_arena None true tk_start (Some nc_empty) 8192 = (true, h, Some c) /\
    da_plausible_region (nc_executable c) = true /\ k_protection h (nc_writable c, 8192) = RW.
Proof.
  pose proof (da_request_arena_spec None true tk_start nc_empty 8192 ltac:(lia)) as Hs.
  destruct (da_request_arena None true tk_start (Some nc_empty) 8192) as [[ok h] m] eqn:E.
  assert (ok = true) as -> by (apply (f_equal (fun x => x.1.1)) in E; vm_compute in E; by symmetry).
  destruct Hs as [_ (c & -> & Hp & _ & _ & Hw)]. by exists h, c.
Defined.
Lemma da_entry_allowed_spec_witness :
  exists h, da_entry_allowed None true tk_start (Some (mkMemory 4096 8192 4096 true false)) = (true, h) /\ tk_attached h = false /\
    da_debugger_present None h = false.
Proof.
  pose proof (da_entry_allowed_spec None true tk_start (Some (mkMemory 4096 8192 4096 true false))) as Hs.
  destruct (da_entry_allowed None true tk_start (Some (mkMemory 4096 8192 4096 true false))) as [ok h] eqn:E.
  assert (ok = true /\ tk_attached h = false) as [-> Ha] by (split; [apply (f_equal fst) in E|apply (f_equal (fun x => tk_attached x.2)) in E]; vm_compute in E; by symmetry).
  destruct Hs as [_ [Hs _]]. destruct (Hs eq_refl) as (c & _ & _ & Hp & _). by exists h.
Defined.
