(* ===== verification/SignedFileProbe.v ===== *)
(** * SignedFileProbe: an experiment on signed files
    (launcher/App/SignedFileProbe.c)

    The probe maps a signed Mach-O file, looks for its code and signature, and
    tries what the system lets it execute. Everything it reads of the file is at
    offsets the file gives; a read outside the file is [None] here, which the
    theorems exclude. The files, mappings and the code itself are the class
    [ProbeHost]; the text of the log is left out, what is read for it is not. *)
From Stdlib Require Import String.
From S2P Require Import Prelude.
#[local] Set Warnings "-clear-no-such-hyp".

(** ** Reading the file *)

(** [memcpy] and the big-endian reads, within the bytes that are there. *)
Definition get (f : list Z) (i n : Z) : option (list Z) :=
  if (0 <=? i) && (i + n <=? Z.of_nat (length f)) then Some (slice (Z.to_nat i) (Z.to_nat n) f) else None.
(** Fields of a structure that was copied out. *)
Definition le32 (raw : list Z) (i : nat) : Z := le_value (slice i 4 raw).
Definition le64 (raw : list Z) (i : nat) : Z := le_value (slice i 8 raw).
Definition read_be32 (f : list Z) (i : Z) : option Z := (le_value ∘ reverse) <$> get f i 4.
Definition read_be64 (f : list Z) (i : Z) : option Z := (le_value ∘ reverse) <$> get f i 8.
Definition read_u8 (f : list Z) (i : Z) : option Z := le_value <$> get f i 1.
(** [strncmp(a, b, 16) == 0] for a field of 16 bytes and a shorter string. *)
Fixpoint field_is (a b : list Z) : bool :=
  match b with
  | [] => default 0 (head a) =? 0
  | c :: b => match a with [] => false | x :: a => (x =? c) && field_is a b end
  end.

Definition MH_MAGIC_64 : Z := 0xfeedfacf.
Definition CPU_TYPE_ARM64 : Z := 0x100000c.
Definition LC_SEGMENT_64 : Z := 0x19.
Definition LC_CODE_SIGNATURE : Z := 0x1d.
Definition __text : list Z := [95; 95; 116; 101; 120; 116].
Definition __TEXT : list Z := [95; 95; 84; 69; 88; 84].

(** What is found: the code and the signature. *)
Record Found := mkFound { text_offset : Z; text_size : Z; signature_offset : Z; signature_size : Z }.
Definition nothing_found : Found := mkFound 0 0 0 0.
(** The result is the C function's, zero or negative; [None] is a read outside
    the file, or more turns than the fuel. *)
Fixpoint inspect_sections (f : list Z) (section : Z) (nsects : nat) (found : Found) : option (Z * Found) :=
  match nsects with
  | O => Some (0, found)
  | S nsects =>
    raw ← get f section 80;
    let size := le64 raw 40 in
    let offset := le32 raw 48 in
    if field_is (slice 0 16 raw) __text && field_is (slice 16 16 raw) __TEXT then
      if (Z.of_nat (length f) <? offset + 4) || (Z.of_nat (length f) <? size) || (Z.of_nat (length f) <? offset + size) ||
         negb (Z.land offset 3 =? 0) then Some (-7, found) else
      inspect_sections f (section + 80) nsects (mkFound offset size (signature_offset found) (signature_size found))
    else inspect_sections f (section + 80) nsects found
  end.
Fixpoint inspect_commands (fuel : nat) (f : list Z) (command cmds_end remaining : Z) (found : Found) : option (Z * Found) :=
  match fuel with
  | O => None
  | S fuel =>
    if remaining =? 0 then Some (if text_offset found =? 0 then -6 else 0, found) else
    if cmds_end <? command + 8 then Some (-3, found) else
    lc ← get f command 8;
    let cmd := le32 lc 0 in
    let cmdsize := le32 lc 4 in
    if (cmdsize <? 8) || (w32 (cmds_end - command) <? cmdsize) then Some (-3, found) else
    if cmd =? LC_SEGMENT_64 then
      if cmdsize <? 72 then Some (-4, found) else
      segment ← get f command 72;
      let nsects := le32 segment 64 in
      if cmdsize <? 72 + nsects * 80 then Some (-4, found) else
      '(result, found) ← inspect_sections f (command + 72) (Z.to_nat nsects) found;
      if negb (result =? 0) then Some (result, found) else inspect_commands fuel f (command + cmdsize) cmds_end (remaining - 1) found
    else if cmd =? LC_CODE_SIGNATURE then
      if cmdsize <? 16 then Some (-5, found) else
      linkedit ← get f command 16;
      let dataoff := le32 linkedit 8 in
      let datasize := le32 linkedit 12 in
      if Z.of_nat (length f) <? dataoff + datasize then Some (-8, found) else
      inspect_commands fuel f (command + cmdsize) cmds_end (remaining - 1) (mkFound (text_offset found) (text_size found) dataoff datasize)
    else inspect_commands fuel f (command + cmdsize) cmds_end (remaining - 1) found
  end.
Definition inspect_mach_o (f : list Z) : option (Z * Found) :=
  if Z.of_nat (length f) <? 32 then Some (-1, nothing_found) else
  header ← get f 0 32;
  let ncmds := le32 header 16 in
  let sizeofcmds := le32 header 20 in
  if negb (le32 header 0 =? MH_MAGIC_64) || negb (le32 header 4 =? CPU_TYPE_ARM64) then Some (-2, nothing_found) else
  if Z.of_nat (length f) <? 32 + sizeofcmds then Some (-3, nothing_found) else
  inspect_commands (S (length f)) f 32 (32 + sizeofcmds) ncmds nothing_found.
Definition text_callable (offset size : Z) : bool := negb ((size <? offset + 4) || negb (Z.land offset 3 =? 0)).

(** ** The signature *)

Definition CS_MAGIC_CODEDIRECTORY : Z := 0xfade0c02.
Definition CS_MAGIC_EMBEDDED_SIGNATURE : Z := 0xfade0cc0.
Definition CS_MAGIC_BLOBWRAPPER : Z := 0xfade0b01.
Definition CS_SLOT_CODEDIRECTORY : Z := 0.
Definition CS_SLOT_REQUIREMENTS : Z := 2.
Definition CS_SLOT_CMS_SIGNATURE : Z := 0x10000.
Record CodeDirectory := mkCodeDirectory {
  cd_version : Z; cd_flags : Z; cd_ident : list Z; cd_special : Z; cd_slots : Z; cd_limit : Z;
  cd_hash_size : Z; cd_hash_type : Z; cd_platform : Z; cd_page_size : Z; cd_exec_limit : Z; cd_exec_flags : Z
}.
(** One slot as it is described. *)
Inductive Described :=
  | DescribedDirectory (directory : CodeDirectory)
  | DescribedRequirements (magic length : Z)
  | DescribedCMS (magic length : Z) (unexpected : bool)
  | DescribedOther (type magic length : Z).
Inductive Signature :=
  | NoSignature
  | UnexpectedMagic (magic : Z)
  | Superblob (count length : Z) (slots : list Described).
(** The bytes before the first zero. *)
Fixpoint strnlen (s : list Z) : nat := match s with [] => O | c :: s => if c =? 0 then O else S (strnlen s) end.
Definition describe_directory (f : list Z) (content length : Z) : option CodeDirectory :=
  version ← read_be32 f (content + 8); flags ← read_be32 f (content + 12); hash_offset ← read_be32 f (content + 16);
  ident_offset ← read_be32 f (content + 20); special ← read_be32 f (content + 24); slots ← read_be32 f (content + 28);
  limit ← read_be32 f (content + 32); hash_size ← read_u8 f (content + 36); hash_type ← read_u8 f (content + 37);
  platform ← read_u8 f (content + 38); page_size ← read_u8 f (content + 39);
  ident ← (if ident_offset <? length then (fun s => take (strnlen s) s) <$> get f (content + ident_offset) (length - ident_offset) else Some [63]);
  '(exec_limit, exec_flags) ← (if (0x20400 <=? version) && (88 <=? length) then
    exec_limit ← read_be64 f (content + 72); exec_flags ← read_be64 f (content + 80); Some (exec_limit, exec_flags) else Some (0, 0));
  Some (mkCodeDirectory version flags ident special slots limit hash_size hash_type platform page_size exec_limit exec_flags).
Fixpoint describe_slots (turns : nat) (f : list Z) (blob signature_size count index : Z) : option (list Described) :=
  match turns with
  | O => Some []
  | S turns =>
    if negb ((index <? count) && (index <? 16)) then Some [] else
    if signature_size <? 12 + (index + 1) * 8 then Some [] else
    type ← read_be32 f (blob + 12 + index * 8); entry ← read_be32 f (blob + 12 + index * 8 + 4);
    if signature_size <? entry + 8 then Some [] else
    let content := blob + entry in
    magic ← read_be32 f content; length ← read_be32 f (content + 4);
    if (signature_size <? entry + length) || (length <? 8) then Some [] else
    described ← (if (type =? CS_SLOT_CODEDIRECTORY) && (magic =? CS_MAGIC_CODEDIRECTORY) && (44 <=? length) then
        DescribedDirectory <$> describe_directory f content length
      else if type =? CS_SLOT_REQUIREMENTS then Some (DescribedRequirements magic length)
      else if type =? CS_SLOT_CMS_SIGNATURE then Some (DescribedCMS magic length (negb (magic =? CS_MAGIC_BLOBWRAPPER)))
      else Some (DescribedOther type magic length));
    rest ← describe_slots turns f blob signature_size count (index + 1);
    Some (described :: rest)
  end.
Definition describe_signature (f : list Z) (offset signature_size : Z) : option Signature :=
  if (offset =? 0) || (signature_size =? 0) || (Z.of_nat (length f) <? offset + signature_size) then Some NoSignature else
  magic ← (if 4 <=? signature_size then read_be32 f offset else Some 0);
  if (signature_size <? 12) || negb (magic =? CS_MAGIC_EMBEDDED_SIGNATURE) then Some (UnexpectedMagic magic) else
  count ← read_be32 f (offset + 8); length ← read_be32 f (offset + 4);
  slots ← describe_slots 17 f offset signature_size count 0;
  Some (Superblob count length slots).

(** ** Nothing outside the file is read *)

Lemma get_some f i n : 0 <= i -> 0 <= n -> i + n <= Z.of_nat (length f) -> exists raw, get f i n = Some raw /\ Z.of_nat (length raw) = n /\ (Forall byte_ok f -> Forall byte_ok raw).
Proof.
  intros Hi Hn Hin. unfold get. rewrite (proj2 (Z.leb_le 0 i)), (proj2 (Z.leb_le (i + n) _)) by lia. cbn [andb].
  exists (slice (Z.to_nat i) (Z.to_nat n) f). split; [done|]. split; [rewrite length_slice; lia|apply Forall_slice].
Qed.
Lemma word_range raw i : Forall byte_ok raw -> 0 <= le32 raw i < 2 ^ 32.
Proof.
  intros Hr. unfold le32. pose proof (le_value_range (slice i 4 raw) (Forall_slice _ i 4 _ Hr)) as H.
  assert (2 ^ (8 * Z.of_nat (length (slice i 4 raw))) <= 2 ^ 32); [|lia]. apply Z.pow_le_mono_r; [lia|]. unfold slice. rewrite length_take. lia.
Qed.
Lemma quad_range raw i : Forall byte_ok raw -> 0 <= le64 raw i.
Proof. intros Hr. apply (le_value_range (slice i 8 raw)). by apply Forall_slice. Qed.
Lemma be_range raw : Forall byte_ok raw -> 0 <= le_value (reverse raw).
Proof. intros Hr. apply le_value_range. by apply Forall_reverse. Qed.
Lemma read_be32_some f i :
  Forall byte_ok f -> 0 <= i -> i + 4 <= Z.of_nat (length f) -> exists v, read_be32 f i = Some v /\ 0 <= v.
Proof.
  intros Hf Hi Hin. destruct (get_some f i 4 Hi ltac:(lia) Hin) as (raw & Hg & _ & Hr). unfold read_be32. rewrite Hg. cbn. eexists. split; [done|]. by apply be_range, Hr.
Qed.
Lemma read_be64_some f i :
  Forall byte_ok f -> 0 <= i -> i + 8 <= Z.of_nat (length f) -> exists v, read_be64 f i = Some v.
Proof. intros Hf Hi Hin. destruct (get_some f i 8 Hi ltac:(lia) Hin) as (raw & Hg & _). unfold read_be64. rewrite Hg. by eexists. Qed.
Lemma read_u8_some f i : 0 <= i -> i + 1 <= Z.of_nat (length f) -> exists v, read_u8 f i = Some v.
Proof. intros Hi Hin. destruct (get_some f i 1 Hi ltac:(lia) Hin) as (raw & Hg & _). unfold read_u8. rewrite Hg. by eexists. Qed.

(** What a result of zero promises. *)
Record found_ok (f : list Z) (found : Found) : Prop := {
  fo_text : text_offset found <> 0 -> text_callable (text_offset found) (Z.of_nat (length f)) = true /\
    0 <= text_offset found /\ 0 <= text_size found /\ text_offset found + text_size found <= Z.of_nat (length f);
  fo_signature : 0 <= signature_offset found /\ 0 <= signature_size found /\ signature_offset found + signature_size found <= Z.of_nat (length f)
}.

Section bounds.
Context (f : list Z) (Hf : Forall byte_ok f).
Lemma inspect_sections_correct nsects section found :
  0 <= section -> section + 80 * Z.of_nat nsects <= Z.of_nat (length f) -> found_ok f found ->
  exists result found', inspect_sections f section nsects found = Some (result, found') /\ result <= 0 /\ found_ok f found'.
Proof.
  revert section found. induction nsects as [|nsects IH]; intros section found Hs Hin Hok; cbn [inspect_sections]; [by eexists 0, found|].
  destruct (get_some f section 80 Hs ltac:(lia) ltac:(lia)) as (raw & -> & _ & Hraw). specialize (Hraw Hf). cbn [mbind option_bind].
  pose proof (word_range raw 48 Hraw). pose proof (quad_range raw 40 Hraw).
  destruct (_ && _); [|apply IH; [lia..|done]]. destruct (_ || _ || _ || _) eqn:Eb; [by eexists (-7), found|].
  bool_hyps. apply IH; [lia..|]. destruct Hok as [_ Hsig]. split; cbn; [|done]. intros Hne. unfold text_callable.
  bool_props. rewrite (proj2 (Z.ltb_ge _ _)) by lia. cbn. rewrite negb_involutive. split; [by apply Z.eqb_eq|lia].
Qed.
Lemma inspect_commands_correct fuel command cmds_end remaining found :
  0 <= remaining -> 32 <= command <= cmds_end -> cmds_end <= Z.of_nat (length f) -> cmds_end < 2 ^ 32 + 32 ->
  cmds_end - command < Z.of_nat fuel -> found_ok f found ->
  exists result found', inspect_commands fuel f command cmds_end remaining found = Some (result, found') /\
    result <= 0 /\ (result = 0 -> text_offset found' <> 0 /\ found_ok f found').
Proof.
  revert command remaining found. induction fuel as [|fuel IH]; intros command remaining found Hr Hc Hend H32 Hfuel Hok; [lia|]. cbn [inspect_commands].
  destruct (Z.eqb_spec remaining 0).
  { destruct (Z.eqb_spec (text_offset found) 0); [by eexists (-6), found|by eexists 0, found]. }
  destruct (Z.ltb_spec cmds_end (command + 8)); [by eexists (-3), found|].
  destruct (get_some f command 8 ltac:(lia) ltac:(lia) ltac:(lia)) as (lc & -> & _ & Hlc). specialize (Hlc Hf). cbn [mbind option_bind].
  pose proof (word_range lc 4 Hlc). unfold w32. rewrite Z.mod_small by lia.
  destruct ((le32 lc 4 <? 8) || (cmds_end - command <? le32 lc 4)) eqn:Esize; [by eexists (-3), found|]. bool_props.
  destruct (le32 lc 0 =? LC_SEGMENT_64).
  { destruct (Z.ltb_spec (le32 lc 4) 72); [by eexists (-4), found|].
    destruct (get_some f command 72 ltac:(lia) ltac:(lia) ltac:(lia)) as (segment & -> & _ & Hseg). specialize (Hseg Hf). cbn [mbind option_bind].
    pose proof (word_range segment 64 Hseg). destruct (Z.ltb_spec (le32 lc 4) (72 + le32 segment 64 * 80)); [by eexists (-4), found|].
    destruct (inspect_sections_correct (Z.to_nat (le32 segment 64)) (command + 72) found) as (result & found' & -> & Hres & Hok'); [lia|lia|done|].
    cbn [mbind option_bind]. destruct (Z.eqb_spec result 0) as [->|]; cbn [negb]; [apply IH; done || lia|]. by eexists result, found'. }
  destruct (le32 lc 0 =? LC_CODE_SIGNATURE); [|apply IH; done || lia].
  destruct (Z.ltb_spec (le32 lc 4) 16); [by eexists (-5), found|].
  destruct (get_some f command 16 ltac:(lia) ltac:(lia) ltac:(lia)) as (linkedit & -> & _ & Hle). specialize (Hle Hf). cbn [mbind option_bind].
  pose proof (word_range linkedit 8 Hle). pose proof (word_range linkedit 12 Hle).
  destruct (Z.ltb_spec (Z.of_nat (length f)) (le32 linkedit 8 + le32 linkedit 12)); [by eexists (-8), found|].
  apply IH; try lia. destruct Hok as [Htext _]. split; cbn; [done|lia].
Qed.
Lemma nothing_found_ok : found_ok f nothing_found.
Proof. split; cbn; [done|lia]. Qed.
Lemma inspect_mach_o_correct :
  exists result found, inspect_mach_o f = Some (result, found) /\ result <= 0 /\ (result = 0 -> text_offset found <> 0 /\ found_ok f found).
Proof.
  unfold inspect_mach_o. destruct (Z.ltb_spec (Z.of_nat (length f)) 32); [by eexists (-1), nothing_found|].
  destruct (get_some f 0 32 ltac:(lia) ltac:(lia) ltac:(lia)) as (header & -> & _ & Hh). specialize (Hh Hf). cbn [mbind option_bind].
  destruct (_ || _); [by eexists (-2), nothing_found|]. pose proof (word_range header 16 Hh). pose proof (word_range header 20 Hh).
  destruct (Z.ltb_spec (Z.of_nat (length f)) (32 + le32 header 20)); [by eexists (-3), nothing_found|].
  apply inspect_commands_correct; try lia. apply nothing_found_ok.
Qed.
End bounds.

Section signature.
Context (f : list Z) (Hf : Forall byte_ok f).
(** Reads the next field of the goal, whose bounds [lia] knows. *)
Ltac next_be32 :=
  match goal with |- is_Some (mbind _ (read_be32 f ?i)) =>
    let v := fresh "v" in let E := fresh "E" in let Hv := fresh "Hv" in
    destruct (read_be32_some f i Hf ltac:(lia) ltac:(lia)) as (v & E & Hv); rewrite E; clear E; cbn [mbind option_bind] end.
Ltac next_u8 :=
  match goal with |- is_Some (mbind _ (read_u8 f ?i)) =>
    let v := fresh "v" in let E := fresh "E" in
    destruct (read_u8_some f i ltac:(lia) ltac:(lia)) as (v & E); rewrite E; clear E; cbn [mbind option_bind] end.
Ltac next_be64 :=
  match goal with |- context [read_be64 f ?i] =>
    let v := fresh "v" in let E := fresh "E" in
    destruct (read_be64_some f i Hf ltac:(lia) ltac:(lia)) as (v & E); rewrite E; clear E; cbn [mbind option_bind] end.
Lemma describe_directory_correct content length_ :
  0 <= content -> 44 <= length_ -> content + length_ <= Z.of_nat (length f) -> is_Some (describe_directory f content length_).
Proof.
  intros Hc Hl Hin. unfold describe_directory. do 7 next_be32. do 4 next_u8. destruct (Z.ltb_spec v2 length_).
  - destruct (get_some f (content + v2) (length_ - v2) ltac:(lia) ltac:(lia) ltac:(lia)) as (raw & -> & _). cbn [fmap option_fmap option_map mbind option_bind].
    destruct (Z.leb_spec 88 length_); [|rewrite andb_false_r; by eexists]. destruct (0x20400 <=? v); cbn [andb]; [|by eexists]. do 2 next_be64. by eexists.
  - cbn [mbind option_bind]. destruct (Z.leb_spec 88 length_); [|rewrite andb_false_r; by eexists]. destruct (0x20400 <=? v); cbn [andb]; [|by eexists]. do 2 next_be64. by eexists.
Qed.
Lemma describe_slots_correct turns blob signature_size count index :
  0 <= blob -> 0 <= index -> blob + signature_size <= Z.of_nat (length f) ->
  is_Some (describe_slots turns f blob signature_size count index).
Proof.
  revert index. induction turns as [|turns IH]; intros index Hb Hi Hin; cbn [describe_slots]; [by eexists|].
  destruct (_ && _); cbn [negb]; [|by eexists]. destruct (Z.ltb_spec signature_size (12 + (index + 1) * 8)); [by eexists|].
  do 2 next_be32. destruct (Z.ltb_spec signature_size (v0 + 8)); [by eexists|]. cbv zeta. do 2 next_be32.
  destruct ((signature_size <? v0 + v2) || (v2 <? 8)) eqn:E; [by eexists|]. bool_props.
  destruct (IH (index + 1)) as (rest & ->); [lia..|].
  destruct ((v =? CS_SLOT_CODEDIRECTORY) && (v1 =? CS_MAGIC_CODEDIRECTORY) && (44 <=? v2)) eqn:Ed.
  - bool_hyps. destruct (describe_directory_correct (blob + v0) v2) as (d & ->); [lia|by apply Z.leb_le|lia|]. by eexists.
  - destruct (v =? CS_SLOT_REQUIREMENTS); [by eexists|]. destruct (v =? CS_SLOT_CMS_SIGNATURE); by eexists.
Qed.
Lemma describe_signature_correct offset size : 0 <= offset -> 0 <= size -> is_Some (describe_signature f offset size).
Proof.
  intros Ho Hs. unfold describe_signature. destruct (_ || _ || _) eqn:E; [by eexists|]. bool_props.
  destruct (Z.leb_spec 4 size); [next_be32|cbn [mbind option_bind]]; (destruct (Z.ltb_spec size 12); cbn [orb]; [by eexists|]); [|lia].
  destruct (v =? CS_MAGIC_EMBEDDED_SIGNATURE); cbn [negb]; [|by eexists]. do 2 next_be32.
  destruct (describe_slots_correct 17 offset size v0 0) as (slots & ->); [lia..|]. by eexists.
Qed.
End signature.

(** C30: whatever the file holds, looking for its code and describing its signature
    end and read only bytes of the file; when code is found, it is aligned, it and
    its first instruction are inside the file, and so is the signature. *)
Theorem inspect_in_bounds f :
  Forall byte_ok f ->
  exists result found, inspect_mach_o f = Some (result, found) /\ result <= 0 /\
    (result = 0 ->
      text_callable (text_offset found) (Z.of_nat (length f)) = true /\
      0 < text_offset found /\ 0 <= text_size found /\ text_offset found + text_size found <= Z.of_nat (length f) /\
      signature_offset found + signature_size found <= Z.of_nat (length f) /\
      is_Some (describe_signature f (signature_offset found) (signature_size found))).
Proof.
  intros Hf. destruct (inspect_mach_o_correct f Hf) as (result & found & E & Hr & H). exists result, found. split; [done|]. split; [done|]. intros H0.
  destruct (H H0) as [Hne [Htext Hsig]]. destruct (Htext Hne) as (Hc & Hpos & Hsize & Hin). split_and!; try done; try lia.
  apply describe_signature_correct; [done|lia..].
Qed.

(** ** A file with two sections of code

    The comment of [inspect_mach_o] says that it locates the first [__TEXT,__text]
    section. It keeps the last one that it sees. *)
Definition zeros (n : nat) : list Z := replicate n 0.
Definition section_bytes (offset size : Z) : list Z :=
  (__text ++ zeros 10) ++ (__TEXT ++ zeros 10) ++ zeros 8 ++ le_bytes 8 size ++ le_bytes 4 offset ++ zeros 28.
Definition two_sections : list Z :=
  le_bytes 4 MH_MAGIC_64 ++ le_bytes 4 CPU_TYPE_ARM64 ++ zeros 8 ++ le_bytes 4 1 ++ le_bytes 4 232 ++ zeros 8 ++
  le_bytes 4 LC_SEGMENT_64 ++ le_bytes 4 232 ++ zeros 56 ++ le_bytes 4 2 ++ zeros 4 ++ section_bytes 264 4 ++ section_bytes 268 4 ++ zeros 8.
Theorem last_section_found : inspect_mach_o two_sections = Some (0, mkFound 268 4 0 0).
Proof. vm_compute. reflexivity. Qed.
Lemma two_sections_bytes : Forall byte_ok two_sections.
Proof.
  apply Forall_forall. intros x Hx. assert (forallb (fun x => (0 <=? x) && (x <? 256)) two_sections = true) as Ha by (vm_compute; reflexivity).
  rewrite forallb_forall in Ha. apply list_elem_of_In, Ha in Hx. unfold byte_ok. bool_props. lia.
Qed.
Lemma inspect_in_bounds_witness :
  exists found, inspect_mach_o two_sections = Some (0, found) /\ text_offset found = 268 /\ text_callable (text_offset found) 272 = true.
Proof.
  destruct (inspect_in_bounds two_sections two_sections_bytes) as (result & found & E & _ & H).
  assert (inspect_mach_o two_sections = Some (0, mkFound 268 4 0 0)) as E' by (vm_compute; reflexivity). rewrite E' in E. injection E as <- <-.
  exists (mkFound 268 4 0 0). split; [done|]. split; [done|]. destruct (H eq_refl) as [Hc _]. exact Hc.
Defined.

(** ** The experiments *)

Definition PROT_EXEC : Z := 4.
Definition MAX_FILE : Z := Z.shiftl 64 20.
Definition SELF_SIZE : Z := 16384.
(** The system. Files: opening, the size, what they hold, closing. Mappings of a
    file and new ones, unmapping, protection; [h_remap] puts the source's page in
    the place of one that is mapped, copied or not. The loader: whether a file
    loads, the symbol looked for, what is known of it. Calling an address answers
    a number. What is open and mapped by the probe can be observed. *)
Class ProbeHost (H : Type) := {
  h_page : Z;
  h_open : H -> list Z -> option Z * H;
  h_fstat : H -> Z -> option Z;
  h_content : H -> Z -> list Z;
  h_close : H -> Z -> H;
  h_mmap_file : H -> Z -> Z -> Z -> option Z * H;
  h_mmap_anon : H -> Z -> Z -> option Z * H;
  h_munmap : H -> Z -> Z -> H;
  h_mprotect : H -> Z -> Z -> Z -> bool * H;
  h_remap : H -> Z -> Z -> Z -> bool -> bool * H;
  h_load32 : H -> Z -> Z;
  h_store32 : H -> Z -> Z -> H;
  h_add_signatures : H -> Z -> Z -> Z -> H;
  h_dlopen : H -> list Z -> bool * H;
  h_dlsym : H -> option Z;
  h_dladdr : H -> Z -> bool;
  h_executable_path : H -> option (list Z);
  h_call : H -> Z -> Z * H;
  h_files : H -> gset Z;
  h_maps : H -> gset (Z * Z)
}.
(** What was called: an offset of a mapping of the file, the loader's symbol, or
    an offset of its page moved elsewhere. *)
Inductive Called := CalledMapped (base offset size : Z) | CalledSymbol (symbol : Z) | CalledRemapped (destination offset : Z).
Definition called_at (c : Called) : Z :=
  match c with CalledMapped base offset _ => base + offset | CalledSymbol symbol => symbol | CalledRemapped destination offset => destination + offset end.

Section experiments.
Context {H : Type} `{!ProbeHost H}.
(** The outcome, what was called, and the system; [None] is a read outside the file. *)
Definition Outcome : Type := option (bool * option Called * H).
Definition failed (h : H) : Outcome := Some (false, None, h).
Definition plausible (size : option Z) : bool := match size with Some size => (0 <? size) && (size <=? MAX_FILE) | None => false end.
Definition call_test (h : H) (c : Called) (expected : Z) : bool * option Called * H :=
  let '(value, h) := h_call h (called_at c) in (w32 value =? expected, Some c, h).

(** The code, and the signature described when there is code. *)
Definition inspect_and_describe (f : list Z) : option (Z * Found) :=
  '(parse, found) ← inspect_mach_o f;
  if parse =? 0 then _ ← describe_signature f (signature_offset found) (signature_size found); Some (parse, found) else Some (parse, found).
Definition run_exec (h : H) (path : list Z) (mprotect_first attempt_write : bool) (expected : Z) : Outcome :=
  match h_open h path with
  | (None, h) => failed h
  | (Some fd, h) =>
    if negb (plausible (h_fstat h fd)) then failed (h_close h fd) else
    let size := default 0 (h_fstat h fd) in
    match h_mmap_file h fd size PROT_READ with
    | (None, h) => failed (h_close h fd)
    | (Some reading, h) =>
      '(parse, found) ← inspect_and_describe (h_content h fd);
      let h := h_munmap h reading size in
      if negb (parse =? 0) || negb (text_callable (text_offset found) size) then failed (h_close h fd) else
      let '(mapping, h) :=
        if mprotect_first then
          match h_mmap_file h fd size PROT_READ with
          | (None, h) => (None, h)
          | (Some mapping, h) =>
            let '(ok, h) := h_mprotect h mapping size (Z.lor PROT_READ PROT_EXEC) in
            if ok then (Some mapping, h) else (None, h_munmap h mapping size)
          end
        else h_mmap_file h fd size (Z.lor PROT_READ PROT_EXEC) in
      match mapping with
      | None => failed (h_close h fd)
      | Some mapping =>
        let h := h_close h fd in
        let first_word := h_load32 h (mapping + text_offset found) in
        let h :=
          if attempt_write then
            let '(ok, h) := h_mprotect h mapping size (Z.lor (Z.lor PROT_READ PROT_WRITE) PROT_EXEC) in
            if ok then h_store32 h (mapping + text_offset found) first_word else h
          else h in
        let '(ok, called, h) := call_test h (CalledMapped mapping (text_offset found) size) expected in
        Some (ok, called, h_munmap h mapping size)
      end
    end
  end.
Definition run_dlopen (h : H) (path : list Z) (expected : Z) : Outcome :=
  let '(handle, h) := h_dlopen h path in
  if negb handle then failed h else
  match h_dlsym h with
  | None => failed h
  | Some symbol => Some (call_test h (CalledSymbol symbol) expected)
  end.
Definition run_remap (h : H) (path : list Z) (attempt_write : bool) (expected : Z) : Outcome :=
  let '(handle, h) := h_dlopen h path in
  if negb handle then failed h else
  match h_dlsym h with
  | None => failed h
  | Some symbol =>
    if negb (h_dladdr h symbol) then failed h else
    let source := Z.land symbol (Z.lnot (h_page - 1)) in
    let offset_in_page := symbol - source in
    match h_mmap_anon h h_page (Z.lor PROT_READ PROT_WRITE) with
    | (None, h) => failed h
    | (Some destination, h) =>
      let '(remapped, h) := h_remap h destination h_page source false in
      let '(remapped, h) := if remapped then (true, h) else h_remap h destination h_page source true in
      if negb remapped then failed (h_munmap h destination h_page) else
      let h :=
        if attempt_write then
          let '(ok, h) := h_mprotect h destination h_page (Z.lor PROT_READ PROT_WRITE) in
          if ok then h_store32 h destination 0xd65f03c0 else h
        else h in
      let '(ok, called, h) := call_test h (CalledRemapped destination offset_in_page) expected in
      Some (ok, called, h_munmap h destination h_page)
    end
  end.
Definition run_exec_after_dlopen (h : H) (path : list Z) (expected : Z) : Outcome :=
  let '(_, h) := h_dlopen h path in
  match h_open h path with
  | (None, h) => failed h
  | (Some fd, h) =>
    if negb (plausible (h_fstat h fd)) then failed (h_close h fd) else
    let size := default 0 (h_fstat h fd) in
    match h_mmap_file h fd size (Z.lor PROT_READ PROT_EXEC) with
    | (None, h) => failed (h_close h fd)
    | (Some mapping, h) =>
      '(parse, found) ← inspect_mach_o (h_content h fd);
      if negb (parse =? 0) || negb (text_callable (text_offset found) size) then failed (h_close (h_munmap h mapping size) fd) else
      let '(ok, called, h) := call_test h (CalledMapped mapping (text_offset found) size) expected in
      Some (ok, called, h_close (h_munmap h mapping size) fd)
    end
  end.
Definition run_fcntl (h : H) (path : list Z) (expected : Z) : Outcome :=
  match h_open h path with
  | (None, h) => failed h
  | (Some fd, h) =>
    if negb (plausible (h_fstat h fd)) then failed (h_close h fd) else
    let size := default 0 (h_fstat h fd) in
    match h_mmap_file h fd size PROT_READ with
    | (None, h) => failed (h_close h fd)
    | (Some reading, h) =>
      '(parse, found) ← inspect_mach_o (h_content h fd);
      if negb (parse =? 0) || (signature_offset found =? 0) || (signature_size found =? 0) || negb (text_callable (text_offset found) size)
      then failed (h_close (h_munmap h reading size) fd) else
      let h := h_add_signatures h fd (signature_offset found) (signature_size found) in
      let h := h_munmap h reading size in
      match h_mmap_file h fd size (Z.lor PROT_READ PROT_EXEC) with
      | (None, h) => failed (h_close h fd)
      | (Some mapping, h) =>
        let '(ok, called, h) := call_test h (CalledMapped mapping (text_offset found) size) expected in
        Some (ok, called, h_close (h_munmap h mapping size) fd)
      end
    end
  end.
Definition run_self (h : H) : Outcome :=
  match h_executable_path h with
  | None => failed h
  | Some path =>
    match h_open h path with
    | (None, h) => failed h
    | (Some fd, h) =>
      match h_mmap_file h fd SELF_SIZE (Z.lor PROT_READ PROT_EXEC) with
      | (None, h) => failed (h_close h fd)
      | (Some mapping, h) => Some (true, None, h_close (h_munmap h mapping SELF_SIZE) fd)
      end
    end
  end.
Definition run_inspect (h : H) (path : list Z) : Outcome :=
  match h_open h path with
  | (None, h) => failed h
  | (Some fd, h) =>
    if negb (plausible (h_fstat h fd)) then failed (h_close h fd) else
    let size := default 0 (h_fstat h fd) in
    match h_mmap_file h fd size PROT_READ with
    | (None, h) => failed (h_close h fd)
    | (Some reading, h) =>
      let content := h_content h fd in
      let h := h_close h fd in
      '(parse, found) ← inspect_and_describe content;
      Some ((parse =? 0) && text_callable (text_offset found) size, None, h_munmap h reading size)
    end
  end.
Definition HostSignedFileProbe (h : H) (path : list Z) (mode : string) (expected : Z) : Outcome :=
  if String.eqb mode "inspect" then run_inspect h path
  else if String.eqb mode "dlopen" then run_dlopen h path expected
  else if String.eqb mode "mprotect" then run_exec h path true false expected
  else if String.eqb mode "write" then run_exec h path false true expected
  else if String.eqb mode "remap" then run_remap h path false expected
  else if String.eqb mode "remapwrite" then run_remap h path true expected
  else if String.eqb mode "execafter" then run_exec_after_dlopen h path expected
  else if String.eqb mode "fcntl" then run_fcntl h path expected
  else if String.eqb mode "self" then run_self h
  else if String.eqb mode "exec" then run_exec h path false false expected
  else failed h.
End experiments.

(** ** What an experiment leaves behind *)

Section clean.
Context {H : Type} `{!ProbeHost H}.
Definition same (h h' : H) : Prop := h_files h' = h_files h /\ h_maps h' = h_maps h.
Definition maps_added (h h' : H) (x : Z * Z) : Prop := (x ∉ h_maps h) /\ h_maps h' = {[x]} ∪ h_maps h /\ h_files h' = h_files h.
End clean.
(** The documented behaviour of the calls; the called code may do anything but
    close or unmap what the probe holds. *)
Class ProbeHostLaws (H : Type) `{!ProbeHost H} := {
  law_open (h : H) path :
    match h_open h path with
    | (Some fd, h') => (fd ∉ h_files h) /\ h_files h' = {[fd]} ∪ h_files h /\ h_maps h' = h_maps h
    | (None, h') => same h h'
    end;
  law_fstat (h : H) fd n : h_fstat h fd = Some n -> n = Z.of_nat (length (h_content h fd));
  law_content (h : H) fd : Forall byte_ok (h_content h fd);
  law_close (h : H) fd : h_files (h_close h fd) = h_files h ∖ {[fd]} /\ h_maps (h_close h fd) = h_maps h;
  law_mmap_file (h : H) fd n p :
    (forall fd', h_content (h_mmap_file h fd n p).2 fd' = h_content h fd') /\
    match h_mmap_file h fd n p with (Some a, h') => maps_added h h' (a, n) | (None, h') => same h h' end;
  law_mmap_anon (h : H) n p : match h_mmap_anon h n p with (Some a, h') => maps_added h h' (a, n) | (None, h') => same h h' end;
  law_munmap (h : H) a n : h_maps (h_munmap h a n) = h_maps h ∖ {[(a, n)]} /\ h_files (h_munmap h a n) = h_files h;
  law_mprotect (h : H) a n p : same h (h_mprotect h a n p).2;
  law_remap (h : H) d n s copy : same h (h_remap h d n s copy).2;
  law_store32 (h : H) a v : same h (h_store32 h a v);
  law_add_signatures (h : H) fd o n : same h (h_add_signatures h fd o n);
  law_dlopen (h : H) path : same h (h_dlopen h path).2;
  law_call (h : H) a : same h (h_call h a).2
}.

Section experiments_clean.
Context {H : Type} `{!ProbeHost H, !ProbeHostLaws H}.
(** Only code that is aligned and inside the file is called in a mapping of it. *)
Definition called_ok (c : option Called) : Prop :=
  match c with Some (CalledMapped _ offset size) => text_callable offset size = true /\ 0 < offset | _ => True end.
Definition clean (h : H) (out : Outcome) : Prop :=
  exists ok called h', out = Some (ok, called, h') /\ same h h' /\ called_ok called.

Lemma failed_clean h h' : same h h' -> clean h (failed h').
Proof. intros Hs. by exists false, None, h'. Qed.
Lemma call_test_spec h c expected :
  exists ok h', call_test h c expected = (ok, Some c, h') /\ same h h'.
Proof. unfold call_test. pose proof (law_call h (called_at c)) as Hc. destruct (h_call h (called_at c)) as [v h']. by eexists _, h'. Qed.
Lemma describe_clean f :
  Forall byte_ok f -> exists parse found, inspect_and_describe f = Some (parse, found) /\
    (parse = 0 -> 0 < text_offset found).
Proof.
  intros Hf. unfold inspect_and_describe. destruct (inspect_mach_o_correct f Hf) as (parse & found & -> & _ & Hok). cbn [mbind option_bind].
  destruct (Z.eqb_spec parse 0) as [E|E]; [|by exists parse, found]. destruct (Hok E) as [Hne [Htext Hsig]].
  destruct (describe_signature_correct f Hf (signature_offset found) (signature_size found)) as (d & ->); [lia..|]. cbn [mbind option_bind].
  exists parse, found. split; [done|]. intros _. destruct (Htext Hne). lia.
Qed.
(** Follows one call of the system in the goal and keeps its law. *)
Ltac system_call :=
  match goal with
  | |- context [inspect_and_describe (h_content ?h ?fd)] =>
      let E := fresh "E" in let P := fresh "P" in
      destruct (describe_clean (h_content h fd) (law_content h fd)) as (? & ? & E & P); rewrite E; clear E
  | |- context [inspect_mach_o (h_content ?h ?fd)] =>
      let E := fresh "E" in
      destruct (inspect_mach_o_correct (h_content h fd) (law_content h fd)) as (? & ? & E & _ & ?); rewrite E; clear E
  | |- context [h_open ?h ?p] => let L := fresh "L" in pose proof (law_open h p) as L; destruct (h_open h p) as [[?|] ?]
  | |- context [h_mmap_file ?h ?fd ?n ?p] =>
      let L := fresh "L" in pose proof (law_mmap_file h fd n p) as L; destruct (h_mmap_file h fd n p) as [[?|] ?]; cbn [snd] in L; destruct L
  | |- context [h_mmap_anon ?h ?n ?p] => let L := fresh "L" in pose proof (law_mmap_anon h n p) as L; destruct (h_mmap_anon h n p) as [[?|] ?]
  | |- context [h_mprotect ?h ?a ?n ?p] =>
      let L := fresh "L" in pose proof (law_mprotect h a n p) as L; destruct (h_mprotect h a n p) as [[|] ?]; cbn [snd] in L
  | |- context [h_remap ?h ?d ?n ?s ?c] =>
      let L := fresh "L" in pose proof (law_remap h d n s c) as L; destruct (h_remap h d n s c) as [[|] ?]; cbn [snd] in L
  | |- context [h_dlopen ?h ?p] => let L := fresh "L" in pose proof (law_dlopen h p) as L; destruct (h_dlopen h p) as [[|] ?]; cbn [snd] in L
  | |- context [call_test ?h ?c ?e] =>
      let ok := fresh "ok" in let h' := fresh "h'" in let E := fresh "E" in let L := fresh "L" in
      destruct (call_test_spec h c e) as (ok & h' & E & L); rewrite E; clear E
  end; cbn [mbind option_bind negb].
Lemma add_remove {A} `{Countable A} (x : A) (X : gset A) : (x ∉ X) -> ({[x]} ∪ X) ∖ {[x]} = X.
Proof. set_solver. Qed.
(** What is open and mapped after the calls that were followed. *)
Ltac resources :=
  unfold same, maps_added in *; destruct_and?;
  repeat match goal with
  | |- context [h_files (h_close ?h ?fd)] => rewrite (proj1 (law_close h fd))
  | |- context [h_maps (h_close ?h ?fd)] => rewrite (proj2 (law_close h fd))
  | |- context [h_maps (h_munmap ?h ?a ?n)] => rewrite (proj1 (law_munmap h a n))
  | |- context [h_files (h_munmap ?h ?a ?n)] => rewrite (proj2 (law_munmap h a n))
  | |- context [h_files (h_store32 ?h ?a ?v)] => rewrite (proj1 (law_store32 h a v))
  | |- context [h_maps (h_store32 ?h ?a ?v)] => rewrite (proj2 (law_store32 h a v))
  | |- context [h_files (h_add_signatures ?h ?fd ?o ?n)] => rewrite (proj1 (law_add_signatures h fd o n))
  | |- context [h_maps (h_add_signatures ?h ?fd ?o ?n)] => rewrite (proj2 (law_add_signatures h fd o n))
  | E : h_files ?h = _ |- context [h_files ?h] => rewrite E
  | E : h_maps ?h = _ |- context [h_maps ?h] => rewrite E
  | E : h_files ?h = _, N : context [h_files ?h] |- _ => lazymatch type of N with _ ∉ _ => rewrite E in N end
  | E : h_maps ?h = _, N : context [h_maps ?h] |- _ => lazymatch type of N with _ ∉ _ => rewrite E in N end
  | N : context [h_maps (h_munmap ?h ?a ?n)] |- _ => lazymatch type of N with _ ∉ _ => rewrite (proj1 (law_munmap h a n)) in N end
  | N : context [h_maps (h_add_signatures ?h ?fd ?o ?n)] |- _ => lazymatch type of N with _ ∉ _ => rewrite (proj2 (law_add_signatures h fd o n)) in N end
  end; rewrite ?add_remove by assumption; try done.
(** Ends an experiment: as a failure, or with what it called. *)
Ltac ends := first [apply failed_clean | eexists _, _, _; split; [done|]; split; [|try done]]; try (split; resources).

Lemma run_self_clean h : clean h (run_self h).
Proof. unfold run_self. destruct (h_executable_path h); [|by apply failed_clean]. repeat system_call. all: ends. Qed.
Lemma run_dlopen_clean h path expected : clean h (run_dlopen h path expected).
Proof. unfold run_dlopen. system_call; [|ends]. destruct (h_dlsym _); [system_call|]; ends. Qed.
Lemma run_remap_clean h path attempt_write expected : clean h (run_remap h path attempt_write expected).
Proof.
  unfold run_remap. system_call; [|ends]. destruct (h_dlsym _); [|ends]. destruct (h_dladdr _ _); cbn [negb]; [|ends].
  system_call; [|ends]. cbv zeta. system_call; [|system_call; [|ends]]; (destruct attempt_write; [system_call|]); system_call; ends.
Qed.
Lemma run_inspect_clean h path : clean h (run_inspect h path).
Proof.
  unfold run_inspect. system_call; [|ends]. destruct (plausible _); cbn [negb]; [|ends]. cbv zeta. repeat system_call; ends.
Qed.
(** The test a file has to pass before its code is called. *)
Lemma called_code_ok parse found size :
  negb (parse =? 0) || negb (text_callable (text_offset found) size) = false -> (parse = 0 -> 0 < text_offset found) ->
  forall base, called_ok (Some (CalledMapped base (text_offset found) size)).
Proof. intros E Hpos base. bool_props. split; [done|by apply Hpos]. Qed.
Lemma found_positive (f : list Z) parse found :
  (parse = 0 -> text_offset found <> 0 /\ found_ok f found) -> parse = 0 -> 0 < text_offset found.
Proof. intros Hok E. destruct (Hok E) as [Hne [Htext _]]. destruct (Htext Hne). lia. Qed.
Lemma run_exec_clean h path mprotect_first attempt_write expected : clean h (run_exec h path mprotect_first attempt_write expected).
Proof.
  unfold run_exec. system_call; [|ends]. destruct (plausible _); cbn [negb]; [|ends]. cbv zeta. system_call; [|ends]. system_call.
  match goal with |- context [if ?b then failed _ else _] => destruct b eqn:Etest end; [ends|]. pose proof (called_code_ok _ _ _ Etest P) as Hcalled.
  destruct mprotect_first.
  - system_call; [|ends]. system_call; [|ends]. destruct attempt_write; [system_call|]; system_call; ends; apply Hcalled.
  - system_call; [|ends]. destruct attempt_write; [system_call|]; system_call; ends; apply Hcalled.
Qed.
Lemma run_exec_after_dlopen_clean h path expected : clean h (run_exec_after_dlopen h path expected).
Proof.
  unfold run_exec_after_dlopen. pose proof (law_dlopen h path) as Ld. destruct (h_dlopen h path) as [handle h0]. cbn [snd] in Ld.
  system_call; [|ends]. destruct (plausible _); cbn [negb]; [|ends]. cbv zeta. system_call; [|ends]. system_call.
  match goal with |- context [if ?b then failed _ else _] => destruct b eqn:Etest end; [ends|].
  pose proof (called_code_ok _ _ _ Etest (found_positive _ _ _ ltac:(eassumption))) as Hcalled. system_call; ends; apply Hcalled.
Qed.
Lemma run_fcntl_clean h path expected : clean h (run_fcntl h path expected).
Proof.
  unfold run_fcntl. system_call; [|ends]. destruct (plausible _); cbn [negb]; [|ends]. cbv zeta. system_call; [|ends]. system_call.
  match goal with |- context [if ?b then failed _ else _] => destruct b eqn:Etest end; [ends|].
  apply orb_false_iff in Etest as [Etest Hc]. apply orb_false_iff in Etest as [Etest _]. apply orb_false_iff in Etest as [Etest _].
  assert (negb (x =? 0) || negb (text_callable (text_offset x0) (default 0 (h_fstat h0 z))) = false) as Etest' by (apply orb_false_iff; by split).
  pose proof (called_code_ok _ _ _ Etest' (found_positive _ _ _ ltac:(eassumption))) as Hcalled. system_call; [|ends]. system_call; ends; apply Hcalled.
Qed.

(** an experiment closes every file it opened and takes away every mapping it
    made, on every path, and reads nothing outside the file; it calls into a
    mapping only at an aligned place inside it; inspecting calls nothing, and a mode
    it does not know is refused without touching the file. *)
Theorem probe_clean h path mode expected :
  clean h (HostSignedFileProbe h path mode expected) /\
  (mode = "inspect"%string -> (fun out => out.1.2) <$> HostSignedFileProbe h path mode expected = Some None) /\
  (mode ∉ ["inspect"; "dlopen"; "mprotect"; "write"; "remap"; "remapwrite"; "execafter"; "fcntl"; "self"; "exec"]%string ->
    HostSignedFileProbe h path mode expected = Some (false, None, h)).
Proof.
  split; [|split].
  - unfold HostSignedFileProbe.
    repeat match goal with |- context [if String.eqb ?a ?b then _ else _] => destruct (String.eqb a b) end;
      auto using run_inspect_clean, run_dlopen_clean, run_exec_clean, run_remap_clean, run_exec_after_dlopen_clean, run_fcntl_clean, run_self_clean.
    by apply failed_clean.
  - intros ->. cbn. unfold run_inspect. system_call; [|done]. destruct (plausible _); cbn [negb]; [|done]. cbv zeta. system_call; [|done]. by system_call.
  - intros Hno. unfold HostSignedFileProbe.
    repeat match goal with |- context [if String.eqb ?a ?b then _ else _] => destruct (String.eqb_spec a b) as [->|_]; [destruct Hno; set_solver|] end.
    done.
Qed.
End experiments_clean.

(** ** A system whose only file is [two_sections] *)

Record ToyHost := mkToy { toy_files : gset Z; toy_maps : gset (Z * Z); toy_next : Z }.
Definition toy_map (h : ToyHost) (n : Z) : option Z * ToyHost :=
  if decide ((toy_next h, n) ∈ toy_maps h) then (None, h) else
  (Some (toy_next h), mkToy (toy_files h) ({[(toy_next h, n)]} ∪ toy_maps h) (toy_next h + n)).
Instance toy_host : ProbeHost ToyHost := {|
  h_page := 4096;
  h_open h _ := if decide (3 ∈ toy_files h) then (None, h) else (Some 3, mkToy ({[3]} ∪ toy_files h) (toy_maps h) (toy_next h));
  h_fstat _ _ := Some (Z.of_nat (length two_sections));
  h_content _ _ := two_sections;
  h_close h fd := mkToy (toy_files h ∖ {[fd]}) (toy_maps h) (toy_next h);
  h_mmap_file h _ n _ := toy_map h n;
  h_mmap_anon h n _ := toy_map h n;
  h_munmap h a n := mkToy (toy_files h) (toy_maps h ∖ {[(a, n)]}) (toy_next h);
  h_mprotect h _ _ _ := (true, h);
  h_remap h _ _ _ _ := (true, h);
  h_load32 _ _ := 0;
  h_store32 h _ _ := h;
  h_add_signatures h _ _ _ := h;
  h_dlopen h _ := (true, h);
  h_dlsym _ := Some 8192;
  h_dladdr _ _ := true;
  h_executable_path _ := None;
  h_call h _ := (42, h);
  h_files := toy_files;
  h_maps := toy_maps
|}.
Lemma toy_map_ok h n : match toy_map h n with (Some a, h') => maps_added h h' (a, n) | (None, h') => same h h' end.
Proof. unfold toy_map. by case_decide. Qed.
Instance toy_host_laws : ProbeHostLaws ToyHost.
Proof.
  split; intros; try done.
  - cbn. by case_decide.
  - by injection H.
  - apply two_sections_bytes.
  - split; [done|]. apply toy_map_ok.
  - apply toy_map_ok.
Qed.
Lemma probe_clean_witness :
  exists base size h, HostSignedFileProbe (mkToy ∅ ∅ 65536) [47] "exec" 42 = Some (true, Some (CalledMapped base 268 size), h) /\
    toy_files h = ∅ /\ toy_maps h = ∅ /\ text_callable 268 size = true.
Proof.
  destruct (proj1 (probe_clean (mkToy ∅ ∅ 65536) [47] "exec" 42)) as (ok & called & h & E & [Hf Hm] & Hc).
  assert (exists base size, (ok, called) = (true, Some (CalledMapped base 268 size))) as (base & size & [= -> ->]).
  { apply (f_equal (fmap fst)) in E. vm_compute in E. injection E as <- <-. by eexists _, _. }
  exists base, size, h. split; [done|]. split; [done|]. split; [done|]. apply Hc.
Defined.

(** ** What the log shows of paths

    [getenv] is an argument, [None] when the variable is not set. *)
Definition SLASH : Z := 47.
Definition TILDE : Z := 126.
(** [strncmp(s, home, strlen(home)) == 0]. *)
Fixpoint begins_with (home s : list Z) : bool :=
  match home with
  | [] => true
  | c :: home => match s with [] => false | x :: s => (x =? c) && begins_with home s end
  end.
(** After the last slash, if there is one. *)
Fixpoint after_last_slash (s : list Z) : option (list Z) :=
  match s with
  | [] => None
  | c :: s => match after_last_slash s with Some r => Some r | None => if c =? SLASH then Some s else None end
  end.
Definition home_relative (home : option (list Z)) (path : list Z) (size : Z) : list Z :=
  let home := default [] home in
  let rest := drop (length home) path in
  if negb (Z.of_nat (length home) =? 0) && begins_with home path && ((default 0 (head rest) =? SLASH) || (default 0 (head rest) =? 0))
  then take (Z.to_nat (size - 1)) (TILDE :: rest) else default path (after_last_slash path).
Fixpoint sanitize_loop (fuel : nat) (home message out : list Z) (size : Z) : list Z :=
  match fuel, message with
  | S fuel, c :: rest =>
    if negb (Z.of_nat (length out) + 1 <? size) then out else
    if negb (Z.of_nat (length home) =? 0) && begins_with home message
    then sanitize_loop fuel home (drop (length home) message) (out ++ [TILDE]) size
    else sanitize_loop fuel home rest (out ++ [c]) size
  | _, _ => out
  end.
Definition sanitize (home : option (list Z)) (message : option (list Z)) (size : Z) : list Z :=
  if size =? 0 then [] else
  match message with None => [] | Some message => sanitize_loop (length message) (default [] home) message [] size end.

Lemma begins_with_spec home s : begins_with home s = true <-> home `prefix_of` s.
Proof.
  revert s. induction home as [|c home IH]; intros s; cbn; [split; [intros _; apply prefix_nil|done]|].
  destruct s as [|x s]; [split; [done|intros Hp; by apply prefix_nil_not in Hp]|].
  rewrite andb_true_iff, Z.eqb_eq, IH. split; [intros [-> Hp]; by apply prefix_cons|].
  intros Hp. split; [by apply prefix_cons_inv_1 in Hp|by apply prefix_cons_inv_2 in Hp].
Qed.
(** [home] occurs nowhere in [s]. *)
Definition absent (home s : list Z) : Prop := forall before after, s <> before ++ home ++ after.
(** What has been kept since the last replacement has [home] nowhere even when
    what is left of the message follows it. *)
Lemma absent_tilde home s : (TILDE ∉ home) -> home <> [] -> absent home s -> forall kept, absent home kept -> absent home (s ++ TILDE :: kept).
Proof.
  intros Ht Hne Hs kept Hk before after E.
  destruct (decide (length (before ++ home) <= length s)%nat) as [Hl|Hl].
  { apply (f_equal (take (length s))) in E. rewrite take_app_length, app_assoc, take_app_ge in E by lia. eapply (Hs before). rewrite E at 1. by rewrite <- app_assoc. }
  rewrite length_app in Hl. destruct (decide (length s < length before)%nat) as [Hb|Hb].
  { apply (f_equal (drop (S (length s)))) in E. rewrite drop_app_ge in E by lia. replace (S (length s) - length s)%nat with 1%nat in E by lia. cbn in E.
    rewrite drop_app_le in E by lia. eapply Hk. exact E. }
  apply Ht. assert ((before ++ home ++ after) !! length s = Some TILDE) as Hl2.
  { rewrite <- E. by rewrite lookup_app_r, Nat.sub_diag by lia. }
  rewrite lookup_app_r in Hl2 by lia. rewrite lookup_app_l in Hl2 by lia. by eapply list_elem_of_lookup_2.
Qed.
Section sanitized.
Context (home : list Z) (Hne : home <> []) (Htilde : TILDE ∉ home).
(** [out] ends with [kept], the bytes since the last replacement; no occurrence of
    [home] begins in them, whatever part of the rest it would reach into. *)
Definition cleaned (out message : list Z) : Prop :=
  exists pre kept, out = pre ++ kept /\ (pre = [] \/ exists pre', pre = pre' ++ [TILDE] /\ absent home pre') /\
    forall i, (i < length kept)%nat -> ~ home `prefix_of` drop i (kept ++ message).
Lemma cleaned_absent out message : cleaned out message -> absent home out.
Proof.
  intros (pre & kept & -> & Hpre & Hkept). assert (absent home kept) as Hk.
  { intros before after E. apply (Hkept (length before)).
    - rewrite E, !length_app. destruct home; [done|cbn; lia].
    - rewrite E, <- !app_assoc, drop_app_length. by eexists. }
  destruct Hpre as [->|(pre' & -> & Hp)]; [done|]. rewrite <- app_assoc. by apply absent_tilde.
Qed.
Lemma sanitize_loop_spec fuel message out size :
  cleaned out message -> Z.of_nat (length out) < size ->
  absent home (sanitize_loop fuel home message out size) /\ Z.of_nat (length (sanitize_loop fuel home message out size)) < size.
Proof.
  revert message out. induction fuel as [|fuel IH]; intros message out Hc Hl; cbn [sanitize_loop]; [split; [by eapply cleaned_absent|done]|].
  destruct message as [|c rest]; [split; [by eapply cleaned_absent|done]|].
  destruct (Z.ltb_spec (Z.of_nat (length out) + 1) size) as [Hroom|Hroom]; cbn [negb]; [|split; [by eapply cleaned_absent|done]].
  rewrite (proj2 (Z.eqb_neq _ 0)) by (destruct home; [done|cbn; lia]). cbn [negb andb].
  destruct (begins_with home (c :: rest)) eqn:Eb.
  - apply IH; [|rewrite length_app; cbn; lia]. exists (out ++ [TILDE]), []. rewrite app_nil_r. split; [done|]. split; [|cbn; lia].
    right. exists out. split; [done|]. by eapply cleaned_absent.
  - apply IH; [|rewrite length_app; cbn; lia]. destruct Hc as (pre & kept & -> & Hpre & Hkept). exists pre, (kept ++ [c]).
    rewrite app_assoc. split; [done|]. split; [done|]. intros i Hi. rewrite <- app_assoc. cbn [app]. rewrite length_app in Hi. cbn in Hi.
    destruct (decide (i < length kept)%nat) as [Hlt|Hge]; [by apply Hkept|]. replace i with (length kept) by lia. rewrite drop_app_length.
    intros Hp. apply begins_with_spec in Hp. by rewrite Eb in Hp.
Qed.
End sanitized.
(** no message shows the path of the home directory, whatever it says and
    however it is cut, and what is shown fits. *)
Theorem sanitize_hides_home home message size :
  home <> [] -> (TILDE ∉ home) -> 0 < size ->
  absent home (sanitize (Some home) message size) /\ Z.of_nat (length (sanitize (Some home) message size)) < size.
Proof.
  intros Hne Ht Hs. unfold sanitize. rewrite (proj2 (Z.eqb_neq _ 0)) by lia.
  destruct message as [message|]; [|split; [|done]; intros before after E; symmetry in E; apply app_nil in E as [_ E]; by apply app_nil in E as [E _]].
  apply sanitize_loop_spec; [done|done| |cbn; lia]. exists [], []. split; [done|]. split; [by left|cbn; lia].
Qed.
Lemma after_last_slash_none s : after_last_slash s = None <-> SLASH ∉ s.
Proof.
  induction s as [|c s IH]; cbn; [split; [intros _; apply not_elem_of_nil|done]|]. rewrite not_elem_of_cons. destruct (after_last_slash s) as [r|].
  - split; [done|]. intros [_ Hn]. by apply IH in Hn.
  - destruct (Z.eqb_spec c SLASH) as [->|Hc]; [split; [done|by intros [Hx _]]|]. split; [intros _; split; [congruence|by apply IH]|done].
Qed.
Lemma after_last_slash_some s r : after_last_slash s = Some r -> SLASH ∉ r.
Proof.
  induction s as [|c s IH]; cbn; [done|]. destruct (after_last_slash s) as [r'|] eqn:E; [intros [= ->]; by apply IH|].
  destruct (c =? SLASH); [|done]. intros [= ->]. by apply after_last_slash_none.
Qed.
(** A path is shown from the home directory, or by its last component only. *)
Theorem home_relative_spec home path size :
  (exists rest, path = default [] home ++ rest /\ (rest = [] \/ default 0 (head rest) = 0 \/ head rest = Some SLASH) /\
     home_relative home path size = take (Z.to_nat (size - 1)) (TILDE :: rest)) \/
  (SLASH ∉ home_relative home path size).
Proof.
  unfold home_relative. destruct (negb _ && begins_with _ _ && _) eqn:E.
  - left. bool_hyps. apply begins_with_spec in H1 as [rest ->]. rewrite drop_app_length in H0 |- *. exists rest. split; [done|]. split; [|done].
    destruct rest as [|c rest]; [by left|]. right. destruct H0 as [Hc|Hc]; apply Z.eqb_eq in Hc; cbn in *; [right; by f_equal|by left].
  - right. destruct (after_last_slash path) as [r|] eqn:Es; cbn; [by eapply after_last_slash_some|by apply after_last_slash_none].
Qed.
Lemma sanitize_hides_home_witness :
  absent [47; 117] (sanitize (Some [47; 117]) (Some [97; 47; 117; 47; 47; 117; 98]) 64) /\
  sanitize (Some [47; 117]) (Some [97; 47; 117; 47; 47; 117; 98]) 64 = [97; 126; 47; 126; 98].
Proof.
  split; [|vm_compute; reflexivity]. apply (sanitize_hides_home [47; 117]); [done| |lia]. unfold TILDE. intros Hin. by repeat (apply elem_of_cons in Hin as [?|Hin]; [done|]); apply not_elem_of_nil in Hin.
Defined.
