(* ===== verification/HostProbes.v ===== *)
(** * HostProbes: what this process may execute
    (runtime/HostExecutionProbe.c, runtime/HostDiagnostics.c)

    The probes write a sample of two instructions and run it, in a private
    mapping or in the two views of [CodeMemory]. What they do to memory and code
    is the class [ProbeKernel], over the kernel of [CodeMemory]. The report is a
    list of lines whose texts are an argument: formatting is the C library's. *)
From S2P Require Import Prelude CodeMemory.
#[local] Set Warnings "-clear-no-such-hyp".

Definition MAP_JIT_PROT : Z := Z.lor (Z.lor PROT_READ PROT_WRITE) PROT_EXEC.
(** New private anonymous memory, with [MAP_JIT] or not; the debugger's
    publication point; a write through an alias with its cache maintenance; plain
    stores, loads, and instruction cache maintenance; calling an address. *)
Class ProbeKernel (H : Type) `{!CodeKernel H} := {
  p_mmap : H -> Z -> Z -> bool -> (Z + Z) * H;
  p_publish : H -> Z -> Z -> H;
  p_write : H -> CodeWrite -> H;
  p_store : H -> Z -> list Z -> H;
  p_load : H -> Z -> Z -> list Z;
  p_invalidate : H -> Z -> Z -> H;
  p_call : H -> Z -> Z * H;
  p_physical : H -> option Z;
  p_footprint : H -> Z
}.

(** ** Samples *)

Definition RET : Z := 0xd65f03c0.
(** [mov w0, #value]. *)
Definition mov_w0 (value : Z) : Z := Z.lor 0x52800000 (Z.shiftl value 5).
Definition words (ws : list Z) : list Z := concat (le_bytes 4 <$> ws).
Definition sample : list Z := words [0x52800540; RET].
Definition rewritten : list Z := words [0x5280a720].

Record HPResult := mkResult {
  hp_executable : bool; hp_rewrite_executable : bool; hp_allocation_errno : Z; hp_protection_errno : Z; hp_first_value : Z; hp_rewritten_value : Z
}.
Definition no_result : HPResult := mkResult false false 0 0 0 0.
Inductive HPMode := HP_WRITE_THEN_EXECUTE | HP_READ_WRITE_EXECUTE | HP_DUAL_MAPPING.

Section probes.
Context {H : Type} `{!CodeKernel H, !ProbeKernel H}.
Definition publish_sample (h : H) (rx size : Z) : bool * H :=
  let h := p_publish h rx size in (bool_decide (p_load h rx 8 = sample), h).
(** [nc_write] with its effect. *)
Definition code_write (h : H) (m : NativeCodeMemory) (offset : Z) (bytes : list Z) : bool * H :=
  match nc_write m offset (Some bytes) (Z.of_nat (length bytes)) with
  | inl _ => (false, h)
  | inr None => (true, h)
  | inr (Some w) => (true, p_write h w)
  end.
(** The cycles of writing and running from [i], [turns] of them; whether all worked. *)
Fixpoint rewrite_cycles (turns : nat) (i : Z) (h : H) (m : NativeCodeMemory) : bool * H :=
  match turns with
  | O => (true, h)
  | S turns =>
    let '(written, h) := code_write h m 0 (words [mov_w0 i]) in
    if negb written then (false, h) else
    let '(value, h) := p_call h (nc_executable m) in
    if negb (value =? i) then (false, h) else rewrite_cycles turns (i + 1) h m
  end.
(** What is done with the memory before it is destroyed. *)
Definition dual_mapping_run (h : H) (m : NativeCodeMemory) : HPResult * H :=
  let '(written, h) := code_write h m 0 sample in
  if negb written || negb (bool_decide (p_load h (nc_executable m) 8 = sample)) then (no_result, h) else
  let '(first, h) := p_call h (nc_executable m) in
  if negb (first =? 42) then (mkResult false false 0 0 first 0, h) else
  let '(written, h) := code_write h m 0 rewritten in
  if negb written then (mkResult true false 0 0 first 0, h) else
  let '(second, h) := p_call h (nc_executable m) in
  if negb (second =? 1337) then (mkResult true false 0 0 first second, h) else
  let '(all, h) := rewrite_cycles 256 0 h m in
  (mkResult true all 0 0 first second, h).
Definition dual_mapping_probe (h : H) : HPResult * H :=
  let '(refusal, h, memory) := nc_create h (Some nc_empty) k_page (Some publish_sample) in
  let m := default nc_empty memory in
  match refusal with
  | Some e => (mkResult false false e 0 0 0, (nc_destroy h m).1)
  | None => let '(result, h) := dual_mapping_run h m in (result, (nc_destroy h m).1)
  end.
(** What is done with the page before it is unmapped. *)
Definition private_run (write_then_execute : bool) (h : H) (code : Z) : HPResult * H :=
  let protect (h : H) (protection : Z) : option Z * H := if write_then_execute then k_mprotect h code k_page protection else (None, h) in
  let h := p_store h code sample in
  match protect h (Z.lor PROT_READ PROT_EXEC) with
  | (Some e, h) => (mkResult false false 0 e 0 0, h)
  | (None, h) =>
    let h := p_invalidate (p_publish h code k_page) code 8 in
    let '(first, h) := p_call h code in
    if negb (first =? 42) then (mkResult false false 0 0 first 0, h) else
    match protect h (Z.lor PROT_READ PROT_WRITE) with
    | (Some e, h) => (mkResult true false 0 e first 0, h)
    | (None, h) =>
      let h := p_store h code rewritten in
      match protect h (Z.lor PROT_READ PROT_EXEC) with
      | (Some e, h) => (mkResult true false 0 e first 0, h)
      | (None, h) =>
        let h := p_invalidate (p_publish h code k_page) code 8 in
        let '(second, h) := p_call h code in
        (mkResult true (second =? 1337) 0 0 first second, h)
      end
    end
  end.
Definition host_execution_probe (mode : HPMode) (h : H) : HPResult * H :=
  match mode with
  | HP_DUAL_MAPPING => dual_mapping_probe h
  | _ =>
    let write_then_execute := match mode with HP_WRITE_THEN_EXECUTE => true | _ => false end in
    let '(jit, h) := p_mmap h k_page MAP_JIT_PROT true in
    let h := match jit with inr jit => (k_munmap h jit k_page).2 | inl _ => h end in
    let '(code, h) := p_mmap h k_page (if write_then_execute then Z.lor PROT_READ PROT_WRITE else MAP_JIT_PROT) false in
    match code with
    | inl e => (mkResult false false e 0 0 0, h)
    | inr code => let '(result, h) := private_run write_then_execute h code in (result, (k_munmap h code k_page).2)
    end
  end.

(** ** The spare page of an arena *)

Record HPArenaResult := mkArenaResult {
  ar_alias_execute : bool; ar_alias_rewrite : bool; ar_direct_rewrite : bool; ar_alias_after_direct : bool; ar_direct_errno : Z; ar_rwx_errno : Z
}.
(** A sample that answers [value] written at [at_] and run from the executable view. *)
Definition call_sample (h : H) (executable at_ value : Z) : bool * H :=
  let h := p_invalidate (p_store h at_ (words [mov_w0 value; RET])) executable 8 in
  let '(answer, h) := p_call h executable in (answer =? value, h).
(** The last stage, with what the ones before found. *)
Definition rwx_stage (h : H) (executable size : Z) (found : Z -> HPArenaResult) : HPArenaResult * H :=
  let '(refused, h) := k_mprotect h executable size MAP_JIT_PROT in
  let h := (k_mprotect h executable size (Z.lor PROT_READ PROT_EXEC)).2 in
  (found (default 0 refused), h).
Definition arena_execution_probe (h : H) (executable writable size : Z) : HPArenaResult * H :=
  let '(ok, h) := call_sample h executable writable 42 in
  if negb ok then (mkArenaResult false false false false 0 0, h) else
  let '(ok, h) := call_sample h executable writable 1337 in
  if negb ok then (mkArenaResult true false false false 0 0, h) else
  let '(refused, h) := k_mprotect h executable size (Z.lor PROT_READ PROT_WRITE) in
  match refused with
  | Some e => rwx_stage h executable size (mkArenaResult true true false false e)
  | None =>
    let h := p_store h executable (words [mov_w0 7; RET]) in
    let '(refused, h) := k_mprotect h executable size (Z.lor PROT_READ PROT_EXEC) in
    match refused with
    | Some e => rwx_stage h executable size (mkArenaResult true true false false e)
    | None =>
      let '(direct, h) := (let '(answer, h) := p_call (p_invalidate h executable 8) executable in (answer =? 7, h)) in
      if negb direct then (mkArenaResult true true false false 0 0, h) else
      let '(after_direct, h) := call_sample h executable writable 99 in
      rwx_stage h executable size (mkArenaResult true true true after_direct 0)
    end
  end.
End probes.

(** ** What a probe leaves behind *)

Class ProbeKernelLaws (H : Type) `{!CodeKernel H, !ProbeKernel H} := {
  law_p_mmap (h : H) n p jit :
    match p_mmap h n p jit with
    | (inr a, h') => 0 < a /\ appears h h' (a, n) p
    | (inl _, h') => unchanged h h'
    end;
  law_p_publish (h : H) a n : unchanged h (p_publish h a n);
  law_p_write (h : H) w : unchanged h (p_write h w);
  law_p_store (h : H) a bs : unchanged h (p_store h a bs);
  law_p_invalidate (h : H) a n : unchanged h (p_invalidate h a n);
  law_p_call (h : H) a : unchanged h (p_call h a).2
}.

Section left.
Context {H : Type} `{!CodeKernel H, !CodeKernelLaws H, !ProbeKernel H, !ProbeKernelLaws H}.
Lemma publish_sample_unchanged h a n : unchanged h (publish_sample h a n).2.
Proof. apply law_p_publish. Qed.
Lemma code_write_unchanged h m offset bytes : unchanged h (code_write h m offset bytes).2.
Proof. unfold code_write. destruct (nc_write _ _ _ _) as [|[w|]]; cbn; [apply unchanged_refl|apply law_p_write|apply unchanged_refl]. Qed.
Lemma rewrite_cycles_unchanged turns i h m : unchanged h (rewrite_cycles turns i h m).2.
Proof.
  revert i h. induction turns as [|turns IH]; intros i h; cbn [rewrite_cycles]; [apply unchanged_refl|].
  pose proof (code_write_unchanged h m 0 (words [mov_w0 i])) as H1. destruct (code_write _ _ _ _) as [[|] h1]; cbn [negb]; [|done].
  pose proof (law_p_call h1 (nc_executable m)) as H2. destruct (p_call h1 _) as [value h2]. cbn [snd] in H1, H2.
  destruct (value =? i); cbn [negb]; [|by eapply unchanged_trans]. eapply unchanged_trans; [exact H1|]. eapply unchanged_trans; [exact H2|apply IH].
Qed.
(** The outcomes are consistent: a page that ran gave the sample's value, and one
    whose rewritten sample ran gave that one's. *)
Definition coherent (r : HPResult) : Prop :=
  (hp_executable r = true -> hp_first_value r = 42) /\
  (hp_rewrite_executable r = true -> hp_executable r = true /\ hp_rewritten_value r = 1337).
Lemma dual_mapping_run_spec h m : let '(r, h') := dual_mapping_run h m in coherent r /\ unchanged h h'.
Proof.
  unfold dual_mapping_run. pose proof (code_write_unchanged h m 0 sample) as H1. destruct (code_write h m 0 sample) as [written h1]. cbn [snd] in H1.
  destruct (_ || _); [done|]. pose proof (law_p_call h1 (nc_executable m)) as H2. destruct (p_call h1 _) as [first h2]. cbn [snd] in H2.
  pose proof (unchanged_trans _ _ _ H1 H2) as H12. destruct (Z.eqb_spec first 42) as [->|]; cbn [negb]; [|done].
  pose proof (code_write_unchanged h2 m 0 rewritten) as H3. destruct (code_write h2 m 0 rewritten) as [written' h3]. cbn [snd] in H3.
  pose proof (unchanged_trans _ _ _ H12 H3) as H13. destruct written'; cbn [negb]; [|done].
  pose proof (law_p_call h3 (nc_executable m)) as H4. destruct (p_call h3 _) as [second h4]. cbn [snd] in H4.
  pose proof (unchanged_trans _ _ _ H13 H4) as H14. destruct (Z.eqb_spec second 1337) as [->|]; cbn [negb]; [|done].
  pose proof (rewrite_cycles_unchanged 256 0 h4 m) as H5. destruct (rewrite_cycles 256 0 h4 m) as [all h5]. cbn [snd] in H5.
  split; [done|]. by eapply unchanged_trans.
Qed.
Lemma private_run_spec w h code : let '(r, h') := private_run w h code in coherent r /\ k_live h' = k_live h.
Proof.
  unfold private_run. cbv zeta.
  assert (Hp : forall h p, k_live (if w then k_mprotect h code k_page p else (None, h)).2 = k_live h).
  { intros h0 p. destruct w; [|done]. pose proof (law_mprotect h0 code k_page p) as Hm. destruct (k_mprotect _ _ _ _) as [[e|] h']; apply Hm. }
  set (h1 := p_store h code sample). assert (k_live h1 = k_live h) as E1 by apply law_p_store.
  pose proof (Hp h1 (Z.lor PROT_READ PROT_EXEC)) as E2. destruct (if w then _ else _) as [[e|] h2]; cbn [snd] in E2; [split; [done|congruence]|].
  set (h3 := p_invalidate (p_publish h2 code k_page) code 8). assert (k_live h3 = k_live h2) as E3.
  { unfold h3. rewrite (un_live _ _ (law_p_invalidate _ _ _)). apply law_p_publish. }
  pose proof (law_p_call h3 code) as [E4 _]. destruct (p_call h3 code) as [first h4]. cbn [snd] in E4.
  destruct (Z.eqb_spec first 42) as [->|]; cbn [negb]; [|split; [done|congruence]].
  pose proof (Hp h4 (Z.lor PROT_READ PROT_WRITE)) as E5. destruct (if w then _ else _) as [[e|] h5]; cbn [snd] in E5; [split; [done|congruence]|].
  set (h6 := p_store h5 code rewritten). assert (k_live h6 = k_live h5) as E6 by apply law_p_store.
  pose proof (Hp h6 (Z.lor PROT_READ PROT_EXEC)) as E7. destruct (if w then _ else _) as [[e|] h7]; cbn [snd] in E7; [split; [done|congruence]|].
  set (h8 := p_invalidate (p_publish h7 code k_page) code 8). assert (k_live h8 = k_live h7) as E8.
  { unfold h8. rewrite (un_live _ _ (law_p_invalidate _ _ _)). apply law_p_publish. }
  pose proof (law_p_call h8 code) as [E9 _]. destruct (p_call h8 code) as [second h9]. cbn [snd] in E9.
  split; [|congruence]. split; cbn; [done|]. intros ->%Z.eqb_eq. done.
Qed.
(** whatever a probe finds and however it ends, the process has the mappings it
    had before: every page is unmapped and both views of code are destroyed; and it
    reports code as executable only when the sample's value came back. *)
Theorem host_execution_probe_spec mode h :
  let '(r, h') := host_execution_probe mode h in k_live h' = k_live h /\ coherent r.
Proof.
  assert (Hmapped : forall w p, let '(r, h') :=
    (let '(jit, h) := p_mmap h k_page MAP_JIT_PROT true in
     let h := match jit with inr jit => (k_munmap h jit k_page).2 | inl _ => h end in
     let '(code, h) := p_mmap h k_page p false in
     match code with
     | inl e => (mkResult false false e 0 0 0, h)
     | inr code => let '(result, h) := private_run w h code in (result, (k_munmap h code k_page).2)
     end) in k_live h' = k_live h /\ coherent r).
  { intros w p. pose proof (law_p_mmap h k_page MAP_JIT_PROT true) as H1. destruct (p_mmap h k_page MAP_JIT_PROT true) as [jit h1]. cbv zeta.
    set (h2 := match jit with inr jit => (k_munmap h1 jit k_page).2 | inl _ => h1 end).
    assert (k_live h2 = k_live h) as E2.
    { unfold h2. destruct jit as [e|jit]; [apply H1|]. destruct H1 as [_ [Hnew Hl _ _]]. rewrite munmap_live, Hl. set_solver. }
    pose proof (law_p_mmap h2 k_page p false) as H3. destruct (p_mmap h2 k_page p false) as [[e|code] h3].
    - split; [|done]. destruct H3 as [E3 _]. congruence.
    - destruct H3 as [_ [Hnew Hl _ _]]. pose proof (private_run_spec w h3 code) as Hr. destruct (private_run w h3 code) as [r h4]. destruct Hr as [Hc E4].
      split; [|done]. rewrite munmap_live, E4, Hl. set_solver. }
  destruct mode; [apply (Hmapped true)|apply (Hmapped false)|]. cbn [host_execution_probe]. unfold dual_mapping_probe, nc_create.
  assert (Hprepare : forall (h : H) a n, unchanged h (legacy_prepare publish_sample h a n).2).
  { intros h0 a n. unfold legacy_prepare. pose proof (publish_sample_unchanged h0 a n) as Hu. by destruct (publish_sample h0 a n). }
  pose proof (nc_create_managed_correct h nc_empty nc_empty k_page (legacy_prepare publish_sample) false Hprepare) as Hs.
  pose proof (nc_create_managed_certain h nc_empty nc_empty k_page (legacy_prepare publish_sample) false) as Hq.
  destruct (nc_create_managed h (Some nc_empty) k_page _ _ false) as [[[refusal h1] m] q]. cbn [snd] in Hq. destruct refusal as [e|].
  - destruct Hs as [-> [[_ E]|(_ & c & E & Hquar & _)]]; [split; [exact E|done]|].
    rewrite Hq in E; [by injection E as <-|]. intros h0 a n. unfold legacy_prepare. destruct (publish_sample h0 a n) as [[|] ?]; done.
  - destruct Hs as (c & -> & _ & Hsize & _ & Hquar & Hdisjoint & Hlive & _). cbv zeta. change (default nc_empty (Some c)) with c.
    pose proof (dual_mapping_run_spec h1 c) as Hr. destruct (dual_mapping_run h1 c) as [r h2]. destruct Hr as [Hc [El _]].
    pose proof (nc_destroy_correct h2 c) as Hd. rewrite Hquar in Hd. destruct (nc_destroy h2 c) as [h3 m3]. destruct Hd as [_ Hd]. cbn [fst].
    split; [|exact Hc]. rewrite Hd, El, Hlive. set_solver.
Qed.
Lemma call_sample_unchanged h executable at_ value : unchanged h (call_sample h executable at_ value).2.
Proof.
  unfold call_sample. cbv zeta. set (h1 := p_store h at_ (words [mov_w0 value; RET])).
  pose proof (law_p_call (p_invalidate h1 executable 8) executable) as Hc. destruct (p_call _ _) as [answer h2]. cbn [snd] in *.
  eapply unchanged_trans; [apply law_p_store|]. eapply unchanged_trans; [apply law_p_invalidate|done].
Qed.
(** The probe of an arena changes the protection of the executable page only, and
    reports a stage only after the ones before it. *)
Theorem arena_execution_probe_spec h executable writable size :
  let '(r, h') := arena_execution_probe h executable writable size in
  k_live h' = k_live h /\ (forall y, y <> (executable, size) -> k_protection h' y = k_protection h y) /\
  (ar_alias_rewrite r = true -> ar_alias_execute r = true) /\ (ar_direct_rewrite r = true -> ar_alias_rewrite r = true /\ ar_direct_errno r = 0) /\
  (ar_alias_after_direct r = true -> ar_direct_rewrite r = true).
Proof.
  set (kept := fun h' : H => k_live h' = k_live h /\ forall y, y <> (executable, size) -> k_protection h' y = k_protection h y).
  assert (Hun : forall h1 h2, unchanged h1 h2 -> kept h1 -> kept h2).
  { intros h1 h2 [El Ep] [Kl Kp]. split; [congruence|]. intros y Hy. by rewrite Ep, Kp. }
  assert (Hprot : forall h1 p, kept h1 -> kept (k_mprotect h1 executable size p).2).
  { intros h1 p Hk. pose proof (law_mprotect h1 executable size p) as Hm. destruct (k_mprotect h1 executable size p) as [[e|] h2]; cbn; [by eapply Hun|].
    destruct Hk as [Kl Kp], Hm as [El _ Ep]. split; [congruence|]. intros y Hy. by rewrite Ep, Kp. }
  assert (Hsample : forall h1 at_ value, kept h1 -> kept (call_sample h1 executable at_ value).2).
  { intros h1 at_ value. apply Hun, call_sample_unchanged. }
  assert (Hrwx : forall h1 found, kept h1 -> kept (rwx_stage h1 executable size found).2 /\ exists e, (rwx_stage h1 executable size found).1 = found e).
  { intros h1 found Hk. unfold rwx_stage. pose proof (Hprot h1 MAP_JIT_PROT Hk) as H2. destruct (k_mprotect h1 executable size MAP_JIT_PROT) as [r h2]. cbn [snd fst] in *.
    split; [by apply Hprot|by eexists]. }
  assert (kept h) as H0 by done. unfold arena_execution_probe.
  pose proof (Hsample h writable 42 H0) as H1. destruct (call_sample h executable writable 42) as [[|] h1]; cbn [negb snd] in *; [|by destruct H1].
  pose proof (Hsample h1 writable 1337 H1) as H2. destruct (call_sample h1 executable writable 1337) as [[|] h2]; cbn [negb snd] in *; [|by destruct H2].
  pose proof (Hprot h2 (Z.lor PROT_READ PROT_WRITE) H2) as H3. destruct (k_mprotect h2 executable size _) as [[e|] h3]; cbn [snd] in H3.
  { destruct (Hrwx h3 (mkArenaResult true true false false e) H3) as [[Hl Hp] [e' Ef]]. destruct (rwx_stage h3 _ _ _) as [r h4]. cbn [fst snd] in *. by subst r. }
  assert (kept (p_store h3 executable (words [mov_w0 7; RET]))) as H4 by (eapply Hun; [apply law_p_store|done]).
  set (h4 := p_store h3 executable (words [mov_w0 7; RET])) in *. cbv zeta.
  pose proof (Hprot h4 (Z.lor PROT_READ PROT_EXEC) H4) as H5. destruct (k_mprotect h4 executable size _) as [[e|] h5]; cbn [snd] in H5.
  { destruct (Hrwx h5 (mkArenaResult true true false false e) H5) as [[Hl Hp] [e' Ef]]. destruct (rwx_stage h5 _ _ _) as [r h6]. cbn [fst snd] in *. by subst r. }
  assert (kept (p_call (p_invalidate h5 executable 8) executable).2) as H6 by (eapply Hun; [apply law_p_call|]; eapply Hun; [apply law_p_invalidate|done]).
  destruct (p_call (p_invalidate h5 executable 8) executable) as [answer h6]. cbn [snd] in H6. destruct (answer =? 7); cbn [negb]; [|by destruct H6].
  pose proof (Hsample h6 writable 99 H6) as H7. destruct (call_sample h6 executable writable 99) as [after_direct h7]. cbn [snd] in H7.
  destruct (Hrwx h7 (mkArenaResult true true true after_direct 0) H7) as [[Hl Hp] [e' Ef]]. destruct (rwx_stage h7 _ _ _) as [r h8]. cbn [fst snd] in *. by subst r.
Qed.
End left.

(** A kernel whose code always answers 42. *)
Instance table_probes : ProbeKernel TableKernel := {|
  p_mmap h n p _ := tk_fresh h n p;
  p_publish h _ _ := h;
  p_write h _ := h;
  p_store h _ _ := h;
  p_load _ _ _ := sample;
  p_invalidate h _ _ := h;
  p_call h _ := (42, h);
  p_physical _ := None;
  p_footprint _ := 0
|}.
Instance table_probes_laws : ProbeKernelLaws TableKernel.
Proof. split; intros; try apply unchanged_refl. apply tk_fresh_ok. Qed.
Lemma host_execution_probe_spec_witness :
  exists r h, host_execution_probe HP_DUAL_MAPPING tk_start = (r, h) /\ hp_executable r = true /\ hp_first_value r = 42 /\ k_live h = {[(4096, 4096)]}.
Proof.
  pose proof (host_execution_probe_spec HP_DUAL_MAPPING tk_start) as Hs. destruct (host_execution_probe HP_DUAL_MAPPING tk_start) as [r h] eqn:E.
  destruct Hs as [Hl [Hc _]]. assert (hp_executable r = true) as Hr by (apply (f_equal (fun x => hp_executable x.1)) in E; vm_compute in E; by symmetry).
  exists r, h. split; [done|]. split; [done|]. split; [by apply Hc|done].
Defined.

(** ** The report (HostDiagnostics.c) *)

Record HostDiagnostics := mkDiagnostics {
  hd_attached : bool; hd_signing_known : bool; hd_signing_flags : Z; hd_debugged : bool; hd_physical : Z; hd_footprint : Z; hd_available : Z;
  hd_page_size : Z; hd_largest_arena : Z; hd_reservation : Z; hd_probed : bool; hd_write_then_execute : HPResult; hd_read_write_execute : HPResult;
  hd_dual_mapping : HPResult
}.
Section report.
Context {H : Type} `{!CodeKernel H, !ProbeKernel H}.
(** What the process may still allocate where the system says, and whether it does. *)
Definition hd_collect (device : bool) (h : H) (probe_execution log : bool) : HostDiagnostics * H :=
  let flags := k_signing_flags h in
  let collect (probed : bool) (w r d : HPResult) : HostDiagnostics :=
    mkDiagnostics (hd_debugger_attached h) (match flags with Some _ => true | None => false end) (default 0 flags)
      (match flags with Some flags => negb (Z.land flags CS_DEBUGGED =? 0) | None => false end) (default 0 (p_physical h)) (p_footprint h)
      (if device then k_available h else -1) k_page (nc_launch_limit h) (nc_arena_limit h) probed w r d in
  if probe_execution && log then
    let '(w, h) := host_execution_probe HP_WRITE_THEN_EXECUTE h in
    let '(r, h) := host_execution_probe HP_READ_WRITE_EXECUTE h in
    let '(d, h) := host_execution_probe HP_DUAL_MAPPING h in
    (collect true w r d, h)
  else (collect false no_result no_result no_result, h).
End report.

(** The lines of a report, with what they show. *)
Inductive Line :=
  | LProcess | LAttached (attached : bool) | LUnsigned (debugged : bool) (flags : Z) | LUnsignedUnknown
  | LMemory | LPhysical (bytes : Z) | LFootprint (bytes : Z) | LLeft (bytes : Z) | LLeftUnknown | LPage (bytes : Z) | LLargest (bytes : Z) | LReservation (bytes : Z)
  | LExecutable | LNotProbed | LProbe (label : nat) (result : HPResult)
  | LCanRun | LNoArena | LNotPrepared.
Section format.
(** What the C library formats a line as. *)
Context (text : Line -> list Z).
(** The buffer is what has been stored of it, without the terminator; [size] is
    its room with it. The result is [used] with the whole length of the text. *)
Definition append (out : list Z) (size used : Z) (line : Line) : list Z * Z :=
  let room := if used <? size then size - used else 0 in
  (if room =? 0 then out else take (Z.to_nat used) out ++ take (Z.to_nat (room - 1)) (text line), used + Z.of_nat (length (text line))).
Definition report_lines (report : HostDiagnostics) : list Line :=
  [LProcess; LAttached (hd_attached report)] ++
  [if hd_signing_known report then LUnsigned (hd_debugged report) (hd_signing_flags report) else LUnsignedUnknown] ++
  [LMemory; LPhysical (hd_physical report); LFootprint (hd_footprint report)] ++
  [if 0 <=? hd_available report then LLeft (hd_available report) else LLeftUnknown] ++
  [LPage (hd_page_size report); LLargest (hd_largest_arena report); LReservation (hd_reservation report); LExecutable] ++
  (if negb (hd_probed report) then [LNotProbed] else
   [LProbe 0 (hd_write_then_execute report); LProbe 1 (hd_read_write_execute report); LProbe 2 (hd_dual_mapping report)] ++
   [if hp_executable (hd_dual_mapping report) then LCanRun else if hd_debugged report then LNoArena else LNotPrepared]).
Definition hd_format (report : HostDiagnostics) (size : Z) : list Z * Z :=
  foldl (fun state line => append state.1 size state.2 line) ([], 0) (report_lines report).

Lemma append_spec whole size line :
  0 <= size ->
  append (take (Z.to_nat (size - 1)) whole) size (Z.of_nat (length whole)) line =
    (take (Z.to_nat (size - 1)) (whole ++ text line), Z.of_nat (length (whole ++ text line))).
Proof.
  intros Hs. unfold append. rewrite length_app. f_equal; [|lia]. destruct (Z.ltb_spec (Z.of_nat (length whole)) size) as [Hl|Hl].
  - rewrite (proj2 (Z.eqb_neq _ 0)) by lia. rewrite take_take, take_app. replace (Z.to_nat (Z.of_nat (length whole)) `min` Z.to_nat (size - 1))%nat with (length whole) by lia.
    rewrite !firstn_all2 with (l := whole) by lia. do 2 f_equal. lia.
  - cbn. by rewrite take_app_le by lia.
Qed.
(** the report is cut to the room there is, terminator included, and its result
    is the length it wanted: what a larger buffer would need. *)
Theorem hd_format_spec report size :
  0 <= size ->
  let whole := concat (text <$> report_lines report) in
  hd_format report size = (take (Z.to_nat (size - 1)) whole, Z.of_nat (length whole)).
Proof.
  intros Hs. cbv zeta. unfold hd_format. generalize (report_lines report). intros lines.
  assert (forall whole, foldl (fun state line => append state.1 size state.2 line) (take (Z.to_nat (size - 1)) whole, Z.of_nat (length whole)) lines =
    (take (Z.to_nat (size - 1)) (whole ++ concat (text <$> lines)), Z.of_nat (length (whole ++ concat (text <$> lines))))) as Hall.
  { induction lines as [|line lines IH]; intros whole; cbn [foldl fmap list_fmap concat fst snd]; [by rewrite app_nil_r|].
    rewrite append_spec by done. rewrite IH, <- app_assoc. done. }
  specialize (Hall []). rewrite take_nil in Hall. exact Hall.
Qed.
End format.
Lemma hd_format_spec_witness :
  (hd_format (fun _ => [65; 65]) (fst (hd_collect true tk_start false false)) 6).1 = [65; 65; 65; 65; 65].
Proof. rewrite (hd_format_spec (fun _ => [65; 65]) (fst (hd_collect true tk_start false false)) 6) by lia. vm_compute. reflexivity. Defined.
