(* ===== verification/GuestPaths.v ===== *)
(** * GuestPaths: paths whose case differs (runtime/GuestPaths.c)

    macOS file systems ignore case, the host's may not. A path is followed
    component by component: one that does not exist is replaced by the entry of
    the directory so far that differs only in case, when there is exactly one.
    The file system is a [GPFiles]: what exists, as an error number, and the
    names in a directory. Strings are lists of nonzero bytes. *)
From S2P Require Import Prelude.

Definition ENOENT : Z := 2.
Definition PATH_MAX : Z := 1024.
Definition NAME_MAX : Z := 255.
Definition SLASH : Z := 47.
Definition DOT : Z := 46.

Record GPFiles := mkFiles { gf_exists : list Z -> Z; gf_list : list Z -> option (list (list Z)) }.
(** The C library's [tolower] and comparison of strings, and its length. *)
Definition lower (c : Z) : Z := if (65 <=? c) && (c <=? 90) then c + 32 else c.
Definition same_ignoring_case (a b : list Z) : bool := bool_decide ((lower <$> a) = (lower <$> b)).
Definition strlen (s : list Z) : Z := Z.of_nat (length s).

Record Search := mkSearch { se_name : list Z; se_match : list Z; se_matches : Z }.
Definition consider (search : Search) (name : list Z) : Search :=
  if negb (strlen name =? strlen (se_name search)) || negb (same_ignoring_case name (se_name search)) then search else
  mkSearch (se_name search) (if se_matches search =? 0 then name else se_match search) (w32 (se_matches search + 1)).

(** The index of the next slash, or of the end. *)
Fixpoint component_length (s : list Z) : nat :=
  match s with
  | [] => O
  | c :: s => if c =? SLASH then O else S (component_length s)
  end.
(** The directory of the component at [start]. *)
Fixpoint strip_slashes (out : list Z) (prefix : nat) : nat :=
  match prefix with
  | S ((S _) as prefix') => if default 0 (out !! prefix') =? SLASH then strip_slashes out prefix' else prefix
  | _ => prefix
  end.
Definition directory_of (out : list Z) (start : nat) : list Z :=
  let prefix := strip_slashes out start in if (prefix =? 0)%nat then [DOT] else take prefix out.

(** The loop from [start]; its result is the function's with what [out] holds. *)
Fixpoint gp_loop (fuel : nat) (files : GPFiles) (out : list Z) (start : nat) (changed : bool) : bool * list Z :=
  match fuel with
  | O => (false, out)
  | S fuel =>
    if (length out <=? start)%nat then (changed, out) else
    if default 0 (out !! start) =? SLASH then gp_loop fuel files out (S start) changed else
    let length_ := component_length (drop start out) in
    let end_ := (start + length_)%nat in
    let dots := (default 0 (out !! start) =? DOT) && ((length_ =? 1)%nat || ((length_ =? 2)%nat && (default 0 (out !! S start) =? DOT))) in
    if dots then gp_loop fuel files out end_ changed else
    let error := gf_exists files (take end_ out) in
    if error =? ENOENT then
      if NAME_MAX <? Z.of_nat length_ then (false, out) else
      match gf_list files (directory_of out start) with
      | None => (false, out)
      | Some names =>
        let search := foldl consider (mkSearch (slice start length_ out) [] 0) names in
        if negb (se_matches search =? 1) then (false, out) else
        gp_loop fuel files (splice start (take length_ (se_match search)) out) end_ true
      end
    else if negb (error =? 0) then (false, out) else gp_loop fuel files out end_ changed
  end.

Section paths.
(** The system's own files. *)
Context (real_files : GPFiles).
(** [None] is a null pointer; [size] is that of [out], [None] when null. The
    result carries what [out] holds, [None] when nothing was written. *)
Definition gp_case_insensitive (files : option GPFiles) (path : option (list Z)) (size : option Z) : bool * option (list Z) :=
  let files := default real_files files in
  match path, size with
  | Some path, Some size =>
    let total := strlen path in
    if (size =? 0) || (total =? 0) || (size <=? total) || (PATH_MAX <=? total) then (false, None) else
    let '(changed, out) := gp_loop (S (length path)) files path 0 false in (changed, Some out)
  | _, _ => (false, None)
  end.
End paths.

(** ** What a path resolves to

    [Resolves files done rest out changed]: with [done] of the path already
    resolved, the [rest] resolves to give [out]. *)
Definition is_component (s rest : list Z) : Prop := s <> [] /\ (SLASH ∉ s) /\ (rest = [] \/ head rest = Some SLASH).
Definition is_dots (s : list Z) : Prop := s = [DOT] \/ s = [DOT; DOT].
Fixpoint without_slashes (reversed : list Z) : list Z :=
  match reversed with
  | c :: ((_ :: _) as rest) => if c =? SLASH then without_slashes rest else reversed
  | _ => reversed
  end.
Definition parent (done : list Z) : list Z := match done with [] => [DOT] | _ => reverse (without_slashes (reverse done)) end.
Inductive Resolves (files : GPFiles) : list Z -> list Z -> list Z -> bool -> Prop :=
  | Resolves_end done : Resolves files done [] done false
  | Resolves_slash done rest out changed :
      Resolves files (done ++ [SLASH]) rest out changed -> Resolves files done (SLASH :: rest) out changed
  | Resolves_dots done s rest out changed :
      is_component s rest -> is_dots s -> Resolves files (done ++ s) rest out changed -> Resolves files done (s ++ rest) out changed
  | Resolves_exists done s rest out changed :
      is_component s rest -> ~ is_dots s -> gf_exists files (done ++ s) = 0 ->
      Resolves files (done ++ s) rest out changed -> Resolves files done (s ++ rest) out changed
  | Resolves_case done s rest names m out changed :
      is_component s rest -> ~ is_dots s -> gf_exists files (done ++ s) = ENOENT -> strlen s <= NAME_MAX ->
      gf_list files (parent done) = Some names -> filter (fun name => (lower <$> name) = (lower <$> s)) names = [m] ->
      Resolves files (done ++ m) rest out changed -> Resolves files done (s ++ rest) out true.

(** ** Components *)

Lemma component_length_app s rest : is_component s rest -> component_length (s ++ rest) = length s.
Proof.
  intros (_ & Hs & Hrest). induction s as [|c s IH]; cbn.
  - destruct Hrest as [->|Hh]; [done|]. destruct rest; [done|]. injection Hh as ->. done.
  - destruct (Z.eqb_spec c SLASH) as [->|]; [by destruct Hs; left|]. f_equal. apply IH. intros ?. apply Hs. by right.
Qed.
Lemma component_split r :
  r <> [] -> head r <> Some SLASH ->
  exists s rest, r = s ++ rest /\ is_component s rest /\ component_length r = length s.
Proof.
  intros Hne Hh. assert (exists s rest, r = s ++ rest /\ (SLASH ∉ s) /\ (rest = [] \/ head rest = Some SLASH)) as (s & rest & -> & Hs & Hrest).
  { clear. induction r as [|c r (s & rest & -> & Hs & Hrest)].
    - exists [], []. split; [done|]. split; [apply not_elem_of_nil|by left].
    - destruct (decide (c = SLASH)) as [->|Hc].
      + exists [], (SLASH :: s ++ rest). split; [done|]. split; [apply not_elem_of_nil|by right].
      + exists (c :: s), rest. split; [done|]. split; [|done]. rewrite not_elem_of_cons. split; [by intros <-|done]. }
  assert (is_component s rest) as Hc.
  { split; [|done]. intros ->. cbn in Hne, Hh. by destruct Hrest as [->|]. }
  exists s, rest. split; [done|]. split; [done|]. by apply component_length_app.
Qed.
Lemma component_unique s rest s' rest' :
  is_component s rest -> is_component s' rest' -> s ++ rest = s' ++ rest' -> s = s' /\ rest = rest'.
Proof.
  intros H1 H2 E. apply app_inj_1; [|done]. rewrite <- (component_length_app s rest), <- (component_length_app s' rest') by done. by rewrite E.
Qed.
Lemma component_not_slash s rest r : is_component s rest -> s ++ rest <> SLASH :: r.
Proof. intros (Hne & Hs & _). destruct s as [|c s]; [done|]. cbn. intros [= -> _]. apply Hs. by left. Qed.
Lemma component_not_nil s rest : is_component s rest -> s ++ rest <> [].
Proof. intros (Hne & _). by destruct s. Qed.
Lemma dots_spec s rest :
  is_component s rest ->
  (default 0 (head s) =? DOT) && ((length s =? 1)%nat || ((length s =? 2)%nat && (default 0 (s !! 1%nat) =? DOT))) = bool_decide (is_dots s).
Proof.
  intros (Hne & _). unfold is_dots. destruct s as [|a [|b [|c s]]]; [done|..]; cbn.
  - destruct (Z.eqb_spec a DOT) as [->|Ha]; cbn; symmetry; [apply bool_decide_eq_true_2; by left|].
    apply bool_decide_eq_false_2. by intros [[= ->]|[=]].
  - destruct (Z.eqb_spec a DOT) as [->|Ha], (Z.eqb_spec b DOT) as [->|Hb]; cbn; symmetry;
      [apply bool_decide_eq_true_2; by right|..]; apply bool_decide_eq_false_2; intros [[=]|[= ?]]; congruence.
  - rewrite andb_false_r. symmetry. apply bool_decide_eq_false_2. by intros [[=]|[=]].
Qed.

(** ** The directory of a component *)

Lemma strip_slashes_spec done rest :
  strip_slashes (done ++ rest) (length done) = length (without_slashes (reverse done)) /\
  take (strip_slashes (done ++ rest) (length done)) (done ++ rest) = reverse (without_slashes (reverse done)).
Proof.
  revert rest. induction done as [|c done IH] using rev_ind; intros rest; [done|].
  rewrite length_app, Nat.add_1_r, reverse_snoc. destruct (IH ([c] ++ rest)) as [IH1 IH2]. rewrite <- app_assoc.
  destruct (length done) as [|n] eqn:El.
  { apply length_zero_iff_nil in El as ->. by cbn. }
  destruct (reverse done) as [|d r] eqn:Er; [apply (f_equal length) in Er; rewrite length_reverse in Er; cbn in Er; lia|].
  change (without_slashes (c :: d :: r)) with (if c =? SLASH then without_slashes (d :: r) else c :: d :: r). change (strip_slashes (done ++ [c] ++ rest) (S (S n))) with
    (if default 0 ((done ++ [c] ++ rest) !! S n) =? SLASH then strip_slashes (done ++ [c] ++ rest) (S n) else S (S n)).
  rewrite lookup_app_r by lia. rewrite El, Nat.sub_diag. change (default 0 (([c] ++ rest) !! 0%nat)) with c. destruct (c =? SLASH); [exact (conj IH1 IH2)|].
  assert (length (d :: r) = S n) as Hr by (rewrite <- Er, length_reverse; done).
  split; [cbn [length] in *; lia|]. rewrite reverse_cons, <- Er, reverse_involutive.
  change (c :: rest) with ([c] ++ rest). rewrite app_assoc, take_app_le by (rewrite length_app; cbn; lia). apply firstn_all2. rewrite length_app. cbn. lia.
Qed.
Lemma without_slashes_nil r : without_slashes r = [] <-> r = [].
Proof.
  split; [|by intros ->]. induction r as [|c [|d r] IH]; [done|done|]. cbn. destruct (c =? SLASH); [|done]. intros E. by specialize (IH E).
Qed.
Lemma directory_of_spec done rest : directory_of (done ++ rest) (length done) = parent done.
Proof.
  destruct (strip_slashes_spec done rest) as [H1 H2]. unfold directory_of, parent. rewrite H2, H1.
  destruct done as [|c done]; [done|]. destruct (without_slashes (reverse (c :: done))) eqn:E; [|done].
  apply (proj1 (without_slashes_nil _)) in E. apply (f_equal reverse) in E. by rewrite reverse_involutive in E.
Qed.

(** ** The search *)

Lemma consider_foldl s names search :
  se_name search = s -> 0 <= se_matches search -> se_matches search + Z.of_nat (length names) < 2 ^ 32 ->
  let found := filter (fun name => (lower <$> name) = (lower <$> s)) names in
  let result := foldl consider search names in
  se_matches result = se_matches search + Z.of_nat (length found) /\
  se_match result = (if se_matches search =? 0 then default (se_match search) (head found) else se_match search).
Proof.
  cbv zeta. revert search. induction names as [|name names IH]; intros search Hn H0 Hb; cbn [foldl length] in *.
  { cbn. split; [lia|by destruct (_ =? 0)]. }
  assert (consider search name = if bool_decide ((lower <$> name) = (lower <$> s)) then
    mkSearch s (if se_matches search =? 0 then name else se_match search) (se_matches search + 1) else search) as ->.
  { unfold consider, same_ignoring_case, strlen. rewrite Hn. case_bool_decide as E.
    - apply (f_equal length) in E. rewrite !length_fmap in E. rewrite E, Z.eqb_refl. cbn. f_equal. apply Z.mod_small. lia.
    - by destruct (_ =? _). }
  case_bool_decide as E.
  - rewrite filter_cons_True by done. destruct (IH (mkSearch s (if se_matches search =? 0 then name else se_match search) (se_matches search + 1)))
      as [-> ->]; cbn [se_name se_match se_matches length head default] in *; [done|lia|lia|]. split; [lia|].
    rewrite (proj2 (Z.eqb_neq (se_matches search + 1) 0)) by lia. by destruct (se_matches search =? 0).
  - rewrite filter_cons_False by done. apply IH; [done|done|lia].
Qed.

(** ** The loop *)

Lemma resolves_slash files done r out c : Resolves files done (SLASH :: r) out c <-> Resolves files (done ++ [SLASH]) r out c.
Proof.
  split; [|apply Resolves_slash]. intros H. inversion H; subst; try done.
  all: match goal with E : _ ++ _ = SLASH :: _ |- _ => by apply component_not_slash in E end.
Qed.
Lemma resolves_component files done s r out c :
  is_component s r ->
  Resolves files done (s ++ r) out c <->
  if bool_decide (is_dots s) then Resolves files (done ++ s) r out c else
  gf_exists files (done ++ s) = 0 /\ Resolves files (done ++ s) r out c \/
  gf_exists files (done ++ s) = ENOENT /\ strlen s <= NAME_MAX /\ c = true /\
    exists names m c', gf_list files (parent done) = Some names /\ filter (fun name => (lower <$> name) = (lower <$> s)) names = [m] /\
      Resolves files (done ++ m) r out c'.
Proof.
  intros Hs. split.
  - intros H. inversion H as [d Ed|d r' o c' Hr Ed Er|d s' r' o c' Hs' Hd Hr Ed Er|d s' r' o c' Hs' Hd He Hr Ed Er|d s' r' names m o c' Hs' Hd He Hn Hl Hf Hr Ed Er]; subst.
    + by destruct (component_not_nil s r Hs).
    + by destruct (component_not_slash s r r' Hs).
    + destruct (component_unique s' r' s r Hs' Hs Er) as [-> ->]. by rewrite bool_decide_eq_true_2.
    + destruct (component_unique s' r' s r Hs' Hs Er) as [-> ->]. rewrite bool_decide_eq_false_2 by done. by left.
    + destruct (component_unique s' r' s r Hs' Hs Er) as [-> ->]. rewrite bool_decide_eq_false_2 by done. right. split_and!; try done. by exists names, m, c'.
  - case_bool_decide as Hd; [by apply Resolves_dots|]. intros [[He Hr]|(He & Hn & -> & names & m & c' & Hl & Hf & Hr)].
    + by apply Resolves_exists.
    + by eapply Resolves_case.
Qed.
Lemma matching_entries names s :
  Z.of_nat (length names) < 2 ^ 32 ->
  let found := filter (fun name => (lower <$> name) = (lower <$> s)) names in
  let search := foldl consider (mkSearch s [] 0) names in
  (se_matches search = 1 <-> exists m, found = [m]) /\ (forall m, found = [m] -> se_match search = m).
Proof.
  intros Hb. cbv zeta. destruct (consider_foldl s names (mkSearch s [] 0)) as [-> ->]; cbn [se_name se_matches se_match]; [done|lia|lia|].
  split; [|by intros m ->]. split.
  - intros E. destruct (filter _ names) as [|m [|]]; cbn in E; [lia|by exists m|lia].
  - by intros (m & ->).
Qed.
Lemma splice_component (done s r m : list Z) : length m = length s -> splice (length done) (take (length s) m) (done ++ s ++ r) = (done ++ m) ++ r.
Proof.
  intros E. unfold splice. rewrite take_app_length, <- E, firstn_all, E. rewrite drop_app_ge by lia.
  replace (length done + length s - length done)%nat with (length s) by lia. by rewrite drop_app_length, <- app_assoc.
Qed.
Lemma same_length (a b : list Z) : (lower <$> a) = (lower <$> b) -> length a = length b.
Proof. intros E. apply (f_equal length) in E. by rewrite !length_fmap in E. Qed.

Section loop.
Context (files : GPFiles).
Hypothesis listed : forall d names, gf_list files d = Some names -> Z.of_nat (length names) < 2 ^ 32.

Lemma gp_loop_spec fuel done rest changed out :
  (length rest < fuel)%nat ->
  gp_loop fuel files (done ++ rest) (length done) changed = (true, out) <->
  exists c, Resolves files done rest out c /\ changed || c = true.
Proof.
  revert done rest changed. induction fuel as [|fuel IH]; intros done rest changed Hf; [lia|]. cbn [gp_loop].
  destruct rest as [|x rest'].
  { rewrite app_nil_r, (proj2 (Nat.leb_le _ _)) by lia. split.
    - intros [= -> <-]. exists false. split; [constructor|done].
    - intros (c & H & Hc). inversion H; subst; try (by rewrite orb_false_r in Hc; subst).
      all: match goal with E : _ ++ _ = [] |- _ => by apply component_not_nil in E end. }
  rewrite (proj2 (Nat.leb_gt _ _)) by (rewrite length_app; cbn; lia).
  rewrite lookup_app_r, Nat.sub_diag by lia. change (default 0 ((x :: rest') !! 0%nat)) with x.
  destruct (Z.eqb_spec x SLASH) as [->|Hx].
  { rewrite (cons_middle SLASH), app_assoc. replace (S (length done)) with (length (done ++ [SLASH])) by (rewrite length_app; cbn; lia).
    rewrite IH by (cbn in Hf; lia). by setoid_rewrite resolves_slash. }
  destruct (component_split (x :: rest')) as (s & r & E & Hs & Hlen); [done|by intros [= ->]|].
  rewrite drop_app_length, Hlen. pose proof (dots_spec s r Hs) as Hdots.
  assert (0 < length s)%nat as Hpos by (destruct Hs as [Hne _]; destruct s; [done|cbn; lia]).
  assert (head s = Some x) as Hhead by (destruct s; [cbn in Hpos; lia|by injection E as <-]).
  rewrite Hhead in Hdots. cbn [default] in Hdots. rewrite E in Hf |- *. rewrite length_app in Hf.
  assert (Hsecond : (length s =? 2)%nat && (default 0 ((done ++ s ++ r) !! S (length done)) =? DOT) =
    (length s =? 2)%nat && (default 0 (s !! 1%nat) =? DOT)).
  { destruct (Nat.eqb_spec (length s) 2); [|done]. rewrite lookup_app_r by lia. replace (S (length done) - length done)%nat with 1%nat by lia.
    by rewrite lookup_app_l by lia. }
  rewrite Hsecond.
  match goal with |- context [if ?b then gp_loop _ _ _ _ _ else _] => replace b with (bool_decide (is_dots s)) by (symmetry; exact Hdots) end. setoid_rewrite (resolves_component files done s r out _ Hs).
  assert (length done + length s = length (done ++ s))%nat as -> by (rewrite length_app; lia).
  case_bool_decide as Hd; [rewrite app_assoc; apply IH; lia|].
  rewrite (app_assoc done s r), take_app_length, <- app_assoc.
  destruct (Z.eqb_spec (gf_exists files (done ++ s)) ENOENT) as [He|He]; unfold ENOENT in *.
  2: { destruct (Z.eqb_spec (gf_exists files (done ++ s)) 0) as [H0|H0]; cbn [negb].
    - rewrite app_assoc, IH by lia. split; intros (c & Hr & Hc); exists c; (split; [|done]); [by left|]. by destruct Hr as [[_ Hr]|[? _]].
    - split; [done|]. by intros (c & [[? _]|[? _]] & _). }
  destruct (Z.ltb_spec NAME_MAX (Z.of_nat (length s))) as [Hn|Hn].
  { split; [done|]. intros (c & [[? _]|(_ & ? & _)] & _); [congruence|unfold strlen in *; lia]. }
  rewrite directory_of_spec. destruct (gf_list files (parent done)) as [names|] eqn:El.
  2: { split; [done|]. intros (c & [[? _]|(_ & _ & _ & names & m & c' & ? & _)] & _); congruence. }
  assert (slice (length done) (length s) (done ++ s ++ r) = s) as -> by (unfold slice; by rewrite drop_app_length, take_app_length).
  destruct (matching_entries names s (listed _ _ El)) as [Hone Hmatch].
  destruct (Z.eqb_spec (se_matches (foldl consider (mkSearch s [] 0) names)) 1) as [H1|H1]; cbn [negb].
  - apply Hone in H1 as (m & Hm). rewrite (Hmatch m Hm).
    assert (m ∈ names /\ (lower <$> m) = (lower <$> s)) as [_ Hlow].
    { assert (m ∈ filter (fun name => (lower <$> name) = (lower <$> s)) names) as Hin by (rewrite Hm; by left). apply list_elem_of_filter in Hin. tauto. }
    apply same_length in Hlow. rewrite splice_component by done.
    assert (length (done ++ s) = length (done ++ m)) as -> by (rewrite !length_app; lia). rewrite IH by lia. split.
    + intros (c & Hr & _). exists true. split; [|by rewrite orb_true_r]. right. unfold strlen. split_and!; try done. by exists names, m, c.
    + intros (c & [[? _]|(_ & _ & _ & names' & m' & c' & [= <-] & Hm' & Hr)] & _); [congruence|]. exists c'. split; [|done].
      rewrite Hm in Hm'. by injection Hm' as <-.
  - split; [done|]. intros (c & [[? _]|(_ & _ & _ & names' & m' & c' & [= <-] & Hm' & Hr)] & _); [congruence|]. destruct H1. apply Hone. by exists m'.
Qed.
End loop.

(** Resolving changes only case. *)
Lemma resolves_lower files done rest out c :
  Resolves files done rest out c -> (lower <$> out) = (lower <$> done) ++ (lower <$> rest) /\ (c = false -> out = done ++ rest).
Proof.
  induction 1 as [done|done r out c _ [IH1 IH2]|done s r out c Hs _ _ [IH1 IH2]|done s r out c Hs _ _ _ [IH1 IH2]|
    done s r names m out c Hs _ _ _ _ Hf _ [IH1 IH2]].
  - by rewrite !app_nil_r.
  - rewrite IH1, fmap_app, <- app_assoc. split; [done|]. intros E. by rewrite IH2, <- app_assoc.
  - rewrite IH1, !fmap_app, <- app_assoc. split; [done|]. intros E. by rewrite IH2, <- app_assoc.
  - rewrite IH1, !fmap_app, <- app_assoc. split; [done|]. intros E. by rewrite IH2, <- app_assoc.
  - assert (m ∈ filter (fun name => (lower <$> name) = (lower <$> s)) names) as Hin by (rewrite Hf; by left).
    apply list_elem_of_filter in Hin as [Hlow _]. by rewrite IH1, !fmap_app, Hlow, <- app_assoc.
Qed.


(** ** A file system with one directory *)

(** [/A/b] exists, and [/A] also holds [cD] and [Cd]. *)
Definition example_exists (path : list Z) : Z :=
  if decide (path ∈ [[47; 65]; [47; 65; 47; 98]; [47; 65; 47; 99; 68]; [47; 65; 47; 67; 100]]) then 0 else ENOENT.
Definition example_list (directory : list Z) : option (list (list Z)) :=
  if decide (directory = [47]) then Some [[65]] else if decide (directory = [47; 65]) then Some [[98]; [99; 68]; [67; 100]] else None.
Definition example_files : GPFiles := mkFiles example_exists example_list.
(** Two entries that both match are no answer. *)
Example ambiguous_refused : (gp_case_insensitive example_files None (Some [47; 97; 47; 99; 100]) (Some 10)).1 = false.
Proof. reflexivity. Qed.
