(* ===== verification/LaunchPolicy.v ===== *)
(** * LaunchPolicy: small decisions of a launch (runtime/NativeGuestPolicy.h)

    How many processors the guest is told of, what becomes of an import nothing
    provides and of an arena reserved before, and placeholders in a profile's
    environment. Names of queries are strings, the text to expand a list of
    nonzero bytes; a null pointer is [None]. *)
From Stdlib Require Import String.
From S2P Require Import Prelude.

(** ** Processors *)

Definition INT_SIZE : Z := 4.
Definition CTL_HW : Z := 6.
Definition HW_NCPU : Z := 3.
Definition HW_AVAILCPU : Z := 25.
Definition _SC_NPROCESSORS_CONF : Z := 57.
Definition _SC_NPROCESSORS_ONLN : Z := 58.
(** An [int] in memory. *)
Definition int_of_bytes (bytes : list Z) : Z := let v := le_value (take 4 bytes) in if v <? 2 ^ 31 then v else v - 2 ^ 32.
Definition queries : list string :=
  ["hw.ncpu"; "hw.activecpu"; "hw.logicalcpu"; "hw.logicalcpu_max"; "hw.physicalcpu"; "hw.physicalcpu_max"]%string.
(** The result, and what [answer] holds. *)
Definition ng_limit_cpu_answer (name : option string) (answer : option (list Z)) (size limit : Z) : bool * option (list Z) :=
  match name, answer with
  | Some name, Some bytes =>
    if (limit =? 0) || negb (size =? INT_SIZE) then (false, answer) else
    if negb (existsb (String.eqb name) queries) then (false, answer) else
    let count := int_of_bytes bytes in
    if (count <=? 0) || (w32 count <=? limit) then (false, answer) else (true, Some (splice 0 (le_bytes 4 limit) bytes))
  | _, _ => (false, answer)
  end.
Definition ng_cpu_mib_name (name : option (list Z)) (count : Z) : option string :=
  match name with
  | None => None
  | Some name =>
    if negb (count =? 2) || negb (default 0 (name !! 0%nat) =? CTL_HW) then None else
    if default 0 (name !! 1%nat) =? HW_NCPU then Some "hw.ncpu"%string else
    if default 0 (name !! 1%nat) =? HW_AVAILCPU then Some "hw.activecpu"%string else None
  end.
Definition ng_limit_cpu_sysconf (name value limit : Z) : Z :=
  if (limit =? 0) || (value <=? 0) || (negb (name =? _SC_NPROCESSORS_CONF) && negb (name =? _SC_NPROCESSORS_ONLN)) then value else
  if limit <? w64 value then limit else value.

(** ** Imports and the reserved arena *)

Definition ng_may_stub (generic_build carried_image weak : bool) : bool := negb weak && (generic_build || carried_image).
Inductive NGReservedChoice := NG_RESERVED_NONE | NG_RESERVED_TAKE | NG_RESERVED_REFUSE | NG_RESERVED_GIVE_BACK.
Definition ng_reserved_choice (external reserved : bool) (total reserved_size : Z) : NGReservedChoice :=
  if negb reserved then NG_RESERVED_NONE else
  if negb external then NG_RESERVED_GIVE_BACK else
  if total <=? reserved_size then NG_RESERVED_TAKE else NG_RESERVED_REFUSE.

(** ** Placeholders *)

(** Whether the text at [at_] begins with the placeholder, compared byte by byte
    up to its end. *)
Fixpoint matches (placeholder at_ : list Z) : bool :=
  match placeholder with
  | [] => true
  | p :: placeholder => match at_ with [] => false | c :: at_ => (c =? p) && matches placeholder at_ end
  end.
Fixpoint expand_loop (fuel : nat) (at_ placeholder replacement out : list Z) (size : Z) (found : bool) : bool * option (list Z) :=
  match fuel with
  | O => (false, Some [])
  | S fuel =>
    match at_ with
    | [] => (found, Some out)
    | c :: rest =>
      let match_ := matches placeholder at_ in
      let piece := if match_ then replacement else [c] in
      if size <=? Z.of_nat (length out) + Z.of_nat (length piece) then (false, Some []) else
      expand_loop fuel (if match_ then drop (length placeholder) at_ else rest) placeholder replacement (out ++ piece) size (found || match_)
    end
  end.
(** The second result is what [out] holds, [None] when it is not written. *)
Definition ng_expand (value placeholder replacement : list Z) (size : Z) : bool * option (list Z) :=
  if (size =? 0) || (Z.of_nat (length placeholder) =? 0) then (false, None) else
  expand_loop (S (length value)) value placeholder replacement [] size false.

(** The text with every occurrence replaced, from left to right, and how many. *)
Inductive Expansion (placeholder replacement : list Z) : list Z -> list Z -> nat -> Prop :=
  | Expansion_end : Expansion placeholder replacement [] [] 0
  | Expansion_found rest out n :
      placeholder <> [] -> Expansion placeholder replacement rest out n ->
      Expansion placeholder replacement (placeholder ++ rest) (replacement ++ out) (S n)
  | Expansion_kept c rest out n :
      (forall after, c :: rest <> placeholder ++ after) -> Expansion placeholder replacement rest out n ->
      Expansion placeholder replacement (c :: rest) (c :: out) n.

Lemma matches_spec placeholder at_ : matches placeholder at_ = true <-> exists rest, at_ = placeholder ++ rest.
Proof.
  revert at_. induction placeholder as [|p placeholder IH]; intros at_; cbn.
  { split; [by exists at_|done]. }
  destruct at_ as [|c at_]; [split; [done|by intros (? & ?)]|]. rewrite andb_true_iff, Z.eqb_eq, IH. split.
  - intros [-> (rest & ->)]. by exists rest.
  - intros (rest & [= -> ->]). split; [done|by exists rest].
Qed.
Lemma expansion_total placeholder replacement value :
  placeholder <> [] -> exists out n, Expansion placeholder replacement value out n.
Proof.
  intros Hne. induction value as [value IH] using (well_founded_induction (well_founded_ltof _ (@length Z))). unfold ltof in IH.
  destruct value as [|c value]; [exists [], 0%nat; constructor|]. destruct (matches placeholder (c :: value)) eqn:Em.
  - apply matches_spec in Em as (rest & E). destruct (IH rest) as (out & n & H).
    { rewrite E, length_app. destruct placeholder; [done|cbn; lia]. }
    exists (replacement ++ out), (S n). rewrite E. by constructor.
  - destruct (IH value) as (out & n & H); [cbn; lia|]. exists (c :: out), n. constructor; [|done]. intros after E.
    apply not_true_iff_false in Em. apply Em. apply matches_spec. by exists after.
Qed.
Lemma expand_loop_spec fuel at_ placeholder replacement expanded n out size found :
  Expansion placeholder replacement at_ expanded n -> (length at_ < fuel)%nat -> Z.of_nat (length out) < size ->
  expand_loop fuel at_ placeholder replacement out size found =
    if Z.of_nat (length out) + Z.of_nat (length expanded) <? size then (found || (0 <? n)%nat, Some (out ++ expanded)) else (false, Some []).
Proof.
  intros He. revert fuel out found. induction He as [|rest expanded n Hne He IH|c rest expanded n Hno He IH]; intros fuel out found Hf Hout;
    (destruct fuel as [|fuel]; [lia|]); cbn [expand_loop].
  - rewrite (proj2 (Z.ltb_lt _ _)) by (cbn; lia). by rewrite orb_false_r, app_nil_r.
  - destruct placeholder as [|p placeholder]; [done|]. set (ph := p :: placeholder) in *. change ((p :: placeholder) ++ rest) with (ph ++ rest) in *.
    assert (matches ph (ph ++ rest) = true) as Em by (apply matches_spec; by exists rest).
    change (ph ++ rest) with (p :: (placeholder ++ rest)) at 1. cbv zeta. change (p :: (placeholder ++ rest)) with (ph ++ rest). rewrite Em.
    rewrite drop_app_length, length_app. destruct (Z.leb_spec size (Z.of_nat (length out) + Z.of_nat (length replacement))).
    { rewrite (proj2 (Z.ltb_ge _ _)) by lia. done. }
    rewrite length_app in Hf. rewrite IH by (rewrite ?length_app; subst ph; cbn in *; lia). change (0 <? S n)%nat with true. rewrite length_app, <- app_assoc, !orb_true_r.
    replace (Z.of_nat (length out + length replacement) + Z.of_nat (length expanded)) with
      (Z.of_nat (length out) + Z.of_nat (length replacement + length expanded)) by lia. done.
  - assert (matches placeholder (c :: rest) = false) as Em.
    { apply not_true_iff_false. intros (after & E)%matches_spec. by apply (Hno after). }
    rewrite Em, orb_false_r. cbn [length]. destruct (Z.leb_spec size (Z.of_nat (length out) + Z.of_nat 1)).
    { rewrite (proj2 (Z.ltb_ge _ _)) by lia. done. }
    cbn [length] in Hf. rewrite IH by (rewrite ?length_app; cbn; lia). rewrite length_app, <- app_assoc. cbn [length app].
    replace (Z.of_nat (length out + 1) + Z.of_nat (length expanded)) with (Z.of_nat (length out) + Z.of_nat (S (length expanded))) by lia. done.
Qed.
(** expanding gives the text with every occurrence of the placeholder replaced
    from left to right when that fits with its terminator, and says whether there
    was one; when it does not fit the result is empty and refused. *)
Theorem ng_expand_spec value placeholder replacement size :
  0 < size -> placeholder <> [] ->
  exists expanded n, Expansion placeholder replacement value expanded n /\
    ng_expand value placeholder replacement size =
      if Z.of_nat (length expanded) <? size then ((0 <? n)%nat, Some expanded) else (false, Some []).
Proof.
  intros Hs Hne. destruct (expansion_total placeholder replacement value Hne) as (expanded & n & He). exists expanded, n. split; [done|].
  unfold ng_expand. rewrite (proj2 (Z.eqb_neq size 0)) by lia. rewrite (proj2 (Z.eqb_neq _ 0)) by (destruct placeholder; [done|cbn; lia]).
  cbn [orb]. rewrite (expand_loop_spec _ _ _ _ expanded n) by (done || (cbn; lia)). done.
Qed.
(** There is one such text. *)
Theorem expansion_unique placeholder replacement value out n out' n' :
  Expansion placeholder replacement value out n -> Expansion placeholder replacement value out' n' -> out = out' /\ n = n'.
Proof.
  intros H1. revert out' n'. induction H1 as [|rest out n Hne H1 IH|c rest out n Hno H1 IH]; intros out' n' H2;
    inversion H2 as [Ev|rest' o m Hne' H3 Ev|c' rest' o m Hno' H3 Ev]; subst; try done.
  - by destruct placeholder.
  - by destruct placeholder.
  - apply app_inv_head in Ev as ->. by destruct (IH _ _ H3) as [-> ->].
  - by destruct (Hno' rest).
  - by destruct (Hno rest').
  - by destruct (IH _ _ H3) as [-> ->].
Qed.

Lemma int_of_le_bytes v rest : 0 <= v < 2 ^ 31 -> int_of_bytes (le_bytes 4 v ++ rest) = v.
Proof.
  intros Hv. unfold int_of_bytes. rewrite take_app_le by (by rewrite length_le_bytes). rewrite firstn_all2 by (by rewrite length_le_bytes).
  rewrite le_value_le_bytes. change (8 * Z.of_nat 4) with 32. rewrite Z.mod_small by lia. by rewrite (proj2 (Z.ltb_lt _ _)) by lia.
Qed.
Lemma int_of_bytes_range bytes : Forall byte_ok bytes -> - 2 ^ 31 <= int_of_bytes bytes < 2 ^ 31.
Proof.
  intros Hb. unfold int_of_bytes. pose proof (le_value_range (take 4 bytes) (Forall_take _ 4 _ Hb)) as Hr.
  assert (2 ^ (8 * Z.of_nat (length (take 4 bytes))) <= 2 ^ 32) by (apply Z.pow_le_mono_r; [lia|rewrite length_take; lia]).
  destruct (Z.ltb_spec (le_value (take 4 bytes)) (2 ^ 31)); lia.
Qed.
(** the number of processors a program is told of is only ever lowered: a
    query of it answers the smaller of the host's count and a nonzero limit, in the
    four bytes of the answer and nowhere else; every other answer, and a negative
    or zero count, is left as it is. *)
Theorem ng_limit_cpu_answer_spec name bytes size limit :
  Forall byte_ok bytes -> (4 <= length bytes)%nat -> 0 <= limit < 2 ^ 32 ->
  let '(changed, answer) := ng_limit_cpu_answer (Some name) (Some bytes) size limit in
  let count := int_of_bytes bytes in
  exists bytes', answer = Some bytes' /\ drop 4 bytes' = drop 4 bytes /\ length bytes' = length bytes /\ int_of_bytes bytes' <= count /\
    (if limit =? 0 then changed = false else
     if bool_decide (size = INT_SIZE /\ name ∈ queries /\ 0 < count) then
       int_of_bytes bytes' = Z.min count limit /\ (changed = true <-> limit < count)
     else changed = false) /\
    (changed = false -> bytes' = bytes).
Proof.
  intros Hb Hlen Hlim. unfold ng_limit_cpu_answer. cbv zeta. pose proof (int_of_bytes_range bytes Hb) as Hr. set (count := int_of_bytes bytes) in *.
  assert (name ∈ queries <-> existsb (String.eqb name) queries = true) as Hq.
  { rewrite existsb_exists, list_elem_of_In. split; [intros Hin; exists name; split; [done|apply String.eqb_refl]|]. by intros (q & Hin & ->%String.eqb_eq). }
  destruct (Z.eqb_spec limit 0) as [->|Hl0]; cbn [orb]; [by exists bytes|].
  destruct (Z.eqb_spec size INT_SIZE) as [->|Hs]; cbn [negb].
  2: { exists bytes. rewrite bool_decide_eq_false_2 by tauto. by split_and!. }
  destruct (existsb (String.eqb name) queries); cbn [negb].
  2: { exists bytes. rewrite bool_decide_eq_false_2 by (intros (_ & Hin & _); by apply Hq in Hin). by split_and!. }
  assert (name ∈ queries) as Hin by by apply Hq.
  destruct (Z.leb_spec count 0); cbn [orb].
  { exists bytes. rewrite bool_decide_eq_false_2 by lia. by split_and!. }
  rewrite bool_decide_eq_true_2 by (split_and!; done || lia). unfold w32. rewrite Z.mod_small by lia.
  destruct (Z.leb_spec count limit).
  { exists bytes. split_and!; try done; fold count; [lia|split; [done|lia]]. }
  unfold splice. rewrite length_le_bytes. cbn [take app Nat.add]. exists (le_bytes 4 limit ++ drop 4 bytes).
  rewrite int_of_le_bytes by lia. split_and!; try done; try lia.
  - rewrite length_app, length_le_bytes, length_drop. lia.
Qed.
Theorem ng_limit_cpu_sysconf_spec name value limit :
  0 <= limit < 2 ^ 32 -> value < 2 ^ 63 ->
  let result := ng_limit_cpu_sysconf name value limit in
  result <= value /\ (result = value \/ result = limit) /\
  (0 < limit -> 0 < value -> name = _SC_NPROCESSORS_CONF \/ name = _SC_NPROCESSORS_ONLN -> result = Z.min value limit).
Proof.
  intros Hl Hv. cbv zeta. unfold ng_limit_cpu_sysconf.
  destruct (Z.eqb_spec limit 0), (Z.leb_spec value 0); cbn [orb]; try lia.
  destruct (Z.eqb_spec name _SC_NPROCESSORS_CONF), (Z.eqb_spec name _SC_NPROCESSORS_ONLN); cbn [negb andb]; try lia;
    unfold w64; rewrite Z.mod_small by lia; destruct (Z.ltb_spec limit value); lia.
Qed.
(** A query by number is the query by its name. *)
Theorem ng_cpu_mib_name_query name count query : ng_cpu_mib_name name count = Some query -> query ∈ queries.
Proof.
  unfold ng_cpu_mib_name. destruct name as [name|]; [|done]. destruct (_ || _); [done|].
  destruct (_ =? HW_NCPU); [intros [= <-]; by left|]. destruct (_ =? HW_AVAILCPU); [intros [= <-]; right; by left|done].
Qed.
(** An arena is taken only by the route that reserved it, and only when the image
    fits; a weak import is never stubbed. *)
Theorem launch_choices external reserved total reserved_size generic carried weak :
  (ng_reserved_choice external reserved total reserved_size = NG_RESERVED_TAKE <->
    external = true /\ reserved = true /\ total <= reserved_size) /\
  (ng_reserved_choice external reserved total reserved_size = NG_RESERVED_NONE <-> reserved = false) /\
  (ng_may_stub generic carried weak = true <-> weak = false /\ (generic = true \/ carried = true)).
Proof.
  unfold ng_reserved_choice, ng_may_stub. destruct external, reserved, (Z.leb_spec total reserved_size), generic, carried, weak; cbn; intuition (done || lia).
Qed.

Lemma ng_limit_cpu_answer_spec_witness :
  exists bytes, ng_limit_cpu_answer (Some "hw.ncpu"%string) (Some [8; 0; 0; 0]) 4 6 = (true, Some bytes) /\ int_of_bytes bytes = 6.
Proof.
  assert (Forall byte_ok [8; 0; 0; 0]) as Hb by (repeat constructor; unfold byte_ok; lia).
  pose proof (ng_limit_cpu_answer_spec "hw.ncpu"%string [8; 0; 0; 0] 4 6 Hb ltac:(cbn; lia) ltac:(lia)) as H.
  destruct (ng_limit_cpu_answer (Some "hw.ncpu"%string) (Some [8; 0; 0; 0]) 4 6) as [changed answer] eqn:E.
  assert (changed = true) as -> by (apply (f_equal fst) in E; vm_compute in E; by symmetry).
  destruct H as (bytes & -> & _ & _ & _ & H & _). exists bytes. split; [done|].
  change (6 =? 0) with false in H. cbv iota in H.
  rewrite bool_decide_eq_true_2 in H by (split; [done|]; split; [by left|done]). destruct H as [-> _]. reflexivity.
Defined.
(** [a${P}b${P}] with [${P}] replaced by [x]. *)
Lemma ng_expand_spec_witness :
  exists n, Expansion [36; 80] [120] [97; 36; 80; 98; 36; 80] [97; 120; 98; 120] n /\
    ng_expand [97; 36; 80; 98; 36; 80] [36; 80] [120] 8 = (true, Some [97; 120; 98; 120]).
Proof.
  destruct (ng_expand_spec [97; 36; 80; 98; 36; 80] [36; 80] [120] 8 ltac:(lia) ltac:(done)) as (expanded & n & He & E).
  assert (ng_expand [97; 36; 80; 98; 36; 80] [36; 80] [120] 8 = (true, Some [97; 120; 98; 120])) as E' by (vm_compute; reflexivity).
  rewrite E' in E. exists n. split; [|done]. destruct (Z.ltb_spec (Z.of_nat (length expanded)) 8); [|done]. by injection E as _ <-.
Defined.
