(* ===== verification/GuestTLS.v ===== *)
(** * GuestTLS: an image's thread-local variables (runtime/GuestTLS.c)

    Each image with a template has a key of the host's threads; a thread's
    storage is made from the template when it first asks. [Threads] is what the
    host keeps: the storage of each key and thread, and the bytes of each block.
    What allocation and the key functions answer are arguments. Addresses are
    64-bit; a descriptor is its address and its third word. *)
From S2P Require Import Prelude.

Definition MAX_TEMPLATE : Z := 16 * 1024 * 1024.
Definition MAX_ALIGNMENT : Z := 1024 * 1024.
Definition DESCRIPTOR : Z := 24.
Record GuestTLS := mkGuestTLS {
  gt_bytes : list Z; gt_size : Z; gt_alignment : Z; gt_descriptors : Z; gt_descriptors_size : Z; gt_key : Z; gt_initialized : bool
}.
Definition no_template : GuestTLS := mkGuestTLS [] 0 0 0 0 0 false.
Record GTImage := mkGTImage { gti_tls : GuestTLS; gti_name : list Z; gti_descriptors : Z; gti_descriptors_size : Z }.
Record Threads := mkThreads { th_storage : gmap (Z * Z) Z; th_blocks : gmap Z (list Z) }.

(** [allocated]: whether the copy of the template was; [key]: the new key, if any. *)
Definition gt_create (tls : GuestTLS) (bytes : option (list Z)) (size alignment descriptors descriptors_size : Z)
    (allocated : bool) (key : option Z) : bool * GuestTLS :=
  match bytes with
  | None => (false, tls)
  | Some bytes =>
    if gt_initialized tls || (size =? 0) || (MAX_TEMPLATE <? size) || (alignment =? 0) || negb (Z.land alignment (alignment - 1) =? 0) ||
       (MAX_ALIGNMENT <? alignment) || negb (descriptors_size mod DESCRIPTOR =? 0) || (UINT64_MAX - descriptors <? descriptors_size)
    then (false, tls) else
    let alignment := if alignment <? 8 then 8 else alignment in
    if negb allocated then (false, tls) else
    match key with
    | None => (false, tls)
    | Some key => (true, mkGuestTLS (take (Z.to_nat size) bytes) size alignment descriptors descriptors_size key true)
    end
  end.
(** [block]: what [posix_memalign] gives; [set]: whether the thread could keep it. *)
Definition gt_address (threads : Threads) (thread : Z) (tls : GuestTLS) (descriptor offset : Z) (block : option Z) (set : bool)
    : option Z * Threads :=
  if negb (gt_initialized tls) || (descriptor <? gt_descriptors tls) || (gt_descriptors_size tls <=? descriptor - gt_descriptors tls) ||
     negb ((descriptor - gt_descriptors tls) mod DESCRIPTOR =? 0) || (gt_size tls <=? offset) then (None, threads) else
  match th_storage threads !! (gt_key tls, thread) with
  | Some storage => (Some (w64 (storage + offset)), threads)
  | None =>
    match block with
    | None => (None, threads)
    | Some storage =>
      if negb set then (None, threads) else
      (Some (w64 (storage + offset)),
       mkThreads (<[(gt_key tls, thread) := storage]> (th_storage threads)) (<[storage := gt_bytes tls]> (th_blocks threads)))
    end
  end.
Definition gt_register (image : option GTImage) (name : list Z) (bytes : option (list Z)) (size alignment descriptors descriptors_size : Z)
    (allocated : bool) (key : option Z) : bool * option GTImage :=
  match image with
  | None => (false, None)
  | Some _ =>
    if (descriptors_size =? 0) || negb (descriptors_size mod DESCRIPTOR =? 0) || (UINT64_MAX - descriptors <? descriptors_size)
    then (false, image) else
    if size =? 0 then (true, Some (mkGTImage no_template name descriptors descriptors_size)) else
    let '(created, tls) := gt_create no_template bytes size alignment descriptors descriptors_size allocated key in
    if negb created then (false, image) else (true, Some (mkGTImage tls name descriptors descriptors_size))
  end.
(** The storage and the name of the image that declares the descriptor. *)
Fixpoint gt_find (threads : Threads) (thread : Z) (images : list GTImage) (descriptor offset : Z) (block : option Z) (set : bool)
    : option Z * option (list Z) * Threads :=
  match images with
  | [] => (None, None, threads)
  | image :: images =>
    if gti_descriptors_size image <=? w64 (descriptor - gti_descriptors image) then gt_find threads thread images descriptor offset block set else
    let '(address, threads) := gt_address threads thread (gti_tls image) descriptor offset block set in (address, Some (gti_name image), threads)
  end.
(** Deleting the key forgets the storage of every thread; only that of the calling
    one is freed. *)
Definition gt_destroy (threads : Threads) (thread : Z) (tls : GuestTLS) : Threads * GuestTLS :=
  if gt_initialized tls then
    (mkThreads (filter (fun '((key, _), _) => key <> gt_key tls) (th_storage threads))
      (match th_storage threads !! (gt_key tls, thread) with Some storage => delete storage (th_blocks threads) | None => th_blocks threads end),
     no_template)
  else (threads, no_template).

(** ** Well-formed images and storage *)

Record tls_wf (tls : GuestTLS) : Prop := {
  tw_bytes : gt_initialized tls = true -> Z.of_nat (length (gt_bytes tls)) = gt_size tls;
  tw_size : gt_initialized tls = true -> 0 < gt_size tls <= MAX_TEMPLATE;
  tw_alignment : gt_initialized tls = true -> 8 <= gt_alignment tls <= MAX_ALIGNMENT /\ exists k, 0 <= k /\ gt_alignment tls = 2 ^ k;
  tw_descriptors : gt_initialized tls = true -> gt_descriptors_size tls mod DESCRIPTOR = 0 /\ gt_descriptors tls + gt_descriptors_size tls <= UINT64_MAX
}.
(** Every storage is a block of its own. *)
Definition separate (threads : Threads) : Prop :=
  forall x y storage, th_storage threads !! x = Some storage -> th_storage threads !! y = Some storage -> x = y.
(** The storage of every thread that has one is large enough and does not wrap. *)
Definition holds (threads : Threads) (tls : GuestTLS) : Prop :=
  forall thread storage, th_storage threads !! (gt_key tls, thread) = Some storage ->
    (exists bytes, th_blocks threads !! storage = Some bytes /\ Z.of_nat (length bytes) = gt_size tls) /\ storage + gt_size tls <= UINT64_MAX.
Definition allocated_blocks (threads : Threads) : Prop :=
  forall x storage, th_storage threads !! x = Some storage -> 0 < storage /\ is_Some (th_blocks threads !! storage).
(** A new block is not one that exists. *)
Definition new_block (threads : Threads) (block : option Z) (size : Z) : Prop :=
  forall storage, block = Some storage -> 0 < storage /\ storage + size <= UINT64_MAX /\ th_blocks threads !! storage = None.
Definition declares (tls : GuestTLS) (descriptor : Z) : Prop :=
  gt_initialized tls = true /\ gt_descriptors tls <= descriptor < gt_descriptors tls + gt_descriptors_size tls /\
  (descriptor - gt_descriptors tls) mod DESCRIPTOR = 0.

Lemma power_of_two a : 0 < a -> Z.land a (a - 1) = 0 -> exists k, 0 <= k /\ a = 2 ^ k.
Proof.
  intros Ha E. exists (Z.log2 a). split; [apply Z.log2_nonneg|]. pose proof (Z.log2_spec a Ha) as [Hlo Hhi].
  destruct (Z.eq_dec a (2 ^ Z.log2 a)) as [|Hne]; [done|]. exfalso.
  assert (Z.log2 (a - 1) = Z.log2 a) as Hlog by (apply Z.log2_unique; [apply Z.log2_nonneg|lia]).
  assert (0 < 2 ^ Z.log2 a) by (apply Z.pow_pos_nonneg; [lia|apply Z.log2_nonneg]).
  assert (Z.testbit (Z.land a (a - 1)) (Z.log2 a) = true) as Hbit.
  { rewrite Z.land_spec, Z.bit_log2 by done. rewrite <- Hlog, Z.bit_log2 by lia. done. }
  by rewrite E, Z.bits_0 in Hbit.
Qed.
Lemma gt_create_correct tls bytes size alignment descriptors descriptors_size allocated key :
  tls_wf tls -> 0 <= size <= Z.of_nat (length bytes) -> 0 <= alignment -> 0 <= descriptors_size ->
  let '(ok, tls') := gt_create tls (Some bytes) size alignment descriptors descriptors_size allocated key in
  tls_wf tls' /\
  (ok = false -> tls' = tls) /\
  (ok = true -> gt_initialized tls = false /\ gt_initialized tls' = true /\ gt_bytes tls' = take (Z.to_nat size) bytes /\ gt_size tls' = size /\
    gt_descriptors tls' = descriptors /\ gt_descriptors_size tls' = descriptors_size /\ Some (gt_key tls') = key /\ alignment <= gt_alignment tls').
Proof.
  intros Hwf Hsize Hal Hd. unfold gt_create. destruct (_ || _ || _ || _ || _ || _ || _ || _) eqn:Eargs; [done|].
  destruct allocated; cbn [negb]; [|done]. destruct key as [key|]; [|done]. bool_props.
  assert (exists k, 0 <= k /\ alignment = 2 ^ k) as (k & Hk & Ek) by (apply power_of_two; [lia|done]).
  assert (8 <= (if alignment <? 8 then 8 else alignment) <= MAX_ALIGNMENT /\ alignment <= (if alignment <? 8 then 8 else alignment) /\
    exists k, 0 <= k /\ (if alignment <? 8 then 8 else alignment) = 2 ^ k) as (Hr & Hle & Hpow).
  { destruct (Z.ltb_spec alignment 8); (split; [unfold MAX_ALIGNMENT in *; lia|]); (split; [lia|]); [by exists 3|by exists k]. }
  split; [|split; [done|]].
  - split; cbn; intros _; [rewrite length_take; lia|lia|done|split; [done|lia]].
  - intros _. cbn. by split_and!.
Qed.

(** C35: a thread-local variable has one address in each thread, inside storage of
    its own that begins as the image's template; asking again gives the same one,
    and the storage of other threads and images does not change. There is an
    address exactly for a variable the image declares, while storage can be had. *)
Theorem gt_address_spec threads thread tls descriptor offset block set :
  tls_wf tls -> 0 <= offset -> separate threads -> allocated_blocks threads -> holds threads tls -> new_block threads block (gt_size tls) ->
  let '(address, threads') := gt_address threads thread tls descriptor offset block set in
  separate threads' /\ allocated_blocks threads' /\ holds threads' tls /\
  (forall x, x <> (gt_key tls, thread) -> th_storage threads' !! x = th_storage threads !! x) /\
  (forall b bytes, th_blocks threads !! b = Some bytes -> th_blocks threads' !! b = Some bytes) /\
  match address with
  | Some a => declares tls descriptor /\ exists storage bytes, th_storage threads' !! (gt_key tls, thread) = Some storage /\
      th_blocks threads' !! storage = Some bytes /\ Z.of_nat (length bytes) = gt_size tls /\ a = storage + offset /\ offset < gt_size tls /\
      if th_storage threads !! (gt_key tls, thread) is Some _ then threads' = threads else bytes = gt_bytes tls
  | None => threads' = threads /\ (~ declares tls descriptor \/ gt_size tls <= offset \/
      th_storage threads !! (gt_key tls, thread) = None /\ (block = None \/ set = false))
  end.
Proof.
  intros Hwf Hoff Hsep Hblocks Hholds Hnew. unfold gt_address. destruct (_ || _ || _ || _ || _) eqn:Eargs.
  { split_and!; try done. assert (~ (declares tls descriptor /\ offset < gt_size tls)) as Hno.
    { intros [(Hi & Hd & Hm) Ho]. rewrite Hi, Hm, (proj2 (Z.ltb_ge _ _)), !(proj2 (Z.leb_gt _ _)) in Eargs by lia. done. }
    destruct (decide (offset < gt_size tls)); [left; by intros ?; apply Hno|right; left; lia]. }
  bool_props. assert (declares tls descriptor) as Hdecl by (split_and!; [done|lia|lia|done]).
  destruct (th_storage threads !! (gt_key tls, thread)) as [storage|] eqn:Es.
  { destruct (Hholds _ _ Es) as [(bytes & Hb & Hl) Hend]. destruct (Hblocks _ _ Es) as [Hpos _]. split_and!; try done. exists storage, bytes. split_and!; try done.
    apply w64_small. unfold u64_ok, UINT64_MAX in *. lia. }
  destruct block as [storage|]; [|by split_and!; try done; right; right; auto].
  destruct set; cbn [negb]; [|by split_and!; try done; right; right; auto].
  destruct (Hnew storage eq_refl) as (Hpos & Hend & Hfresh).
  assert (Hne : forall x s, th_storage threads !! x = Some s -> s <> storage) by (intros x s Hx ->; destruct (Hblocks _ _ Hx) as [_ [? ?]]; congruence).
  split_and!; unfold separate, allocated_blocks, holds; cbn [th_storage th_blocks].
  - intros x y s. rewrite !lookup_insert_Some. intros [[<- <-]|[Hx Hsx]] [[<- Ey]|[Hy Hsy]]; try done; [by destruct (Hne _ _ Hsy)|by destruct (Hne _ _ Hsx)|by eapply Hsep].
  - intros x s. cbn. rewrite lookup_insert_Some. intros [[<- <-]|[Hx Hsx]]; [rewrite lookup_insert_eq; by eauto|].
    rewrite lookup_insert_ne by (intros <-; by destruct (Hne _ _ Hsx)). by eapply Hblocks.
  - intros t s. cbn. rewrite lookup_insert_Some. intros [[_ <-]|[_ Hs]].
    + rewrite lookup_insert_eq. split; [|done]. exists (gt_bytes tls). split; [done|]. by apply (tw_bytes tls Hwf).
    + rewrite lookup_insert_ne by (intros <-; by destruct (Hne _ _ Hs)). by eapply Hholds.
  - intros x Hx. by rewrite lookup_insert_ne.
  - intros b bytes Hb. rewrite lookup_insert_ne; [done|]. intros <-. congruence.
  - done.
  - exists storage, (gt_bytes tls). rewrite !lookup_insert_eq. split; [done|]. split; [done|].
    split; [by apply (tw_bytes tls Hwf)|]. split; [|split; [lia|done]].
    apply w64_small. unfold u64_ok, UINT64_MAX in *. lia.
Qed.

(** ** The table of images *)

Definition covers (image : GTImage) (descriptor : Z) : Prop :=
  gti_descriptors image <= descriptor < gti_descriptors image + gti_descriptors_size image.
Definition image_wf (image : GTImage) : Prop :=
  0 <= gti_descriptors image /\ 0 < gti_descriptors_size image /\ gti_descriptors image + gti_descriptors_size image <= UINT64_MAX /\ tls_wf (gti_tls image).
Lemma covers_test image descriptor :
  image_wf image -> u64_ok descriptor -> (gti_descriptors_size image <=? w64 (descriptor - gti_descriptors image)) = false <-> covers image descriptor.
Proof.
  intros (H1 & H2 & H3 & _) Hd. unfold covers, w64, u64_ok, UINT64_MAX in *. rewrite Z.leb_gt.
  destruct (decide (gti_descriptors image <= descriptor)).
  - rewrite Z.mod_small by lia. lia.
  - rewrite <- (Z.mod_unique (descriptor - gti_descriptors image) (2 ^ 64) (-1) (descriptor - gti_descriptors image + 2 ^ 64)) by lia. lia.
Qed.
(** The image that declares a descriptor serves it, and is named even when it
    cannot: a descriptor no image declares has no owner. *)
Theorem gt_find_spec threads thread images descriptor offset block set :
  Forall image_wf images -> u64_ok descriptor ->
  match gt_find threads thread images descriptor offset block set with
  | (address, Some owner, threads') => exists before image after, images = before ++ image :: after /\ owner = gti_name image /\
      covers image descriptor /\ Forall (fun i => ~ covers i descriptor) before /\
      gt_address threads thread (gti_tls image) descriptor offset block set = (address, threads')
  | (address, None, threads') => address = None /\ threads' = threads /\ Forall (fun i => ~ covers i descriptor) images
  end.
Proof.
  intros Hwf Hd. induction Hwf as [|image images Hi Hwf IH]; cbn [gt_find]; [done|].
  pose proof (covers_test image descriptor Hi Hd) as Ht. destruct (_ <=? _).
  - assert (~ covers image descriptor) as Hno by (intros Hc%Ht; done).
    destruct (gt_find _ _ images _ _ _ _) as [[address [owner|]] threads'].
    + destruct IH as (before & i & after & -> & Ho & Hc & Hb & Ha). exists (image :: before), i, after. split_and!; try done. by constructor.
    + destruct IH as (-> & -> & Hall). split_and!; try done. by constructor.
  - destruct (gt_address _ _ _ _ _ _ _) as [address threads'] eqn:Ea. exists [], image, images. split_and!; try done. by apply Ht.
Qed.
Lemma no_template_wf : tls_wf no_template.
Proof. by split. Qed.
(** registering records the descriptors of an image, with storage exactly when
    it has a template; a refusal changes nothing. *)
Theorem gt_register_spec image name bytes size alignment descriptors descriptors_size allocated key :
  0 <= size <= Z.of_nat (length bytes) -> 0 <= alignment -> 0 <= descriptors -> 0 <= descriptors_size ->
  let '(ok, image') := gt_register (Some image) name (Some bytes) size alignment descriptors descriptors_size allocated key in
  if ok then exists i, image' = Some i /\ image_wf i /\ gti_name i = name /\ gti_descriptors i = descriptors /\ gti_descriptors_size i = descriptors_size /\
      gt_initialized (gti_tls i) = negb (size =? 0) /\
      forall d, declares (gti_tls i) d <-> size <> 0 /\ covers i d /\ (d - descriptors) mod DESCRIPTOR = 0
  else image' = Some image.
Proof.
  intros Hs Ha Hd Hds. unfold gt_register. destruct (_ || _ || _) eqn:Eargs; [done|]. bool_props.
  destruct (Z.eqb_spec size 0) as [->|Hne].
  { exists (mkGTImage no_template name descriptors descriptors_size). split_and!; try done; [split_and!; cbn; [lia..|apply no_template_wf]|].
    intros d. split; [by intros [? _]|by intros [? _]]. }
  pose proof (gt_create_correct no_template bytes size alignment descriptors descriptors_size allocated key no_template_wf Hs Ha Hds) as Hc.
  destruct (gt_create _ _ _ _ _ _ _ _) as [[|] tls]; cbn [negb]; [|done]. destruct Hc as (Hwf & _ & Hc).
  destruct (Hc eq_refl) as (_ & Hi & _ & _ & Edesc & Esize & _). exists (mkGTImage tls name descriptors descriptors_size).
  split_and!; try done; [split_and!; cbn; [lia..|done]|]. intros d. unfold declares, covers. cbn. rewrite Hi, Edesc, Esize. tauto.
Qed.

(** ** Concrete images *)

Definition nothing_stored : Threads := mkThreads ∅ ∅.
Definition example_tls : GuestTLS := (gt_create no_template (Some [1; 2; 3; 4]) 4 4 4096 48 true (Some 7)).2.
Lemma gt_address_spec_witness :
  exists threads, gt_address nothing_stored 1 example_tls 4120 2 (Some 65536) true = (Some 65538, threads) /\
    th_blocks threads !! 65536 = Some [1; 2; 3; 4].
Proof.
  assert (tls_wf example_tls) as Hwf.
  { pose proof (gt_create_correct no_template [1; 2; 3; 4] 4 4 4096 48 true (Some 7) no_template_wf ltac:(cbn; lia) ltac:(lia) ltac:(lia)) as H.
    unfold example_tls. destruct (gt_create _ _ _ _ _ _ _ _). apply H. }
  pose proof (gt_address_spec nothing_stored 1 example_tls 4120 2 (Some 65536) true Hwf ltac:(lia)) as Hs.
  destruct (gt_address nothing_stored 1 example_tls 4120 2 (Some 65536) true) as [address threads] eqn:E.
  assert (address = Some 65538) as -> by (apply (f_equal fst) in E; vm_compute in E; by symmetry).
  exists threads. split; [done|]. destruct Hs as (_ & _ & _ & _ & _ & _ & storage & bytes & _ & Hb & _ & Ea & _ & Et).
  - by intros x y s Hx.
  - by intros x s Hx.
  - by intros t s Hx.
  - intros s [= <-]. vm_compute. by repeat split.
  - vm_compute in Et. subst bytes. assert (storage = 65536) as -> by lia. rewrite Hb. reflexivity.
Defined.
Lemma gt_register_spec_witness :
  exists i, gt_register (Some (mkGTImage no_template [] 0 0)) [65] (Some [1; 2; 3; 4]) 4 4 4096 48 true (Some 7) = (true, Some i) /\ declares (gti_tls i) 4120.
Proof.
  pose proof (gt_register_spec (mkGTImage no_template [] 0 0) [65] [1; 2; 3; 4] 4 4 4096 48 true (Some 7) ltac:(cbn; lia) ltac:(lia) ltac:(lia) ltac:(lia)) as Hs.
  destruct (gt_register (Some (mkGTImage no_template [] 0 0)) [65] (Some [1; 2; 3; 4]) 4 4 4096 48 true (Some 7)) as [ok image] eqn:E.
  assert (ok = true) as -> by (apply (f_equal fst) in E; vm_compute in E; by symmetry).
  destruct Hs as (i & -> & _ & _ & Ed & Es & _ & Hdecl). exists i. split; [done|]. apply Hdecl. unfold covers. rewrite Ed, Es. split; [done|]. split; [lia|done].
Defined.
