(* ===== verification/GuestUnwind.v ===== *)
(** * GuestUnwind: where the unwinder finds an image's sections
    (runtime/GuestUnwind.c)

    Images placed outside the system's loader register what the unwinder needs.
    The table is published with a release store of its count, so what another
    thread finds is what some prefix of it holds: here, the list of published
    entries. The system's registration functions are arguments: [None] when the
    symbol is missing, otherwise what the call returned. The last part joins the
    loader's checks of [GuestImage] with those made here. *)
From S2P Require Import Prelude GuestMemory GuestImage.

Definition NG_UNWIND_IMAGES : Z := 65.
Record NGUnwindSections := mkSections { us_header : Z; us_dwarf : Z; us_dwarf_size : Z; us_compact : Z; us_compact_size : Z }.
Record UnwindImage := mkEntry { ui_sections : NGUnwindSections; ui_code : list (Z * Z) }.
(** The published entries, and whether the finder is registered. *)
Record Unwinder := mkUnwinder { uw_images : list UnwindImage; uw_finder : bool }.
Definition no_unwinder : Unwinder := mkUnwinder [] false.

Definition covers (pc : Z) (code : Z * Z) : bool := (code.1 <=? pc) && (pc - code.1 <? code.2).
Definition find_sections (state : Unwinder) (pc : Z) : option NGUnwindSections :=
  ui_sections <$> List.find (fun image => existsb (covers pc) (ui_code image)) (uw_images state).
Definition section_valid (image : GuestImage) (address size slide : Z) : bool :=
  if size =? 0 then address =? 0 else
  if (UINT64_MAX - slide <? address) || (UINT64_MAX - (address + slide) <? size) then false else
  existsb (fun s => negb (Z.land (sg_prot s) GM_READ =? 0) && (sg_address s <=? address) &&
    (address - sg_address s <=? sg_file_size s) && (size <=? sg_file_size s - (address - sg_address s))) (gi_segments image).
(** The executable ranges of the placed image, [None] when one does not fit. *)
Fixpoint code_ranges (segments : list GISegment) (slide : Z) : option (list (Z * Z)) :=
  match segments with
  | [] => Some []
  | s :: segments =>
    if (Z.land (sg_prot s) GM_EXEC =? 0) || (sg_size s =? 0) then code_ranges segments slide else
    if (UINT64_MAX - slide <? sg_address s) || (UINT64_MAX - (sg_address s + slide) <? sg_size s) then None else
    cons (sg_address s + slide, sg_size s) <$> code_ranges segments slide
  end.
Definition placed_sections (image : GuestImage) (slide : Z) : NGUnwindSections :=
  let u := gi_unwind image in
  mkSections (gi_header_address image + slide)
    (if eh_frame_size u =? 0 then 0 else eh_frame_address u + slide) (eh_frame_size u)
    (if unwind_size u =? 0 then 0 else unwind_address u + slide) (unwind_size u).
Definition ng_unwind_add (state : Unwinder) (image : option GuestImage) (slide : Z) (add : option Z) (remove : bool) : bool * Unwinder :=
  match image with
  | None => (false, state)
  | Some image =>
    let u := gi_unwind image in
    if (GI_MAX_SEGMENTS <? Z.of_nat (length (gi_segments image))) || (UINT64_MAX - slide <? gi_header_address image) ||
       negb (section_valid image (unwind_address u) (unwind_size u) slide) ||
       negb (section_valid image (eh_frame_address u) (eh_frame_size u) slide) then (false, state) else
    if (unwind_size u =? 0) && (eh_frame_size u =? 0) then (true, state) else
    if Z.of_nat (length (uw_images state)) =? NG_UNWIND_IMAGES then (false, state) else
    let header := gi_header_address image + slide in
    if existsb (fun entry => us_header (ui_sections entry) =? header) (uw_images state) then (false, state) else
    match code_ranges (gi_segments image) slide with
    | None | Some [] => (false, state)
    | Some code =>
      let entry := mkEntry (placed_sections image slide) code in
      if uw_finder state then (true, mkUnwinder (uw_images state ++ [entry]) true) else
      match add with
      | Some added =>
        if negb remove || negb (added =? 0) then (false, state) else (true, mkUnwinder (uw_images state ++ [entry]) true)
      | None => (false, state)
      end
    end
  end.
(** [removed] is what the system's removal returns. *)
Definition ng_unwind_reset (state : Unwinder) (removed : Z) : bool * Unwinder :=
  if uw_finder state && negb (removed =? 0) then (false, state) else (true, no_unwinder).

(** ** The table *)

Record unwinder_wf (state : Unwinder) : Prop := {
  uw_headers : NoDup ((fun entry => us_header (ui_sections entry)) <$> uw_images state);
  uw_bound : Z.of_nat (length (uw_images state)) <= NG_UNWIND_IMAGES;
  uw_code : Forall (fun entry => ui_code entry <> [] /\ Forall (fun c => 0 < c.2 /\ c.1 + c.2 <= UINT64_MAX) (ui_code entry)) (uw_images state);
  uw_registered : uw_images state <> [] -> uw_finder state = true
}.
(** An address in executable code of the placed image. *)
Definition in_code (image : GuestImage) (slide pc : Z) : Prop :=
  exists s, s ∈ gi_segments image /\ Z.land (sg_prot s) GM_EXEC <> 0 /\ sg_address s + slide <= pc < sg_address s + slide + sg_size s.

Lemma code_ranges_spec segments slide code pc :
  code_ranges segments slide = Some code ->
  Forall (fun s => 0 <= sg_size s) segments ->
  Forall (fun c => 0 < c.2 /\ c.1 + c.2 <= UINT64_MAX) code /\
  (existsb (covers pc) code = true <->
   exists s, s ∈ segments /\ Z.land (sg_prot s) GM_EXEC <> 0 /\ sg_address s + slide <= pc < sg_address s + slide + sg_size s).
Proof.
  revert code. induction segments as [|s segments IH]; intros code; cbn [code_ranges].
  { intros [= <-] _. split; [constructor|]. split; [done|]. intros (s & Hs & _). by apply not_elem_of_nil in Hs. }
  intros Hc Hsize. apply Forall_cons in Hsize as [Hs Hsize]. setoid_rewrite elem_of_cons.
  destruct ((Z.land (sg_prot s) GM_EXEC =? 0) || (sg_size s =? 0)) eqn:Ex.
  - destruct (IH _ Hc Hsize) as [F1 F2]. split; [done|]. rewrite F2. split; [intros (x & Hx & Hp); exists x; by auto|].
    intros (x & [->|Hx] & Hp & Hr); [|by exists x]. destruct (Z.eqb_spec (Z.land (sg_prot s) GM_EXEC) 0); [done|]. cbn [orb] in Ex. bool_props. lia.
  - destruct (_ || _) eqn:Eb in Hc; [done|]. bool_props. apply fmap_Some in Hc as (code' & Hc & ->). destruct (IH _ Hc Hsize) as [F1 F2]. split.
    + constructor; [cbn; lia|done].
    + cbn [existsb]. rewrite orb_true_iff, F2. unfold covers. cbn [fst snd]. rewrite andb_true_iff, Z.leb_le, Z.ltb_lt. split.
      * intros [Hr|(x & Hx & Hp)]; [exists s|exists x]; (split; [by auto|]); [split; [done|lia]|done].
      * intros (x & [->|Hx] & Hp & Hr); [left; lia|]. right. by exists x.
Qed.
Lemma find_sections_app images finder finder' entry pc :
  find_sections (mkUnwinder (images ++ [entry]) finder) pc =
  match find_sections (mkUnwinder images finder') pc with
  | Some sections => Some sections
  | None => if existsb (covers pc) (ui_code entry) then Some (ui_sections entry) else None
  end.
Proof. unfold find_sections. cbn. rewrite find_app. cbn. destruct (List.find _ images); [done|]. by destruct (existsb (covers pc) (ui_code entry)). Qed.

Lemma ng_unwind_add_correct state image slide add remove :
  unwinder_wf state -> Forall (fun s => 0 <= sg_size s) (gi_segments image) ->
  let '(ok, state') := ng_unwind_add state (Some image) slide add remove in
  let u := gi_unwind image in
  unwinder_wf state' /\
  (ok = false \/ unwind_size u = 0 /\ eh_frame_size u = 0 -> state' = state) /\
  (ok = true -> unwind_size u <> 0 \/ eh_frame_size u <> 0 ->
    (exists pc, in_code image slide pc) /\
    forall pc sections, find_sections state' pc = Some sections <->
      find_sections state pc = Some sections \/
      find_sections state pc = None /\ in_code image slide pc /\ sections = placed_sections image slide).
Proof.
  intros Hwf Hsizes. unfold ng_unwind_add. destruct (_ || _ || _ || _) eqn:Eargs; [done|].
  destruct ((unwind_size (gi_unwind image) =? 0) && (eh_frame_size (gi_unwind image) =? 0)) eqn:Enone; [bool_props; split; [done|]; split; [done|lia]|].
  assert (~ (unwind_size (gi_unwind image) = 0 /\ eh_frame_size (gi_unwind image) = 0)) as Hsome.
  { intros [E1 E2]. by rewrite E1, E2 in Enone. }
  destruct (Z.eqb_spec (Z.of_nat (length (uw_images state))) NG_UNWIND_IMAGES) as [|Hroom]; [done|].
  destruct (existsb (fun entry => us_header (ui_sections entry) =? _) (uw_images state)) eqn:Enew; [done|].
  destruct (code_ranges (gi_segments image) slide) as [[|c code]|] eqn:Ecode; [done| |done].
  assert (forall pc, Forall (fun c => 0 < c.2 /\ c.1 + c.2 <= UINT64_MAX) (c :: code) /\ (existsb (covers pc) (c :: code) = true <-> in_code image slide pc)) as Hcode
    by (intros pc; by apply code_ranges_spec).
  set (entry := mkEntry (placed_sections image slide) (c :: code)).
  set (state' := mkUnwinder (uw_images state ++ [entry]) true).
  assert (unwinder_wf state' /\ (exists pc, in_code image slide pc) /\ forall pc sections, find_sections state' pc = Some sections <->
      find_sections state pc = Some sections \/ find_sections state pc = None /\ in_code image slide pc /\ sections = placed_sections image slide) as (Hwf' & Hex & Hfind).
  { split_and!.
    - destruct Hwf. split; cbn; [|rewrite length_app; cbn; lia| |done].
      + rewrite fmap_app. apply NoDup_app. split; [done|]. split; [|apply NoDup_singleton]. intros h Hh Hin. apply list_elem_of_singleton in Hin as ->.
        apply list_elem_of_fmap in Hh as (e & Ee & He). apply not_true_iff_false in Enew. apply Enew. apply existsb_exists. exists e.
        split; [by apply list_elem_of_In|]. apply Z.eqb_eq. by symmetry.
      + apply Forall_app. split; [done|]. constructor; [|done]. split; [done|]. apply (Hcode 0).
    - exists c.1. apply Hcode. cbn. destruct (Hcode 0) as [Hc _]. apply Forall_cons in Hc as [[Hc _] _]. unfold covers.
      by rewrite Z.leb_refl, (proj2 (Z.ltb_lt _ _)) by lia.
    - intros pc sections. unfold state'. rewrite (find_sections_app _ _ (uw_finder state)). cbn [ui_code ui_sections entry].
      replace (mkUnwinder (uw_images state) (uw_finder state)) with state by by destruct state.
      destruct (Hcode pc) as [_ Hc]. destruct (find_sections state pc) as [found|]; [split; [by left|by intros [|[? _]]]|].
      change (ui_code entry) with (c :: code). destruct (existsb (covers pc) (c :: code)); cbn in *.
      + split; [intros [= <-]; right; split; [done|]; split; [by apply Hc|done]|by intros [|(_ & _ & ->)]].
      + split; [done|]. intros [|(_ & Hin & _)]; [done|]. by apply Hc in Hin. }
  destruct (uw_finder state); [|destruct add as [added|]; [destruct (negb remove || negb (added =? 0))|]].
  all: split; [done|]; split; [first [done|by intros [?|?]]|first [done|by intros _ _]].
Qed.
(** Registration is all or nothing. A refused image leaves what the unwinder
    finds as it was, an accepted one adds exactly the addresses of its executable
    segments that no image registered before covers, with its own sections; the
    table stays within its bound and names no image twice. *)
Theorem ng_unwind_add_spec state image slide add remove :
  unwinder_wf state -> Forall (fun s => 0 <= sg_size s) (gi_segments image) ->
  let '(ok, state') := ng_unwind_add state (Some image) slide add remove in
  let u := gi_unwind image in
  unwinder_wf state' /\
  (ok = false \/ unwind_size u = 0 /\ eh_frame_size u = 0 -> state' = state) /\
  (ok = true -> unwind_size u <> 0 \/ eh_frame_size u <> 0 ->
    (exists pc, in_code image slide pc) /\
    forall pc sections, find_sections state' pc = Some sections <->
      find_sections state pc = Some sections \/
      find_sections state pc = None /\ in_code image slide pc /\ sections = placed_sections image slide).
Proof. apply ng_unwind_add_correct. Qed.

(** ** Runs of the table *)

Lemma no_unwinder_wf : unwinder_wf no_unwinder.
Proof. split; cbn; [apply NoDup_nil_2|unfold NG_UNWIND_IMAGES; lia|apply Forall_nil_2|done]. Qed.

Inductive UnwindCall :=
  | AddImage (image : GuestImage) (slide : Z) (add : option Z) (remove : bool)
  | ResetImages (removed : Z).
Definition unwind_call (state : Unwinder) (call : UnwindCall) : Unwinder :=
  match call with
  | AddImage image slide add remove => (ng_unwind_add state (Some image) slide add remove).2
  | ResetImages removed => (ng_unwind_reset state removed).2
  end.
Lemma add_wf state image slide add remove :
  unwinder_wf state -> Forall (fun s => 0 <= sg_size s) (gi_segments image) -> unwinder_wf (ng_unwind_add state (Some image) slide add remove).2.
Proof.
  intros Hwf Hs. pose proof (ng_unwind_add_correct state image slide add remove Hwf Hs) as H.
  destruct (ng_unwind_add _ _ _ _ _) as [ok state']. apply H.
Qed.
(** The table is well formed after any calls, and a refused reset leaves it. *)
Theorem unwind_calls_wf calls :
  Forall (fun call => match call with AddImage image _ _ _ => Forall (fun s => 0 <= sg_size s) (gi_segments image) | _ => True end) calls ->
  unwinder_wf (foldl unwind_call no_unwinder calls).
Proof.
  pose proof no_unwinder_wf as H0. revert H0. generalize no_unwinder. induction calls as [|call calls IH]; intros state Hwf Hall; [done|].
  apply Forall_cons in Hall as [Hc Hall]. apply IH; [|done]. destruct call as [image slide add remove|removed]; cbn [unwind_call].
  - by apply add_wf.
  - unfold ng_unwind_reset. destruct (_ && _); [done|apply no_unwinder_wf].
Qed.

(** An image with a page of code and its unwind information in it. *)
Definition example_unwind_image : GuestImage :=
  mkImage (gi_memory gi_empty) [mkSegment [] 4096 4096 0 4096 5 5] 0 4096 4096 0 0 4096 4096 no_dyld 2 None None 4096 0
    (mkUnwind 5000 64 0 0) no_tls [] [] false false [].
Lemma ng_unwind_add_spec_witness :
  exists state, ng_unwind_add no_unwinder (Some example_unwind_image) 65536 (Some 0) true = (true, state) /\
    find_sections state (65536 + 4100) = Some (placed_sections example_unwind_image 65536).
Proof.
  assert (Forall (fun s => 0 <= sg_size s) (gi_segments example_unwind_image)) as Hs by (repeat constructor; cbn; lia).
  pose proof (ng_unwind_add_spec no_unwinder example_unwind_image 65536 (Some 0) true no_unwinder_wf Hs) as H.
  destruct (ng_unwind_add no_unwinder (Some example_unwind_image) 65536 (Some 0) true) as [ok state] eqn:E.
  assert (ok = true) as -> by (apply (f_equal fst) in E; vm_compute in E; by symmetry).
  exists state. split; [done|]. destruct H as [_ [_ H]]. destruct H as [_ H]; [done|left; cbn; lia|].
  apply H. right. split; [done|]. split; [|done]. eexists. split; [by left|]. split; [done|cbn; lia].
Defined.
(** ** The images the loader accepts

    What [GuestImage] checks of the two sections is what the registration asks:
    a loaded image is refused only for its place, or for a table that is full. *)

(** The file has a section header of a name, address and size. *)
Definition section_header (f title : list Z) (a n : Z) : Prop :=
  exists at_ b, read_at f at_ 80 = Some b /\ c_string (slice 0 16 b) = title /\ le64 b 32 = a /\ le64 b 40 = n.
(** A section the loader recorded: none, or one of the file with that name whose
    bytes lie in the readable [__TEXT]. *)
Definition in_text (f title : list Z) (segments : list GISegment) (a n : Z) : Prop :=
  (a = 0 /\ n = 0) \/
  (0 < n /\ section_header f title a n /\ exists s, s ∈ segments /\ sg_name s = str_TEXT /\ Z.land (sg_prot s) GM_READ <> 0 /\
    sg_address s <= a /\ a - sg_address s + n <= sg_file_size s).
Definition unwind_in_text (f : list Z) (segments : list GISegment) (u : Unwind) : Prop :=
  in_text f str_unwind_info segments (unwind_address u) (unwind_size u) /\
  in_text f str_eh_frame segments (eh_frame_address u) (eh_frame_size u).
Lemma in_text_app f title segments more a n : in_text f title segments a n -> in_text f title (segments ++ more) a n.
Proof. intros [?|(Hn & Hf & s & Hs & H)]; [by left|]. right. split; [done|]. split; [done|]. exists s. split; [|done]. apply elem_of_app. by left. Qed.

Definition same_unwind (c c' : Commands) : Prop := cm_unwind c' = cm_unwind c /\ cm_segments c' = cm_segments c.
Lemma section_init_unwind b c c' : section_init b c = Some c' -> same_unwind c c'.
Proof. unfold section_init. intros H. layout H. Qed.
Lemma section_tls_unwind b c c' : section_tls b c = Some c' -> same_unwind c c'.
Proof.
  unfold section_tls. intros H. returned H. cbv zeta in H. apply bad_Some in H as [_ [= <-]].
  unfold section_tls_template in Hget. cbv zeta in Hget. layout Hget.
Qed.
Definition command_unwind_ok (f : list Z) (c : Commands) : Prop := unwind_in_text f (cm_segments c) (cm_unwind c).
Lemma section_unwind_ok f at_ slice_size s b c c' :
  read_at f at_ 80 = Some b ->
  Forall byte_ok s -> Forall byte_ok b -> segment_of s ∈ cm_segments c -> command_unwind_ok f c ->
  load_section slice_size s b c = Some c' -> command_unwind_ok f c' /\ cm_segments c' = cm_segments c.
Proof.
  intros Hread Hs Hb Hin Hok. unfold load_section. cbv zeta. intros H. returned H. returned H. returned H. returned H. rename v into c1, v0 into c2.
  apply section_init_unwind in Hget as [Eu1 Es1]. apply section_tls_unwind in H as [Eu2 Es2].
  unfold command_unwind_ok in *. rewrite Eu2, Es2.
  rewrite <- Eu1, <- Es1 in Hok. rewrite <- Es1 in *. clear Es1 Eu1 Eu2 Es2.
  unfold section_unwind in Hget0. cbv zeta in Hget0.
  destruct (named (slice 0 16 b) str_unwind_info || named (slice 0 16 b) str_eh_frame) eqn:En; [|by injection Hget0 as <-].
  returned Hget0.
  assert (forall title, named (slice 0 16 b) title = true -> in_text f title (cm_segments c1) (sc_addr b) (sc_size b)) as Hnew.
  { intros title Htitle%bool_decide_eq_true. apply orb_false_iff in Hok2 as [Hok2 Hsize]. apply orb_false_iff in Hok2 as [Hok2 Htype]. apply orb_false_iff in Hok2 as [Hname Hprot].
    assert (sc_type b = S_REGULAR \/ sc_type b = S_COALESCED) as Ht.
    { destruct (Z.eqb_spec (sc_type b) S_REGULAR); [by left|]. destruct (Z.eqb_spec (sc_type b) S_COALESCED); [by right|].
      rewrite andb_false_r in Htype. done. }
    assert (negb (sc_type b =? S_ZEROFILL) && negb (sc_type b =? S_GB_ZEROFILL) && negb (sc_type b =? S_THREAD_LOCAL_ZEROFILL) = true) as Hfile
      by (by destruct Ht as [-> | ->]).
    rewrite Hfile in Hok1. cbn [andb] in Hok1. bool_props.
    pose proof (le64_range b 40 Hb) as Hn. change (le64 b 40) with (sc_size b) in Hn.
    right. split; [lia|]. split; [by exists at_, b|]. exists (segment_of s). split; [done|]. split; [by apply bool_decide_eq_true in Hname|].
    split; [done|]. cbn [segment_of sg_address sg_file_size].
    assert (sc_offset b - le64 s 40 + sc_size b <= le64 s 48) by (apply within_true; [done|lia]). lia. }
  destruct Hok as [Hc Hd].
  destruct (named (slice 0 16 b) str_unwind_info) eqn:Ec; returned Hget0; injection Hget0 as <-; (split; [|done]).
  - split; [by apply Hnew|exact Hd].
  - split; [exact Hc|by apply Hnew].
Qed.
Lemma section_loop_unwind n f at_ slice_size s c c' :
  Forall byte_ok f -> Forall byte_ok s -> segment_of s ∈ cm_segments c -> command_unwind_ok f c ->
  section_loop n f at_ slice_size s c = Some c' -> command_unwind_ok f c'.
Proof.
  intros Hf Hs. revert at_ c. induction n as [|n IH]; intros at_ c Hin Hok; cbn [section_loop]; [by intros [= <-]|].
  intros H. returned H. returned H. apply (section_unwind_ok f at_) in Hget0 as [Hok' E]; [|done|done|eapply read_at_bytes; [exact Hf|exact Hget]|done|done].
  eapply IH; [|exact Hok'|exact H]. by rewrite E.
Qed.
Lemma load_command_unwind ok f at_ slice_size cmd cmdsize commands_end c c' :
  Forall byte_ok f -> load_command ok f at_ slice_size cmd cmdsize commands_end c = Some c' ->
  command_unwind_ok f c -> command_unwind_ok f c'.
Proof.
  intros Hf H Hc. unfold load_command in H. destruct (cmd =? LC_SEGMENT_64).
  - unfold load_segment in H. do 4 returned H. cbv zeta in H. returned H. returned H.
    assert (command_unwind_ok f (set_segments c (cm_segments c ++ [segment_of v]))) as Hc'
      by (destruct Hc; split; by apply in_text_app).
    eapply section_loop_unwind in H; [done|done|eapply read_at_bytes; [exact Hf|exact Hget]| |destruct (named _ _); exact Hc'].
    destruct (named _ _); apply elem_of_app; right; by constructor.
  - assert (same_unwind c c') as [Eu Es]; [|unfold command_unwind_ok; by rewrite Eu, Es].
    repeat match type of H with (if ?b then _ else _) = Some _ => destruct b end.
    + unfold load_dylib in H. layout H.
    + unfold load_rpath in H. layout H.
    + unfold load_main in H. layout H.
    + unfold load_dyld_info in H. returned H. returned H. returned H. cbv zeta in H. layout H.
    + unfold load_exports_trie in H. layout H.
    + unfold load_chained in H. layout H.
    + unfold load_encryption in H. layout H.
    + by injection H as ->.
Qed.
Lemma command_loop_unwind ok n f slice slice_size commands_end cursor c cursor' c' :
  Forall byte_ok f -> command_loop ok n f slice slice_size commands_end cursor c = Some (cursor', c') ->
  command_unwind_ok f c -> command_unwind_ok f c'.
Proof.
  intros Hf. revert cursor c. induction n as [|n IH]; intros cursor c; cbn [command_loop]; [by intros [= <- <-]|].
  intros H Hc. returned H. returned H. cbv zeta in H. returned H. returned H.
  eapply IH; [exact H|]. by eapply load_command_unwind.
Qed.
Lemma load_unwind ok f file_type image :
  Forall byte_ok f -> load ok f file_type = Some image -> unwind_in_text f (gi_segments image) (gi_unwind image).
Proof.
  intros Hf H. unfold load in H. returned H. destruct v as [sl slice_size]. returned H. returned H. rename v0 into c.
  returned H. returned H. destruct v1 as [[m mapped] backed]. returned H. cbv zeta in H.
  destruct (default (false, 0, 0) (cm_init c)) as [[offsets init_address] init_size].
  returned H. destruct v2 as [[first initializers] m1]. apply bind_Some in H as (m2 & _ & H). injection H as <-.
  unfold load_commands in Hget1. returned Hget1. destruct v2 as [cursor c']. returned Hget1. injection Hget1 as ->.
  eapply command_loop_unwind; [done|exact Hget6|]. split; by left.
Qed.

Lemma section_valid_in_text f title image a n slide :
  in_text f title (gi_segments image) a n -> Forall (fun s => sg_file_size s <= sg_size s) (gi_segments image) ->
  Forall (fun s => sg_address s + sg_size s + slide <= UINT64_MAX) (gi_segments image) -> section_valid image a n slide = true.
Proof.
  intros [[-> ->]|(Hn & _ & s & Hs & _ & Hr & Ha & Hfile)] Hsize Hplace; [done|]. unfold section_valid.
  rewrite (proj2 (Z.eqb_neq n 0)) by lia. rewrite Forall_forall in Hsize, Hplace. specialize (Hsize s Hs). specialize (Hplace s Hs).
  replace (UINT64_MAX - slide <? a) with false by (symmetry; apply Z.ltb_ge; lia).
  replace (UINT64_MAX - (a + slide) <? n) with false by (symmetry; apply Z.ltb_ge; lia). cbn [orb].
  apply existsb_exists. exists s. split; [by apply list_elem_of_In|]. rewrite (proj2 (Z.eqb_neq _ _) Hr).
  cbn [negb andb]. rewrite !andb_true_iff, !Z.leb_le. lia.
Qed.
Lemma code_ranges_fit segments slide :
  Forall (fun s => 0 <= sg_size s) segments -> Forall (fun s => sg_address s + sg_size s + slide <= UINT64_MAX) segments ->
  exists code, code_ranges segments slide = Some code.
Proof.
  induction segments as [|s segments IH]; [by exists []|]. intros [Hs Hsizes]%Forall_cons [Hp Hplaces]%Forall_cons. cbn [code_ranges].
  destruct (IH Hsizes Hplaces) as [code ->]. destruct (_ || _); [by exists code|].
  replace (UINT64_MAX - slide <? sg_address s) with false by (symmetry; apply Z.ltb_ge; lia).
  replace (UINT64_MAX - (sg_address s + slide) <? sg_size s) with false by (symmetry; apply Z.ltb_ge; lia). by eexists.
Qed.

(** Where the placed image has to fit, and what the table has to have left. *)
Record may_register (state : Unwinder) (image : GuestImage) (slide : Z) (add : option Z) (remove : bool) : Prop := {
  mr_wf : unwinder_wf state;
  mr_slide : 0 <= slide;
  mr_place : Forall (fun s => sg_address s + sg_size s + slide <= UINT64_MAX) (gi_segments image);
  mr_room : Z.of_nat (length (uw_images state)) < NG_UNWIND_IMAGES;
  mr_new : gi_header_address image + slide ∉ (fun entry => us_header (ui_sections entry)) <$> uw_images state;
  mr_system : uw_finder state = true \/ add = Some 0 /\ remove = true
}.
Lemma ng_unwind_add_loaded ok f file_type image state slide add remove :
  Forall byte_ok f -> load ok f file_type = Some image -> may_register state image slide add remove ->
  Forall (fun s => 0 <= sg_size s) (gi_segments image) /\
  exists state', ng_unwind_add state (Some image) slide add remove = (true, state').
Proof.
  intros Hf Hload [Hwf Hslide Hplace Hroom Hnew Hsystem].
  pose proof (load_unwind _ _ _ _ Hf Hload) as [Hc Hd].
  destruct (load_loaded _ _ _ _ Hf Hload) as (slice_size & c & m & Hl).
  destruct (ld_layout _ _ _ _ _ _ _ Hl) as [Hsegs Hcount _ Htext].
  rewrite <- (ld_segments _ _ _ _ _ _ _ Hl) in *. destruct (Htext _ (ld_header _ _ _ _ _ _ _ Hl)) as (t & Ht & _ & Eaddr & _ & Hcmds & Hexec).
  assert (Forall (fun s => 0 <= sg_size s) (gi_segments image)) as Hsizes by (eapply Forall_impl; [exact Hsegs|by intros s []]).
  assert (Forall (fun s => sg_file_size s <= sg_size s) (gi_segments image)) as Hfiles by (eapply Forall_impl; [exact Hsegs|by intros s []]).
  split; [done|].
  assert (exists c0 code, code_ranges (gi_segments image) slide = Some (c0 :: code)) as (c0 & code & Ecode).
  { destruct (code_ranges_fit (gi_segments image) slide Hsizes Hplace) as [[|c0 code] E]; [|by exists c0, code]. exfalso.
    destruct (code_ranges_spec _ _ _ (sg_address t + slide) E Hsizes) as [_ [_ Hin]].
    rewrite Forall_forall in Hfiles. specialize (Hfiles t Ht).
    cut (existsb (covers (sg_address t + slide)) [] = true); [done|]. apply Hin. exists t. split; [done|]. split; [done|].
    assert (0 <= le32 (slice (Z.to_nat (gi_slice_offset image)) 32 f) 20) by (apply le32_range, Forall_take, Forall_drop, Hf). lia. }
  unfold ng_unwind_add. rewrite (section_valid_in_text _ _ _ _ _ _ Hc Hfiles Hplace), (section_valid_in_text _ _ _ _ _ _ Hd Hfiles Hplace).
  replace (GI_MAX_SEGMENTS <? _) with false by (symmetry; apply Z.ltb_ge; done).
  rewrite Forall_forall in Hplace. pose proof (Hplace t Ht). rewrite Forall_forall in Hsizes. pose proof (Hsizes t Ht).
  replace (UINT64_MAX - slide <? gi_header_address image) with false by (symmetry; apply Z.ltb_ge; lia). cbn [orb negb].
  destruct (_ && _); [by eexists|].
  rewrite (proj2 (Z.eqb_neq _ _)) by lia.
  destruct (existsb _ _) eqn:Ee.
  { exfalso. apply Hnew. apply existsb_exists in Ee as (e & He%list_elem_of_In & Eh%Z.eqb_eq). rewrite <- Eh. by apply (list_elem_of_fmap_2 (fun entry => us_header (ui_sections entry))). }
  rewrite Ecode. destruct Hsystem as [-> | [-> ->]]; [by eexists|]. cbn. destruct (uw_finder state); by eexists.
Qed.
Lemma in_text_readable ok f file_type image title a n x :
  Forall byte_ok f -> load ok f file_type = Some image -> in_text f title (gi_segments image) a n -> a <= x < a + n ->
  exists c, cell (gi_memory image) x = Some c /\ Z.land (c_prot c) GM_READ <> 0.
Proof.
  intros Hf Hload [[-> ->]|(Hn & _ & s & Hs & Hname & Hr & Ha & Hfile)] Hx; [lia|].
  destruct (load_loaded _ _ _ _ Hf Hload) as (slice_size & c & m & Hl).
  pose proof (lo_segments _ _ _ (ld_layout _ _ _ _ _ _ _ Hl)) as Hsegs. rewrite Forall_forall in Hsegs.
  destruct (ld_memory _ _ _ _ _ _ _ Hl) as (_ & _ & Hsame). rewrite (ld_segments _ _ _ _ _ _ _ Hl) in Hs. pose proof (so_fits _ _ (Hsegs s Hs)).
  exists (segment_cell f (gi_slice_offset image) s x). split; [|done].
  rewrite Hsame, (ld_cells _ _ _ _ _ _ _ Hl). apply image_cell_inside; [apply (ld_separate _ _ _ _ _ _ _ Hl)|done| |lia].
  unfold pagezero. by rewrite Hname.
Qed.
(** One section as the unwinder is told of it: nothing for an image without it,
    otherwise the placed address of the file's section of that name, whose bytes
    are readable memory of the loaded image. *)
Definition told (f : list Z) (image : GuestImage) (slide : Z) (title : list Z) (recorded a n : Z) : Prop :=
  n = recorded /\
  (n = 0 /\ a = 0 \/
   0 < n /\ section_header f title (a - slide) n /\
   forall x, a <= x < a + n -> exists c, cell (gi_memory image) (x - slide) = Some c /\ Z.land (c_prot c) GM_READ <> 0).
Record own_sections (f : list Z) (image : GuestImage) (slide : Z) (sections : NGUnwindSections) : Prop := {
  ow_header : us_header sections = gi_header_address image + slide;
  ow_compact : told f image slide str_unwind_info (unwind_size (gi_unwind image)) (us_compact sections) (us_compact_size sections);
  ow_dwarf : told f image slide str_eh_frame (eh_frame_size (gi_unwind image)) (us_dwarf sections) (us_dwarf_size sections)
}.
Lemma in_text_told ok f file_type image slide title a n :
  Forall byte_ok f -> load ok f file_type = Some image -> in_text f title (gi_segments image) a n ->
  told f image slide title n (if n =? 0 then 0 else a + slide) n.
Proof.
  intros Hf Hload Hin. split; [done|]. destruct (Z.eqb_spec n 0) as [|Hn]; [by left|].
  destruct Hin as [[_ ?]|Hin]; [done|]. pose proof Hin as (Hpos & Hheader & _).
  right. split; [done|]. split; [by rewrite Z.add_simpl_r|]. intros x Hx.
  apply (in_text_readable ok f file_type image title a n); [done|done|by right|lia].
Qed.
Lemma placed_own ok f file_type image slide :
  Forall byte_ok f -> load ok f file_type = Some image -> own_sections f image slide (placed_sections image slide).
Proof.
  intros Hf Hload. destruct (load_unwind _ _ _ _ Hf Hload) as [Hc Hd].
  split; [done|by eapply in_text_told|by eapply in_text_told].
Qed.
(** C36: an image the loader accepts is registered whenever it fits its place and the
    table has room: from then on every address of its code that no earlier image
    covers is answered with its own sections, at their placed addresses: the
    compact unwind information is the file's [__unwind_info] and the DWARF part
    its [__eh_frame], both readable memory of the loaded image. Every earlier
    answer stays. *)
Theorem loaded_image_unwinds ok f file_type image state slide add remove :
  Forall byte_ok f -> load ok f file_type = Some image -> may_register state image slide add remove ->
  let u := gi_unwind image in
  exists state', ng_unwind_add state (Some image) slide add remove = (true, state') /\ unwinder_wf state' /\
    (unwind_size u <> 0 \/ eh_frame_size u <> 0 -> forall pc, in_code image slide pc -> find_sections state pc = None ->
      exists sections, find_sections state' pc = Some sections /\ own_sections f image slide sections) /\
    (forall pc sections, find_sections state pc = Some sections -> find_sections state' pc = Some sections).
Proof.
  intros Hf Hload Hmay u. destruct (ng_unwind_add_loaded _ _ _ _ _ _ _ _ Hf Hload Hmay) as (Hsizes & state' & E).
  pose proof (ng_unwind_add_correct state image slide add remove (mr_wf _ _ _ _ _ Hmay) Hsizes) as H. rewrite E in H.
  destruct H as (Hwf & Hsame & Hfind). exists state'. split; [done|]. split; [done|]. split.
  - intros Hu pc Hpc Hnone. exists (placed_sections image slide). split; [|by eapply placed_own].
    apply (proj2 (Hfind eq_refl Hu)). by right.
  - intros pc sections Hs. destruct (Z.eq_dec (unwind_size u) 0), (Z.eq_dec (eh_frame_size u) 0).
    1: by rewrite Hsame by (by right).
    all: refine (proj2 (proj2 (Hfind eq_refl _) pc sections) _); [tauto|by left].
Qed.

(** An executable whose text has its unwind information behind one instruction. *)
Definition example_unwind_file : list Z :=
  concat [le_bytes 4 0xfeedfacf; le_bytes 4 CPU_TYPE_ARM64; le_bytes 4 0; le_bytes 4 MH_EXECUTE;
          le_bytes 4 2; le_bytes 4 176; le_bytes 8 0;
          le_bytes 4 LC_SEGMENT_64; le_bytes 4 152; str_TEXT ++ replicate 10 0;
          le_bytes 8 0x100000000; le_bytes 8 0x4000; le_bytes 8 0; le_bytes 8 220;
          le_bytes 4 5; le_bytes 4 5; le_bytes 4 1; le_bytes 4 0;
          str_unwind_info ++ replicate 3 0; str_TEXT ++ replicate 10 0; le_bytes 8 0x1000000d4; le_bytes 8 8;
          le_bytes 4 212; le_bytes 4 2; le_bytes 8 0; le_bytes 4 0; le_bytes 4 0; le_bytes 8 0;
          le_bytes 4 LC_MAIN; le_bytes 4 24; le_bytes 8 208; le_bytes 8 0;
          le_bytes 4 0xd65f03c0; le_bytes 8 1].
Definition example_loaded : option GuestImage := load always example_unwind_file MH_EXECUTE.
Lemma example_unwind_file_ok : Forall byte_ok example_unwind_file.
Proof.
  assert (forallb (fun b => (0 <=? b) && (b <? 256)) example_unwind_file = true) as H by (vm_compute; reflexivity).
  rewrite forallb_forall in H. apply Forall_forall. intros x Hx%list_elem_of_In. specialize (H x Hx). unfold byte_ok. lia.
Qed.
Lemma example_loaded_unwind : gi_unwind <$> example_loaded = Some (mkUnwind 0x1000000d4 8 0 0).
Proof. vm_compute. reflexivity. Qed.
Lemma example_loaded_segments : gi_segments <$> example_loaded = Some [mkSegment str_TEXT 0x100000000 0x4000 0 220 5 5].
Proof. vm_compute. reflexivity. Qed.
Lemma loaded_image_unwinds_witness :
  exists image state' sections, example_loaded = Some image /\
    ng_unwind_add no_unwinder (Some image) 0x4000 (Some 0) true = (true, state') /\
    find_sections state' 0x1000040d0 = Some sections /\ us_compact sections = 0x1000040d4 /\ us_compact_size sections = 8 /\
    section_header example_unwind_file str_unwind_info 0x1000000d4 8 /\
    exists c, cell (gi_memory image) 0x1000000d4 = Some c /\ Z.land (c_prot c) GM_READ <> 0.
Proof.
  destruct (fmap_Some_1 _ _ _ example_loaded_unwind) as (image & Hload & Hu).
  pose proof example_loaded_segments as Hs. rewrite Hload in Hs. injection Hs as Hs.
  destruct (loaded_image_unwinds always example_unwind_file MH_EXECUTE image no_unwinder 0x4000 (Some 0) true
    example_unwind_file_ok Hload) as (state' & E & _ & Hfind & _).
  { split; [apply no_unwinder_wf|done|rewrite Hs; constructor; [done|constructor]|done|by apply not_elem_of_nil|by right]. }
  rewrite <- Hu in Hfind. destruct (Hfind ltac:(by left) 0x1000040d0) as (sections & Hsections & [_ [Hsize Htold] _]).
  { eexists. split; [rewrite Hs; by left|]. split; [done|cbn; lia]. }
  { reflexivity. }
  rewrite <- Hu in Hsize. cbn [unwind_size] in Hsize. rewrite Hsize in Htold.
  destruct Htold as [[]|(_ & (at_ & b & Hread & Hname & Haddr & Hn) & Hread')]; [done|].
  assert (us_compact sections = 0x1000040d4) as Hcompact.
  { assert (us_compact <$> find_sections (ng_unwind_add no_unwinder example_loaded 0x4000 (Some 0) true).2 0x1000040d0 = Some 0x1000040d4) as H
      by (vm_compute; reflexivity).
    rewrite Hload, E in H. cbn [snd] in H. rewrite Hsections in H. by injection H. }
  rewrite Hcompact in *. exists image, state', sections. split_and!; try done; [by exists at_, b|apply (Hread' 0x1000040d4); lia].
Defined.
