(* ===== verification/GuestWrap.v ===== *)
(** * GuestWrap: function pointers that are logged (runtime/GuestWrap.c)

    A function the guest looks up by name can be handed out as a trampoline of a
    table, which asks for its target and says when it returned. The trampolines
    are assembly: slot [n] is at eight times [n] in the table, an argument here.
    The state is the used slots; a call answers its target, zero for null, and
    whether a line is logged. The text of the lines is left out. *)
From S2P Require Import Prelude.

Definition GW_SLOTS : Z := 64.
Definition GW_LOGGED : Z := 64.
Record Slot := mkSlot { sl_name : list Z; sl_target : Z; sl_calls : Z }.

Section wrap.
Context (gw_slot_table : Z).
Definition slot_address (slot : nat) : Z := gw_slot_table + Z.of_nat slot * 8.
(** The first slot of a name and target. *)
Fixpoint find_slot (slots : list Slot) (name : list Z) (target : Z) : option nat :=
  match slots with
  | [] => None
  | slot :: slots => if (sl_target slot =? target) && bool_decide (sl_name slot = name) then Some O else S <$> find_slot slots name target
  end.
(** [None] is a null name; [copied] is whether its copy could be allocated. *)
Definition gw_wrap (slots : list Slot) (name : option (list Z)) (target : Z) (copied : bool) : Z * list Slot :=
  match name with
  | None => (target, slots)
  | Some name =>
    if target =? 0 then (target, slots) else
    match find_slot slots name target with
    | Some slot => (slot_address slot, slots)
    | None =>
      if Z.of_nat (length slots) =? GW_SLOTS then (target, slots) else
      if negb copied then (target, slots) else (slot_address (length slots), slots ++ [mkSlot name target 0])
    end
  end.
Definition gw_enter (slots : list Slot) (slot : nat) : Z * bool * list Slot :=
  match slots !! slot with
  | None => (0, false, slots)
  | Some s =>
    if (GW_SLOTS <=? Z.of_nat slot) || (sl_target s =? 0) then (0, false, slots) else
    let call := w64 (sl_calls s + 1) in
    (sl_target s, call <=? GW_LOGGED, <[slot := mkSlot (sl_name s) (sl_target s) call]> slots)
  end.
(** Whether the return is logged. *)
Definition gw_returned (slots : list Slot) (slot : nat) : bool :=
  match slots !! slot with
  | None => false
  | Some s => if (GW_SLOTS <=? Z.of_nat slot) || (sl_target s =? 0) then false else sl_calls s <=? GW_LOGGED
  end.
Definition gw_used (slots : list Slot) : Z := Z.of_nat (length slots).
Definition gw_reset (slots : list Slot) : list Slot := [].

(** ** What a slot stands for *)

Definition function_of (slot : Slot) : list Z * Z := (sl_name slot, sl_target slot).
Record slots_wf (slots : list Slot) : Prop := {
  sw_once : NoDup (function_of <$> slots);
  sw_bound : gw_used slots <= GW_SLOTS;
  sw_target : Forall (fun s => sl_target s <> 0) slots
}.

Lemma find_slot_Some slots name target i :
  find_slot slots name target = Some i -> exists s, slots !! i = Some s /\ function_of s = (name, target).
Proof.
  revert i. induction slots as [|s slots IH]; intros i; cbn; [done|].
  destruct (Z.eqb_spec (sl_target s) target) as [<-|]; cbn [andb].
  - case_bool_decide as En; [intros [= <-]; exists s; subst; by split|]. intros (j & Hj & ->)%fmap_Some. by apply IH.
  - intros (j & Hj & ->)%fmap_Some. by apply IH.
Qed.
Lemma find_slot_None slots name target : find_slot slots name target = None -> (name, target) ∉ function_of <$> slots.
Proof.
  induction slots as [|s slots IH]; cbn; [intros _; apply not_elem_of_nil|].
  destruct (Z.eqb_spec (sl_target s) target) as [Et|Et]; cbn [andb].
  - case_bool_decide as En; [done|]. intros Hn%fmap_None. rewrite not_elem_of_cons. split; [by intros [= -> _]|by apply IH].
  - intros Hn%fmap_None. rewrite not_elem_of_cons. split; [by intros [= _ ->]|by apply IH].
Qed.
Lemma enter_target slots slot s :
  slots_wf slots -> slots !! slot = Some s -> (gw_enter slots slot).1.1 = sl_target s.
Proof.
  intros [_ Hb Ht] Hs. unfold gw_enter. rewrite Hs. pose proof (lookup_lt_Some _ _ _ Hs). unfold gw_used in Hb.
  rewrite (proj2 (Z.leb_gt _ _)) by lia. by rewrite (proj2 (Z.eqb_neq _ _)) by (by eapply Forall_lookup_1 in Ht).
Qed.
Lemma function_once slots i j s s' :
  slots_wf slots -> slots !! i = Some s -> slots !! j = Some s' -> function_of s = function_of s' -> i = j.
Proof.
  intros [Hn _ _] Hi Hj E. eapply NoDup_lookup; [exact Hn|by rewrite list_lookup_fmap, Hi|rewrite list_lookup_fmap, Hj; cbn; by rewrite E].
Qed.
Lemma gw_wrap_correct slots name target copied :
  slots_wf slots ->
  let '(address, slots') := gw_wrap slots name target copied in
  slots_wf slots' /\ slots `prefix_of` slots' /\
  (address = target /\ slots' = slots /\ (name = None \/ target = 0 \/ copied = false \/ gw_used slots = GW_SLOTS) \/
   exists n slot s, name = Some n /\ address = slot_address slot /\ slots' !! slot = Some s /\ function_of s = (n, target)).
Proof.
  intros Hwf. unfold gw_wrap. destruct name as [n|]; [|split; [done|]; split; [done|]; left; by auto].
  destruct (Z.eqb_spec target 0); [split; [done|]; split; [done|]; left; by auto|].
  destruct (find_slot slots n target) as [slot|] eqn:Ef.
  { apply find_slot_Some in Ef as (s & Hs & E). split; [done|]. split; [done|]. right. by exists n, slot, s. }
  apply find_slot_None in Ef. destruct (Z.eqb_spec (Z.of_nat (length slots)) GW_SLOTS); [split; [done|]; split; [done|]; left; split; [done|]; split; [done|]; by do 3 right|].
  destruct copied; cbn [negb]; [|split; [done|]; split; [done|]; left; split; [done|]; split; [done|]; by do 2 right; left]. destruct Hwf as [Hn Hb Ht]. split; [split|split].
  - rewrite fmap_app. apply NoDup_app. split; [done|]. split; [|apply NoDup_singleton]. intros x Hx ->%list_elem_of_singleton. done.
  - unfold gw_used in *. rewrite length_app. cbn. lia.
  - apply Forall_app. by repeat constructor.
  - by eexists.
  - right. exists n, (length slots), (mkSlot n target 0). split_and!; try done. by rewrite lookup_app_r, Nat.sub_diag by lia.
Qed.
(** what is handed out for a function always calls it: either the function
    itself, or the trampoline of a slot of its own, the same one for the same name
    and target and never one of another function. *)
Theorem gw_wrap_spec slots name target copied :
  slots_wf slots ->
  let '(address, slots') := gw_wrap slots name target copied in
  slots_wf slots' /\ slots `prefix_of` slots' /\
  (address = target /\ slots' = slots /\ (name = None \/ target = 0 \/ copied = false \/ gw_used slots = GW_SLOTS) \/
   exists n slot s, name = Some n /\ address = slot_address slot /\ slots' !! slot = Some s /\ function_of s = (n, target) /\
     (gw_enter slots' slot).1.1 = target /\
     forall other s', slots' !! other = Some s' -> function_of s' = (n, target) -> other = slot).
Proof.
  intros Hwf. pose proof (gw_wrap_correct slots name target copied Hwf) as H. destruct (gw_wrap _ _ _ _) as [address slots'].
  destruct H as (Hwf' & Hp & H). split; [done|]. split; [done|]. destruct H as [H|(n & slot & s & -> & -> & Hs & E)]; [by left|]. right.
  exists n, slot, s. split_and!; try done; [rewrite (enter_target _ _ _ Hwf' Hs); by apply (f_equal snd) in E|].
  intros other s' Hs' E'. eapply function_once; [done..|congruence].
Qed.
Lemma gw_enter_correct slots slot :
  slots_wf slots -> let '(target, logged, slots') := gw_enter slots slot in slots_wf slots' /\ function_of <$> slots' = function_of <$> slots.
Proof.
  intros Hwf. unfold gw_enter. destruct (slots !! slot) as [s|] eqn:Es; [|done]. destruct (_ || _); [done|].
  assert (function_of <$> <[slot:=mkSlot (sl_name s) (sl_target s) (w64 (sl_calls s + 1))]> slots = function_of <$> slots) as E.
  { rewrite list_fmap_insert. apply list_insert_id. by rewrite list_lookup_fmap, Es. }
  split; [|done]. destruct Hwf as [Hn Hb Ht]. split.
  - by rewrite E.
  - unfold gw_used in *. by rewrite length_insert.
  - apply Forall_insert; [done|]. cbn. by eapply Forall_lookup_1 in Ht.
Qed.

(** ** Whole runs *)

Inductive WrapCall := Wrap (name : option (list Z)) (target : Z) (copied : bool) | Enter (slot : nat).
Definition wrap_call (slots : list Slot) (call : WrapCall) : list Slot :=
  match call with
  | Wrap name target copied => (gw_wrap slots name target copied).2
  | Enter slot => (gw_enter slots slot).2
  end.
Lemma wrap_call_correct slots call :
  slots_wf slots -> slots_wf (wrap_call slots call) /\ function_of <$> slots `prefix_of` function_of <$> wrap_call slots call.
Proof.
  intros Hwf. destruct call as [name target copied|slot]; cbn [wrap_call].
  - pose proof (gw_wrap_correct slots name target copied Hwf) as H. destruct (gw_wrap _ _ _ _) as [address slots'].
    destruct H as (Hwf' & [rest ->] & _). split; [done|]. cbn. rewrite fmap_app. by eexists.
  - pose proof (gw_enter_correct slots slot Hwf) as H. destruct (gw_enter _ _) as [[target logged] slots']. destruct H as [Hwf' E]. cbn. by rewrite E.
Qed.
(** A trampoline keeps calling the function it was handed out for, whatever is
    wrapped and called afterwards. *)
Theorem wrapped_stays slots slot s calls :
  slots_wf slots -> slots !! slot = Some s -> (gw_enter (foldl wrap_call slots calls) slot).1.1 = sl_target s.
Proof.
  intros Hwf Hs. assert (slots_wf (foldl wrap_call slots calls) /\ function_of <$> slots `prefix_of` function_of <$> foldl wrap_call slots calls) as [Hwf' Hp].
  { clear Hs. revert slots Hwf. induction calls as [|call calls IH]; intros slots Hwf; [done|]. cbn [foldl].
    destruct (wrap_call_correct slots call Hwf) as [H1 H2]. destruct (IH _ H1) as [H3 H4]. split; [done|]. by transitivity (function_of <$> wrap_call slots call). }
  assert ((function_of <$> slots) !! slot = Some (function_of s)) as Hf by (by rewrite list_lookup_fmap, Hs).
  eapply prefix_lookup_Some in Hf; [|exact Hp]. rewrite list_lookup_fmap in Hf. apply fmap_Some in Hf as (s' & Hs' & E).
  rewrite (enter_target _ _ _ Hwf' Hs'). by apply (f_equal snd) in E.
Qed.
(** At most [GW_LOGGED] calls of a slot are logged. *)
Theorem enter_logged slots slot s :
  slots_wf slots -> slots !! slot = Some s -> 0 <= sl_calls s < UINT64_MAX ->
  let '(_, logged, slots') := gw_enter slots slot in
  (logged = true <-> sl_calls s < GW_LOGGED) /\ exists s', slots' !! slot = Some s' /\ sl_calls s' = sl_calls s + 1 /\ gw_returned slots' slot = logged.
Proof.
  intros Hwf Hs Hc. pose proof (enter_target slots slot s Hwf Hs) as Ht. destruct Hwf as [_ Hb Hall]. pose proof (lookup_lt_Some _ _ _ Hs) as Hlt.
  unfold gw_enter. rewrite Hs. unfold gw_used in Hb. rewrite (proj2 (Z.leb_gt GW_SLOTS _)) by lia. cbn [orb].
  assert (sl_target s <> 0) as Hne by (by eapply Forall_lookup_1 in Hall). rewrite (proj2 (Z.eqb_neq _ _)) by done.
  rewrite w64_small by (unfold u64_ok, UINT64_MAX in *; lia). split; [rewrite Z.leb_le; lia|].
  eexists. rewrite list_lookup_insert_eq by done. split; [done|]. split; [done|]. unfold gw_returned. rewrite list_lookup_insert_eq by done. cbn.
  rewrite (proj2 (Z.leb_gt GW_SLOTS _)) by lia. by rewrite (proj2 (Z.eqb_neq _ _)).
Qed.
End wrap.

(** The empty table, and one function wrapped twice. *)
Lemma no_slots_wf : slots_wf [].
Proof. split; [apply NoDup_nil_2|done|apply Forall_nil_2]. Qed.
Lemma gw_wrap_spec_witness :
  exists slots, gw_wrap 65536 [] (Some [102]) 4096 true = (65536, slots) /\ (gw_enter slots 0).1.1 = 4096.
Proof.
  pose proof (gw_wrap_spec 65536 [] (Some [102]) 4096 true no_slots_wf) as H.
  destruct (gw_wrap 65536 [] (Some [102]) 4096 true) as [address slots] eqn:E.
  assert (address = 65536) as -> by (apply (f_equal fst) in E; vm_compute in E; by symmetry).
  exists slots. split; [done|]. destruct H as (_ & _ & [(Hbad & _)|(n & slot & s & _ & Ea & Hs & _ & Ht & _)]); [done|].
  assert (slot = 0%nat) as -> by (unfold slot_address in Ea; lia). exact Ht.
Defined.
