(* ===== verification/GuestWaitTrace.v ===== *)
(** * GuestWaitTrace: what threads wait for (runtime/GuestWaitTrace.c)

    Each guest thread records what it waits for in a slot of its own, which
    another thread reads to report it. The slot is guarded by a sequence number
    that is odd while it changes. All accesses are sequentially consistent
    atomics, so a run is an interleaving of them: [step] takes one access of the
    slot's thread or of a reader. Names are pointers, zero when null. *)
From S2P Require Import Prelude.

Definition GWT_THREAD_LIMIT : Z := 256.
Record GWWaitRecord := mkRecord { operation : Z; address : Z }.
Definition no_record : GWWaitRecord := mkRecord 0 0.
Record Slot := mkSlot { sequence : Z; slot_operation : Z; slot_address : Z }.
Definition free_slot : Slot := mkSlot 0 0 0.

(** One access of the writer to its slot, and the accesses of a publication. *)
Inductive Access := AddSequence | StoreOperation (value : Z) | StoreAddress (value : Z).
Definition perform (slot : Slot) (access : Access) : Slot :=
  match access with
  | AddSequence => mkSlot (w32 (sequence slot + 1)) (slot_operation slot) (slot_address slot)
  | StoreOperation value => mkSlot (sequence slot) value (slot_address slot)
  | StoreAddress value => mkSlot (sequence slot) (slot_operation slot) value
  end.
Definition publish (record : GWWaitRecord) : list Access :=
  [AddSequence; StoreOperation (operation record); StoreAddress (address record); AddSequence].
(** What the loads of both fields give. *)
Definition content (slot : Slot) : GWWaitRecord := mkRecord (slot_operation slot) (slot_address slot).

(** The reader between two loads, with what it has loaded. *)
Inductive Reader :=
  | AtSequence
  | AtOperation (before : Z)
  | AtAddress (before : Z) (op : Z)
  | AtAgain (before : Z) (record : GWWaitRecord)
  | Done (out : option GWWaitRecord).
Definition reader_load (slot : Slot) (reader : Reader) : Reader :=
  match reader with
  | AtSequence => if Z.testbit (sequence slot) 0 then Done None else AtOperation (sequence slot)
  | AtOperation before => AtAddress before (slot_operation slot)
  | AtAddress before op => AtAgain before (mkRecord op (slot_address slot))
  | AtAgain before record =>
    if negb (before =? sequence slot) || (operation record =? 0) then Done None else Done (Some record)
  | Done out => Done out
  end.

(** The calls, run without interference. *)
Definition in_range (thread : Z) : bool := negb (thread =? 0) && (thread <=? GWT_THREAD_LIMIT).
Definition slot_index (thread : Z) : nat := Z.to_nat (thread - 1).
Definition gwt_begin (slots : list Slot) (thread op address : Z) : GWWaitRecord * list Slot :=
  if negb (in_range thread) then (no_record, slots) else
  match slots !! slot_index thread with
  | None => (no_record, slots)
  | Some slot => (content slot, <[slot_index thread := foldl perform slot (publish (mkRecord op address))]> slots)
  end.
Definition gwt_end (slots : list Slot) (thread : Z) (previous : GWWaitRecord) : list Slot :=
  if in_range thread then alter (fun slot => foldl perform slot (publish previous)) (slot_index thread) slots else slots.
Definition gwt_snapshot (slots : list Slot) (thread : Z) : option GWWaitRecord :=
  if negb (in_range thread) then None else
  match slots !! slot_index thread with
  | None => None
  | Some slot => match Nat.iter 4 (reader_load slot) AtSequence with Done out => out | _ => None end
  end.

(** ** Interleaving

    [published] holds every record the slot has held whole, newest first, and
    [seen] what it was when the reader made its first load: both are only
    observations of the run. *)
Record System := mkSystem {
  sy_slot : Slot; sy_writer : list Access; sy_reader : Reader;
  sy_published : list GWWaitRecord; sy_seen : list GWWaitRecord
}.
Definition initial : System := mkSystem free_slot [] AtSequence [no_record] [no_record].
Inductive step : System -> System -> Prop :=
  | writer_publishes y record :
      sy_writer y = [] ->
      step y (mkSystem (sy_slot y) (publish record) (sy_reader y) (sy_published y) (sy_seen y))
  | writer_access y access rest :
      sy_writer y = access :: rest ->
      step y (mkSystem (perform (sy_slot y) access) rest (sy_reader y)
        (match rest with [] => content (perform (sy_slot y) access) :: sy_published y | _ => sy_published y end) (sy_seen y))
  | reader_starts y out :
      sy_reader y = Done out ->
      step y (mkSystem (sy_slot y) (sy_writer y) AtSequence (sy_published y) (sy_seen y))
  | reader_access y :
      step y (mkSystem (sy_slot y) (sy_writer y) (reader_load (sy_slot y) (sy_reader y)) (sy_published y)
        (match sy_reader y with AtSequence => sy_published y | _ => sy_seen y end)).

(** ** What the sequence number counts *)

Definition writing (w : list Access) : Z := match w with [] => 0 | _ => if (length w =? 4)%nat then 0 else 1 end.
Definition ticks (y : System) : Z := 2 * (Z.of_nat (length (sy_published y)) - 1) + writing (sy_writer y).
(** What a reader that has loaded so far knows, when the slot has not changed since. *)
Definition loaded (reader : Reader) (seen : list GWWaitRecord) : Prop :=
  match reader with
  | AtAddress _ op => exists r, head seen = Some r /\ op = operation r
  | AtAgain _ record => head seen = Some record
  | _ => True
  end.
Definition before (reader : Reader) : option Z :=
  match reader with AtOperation b | AtAddress b _ | AtAgain b _ => Some b | _ => None end.
Record consistent (y : System) : Prop := {
  co_writer : exists record k, sy_writer y = drop k (publish record);
  co_published : (1 <= length (sy_published y))%nat;
  co_sequence : sequence (sy_slot y) = w32 (ticks y);
  co_content : writing (sy_writer y) = 0 -> head (sy_published y) = Some (content (sy_slot y));
  co_seen : sy_seen y `suffix_of` sy_published y;
  co_seen_some : (1 <= length (sy_seen y))%nat;
  co_before : forall b, before (sy_reader y) = Some b -> b = w32 (2 * (Z.of_nat (length (sy_seen y)) - 1));
  co_loaded : ticks y = 2 * (Z.of_nat (length (sy_seen y)) - 1) -> loaded (sy_reader y) (sy_seen y);
  co_done : forall r, sy_reader y = Done (Some r) ->
    Z.of_nat (length (sy_published y)) - Z.of_nat (length (sy_seen y)) < 2 ^ 31 -> head (sy_seen y) = Some r /\ operation r <> 0
}.

Lemma initial_consistent : consistent initial.
Proof.
  split; cbn; try done; try lia.
  by exists no_record, 4%nat.
Qed.
Lemma writing_range w : 0 <= writing w <= 1.
Proof. unfold writing. destruct w; [lia|]. destruct (_ =? _)%nat; lia. Qed.
Lemma even_writing n w : Z.testbit (w32 (2 * n + writing w)) 0 = false -> writing w = 0.
Proof.
  unfold w32. rewrite Z.mod_pow2_bits_low, Z.bit0_odd, Z.add_comm, Z.odd_add_mul_2 by lia.
  pose proof (writing_range w). intros Hodd. destruct (decide (writing w = 1)) as [E|]; [by rewrite E in Hodd|lia].
Qed.
Lemma w32_inj a b : w32 a = w32 b -> 0 <= a - b < 2 ^ 32 -> a = b.
Proof.
  unfold w32. intros E Hr. pose proof (Z.div_mod a (2 ^ 32) ltac:(lia)). pose proof (Z.div_mod b (2 ^ 32) ltac:(lia)). nia.
Qed.
Lemma w32_add a b : w32 (w32 a + b) = w32 (a + b).
Proof. unfold w32. by rewrite Zplus_mod_idemp_l. Qed.

(** A step of the writer: the number counts it, and what was read before it may
    no longer be current. *)
Lemma writer_consistent y slot w published :
  consistent y ->
  (exists record k, w = drop k (publish record)) ->
  sequence slot = w32 (2 * (Z.of_nat (length published) - 1) + writing w) ->
  (writing w = 0 -> head published = Some (content slot)) ->
  sy_published y `suffix_of` published ->
  ticks y <= 2 * (Z.of_nat (length published) - 1) + writing w ->
  consistent (mkSystem slot w (sy_reader y) published (sy_seen y)).
Proof.
  intros [] Hw Hs Hc Hsuffix Hticks. pose proof (suffix_length _ _ co_seen0) as Hl1. pose proof (suffix_length _ _ Hsuffix) as Hl2.
  split; cbn; try done; unfold ticks in *; cbn in *.
  - lia.
  - by transitivity (sy_published y).
  - intros E. apply co_loaded0. pose proof (writing_range (sy_writer y)). lia.
  - intros r Hr Hd. apply co_done0; [done|]. lia.
Qed.
Lemma writer_access_consistent y access rest :
  consistent y -> sy_writer y = access :: rest ->
  consistent (mkSystem (perform (sy_slot y) access) rest (sy_reader y)
    (match rest with [] => content (perform (sy_slot y) access) :: sy_published y | _ => sy_published y end) (sy_seen y)).
Proof.
  intros Hy E. destruct (co_writer y Hy) as (record & k & Hk). pose proof (co_sequence y Hy) as Hs. unfold ticks in Hs. rewrite E in Hk.
  destruct k as [|[|[|[|k]]]]; cbn in Hk; try (by destruct k); injection Hk as -> ->; rewrite E in Hs; cbn in Hs.
  - apply writer_consistent; try done; [by exists record, 1%nat| |unfold ticks; rewrite E; cbn [writing length Nat.eqb]; lia].
    cbn. rewrite Hs, w32_add. f_equal. lia.
  - apply writer_consistent; try done; [by exists record, 2%nat|unfold ticks; rewrite E; cbn [writing length Nat.eqb]; lia].
  - apply writer_consistent; try done; [by exists record, 3%nat|unfold ticks; rewrite E; cbn [writing length Nat.eqb]; lia].
  - apply writer_consistent; try done; [by exists record, 4%nat| |by eexists [_]|unfold ticks; rewrite E; cbn [writing length Nat.eqb]; lia].
    cbn [length writing perform sequence]. rewrite Hs, w32_add. f_equal. lia.
Qed.
(** A load of the reader. *)
Lemma reader_access_consistent y :
  consistent y ->
  consistent (mkSystem (sy_slot y) (sy_writer y) (reader_load (sy_slot y) (sy_reader y)) (sy_published y)
    (match sy_reader y with AtSequence => sy_published y | _ => sy_seen y end)).
Proof.
  intros []. pose proof (suffix_length _ _ co_seen0) as Hl. pose proof (writing_range (sy_writer y)) as Hw.
  assert (ticks y = 2 * (Z.of_nat (length (sy_seen y)) - 1) -> writing (sy_writer y) = 0 /\ sy_seen y = sy_published y) as Hsame.
  { unfold ticks. intros E. split; [lia|]. destruct co_seen0 as [pre Hpre]. rewrite Hpre in E |- *. rewrite length_app in E. by destruct pre; [|cbn in E; lia]. }
  destruct (sy_reader y) as [|b|b op|b record|out] eqn:Er; cbn [reader_load before loaded] in *.
  - destruct (Z.testbit (sequence (sy_slot y)) 0) eqn:Eb; split; try done; cbn; intros b [= <-]. rewrite co_sequence0 in Eb |- *.
    apply even_writing in Eb. unfold ticks. f_equal. lia.
  - split; try done; cbn. unfold ticks in *; cbn in *. intros E. destruct (Hsame E) as [Hz ->]. exists (content (sy_slot y)). split; [by apply co_content0|done].
  - split; try done; cbn. unfold ticks in *; cbn in *. intros E. destruct (co_loaded0 E) as (r & Hr & ->).
    destruct (Hsame E) as [Hz Heq]. rewrite Hr. rewrite Heq, co_content0 in Hr by done. by injection Hr as <-.
  - destruct (negb (b =? sequence (sy_slot y)) || (operation record =? 0)) eqn:Ec; split; try done; cbn. bool_props.
    intros r [= <-] Hd. split; [|done]. apply co_loaded0. apply w32_inj; [|unfold ticks; lia].
    rewrite <- co_sequence0, <- (co_before0 b) by done. by symmetry.
  - by split.
Qed.
Lemma step_consistent y y' : step y y' -> consistent y -> consistent y'.
Proof.
  intros Hstep Hy. destruct Hstep as [y record E|y access rest E|y out E|y].
  - apply writer_consistent; try done; [by exists record, 0%nat|..]; pose proof (co_sequence y Hy) as Hs; pose proof (co_content y Hy) as Hc;
      unfold ticks in *; rewrite E in *; cbn in *; [done|by auto|lia].
  - by apply writer_access_consistent.
  - destruct Hy. by split.
  - by apply reader_access_consistent.
Qed.
Lemma reachable_consistent y : rtc step initial y -> consistent y.
Proof.
  intros Hr. assert (forall z, rtc step z y -> consistent z -> consistent y) as Hall; [|eapply Hall; [done|apply initial_consistent]].
  intros z. induction 1; [done|]. eauto using step_consistent.
Qed.

(** C29: a snapshot is never torn. Whatever the interleaving of its loads with the
    publications, a record that is reported was published whole, was the current
    one when the snapshot began, and names an operation; the one assumption is
    that the sequence number does not go all the way round meanwhile. *)
Theorem gwt_snapshot_not_torn y record :
  rtc step initial y -> sy_reader y = Done (Some record) ->
  Z.of_nat (length (sy_published y)) - Z.of_nat (length (sy_seen y)) < 2 ^ 31 ->
  head (sy_seen y) = Some record /\ operation record <> 0.
Proof. intros Hr%reachable_consistent. apply (co_done y Hr). Qed.

(** ** The calls *)

(** Slots that nothing is writing to. *)
Definition idle (slot : Slot) : Prop := Z.testbit (sequence slot) 0 = false.
Definition reported (record : GWWaitRecord) : option GWWaitRecord := if operation record =? 0 then None else Some record.

Lemma foldl_publish slot record :
  foldl perform slot (publish record) = mkSlot (w32 (sequence slot + 2)) (operation record) (address record).
Proof. cbn. f_equal. rewrite w32_add. f_equal. lia. Qed.
Lemma publish_idle slot record : idle slot -> idle (foldl perform slot (publish record)).
Proof.
  unfold idle. rewrite foldl_publish. cbn [sequence]. unfold w32. rewrite Z.mod_pow2_bits_low, !Z.bit0_odd by lia.
  change 2 with (2 * 1). by rewrite Z.odd_add_mul_2.
Qed.
Lemma snapshot_idle slots thread slot :
  in_range thread = true -> slots !! slot_index thread = Some slot -> idle slot ->
  gwt_snapshot slots thread = reported (content slot).
Proof.
  intros Hr Hs Hi. unfold gwt_snapshot. rewrite Hr, Hs. unfold idle in Hi. cbn [negb Nat.iter nat_rect reader_load]. rewrite Hi. cbn [reader_load]. rewrite Z.eqb_refl. cbn [negb orb operation].
  unfold reported. cbn. by destruct (slot_operation slot =? 0).
Qed.
Lemma slot_index_inj t t' : in_range t = true -> in_range t' = true -> slot_index t = slot_index t' -> 0 <= t -> 0 <= t' -> t = t'.
Proof. unfold in_range, slot_index. intros H1 H2 E ? ?. bool_props. lia. Qed.

(** between its beginning and its end a wait is what its thread reports; the
    end brings back what was reported before, so that waits nest; other threads
    are not affected, nor is any state by a thread without a slot. *)
Theorem gwt_begin_end slots thread op a :
  0 <= thread -> length slots = Z.to_nat GWT_THREAD_LIMIT -> Forall idle slots ->
  let '(old, slots1) := gwt_begin slots thread op a in
  let slots2 := gwt_end slots1 thread old in
  (if in_range thread then gwt_snapshot slots1 thread = reported (mkRecord op a) else slots1 = slots /\ slots2 = slots) /\
  gwt_snapshot slots2 thread = gwt_snapshot slots thread /\ Forall idle slots1 /\ Forall idle slots2 /\
  forall other, 0 <= other -> other <> thread ->
    gwt_snapshot slots1 other = gwt_snapshot slots other /\ gwt_snapshot slots2 other = gwt_snapshot slots other.
Proof.
  intros Ht Hlen Hidle. unfold gwt_begin, gwt_end. destruct (in_range thread) eqn:Er; cbn [negb]; [|done].
  destruct (slots !! slot_index thread) as [slot|] eqn:Es.
  2: { apply lookup_ge_None in Es. unfold in_range, slot_index, GWT_THREAD_LIMIT in *. bool_props. lia. }
  pose proof (Forall_lookup_1 _ _ _ _ Hidle Es) as Hi. pose proof (lookup_lt_Some _ _ _ Es) as Hlt.
  assert (Hins : forall s, idle s -> Forall idle (<[slot_index thread := s]> slots)) by (intros; by apply Forall_insert).
  set (s1 := foldl perform slot (publish (mkRecord op a))). set (s2 := foldl perform s1 (publish (content slot))).
  assert (idle s1) as Hi1 by by apply publish_idle. assert (idle s2) as Hi2 by by apply publish_idle.
  assert (alter (fun slot0 => foldl perform slot0 (publish (content slot))) (slot_index thread) (<[slot_index thread := s1]> slots) =
    <[slot_index thread := s2]> slots) as ->.
  { apply list_eq. intros j. destruct (decide (slot_index thread = j)) as [<-|].
    - by rewrite list_lookup_alter_eq, !list_lookup_insert_eq by done.
    - by rewrite list_lookup_alter_ne, !list_lookup_insert_ne by done. }
  assert (Hat : forall s, idle s -> gwt_snapshot (<[slot_index thread := s]> slots) thread = reported (content s)).
  { intros s Hs. apply snapshot_idle; [done|by apply list_lookup_insert_eq|done]. }
  assert (Hother : forall s other, 0 <= other -> other <> thread -> gwt_snapshot (<[slot_index thread := s]> slots) other = gwt_snapshot slots other).
  { intros s other Ho Hne. unfold gwt_snapshot. destruct (in_range other) eqn:Eo; [|done]. cbn [negb]. rewrite list_lookup_insert_ne; [done|].
    intros E. apply Hne. symmetry. by apply slot_index_inj. }
  split; [rewrite Hat by done; by subst s1; rewrite foldl_publish|]. split; [|by auto].
  rewrite Hat by done. rewrite (snapshot_idle _ _ _ Er Es Hi). subst s2. rewrite foldl_publish. cbn. by destruct slot.
Qed.

(** ** Concrete runs *)

Definition example_slots : list Slot := replicate 256 free_slot.
Lemma gwt_begin_end_witness :
  exists old slots, gwt_begin example_slots 3 7 9 = (old, slots) /\ gwt_snapshot slots 3 = Some (mkRecord 7 9) /\
    gwt_snapshot (gwt_end slots 3 old) 3 = None.
Proof.
  assert (length example_slots = 256%nat) as Hlen by (vm_compute; reflexivity).
  pose proof (gwt_begin_end example_slots 3 7 9 ltac:(lia) Hlen ltac:(by apply Forall_replicate)) as Hs.
  destruct (gwt_begin example_slots 3 7 9) as [old slots]. destruct Hs as [H1 [H2 _]]. exists old, slots.
  split; [done|]. split; [exact H1|]. rewrite H2. reflexivity.
Defined.
(** A reader that looks between two publications and takes its time. *)
Lemma gwt_snapshot_not_torn_witness :
  exists y, rtc step initial y /\ sy_reader y = Done (Some (mkRecord 7 9)) /\ head (sy_seen y) = Some (mkRecord 7 9).
Proof.
  assert (exists y, rtc step initial y /\ sy_reader y = Done (Some (mkRecord 7 9)) /\ length (sy_published y) = length (sy_seen y)) as (y & Hy & Hd & Hl).
  { eexists. split.
    - eapply rtc_l; [by apply (writer_publishes _ (mkRecord 7 9))|]. do 4 (eapply rtc_l; [by apply writer_access|]). cbn.
      eapply rtc_l; [apply reader_access|]. eapply rtc_l; [apply reader_access|]. eapply rtc_l; [apply reader_access|].
      eapply rtc_l; [by apply (writer_publishes _ (mkRecord 5 5))|]. eapply rtc_l; [apply reader_access|]. apply rtc_refl.
    - by split. }
  exists y. split; [done|]. split; [done|]. apply (gwt_snapshot_not_torn y (mkRecord 7 9) Hy Hd). lia.
Defined.
