(* ===== verification/GuestWait.v ===== *)
(** * GuestWait: the main thread's waits (runtime/GuestWait.c)

    A wait of the main thread for a job's completion is broken into short ones, so
    that the host's events are taken meanwhile. The system's wait, the test for
    events and taking them are arguments. *)
From S2P Require Import Prelude.

Definition ETIMEDOUT : Z := 60.
Section wait.
(** The process's state [H] with its [errno]; the system's wait of an operation,
    address, value and time limit; whether events are pending, and taking them. *)
Context {H : Type} (get_errno : H -> Z) (set_errno : H -> Z -> H)
  (wait : H -> Z -> Z -> Z -> Z -> Z * H).

(** A turn of the loop: the answer, or another turn. *)
Definition wait_turn (pending : H -> bool * H) (pump : H -> H) (operation address value original_errno : Z) (h : H) : H + Z * H :=
  let h := set_errno h original_errno in
  let '(result, h) := wait h operation address value 10000 in
  let native_errno := get_errno h in
  if negb (result =? -1) || negb (native_errno =? ETIMEDOUT) then inr (result, set_errno h native_errno) else
  let '(some, h) := pending h in inl (if some then pump h else h).
Fixpoint gw_wait_loop (fuel : nat) (turn : H -> H + Z * H) (h : H) : option (Z * H) :=
  match fuel with
  | O => None
  | S fuel => match turn h with inr answer => Some answer | inl h => gw_wait_loop fuel turn h end
  end.
(** The loop lasts as long as the system's waits time out, for [fuel] turns here. *)
Definition gw_wait (fuel : nat) (h : H) (operation address value microseconds : Z) (main_thread : bool)
    (pending : option (H -> bool * H)) (pump : option (H -> H)) : option (Z * H) :=
  match pending, pump with
  | Some pending, Some pump =>
    if negb main_thread || negb (operation =? 1) || negb (microseconds =? 0) then Some (wait h operation address value microseconds) else
    gw_wait_loop fuel (wait_turn pending pump operation address value (get_errno h)) h
  | _, _ => Some (wait h operation address value microseconds)
  end.

(** ** What a wait does *)

(** [n] of the system's waits time out, each begun with the caller's [errno];
    after each the pending events are taken, and nothing is done without any. *)
Inductive timeouts (pending : H -> bool * H) (pump : H -> H) (operation address value caller_errno : Z) : nat -> H -> H -> Prop :=
| to_none h : timeouts pending pump operation address value caller_errno 0 h h
| to_quiet n h system after h' :
    wait (set_errno h caller_errno) operation address value 10000 = (-1, system) -> get_errno system = ETIMEDOUT ->
    pending system = (false, after) -> timeouts pending pump operation address value caller_errno n after h' ->
    timeouts pending pump operation address value caller_errno (S n) h h'
| to_events n h system after h' :
    wait (set_errno h caller_errno) operation address value 10000 = (-1, system) -> get_errno system = ETIMEDOUT ->
    pending system = (true, after) -> timeouts pending pump operation address value caller_errno n (pump after) h' ->
    timeouts pending pump operation address value caller_errno (S n) h h'.
(** The system answers with something other than a timeout. *)
Definition answers (operation address value caller_errno : Z) (h : H) (result : Z) (h' : H) : Prop :=
  exists system, wait (set_errno h caller_errno) operation address value 10000 = (result, system) /\
    h' = set_errno system (get_errno system) /\ ~ (result = -1 /\ get_errno system = ETIMEDOUT).

Section turns.
Context (pending : H -> bool * H) (pump : H -> H) (operation address value caller_errno : Z).
#[local] Abbreviation turn := (wait_turn pending pump operation address value caller_errno).
#[local] Abbreviation timed_out := (timeouts pending pump operation address value caller_errno).
Lemma turn_answers h result h' :
  turn h = inr (result, h') <-> answers operation address value caller_errno h result h'.
Proof.
  unfold wait_turn, answers. destruct (wait _ _ _ _ _) as [r system] eqn:Ew.
  destruct (Z.eqb_spec r (-1)) as [Hr|Hr], (Z.eqb_spec (get_errno system) ETIMEDOUT) as [He|He]; cbn [negb orb].
  { destruct (pending system) as [some h1]. split; [done|]. intros (x & [= -> ->] & _ & Hno). by destruct Hno. }
  all: split; [intros [= -> <-]; exists system; split_and!; try done; by intros []|by intros (x & [= -> ->] & -> & _)].
Qed.
Lemma turn_times_out h h1 : turn h = inl h1 -> forall n h', timed_out n h1 h' -> timed_out (S n) h h'.
Proof.
  unfold wait_turn. destruct (wait _ _ _ _ _) as [r system] eqn:Ew.
  destruct (Z.eqb_spec r (-1)) as [->|Hr], (Z.eqb_spec (get_errno system) ETIMEDOUT) as [He|He]; cbn [negb orb]; try done.
  destruct (pending system) as [[|] after] eqn:Ep; intros [= <-] n h' Hn; [by eapply to_events|by eapply to_quiet].
Qed.
Lemma timeouts_turn n h h' : timed_out (S n) h h' -> exists h1, turn h = inl h1 /\ timed_out n h1 h'.
Proof.
  intros Hn. inversion Hn as [|? ? system after ? Hw He Hp Hrest|? ? system after ? Hw He Hp Hrest]; subst;
    unfold wait_turn; rewrite Hw, He, Hp; cbn; by eexists.
Qed.
Lemma gw_wait_loop_answer fuel h result h' :
  gw_wait_loop fuel turn h = Some (result, h') <->
  exists n before, (n < fuel)%nat /\ timed_out n h before /\ answers operation address value caller_errno before result h'.
Proof.
  revert h. induction fuel as [|fuel IH]; intros h; cbn [gw_wait_loop]; [split; [done|intros (? & ? & ? & _); lia]|].
  destruct (turn h) as [h1|[r h1]] eqn:E.
  - rewrite IH. split.
    + intros (n & before & Hn & Ht & Ha). exists (S n), before. split; [lia|]. split; [by eapply turn_times_out|done].
    + intros ([|n] & before & Hn & Ht & Ha).
      * inversion Ht; subst. apply turn_answers in Ha. congruence.
      * apply timeouts_turn in Ht as (h2 & E2 & Ht). rewrite E in E2. injection E2 as <-. exists n, before. split; [lia|done].
  - split.
    + intros [= -> ->]. exists 0%nat, h. split; [lia|]. split; [constructor|by apply turn_answers].
    + intros ([|n] & before & Hn & Ht & Ha).
      * inversion Ht; subst. apply turn_answers in Ha. congruence.
      * apply timeouts_turn in Ht as (h2 & E2 & _). by rewrite E in E2.
Qed.
End turns.

(** C37: A wait that is not the main thread's job-completion wait is the system's own.
    That one answers exactly when the system does: after some of the system's
    waits timed out, each begun with the caller's [errno] and followed by the
    pump exactly when events were pending, with the system's answer and its
    [errno], which are never the timeout of a turn. *)
Theorem gw_wait_answer fuel h operation address value microseconds main_thread pending pump :
  let own := main_thread && (operation =? 1) && (microseconds =? 0) in
  (own = false \/ pending = None \/ pump = None ->
    gw_wait fuel h operation address value microseconds main_thread pending pump = Some (wait h operation address value microseconds)) /\
  (own = true -> forall pending' pump', pending = Some pending' -> pump = Some pump' -> forall result h',
    gw_wait fuel h operation address value microseconds main_thread pending pump = Some (result, h') <->
    exists n before, (n < fuel)%nat /\ timeouts pending' pump' operation address value (get_errno h) n h before /\
      answers operation address value (get_errno h) before result h').
Proof.
  cbv zeta. unfold gw_wait. split.
  - intros [Hown|[->| ->]]; [|done|by destruct pending]. destruct pending as [pending|], pump as [pump|]; try done.
    by rewrite <- !negb_andb, Hown.
  - intros Hown pending' pump' -> -> result h'. rewrite <- !negb_andb, Hown. apply gw_wait_loop_answer.
Qed.
End wait.

(** A system whose wait times out twice; the first turn finds an event to take. *)
Definition system_wait (h : Z * Z * Z) (operation address value microseconds : Z) : Z * (Z * Z * Z) :=
  let '(errno, timeouts, events) := h in
  if timeouts =? 0 then (0, (errno, timeouts, events)) else (-1, (ETIMEDOUT, timeouts - 1, events)).
Definition system_errno (h : Z * Z * Z) (e : Z) : Z * Z * Z := let '(_, timeouts, events) := h in (e, timeouts, events).
Lemma gw_wait_answer_witness :
  gw_wait (fun h => h.1.1) system_errno system_wait 3 (5, 2, 1) 1 0 0 0 true (Some (fun h => (0 <? h.2, h)))
    (Some (fun h => (h.1, h.2 - 1))) = Some (0, (5, 0, 0)).
Proof.
  pose proof (gw_wait_answer (fun h => h.1.1) system_errno system_wait 3 (5, 2, 1) 1 0 0 0 true
    (Some (fun h => (0 <? h.2, h))) (Some (fun h => (h.1, h.2 - 1)))) as [_ Hs].
  apply (Hs eq_refl _ _ eq_refl eq_refl 0 (5, 0, 0)). exists 2%nat, (ETIMEDOUT, 0, 0). split; [lia|]. split.
  - apply (to_events _ _ _ _ _ _ _ _ _ 1 (5, 2, 1) (ETIMEDOUT, 1, 1) (ETIMEDOUT, 1, 1)); [reflexivity..|].
    apply (to_quiet _ _ _ _ _ _ _ _ _ 0 (ETIMEDOUT, 1, 0) (ETIMEDOUT, 0, 0) (ETIMEDOUT, 0, 0)); [reflexivity..|]. constructor.
  - exists (5, 0, 0). split; [reflexivity|]. split; [reflexivity|]. by intros [].
Defined.
