(* ===== verification/DisplayTables.v ===== *)
(** * DisplayTables: the gamma ramp and status texts
    (translation/CoreGraphics/Gamma.c, translation/CoreServices/Errors.c)

    The display's ramp cannot be changed, but what a program sets is what it reads
    back. Values are floating-point numbers, whose type, zero and division are
    arguments; a null pointer is [None]. [strerror] is the C library's. *)
From Stdlib Require Import String.
From S2P Require Import Prelude.

Definition AKMainDisplay : Z := 1.
Definition AKGammaTableCapacity : Z := 256.
Definition kCGErrorSuccess : Z := 0.
Definition kCGErrorIllegalArgument : Z := 1001.

Section gamma.
Context {V : Type} (zero : V) (divide : Z -> Z -> V).
(** The three tables, and how many of their values a program has set. *)
Record Ramp := mkRamp { red_table : list V; green_table : list V; blue_table : list V; table_size : Z }.
Definition initial_ramp : Ramp := mkRamp (replicate 256 zero) (replicate 256 zero) (replicate 256 zero) 0.
Definition CGDisplayGammaTableCapacity (display : Z) : Z := if display =? AKMainDisplay then AKGammaTableCapacity else 0.
Definition no_table (table : option (list V)) : bool := match table with None => true | _ => false end.
(** The first [size] values of [values] over those of [table]. *)
Definition copied (table : list V) (values : option (list V)) (size : Z) : list V := splice 0 (take (Z.to_nat size) (default [] values)) table.
Definition CGSetDisplayTransferByTable (ramp : Ramp) (display size : Z) (red green blue : option (list V)) : Z * Ramp :=
  if negb (display =? AKMainDisplay) then (kCGErrorIllegalArgument, ramp) else
  if (AKGammaTableCapacity <? size) || (negb (size =? 0) && (no_table red || no_table green || no_table blue)) then (kCGErrorIllegalArgument, ramp) else
  (kCGErrorSuccess, mkRamp (copied (red_table ramp) red size) (copied (green_table ramp) green size) (copied (blue_table ramp) blue size) size).
Definition linear (size i : Z) : V := if 1 <? size then divide i (size - 1) else zero.
(** What is stored in each of the caller's tables, and the count. *)
Definition CGGetDisplayTransferByTable (ramp : Ramp) (display capacity : Z) (red green blue count : bool)
    : Z * option (list V * list V * list V * Z) :=
  if negb (display =? AKMainDisplay) || negb count || (negb (capacity =? 0) && (negb red || negb green || negb blue))
  then (kCGErrorIllegalArgument, None) else
  let size := if table_size ramp =? 0 then AKGammaTableCapacity else table_size ramp in
  let size := if capacity <? size then capacity else size in
  let stored (table : list V) : list V :=
    (fun i => if table_size ramp =? 0 then linear size i else default zero (table !! Z.to_nat i)) <$> seqZ 0 size in
  (kCGErrorSuccess, Some (stored (red_table ramp), stored (green_table ramp), stored (blue_table ramp), size)).
Definition CGDisplayRestoreColorSyncSettings (ramp : Ramp) : Ramp := mkRamp (red_table ramp) (green_table ramp) (blue_table ramp) 0.

(** The tables have their size, and no more of them is in use. *)
Record ramp_wf (ramp : Ramp) : Prop := {
  rw_red : length (red_table ramp) = 256%nat; rw_green : length (green_table ramp) = 256%nat; rw_blue : length (blue_table ramp) = 256%nat;
  rw_size : 0 <= table_size ramp <= AKGammaTableCapacity
}.
Lemma initial_ramp_wf : ramp_wf initial_ramp.
Proof. by split. Qed.
Lemma length_copied table values size :
  length table = 256%nat -> 0 <= size <= AKGammaTableCapacity -> length (copied table values size) = 256%nat.
Proof. intros Hl Hs. unfold copied. rewrite length_splice; [done|]. rewrite length_take. unfold AKGammaTableCapacity in *. lia. Qed.
Lemma set_wf ramp display size red green blue :
  ramp_wf ramp -> 0 <= size -> ramp_wf (CGSetDisplayTransferByTable ramp display size red green blue).2.
Proof.
  intros [] Hs. unfold CGSetDisplayTransferByTable. destruct (negb _); [by split|]. destruct (Z.ltb_spec AKGammaTableCapacity size); cbn [orb]; [by split|].
  destruct (_ && _); [by split|]. split; cbn; try (apply length_copied; [done|unfold AKGammaTableCapacity in *; lia]). unfold AKGammaTableCapacity in *. lia.
Qed.
Lemma stored_copied table values n m :
  length table = 256%nat -> 0 <= m <= n -> n <= AKGammaTableCapacity -> (Z.to_nat n <= length values)%nat ->
  (fun i => default zero (copied table (Some values) n !! Z.to_nat i)) <$> seqZ 0 m = take (Z.to_nat m) values.
Proof.
  intros Ht Hm Hn Hv. unfold AKGammaTableCapacity in *. apply list_eq. intros j. rewrite list_lookup_fmap. destruct (decide (Z.of_nat j < m)).
  - rewrite lookup_seqZ_lt by lia. cbn. unfold copied. change (default [] (Some values)) with values. rewrite lookup_splice by (rewrite length_take; lia).
    rewrite length_take. rewrite decide_True by lia. rewrite Nat.sub_0_r. replace (Z.to_nat (0 + Z.of_nat j)) with j by lia.
    rewrite !lookup_take_lt by lia. destruct (lookup_lt_is_Some_2 values j) as [v Hv']; [lia|]. by rewrite Hv'.
  - rewrite lookup_seqZ_ge by lia. cbn. symmetry. apply lookup_take_ge. lia.
Qed.
(** a program that sets a ramp is told that it took and reads back what it set,
    as much as it has room for; until it sets one, and after it restores the
    display's own, it reads a linear one. *)
Theorem gamma_set_get ramp size capacity red green blue :
  ramp_wf ramp -> 0 < size <= AKGammaTableCapacity -> 0 <= capacity ->
  (Z.to_nat size <= length red)%nat -> (Z.to_nat size <= length green)%nat -> (Z.to_nat size <= length blue)%nat ->
  let '(result, ramp') := CGSetDisplayTransferByTable ramp AKMainDisplay size (Some red) (Some green) (Some blue) in
  let n := Z.min capacity size in
  let m := Z.min capacity AKGammaTableCapacity in
  let flat := linear m <$> seqZ 0 m in
  result = kCGErrorSuccess /\ ramp_wf ramp' /\
  CGGetDisplayTransferByTable ramp' AKMainDisplay capacity true true true true =
    (kCGErrorSuccess, Some (take (Z.to_nat n) red, take (Z.to_nat n) green, take (Z.to_nat n) blue, n)) /\
  CGGetDisplayTransferByTable (CGDisplayRestoreColorSyncSettings ramp') AKMainDisplay capacity true true true true =
    (kCGErrorSuccess, Some (flat, flat, flat, m)).
Proof.
  intros Hwf Hs Hc Hr Hg Hb. pose proof (set_wf ramp AKMainDisplay size (Some red) (Some green) (Some blue) Hwf ltac:(lia)) as Hwf'. destruct Hwf.
  unfold CGSetDisplayTransferByTable in *. rewrite Z.eqb_refl in *. cbn [negb no_table orb] in *. rewrite (proj2 (Z.ltb_ge AKGammaTableCapacity size)) in * by lia.
  cbn [orb] in *. rewrite andb_false_r in *. split; [done|]. split; [done|].
  assert (Hmin : forall x, (if capacity <? x then capacity else x) = Z.min capacity x) by (intros x; destruct (Z.ltb_spec capacity x); lia).
  unfold CGGetDisplayTransferByTable, CGDisplayRestoreColorSyncSettings. rewrite Z.eqb_refl. cbn [negb orb table_size red_table green_table blue_table].
  rewrite !andb_false_r, Hmin. cbn [Z.eqb]. rewrite (proj2 (Z.eqb_neq size 0)) by lia. rewrite Hmin.
  split; [|done]. rewrite !stored_copied by (done || lia). done.
Qed.
End gamma.
Lemma gamma_set_get_witness :
  CGGetDisplayTransferByTable 0 Z.div (CGSetDisplayTransferByTable (initial_ramp 0) AKMainDisplay 2 (Some [1; 2]) (Some [3; 4]) (Some [5; 6])).2
    AKMainDisplay 1 true true true true = (kCGErrorSuccess, Some ([1], [3], [5], 1)).
Proof.
  pose proof (gamma_set_get 0 Z.div (initial_ramp 0) 2 1 [1; 2] [3; 4] [5; 6] (initial_ramp_wf 0) ltac:(unfold AKGammaTableCapacity; lia) ltac:(lia)
    ltac:(cbn; lia) ltac:(cbn; lia) ltac:(cbn; lia)) as Hs.
  destruct (CGSetDisplayTransferByTable (initial_ramp 0) AKMainDisplay 2 (Some [1; 2]) (Some [3; 4]) (Some [5; 6])) as [result ramp].
  destruct Hs as (_ & _ & Hg & _). exact Hg.
Defined.

(** ** Status texts *)

Section errors.
Context (strerror : Z -> string).
Definition GetMacOSStatusCommentString (status : Z) : string :=
  if (100000 <=? status) && (status <? 101000) then strerror (status - 100000) else
  if status =? 0 then "Call succeeded with no error"%string else
  if status =? -50 then "error in user parameter list"%string else
  if status =? -43 then "File not found"%string else
  if status =? -108 then "Not enough memory"%string else ""%string.
Definition GetMacOSStatusErrorString (status : Z) : string :=
  if status =? 0 then "noErr"%string else
  if status =? -50 then "paramErr"%string else
  if status =? -43 then "fnfErr"%string else
  if status =? -108 then "memFullErr"%string else
  if status =? 100001 then "EPERM"%string else
  if status =? 100002 then "ENOENT"%string else
  if status =? 100013 then "EACCES"%string else ""%string.
(** A status that has a name has a comment, when the C library describes the
    errors it stands for. *)
Theorem status_named status :
  (forall e, 0 <= e < 1000 -> strerror e <> ""%string) ->
  GetMacOSStatusErrorString status <> ""%string -> GetMacOSStatusCommentString status <> ""%string.
Proof.
  intros Hs. unfold GetMacOSStatusErrorString, GetMacOSStatusCommentString.
  repeat match goal with |- context [status =? ?n] => destruct (Z.eqb_spec status n) as [->|] end; cbn; try done; intros _; apply Hs; lia.
Qed.
End errors.
